(* ===== verification/_CoqProject ===== *)
-Q . S2P
Prelude.v
GoStrings.v
GoSpace.v
GoStrconv.v
GoInt.v
RbacRules.v
RbacCovers.v
RbacObjects.v
RbacResolver.v
RbacAuthorizer.v
RbacEscalation.v
RbacReconcile.v
RbacReconcileBindings.v
Authz.v
Cpuset.v
CpuTopology.v
CpuAssignment.v
PodQos.v
CpuState.v
CpuManager.v
Workqueue.v
Bitmap.v
GoNet.v
AllocatorStorage.v
PortAllocator.v
IpAllocator.v
PortRepair.v
Store.v
Heap.v
DeltaFifo.v
Informer.v
LeaderElection.v
Int64Amount.v
DeploymentRolling.v
DeploymentScaling.v
Validation.v
LabelSelector.v
LabelSelectorPrint.v
NodeTree.v
NodeInfo.v
SchedulerCache.v
SchedulerCacheSpec.v
NodeGraph.v
NodeGraphSpec.v
NodeGraphPaths.v
NodeWalk.v
NodeRelated.v
NodeAuthorizer.v
NodeAuthorizerSpec.v
Fifo.v
SchedulingQueue.v
SchedulingQueueSpec.v
Expectations.v
ControllerRef.v
ReplicaSet.v
ReplicaSetSpec.v
ReplicaSetSystem.v
DelayingQueue.v
RateLimiters.v
ClientMonad.v
ControllerHistory.v
StatefulSet.v
StatefulSetControl.v
StatefulSetSpec.v
StatefulSetProgress.v
StatefulSetHistory.v
InfDec.v
ResourceQuantity.v
QuantityParse.v
QuantityPrint.v
QuantityArith.v
