(* ===== verification/Prelude.v ===== *)
(** * Kubernetes 1.13.4: a verification library for its core components

    The repository holds the sources of Kubernetes 1.13.4 under
    [src/src/kubernetes-1.13.4] (with minikube and deployment scripts beside it).
    This library models parts of it that decide who may do what and who gets
    which resource, and proves them correct. Paths below are relative to that
    directory.

    ** The program's parts and the files that model them

    - Access control (RBAC). A request is a record of attributes; roles hold rules;
      bindings give the rules of a role to subjects.
      [RbacRules.v] models rules, attributes and matching
      ([pkg/apis/rbac/v1/evaluation_helpers.go], [RuleAllows] and [RulesAllow] of
      [plugin/pkg/auth/authorizer/rbac/rbac.go], [ValidatePolicyRule]).
      [RbacCovers.v] models the comparison of rule lists
      ([pkg/registry/rbac/validation/policy_comparator.go], [policy_compact.go]).
      [RbacObjects.v] has the stored objects, their metadata and the API errors.
      [RbacResolver.v] models the rule resolver ([validation/rule.go]) behind the
      interface [AuthorizationRuleResolver], whose laws are the class
      [RuleResolverLaws]; [RbacAuthorizer.v] the authorizer and the subject locator
      against that class. [RbacEscalation.v] models the escalation checks
      ([escalation_check.go], [ConfirmNoEscalation]) and the four policy-based
      storages. [RbacReconcile.v] and [RbacReconcileBindings.v] model the
      reconciliation of roles and bindings ([pkg/registry/rbac/reconciliation]),
      over the classes [RuleOwner] and [BindingOwner] and an API client given by
      its laws.
    - The authorizer chain, [Authz.v]: union, always-allowed paths and built-in
      authorizers of [staging/src/k8s.io/apiserver/pkg/authorization].
    - The kubelet's CPU manager. [Cpuset.v] ([pkg/kubelet/cm/cpuset]): sets,
      printing, parsing, and the builder with the store it shares.
      [CpuTopology.v] and [CpuAssignment.v] ([cpumanager/topology],
      [cpu_assignment.go]): topology queries, discovery and [takeByTopology].
      [PodQos.v] ([pkg/apis/core/v1/helper/qos]). [CpuState.v]
      ([cpumanager/state]): the interface [State], with the in-memory and the
      checkpointed implementation, both instances of [StateLaws]. [CpuManager.v]
      ([policy_none.go], [policy_static.go], [cpu_manager.go], and the container
      identifiers of [pkg/kubelet/container/runtime.go]): policies, manager and
      reconcile loop over any state.
    - The work queue of the controllers ([staging/src/k8s.io/client-go/util/workqueue]):
      [Workqueue.v] the queue itself as a step relation, [DelayingQueue.v] the queue to
      which items are added later, with its heap and its loop, and [RateLimiters.v] the
      limiters that say how much later.
    - Service allocators: [Bitmap.v] ([pkg/registry/core/service/allocator]) and,
      over the interface [AllocatorInterface] it implements, whose calls can fail,
      [PortAllocator.v] ([portallocator/allocator.go], [operation.go]) and
      [IpAllocator.v] ([ipallocator/allocator.go]) on the networks of [GoNet.v]. The
      class [AllocatorLaws] is for allocators that do not fail, as the bitmap;
      [AllocatorSafety] is for those that may fail before or after a call took effect.
      [AllocatorStorage.v] ([allocator/storage/storage.go]) keeps an allocator of
      the class [SnapshottableLaws] in storage, shared by several API servers, as a
      step relation, and is itself an [AllocatorSafety]; [PortRepair.v] has the parsing of port ranges, snapshots, and
      the repair loop ([portallocator/controller/repair.go]) over it.
    - The caches of the clients ([staging/src/k8s.io/client-go/tools/cache]):
      [Store.v] the indexed store ([thread_safe_store.go], [store.go], [index.go]),
      [Heap.v] the keyed heap, [DeltaFifo.v] the queue of deltas, [Fifo.v] the queue
      of objects, and [Informer.v] the informer that feeds the store from the deltas
      ([shared_informer.go], [controller.go]).
    - Leader election, [LeaderElection.v] ([client-go/tools/leaderelection]): a try to
      acquire or renew the lease and its lock, and any number of clients that make such
      calls as a step relation.
    - Quantities ([apimachinery/pkg/api/resource]): [Int64Amount.v] overflow-checked
      arithmetic and decimal amounts ([math.go], [amount.go]), [InfDec.v] decimals of any
      size ([vendor/gopkg.in/inf.v0]), [ResourceQuantity.v] the type itself with its
      suffixes, parsing, printing, arithmetic, integer values and JSON ([quantity.go],
      [suffix.go], [scale_int.go]). [QuantityParse.v] has what is parsed,
      [QuantityPrint.v] that what is printed is read back, [QuantityArith.v] sums,
      integer values and the string a quantity keeps.
    - The deployment controller ([pkg/controller/deployment]): [DeploymentRolling.v]
      the bounds of a rolling update and its rounds ([rolling.go],
      [util/deployment_util.go], [intstr.go]), [DeploymentScaling.v] proportional
      scaling ([sync.go]), revisions and recreating updates ([recreate.go]).
    - Names and labels: [Validation.v] the formats of names and label values
      ([apimachinery/pkg/util/validation]) as regular expressions with a matcher,
      [LabelSelector.v] requirements, lexer and parser of selectors
      ([apimachinery/pkg/labels]) and the selectors of API objects
      ([meta/v1/helpers.go]), [LabelSelectorPrint.v] their printing and meaning.
    - The scheduler's cache ([pkg/scheduler/internal/cache], [pkg/scheduler/cache]):
      [NodeTree.v] the nodes by zone with the iteration over zones in turn,
      [NodeInfo.v] what a node is asked for (resources, host ports, images),
      [SchedulerCache.v] the cache of assumed and added pods, and
      [SchedulerCacheSpec.v] its state machine and what it promises.
    - The scheduler's queue ([pkg/scheduler/internal/queue]): [SchedulingQueue.v] the
      active heap, the pods parked as unschedulable and the nominated pods;
      [SchedulingQueueSpec.v] its invariant and what becomes of requests to move pods.
    - The replica set controller ([pkg/controller/replicaset]): [Expectations.v] what a
      controller waits for ([pkg/controller/controller_utils.go]), [ControllerRef.v] how
      it claims objects ([controller_ref_manager.go]), [ReplicaSet.v] the handlers, the
      management of replicas, the status and a whole sync, [ReplicaSetSpec.v] the order
      of deletions, slow start and the outcome for the expectations, and
      [ReplicaSetSystem.v] the single steps of a sync beside a server and a late
      informer, as a step relation.
    - The stateful set controller ([pkg/controller/statefulset]) and the history of
      revisions ([pkg/controller/history]): [ClientMonad.v] functions that call the API
      server, with the retry on conflicts ([client-go/util/retry]);
      [ControllerHistory.v] the names, hashes, equality and creation of revisions;
      [StatefulSet.v] names and ordinals, claims and volumes, identities and new pods
      ([stateful_set_utils.go]); [StatefulSetControl.v] the pass over the pods of a set
      against the interface [PodControl] and its real implementation, the revisions and
      status of a set, the sync and the handlers ([stateful_set_control.go],
      [stateful_pod_control.go], [stateful_set_status_updater.go], [stateful_set.go]);
      [StatefulSetSpec.v] the account of a pass as operations on pods,
      [StatefulSetProgress.v] passes and kubelets in any order on a cluster in memory, and
      [StatefulSetHistory.v] what the revisions are for.
    - The node authorizer ([plugin/pkg/auth/authorizer/node]): [NodeGraph.v] the
      graph of objects and nodes over the forked graph library
      ([third_party/forked/gonum/graph]), its index of destinations and the walk;
      [NodeAuthorizer.v] the identity of a node, the decision on each resource and
      the handlers that keep the graph; [NodeGraphSpec.v] and [NodeGraphPaths.v]
      that the graph represents the edges between API objects, [NodeWalk.v] that a
      walk finds what can be reached, [NodeRelated.v] which objects a node needs,
      and [NodeAuthorizerSpec.v] the decision after any sequence of events.
    - [Prelude.v] (this file) has the result type for Go's error returns, notation,
      tactics, the hint database [go] and lemmas on lists and booleans;
      [GoStrings.v], [GoSpace.v], [GoStrconv.v], [GoInt.v] and [GoNet.v] what the
      code uses of Go's [strings], [strconv], machine integers and [net].

    ** How code becomes definitions

    One definition per Go function, with the Go name where it is free. A function
    that returns a value and an error returns [result]; state is passed and
    returned; a lock makes a method one step. Maps are [gmap]s, sets [gset]s, and
    where Go tells nil from empty an [option] does too. Machine integers are [Z];
    where the width matters the wrap-around is written out ([GoInt.v]). The order in
    which Go enumerates a map is a parameter ([CompactRules]) or shown not to
    matter. A loop that stops early is a recursive function; retries ([Run] of the
    reconciliations, [RunOnce] of the repair) recurse on the attempts left. Fuel
    bounds the bytes and words of a bitmap (its binary logarithm plus one), the
    sifting of the heap (its length), the removal of factors (64 turns, or the
    logarithm plus one), the dry-run port search (its own bound), the lexer and the
    parser of selectors (the length of the input), the iteration over the node tree
    (nodes and zones), the trimming of spaces (the length of the string), the walk of the node authorizer (the number of vertices, each
    of which is taken from the stack once), the batches of slow start (one call in
    each at least) and the names that are tried for a revision (one more than the
    collisions); the theorems about them show the bounds are enough. Concurrency is
    interleaving: a step is what the code does under a lock, or one request to the
    server, and requests can fail before or after they took effect. A function of the
    stateful set controller runs in a monad over the state of the server and the caches,
    and ends with a value, an error, a panic, or not yet.

    Code outside the sources is a parameter with named laws: the wrapped storages
    and API clients ([StandardStorage], [ModifierLaws], [BindingModifierLaws]), the
    container runtime and the pod status provider of the CPU manager, what
    [sort.Slice] returns for a comparison that is no order (any permutation,
    [SortSlice]), the token bucket of a rate limiter, the sorts of requirements, pods
    and revisions ([SortByKey], [SortActive], [SortOrdinal], [SortRevisions]), the
    answers of the API server to the calls of a sync ([answers], [Client],
    [RevisionClient]), the patches that revisions hold and their application
    ([PatchCodec], without laws), the order in
    which claims are enumerated ([RangeClaims]), the number a random source draws, what
    a conversion of a float that is out of range gives ([out_of_range]), the order in
    which the neighbours of a vertex are visited and whether a slice has spare room
    ([visit], [spare]). Each set of laws has a concrete instance in the file that states
    it or in one that uses it. The API server behind a lock or a
    stored allocation is a stored value with a version: a write names the version it
    was computed from and is refused when that is not the current one.

    ** What the theorems show

    - Rules: covering is sound for every request and exact on resource rules;
      breaking down and compacting preserve the allowed requests.
    - Authorization: the authorizer implements the declarative meaning of bindings
      and agrees with the subject locator; chains and path authorizers decide as
      documented.
    - Escalation: without the escalate or bind permission no create or update
      gives anyone a permission its author does not hold.
    - Reconciliation: results have exactly the permissions or subjects asked for,
      are fixed points, and runs store them, or leave alone what opted out.
    - CPU manager: allocation is exact and total; exclusivity of CPUs, once
      the stored assignments are disjoint, is an invariant of every interleaving of the
      manager's critical sections and of the reconcile loop; failures roll back; checkpoints restore the state.
    - Work queue: one worker per item, no lost or overtaken additions; delayed items are
      not added early, and one that is due is added by any run of the loop that is long
      enough; delays grow with the failures of an item.
    - Allocators: the bitmap is a set with an exact count; snapshots restore;
      port transactions roll back and commit as they should, and when the storage fails
      hold at most what a failed call may have left; an address range hands
      out the addresses of its network without the first and the last; servers that
      share a stored allocation never hand out an item that is held; a repair pass
      stores what is in use and what may still be in flight.
    - Caches: the indexed store is a map with exact indexes; the heap is a map whose
      Pop removes a least object; queue and map of the DeltaFIFO agree; and an
      informer converges to the server's objects, with notifications that tell the
      same story.
    - Leader election: for the time of a lease the record names the client whose call
      succeeded, and nobody replaces it sooner. How long a client acts as leader, which
      the timer loops of [Run] decide, is not modelled.
    - Quantities: checked operations are exact or refused, comparison is that of the
      decimals, and the canonical form is one per decimal; both paths of the parser yield
      the number that is written, what is printed is read back as the same number unless
      the parser would cap or round it, sums
      are exact across the two representations, integer values are rounded up, and the
      string that is kept is never stale.
    - Deployments: a round of a rolling update keeps both bounds whatever is refused,
      and rounds complete it; proportional scaling adds up; a recreating update has
      no two versions at once.
    - Selectors: parsing ends on every string; a printed selector parses to itself;
      the selector of an API object means what its labels and expressions say.
    - Scheduler cache: a node's sums are those of the pods on it, the operations make
      the transitions of the state machine, refuse or stop the process in exactly the
      cases that are told, snapshots by generation are exact, and
      the tree iterates over the nodes that are present.
    - FIFO and scheduling queue: the FIFO is a queue of the latest objects; a pod is in
      one of the scheduler's queues at most and requests to move pods are not lost.
    - Replica sets: whatever the informer has not shown yet, a sync neither creates nor
      deletes a pod too many, up to the pods that are not listed once an expectation has
      timed out or an error has hidden a creation; a sync makes progress when nothing is
      refused; claiming is exact for any answers of the server.
    - Stateful sets: a pass over an ordered set refines its account as operations on pods,
      for any answers; passes and kubelets in any order complete a rolling update, and a
      pass takes an available replica away only when all are available; a pass over a
      parallel set does not wait; the pods that are made are members of the set; the
      update revision holds the patch of the template, creating a revision ends, and only the oldest unused revisions are deleted.
    - Node authorizer: after any events a kubelet is allowed exactly what its node
      needs by the pods as the handlers were last told of them with a node, apart from
      stale entries of large indexes.
    - Some theorems record where the code departs from what it documents, and are
      listed as findings: the duplicates of [AllowedSubjects], the order of
      [freeCPUs], the missing overlap check of [validateState], skipped elements in
      [cpuset.Parse], the builder's [Result], the dry-run port search, what a relist
      of the DeltaFIFO loses and keeps, the unchecked negation of [Sub], addresses
      that share a slot in large networks, the repair's counters, the overflow of
      [getReplicaSetFraction], what [SelectorFromSet] makes of labels that are not
      valid, what the parser of selectors refuses, drops or does not read, pods and
      nodes the scheduler cache loses or panics on, host ports that count as free,
      the index of the node authorizer that deletions leave behind, the place of an
      object that is deleted from the FIFO and added again, nominations that the
      scheduling queue forgets or shares, four comments of the replica set controller,
      the backoff that escapes its cap, a panic, a scale down that does not end and a
      negative count in the stateful set controller, comments on its status and on equal
      revisions, the update of a revision that a conflict loses, what applying a revision
      keeps of the set, updates to pods without a node that the node authorizer skips,
      stale statuses in a rolling update, pod names with leading
      zeros, prefixes of names that are accepted, and of quantities the suffixes that are
      missing from the print, exponents that are cut, strings without digits, strings kept
      although they are not canonical or after null was read, negative integer values, and
      the limits that comments promise.

    ** What is not modelled, and the plan

    Printing of diagnostics, logging, metrics, generated code, conversions and
    calls into cloud providers, volumes and runtimes are left out, and so are the
    timer loops of leader election and, of stateful sets, the text of patches and their
    application. The theorems on rollouts of stateful sets are about passes that see the
    pods as they are, a server that refuses nothing, and kubelets that start every pod.
    Next in line: the address repair loop; the default
    roles of the bootstrap policy; the job and daemon controllers, which use the same
    expectations and references. *)

From stdpp Require Export base tactics option list list_numbers gmap fin_maps
  fin_sets sets strings sorting relations.
From Stdlib Require Export Ascii ZArith Lia.

#[global] Open Scope Z_scope.

(** ** Go results

    A Go function that returns [(T, error)] is a function into [result]:
    [Ok v] is the pair with a nil error, [Err e] the pair with the error [e].
    A function that returns a value together with a non-fatal error returns a
    product instead. *)

Inductive result (E A : Type) : Type :=
  | Ok (a : A)
  | Err (e : E).

Arguments Ok {E A} a.
Arguments Err {E A} e.

Declare Scope go_scope.
Delimit Scope go_scope with go.

(** [x <-? c ;; k] is the Go idiom [x, err := c; if err != nil { return err }]. *)
Notation "x <-? c ;; k" :=
  (match c with Ok x => k | Err e => Err e end)
  (at level 100, c at next level, k at level 200, right associativity) : go_scope.

#[global] Instance result_eq_dec {E A} `{EqDecision E, EqDecision A} :
  EqDecision (result E A).
Proof. solve_decision. Defined.

(** [is_ok r] is the test [err == nil]. *)
Definition is_ok {E A} (r : result E A) : bool :=
  match r with Ok _ => true | Err _ => false end.

(** ** Tactics *)

(** Case analysis on the scrutinee of a match or an [if] of the goal. *)
Ltac go_case :=
  match goal with
  | |- context [match ?x with _ => _ end] => destruct x eqn:?
  end.

(** Case analysis in a hypothesis, discarding the impossible branches. *)
Ltac go_case_in H :=
  match type of H with
  | context [match ?x with _ => _ end] => destruct x eqn:?; simplify_eq/=
  end.

(** Turns boolean tests of the context and the goal into propositions. *)
Ltac to_prop :=
  repeat match goal with
  | H : _ && _ = true |- _ => apply andb_true_iff in H as [? ?]
  | H : _ || _ = true |- _ => apply orb_true_iff in H
  | H : _ && _ = false |- _ => apply andb_false_iff in H
  | H : _ || _ = false |- _ => apply orb_false_iff in H as [? ?]
  | H : negb _ = true |- _ => apply negb_true_iff in H
  | H : negb _ = false |- _ => apply negb_false_iff in H
  | H : bool_decide _ = true |- _ => apply bool_decide_eq_true in H
  | H : bool_decide _ = false |- _ => apply bool_decide_eq_false in H
  | H : (_ =? _)%Z = true |- _ => apply Z.eqb_eq in H
  | H : (_ =? _)%Z = false |- _ => apply Z.eqb_neq in H
  | H : (_ <? _)%Z = true |- _ => apply Z.ltb_lt in H
  | H : (_ <? _)%Z = false |- _ => apply Z.ltb_ge in H
  | H : (_ <=? _)%Z = true |- _ => apply Z.leb_le in H
  | H : (_ <=? _)%Z = false |- _ => apply Z.leb_gt in H
  end.

(** ** Lists and booleans *)

Lemma existsb_elem {A} (f : A → bool) (l : list A) :
  existsb f l = true ↔ ∃ x, x ∈ l ∧ f x = true.
Proof.
  rewrite existsb_exists. split; intros (x & Hx & Hf); exists x;
    by rewrite ?list_elem_of_In in *.
Qed.

Lemma forallb_elem {A} (f : A → bool) (l : list A) :
  forallb f l = true ↔ ∀ x, x ∈ l → f x = true.
Proof.
  rewrite forallb_forall. split; intros H x Hx; apply H;
    by rewrite ?list_elem_of_In in *.
Qed.

Lemma bool_eq_iff (a b : bool) : (a = true ↔ b = true) → a = b.
Proof. destruct a, b; intuition congruence. Qed.

Lemma elem_of_flat_map {A B} (f : A → list B) (l : list A) (y : B) :
  y ∈ flat_map f l ↔ ∃ x, x ∈ l ∧ y ∈ f x.
Proof.
  rewrite list_elem_of_In, in_flat_map.
  split; intros (x & ? & ?); exists x; by rewrite !list_elem_of_In in *.
Qed.

Lemma list_nil_iff {A} (l : list A) : l = [] ↔ ∀ x, x ∉ l.
Proof.
  split; [intros ->; apply not_elem_of_nil|]. apply elem_of_nil_inv.
Qed.

Lemma existsb_app_or {A} (f : A → bool) (l k : list A) :
  existsb f (l ++ k) = existsb f l || existsb f k.
Proof. apply existsb_app. Qed.

Lemma existsb_perm {A} (f : A → bool) (l k : list A) :
  l ≡ₚ k → existsb f l = existsb f k.
Proof.
  intros Hp. apply bool_eq_iff. rewrite !existsb_elem.
  by setoid_rewrite Hp.
Qed.

(** [andb_elim]: boolean conjunction in a goal, one conjunct per subgoal. *)
Ltac split_andb :=
  repeat match goal with |- _ && _ = true => apply andb_true_intro; split end.

Create HintDb go discriminated.
#[export] Hint Rewrite @existsb_elem @forallb_elem andb_true_iff orb_true_iff
  negb_true_iff bool_decide_eq_true : go_bool.
