(* ===== verification/GoStrings.v ===== *)
(** * The functions of Go's package [strings] that the models use

    A Go string is a sequence of bytes: a [string] of the Standard Library.
    The functions below are the ones the RBAC and path code calls
    ([HasPrefix], [HasSuffix], [TrimRight] with a one-character cutset,
    [TrimPrefix], [Contains] and [SplitN(s, sep, 2)] with a one-character
    separator), each with the lemma that characterises it. *)

From S2P Require Import Prelude.

#[global] Arguments String.append !_ _ / : simpl nomatch.

(** [strings.HasPrefix(s, p)] *)
Fixpoint HasPrefix (s p : string) : bool :=
  match p, s with
  | "", _ => true
  | String a p', String b s' => bool_decide (a = b) && HasPrefix s' p'
  | String _ _, "" => false
  end.

(** [strings.HasSuffix(s, suf)] *)
Fixpoint HasSuffix (s suf : string) : bool :=
  bool_decide (s = suf) ||
  match s with "" => false | String _ s' => HasSuffix s' suf end.

(** [strings.TrimRight(s, "c")] *)
Fixpoint TrimRight (s : string) (c : ascii) : string :=
  match s with
  | "" => ""
  | String a s' =>
      match TrimRight s' c with
      | "" => if bool_decide (a = c) then "" else String a ""
      | t => String a t
      end
  end.

(** [strings.TrimPrefix(s, "c")] *)
Definition TrimPrefix1 (s : string) (c : ascii) : string :=
  match s with
  | String a s' => if bool_decide (a = c) then s' else s
  | "" => ""
  end.

(** [strings.Contains(s, "c")] *)
Fixpoint ContainsChar (s : string) (c : ascii) : bool :=
  match s with
  | "" => false
  | String a s' => bool_decide (a = c) || ContainsChar s' c
  end.

(** [strings.SplitN(s, "c", 2)] *)
Fixpoint SplitN2 (s : string) (c : ascii) : list string :=
  match s with
  | "" => [""]
  | String a s' =>
      if bool_decide (a = c) then [""; s']
      else match SplitN2 s' c with
           | t :: rest => String a t :: rest
           | [] => [String a ""]
           end
  end.

(** [strings.Join(parts, sep)] *)
Fixpoint Join (parts : list string) (sep : string) : string :=
  match parts with
  | [] => ""
  | [p] => p
  | p :: rest => p +:+ sep +:+ Join rest sep
  end.

(** ** Prefixes *)

Lemma string_app_assoc (s t u : string) : (s +:+ t) +:+ u = s +:+ (t +:+ u).
Proof. induction s; simpl; congruence. Qed.

Lemma HasPrefix_spec (s p : string) :
  HasPrefix s p = true ↔ ∃ t, s = p +:+ t.
Proof.
  revert s. induction p as [|a p IH]; intros s; simpl.
  - split; [|by destruct s]. intros _. by exists s.
  - destruct s as [|b s]; simpl.
    + split; [done|]. by intros [t ?].
    + rewrite andb_true_iff, bool_decide_eq_true, IH. split.
      * intros [-> [t ->]]. by exists t.
      * intros [t [= -> ->]]. split; [done|]. by exists t.
Qed.

Lemma HasPrefix_refl (s : string) : HasPrefix s s = true.
Proof. induction s as [|a s IH]; simpl; [done|]. by rewrite IH, bool_decide_true. Qed.

Lemma HasPrefix_empty (s : string) : HasPrefix s "" = true.
Proof. by destruct s. Qed.

Lemma HasPrefix_trans (s t u : string) :
  HasPrefix s t = true → HasPrefix t u = true → HasPrefix s u = true.
Proof.
  rewrite !HasPrefix_spec. intros [x ->] [y ->]. exists (y +:+ x).
  by rewrite string_app_assoc.
Qed.

Lemma TrimRight_prefix (s : string) (c : ascii) : HasPrefix s (TrimRight s c) = true.
Proof.
  induction s as [|a s IH]; simpl; [done|].
  destruct (TrimRight s c) as [|b t] eqn:E; simpl.
  - case_bool_decide; simpl; rewrite ?bool_decide_true by done;
      by rewrite ?HasPrefix_empty.
  - rewrite bool_decide_true by done. done.
Qed.

(** A prefix of [s] that does not end in [c] survives the trimming of [c]. *)
Lemma TrimRight_keeps_prefix (s p : string) (c : ascii) :
  HasPrefix s p = true → TrimRight p c = p → HasPrefix (TrimRight s c) p = true.
Proof.
  revert s. induction p as [|a p IH]; intros s Hs Hp; simpl in *.
  { by rewrite HasPrefix_empty. }
  destruct s as [|b s]; [done|]. apply andb_true_iff in Hs as [Hab Hs].
  apply bool_decide_eq_true in Hab as <-. simpl.
  destruct (TrimRight p c) as [|d t] eqn:E.
  - case_bool_decide; [done|]. injection Hp as <-.
    destruct (TrimRight s c); simpl; rewrite ?bool_decide_false by done; simpl;
      by rewrite bool_decide_true.
  - injection Hp as <-. specialize (IH s Hs eq_refl).
    destruct (TrimRight s c) as [|e u]; [done|].
    simpl in *. by rewrite (bool_decide_true (a = a)).
Qed.

Lemma TrimRight_idem (s : string) (c : ascii) :
  TrimRight (TrimRight s c) c = TrimRight s c.
Proof.
  induction s as [|a s IH]; simpl; [done|].
  destruct (TrimRight s c) as [|b t] eqn:E; simpl.
  - case_bool_decide; simpl; [done|]. by rewrite bool_decide_false.
  - simpl in IH. by rewrite IH.
Qed.

(** ** Suffixes *)

Lemma HasSuffix_spec (s suf : string) :
  HasSuffix s suf = true ↔ ∃ t, s = t +:+ suf.
Proof.
  induction s as [|a s IH]; simpl; rewrite orb_true_iff, bool_decide_eq_true.
  - split.
    + intros [<-|?]; [by exists ""|done].
    + intros [[|? ?] ?]; naive_solver.
  - rewrite IH. split.
    + intros [<-|[t ->]]; [by exists ""|]. by exists (String a t).
    + intros [[|b t] Ht]; simpl in *; [by left|]. injection Ht as -> ->.
      right. by exists t.
Qed.

Lemma string_length_app (s t : string) :
  String.length (s +:+ t) = (String.length s + String.length t)%nat.
Proof. induction s; simpl; congruence. Qed.

Lemma string_app_nil_r (s : string) : s +:+ "" = s.
Proof. induction s; simpl; congruence. Qed.

Lemma string_app_inv_length (a b c d : string) :
  a +:+ b = c +:+ d → String.length a = String.length c → a = c ∧ b = d.
Proof.
  revert c. induction a as [|x a IH]; intros [|y c] H Hl; simpl in *; try done.
  injection H as -> H. destruct (IH c H) as [-> ->]; [lia|done].
Qed.

(** The three tests of [ResourceMatches] on a rule resource characterise
    the resource ["*/" + subresource]. *)
Lemma star_slash_spec (r sub : string) :
  (String.length r = String.length sub + 2)%nat ∧
  HasPrefix r "*/" = true ∧ HasSuffix r sub = true ↔ r = "*/" +:+ sub.
Proof.
  rewrite HasPrefix_spec, HasSuffix_spec. split.
  - intros (Hl & [t ->] & [u Hu]). rewrite string_length_app in Hl. simpl in Hl.
    assert (String.length u = 2%nat) as Hul.
    { apply (f_equal String.length) in Hu. rewrite string_length_app in Hu.
      rewrite string_length_app in Hu. simpl in Hu. lia. }
    by destruct (string_app_inv_length "*/" t u sub Hu) as [<- ->].
  - intros ->. rewrite string_length_app. simpl String.length.
    repeat split; [lia | by exists sub | by exists "*/"].
Qed.

(** ** Splitting at a separator *)

Lemma ContainsChar_app (s t : string) (c : ascii) :
  ContainsChar (s +:+ t) c = ContainsChar s c || ContainsChar t c.
Proof. induction s as [|a s IH]; simpl; [done|]. by rewrite IH, orb_assoc. Qed.

Lemma SplitN2_none (s : string) (c : ascii) :
  ContainsChar s c = false → SplitN2 s c = [s].
Proof.
  induction s as [|a s IH]; simpl; [done|]. intros H.
  apply orb_false_iff in H as [Ha Hs]. by rewrite Ha, IH.
Qed.

Lemma SplitN2_app (s t : string) (c : ascii) :
  ContainsChar s c = false → SplitN2 (s +:+ String c t) c = [s; t].
Proof.
  induction s as [|a s IH]; simpl; intros H.
  - by rewrite bool_decide_true.
  - apply orb_false_iff in H as [Ha Hs]. by rewrite Ha, IH.
Qed.

(** A string that contains [c] splits at its first [c]. *)
Lemma ContainsChar_split (s : string) (c : ascii) :
  ContainsChar s c = true →
  ∃ x y, s = x +:+ String c y ∧ ContainsChar x c = false.
Proof.
  induction s as [|a s IH]; simpl; [done|]. intros H.
  destruct (decide (a = c)) as [->|Hne].
  - by exists "", s.
  - rewrite bool_decide_false in H by done. destruct (IH H) as (x & y & -> & Hx).
    exists (String a x), y. simpl. by rewrite bool_decide_false, Hx by done.
Qed.

Lemma split_unique (x y x' y' : string) (c : ascii) :
  ContainsChar x c = false → ContainsChar x' c = false →
  x +:+ String c y = x' +:+ String c y' → x = x' ∧ y = y'.
Proof.
  intros Hx Hx' H. apply (f_equal (λ s, SplitN2 s c)) in H.
  rewrite !SplitN2_app in H by done. by simplify_eq.
Qed.

(** The byte length of a string, as Go's [len]. *)
Definition slen (s : string) : Z := Z.of_nat (String.length s).

Lemma slen_zero (s : string) : slen s = 0 ↔ s = "".
Proof. unfold slen. destruct s; simpl; split; try done; lia. Qed.
