(* ===== verification/GoSpace.v ===== *)
(** * Space characters

    [strings.TrimSpace] on strings of bytes: the spaces of Unicode in their UTF-8
    encodings. *)

From S2P Require Import Prelude GoStrings.

Definition bytes (l : list nat) : string := String.string_of_list_ascii (map ascii_of_nat l).

(** The encodings of the characters that [unicode.IsSpace] accepts. *)
Definition spaces : list string :=
  map bytes
    ([[9]; [10]; [11]; [12]; [13]; [32]; [194; 133]; [194; 160]; [225; 154; 128]; [226; 128; 168];
      [226; 128; 169]; [226; 128; 175]; [226; 129; 159]; [227; 128; 128]]%nat
     ++ map (λ k, [226; 128; 128 + k]%nat) (seq 0 11)).

Definition drop_prefix (s : string) (n : nat) : string := String.substring n (String.length s - n) s.
Definition drop_suffix (s : string) (n : nat) : string := String.substring 0 (String.length s - n) s.

Fixpoint trim_left (fuel : nat) (s : string) : string :=
  match fuel with
  | O => s
  | S fuel =>
      match list_find (λ w, HasPrefix s w = true) spaces with
      | None => s
      | Some (_, w) => trim_left fuel (drop_prefix s (String.length w))
      end
  end.

Fixpoint trim_right (fuel : nat) (s : string) : string :=
  match fuel with
  | O => s
  | S fuel =>
      match list_find (λ w, HasSuffix s w = true) spaces with
      | None => s
      | Some (_, w) => trim_right fuel (drop_suffix s (String.length w))
      end
  end.

(** [strings.TrimSpace]; a character that is trimmed makes the string shorter. *)
Definition TrimSpace (s : string) : string :=
  trim_right (String.length s) (trim_left (String.length s) s).

(** A string of visible ASCII characters is not changed. *)
Definition visible (c : ascii) : bool :=
  (33 <=? Z.of_nat (nat_of_ascii c)) && (Z.of_nat (nat_of_ascii c) <=? 126).

Lemma spaces_hidden w : w ∈ spaces → ∃ c, ContainsChar w c = true ∧ visible c = false.
Proof.
  assert (forallb (λ w, match w with String c _ => negb (visible c) | "" => false end) spaces = true) as H
    by (by vm_compute).
  rewrite forallb_forall in H. intros Hw%list_elem_of_In%H. destruct w as [|c w]; [done|].
  exists c. split; [simpl; by rewrite bool_decide_true|by apply negb_true_iff].
Qed.

Lemma TrimSpace_visible s : (∀ c, ContainsChar s c = true → visible c = true) → TrimSpace s = s.
Proof.
  intros Hs.
  assert (∀ w a b, w ∈ spaces → s = a +:+ w +:+ b → False) as Hno.
  { intros w a b (c & Hc & Hv)%spaces_hidden ->. rewrite Hs in Hv; [done|].
    by rewrite !ContainsChar_app, Hc, orb_true_r. }
  assert (∀ fuel, trim_left fuel s = s) as Hl.
  { intros [|fuel]; cbn [trim_left]; [done|].
    destruct (list_find (λ w, HasPrefix s w = true) spaces) as [[i w]|] eqn:E; [|done].
    apply list_find_Some in E as (Hw%list_elem_of_lookup_2 & (t & Et)%HasPrefix_spec & _).
    by destruct (Hno w "" t). }
  assert (∀ fuel, trim_right fuel s = s) as Hr.
  { intros [|fuel]; cbn [trim_right]; [done|].
    destruct (list_find (λ w, HasSuffix s w = true) spaces) as [[i w]|] eqn:E; [|done].
    apply list_find_Some in E as (Hw%list_elem_of_lookup_2 & (t & Et)%HasSuffix_spec & _).
    destruct (Hno w t ""); [done|]. by rewrite string_app_nil_r. }
  unfold TrimSpace. by rewrite Hl.
Qed.
