(* ===== verification/GoStrconv.v ===== *)
(** * Decimal numbers and splitting

    [strconv.Itoa], [strconv.Atoi] on a 64-bit platform, [strings.Split] with a
    one-character and with a longer separator, and [strings.Trim], with their round
    trips. *)

From S2P Require Import Prelude GoStrings.
From Stdlib Require Import DecimalString DecimalZ DecimalPos.

Definition MaxInt64 : Z := 2 ^ 63 - 1.
Definition MinInt64 : Z := - 2 ^ 63.

(** ** [strconv] *)

Definition Itoa (i : Z) : string := NilZero.string_of_int (Z.to_int i).

Inductive NumError : Type :=
  | ErrSyntax (s : string)
  | ErrRange (s : string).

#[global] Instance NumError_eq_dec : EqDecision NumError.
Proof. solve_decision. Defined.

(** An optional sign and at least one digit. *)
Definition Atoi (s : string) : result NumError Z :=
  let digits :=
    match s with
    | String "+" s' => Decimal.Pos <$> NilZero.uint_of_string s'
    | _ => NilZero.int_of_string s
    end in
  match digits with
  | None => Err (ErrSyntax s)
  | Some d =>
      let z := Z.of_int d in
      if (MinInt64 <=? z) && (z <=? MaxInt64) then Ok z else Err (ErrRange s)
  end.

(** ** [strings.Split] *)

Fixpoint Split (s : string) (c : ascii) : list string :=
  match s with
  | "" => [""]
  | String a s' =>
      if bool_decide (a = c) then "" :: Split s' c
      else match Split s' c with
           | t :: rest => String a t :: rest
           | [] => [String a ""]
           end
  end.

(** With a separator of several characters; [skip] is what is left of the
    separator just found. *)
Fixpoint SplitSep (s sep : string) (skip : nat) : list string :=
  match s with
  | "" => [""]
  | String a s' =>
      match skip with
      | S skip => SplitSep s' sep skip
      | O =>
          if HasPrefix s sep then "" :: SplitSep s' sep (String.length sep - 1)
          else match SplitSep s' sep 0 with
               | t :: rest => String a t :: rest
               | [] => [String a ""]
               end
      end
  end.

(** [strings.Trim] with one character *)
Fixpoint TrimLeft (s : string) (c : ascii) : string :=
  match s with
  | "" => ""
  | String a s' => if bool_decide (a = c) then TrimLeft s' c else s
  end.

Definition Trim (s : string) (c : ascii) : string := TrimRight (TrimLeft s c) c.

Lemma SplitSep_none (s rest : string) (c : ascii) :
  ContainsChar s c = false → SplitSep s (String c rest) 0 = [s].
Proof.
  induction s as [|a s IH]; simpl; [done|]. intros [Ha Hs]%orb_false_iff.
  rewrite IH by done. apply bool_decide_eq_false in Ha.
  by rewrite bool_decide_false by congruence.
Qed.

Lemma SplitSep_skip (sep s full : string) :
  SplitSep (sep +:+ s) full (String.length sep) = SplitSep s full 0.
Proof. by induction sep; simpl. Qed.

Lemma SplitSep_app (p s rest : string) (c : ascii) :
  ContainsChar p c = false →
  SplitSep (p +:+ String c (rest +:+ s)) (String c rest) 0 =
  p :: SplitSep s (String c rest) 0.
Proof.
  induction p as [|a p IH].
  - intros _. change ("" +:+ String c (rest +:+ s)) with (String c (rest +:+ s)).
    cbn [SplitSep].
    replace (HasPrefix (String c (rest +:+ s)) (String c rest)) with true
      by (symmetry; apply HasPrefix_spec; by exists s).
    simpl. by rewrite Nat.sub_0_r, SplitSep_skip.
  - simpl. intros [Ha Hp]%orb_false_iff. rewrite IH by done.
    apply bool_decide_eq_false in Ha. by rewrite bool_decide_false by congruence.
Qed.

Lemma Split_none (s : string) (c : ascii) : ContainsChar s c = false → Split s c = [s].
Proof.
  induction s as [|a s IH]; simpl; [done|]. intros [Ha Hs]%orb_false_iff.
  rewrite Ha. by rewrite IH.
Qed.

Lemma Split_app (p s : string) (c : ascii) :
  ContainsChar p c = false → Split (p +:+ String c s) c = p :: Split s c.
Proof.
  induction p as [|a p IH]; simpl; [by rewrite bool_decide_true|].
  intros [Ha Hp]%orb_false_iff. rewrite Ha. by rewrite IH.
Qed.

Lemma Split_Join (parts : list string) (c : ascii) :
  parts ≠ [] → (∀ p, p ∈ parts → ContainsChar p c = false) →
  Split (Join parts (String c "")) c = parts.
Proof.
  induction parts as [|p parts IH]; [done|]. intros _ Hp.
  destruct parts as [|q parts].
  - simpl. apply Split_none, Hp. left.
  - change (Join (p :: q :: parts) (String c ""))
      with (p +:+ String c (Join (q :: parts) (String c ""))).
    rewrite Split_app by (apply Hp; left). f_equal. apply IH; [done|].
    intros x Hx. apply Hp. by right.
Qed.

(** A list of parts each followed by the separator, with the last separator
    trimmed, is the join of the parts. *)
Lemma TrimRight_app_char (s : string) (c : ascii) :
  TrimRight (s +:+ String c "") c = TrimRight s c.
Proof.
  induction s as [|a s IH]; simpl.
  - by rewrite bool_decide_true.
  - by rewrite IH.
Qed.

Lemma TrimRight_none (s : string) (c : ascii) :
  ContainsChar s c = false → TrimRight s c = s.
Proof.
  induction s as [|a s IH]; simpl; [done|]. intros [Ha Hs]%orb_false_iff.
  rewrite IH by done. destruct s; [|done]. by rewrite Ha.
Qed.

Lemma Trim_none (s : string) (c : ascii) : ContainsChar s c = false → Trim s c = s.
Proof.
  intros Hs. unfold Trim. replace (TrimLeft s c) with s; [by apply TrimRight_none|].
  destruct s as [|a s]; simpl in *; [done|]. by apply orb_false_iff in Hs as [-> _].
Qed.

Lemma TrimRight_app (s t : string) (c : ascii) :
  TrimRight t c ≠ "" → TrimRight (s +:+ t) c = s +:+ TrimRight t c.
Proof.
  intros Ht. induction s as [|a s IH]; simpl; [done|]. rewrite IH.
  destruct (s +:+ TrimRight t c) eqn:E; [|done].
  destruct s; [by destruct (TrimRight t c)|done].
Qed.

Lemma TrimRight_Join (parts : list string) (c : ascii) :
  (∀ p, p ∈ parts → ContainsChar p c = false ∧ p ≠ "") →
  TrimRight (foldr (λ p acc, p +:+ String c "" +:+ acc) "" parts) c =
  Join parts (String c "").
Proof.
  induction parts as [|p parts IH]; intros Hp; [done|].
  destruct (Hp p) as [Hc Hne]; [left|]. cbn [foldr].
  destruct parts as [|q parts].
  - cbn [foldr Join]. change (String c "" +:+ "") with (String c "").
    rewrite TrimRight_app_char. by apply TrimRight_none.
  - change (Join (p :: q :: parts) (String c ""))
      with (p +:+ String c "" +:+ Join (q :: parts) (String c "")).
    rewrite <- IH by (intros x Hx; apply Hp; by right).
    assert (TrimRight (foldr (λ p acc, p +:+ String c "" +:+ acc) "" (q :: parts)) c ≠ "") as Hn.
    { rewrite IH by (intros x Hx; apply Hp; by right).
      destruct (Hp q) as [_ Hq]; [right; left|]. destruct q; [done|]. by destruct parts. }
    rewrite <- !string_app_assoc. by rewrite TrimRight_app.
Qed.

(** ** Itoa and Atoi *)

Lemma to_int_nonnil (z : Z) : Z.to_int z ≠ Decimal.Pos Decimal.Nil ∧
  Z.to_int z ≠ Decimal.Neg Decimal.Nil.
Proof.
  destruct z as [|p|p]; simpl; split; try done; intros [= E];
    by apply (DecimalPos.Unsigned.to_uint_nonnil p).
Qed.

Lemma uint_string_no (d : Decimal.uint) (c : ascii) :
  c ∉ ["0"; "1"; "2"; "3"; "4"; "5"; "6"; "7"; "8"; "9"]%char →
  ContainsChar (NilEmpty.string_of_uint d) c = false.
Proof.
  intros Hc. induction d; simpl; [done|..]; rewrite bool_decide_false, IHd by set_solver; done.
Qed.

(** The digits of a natural number contain no separator. *)
Lemma Itoa_no_char (z : Z) (c : ascii) :
  0 ≤ z → c ∉ ["0"; "1"; "2"; "3"; "4"; "5"; "6"; "7"; "8"; "9"]%char →
  ContainsChar (Itoa z) c = false.
Proof.
  intros Hz Hc. unfold Itoa. assert (∀ d, ContainsChar (NilZero.string_of_uint d) c = false) as Hd.
  { intros d. destruct d; try (by apply uint_string_no).
    simpl. rewrite bool_decide_false by set_solver. done. }
  destruct z; [apply Hd|apply Hd|lia].
Qed.

Lemma Itoa_nonempty (z : Z) : 0 ≤ z → Itoa z ≠ "".
Proof.
  intros Hz. unfold Itoa. destruct z as [|p|p]; [done| |lia]. simpl.
  by destruct (Pos.to_uint p).
Qed.

(** [Atoi (Itoa z) = z] on the 64-bit range of natural numbers. *)
Lemma Atoi_Itoa (z : Z) : 0 ≤ z ≤ MaxInt64 → Atoi (Itoa z) = Ok z.
Proof.
  intros Hz. unfold Atoi.
  assert (ContainsChar (Itoa z) "+"%char = false) as Hplus
    by (apply Itoa_no_char; [lia|set_solver]).
  assert (match Itoa z with
          | String "+" s' => Decimal.Pos <$> NilZero.uint_of_string s'
          | _ => NilZero.int_of_string (Itoa z)
          end = Some (Z.to_int z)) as ->.
  { transitivity (NilZero.int_of_string (Itoa z)).
    - destruct (Itoa z) as [|[[] [] [] [] [] [] [] []] s]; try done.
    - unfold Itoa. apply NilZero.isi; apply to_int_nonnil. }
  rewrite DecimalZ.of_to. unfold MinInt64, MaxInt64 in *.
  rewrite !(proj2 (Z.leb_le _ _)) by lia. done.
Qed.
