(* ===== verification/GoInt.v ===== *)
(** * Machine integers

    Go's [int64] and [int32] as integers with the wrap-around written out, and the
    result of an operation that checks for overflow. *)

From S2P Require Import Prelude.

Definition in64 (z : Z) : Prop := - 2 ^ 63 ≤ z ≤ 2 ^ 63 - 1.

#[global] Instance in64_dec z : Decision (in64 z).
Proof. unfold in64. apply _. Defined.

(** Two's complement. *)
Definition wrap64 (z : Z) : Z := (z + 2 ^ 63) mod 2 ^ 64 - 2 ^ 63.
Definition wrap32 (z : Z) : Z := (z + 2 ^ 31) mod 2 ^ 32 - 2 ^ 31.

(** Division on [int64] truncates; the most negative number by minus one wraps. *)
Definition div64 (a b : Z) : Z := wrap64 (Z.quot a b).

(** The exact result when it fits. *)
Definition checked (z : Z) : option Z := if decide (in64 z) then Some z else None.

Lemma checked_in z : in64 z → checked z = Some z.
Proof. intros. unfold checked. by rewrite decide_True. Qed.

Lemma checked_out z : ¬ in64 z → checked z = None.
Proof. intros. unfold checked. by rewrite decide_False. Qed.

Ltac width64 := unfold in64 in *;
  change (2 ^ 63) with 9223372036854775808 in *; change (2 ^ 64) with 18446744073709551616 in *.

Lemma wrap64_in z : in64 z → wrap64 z = z.
Proof. unfold wrap64. width64. intros. rewrite Z.mod_small; lia. Qed.

Lemma wrap64_range z : in64 (wrap64 z).
Proof. unfold wrap64. width64. pose proof (Z.mod_pos_bound (z + 9223372036854775808)
  18446744073709551616 ltac:(lia)). lia. Qed.

Lemma wrap64_congr z : ∃ k, wrap64 z = z + k * 2 ^ 64.
Proof.
  unfold wrap64. width64. exists (- ((z + 9223372036854775808) / 18446744073709551616)).
  pose proof (Z.div_mod (z + 9223372036854775808) 18446744073709551616 ltac:(lia)). lia.
Qed.

Lemma wrap64_eq a b k : a = b + k * 2 ^ 64 → wrap64 a = wrap64 b.
Proof.
  intros ->. unfold wrap64. replace (b + k * 2 ^ 64 + 2 ^ 63) with (b + 2 ^ 63 + k * 2 ^ 64) by lia.
  by rewrite Z_mod_plus_full.
Qed.

Lemma wrap64_add_l a b : wrap64 (wrap64 a + b) = wrap64 (a + b).
Proof. destruct (wrap64_congr a) as [k ->]. apply (wrap64_eq _ _ k). lia. Qed.

Lemma wrap64_add_r a b : wrap64 (a + wrap64 b) = wrap64 (a + b).
Proof. rewrite (Z.add_comm a), wrap64_add_l. f_equal. lia. Qed.

Lemma wrap64_idem a : wrap64 (wrap64 a) = wrap64 a.
Proof. apply wrap64_in, wrap64_range. Qed.

Lemma wrap32_in z : - 2 ^ 31 ≤ z < 2 ^ 31 → wrap32 z = z.
Proof.
  unfold wrap32. change (2 ^ 31) with 2147483648. change (2 ^ 32) with 4294967296.
  intros. rewrite Z.mod_small; lia.
Qed.
