(* ===== verification/RbacRules.v ===== *)
(** * RBAC policy rules and the requests they allow

    [staging/src/k8s.io/api/rbac/v1/types.go] (the rule, subject and role-ref
    types), [pkg/apis/rbac/v1/evaluation_helpers.go] (one [...Matches] function
    per dimension of a rule), [RuleAllows] and [RulesAllow] of
    [plugin/pkg/auth/authorizer/rbac/rbac.go], the request attributes and the
    decisions of [staging/src/k8s.io/apiserver/pkg/authorization/authorizer],
    and [ValidatePolicyRule] of [pkg/apis/rbac/validation/validation.go].

    Slices are lists. The one place where the code tells a nil slice from an
    empty one is the [reflect.DeepEqual] of [isSimpleResourceRule], which looks
    at [NonResourceURLs]: that field is an [option (list string)], [None] for
    the nil slice. *)

From S2P Require Import Prelude GoStrings.


(** ** Data *)

Definition APIGroupAll : string := "*".
Definition ResourceAll : string := "*".
Definition VerbAll : string := "*".
Definition NonResourceAll : string := "*".

Definition GroupKind : string := "Group".
Definition ServiceAccountKind : string := "ServiceAccount".
Definition UserKind : string := "User".
Definition AutoUpdateAnnotationKey : string :=
  "rbac.authorization.kubernetes.io/autoupdate".

(** [rbacv1.GroupName] *)
Definition GroupName : string := "rbac.authorization.k8s.io".

Record PolicyRule : Type := mkPolicyRule {
  Verbs : list string;
  APIGroups : list string;
  Resources : list string;
  ResourceNames : list string;
  NonResourceURLs : option (list string);
}.

#[global] Instance PolicyRule_eq_dec : EqDecision PolicyRule.
Proof. solve_decision. Defined.

(** The elements of [rule.NonResourceURLs], for [range] and [len]. *)
Definition urls (r : PolicyRule) : list string := default [] (NonResourceURLs r).

Record Subject : Type := mkSubject {
  SubjectKind : string;
  SubjectAPIGroup : string;
  SubjectName : string;
  SubjectNamespace : string;
}.

#[global] Instance Subject_eq_dec : EqDecision Subject.
Proof. solve_decision. Defined.

Record RoleRef : Type := mkRoleRef {
  RefAPIGroup : string;
  RefKind : string;
  RefName : string;
}.

#[global] Instance RoleRef_eq_dec : EqDecision RoleRef.
Proof. solve_decision. Defined.

(** [user.Info]: the methods the authorizers call. *)
Record UserInfo : Type := mkUser {
  UserName : string;
  UserGroups : list string;
}.

(** [authorizer.AttributesRecord] *)
Record Attributes : Type := mkAttributes {
  GetUser : UserInfo;
  GetVerb : string;
  GetNamespace : string;
  GetAPIGroup : string;
  GetResource : string;
  GetSubresource : string;
  GetName : string;
  IsResourceRequest : bool;
  GetPath : string;
}.

(** [authorizer.Decision] *)
Inductive Decision : Type :=
  | DecisionDeny
  | DecisionAllow
  | DecisionNoOpinion.

#[global] Instance Decision_eq_dec : EqDecision Decision.
Proof. solve_decision. Defined.

(** ** Matching *)

Definition VerbMatches (rule : PolicyRule) (requestedVerb : string) : bool :=
  existsb (λ ruleVerb,
    bool_decide (ruleVerb = VerbAll) || bool_decide (ruleVerb = requestedVerb))
    (Verbs rule).

Definition APIGroupMatches (rule : PolicyRule) (requestedGroup : string) : bool :=
  existsb (λ ruleGroup,
    bool_decide (ruleGroup = APIGroupAll) || bool_decide (ruleGroup = requestedGroup))
    (APIGroups rule).

(** The body of the loop of [ResourceMatches], for one rule resource: the two
    equality tests, then nothing more without a subresource ([continue]), then
    the test for ["*/subresource"]. *)
Definition resourceMatches1
    (combinedRequestedResource requestedSubresource ruleResource : string) : bool :=
  if bool_decide (ruleResource = ResourceAll) then true
  else if bool_decide (ruleResource = combinedRequestedResource) then true
  else if slen requestedSubresource =? 0 then false
  else (slen ruleResource =? slen requestedSubresource + 2) &&
       HasPrefix ruleResource "*/" && HasSuffix ruleResource requestedSubresource.

Definition ResourceMatches (rule : PolicyRule)
    (combinedRequestedResource requestedSubresource : string) : bool :=
  existsb (resourceMatches1 combinedRequestedResource requestedSubresource)
    (Resources rule).

Definition ResourceNameMatches (rule : PolicyRule) (requestedName : string) : bool :=
  match ResourceNames rule with
  | [] => true
  | names => existsb (λ ruleName, bool_decide (ruleName = requestedName)) names
  end.

Definition urlMatches1 (requestedURL ruleURL : string) : bool :=
  if bool_decide (ruleURL = NonResourceAll) then true
  else if bool_decide (ruleURL = requestedURL) then true
  else HasSuffix ruleURL "*" && HasPrefix requestedURL (TrimRight ruleURL "*"%char).

Definition NonResourceURLMatches (rule : PolicyRule) (requestedURL : string) : bool :=
  existsb (urlMatches1 requestedURL) (urls rule).

(** [combinedResource] of [RuleAllows]. *)
Definition combinedResource (a : Attributes) : string :=
  if 0 <? slen (GetSubresource a)
  then GetResource a +:+ "/" +:+ GetSubresource a
  else GetResource a.

Definition RuleAllows (a : Attributes) (rule : PolicyRule) : bool :=
  if IsResourceRequest a then
    VerbMatches rule (GetVerb a) &&
    APIGroupMatches rule (GetAPIGroup a) &&
    ResourceMatches rule (combinedResource a) (GetSubresource a) &&
    ResourceNameMatches rule (GetName a)
  else
    VerbMatches rule (GetVerb a) &&
    NonResourceURLMatches rule (GetPath a).

Definition RulesAllow (a : Attributes) (rules : list PolicyRule) : bool :=
  existsb (RuleAllows a) rules.

(** ** Validation *)

(** The field errors of [ValidatePolicyRule]. *)
Inductive RuleError : Type :=
  | VerbsRequired
  | NamespacedNonResource
  | MixedRule
  | APIGroupsRequired
  | ResourcesRequired.

Definition when {A} (b : bool) (x : A) : list A := if b then [x] else [].

Definition isEmpty {A} (l : list A) : bool :=
  match l with [] => true | _ => false end.

Definition ValidatePolicyRule (rule : PolicyRule) (isNamespaced : bool) : list RuleError :=
  let allErrs := when (isEmpty (Verbs rule)) VerbsRequired in
  if negb (isEmpty (urls rule)) then
    allErrs ++ when isNamespaced NamespacedNonResource ++
    when (negb (isEmpty (APIGroups rule)) || negb (isEmpty (Resources rule)) ||
          negb (isEmpty (ResourceNames rule))) MixedRule
  else
    allErrs ++ when (isEmpty (APIGroups rule)) APIGroupsRequired ++
    when (isEmpty (Resources rule)) ResourcesRequired.

(** ** Characterisations *)

(** A request as the API server's request-info resolver builds it: the resource
    is one path segment, so it has no slash. *)
Definition wf_attributes (a : Attributes) : Prop :=
  IsResourceRequest a = true → ContainsChar (GetResource a) "/"%char = false.

Lemma VerbMatches_spec (r : PolicyRule) (v : string) :
  VerbMatches r v = true ↔ VerbAll ∈ Verbs r ∨ v ∈ Verbs r.
Proof.
  unfold VerbMatches. rewrite existsb_elem. split.
  - intros (x & Hx & Hf). to_prop. destruct Hf; to_prop; subst; auto.
  - intros [H|H]; eexists; (split; [exact H|]); apply orb_true_iff;
      [left|right]; by apply bool_decide_eq_true.
Qed.

Lemma APIGroupMatches_spec (r : PolicyRule) (g : string) :
  APIGroupMatches r g = true ↔ APIGroupAll ∈ APIGroups r ∨ g ∈ APIGroups r.
Proof.
  unfold APIGroupMatches. rewrite existsb_elem. split.
  - intros (x & Hx & Hf). to_prop. destruct Hf; to_prop; subst; auto.
  - intros [H|H]; eexists; (split; [exact H|]); apply orb_true_iff;
      [left|right]; by apply bool_decide_eq_true.
Qed.

Lemma resourceMatches1_spec (c s r : string) :
  resourceMatches1 c s r = true ↔
    r = ResourceAll ∨ r = c ∨ (s ≠ "" ∧ r = "*/" +:+ s).
Proof.
  unfold resourceMatches1.
  repeat case_bool_decide; [naive_solver..|].
  destruct (slen s =? 0) eqn:E; to_prop.
  - apply slen_zero in E. naive_solver.
  - assert (s ≠ "") by (intros ->; done).
    rewrite !andb_true_iff, Z.eqb_eq.
    assert (slen r = slen s + 2 ↔ String.length r = (String.length s + 2)%nat) as ->
      by (unfold slen; lia).
    pose proof (star_slash_spec r s). tauto.
Qed.

Lemma ResourceMatches_spec (rule : PolicyRule) (c s : string) :
  ResourceMatches rule c s = true ↔
    ResourceAll ∈ Resources rule ∨ c ∈ Resources rule ∨
    (s ≠ "" ∧ "*/" +:+ s ∈ Resources rule).
Proof.
  unfold ResourceMatches. rewrite existsb_elem.
  setoid_rewrite resourceMatches1_spec. split.
  - intros (x & ? & [->|[->|[? ->]]]); auto.
  - intros [?|[?|[? ?]]]; eauto 10.
Qed.

Lemma ResourceNameMatches_spec (r : PolicyRule) (n : string) :
  ResourceNameMatches r n = true ↔ ResourceNames r = [] ∨ n ∈ ResourceNames r.
Proof.
  unfold ResourceNameMatches. destruct (ResourceNames r) as [|x l]; [naive_solver|].
  rewrite existsb_elem. split.
  - intros (y & Hy & E). to_prop. subst. auto.
  - intros [?|H]; [done|]. eexists. split; [exact H|]. by rewrite bool_decide_true.
Qed.

Lemma urlMatches1_spec (u r : string) :
  urlMatches1 u r = true ↔
    r = NonResourceAll ∨ r = u ∨
    (HasSuffix r "*" = true ∧ HasPrefix u (TrimRight r "*"%char) = true).
Proof.
  unfold urlMatches1. repeat case_bool_decide; [naive_solver..|].
  rewrite andb_true_iff. naive_solver.
Qed.

(** [RuleAllows] on a resource request and on a non-resource request. *)
Lemma RuleAllows_resource (a : Attributes) (r : PolicyRule) :
  IsResourceRequest a = true →
  RuleAllows a r = true ↔
    (VerbAll ∈ Verbs r ∨ GetVerb a ∈ Verbs r) ∧
    (APIGroupAll ∈ APIGroups r ∨ GetAPIGroup a ∈ APIGroups r) ∧
    (ResourceAll ∈ Resources r ∨ combinedResource a ∈ Resources r ∨
       (GetSubresource a ≠ "" ∧ "*/" +:+ GetSubresource a ∈ Resources r)) ∧
    (ResourceNames r = [] ∨ GetName a ∈ ResourceNames r).
Proof.
  intros Hr. unfold RuleAllows. rewrite Hr, !andb_true_iff, VerbMatches_spec,
    APIGroupMatches_spec, ResourceMatches_spec, ResourceNameMatches_spec. tauto.
Qed.

Lemma RuleAllows_url (a : Attributes) (r : PolicyRule) :
  IsResourceRequest a = false →
  RuleAllows a r = true ↔
    (VerbAll ∈ Verbs r ∨ GetVerb a ∈ Verbs r) ∧
    ∃ u, u ∈ urls r ∧ urlMatches1 (GetPath a) u = true.
Proof.
  intros Hr. unfold RuleAllows, NonResourceURLMatches.
  by rewrite Hr, andb_true_iff, VerbMatches_spec, existsb_elem.
Qed.

Lemma RulesAllow_spec (a : Attributes) (rules : list PolicyRule) :
  RulesAllow a rules = true ↔ ∃ r, r ∈ rules ∧ RuleAllows a r = true.
Proof. apply existsb_elem. Qed.

Lemma RulesAllow_cons (a : Attributes) (r : PolicyRule) (l : list PolicyRule) :
  RulesAllow a (r :: l) = RuleAllows a r || RulesAllow a l.
Proof. done. Qed.

Lemma RulesAllow_app (a : Attributes) (l k : list PolicyRule) :
  RulesAllow a (l ++ k) = RulesAllow a l || RulesAllow a k.
Proof. apply existsb_app. Qed.

(** [RulesAllow] looks at a rule list as a set: permutations agree. *)
#[global] Instance RulesAllow_proper (a : Attributes) :
  Proper ((≡ₚ) ==> (=)) (RulesAllow a).
Proof. intros l k Hp. by apply existsb_perm. Qed.

Lemma combinedResource_nosub (a : Attributes) :
  GetSubresource a = "" → combinedResource a = GetResource a.
Proof. unfold combinedResource. by intros ->. Qed.

Lemma combinedResource_sub (a : Attributes) :
  GetSubresource a ≠ "" →
  combinedResource a = GetResource a +:+ String "/" (GetSubresource a).
Proof.
  unfold combinedResource. intros H.
  destruct (Z.ltb_spec 0 (slen (GetSubresource a))) as [_|Hle]; [done|].
  exfalso. apply H, slen_zero. unfold slen in *. lia.
Qed.

Lemma ValidatePolicyRule_ok (r : PolicyRule) (ns : bool) :
  ValidatePolicyRule r ns = [] →
  urls r ≠ [] → APIGroups r = [] ∧ Resources r = [] ∧ ResourceNames r = [].
Proof.
  unfold ValidatePolicyRule. destruct (urls r); [done|]. simpl. intros H _.
  apply app_eq_nil in H as [_ H]. apply app_eq_nil in H as [_ H].
  destruct (APIGroups r), (Resources r), (ResourceNames r); done.
Qed.
