(* ===== verification/RbacCovers.v ===== *)
(** * Comparing and compacting RBAC rule lists

    [pkg/registry/rbac/validation/policy_comparator.go]: [BreakdownRule],
    [ruleCovers] and [Covers], the test behind the privilege-escalation check
    and the reconciliation of roles; [policy_compact.go]: [CompactRules].

    The theorems relate the syntactic test to the requests the rules allow. *)

From S2P Require Import Prelude GoStrings RbacRules.


(** ** Breaking a rule down *)

Definition BreakdownRule (rule : PolicyRule) : list PolicyRule :=
  flat_map (λ group,
    flat_map (λ resource,
      flat_map (λ verb,
        match ResourceNames rule with
        | [] => [mkPolicyRule [verb] [group] [resource] [] None]
        | names =>
            map (λ resourceName,
              mkPolicyRule [verb] [group] [resource] [resourceName] None) names
        end) (Verbs rule)) (Resources rule)) (APIGroups rule) ++
  flat_map (λ nonResourceURL,
    map (λ verb, mkPolicyRule [verb] [] [] [] (Some [nonResourceURL])) (Verbs rule))
    (urls rule).

(** ** Covering *)

Definition has (set : list string) (ele : string) : bool :=
  existsb (λ s, bool_decide (s = ele)) set.

(** [hasAll] builds a set of the first slice and looks every element of the
    second up in it. *)
Definition hasAll (set contains : list string) : bool :=
  let owning : gset string := list_to_set set in
  forallb (λ ele, bool_decide (ele ∈ owning)) contains.

(** The body of the loop of [resourceCoversAll]: [true] is [continue], [false]
    is [return false]. *)
Definition resourceCovers1 (setResources : list string) (path : string) : bool :=
  if has setResources path then true
  else if negb (ContainsChar path "/"%char) then false
  else has setResources ("*/" +:+ nth 1 (SplitN2 path "/"%char) "").

Definition resourceCoversAll (setResources coversResources : list string) : bool :=
  if has setResources ResourceAll || hasAll setResources coversResources then true
  else forallb (resourceCovers1 setResources) coversResources.

Definition nonResourceURLCovers (ownerPath subPath : string) : bool :=
  if bool_decide (ownerPath = subPath) then true
  else HasSuffix ownerPath "*" && HasPrefix subPath (TrimRight ownerPath "*"%char).

Definition nonResourceURLsCoversAll (set covers : list string) : bool :=
  forallb (λ path, existsb (λ owner, nonResourceURLCovers owner path) set) covers.

Definition ruleCovers (ownerRule subRule : PolicyRule) : bool :=
  let verbMatches :=
    has (Verbs ownerRule) VerbAll || hasAll (Verbs ownerRule) (Verbs subRule) in
  let groupMatches :=
    has (APIGroups ownerRule) APIGroupAll ||
    hasAll (APIGroups ownerRule) (APIGroups subRule) in
  let resourceMatches := resourceCoversAll (Resources ownerRule) (Resources subRule) in
  let nonResourceURLMatches := nonResourceURLsCoversAll (urls ownerRule) (urls subRule) in
  let resourceNameMatches :=
    if isEmpty (ResourceNames subRule) then isEmpty (ResourceNames ownerRule)
    else isEmpty (ResourceNames ownerRule) ||
         hasAll (ResourceNames ownerRule) (ResourceNames subRule) in
  verbMatches && groupMatches && resourceMatches && resourceNameMatches &&
  nonResourceURLMatches.

Definition Covers (ownerRules servantRules : list PolicyRule) :
    bool * list PolicyRule :=
  let subrules := flat_map BreakdownRule servantRules in
  let uncoveredRules :=
    List.filter (λ subrule,
      negb (existsb (λ ownerRule, ruleCovers ownerRule subrule) ownerRules)) subrules in
  (isEmpty uncoveredRules, uncoveredRules).

(** ** Compacting *)

Record simpleResource : Type := mkSimple {
  SGroup : string;
  SResource : string;
  ResourceNameExist : bool;
  SResourceName : string;
}.

#[global] Instance simpleResource_eq_dec : EqDecision simpleResource.
Proof. solve_decision. Defined.

#[global] Instance simpleResource_countable : Countable simpleResource.
Proof.
  apply (inj_countable'
    (λ s, (SGroup s, SResource s, ResourceNameExist s, SResourceName s))
    (λ p, let '(a, b, c, d) := p in mkSimple a b c d)).
  by intros [].
Defined.

Definition isSimpleResourceRule (rule : PolicyRule) : option simpleResource :=
  if (1 <? Z.of_nat (length (ResourceNames rule))) || negb (isEmpty (urls rule)) then None
  else match APIGroups rule, Resources rule with
  | [group], [resource] =>
      let simpleRule :=
        mkPolicyRule (Verbs rule) (APIGroups rule) (Resources rule) (ResourceNames rule) None in
      if negb (bool_decide (simpleRule = rule)) then None
      else match ResourceNames rule with
           | [] => Some (mkSimple group resource false "")
           | name :: _ => Some (mkSimple group resource true name)
           end
  | _, _ => None
  end.

Definition add_verbs (existing rule : PolicyRule) : PolicyRule :=
  mkPolicyRule (Verbs existing ++ Verbs rule) (APIGroups existing)
    (Resources existing) (ResourceNames existing) (NonResourceURLs existing).

(** One iteration of the first loop of [CompactRules]. *)
Definition compact_step (st : list PolicyRule * gmap simpleResource PolicyRule)
    (rule : PolicyRule) : list PolicyRule * gmap simpleResource PolicyRule :=
  let '(compacted, simpleRules) := st in
  match isSimpleResourceRule rule with
  | Some resource =>
      match simpleRules !! resource with
      | Some existingRule =>
          (compacted, <[resource := add_verbs existingRule rule]> simpleRules)
      | None => (compacted, <[resource := rule]> simpleRules)
      end
  | None => (compacted ++ [rule], simpleRules)
  end.

(** The order in which [range] visits a map is not specified: [range] is any
    enumeration of the values of the map. *)
Section compact.
Context (range : gmap simpleResource PolicyRule → list PolicyRule).

Definition CompactRules (rules : list PolicyRule) : list PolicyRule :=
  let '(compacted, simpleRules) := fold_left compact_step rules ([], ∅) in
  compacted ++ range simpleRules.
End compact.

(** ** Lemmas on the set functions *)

Lemma has_spec (l : list string) (x : string) : has l x = true ↔ x ∈ l.
Proof.
  unfold has. rewrite existsb_elem. setoid_rewrite bool_decide_eq_true. naive_solver.
Qed.

Lemma hasAll_spec (l k : list string) : hasAll l k = true ↔ ∀ x, x ∈ k → x ∈ l.
Proof.
  unfold hasAll. rewrite forallb_elem. setoid_rewrite bool_decide_eq_true.
  by setoid_rewrite elem_of_list_to_set.
Qed.

Lemma resourceCovers1_spec (l : list string) (p : string) :
  resourceCovers1 l p = true ↔
    p ∈ l ∨ ∃ x y, p = x +:+ String "/" y ∧ ContainsChar x "/"%char = false ∧
                   "*/" +:+ y ∈ l.
Proof.
  unfold resourceCovers1.
  destruct (has l p) eqn:Hp; [rewrite has_spec in Hp; naive_solver|].
  assert (p ∉ l) by (rewrite <- has_spec; congruence).
  destruct (ContainsChar p "/"%char) eqn:E; simpl negb; cbv iota.
  - apply ContainsChar_split in E as (x & y & -> & Hx).
    rewrite SplitN2_app by done. rewrite has_spec. simpl nth. split.
    + intros Hy. right. eauto.
    + intros [?|(x' & y' & He & Hx' & Hy)]; [done|].
      by destruct (split_unique _ _ _ _ _ Hx Hx' He) as [_ ->].
  - split; [done|]. intros [?|(x & y & -> & _ & _)]; [done|].
    rewrite ContainsChar_app in E. simpl in E. by rewrite orb_true_r in E.
Qed.

Lemma resourceCoversAll_spec (l k : list string) :
  resourceCoversAll l k = true ↔
    ResourceAll ∈ l ∨ ∀ p, p ∈ k → resourceCovers1 l p = true.
Proof.
  unfold resourceCoversAll.
  destruct (has l ResourceAll || hasAll l k) eqn:E.
  - split; [|done]. intros _. to_prop. rewrite has_spec, hasAll_spec in E.
    destruct E as [?|E]; [by left|]. right. intros p Hp.
    apply resourceCovers1_spec. auto.
  - to_prop. rewrite forallb_elem. split; [by right|].
    intros [Hs|?]; [|done]. apply has_spec in Hs. congruence.
Qed.

Lemma nonResourceURLsCoversAll_spec (l k : list string) :
  nonResourceURLsCoversAll l k = true ↔
    ∀ p, p ∈ k → ∃ o, o ∈ l ∧ nonResourceURLCovers o p = true.
Proof.
  unfold nonResourceURLsCoversAll. rewrite forallb_elem.
  by setoid_rewrite existsb_elem.
Qed.

Lemma isEmpty_spec {A} (l : list A) : isEmpty l = true ↔ l = [].
Proof. by destruct l. Qed.

(** [ruleCovers] as a conjunction of containments. *)
Lemma ruleCovers_spec (o s : PolicyRule) :
  ruleCovers o s = true ↔
    (VerbAll ∈ Verbs o ∨ ∀ v, v ∈ Verbs s → v ∈ Verbs o) ∧
    (APIGroupAll ∈ APIGroups o ∨ ∀ g, g ∈ APIGroups s → g ∈ APIGroups o) ∧
    (ResourceAll ∈ Resources o ∨
       ∀ p, p ∈ Resources s → resourceCovers1 (Resources o) p = true) ∧
    (ResourceNames o = [] ∨
       ResourceNames s ≠ [] ∧ ∀ n, n ∈ ResourceNames s → n ∈ ResourceNames o) ∧
    (∀ p, p ∈ urls s → ∃ w, w ∈ urls o ∧ nonResourceURLCovers w p = true).
Proof.
  unfold ruleCovers.
  rewrite !andb_true_iff, !orb_true_iff, !has_spec, !hasAll_spec,
    resourceCoversAll_spec, nonResourceURLsCoversAll_spec.
  assert ((if isEmpty (ResourceNames s) then isEmpty (ResourceNames o)
           else isEmpty (ResourceNames o) || hasAll (ResourceNames o) (ResourceNames s))
          = true ↔
          ResourceNames o = [] ∨
          ResourceNames s ≠ [] ∧ ∀ n, n ∈ ResourceNames s → n ∈ ResourceNames o) as ->.
  { destruct (ResourceNames s) as [|n l] eqn:E; cbn [isEmpty].
    - rewrite isEmpty_spec. naive_solver.
    - rewrite orb_true_iff, isEmpty_spec, hasAll_spec. naive_solver. }
  tauto.
Qed.

(** ** Breaking down preserves the allowed requests *)

Lemma elem_of_BreakdownRule (r s : PolicyRule) :
  s ∈ BreakdownRule r ↔
    (∃ g p v, g ∈ APIGroups r ∧ p ∈ Resources r ∧ v ∈ Verbs r ∧
       ((ResourceNames r = [] ∧ s = mkPolicyRule [v] [g] [p] [] None) ∨
        ∃ n, n ∈ ResourceNames r ∧ s = mkPolicyRule [v] [g] [p] [n] None)) ∨
    (∃ u v, u ∈ urls r ∧ v ∈ Verbs r ∧ s = mkPolicyRule [v] [] [] [] (Some [u])).
Proof.
  unfold BreakdownRule. rewrite elem_of_app. f_equiv.
  - setoid_rewrite elem_of_flat_map. f_equiv. intros g. split.
    + intros (Hg & Hs). apply elem_of_flat_map in Hs as (p & Hp & Hs).
      apply elem_of_flat_map in Hs as (v & Hv & Hs). exists p, v.
      split_and!; try done.
      destruct (ResourceNames r) as [|n l] eqn:E.
      * left. by apply list_elem_of_singleton in Hs.
      * right. apply list_elem_of_fmap in Hs as (n' & -> & Hn). eauto.
    + intros (p & v & Hg & Hp & Hv & Hs). split; [done|].
      apply elem_of_flat_map. exists p. split; [done|].
      apply elem_of_flat_map. exists v. split; [done|].
      destruct Hs as [[-> ->]|(n & Hn & ->)]; [by apply list_elem_of_singleton|].
      destruct (ResourceNames r) as [|n' l]; [by apply not_elem_of_nil in Hn|].
      apply list_elem_of_fmap. eauto.
  - setoid_rewrite elem_of_flat_map. setoid_rewrite list_elem_of_fmap. naive_solver.
Qed.

Lemma BreakdownRule_allows_resource (a : Attributes) (r : PolicyRule) :
  IsResourceRequest a = true →
  RulesAllow a (BreakdownRule r) = true ↔ RuleAllows a r = true.
Proof.
  intros Hr. rewrite RulesAllow_spec, RuleAllows_resource by done. split.
  - intros (s & Hs & Ha). rewrite RuleAllows_resource in Ha by done.
    apply elem_of_BreakdownRule in Hs
      as [(g & p & v & Hg & Hp & Hv & Hs)|(u & v & Hu & Hv & ->)]; [|set_solver].
    destruct Ha as (HV & HG & HR & HN). split_and!;
      destruct Hs as [[HE ->]|(n & Hn & ->)]; simpl in *; set_solver.
  - intros (HV & HG & HR & HN).
    assert (∃ v, v ∈ Verbs r ∧ (v = VerbAll ∨ v = GetVerb a)) as (v & Hv & Ev)
      by naive_solver.
    assert (∃ g, g ∈ APIGroups r ∧ (g = APIGroupAll ∨ g = GetAPIGroup a))
      as (g & Hg & Eg) by naive_solver.
    assert (∃ p, p ∈ Resources r ∧
      (p = ResourceAll ∨ p = combinedResource a ∨
       (GetSubresource a ≠ "" ∧ p = "*/" +:+ GetSubresource a)))
      as (p & Hp & Ep) by naive_solver.
    exists (mkPolicyRule [v] [g] [p]
      (match ResourceNames r with [] => [] | _ => [GetName a] end) None).
    split.
    + apply elem_of_BreakdownRule. left. exists g, p, v. split_and!; try done.
      destruct (ResourceNames r); [by left|]. right. exists (GetName a).
      split; [|done]. destruct HN; done.
    + rewrite RuleAllows_resource by done. simpl.
      split_and!; [set_solver..|]. destruct (ResourceNames r); set_solver.
Qed.

Lemma BreakdownRule_allows_url (a : Attributes) (r : PolicyRule) :
  IsResourceRequest a = false →
  RulesAllow a (BreakdownRule r) = true ↔ RuleAllows a r = true.
Proof.
  intros Hr. rewrite RulesAllow_spec, RuleAllows_url by done. split.
  - intros (s & Hs & Ha). rewrite RuleAllows_url in Ha by done.
    destruct Ha as [HV (w & Hw & Ew)].
    apply elem_of_BreakdownRule in Hs
      as [(g & p & v & Hg & Hp & Hv & Hs)|(u & v & Hu & Hv & ->)].
    { destruct Hs as [[_ ->]|(n & _ & ->)]; by apply not_elem_of_nil in Hw. }
    simpl in *. split; [set_solver|]. exists w. set_solver.
  - intros [HV (u & Hu & Eu)].
    assert (∃ v, v ∈ Verbs r ∧ (v = VerbAll ∨ v = GetVerb a)) as (v & Hv & Ev)
      by naive_solver.
    exists (mkPolicyRule [v] [] [] [] (Some [u])). split.
    + apply elem_of_BreakdownRule. right. eauto.
    + rewrite RuleAllows_url by done. simpl. split; [set_solver|].
      exists u. set_solver.
Qed.

Lemma BreakdownRule_allows (a : Attributes) (r : PolicyRule) :
  RulesAllow a (BreakdownRule r) = RuleAllows a r.
Proof.
  apply bool_eq_iff. destruct (IsResourceRequest a) eqn:E.
  - by apply BreakdownRule_allows_resource.
  - by apply BreakdownRule_allows_url.
Qed.

Lemma flat_map_BreakdownRule_allows (a : Attributes) (rules : list PolicyRule) :
  RulesAllow a (flat_map BreakdownRule rules) = RulesAllow a rules.
Proof.
  induction rules as [|r rules IH]; [done|]. simpl.
  by rewrite RulesAllow_app, BreakdownRule_allows, IH.
Qed.

(** ** Soundness of covering *)

Lemma nonResourceURLCovers_sound (o p u : string) :
  nonResourceURLCovers o p = true → urlMatches1 u p = true → urlMatches1 u o = true.
Proof.
  unfold nonResourceURLCovers. case_bool_decide as E; [by subst|].
  intros Hc Hp. to_prop. apply urlMatches1_spec. right; right. split; [done|].
  assert (HasPrefix (TrimRight p "*"%char) (TrimRight o "*"%char) = true) as Ht
    by (apply TrimRight_keeps_prefix; [done|apply TrimRight_idem]).
  apply urlMatches1_spec in Hp as [->|[->|[_ Hp]]].
  - destruct (TrimRight o "*"%char); [by rewrite HasPrefix_empty|done].
  - done.
  - by eapply HasPrefix_trans.
Qed.

Lemma resourceCovers1_sound (l : list string) (a : Attributes) (p : string) :
  ContainsChar (GetResource a) "/"%char = false →
  resourceCovers1 l p = true →
  resourceMatches1 (combinedResource a) (GetSubresource a) p = true →
  existsb (resourceMatches1 (combinedResource a) (GetSubresource a)) l = true.
Proof.
  intros Hw Hc Hm. apply existsb_elem.
  apply resourceCovers1_spec in Hc as [Hin|(x & y & -> & Hx & Hin)]; [eauto|].
  exists ("*/" +:+ y). split; [done|]. apply resourceMatches1_spec.
  destruct (decide (GetSubresource a = "")) as [Hs|Hs].
  - apply resourceMatches1_spec in Hm as [Hm|[Hm|[? _]]]; [|
      |done].
    + destruct x as [|c [|? ?]]; simplify_eq/=.
    + rewrite combinedResource_nosub in Hm by done. rewrite <- Hm in Hw.
      rewrite ContainsChar_app in Hw. simpl in Hw. by rewrite orb_true_r in Hw.
  - right; right. split; [done|]. f_equal.
    apply resourceMatches1_spec in Hm as [Hm|[Hm|[_ Hm]]].
    + destruct x as [|c [|? ?]]; simplify_eq/=.
    + rewrite combinedResource_sub in Hm by done.
      by destruct (split_unique _ _ _ _ _ Hx Hw Hm).
    + by destruct (split_unique x y "*" (GetSubresource a) "/"%char Hx eq_refl Hm).
Qed.

Lemma ruleCovers_sound (o s : PolicyRule) (a : Attributes) :
  wf_attributes a → ruleCovers o s = true → RuleAllows a s = true →
  RuleAllows a o = true.
Proof.
  intros Hw Hc. apply ruleCovers_spec in Hc as (HV & HG & HR & HN & HU).
  destruct (IsResourceRequest a) eqn:E.
  - rewrite !RuleAllows_resource by done. intros (SV & SG & SR & SN).
    split_and!; [set_solver..| |set_solver].
    apply ResourceMatches_spec. destruct HR as [HR|HR].
    { apply ResourceMatches_spec. by left. }
    rewrite <- ResourceMatches_spec in SR. unfold ResourceMatches in SR.
    apply existsb_elem in SR as (p & Hp & Hm).
    by apply (resourceCovers1_sound _ a p); auto.
  - rewrite !RuleAllows_url by done. intros [SV (u & Hu & Hm)].
    split; [set_solver|]. destruct (HU u Hu) as (w & Hw' & Hcov). exists w.
    split; [done|]. by eapply nonResourceURLCovers_sound.
Qed.

Lemma Covers_uncovered (owner servant : list PolicyRule) (s : PolicyRule) :
  s ∈ (Covers owner servant).2 ↔
    (∃ r, r ∈ servant ∧ s ∈ BreakdownRule r) ∧
    ∀ o, o ∈ owner → ruleCovers o s = false.
Proof.
  unfold Covers. cbn [snd]. rewrite list_elem_of_In, filter_In, <- list_elem_of_In.
  rewrite elem_of_flat_map, negb_true_iff, <- not_true_iff_false, existsb_elem.
  split; intros [H1 H2]; (split; [done|]).
  - intros o Ho. apply not_true_iff_false. naive_solver.
  - intros (o & Ho & E). rewrite (H2 o Ho) in E. done.
Qed.

Lemma Covers_true (owner servant : list PolicyRule) :
  (Covers owner servant).1 = true ↔
    ∀ r s, r ∈ servant → s ∈ BreakdownRule r →
    ∃ o, o ∈ owner ∧ ruleCovers o s = true.
Proof.
  transitivity ((Covers owner servant).2 = []).
  { unfold Covers. cbn [fst snd]. apply isEmpty_spec. }
  rewrite list_nil_iff. setoid_rewrite Covers_uncovered. split.
  - intros H r s Hr Hs. specialize (H s).
    destruct (existsb (λ o, ruleCovers o s) owner) eqn:E; [by apply existsb_elem in E|].
    exfalso. apply H. split; [eauto|]. intros o Ho. apply not_true_iff_false.
    intros Ho'. rewrite <- not_true_iff_false, existsb_elem in E. eauto.
  - intros H s [(r & Hr & Hs) Hno]. destruct (H r s Hr Hs) as (o & Ho & E).
    by rewrite (Hno o Ho) in E.
Qed.

Lemma Covers_2_nil (owner servant : list PolicyRule) :
  (Covers owner servant).2 = [] ↔ (Covers owner servant).1 = true.
Proof. unfold Covers. cbn [fst snd]. symmetry. apply isEmpty_spec. Qed.

(** The requests of the servant rules are those of the owner rules and of the
    rules reported as uncovered. *)
Lemma Covers_split (owner servant : list PolicyRule) (a : Attributes) :
  wf_attributes a → RulesAllow a servant = true →
  RulesAllow a owner = true ∨ RulesAllow a (Covers owner servant).2 = true.
Proof.
  intros Hw H. rewrite <- flat_map_BreakdownRule_allows in H.
  apply RulesAllow_spec in H as (s & Hs & Ha).
  apply elem_of_flat_map in Hs as (r & Hr & Hs).
  destruct (existsb (λ o, ruleCovers o s) owner) eqn:E.
  - left. apply existsb_elem in E as (o & Ho & E). apply RulesAllow_spec.
    eauto using ruleCovers_sound.
  - right. apply RulesAllow_spec. exists s. split; [|done].
    apply Covers_uncovered. split; [eauto|]. intros o Ho.
    apply not_true_iff_false. intros Ho'.
    rewrite <- not_true_iff_false, existsb_elem in E. eauto.
Qed.

Lemma Covers_sound_lemma (owner servant : list PolicyRule) (a : Attributes) :
  (Covers owner servant).1 = true → wf_attributes a →
  RulesAllow a servant = true → RulesAllow a owner = true.
Proof.
  intros Hc Hw Ha. apply Covers_2_nil in Hc.
  destruct (Covers_split owner servant a Hw Ha) as [|H]; [done|].
  by rewrite Hc in H.
Qed.

(** ** Completeness of covering for resource rules *)

(** A rule resource that some request can name: what follows a slash is not
    empty. *)
Definition wf_resource (p : string) : Prop :=
  ∀ x y, p = x +:+ String "/" y → ContainsChar x "/"%char = false → y ≠ "".

Definition resource_rule (r : PolicyRule) : Prop :=
  urls r = [] ∧ Forall wf_resource (Resources r).

(** The request that asks for exactly what one rule resource names. *)
Definition probe (v g p n : string) : Attributes :=
  let ts := SplitN2 p "/"%char in
  mkAttributes (mkUser "" []) v "" g (nth 0 ts "") (nth 1 ts "") n true "".

Lemma probe_combined (v g p n : string) :
  wf_resource p → combinedResource (probe v g p n) = p ∧ wf_attributes (probe v g p n).
Proof.
  intros Hp. unfold probe.
  destruct (ContainsChar p "/"%char) eqn:E.
  - apply ContainsChar_split in E as (x & y & -> & Hx).
    rewrite SplitN2_app by done. simpl nth. split; [|intros _; exact Hx].
    by rewrite combinedResource_sub by (by apply (Hp x y)).
  - rewrite SplitN2_none by done. simpl nth. split; [|intros _; exact E].
    by rewrite combinedResource_nosub.
Qed.

Lemma probe_resource (v g p n : string) (l : list string) :
  wf_resource p →
  ResourceAll ∈ l ∨ combinedResource (probe v g p n) ∈ l ∨
    (GetSubresource (probe v g p n) ≠ "" ∧
     "*/" +:+ GetSubresource (probe v g p n) ∈ l) →
  ResourceAll ∈ l ∨ resourceCovers1 l p = true.
Proof.
  intros Hp. destruct (probe_combined v g p n Hp) as [-> _].
  rewrite resourceCovers1_spec. intros [H|[H|[Hs H]]]; [by left|by right; left|].
  right; right. unfold probe in *. cbn [GetSubresource] in *.
  destruct (ContainsChar p "/"%char) eqn:E.
  - apply ContainsChar_split in E as (x & y & -> & Hx).
    rewrite SplitN2_app in H by done. eauto.
  - by rewrite SplitN2_none in Hs.
Qed.

(** An owner rule that allows the probe of a subrule, under a name it does not
    list unless the subrule does, covers the subrule. *)
Lemma probe_covers (o : PolicyRule) (v g p n : string) (names : list string) :
  wf_resource p →
  (names = [n] ∨ names = [] ∧ n ∉ ResourceNames o) →
  RuleAllows (probe v g p n) o = true →
  ruleCovers o (mkPolicyRule [v] [g] [p] names None) = true.
Proof.
  intros Hp Hn Ha. rewrite RuleAllows_resource in Ha by done.
  destruct Ha as (HV & HG & HR & HN). apply probe_resource in HR; [|done].
  apply ruleCovers_spec. cbn [Verbs APIGroups Resources ResourceNames urls] in *.
  cbn [probe GetVerb GetAPIGroup GetName] in *. split_and!.
  - set_solver.
  - set_solver.
  - destruct HR as [?|HR]; [by left|]. right. intros q ->%list_elem_of_singleton. done.
  - destruct Hn as [->|[-> Hn]]; [|by destruct HN; left].
    destruct HN as [?|HN]; [by left|]. right. split; [done|].
    by intros m ->%list_elem_of_singleton.
  - intros q Hq. by apply not_elem_of_nil in Hq.
Qed.

Lemma probe_allowed (v g p n : string) (names : list string) :
  wf_resource p → names = [n] ∨ names = [] →
  RuleAllows (probe v g p n) (mkPolicyRule [v] [g] [p] names None) = true.
Proof.
  intros Hp Hn. apply RuleAllows_resource; [done|].
  rewrite (proj1 (probe_combined v g p n Hp)). simpl.
  split_and!; [set_solver..|]. destruct Hn as [->| ->]; set_solver.
Qed.

Lemma Covers_complete_lemma (owner servant : list PolicyRule) :
  Forall resource_rule servant →
  (∀ a, wf_attributes a → RulesAllow a servant = true → RulesAllow a owner = true) →
  (Covers owner servant).1 = true.
Proof.
  intros Hf Hsem. apply Covers_true. intros r s Hr Hs.
  rewrite Forall_forall in Hf. destruct (Hf r Hr) as [Hu Hres].
  pose proof Hs as Hs'. apply elem_of_BreakdownRule in Hs' as
    [(g & p & v & Hg & Hp & Hv & Hs')|(u & v & Hu' & _ & _)];
    [|rewrite Hu in Hu'; by apply not_elem_of_nil in Hu'].
  rewrite Forall_forall in Hres. specialize (Hres p Hp).
  set (ns := concat (map ResourceNames owner)).
  assert (∃ n names, s = mkPolicyRule [v] [g] [p] names None ∧
    (names = [n] ∨ names = [] ∧ n ∉ ns)) as (n & names & -> & Hn).
  { destruct Hs' as [[_ ->]|(n & _ & ->)]; [|by eauto].
    exists (fresh ns), []. split; [done|]. right. split; [done|]. apply infinite_is_fresh. }
  assert (RulesAllow (probe v g p n) owner = true) as Ho.
  { apply Hsem; [by apply probe_combined|].
    rewrite <- flat_map_BreakdownRule_allows. apply RulesAllow_spec. eexists.
    split; [apply elem_of_flat_map; eauto|]. apply probe_allowed; naive_solver. }
  apply RulesAllow_spec in Ho as (o & Ho & Ha). exists o. split; [done|].
  eapply probe_covers; [done| |done].
  destruct Hn as [?|[? Hn]]; [by left|]. right. split; [done|]. intros Hin.
  apply Hn. unfold ns. apply list_elem_of_In, in_concat.
  exists (ResourceNames o). split; [apply in_map|]; by apply list_elem_of_In.
Qed.

(** ** Compaction *)

Lemma isSimpleResourceRule_spec (r : PolicyRule) (k : simpleResource) :
  isSimpleResourceRule r = Some k →
  APIGroups r = [SGroup k] ∧ Resources r = [SResource k] ∧
  NonResourceURLs r = None ∧
  ResourceNames r = if ResourceNameExist k then [SResourceName k] else [].
Proof.
  unfold isSimpleResourceRule. intros H. go_case_in H.
  destruct (APIGroups r) as [|g [|]]; try done.
  destruct (Resources r) as [|p [|]]; try done.
  case_bool_decide as E; simplify_eq/=.
  apply (f_equal NonResourceURLs) in E. simpl in E. to_prop.
  destruct (ResourceNames r) as [|n [|]]; simplify_eq/=; try done.
  lia.
Qed.

Lemma add_verbs_allows (a : Attributes) (e r : PolicyRule) :
  APIGroups e = APIGroups r → Resources e = Resources r →
  ResourceNames e = ResourceNames r → NonResourceURLs e = NonResourceURLs r →
  RuleAllows a (add_verbs e r) = RuleAllows a e || RuleAllows a r.
Proof.
  intros HG HR HN HU. apply bool_eq_iff. rewrite orb_true_iff.
  destruct (IsResourceRequest a) eqn:E.
  - rewrite !RuleAllows_resource by done. unfold add_verbs. simpl.
    rewrite HG, HR, HN. set_solver.
  - rewrite !RuleAllows_url by done. unfold add_verbs, urls. simpl.
    rewrite HU. set_solver.
Qed.

(** The rules of a state of the first loop. *)
Definition compact_rules (st : list PolicyRule * gmap simpleResource PolicyRule) :
    list PolicyRule :=
  st.1 ++ (map_to_list st.2).*2.

(** Every accumulated rule is simple and sits under its own key. *)
Definition compact_inv (st : list PolicyRule * gmap simpleResource PolicyRule) : Prop :=
  map_Forall (λ k r, isSimpleResourceRule r = Some k) st.2.

Lemma isSimple_add_verbs (e r : PolicyRule) (k : simpleResource) :
  isSimpleResourceRule e = Some k → isSimpleResourceRule (add_verbs e r) = Some k.
Proof.
  intros H. pose proof H as (HG & HR & HU & HN)%isSimpleResourceRule_spec.
  revert H. destruct e. simpl in *. subst.
  unfold isSimpleResourceRule, add_verbs, urls. simpl.
  destruct (ResourceNameExist k); simpl; by rewrite !bool_decide_true by done.
Qed.

Lemma compact_step_inv st r : compact_inv st → compact_inv (compact_step st r).
Proof.
  destruct st as [c m]. unfold compact_inv, compact_step. simpl. intros H.
  destruct (isSimpleResourceRule r) as [k|] eqn:E; [|done].
  destruct (m !! k) as [e|] eqn:Em; simpl; apply map_Forall_insert_2; try done.
  apply isSimple_add_verbs. by apply (map_Forall_lookup_1 _ _ _ _ H Em).
Qed.

Lemma compact_step_allows (a : Attributes) st r :
  compact_inv st →
  RulesAllow a (compact_rules (compact_step st r)) =
  RulesAllow a (compact_rules st) || RuleAllows a r.
Proof.
  destruct st as [c m]. unfold compact_inv, compact_rules, compact_step. simpl.
  intros H. destruct (isSimpleResourceRule r) as [k|] eqn:E; simpl.
  2:{ rewrite !RulesAllow_app. simpl. rewrite orb_false_r.
      destruct (RulesAllow a c), (RuleAllows a r), (RulesAllow a (map_to_list m).*2);
        done. }
  destruct (m !! k) as [e|] eqn:Em; simpl; rewrite !RulesAllow_app.
  - pose proof (map_Forall_lookup_1 _ _ _ _ H Em) as He.
    apply isSimpleResourceRule_spec in E, He.
    rewrite <- insert_delete_eq, map_to_list_insert by apply lookup_delete_eq.
    rewrite <- (insert_delete_id m k e) at 2 by done.
    rewrite (map_to_list_insert (delete k m) k e) by apply lookup_delete_eq.
    rewrite !fmap_cons, !RulesAllow_cons. cbn [snd].
    rewrite add_verbs_allows by naive_solver congruence.
    destruct (RulesAllow a c), (RuleAllows a e), (RuleAllows a r),
      (RulesAllow a (map_to_list (delete k m)).*2); done.
  - rewrite map_to_list_insert by done. rewrite fmap_cons, RulesAllow_cons. cbn [snd].
    destruct (RulesAllow a c), (RuleAllows a r), (RulesAllow a (map_to_list m).*2);
      done.
Qed.

Lemma compact_loop_allows (a : Attributes) rules st :
  compact_inv st →
  RulesAllow a (compact_rules (fold_left compact_step rules st)) =
  RulesAllow a (compact_rules st) || RulesAllow a rules.
Proof.
  revert st. induction rules as [|r rules IH]; intros st H; simpl.
  { by rewrite orb_false_r. }
  rewrite IH by by apply compact_step_inv. rewrite compact_step_allows by done.
  by rewrite <- orb_assoc.
Qed.

(** ** Properties *)

(** Breaking a rule down into its atomic subrules changes no authorization
    decision: the subrules allow exactly the requests the rule allows. *)
Theorem BreakdownRule_equivalent (a : Attributes) (r : PolicyRule) :
  RulesAllow a (BreakdownRule r) = RuleAllows a r.
Proof. apply BreakdownRule_allows. Qed.

(** C1: soundness of the escalation test: when [Covers] reports that the owner
    rules cover the servant rules, every well-formed request the servant rules
    allow is allowed by the owner rules. *)
Theorem Covers_sound (owner servant : list PolicyRule) :
  (Covers owner servant).1 = true →
  ∀ a, wf_attributes a → RulesAllow a servant = true → RulesAllow a owner = true.
Proof. intros H a. by apply Covers_sound_lemma. Qed.

(** C7: on resource rules the escalation test is exact: [Covers] answers [true]
    if and only if the owner rules allow every well-formed request that the
    servant rules allow, so it refuses no grant that is no escalation. *)
Theorem Covers_exact (owner servant : list PolicyRule) :
  Forall resource_rule servant →
  (Covers owner servant).1 = true ↔
  ∀ a, wf_attributes a → RulesAllow a servant = true → RulesAllow a owner = true.
Proof.
  intros Hf. split.
  - intros Hc a. by apply Covers_sound_lemma.
  - by apply Covers_complete_lemma.
Qed.

(** [CompactRules] neither adds nor loses permissions, whatever order Go
    enumerates its map in. *)
Theorem CompactRules_preserves
    (range : gmap simpleResource PolicyRule → list PolicyRule)
    (rules : list PolicyRule) (a : Attributes) :
  (∀ m, range m ≡ₚ (map_to_list m).*2) →
  RulesAllow a (CompactRules range rules) = RulesAllow a rules.
Proof.
  intros Hr. unfold CompactRules.
  pose proof (compact_loop_allows a rules ([], ∅)) as H.
  destruct (fold_left compact_step rules ([], ∅)) as [c m].
  rewrite (Hr m). apply H. apply map_Forall_empty.
Qed.

(** ** Witnesses *)

Definition ex_admin : PolicyRule := mkPolicyRule ["*"] ["*"] ["*"] [] None.
Definition ex_logs : PolicyRule :=
  mkPolicyRule ["get"; "list"] [""] ["*/log"; "pods"] [] None.
Definition ex_pod_logs : PolicyRule :=
  mkPolicyRule ["get"] [""] ["pods/log"] ["web-0"] None.
Definition ex_request : Attributes :=
  mkAttributes (mkUser "jane" []) "get" "default" "" "pods" "log" "web-0" true "".

Lemma Covers_sound_witness :
  (Covers [ex_logs] [ex_pod_logs]).1 = true ∧ RulesAllow ex_request [ex_logs] = true.
Proof.
  split; [reflexivity|].
  apply (Covers_sound [ex_logs] [ex_pod_logs]); [reflexivity|intros _; reflexivity|reflexivity].
Defined.

Lemma ex_pod_logs_resource : Forall resource_rule [ex_pod_logs].
Proof.
  repeat constructor. intros x y He Hx ->.
  assert ("log" = "") as Hl; [|done].
  apply (f_equal (λ s, SplitN2 s "/"%char)) in He.
  rewrite SplitN2_app in He by done. by simplify_eq/=.
Qed.

Lemma Covers_exact_witness :
  Forall resource_rule [ex_pod_logs] ∧
  (∀ a, wf_attributes a → RulesAllow a [ex_pod_logs] = true → RulesAllow a [ex_logs] = true).
Proof.
  split; [exact ex_pod_logs_resource|].
  apply (Covers_exact [ex_logs] [ex_pod_logs] ex_pod_logs_resource). reflexivity.
Defined.

Lemma CompactRules_preserves_witness :
  RulesAllow ex_request (CompactRules (λ m, (map_to_list m).*2) [ex_pod_logs; ex_logs]) = true.
Proof.
  rewrite (CompactRules_preserves (λ m, (map_to_list m).*2) [ex_pod_logs; ex_logs]
    ex_request (λ m, Permutation_refl _)).
  reflexivity.
Defined.
