(* ===== verification/RbacObjects.v ===== *)
(** * RBAC API objects and errors

    The object types of [staging/src/k8s.io/api/rbac/v1/types.go] with the
    metadata fields the RBAC code reads or writes, the API errors it tells
    apart, and [IsOnlyMutatingGCFields] of [pkg/registry/rbac/helpers.go].

    Labels and annotations are [option]s of finite maps: [None] is Go's nil map,
    which [reflect.DeepEqual] tells from an empty one. *)

From S2P Require Import Prelude GoStrings RbacRules.

(** ** Errors *)

(** The errors of the RBAC code, one constructor per kind of error it builds or
    tests with [errors.IsNotFound] and the like. *)
Inductive error : Type :=
  | ErrNotFound
  | ErrAlreadyExists
  | ErrConflict
  | ErrBadRequest (msg : string)
  | ErrForbidden (groupResource name : string) (cause : error)
  | ErrText (msg : string)
  | ErrUnsupportedKind (kind : string)
  | ErrEscalation (user : UserInfo) (missing : list PolicyRule) (resolution : list error)
  | ErrAggregate (errs : list error).

(** [utilerrors.NewAggregate], on a list of non-nil errors. *)
Definition NewAggregate (errlist : list error) : option error :=
  match errlist with [] => None | _ => Some (ErrAggregate errlist) end.

(** ** Metadata *)

(** [metav1.ObjectMeta]. [OtherMeta] stands for the fields no RBAC code reads
    (timestamps, generation, initializers, cluster name). *)
Record ObjectMeta : Type := mkMeta {
  MName : string;
  MNamespace : string;
  MSelfLink : string;
  MUID : string;
  MResourceVersion : string;
  MLabels : option (gmap string string);
  MAnnotations : option (gmap string string);
  MOwnerReferences : list string;
  MFinalizers : list string;
  OtherMeta : string;
}.

#[global] Instance ObjectMeta_eq_dec : EqDecision ObjectMeta.
Proof. solve_decision. Defined.

(** Metadata with a name and a namespace only. *)
Definition meta_of (ns name : string) : ObjectMeta :=
  mkMeta name ns "" "" "" None None [] [] "".

(** [metav1.LabelSelector]; [equality.Semantic.DeepEqual] on selectors takes nil
    and empty collections for equal, which is the equality of these records. *)
Record LabelSelectorRequirement : Type := mkReq {
  ReqKey : string;
  ReqOperator : string;
  ReqValues : list string;
}.

#[global] Instance LabelSelectorRequirement_eq_dec : EqDecision LabelSelectorRequirement.
Proof. solve_decision. Defined.

Record LabelSelector : Type := mkSelector {
  MatchLabels : gmap string string;
  MatchExpressions : list LabelSelectorRequirement;
}.

#[global] Instance LabelSelector_eq_dec : EqDecision LabelSelector.
Proof. solve_decision. Defined.

(** [*rbacv1.AggregationRule]: its [ClusterRoleSelectors], [None] for nil. *)
Notation AggregationRule := (option (list LabelSelector)).

(** ** Objects *)

Record Role : Type := mkRole {
  role_meta : ObjectMeta;
  role_rules : list PolicyRule;
}.

Record ClusterRole : Type := mkClusterRole {
  cr_meta : ObjectMeta;
  cr_rules : list PolicyRule;
  cr_aggregation : AggregationRule;
}.

Record RoleBinding : Type := mkRoleBinding {
  rb_meta : ObjectMeta;
  rb_subjects : list Subject;
  rb_roleRef : RoleRef;
}.

Record ClusterRoleBinding : Type := mkClusterRoleBinding {
  crb_meta : ObjectMeta;
  crb_subjects : list Subject;
  crb_roleRef : RoleRef;
}.

(** ** Garbage-collector updates *)

(** The equality of [kapihelper.Semantic] on metadata: nil and empty maps are
    equal. *)
Definition semantic_meta (m : ObjectMeta) : ObjectMeta :=
  mkMeta (MName m) (MNamespace m) (MSelfLink m) (MUID m) (MResourceVersion m)
    (Some (default ∅ (MLabels m))) (Some (default ∅ (MAnnotations m)))
    (MOwnerReferences m) (MFinalizers m) (OtherMeta m).

(** The copy of the new object's metadata that [IsOnlyMutatingGCFields] stomps
    with the old object's owner references, finalizers and self link. *)
Definition stomp_gc_fields (m old : ObjectMeta) : ObjectMeta :=
  mkMeta (MName m) (MNamespace m) (MSelfLink old) (MUID m) (MResourceVersion m)
    (MLabels m) (MAnnotations m) (MOwnerReferences old) (MFinalizers old)
    (OtherMeta m).

(** A kind of object with metadata and a payload that is compared semantically. *)
Class RbacObject (T : Type) := {
  obj_meta : T → ObjectMeta;
  obj_payload : Type;
  obj_payload_dec : EqDecision obj_payload;
  obj_data : T → obj_payload;
}.

#[global] Existing Instance obj_payload_dec.

(** A rule up to the difference between nil and empty slices. *)
Definition semantic_rule (r : PolicyRule) : PolicyRule :=
  mkPolicyRule (Verbs r) (APIGroups r) (Resources r) (ResourceNames r) (Some (urls r)).

#[global] Instance Role_object : RbacObject Role := {|
  obj_meta := role_meta;
  obj_data r := map semantic_rule (role_rules r);
|}.

#[global] Instance ClusterRole_object : RbacObject ClusterRole := {|
  obj_meta := cr_meta;
  obj_data r := (map semantic_rule (cr_rules r), cr_aggregation r);
|}.

#[global] Instance RoleBinding_object : RbacObject RoleBinding := {|
  obj_meta := rb_meta;
  obj_data b := (rb_subjects b, rb_roleRef b);
|}.

#[global] Instance ClusterRoleBinding_object : RbacObject ClusterRoleBinding := {|
  obj_meta := crb_meta;
  obj_data b := (crb_subjects b, crb_roleRef b);
|}.

Definition IsOnlyMutatingGCFields `{RbacObject T} (obj : T) (old : option T) : bool :=
  match old with
  | None => false
  | Some old =>
      bool_decide (semantic_meta (stomp_gc_fields (obj_meta obj) (obj_meta old)) =
                   semantic_meta (obj_meta old)) &&
      bool_decide (obj_data obj = obj_data old)
  end.

Lemma semantic_rule_allows (a : Attributes) (r r' : PolicyRule) :
  semantic_rule r = semantic_rule r' → RuleAllows a r = RuleAllows a r'.
Proof.
  destruct r, r'. unfold semantic_rule, urls, RuleAllows, NonResourceURLMatches, urls.
  simpl. intros [= -> -> -> -> H]. rewrite H. done.
Qed.

Lemma semantic_rules_allow (a : Attributes) (l l' : list PolicyRule) :
  map semantic_rule l = map semantic_rule l' → RulesAllow a l = RulesAllow a l'.
Proof.
  revert l'. induction l as [|r l IH]; intros [|r' l'] H; [done..|].
  assert (semantic_rule r = semantic_rule r') by (simpl in H; congruence).
  assert (map semantic_rule l = map semantic_rule l') by (simpl in H; congruence).
  rewrite !RulesAllow_cons. by rewrite (semantic_rule_allows a r r'), (IH l').
Qed.
