(* ===== verification/RbacResolver.v ===== *)
(** * Resolving rules and authorizing requests

    [pkg/registry/rbac/validation/rule.go] (the [DefaultRuleResolver], the
    static role store), [plugin/pkg/auth/authorizer/rbac/rbac.go] (the
    authorizer) and [subject_locator.go].

    A Go visitor is a closure over a state it mutates: here it is a function
    from a state to a state and the boolean that says whether to go on, and
    [VisitRulesFor] threads the state. [AuthorizationRuleResolver] is the Go
    interface; the class [RuleResolverLaws] states what its clients rely on,
    and the default resolver is an instance. *)

From S2P Require Import Prelude GoStrings RbacRules RbacCovers RbacObjects.

(** ** Subjects *)

(** [serviceaccount.MakeUsername] *)
Definition MakeUsername (namespace name : string) : string :=
  "system:serviceaccount:" +:+ namespace +:+ ":" +:+ name.

Definition appliesToUser (user : UserInfo) (subject : Subject) (namespace : string) : bool :=
  if bool_decide (SubjectKind subject = UserKind) then
    bool_decide (UserName user = SubjectName subject)
  else if bool_decide (SubjectKind subject = GroupKind) then
    has (UserGroups user) (SubjectName subject)
  else if bool_decide (SubjectKind subject = ServiceAccountKind) then
    let saNamespace :=
      if 0 <? slen (SubjectNamespace subject) then SubjectNamespace subject else namespace in
    if slen saNamespace =? 0 then false
    else bool_decide (MakeUsername saNamespace (SubjectName subject) = UserName user)
  else false.

(** The index of the first subject that applies; [None] is [(0, false)]. *)
Fixpoint appliesTo (user : UserInfo) (bindingSubjects : list Subject)
    (namespace : string) : option nat :=
  match bindingSubjects with
  | [] => None
  | s :: rest =>
      if appliesToUser user s namespace then Some 0%nat
      else S <$> appliesTo user rest namespace
  end.

(** ** Visiting rules *)

(** The [fmt.Stringer] handed to a visitor: the binding and the index of the
    subject that applies. *)
Inductive Source : Type :=
  | clusterRoleBindingDescriber (binding : ClusterRoleBinding) (subject : nat)
  | roleBindingDescriber (binding : RoleBinding) (subject : nat).

Definition visitor (V : Type) : Type :=
  V → option Source → option PolicyRule → option error → V * bool.

(** The Go interface [AuthorizationRuleResolver]. *)
Record AuthorizationRuleResolver : Type := {
  GetRoleReferenceRules : RoleRef → string → result error (list PolicyRule);
  RulesFor : UserInfo → string → list PolicyRule * option error;
  VisitRulesFor : ∀ V : Type, UserInfo → string → visitor V → V → V;
}.

Arguments VisitRulesFor _ {V} _ _ _ _.

(** What a visit of the default resolver goes through: rules with their source,
    and resolution errors. *)
Inductive event : Type :=
  | EvRule (source : Source) (rule : PolicyRule)
  | EvError (err : error).

Definition visit_event {V} (visit : visitor V) (st : V) (ev : event) : V * bool :=
  match ev with
  | EvRule src r => visit st (Some src) (Some r) None
  | EvError e => visit st None None (Some e)
  end.

Fixpoint visit_until {V} (visit : visitor V) (evs : list event) (st : V) : V * bool :=
  match evs with
  | [] => (st, true)
  | ev :: rest =>
      let '(st', go) := visit_event visit st ev in
      if go then visit_until visit rest st' else (st', false)
  end.

Definition event_rules (evs : list event) : list PolicyRule :=
  omap (λ ev, match ev with EvRule _ r => Some r | EvError _ => None end) evs.

Definition event_errors (evs : list event) : list error :=
  omap (λ ev, match ev with EvRule _ _ => None | EvError e => Some e end) evs.

(** What the clients of the interface rely on: visiting goes through one
    sequence of events per user and namespace and stops when told to, and
    [RulesFor] returns the rules and the errors of that sequence. *)
Class RuleResolverLaws (r : AuthorizationRuleResolver) : Type := {
  rule_events : UserInfo → string → list event;
  VisitRulesFor_events V u ns (visit : visitor V) st :
    VisitRulesFor r u ns visit st = (visit_until visit (rule_events u ns) st).1;
  RulesFor_events u ns :
    RulesFor r u ns =
      (event_rules (rule_events u ns), NewAggregate (event_errors (rule_events u ns)));
}.

(** ** The default resolver *)

Module DefaultRuleResolver.

(** The four lister interfaces of the struct. *)
Record t : Type := mk {
  GetRole : string → string → result error Role;
  ListRoleBindings : string → result error (list RoleBinding);
  GetClusterRole : string → result error ClusterRole;
  ListClusterRoleBindings : result error (list ClusterRoleBinding);
}.

Section resolver.
Context (r : t).

Definition GetRoleReferenceRules (roleRef : RoleRef) (bindingNamespace : string) :
    result error (list PolicyRule) :=
  if bool_decide (RefKind roleRef = "Role") then
    match GetRole r bindingNamespace (RefName roleRef) with
    | Err e => Err e
    | Ok role => Ok (role_rules role)
    end
  else if bool_decide (RefKind roleRef = "ClusterRole") then
    match GetClusterRole r (RefName roleRef) with
    | Err e => Err e
    | Ok clusterRole => Ok (cr_rules clusterRole)
    end
  else Err (ErrUnsupportedKind (RefKind roleRef)).

Section visiting.
Context {V : Type} (visit : visitor V).

(** [for i := range rules { if !visitor(source, &rules[i], nil) { return } }] *)
Fixpoint visit_rules (src : Source) (rules : list PolicyRule) (st : V) : V * bool :=
  match rules with
  | [] => (st, true)
  | rule :: rest =>
      let '(st', go) := visit st (Some src) (Some rule) None in
      if go then visit_rules src rest st' else (st', false)
  end.

(** The loop over the bindings, shared by the two kinds of binding: skip a
    binding that does not apply, report an unresolvable role and go on, visit
    the rules of the others. *)
Fixpoint visit_bindings {B : Type} (subjects : B → list Subject) (roleRef : B → RoleRef)
    (describe : B → nat → Source) (user : UserInfo) (namespace : string)
    (bindings : list B) (st : V) : V * bool :=
  match bindings with
  | [] => (st, true)
  | b :: rest =>
      let continue := visit_bindings subjects roleRef describe user namespace rest in
      match appliesTo user (subjects b) namespace with
      | None => continue st
      | Some subjectIndex =>
          let '(st', go) :=
            match GetRoleReferenceRules (roleRef b) namespace with
            | Err err => visit st None None (Some err)
            | Ok rules => visit_rules (describe b subjectIndex) rules st
            end in
          if go then continue st' else (st', false)
      end
  end.

Definition VisitRulesFor (user : UserInfo) (namespace : string) (st : V) : V :=
  let '(st, go) :=
    match ListClusterRoleBindings r with
    | Err err => visit st None None (Some err)
    | Ok bs =>
        visit_bindings crb_subjects crb_roleRef clusterRoleBindingDescriber user "" bs st
    end in
  if negb go then st
  else if 0 <? slen namespace then
    fst (match ListRoleBindings r namespace with
         | Err err => visit st None None (Some err)
         | Ok bs =>
             visit_bindings rb_subjects rb_roleRef roleBindingDescriber user namespace bs st
         end)
  else st.
End visiting.

(** [ruleAccumulator.visit] *)
Definition accumulate : visitor (list PolicyRule * list error) :=
  λ acc _ rule err,
    let '(rules, errors) := acc in
    ((match rule with Some x => rules ++ [x] | None => rules end,
      match err with Some e => errors ++ [e] | None => errors end), true).

Definition RulesFor (user : UserInfo) (namespace : string) :
    list PolicyRule * option error :=
  let '(rules, errors) := VisitRulesFor accumulate user namespace ([], []) in
  (rules, NewAggregate errors).
End resolver.

(** The struct as an [AuthorizationRuleResolver]. *)
Definition resolver (r : t) : AuthorizationRuleResolver := {|
  RbacResolver.GetRoleReferenceRules := GetRoleReferenceRules r;
  RbacResolver.RulesFor := RulesFor r;
  RbacResolver.VisitRulesFor V user namespace visit st :=
    VisitRulesFor r visit user namespace st;
|}.

End DefaultRuleResolver.

(** ** Static roles *)

(** [StaticRoles]: a resolver over lists of objects. *)
Module StaticRoles.

Record t : Type := mk {
  roles : list Role;
  roleBindings : list RoleBinding;
  clusterRoles : list ClusterRole;
  clusterRoleBindings : list ClusterRoleBinding;
}.

Definition GetRole (r : t) (namespace name : string) : result error Role :=
  if slen namespace =? 0 then Err (ErrText "must provide namespace when getting role")
  else match List.find (λ role, bool_decide (MNamespace (role_meta role) = namespace) &&
                                bool_decide (MName (role_meta role) = name)) (roles r) with
  | Some role => Ok role
  | None => Err (ErrText "role not found")
  end.

Definition GetClusterRole (r : t) (name : string) : result error ClusterRole :=
  match List.find (λ c, bool_decide (MName (cr_meta c) = name)) (clusterRoles r) with
  | Some c => Ok c
  | None => Err (ErrText "clusterrole not found")
  end.

Definition ListRoleBindings (r : t) (namespace : string) : result error (list RoleBinding) :=
  if slen namespace =? 0 then
    Err (ErrText "must provide namespace when listing role bindings")
  else Ok (List.filter (λ b, bool_decide (MNamespace (rb_meta b) = namespace))
             (roleBindings r)).

Definition ListClusterRoleBindings (r : t) : result error (list ClusterRoleBinding) :=
  Ok (clusterRoleBindings r).

(** [newMockRuleResolver] *)
Definition default_resolver (r : t) : DefaultRuleResolver.t :=
  DefaultRuleResolver.mk (GetRole r) (ListRoleBindings r) (GetClusterRole r)
    (ListClusterRoleBindings r).

Definition resolver (r : t) : AuthorizationRuleResolver :=
  DefaultRuleResolver.resolver (default_resolver r).

End StaticRoles.

(** ** The default resolver meets the interface *)

Section events.
Context (r : DefaultRuleResolver.t).

(** The events of one binding. *)
Definition binding_events {B : Type} (subjects : B → list Subject) (roleRef : B → RoleRef)
    (describe : B → nat → Source) (user : UserInfo) (namespace : string) (b : B) :
    list event :=
  match appliesTo user (subjects b) namespace with
  | None => []
  | Some i =>
      match DefaultRuleResolver.GetRoleReferenceRules r (roleRef b) namespace with
      | Err e => [EvError e]
      | Ok rules => map (EvRule (describe b i)) rules
      end
  end.

Definition cluster_events (user : UserInfo) : list event :=
  match DefaultRuleResolver.ListClusterRoleBindings r with
  | Err e => [EvError e]
  | Ok bs =>
      flat_map (binding_events crb_subjects crb_roleRef clusterRoleBindingDescriber user "") bs
  end.

Definition namespace_events (user : UserInfo) (namespace : string) : list event :=
  if 0 <? slen namespace then
    match DefaultRuleResolver.ListRoleBindings r namespace with
    | Err e => [EvError e]
    | Ok bs =>
        flat_map (binding_events rb_subjects rb_roleRef roleBindingDescriber user namespace) bs
    end
  else [].

Definition default_events (user : UserInfo) (namespace : string) : list event :=
  cluster_events user ++ namespace_events user namespace.
End events.

Lemma visit_until_app {V} (visit : visitor V) (l k : list event) (st : V) :
  visit_until visit (l ++ k) st =
    let '(st', go) := visit_until visit l st in
    if go then visit_until visit k st' else (st', false).
Proof.
  revert st. induction l as [|ev l IH]; intros st; simpl; [done|].
  destruct (visit_event visit st ev) as [st' []]; [apply IH|done].
Qed.

Lemma visit_until_single {V} (visit : visitor V) (e : error) (st : V) :
  visit_until visit [EvError e] st = visit st None None (Some e).
Proof. simpl. by destruct (visit st None None (Some e)) as [? []]. Qed.

Lemma visit_rules_events {V} (visit : visitor V) src rules st :
  DefaultRuleResolver.visit_rules visit src rules st =
  visit_until visit (map (EvRule src) rules) st.
Proof.
  revert st. induction rules as [|x rules IH]; intros st; simpl; [done|].
  destruct (visit st (Some src) (Some x) None) as [st' []]; [apply IH|done].
Qed.

Lemma visit_bindings_events {V B} (r : DefaultRuleResolver.t) (visit : visitor V)
    (subjects : B → list Subject) roleRef describe user ns (bs : list B) st :
  DefaultRuleResolver.visit_bindings r visit subjects roleRef describe user ns bs st =
  visit_until visit (flat_map (binding_events r subjects roleRef describe user ns) bs) st.
Proof.
  revert st. induction bs as [|b bs IH]; intros st; simpl; [done|].
  rewrite visit_until_app. unfold binding_events at 1.
  destruct (appliesTo user (subjects b) ns) as [i|]; simpl; [|apply IH].
  destruct (DefaultRuleResolver.GetRoleReferenceRules r (roleRef b) ns) as [rules|e].
  - rewrite visit_rules_events.
    destruct (visit_until visit (map (EvRule (describe b i)) rules) st) as [st' []]; [apply IH|done].
  - rewrite visit_until_single.
    destruct (visit st None None (Some e)) as [st' []]; [apply IH|done].
Qed.

Lemma default_VisitRulesFor_events {V} r (visit : visitor V) u ns st :
  DefaultRuleResolver.VisitRulesFor r visit u ns st =
  (visit_until visit (default_events r u ns) st).1.
Proof.
  unfold DefaultRuleResolver.VisitRulesFor, default_events.
  rewrite visit_until_app. unfold cluster_events.
  set (c := match DefaultRuleResolver.ListClusterRoleBindings r with
            | Ok _ => _ | Err _ => _ end).
  assert (c = visit_until visit (cluster_events r u) st) as ->.
  { unfold c, cluster_events.
    destruct (DefaultRuleResolver.ListClusterRoleBindings r) as [bs|e].
    - apply visit_bindings_events.
    - by rewrite visit_until_single. }
  unfold cluster_events.
  destruct (visit_until visit _ st) as [st' []]; simpl; [|done].
  unfold namespace_events. destruct (0 <? slen ns); [|done].
  destruct (DefaultRuleResolver.ListRoleBindings r ns) as [bs|e].
  - by rewrite visit_bindings_events.
  - by rewrite visit_until_single.
Qed.

Lemma accumulate_events (evs : list event) rules errs :
  visit_until DefaultRuleResolver.accumulate evs (rules, errs) =
  ((rules ++ event_rules evs, errs ++ event_errors evs), true).
Proof.
  revert rules errs. induction evs as [|ev evs IH]; intros rules errs; simpl.
  { by rewrite !app_nil_r. }
  destruct ev; simpl; rewrite IH; by rewrite <- ?app_assoc.
Qed.

#[global] Instance default_resolver_laws (r : DefaultRuleResolver.t) :
  RuleResolverLaws (DefaultRuleResolver.resolver r).
Proof.
  exists (default_events r).
  - intros V u ns visit st. apply default_VisitRulesFor_events.
  - intros u ns. simpl. unfold DefaultRuleResolver.RulesFor.
    rewrite default_VisitRulesFor_events, accumulate_events. done.
Defined.

#[global] Instance static_resolver_laws (r : StaticRoles.t) :
  RuleResolverLaws (StaticRoles.resolver r) := default_resolver_laws _.

(** ** Facts on subjects and events *)

Lemma appliesTo_spec (u : UserInfo) (ss : list Subject) (ns : string) :
  is_Some (appliesTo u ss ns) ↔ ∃ s, s ∈ ss ∧ appliesToUser u s ns = true.
Proof.
  induction ss as [|s ss IH]; simpl.
  - split; [by intros []|]. by intros (? & ?%not_elem_of_nil & _).
  - destruct (appliesToUser u s ns) eqn:E.
    + split; [intros _|done]. exists s. split; [left|done].
    + rewrite fmap_is_Some, IH. split.
      * intros (x & Hx & Ex). exists x. split; [by right|done].
      * intros (x & Hx & Ex). apply elem_of_cons in Hx as [->|Hx]; [congruence|eauto].
Qed.

(** A subject that applies cluster-wide applies in every namespace. *)
Lemma appliesToUser_mono (u : UserInfo) (s : Subject) (ns : string) :
  appliesToUser u s "" = true → appliesToUser u s ns = true.
Proof.
  unfold appliesToUser.
  repeat case_bool_decide; try done;
    destruct (0 <? slen (SubjectNamespace s)); done || discriminate.
Qed.

Lemma elem_of_event_rules (evs : list event) (x : PolicyRule) :
  x ∈ event_rules evs ↔ ∃ src, EvRule src x ∈ evs.
Proof.
  unfold event_rules. rewrite list_elem_of_omap. split.
  - intros ([src y|e] & Hin & E); simplify_eq. eauto.
  - intros (src & Hin). eauto.
Qed.

Lemma elem_of_binding_rules {B} r (subjects : B → list Subject) roleRef describe u ns b x :
  x ∈ event_rules (binding_events r subjects roleRef describe u ns b) ↔
  (∃ s, s ∈ subjects b ∧ appliesToUser u s ns = true) ∧
  ∃ rules, DefaultRuleResolver.GetRoleReferenceRules r (roleRef b) ns = Ok rules ∧ x ∈ rules.
Proof.
  rewrite <- appliesTo_spec, elem_of_event_rules. unfold binding_events.
  destruct (appliesTo u (subjects b) ns) as [i|].
  - destruct (DefaultRuleResolver.GetRoleReferenceRules r (roleRef b) ns) as [rules|e].
    + setoid_rewrite list_elem_of_fmap. naive_solver.
    + setoid_rewrite list_elem_of_singleton. naive_solver.
  - split; [|by intros [[] _]]. by intros (? & ?%not_elem_of_nil).
Qed.

Lemma event_rules_app (l k : list event) : event_rules (l ++ k) = event_rules l ++ event_rules k.
Proof. apply omap_app. Qed.

Lemma elem_of_flat_map_rules {B} (f : B → list event) (bs : list B) x :
  x ∈ event_rules (flat_map f bs) ↔ ∃ b, b ∈ bs ∧ x ∈ event_rules (f b).
Proof.
  rewrite elem_of_event_rules. setoid_rewrite elem_of_flat_map.
  setoid_rewrite elem_of_event_rules. naive_solver.
Qed.

(** The rules of a user: those of the applicable cluster role bindings, and
    those of the applicable role bindings of the namespace. *)
Lemma elem_of_default_rules r u ns x :
  x ∈ (DefaultRuleResolver.RulesFor r u ns).1 ↔
  (∃ bs b s rules, DefaultRuleResolver.ListClusterRoleBindings r = Ok bs ∧ b ∈ bs ∧
     s ∈ crb_subjects b ∧ appliesToUser u s "" = true ∧
     DefaultRuleResolver.GetRoleReferenceRules r (crb_roleRef b) "" = Ok rules ∧ x ∈ rules) ∨
  (ns ≠ "" ∧
   ∃ bs b s rules, DefaultRuleResolver.ListRoleBindings r ns = Ok bs ∧ b ∈ bs ∧
     s ∈ rb_subjects b ∧ appliesToUser u s ns = true ∧
     DefaultRuleResolver.GetRoleReferenceRules r (rb_roleRef b) ns = Ok rules ∧ x ∈ rules).
Proof.
  change (DefaultRuleResolver.RulesFor r u ns)
    with (RulesFor (DefaultRuleResolver.resolver r) u ns).
  rewrite RulesFor_events. cbn [fst rule_events default_resolver_laws].
  unfold default_events. rewrite event_rules_app, elem_of_app. f_equiv.
  - unfold cluster_events.
    destruct (DefaultRuleResolver.ListClusterRoleBindings r) as [bs|e].
    + rewrite elem_of_flat_map_rules. setoid_rewrite elem_of_binding_rules. naive_solver.
    + split; [by intros ?%not_elem_of_nil|naive_solver].
  - unfold namespace_events. destruct (Z.ltb_spec 0 (slen ns)) as [Hl|Hl].
    + assert (ns ≠ "") by (by intros ->).
      destruct (DefaultRuleResolver.ListRoleBindings r ns) as [bs|e].
      * rewrite elem_of_flat_map_rules. setoid_rewrite elem_of_binding_rules. naive_solver.
      * split; [by intros ?%not_elem_of_nil|naive_solver].
    + assert (ns = "") by (apply slen_zero; unfold slen in *; lia).
      split; [by intros ?%not_elem_of_nil|naive_solver].
Qed.
