(* ===== verification/RbacAuthorizer.v ===== *)
(** * The RBAC authorizer and the subject locator

    [plugin/pkg/auth/authorizer/rbac/rbac.go]: [Authorize], [RulesFor];
    [subject_locator.go]: [AllowedSubjects]. The authorizer is written against
    the interface [AuthorizationRuleResolver] and proved against its laws. *)

From S2P Require Import Prelude GoStrings RbacRules RbacCovers RbacObjects RbacResolver.

(** ** The authorizer interface *)

(** A reason string is the list of its parts: the empty string is [[]], and
    [strings.Join(reasons, newline)] is the concatenation. *)
Inductive ReasonPart : Type :=
  | RbacAllowedBy (source : Source)
  | RbacErrors (err : error)
  | ReasonText (msg : string).

Notation Reason := (list ReasonPart).

(** [authorizer.Authorizer]: decision, reason, error. *)
Definition Authorizer : Type := Attributes → Decision * Reason * option error.

Definition decision (x : Decision * Reason * option error) : Decision := x.1.1.

(** ** [RBACAuthorizer] *)

Module RBACAuthorizer.

(** [authorizingVisitor]: [allowed], [reason], [errors]. *)
Record authorizingVisitor : Type := mkVisitor {
  allowed : bool;
  reason : Reason;
  errors : list error;
}.

Definition visit (requestAttributes : Attributes) : visitor authorizingVisitor :=
  λ v source rule err,
    let matched :=
      match rule with Some x => RuleAllows requestAttributes x | None => false end in
    if matched then
      (mkVisitor true
         (match source with Some s => [RbacAllowedBy s] | None => [] end)
         (errors v), false)
    else
      (mkVisitor (allowed v) (reason v)
         (match err with Some e => errors v ++ [e] | None => errors v end), true).

(** [Authorize]; the log entry of a denial is not modelled. *)
Definition Authorize (resolver : AuthorizationRuleResolver) : Authorizer :=
  λ requestAttributes,
    let v :=
      VisitRulesFor resolver (GetUser requestAttributes) (GetNamespace requestAttributes)
        (visit requestAttributes) (mkVisitor false [] []) in
    if allowed v then (DecisionAllow, reason v, None)
    else
      (DecisionNoOpinion,
       match NewAggregate (errors v) with Some e => [RbacErrors e] | None => [] end,
       None).

(** [authorizer.DefaultResourceRuleInfo] and [DefaultNonResourceRuleInfo] *)
Record ResourceRuleInfo : Type := mkResourceRuleInfo {
  info_Verbs : list string;
  info_APIGroups : list string;
  info_Resources : list string;
  info_ResourceNames : list string;
}.

Record NonResourceRuleInfo : Type := mkNonResourceRuleInfo {
  ninfo_Verbs : list string;
  ninfo_NonResourceURLs : list string;
}.

Definition RulesFor (resolver : AuthorizationRuleResolver) (user : UserInfo)
    (namespace : string) :
    list ResourceRuleInfo * list NonResourceRuleInfo * bool * option error :=
  let '(policyRules, err) := RbacResolver.RulesFor resolver user namespace in
  let resourceRules :=
    flat_map (λ policyRule,
      if 0 <? Z.of_nat (length (Resources policyRule)) then
        [mkResourceRuleInfo (Verbs policyRule) (APIGroups policyRule)
           (Resources policyRule) (ResourceNames policyRule)]
      else []) policyRules in
  let nonResourceRules :=
    flat_map (λ policyRule,
      if 0 <? Z.of_nat (length (urls policyRule)) then
        [mkNonResourceRuleInfo (Verbs policyRule) (urls policyRule)]
      else []) policyRules in
  (resourceRules, nonResourceRules, false, err).

End RBACAuthorizer.

(** ** [SubjectAccessEvaluator] *)

Module SubjectLocator.

Definition SystemPrivilegedGroup : string := "system:masters".

Section locator.
Context (superUser : string) (r : DefaultRuleResolver.t).

(** The loop over one list of bindings. [GetRoleReferenceRules] returns a nil
    slice with its error, and the loop goes on to test that empty slice. *)
Fixpoint collect {B : Type} (subjectsOf : B → list Subject) (roleRef : B → RoleRef)
    (namespace : string) (a : Attributes) (bindings : list B)
    (st : list Subject * list error) : list Subject * list error :=
  match bindings with
  | [] => st
  | b :: rest =>
      let '(subjects, errorlist) := st in
      let '(rules, errorlist) :=
        match DefaultRuleResolver.GetRoleReferenceRules r (roleRef b) namespace with
        | Ok rules => (rules, errorlist)
        | Err e => ([], errorlist ++ [e])
        end in
      let subjects :=
        if RulesAllow a rules then subjects ++ subjectsOf b else subjects in
      collect subjectsOf roleRef namespace a rest (subjects, errorlist)
  end.

(** The loop that builds [dedupedSubjects]. *)
Definition dedup (subjects : list Subject) : list Subject :=
  fold_left (λ deduped subject,
    if existsb (λ curr, bool_decide (curr = subject)) deduped then deduped
    else deduped ++ [subject]) subjects [].

Definition AllowedSubjects (a : Attributes) : list Subject * option error :=
  let subjects := [mkSubject GroupKind GroupName SystemPrivilegedGroup ""] in
  let subjects :=
    if 0 <? slen superUser then subjects ++ [mkSubject UserKind GroupName superUser ""]
    else subjects in
  let '(subjects, errorlist) :=
    match DefaultRuleResolver.ListClusterRoleBindings r with
    | Err e => (subjects, [e])
    | Ok bs => collect crb_subjects crb_roleRef "" a bs (subjects, [])
    end in
  let namespace := GetNamespace a in
  let '(subjects, errorlist) :=
    if 0 <? slen namespace then
      match DefaultRuleResolver.ListRoleBindings r namespace with
      | Err e => (subjects, errorlist ++ [e])
      | Ok bs => collect rb_subjects rb_roleRef namespace a bs (subjects, errorlist)
      end
    else (subjects, errorlist) in
  let dedupedSubjects := dedup subjects in
  (subjects, NewAggregate errorlist).
End locator.
End SubjectLocator.

(** ** Authorization is membership in the user's rules *)

Section authorize.
Context (resolver : AuthorizationRuleResolver) `{!RuleResolverLaws resolver}.

Lemma visit_rule (a : Attributes) v src x :
  RBACAuthorizer.visit a v (Some src) (Some x) None =
    if RuleAllows a x
    then (RBACAuthorizer.mkVisitor true [RbacAllowedBy src] (RBACAuthorizer.errors v), false)
    else (v, true).
Proof. unfold RBACAuthorizer.visit. destruct v, (RuleAllows a x); done. Qed.

Lemma visit_until_authorize (a : Attributes) (evs : list event) v :
  RBACAuthorizer.allowed v = false →
  let v' := (visit_until (RBACAuthorizer.visit a) evs v).1 in
  RBACAuthorizer.allowed v' = RulesAllow a (event_rules evs) ∧
  (RBACAuthorizer.allowed v' = false →
   RBACAuthorizer.errors v' = RBACAuthorizer.errors v ++ event_errors evs).
Proof.
  revert v. induction evs as [|[src x|e] evs IH]; intros v Hv;
    cbn [visit_until visit_event].
  - simpl. rewrite app_nil_r. done.
  - change (event_rules (EvRule src x :: evs)) with (x :: event_rules evs).
    change (event_errors (EvRule src x :: evs)) with (event_errors evs).
    rewrite RulesAllow_cons, visit_rule.
    destruct (RuleAllows a x); [done|]. by apply IH.
  - change (event_rules (EvError e :: evs)) with (event_rules evs).
    change (event_errors (EvError e :: evs)) with (e :: event_errors evs).
    destruct (IH (RBACAuthorizer.mkVisitor (RBACAuthorizer.allowed v)
      (RBACAuthorizer.reason v) (RBACAuthorizer.errors v ++ [e]))) as [H1 H2]; [done|].
    split; [done|]. intros Hf. cbn. rewrite H2 by done. simpl. by rewrite <- app_assoc.
Qed.

Lemma Authorize_decision (a : Attributes) :
  decision (RBACAuthorizer.Authorize resolver a) =
    if RulesAllow a (RulesFor resolver (GetUser a) (GetNamespace a)).1
    then DecisionAllow else DecisionNoOpinion.
Proof.
  unfold RBACAuthorizer.Authorize. rewrite VisitRulesFor_events, RulesFor_events.
  destruct (visit_until_authorize a (rule_events (GetUser a) (GetNamespace a))
    (RBACAuthorizer.mkVisitor false [] []) eq_refl) as [-> _].
  simpl. by destruct (RulesAllow _ _).
Qed.

Lemma Authorize_allow (a : Attributes) :
  decision (RBACAuthorizer.Authorize resolver a) = DecisionAllow ↔
  ∃ x, x ∈ (RulesFor resolver (GetUser a) (GetNamespace a)).1 ∧ RuleAllows a x = true.
Proof.
  rewrite Authorize_decision, <- RulesAllow_spec.
  destruct (RulesAllow a _); split; done.
Qed.
End authorize.

(** ** The specification of RBAC over bindings *)

(** What the API documents ("Authorization is calculated against 1. evaluation
    of ClusterRoleBindings 2. evaluation of RoleBindings in the namespace
    requested 3. deny by default"): some binding that applies to the user refers
    to a role one of whose rules allows the request. *)
Definition bound_by (r : DefaultRuleResolver.t) (u : UserInfo) (ns : string)
    (subjects : list Subject) (ref : RoleRef) (a : Attributes) : Prop :=
  (∃ s, s ∈ subjects ∧ appliesToUser u s ns = true) ∧
  ∃ rules, DefaultRuleResolver.GetRoleReferenceRules r ref ns = Ok rules ∧
           RulesAllow a rules = true.

Definition rbac_permits (r : DefaultRuleResolver.t) (a : Attributes) : Prop :=
  (∃ bs b, DefaultRuleResolver.ListClusterRoleBindings r = Ok bs ∧ b ∈ bs ∧
     bound_by r (GetUser a) "" (crb_subjects b) (crb_roleRef b) a) ∨
  (GetNamespace a ≠ "" ∧
   ∃ bs b, DefaultRuleResolver.ListRoleBindings r (GetNamespace a) = Ok bs ∧ b ∈ bs ∧
     bound_by r (GetUser a) (GetNamespace a) (rb_subjects b) (rb_roleRef b) a).

Lemma Authorize_permits (r : DefaultRuleResolver.t) (a : Attributes) :
  decision (RBACAuthorizer.Authorize (DefaultRuleResolver.resolver r) a) = DecisionAllow ↔
  rbac_permits r a.
Proof.
  rewrite (Authorize_allow (DefaultRuleResolver.resolver r)).
  cbn [RulesFor DefaultRuleResolver.resolver].
  setoid_rewrite elem_of_default_rules. unfold rbac_permits, bound_by.
  setoid_rewrite RulesAllow_spec. naive_solver.
Qed.

(** ** The subject locator *)

Lemma elem_of_collect {B} r (subjectsOf : B → list Subject) roleRef ns a bs st s :
  s ∈ (SubjectLocator.collect r subjectsOf roleRef ns a bs st).1 ↔
  s ∈ st.1 ∨ ∃ b rules, b ∈ bs ∧ s ∈ subjectsOf b ∧
    DefaultRuleResolver.GetRoleReferenceRules r (roleRef b) ns = Ok rules ∧
    RulesAllow a rules = true.
Proof.
  revert st. induction bs as [|b bs IH]; intros [subjects errs]; simpl.
  { split; [by left|]. intros [?|(? & ? & ?%not_elem_of_nil & _)]; done. }
  assert ((∃ b' rules, b' ∈ b :: bs ∧ s ∈ subjectsOf b' ∧
    DefaultRuleResolver.GetRoleReferenceRules r (roleRef b') ns = Ok rules ∧
    RulesAllow a rules = true) ↔
    (∃ rules, s ∈ subjectsOf b ∧
      DefaultRuleResolver.GetRoleReferenceRules r (roleRef b) ns = Ok rules ∧
      RulesAllow a rules = true) ∨
    (∃ b' rules, b' ∈ bs ∧ s ∈ subjectsOf b' ∧
      DefaultRuleResolver.GetRoleReferenceRules r (roleRef b') ns = Ok rules ∧
      RulesAllow a rules = true)) as ->.
  { setoid_rewrite elem_of_cons. split.
    - intros (b' & rules & [->|?] & ?); [left|right]; eauto.
    - intros [(rules & ?)|(b' & rules & ? & ?)]; eauto 10. }
  destruct (DefaultRuleResolver.GetRoleReferenceRules r (roleRef b) ns) as [rules|e];
    rewrite IH; simpl.
  - destruct (RulesAllow a rules) eqn:Ea; [rewrite elem_of_app|].
    + split; [intros [[?|?]|?]; eauto 10|]. intros [?|[(? & ? & _)|?]]; eauto.
    + split; [intros [?|?]; eauto|]. intros [?|[(? & _ & [= <-] & ?)|?]]; [eauto|congruence|eauto].
  - split; [intros [?|?]; eauto|]. intros [?|[(? & _ & ? & _)|?]]; [eauto|done|eauto].
Qed.

Lemma elem_of_AllowedSubjects superUser r a s :
  s ∈ (SubjectLocator.AllowedSubjects superUser r a).1 ↔
  s = mkSubject GroupKind GroupName SubjectLocator.SystemPrivilegedGroup "" ∨
  (superUser ≠ "" ∧ s = mkSubject UserKind GroupName superUser "") ∨
  (∃ bs b rules, DefaultRuleResolver.ListClusterRoleBindings r = Ok bs ∧ b ∈ bs ∧
     s ∈ crb_subjects b ∧
     DefaultRuleResolver.GetRoleReferenceRules r (crb_roleRef b) "" = Ok rules ∧
     RulesAllow a rules = true) ∨
  (GetNamespace a ≠ "" ∧
   ∃ bs b rules, DefaultRuleResolver.ListRoleBindings r (GetNamespace a) = Ok bs ∧ b ∈ bs ∧
     s ∈ rb_subjects b ∧
     DefaultRuleResolver.GetRoleReferenceRules r (rb_roleRef b) (GetNamespace a) = Ok rules ∧
     RulesAllow a rules = true).
Proof.
  unfold SubjectLocator.AllowedSubjects.
  set (base := if 0 <? slen superUser then _ else _).
  assert (s ∈ base ↔
    s = mkSubject GroupKind GroupName SubjectLocator.SystemPrivilegedGroup "" ∨
    (superUser ≠ "" ∧ s = mkSubject UserKind GroupName superUser "")) as Hbase.
  { unfold base. destruct (Z.ltb_spec 0 (slen superUser)) as [Hl|Hl].
    - assert (superUser ≠ "") by (by intros ->). set_solver.
    - assert (superUser = "") by (apply slen_zero; unfold slen in *; lia). set_solver. }
  set (c := match DefaultRuleResolver.ListClusterRoleBindings r with
            | Ok _ => _ | Err _ => _ end).
  assert (s ∈ c.1 ↔ s ∈ base ∨
    ∃ bs b rules, DefaultRuleResolver.ListClusterRoleBindings r = Ok bs ∧ b ∈ bs ∧
     s ∈ crb_subjects b ∧
     DefaultRuleResolver.GetRoleReferenceRules r (crb_roleRef b) "" = Ok rules ∧
     RulesAllow a rules = true) as Hc.
  { unfold c. destruct (DefaultRuleResolver.ListClusterRoleBindings r) as [bs|e].
    - rewrite elem_of_collect. simpl. f_equiv. split.
      + intros (b & rules & ?). by exists bs, b, rules.
      + intros (bs' & b & rules & [= <-] & ?). by exists b, rules.
    - split; [by left|]. intros [?|(? & ? & ? & [=] & _)]; done. }
  destruct c as [subjects errs]. simpl in Hc.
  destruct (Z.ltb_spec 0 (slen (GetNamespace a))) as [Hl|Hl].
  - assert (GetNamespace a ≠ "") by (by intros E; rewrite E in Hl).
    destruct (DefaultRuleResolver.ListRoleBindings r (GetNamespace a)) as [bs|e] eqn:E.
    + pose proof (elem_of_collect r rb_subjects rb_roleRef (GetNamespace a) a bs
        (subjects, errs) s) as Hn.
      destruct (SubjectLocator.collect _ _ _ _ _ _ _) as [subjects' errs'].
      simpl in *. rewrite Hn, Hc, Hbase, !Logic.or_assoc. do 3 f_equiv. split.
      * intros (b & rules & ?). split; [done|]. by exists bs, b, rules.
      * intros (_ & bs' & b & rules & [= <-] & ?). by exists b, rules.
    + simpl. rewrite Hc, Hbase. split; [tauto|].
      intros [?|[?|[?|(_ & ? & ? & ? & [=] & _)]]]; tauto.
  - assert (GetNamespace a = "") by (apply slen_zero; unfold slen in *; lia).
    simpl. rewrite Hc, Hbase. tauto.
Qed.

(** Service-account subjects of cluster role bindings carry their namespace, as
    [ValidateRoleBindingSubject] demands of cluster-scoped bindings. *)
Definition cluster_subjects_namespaced (r : DefaultRuleResolver.t) : Prop :=
  ∀ bs b s, DefaultRuleResolver.ListClusterRoleBindings r = Ok bs → b ∈ bs →
  s ∈ crb_subjects b → SubjectKind s = ServiceAccountKind → SubjectNamespace s ≠ "".

Lemma appliesToUser_namespaced (u : UserInfo) (s : Subject) (ns : string) :
  (SubjectKind s = ServiceAccountKind → SubjectNamespace s ≠ "") →
  appliesToUser u s ns = true → appliesToUser u s "" = true.
Proof.
  intros Hs. unfold appliesToUser.
  case_bool_decide; [done|]. case_bool_decide; [done|]. case_bool_decide as E; [|done].
  destruct (Z.ltb_spec 0 (slen (SubjectNamespace s))) as [|Hl]; [done|].
  exfalso. apply (Hs E), slen_zero. unfold slen in *. lia.
Qed.

(** ** Properties *)

(** For every resolver that meets the interface, [Authorize] allows a request
    exactly when one of the rules [RulesFor] returns for the user and namespace
    allows it; otherwise it has no opinion. It never denies and never fails, even
    when the resolution of some bindings failed. *)
Theorem Authorize_correct (resolver : AuthorizationRuleResolver)
    `{!RuleResolverLaws resolver} (a : Attributes) :
  let '(d, _, err) := RBACAuthorizer.Authorize resolver a in
  d = (if RulesAllow a (RulesFor resolver (GetUser a) (GetNamespace a)).1
       then DecisionAllow else DecisionNoOpinion) ∧ err = None.
Proof.
  pose proof (Authorize_decision resolver a) as H.
  assert ((RBACAuthorizer.Authorize resolver a).2 = None) as He.
  { unfold RBACAuthorizer.Authorize. by destruct (RBACAuthorizer.allowed _). }
  destruct (RBACAuthorizer.Authorize resolver a) as [[d reason] err].
  unfold decision in H. simpl in *. by rewrite H.
Qed.

(** C8: the authorizer over the default resolver implements the documented
    specification: a request is allowed exactly when an applicable cluster role
    binding, or an applicable role binding of the request's namespace, refers to a
    role with a rule that allows it. *)
Theorem Authorize_refines_bindings (r : DefaultRuleResolver.t) (a : Attributes) :
  decision (RBACAuthorizer.Authorize (DefaultRuleResolver.resolver r) a) = DecisionAllow ↔
  rbac_permits r a.
Proof. apply Authorize_permits. Qed.

(** The subject locator agrees with the authorizer: some subject it returns
    applies to the requesting user exactly when that user is a member of
    system:masters, is the superuser, or is allowed by the authorizer. *)
Theorem AllowedSubjects_agrees (superUser : string) (r : DefaultRuleResolver.t)
    (a : Attributes) :
  cluster_subjects_namespaced r →
  (∃ s, s ∈ (SubjectLocator.AllowedSubjects superUser r a).1 ∧
        appliesToUser (GetUser a) s (GetNamespace a) = true) ↔
  SubjectLocator.SystemPrivilegedGroup ∈ UserGroups (GetUser a) ∨
  (superUser ≠ "" ∧ UserName (GetUser a) = superUser) ∨
  decision (RBACAuthorizer.Authorize (DefaultRuleResolver.resolver r) a) = DecisionAllow.
Proof.
  intros Hwf. rewrite Authorize_permits. unfold rbac_permits, bound_by.
  setoid_rewrite elem_of_AllowedSubjects. split.
  - intros (s & [->|[[Hsu ->]|[H|[Hn H]]]] & Ha).
    + left. by apply has_spec.
    + right; left. split; [done|]. by apply bool_decide_eq_true in Ha.
    + destruct H as (bs & b & rules & Hbs & Hb & Hs & Hr & Hal).
      right; right; left. exists bs, b. split_and!; try done; [|eauto].
      exists s. split; [done|]. eapply appliesToUser_namespaced; [|done]. by eapply Hwf.
    + destruct H as (bs & b & rules & Hbs & Hb & Hs & Hr & Hal).
      right; right; right. split; [done|]. exists bs, b. eauto 10.
  - intros [Hm|[[Hsu Hu]|[H|[Hn H]]]].
    + eexists. split; [by left|]. by apply has_spec.
    + eexists. split; [by right; left|]. unfold appliesToUser. simpl.
      by apply bool_decide_eq_true.
    + destruct H as (bs & b & Hbs & Hb & (s & Hs & Ha) & rules & Hr & Hal).
      exists s. split; [|by apply appliesToUser_mono].
      right; right; left. exists bs, b, rules. done.
    + destruct H as (bs & b & Hbs & Hb & (s & Hs & Ha) & rules & Hr & Hal).
      exists s. split; [|done]. right; right; right. split; [done|]. exists bs, b, rules. done.
Qed.

(** ** An example store *)

Definition ex_view : ClusterRole :=
  mkClusterRole (meta_of "" "view") [mkPolicyRule ["get"] [""] ["pods"] [] None] None.
Definition ex_jane : Subject := mkSubject UserKind GroupName "jane" "".
Definition ex_viewer (name : string) : ClusterRoleBinding :=
  mkClusterRoleBinding (meta_of "" name) [ex_jane] (mkRoleRef GroupName "ClusterRole" "view").
Definition ex_store : StaticRoles.t :=
  StaticRoles.mk [] [] [ex_view] [ex_viewer "a"; ex_viewer "b"].
Definition ex_get_pod : Attributes :=
  mkAttributes (mkUser "jane" []) "get" "" "" "pods" "" "web-0" true "".

Lemma ex_store_namespaced :
  cluster_subjects_namespaced (StaticRoles.default_resolver ex_store).
Proof.
  intros bs b s [= <-] Hb Hs Hk.
  assert (s = ex_jane) as ->; [|done].
  apply elem_of_cons in Hb as [->|Hb%list_elem_of_singleton]; [|subst b];
    by apply list_elem_of_singleton in Hs.
Qed.

Lemma Authorize_correct_witness :
  decision (RBACAuthorizer.Authorize (StaticRoles.resolver ex_store) ex_get_pod) =
  DecisionAllow.
Proof.
  pose proof (Authorize_correct (StaticRoles.resolver ex_store) ex_get_pod) as H.
  destruct (RBACAuthorizer.Authorize (StaticRoles.resolver ex_store) ex_get_pod)
    as [[d reason] err].
  destruct H as [-> _]. reflexivity.
Defined.

Lemma AllowedSubjects_agrees_witness :
  ∃ s, s ∈ (SubjectLocator.AllowedSubjects "" (StaticRoles.default_resolver ex_store)
              ex_get_pod).1 ∧
       appliesToUser (GetUser ex_get_pod) s "" = true.
Proof.
  apply (AllowedSubjects_agrees "" (StaticRoles.default_resolver ex_store) ex_get_pod
           ex_store_namespaced).
  right; right. reflexivity.
Defined.

Lemma dedup_loop (l acc : list Subject) :
  NoDup acc →
  let out := fold_left (λ deduped subject,
    if existsb (λ curr, bool_decide (curr = subject)) deduped then deduped
    else deduped ++ [subject]) l acc in
  NoDup out ∧ ∀ s, s ∈ out ↔ s ∈ acc ∨ s ∈ l.
Proof.
  revert acc. induction l as [|x l IH]; intros acc Hacc; simpl.
  { split; [done|]. set_solver. }
  destruct (existsb _ acc) eqn:E.
  - apply existsb_elem in E as (y & Hy & E). apply bool_decide_eq_true in E as ->.
    destruct (IH acc Hacc) as [H1 H2]. split; [done|]. intros s. rewrite H2. set_solver.
  - assert (x ∉ acc) as Hx.
    { intros Hx. rewrite <- not_true_iff_false, existsb_elem in E. apply E.
      exists x. by rewrite bool_decide_true. }
    destruct (IH (acc ++ [x])) as [H1 H2].
    { apply NoDup_app. split_and!; [done|set_solver|apply NoDup_singleton]. }
    split; [done|]. intros s. rewrite H2. set_solver.
Qed.

(** [AllowedSubjects] computes the list of subjects without duplicates and
    then returns the other list: the dedup loop is correct, yet a subject bound
    twice is returned twice. *)
Theorem AllowedSubjects_not_deduplicated :
  (∀ l, NoDup (SubjectLocator.dedup l) ∧ ∀ s, s ∈ SubjectLocator.dedup l ↔ s ∈ l) ∧
  ¬ NoDup (SubjectLocator.AllowedSubjects "" (StaticRoles.default_resolver ex_store)
             ex_get_pod).1.
Proof.
  split.
  - intros l. destruct (dedup_loop l [] (NoDup_nil_2)) as [H1 H2]. split; [done|].
    intros s. unfold SubjectLocator.dedup. rewrite H2. set_solver.
  - intros H. apply (bool_decide_pack _) in H. vm_compute in H. done.
Qed.
