(* ===== verification/RbacEscalation.v ===== *)
(** * The privilege-escalation checks of the RBAC registry

    [pkg/registry/rbac/escalation_check.go], [ConfirmNoEscalation] of
    [pkg/registry/rbac/validation/rule.go] and the four [policybased] storages
    that wrap the RBAC objects' registries.

    The wrapped [rest.StandardStorage] is a parameter: a create function and an
    update function that is handed the object transformer. The internal and the
    v1 rule types have the same fields, so their conversion is the identity.
    Validation functions and options are passed through unchanged and are not
    modelled. The enumeration order of a Go map, which reaches the text of a
    refusal through [CompactRules], is the parameter [range]. *)

From S2P Require Import Prelude GoStrings RbacRules RbacCovers RbacObjects RbacResolver RbacAuthorizer.

(** ** The request context *)

(** [request.RequestInfo] *)
Record RequestInfo : Type := mkRequestInfo {
  RI_IsResourceRequest : bool;
  RI_APIGroup : string;
  RI_Namespace : string;
  RI_Resource : string;
  RI_Name : string;
}.

(** The values [genericapirequest.UserFrom], [NamespaceFrom] and
    [RequestInfoFrom] find on a context. *)
Record Ctx : Type := mkCtx {
  UserFrom : option UserInfo;
  NamespaceFrom : option string;
  RequestInfoFrom : option RequestInfo;
}.

(** ** Explicit permissions *)

Definition EscalationAllowed (ctx : Ctx) : bool :=
  match UserFrom ctx with
  | None => false
  | Some u =>
      existsb (λ group, bool_decide (group = SubjectLocator.SystemPrivilegedGroup))
        (UserGroups u)
  end.

Definition roleResources (group resource : string) : bool :=
  bool_decide (group = GroupName) &&
  (bool_decide (resource = "clusterroles") || bool_decide (resource = "roles")).

(** [a] is [None] for a nil authorizer. *)
Definition RoleEscalationAuthorized (ctx : Ctx) (a : option Authorizer) : bool :=
  match a, UserFrom ctx, RequestInfoFrom ctx with
  | Some a, Some user, Some requestInfo =>
      if negb (RI_IsResourceRequest requestInfo) then false
      else if negb (roleResources (RI_APIGroup requestInfo) (RI_Resource requestInfo))
      then false
      else
        let attrs :=
          mkAttributes user "escalate" (RI_Namespace requestInfo) (RI_APIGroup requestInfo)
            (RI_Resource requestInfo) "" (RI_Name requestInfo) true "" in
        bool_decide (decision (a attrs) = DecisionAllow)
  | _, _, _ => false
  end.

Definition BindingAuthorized (ctx : Ctx) (roleRef : RoleRef) (bindingNamespace : string)
    (a : option Authorizer) : bool :=
  match a, UserFrom ctx with
  | Some a, Some user =>
      let attrs resource :=
        mkAttributes user "bind" bindingNamespace (RefAPIGroup roleRef) resource ""
          (RefName roleRef) true "" in
      if bool_decide (RefKind roleRef = "ClusterRole") then
        bool_decide (decision (a (attrs "clusterroles")) = DecisionAllow)
      else if bool_decide (RefKind roleRef = "Role") then
        bool_decide (decision (a (attrs "roles")) = DecisionAllow)
      else false
  | _, _ => false
  end.

(** ** The escalation test *)

Section escalation.
Context (range : gmap simpleResource PolicyRule → list PolicyRule).
Context (ruleResolver : AuthorizationRuleResolver).

(** [None] is a nil error. *)
Definition ConfirmNoEscalation (ctx : Ctx) (rules : list PolicyRule) : option error :=
  match UserFrom ctx with
  | None => Some (ErrText "no user on context")
  | Some user =>
      let namespace := default "" (NamespaceFrom ctx) in
      let '(ownerRules, err) := RulesFor ruleResolver user namespace in
      let ruleResolutionErrors := option_list err in
      let '(ownerRightsCover, missingRights) := Covers ownerRules rules in
      if negb ownerRightsCover then
        Some (ErrEscalation user (CompactRules range missingRights) ruleResolutionErrors)
      else None
  end.

Definition fullAuthority : list PolicyRule :=
  [mkPolicyRule ["*"] ["*"] ["*"] [] None;
   mkPolicyRule ["*"] [] [] [] (Some ["*"])].

Definition hasAggregationRule (c : ClusterRole) : bool :=
  match cr_aggregation c with
  | Some selectors => 0 <? Z.of_nat (length selectors)
  | None => false
  end.
End escalation.

(** [rest.StandardStorage]: [Update] receives [UpdatedObjectInfo], the function
    from the stored object to the object to store. *)
Record StandardStorage (T : Type) : Type := mkStorage {
  std_Create : T → result error T;
  std_Update : string → (T → result error T) → result error T;
}.
Arguments mkStorage {T} _ _.
Arguments std_Create {T} _ _.
Arguments std_Update {T} _ _ _.

(** [rest.WrapUpdatedObjectInfo] with one transformer. *)
Definition WrapUpdatedObjectInfo {T} (objInfo : T → result error T)
    (transform : T → T → result error T) : T → result error T :=
  λ oldObj, (newObj <-? objInfo oldObj ;; transform newObj oldObj)%go.

Section storages.
Context (range : gmap simpleResource PolicyRule → list PolicyRule).
Context (ruleResolver : AuthorizationRuleResolver) (authorizer : option Authorizer).

(** ** Roles *)

Definition Role_Create (s : StandardStorage Role) (ctx : Ctx) (role : Role) :
    result error Role :=
  if EscalationAllowed ctx || RoleEscalationAuthorized ctx authorizer then std_Create s role
  else match ConfirmNoEscalation range ruleResolver ctx (role_rules role) with
  | Some err => Err (ErrForbidden "roles" (MName (role_meta role)) err)
  | None => std_Create s role
  end.

Definition Role_nonEscalating (ctx : Ctx) (role oldObj : Role) : result error Role :=
  if IsOnlyMutatingGCFields role (Some oldObj) then Ok role
  else match ConfirmNoEscalation range ruleResolver ctx (role_rules role) with
  | Some err => Err (ErrForbidden "roles" (MName (role_meta role)) err)
  | None => Ok role
  end.

Definition Role_Update (s : StandardStorage Role) (ctx : Ctx) (name : string)
    (obj : Role → result error Role) : result error Role :=
  if EscalationAllowed ctx || RoleEscalationAuthorized ctx authorizer then
    std_Update s name obj
  else std_Update s name (WrapUpdatedObjectInfo obj (Role_nonEscalating ctx)).

(** ** Cluster roles *)

Definition aggregation_error : error :=
  ErrText "must have cluster-admin privileges to use the aggregationRule".

Definition ClusterRole_Create (s : StandardStorage ClusterRole) (ctx : Ctx)
    (clusterRole : ClusterRole) : result error ClusterRole :=
  if EscalationAllowed ctx || RoleEscalationAuthorized ctx authorizer then
    std_Create s clusterRole
  else match ConfirmNoEscalation range ruleResolver ctx (cr_rules clusterRole) with
  | Some err => Err (ErrForbidden "clusterroles" (MName (cr_meta clusterRole)) err)
  | None =>
      if hasAggregationRule clusterRole then
        match ConfirmNoEscalation range ruleResolver ctx fullAuthority with
        | Some _ =>
            Err (ErrForbidden "clusterroles" (MName (cr_meta clusterRole)) aggregation_error)
        | None => std_Create s clusterRole
        end
      else std_Create s clusterRole
  end.

Definition ClusterRole_nonEscalating (ctx : Ctx) (clusterRole oldClusterRole : ClusterRole) :
    result error ClusterRole :=
  if IsOnlyMutatingGCFields clusterRole (Some oldClusterRole) then Ok clusterRole
  else match ConfirmNoEscalation range ruleResolver ctx (cr_rules clusterRole) with
  | Some err => Err (ErrForbidden "clusterroles" (MName (cr_meta clusterRole)) err)
  | None =>
      if hasAggregationRule clusterRole || hasAggregationRule oldClusterRole then
        match ConfirmNoEscalation range ruleResolver ctx fullAuthority with
        | Some _ =>
            Err (ErrForbidden "clusterroles" (MName (cr_meta clusterRole)) aggregation_error)
        | None => Ok clusterRole
        end
      else Ok clusterRole
  end.

Definition ClusterRole_Update (s : StandardStorage ClusterRole) (ctx : Ctx) (name : string)
    (obj : ClusterRole → result error ClusterRole) : result error ClusterRole :=
  if EscalationAllowed ctx || RoleEscalationAuthorized ctx authorizer then
    std_Update s name obj
  else std_Update s name (WrapUpdatedObjectInfo obj (ClusterRole_nonEscalating ctx)).

(** ** Role bindings *)

Definition RoleBinding_Create (s : StandardStorage RoleBinding) (ctx : Ctx)
    (roleBinding : RoleBinding) : result error RoleBinding :=
  if EscalationAllowed ctx then std_Create s roleBinding
  else match NamespaceFrom ctx with
  | None => Err (ErrBadRequest "namespace is required")
  | Some namespace =>
      if BindingAuthorized ctx (rb_roleRef roleBinding) namespace authorizer
      then std_Create s roleBinding
      else match GetRoleReferenceRules ruleResolver (rb_roleRef roleBinding) namespace with
      | Err err => Err err
      | Ok rules =>
          match ConfirmNoEscalation range ruleResolver ctx rules with
          | Some err => Err (ErrForbidden "rolebindings" (MName (rb_meta roleBinding)) err)
          | None => std_Create s roleBinding
          end
      end
  end.

Definition RoleBinding_nonEscalating (ctx : Ctx) (roleBinding oldObj : RoleBinding) :
    result error RoleBinding :=
  match NamespaceFrom ctx with
  | None => Err (ErrBadRequest "namespace is required")
  | Some namespace =>
      if IsOnlyMutatingGCFields roleBinding (Some oldObj) then Ok roleBinding
      else if BindingAuthorized ctx (rb_roleRef roleBinding) namespace authorizer
      then Ok roleBinding
      else match GetRoleReferenceRules ruleResolver (rb_roleRef roleBinding) namespace with
      | Err err => Err err
      | Ok rules =>
          match ConfirmNoEscalation range ruleResolver ctx rules with
          | Some err => Err (ErrForbidden "rolebindings" (MName (rb_meta roleBinding)) err)
          | None => Ok roleBinding
          end
      end
  end.

Definition RoleBinding_Update (s : StandardStorage RoleBinding) (ctx : Ctx) (name : string)
    (obj : RoleBinding → result error RoleBinding) : result error RoleBinding :=
  if EscalationAllowed ctx then std_Update s name obj
  else std_Update s name (WrapUpdatedObjectInfo obj (RoleBinding_nonEscalating ctx)).

(** ** Cluster role bindings *)

Definition ClusterRoleBinding_Create (s : StandardStorage ClusterRoleBinding) (ctx : Ctx)
    (b : ClusterRoleBinding) : result error ClusterRoleBinding :=
  if EscalationAllowed ctx then std_Create s b
  else if BindingAuthorized ctx (crb_roleRef b) "" authorizer then std_Create s b
  else match GetRoleReferenceRules ruleResolver (crb_roleRef b) "" with
  | Err err => Err err
  | Ok rules =>
      match ConfirmNoEscalation range ruleResolver ctx rules with
      | Some err => Err (ErrForbidden "clusterrolebindings" (MName (crb_meta b)) err)
      | None => std_Create s b
      end
  end.

Definition ClusterRoleBinding_nonEscalating (ctx : Ctx) (b oldObj : ClusterRoleBinding) :
    result error ClusterRoleBinding :=
  if IsOnlyMutatingGCFields b (Some oldObj) then Ok b
  else if BindingAuthorized ctx (crb_roleRef b) "" authorizer then Ok b
  else match GetRoleReferenceRules ruleResolver (crb_roleRef b) "" with
  | Err err => Err err
  | Ok rules =>
      match ConfirmNoEscalation range ruleResolver ctx rules with
      | Some err => Err (ErrForbidden "clusterrolebindings" (MName (crb_meta b)) err)
      | None => Ok b
      end
  end.

Definition ClusterRoleBinding_Update (s : StandardStorage ClusterRoleBinding) (ctx : Ctx)
    (name : string) (obj : ClusterRoleBinding → result error ClusterRoleBinding) :
    result error ClusterRoleBinding :=
  if EscalationAllowed ctx then std_Update s name obj
  else std_Update s name (WrapUpdatedObjectInfo obj (ClusterRoleBinding_nonEscalating ctx)).
End storages.

(** ** What a passed check guarantees *)

(** The same request, made by user [u] in namespace [ns]. *)
Definition as_user (u : UserInfo) (ns : string) (a : Attributes) : Attributes :=
  mkAttributes u (GetVerb a) ns (GetAPIGroup a) (GetResource a) (GetSubresource a)
    (GetName a) (IsResourceRequest a) (GetPath a).

Lemma RulesAllow_as_user u ns a rules :
  RulesAllow (as_user u ns a) rules = RulesAllow a rules.
Proof. done. Qed.

(** The user of the context may already do, in the context's namespace,
    everything the rules allow. *)
Definition holds_already (resolver : AuthorizationRuleResolver) (ctx : Ctx)
    (rules : list PolicyRule) : Prop :=
  ∃ u, UserFrom ctx = Some u ∧
  ∀ a, wf_attributes a → RulesAllow a rules = true →
  decision (RBACAuthorizer.Authorize resolver
              (as_user u (default "" (NamespaceFrom ctx)) a)) = DecisionAllow.

Section guarantees.
Context (range : gmap simpleResource PolicyRule → list PolicyRule).
Context (resolver : AuthorizationRuleResolver) `{!RuleResolverLaws resolver}.

Lemma ConfirmNoEscalation_sound ctx rules :
  ConfirmNoEscalation range resolver ctx rules = None → holds_already resolver ctx rules.
Proof.
  unfold ConfirmNoEscalation, holds_already.
  destruct (UserFrom ctx) as [u|]; [|done]. intros H. exists u. split; [done|].
  intros a Hw Ha. rewrite (Authorize_decision resolver). cbn [as_user GetUser GetNamespace].
  destruct (RulesFor resolver u (default "" (NamespaceFrom ctx))) as [owner err].
  destruct (Covers owner rules) as [ok missing] eqn:E. cbn [fst].
  destruct ok; [|done].
  rewrite (Covers_sound_lemma owner rules); [done|by rewrite E|done|done].
Qed.

Lemma fullAuthority_allows (a : Attributes) : RulesAllow a fullAuthority = true.
Proof.
  unfold fullAuthority, RulesAllow, RuleAllows. simpl.
  by destruct (IsResourceRequest a).
Qed.

(** A role update that only touches garbage-collector fields keeps the rules'
    meaning. *)
Lemma OnlyMutatingGCFields_role (new old : Role) (a : Attributes) :
  IsOnlyMutatingGCFields new (Some old) = true →
  RulesAllow a (role_rules new) = RulesAllow a (role_rules old).
Proof.
  unfold IsOnlyMutatingGCFields. intros H. to_prop. by apply semantic_rules_allow.
Qed.

Lemma OnlyMutatingGCFields_clusterrole (new old : ClusterRole) (a : Attributes) :
  IsOnlyMutatingGCFields new (Some old) = true →
  RulesAllow a (cr_rules new) = RulesAllow a (cr_rules old) ∧
  cr_aggregation new = cr_aggregation old.
Proof.
  unfold IsOnlyMutatingGCFields. intros H. to_prop.
  assert (map semantic_rule (cr_rules new) = map semantic_rule (cr_rules old))
    by exact (f_equal fst H0).
  split; [by apply semantic_rules_allow|]. exact (f_equal snd H0).
Qed.
End guarantees.

(** ** Adding a binding to a static store *)

Definition add_roleBinding (st : StaticRoles.t) (b : RoleBinding) : StaticRoles.t :=
  StaticRoles.mk (StaticRoles.roles st) (StaticRoles.roleBindings st ++ [b])
    (StaticRoles.clusterRoles st) (StaticRoles.clusterRoleBindings st).

Definition add_clusterRoleBinding (st : StaticRoles.t) (b : ClusterRoleBinding) :
    StaticRoles.t :=
  StaticRoles.mk (StaticRoles.roles st) (StaticRoles.roleBindings st)
    (StaticRoles.clusterRoles st) (StaticRoles.clusterRoleBindings st ++ [b]).

(** Where the permissions of the larger store come from. *)
Lemma permits_add_roleBinding st b a :
  rbac_permits (StaticRoles.default_resolver (add_roleBinding st b)) a →
  rbac_permits (StaticRoles.default_resolver st) a ∨
  (GetNamespace a ≠ "" ∧ MNamespace (rb_meta b) = GetNamespace a ∧
   ∃ rules, DefaultRuleResolver.GetRoleReferenceRules (StaticRoles.default_resolver st)
              (rb_roleRef b) (GetNamespace a) = Ok rules ∧ RulesAllow a rules = true).
Proof.
  intros [H|(Hn & bs & b' & Hl & Hb & [Hs Hr])]; [by left; left|].
  simpl in Hl. unfold StaticRoles.ListRoleBindings in Hl.
  destruct (slen (GetNamespace a) =? 0) eqn:El; simplify_eq.
  rewrite list_elem_of_In, filter_In, <- list_elem_of_In in Hb. destruct Hb as [Hb Hns].
  apply bool_decide_eq_true in Hns.
  simpl in Hb. apply elem_of_app in Hb as [Hb|Hb%list_elem_of_singleton].
  - left; right. split; [done|].
    exists (List.filter (λ b, bool_decide (MNamespace (rb_meta b) = GetNamespace a))
             (StaticRoles.roleBindings st)), b'.
    split_and!; [| |done].
    + simpl. unfold StaticRoles.ListRoleBindings. by rewrite El.
    + rewrite list_elem_of_In, filter_In, <- list_elem_of_In.
      split; [done|]. by apply bool_decide_eq_true.
  - right. subst b'. done.
Qed.

Lemma permits_add_clusterRoleBinding st b a :
  rbac_permits (StaticRoles.default_resolver (add_clusterRoleBinding st b)) a →
  rbac_permits (StaticRoles.default_resolver st) a ∨
  ∃ rules, DefaultRuleResolver.GetRoleReferenceRules (StaticRoles.default_resolver st)
             (crb_roleRef b) "" = Ok rules ∧ RulesAllow a rules = true.
Proof.
  intros [(bs & b' & Hl & Hb & [Hs Hr])|H]; [|by left; right].
  simpl in Hl. unfold StaticRoles.ListClusterRoleBindings in Hl. simplify_eq.
  simpl in Hb. apply elem_of_app in Hb as [Hb|Hb%list_elem_of_singleton].
  - left; left. eexists _, b'. split; [reflexivity|]. split; [done|]. done.
  - right. subst b'. done.
Qed.

(** ** Properties *)

(** The registry stores a role created by a user without explicit escalation
    rights only if the user already holds, in the request's namespace, every
    permission of the role; otherwise it answers Forbidden and the storage is not
    reached. *)
Theorem Role_Create_no_escalation range resolver `{!RuleResolverLaws resolver}
    (authorizer : option Authorizer) (s : StandardStorage Role) (ctx : Ctx) (role : Role) :
  EscalationAllowed ctx = false →
  RoleEscalationAuthorized ctx authorizer = false →
  (Role_Create range resolver authorizer s ctx role = std_Create s role ∧
   holds_already resolver ctx (role_rules role)) ∨
  ∃ cause, Role_Create range resolver authorizer s ctx role =
           Err (ErrForbidden "roles" (MName (role_meta role)) cause).
Proof.
  intros H1 H2. unfold Role_Create. rewrite H1, H2. simpl.
  destruct (ConfirmNoEscalation range resolver ctx (role_rules role)) eqn:E; [by eauto|].
  left. split; [done|]. by eapply ConfirmNoEscalation_sound.
Qed.

(** Updating a role cannot add permissions the updating user lacks: if the
    transformer the registry hands to the storage accepts the new object, then
    each request the new rules allow was allowed by the old rules or is already
    allowed to the user. *)
Theorem Role_Update_no_escalation range resolver `{!RuleResolverLaws resolver}
    (ctx : Ctx) (new old stored : Role) (a : Attributes) :
  Role_nonEscalating range resolver ctx new old = Ok stored →
  wf_attributes a → RulesAllow a (role_rules stored) = true →
  RulesAllow a (role_rules old) = true ∨
  ∃ u, UserFrom ctx = Some u ∧
    decision (RBACAuthorizer.Authorize resolver
                (as_user u (default "" (NamespaceFrom ctx)) a)) = DecisionAllow.
Proof.
  unfold Role_nonEscalating. intros H Hw Ha.
  destruct (IsOnlyMutatingGCFields new (Some old)) eqn:Eg.
  - injection H as <-. left. by rewrite <- (OnlyMutatingGCFields_role new old).
  - destruct (ConfirmNoEscalation range resolver ctx (role_rules new)) eqn:E; [done|].
    injection H as <-. right.
    apply (ConfirmNoEscalation_sound range resolver) in E as (u & Hu & H). eauto.
Qed.

(** Only a user who is allowed every request can create a cluster role with
    an aggregation rule without explicit escalation rights. *)
Theorem ClusterRole_Create_aggregation range resolver `{!RuleResolverLaws resolver}
    (authorizer : option Authorizer) (s : StandardStorage ClusterRole) (ctx : Ctx)
    (c stored : ClusterRole) :
  EscalationAllowed ctx = false →
  RoleEscalationAuthorized ctx authorizer = false →
  hasAggregationRule c = true →
  ClusterRole_Create range resolver authorizer s ctx c = Ok stored →
  ∃ u, UserFrom ctx = Some u ∧
  ∀ a, wf_attributes a →
    decision (RBACAuthorizer.Authorize resolver
                (as_user u (default "" (NamespaceFrom ctx)) a)) = DecisionAllow.
Proof.
  intros H1 H2 Ha. unfold ClusterRole_Create. rewrite H1, H2, Ha. simpl. intros H.
  destruct (ConfirmNoEscalation range resolver ctx (cr_rules c)); [done|].
  destruct (ConfirmNoEscalation range resolver ctx fullAuthority) eqn:E; [done|].
  apply (ConfirmNoEscalation_sound range resolver) in E as (u & Hu & Hall).
  exists u. split; [done|]. intros a Hw. apply Hall; [done|]. apply fullAuthority_allows.
Qed.

(** C6: no privilege escalation through role bindings, end to end: when the
    registry lets a user without the bind permission create a role binding in a
    namespace of a store of RBAC objects, then after the binding is added every
    request that any user is newly allowed to make lies in that namespace and was
    allowed to the creator before. *)
Theorem RoleBinding_Create_no_escalation range (st : StaticRoles.t)
    (authorizer : option Authorizer) (s : StandardStorage RoleBinding) (ctx : Ctx)
    (ns : string) (b stored : RoleBinding) (a : Attributes) :
  EscalationAllowed ctx = false →
  NamespaceFrom ctx = Some ns →
  BindingAuthorized ctx (rb_roleRef b) ns authorizer = false →
  RoleBinding_Create range (StaticRoles.resolver st) authorizer s ctx b = Ok stored →
  MNamespace (rb_meta b) = ns →
  wf_attributes a →
  decision (RBACAuthorizer.Authorize
              (StaticRoles.resolver (add_roleBinding st b)) a) = DecisionAllow →
  decision (RBACAuthorizer.Authorize (StaticRoles.resolver st) a) = DecisionAllow ∨
  (GetNamespace a = ns ∧
   ∃ u, UserFrom ctx = Some u ∧
     decision (RBACAuthorizer.Authorize (StaticRoles.resolver st) (as_user u ns a))
       = DecisionAllow).
Proof.
  intros He Hn Hb Hc Hm Hw Ha.
  apply Authorize_permits, permits_add_roleBinding in Ha.
  destruct Ha as [Ha|(_ & Hns & rules & Hr & Hal)]; [left; by apply Authorize_permits|].
  right. rewrite Hm in Hns. split; [done|].
  unfold RoleBinding_Create in Hc. rewrite He, Hn, Hb in Hc.
  cbn [GetRoleReferenceRules StaticRoles.resolver DefaultRuleResolver.resolver] in Hc.
  rewrite Hns, Hr in Hc.
  destruct (ConfirmNoEscalation _ _ ctx rules) eqn:E; [done|].
  apply (ConfirmNoEscalation_sound range (StaticRoles.resolver st)) in E as (u & Hu & H).
  rewrite Hn in H. eauto.
Qed.

(** The same for cluster role bindings: every request that any user is newly
    allowed to make, in whatever namespace, was allowed to the creator
    cluster-wide. *)
Theorem ClusterRoleBinding_Create_no_escalation range (st : StaticRoles.t)
    (authorizer : option Authorizer) (s : StandardStorage ClusterRoleBinding) (ctx : Ctx)
    (b stored : ClusterRoleBinding) (a : Attributes) :
  EscalationAllowed ctx = false →
  NamespaceFrom ctx = None →
  BindingAuthorized ctx (crb_roleRef b) "" authorizer = false →
  ClusterRoleBinding_Create range (StaticRoles.resolver st) authorizer s ctx b = Ok stored →
  wf_attributes a →
  decision (RBACAuthorizer.Authorize
              (StaticRoles.resolver (add_clusterRoleBinding st b)) a) = DecisionAllow →
  decision (RBACAuthorizer.Authorize (StaticRoles.resolver st) a) = DecisionAllow ∨
  ∃ u, UserFrom ctx = Some u ∧
    decision (RBACAuthorizer.Authorize (StaticRoles.resolver st) (as_user u "" a))
      = DecisionAllow.
Proof.
  intros He Hn Hb Hc Hw Ha.
  apply Authorize_permits, permits_add_clusterRoleBinding in Ha.
  destruct Ha as [Ha|(rules & Hr & Hal)]; [left; by apply Authorize_permits|].
  right. unfold ClusterRoleBinding_Create in Hc. rewrite He, Hb in Hc.
  cbn [GetRoleReferenceRules StaticRoles.resolver DefaultRuleResolver.resolver] in Hc.
  rewrite Hr in Hc.
  destruct (ConfirmNoEscalation _ _ ctx rules) eqn:E; [done|].
  apply (ConfirmNoEscalation_sound range (StaticRoles.resolver st)) in E as (u & Hu & H).
  rewrite Hn in H. eauto.
Qed.

(** ** Witnesses *)

Definition ex_range (m : gmap simpleResource PolicyRule) : list PolicyRule :=
  (map_to_list m).*2.
Definition ex_ctx : Ctx := mkCtx (Some (mkUser "jane" [])) (Some "default") None.
Definition ex_cluster_ctx : Ctx := mkCtx (Some (mkUser "jane" [])) None None.
Definition ex_std {T} : StandardStorage T := mkStorage (λ o, Ok o) (λ _ f, Err ErrNotFound).
Definition ex_pod_role (ns : string) : Role :=
  mkRole (meta_of ns "pod-reader") [mkPolicyRule ["get"] [""] ["pods"] [] None].
Definition ex_bob : UserInfo := mkUser "bob" [].
Definition ex_bob_binding : RoleBinding :=
  mkRoleBinding (meta_of "default" "bob-view") [mkSubject UserKind GroupName "bob" ""]
    (mkRoleRef GroupName "ClusterRole" "view").
Definition ex_bob_clusterbinding : ClusterRoleBinding :=
  mkClusterRoleBinding (meta_of "" "bob-view") [mkSubject UserKind GroupName "bob" ""]
    (mkRoleRef GroupName "ClusterRole" "view").
Definition ex_bob_get (ns : string) : Attributes :=
  mkAttributes ex_bob "get" ns "" "pods" "" "web-0" true "".
Definition ex_admin_store : StaticRoles.t :=
  StaticRoles.mk [] []
    [mkClusterRole (meta_of "" "cluster-admin") fullAuthority None]
    [mkClusterRoleBinding (meta_of "" "admins") [mkSubject UserKind GroupName "jane" ""]
       (mkRoleRef GroupName "ClusterRole" "cluster-admin")].
Definition ex_aggregate : ClusterRole :=
  mkClusterRole (meta_of "" "agg") [] (Some [mkSelector ∅ []]).

Lemma Role_Create_no_escalation_witness :
  Role_Create ex_range (StaticRoles.resolver ex_store) None ex_std ex_ctx
    (ex_pod_role "default") = Ok (ex_pod_role "default") ∧
  holds_already (StaticRoles.resolver ex_store) ex_ctx (role_rules (ex_pod_role "default")).
Proof.
  destruct (Role_Create_no_escalation ex_range (StaticRoles.resolver ex_store) None ex_std
    ex_ctx (ex_pod_role "default") eq_refl eq_refl) as [H|[cause H]].
  - exact H.
  - vm_compute in H. discriminate H.
Defined.

Lemma Role_Update_no_escalation_witness :
  RulesAllow (ex_bob_get "default") [] = true ∨
  ∃ u, UserFrom ex_ctx = Some u ∧
    decision (RBACAuthorizer.Authorize (StaticRoles.resolver ex_store)
                (as_user u "default" (ex_bob_get "default"))) = DecisionAllow.
Proof.
  apply (Role_Update_no_escalation ex_range (StaticRoles.resolver ex_store) ex_ctx
    (ex_pod_role "default") (mkRole (meta_of "default" "pod-reader") [])
    (ex_pod_role "default") (ex_bob_get "default")).
  - vm_compute. reflexivity.
  - intros _. reflexivity.
  - vm_compute. reflexivity.
Defined.

Lemma ClusterRole_Create_aggregation_witness :
  ∃ u, UserFrom ex_cluster_ctx = Some u ∧
  ∀ a, wf_attributes a →
    decision (RBACAuthorizer.Authorize (StaticRoles.resolver ex_admin_store)
                (as_user u "" a)) = DecisionAllow.
Proof.
  apply (ClusterRole_Create_aggregation ex_range (StaticRoles.resolver ex_admin_store) None
    ex_std ex_cluster_ctx ex_aggregate ex_aggregate eq_refl eq_refl eq_refl).
  vm_compute. reflexivity.
Defined.

Lemma RoleBinding_Create_no_escalation_witness :
  decision (RBACAuthorizer.Authorize (StaticRoles.resolver ex_store) (ex_bob_get "default"))
    = DecisionAllow ∨
  ("default" = "default" ∧
   ∃ u, UserFrom ex_ctx = Some u ∧
     decision (RBACAuthorizer.Authorize (StaticRoles.resolver ex_store)
                 (as_user u "default" (ex_bob_get "default"))) = DecisionAllow).
Proof.
  apply (RoleBinding_Create_no_escalation ex_range ex_store None ex_std ex_ctx "default"
    ex_bob_binding ex_bob_binding (ex_bob_get "default") eq_refl eq_refl eq_refl).
  - vm_compute. reflexivity.
  - reflexivity.
  - intros _. reflexivity.
  - vm_compute. reflexivity.
Defined.

Lemma ClusterRoleBinding_Create_no_escalation_witness :
  decision (RBACAuthorizer.Authorize (StaticRoles.resolver ex_store) (ex_bob_get "prod"))
    = DecisionAllow ∨
  ∃ u, UserFrom ex_cluster_ctx = Some u ∧
    decision (RBACAuthorizer.Authorize (StaticRoles.resolver ex_store)
                (as_user u "" (ex_bob_get "prod"))) = DecisionAllow.
Proof.
  apply (ClusterRoleBinding_Create_no_escalation ex_range ex_store None ex_std ex_cluster_ctx
    ex_bob_clusterbinding ex_bob_clusterbinding (ex_bob_get "prod") eq_refl eq_refl eq_refl).
  - vm_compute. reflexivity.
  - intros _. reflexivity.
  - vm_compute. reflexivity.
Defined.
