(* ===== verification/RbacReconcile.v ===== *)
(** * Reconciling roles and role bindings

    [pkg/registry/rbac/reconciliation]: [reconcile_role.go] with its [RuleOwner]
    interface (implemented by roles and by cluster roles) and
    [reconcile_rolebindings.go]. The API client is a parameter: a record of
    functions that thread the client's state. *)

From S2P Require Import Prelude GoStrings RbacRules RbacCovers RbacObjects.

Inductive ReconcileOperation : Type :=
  | ReconcileCreate
  | ReconcileUpdate
  | ReconcileRecreate
  | ReconcileNone.

#[global] Instance ReconcileOperation_eq_dec : EqDecision ReconcileOperation.
Proof. solve_decision. Defined.

(** A Go [map[string]string], [None] for nil. *)
Notation strmap := (option (gmap string string)).

(** [merge(maps...)]: the later maps win; nil only if every map is nil. *)
Definition merge (maps : list strmap) : strmap :=
  fold_left (λ output m,
    match m with
    | None => output
    | Some m => Some (m ∪ default ∅ output)
    end) maps None.

(** [annotations[AutoUpdateAnnotationKey] == "false"] *)
Definition opted_out (annotations : strmap) : bool :=
  bool_decide (default ∅ annotations !! AutoUpdateAnnotationKey = Some "false").

(** ** Rule owners *)

(** The interface [RuleOwner]. *)
Class RuleOwner (T : Type) := {
  GetOwnerNamespace : T → string;
  GetOwnerName : T → string;
  GetLabels : T → strmap;
  SetLabels : T → strmap → T;
  GetAnnotations : T → strmap;
  SetAnnotations : T → strmap → T;
  GetRules : T → list PolicyRule;
  SetRules : T → list PolicyRule → T;
  GetAggregationRule : T → AggregationRule;
  SetAggregationRule : T → AggregationRule → T;
}.

Definition with_labels (m : ObjectMeta) (l : strmap) : ObjectMeta :=
  mkMeta (MName m) (MNamespace m) (MSelfLink m) (MUID m) (MResourceVersion m) l
    (MAnnotations m) (MOwnerReferences m) (MFinalizers m) (OtherMeta m).

Definition with_annotations (m : ObjectMeta) (l : strmap) : ObjectMeta :=
  mkMeta (MName m) (MNamespace m) (MSelfLink m) (MUID m) (MResourceVersion m) (MLabels m)
    l (MOwnerReferences m) (MFinalizers m) (OtherMeta m).

#[global] Instance ClusterRoleRuleOwner : RuleOwner ClusterRole := {|
  GetOwnerNamespace o := MNamespace (cr_meta o);
  GetOwnerName o := MName (cr_meta o);
  GetLabels o := MLabels (cr_meta o);
  SetLabels o l := mkClusterRole (with_labels (cr_meta o) l) (cr_rules o) (cr_aggregation o);
  GetAnnotations o := MAnnotations (cr_meta o);
  SetAnnotations o l :=
    mkClusterRole (with_annotations (cr_meta o) l) (cr_rules o) (cr_aggregation o);
  GetRules := cr_rules;
  SetRules o rules := mkClusterRole (cr_meta o) rules (cr_aggregation o);
  GetAggregationRule := cr_aggregation;
  SetAggregationRule o a := mkClusterRole (cr_meta o) (cr_rules o) a;
|}.

#[global] Instance RoleRuleOwner : RuleOwner Role := {|
  GetOwnerNamespace o := MNamespace (role_meta o);
  GetOwnerName o := MName (role_meta o);
  GetLabels o := MLabels (role_meta o);
  SetLabels o l := mkRole (with_labels (role_meta o) l) (role_rules o);
  GetAnnotations o := MAnnotations (role_meta o);
  SetAnnotations o l := mkRole (with_annotations (role_meta o) l) (role_rules o);
  GetRules := role_rules;
  SetRules o rules := mkRole (role_meta o) rules;
  GetAggregationRule _ := None;
  SetAggregationRule o _ := o;
|}.

(** What the reconciliation relies on: setters set their field and no other. An
    owner that cannot aggregate ignores the aggregation setter. *)
Class RuleOwnerLaws (T : Type) `{RuleOwner T} : Type := {
  aggregates : bool;
  aggregation_none o : aggregates = false → GetAggregationRule o = None;
  get_set_labels o l : GetLabels (SetLabels o l) = l;
  get_set_annotations o l : GetAnnotations (SetAnnotations o l) = l;
  get_set_rules o l : GetRules (SetRules o l) = l;
  get_set_aggregation o l :
    GetAggregationRule (SetAggregationRule o l) = if aggregates then l else None;
  set_labels_frame o l :
    GetAnnotations (SetLabels o l) = GetAnnotations o ∧ GetRules (SetLabels o l) = GetRules o ∧
    GetAggregationRule (SetLabels o l) = GetAggregationRule o ∧
    GetOwnerNamespace (SetLabels o l) = GetOwnerNamespace o ∧
    GetOwnerName (SetLabels o l) = GetOwnerName o;
  set_annotations_frame o l :
    GetLabels (SetAnnotations o l) = GetLabels o ∧
    GetRules (SetAnnotations o l) = GetRules o ∧
    GetAggregationRule (SetAnnotations o l) = GetAggregationRule o ∧
    GetOwnerNamespace (SetAnnotations o l) = GetOwnerNamespace o ∧
    GetOwnerName (SetAnnotations o l) = GetOwnerName o;
  set_rules_frame o l :
    GetLabels (SetRules o l) = GetLabels o ∧ GetAnnotations (SetRules o l) = GetAnnotations o ∧
    GetAggregationRule (SetRules o l) = GetAggregationRule o ∧
    GetOwnerNamespace (SetRules o l) = GetOwnerNamespace o ∧
    GetOwnerName (SetRules o l) = GetOwnerName o;
  set_aggregation_frame o l :
    GetLabels (SetAggregationRule o l) = GetLabels o ∧
    GetAnnotations (SetAggregationRule o l) = GetAnnotations o ∧
    GetRules (SetAggregationRule o l) = GetRules o ∧
    GetOwnerNamespace (SetAggregationRule o l) = GetOwnerNamespace o ∧
    GetOwnerName (SetAggregationRule o l) = GetOwnerName o;
}.

#[global] Instance ClusterRole_owner_laws : RuleOwnerLaws ClusterRole.
Proof. exists true; done. Defined.

#[global] Instance Role_owner_laws : RuleOwnerLaws Role.
Proof. exists false; done. Defined.

(** ** Computing the reconciled role *)

Definition aggregationRuleCovers (ownerRule servantRule : AggregationRule) :
    bool * list LabelSelector :=
  match ownerRule, servantRule with
  | None, None => (true, [])
  | None, Some servantSelectors => (false, servantSelectors)
  | Some _, None => (true, [])
  | Some ownerSelectors, Some servantSelectors =>
      let uncoveredSelectors :=
        List.filter (λ servantSelector,
          negb (existsb (λ ownerSelector, bool_decide (ownerSelector = servantSelector))
                  ownerSelectors)) servantSelectors in
      (isEmpty uncoveredSelectors, uncoveredSelectors)
  end.

Record ReconcileClusterRoleResult (T : Type) : Type := mkResult {
  res_Role : T;
  MissingRules : list PolicyRule;
  ExtraRules : list PolicyRule;
  MissingAggregationRuleSelectors : list LabelSelector;
  ExtraAggregationRuleSelectors : list LabelSelector;
  Operation : ReconcileOperation;
  Protected : bool;
}.
Arguments mkResult {T} _ _ _ _ _ _ _.
Arguments res_Role {T} _.
Arguments MissingRules {T} _.
Arguments ExtraRules {T} _.
Arguments MissingAggregationRuleSelectors {T} _.
Arguments ExtraAggregationRuleSelectors {T} _.
Arguments Operation {T} _.
Arguments Protected {T} _.

Section reconcile.
Context {T : Type} `{RuleOwner T}.

(** Merging the expected annotations and labels into the copy of the existing
    role; the operation becomes an update when one of them changed. *)
Definition merge_meta (existing expected : T) : T * ReconcileOperation :=
  let role :=
    SetAnnotations existing (merge [GetAnnotations expected; GetAnnotations existing]) in
  let op :=
    if negb (bool_decide (GetAnnotations role = GetAnnotations existing))
    then ReconcileUpdate else ReconcileNone in
  let role := SetLabels role (merge [GetLabels expected; GetLabels role]) in
  let op :=
    if negb (bool_decide (GetLabels role = GetLabels existing)) then ReconcileUpdate else op in
  (role, op).

(** The switch on the rules. *)
Definition reconcile_rules (removeExtraPermissions : bool) (expected : T)
    (missing extra : list PolicyRule) (st : T * ReconcileOperation) : T * ReconcileOperation :=
  let '(role, op) := st in
  if negb removeExtraPermissions && negb (isEmpty missing) then
    (SetRules role (GetRules role ++ missing), ReconcileUpdate)
  else if removeExtraPermissions && (negb (isEmpty missing) || negb (isEmpty extra)) then
    (SetRules role (GetRules expected), ReconcileUpdate)
  else (role, op).

(** The switch on the aggregation rules. *)
Definition reconcile_aggregation (removeExtraPermissions : bool) (existing expected : T)
    (missing extra : list LabelSelector) (st : T * ReconcileOperation) :
    T * ReconcileOperation :=
  let '(role, op) := st in
  if bool_decide (GetAggregationRule expected = None) &&
     negb (bool_decide (GetAggregationRule existing = None)) then
    (SetAggregationRule role None, ReconcileUpdate)
  else if negb removeExtraPermissions && negb (isEmpty missing) then
    let aggregationRule := default [] (GetAggregationRule role) in
    (SetAggregationRule role (Some (aggregationRule ++ missing)), ReconcileUpdate)
  else if removeExtraPermissions && (negb (isEmpty missing) || negb (isEmpty extra)) then
    (SetAggregationRule role (GetAggregationRule expected), ReconcileUpdate)
  else (role, op).

Definition computeReconciledRole (existing expected : T) (removeExtraPermissions : bool) :
    ReconcileClusterRoleResult T :=
  let protected := opted_out (GetAnnotations existing) in
  let st := merge_meta existing expected in
  let extra := (Covers (GetRules expected) (GetRules existing)).2 in
  let missing := (Covers (GetRules existing) (GetRules expected)).2 in
  let st := reconcile_rules removeExtraPermissions expected missing extra st in
  let extraAgg :=
    (aggregationRuleCovers (GetAggregationRule expected) (GetAggregationRule existing)).2 in
  let missingAgg :=
    (aggregationRuleCovers (GetAggregationRule existing) (GetAggregationRule expected)).2 in
  let '(role, op) :=
    reconcile_aggregation removeExtraPermissions existing expected missingAgg extraAgg st in
  mkResult role missing extra missingAgg extraAgg op protected.

(** ** Running against a client *)

(** [RuleOwnerModifier] over a state [St]. *)
Record RuleOwnerModifier (St : Type) : Type := mkModifier {
  cl_Get : string → string → St → result error T * St;
  cl_Create : T → St → result error T * St;
  cl_Update : T → St → result error T * St;
}.

Section run.
Context {St : Type} (client : RuleOwnerModifier St).
Context (role : T) (confirm removeExtraPermissions : bool).

Definition isNotFound (e : error) : bool := match e with ErrNotFound => true | _ => false end.
Definition isAlreadyExists (e : error) : bool :=
  match e with ErrAlreadyExists => true | _ => false end.

Definition set_role (r : ReconcileClusterRoleResult T) (x : T) : ReconcileClusterRoleResult T :=
  mkResult x (MissingRules r) (ExtraRules r) (MissingAggregationRuleSelectors r)
    (ExtraAggregationRuleSelectors r) (Operation r) (Protected r).

(** What the first half of [run] computes from the answer of [Get]. *)
Definition plan (got : result error T) : result error (ReconcileClusterRoleResult T) :=
  match got with
  | Err e =>
      if isNotFound e then
        Ok (mkResult role (GetRules role) [] (default [] (GetAggregationRule role)) []
              ReconcileCreate false)
      else Err e
  | Ok existing => Ok (computeReconciledRole existing role removeExtraPermissions)
  end.

(** [run(attempts)], with [remaining] attempts left: [attempts > 2] is [remaining = 0] when
    [Run] starts with three. *)
Fixpoint run (remaining : nat) (st : St) : result error (ReconcileClusterRoleResult T) * St :=
  match remaining with
  | O => (Err (ErrText "exceeded maximum attempts"), st)
  | S remaining =>
      let '(got, st) := cl_Get St client (GetOwnerNamespace role) (GetOwnerName role) st in
      match plan got with
      | Err e => (Err e, st)
      | Ok res =>
          if Protected res then (Ok res, st)
          else if negb confirm then (Ok res, st)
          else match Operation res with
          | ReconcileCreate =>
              let '(created, st) := cl_Create St client (res_Role res) st in
              match created with
              | Err e => if isAlreadyExists e then run remaining st else (Err e, st)
              | Ok created => (Ok (set_role res created), st)
              end
          | ReconcileUpdate =>
              let '(updated, st) := cl_Update St client (res_Role res) st in
              match updated with
              | Err e => if isNotFound e then run remaining st else (Err e, st)
              | Ok updated => (Ok (set_role res updated), st)
              end
          | ReconcileNone => (Ok res, st)
          | ReconcileRecreate => (Err (ErrText "invalid operation"), st)
          end
      end
  end.

Definition Run (st : St) : result error (ReconcileClusterRoleResult T) * St := run 3 st.
End run.
End reconcile.
Arguments RuleOwnerModifier T St : clear implicits.
Arguments mkModifier {T St} _ _ _.

(** ** Lemmas *)

Lemma merge2 (a b : strmap) :
  merge [a; b] =
    match a, b with
    | None, None => None
    | _, _ => Some (default ∅ b ∪ default ∅ a)
    end.
Proof.
  destruct a, b; unfold merge; simpl; rewrite ?(left_id_L ∅ (∪)), ?(right_id_L ∅ (∪)); done.
Qed.

(** Merging the expected entries twice is merging them once. *)
Lemma merge_idem (a b : strmap) : merge [a; merge [a; b]] = merge [a; b].
Proof.
  rewrite !merge2. destruct a as [a|], b as [b|]; simpl; try done; f_equal.
  - apply map_eq. intros i. rewrite !lookup_union.
    by destruct (a !! i), (b !! i).
  - rewrite (left_id_L ∅ (∪)). apply map_eq. intros i. rewrite lookup_union.
    by destruct (a !! i).
  - by rewrite !(right_id_L ∅ (∪)).
Qed.

Lemma merge_same (a : strmap) : merge [a; a] = a.
Proof.
  rewrite merge2. destruct a as [a|]; [|done]. simpl. f_equal.
  apply map_eq. intros i. rewrite lookup_union. by destruct (a !! i).
Qed.

Section proofs.
Context {T : Type} `{RuleOwner T, !RuleOwnerLaws T}.

Ltac frames :=
  repeat match goal with
  | |- context [?g (SetRules ?o ?l)] =>
      progress rewrite ?(proj1 (set_rules_frame o l)),
        ?(proj1 (proj2 (set_rules_frame o l))),
        ?(proj1 (proj2 (proj2 (set_rules_frame o l)))), ?get_set_rules
  | |- context [?g (SetAggregationRule ?o ?l)] =>
      progress rewrite ?(proj1 (set_aggregation_frame o l)),
        ?(proj1 (proj2 (set_aggregation_frame o l))),
        ?(proj1 (proj2 (proj2 (set_aggregation_frame o l)))), ?get_set_aggregation
  | |- context [?g (SetLabels ?o ?l)] =>
      progress rewrite ?(proj1 (set_labels_frame o l)),
        ?(proj1 (proj2 (set_labels_frame o l))),
        ?(proj1 (proj2 (proj2 (set_labels_frame o l)))), ?get_set_labels
  | |- context [?g (SetAnnotations ?o ?l)] =>
      progress rewrite ?(proj1 (set_annotations_frame o l)),
        ?(proj1 (proj2 (set_annotations_frame o l))),
        ?(proj1 (proj2 (proj2 (set_annotations_frame o l)))), ?get_set_annotations
  end.

Lemma merge_meta_fields (existing expected : T) :
  let role := (merge_meta existing expected).1 in
  GetAnnotations role = merge [GetAnnotations expected; GetAnnotations existing] ∧
  GetLabels role = merge [GetLabels expected; GetLabels existing] ∧
  GetRules role = GetRules existing ∧
  GetAggregationRule role = GetAggregationRule existing.
Proof. unfold merge_meta. simpl. frames. done. Qed.

Lemma merge_meta_op (existing expected : T) :
  (merge_meta existing expected).2 = ReconcileNone ↔
  merge [GetAnnotations expected; GetAnnotations existing] = GetAnnotations existing ∧
  merge [GetLabels expected; GetLabels existing] = GetLabels existing.
Proof.
  unfold merge_meta. simpl. frames.
  repeat case_bool_decide; simpl; split; try done; naive_solver.
Qed.

(** The rules the reconciled role ends up with. *)
Definition reconciled_rules (removeExtra : bool) (existing expected : list PolicyRule) :
    list PolicyRule :=
  let missing := (Covers existing expected).2 in
  let extra := (Covers expected existing).2 in
  if removeExtra then
    if isEmpty missing && isEmpty extra then existing else expected
  else existing ++ missing.

(** The selectors it ends up with. *)
Definition reconciled_aggregation (removeExtra : bool) (existing expected : AggregationRule) :
    AggregationRule :=
  let missing := (aggregationRuleCovers existing expected).2 in
  let extra := (aggregationRuleCovers expected existing).2 in
  match expected with
  | None => None
  | Some _ =>
      if removeExtra then
        if isEmpty missing && isEmpty extra then existing else expected
      else if isEmpty missing then existing
      else Some (default [] existing ++ missing)
  end.

Lemma reconcile_rules_spec removeExtra (existing expected : T) missing extra st :
  missing = (Covers (GetRules existing) (GetRules expected)).2 →
  extra = (Covers (GetRules expected) (GetRules existing)).2 →
  GetRules st.1 = GetRules existing →
  let st' := reconcile_rules removeExtra expected missing extra st in
  GetRules st'.1 = reconciled_rules removeExtra (GetRules existing) (GetRules expected) ∧
  GetAggregationRule st'.1 = GetAggregationRule st.1 ∧
  GetLabels st'.1 = GetLabels st.1 ∧ GetAnnotations st'.1 = GetAnnotations st.1 ∧
  (st'.2 = ReconcileNone ↔ st.2 = ReconcileNone ∧ missing = [] ∧
     (removeExtra = true → extra = [])).
Proof.
  intros Em Ex Hst. unfold reconcile_rules, reconciled_rules. rewrite <- Em, <- Ex.
  clear Em Ex. destruct st as [role op]. cbn [fst snd] in *.
  destruct removeExtra, missing as [|m ms], extra as [|x xs];
    cbn [negb isEmpty andb orb fst snd]; frames; rewrite ?Hst, ?app_nil_r;
    (split_and!; [done..|]); split; naive_solver.
Qed.

Lemma aggregationRuleCovers_nil a : (aggregationRuleCovers a None).2 = [].
Proof. by destruct a. Qed.

Lemma reconcile_aggregation_spec removeExtra (existing expected : T) missing extra st :
  missing = (aggregationRuleCovers (GetAggregationRule existing)
               (GetAggregationRule expected)).2 →
  extra = (aggregationRuleCovers (GetAggregationRule expected)
             (GetAggregationRule existing)).2 →
  GetAggregationRule st.1 = GetAggregationRule existing →
  let st' := reconcile_aggregation removeExtra existing expected missing extra st in
  GetAggregationRule st'.1 =
    reconciled_aggregation removeExtra (GetAggregationRule existing)
      (GetAggregationRule expected) ∧
  GetRules st'.1 = GetRules st.1 ∧
  GetLabels st'.1 = GetLabels st.1 ∧ GetAnnotations st'.1 = GetAnnotations st.1 ∧
  (st'.2 = ReconcileNone ↔ st.2 = ReconcileNone ∧
     (GetAggregationRule expected = None → GetAggregationRule existing = None) ∧
     missing = [] ∧ (removeExtra = true → extra = [])).
Proof.
  intros Em Ex Hst. unfold reconcile_aggregation, reconciled_aggregation.
  rewrite <- Em, <- Ex. destruct st as [role op]. cbn [fst snd] in *.
  destruct (GetAggregationRule expected) as [sel|] eqn:Hexp.
  - assert (aggregates (T := T) = true) as Hagg.
    { destruct (aggregates (T := T)) eqn:E; [done|].
      by rewrite (aggregation_none expected E) in Hexp. }
    rewrite bool_decide_false by done. clear Em Ex.
    destruct removeExtra, missing as [|m ms], extra as [|x xs];
      cbn [negb isEmpty andb orb fst snd]; frames; rewrite ?Hst, ?Hagg;
      (split_and!; [done..|]); split; naive_solver.
  - rewrite aggregationRuleCovers_nil in Em. subst missing.
    destruct (GetAggregationRule existing) as [sel|] eqn:Hex;
      [rewrite bool_decide_true, bool_decide_false by done
      |rewrite !bool_decide_true by done; simpl in Ex; subst extra];
      cbn [negb isEmpty andb orb fst snd]; frames; rewrite ?Hst;
      try (by destruct (aggregates (T := T)));
      destruct removeExtra; cbn; rewrite ?Hst;
      (split_and!; try done); try (by destruct (aggregates (T := T))); naive_solver.
Qed.

(** What [computeReconciledRole] returns, field by field. *)
Lemma computeReconciledRole_fields (existing expected : T) removeExtra :
  let res := computeReconciledRole existing expected removeExtra in
  let role := res_Role res in
  GetRules role = reconciled_rules removeExtra (GetRules existing) (GetRules expected) ∧
  GetAggregationRule role =
    reconciled_aggregation removeExtra (GetAggregationRule existing)
      (GetAggregationRule expected) ∧
  GetLabels role = merge [GetLabels expected; GetLabels existing] ∧
  GetAnnotations role = merge [GetAnnotations expected; GetAnnotations existing].
Proof.
  unfold computeReconciledRole.
  destruct (merge_meta_fields existing expected) as (Ha & Hl & Hr & Hg).
  set (st0 := merge_meta existing expected) in *.
  destruct (reconcile_rules_spec removeExtra existing expected _ _ st0 eq_refl eq_refl Hr)
    as (R1 & R2 & R3 & R4 & _).
  set (st1 := reconcile_rules removeExtra expected _ _ st0) in *.
  destruct (reconcile_aggregation_spec removeExtra existing expected _ _ st1 eq_refl eq_refl)
    as (A1 & A2 & A3 & A4 & _); [congruence|].
  destruct (reconcile_aggregation removeExtra existing expected _ _ st1) as [role op] eqn:E.
  cbn [fst snd res_Role] in *. split_and!; congruence.
Qed.

Lemma computeReconciledRole_op (existing expected : T) removeExtra :
  Operation (computeReconciledRole existing expected removeExtra) = ReconcileNone ↔
  (merge [GetAnnotations expected; GetAnnotations existing] = GetAnnotations existing ∧
   merge [GetLabels expected; GetLabels existing] = GetLabels existing) ∧
  ((Covers (GetRules existing) (GetRules expected)).2 = [] ∧
   (removeExtra = true → (Covers (GetRules expected) (GetRules existing)).2 = [])) ∧
  (GetAggregationRule expected = None → GetAggregationRule existing = None) ∧
  (aggregationRuleCovers (GetAggregationRule existing) (GetAggregationRule expected)).2 = [] ∧
  (removeExtra = true →
   (aggregationRuleCovers (GetAggregationRule expected) (GetAggregationRule existing)).2 = []).
Proof.
  unfold computeReconciledRole.
  destruct (merge_meta_fields existing expected) as (Ha & Hl & Hr & Hg).
  rewrite <- merge_meta_op.
  set (st0 := merge_meta existing expected) in *.
  destruct (reconcile_rules_spec removeExtra existing expected _ _ st0 eq_refl eq_refl Hr)
    as (R1 & R2 & R3 & R4 & R5).
  set (st1 := reconcile_rules removeExtra expected _ _ st0) in *.
  destruct (reconcile_aggregation_spec removeExtra existing expected _ _ st1 eq_refl eq_refl)
    as (A1 & A2 & A3 & A4 & A5); [congruence|].
  destruct (reconcile_aggregation removeExtra existing expected _ _ st1) as [role op] eqn:E.
  cbn [fst snd Operation] in *.
  rewrite A5, R5. tauto.
Qed.

Definition owner_key (o : T) : string * string := (GetOwnerNamespace o, GetOwnerName o).

Lemma computeReconciledRole_key (existing expected : T) removeExtra :
  owner_key (res_Role (computeReconciledRole existing expected removeExtra)) =
  owner_key existing.
Proof.
  unfold computeReconciledRole, merge_meta, reconcile_rules, reconcile_aggregation, owner_key.
  repeat case_match; simplify_eq; cbn [res_Role];
    repeat first
      [ rewrite (proj1 (proj2 (proj2 (proj2 (set_rules_frame _ _)))))
      | rewrite (proj2 (proj2 (proj2 (proj2 (set_rules_frame _ _)))))
      | rewrite (proj1 (proj2 (proj2 (proj2 (set_labels_frame _ _)))))
      | rewrite (proj2 (proj2 (proj2 (proj2 (set_labels_frame _ _)))))
      | rewrite (proj1 (proj2 (proj2 (proj2 (set_annotations_frame _ _)))))
      | rewrite (proj2 (proj2 (proj2 (proj2 (set_annotations_frame _ _)))))
      | rewrite (proj1 (proj2 (proj2 (proj2 (set_aggregation_frame _ _)))))
      | rewrite (proj2 (proj2 (proj2 (proj2 (set_aggregation_frame _ _))))) ]; done.
Qed.
End proofs.

(** *** The permissions of the reconciled role *)

Lemma Covers_missing_sound existing expected a :
  RulesAllow a (Covers existing expected).2 = true → RulesAllow a expected = true.
Proof.
  rewrite RulesAllow_spec. intros (s & Hs & Ha).
  apply Covers_uncovered in Hs as [(r & Hr & Hs) _].
  rewrite <- flat_map_BreakdownRule_allows. apply RulesAllow_spec.
  exists s. split; [apply elem_of_flat_map; eauto|done].
Qed.

Lemma reconciled_rules_allow removeExtra existing expected a :
  wf_attributes a →
  RulesAllow a (reconciled_rules removeExtra existing expected) =
    if removeExtra then RulesAllow a expected
    else RulesAllow a existing || RulesAllow a expected.
Proof.
  intros Hw. unfold reconciled_rules. destruct removeExtra.
  - destruct (isEmpty (Covers existing expected).2 && _) eqn:E; [|done].
    apply andb_true_iff in E as [E1 E2].
    apply isEmpty_spec, Covers_2_nil in E1. apply isEmpty_spec, Covers_2_nil in E2.
    apply bool_eq_iff. split; intros; eapply Covers_sound_lemma; eauto.
  - rewrite RulesAllow_app. apply bool_eq_iff. rewrite !orb_true_iff. split.
    + intros [?|?]; [by left|right; by eapply Covers_missing_sound].
    + intros [?|H]; [by left|]. by apply (Covers_split existing) in H.
Qed.

(** *** Reconciling twice *)

(** A rule that does not mix resource names and URLs; the API validation
    admits no other. *)
Definition unmixed (r : PolicyRule) : Prop := ResourceNames r = [] ∨ urls r = [].

Lemma ValidatePolicyRule_unmixed r isNamespaced :
  ValidatePolicyRule r isNamespaced = [] → unmixed r.
Proof.
  unfold ValidatePolicyRule, unmixed. intros Hv.
  destruct (urls r) as [|u us]; [by right|left]. simpl in Hv.
  apply app_eq_nil in Hv as [_ Hv]. apply app_eq_nil in Hv as [_ Hv].
  destruct (APIGroups r), (Resources r), (ResourceNames r); done.
Qed.

Lemma resourceCovers1_refl ps p : p ∈ ps → resourceCovers1 ps p = true.
Proof. intros. apply resourceCovers1_spec. by left. Qed.

Lemma nonResourceURLCovers_refl u : nonResourceURLCovers u u = true.
Proof. unfold nonResourceURLCovers. by rewrite bool_decide_true. Qed.

#[local] Hint Resolve resourceCovers1_refl nonResourceURLCovers_refl : go.

(** A rule covers each piece of its breakdown. *)
Lemma ruleCovers_piece r s : unmixed r → s ∈ BreakdownRule r → ruleCovers r s = true.
Proof.
  intros Hu. rewrite elem_of_BreakdownRule, ruleCovers_spec.
  intros [(g & p & v & Hg & Hp & Hv & [[Hn ->]|(n & Hn & ->)])|(u & v & Hul & Hv & ->)];
    unfold urls at 1; simpl; split_and!; try (right; set_solver);
    try (right; intros ? ->%list_elem_of_singleton; auto with go);
    try (intros ? ?%not_elem_of_nil; done).
  - by left.
  - destruct Hu as [?|Hu]; [by left|]. by rewrite Hu in Hul; apply not_elem_of_nil in Hul.
  - intros ? ->%list_elem_of_singleton. eauto with go.
Qed.

(** A piece covers itself. *)
Lemma ruleCovers_piece_refl r s : s ∈ BreakdownRule r → ruleCovers s s = true.
Proof.
  rewrite elem_of_BreakdownRule, ruleCovers_spec.
  intros [(g & p & v & Hg & Hp & Hv & [[Hn ->]|(n & Hn & ->)])|(u & v & Hul & Hv & ->)];
    unfold urls; simpl; split_and!; auto;
    try (right; split; [done|by auto]); eauto with go; set_solver.
Qed.

Lemma Covers_refl rules : Forall unmixed rules → (Covers rules rules).2 = [].
Proof.
  intros Hf. apply Covers_2_nil, Covers_true. intros r s Hr Hs.
  exists r. split; [done|]. rewrite Forall_forall in Hf. by apply ruleCovers_piece; [apply Hf|].
Qed.

Lemma Covers_app_missing existing expected :
  (Covers (existing ++ (Covers existing expected).2) expected).2 = [].
Proof.
  apply Covers_2_nil, Covers_true. intros r s Hr Hs.
  destruct (existsb (λ o, ruleCovers o s) existing) eqn:E.
  - apply existsb_elem in E as (o & Ho & Hc). exists o. split; [|done]. set_solver.
  - exists s. split; [|by eapply ruleCovers_piece_refl]. apply elem_of_app. right.
    apply Covers_uncovered. split; [eauto|]. intros o Ho.
    apply not_true_iff_false. intros Hc. apply not_true_iff_false in E. apply E.
    apply existsb_elem. eauto.
Qed.

Lemma reconciled_rules_stable removeExtra existing expected :
  (removeExtra = true → Forall unmixed expected) →
  let rules := reconciled_rules removeExtra existing expected in
  (Covers rules expected).2 = [] ∧
  (removeExtra = true → (Covers expected rules).2 = []).
Proof.
  intros Hf. unfold reconciled_rules. destruct removeExtra.
  - destruct (isEmpty (Covers existing expected).2 && _) eqn:E.
    + apply andb_true_iff in E as [E1 E2].
      apply isEmpty_spec in E1. apply isEmpty_spec in E2. auto.
    + split; intros; apply Covers_refl; auto.
  - split; [apply Covers_app_missing|done].
Qed.

Lemma aggregationRuleCovers_2 owner servant s :
  s ∈ (aggregationRuleCovers owner servant).2 ↔
  s ∈ default [] servant ∧ s ∉ default [] owner.
Proof.
  destruct owner as [o|], servant as [l|]; simpl; try set_solver.
  rewrite list_elem_of_In, filter_In, <- list_elem_of_In, negb_true_iff, <- not_true_iff_false,
    existsb_elem. split; intros [H1 H2]; (split; [done|]).
  - intros Hs. apply H2. exists s. split; [done|]. by apply bool_decide_eq_true.
  - intros (x & Hx & ->%bool_decide_eq_true). done.
Qed.

Lemma aggregationRuleCovers_2_nil owner servant :
  (aggregationRuleCovers owner servant).2 = [] ↔ default [] servant ⊆ default [] owner.
Proof.
  rewrite list_nil_iff. setoid_rewrite aggregationRuleCovers_2. split.
  - intros H s Hs. destruct (decide (s ∈ default [] owner)); [done|].
    exfalso. apply (H s). done.
  - intros H s [Hs Hn]. auto.
Qed.

Lemma reconciled_aggregation_stable removeExtra existing expected :
  let agg := reconciled_aggregation removeExtra existing expected in
  (expected = None → agg = None) ∧
  (aggregationRuleCovers agg expected).2 = [] ∧
  (removeExtra = true → (aggregationRuleCovers expected agg).2 = []).
Proof.
  unfold reconciled_aggregation. destruct expected as [e|]; [|by destruct removeExtra].
  destruct removeExtra.
  - destruct (isEmpty _ && _) eqn:E.
    + apply andb_true_iff in E as [E1 E2].
      apply isEmpty_spec in E1. apply isEmpty_spec in E2. done.
    + split_and!; intros; [done|..]; by apply aggregationRuleCovers_2_nil.
  - destruct (isEmpty _) eqn:E.
    + apply isEmpty_spec in E. done.
    + split_and!; [done| |done]. apply aggregationRuleCovers_2_nil. simpl.
      intros s Hs. apply elem_of_app.
      destruct (decide (s ∈ default [] existing)) as [?|Hn]; [by left|right].
      by apply aggregationRuleCovers_2.
Qed.

(** ** Correctness of role reconciliation *)

(** The permissions of a reconciled role are exactly what was asked for: the
    expected ones when extra permissions are removed, and those of the existing
    and of the expected role otherwise; for roles and for cluster roles. *)
Theorem computeReconciledRole_permissions {T} `{RuleOwner T, !RuleOwnerLaws T}
    (existing expected : T) (removeExtra : bool) (a : Attributes) :
  wf_attributes a →
  RulesAllow a (GetRules (res_Role (computeReconciledRole existing expected removeExtra))) =
    if removeExtra then RulesAllow a (GetRules expected)
    else RulesAllow a (GetRules existing) || RulesAllow a (GetRules expected).
Proof.
  intros Hw. destruct (computeReconciledRole_fields existing expected removeExtra) as [-> _].
  by apply reconciled_rules_allow.
Qed.

(** Reconciliation is idempotent: reconciling the reconciled role again
    needs no operation. When extra permissions are removed this needs expected
    rules that pass the API validation, since a rule that mixes resource names
    and URLs does not cover its own breakdown. *)
Theorem computeReconciledRole_idempotent {T} `{RuleOwner T, !RuleOwnerLaws T}
    (existing expected : T) (removeExtra isNamespaced : bool) :
  (removeExtra = true →
   Forall (λ r, ValidatePolicyRule r isNamespaced = []) (GetRules expected)) →
  Operation (computeReconciledRole
    (res_Role (computeReconciledRole existing expected removeExtra)) expected removeExtra)
  = ReconcileNone.
Proof.
  intros Hv. apply computeReconciledRole_op.
  destruct (computeReconciledRole_fields existing expected removeExtra)
    as (-> & -> & -> & ->).
  rewrite !merge_idem. split; [done|]. split.
  - apply reconciled_rules_stable. intros Hr. eapply Forall_impl; [by apply Hv|].
    intros r. apply ValidatePolicyRule_unmixed.
  - apply reconciled_aggregation_stable.
Qed.

(** *** Runs against a client *)

(** What the reconciliation relies on of its client: [view] is what the server
    stores, by namespace and name. A write stores an object with the rules it was
    sent, under its name, and returns what it stored. *)
Class ModifierLaws {T St : Type} `{RuleOwner T} (client : RuleOwnerModifier T St)
    (view : St → gmap (string * string) T) : Prop := {
  view_key st k x : view st !! k = Some x → owner_key x = k;
  law_Get ns n st :
    view (cl_Get St client ns n st).2 = view st ∧
    (cl_Get St client ns n st).1 = from_option Ok (Err ErrNotFound) (view st !! (ns, n));
  law_Create o st :
    view st !! owner_key o = None →
    ∃ o' st', cl_Create St client o st = (Ok o', st') ∧ GetRules o' = GetRules o ∧
      view st' = <[owner_key o := o']> (view st);
  law_Update o st :
    is_Some (view st !! owner_key o) →
    ∃ o' st', cl_Update St client o st = (Ok o', st') ∧ GetRules o' = GetRules o ∧
      view st' = <[owner_key o := o']> (view st);
}.

Section runs.
Context {T St : Type} `{RuleOwner T, !RuleOwnerLaws T}.
Context (client : RuleOwnerModifier T St) (view : St → gmap (string * string) T).
Context `{!ModifierLaws client view}.

(** The rules the server holds for a key: none when there is no object. *)
Definition stored_rules (st : St) (k : string * string) : list PolicyRule :=
  from_option GetRules [] (view st !! k).

Lemma computeReconciledRole_op_cases (existing expected : T) removeExtra :
  Operation (computeReconciledRole existing expected removeExtra) = ReconcileNone ∧
  GetRules existing = reconciled_rules removeExtra (GetRules existing) (GetRules expected) ∨
  Operation (computeReconciledRole existing expected removeExtra) = ReconcileUpdate.
Proof.
  destruct (decide (Operation (computeReconciledRole existing expected removeExtra)
                    = ReconcileNone)) as [E|E].
  - left. split; [done|]. apply computeReconciledRole_op in E as (_ & [E1 E2] & _).
    unfold reconciled_rules. rewrite E1. destruct removeExtra; [by rewrite E2|].
    by rewrite app_nil_r.
  - right. revert E. unfold computeReconciledRole, reconcile_aggregation, reconcile_rules,
      merge_meta.
    repeat case_match; simplify_eq; cbn [Operation]; repeat case_match; done.
Qed.

Lemma computeReconciledRole_protected (existing expected : T) removeExtra :
  Protected (computeReconciledRole existing expected removeExtra) =
  opted_out (GetAnnotations existing).
Proof.
  unfold computeReconciledRole. by destruct (reconcile_aggregation _ _ _ _ _ _).
Qed.

Lemma run_unconfirmed (role : T) (removeExtra : bool) (n : nat) (st : St) :
  view (run client role false removeExtra n st).2 = view st.
Proof.
  destruct n as [|n]; [done|]. simpl.
  destruct (law_Get (GetOwnerNamespace role) (GetOwnerName role) st) as [Hv _].
  destruct (cl_Get St client _ _ st) as [got st']. simpl in Hv.
  by destruct (plan _ _ _) as [res|e]; [destruct (Protected res)|].
Qed.

Lemma run_protected (role existing : T) (confirm removeExtra : bool) (n : nat) (st : St) :
  view st !! owner_key role = Some existing →
  opted_out (GetAnnotations existing) = true →
  view (run client role confirm removeExtra n st).2 = view st.
Proof.
  intros Hex Hp. destruct n as [|n]; [done|]. simpl.
  destruct (law_Get (GetOwnerNamespace role) (GetOwnerName role) st) as [Hv Hg].
  destruct (cl_Get St client _ _ st) as [got st']. simpl in Hv, Hg. subst got.
  unfold owner_key in Hex. rewrite Hex. cbn [from_option plan].
  by rewrite computeReconciledRole_protected, Hp.
Qed.

Lemma run_confirmed (role : T) (removeExtra : bool) (n : nat) (st : St) :
  (∀ existing, view st !! owner_key role = Some existing →
     opted_out (GetAnnotations existing) = false) →
  ∃ res st' stored, run client role true removeExtra (S n) st = (Ok res, st') ∧
    view st' = <[owner_key role := stored]> (view st) ∧
    ∀ a, wf_attributes a →
      RulesAllow a (GetRules stored) =
        if removeExtra then RulesAllow a (GetRules role)
        else RulesAllow a (stored_rules st (owner_key role)) || RulesAllow a (GetRules role).
Proof.
  intros Hp. cbn [run].
  destruct (law_Get (GetOwnerNamespace role) (GetOwnerName role) st) as [Hv Hg].
  destruct (cl_Get St client _ _ st) as [got st1]. cbn [fst snd] in Hv, Hg. subst got.
  unfold stored_rules. change (GetOwnerNamespace role, GetOwnerName role) with (owner_key role).
  destruct (view st !! owner_key role) as [existing|] eqn:Hex; cbn [from_option plan isNotFound].
  - rewrite computeReconciledRole_protected, (Hp existing eq_refl). cbn [negb].
    pose proof (computeReconciledRole_fields existing role removeExtra) as [Hr _].
    pose proof (computeReconciledRole_key existing role removeExtra) as Hk.
    pose proof (view_key st _ _ Hex) as Hk'.
    destruct (computeReconciledRole_op_cases existing role removeExtra) as [[-> He]| ->].
    + eexists _, _, existing. split; [done|]. rewrite Hv, insert_id by done. split; [done|].
      intros a Ha. rewrite He at 1. by apply reconciled_rules_allow.
    + destruct (law_Update (res_Role (computeReconciledRole existing role removeExtra)) st1)
        as (o & st' & -> & Ho & Hst); [rewrite Hk, Hv, Hk'; eauto|].
      eexists _, _, o. split; [done|]. rewrite Hst, Hk, Hk', Hv. split; [done|].
      intros a Ha. rewrite Ho, Hr. by apply reconciled_rules_allow.
  - cbn [Protected Operation res_Role negb].
    destruct (law_Create role st1) as (o & st' & -> & Ho & Hst); [by rewrite Hv|].
    eexists _, _, o. split; [done|]. rewrite Hst, Hv. split; [done|].
    intros a Ha. rewrite Ho. by destruct removeExtra.
Qed.
End runs.

(** A confirmed run that is not refused by an opted-out role succeeds, writes
    the role's key and no other, and what the server then stores has exactly the
    expected permissions (with [removeExtra]) or the former and the expected
    ones. *)
Theorem Run_reconciles {T St} `{RuleOwner T, !RuleOwnerLaws T}
    (client : RuleOwnerModifier T St) (view : St → gmap (string * string) T)
    `{!ModifierLaws client view} (role : T) (removeExtra : bool) (st : St) :
  (∀ existing, view st !! owner_key role = Some existing →
     opted_out (GetAnnotations existing) = false) →
  ∃ res st' stored, Run client role true removeExtra st = (Ok res, st') ∧
    view st' = <[owner_key role := stored]> (view st) ∧
    ∀ a, wf_attributes a →
      RulesAllow a (GetRules stored) =
        if removeExtra then RulesAllow a (GetRules role)
        else RulesAllow a (from_option GetRules [] (view st !! owner_key role)) ||
             RulesAllow a (GetRules role).
Proof. exact (run_confirmed client view role removeExtra 2 st). Qed.

(** A dry run and a run that meets a role annotated
    [rbac.authorization.kubernetes.io/autoupdate: false] leave what the server
    stores as it was. *)
Theorem Run_leaves_protected {T St} `{RuleOwner T, !RuleOwnerLaws T}
    (client : RuleOwnerModifier T St) (view : St → gmap (string * string) T)
    `{!ModifierLaws client view} (role : T) (confirm removeExtra : bool) (st : St) :
  (confirm = false ∨
   ∃ existing, view st !! owner_key role = Some existing ∧
     opted_out (GetAnnotations existing) = true) →
  view (Run client role confirm removeExtra st).2 = view st.
Proof.
  intros [-> |(existing & Hex & Hp)].
  - exact (run_unconfirmed client view role removeExtra 3 st).
  - exact (run_protected client view role existing confirm removeExtra 3 st Hex Hp).
Qed.

(** ** Witnesses *)

(** A server in memory: a finite map by namespace and name. *)
Module MemoryClient.
Section memory.
Context {T : Type} `{RuleOwner T}.

Record t : Type := mk {
  objects : gmap (string * string) T;
  keyed : map_Forall (λ k x, owner_key x = k) objects;
}.

Lemma keyed_insert (s : t) (o : T) :
  map_Forall (λ k x, owner_key x = k) (<[owner_key o := o]> (objects s)).
Proof. apply map_Forall_insert_2; [done|apply (keyed s)]. Qed.

Definition put (o : T) (s : t) : t := mk _ (keyed_insert s o).

Definition client : RuleOwnerModifier T t := {|
  cl_Get ns n s := (from_option Ok (Err ErrNotFound) (objects s !! (ns, n)), s);
  cl_Create o s :=
    match objects s !! owner_key o with
    | Some _ => (Err ErrAlreadyExists, s)
    | None => (Ok o, put o s)
    end;
  cl_Update o s :=
    match objects s !! owner_key o with
    | Some _ => (Ok o, put o s)
    | None => (Err ErrNotFound, s)
    end;
|}.

#[global] Instance laws : ModifierLaws client objects.
Proof.
  split; simpl.
  - intros s k x. apply (keyed s).
  - done.
  - intros o s ->. by exists o, (put o s).
  - intros o s [x ->]. by exists o, (put o s).
Qed.

Lemma keyed_empty : map_Forall (λ k x, owner_key x = k) (∅ : gmap (string * string) T).
Proof. apply map_Forall_empty. Qed.

Definition empty : t := mk ∅ keyed_empty.
End memory.
Arguments t T {_}.
End MemoryClient.

Definition ex_meta (annotations : strmap) : ObjectMeta :=
  mkMeta "reader" "dev" "" "" "" None annotations [] [] "".

Definition ex_expected : ClusterRole := mkClusterRole (ex_meta None) [ex_pod_logs] None.
Definition ex_existing : ClusterRole := mkClusterRole (ex_meta None) [ex_logs] None.
Definition ex_opted_out : ClusterRole :=
  mkClusterRole (ex_meta (Some {[AutoUpdateAnnotationKey := "false"]})) [] None.

Lemma computeReconciledRole_permissions_witness :
  wf_attributes ex_request ∧
  RulesAllow ex_request
    (GetRules (res_Role (computeReconciledRole ex_existing ex_expected false))) = true.
Proof.
  assert (wf_attributes ex_request) as Hw by (intros _; reflexivity).
  split; [exact Hw|]. rewrite (computeReconciledRole_permissions _ _ _ _ Hw). reflexivity.
Defined.

Lemma computeReconciledRole_idempotent_witness :
  Operation (computeReconciledRole ex_existing ex_expected true) = ReconcileUpdate ∧
  Operation (computeReconciledRole
    (res_Role (computeReconciledRole ex_existing ex_expected true)) ex_expected true)
  = ReconcileNone.
Proof.
  split; [vm_compute; reflexivity|].
  apply (computeReconciledRole_idempotent ex_existing ex_expected true true).
  intros _. repeat constructor.
Defined.

Lemma Run_reconciles_witness :
  ∃ res st' stored,
    Run MemoryClient.client ex_expected true true
      (MemoryClient.put ex_existing MemoryClient.empty) = (Ok res, st') ∧
    MemoryClient.objects st' !! ("dev", "reader") = Some stored ∧
    RulesAllow ex_request (GetRules stored) = true.
Proof.
  destruct (Run_reconciles MemoryClient.client MemoryClient.objects ex_expected true
    (MemoryClient.put ex_existing MemoryClient.empty)) as (res & st' & stored & Hrun & Hv & Ha).
  - intros existing Hex. change (Some ex_existing = Some existing) in Hex.
    injection Hex as <-. reflexivity.
  - exists res, st', stored. split; [exact Hrun|]. rewrite Hv. split; [apply lookup_insert_eq|].
    rewrite Ha; [reflexivity|intros _; reflexivity].
Defined.

Lemma Run_leaves_protected_witness :
  MemoryClient.objects
    (Run MemoryClient.client ex_expected true true
      (MemoryClient.put ex_opted_out MemoryClient.empty)).2 !! ("dev", "reader") =
  Some ex_opted_out.
Proof.
  rewrite (Run_leaves_protected MemoryClient.client MemoryClient.objects).
  - reflexivity.
  - right. exists ex_opted_out. split; reflexivity.
Defined.
