(* ===== verification/RbacReconcileBindings.v ===== *)
(** * Reconciling role bindings

    [pkg/registry/rbac/reconciliation/reconcile_rolebindings.go] over the
    [RoleBinding] interface, which the adapters of [rolebinding_interfaces.go] and
    [clusterrolebinding_interfaces.go] implement. *)

From S2P Require Import Prelude GoStrings RbacRules RbacCovers RbacObjects RbacReconcile.

(** The interface [RoleBinding]. *)
Class BindingOwner (T : Type) := {
  GetNamespace : T → string;
  GetBindingName : T → string;
  GetUID : T → string;
  GetBindingLabels : T → strmap;
  SetBindingLabels : T → strmap → T;
  GetBindingAnnotations : T → strmap;
  SetBindingAnnotations : T → strmap → T;
  GetRoleRef : T → RoleRef;
  GetSubjects : T → list Subject;
  SetSubjects : T → list Subject → T;
}.

#[global] Instance RoleBindingAdapter : BindingOwner RoleBinding := {|
  GetNamespace o := MNamespace (rb_meta o);
  GetBindingName o := MName (rb_meta o);
  GetUID o := MUID (rb_meta o);
  GetBindingLabels o := MLabels (rb_meta o);
  SetBindingLabels o l :=
    mkRoleBinding (with_labels (rb_meta o) l) (rb_subjects o) (rb_roleRef o);
  GetBindingAnnotations o := MAnnotations (rb_meta o);
  SetBindingAnnotations o l :=
    mkRoleBinding (with_annotations (rb_meta o) l) (rb_subjects o) (rb_roleRef o);
  GetRoleRef := rb_roleRef;
  GetSubjects := rb_subjects;
  SetSubjects o l := mkRoleBinding (rb_meta o) l (rb_roleRef o);
|}.

#[global] Instance ClusterRoleBindingAdapter : BindingOwner ClusterRoleBinding := {|
  GetNamespace o := MNamespace (crb_meta o);
  GetBindingName o := MName (crb_meta o);
  GetUID o := MUID (crb_meta o);
  GetBindingLabels o := MLabels (crb_meta o);
  SetBindingLabels o l :=
    mkClusterRoleBinding (with_labels (crb_meta o) l) (crb_subjects o) (crb_roleRef o);
  GetBindingAnnotations o := MAnnotations (crb_meta o);
  SetBindingAnnotations o l :=
    mkClusterRoleBinding (with_annotations (crb_meta o) l) (crb_subjects o) (crb_roleRef o);
  GetRoleRef := crb_roleRef;
  GetSubjects := crb_subjects;
  SetSubjects o l := mkClusterRoleBinding (crb_meta o) l (crb_roleRef o);
|}.

(** The part of a binding the reconciliation looks at, as a tuple: a setter
    changes its component and no other. *)
Definition binding_view `{BindingOwner T} (o : T) :
    string * string * strmap * strmap * RoleRef * list Subject :=
  (GetNamespace o, GetBindingName o, GetBindingLabels o, GetBindingAnnotations o, GetRoleRef o,
   GetSubjects o).

Class BindingOwnerLaws (T : Type) `{BindingOwner T} : Prop := {
  view_set_labels (o : T) l :
    binding_view (SetBindingLabels o l) =
      (GetNamespace o, GetBindingName o, l, GetBindingAnnotations o, GetRoleRef o, GetSubjects o);
  view_set_annotations (o : T) l :
    binding_view (SetBindingAnnotations o l) =
      (GetNamespace o, GetBindingName o, GetBindingLabels o, l, GetRoleRef o, GetSubjects o);
  view_set_subjects (o : T) l :
    binding_view (SetSubjects o l) =
      (GetNamespace o, GetBindingName o, GetBindingLabels o, GetBindingAnnotations o,
       GetRoleRef o, l);
}.

#[global] Instance RoleBinding_laws : BindingOwnerLaws RoleBinding.
Proof. by split. Qed.

#[global] Instance ClusterRoleBinding_laws : BindingOwnerLaws ClusterRoleBinding.
Proof. by split. Qed.

(** ** Differences of subject lists *)

Definition contains (list : list Subject) (item : Subject) : bool :=
  existsb (λ listItem, bool_decide (listItem = item)) list.

(** One of the two loops of [diffSubjectLists]: the items of [list1] that
    [list2] lacks, each once, in order. *)
Definition diffSubjects (list1 list2 : list Subject) : list Subject :=
  fold_left (λ list1Only list1Item,
    if negb (contains list2 list1Item) then
      if negb (contains list1Only list1Item) then list1Only ++ [list1Item] else list1Only
    else list1Only) list1 [].

Definition diffSubjectLists (list1 list2 : list Subject) : list Subject * list Subject :=
  (diffSubjects list1 list2, diffSubjects list2 list1).

(** ** Computing the reconciled binding *)

Record ReconcileClusterRoleBindingResult (T : Type) : Type := mkBindingResult {
  res_RoleBinding : T;
  MissingSubjects : list Subject;
  ExtraSubjects : list Subject;
  BOperation : ReconcileOperation;
  BProtected : bool;
}.
Arguments mkBindingResult {T} _ _ _ _ _.
Arguments res_RoleBinding {T} _.
Arguments MissingSubjects {T} _.
Arguments ExtraSubjects {T} _.
Arguments BOperation {T} _.
Arguments BProtected {T} _.

Section reconcile.
Context {T : Type} `{BindingOwner T}.

Definition computeReconciledRoleBinding (existing expected : T) (removeExtraSubjects : bool) :
    ReconcileClusterRoleBindingResult T :=
  let protected := opted_out (GetBindingAnnotations existing) in
  if negb (bool_decide (GetRoleRef expected = GetRoleRef existing)) then
    mkBindingResult expected [] [] ReconcileRecreate protected
  else
    let binding := SetBindingAnnotations existing
      (merge [GetBindingAnnotations expected; GetBindingAnnotations existing]) in
    let op :=
      if negb (bool_decide (GetBindingAnnotations binding = GetBindingAnnotations existing))
      then ReconcileUpdate else ReconcileNone in
    let binding := SetBindingLabels binding
      (merge [GetBindingLabels expected; GetBindingLabels binding]) in
    let op :=
      if negb (bool_decide (GetBindingLabels binding = GetBindingLabels existing))
      then ReconcileUpdate else op in
    let '(missing, extra) := diffSubjectLists (GetSubjects expected) (GetSubjects existing) in
    let '(binding, op) :=
      if negb removeExtraSubjects && negb (isEmpty missing) then
        (SetSubjects binding (GetSubjects binding ++ missing), ReconcileUpdate)
      else if removeExtraSubjects && (negb (isEmpty missing) || negb (isEmpty extra)) then
        (SetSubjects binding (GetSubjects expected), ReconcileUpdate)
      else (binding, op) in
    mkBindingResult binding missing extra op protected.

(** ** Running against a client *)

(** [RoleBindingModifier] over a state [St]; [Delete] takes the UID the object
    must have. *)
Record RoleBindingModifier (St : Type) : Type := mkBindingModifier {
  b_Get : string → string → St → result error T * St;
  b_Delete : string → string → string → St → result error unit * St;
  b_Create : T → St → result error T * St;
  b_Update : T → St → result error T * St;
}.

Section run.
Context {St : Type} (client : RoleBindingModifier St).
Context (binding : T) (confirm removeExtraSubjects : bool).

Definition isConflict (e : error) : bool := match e with ErrConflict => true | _ => false end.

Definition set_binding (r : ReconcileClusterRoleBindingResult T) (x : T) :
    ReconcileClusterRoleBindingResult T :=
  mkBindingResult x (MissingSubjects r) (ExtraSubjects r) (BOperation r) (BProtected r).

Definition planBinding (got : result error T) :
    result error (ReconcileClusterRoleBindingResult T) :=
  match got with
  | Err e =>
      if isNotFound e then
        Ok (mkBindingResult binding (GetSubjects binding) [] ReconcileCreate false)
      else Err e
  | Ok existing => Ok (computeReconciledRoleBinding existing binding removeExtraSubjects)
  end.

(** What the delete of the recreate case leads to. *)
Inductive Deleted : Type :=
  | DeletedGone
  | DeletedRetry
  | DeletedFailed (e : error).

Definition deleteExisting (got : result error T) (st : St) : Deleted * St :=
  match got with
  | Err _ => (DeletedGone, st)
  | Ok existing =>
      let '(deleted, st) :=
        b_Delete St client (GetNamespace existing) (GetBindingName existing) (GetUID existing)
          st in
      match deleted with
      | Ok _ => (DeletedGone, st)
      | Err e =>
          if isNotFound e then (DeletedGone, st)
          else if isConflict e then (DeletedRetry, st)
          else (DeletedFailed e, st)
      end
  end.

(** The [ReconcileCreate] case, also reached by falling through from
    [ReconcileRecreate]; [retry] is [o.run(attempts + 1)]. *)
Definition createBinding (retry : St → result error (ReconcileClusterRoleBindingResult T) * St)
    (res : ReconcileClusterRoleBindingResult T) (st : St) :
    result error (ReconcileClusterRoleBindingResult T) * St :=
  let '(created, st) := b_Create St client (res_RoleBinding res) st in
  match created with
  | Err e => if isAlreadyExists e then retry st else (Err e, st)
  | Ok created => (Ok (set_binding res created), st)
  end.

(** [run(attempts)], with [remaining] attempts left. *)
Fixpoint runBinding (remaining : nat) (st : St) :
    result error (ReconcileClusterRoleBindingResult T) * St :=
  match remaining with
  | O => (Err (ErrText "exceeded maximum attempts"), st)
  | S remaining =>
      let '(got, st) := b_Get St client (GetNamespace binding) (GetBindingName binding) st in
      match planBinding got with
      | Err e => (Err e, st)
      | Ok res =>
          if BProtected res then (Ok res, st)
          else if negb confirm then (Ok res, st)
          else match BOperation res with
          | ReconcileRecreate =>
              let '(deleted, st) := deleteExisting got st in
              match deleted with
              | DeletedGone => createBinding (runBinding remaining) res st
              | DeletedRetry => runBinding remaining st
              | DeletedFailed e => (Err e, st)
              end
          | ReconcileCreate => createBinding (runBinding remaining) res st
          | ReconcileUpdate =>
              let '(updated, st) := b_Update St client (res_RoleBinding res) st in
              match updated with
              | Err e => if isNotFound e then runBinding remaining st else (Err e, st)
              | Ok updated => (Ok (set_binding res updated), st)
              end
          | ReconcileNone => (Ok res, st)
          end
      end
  end.

(** [Run]: [attempts] goes from 0 to 3. *)
Definition RunBinding (st : St) : result error (ReconcileClusterRoleBindingResult T) * St :=
  runBinding 4 st.
End run.
End reconcile.
Arguments RoleBindingModifier T St : clear implicits.
Arguments mkBindingModifier {T St} _ _ _ _.

(** ** Lemmas *)

Lemma contains_spec l x : contains l x = true ↔ x ∈ l.
Proof.
  unfold contains. rewrite existsb_elem. split.
  - by intros (y & Hy & <-%bool_decide_eq_true).
  - intros Hx. exists x. split; [done|]. by apply bool_decide_eq_true.
Qed.

Lemma diffSubjects_go l2 l1 acc :
  NoDup acc →
  let out := fold_left (λ list1Only list1Item,
    if negb (contains l2 list1Item) then
      if negb (contains list1Only list1Item) then list1Only ++ [list1Item] else list1Only
    else list1Only) l1 acc in
  NoDup out ∧ ∀ x, x ∈ out ↔ x ∈ acc ∨ x ∈ l1 ∧ x ∉ l2.
Proof.
  revert acc. induction l1 as [|y l1 IH]; intros acc Hn; cbn [fold_left].
  { split; [done|]. set_solver. }
  destruct (contains l2 y) eqn:E2; cbn [negb]; [|destruct (contains acc y) eqn:E1; cbn [negb]].
  - destruct (IH acc Hn) as [Hd He]. split; [done|]. intros x. rewrite He.
    apply contains_spec in E2. set_solver.
  - destruct (IH acc Hn) as [Hd He]. split; [done|]. intros x. rewrite He.
    apply contains_spec in E1. set_solver.
  - apply not_true_iff_false in E1, E2. rewrite contains_spec in E1, E2.
    destruct (IH (acc ++ [y])) as [Hd He].
    { apply NoDup_app. split_and!; [done|set_solver|apply NoDup_singleton]. }
    split; [done|]. intros x. rewrite He. set_solver.
Qed.

Lemma elem_of_diffSubjects l1 l2 x : x ∈ diffSubjects l1 l2 ↔ x ∈ l1 ∧ x ∉ l2.
Proof.
  unfold diffSubjects. destruct (diffSubjects_go l2 l1 [] (NoDup_nil_2)) as [_ ->]. set_solver.
Qed.

Lemma NoDup_diffSubjects l1 l2 : NoDup (diffSubjects l1 l2).
Proof. apply diffSubjects_go, NoDup_nil_2. Qed.

Lemma diffSubjects_nil l1 l2 : diffSubjects l1 l2 = [] ↔ l1 ⊆ l2.
Proof.
  rewrite list_nil_iff. setoid_rewrite elem_of_diffSubjects. split.
  - intros Hd x Hx. destruct (decide (x ∈ l2)); [done|]. exfalso. by apply (Hd x).
  - intros Hs x [Hx Hn]. auto.
Qed.

(** The subjects of a binding whose role reference was kept. *)
Definition reconciled_subjects (removeExtra : bool) (existing expected : list Subject) :
    list Subject :=
  let missing := diffSubjects expected existing in
  let extra := diffSubjects existing expected in
  if removeExtra then if isEmpty missing && isEmpty extra then existing else expected
  else existing ++ missing.

Lemma elem_of_reconciled_subjects removeExtra existing expected x :
  x ∈ reconciled_subjects removeExtra existing expected ↔
  if removeExtra then x ∈ expected else x ∈ existing ∨ x ∈ expected.
Proof.
  unfold reconciled_subjects. destruct removeExtra.
  - destruct (isEmpty (diffSubjects expected existing)
              && isEmpty (diffSubjects existing expected)) eqn:E; [|done].
    apply andb_true_iff in E as [E1%isEmpty_spec E2%isEmpty_spec].
    apply diffSubjects_nil in E1, E2. split; auto.
  - rewrite elem_of_app, elem_of_diffSubjects.
    destruct (decide (x ∈ existing)); tauto.
Qed.

Lemma reconciled_subjects_stable removeExtra existing expected :
  let l := reconciled_subjects removeExtra existing expected in
  diffSubjects expected l = [] ∧ (removeExtra = true → diffSubjects l expected = []).
Proof.
  split; [|intros Hr]; apply diffSubjects_nil; intros x Hx.
  - apply elem_of_reconciled_subjects. destruct removeExtra; tauto.
  - subst removeExtra. by apply elem_of_reconciled_subjects in Hx.
Qed.

Section proofs.
Context {T : Type} `{BindingOwner T, !BindingOwnerLaws T}.

(** Component equations of the setter laws. *)
Ltac views :=
  repeat match goal with
  | |- context [SetBindingLabels ?o ?l] =>
      lazymatch goal with
      | _ : binding_view (SetBindingLabels o l) = _ |- _ => fail
      | _ => pose proof (view_set_labels o l)
      end
  | |- context [SetBindingAnnotations ?o ?l] =>
      lazymatch goal with
      | _ : binding_view (SetBindingAnnotations o l) = _ |- _ => fail
      | _ => pose proof (view_set_annotations o l)
      end
  | |- context [SetSubjects ?o ?l] =>
      lazymatch goal with
      | _ : binding_view (SetSubjects o l) = _ |- _ => fail
      | _ => pose proof (view_set_subjects o l)
      end
  end; unfold binding_view in *; simplify_eq.

Lemma computeReconciledRoleBinding_same (existing expected : T) removeExtra :
  GetRoleRef expected = GetRoleRef existing →
  let res := computeReconciledRoleBinding existing expected removeExtra in
  binding_view (res_RoleBinding res) =
    (GetNamespace existing, GetBindingName existing,
     merge [GetBindingLabels expected; GetBindingLabels existing],
     merge [GetBindingAnnotations expected; GetBindingAnnotations existing],
     GetRoleRef existing,
     reconciled_subjects removeExtra (GetSubjects existing) (GetSubjects expected)).
Proof.
  intros Href. unfold computeReconciledRoleBinding, reconciled_subjects, diffSubjectLists.
  rewrite bool_decide_true by done. cbn [negb].
  generalize (diffSubjects (GetSubjects expected) (GetSubjects existing)) as missing.
  generalize (diffSubjects (GetSubjects existing) (GetSubjects expected)) as extra.
  intros extra missing.
  destruct removeExtra, missing as [|m ms], extra as [|x xs];
    cbn [negb isEmpty andb orb fst snd res_RoleBinding];
    rewrite ?view_set_subjects, ?view_set_labels; views; rewrite ?app_nil_r; congruence.
Qed.

Lemma get_set_meta (o : T) a l :
  GetBindingAnnotations (SetBindingAnnotations o a) = a ∧
  GetBindingLabels (SetBindingAnnotations o a) = GetBindingLabels o ∧
  GetBindingLabels (SetBindingLabels o l) = l.
Proof. views. done. Qed.

Lemma computeReconciledRoleBinding_op (existing expected : T) removeExtra :
  BOperation (computeReconciledRoleBinding existing expected removeExtra) = ReconcileNone ↔
  GetRoleRef expected = GetRoleRef existing ∧
  merge [GetBindingAnnotations expected; GetBindingAnnotations existing] =
    GetBindingAnnotations existing ∧
  merge [GetBindingLabels expected; GetBindingLabels existing] = GetBindingLabels existing ∧
  diffSubjects (GetSubjects expected) (GetSubjects existing) = [] ∧
  (removeExtra = true → diffSubjects (GetSubjects existing) (GetSubjects expected) = []).
Proof.
  unfold computeReconciledRoleBinding, diffSubjectLists.
  destruct (decide (GetRoleRef expected = GetRoleRef existing)) as [Href|Href];
    [rewrite bool_decide_true by done|rewrite bool_decide_false by done; naive_solver].
  cbn [negb].
  generalize (diffSubjects (GetSubjects expected) (GetSubjects existing)) as missing.
  generalize (diffSubjects (GetSubjects existing) (GetSubjects expected)) as extra.
  intros extra missing.
  rewrite (proj1 (get_set_meta _ _ None)), (proj1 (proj2 (get_set_meta _ _ None))),
    (proj2 (proj2 (get_set_meta _ None _))).
  destruct removeExtra, missing as [|m ms], extra as [|x xs];
    cbn [negb isEmpty andb orb fst snd BOperation];
    repeat case_bool_decide; naive_solver.
Qed.

Lemma computeReconciledRoleBinding_differ (existing expected : T) removeExtra :
  GetRoleRef expected ≠ GetRoleRef existing →
  computeReconciledRoleBinding existing expected removeExtra =
    mkBindingResult expected [] [] ReconcileRecreate (opted_out (GetBindingAnnotations existing)).
Proof.
  intros. unfold computeReconciledRoleBinding. by rewrite bool_decide_false by done.
Qed.
End proofs.

Definition binding_key `{BindingOwner T} (o : T) : string * string :=
  (GetNamespace o, GetBindingName o).

(** What the reconciliation relies on of its client; [view] is what the server
    stores. A write keeps the role reference and the subjects it was sent, and a
    delete with the UID of the stored object removes it. *)
Class BindingModifierLaws {T St : Type} `{BindingOwner T} (client : RoleBindingModifier T St)
    (view : St → gmap (string * string) T) : Prop := {
  b_view_key st k x : view st !! k = Some x → binding_key x = k;
  b_law_Get ns n st :
    view (b_Get St client ns n st).2 = view st ∧
    (b_Get St client ns n st).1 = from_option Ok (Err ErrNotFound) (view st !! (ns, n));
  b_law_Delete ns n st x :
    view st !! (ns, n) = Some x →
    ∃ st', b_Delete St client ns n (GetUID x) st = (Ok tt, st') ∧
      view st' = delete (ns, n) (view st);
  b_law_Create o st :
    view st !! binding_key o = None →
    ∃ o' st', b_Create St client o st = (Ok o', st') ∧ GetRoleRef o' = GetRoleRef o ∧
      GetSubjects o' = GetSubjects o ∧ view st' = <[binding_key o := o']> (view st);
  b_law_Update o st :
    is_Some (view st !! binding_key o) →
    ∃ o' st', b_Update St client o st = (Ok o', st') ∧ GetRoleRef o' = GetRoleRef o ∧
      GetSubjects o' = GetSubjects o ∧ view st' = <[binding_key o := o']> (view st);
}.

(** The subjects a run keeps of what the server stores: none when there is no
    binding or when it refers to another role. *)
Definition kept_subjects `{BindingOwner T} (stored : option T) (binding : T) : list Subject :=
  match stored with
  | Some existing =>
      if bool_decide (GetRoleRef binding = GetRoleRef existing) then GetSubjects existing else []
  | None => []
  end.

(** What a run promises of the binding stored under the key of [binding]. *)
Definition reconciled_to `{BindingOwner T} (removeExtra : bool) (before : option T)
    (binding stored : T) : Prop :=
  GetRoleRef stored = GetRoleRef binding ∧
  ∀ x, x ∈ GetSubjects stored ↔
    x ∈ GetSubjects binding ∨ removeExtra = false ∧ x ∈ kept_subjects before binding.

Section computed.
Context {T : Type} `{BindingOwner T, !BindingOwnerLaws T}.

Lemma computeReconciledRoleBinding_protected (existing expected : T) removeExtra :
  BProtected (computeReconciledRoleBinding existing expected removeExtra) =
  opted_out (GetBindingAnnotations existing).
Proof.
  unfold computeReconciledRoleBinding. repeat case_match; simplify_eq; done.
Qed.

Lemma computeReconciledRoleBinding_op_cases (existing expected : T) removeExtra :
  GetRoleRef expected = GetRoleRef existing →
  let res := computeReconciledRoleBinding existing expected removeExtra in
  BOperation res = ReconcileUpdate ∨
  BOperation res = ReconcileNone ∧
  ∀ x, x ∈ GetSubjects existing ↔
    x ∈ reconciled_subjects removeExtra (GetSubjects existing) (GetSubjects expected).
Proof.
  intros Href res. destruct (decide (BOperation res = ReconcileNone)) as [E|E].
  - right. split; [done|]. apply computeReconciledRoleBinding_op in E as (_ & _ & _ & Hm & He).
    apply diffSubjects_nil in Hm. rewrite diffSubjects_nil in He.
    intros x. rewrite elem_of_reconciled_subjects. destruct removeExtra; set_solver.
  - left. revert E. unfold res, computeReconciledRoleBinding.
    rewrite bool_decide_true by done. repeat case_match; simplify_eq; done.
Qed.

Lemma reconciled_to_same removeExtra (existing binding stored : T) :
  GetRoleRef binding = GetRoleRef existing →
  GetRoleRef stored = GetRoleRef existing →
  (∀ x, x ∈ GetSubjects stored ↔
    x ∈ reconciled_subjects removeExtra (GetSubjects existing) (GetSubjects binding)) →
  reconciled_to removeExtra (Some existing) binding stored.
Proof.
  intros Hb Hs Hx. split; [congruence|]. intros x. rewrite Hx, elem_of_reconciled_subjects.
  unfold kept_subjects. rewrite bool_decide_true by done. destruct removeExtra; naive_solver.
Qed.

End computed.

Section runs.
Context {T St : Type} `{BindingOwner T, !BindingOwnerLaws T}.
Context (client : RoleBindingModifier T St) (view : St → gmap (string * string) T).
Context `{!BindingModifierLaws client view}.

Lemma createBinding_reconciles retry removeExtra (binding : T) before res st :
  res_RoleBinding res = binding →
  view st !! binding_key binding = None → kept_subjects before binding = [] →
  ∃ res' st' stored, createBinding client retry res st = (Ok res', st') ∧
    view st' = <[binding_key binding := stored]> (view st) ∧
    reconciled_to removeExtra before binding stored.
Proof.
  intros Hres Hnone Hkept. unfold createBinding. rewrite Hres.
  destruct (b_law_Create binding st Hnone) as (o & st' & -> & Hr & Hs & Hst).
  eexists _, st', o. split_and!; [done..|]. unfold reconciled_to.
  rewrite Hr, Hs, Hkept. set_solver.
Qed.

(** The run when the server stores a binding to the same role. *)
Lemma runBinding_same (existing binding : T) removeExtra n st st1 :
  b_Get St client (GetNamespace binding) (GetBindingName binding) st = (Ok existing, st1) →
  binding_key existing = binding_key binding →
  view st1 !! binding_key binding = Some existing →
  opted_out (GetBindingAnnotations existing) = false →
  GetRoleRef binding = GetRoleRef existing →
  ∃ res st' stored, runBinding client binding true removeExtra (S n) st = (Ok res, st') ∧
    view st' = <[binding_key binding := stored]> (view st1) ∧
    reconciled_to removeExtra (Some existing) binding stored.
Proof.
  intros Hget Hk Hex Hp Href. cbn [runBinding]. rewrite Hget. cbn [planBinding].
  rewrite computeReconciledRoleBinding_protected, Hp. cbn [negb].
  pose proof (computeReconciledRoleBinding_same existing binding removeExtra Href) as Hv.
  cbv zeta in Hv.
  destruct (computeReconciledRoleBinding_op_cases existing binding removeExtra Href)
    as [-> |[-> Hs]].
  - set (r := res_RoleBinding _) in *. unfold binding_view in Hv.
    injection Hv as E1 E2 E3 E4 E5 E6.
    assert (binding_key r = binding_key binding) as Hkr
      by (rewrite <- Hk; unfold binding_key; congruence).
    destruct (b_law_Update r st1) as (o & st' & -> & Hr & Ho & Hst).
    { rewrite Hkr. eauto. }
    eexists _, st', o. rewrite Hst, Hkr. split_and!; [done..|].
    apply reconciled_to_same; [done|congruence|]. intros x. by rewrite Ho, E6.
  - eexists _, st1, existing. rewrite insert_id by done. split_and!; [done..|].
    by apply reconciled_to_same.
Qed.

(** The run when it stores a binding to another role: delete, then create. *)
Lemma runBinding_recreate (existing binding : T) removeExtra n st st1 :
  b_Get St client (GetNamespace binding) (GetBindingName binding) st = (Ok existing, st1) →
  binding_key existing = binding_key binding →
  view st1 !! binding_key binding = Some existing →
  opted_out (GetBindingAnnotations existing) = false →
  GetRoleRef binding ≠ GetRoleRef existing →
  ∃ res st' stored, runBinding client binding true removeExtra (S n) st = (Ok res, st') ∧
    view st' = <[binding_key binding := stored]> (view st1) ∧
    reconciled_to removeExtra (Some existing) binding stored.
Proof.
  intros Hget Hk Hex Hp Href. cbn [runBinding]. rewrite Hget. cbn [planBinding].
  rewrite computeReconciledRoleBinding_differ by done. rewrite Hp.
  cbn [BProtected BOperation negb deleteExisting].
  injection Hk as Hns Hn.
  destruct (b_law_Delete (GetNamespace binding) (GetBindingName binding) st1 existing Hex)
    as (st2 & Hd & Hst2).
  rewrite Hns, Hn, Hd.
  destruct (createBinding_reconciles (runBinding client binding true removeExtra n) removeExtra
    binding (Some existing) (mkBindingResult binding [] [] ReconcileRecreate false) st2)
    as (res' & st' & stored & -> & Hst & Hto); [done| | |].
  - rewrite Hst2. apply lookup_delete_eq.
  - simpl. by rewrite bool_decide_false by done.
  - eexists _, st', stored. split_and!; [done| |done]. rewrite Hst, Hst2.
    apply insert_delete_eq.
Qed.

Lemma runBinding_confirmed (binding : T) (removeExtra : bool) (n : nat) (st : St) :
  (∀ existing, view st !! binding_key binding = Some existing →
     opted_out (GetBindingAnnotations existing) = false) →
  ∃ res st' stored, runBinding client binding true removeExtra (S n) st = (Ok res, st') ∧
    view st' = <[binding_key binding := stored]> (view st) ∧
    reconciled_to removeExtra (view st !! binding_key binding) binding stored.
Proof.
  intros Hp.
  destruct (b_law_Get (GetNamespace binding) (GetBindingName binding) st) as [Hv Hg].
  destruct (b_Get St client (GetNamespace binding) (GetBindingName binding) st)
    as [got st1] eqn:Hget. cbn [fst snd] in Hv, Hg. subst got.
  change (GetNamespace binding, GetBindingName binding) with (binding_key binding) in Hget.
  destruct (view st !! binding_key binding) as [existing|] eqn:Hex; cbn [from_option] in Hget.
  - rewrite <- Hv in Hex |- *. specialize (Hp existing eq_refl).
    pose proof (b_view_key st1 _ _ Hex) as Hk.
    destruct (decide (GetRoleRef binding = GetRoleRef existing)).
    + by apply runBinding_same.
    + by apply runBinding_recreate.
  - cbn [runBinding]. rewrite Hget. cbn [planBinding isNotFound BProtected BOperation negb].
    rewrite <- Hv in Hex |- *. by apply createBinding_reconciles.
Qed.

Lemma runBinding_leaves (binding : T) (confirm removeExtra : bool) (n : nat) (st : St) :
  (confirm = false ∨
   ∃ existing, view st !! binding_key binding = Some existing ∧
     opted_out (GetBindingAnnotations existing) = true) →
  view (runBinding client binding confirm removeExtra n st).2 = view st.
Proof.
  intros Hc. destruct n as [|n]; [done|]. cbn [runBinding].
  destruct (b_law_Get (GetNamespace binding) (GetBindingName binding) st) as [Hv Hg].
  destruct (b_Get St client _ _ st) as [got st1]. cbn [fst snd] in Hv, Hg. subst got.
  destruct Hc as [-> |(existing & Hex & Hp)].
  - by destruct (planBinding _ _ _) as [res|e]; [destruct (BProtected res)|].
  - unfold binding_key in Hex. rewrite Hex. cbn [from_option planBinding].
    by rewrite computeReconciledRoleBinding_protected, Hp.
Qed.
End runs.

(** ** Correctness of binding reconciliation *)

(** A binding to another role is replaced by the expected one; otherwise the
    reconciled binding keeps its role and has the expected subjects, and with
    them the existing ones unless extra subjects are removed; and reconciling
    the reconciled binding again needs no operation. *)
Theorem computeReconciledRoleBinding_correct {T} `{BindingOwner T, !BindingOwnerLaws T}
    (existing expected : T) (removeExtra : bool) :
  let res := computeReconciledRoleBinding existing expected removeExtra in
  reconciled_to removeExtra (Some existing) expected (res_RoleBinding res) ∧
  (BOperation res = ReconcileRecreate ↔ GetRoleRef expected ≠ GetRoleRef existing) ∧
  BOperation (computeReconciledRoleBinding (res_RoleBinding res) expected removeExtra) =
    ReconcileNone.
Proof.
  intros res. destruct (decide (GetRoleRef expected = GetRoleRef existing)) as [Href|Href].
  - pose proof (computeReconciledRoleBinding_same existing expected removeExtra Href) as Hv.
    unfold binding_view in Hv. injection Hv as E1 E2 E3 E4 E5 E6. fold res in E1, E2, E3, E4, E5, E6.
    split_and!.
    + apply reconciled_to_same; [done..|]. by rewrite E6.
    + destruct (computeReconciledRoleBinding_op_cases existing expected removeExtra Href)
        as [E|[E _]]; fold res in E; rewrite E; done.
    + apply computeReconciledRoleBinding_op. rewrite E3, E4, E5, E6, !merge_idem.
      split_and!; [done..| |]; apply reconciled_subjects_stable.
  - unfold res. rewrite (computeReconciledRoleBinding_differ _ _ _ Href). cbn.
    split_and!; [|done|].
    + split; [done|]. intros x. simpl. rewrite bool_decide_false by done. set_solver.
    + apply computeReconciledRoleBinding_op. rewrite !merge_same.
      split_and!; [done..| |]; intros; by apply diffSubjects_nil.
Qed.

(** A confirmed run on a binding that has not opted out succeeds, writes the
    binding's key and no other, and the stored binding refers to the expected
    role and has the expected subjects, with the former ones kept unless they are
    to be removed or belonged to a binding to another role. *)
Theorem RunBinding_reconciles {T St} `{BindingOwner T, !BindingOwnerLaws T}
    (client : RoleBindingModifier T St) (view : St → gmap (string * string) T)
    `{!BindingModifierLaws client view} (binding : T) (removeExtra : bool) (st : St) :
  (∀ existing, view st !! binding_key binding = Some existing →
     opted_out (GetBindingAnnotations existing) = false) →
  ∃ res st' stored, RunBinding client binding true removeExtra st = (Ok res, st') ∧
    view st' = <[binding_key binding := stored]> (view st) ∧
    reconciled_to removeExtra (view st !! binding_key binding) binding stored.
Proof. exact (runBinding_confirmed client view binding removeExtra 3 st). Qed.

(** ** Witnesses *)

(** A server in memory. *)
Module MemoryBindings.
Section memory.
Context {T : Type} `{BindingOwner T}.

Record t : Type := mk {
  objects : gmap (string * string) T;
  keyed : map_Forall (λ k x, binding_key x = k) objects;
}.

Lemma binding_keyed_insert (s : t) (o : T) :
  map_Forall (λ k x, binding_key x = k) (<[binding_key o := o]> (objects s)).
Proof. apply map_Forall_insert_2; [done|apply (keyed s)]. Qed.

Lemma binding_keyed_delete (s : t) k :
  map_Forall (λ k x, binding_key x = k) (delete k (objects s)).
Proof. apply map_Forall_delete, (keyed s). Qed.

Definition put (o : T) (s : t) : t := mk _ (binding_keyed_insert s o).
Definition remove k (s : t) : t := mk _ (binding_keyed_delete s k).

Definition client : RoleBindingModifier T t := {|
  b_Get ns n s := (from_option Ok (Err ErrNotFound) (objects s !! (ns, n)), s);
  b_Delete ns n uid s :=
    match objects s !! (ns, n) with
    | None => (Err ErrNotFound, s)
    | Some x =>
        if bool_decide (GetUID x = uid) then (Ok tt, remove (ns, n) s) else (Err ErrConflict, s)
    end;
  b_Create o s :=
    match objects s !! binding_key o with
    | Some _ => (Err ErrAlreadyExists, s)
    | None => (Ok o, put o s)
    end;
  b_Update o s :=
    match objects s !! binding_key o with
    | Some _ => (Ok o, put o s)
    | None => (Err ErrNotFound, s)
    end;
|}.

#[global] Instance laws : BindingModifierLaws client objects.
Proof.
  split; simpl.
  - intros s k x. apply (keyed s).
  - done.
  - intros ns n s x ->. rewrite bool_decide_true by done. by eexists.
  - intros o s ->. by exists o, (put o s).
  - intros o s [x ->]. by exists o, (put o s).
Qed.

Lemma binding_keyed_empty :
  map_Forall (λ k x, binding_key x = k) (∅ : gmap (string * string) T).
Proof. apply map_Forall_empty. Qed.

Definition empty : t := mk ∅ binding_keyed_empty.
End memory.
End MemoryBindings.

Definition ex_alice : Subject := mkSubject UserKind GroupName "alice" "".
Definition ex_bob : Subject := mkSubject UserKind GroupName "bob" "".

Definition ex_binding (role : string) (subjects : list Subject) : RoleBinding :=
  mkRoleBinding (ex_meta None) subjects (mkRoleRef GroupName "Role" role).

Lemma computeReconciledRoleBinding_correct_witness :
  ex_bob ∈ GetSubjects (res_RoleBinding
    (computeReconciledRoleBinding (ex_binding "reader" [ex_bob]) (ex_binding "reader" [ex_alice])
       false)).
Proof.
  destruct (computeReconciledRoleBinding_correct (ex_binding "reader" [ex_bob])
    (ex_binding "reader" [ex_alice]) false) as ([_ Hx] & _ & _).
  apply Hx. right. split; [reflexivity|]. left.
Defined.

Lemma RunBinding_reconciles_witness :
  ∃ res st' stored,
    RunBinding MemoryBindings.client (ex_binding "writer" [ex_alice]) true false
      (MemoryBindings.put (ex_binding "reader" [ex_bob]) MemoryBindings.empty) = (Ok res, st') ∧
    MemoryBindings.objects st' !! ("dev", "reader") = Some stored ∧
    ex_bob ∉ GetSubjects stored.
Proof.
  destruct (RunBinding_reconciles MemoryBindings.client MemoryBindings.objects
    (ex_binding "writer" [ex_alice]) false
    (MemoryBindings.put (ex_binding "reader" [ex_bob]) MemoryBindings.empty))
    as (res & st' & stored & Hrun & Hv & _ & Hx).
  - intros existing Hex. change (Some (ex_binding "reader" [ex_bob]) = Some existing) in Hex.
    injection Hex as <-. reflexivity.
  - exists res, st', stored. split; [exact Hrun|]. rewrite Hv. split; [apply lookup_insert_eq|].
    rewrite Hx. change (kept_subjects _ _) with (@nil Subject).
    intros [Hin|[_ Hin]]; [|by apply not_elem_of_nil in Hin].
    apply list_elem_of_singleton in Hin. discriminate.
Defined.
