(* ===== verification/Authz.v ===== *)
(** * The authorizer chain

    The authorizers the API server composes with RBAC, under
    [staging/src/k8s.io/apiserver/pkg/authorization]: the union of a chain
    ([union/union.go]), the always-allowed paths ([path/path.go]) and the built-in
    authorizers ([authorizerfactory/builtin.go]). *)

From S2P Require Import Prelude GoStrings RbacRules RbacObjects RbacResolver RbacAuthorizer.
Local Open Scope go_scope.

Import RBACAuthorizer (ResourceRuleInfo, mkResourceRuleInfo, NonResourceRuleInfo,
  mkNonResourceRuleInfo).

(** ** [unionAuthzHandler] *)

Module Union.

(** [strings.Join(reasonlist, newline)] on reasons. *)
Fixpoint join_reasons (reasonlist : list Reason) : Reason :=
  match reasonlist with
  | [] => []
  | [r] => r
  | r :: rest => r ++ ReasonText (String (ascii_of_nat 10) "") :: join_reasons rest
  end.

(** The loop of [Authorize], with the errors and reasons collected so far. *)
Fixpoint authorize_loop (handlers : list Authorizer) (a : Attributes)
    (errlist : list error) (reasonlist : list Reason) : Decision * Reason * option error :=
  match handlers with
  | [] => (DecisionNoOpinion, join_reasons reasonlist, NewAggregate errlist)
  | currAuthzHandler :: rest =>
      let '(decision, reason, err) := currAuthzHandler a in
      let errlist := match err with Some e => errlist ++ [e] | None => errlist end in
      let reasonlist := match reason with [] => reasonlist | _ => reasonlist ++ [reason] end in
      match decision with
      | DecisionAllow | DecisionDeny => (decision, reason, err)
      | DecisionNoOpinion => authorize_loop rest a errlist reasonlist
      end
  end.

Definition Authorize (authzHandler : list Authorizer) : Authorizer :=
  λ a, authorize_loop authzHandler a [] [].

(** [authorizer.RuleResolver] *)
Definition RuleResolver : Type :=
  UserInfo → string → list ResourceRuleInfo * list NonResourceRuleInfo * bool * option error.

Definition RulesFor (authzHandler : list RuleResolver) : RuleResolver :=
  λ user namespace,
    let '(resourceRulesList, nonResourceRulesList, incompleteStatus, errList) :=
      fold_left (λ acc (currAuthzHandler : RuleResolver),
        let '(resourceRulesList, nonResourceRulesList, incompleteStatus, errList) := acc in
        let '(resourceRules, nonResourceRules, incomplete, err) :=
          currAuthzHandler user namespace in
        (resourceRulesList ++ resourceRules, nonResourceRulesList ++ nonResourceRules,
         if incomplete : bool then true else incompleteStatus,
         match err with Some e => errList ++ [e] | None => errList end))
        authzHandler ([], [], false, []) in
    (resourceRulesList, nonResourceRulesList, incompleteStatus, NewAggregate errList).
End Union.

(** ** The always-allowed paths *)

Module PathAuthorizer.

(** [p[:len(p)-1]] *)
Fixpoint butlast (p : string) : string :=
  match p with
  | "" => ""
  | String c "" => ""
  | String c p => String c (butlast p)
  end.

(** The loop over [alwaysAllowPaths]: exact paths and prefixes. *)
Fixpoint collect (alwaysAllowPaths : list string) (paths prefixes : list string) :
    result string (list string * list string) :=
  match alwaysAllowPaths with
  | [] => Ok (paths, prefixes)
  | p :: rest =>
      let p := TrimPrefix1 p "/"%char in
      if slen p =? 0 then collect rest (paths ++ [p]) prefixes
      else if ContainsChar (butlast p) "*"%char then Err p
      else if HasSuffix p "*" then collect rest paths (prefixes ++ [butlast p])
      else collect rest (paths ++ [p]) prefixes
  end.

Definition NewAuthorizer (alwaysAllowPaths : list string) : result string Authorizer :=
  collected <-? collect alwaysAllowPaths [] [];;
  let '(paths, prefixes) := collected in
  Ok (λ a,
    if IsResourceRequest a then (DecisionNoOpinion, [], None)
    else
      let pth := TrimPrefix1 (GetPath a) "/"%char in
      if bool_decide (pth ∈ paths) then (DecisionAllow, [], None)
      else if existsb (λ prefix, HasPrefix pth prefix) prefixes then (DecisionAllow, [], None)
      else (DecisionNoOpinion, [], None)).
End PathAuthorizer.

(** ** Built-in authorizers *)

Module Builtin.

Definition alwaysAllow : Authorizer := λ _, (DecisionAllow, [], None).

Definition alwaysAllow_RulesFor : Union.RuleResolver := λ _ _,
  ([mkResourceRuleInfo ["*"] ["*"] ["*"] []], [mkNonResourceRuleInfo ["*"] ["*"]], false, None).

Definition alwaysDeny : Authorizer := λ _,
  (DecisionNoOpinion, [ReasonText "Everything is forbidden."], None).

Definition alwaysDeny_RulesFor : Union.RuleResolver := λ _ _, ([], [], false, None).

(** [privilegedGroupAuthorizer]; a request may have no user. *)
Definition privilegedGroups_user (groups : list string) (user : option UserInfo) :
    Decision * Reason * option error :=
  match user with
  | None => (DecisionNoOpinion, [ReasonText "Error"], Some (ErrText "no user on request."))
  | Some user =>
      if existsb (λ attr_group, existsb (λ priv_group, bool_decide (priv_group = attr_group)) groups)
           (UserGroups user)
      then (DecisionAllow, [], None)
      else (DecisionNoOpinion, [], None)
  end.

Definition privilegedGroups (groups : list string) : Authorizer :=
  λ a, privilegedGroups_user groups (Some (GetUser a)).
End Builtin.

(** ** Lemmas *)

Lemma authorize_loop_skip (pre hs : list Authorizer) a errs reasons :
  (∀ g, g ∈ pre → decision (g a) = DecisionNoOpinion) →
  ∃ errs' reasons',
    Union.authorize_loop (pre ++ hs) a errs reasons = Union.authorize_loop hs a errs' reasons'.
Proof.
  revert errs reasons. induction pre as [|g pre IH]; intros errs reasons Hpre; [by eexists _, _|].
  cbn [app Union.authorize_loop].
  assert (decision (g a) = DecisionNoOpinion) as Hg by (apply Hpre; left).
  destruct (g a) as [[d r] e]. cbn in Hg. subst d.
  apply IH. intros h Hh. apply Hpre. by right.
Qed.

Lemma authorize_loop_decides (pre : list Authorizer) h post a errs reasons :
  (∀ g, g ∈ pre → decision (g a) = DecisionNoOpinion) → decision (h a) ≠ DecisionNoOpinion →
  Union.authorize_loop (pre ++ h :: post) a errs reasons = h a.
Proof.
  intros Hpre Hh.
  destruct (authorize_loop_skip pre (h :: post) a errs reasons Hpre) as (errs' & rs & ->).
  cbn [Union.authorize_loop]. destruct (h a) as [[[] r] e]; done.
Qed.

(** A chain has no opinion, or a first handler that decides. *)
Lemma first_opinion (hs : list Authorizer) a :
  (∀ g, g ∈ hs → decision (g a) = DecisionNoOpinion) ∨
  ∃ pre h post, hs = pre ++ h :: post ∧
    (∀ g, g ∈ pre → decision (g a) = DecisionNoOpinion) ∧ decision (h a) ≠ DecisionNoOpinion.
Proof.
  induction hs as [|h hs [IH|(pre & g & post & -> & Hpre & Hg)]].
  - left. by intros g ?%not_elem_of_nil.
  - destruct (decide (decision (h a) = DecisionNoOpinion)).
    + left. intros g [-> |Hg]%elem_of_cons; auto.
    + right. exists [], h, hs. split_and!; [done| |done]. by intros g ?%not_elem_of_nil.
  - destruct (decide (decision (h a) = DecisionNoOpinion)).
    + right. exists (h :: pre), g, post. split_and!; [done| |done].
      intros g' [-> |Hg']%elem_of_cons; auto.
    + right. exists [], h, (pre ++ g :: post). split_and!; [done| |done].
      by intros g' ?%not_elem_of_nil.
Qed.

Section paths.
Import PathAuthorizer.

(** The meaning of one configured path, both with the leading slash trimmed. *)
Definition pathMatches (p pth : string) : Prop :=
  p = pth ∧ HasSuffix p "*" = false ∨
  ∃ prefix, p = prefix +:+ "*" ∧ HasPrefix pth prefix = true.

Definition inner_star (p : string) : bool :=
  ContainsChar (butlast (TrimPrefix1 p "/"%char)) "*"%char.

Lemma butlast_app_char p c : butlast (p +:+ String c "") = p.
Proof.
  induction p as [|d p IH]; [done|]. simpl. rewrite IH. by destruct p.
Qed.

Lemma HasSuffix_star p : HasSuffix p "*" = true ↔ p = butlast p +:+ "*".
Proof.
  rewrite HasSuffix_spec. split.
  - intros [q ->]. by rewrite butlast_app_char.
  - eauto.
Qed.

Lemma pathMatches_exact p pth : HasSuffix p "*" = false → pathMatches p pth ↔ p = pth.
Proof.
  intros Hs. unfold pathMatches. split; [|by auto].
  intros [[? _]|(q & -> & _)]; [done|]. exfalso. apply not_true_iff_false in Hs. apply Hs.
  apply HasSuffix_spec. eauto.
Qed.

Lemma pathMatches_prefix p pth :
  HasSuffix p "*" = true → pathMatches p pth ↔ HasPrefix pth (butlast p) = true.
Proof.
  intros Hs. unfold pathMatches. split.
  - intros [[_ ?]|(q & -> & ?)]; [congruence|]. by rewrite butlast_app_char.
  - right. exists (butlast p). split; [by apply HasSuffix_star|done].
Qed.

Lemma collect_spec ps paths prefixes :
  match collect ps paths prefixes with
  | Ok (paths', prefixes') =>
      (∀ p, p ∈ ps → inner_star p = false) ∧
      ∀ pth, (pth ∈ paths' ∨ (∃ q, q ∈ prefixes' ∧ HasPrefix pth q = true)) ↔
        (pth ∈ paths ∨ (∃ q, q ∈ prefixes ∧ HasPrefix pth q = true)) ∨
        ∃ p, p ∈ ps ∧ pathMatches (TrimPrefix1 p "/"%char) pth
  | Err _ => ∃ p, p ∈ ps ∧ inner_star p = true
  end.
Proof.
  revert paths prefixes. induction ps as [|p ps IH]; intros paths prefixes; cbn [collect].
  { split; [by intros ? ?%not_elem_of_nil|]. intros pth. set_solver. }
  set (p' := TrimPrefix1 p "/"%char).
  assert (∀ paths1 prefixes1, inner_star p = false →
    (∀ pth, (pth ∈ paths1 ∨ (∃ q, q ∈ prefixes1 ∧ HasPrefix pth q = true)) ↔
       (pth ∈ paths ∨ (∃ q, q ∈ prefixes ∧ HasPrefix pth q = true)) ∨ pathMatches p' pth) →
    match collect ps paths1 prefixes1 with
    | Ok (paths', prefixes') =>
        (∀ x, x ∈ p :: ps → inner_star x = false) ∧
        ∀ pth, (pth ∈ paths' ∨ (∃ q, q ∈ prefixes' ∧ HasPrefix pth q = true)) ↔
          (pth ∈ paths ∨ (∃ q, q ∈ prefixes ∧ HasPrefix pth q = true)) ∨
          ∃ x, x ∈ p :: ps ∧ pathMatches (TrimPrefix1 x "/"%char) pth
    | Err _ => ∃ x, x ∈ p :: ps ∧ inner_star x = true
    end) as Hstep.
  { intros paths1 prefixes1 Hp H1. specialize (IH paths1 prefixes1).
    destruct (collect ps paths1 prefixes1) as [[paths' prefixes']|e].
    - destruct IH as [IH1 IH2]. split.
      + intros x [-> |Hx]%elem_of_cons; auto.
      + intros pth. rewrite IH2, H1. setoid_rewrite elem_of_cons. fold p'. naive_solver.
    - destruct IH as (x & Hx & Hi). exists x. split; [by right|done]. }
  destruct (slen p' =? 0) eqn:E0.
  { apply Z.eqb_eq, slen_zero in E0. apply Hstep.
    - unfold inner_star. fold p'. by rewrite E0.
    - intros pth. rewrite pathMatches_exact by (by rewrite E0). set_solver. }
  destruct (ContainsChar (butlast p') "*"%char) eqn:Es.
  { exists p. split; [left|done]. }
  destruct (HasSuffix p' "*") eqn:Ef; apply Hstep; try done; intros pth.
  - rewrite pathMatches_prefix by done. setoid_rewrite elem_of_app.
    setoid_rewrite list_elem_of_singleton. naive_solver.
  - rewrite pathMatches_exact by done. set_solver.
Qed.
End paths.

(** ** Correctness *)

(** The chain is decided by its first handler that has an opinion, whose
    decision, reason and error are returned as they are, whatever the handlers
    after it say (so an early denial cannot be overruled); the chain has no
    opinion exactly when no handler has one. *)
Theorem Union_Authorize_first (hs : list Authorizer) (a : Attributes) :
  (∀ pre h post, hs = pre ++ h :: post →
     (∀ g, g ∈ pre → decision (g a) = DecisionNoOpinion) →
     decision (h a) ≠ DecisionNoOpinion → Union.Authorize hs a = h a) ∧
  (decision (Union.Authorize hs a) = DecisionNoOpinion ↔
   ∀ g, g ∈ hs → decision (g a) = DecisionNoOpinion).
Proof.
  split.
  - intros pre h post -> Hpre Hh. by apply authorize_loop_decides.
  - split.
    + intros Hno. destruct (first_opinion hs a) as [?|(pre & h & post & -> & Hpre & Hh)]; [done|].
      unfold Union.Authorize in Hno. by rewrite authorize_loop_decides in Hno.
    + intros Hno. destruct (authorize_loop_skip hs [] a [] [] Hno) as (e & r & He).
      rewrite app_nil_r in He. unfold Union.Authorize. by rewrite He.
Qed.

(** The path authorizer is built unless a configured path has a star before
    its last character, and then it allows exactly the non-resource requests
    whose path equals a configured path or extends one that ends in a star; it
    never denies. *)
Theorem NewAuthorizer_paths (ps : list string) :
  match PathAuthorizer.NewAuthorizer ps with
  | Err _ => ∃ p, p ∈ ps ∧ inner_star p = true
  | Ok f =>
      (∀ p, p ∈ ps → inner_star p = false) ∧
      ∀ a, decision (f a) ≠ DecisionDeny ∧
        (decision (f a) = DecisionAllow ↔
         IsResourceRequest a = false ∧
         ∃ p, p ∈ ps ∧ pathMatches (TrimPrefix1 p "/"%char) (TrimPrefix1 (GetPath a) "/"%char))
  end.
Proof.
  unfold PathAuthorizer.NewAuthorizer. pose proof (collect_spec ps [] []) as Hc.
  destruct (PathAuthorizer.collect ps [] []) as [[paths prefixes]|e]; [|done]. simpl.
  destruct Hc as [Hi Hm]. split; [done|]. intros a.
  specialize (Hm (TrimPrefix1 (GetPath a) "/"%char)).
  destruct (IsResourceRequest a); [split; [done|]; naive_solver|].
  set (pth := TrimPrefix1 (GetPath a) "/"%char) in *.
  assert ((∃ p, p ∈ ps ∧ pathMatches (TrimPrefix1 p "/"%char) pth) ↔
    pth ∈ paths ∨ ∃ q, q ∈ prefixes ∧ HasPrefix pth q = true) as ->.
  { rewrite Hm. split; [by right|]. intros [[?%not_elem_of_nil|(q & ?%not_elem_of_nil & _)]|?];
      done. }
  rewrite <- existsb_elem.
  destruct (bool_decide_reflect (pth ∈ paths)); [naive_solver|].
  destruct (existsb _ prefixes); split; try done; naive_solver.
Qed.
