(* ===== verification/Cpuset.v ===== *)
(** * CPU sets

    [pkg/kubelet/cm/cpuset/cpuset.go]: the set of CPU identifiers, its printing in
    the Linux CPU list format and its parsing. The underlying Go map, used as a
    set that is never mutated once built, is a [gset Z]; the one place where
    sharing matters, the builder, is modelled with the store it writes to. *)

From S2P Require Import Prelude GoStrings GoStrconv.
Local Open Scope go_scope.

Notation CPUSet := (gset Z).

(** ** Operations *)

Definition NewCPUSet (cpus : list Z) : CPUSet := fold_left (λ s c, {[c]} ∪ s) cpus ∅.
Definition Size (s : CPUSet) : Z := Z.of_nat (size s).
Definition IsEmpty (s : CPUSet) : bool := Size s =? 0.
Definition Contains (s : CPUSet) (cpu : Z) : bool := bool_decide (cpu ∈ s).
Definition Equals (s s2 : CPUSet) : bool := bool_decide (s = s2).
Definition Filter (s : CPUSet) (predicate : Z → bool) : CPUSet :=
  filter (λ cpu, predicate cpu = true) s.
Definition FilterNot (s : CPUSet) (predicate : Z → bool) : CPUSet :=
  filter (λ cpu, negb (predicate cpu) = true) s.
Definition IsSubsetOf (s s2 : CPUSet) : bool := forallb (Contains s2) (elements s).
Definition Union (s s2 : CPUSet) : CPUSet := s ∪ s2.
Definition Intersection (s s2 : CPUSet) : CPUSet := Filter s (λ cpu, Contains s2 cpu).
Definition Difference (s s2 : CPUSet) : CPUSet := FilterNot s (λ cpu, Contains s2 cpu).
Definition Clone (s : CPUSet) : CPUSet := s.

(** [ToSlice]: the elements, sorted by [sort.Ints]. *)
Definition ToSlice (s : CPUSet) : list Z := merge_sort Z.le (elements s).

(** ** Printing *)

Record rng : Type := mkRng { start : Z; end_ : Z }.

(** The loop that groups the sorted elements into ranges; [cur] is the last
    element of the Go slice [ranges], [ranges] the ones before it. *)
Fixpoint group_ranges (elems : list Z) (ranges : list rng) (cur : rng) : list rng :=
  match elems with
  | [] => ranges ++ [cur]
  | e :: elems =>
      if e =? end_ cur + 1 then group_ranges elems ranges (mkRng (start cur) e)
      else group_ranges elems (ranges ++ [cur]) (mkRng e e)
  end.

Definition print_range (r : rng) : string :=
  if start r =? end_ r then Itoa (start r) else Itoa (start r) +:+ "-" +:+ Itoa (end_ r).

Definition CPUSet_String (s : CPUSet) : string :=
  match ToSlice s with
  | [] => ""
  | e :: elems =>
      TrimRight
        (foldr (λ p acc, p +:+ "," +:+ acc) ""
           (map print_range (group_ranges elems [] (mkRng e e)))) ","%char
  end.

(** ** Parsing *)

Inductive ParseError : Type :=
  | ErrAtoi (e : NumError)
  | NoReturn.

Definition atoi (s : string) : result ParseError Z :=
  match Atoi s with Ok z => Ok z | Err e => Err (ErrAtoi e) end.

(** One element of the comma-separated list. An element with more than two
    dash-separated parts adds nothing. The loop [for e := start; e <= end; e++]
    does not return when [end] is the largest integer: [NoReturn]. *)
Definition parse_range (b : CPUSet) (r : string) : result ParseError CPUSet :=
  match Split r "-"%char with
  | [x] =>
      elem <-? atoi x;;
      Ok ({[elem]} ∪ b)
  | [x; y] =>
      start <-? atoi x;;
      end_ <-? atoi y;;
      if (start <=? end_) && (end_ =? MaxInt64) then Err NoReturn
      else Ok (list_to_set (seqZ start (end_ - start + 1)) ∪ b)
  | _ => Ok b
  end.

Fixpoint parse_ranges (b : CPUSet) (ranges : list string) : result ParseError CPUSet :=
  match ranges with
  | [] => Ok b
  | r :: ranges =>
      b <-? parse_range b r;;
      parse_ranges b ranges
  end.

Definition Parse (s : string) : result ParseError CPUSet :=
  if bool_decide (s = "") then Ok ∅ else parse_ranges ∅ (Split s ","%char).

(** ** The builder

    [Builder] has value receivers: a method works on a copy of the struct, which
    shares the map with the original. [heap] is the store of maps. *)

Module Builder.

Notation heap := (gmap nat CPUSet).

Record t : Type := mk { result : nat; done : bool }.

Definition NewBuilder (h : heap) : heap * t :=
  let l := fresh (dom h) in (<[l := ∅]> h, mk l false).

Definition Add (h : heap) (b : t) (elems : list Z) : heap :=
  if done b then h
  else fold_left (λ h elem, alter (λ s, {[elem]} ∪ s) (result b) h) elems h.

(** [Result] sets [done] on its own copy, which is dropped, and returns the map. *)
Definition Result (b : t) : nat := result b.

(** The set a map reference denotes. *)
Definition deref (h : heap) (l : nat) : CPUSet := default ∅ (h !! l).
End Builder.

(** ** Lemmas *)

Lemma elem_of_NewCPUSet cpus x : x ∈ NewCPUSet cpus ↔ x ∈ cpus.
Proof.
  unfold NewCPUSet. assert (∀ s : CPUSet,
    x ∈ fold_left (λ s c, {[c]} ∪ s) cpus s ↔ x ∈ s ∨ x ∈ cpus) as H.
  { induction cpus as [|c cpus IH]; intros s; simpl; [set_solver|]. rewrite IH. set_solver. }
  rewrite H. set_solver.
Qed.

Lemma elem_of_Filter s p x : x ∈ Filter s p ↔ p x = true ∧ x ∈ s.
Proof. unfold Filter. by rewrite elem_of_filter. Qed.

Lemma Difference_spec s s2 : Difference s s2 = s ∖ s2.
Proof.
  apply set_eq. intros x. unfold Difference, FilterNot, Contains.
  rewrite elem_of_filter, negb_true_iff, bool_decide_eq_false. set_solver.
Qed.

Lemma Intersection_spec s s2 : Intersection s s2 = s ∩ s2.
Proof.
  apply set_eq. intros x. unfold Intersection, Filter, Contains.
  rewrite elem_of_filter, bool_decide_eq_true. set_solver.
Qed.

Lemma IsSubsetOf_spec s s2 : IsSubsetOf s s2 = true ↔ s ⊆ s2.
Proof.
  unfold IsSubsetOf, Contains. rewrite forallb_elem. setoid_rewrite bool_decide_eq_true.
  set_solver.
Qed.

Lemma IsEmpty_spec s : IsEmpty s = true ↔ s = ∅.
Proof.
  unfold IsEmpty, Size. rewrite Z.eqb_eq, <- leibniz_equiv_iff, <- size_empty_iff. lia.
Qed.

Lemma elem_of_ToSlice s x : x ∈ ToSlice s ↔ x ∈ s.
Proof. unfold ToSlice. by rewrite merge_sort_Permutation, elem_of_elements. Qed.

Lemma ToSlice_NoDup s : NoDup (ToSlice s).
Proof. unfold ToSlice. rewrite merge_sort_Permutation. apply NoDup_elements. Qed.

Lemma ToSlice_length s : Z.of_nat (length (ToSlice s)) = Size s.
Proof. unfold ToSlice, Size. by rewrite merge_sort_Permutation. Qed.

Lemma ToSlice_sorted s : Sorted Z.le (ToSlice s).
Proof. apply Sorted_merge_sort. apply _. Qed.

(** *** Printing and parsing *)

Definition range_set (r : rng) : CPUSet := list_to_set (seqZ (start r) (end_ r - start r + 1)).

Lemma elem_of_range_set r x : x ∈ range_set r ↔ start r ≤ x ≤ end_ r.
Proof. unfold range_set. rewrite elem_of_list_to_set, elem_of_seqZ. lia. Qed.

(** The elements a list of ranges stands for. *)
Definition ranges_set (rs : list rng) : CPUSet := ⋃ (map range_set rs).

Lemma ranges_set_app rs rs' : ranges_set (rs ++ rs') = ranges_set rs ∪ ranges_set rs'.
Proof. unfold ranges_set. by rewrite map_app, union_list_app_L. Qed.

Lemma ranges_set_singleton r : ranges_set [r] = range_set r.
Proof. unfold ranges_set. simpl. apply (right_id_L ∅ (∪)). Qed.

(** A range that prints and parses back: natural numbers below the largest. *)
Definition wf_range (r : rng) : Prop := 0 ≤ start r ∧ start r ≤ end_ r ∧ end_ r < MaxInt64.

Lemma group_ranges_spec elems ranges cur :
  Forall wf_range ranges → wf_range cur → Forall (λ e, 0 ≤ e < MaxInt64) elems →
  Forall wf_range (group_ranges elems ranges cur) ∧
  ranges_set (group_ranges elems ranges cur) =
    ranges_set ranges ∪ range_set cur ∪ list_to_set elems.
Proof.
  revert ranges cur. induction elems as [|e elems IH]; intros ranges cur Hr Hc He; simpl.
  - rewrite ranges_set_app, ranges_set_singleton, (right_id_L ∅ (∪)). split; [|done].
    apply Forall_app. by auto.
  - apply Forall_cons in He as [He Hes]. destruct (e =? end_ cur + 1) eqn:E.
    + apply Z.eqb_eq in E. destruct (IH ranges (mkRng (start cur) e)) as [H1 H2]; [done| |done|].
      { destruct Hc as (? & ? & ?). repeat split; simpl; lia. }
      split; [done|]. rewrite H2. apply set_eq. intros x.
      rewrite !elem_of_union, !elem_of_range_set, elem_of_singleton. simpl.
      destruct Hc as (? & ? & ?). split; intros; intuition lia.
    + destruct (IH (ranges ++ [cur]) (mkRng e e)) as [H1 H2]; [|repeat split; simpl; lia|done|].
      { apply Forall_app. by auto. }
      split; [done|]. rewrite H2, ranges_set_app, ranges_set_singleton. apply set_eq. intros x.
      rewrite !elem_of_union, !elem_of_range_set, elem_of_singleton. simpl.
      split; intros; intuition lia.
Qed.

Lemma dash_not_digit :
  "-"%char ∉ ["0"; "1"; "2"; "3"; "4"; "5"; "6"; "7"; "8"; "9"]%char ∧
  ","%char ∉ ["0"; "1"; "2"; "3"; "4"; "5"; "6"; "7"; "8"; "9"]%char.
Proof. split; set_solver. Qed.

Lemma print_range_chars r :
  wf_range r → ContainsChar (print_range r) ","%char = false ∧ print_range r ≠ "".
Proof.
  intros (H0 & H1 & H2). unfold print_range.
  assert (∀ z, 0 ≤ z → ContainsChar (Itoa z) ","%char = false) as Hn
    by (intros; apply Itoa_no_char; [done|apply dash_not_digit]).
  pose proof (Itoa_nonempty (start r) H0) as Hne.
  destruct (start r =? end_ r); [auto|]. split.
  - rewrite !ContainsChar_app, !Hn by lia. done.
  - by destruct (Itoa (start r)).
Qed.

Lemma parse_print_range b r :
  wf_range r → parse_range b (print_range r) = Ok (range_set r ∪ b).
Proof.
  intros (H0 & H1 & H2). unfold print_range, parse_range, atoi.
  assert (∀ z, 0 ≤ z → ContainsChar (Itoa z) "-"%char = false) as Hn
    by (intros; apply Itoa_no_char; [done|apply dash_not_digit]).
  unfold MaxInt64 in *. destruct (start r =? end_ r) eqn:E.
  - apply Z.eqb_eq in E. rewrite Split_none by (by apply Hn).
    rewrite Atoi_Itoa by (unfold MaxInt64; lia). do 2 f_equal.
    apply set_eq. intros x. rewrite elem_of_range_set, elem_of_singleton. lia.
  - change ("-" +:+ Itoa (end_ r)) with (String "-" (Itoa (end_ r))).
    rewrite Split_app by (by apply Hn).
    rewrite Split_none by (apply Hn; lia).
    rewrite !Atoi_Itoa by (unfold MaxInt64; lia).
    rewrite (proj2 (Z.eqb_neq (end_ r) _)) by (unfold MaxInt64; lia).
    by rewrite andb_false_r.
Qed.

Lemma parse_print_ranges rs b :
  Forall wf_range rs → parse_ranges b (map print_range rs) = Ok (b ∪ ranges_set rs).
Proof.
  revert b. induction rs as [|r rs IH]; intros b Hf; simpl.
  - unfold ranges_set. simpl. by rewrite (right_id_L ∅ (∪)).
  - apply Forall_cons in Hf as [Hr Hf]. rewrite parse_print_range, IH by done.
    f_equal. unfold ranges_set. simpl. set_solver.
Qed.

Lemma Parse_String_lemma (s : CPUSet) :
  (∀ x, x ∈ s → 0 ≤ x < MaxInt64) → Parse (CPUSet_String s) = Ok s.
Proof.
  intros Hs. unfold CPUSet_String, Parse.
  destruct (ToSlice s) as [|e elems] eqn:E.
  { rewrite bool_decide_true by done. f_equal. symmetry. apply set_eq. intros x.
    rewrite <- elem_of_ToSlice, E. set_solver. }
  assert (∀ x, x ∈ e :: elems ↔ x ∈ s) as Hel by (intros; by rewrite <- E, elem_of_ToSlice).
  assert (0 ≤ e < MaxInt64) as He by (apply Hs, Hel; left).
  destruct (group_ranges_spec elems [] (mkRng e e)) as [Hw Hset].
  { done. } { repeat split; simpl; lia. }
  { apply Forall_forall. intros x Hx. apply Hs, Hel. by right. }
  set (rs := group_ranges elems [] (mkRng e e)) in *.
  assert (rs ≠ []) as Hne.
  { intros Hrs. rewrite Hrs in Hset. unfold ranges_set in Hset. simpl in Hset.
    assert (e ∈ (∅ : CPUSet)) as Hbad; [|set_solver].
    rewrite Hset. apply elem_of_union_l, elem_of_union_r, elem_of_range_set. simpl. lia. }
  rewrite TrimRight_Join, Split_Join.
  - rewrite bool_decide_false.
    + rewrite parse_print_ranges by done. f_equal. rewrite Hset. apply set_eq. intros x.
      rewrite <- Hel, elem_of_cons, !elem_of_union, elem_of_range_set, elem_of_list_to_set.
      unfold ranges_set. simpl. rewrite !elem_of_empty. split; intros; intuition lia.
    + destruct rs as [|r rs']; [done|]. apply Forall_cons in Hw as [Hr _].
      destruct (print_range_chars r Hr) as [_ Hp]. simpl.
      destruct (print_range r); [done|]. by destruct (map print_range rs').
  - by destruct rs.
  - intros p Hp. apply list_elem_of_fmap in Hp as (r & -> & Hr).
    rewrite Forall_forall in Hw. by apply print_range_chars, Hw.
  - intros p Hp. apply list_elem_of_fmap in Hp as (r & -> & Hr).
    rewrite Forall_forall in Hw. by apply print_range_chars, Hw.
Qed.

(** ** Correctness *)

(** Printing and parsing are inverse on the CPU identifiers a machine can
    have, natural numbers below the largest integer: the CPU manager's checkpoint
    restores the sets it stored. *)
Theorem Parse_String (s : CPUSet) :
  (∀ x, x ∈ s → 0 ≤ x < MaxInt64) → Parse (CPUSet_String s) = Ok s.
Proof. apply Parse_String_lemma. Qed.

(** [Parse] does not reject an element with more than one dash: it adds
    nothing for it and reports no error, wherever the element is in the list. *)
Theorem Parse_skips_malformed (b : CPUSet) (before after : list string) (r : string) :
  (2 < length (Split r "-"%char))%nat →
  parse_ranges b (before ++ r :: after) = parse_ranges b (before ++ after).
Proof.
  intros Hr. revert b. induction before as [|x before IH]; intros b; simpl.
  - unfold parse_range at 1. destruct (Split r "-"%char) as [|? [|? [|? ?]]]; simpl in Hr; [lia..|].
    done.
  - by destruct (parse_range b x).
Qed.

(** [Builder.Result] does not seal the builder: [Add] after [Result] still
    changes the set [Result] returned, which the comments of both methods
    exclude. *)
Theorem Builder_Add_after_Result (h : Builder.heap) (elems more : list Z) :
  let '(h, b) := Builder.NewBuilder h in
  let h := Builder.Add h b elems in
  let s := Builder.Result b in
  Builder.deref h s = NewCPUSet elems ∧
  Builder.deref (Builder.Add h b more) s = NewCPUSet (elems ++ more).
Proof.
  unfold Builder.NewBuilder, Builder.Add, Builder.Result, Builder.deref, NewCPUSet. simpl.
  set (l := fresh (dom h)).
  assert (∀ es (h : Builder.heap) s, h !! l = Some s →
    fold_left (λ h e, alter (λ s, {[e]} ∪ s) l h) es h !! l =
      Some (fold_left (λ s c, {[c]} ∪ s) es s)) as Hfold.
  { induction es as [|e es IH]; intros h' s Hs; simpl; [done|].
    apply IH. by rewrite lookup_alter_eq, Hs. }
  assert (<[l := ∅]> h !! l = Some (∅ : CPUSet)) as H0 by apply lookup_insert_eq.
  pose proof (Hfold elems _ _ H0) as H1. pose proof (Hfold more _ _ H1) as H2.
  rewrite H1, H2, fold_left_app. done.
Qed.

(** ** Witnesses *)

Lemma Parse_String_witness : Parse (CPUSet_String (NewCPUSet [0; 1; 2; 5; 7; 8])) =
  Ok (NewCPUSet [8; 7; 5; 2; 1; 0]).
Proof.
  rewrite (Parse_String (NewCPUSet [0; 1; 2; 5; 7; 8])); [reflexivity|].
  intros x Hx. apply elem_of_NewCPUSet in Hx. unfold MaxInt64.
  repeat (apply elem_of_cons in Hx as [-> |Hx]; [lia|]). by apply not_elem_of_nil in Hx.
Defined.

Example CPUSet_String_ex : CPUSet_String (NewCPUSet [8; 7; 5; 2; 1; 0]) = "0-2,5,7-8".
Proof. reflexivity. Qed.

Lemma Parse_skips_malformed_witness : Parse "0,1-2-3,4" = Parse "0,4".
Proof. apply (Parse_skips_malformed ∅ ["0"] ["4"] "1-2-3"). vm_compute. lia. Defined.
