(* ===== verification/CpuTopology.v ===== *)
(** * CPU topology

    [pkg/kubelet/cm/cpumanager/topology/topology.go]: the map from CPU to core and
    socket, its queries, and its discovery from the machine description. *)

From S2P Require Import Prelude Cpuset.
Local Open Scope go_scope.

Record CPUInfo : Type := mkCPUInfo { SocketID : Z; CoreID : Z }.

#[global] Instance CPUInfo_eq_dec : EqDecision CPUInfo.
Proof. solve_decision. Defined.

Notation CPUDetails := (gmap Z CPUInfo).

Record CPUTopology : Type := mkTopology {
  NumCPUs : Z;
  NumCores : Z;
  NumSockets : Z;
  Details : CPUDetails;
}.

Definition CPUsPerCore (topo : CPUTopology) : Z :=
  if NumCores topo =? 0 then 0 else NumCPUs topo `quot` NumCores topo.

Definition CPUsPerSocket (topo : CPUTopology) : Z :=
  if NumSockets topo =? 0 then 0 else NumCPUs topo `quot` NumSockets topo.

(** ** Queries *)

Definition KeepOnly (d : CPUDetails) (cpus : CPUSet) : CPUDetails :=
  filter (λ kv, Contains cpus kv.1 = true) d.

(** The identifiers [f] gives for the entries of [d] that satisfy [p]. *)
Definition collect (d : CPUDetails) (p : Z * CPUInfo → bool) (f : Z * CPUInfo → Z) : CPUSet :=
  list_to_set (map f (List.filter p (map_to_list d))).

Definition Sockets (d : CPUDetails) : CPUSet := collect d (λ _, true) (λ kv, SocketID kv.2).
Definition CPUsInSocket (d : CPUDetails) (id : Z) : CPUSet :=
  collect d (λ kv, SocketID kv.2 =? id) fst.
Definition Cores (d : CPUDetails) : CPUSet := collect d (λ _, true) (λ kv, CoreID kv.2).
Definition CoresInSocket (d : CPUDetails) (id : Z) : CPUSet :=
  collect d (λ kv, SocketID kv.2 =? id) (λ kv, CoreID kv.2).
Definition CPUs (d : CPUDetails) : CPUSet := collect d (λ _, true) fst.
Definition CPUsInCore (d : CPUDetails) (id : Z) : CPUSet :=
  collect d (λ kv, CoreID kv.2 =? id) fst.

(** ** Discovery *)

(** The fields of [cadvisorapi.MachineInfo] that [Discover] reads. *)
Record Core : Type := mkCore { CoreThreads : list Z }.
Record Node : Type := mkNode { NodeId : Z; NodeCores : list Core }.
Record MachineInfo : Type := mkMachineInfo {
  MachineNumCores : Z;
  MachineTopology : list Node;
}.

Inductive TopologyError : Type :=
  | NoCpusDetected
  | NoCpusProvided
  | CpusNotUnique.

Definition getUniqueCoreID (threads : list Z) : result TopologyError Z :=
  if Z.of_nat (length threads) =? 0 then Err NoCpusProvided
  else if negb (Z.of_nat (length threads) =? Size (NewCPUSet threads)) then Err CpusNotUnique
  else Ok (default 0 (head (merge_sort Z.le threads))).

(** The threads of a core, then the cores of a socket, then the sockets. *)
Definition addThreads (socket coreID : Z) (threads : list Z) (d : CPUDetails) : CPUDetails :=
  fold_left (λ d cpu, <[cpu := mkCPUInfo socket coreID]> d) threads d.

Fixpoint addCores (socket : Z) (cores : list Core) (d : CPUDetails) :
    result TopologyError CPUDetails :=
  match cores with
  | [] => Ok d
  | core :: cores =>
      coreID <-? getUniqueCoreID (CoreThreads core);;
      addCores socket cores (addThreads socket coreID (CoreThreads core) d)
  end.

Fixpoint addSockets (sockets : list Node) (d : CPUDetails) : result TopologyError CPUDetails :=
  match sockets with
  | [] => Ok d
  | socket :: sockets =>
      d <-? addCores (NodeId socket) (NodeCores socket) d;;
      addSockets sockets d
  end.

Definition Discover (machineInfo : MachineInfo) : result TopologyError CPUTopology :=
  if MachineNumCores machineInfo =? 0 then Err NoCpusDetected
  else
    d <-? addSockets (MachineTopology machineInfo) ∅;;
    Ok (mkTopology (MachineNumCores machineInfo)
          (fold_left (λ n socket, n + Z.of_nat (length (NodeCores socket)))
             (MachineTopology machineInfo) 0)
          (Z.of_nat (length (MachineTopology machineInfo))) d).

(** ** Lemmas *)

Lemma elem_of_collect_details d p f x :
  x ∈ collect d p f ↔ ∃ k v, d !! k = Some v ∧ p (k, v) = true ∧ x = f (k, v).
Proof.
  unfold collect. rewrite elem_of_list_to_set, list_elem_of_fmap. split.
  - intros ([k v] & -> & Hkv). rewrite list_elem_of_In, filter_In, <- list_elem_of_In in Hkv.
    destruct Hkv as [Hkv%elem_of_map_to_list Hp]. eauto.
  - intros (k & v & Hk & Hp & ->). exists (k, v). split; [done|].
    rewrite list_elem_of_In, filter_In, <- list_elem_of_In, elem_of_map_to_list. done.
Qed.

Lemma lookup_KeepOnly d cpus k v :
  KeepOnly d cpus !! k = Some v ↔ d !! k = Some v ∧ k ∈ cpus.
Proof.
  unfold KeepOnly, Contains. rewrite map_lookup_filter_Some. simpl.
  by rewrite bool_decide_eq_true.
Qed.

Lemma elem_of_CPUs d k : k ∈ CPUs d ↔ is_Some (d !! k).
Proof.
  unfold CPUs, is_Some. rewrite elem_of_collect_details. split.
  - intros (k' & v & Hk & _ & ->). eauto.
  - intros [v Hk]. eexists k, v. done.
Qed.

Lemma elem_of_CPUsInSocket d id k :
  k ∈ CPUsInSocket d id ↔ ∃ v, d !! k = Some v ∧ SocketID v = id.
Proof.
  unfold CPUsInSocket. rewrite elem_of_collect_details. split.
  - intros (k' & v & Hk & Hp%Z.eqb_eq & ->). eauto.
  - intros (v & Hk & Hp). exists k, v. split_and!; [done|by apply Z.eqb_eq|done].
Qed.

Lemma elem_of_CPUsInCore d id k :
  k ∈ CPUsInCore d id ↔ ∃ v, d !! k = Some v ∧ CoreID v = id.
Proof.
  unfold CPUsInCore. rewrite elem_of_collect_details. split.
  - intros (k' & v & Hk & Hp%Z.eqb_eq & ->). eauto.
  - intros (v & Hk & Hp). exists k, v. split_and!; [done|by apply Z.eqb_eq|done].
Qed.

Lemma elem_of_Sockets d id : id ∈ Sockets d ↔ ∃ k v, d !! k = Some v ∧ SocketID v = id.
Proof. unfold Sockets. rewrite elem_of_collect_details. naive_solver. Qed.

Lemma elem_of_Cores d id : id ∈ Cores d ↔ ∃ k v, d !! k = Some v ∧ CoreID v = id.
Proof. unfold Cores. rewrite elem_of_collect_details. naive_solver. Qed.

Lemma elem_of_CoresInSocket d s id :
  id ∈ CoresInSocket d s ↔ ∃ k v, d !! k = Some v ∧ SocketID v = s ∧ CoreID v = id.
Proof.
  unfold CoresInSocket. rewrite elem_of_collect_details. split.
  - intros (k & v & Hk & Hp%Z.eqb_eq & ->). eauto.
  - intros (k & v & Hk & Hp & <-). exists k, v. split_and!; [done|by apply Z.eqb_eq|done].
Qed.

Lemma CPUs_KeepOnly d cpus : CPUs (KeepOnly d cpus) = CPUs d ∩ cpus.
Proof.
  apply set_eq. intros k. rewrite elem_of_intersection, !elem_of_CPUs. unfold is_Some.
  setoid_rewrite lookup_KeepOnly. naive_solver.
Qed.
