(* ===== verification/CpuAssignment.v ===== *)
(** * Topology-aware CPU assignment

    [pkg/kubelet/cm/cpumanager/cpu_assignment.go]: the accumulator and
    [takeByTopology], which picks whole sockets, then whole cores, then single
    CPUs.

    [sort.Slice] takes a comparison that the code does not make an order, so what
    it returns depends on the algorithm; the model takes any function that
    permutes its argument, which is all the documentation of [sort.Slice] grants
    for such a comparison. *)

From S2P Require Import Prelude Cpuset CpuTopology.

Class SortSlice := {
  sort_Slice : (Z → Z → bool) → list Z → list Z;
  sort_Slice_perm less l : sort_Slice less l ≡ₚ l;
}.

(** The insertion sort [sort.Slice] runs on short slices: each element moves left
    while it is less than its left neighbour. [sorted] is reversed. *)
Fixpoint insert_left (less : Z → Z → bool) (x : Z) (sorted : list Z) : list Z :=
  match sorted with
  | y :: rest => if less x y then y :: insert_left less x rest else x :: sorted
  | [] => [x]
  end.

Definition insertionSort (less : Z → Z → bool) (l : list Z) : list Z :=
  rev (fold_left (λ sorted x, insert_left less x sorted) l []).

(** ** The accumulator *)

Record cpuAccumulator : Type := mkAcc {
  topo : CPUTopology;
  details : CPUDetails;
  numCPUsNeeded : Z;
  result_ : CPUSet;
}.

Definition newCPUAccumulator (topo : CPUTopology) (availableCPUs : CPUSet) (numCPUs : Z) :
    cpuAccumulator :=
  mkAcc topo (KeepOnly (Details topo) availableCPUs) numCPUs (NewCPUSet []).

Definition take (a : cpuAccumulator) (cpus : CPUSet) : cpuAccumulator :=
  let result := Union (result_ a) cpus in
  mkAcc (topo a) (KeepOnly (details a) (Difference (CPUs (details a)) result))
    (numCPUsNeeded a - Size cpus) result.

Definition isSocketFree (a : cpuAccumulator) (socketID : Z) : bool :=
  Size (CPUsInSocket (details a) socketID) =? CPUsPerSocket (topo a).

Definition isCoreFree (a : cpuAccumulator) (coreID : Z) : bool :=
  Size (CPUsInCore (details a) coreID) =? CPUsPerCore (topo a).

Definition freeSockets (a : cpuAccumulator) : list Z :=
  ToSlice (Filter (Sockets (details a)) (isSocketFree a)).

(** The comparison of [freeCores], on socket identifiers. *)
Definition freeCores_less (a : cpuAccumulator) (i j : Z) : bool :=
  let iCores := Filter (CoresInSocket (details a) i) (isCoreFree a) in
  let jCores := Filter (CoresInSocket (details a) j) (isCoreFree a) in
  (Size iCores <? Size jCores) || (i <? j).

(** The socket of a core: that of the first of its CPUs. *)
Definition socketOfCore (a : cpuAccumulator) (core : Z) : Z :=
  match ToSlice (CPUsInCore (Details (topo a)) core) with
  | cpu :: _ => from_option SocketID 0 (Details (topo a) !! cpu)
  | [] => 0
  end.

(** The comparison of [freeCPUs], on core identifiers. *)
Definition freeCPUs_less (a : cpuAccumulator) (iCore jCore : Z) : bool :=
  let iSocket := socketOfCore a iCore in
  let jSocket := socketOfCore a jCore in
  let iSocketColoScore :=
    Size (Intersection (CPUsInSocket (Details (topo a)) iSocket) (result_ a)) in
  let jSocketColoScore :=
    Size (Intersection (CPUsInSocket (Details (topo a)) jSocket) (result_ a)) in
  let iSocketFreeScore := Size (CPUsInSocket (details a) iSocket) in
  let jSocketFreeScore := Size (CPUsInSocket (details a) jSocket) in
  let iCoreFreeScore := Size (CPUsInCore (details a) iCore) in
  let jCoreFreeScore := Size (CPUsInCore (details a) jCore) in
  (jSocketColoScore <? iSocketColoScore) || (iSocketFreeScore <? jSocketFreeScore) ||
  (iCoreFreeScore <? jCoreFreeScore) || (iSocket <? jSocket) || (iCore <? jCore).

Definition needs (a : cpuAccumulator) (n : Z) : bool := n <=? numCPUsNeeded a.
Definition isSatisfied (a : cpuAccumulator) : bool := numCPUsNeeded a <? 1.
Definition isFailed (a : cpuAccumulator) : bool := Size (CPUs (details a)) <? numCPUsNeeded a.

Section assignment.
Context `{SortSlice}.

Definition freeCores (a : cpuAccumulator) : list Z :=
  let socketIDs := sort_Slice (freeCores_less a) (ToSlice (Sockets (details a))) in
  flat_map (λ s, ToSlice (Filter (CoresInSocket (details a) s) (isCoreFree a))) socketIDs.

Definition freeCPUs (a : cpuAccumulator) : list Z :=
  let cores := sort_Slice (freeCPUs_less a) (ToSlice (Cores (details a))) in
  flat_map (λ core, ToSlice (CPUsInCore (details a) core)) cores.

(** The three loops. A loop returns the accumulator and whether the function has
    returned from inside it. *)
Fixpoint takeSockets (sockets : list Z) (acc : cpuAccumulator) : cpuAccumulator * bool :=
  match sockets with
  | [] => (acc, false)
  | s :: sockets =>
      if needs acc (CPUsPerSocket (topo acc)) then
        let acc := take acc (CPUsInSocket (details acc) s) in
        if isSatisfied acc then (acc, true) else takeSockets sockets acc
      else takeSockets sockets acc
  end.

Fixpoint takeCores (cores : list Z) (acc : cpuAccumulator) : cpuAccumulator * bool :=
  match cores with
  | [] => (acc, false)
  | c :: cores =>
      if needs acc (CPUsPerCore (topo acc)) then
        let acc := take acc (CPUsInCore (details acc) c) in
        if isSatisfied acc then (acc, true) else takeCores cores acc
      else takeCores cores acc
  end.

Fixpoint takeCPUs (cpus : list Z) (acc : cpuAccumulator) : cpuAccumulator * bool :=
  match cpus with
  | [] => (acc, false)
  | c :: cpus =>
      let acc := if needs acc 1 then take acc (NewCPUSet [c]) else acc in
      if isSatisfied acc then (acc, true) else takeCPUs cpus acc
  end.

Inductive AssignError : Type :=
  | NotEnoughCpus
  | FailedToAllocate.

Definition takeByTopology (topo : CPUTopology) (availableCPUs : CPUSet) (numCPUs : Z) :
    result AssignError CPUSet :=
  let acc := newCPUAccumulator topo availableCPUs numCPUs in
  if isSatisfied acc then Ok (result_ acc)
  else if isFailed acc then Err NotEnoughCpus
  else
    let '(acc, returned) := takeSockets (freeSockets acc) acc in
    if returned : bool then Ok (result_ acc)
    else
      let '(acc, returned) := takeCores (freeCores acc) acc in
      if returned : bool then Ok (result_ acc)
      else
        let '(acc, returned) := takeCPUs (freeCPUs acc) acc in
        if returned : bool then Ok (result_ acc) else Err FailedToAllocate.
End assignment.

(** ** Lemmas *)

Lemma insert_left_perm less x sorted : insert_left less x sorted ≡ₚ x :: sorted.
Proof.
  induction sorted as [|y sorted IH]; simpl; [done|].
  destruct (less x y); [|done]. rewrite IH. apply Permutation_swap.
Qed.

Lemma insertionSort_perm less l : insertionSort less l ≡ₚ l.
Proof.
  unfold insertionSort. rewrite <- Permutation_rev.
  assert (∀ s, fold_left (λ sorted x, insert_left less x sorted) l s ≡ₚ s ++ l) as Hf.
  { induction l as [|x l IH]; intros s; simpl; [by rewrite app_nil_r|].
    rewrite IH, insert_left_perm. by rewrite <- Permutation_middle. }
  by rewrite Hf.
Qed.

Definition InsertionSort : SortSlice := {|
  sort_Slice := insertionSort;
  sort_Slice_perm := insertionSort_perm;
|}.

Lemma Size_subseteq (s t : CPUSet) : s ⊆ t → Size s ≤ Size t.
Proof. intros Hs. unfold Size. apply inj_le, subseteq_size, Hs. Qed.

Lemma Size_union (s t : CPUSet) : s ## t → Size (s ∪ t) = Size s + Size t.
Proof. intros Hd. unfold Size. rewrite size_union by done. lia. Qed.

(** What the accumulator keeps: [A] is the set of CPUs it started from and [n] the
    number of CPUs asked for. *)
Record acc_inv (A : CPUSet) (n : Z) (a : cpuAccumulator) : Prop := {
  inv_split : result_ a ∪ CPUs (details a) = A;
  inv_disjoint : result_ a ## CPUs (details a);
  inv_count : Size (result_ a) + numCPUsNeeded a = n;
  inv_nonneg : 0 ≤ numCPUsNeeded a;
  inv_enough : n ≤ Size A;
}.

Lemma take_details (a : cpuAccumulator) cpus k v :
  details (take a cpus) !! k = Some v ↔
    details a !! k = Some v ∧ k ∉ result_ a ∧ k ∉ cpus.
Proof.
  unfold take. cbn [details]. rewrite lookup_KeepOnly, Difference_spec.
  unfold Union. rewrite elem_of_difference, elem_of_CPUs, elem_of_union. unfold is_Some.
  naive_solver.
Qed.

Lemma take_inv A n a cpus :
  acc_inv A n a → cpus ⊆ CPUs (details a) → Size cpus ≤ numCPUsNeeded a →
  acc_inv A n (take a cpus).
Proof.
  intros [Hs Hd Hc Hn He] Hsub Hsz.
  assert (CPUs (details (take a cpus)) = CPUs (details a) ∖ cpus) as Hcpus.
  { apply set_eq. intros k. rewrite elem_of_difference, !elem_of_CPUs. unfold is_Some.
    setoid_rewrite take_details. split.
    - intros (v & Hk & Hr & Hx). eauto.
    - intros [[v Hk] Hx]. exists v. split_and!; [done| |done]. intros Hr.
      apply (Hd k Hr), elem_of_CPUs. eauto. }
  split; try rewrite Hcpus; unfold take, Union; cbn [result_ numCPUsNeeded].
  - rewrite <- Hs. apply set_eq. intros k. destruct (decide (k ∈ cpus)); set_solver.
  - set_solver.
  - rewrite Size_union; [lia|]. set_solver.
  - lia.
  - done.
Qed.

Lemma take_shrinks a cpus : details (take a cpus) ⊆ details a.
Proof. apply map_subseteq_spec. intros k v. rewrite take_details. naive_solver. Qed.

Lemma CPUsInSocket_mono d d' s : d ⊆ d' → CPUsInSocket d s ⊆ CPUsInSocket d' s.
Proof.
  intros Hd k. rewrite !elem_of_CPUsInSocket. intros (v & Hk & Hv). exists v.
  split; [by eapply lookup_weaken|done].
Qed.

Lemma CPUsInCore_mono d d' c : d ⊆ d' → CPUsInCore d c ⊆ CPUsInCore d' c.
Proof.
  intros Hd k. rewrite !elem_of_CPUsInCore. intros (v & Hk & Hv). exists v.
  split; [by eapply lookup_weaken|done].
Qed.

Lemma CPUsInSocket_CPUs d s : CPUsInSocket d s ⊆ CPUs d.
Proof. intros k. rewrite elem_of_CPUsInSocket, elem_of_CPUs. unfold is_Some. naive_solver. Qed.

Lemma CPUsInCore_CPUs d c : CPUsInCore d c ⊆ CPUs d.
Proof. intros k. rewrite elem_of_CPUsInCore, elem_of_CPUs. unfold is_Some. naive_solver. Qed.

(** What a loop leaves: the invariant, and an unsatisfied request unless it
    returned. *)
Definition loop_post (A : CPUSet) (n : Z) (out : cpuAccumulator * bool) : Prop :=
  acc_inv A n out.1 ∧ isSatisfied out.1 = out.2.

Lemma takeSockets_inv A n sockets a :
  acc_inv A n a → isSatisfied a = false →
  (∀ s, s ∈ sockets → Size (CPUsInSocket (details a) s) ≤ CPUsPerSocket (topo a)) →
  loop_post A n (takeSockets sockets a).
Proof.
  revert a. induction sockets as [|s sockets IH]; intros a Hi Hns Hsz; cbn [takeSockets]; [done|].
  destruct (needs a (CPUsPerSocket (topo a))) eqn:En.
  - unfold needs in En. to_prop. pose proof (Hsz s ltac:(left)).
    assert (acc_inv A n (take a (CPUsInSocket (details a) s))) as Hi'.
    { apply take_inv; [done|apply CPUsInSocket_CPUs|lia]. }
    destruct (isSatisfied (take _ _)) eqn:Es; [done|].
    apply IH; [done..|]. intros s' Hs'. etransitivity; [|apply (Hsz s'); by right].
    apply Size_subseteq, CPUsInSocket_mono, take_shrinks.
  - apply IH; [done..|]. intros s' Hs'. apply Hsz. by right.
Qed.

Lemma takeCores_inv A n cores a :
  acc_inv A n a → isSatisfied a = false →
  (∀ c, c ∈ cores → Size (CPUsInCore (details a) c) ≤ CPUsPerCore (topo a)) →
  loop_post A n (takeCores cores a).
Proof.
  revert a. induction cores as [|c cores IH]; intros a Hi Hns Hsz; cbn [takeCores]; [done|].
  destruct (needs a (CPUsPerCore (topo a))) eqn:En.
  - unfold needs in En. to_prop. pose proof (Hsz c ltac:(left)).
    assert (acc_inv A n (take a (CPUsInCore (details a) c))) as Hi'.
    { apply take_inv; [done|apply CPUsInCore_CPUs|lia]. }
    destruct (isSatisfied (take _ _)) eqn:Es; [done|].
    apply IH; [done..|]. intros c' Hc'. etransitivity; [|apply (Hsz c'); by right].
    apply Size_subseteq, CPUsInCore_mono, take_shrinks.
  - apply IH; [done..|]. intros c' Hc'. apply Hsz. by right.
Qed.

Lemma CPUs_take_one a c k :
  c ∈ CPUs (details a) → result_ a ## CPUs (details a) →
  k ∈ CPUs (details (take a (NewCPUSet [c]))) ↔ k ∈ CPUs (details a) ∧ k ≠ c.
Proof.
  intros Hc Hd. rewrite !elem_of_CPUs. unfold is_Some. setoid_rewrite take_details.
  setoid_rewrite elem_of_NewCPUSet. setoid_rewrite list_elem_of_singleton. split.
  - naive_solver.
  - intros [[v Hk] Hne]. exists v. split_and!; [done| |done]. intros Hr.
    apply (Hd k Hr), elem_of_CPUs. eauto.
Qed.

Lemma Size_single c : Size (NewCPUSet [c]) = 1.
Proof.
  assert (NewCPUSet [c] = {[c]}) as ->.
  { apply set_eq. intros k. rewrite elem_of_NewCPUSet. set_solver. }
  unfold Size. by rewrite size_singleton.
Qed.

(** The last loop always returns from inside. *)
Lemma takeCPUs_inv A n cpus a :
  acc_inv A n a → isSatisfied a = false → NoDup cpus →
  (∀ c, c ∈ cpus ↔ c ∈ CPUs (details a)) →
  acc_inv A n (takeCPUs cpus a).1 ∧ isSatisfied (takeCPUs cpus a).1 = true ∧
  (takeCPUs cpus a).2 = true.
Proof.
  revert a. induction cpus as [|c cpus IH]; intros a Hi Hns Hnd Hel; cbn [takeCPUs].
  - exfalso. destruct Hi as [Hs Hd Hc Hn He]. unfold isSatisfied in Hns. to_prop.
    assert (CPUs (details a) = ∅) as Hem by (apply set_eq; intros k; rewrite <- Hel; set_solver).
    rewrite Hem, (right_id_L ∅ (∪)) in Hs. subst A. lia.
  - assert (needs a 1 = true) as Hneed.
    { unfold needs, isSatisfied in *. to_prop. apply Z.leb_le. lia. }
    rewrite Hneed. apply NoDup_cons in Hnd as [Hnc Hnd].
    assert (c ∈ CPUs (details a)) as Hc by (apply Hel; left).
    assert (acc_inv A n (take a (NewCPUSet [c]))) as Hi'.
    { apply take_inv; [done| |].
      - intros k. rewrite elem_of_NewCPUSet, list_elem_of_singleton. by intros ->.
      - unfold needs in Hneed. to_prop. by rewrite Size_single. }
    destruct (isSatisfied (take _ _)) eqn:Es; [done|].
    apply IH; [done..|]. intros k. rewrite CPUs_take_one by (apply Hi || done).
    rewrite <- Hel, elem_of_cons. split; [|naive_solver].
    intros Hk. split; [by right|]. by intros ->.
Qed.

Section correctness.
Context `{SortSlice}.

Lemma elem_of_freeSockets a s : s ∈ freeSockets a → isSocketFree a s = true.
Proof. unfold freeSockets. rewrite elem_of_ToSlice, elem_of_Filter. naive_solver. Qed.

Lemma elem_of_freeCores a c : c ∈ freeCores a → isCoreFree a c = true.
Proof.
  unfold freeCores. rewrite elem_of_flat_map. intros (s & _ & Hc).
  rewrite elem_of_ToSlice, elem_of_Filter in Hc. naive_solver.
Qed.

Lemma elem_of_freeCPUs a c : c ∈ freeCPUs a ↔ c ∈ CPUs (details a).
Proof.
  unfold freeCPUs. rewrite elem_of_flat_map, elem_of_CPUs.
  setoid_rewrite elem_of_ToSlice. setoid_rewrite sort_Slice_perm.
  setoid_rewrite elem_of_ToSlice. setoid_rewrite elem_of_Cores.
  setoid_rewrite elem_of_CPUsInCore. unfold is_Some. naive_solver.
Qed.

Lemma NoDup_flat_map {A B} (f : A → list B) (l : list A) :
  NoDup l → (∀ x, x ∈ l → NoDup (f x)) →
  (∀ x y z, x ∈ l → y ∈ l → z ∈ f x → z ∈ f y → x = y) → NoDup (flat_map f l).
Proof.
  induction l as [|x l IH]; intros Hl Hf Hd; simpl; [apply NoDup_nil_2|].
  apply NoDup_cons in Hl as [Hx Hl]. apply NoDup_app. split_and!.
  - apply Hf. left.
  - intros z Hz (y & Hy & Hz')%elem_of_flat_map. apply Hx.
    by rewrite (Hd x y z ltac:(left) ltac:(by right) Hz Hz').
  - apply IH; [done|..].
    + intros y Hy. apply Hf. by right.
    + intros y y' z Hy Hy'. apply Hd; by right.
Qed.

Lemma NoDup_freeCPUs a : NoDup (freeCPUs a).
Proof.
  unfold freeCPUs. apply NoDup_flat_map.
  - rewrite sort_Slice_perm. apply ToSlice_NoDup.
  - intros c _. apply ToSlice_NoDup.
  - intros c c' k _ _. rewrite !elem_of_ToSlice, !elem_of_CPUsInCore.
    intros (v & Hk & <-) (v' & Hk' & <-). congruence.
Qed.

Lemma new_acc_inv tp A n :
  isFailed (newCPUAccumulator tp A n) = false → 0 ≤ n →
  acc_inv (CPUs (Details tp) ∩ A) n (newCPUAccumulator tp A n).
Proof.
  intros Hf Hn. unfold newCPUAccumulator, isFailed in *. cbn [details numCPUsNeeded] in *.
  rewrite CPUs_KeepOnly in Hf. to_prop.
  split; cbn [details numCPUsNeeded result_]; rewrite ?CPUs_KeepOnly;
    change (NewCPUSet []) with (∅ : CPUSet); [set_solver..|done|done|done].
Qed.

Lemma acc_inv_result A n a :
  acc_inv A n a → isSatisfied a = true → result_ a ⊆ A ∧ Size (result_ a) = n.
Proof.
  intros [Hs Hd Hc Hn He] Hsat. unfold isSatisfied in Hsat. to_prop.
  split; [set_solver|lia].
Qed.

Lemma takeByTopology_lemma (tp : CPUTopology) (A : CPUSet) (n : Z) :
  match takeByTopology tp A n with
  | Ok cpus => cpus ⊆ CPUs (Details tp) ∩ A ∧ Size cpus = Z.max 0 n
  | Err e => e = NotEnoughCpus ∧ Size (CPUs (Details tp) ∩ A) < n
  end.
Proof.
  unfold takeByTopology. set (a0 := newCPUAccumulator tp A n).
  destruct (isSatisfied a0) eqn:E0.
  { unfold isSatisfied in E0. to_prop. unfold a0 in *. cbn in E0 |- *.
    split; [apply empty_subseteq|]. change (Size ∅ = Z.max 0 n). unfold Size.
    rewrite size_empty. lia. }
  destruct (isFailed a0) eqn:Ef.
  { unfold isFailed in Ef. to_prop. unfold a0, newCPUAccumulator in Ef. cbn [details numCPUsNeeded] in Ef.
    rewrite CPUs_KeepOnly in Ef. done. }
  assert (0 < n) as Hn by (unfold isSatisfied, a0 in E0; cbn in E0; to_prop; lia).
  pose proof (new_acc_inv tp A n Ef ltac:(lia)) as Hi0.
  replace (Z.max 0 n) with n by lia.
  pose proof (takeSockets_inv _ _ (freeSockets a0) a0 Hi0 E0) as H1.
  destruct (takeSockets (freeSockets a0) a0) as [a1 []].
  { destruct H1 as [Hi1 Hs1]; [|by apply acc_inv_result].
    intros s Hs. apply elem_of_freeSockets in Hs. unfold isSocketFree in Hs. to_prop. lia. }
  destruct H1 as [Hi1 Hs1].
  { intros s Hs. apply elem_of_freeSockets in Hs. unfold isSocketFree in Hs. to_prop. lia. }
  pose proof (takeCores_inv _ _ (freeCores a1) a1 Hi1 Hs1) as H2.
  destruct (takeCores (freeCores a1) a1) as [a2 []].
  { destruct H2 as [Hi2 Hs2]; [|by apply acc_inv_result].
    intros s Hs. apply elem_of_freeCores in Hs. unfold isCoreFree in Hs. to_prop. lia. }
  destruct H2 as [Hi2 Hs2].
  { intros s Hs. apply elem_of_freeCores in Hs. unfold isCoreFree in Hs. to_prop. lia. }
  destruct (takeCPUs_inv _ _ (freeCPUs a2) a2 Hi2 Hs2 (NoDup_freeCPUs a2)
    (elem_of_freeCPUs a2)) as (Hi3 & Hs3 & Hr).
  destruct (takeCPUs (freeCPUs a2) a2) as [a3 r]. cbn in Hi3, Hs3, Hr. subst r.
  by apply acc_inv_result.
Qed.

(** *** Whole sockets *)

Lemma take_other_socket a s s' :
  result_ a ## CPUs (details a) → s ≠ s' →
  CPUsInSocket (details (take a (CPUsInSocket (details a) s))) s' =
  CPUsInSocket (details a) s'.
Proof.
  intros Hd Hne. apply set_eq. intros k. rewrite !elem_of_CPUsInSocket.
  setoid_rewrite take_details. setoid_rewrite elem_of_CPUsInSocket. split; [naive_solver|].
  intros (v & Hk & Hv). exists v. split_and!; [done| | |done].
  - intros Hr. apply (Hd k Hr), elem_of_CPUs. eauto.
  - intros (v' & Hk' & Hv'). congruence.
Qed.

(** The union of the first [k] sockets of a list. *)
Definition whole_sockets (d : CPUDetails) (sockets : list Z) : CPUSet :=
  ⋃ (map (CPUsInSocket d) sockets).

Lemma whole_sockets_size d per sockets :
  NoDup sockets → (∀ s, s ∈ sockets → Size (CPUsInSocket d s) = per) →
  Size (whole_sockets d sockets) = Z.of_nat (length sockets) * per.
Proof.
  induction sockets as [|s sockets IH]; intros Hnd Hs; [done|].
  apply NoDup_cons in Hnd as [Hn Hnd].
  change (whole_sockets d (s :: sockets)) with (CPUsInSocket d s ∪ whole_sockets d sockets).
  rewrite Size_union.
  - rewrite IH, (Hs s ltac:(left)) by (done || intros s' Hs'; apply Hs; by right).
    simpl length. lia.
  - intros k (v & Hk & Hv)%elem_of_CPUsInSocket Hk2. unfold whole_sockets in Hk2.
    apply elem_of_union_list in Hk2 as (X & HX & HkX).
    apply list_elem_of_fmap in HX as (s' & -> & Hs').
    apply elem_of_CPUsInSocket in HkX as (v' & Hk' & Hv'). congruence.
Qed.

Lemma sockets_fit d per sockets k :
  NoDup sockets → (∀ s, s ∈ sockets → Size (CPUsInSocket d s) = per) →
  (k ≤ length sockets)%nat → 0 ≤ per → Z.of_nat k * per ≤ Size (CPUs d).
Proof.
  intros Hnd Hs Hk Hper. transitivity (Size (whole_sockets d sockets)).
  - rewrite (whole_sockets_size d per) by done. nia.
  - apply Size_subseteq. intros x Hx. unfold whole_sockets in Hx.
    apply elem_of_union_list in Hx as (X & HX & HkX).
    apply list_elem_of_fmap in HX as (s & -> & _). by eapply CPUsInSocket_CPUs.
Qed.

Lemma takeSockets_exact A n k sockets a :
  acc_inv A n a → NoDup sockets → 0 < CPUsPerSocket (topo a) →
  (∀ s, s ∈ sockets → Size (CPUsInSocket (details a) s) = CPUsPerSocket (topo a)) →
  (0 < k ≤ length sockets)%nat → numCPUsNeeded a = Z.of_nat k * CPUsPerSocket (topo a) →
  ∃ a', takeSockets sockets a = (a', true) ∧
    result_ a' = result_ a ∪ whole_sockets (details a) (firstn k sockets).
Proof.
  revert k a. induction sockets as [|s sockets IH]; intros k a Hi Hnd Hper Hsz Hk Hneed;
    [simpl in Hk; lia|].
  destruct k as [|k]; [lia|]. cbn [takeSockets firstn].
  apply NoDup_cons in Hnd as [Hs Hnd].
  assert (needs a (CPUsPerSocket (topo a)) = true) as -> by (apply Z.leb_le; lia).
  pose proof (Hsz s ltac:(left)) as Hss.
  set (a1 := take a (CPUsInSocket (details a) s)).
  assert (acc_inv A n a1) as Hi1.
  { apply take_inv; [done|apply CPUsInSocket_CPUs|lia]. }
  assert (∀ s', s' ∈ sockets → CPUsInSocket (details a1) s' = CPUsInSocket (details a) s') as Hoth.
  { intros s' Hs'. apply take_other_socket; [apply Hi|]. by intros ->. }
  assert (numCPUsNeeded a1 = Z.of_nat k * CPUsPerSocket (topo a)) as Hn1
    by (unfold a1, take; cbn [numCPUsNeeded]; lia).
  destruct k as [|k].
  - assert (isSatisfied a1 = true) as -> by (apply Z.ltb_lt; lia).
    exists a1. split; [done|]. unfold whole_sockets. simpl. unfold Union.
    by rewrite (right_id_L ∅ (∪)).
  - assert (isSatisfied a1 = false) as -> by (apply Z.ltb_ge; nia).
    destruct (IH (S k) a1) as (a' & -> & Hr); [done|done|done| | |done|].
    { intros s' Hs'. rewrite Hoth by done. apply Hsz. by right. }
    { simpl in Hk. lia. }
    exists a'. split; [done|]. rewrite Hr. unfold whole_sockets.
    assert (map (CPUsInSocket (details a1)) (firstn (S k) sockets) =
            map (CPUsInSocket (details a)) (firstn (S k) sockets)) as ->.
    { apply map_ext_in. intros s' Hs'. apply Hoth. apply list_elem_of_In in Hs'.
      by eapply elem_of_take in Hs' as (i & Hi' & _); eapply list_elem_of_lookup_2. }
    unfold a1, take, Union. cbn [result_]. exact (eq_sym (assoc_L (∪) _ _ _)).
Qed.
End correctness.

(** ** Correctness *)

(** C13: [takeByTopology] is total and exact, for every topology and every result
    of [sort.Slice]: it returns as many CPUs as asked for (none for a request
    below one), all of them available and known to the topology, unless fewer
    are available, which is the one case in which it fails. Its last error,
    failed to allocate cpus, never occurs. *)
Theorem takeByTopology_exact `{SortSlice} (tp : CPUTopology) (A : CPUSet) (n : Z) :
  match takeByTopology tp A n with
  | Ok cpus => cpus ⊆ CPUs (Details tp) ∩ A ∧ Size cpus = Z.max 0 n
  | Err e => e = NotEnoughCpus ∧ Size (CPUs (Details tp) ∩ A) < n
  end.
Proof. apply takeByTopology_lemma. Qed.

(** A request for the CPUs of [k] sockets, when at least [k] sockets are
    wholly available, is served by exactly the [k] lowest-numbered of them. *)
Theorem takeByTopology_whole_sockets `{SortSlice} (tp : CPUTopology) (A : CPUSet) (k : nat) :
  let a := newCPUAccumulator tp A (Z.of_nat k * CPUsPerSocket tp) in
  0 < CPUsPerSocket tp → (0 < k ≤ length (freeSockets a))%nat →
  takeByTopology tp A (Z.of_nat k * CPUsPerSocket tp) =
    Ok (whole_sockets (KeepOnly (Details tp) A) (firstn k (freeSockets a))).
Proof.
  intros a Hper Hk. unfold takeByTopology. fold a.
  assert (isSatisfied a = false) as Hsat by (apply Z.ltb_ge; unfold a; cbn; nia).
  assert (∀ s, s ∈ freeSockets a → Size (CPUsInSocket (details a) s) = CPUsPerSocket (topo a))
    as Hfree.
  { intros s Hs. apply elem_of_freeSockets in Hs. by apply Z.eqb_eq. }
  assert (isFailed a = false) as Hf.
  { apply Z.ltb_ge. change (numCPUsNeeded a) with (Z.of_nat k * CPUsPerSocket (topo a)).
    apply (sockets_fit _ _ (freeSockets a)); [apply ToSlice_NoDup|done|lia|].
    change (topo a) with tp. lia. }
  rewrite Hsat, Hf.
  destruct (takeSockets_exact _ _ k (freeSockets a) a
    (new_acc_inv tp A _ Hf ltac:(nia))) as (a' & -> & Hr); [|done|done|done|done|].
  { apply ToSlice_NoDup. }
  f_equal. rewrite Hr. apply (left_id_L ∅ (∪)).
Qed.

(** Two sockets of three hyper-threaded cores: core [c] has the CPUs [c] and
    [c + 6], and the cores 0 to 2 are on socket 0. *)
Definition ex_topo : CPUTopology :=
  mkTopology 12 6 2
    (list_to_map (map (λ cpu, (cpu, mkCPUInfo (if cpu `mod` 6 <? 3 then 0 else 1) (cpu `mod` 6)))
       (seqZ 0 12))).

(** Single CPUs are not picked by socket affinity first, as the comment on
    [freeCPUs] has it: with CPUs 0, 6, 1, 2 free on socket 0 and CPU 3 free on
    socket 1, a request for three CPUs takes the core of CPUs 0 and 6 and then
    CPU 3 of the other socket, although CPUs 1 and 2 are on the socket of the core
    taken. The comparison is a disjunction of the criteria, under which the cores
    1 and 3 each come before the other. *)
Theorem takeByTopology_crosses_sockets :
  let A := NewCPUSet [0; 6; 1; 2; 3] in
  let a := take (newCPUAccumulator ex_topo A 3) (NewCPUSet [0; 6]) in
  (@takeByTopology InsertionSort ex_topo A 3) = Ok (NewCPUSet [0; 3; 6]) ∧
  freeCPUs_less a 1 3 = true ∧ freeCPUs_less a 3 1 = true.
Proof. vm_compute. auto. Qed.

(** ** Witnesses *)

Lemma takeByTopology_whole_sockets_witness :
  let A := CPUs (Details ex_topo) in
  (@takeByTopology InsertionSort ex_topo A (Z.of_nat 1 * CPUsPerSocket ex_topo)) =
    Ok (NewCPUSet [0; 1; 2; 6; 7; 8]).
Proof.
  intros A.
  rewrite (@takeByTopology_whole_sockets InsertionSort ex_topo A 1);
    [vm_compute; reflexivity|vm_compute; reflexivity|vm_compute; lia].
Defined.
