(* ===== verification/PodQos.v ===== *)
(** * Pod quality of service

    [pkg/apis/core/v1/helper/qos/qos.go]: [GetPodQOS], with the part of the pod it
    reads. A [resource.Quantity] is its value in units of [10^-9], the smallest a
    quantity keeps, as an unbounded integer: the fall-back of the Go type to
    arbitrary precision makes its additions and comparisons exact. *)

From S2P Require Import Prelude.

Notation Quantity := Z.
Notation ResourceList := (gmap string Quantity).

(** [Value] and [MilliValue]: rounded up. *)
Definition Value (q : Quantity) : Z := - ((- q) / 10 ^ 9).
Definition MilliValue (q : Quantity) : Z := - ((- q) / 10 ^ 6).

Definition ResourceCPU : string := "cpu".
Definition ResourceMemory : string := "memory".

Record Container : Type := mkContainer {
  ContainerName : string;
  Requests : ResourceList;
  Limits : ResourceList;
}.

Record Pod : Type := mkPod {
  PodName : string;
  PodUID : string;
  InitContainers : list Container;
  Containers : list Container;
  DeletionTimestamp : option Z;
}.

Inductive PodQOSClass : Type :=
  | PodQOSGuaranteed
  | PodQOSBurstable
  | PodQOSBestEffort.

#[global] Instance PodQOSClass_eq_dec : EqDecision PodQOSClass.
Proof. solve_decision. Defined.

Definition isSupportedQoSComputeResource (name : string) : bool :=
  bool_decide (name = ResourceCPU) || bool_decide (name = ResourceMemory).

(** The entries of a resource list that the loops of [GetPodQOS] process: supported
    and positive. *)
Definition processed (l : ResourceList) : ResourceList :=
  filter (λ kv, isSupportedQoSComputeResource kv.1 && (0 <? kv.2) = true) l.

(** Adding them to the sums so far. The keys of a map are distinct, so the order
    of the iteration does not matter. *)
Definition addQuantities (sums l : ResourceList) : ResourceList :=
  union_with (λ a b, Some (b + a)) sums (processed l).

(** One turn of the loop over the containers: requests, limits, isGuaranteed. *)
Definition qos_step (acc : ResourceList * ResourceList * bool) (container : Container) :
    ResourceList * ResourceList * bool :=
  let '(requests, limits, isGuaranteed) := acc in
  let qosLimitsFound := dom (processed (Limits container)) in
  (addQuantities requests (Requests container), addQuantities limits (Limits container),
   if bool_decide (ResourceMemory ∈ qosLimitsFound) && bool_decide (ResourceCPU ∈ qosLimitsFound)
   then isGuaranteed else false).

Definition GetPodQOS (pod : Pod) : PodQOSClass :=
  let '(requests, limits, isGuaranteed) :=
    fold_left qos_step (Containers pod) (∅, ∅, true) in
  if bool_decide (size requests = 0%nat) && bool_decide (size limits = 0%nat) then
    PodQOSBestEffort
  else
    let isGuaranteed :=
      isGuaranteed &&
      forallb (λ kv, bool_decide (limits !! kv.1 = Some kv.2)) (map_to_list requests) in
    if isGuaranteed && bool_decide (size requests = size limits) then PodQOSGuaranteed
    else PodQOSBurstable.

(** ** Lemmas *)

(** The quantity of a resource, zero when absent. *)
Definition qty (l : ResourceList) (name : string) : Z := default 0 (l !! name).

(** What the sums add up to: the positive supported quantities. *)
Definition pos_qty (l : ResourceList) (name : string) : Z :=
  if isSupportedQoSComputeResource name then Z.max 0 (qty l name) else 0.

Lemma lookup_processed l name :
  processed l !! name =
    if bool_decide (0 < pos_qty l name) then Some (pos_qty l name) else None.
Proof.
  unfold processed, pos_qty, qty. rewrite map_lookup_filter.
  destruct (l !! name) as [q|] eqn:E; simpl.
  - destruct (isSupportedQoSComputeResource name); simpl; [|done].
    destruct (Z.ltb_spec 0 q); case_guard; try done.
    + rewrite Z.max_r, bool_decide_true by lia. done.
    + rewrite bool_decide_false by lia. done.
  - destruct (isSupportedQoSComputeResource name); done.
Qed.

(** Sums of a resource over containers. *)
Definition total (f : Container → ResourceList) (cs : list Container) (name : string) : Z :=
  foldr (λ c acc, pos_qty (f c) name + acc) 0 cs.

Lemma pos_qty_nonneg l name : 0 ≤ pos_qty l name.
Proof. unfold pos_qty. destruct (isSupportedQoSComputeResource name); lia. Qed.

Lemma total_nonneg f cs name : 0 ≤ total f cs name.
Proof.
  induction cs as [|c cs IH]; simpl; [lia|]. pose proof (pos_qty_nonneg (f c) name). lia.
Qed.

(** The sums so far as a function: absent is zero, present is positive. *)
Definition sums_to (m : ResourceList) (g : string → Z) : Prop :=
  ∀ name, m !! name = if bool_decide (0 < g name) then Some (g name) else None.

Lemma addQuantities_sums m l g :
  sums_to m g → (∀ name, 0 ≤ g name) →
  sums_to (addQuantities m l) (λ name, g name + pos_qty l name).
Proof.
  intros Hm Hg name. unfold addQuantities. rewrite lookup_union_with, Hm, lookup_processed.
  specialize (Hg name). pose proof (pos_qty_nonneg l name).
  repeat case_bool_decide; simpl; try (f_equal; lia); try done; lia.
Qed.

(** A container with a positive CPU and memory limit. *)
Definition limited (c : Container) : bool :=
  bool_decide (0 < pos_qty (Limits c) ResourceMemory) &&
  bool_decide (0 < pos_qty (Limits c) ResourceCPU).

Lemma dom_processed l name : name ∈ dom (processed l) ↔ 0 < pos_qty l name.
Proof.
  rewrite elem_of_dom, lookup_processed. case_bool_decide; split; done || by eauto || by intros [? ?].
Qed.

Lemma qos_loop cs r l g (gr gl : string → Z) :
  sums_to r gr → sums_to l gl → (∀ name, 0 ≤ gr name) → (∀ name, 0 ≤ gl name) →
  ∃ r' l', fold_left qos_step cs (r, l, g) = (r', l', g && forallb limited cs) ∧
    sums_to r' (λ name, gr name + total Requests cs name) ∧
    sums_to l' (λ name, gl name + total Limits cs name).
Proof.
  revert r l g gr gl. induction cs as [|c cs IH]; intros r l g gr gl Hr Hl Hgr Hgl.
  - exists r, l. simpl. rewrite andb_true_r. split_and!; [done|..]; intros name;
      rewrite ?(Hr name), ?(Hl name), Z.add_0_r; done.
  - cbn [fold_left].
    assert (qos_step (r, l, g) c =
      (addQuantities r (Requests c), addQuantities l (Limits c), g && limited c)) as ->.
    { unfold qos_step, limited. f_equal.
      rewrite (bool_decide_ext (ResourceMemory ∈ dom (processed (Limits c)))
          (0 < pos_qty (Limits c) ResourceMemory)) by apply dom_processed.
      rewrite (bool_decide_ext (ResourceCPU ∈ dom (processed (Limits c)))
          (0 < pos_qty (Limits c) ResourceCPU)) by apply dom_processed.
      destruct (_ && _), g; done. }
    destruct (IH _ _ (g && limited c) _ _ (addQuantities_sums r (Requests c) gr Hr Hgr)
      (addQuantities_sums l (Limits c) gl Hl Hgl)) as (r' & l' & -> & Hr' & Hl').
    { intros name. pose proof (pos_qty_nonneg (Requests c) name). specialize (Hgr name). lia. }
    { intros name. pose proof (pos_qty_nonneg (Limits c) name). specialize (Hgl name). lia. }
    exists r', l'. cbn [forallb total foldr]. rewrite andb_assoc. split_and!; [done|..];
      intros name; rewrite ?(Hr' name), ?(Hl' name); unfold total; simpl;
      by rewrite Z.add_assoc.
Qed.

Lemma sums_to_eq m m' g g' :
  sums_to m g → sums_to m' g' → (∀ name, 0 ≤ g name) → (∀ name, 0 ≤ g' name) →
  m = m' ↔ ∀ name, g name = g' name.
Proof.
  intros Hm Hm' Hg Hg'. split.
  - intros -> name. specialize (Hm name). specialize (Hm' name). specialize (Hg name).
    specialize (Hg' name). rewrite Hm in Hm'. repeat case_bool_decide; simplify_eq; lia.
  - intros Heq. apply map_eq. intros name. by rewrite Hm, Hm', Heq.
Qed.

Lemma submap_same_size (m m' : ResourceList) : m ⊆ m' → size m = size m' → m = m'.
Proof.
  intros Hs Hz. destruct (decide (m = m')); [done|].
  assert (m ⊂ m') as Hlt%map_subset_size.
  { split; [done|]. intros Hs'. by destruct (map_subseteq_po.(partial_order_anti_symm) m m'). }
  lia.
Qed.

(** Sums of pointwise ordered lists that are equal are pointwise equal. *)
Lemma total_eq cs name :
  (∀ c, c ∈ cs → pos_qty (Requests c) name ≤ pos_qty (Limits c) name) →
  total Requests cs name ≤ total Limits cs name ∧
  (total Requests cs name = total Limits cs name ↔
   ∀ c, c ∈ cs → pos_qty (Requests c) name = pos_qty (Limits c) name).
Proof.
  induction cs as [|c cs IH]; intros Hle; simpl.
  { split; [lia|]. split; [|done]. by intros _ c ?%not_elem_of_nil. }
  destruct IH as [IH1 IH2]; [intros; apply Hle; by right|].
  pose proof (Hle c ltac:(left)) as Hc. split; [lia|]. split.
  - intros Heq c' [-> |Hc']%elem_of_cons; [lia|]. apply IH2; [lia|done].
  - intros Hall. rewrite (Hall c) by left. f_equal. apply IH2.
    intros c' Hc'. apply Hall. by right.
Qed.

(** What API validation checks of a container: no negative request, and no request
    above its limit. *)
Definition valid_resources (c : Container) : Prop :=
  ∀ name, name ∈ [ResourceCPU; ResourceMemory] →
    0 ≤ qty (Requests c) name ≤ qty (Limits c) name.

(** A container whose CPU and memory requests are its positive limits. *)
Definition fully_limited (c : Container) : Prop :=
  ∀ name, name ∈ [ResourceCPU; ResourceMemory] →
    0 < qty (Limits c) name ∧ qty (Requests c) name = qty (Limits c) name.

Lemma supported_names name :
  isSupportedQoSComputeResource name = true ↔ name ∈ [ResourceCPU; ResourceMemory].
Proof.
  unfold isSupportedQoSComputeResource. rewrite orb_true_iff, !bool_decide_eq_true. set_solver.
Qed.

Lemma pos_qty_supported l name :
  name ∈ [ResourceCPU; ResourceMemory] → pos_qty l name = Z.max 0 (qty l name).
Proof. intros Hn. unfold pos_qty. by rewrite (proj2 (supported_names name)). Qed.

Lemma pos_qty_unsupported l name :
  name ∉ [ResourceCPU; ResourceMemory] → pos_qty l name = 0.
Proof.
  intros Hn. unfold pos_qty. destruct (isSupportedQoSComputeResource name) eqn:E; [|done].
  by apply supported_names in E.
Qed.

Lemma valid_pos_qty c name :
  valid_resources c → pos_qty (Requests c) name ≤ pos_qty (Limits c) name.
Proof.
  intros Hv. destruct (decide (name ∈ [ResourceCPU; ResourceMemory])) as [Hn|Hn].
  - rewrite !pos_qty_supported by done. specialize (Hv name Hn). lia.
  - by rewrite !pos_qty_unsupported.
Qed.

Lemma fully_limited_pos c :
  valid_resources c →
  fully_limited c ↔
    limited c = true ∧ ∀ name, pos_qty (Requests c) name = pos_qty (Limits c) name.
Proof.
  intros Hv. unfold limited. rewrite andb_true_iff, !bool_decide_eq_true.
  rewrite !pos_qty_supported by set_solver. split.
  - intros Hf. split.
    + destruct (Hf ResourceMemory), (Hf ResourceCPU); [set_solver..|]. lia.
    + intros name. destruct (decide (name ∈ [ResourceCPU; ResourceMemory])) as [Hn|Hn].
      * rewrite !pos_qty_supported by done. destruct (Hf name Hn). lia.
      * by rewrite !pos_qty_unsupported.
  - intros [[Hm Hc] Heq] name Hn. specialize (Heq name). specialize (Hv name Hn).
    rewrite !pos_qty_supported in Heq by done. split; [|lia].
    apply elem_of_cons in Hn as [-> |Hn%list_elem_of_singleton]; [lia|subst; lia].
Qed.

Lemma sums_equal cs r l :
  (∀ c, c ∈ cs → valid_resources c) →
  sums_to r (λ name, 0 + total Requests cs name) →
  sums_to l (λ name, 0 + total Limits cs name) →
  r = l ↔ ∀ c, c ∈ cs → ∀ name, pos_qty (Requests c) name = pos_qty (Limits c) name.
Proof.
  intros Hv Hr Hl.
  rewrite (sums_to_eq r l _ _ Hr Hl) by (intros name; rewrite Z.add_0_l; apply total_nonneg).
  setoid_rewrite Z.add_0_l.
  pose proof (λ name, total_eq cs name (λ c Hc, valid_pos_qty c name (Hv c Hc))) as Ht.
  split.
  - intros Hall c Hc name. by apply (proj2 (Ht name)).
  - intros Hall name. apply (proj2 (Ht name)). intros c Hc. by apply Hall.
Qed.

Lemma requests_in_limits (r l : ResourceList) :
  forallb (λ kv, bool_decide (l !! kv.1 = Some kv.2)) (map_to_list r) = true ↔ r ⊆ l.
Proof.
  rewrite forallb_elem, map_subseteq_spec. split.
  - intros H k v Hk. apply (bool_decide_eq_true (l !! k = Some v)), (H (k, v)),
      elem_of_map_to_list, Hk.
  - intros H [k v] Hkv%elem_of_map_to_list. apply bool_decide_eq_true. auto.
Qed.

(** A container with limits leaves a non-empty sum of limits. *)
Lemma limited_sum cs l :
  forallb limited cs = true → sums_to l (λ name, 0 + total Limits cs name) →
  size l = 0%nat ↔ cs = [].
Proof.
  intros Hlim Hl. rewrite map_size_empty_iff. split.
  - intros ->. destruct cs as [|c cs]; [done|]. exfalso.
    specialize (Hl ResourceCPU). simpl in Hl, Hlim. unfold limited in Hlim. to_prop.
    pose proof (total_nonneg Limits cs ResourceCPU).
    rewrite bool_decide_true in Hl by lia. done.
  - intros ->. apply map_eq. intros name. by rewrite (Hl name).
Qed.

(** On pods that pass validation the class is Guaranteed exactly when the pod
    has containers and each of them has positive CPU and memory limits equal to
    its requests; that the code compares sums over the containers does not
    matter. *)
Theorem GetPodQOS_guaranteed (pod : Pod) :
  (∀ c, c ∈ Containers pod → valid_resources c) →
  GetPodQOS pod = PodQOSGuaranteed ↔
    Containers pod ≠ [] ∧ ∀ c, c ∈ Containers pod → fully_limited c.
Proof.
  intros Hv. unfold GetPodQOS.
  destruct (qos_loop (Containers pod) ∅ ∅ true (λ _, 0) (λ _, 0))
    as (r & l & -> & Hr & Hl); [done..|].
  pose proof (sums_equal _ r l Hv Hr Hl) as Heq. cbn [andb].
  transitivity (Containers pod ≠ [] ∧ forallb limited (Containers pod) = true ∧ r = l).
  - destruct (forallb limited (Containers pod)) eqn:Hlim;
      [|destruct (_ && _); split; naive_solver].
    pose proof (limited_sum _ l Hlim Hl) as Hne.
    destruct (forallb _ (map_to_list r)) eqn:Hs.
    + apply requests_in_limits in Hs. cbn [andb].
      destruct (decide (size r = size l)) as [Hz|Hz].
      * rewrite (submap_same_size r l) by done. rewrite (bool_decide_true (size l = size l)) by done.
        destruct (bool_decide_reflect (size l = 0%nat)); naive_solver.
      * rewrite (bool_decide_false (size r = size l)) by done.
        destruct (_ && _); split; naive_solver.
    + cbn [andb]. assert (r ≠ l).
      { intros ->. apply not_true_iff_false in Hs. apply Hs. by apply requests_in_limits. }
      destruct (_ && _); split; naive_solver.
  - rewrite Heq, forallb_elem. split; intros [Hne H]; (split; [done|]).
    + intros c Hc. apply fully_limited_pos; [auto|]. destruct H. auto.
    + split; intros c Hc; [|intros name]; by apply fully_limited_pos; auto.
Qed.

(** ** Witnesses *)

Definition ex_container (cpu mem : Z) : Container :=
  let l := <["cpu" := cpu * 10 ^ 9]> {["memory" := mem * 10 ^ 9]} in mkContainer "main" l l.

Definition ex_pod (cpu : Z) : Pod := mkPod "web" "u1" [] [ex_container cpu 64] None.

Lemma GetPodQOS_guaranteed_witness : GetPodQOS (ex_pod 2) = PodQOSGuaranteed.
Proof.
  apply GetPodQOS_guaranteed.
  - intros c ->%list_elem_of_singleton name Hn.
    apply elem_of_cons in Hn as [-> | ->%list_elem_of_singleton]; vm_compute; split; congruence.
  - split; [discriminate|]. intros c ->%list_elem_of_singleton name Hn.
    apply elem_of_cons in Hn as [-> | ->%list_elem_of_singleton]; vm_compute; split; reflexivity.
Defined.
