(* ===== verification/CpuState.v ===== *)
(** * The state of the CPU manager

    [pkg/kubelet/cm/cpumanager/state]: the interface [State], its in-memory
    implementation ([state_mem.go]) and the one that writes a checkpoint after
    every change ([state_checkpoint.go]). The checkpoint manager stores and
    returns a checkpoint as it is: the file is a field of the state. *)

From S2P Require Import Prelude GoStrings GoStrconv Cpuset.
Local Open Scope go_scope.

Notation ContainerCPUAssignments := (gmap string CPUSet).

(** ** [stateMemory] *)

Record stateMemory : Type := mkMemory {
  assignments : ContainerCPUAssignments;
  defaultCPUSet : CPUSet;
}.

Definition NewMemoryState : stateMemory := mkMemory ∅ (NewCPUSet []).

(** The interface [State]. *)
Class State (St : Type) := {
  GetCPUSet : St → string → option CPUSet;
  GetDefaultCPUSet : St → CPUSet;
  GetCPUAssignments : St → ContainerCPUAssignments;
  SetCPUSet : St → string → CPUSet → St;
  SetDefaultCPUSet : St → CPUSet → St;
  SetCPUAssignments : St → ContainerCPUAssignments → St;
  Delete : St → string → St;
  ClearState : St → St;
}.

#[global] Instance stateMemory_State : State stateMemory := {|
  GetCPUSet s containerID := Clone <$> assignments s !! containerID;
  GetDefaultCPUSet s := Clone (defaultCPUSet s);
  GetCPUAssignments s := assignments s;
  SetCPUSet s containerID cset := mkMemory (<[containerID := cset]> (assignments s)) (defaultCPUSet s);
  SetDefaultCPUSet s cset := mkMemory (assignments s) cset;
  SetCPUAssignments s a := mkMemory a (defaultCPUSet s);
  Delete s containerID := mkMemory (delete containerID (assignments s)) (defaultCPUSet s);
  ClearState s := mkMemory ∅ ∅;
|}.

(** [GetCPUSetOrDefault], the same in every implementation. *)
Definition GetCPUSetOrDefault `{State St} (s : St) (containerID : string) : CPUSet :=
  match GetCPUSet s containerID with
  | Some res => res
  | None => GetDefaultCPUSet s
  end.

(** What the policies rely on of a state: it behaves as the in-memory one. *)
Class StateLaws (St : Type) `{State St} := {
  mem : St → stateMemory;
  mem_GetCPUSet s id : GetCPUSet s id = GetCPUSet (mem s) id;
  mem_GetDefaultCPUSet s : GetDefaultCPUSet s = GetDefaultCPUSet (mem s);
  mem_GetCPUAssignments s : GetCPUAssignments s = GetCPUAssignments (mem s);
  mem_SetCPUSet s id c : mem (SetCPUSet s id c) = SetCPUSet (mem s) id c;
  mem_SetDefaultCPUSet s c : mem (SetDefaultCPUSet s c) = SetDefaultCPUSet (mem s) c;
  mem_SetCPUAssignments s a : mem (SetCPUAssignments s a) = SetCPUAssignments (mem s) a;
  mem_Delete s id : mem (Delete s id) = Delete (mem s) id;
  mem_ClearState s : mem (ClearState s) = ClearState (mem s);
}.

#[global] Instance stateMemory_laws : StateLaws stateMemory.
Proof. by exists id. Defined.

(** ** [stateCheckpoint] *)

(** [CPUManagerCheckpoint], without its checksum. *)
Record CPUManagerCheckpoint : Type := mkCheckpoint {
  PolicyName : string;
  DefaultCPUSet : string;
  Entries : gmap string string;
}.

Record stateCheckpoint : Type := mkStateCheckpoint {
  policyName : string;
  cache : stateMemory;
  file : option CPUManagerCheckpoint;
}.

Definition checkpoint_of (policy : string) (s : stateMemory) : CPUManagerCheckpoint :=
  mkCheckpoint policy (CPUSet_String (GetDefaultCPUSet s))
    (CPUSet_String <$> GetCPUAssignments s).

Definition storeState (sc : stateCheckpoint) : stateCheckpoint :=
  mkStateCheckpoint (policyName sc) (cache sc) (Some (checkpoint_of (policyName sc) (cache sc))).

Inductive RestoreError : Type :=
  | PolicyDiffers (configured stored : string)
  | BadDefault (e : ParseError)
  | BadEntry (containerID : string) (e : ParseError).

(** The loop over [checkpoint.Entries]. *)
Fixpoint parse_entries (entries : list (string * string)) (tmp : ContainerCPUAssignments) :
    result RestoreError ContainerCPUAssignments :=
  match entries with
  | [] => Ok tmp
  | (containerID, cpuString) :: entries =>
      match Parse cpuString with
      | Ok cset => parse_entries entries (<[containerID := cset]> tmp)
      | Err e => Err (BadEntry containerID e)
      end
  end.

(** [restoreState]: a missing checkpoint is created from the cache. *)
Definition restoreState (sc : stateCheckpoint) : result RestoreError stateCheckpoint :=
  match file sc with
  | None => Ok (storeState sc)
  | Some checkpoint =>
      if negb (bool_decide (policyName sc = PolicyName checkpoint)) then
        Err (PolicyDiffers (policyName sc) (PolicyName checkpoint))
      else
        match Parse (DefaultCPUSet checkpoint) with
        | Err e => Err (BadDefault e)
        | Ok tmpDefaultCPUSet =>
            tmpAssignments <-? parse_entries (map_to_list (Entries checkpoint)) ∅;;
            let cache := SetDefaultCPUSet (cache sc) tmpDefaultCPUSet in
            let cache := SetCPUAssignments cache tmpAssignments in
            Ok (mkStateCheckpoint (policyName sc) cache (file sc))
        end
  end.

Definition NewCheckpointState (policy : string) (file : option CPUManagerCheckpoint) :
    result RestoreError stateCheckpoint :=
  restoreState (mkStateCheckpoint policy NewMemoryState file).

Definition with_cache (sc : stateCheckpoint) (c : stateMemory) : stateCheckpoint :=
  mkStateCheckpoint (policyName sc) c (file sc).

#[global] Instance stateCheckpoint_State : State stateCheckpoint := {|
  GetCPUSet sc id := GetCPUSet (cache sc) id;
  GetDefaultCPUSet sc := GetDefaultCPUSet (cache sc);
  GetCPUAssignments sc := GetCPUAssignments (cache sc);
  SetCPUSet sc id c := storeState (with_cache sc (SetCPUSet (cache sc) id c));
  SetDefaultCPUSet sc c := storeState (with_cache sc (SetDefaultCPUSet (cache sc) c));
  SetCPUAssignments sc a := storeState (with_cache sc (SetCPUAssignments (cache sc) a));
  Delete sc id := storeState (with_cache sc (Delete (cache sc) id));
  ClearState sc := storeState (with_cache sc (ClearState (cache sc)));
|}.

#[global] Instance stateCheckpoint_laws : StateLaws stateCheckpoint.
Proof. by exists cache. Defined.

(** ** Lemmas *)

(** CPU identifiers a checkpoint can represent. *)
Definition wf_cpus (s : CPUSet) : Prop := ∀ x, x ∈ s → 0 ≤ x < MaxInt64.

Definition wf_memory (s : stateMemory) : Prop :=
  wf_cpus (defaultCPUSet s) ∧ map_Forall (λ _ c, wf_cpus c) (assignments s).

(** The file holds what the cache holds. *)
Definition durable (sc : stateCheckpoint) : Prop :=
  file sc = Some (checkpoint_of (policyName sc) (cache sc)).

Section roundtrip.
(** What the entries are parsed with: printing followed by parsing is the identity
    on the sets of the state. *)
Context (m : ContainerCPUAssignments).
Context (Hm : map_Forall (λ _ c, Parse (CPUSet_String c) = Ok c) m).

Lemma parse_entries_list (l : list (string * CPUSet)) tmp :
  (∀ k c, (k, c) ∈ l → m !! k = Some c) →
  ∃ out, parse_entries (prod_map id CPUSet_String <$> l) tmp = Ok out ∧
    ∀ k, out !! k = if decide (k ∈ l.*1) then m !! k else tmp !! k.
Proof using Hm.
  revert tmp. induction l as [|[k c] l IH]; intros tmp Hl.
  { exists tmp. split; [done|]. intros k. rewrite decide_False by set_solver. done. }
  assert (m !! k = Some c) as Hk by (apply Hl; left).
  cbn. rewrite (Hm k c Hk).
  destruct (IH (<[k := c]> tmp)) as (out & Hout & Hlook); [intros; apply Hl; by right|].
  exists out. split; [done|]. intros j. rewrite Hlook.
  destruct (decide (j ∈ l.*1)) as [Hj|Hj].
  - rewrite decide_True by set_solver. done.
  - destruct (decide (j = k)) as [-> |Hne].
    + rewrite decide_True by set_solver. by rewrite lookup_insert_eq.
    + rewrite decide_False by set_solver. by rewrite lookup_insert_ne.
Qed.

Lemma parse_entries_print :
  parse_entries (map_to_list (CPUSet_String <$> m)) ∅ = Ok m.
Proof using Hm.
  rewrite map_to_list_fmap.
  destruct (parse_entries_list (map_to_list m) ∅) as (out & -> & Hout).
  { intros k c Hk. by apply elem_of_map_to_list. }
  f_equal. apply map_eq. intros k. rewrite Hout.
  destruct (decide (k ∈ (map_to_list m).*1)) as [Hk|Hk]; [done|].
  destruct (m !! k) as [c|] eqn:E; [|by rewrite lookup_empty]. exfalso. apply Hk.
  apply elem_of_map_to_list in E. apply list_elem_of_fmap. by exists (k, c).
Qed.
End roundtrip.

Lemma Parse_String_wf (s : CPUSet) : wf_cpus s → Parse (CPUSet_String s) = Ok s.
Proof. apply Parse_String_lemma. Qed.

(** The checkpoint is durable: every write leaves in the file what the cache
    holds, and a restart with the same policy from such a file restores exactly
    the state before the restart. *)
Theorem checkpoint_restart (sc : stateCheckpoint) :
  (∀ id c, durable (SetCPUSet sc id c)) ∧ (∀ c, durable (SetDefaultCPUSet sc c)) ∧
  (∀ a, durable (SetCPUAssignments sc a)) ∧ (∀ id, durable (Delete sc id)) ∧
  durable (ClearState sc) ∧
  (durable sc → wf_memory (cache sc) →
   NewCheckpointState (policyName sc) (file sc) = Ok sc).
Proof.
  split_and!; [done..|]. intros Hd [Hdef Hass].
  unfold NewCheckpointState, restoreState. rewrite Hd. cbn [file policyName PolicyName checkpoint_of].
  rewrite bool_decide_true by done. cbn [negb].
  assert (Parse (CPUSet_String (defaultCPUSet (cache sc))) = Ok (defaultCPUSet (cache sc))) as Hp
    by (by apply Parse_String_wf).
  cbn. unfold Clone. rewrite Hp, parse_entries_print.
  - rewrite <- Hd. by destruct sc as [p [a d] f].
  - eapply map_Forall_impl; [exact Hass|]. intros k c. apply Parse_String_wf.
Qed.
