(* ===== verification/CpuManager.v ===== *)
(** * The CPU manager

    [pkg/kubelet/cm/cpumanager]: the policies none ([policy_none.go]) and static
    ([policy_static.go]) and the manager that runs one of them
    ([cpu_manager.go]). The container runtime and the pod status provider are
    parameters. *)

From S2P Require Import Prelude GoStrings GoStrconv Cpuset CpuTopology CpuAssignment PodQos CpuState.
Local Open Scope go_scope.

Inductive ManagerError : Type :=
  | Assign (e : AssignError)
  | DefaultEmpty
  | ReservedMissing
  | Overlap (containerID : string)
  | CpusChanged
  | RuntimeError (msg : string)
  | UnknownContainer (name : string)
  | InvalidContainerID (data : string).

(** The interface [Policy] over a state; [Start] panics on an error. *)
Record Policy (St : Type) : Type := mkPolicy {
  Name : string;
  PolicyStart : St → result ManagerError St;
  PolicyAddContainer : St → Pod → Container → string → option ManagerError * St;
  PolicyRemoveContainer : St → string → option ManagerError * St;
}.
Arguments mkPolicy {St} _ _ _ _.
Arguments Name {St} _.
Arguments PolicyStart {St} _ _.
Arguments PolicyAddContainer {St} _ _ _ _ _.
Arguments PolicyRemoveContainer {St} _ _ _.

Definition nonePolicy (St : Type) : Policy St :=
  mkPolicy "none" Ok (λ s _ _ _, (None, s)) (λ s _, (None, s)).

(** ** The static policy *)

Record staticPolicy : Type := mkStatic {
  topology : CPUTopology;
  reserved : CPUSet;
}.

Section static.
Context `{SortSlice} {St : Type} `{State St}.

(** [NewStaticPolicy]; [None] is its panic. *)
Definition NewStaticPolicy (topology : CPUTopology) (numReservedCPUs : Z) :
    option staticPolicy :=
  let allCPUs := CPUs (Details topology) in
  let reserved :=
    match takeByTopology topology allCPUs numReservedCPUs with
    | Ok r => r
    | Err _ => NewCPUSet []
    end in
  if negb (Size reserved =? numReservedCPUs) then None else Some (mkStatic topology reserved).

(** The first assignment, in the order of the map, that overlaps the default set. *)
Definition find_overlap (tmpDefaultCPUset : CPUSet) (tmpAssignments : ContainerCPUAssignments) :
    option string :=
  fst <$> List.find (λ kv, negb (IsEmpty (Intersection tmpDefaultCPUset kv.2)))
    (map_to_list tmpAssignments).

Definition validateState (p : staticPolicy) (s : St) : result ManagerError St :=
  let tmpAssignments := GetCPUAssignments s in
  let tmpDefaultCPUset := GetDefaultCPUSet s in
  if IsEmpty tmpDefaultCPUset then
    if negb (bool_decide (size tmpAssignments = 0%nat)) then Err DefaultEmpty
    else Ok (SetDefaultCPUSet s (CPUs (Details (topology p))))
  else if negb (Equals (Intersection (reserved p) tmpDefaultCPUset) (reserved p)) then
    Err ReservedMissing
  else
    match find_overlap tmpDefaultCPUset tmpAssignments with
    | Some cID => Err (Overlap cID)
    | None =>
        let totalKnownCPUs :=
          fold_left (λ total kv, Union total kv.2) (map_to_list tmpAssignments)
            (Clone tmpDefaultCPUset) in
        if negb (Equals totalKnownCPUs (CPUs (Details (topology p)))) then Err CpusChanged
        else Ok s
    end.

Definition assignableCPUs (p : staticPolicy) (s : St) : CPUSet :=
  Difference (GetDefaultCPUSet s) (reserved p).

Definition allocateCPUs (p : staticPolicy) (s : St) (numCPUs : Z) :
    result ManagerError (CPUSet * St) :=
  match takeByTopology (topology p) (assignableCPUs p s) numCPUs with
  | Err e => Err (Assign e)
  | Ok result => Ok (result, SetDefaultCPUSet s (Difference (GetDefaultCPUSet s) result))
  end.

Definition guaranteedCPUs (pod : Pod) (container : Container) : Z :=
  if negb (bool_decide (GetPodQOS pod = PodQOSGuaranteed)) then 0
  else
    let cpuQuantity := default 0 (Requests container !! ResourceCPU) in
    if negb (Value cpuQuantity * 1000 =? MilliValue cpuQuantity) then 0
    else Value cpuQuantity.

Definition AddContainer (p : staticPolicy) (s : St) (pod : Pod) (container : Container)
    (containerID : string) : option ManagerError * St :=
  let numCPUs := guaranteedCPUs pod container in
  if negb (numCPUs =? 0) then
    match GetCPUSet s containerID with
    | Some _ => (None, s)
    | None =>
        match allocateCPUs p s numCPUs with
        | Err e => (Some e, s)
        | Ok (cpuset, s) => (None, SetCPUSet s containerID cpuset)
        end
    end
  else (None, s).

Definition RemoveContainer (p : staticPolicy) (s : St) (containerID : string) :
    option ManagerError * St :=
  match GetCPUSet s containerID with
  | Some toRelease =>
      let s := Delete s containerID in
      (None, SetDefaultCPUSet s (Union (GetDefaultCPUSet s) toRelease))
  | None => (None, s)
  end.

Definition static (p : staticPolicy) : Policy St :=
  mkPolicy "static" (validateState p) (AddContainer p) (RemoveContainer p).
End static.

(** ** Container identifiers ([kubecontainer.ContainerID]) *)

Record ContainerID : Type := mkContainerID {
  CType : string;
  ID : string;
}.

Definition quote : ascii := Ascii.ascii_of_nat 34.

(** [ContainerID.ParseString], which trims the quotes and splits type and ID. *)
Definition ParseString (data : string) : result ManagerError ContainerID :=
  match SplitSep (Trim data quote) "://" 0 with
  | [t; id] => Ok (mkContainerID t id)
  | _ => Err (InvalidContainerID data)
  end.

Definition ContainerID_String (c : ContainerID) : string := CType c +:+ "://" +:+ ID c.

(** What [String] prints, [ParseString] reads back, for a type and an ID without
    colons and quotes. *)
Lemma ParseString_String (c : ContainerID) :
  ContainsChar (CType c) ":" = false → ContainsChar (ID c) ":" = false →
  ContainsChar (CType c) quote = false → ContainsChar (ID c) quote = false →
  ParseString (ContainerID_String c) = Ok c.
Proof.
  intros Ht Hi Hqt Hqi. unfold ParseString, ContainerID_String. rewrite Trim_none.
  - change ("://" +:+ ID c) with (String ":" ("//" +:+ ID c)).
    rewrite SplitSep_app, SplitSep_none by done. by destruct c.
  - rewrite ContainsChar_app, Hqt. simpl. exact Hqi.
Qed.

(** ** The manager *)

Section manager.
Context {St : Type} `{State St}.
Context (policy : Policy St).

(** The container runtime: [UpdateContainerResources] with a CPU list, over the
    state [R] of the runtime. *)
Context {R : Type} (UpdateContainerResources : string → string → R → option ManagerError * R).

Definition updateContainerCPUSet (containerID : string) (cpus : CPUSet) (r : R) :
    option ManagerError * R :=
  UpdateContainerResources containerID (CPUSet_String cpus) r.

Definition manager_AddContainer (p : Pod) (c : Container) (containerID : string) (m : St * R) :
    option ManagerError * (St * R) :=
  let '(s, r) := m in
  let '(err, s) := PolicyAddContainer policy s p c containerID in
  match err with
  | Some e => (Some e, (s, r))
  | None =>
      let cpus := GetCPUSetOrDefault s containerID in
      if negb (IsEmpty cpus) then
        let '(err, r) := updateContainerCPUSet containerID cpus r in
        match err with
        | Some e =>
            let '(_, s) := PolicyRemoveContainer policy s containerID in (Some e, (s, r))
        | None => (None, (s, r))
        end
      else (None, (s, r))
  end.

Definition manager_RemoveContainer (containerID : string) (m : St * R) :
    option ManagerError * (St * R) :=
  let '(s, r) := m in
  let '(err, s) := PolicyRemoveContainer policy s containerID in (err, (s, r)).

(** *** The reconcile loop *)

Record ContainerStatus : Type := mkContainerStatus {
  StatusName : string;
  StatusContainerID : string;
}.

Record PodStatus : Type := mkPodStatus {
  ContainerStatuses : list ContainerStatus;
  Phase : string;
}.

Definition PodRunning : string := "Running".

Record reconciledContainer : Type := mkReconciled {
  podName : string;
  containerName : string;
  containerID : string;
}.

(** The interface [podStatusProvider], with the statuses at the time of the loop. *)
Context (GetPodStatus : string → option PodStatus).

Fixpoint findContainerID (statuses : list ContainerStatus) (name : string) :
    result ManagerError string :=
  match statuses with
  | [] => Err (UnknownContainer name)
  | container :: statuses =>
      if bool_decide (StatusName container = name) &&
         negb (bool_decide (StatusContainerID container = ""))
      then
        match ParseString (StatusContainerID container) with
        | Ok cid => Ok (ID cid)
        | Err e => Err e
        end
      else findContainerID statuses name
  end.

Definition findContainerIDByName (status : PodStatus) (name : string) :
    result ManagerError string :=
  findContainerID (ContainerStatuses status) name.

(** The outcome of one turn of the inner loop. *)
Inductive turn : Type :=
  | Break (failure : reconciledContainer)
  | Failed (failure : reconciledContainer)
  | Skipped
  | Succeeded (success : reconciledContainer).

(** The end of a turn: writing the CPU set of the container to the runtime. *)
Definition reconcile_update (pod : Pod) (container : Container) (id : string) (m : St * R) :
    turn * (St * R) :=
  let rc := mkReconciled (PodName pod) (ContainerName container) in
  let '(s, r) := m in
  let cset := GetCPUSetOrDefault s id in
  if IsEmpty cset then (Failed (rc id), (s, r))
  else
    let '(err, r) := updateContainerCPUSet id cset r in
    match err with
    | Some _ => (Failed (rc id), (s, r))
    | None => (Succeeded (rc id), (s, r))
    end.

Definition reconcile_container (pod : Pod) (container : Container) (m : St * R) :
    turn * (St * R) :=
  let rc := mkReconciled (PodName pod) (ContainerName container) in
  match GetPodStatus (PodUID pod) with
  | None => (Break (rc ""), m)
  | Some status =>
      match findContainerIDByName status (ContainerName container) with
      | Err _ => (Failed (rc ""), m)
      | Ok id =>
          match GetCPUSet m.1 id with
          | Some _ => reconcile_update pod container id m
          | None =>
              if bool_decide (Phase status = PodRunning) && bool_decide (DeletionTimestamp pod = None) then
                let '(err, m) := manager_AddContainer pod container id m in
                match err with
                | Some _ => (Failed (rc id), m)
                | None => reconcile_update pod container id m
                end
              else (Skipped, m)
          end
      end
  end.

(** The inner loop, with the lists of successes and failures so far. *)
Fixpoint reconcile_containers (pod : Pod) (containers : list Container)
    (out : list reconciledContainer * list reconciledContainer) (m : St * R) :
    list reconciledContainer * list reconciledContainer * (St * R) :=
  match containers with
  | [] => (out, m)
  | container :: containers =>
      let '(success, failure) := out in
      let '(t, m) := reconcile_container pod container m in
      match t with
      | Break f => (success, failure ++ [f], m)
      | Failed f => reconcile_containers pod containers (success, failure ++ [f]) m
      | Skipped => reconcile_containers pod containers (success, failure) m
      | Succeeded s => reconcile_containers pod containers (success ++ [s], failure) m
      end
  end.

Definition reconcileState (activePods : list Pod) (m : St * R) :
    list reconciledContainer * list reconciledContainer * (St * R) :=
  fold_left (λ acc pod,
    let '(out, m) := acc in
    let allContainers := InitContainers pod ++ Containers pod in
    reconcile_containers pod allContainers out m) activePods (([], []), m).
End manager.

(** ** The invariant of the static policy *)

(** Every CPU of the machine is in the shared pool or assigned, never both and
    never to two containers, and the reserved CPUs stay in the shared pool. *)
Record exclusive (p : staticPolicy) (s : stateMemory) : Prop := {
  ex_known x :
    x ∈ CPUs (Details (topology p)) ↔
    x ∈ defaultCPUSet s ∨ ∃ id c, assignments s !! id = Some c ∧ x ∈ c;
  ex_default id c : assignments s !! id = Some c → c ## defaultCPUSet s;
  ex_pairwise id id' c c' :
    assignments s !! id = Some c → assignments s !! id' = Some c' → id ≠ id' → c ## c';
  ex_reserved : reserved p ⊆ defaultCPUSet s;
}.

Section static_proofs.
Context `{SortSlice} {St : Type} `{State St, !StateLaws St}.

(** An allocation of [cpus] to [id] and its undoing, on the in-memory state. *)
Definition allocated (s : stateMemory) (id : string) (cpus : CPUSet) : stateMemory :=
  mkMemory (<[id := cpus]> (assignments s)) (defaultCPUSet s ∖ cpus).

Definition released (s : stateMemory) (id : string) (cpus : CPUSet) : stateMemory :=
  mkMemory (delete id (assignments s)) (defaultCPUSet s ∪ cpus).

Lemma allocated_exclusive p s id cpus :
  exclusive p s → assignments s !! id = None → cpus ⊆ defaultCPUSet s ∖ reserved p →
  exclusive p (allocated s id cpus).
Proof.
  intros [Hk Hd Hp Hr] Hid Hc. split; simpl.
  - intros x. rewrite Hk. split.
    + intros [Hx|(j & c & Hj & Hx)].
      * destruct (decide (x ∈ cpus)); [right; exists id, cpus|left; set_solver].
        by rewrite lookup_insert_eq.
      * right. exists j, c. rewrite lookup_insert_ne by congruence. done.
    + intros [Hx|(j & c & Hj & Hx)]; [left; set_solver|].
      apply lookup_insert_Some in Hj as [[<- <-]|[Hne Hj]]; [left; set_solver|].
      right. eauto.
  - intros j c Hj. apply lookup_insert_Some in Hj as [[<- <-]|[Hne Hj]]; [set_solver|].
    specialize (Hd _ _ Hj). set_solver.
  - intros j j' c c' Hj Hj' Hne.
    apply lookup_insert_Some in Hj as [[<- <-]|[Hn Hj]];
      apply lookup_insert_Some in Hj' as [[<- <-]|[Hn' Hj']]; [done|..].
    + specialize (Hd _ _ Hj'). set_solver.
    + specialize (Hd _ _ Hj). set_solver.
    + eauto.
  - set_solver.
Qed.

Lemma released_exclusive p s id cpus :
  exclusive p s → assignments s !! id = Some cpus → exclusive p (released s id cpus).
Proof.
  intros [Hk Hd Hp Hr] Hid. split; simpl.
  - intros x. rewrite Hk, elem_of_union. split.
    + intros [Hx|(j & c & Hj & Hx)]; [by auto|].
      destruct (decide (j = id)) as [-> |Hne]; [left; right; congruence|].
      right. exists j, c. by rewrite lookup_delete_ne.
    + intros [[Hx|Hx]|(j & c & Hj & Hx)]; [by auto|right; eauto|].
      apply lookup_delete_Some in Hj as [_ Hj]. right. eauto.
  - intros j c [Hne Hj]%lookup_delete_Some. pose proof (Hd _ _ Hj).
    pose proof (Hp _ _ _ _ Hj Hid (not_eq_sym Hne)). set_solver.
  - intros j j' c c' [_ Hj]%lookup_delete_Some [_ Hj']%lookup_delete_Some. eauto.
  - set_solver.
Qed.

Lemma released_allocated s id cpus :
  assignments s !! id = None → cpus ⊆ defaultCPUSet s → released (allocated s id cpus) id cpus = s.
Proof.
  intros Hid Hc. destruct s as [a d]. unfold released, allocated. simpl in *.
  rewrite delete_insert_id by done. f_equal. apply set_eq. intros x.
  destruct (decide (x ∈ cpus)); set_solver.
Qed.

Lemma GetCPUSet_mem (s : St) id : GetCPUSet s id = assignments (mem s) !! id.
Proof. rewrite mem_GetCPUSet. simpl. by destruct (assignments (mem s) !! id). Qed.

Lemma GetDefault_mem (s : St) : GetDefaultCPUSet s = defaultCPUSet (mem s).
Proof. by rewrite mem_GetDefaultCPUSet. Qed.

(** The branches of [AddContainer]. *)
Lemma AddContainer_cases (p : staticPolicy) (s : St) pod c id :
  let n := guaranteedCPUs pod c in
  AddContainer p s pod c id = (None, s) ∧ (n = 0 ∨ is_Some (assignments (mem s) !! id)) ∨
  n ≠ 0 ∧ assignments (mem s) !! id = None ∧
  let A := CPUs (Details (topology p)) ∩ (defaultCPUSet (mem s) ∖ reserved p) in
  (AddContainer p s pod c id = (Some (Assign NotEnoughCpus), s) ∧ Size A < n ∨
   ∃ cpus s', AddContainer p s pod c id = (None, s') ∧ cpus ⊆ A ∧ Size cpus = Z.max 0 n ∧
     mem s' = allocated (mem s) id cpus).
Proof.
  intros n. unfold AddContainer. fold n. destruct (n =? 0) eqn:En; cbn [negb].
  { apply Z.eqb_eq in En. left. auto. }
  apply Z.eqb_neq in En. rewrite GetCPUSet_mem.
  destruct (assignments (mem s) !! id) as [c0|] eqn:Hid; [left; by eauto|].
  right. split_and!; [done..|]. unfold allocateCPUs, assignableCPUs.
  rewrite GetDefault_mem, Difference_spec.
  pose proof (takeByTopology_lemma (topology p) (defaultCPUSet (mem s) ∖ reserved p) n) as Ht.
  destruct (takeByTopology _ _ n) as [cpus|e].
  - destruct Ht as [Hsub Hsz]. right. eexists cpus, _. split_and!; [done..|].
    rewrite mem_SetCPUSet, mem_SetDefaultCPUSet. unfold allocated. simpl.
    by rewrite Difference_spec.
  - destruct Ht as [-> Hlt]. left. done.
Qed.

Lemma RemoveContainer_cases (p : staticPolicy) (s : St) id :
  (assignments (mem s) !! id = None ∧ RemoveContainer p s id = (None, s)) ∨
  ∃ cpus s', assignments (mem s) !! id = Some cpus ∧ RemoveContainer p s id = (None, s') ∧
    mem s' = released (mem s) id cpus.
Proof.
  unfold RemoveContainer. rewrite GetCPUSet_mem.
  destruct (assignments (mem s) !! id) as [cpus|] eqn:Hid; [|by left].
  right. eexists cpus, _. split_and!; [done..|].
  by rewrite mem_SetDefaultCPUSet, GetDefault_mem, mem_Delete.
Qed.

Lemma AddContainer_exclusive p (s : St) pod c id :
  exclusive p (mem s) → exclusive p (mem (AddContainer p s pod c id).2).
Proof.
  intros Hex. destruct (AddContainer_cases p s pod c id)
    as [[-> _]|(_ & Hid & [[-> _]|(cpus & s' & -> & Hsub & _ & Hm)])]; [done..|].
  simpl. rewrite Hm. apply allocated_exclusive; [done..|]. set_solver.
Qed.

Lemma RemoveContainer_exclusive p (s : St) id :
  exclusive p (mem s) → exclusive p (mem (RemoveContainer p s id).2).
Proof.
  intros Hex. destruct (RemoveContainer_cases p s id)
    as [[_ ->]|(cpus & s' & Hid & -> & Hm)]; [done|].
  simpl. rewrite Hm. by apply released_exclusive.
Qed.
End static_proofs.

Section start_proofs.
Context {St : Type} `{State St, !StateLaws St}.

Lemma find_overlap_None d (a : ContainerCPUAssignments) :
  find_overlap d a = None ↔ ∀ id c, a !! id = Some c → c ## d.
Proof.
  unfold find_overlap. rewrite fmap_None. split.
  - intros Hf id c Hid. apply elem_of_map_to_list, list_elem_of_In in Hid.
    pose proof (find_none _ _ Hf _ Hid) as Hn. apply negb_false_iff, IsEmpty_spec in Hn.
    rewrite Intersection_spec in Hn. simpl in Hn. set_solver.
  - intros Hd. destruct (List.find _ _) as [[id c]|] eqn:Hf; [|done].
    apply find_some in Hf as [Hin Hn]. apply list_elem_of_In, elem_of_map_to_list in Hin.
    specialize (Hd _ _ Hin). apply negb_true_iff, not_true_iff_false in Hn. exfalso. apply Hn.
    apply IsEmpty_spec. rewrite Intersection_spec. simpl. set_solver.
Qed.

Lemma elem_of_total_known (l : list (string * CPUSet)) d x :
  x ∈ fold_left (λ total kv, Union total kv.2) l d ↔ x ∈ d ∨ ∃ kv, kv ∈ l ∧ x ∈ kv.2.
Proof.
  revert d. induction l as [|kv l IH]; intros d; simpl.
  - split; [by left|]. intros [?|(kv & ?%not_elem_of_nil & _)]; done.
  - rewrite IH. unfold Union. rewrite elem_of_union. setoid_rewrite elem_of_cons. naive_solver.
Qed.

(** [validateState] on a state whose assignments do not overlap each other. *)
Lemma validateState_exclusive (p : staticPolicy) (s s' : St) :
  validateState p s = Ok s' → reserved p ⊆ CPUs (Details (topology p)) →
  (∀ id id' c c', assignments (mem s) !! id = Some c → assignments (mem s) !! id' = Some c' →
     id ≠ id' → c ## c') →
  exclusive p (mem s').
Proof.
  unfold validateState. rewrite mem_GetCPUAssignments, mem_GetDefaultCPUSet. simpl.
  unfold Clone. intros Hv Hres Hpair. destruct (IsEmpty _) eqn:Ee.
  - case_bool_decide as Hz; [|done]. injection Hv as <-.
    apply map_size_empty_inv in Hz. rewrite mem_SetDefaultCPUSet.
    split; simpl; rewrite ?Hz; try done.
    intros x. split; [by left|]. intros [?|(id & c & Hid & _)]; [done|].
    by rewrite lookup_empty in Hid.
  - destruct (Equals (Intersection _ _) _) eqn:Er; [|done].
    apply bool_decide_eq_true in Er. rewrite Intersection_spec in Er. cbn [negb] in Hv.
    destruct (find_overlap _ _) eqn:Eo; [done|]. rewrite find_overlap_None in Eo.
    destruct (Equals (fold_left _ _ _) _) eqn:Ek; [|done].
    apply bool_decide_eq_true in Ek. injection Hv as <-.
    split; [|done|done|set_solver].
    intros x. rewrite <- Ek, elem_of_total_known. f_equiv. split.
    + intros ([id c] & Hin%elem_of_map_to_list & Hx). eauto.
    + intros (id & c & Hin & Hx). exists (id, c). by rewrite elem_of_map_to_list.
Qed.
End start_proofs.

Lemma NewStaticPolicy_reserved `{SortSlice} tp n p :
  NewStaticPolicy tp n = Some p →
  topology p = tp ∧ reserved p ⊆ CPUs (Details tp) ∧ Size (reserved p) = n.
Proof.
  unfold NewStaticPolicy. pose proof (takeByTopology_lemma tp (CPUs (Details tp)) n) as Ht.
  destruct (Z.eqb_spec (Size match takeByTopology tp (CPUs (Details tp)) n with
    | Ok r => r | Err _ => NewCPUSet [] end) n) as [E|E]; [|done].
  intros [= <-]. simpl. split_and!; [done| |done].
  destruct (takeByTopology _ _ _); [set_solver|apply empty_subseteq].
Qed.

(** ** Runs of the manager

    The manager releases its lock while it calls the runtime, so other calls run
    between the allocation and its rollback. [pending] are the containers whose
    runtime update is in flight. *)

Section steps.
Context `{SortSlice} {St : Type} `{State St, !StateLaws St}.
Context (p : staticPolicy).

Inductive mstep : St * list string → St * list string → Prop :=
  | step_add s s' pending pod c id :
      AddContainer p s pod c id = (None, s') →
      mstep (s, pending) (s', id :: pending)
  | step_add_failed s s' pending pod c id e :
      AddContainer p s pod c id = (Some e, s') →
      mstep (s, pending) (s', pending)
  | step_updated s pre id post :
      mstep (s, pre ++ id :: post) (s, pre ++ post)
  | step_rollback s s' pre id post err :
      RemoveContainer p s id = (err, s') →
      mstep (s, pre ++ id :: post) (s', pre ++ post)
  | step_remove s s' pending id err :
      RemoveContainer p s id = (err, s') →
      mstep (s, pending) (s', pending).

Lemma mstep_exclusive m m' :
  mstep m m' → exclusive p (mem m.1) → exclusive p (mem m'.1).
Proof.
  intros Hstep Hex. inversion Hstep as [? ? ? pod c id E|? ? ? pod c id e E| |? ? ? id ? ? E|? ? ? id ? E];
    subst; simpl in *; [..|done| |].
  - pose proof (AddContainer_exclusive p s pod c id Hex) as He. by rewrite E in He.
  - pose proof (AddContainer_exclusive p s pod c id Hex) as He. by rewrite E in He.
  - pose proof (RemoveContainer_exclusive p s id Hex) as He. by rewrite E in He.
  - pose proof (RemoveContainer_exclusive p s id Hex) as He. by rewrite E in He.
Qed.

Lemma msteps_exclusive m m' :
  rtc mstep m m' → exclusive p (mem m.1) → exclusive p (mem m'.1).
Proof. induction 1; eauto using mstep_exclusive. Qed.
End steps.

Section manager_proofs.
Context `{SortSlice} {St : Type} `{State St, !StateLaws St}.
Context (p : staticPolicy).
Context {R : Type} (update : string → string → R → option ManagerError * R).

Lemma manager_AddContainer_exclusive pod c id (m : St * R) :
  exclusive p (mem m.1) →
  exclusive p (mem (manager_AddContainer (static p) update pod c id m).2.1).
Proof.
  destruct m as [s r]. cbn [fst]. intros Hex. unfold manager_AddContainer. cbn [PolicyAddContainer PolicyRemoveContainer static].
  pose proof (AddContainer_exclusive p s pod c id Hex) as Ha.
  destruct (AddContainer p s pod c id) as [[e|] s']; [done|]. cbn [snd] in Ha.
  destruct (negb _); [|done]. destruct (updateContainerCPUSet _ _ _ _) as [[e|] r']; [|done].
  pose proof (RemoveContainer_exclusive p s' id Ha) as Hr.
  by destruct (RemoveContainer p s' id).
Qed.

Lemma reconcile_update_state (pod : Pod) c id (m : St * R) :
  (reconcile_update update pod c id m).2.1 = m.1.
Proof.
  destruct m as [s r]. unfold reconcile_update. destruct (IsEmpty _); [done|].
  by destruct (updateContainerCPUSet _ _ _ _) as [[e|] r'].
Qed.

(** A failed runtime update undoes the allocation. *)
Lemma manager_AddContainer_undone pod c id (s : St) (r : R) e m' :
  exclusive p (mem s) → assignments (mem s) !! id = None →
  manager_AddContainer (static p) update pod c id (s, r) = (Some e, m') →
  mem m'.1 = mem s.
Proof.
  intros Hex Hid. unfold manager_AddContainer. cbn [PolicyAddContainer PolicyRemoveContainer static].
  destruct (AddContainer_cases p s pod c id)
    as [[-> _]|(_ & _ & [[-> _]|(cpus & s' & -> & Hsub & _ & Hm)])].
  - destruct (negb _); [|done]. destruct (updateContainerCPUSet _ _ _ _) as [[e'|] r']; [|done].
    destruct (RemoveContainer_cases p s id) as [[_ ->]|(c' & s' & Hc' & _)]; [|congruence].
    by intros [= _ <-].
  - by intros [= _ <-].
  - destruct (negb _); [|done]. destruct (updateContainerCPUSet _ _ _ _) as [[e'|] r']; [|done].
    destruct (RemoveContainer_cases p s' id) as [[Hn _]|(c' & s2 & Hc' & -> & Hm2)].
    { by rewrite Hm in Hn; simpl in Hn; rewrite lookup_insert_eq in Hn. }
    intros [= _ <-]. simpl. rewrite Hm2, Hm.
    assert (c' = cpus) as -> by (rewrite Hm in Hc'; simpl in Hc';
      rewrite lookup_insert_eq in Hc'; congruence).
    apply released_allocated; [done|set_solver].
Qed.
Context (status : string → option PodStatus).

Lemma reconcile_container_exclusive pod c (m : St * R) :
  exclusive p (mem m.1) →
  exclusive p (mem (reconcile_container (static p) update status pod c m).2.1).
Proof.
  intros Hex. unfold reconcile_container. destruct (status (PodUID pod)) as [st|]; [|done].
  destruct (findContainerIDByName _ _) as [id|e]; [|done].
  destruct (GetCPUSet m.1 id); [by rewrite reconcile_update_state|].
  destruct (_ && _); [|done].
  pose proof (manager_AddContainer_exclusive pod c id m Hex) as Ha.
  destruct (manager_AddContainer _ _ _ _ _ _) as [[e|] m']; [done|].
  by rewrite reconcile_update_state.
Qed.

Lemma reconcile_containers_exclusive pod cs out (m : St * R) :
  exclusive p (mem m.1) →
  exclusive p (mem (reconcile_containers (static p) update status pod cs out m).2.1).
Proof.
  revert out m. induction cs as [|c cs IH]; intros [ok bad] m Hex; cbn [reconcile_containers]; [done|].
  pose proof (reconcile_container_exclusive pod c m Hex) as Hc.
  destruct (reconcile_container _ _ _ _ _ _) as [[] m']; [done|auto..].
Qed.

Lemma reconcileState_exclusive pods (m : St * R) :
  exclusive p (mem m.1) →
  exclusive p (mem (reconcileState (static p) update status pods m).2.1).
Proof.
  unfold reconcileState. generalize (([], []) : list reconciledContainer * list reconciledContainer).
  revert m. induction pods as [|pod pods IH]; intros m out Hex; [done|]. cbn [fold_left].
  pose proof (reconcile_containers_exclusive pod (InitContainers pod ++ Containers pod) out m Hex).
  destruct (reconcile_containers _ _ _ _ _ _ _) as [out' m']. by apply IH.
Qed.

End manager_proofs.

(** ** Correctness *)

(** The static policy's allocation on every branch. A container that asks for
    no whole CPUs or already has some is left alone; another one gets exactly
    as many CPUs as it asks for, out of the shared pool and none of them
    reserved, and only its assignment and the shared pool change; or, exactly
    when fewer than that are assignable, the call fails and changes nothing. The
    invariant is kept throughout. *)
Theorem AddContainer_correct `{SortSlice} {St} `{State St, !StateLaws St}
    (p : staticPolicy) (s : St) (pod : Pod) (c : Container) (id : string) :
  exclusive p (mem s) →
  let n := guaranteedCPUs pod c in
  let '(err, s') := AddContainer p s pod c id in
  exclusive p (mem s') ∧
  (n = 0 ∨ is_Some (assignments (mem s) !! id) → err = None ∧ s' = s) ∧
  (n ≠ 0 → assignments (mem s) !! id = None →
   (Size (defaultCPUSet (mem s) ∖ reserved p) < n ∧
      err = Some (Assign NotEnoughCpus) ∧ s' = s) ∨
   (n ≤ Size (defaultCPUSet (mem s) ∖ reserved p) ∧ err = None ∧
    ∃ cpus, Size cpus = Z.max 0 n ∧ cpus ⊆ defaultCPUSet (mem s) ∖ reserved p ∧
      mem s' = mkMemory (<[id := cpus]> (assignments (mem s))) (defaultCPUSet (mem s) ∖ cpus))).
Proof.
  intros Hex n. pose proof (AddContainer_exclusive p s pod c id Hex) as He.
  assert (CPUs (Details (topology p)) ∩ (defaultCPUSet (mem s) ∖ reserved p) =
          defaultCPUSet (mem s) ∖ reserved p) as HA.
  { apply set_eq. intros x. rewrite elem_of_intersection, (ex_known _ _ Hex). set_solver. }
  destruct (AddContainer_cases p s pod c id) as [[E Hn]|(Hn & Hid & Hcase)].
  - rewrite E in *. split_and!; [done..|]. intros Hn' Hid'. fold n in Hn.
    destruct Hn as [?|[? ?]]; congruence.
  - cbv zeta in Hcase. rewrite HA in Hcase. fold n in Hn, Hcase.
    destruct Hcase as [[E Hlt]|(cpus & s' & E & Hsub & Hsz & Hm)]; rewrite E in *.
    + split_and!; [done| |auto]. intros [?|[? ?]]; congruence.
    + split_and!; [done| |].
      * intros [?|[? ?]]; congruence.
      * intros _ _. right. split_and!; [|done|by eauto].
        apply Size_subseteq in Hsub. lia.
Qed.

(** Releasing a container returns its CPUs to the shared pool and keeps the
    invariant; and when the runtime refuses the update, adding a container that
    had no assignment leaves the state exactly as it was. *)
Theorem AddContainer_rollback `{SortSlice} {St} `{State St, !StateLaws St} {R}
    (update : string → string → R → option ManagerError * R)
    (p : staticPolicy) (s : St) (r : R) (pod : Pod) (c : Container) (id : string) :
  exclusive p (mem s) → assignments (mem s) !! id = None →
  (∀ e m', manager_AddContainer (static p) update pod c id (s, r) = (Some e, m') →
     mem m'.1 = mem s) ∧
  (∀ s', AddContainer p s pod c id = (None, s') → mem (RemoveContainer p s' id).2 = mem s).
Proof.
  intros Hex Hid. split.
  { intros e m' Hm. exact (manager_AddContainer_undone p update pod c id s r e m' Hex Hid Hm). }
  intros s' Hadd. destruct (AddContainer_cases p s pod c id)
    as [[E _]|(_ & _ & [[E _]|(cpus & s2 & E & Hsub & _ & Hm)])]; rewrite E in Hadd; simplify_eq.
  - by destruct (RemoveContainer_cases p s' id) as [[_ ->]|(c' & s2 & Hc' & _)]; [|congruence].
  - destruct (RemoveContainer_cases p s' id) as [[Hn _]|(c' & s3 & Hc' & -> & Hm2)].
    { by rewrite Hm in Hn; simpl in Hn; rewrite lookup_insert_eq in Hn. }
    simpl. rewrite Hm2, Hm.
    assert (c' = cpus) as -> by (rewrite Hm in Hc'; simpl in Hc';
      rewrite lookup_insert_eq in Hc'; congruence).
    apply released_allocated; [done|set_solver].
Qed.

(** C2: exclusivity holds in every state the manager reaches from a start that the
    static policy accepts and whose stored assignments do not overlap each other
    (which the policy does not check, see [validateState_accepts_overlap]): through any interleaving of additions, runtime failures with their
    rollbacks and removals, no CPU is given to two containers or left in the
    shared pool while it is assigned, and the reserved CPUs stay shared. *)
Theorem manager_exclusive `{SortSlice} {St} `{State St, !StateLaws St}
    (tp : CPUTopology) (numReserved : Z) (p : staticPolicy) (s0 s1 s : St) (pending : list string) :
  NewStaticPolicy tp numReserved = Some p →
  (∀ id id' c c', assignments (mem s0) !! id = Some c → assignments (mem s0) !! id' = Some c' →
     id ≠ id' → c ## c') →
  PolicyStart (static p) s0 = Ok s1 →
  rtc (mstep p) (s1, []) (s, pending) →
  exclusive p (mem s) ∧ Size (reserved p) = numReserved.
Proof.
  intros Hp Hpair Hstart Hrun. apply NewStaticPolicy_reserved in Hp as (Htp & Hres & Hsz).
  split; [|done]. apply (msteps_exclusive p _ _ Hrun). simpl.
  eapply validateState_exclusive; [exact Hstart|by rewrite Htp|done].
Qed.

(** The reconcile loop keeps exclusivity, whatever pods are active, whatever
    their status and whatever the runtime answers. *)
Theorem reconcileState_keeps_exclusive `{SortSlice} {St} `{State St, !StateLaws St} {R}
    (update : string → string → R → option ManagerError * R)
    (status : string → option PodStatus)
    (p : staticPolicy) (pods : list Pod) (m : St * R) :
  exclusive p (mem m.1) →
  exclusive p (mem (reconcileState (static p) update status pods m).2.1).
Proof. apply reconcileState_exclusive. Qed.

(** The static policy accepts at its start a stored state in which two
    containers hold the same CPU: validation compares each assignment with the
    shared pool and never with another assignment, so exclusivity is not
    established from such a state. *)
Theorem validateState_accepts_overlap (p : staticPolicy) (d : CPUSet) (id id' : string) (c : CPUSet) :
  id ≠ id' → d ≠ ∅ → c ## d → reserved p ⊆ d → CPUs (Details (topology p)) = d ∪ c →
  let s := mkMemory (<[id := c]> {[id' := c]}) d in
  validateState p s = Ok s.
Proof.
  intros Hne Hd Hdisj Hres Hcpus s. unfold validateState. simpl.
  destruct (IsEmpty d) eqn:Ee; [by apply IsEmpty_spec in Ee|].
  assert (Equals (Intersection (reserved p) (Clone d)) (reserved p) = true) as ->.
  { apply bool_decide_eq_true. unfold Clone. rewrite Intersection_spec. set_solver. }
  assert (∀ j x, (<[id := c]> {[id' := c]} : ContainerCPUAssignments) !! j = Some x → x = c) as Hc.
  { intros j x [[_ <-]|[_ Hj]]%lookup_insert_Some; [done|].
    apply lookup_singleton_Some in Hj as [_ <-]. done. }
  cbn [negb]. unfold Clone.
  assert (find_overlap d (<[id := c]> {[id' := c]}) = None) as ->.
  { apply find_overlap_None. intros j x Hj. by rewrite (Hc j x Hj). }
  assert (Equals (fold_left (λ total kv, Union total kv.2) (map_to_list (<[id := c]> {[id' := c]})) d)
    (CPUs (Details (topology p))) = true) as ->; [|by rewrite Ee].
  apply bool_decide_eq_true, set_eq. intros x. rewrite elem_of_total_known, Hcpus, elem_of_union.
  f_equiv. split.
  - intros ([j y] & Hj%elem_of_map_to_list & Hx). by rewrite (Hc j y Hj) in Hx.
  - intros Hx. exists (id, c). split; [|done]. apply elem_of_map_to_list, lookup_insert_eq.
Qed.

(** ** Witnesses *)

#[local] Existing Instance InsertionSort.

(** The policy on the example machine with two CPUs reserved, started on an empty
    state. *)
Definition ex_policy : staticPolicy := mkStatic ex_topo (NewCPUSet [0; 6]).

Lemma ex_policy_new : NewStaticPolicy ex_topo 2 = Some ex_policy.
Proof. vm_compute. reflexivity. Qed.

Definition ex_started : stateMemory := mkMemory ∅ (CPUs (Details ex_topo)).

Lemma ex_start : validateState ex_policy NewMemoryState = Ok ex_started.
Proof. vm_compute. reflexivity. Qed.

Lemma ex_started_exclusive : exclusive ex_policy (mem ex_started).
Proof.
  apply (validateState_exclusive ex_policy NewMemoryState ex_started ex_start).
  - apply IsSubsetOf_spec. vm_compute. reflexivity.
  - intros id id' c c' Hid. discriminate.
Qed.

Lemma AddContainer_correct_witness :
  guaranteedCPUs (ex_pod 2) (ex_container 2 64) = 2 ∧
  exclusive ex_policy
    (mem (AddContainer ex_policy ex_started (ex_pod 2) (ex_container 2 64) "c1").2).
Proof.
  split; [vm_compute; reflexivity|].
  pose proof (AddContainer_correct ex_policy ex_started (ex_pod 2) (ex_container 2 64) "c1"
    ex_started_exclusive) as H.
  destruct (AddContainer ex_policy ex_started _ _ _) as [err s']. destruct H as [H _]. exact H.
Defined.

Lemma AddContainer_rollback_witness :
  mem (manager_AddContainer (static ex_policy)
    (λ _ _ r, (Some (RuntimeError "refused"), r)) (ex_pod 2) (ex_container 2 64) "c1"
    (ex_started, tt)).2.1 = ex_started.
Proof.
  destruct (AddContainer_rollback (λ _ _ r, (Some (RuntimeError "refused"), r)) ex_policy ex_started
    tt (ex_pod 2) (ex_container 2 64) "c1" ex_started_exclusive) as [H _]; [reflexivity|].
  apply (H (RuntimeError "refused")).
  rewrite (surjective_pairing (manager_AddContainer _ _ _ _ _ _)) at 1. f_equal.
Defined.

Lemma manager_exclusive_witness :
  exclusive ex_policy
    (mem (AddContainer ex_policy ex_started (ex_pod 2) (ex_container 2 64) "c1").2).
Proof.
  apply (manager_exclusive ex_topo 2 ex_policy NewMemoryState ex_started _ ["c1"]
    ex_policy_new).
  - intros id id' c c' Hid. discriminate.
  - exact ex_start.
  - apply rtc_once, (step_add _ _ _ _ (ex_pod 2) (ex_container 2 64)). vm_compute. reflexivity.
Defined.

Lemma reconcileState_keeps_exclusive_witness :
  exclusive ex_policy
    (mem (reconcileState (static ex_policy) (λ _ _ r, (None, r))
      (λ _, Some (mkPodStatus [mkContainerStatus "main" "docker://c1"] PodRunning)) [ex_pod 2]
      (ex_started, tt)).2.1).
Proof. apply reconcileState_keeps_exclusive. exact ex_started_exclusive. Defined.

Lemma validateState_accepts_overlap_witness :
  let s := mkMemory (<["a" := NewCPUSet [3]]> {["b" := NewCPUSet [3]]})
             (CPUs (Details ex_topo) ∖ {[3]}) in
  validateState ex_policy s = Ok s.
Proof.
  apply validateState_accepts_overlap.
  - discriminate.
  - vm_compute. discriminate.
  - apply disjoint_intersection_L. vm_compute. reflexivity.
  - apply IsSubsetOf_spec. vm_compute. reflexivity.
  - vm_compute. reflexivity.
Defined.
