(* ===== verification/Workqueue.v ===== *)
(** * The work queue

    [staging/src/k8s.io/client-go/util/workqueue/queue.go]: the queue the
    controllers take their keys from. Every method runs under the queue's lock, so
    it is one step; [Get] waits until it can take one. The metrics are left out. *)

From S2P Require Import Prelude.

Section workqueue.
(** Items are compared and hashed as map keys. *)
Context {t : Type} `{Countable t}.

Record Queue : Type := mkQueue {
  queue : list t;
  dirty : gset t;
  processing : gset t;
  shuttingDown : bool;
}.

Definition newQueue : Queue := mkQueue [] ∅ ∅ false.

Definition Add (item : t) (q : Queue) : Queue :=
  if shuttingDown q then q
  else if bool_decide (item ∈ dirty q) then q
  else
    let dirty := {[item]} ∪ dirty q in
    if bool_decide (item ∈ processing q) then
      mkQueue (queue q) dirty (processing q) (shuttingDown q)
    else mkQueue (queue q ++ [item]) dirty (processing q) (shuttingDown q).

Definition Len (q : Queue) : Z := Z.of_nat (length (queue q)).

(** What [Get] does when it runs: wait, report the shutdown, or hand out an item. *)
Inductive GetResult : Type :=
  | Wait
  | Shutdown
  | Item (item : t) (q : Queue).

Definition Get (q : Queue) : GetResult :=
  match queue q with
  | [] => if shuttingDown q then Shutdown else Wait
  | item :: rest =>
      Item item (mkQueue rest (dirty q ∖ {[item]}) ({[item]} ∪ processing q) (shuttingDown q))
  end.

Definition Done (item : t) (q : Queue) : Queue :=
  let processing := processing q ∖ {[item]} in
  if bool_decide (item ∈ dirty q) then
    mkQueue (queue q ++ [item]) (dirty q) processing (shuttingDown q)
  else mkQueue (queue q) (dirty q) processing (shuttingDown q).

Definition ShutDown (q : Queue) : Queue := mkQueue (queue q) (dirty q) (processing q) true.

Definition ShuttingDown (q : Queue) : bool := shuttingDown q.

(** ** Runs

    [held] are the items workers got and are not done with, one entry per [Get].
    A worker calls [Done] for an item it holds, as the documentation asks. *)

Inductive label : Type :=
  | LAdd (item : t)
  | LGet (item : t)
  | LExit
  | LDone (item : t)
  | LShutDown.

Inductive step : Queue * list t → label → Queue * list t → Prop :=
  | step_Add q held item : step (q, held) (LAdd item) (Add item q, held)
  | step_Get q q' held item :
      Get q = Item item q' → step (q, held) (LGet item) (q', item :: held)
  | step_Exit q held : Get q = Shutdown → step (q, held) LExit (q, held)
  | step_Done q pre item post :
      step (q, pre ++ item :: post) (LDone item) (Done item q, pre ++ post)
  | step_ShutDown q held : step (q, held) LShutDown (ShutDown q, held).

Inductive run : Queue * list t → list label → Queue * list t → Prop :=
  | run_nil s : run s [] s
  | run_cons s l s' ls s'' : step s l s' → run s' ls s'' → run s (l :: ls) s''.

(** ** The invariant *)

Record queue_inv (s : Queue * list t) : Prop := {
  inv_nodup : NoDup (queue s.1);
  inv_queue x : x ∈ queue s.1 ↔ x ∈ dirty s.1 ∧ x ∉ processing s.1;
  inv_held_nodup : NoDup s.2;
  inv_held x : x ∈ s.2 ↔ x ∈ processing s.1;
}.

Lemma queue_inv_init : queue_inv (newQueue, []).
Proof. split; simpl; try apply NoDup_nil_2; set_solver. Qed.

Lemma NoDup_snoc (l : list t) x : NoDup l → x ∉ l → NoDup (l ++ [x]).
Proof. intros Hl Hx. apply NoDup_app. split_and!; [done|set_solver|apply NoDup_singleton]. Qed.

Lemma Add_inv q held item : queue_inv (q, held) → queue_inv (Add item q, held).
Proof.
  intros [Hn Hq Hh Hp]. unfold Add. simpl in *. destruct (shuttingDown q) eqn:Es; [done|].
  case_bool_decide as Hd; [done|]. case_bool_decide as Hpr.
  - split; simpl; [done| |done|done]. intros x. rewrite Hq. set_solver.
  - split; simpl; [| |done|done].
    + apply NoDup_snoc; [done|]. rewrite Hq. tauto.
    + intros x. rewrite elem_of_app, Hq. set_solver.
Qed.

Lemma Get_inv q q' held item :
  queue_inv (q, held) → Get q = Item item q' → queue_inv (q', item :: held).
Proof.
  intros [Hn Hq Hh Hp] Hg. unfold Get in Hg. simpl in *.
  destruct (queue q) as [|x rest] eqn:E; [by destruct (shuttingDown q)|].
  injection Hg as <- <-. apply NoDup_cons in Hn as [Hx Hn].
  assert (x ∈ dirty q ∧ x ∉ processing q) as [Hxd Hxp] by (apply Hq; left).
  split; simpl; [done| | |].
  - intros y. specialize (Hq y). rewrite elem_of_cons in Hq.
    rewrite elem_of_difference, elem_of_union, elem_of_singleton.
    destruct (decide (y = x)) as [-> |Hne]; [tauto|]. tauto.
  - apply NoDup_cons. split; [|done]. rewrite Hp. done.
  - intros y. rewrite elem_of_cons, Hp. set_solver.
Qed.

Lemma Done_inv q pre item post :
  queue_inv (q, pre ++ item :: post) → queue_inv (Done item q, pre ++ post).
Proof.
  intros [Hn Hq Hh Hp]. simpl in *. unfold Done.
  rewrite <- Permutation_middle in Hh. apply NoDup_cons in Hh as [Hi Hh].
  assert (item ∈ processing q) as Hip by (apply Hp; set_solver).
  assert (∀ x, x ∈ pre ++ post ↔ x ∈ processing q ∖ {[item]}) as Hp'.
  { intros x. rewrite elem_of_difference, <- Hp, elem_of_singleton.
    rewrite !elem_of_app, elem_of_cons. split; [|tauto].
    intros Hx. split; [tauto|]. intros ->. apply Hi. by apply elem_of_app. }
  case_bool_decide as Hd; split; simpl; try done.
  - apply NoDup_snoc; [done|]. rewrite Hq. tauto.
  - intros x. rewrite elem_of_app, Hq, list_elem_of_singleton, elem_of_difference,
      elem_of_singleton. destruct (decide (x = item)) as [-> |]; tauto.
  - intros x. rewrite Hq, elem_of_difference, elem_of_singleton.
    destruct (decide (x = item)) as [-> |]; tauto.
Qed.

Lemma step_inv s l s' : step s l s' → queue_inv s → queue_inv s'.
Proof.
  intros Hs Hi. inversion Hs; subst.
  - by apply Add_inv.
  - by eapply Get_inv.
  - done.
  - by apply Done_inv.
  - destruct Hi. by split.
Qed.

Lemma run_inv s ls s' : run s ls s' → queue_inv s → queue_inv s'.
Proof. induction 1; eauto using step_inv. Qed.

(** ** No work is lost *)

Lemma step_dirty s l s' x :
  step s l s' → x ∈ dirty s.1 → l = LGet x ∨ x ∈ dirty s'.1.
Proof.
  intros Hs Hx.
  inversion Hs as [q held i|q q' held i Hg| |q pre i post|]; subst; simpl in *; auto.
  - right. unfold Add. repeat case_match; simpl; set_solver.
  - unfold Get in Hg. destruct (queue q) as [|y rest]; [by destruct (shuttingDown q)|].
    injection Hg as <- <-. simpl. destruct (decide (x = y)) as [-> |]; [by left|right; set_solver].
  - right. unfold Done. case_bool_decide; done.
Qed.

Lemma run_dirty s ls s' x :
  run s ls s' → x ∈ dirty s.1 → LGet x ∈ ls ∨ x ∈ dirty s'.1.
Proof.
  induction 1 as [|s l s1 ls s2 Hs Hr IH]; intros Hx; [by right|].
  destruct (step_dirty _ _ _ x Hs Hx) as [-> |Hx']; [left; left|].
  destruct (IH Hx'); [left; by right|by right].
Qed.

(** The number of items handed out in a run. *)
Definition is_get (l : label) : bool := match l with LGet _ => true | _ => false end.
Definition gets (ls : list label) : nat := length (List.filter is_get ls).

(** A step other than a [Get] leaves the queue or appends to it. *)
Lemma step_queue s l s' :
  step s l s' →
  (∃ x, l = LGet x ∧ queue s.1 = x :: queue s'.1) ∨
  is_get l = false ∧ ∃ more, queue s'.1 = queue s.1 ++ more.
Proof.
  intros Hs. inversion Hs as [q held i|q q' held i Hg| |q pre i post|]; subst; simpl in *.
  - right. split; [done|]. unfold Add. repeat case_match; simpl;
      first [by exists [i]|by exists []; rewrite app_nil_r].
  - left. unfold Get in Hg. destruct (queue q) as [|y rest]; [by destruct (shuttingDown q)|].
    injection Hg as <- <-. by exists y.
  - right. split; [done|]. exists []. by rewrite app_nil_r.
  - right. split; [done|]. unfold Done. case_bool_decide; simpl;
      first [by exists [i]|by exists []; rewrite app_nil_r].
  - right. split; [done|]. exists []. by rewrite app_nil_r.
Qed.

Lemma run_fifo s ls s' pre x post :
  run s ls s' → queue s.1 = pre ++ x :: post → (length pre < gets ls)%nat → LGet x ∈ ls.
Proof.
  intros Hr. revert pre post. induction Hr as [|s l s1 ls s2 Hs Hr IH]; intros pre post Hq Hlt.
  { unfold gets in Hlt. simpl in Hlt. lia. }
  destruct (step_queue _ _ _ Hs) as [(y & -> & Hy)|(Hng & more & Hm)].
  - unfold gets in Hlt. simpl in Hlt. rewrite Hq in Hy.
    destruct pre as [|z pre]; simpl in Hy; injection Hy as -> Hy; [left|].
    right. apply (IH pre post); [done|]. unfold gets. simpl in Hlt. lia.
  - right. apply (IH pre (post ++ more)).
    + rewrite Hm, Hq, <- app_assoc. done.
    + unfold gets in *. simpl in Hlt. by rewrite Hng in Hlt.
Qed.

(** ** Correctness *)

(** C23: in every state the queue reaches, an item is handed to at most one worker
    at a time, the queue has no duplicates, and an item is queued exactly when it
    needs processing and no worker holds it. *)
Theorem workqueue_exclusive ls q held :
  run (newQueue, []) ls (q, held) →
  NoDup held ∧ (∀ x, x ∈ held ↔ x ∈ processing q) ∧ NoDup (queue q) ∧
  ∀ x, x ∈ queue q ↔ x ∈ dirty q ∧ x ∉ processing q.
Proof.
  intros Hr. destruct (run_inv _ _ _ Hr queue_inv_init) as [Hn Hq Hh Hp]. done.
Qed.

(** C24: no addition is lost and none is overtaken: an item added to a queue that
    is not shutting down is handed out later or still needs processing; if it was
    not held it is handed out at the latest by the [Get] whose number is its
    place in the queue; and when a worker is told to exit while no item is held,
    every item ever added has been handed out after its last addition. *)
Theorem workqueue_no_lost_work ls0 q held item ls q' held' :
  run (newQueue, []) ls0 (q, held) → shuttingDown q = false →
  run (Add item q, held) ls (q', held') →
  (LGet item ∈ ls ∨ item ∈ dirty q') ∧
  (item ∉ held → (length (queue q) < gets ls)%nat → LGet item ∈ ls) ∧
  (Get q' = Shutdown → held' = [] → LGet item ∈ ls).
Proof.
  intros Hr0 Hsd Hr.
  pose proof (run_inv _ _ _ Hr0 queue_inv_init) as Hi.
  assert (item ∈ dirty (Add item q)) as Hd.
  { unfold Add. rewrite Hsd. repeat case_bool_decide; simpl; set_solver. }
  pose proof (run_dirty _ _ _ item Hr Hd) as Hout.
  pose proof (run_inv _ _ _ Hr (Add_inv _ _ _ Hi)) as Hi'.
  split_and!; [done| |].
  - intros Hnh Hlt.
    assert (item ∈ queue (Add item q)) as Hin.
    { apply (inv_queue _ (Add_inv _ _ item Hi)). split; [done|]. simpl.
      rewrite <- (inv_held _ (Add_inv _ _ item Hi)). done. }
    assert (length (queue (Add item q)) ≤ S (length (queue q)))%nat as Hlen.
    { unfold Add. repeat case_match; simpl; rewrite ?length_app; simpl; lia. }
    apply list_elem_of_split in Hin as (pre & post & Hsplit).
    apply (run_fifo _ _ _ pre item post Hr Hsplit).
    simpl in Hsplit. rewrite Hsplit, length_app in Hlen. simpl in Hlen. lia.
  - intros Hg ->. destruct Hout as [?|Hd']; [done|]. exfalso.
    unfold Get in Hg. simpl in Hd'. destruct (queue q') eqn:E; [|done].
    assert (item ∈ queue q') as Hin; [|by rewrite E in Hin; apply not_elem_of_nil in Hin].
    apply (inv_queue _ Hi'). split; [done|]. simpl. rewrite <- (inv_held _ Hi'). simpl.
    apply not_elem_of_nil.
Qed.
End workqueue.
Arguments Queue t {_ _}.
Arguments label t : clear implicits.

(** ** Witnesses *)

(** Two items, one of them added again while it is held. *)
Definition ex_q1 : Queue Z := Add 2 (Add 1 newQueue).

Lemma ex_q1_run : run (newQueue, []) [LAdd 1; LAdd 2] (ex_q1, []).
Proof. repeat econstructor. Qed.

Lemma workqueue_exclusive_witness :
  run (newQueue, []) [LAdd 1; LAdd 2] (ex_q1, []) ∧ NoDup (queue ex_q1).
Proof.
  split; [exact ex_q1_run|]. apply (workqueue_exclusive _ _ _ ex_q1_run).
Defined.

Lemma workqueue_no_lost_work_witness :
  LGet 3 ∈ [LGet 1; LGet 2; LGet 3].
Proof.
  refine (proj1 (proj2 (workqueue_no_lost_work [LAdd 1; LAdd 2] ex_q1 [] 3
    [LGet 1; LGet 2; LGet 3] (mkQueue [] ∅ ({[3]} ∪ ({[2]} ∪ {[1]})) false) [3; 2; 1]
    ex_q1_run eq_refl _)) _ _).
  - repeat (eapply run_cons; [constructor; vm_compute; reflexivity|]). apply run_nil.
  - apply not_elem_of_nil.
  - vm_compute. lia.
Defined.
