(* ===== verification/Bitmap.v ===== *)
(** * Allocation bitmaps

    [pkg/registry/core/service/allocator]: [AllocationBitmap] ([bitmap.go]) and its
    bit counting ([utils.go]). A [big.Int] that holds a bitmap is a natural number
    as a [Z]; the random source of the random scan is an argument, the number it
    draws. *)

From S2P Require Import Prelude.

(** ** [big.Int] *)

Definition Bit (n : Z) (i : Z) : bool := Z.testbit n i.
Definition SetBit (n : Z) (i : Z) (b : bool) : Z :=
  if b then Z.setbit n i else Z.clearbit n i.

(** Little-endian bytes without a leading zero; [fuel] bounds their number. *)
Fixpoint le_bytes (fuel : nat) (n : Z) : list Z :=
  match fuel with
  | O => []
  | S fuel => if n =? 0 then [] else n `mod` 256 :: le_bytes fuel (n / 256)
  end.

(** [Bytes]: big-endian. A number has at most [log2 n + 1] bytes. *)
Definition Bytes (n : Z) : list Z := rev (le_bytes (Z.to_nat (Z.log2 n) + 1) n).

Definition SetBytes (data : list Z) : Z := fold_left (λ n b, n * 256 + b) data 0.

(** ** [utils.go] *)

Definition bitCounts : list Z :=
  [ 0; 1; 1; 2; 1; 2; 2; 3;
    1; 2; 2; 3; 2; 3; 3; 4;
    1; 2; 2; 3; 2; 3; 3; 4;
    2; 3; 3; 4; 3; 4; 4; 5;
    1; 2; 2; 3; 2; 3; 3; 4;
    2; 3; 3; 4; 3; 4; 4; 5;
    2; 3; 3; 4; 3; 4; 4; 5;
    3; 4; 4; 5; 4; 5; 5; 6;
    1; 2; 2; 3; 2; 3; 3; 4;
    2; 3; 3; 4; 3; 4; 4; 5;
    2; 3; 3; 4; 3; 4; 4; 5;
    3; 4; 4; 5; 4; 5; 5; 6;
    2; 3; 3; 4; 3; 4; 4; 5;
    3; 4; 4; 5; 4; 5; 5; 6;
    3; 4; 4; 5; 4; 5; 5; 6;
    4; 5; 5; 6; 5; 6; 6; 7;
    1; 2; 2; 3; 2; 3; 3; 4;
    2; 3; 3; 4; 3; 4; 4; 5;
    2; 3; 3; 4; 3; 4; 4; 5;
    3; 4; 4; 5; 4; 5; 5; 6;
    2; 3; 3; 4; 3; 4; 4; 5;
    3; 4; 4; 5; 4; 5; 5; 6;
    3; 4; 4; 5; 4; 5; 5; 6;
    4; 5; 5; 6; 5; 6; 6; 7;
    2; 3; 3; 4; 3; 4; 4; 5;
    3; 4; 4; 5; 4; 5; 5; 6;
    3; 4; 4; 5; 4; 5; 5; 6;
    4; 5; 5; 6; 5; 6; 6; 7;
    3; 4; 4; 5; 4; 5; 5; 6;
    4; 5; 5; 6; 5; 6; 6; 7;
    4; 5; 5; 6; 5; 6; 6; 7;
    5; 6; 6; 7; 6; 7; 7; 8 ].

Definition countBits (n : Z) : Z :=
  fold_left (λ count b, count + nth (Z.to_nat b) bitCounts 0) (Bytes n) 0.

(** ** [AllocationBitmap] *)

(** A strategy takes the bitmap, [max] and [count]. *)
Definition bitAllocator : Type := Z → Z → Z → option Z.

Record AllocationBitmap : Type := mkBitmap {
  max : Z;
  rangeSpec : string;
  count : Z;
  allocated : Z;
}.

Definition NewAllocationMap (max : Z) (rangeSpec : string) : AllocationBitmap :=
  mkBitmap max rangeSpec 0 0.

(** The loop [for i := 0; i < max; i++] of both strategies, [at_] giving the offset
    that turn [i] tries. *)
Fixpoint scan (allocated : Z) (at_ : Z → Z) (i : Z) (turns : nat) : option Z :=
  match turns with
  | O => None
  | S turns =>
      if negb (Bit allocated (at_ i)) then Some (at_ i) else scan allocated at_ (i + 1) turns
  end.

Definition randomScanStrategy (offset : Z) : bitAllocator := λ allocated max count,
  if max <=? count then None
  else scan allocated (λ i, (offset + i) `mod` max) 0 (Z.to_nat max).

Definition contiguousScanStrategy : bitAllocator := λ allocated max count,
  if max <=? count then None else scan allocated (λ i, i) 0 (Z.to_nat max).

Definition Allocate (r : AllocationBitmap) (offset : Z) : bool * AllocationBitmap :=
  if Bit (allocated r) offset then (false, r)
  else
    (true, mkBitmap (max r) (rangeSpec r) (count r + 1) (SetBit (allocated r) offset true)).

Definition AllocateNext (strategy : bitAllocator) (r : AllocationBitmap) :
    option Z * AllocationBitmap :=
  match strategy (allocated r) (max r) (count r) with
  | None => (None, r)
  | Some next =>
      (Some next,
       mkBitmap (max r) (rangeSpec r) (count r + 1) (SetBit (allocated r) next true))
  end.

Definition Release (r : AllocationBitmap) (offset : Z) : AllocationBitmap :=
  if negb (Bit (allocated r) offset) then r
  else mkBitmap (max r) (rangeSpec r) (count r - 1) (SetBit (allocated r) offset false).

Definition Has (r : AllocationBitmap) (offset : Z) : bool := Bit (allocated r) offset.

Definition Free (r : AllocationBitmap) : Z := max r - count r.

Definition Snapshot (r : AllocationBitmap) : string * list Z := (rangeSpec r, Bytes (allocated r)).

(** [Restore]; [None] is the error about the range. *)
Definition Restore (r : AllocationBitmap) (spec : string) (data : list Z) :
    option AllocationBitmap :=
  if negb (bool_decide (rangeSpec r = spec)) then None
  else
    let allocated := SetBytes data in
    Some (mkBitmap (max r) (rangeSpec r) (countBits allocated) allocated).

(** [ForEach], as the list of the offsets the function is called on: the words of
    the bitmap from the lowest, and the bits of a word from the lowest. *)
Definition wordBits : Z := 64.

Fixpoint le_words (fuel : nat) (n : Z) : list Z :=
  match fuel with
  | O => []
  | S fuel => if n =? 0 then [] else n `mod` 2 ^ wordBits :: le_words fuel (n / 2 ^ wordBits)
  end.

(** The loop [for word > 0], [turns] being the bits of a word. *)
Fixpoint word_bits (turns : nat) (word base bit : Z) : list Z :=
  match turns with
  | O => []
  | S turns =>
      if 0 <? word then
        (if negb (Z.land word 1 =? 0) then [base + bit] else []) ++
        word_bits turns (Z.shiftr word 1) base (bit + 1)
      else []
  end.

Fixpoint words_bits (words : list Z) (wordIdx : Z) : list Z :=
  match words with
  | [] => []
  | word :: words =>
      word_bits (Z.to_nat wordBits) word (wordIdx * wordBits) 0 ++ words_bits words (wordIdx + 1)
  end.

Definition ForEach (r : AllocationBitmap) : list Z :=
  words_bits (le_words (Z.to_nat (Z.log2 (allocated r)) + 1) (allocated r)) 0.

(** ** The set of the bits of a number *)

Definition bits (n : Z) : gset Z :=
  list_to_set (List.filter (Z.testbit n) (seqZ 0 (Z.log2 n + 1))).

Lemma testbit_range n i : 0 ≤ n → Z.testbit n i = true → 0 ≤ i ≤ Z.log2 n.
Proof.
  intros Hn Hb. destruct (decide (i < 0)); [by rewrite Z.testbit_neg_r in Hb|].
  destruct (decide (Z.log2 n < i)); [by rewrite Z.bits_above_log2 in Hb by lia|]. lia.
Qed.

Lemma elem_of_bits n i : 0 ≤ n → i ∈ bits n ↔ Z.testbit n i = true.
Proof.
  intros Hn. unfold bits.
  rewrite elem_of_list_to_set, list_elem_of_In, filter_In, <- list_elem_of_In, elem_of_seqZ.
  split; [tauto|]. intros Hb. split; [|done]. pose proof (testbit_range n i Hn Hb). lia.
Qed.

Lemma bits_setbit n i : 0 ≤ n → 0 ≤ i → bits (Z.setbit n i) = {[i]} ∪ bits n.
Proof.
  intros Hn Hi. assert (0 ≤ Z.setbit n i).
  { rewrite Z.setbit_spec'. apply Z.lor_nonneg. split; [done|]. apply Z.pow_nonneg. lia. }
  apply set_eq. intros j. rewrite elem_of_union, elem_of_singleton, !elem_of_bits by done.
  destruct (decide (j = i)) as [-> |Hne].
  - rewrite Z.setbit_eq by done. tauto.
  - rewrite Z.setbit_neq by lia. tauto.
Qed.

Lemma bits_clearbit n i : 0 ≤ n → bits (Z.clearbit n i) = bits n ∖ {[i]}.
Proof.
  intros Hn. assert (0 ≤ Z.clearbit n i) by (by apply Z.ldiff_nonneg; left).
  apply set_eq. intros j. rewrite elem_of_difference, elem_of_singleton, !elem_of_bits by done.
  destruct (decide (j = i)) as [-> |Hne].
  - rewrite Z.clearbit_eq. naive_solver.
  - rewrite Z.clearbit_neq by lia. tauto.
Qed.

(** *** Counting them *)

(** The number of set bits below [k]. *)
Fixpoint popcount (n : Z) (k : nat) : Z :=
  match k with
  | O => 0
  | S k => Z.b2z (Z.odd n) + popcount (n / 2) k
  end.

Lemma popcount_0 k : popcount 0 k = 0.
Proof. induction k as [|k IH]; [done|]. simpl. exact IH. Qed.

Lemma popcount_split n j k :
  0 ≤ n → popcount n (j + k) = popcount (n `mod` 2 ^ Z.of_nat j) j + popcount (n / 2 ^ Z.of_nat j) k.
Proof.
  revert n. induction j as [|j IH]; intros n Hn.
  { cbn [Nat.add popcount]. by rewrite Z.div_1_r. }
  cbn [Nat.add popcount]. rewrite IH by (apply Z.div_pos; lia).
  replace (Z.of_nat (S j)) with (Z.succ (Z.of_nat j)) by lia.
  rewrite Z.pow_succ_r by lia. rewrite Z.div_div by lia.
  assert (Z.odd (n `mod` (2 * 2 ^ Z.of_nat j)) = Z.odd n) as ->.
  { rewrite Z.rem_mul_r by lia. by rewrite Z.odd_add_mul_2, <- Z.bit0_mod, Z.bit0_odd;
      destruct (Z.odd n). }
  assert ((n `mod` (2 * 2 ^ Z.of_nat j)) / 2 = (n / 2) `mod` 2 ^ Z.of_nat j) as ->; [|lia].
  rewrite Z.rem_mul_r by lia. rewrite (Z.mul_comm 2), Z.div_add by lia.
  rewrite (Z.div_small (n `mod` 2)); [lia|]. apply Z.mod_pos_bound. lia.
Qed.

Lemma size_map_succ (X : gset Z) : size (set_map Z.succ X : gset Z) = size X.
Proof.
  unfold set_map. rewrite size_list_to_set; [by rewrite length_fmap|].
  apply NoDup_fmap; [|apply NoDup_elements]. intros x y. lia.
Qed.

Lemma popcount_size n k : 0 ≤ n < 2 ^ Z.of_nat k → popcount n k = Z.of_nat (size (bits n)).
Proof.
  revert n. induction k as [|k IH]; intros n Hn.
  { simpl in Hn. replace n with 0 by lia. reflexivity. }
  cbn [popcount]. assert (0 ≤ n / 2 < 2 ^ Z.of_nat k) as Hh.
  { rewrite Nat2Z.inj_succ, Z.pow_succ_r in Hn by lia.
    split; [apply Z.div_pos; lia|apply Z.div_lt_upper_bound; lia]. }
  rewrite IH by done.
  assert (bits n = (if Z.odd n then {[0]} else ∅) ∪ set_map Z.succ (bits (n / 2))) as ->.
  { apply set_eq. intros i. rewrite elem_of_union, elem_of_map, elem_of_bits by lia.
    setoid_rewrite elem_of_bits; [|lia].
    assert (∀ j, 0 ≤ j → Z.testbit (n / 2) j = Z.testbit n (Z.succ j)) as Hs.
    { intros j Hj. rewrite <- Z.div2_div, Z.div2_spec, Z.shiftr_spec by done. done. }
    split.
    - intros Hb. pose proof (testbit_range n i ltac:(lia) Hb).
      destruct (decide (i = 0)) as [-> |]; [left; rewrite Z.bit0_odd in Hb; rewrite Hb; set_solver|].
      right. exists (Z.pred i). split; [lia|]. rewrite Hs by lia. by rewrite Z.succ_pred.
    - intros [Hi|(j & -> & Hj)].
      + destruct (Z.odd n) eqn:E; [|set_solver]. apply elem_of_singleton in Hi as ->.
        by rewrite Z.bit0_odd.
      + pose proof (testbit_range (n / 2) j ltac:(lia) Hj). by rewrite <- Hs by lia. }
  rewrite size_union.
  - rewrite size_map_succ. destruct (Z.odd n); rewrite ?size_singleton, ?size_empty; simpl; lia.
  - intros i Hi (j & -> & Hj)%elem_of_map. apply elem_of_bits in Hj; [|lia].
    pose proof (testbit_range (n / 2) j ltac:(lia) Hj).
    destruct (Z.odd n); [apply elem_of_singleton in Hi; lia|set_solver].
Qed.

(** *** Bytes *)

Lemma log2_fuel n : 0 ≤ n → n < 2 ^ Z.of_nat (Z.to_nat (Z.log2 n) + 1).
Proof.
  intros Hn. destruct (decide (n = 0)) as [-> |]; [done|].
  pose proof (Z.log2_nonneg n). destruct (Z.log2_spec n); [lia|].
  replace (Z.of_nat (Z.to_nat (Z.log2 n) + 1)) with (Z.succ (Z.log2 n)) by lia. done.
Qed.

Lemma log2_fuel_bytes n : 0 ≤ n → n < 2 ^ (8 * Z.of_nat (Z.to_nat (Z.log2 n) + 1)).
Proof.
  intros Hn. eapply Z.lt_le_trans; [by apply log2_fuel|]. apply Z.pow_le_mono_r; lia.
Qed.

Lemma bitCounts_table b : 0 ≤ b < 256 → nth (Z.to_nat b) bitCounts 0 = popcount b 8.
Proof.
  intros Hb.
  assert (forallb (λ b, nth (Z.to_nat b) bitCounts 0 =? popcount b 8) (seqZ 0 256) = true) as Ht
    by (vm_compute; reflexivity).
  rewrite forallb_elem in Ht. apply Z.eqb_eq, Ht, elem_of_seqZ. lia.
Qed.

Lemma sum_fold_left {A} (f : A → Z) (l : list A) (a : Z) :
  fold_left (λ c b, c + f b) l a = a + foldr (λ b c, f b + c) 0 l.
Proof.
  revert a. induction l as [|b l IH]; intros a; simpl; [lia|]. rewrite IH. lia.
Qed.

Lemma sum_rev {A} (f : A → Z) (l : list A) :
  foldr (λ b c, f b + c) 0 (rev l) = foldr (λ b c, f b + c) 0 l.
Proof.
  apply (foldr_permutation_proper eq (λ b c, f b + c) 0); [|symmetry; apply Permutation_rev].
  intros x y z. lia.
Qed.

Lemma le_bytes_step n : 0 ≤ n → 0 ≤ n / 256 ∧ n = n / 256 * 256 + n `mod` 256 ∧
  0 ≤ n `mod` 256 < 256.
Proof.
  intros Hn. pose proof (Z.div_mod n 256). pose proof (Z.mod_pos_bound n 256).
  pose proof (Z.div_pos n 256). lia.
Qed.

Lemma byte_shrinks n fuel :
  0 ≤ n → n < 2 ^ (8 * Z.of_nat (S fuel)) → n / 256 < 2 ^ (8 * Z.of_nat fuel).
Proof.
  intros Hn Hlt. replace (8 * Z.of_nat (S fuel)) with (8 + 8 * Z.of_nat fuel) in Hlt by lia.
  rewrite Z.pow_add_r in Hlt by lia. apply Z.div_lt_upper_bound; lia.
Qed.

Lemma le_bytes_value fuel n :
  0 ≤ n → n < 2 ^ (8 * Z.of_nat fuel) → foldr (λ b n, n * 256 + b) 0 (le_bytes fuel n) = n.
Proof.
  revert n. induction fuel as [|fuel IH]; intros n Hn Hlt; [simpl in *; lia|].
  cbn [le_bytes]. destruct (Z.eqb_spec n 0) as [-> |Hne]; [done|]. cbn [foldr].
  pose proof (le_bytes_step n Hn). rewrite IH; [lia|lia|by apply byte_shrinks].
Qed.

Lemma le_bytes_count fuel n :
  0 ≤ n → foldr (λ b c, nth (Z.to_nat b) bitCounts 0 + c) 0 (le_bytes fuel n) =
    popcount n (8 * fuel).
Proof.
  revert n. induction fuel as [|fuel IH]; intros n Hn; [done|].
  cbn [le_bytes]. destruct (Z.eqb_spec n 0) as [-> |Hne]; [by rewrite popcount_0|]. cbn [foldr].
  pose proof (le_bytes_step n Hn). rewrite IH by lia.
  replace (8 * S fuel)%nat with (8 + 8 * fuel)%nat by lia. rewrite popcount_split by done.
  change (2 ^ Z.of_nat 8) with 256. rewrite bitCounts_table by lia. done.
Qed.

(** [countBits], with its table, counts the set bits. *)
Lemma countBits_spec n : 0 ≤ n → countBits n = Z.of_nat (size (bits n)).
Proof.
  intros Hn. unfold countBits, Bytes. rewrite sum_fold_left, sum_rev, le_bytes_count by done.
  rewrite Z.add_0_l. apply popcount_size. split; [done|].
  eapply Z.lt_le_trans; [by apply log2_fuel_bytes|]. apply Z.pow_le_mono_r; lia.
Qed.

Lemma SetBytes_Bytes n : 0 ≤ n → SetBytes (Bytes n) = n.
Proof.
  intros Hn. unfold SetBytes, Bytes. rewrite <- fold_left_rev_right, rev_involutive.
  apply le_bytes_value; [done|by apply log2_fuel_bytes].
Qed.

(** *** Iterating over the bits *)

Lemma elem_of_word_bits turns word base bit x :
  0 ≤ word →
  x ∈ word_bits turns word base bit ↔
    ∃ j, 0 ≤ j < Z.of_nat turns ∧ Z.testbit word j = true ∧ x = base + bit + j.
Proof.
  revert word bit. induction turns as [|turns IH]; intros word bit Hw; cbn [word_bits].
  { split; [by intros ?%not_elem_of_nil|]. intros (j & ? & _). lia. }
  destruct (Z.ltb_spec 0 word) as [Hpos|Hpos].
  - assert (0 ≤ Z.shiftr word 1) by (by apply Z.shiftr_nonneg).
    rewrite elem_of_app, IH by done.
    assert (∀ j, 0 ≤ j → Z.testbit (Z.shiftr word 1) j = Z.testbit word (j + 1)) as Hs
      by (intros; by apply Z.shiftr_spec).
    assert (negb (Z.land word 1 =? 0) = Z.testbit word 0) as ->.
    { rewrite Z.bit0_odd. change (Z.land word 1) with (Z.land word (Z.ones 1)).
      rewrite Z.land_ones by lia. change (2 ^ 1) with 2.
      rewrite Zmod_odd. by destruct (Z.odd word). }
    split.
    + intros [Hx|(j & Hj & Hb & ->)].
      * destruct (Z.testbit word 0) eqn:E; [|by apply not_elem_of_nil in Hx].
        apply list_elem_of_singleton in Hx as ->. exists 0. split_and!; [lia..|done|lia].
      * exists (j + 1). rewrite Hs in Hb by lia. split_and!; [lia..|done|lia].
    + intros (j & Hj & Hb & ->). destruct (decide (j = 0)) as [-> |].
      * left. rewrite Hb. apply list_elem_of_singleton. lia.
      * right. exists (j - 1). split_and!; [lia..| |lia]. rewrite Hs by lia.
        replace (j - 1 + 1) with j by lia. done.
  - replace word with 0 by lia. split; [by intros ?%not_elem_of_nil|].
    intros (j & _ & Hb & _). by rewrite Z.testbit_0_l in Hb.
Qed.

Lemma elem_of_words_bits fuel n idx x :
  0 ≤ n →  n < 2 ^ (wordBits * Z.of_nat fuel) →
  x ∈ words_bits (le_words fuel n) idx ↔
    ∃ j, Z.testbit n j = true ∧ x = idx * wordBits + j.
Proof.
  revert n idx. induction fuel as [|fuel IH]; intros n idx Hn Hlt.
  { rewrite Z.mul_0_r in Hlt. replace n with 0 by lia. simpl.
    split; [by intros ?%not_elem_of_nil|]. intros (j & Hb & _). by rewrite Z.testbit_0_l in Hb. }
  cbn [le_words]. destruct (Z.eqb_spec n 0) as [-> |Hne].
  { split; [by intros ?%not_elem_of_nil|]. intros (j & Hb & _). by rewrite Z.testbit_0_l in Hb. }
  cbn [words_bits]. unfold wordBits in *.
  assert (0 ≤ n / 2 ^ 64) by (apply Z.div_pos; lia).
  assert (n / 2 ^ 64 < 2 ^ (64 * Z.of_nat fuel)).
  { replace (64 * Z.of_nat (S fuel)) with (64 + 64 * Z.of_nat fuel) in Hlt by lia.
    rewrite Z.pow_add_r in Hlt by lia. apply Z.div_lt_upper_bound; lia. }
  rewrite elem_of_app, elem_of_word_bits, IH by (done || apply Z.mod_pos_bound; lia).
  rewrite Z2Nat.id by lia. split.
  - intros [(j & Hj & Hb & ->)|(j & Hb & ->)].
    + exists j. rewrite Z.mod_pow2_bits_low in Hb by lia. split; [done|lia].
    + exists (j + 64). assert (0 ≤ j) by (eapply testbit_range; [|done]; lia).
      rewrite Z.div_pow2_bits in Hb by lia. split; [done|lia].
  - intros (j & Hb & ->). pose proof (testbit_range n j Hn Hb).
    destruct (decide (j < 64)).
    + left. exists j. rewrite Z.mod_pow2_bits_low by lia. split_and!; [lia..|done|lia].
    + right. exists (j - 64). rewrite Z.div_pow2_bits by lia.
      replace (j - 64 + 64) with j by lia. split; [done|lia].
Qed.

Lemma elem_of_ForEach r x : 0 ≤ allocated r → x ∈ ForEach r ↔ x ∈ bits (allocated r).
Proof.
  intros Hr. unfold ForEach. rewrite elem_of_bits by done.
  rewrite elem_of_words_bits; [|done|].
  2: { eapply Z.lt_le_trans; [by apply log2_fuel|].
       apply Z.pow_le_mono_r; unfold wordBits; lia. }
  split; [by intros (j & Hb & ->)|]. intros Hb. exists x. split; [done|lia].
Qed.

(** Every offset is visited once. *)
Lemma NoDup_word_bits turns word base bit : 0 ≤ word → NoDup (word_bits turns word base bit).
Proof.
  revert word bit. induction turns as [|turns IH]; intros word bit Hw; cbn [word_bits]; [constructor|].
  destruct (0 <? word); [|constructor].
  assert (0 ≤ Z.shiftr word 1) as Hw' by (by apply Z.shiftr_nonneg).
  destruct (negb _); simpl; [|by apply IH]. constructor; [|by apply IH].
  rewrite elem_of_word_bits by done. intros (j & Hj & _ & E). lia.
Qed.

Lemma NoDup_words_bits fuel n idx :
  0 ≤ n → n < 2 ^ (wordBits * Z.of_nat fuel) → NoDup (words_bits (le_words fuel n) idx).
Proof.
  revert n idx. induction fuel as [|fuel IH]; intros n idx Hn Hlt; [constructor|].
  cbn [le_words]. destruct (Z.eqb_spec n 0); [constructor|]. cbn [words_bits]. unfold wordBits in *.
  assert (0 ≤ n / 2 ^ 64) by (apply Z.div_pos; lia).
  assert (n / 2 ^ 64 < 2 ^ (64 * Z.of_nat fuel)).
  { replace (64 * Z.of_nat (S fuel)) with (64 + 64 * Z.of_nat fuel) in Hlt by lia.
    rewrite Z.pow_add_r in Hlt by lia. apply Z.div_lt_upper_bound; lia. }
  assert (0 ≤ n mod 2 ^ 64) by (apply Z.mod_pos_bound; lia).
  apply NoDup_app. split_and!; [by apply NoDup_word_bits| |by apply IH].
  intros x Hx Hx'. rewrite elem_of_word_bits, Z2Nat.id in Hx by lia. rewrite elem_of_words_bits in Hx' by done.
  destruct Hx as (j & Hj & _ & ->), Hx' as (j' & Hb & E). unfold wordBits in E.
  assert (0 ≤ j') by (eapply testbit_range; [|done]; lia). lia.
Qed.

Lemma NoDup_ForEach r : 0 ≤ allocated r → NoDup (ForEach r).
Proof.
  intros Hr. apply NoDup_words_bits; [done|]. eapply Z.lt_le_trans; [by apply log2_fuel|].
  apply Z.pow_le_mono_r; unfold wordBits; lia.
Qed.

(** ** The invariant of a bitmap *)

(** [count] is the number of allocated items, which are within the range. *)
Record bitmap_inv (r : AllocationBitmap) : Prop := {
  bm_nonneg : 0 ≤ allocated r;
  bm_count : count r = Z.of_nat (size (bits (allocated r)));
  bm_range i : i ∈ bits (allocated r) → 0 ≤ i < max r;
}.

Lemma set_inv r i :
  bitmap_inv r → 0 ≤ i < max r → i ∉ bits (allocated r) →
  let r' := mkBitmap (max r) (rangeSpec r) (count r + 1) (SetBit (allocated r) i true) in
  bitmap_inv r' ∧ bits (allocated r') = {[i]} ∪ bits (allocated r).
Proof.
  intros [Hn Hc Hr] Hi Hfree r'.
  assert (bits (allocated r') = {[i]} ∪ bits (allocated r)) as Hb
    by (simpl; apply bits_setbit; lia).
  split; [|done]. split.
  - simpl. rewrite Z.setbit_spec'. apply Z.lor_nonneg. split; [done|]. apply Z.pow_nonneg. lia.
  - rewrite Hb, size_union by set_solver. rewrite size_singleton. simpl. lia.
  - intros j. rewrite Hb. simpl. rewrite elem_of_union, elem_of_singleton. intros [-> |?]; auto.
Qed.

Lemma clear_inv r i :
  bitmap_inv r → i ∈ bits (allocated r) →
  let r' := mkBitmap (max r) (rangeSpec r) (count r - 1) (SetBit (allocated r) i false) in
  bitmap_inv r' ∧ bits (allocated r') = bits (allocated r) ∖ {[i]}.
Proof.
  intros [Hn Hc Hr] Hi r'.
  assert (bits (allocated r') = bits (allocated r) ∖ {[i]}) as Hb
    by (simpl; by apply bits_clearbit).
  split; [|done]. split.
  - simpl. by apply Z.ldiff_nonneg; left.
  - rewrite Hb, size_difference by set_solver. rewrite size_singleton. simpl.
    assert (0 < size (bits (allocated r)))%nat; [|lia].
    apply Nat.neq_0_lt_0, size_non_empty_iff. set_solver.
  - intros j. rewrite Hb. set_solver.
Qed.

(** *** The scans *)

Lemma scan_spec a at_ i turns :
  match scan a at_ i turns with
  | Some x => (∃ j, i ≤ j < i + Z.of_nat turns ∧ x = at_ j) ∧ Z.testbit a x = false
  | None => ∀ j, i ≤ j < i + Z.of_nat turns → Z.testbit a (at_ j) = true
  end.
Proof.
  revert i. induction turns as [|turns IH]; intros i; cbn [scan]; [lia|].
  unfold Bit. destruct (Z.testbit a (at_ i)) eqn:E; cbn [negb].
  - specialize (IH (i + 1)). destruct (scan a at_ (i + 1) turns).
    + destruct IH as [(j & Hj & ->) Hb]. split; [|done]. exists j. split; [lia|done].
    + intros j Hj. destruct (decide (j = i)) as [-> |]; [done|]. apply IH. lia.
  - split; [|done]. exists i. split; [lia|done].
Qed.

(** A strategy that, below [max], finds a free item of the range. *)
Definition finds (strategy : bitAllocator) : Prop := ∀ r,
  bitmap_inv r →
  match strategy (allocated r) (max r) (count r) with
  | Some x => 0 ≤ x < max r ∧ x ∉ bits (allocated r)
  | None => max r ≤ count r
  end.

(** If every item of the range is taken, [count] has reached [max]. *)
Lemma full_count r :
  bitmap_inv r → (∀ i, 0 ≤ i < max r → i ∈ bits (allocated r)) → max r ≤ count r.
Proof.
  intros [Hn Hc Hr] Hall. rewrite Hc.
  transitivity (Z.of_nat (size (list_to_set (seqZ 0 (max r)) : gset Z))).
  - rewrite size_list_to_set, length_seqZ by apply NoDup_seqZ. lia.
  - apply inj_le, subseteq_size. intros i. rewrite elem_of_list_to_set, elem_of_seqZ.
    intros Hi. apply Hall. lia.
Qed.

Lemma scan_finds at_ :
  (∀ m, 0 < m → (∀ i, 0 ≤ i < m → 0 ≤ at_ m i < m) ∧
     ∀ x, 0 ≤ x < m → ∃ i, 0 ≤ i < m ∧ at_ m i = x) →
  finds (λ allocated max count,
    if max <=? count then None else scan allocated (at_ max) 0 (Z.to_nat max)).
Proof.
  intros Hat r Hi. destruct (Z.leb_spec (max r) (count r)) as [|Hlt]; [done|].
  pose proof (bm_count r Hi). destruct (Hat (max r)) as [Hin Hsurj]; [lia|].
  pose proof (scan_spec (allocated r) (at_ (max r)) 0 (Z.to_nat (max r))) as Hs.
  destruct (scan _ _ _ _) as [x|].
  - destruct Hs as [(j & Hj & ->) Hb]. split; [apply Hin; lia|].
    rewrite elem_of_bits by apply Hi. congruence.
  - apply full_count; [done|]. intros i Hr. destruct (Hsurj i Hr) as (j & Hj & <-).
    rewrite elem_of_bits by apply Hi. apply Hs. lia.
Qed.

Lemma contiguous_finds : finds contiguousScanStrategy.
Proof. apply (scan_finds (λ _ i, i)). intros m Hm. split; [done|by eauto]. Qed.

(** The random scan, whatever number the source draws. *)
Lemma random_finds offset : finds (randomScanStrategy offset).
Proof.
  apply (scan_finds (λ m i, (offset + i) `mod` m)). intros m Hm. split.
  - intros i _. apply Z.mod_pos_bound. done.
  - intros x Hx. exists ((x - offset) `mod` m). split; [by apply Z.mod_pos_bound|].
    rewrite Zplus_mod_idemp_r. replace (offset + (x - offset)) with x by lia.
    by apply Z.mod_small.
Qed.

(** ** The interface of an allocator *)

(** [allocator.Interface], with the errors of an implementation; [AllocateNext] takes the
    number its random source draws. *)
Class AllocatorInterface (A : Type) := {
  iError : Type;
  iAllocate : A → Z → result iError bool * A;
  iAllocateNext : Z → A → result iError (option Z) * A;
  iRelease : A → Z → option iError * A;
  iForEach : A → list Z;
  iHas : A → Z → bool;
  iFree : A → Z;
}.
Arguments iError A {_}.

(** The methods of the bitmap return no error. *)
#[global] Instance AllocationBitmap_Interface : AllocatorInterface AllocationBitmap := {|
  iError := Empty_set;
  iAllocate r offset := let '(ok, r) := Allocate r offset in (Ok ok, r);
  iAllocateNext draw r := let '(next, r) := AllocateNext (randomScanStrategy draw) r in (Ok next, r);
  iRelease r offset := (None, Release r offset);
  iForEach := ForEach;
  iHas := Has;
  iFree := Free;
|}.

(** What an allocator in memory promises: it is a set of items below [size_of], and no call
    fails. *)
Class AllocatorLaws (A : Type) `{AllocatorInterface A} := {
  valid : A → Prop;
  items : A → gset Z;
  size_of : A → Z;
  items_range a i : valid a → i ∈ items a → 0 ≤ i < size_of a;
  law_Allocate a i : valid a → 0 ≤ i < size_of a →
    let '(ok, a') := iAllocate a i in
    valid a' ∧ size_of a' = size_of a ∧ ok = Ok (negb (bool_decide (i ∈ items a))) ∧
    items a' = {[i]} ∪ items a;
  law_AllocateNext draw a : valid a →
    let '(next, a') := iAllocateNext draw a in
    valid a' ∧ size_of a' = size_of a ∧
    match next with
    | Ok (Some i) => 0 ≤ i < size_of a ∧ i ∉ items a ∧ items a' = {[i]} ∪ items a
    | Ok None => a' = a ∧ ∀ i, 0 ≤ i < size_of a → i ∈ items a
    | Err _ => False
    end;
  law_Release a i : valid a →
    let '(err, a') := iRelease a i in
    err = None ∧ valid a' ∧ size_of a' = size_of a ∧ items a' = items a ∖ {[i]};
  law_ForEach a i : valid a → i ∈ iForEach a ↔ i ∈ items a;
  law_Has a i : valid a → iHas a i = bool_decide (i ∈ items a);
  law_Free a : valid a → iFree a = size_of a - Z.of_nat (size (items a));
}.

(** What any allocator promises, one whose calls can fail too. A call that failed may have
    taken effect, or take effect with a later one; so there are the items that are allocated
    for certain and those that may be. What is handed out was not allocated for certain, and
    only a release, whether it fails or not, takes an item from those that are; only an
    allocation, whether it fails or not, adds to those that may be, one item at most. *)
Class AllocatorSafety (A : Type) `{AllocatorInterface A} := {
  safe : A → Prop;
  surely : A → gset Z;
  maybe : A → gset Z;
  bound : A → Z;
  surely_maybe a : safe a → surely a ⊆ maybe a;
  maybe_range a i : safe a → i ∈ maybe a → 0 ≤ i < bound a;
  safe_Allocate a i : safe a → 0 ≤ i < bound a →
    let '(res, a') := iAllocate a i in
    safe a' ∧ bound a' = bound a ∧ surely a ⊆ surely a' ∧
    match res with
    | Ok true => i ∉ surely a ∧ i ∈ surely a' ∧ maybe a' ⊆ {[i]} ∪ maybe a
    | Ok false => maybe a' ⊆ maybe a
    | Err _ => maybe a' ⊆ {[i]} ∪ maybe a
    end;
  safe_AllocateNext draw a : safe a →
    let '(res, a') := iAllocateNext draw a in
    safe a' ∧ bound a' = bound a ∧ surely a ⊆ surely a' ∧
    match res with
    | Ok (Some i) => 0 ≤ i < bound a ∧ i ∉ surely a ∧ i ∈ surely a' ∧ maybe a' ⊆ {[i]} ∪ maybe a
    | Ok None => maybe a' ⊆ maybe a
    | Err _ => ∃ i, maybe a' ⊆ {[i]} ∪ maybe a
    end;
  safe_Release a i : safe a →
    let '(err, a') := iRelease a i in
    safe a' ∧ bound a' = bound a ∧ surely a ∖ {[i]} ⊆ surely a' ∧
    maybe a' ⊆ if err then maybe a else maybe a ∖ {[i]};
}.

(** An allocator in memory is always certain. *)
#[global] Instance AllocatorLaws_safety (A : Type) `{AllocatorInterface A, !AllocatorLaws A} : AllocatorSafety A | 10.
Proof.
  refine {| safe := valid; surely := items; maybe := items; bound := size_of |}.
  - done.
  - apply items_range.
  - intros a i Hv Hi. pose proof (law_Allocate a i Hv Hi) as Ha. destruct (iAllocate a i) as [res a'].
    destruct Ha as (? & ? & -> & Hi'). case_bool_decide; simpl; (split; [done|]); (split; [done|]); set_solver.
  - intros draw a Hv. pose proof (law_AllocateNext draw a Hv) as Ha. destruct (iAllocateNext draw a) as [[[i|]|e] a'];
      destruct Ha as (? & ? & Ha); (split; [done|]); (split; [done|]); [|by destruct Ha as [-> _]|done].
    destruct Ha as (? & ? & ->). split; [set_solver|]. split; [done|]. split; [done|]. split; set_solver.
  - intros a i Hv. pose proof (law_Release a i Hv) as Ha. destruct (iRelease a i) as [err a']. destruct Ha as (-> & ? & ? & ->). done.
Defined.

Lemma Has_spec r i : bitmap_inv r → Has r i = bool_decide (i ∈ bits (allocated r)).
Proof.
  intros Hi. apply bool_eq_iff. rewrite bool_decide_eq_true, elem_of_bits by apply Hi. done.
Qed.

Lemma Allocate_refines r i :
  bitmap_inv r → 0 ≤ i < max r →
  let '(ok, r') := Allocate r i in
  bitmap_inv r' ∧ max r' = max r ∧ ok = negb (bool_decide (i ∈ bits (allocated r))) ∧
  bits (allocated r') = {[i]} ∪ bits (allocated r).
Proof.
  intros Hi Hr. unfold Allocate. change (Bit (allocated r) i) with (Has r i).
  rewrite Has_spec by done. case_bool_decide as Hb.
  - split_and!; [done..|set_solver].
  - destruct (set_inv r i Hi Hr Hb). done.
Qed.

Lemma items_full (r : AllocationBitmap) :
  bitmap_inv r → max r ≤ count r → ∀ i, 0 ≤ i < max r → i ∈ bits (allocated r).
Proof.
  intros Hi Hle i Hr.
  assert (bits (allocated r) = list_to_set (seqZ 0 (max r))) as ->.
  { apply set_subseteq_size_eq.
    - intros j Hj. apply elem_of_list_to_set, elem_of_seqZ.
      pose proof (bm_range r Hi j Hj). lia.
    - rewrite size_list_to_set, length_seqZ by apply NoDup_seqZ.
      rewrite (bm_count r Hi) in Hle. lia. }
  apply elem_of_list_to_set, elem_of_seqZ. lia.
Qed.

Lemma AllocateNext_refines strategy r :
  finds strategy → bitmap_inv r →
  let '(next, r') := AllocateNext strategy r in
  bitmap_inv r' ∧ max r' = max r ∧
  match next with
  | Some i => 0 ≤ i < max r ∧ i ∉ bits (allocated r) ∧
      bits (allocated r') = {[i]} ∪ bits (allocated r)
  | None => r' = r ∧ ∀ i, 0 ≤ i < max r → i ∈ bits (allocated r)
  end.
Proof.
  intros Hs Hi. unfold AllocateNext. specialize (Hs r Hi).
  destruct (strategy _ _ _) as [x|].
  - destruct Hs as [Hx Hfree]. destruct (set_inv r x Hi Hx Hfree). done.
  - split_and!; [done..|]. by apply items_full.
Qed.

Lemma Release_refines r i :
  bitmap_inv r →
  bitmap_inv (Release r i) ∧ max (Release r i) = max r ∧
  bits (allocated (Release r i)) = bits (allocated r) ∖ {[i]}.
Proof.
  intros Hi. unfold Release. change (Bit (allocated r) i) with (Has r i).
  rewrite Has_spec by done. case_bool_decide as Hb; cbn [negb].
  - destruct (clear_inv r i Hi Hb). done.
  - split_and!; [done..|set_solver].
Qed.

#[global] Instance AllocationBitmap_laws : AllocatorLaws AllocationBitmap.
Proof.
  refine {| valid := bitmap_inv; items r := bits (allocated r); size_of := max |}.
  - intros a i Ha. exact (bm_range a Ha i).
  - intros a i Ha Hi. pose proof (Allocate_refines a i Ha Hi) as H. simpl. destruct (Allocate a i) as [ok a'].
    destruct H as (? & ? & -> & ?). done.
  - intros draw a Ha. pose proof (AllocateNext_refines _ a (random_finds draw) Ha) as H. simpl.
    by destruct (AllocateNext _ a) as [[i|] a'].
  - intros a i Ha. split; [done|]. by apply Release_refines.
  - intros a i Ha. exact (elem_of_ForEach a i (bm_nonneg a Ha)).
  - exact Has_spec.
  - intros a Ha. exact (f_equal (λ c, max a - c) (bm_count a Ha)).
Defined.

(** ** Correctness *)

(** C14: the bitmap implements a set of items of a range: allocating an item adds
    it and reports whether it was free; allocating the next one, with either
    scan strategy and whatever the random source draws, adds a free item of the
    range unless all are taken, so that no item is handed out twice; releasing
    removes the item; and the cached count is the number of items. *)
Theorem AllocationBitmap_refines (r : AllocationBitmap) (strategy : bitAllocator) (draw i : Z) :
  bitmap_inv r → 0 ≤ i < max r →
  strategy = contiguousScanStrategy ∨ strategy = randomScanStrategy draw →
  (let '(ok, r') := Allocate r i in
   bitmap_inv r' ∧ ok = negb (bool_decide (i ∈ bits (allocated r))) ∧
   bits (allocated r') = {[i]} ∪ bits (allocated r)) ∧
  (let '(next, r') := AllocateNext strategy r in
   bitmap_inv r' ∧
   match next with
   | Some x => 0 ≤ x < max r ∧ x ∉ bits (allocated r) ∧
       bits (allocated r') = {[x]} ∪ bits (allocated r)
   | None => r' = r ∧ ∀ x, 0 ≤ x < max r → x ∈ bits (allocated r)
   end) ∧
  bitmap_inv (Release r i) ∧ bits (allocated (Release r i)) = bits (allocated r) ∖ {[i]} ∧
  Free r = max r - Z.of_nat (size (bits (allocated r))).
Proof.
  intros Hi Hr Hs.
  assert (finds strategy) as Hf by (destruct Hs as [-> | ->]; auto using contiguous_finds, random_finds).
  pose proof (Allocate_refines r i Hi Hr) as H1.
  pose proof (AllocateNext_refines strategy r Hf Hi) as H2.
  destruct (Release_refines r i Hi) as (H3 & _ & H4).
  destruct (Allocate r i) as [ok r1], (AllocateNext strategy r) as [next r2].
  destruct H1 as (? & _ & ? & ?), H2 as (? & _ & ?).
  split_and!; try done. unfold Free. by rewrite (bm_count r Hi).
Qed.

(** A snapshot restores exactly: restoring into any bitmap of the same range
    the snapshot of [r] gives [r] back, the count recomputed by the table of bit
    counts included; a snapshot of another range is refused; and iterating over
    the restored bitmap visits exactly the allocated items. *)
Theorem Snapshot_Restore (r r0 : AllocationBitmap) :
  bitmap_inv r → max r0 = max r →
  let '(spec, data) := Snapshot r in
  (rangeSpec r0 = spec → Restore r0 spec data = Some r) ∧
  (rangeSpec r0 ≠ spec → Restore r0 spec data = None) ∧
  ∀ i, i ∈ ForEach r ↔ i ∈ bits (allocated r).
Proof.
  intros Hi Hm. unfold Snapshot, Restore. split_and!.
  - intros Hs. rewrite bool_decide_true by done. cbn [negb].
    rewrite SetBytes_Bytes, countBits_spec, <- (bm_count r Hi) by apply Hi.
    rewrite Hm, Hs. by destruct r.
  - intros Hs. by rewrite bool_decide_false by done.
  - intros i. apply elem_of_ForEach, Hi.
Qed.

(** ** Witnesses *)

Lemma NewAllocationMap_inv m spec : bitmap_inv (NewAllocationMap m spec).
Proof.
  split; [done|done|]. simpl. intros i Hi. apply elem_of_bits in Hi; [|done].
  by rewrite Z.testbit_0_l in Hi.
Qed.

Definition ex_bitmap : AllocationBitmap := (Allocate (NewAllocationMap 300 "10.0.0.0/23") 259).2.

Lemma ex_bitmap_inv : bitmap_inv ex_bitmap.
Proof.
  pose proof (Allocate_refines (NewAllocationMap 300 "10.0.0.0/23") 259
    (NewAllocationMap_inv _ _) ltac:(simpl; lia)) as H. apply H.
Qed.

Lemma AllocationBitmap_refines_witness :
  AllocateNext (randomScanStrategy 259) ex_bitmap =
    (Some 260, (AllocateNext (randomScanStrategy 259) ex_bitmap).2) ∧
  bits (allocated (Release ex_bitmap 259)) = bits (allocated ex_bitmap) ∖ {[259]}.
Proof.
  split; [vm_compute; reflexivity|].
  apply (AllocationBitmap_refines ex_bitmap (randomScanStrategy 259) 259 259 ex_bitmap_inv);
    [vm_compute; split; congruence|right; reflexivity].
Defined.

Lemma Snapshot_Restore_witness :
  Restore (NewAllocationMap 300 "10.0.0.0/23") (Snapshot ex_bitmap).1 (Snapshot ex_bitmap).2 =
    Some ex_bitmap.
Proof.
  destruct (Snapshot_Restore ex_bitmap (NewAllocationMap 300 "10.0.0.0/23") ex_bitmap_inv eq_refl)
    as [H _]. apply H. reflexivity.
Defined.
