(* ===== verification/GoNet.v ===== *)
(** * Addresses and networks

    What the allocators use of Go's [net]: addresses as byte slices, networks with a
    mask, containment and printing; and that a network contains exactly the numbers
    of an interval. *)

From S2P Require Import Prelude GoStrings GoStrconv Bitmap.

(** ** [net.IP] *)

Definition v4InV6Prefix : list Z := [0; 0; 0; 0; 0; 0; 0; 0; 0; 0; 255; 255].

Definition To4 (ip : list Z) : option (list Z) :=
  if decide (length ip = 4%nat) then Some ip
  else if decide (length ip = 16%nat ∧ take 12 ip = v4InV6Prefix) then Some (drop 12 ip)
  else None.

Definition To16 (ip : list Z) : option (list Z) :=
  if decide (length ip = 4%nat) then Some (v4InV6Prefix ++ ip)
  else if decide (length ip = 16%nat) then Some ip
  else None.

(** [net.IPNet]. *)
Record IPNet : Type := mkIPNet { IPNet_IP : list Z; IPNet_Mask : list Z }.

#[global] Instance IPNet_eq_dec : EqDecision IPNet.
Proof. solve_decision. Defined.

(** [networkNumberAndMask]; [None] where both results are nil. *)
Definition networkNumberAndMask (n : IPNet) : option (list Z * list Z) :=
  match (match To4 (IPNet_IP n) with
         | Some ip => Some ip
         | None => if decide (length (IPNet_IP n) = 16%nat) then Some (IPNet_IP n) else None
         end) with
  | None => None
  | Some ip =>
      let m := IPNet_Mask n in
      if decide (length m = 4%nat) then
        if decide (length ip = 4%nat) then Some (ip, m) else None
      else if decide (length m = 16%nat) then
        Some (ip, if decide (length ip = 4%nat) then drop 12 m else m)
      else None
  end.

(** The comparison under the mask, byte by byte. *)
Fixpoint same_network (nn m ip : list Z) : bool :=
  match nn, m, ip with
  | a :: nn, b :: m, c :: ip => (Z.land a b =? Z.land c b) && same_network nn m ip
  | _, _, _ => true
  end.

Definition Contains (n : IPNet) (ip : list Z) : bool :=
  let ip := match To4 ip with Some x => x | None => ip end in
  match networkNumberAndMask n with
  | None => bool_decide (ip = [])
  | Some (nn, m) =>
      if negb (bool_decide (length ip = length nn)) then false else same_network nn m ip
  end.

(** [CIDRMask]: ones, then zeros. *)
Fixpoint mask_bytes (ones : Z) (len : nat) : list Z :=
  match len with
  | O => []
  | S len =>
      if 8 <=? ones then 255 :: mask_bytes (ones - 8) len
      else 255 - Z.shiftr 255 ones :: mask_bytes 0 len
  end.

Definition CIDRMask (ones bits : Z) : list Z := mask_bytes ones (Z.to_nat (bits / 8)).

(** [IPMask.Size]: the number of leading ones, [None] when the mask is not ones
    followed by zeros; the inner loop shifts the first byte that is not 255. *)
Fixpoint leading_ones (turns : nat) (v n : Z) : Z * Z :=
  match turns with
  | O => (v, n)
  | S turns =>
      if negb (Z.land v 128 =? 0) then leading_ones turns (Z.shiftl v 1 mod 256) (n + 1) else (v, n)
  end.

Fixpoint simpleMaskLength (mask : list Z) (n : Z) : option Z :=
  match mask with
  | [] => Some n
  | v :: mask =>
      if v =? 255 then simpleMaskLength mask (n + 8)
      else
        let '(v, n) := leading_ones 8 v n in
        if negb (v =? 0) then None
        else if forallb (Z.eqb 0) mask then Some n else None
  end.

Definition Size (m : list Z) : Z * Z :=
  match simpleMaskLength m 0 with
  | Some ones => (ones, Z.of_nat (length m) * 8)
  | None => (0, 0)
  end.

(** ** Printing *)

Definition hex_digit (d : Z) : string :=
  if d <? 10 then Itoa d else String (ascii_of_nat (Z.to_nat (d - 10 + 97))) "".

(** A group of four digits without leading zeros. *)
Definition appendHex (i : Z) : string :=
  let digits := [Z.shiftr i 12; Z.land (Z.shiftr i 8) 15; Z.land (Z.shiftr i 4) 15] in
  let fix skip l := match l with d :: l => if d =? 0 then skip l else d :: l | [] => [] end in
  String.concat "" (map hex_digit (skip digits)) +:+ hex_digit (Z.land i 15).

(** The 16-bit groups of an address. *)
Fixpoint groups (ip : list Z) : list Z :=
  match ip with
  | a :: b :: ip => (a * 256 + b) :: groups ip
  | _ => []
  end.

(** The run of zeros at the start of a list. *)
Fixpoint zeros (l : list Z) : nat :=
  match l with
  | g :: l => if g =? 0 then S (zeros l) else 0%nat
  | [] => 0%nat
  end.

(** The first longest run of zeros from group [i] on, better than the run of
    [len] groups at [start]; [turns] is the number of groups left. *)
Fixpoint longest_zeros (turns : nat) (gs : list Z) (i start len : nat) : nat * nat :=
  match turns with
  | O => (start, len)
  | S turns =>
      let z := zeros (drop i gs) in
      if (len <? z)%nat then longest_zeros turns gs (i + z + 1) i z
      else longest_zeros turns gs (i + 1) start len
  end.

Definition print_groups (l : list Z) : string := Join (map appendHex l) ":".

Definition IP_String (ip : list Z) : string :=
  match ip with
  | [] => "<nil>"
  | _ =>
      match To4 ip with
      | Some p => Join (map Itoa p) "."
      | None =>
          if decide (length ip = 16%nat) then
            let gs := groups ip in
            let '(start, len) := longest_zeros 8 gs 0 0 0 in
            if (len <=? 1)%nat then print_groups gs
            else print_groups (take start gs) +:+ "::" +:+ print_groups (drop (start + len) gs)
          else "?" +:+ String.concat "" (map (λ b, hex_digit (Z.shiftr b 4) +:+ hex_digit (Z.land b 15)) ip)
      end
  end.

(** [IPNet.String], for a mask that is ones followed by zeros; another mask is
    printed in hexadecimal. *)
Definition IPNet_String (n : IPNet) : string :=
  match networkNumberAndMask n with
  | None => "<nil>"
  | Some (nn, m) =>
      match simpleMaskLength m 0 with
      | Some l => IP_String nn +:+ "/" +:+ Itoa l
      | None => IP_String nn +:+ "/" +:+
          String.concat "" (map (λ b, hex_digit (Z.shiftr b 4) +:+ hex_digit (Z.land b 15)) m)
      end
  end.

Example IP_String_v6 :
  map IP_String [[32; 1; 13; 184; 0; 0; 0; 0; 0; 0; 0; 0; 0; 0; 1; 10]; repeat 0 15 ++ [1];
    [253; 0; 0; 0; 0; 1; 0; 0; 0; 0; 0; 0; 0; 0; 0; 0]; [10; 0; 0; 1]] =
  ["2001:db8::10a"; "::1"; "fd00:0:1::"; "10.0.0.1"].
Proof. reflexivity. Qed.

(** ** Bytes and numbers *)

Notation is_byte := (λ b, 0 ≤ b < 256).

Lemma SetBytes_acc l a : fold_left (λ n b, n * 256 + b) l a = a * 256 ^ Z.of_nat (length l) + SetBytes l.
Proof.
  unfold SetBytes. revert a. induction l as [|b l IH]; intros a; [simpl; lia|].
  cbn [fold_left length]. rewrite IH, (IH (0 * 256 + b)), Nat2Z.inj_succ, Z.pow_succ_r by lia. lia.
Qed.

Lemma SetBytes_cons b l : SetBytes (b :: l) = b * 256 ^ Z.of_nat (length l) + SetBytes l.
Proof. unfold SetBytes at 1. cbn [fold_left]. rewrite SetBytes_acc. lia. Qed.

Lemma SetBytes_bound l : Forall is_byte l → 0 ≤ SetBytes l < 256 ^ Z.of_nat (length l).
Proof.
  induction 1 as [|b l Hb Hl IH]; [done|]. rewrite SetBytes_cons. cbn [length].
  rewrite Nat2Z.inj_succ, Z.pow_succ_r by lia. nia.
Qed.

Lemma SetBytes_inj l k :
  length l = length k → Forall is_byte l → Forall is_byte k → SetBytes l = SetBytes k → l = k.
Proof.
  revert k. induction l as [|b l IH]; intros [|c k] Hlen Hl Hk E; try done. simpl in Hlen.
  inversion_clear Hl. inversion_clear Hk. injection Hlen as Hlen.
  rewrite !SetBytes_cons, Hlen in E.
  pose proof (SetBytes_bound l ltac:(done)) as Bl. pose proof (SetBytes_bound k ltac:(done)) as Bk.
  rewrite Hlen in Bl. assert (b = c) as -> by nia. f_equal. apply IH; auto; lia.
Qed.

Lemma le_bytes_bytes fuel n : 0 ≤ n → Forall is_byte (le_bytes fuel n).
Proof.
  revert n. induction fuel as [|fuel IH]; intros n Hn; cbn [le_bytes]; [constructor|].
  destruct (n =? 0); [constructor|]. pose proof (le_bytes_step n Hn). constructor; [lia|]. apply IH. lia.
Qed.

Lemma Bytes_bytes n : 0 ≤ n → Forall is_byte (Bytes n).
Proof. intros. unfold Bytes. apply Forall_rev. by apply le_bytes_bytes. Qed.

Lemma le_bytes_length fuel n k :
  0 ≤ n → 256 ^ Z.of_nat k ≤ n < 256 ^ Z.of_nat (S k) → (k < fuel)%nat →
  length (le_bytes fuel n) = S k.
Proof.
  revert n k. induction fuel as [|fuel IH]; intros n k Hn Hk Hf; [lia|]. cbn [le_bytes].
  assert (0 < 256 ^ Z.of_nat k) by (apply Z.pow_pos_nonneg; lia).
  destruct (Z.eqb_spec n 0); [lia|]. cbn [length]. f_equal. pose proof (le_bytes_step n Hn) as Hs.
  destruct k as [|k]; [assert (n / 256 = 0) as -> by (apply Z.div_small; split; [lia|apply Hk]); by destruct fuel|].
  apply IH; [lia| |lia]. assert (∀ i, 256 ^ Z.of_nat (S i) = 256 * 256 ^ Z.of_nat i) as E
    by (intros i; rewrite Nat2Z.inj_succ, Z.pow_succ_r by lia; done).
  rewrite !E in *. lia.
Qed.

Lemma Bytes_length n k :
  256 ^ Z.of_nat k ≤ n < 256 ^ Z.of_nat (S k) → length (Bytes n) = S k.
Proof.
  intros Hk. assert (0 < 256 ^ Z.of_nat k) by (apply Z.pow_pos_nonneg; lia).
  unfold Bytes. rewrite length_rev. apply le_bytes_length; [lia|done|].
  assert (Z.of_nat k * 8 ≤ Z.log2 n) as Hlog; [|lia].
  rewrite <- (Z.log2_pow2 (Z.of_nat k * 8)) by lia. apply Z.log2_le_mono.
  rewrite Z.mul_comm, Z.pow_mul_r by lia. apply Hk.
Qed.

(** A byte slice without a leading zero is what its number prints as. *)
Lemma Bytes_SetBytes b l :
  Forall is_byte (b :: l) → b ≠ 0 → Bytes (SetBytes (b :: l)) = b :: l.
Proof.
  intros Hl Hb. pose proof (SetBytes_bound _ Hl) as Hbd. inversion Hl as [|?? Hb' Hl']; subst.
  pose proof (SetBytes_bound _ Hl') as Hbd'. apply SetBytes_inj; auto.
  - apply Bytes_length. split; [|apply Hbd]. rewrite SetBytes_cons.
    fold (length l). assert (1 ≤ b) by lia. nia.
  - apply Bytes_bytes. lia.
  - apply SetBytes_Bytes. lia.
Qed.

(** ** Containment *)

Lemma byte_mask a ones : 0 ≤ a < 256 → 0 ≤ ones < 8 →
  Z.land a (255 - Z.shiftr 255 ones) = a / 2 ^ (8 - ones) * 2 ^ (8 - ones).
Proof.
  intros Ha Ho.
  assert (forallb (λ o, forallb (λ a, Z.land a (255 - Z.shiftr 255 o) =? a / 2 ^ (8 - o) * 2 ^ (8 - o))
    (seqZ 0 256)) (seqZ 0 8) = true) as H by (vm_compute; reflexivity).
  rewrite forallb_forall in H.
  specialize (H ones ltac:(apply list_elem_of_In, elem_of_seqZ; lia)). rewrite forallb_forall in H.
  specialize (H a ltac:(apply list_elem_of_In, elem_of_seqZ; lia)). by apply Z.eqb_eq in H.
Qed.

Lemma same_network_zero len nn ip : same_network nn (mask_bytes 0 len) ip = true.
Proof.
  revert nn ip. induction len as [|len IH]; intros [|a nn] [|c ip]; try done.
  cbn [mask_bytes Z.leb]. change (8 <=? 0) with false. cbn [same_network].
  change (255 - Z.shiftr 255 0) with 0. rewrite !Z.land_0_r, IH. done.
Qed.

(** Two quotients of numbers in base [256 ^ n] with the same digits. *)
Lemma quotient_digits a c x y D m :
  0 < D → 0 ≤ x < m * D → 0 ≤ y < m * D →
  ((a * (m * D) + x) / D = (c * (m * D) + y) / D ↔ a = c ∧ x / D = y / D).
Proof.
  intros HD Hx Hy. rewrite !Z.mul_assoc, !Z.div_add_l by lia.
  assert (∀ z, 0 ≤ z < m * D → 0 ≤ z / D < m) as Hq.
  { intros z Hz. split; [apply Z.div_pos; lia|]. apply Z.div_lt_upper_bound; lia. }
  pose proof (Hq x Hx). pose proof (Hq y Hy). split; [|by intros [-> ->]]. intros E.
  assert (a = c) as -> by nia. split; [done|lia].
Qed.

Lemma same_network_spec len ones nn ip :
  length nn = len → length ip = len → Forall is_byte nn → Forall is_byte ip →
  0 ≤ ones ≤ 8 * Z.of_nat len →
  let D := 2 ^ (8 * Z.of_nat len - ones) in
  same_network nn (mask_bytes ones len) ip = bool_decide (SetBytes nn / D = SetBytes ip / D).
Proof.
  revert ones nn ip. induction len as [|len IH]; intros ones [|a nn] [|c ip] Hn Hi Bn Bi Ho; try done.
  simpl in Hn, Hi. injection Hn as Hn. injection Hi as Hi. inversion_clear Bn. inversion_clear Bi.
  pose proof (SetBytes_bound nn ltac:(done)) as B1. pose proof (SetBytes_bound ip ltac:(done)) as B2.
  rewrite Hn in B1. rewrite Hi in B2. intros D. rewrite !SetBytes_cons, Hn, Hi.
  assert (256 ^ Z.of_nat len = 2 ^ (8 * Z.of_nat len)) as EP by (rewrite Z.pow_mul_r by lia; done).
  cbn [mask_bytes]. apply bool_eq_iff. rewrite bool_decide_eq_true.
  destruct (Z.leb_spec 8 ones) as [H8|H8]; cbn [same_network]; rewrite andb_true_iff, Z.eqb_eq.
  - rewrite IH by (auto; lia). rewrite bool_decide_eq_true.
    replace (8 * Z.of_nat len - (ones - 8)) with (8 * Z.of_nat (S len) - ones) by lia. fold D.
    assert (256 ^ Z.of_nat len = 2 ^ (ones - 8) * D) as EQ.
    { subst D. rewrite EP, <- Z.pow_add_r by lia. f_equal. lia. }
    assert (0 < D) by (apply Z.pow_pos_nonneg; lia).
    rewrite EQ in *. rewrite quotient_digits by lia.
    assert (∀ b, 0 ≤ b < 256 → Z.land b 255 = b) as Hland.
    { intros b Hb. change 255 with (Z.ones 8). rewrite Z.land_ones by lia. by apply Z.mod_small. }
    by rewrite (Hland a), (Hland c) by done.
  - rewrite same_network_zero, !byte_mask by (done || lia).
    assert (D = 256 ^ Z.of_nat len * 2 ^ (8 - ones)) as ->.
    { subst D. rewrite EP, <- Z.pow_add_r by lia. f_equal. lia. }
    assert (0 < 2 ^ (8 - ones)) by (apply Z.pow_pos_nonneg; lia).
    rewrite <- !Z.div_div, !Z.div_add_l, (Z.div_small (SetBytes nn)), (Z.div_small (SetBytes ip)) by lia.
    rewrite !Z.add_0_r. split; [intros [E _]; nia|intros ->; done].
Qed.

(** A network as [net.ParseCIDR] returns it: of four or sixteen bytes, a mask of
    [ones] ones, no bit set outside of it; and a first byte that is not zero, since
    [big.Int] does not keep leading zeros. *)
Record net_ok (n : IPNet) (ones bits : Z) : Prop := {
  net_bits : bits = 32 ∨ bits = 128;
  net_ones : 0 ≤ ones ≤ bits;
  net_mask : IPNet_Mask n = CIDRMask ones bits;
  net_length : Z.of_nat (length (IPNet_IP n)) * 8 = bits;
  net_bytes : Forall is_byte (IPNet_IP n);
  net_head : head (IPNet_IP n) ≠ Some 0;
  net_masked : SetBytes (IPNet_IP n) mod 2 ^ (bits - ones) = 0;
}.

(** An address of either family. *)
Definition ip_ok (ip : list Z) : Prop :=
  (length ip = 4%nat ∨ length ip = 16%nat) ∧ Forall is_byte ip.

(** The bytes that are compared. *)
Definition norm (ip : list Z) : list Z := match To4 ip with Some x => x | None => ip end.

Lemma norm_ok ip : ip_ok ip → ip_ok (norm ip).
Proof.
  intros [Hl Hb]. unfold norm, To4. destruct (decide (length ip = 4%nat)); [by split; auto|].
  destruct (decide _) as [[Hl' _]|]; [|by split]. split; [left; rewrite length_drop; lia|by apply Forall_drop].
Qed.

Lemma To4_head b l : b ≠ 0 → length (b :: l) ≠ 4%nat → To4 (b :: l) = None.
Proof.
  intros Hb Hl. unfold To4. rewrite decide_False by done. rewrite decide_False; [done|].
  intros [_ E]. simpl in E. by injection E.
Qed.

Lemma mask_bytes_length ones len : length (mask_bytes ones len) = len.
Proof. revert ones. induction len; intros; cbn [mask_bytes]; [done|]. destruct (8 <=? ones); simpl; auto. Qed.

Lemma network_number n ones bits :
  net_ok n ones bits → networkNumberAndMask n = Some (IPNet_IP n, CIDRMask ones bits).
Proof.
  intros []. unfold networkNumberAndMask. destruct (IPNet_IP n) as [|b l] eqn:E.
  { destruct net_bits0; subst; done. }
  assert (length (CIDRMask ones bits) = length (b :: l)) as Hlen.
  { unfold CIDRMask. rewrite mask_bytes_length, <- net_length0, Z.div_mul by lia. apply Nat2Z.id. }
  rewrite net_mask0, Hlen. destruct net_bits0 as [->| ->].
  - assert (length (b :: l) = 4%nat) as H4 by lia. unfold To4. by rewrite !decide_True by (rewrite ?Hlen; done).
  - assert (length (b :: l) = 16%nat) as H16 by lia. assert (b ≠ 0) by (intros ->; by apply net_head0).
    rewrite To4_head by (done || lia).
    rewrite (decide_True (P := length (b :: l) = 16%nat)) by done.
    by rewrite !(decide_False (P := length (b :: l) = 4%nat)), decide_True by (done || lia).
Qed.

(** A network contains the addresses of its family in an interval. *)
Lemma Contains_spec n ones bits ip :
  net_ok n ones bits → ip_ok ip →
  Contains n ip = true ↔
    Z.of_nat (length (norm ip)) * 8 = bits ∧
    SetBytes (IPNet_IP n) ≤ SetBytes (norm ip) < SetBytes (IPNet_IP n) + 2 ^ (bits - ones).
Proof.
  intros Hn Hip. pose proof (norm_ok ip Hip) as [Hl Hb]. unfold Contains. fold (norm ip).
  rewrite (network_number n ones bits) by done. destruct Hn as [? ? ? Hlen ? ? Hm].
  destruct (bool_decide_reflect (length (norm ip) = length (IPNet_IP n))) as [E|E]; cbn [negb].
  2:{ split; [done|]. intros [? _]. lia. }
  unfold CIDRMask. replace (bits / 8) with (Z.of_nat (length (IPNet_IP n)))
    by (rewrite <- Hlen, Z.div_mul; lia). rewrite Nat2Z.id.
  rewrite same_network_spec by (auto; lia). rewrite bool_decide_eq_true.
  replace (8 * Z.of_nat (length (IPNet_IP n))) with bits by lia.
  set (D := 2 ^ (bits - ones)) in *. assert (0 < D) by (apply Z.pow_pos_nonneg; lia).
  apply Z.mod_divide in Hm as [q Hq]; [|lia]. rewrite Hq, Z.div_mul by lia. set (x := SetBytes (norm ip)).
  pose proof (Z.div_mod x D ltac:(lia)). pose proof (Z.mod_pos_bound x D ltac:(lia)).
  split; [intros ->; split; lia|]. intros [_ Hx]. apply (Z.div_unique _ _ _ (x - q * D)); lia.
Qed.

(** The number of leading ones of the mask. *)
Lemma Size_CIDRMask ones bits :
  bits = 32 ∨ bits = 128 → 0 ≤ ones ≤ bits → Size (CIDRMask ones bits) = (ones, bits).
Proof.
  intros Hb Ho.
  assert (∀ bits, forallb (λ o, bool_decide (Size (CIDRMask o bits) = (o, bits))) (seqZ 0 (bits + 1)) = true →
    0 ≤ ones ≤ bits → Size (CIDRMask ones bits) = (ones, bits)) as H.
  { intros b H Hob. rewrite forallb_forall in H.
    specialize (H ones ltac:(apply list_elem_of_In, elem_of_seqZ; lia)). by apply bool_decide_eq_true in H. }
  destruct Hb as [->| ->]; apply H; try done; vm_compute; reflexivity.
Qed.
