(* ===== verification/AllocatorStorage.v ===== *)
(** * The allocator kept in storage

    [pkg/registry/core/service/allocator/storage/storage.go]: several API servers
    share one stored snapshot of an allocator, and each works on a copy of its own
    that it refreshes when the stored version is not the one it last saw.
    [GuaranteedUpdate] of the storage ([apiserver/pkg/storage/etcd3/store.go]) reads
    the stored object, computes a new one, and writes it if the object was not
    changed in between; otherwise it starts over. *)

From stdpp Require Import functions.
From S2P Require Import Prelude Bitmap.
#[local] Open Scope Z_scope.

(** ** [allocator.Snapshottable] *)

Class Snapshottable (A : Type) `{AllocatorInterface A} := {
  iSnapshot : A → string * list Z;
  iRestore : A → string → list Z → option A;
}.

#[global] Instance AllocationBitmap_Snapshottable : Snapshottable AllocationBitmap := {|
  iSnapshot := Snapshot;
  iRestore := Restore;
|}.

(** What a snapshot promises, for allocators of one kind, the range and its size:
    restoring it gives the items back. *)
Class SnapshottableLaws (A : Type) `{AllocatorInterface A, !AllocatorLaws A, !Snapshottable A} := {
  kind : A → string * Z;
  kind_Allocate a i : kind (iAllocate a i).2 = kind a;
  kind_AllocateNext draw a : kind (iAllocateNext draw a).2 = kind a;
  kind_Release a i : kind (iRelease a i).2 = kind a;
  kind_size a b : kind a = kind b → size_of a = size_of b;
  law_Snapshot a b : valid a → valid b → iSnapshot a = iSnapshot b → items a = items b;
  law_Restore a b : valid a → valid b → kind a = kind b →
    ∃ c, iRestore a (iSnapshot b).1 (iSnapshot b).2 = Some c ∧ valid c ∧ kind c = kind a ∧
      items c = items b;
}.

#[global] Instance AllocationBitmap_SnapshottableLaws : SnapshottableLaws AllocationBitmap.
Proof.
  refine {| kind := λ r, (rangeSpec r, Bitmap.max r) |}.
  - intros a i. simpl. unfold Allocate. by destruct (Bit _ _).
  - intros d a. simpl. unfold AllocateNext. by destruct (randomScanStrategy _ _ _ _).
  - intros a i. simpl. unfold Release. by destruct (negb _).
  - intros a b [= _ E]. exact E.
  - intros a b [Ha _ _] [Hb _ _] [= _ E]. simpl.
    rewrite <- (SetBytes_Bytes (allocated a)), E, SetBytes_Bytes by done. done.
  - intros a b [Ha1 Ha2 Ha3] [Hb1 Hb2 Hb3] [= Es Em]. simpl. unfold Restore.
    rewrite bool_decide_true by done. simpl. rewrite SetBytes_Bytes by done.
    eexists. split; [done|]. split; [|done]. split; simpl; [done|by apply countBits_spec|].
    intros i Hi. rewrite Em. by apply Hb3.
Defined.

(** ** [Etcd] *)

(** [api.RangeAllocation]; the version is [None] for the empty string, which an
    object that is not stored has. *)
Record RangeAllocation : Type := mkRangeAllocation {
  ResourceVersion : option Z;
  Contents : string * list Z;
}.

Record Etcd (A : Type) : Type := mkEtcd {
  alloc : A;
  last : option Z;
}.
Arguments mkEtcd {A} _ _.
Arguments alloc {A} _.
Arguments last {A} _.

(** The errors, those of the allocator inside included; [ErrStorage] is a failed request. *)
Inductive EtcdError (E : Type) : Type :=
  | ErrInner (e : E)
  | ErrUnavailable
  | ErrRestore
  | errorUnableToAllocate
  | ErrStorage
  | ErrVersion
  | ErrInitialized.
Arguments ErrInner {E} _.
Arguments ErrUnavailable {E}.
Arguments ErrRestore {E}.
Arguments errorUnableToAllocate {E}.
Arguments ErrStorage {E}.
Arguments ErrVersion {E}.
Arguments ErrInitialized {E}.

(** An operation in progress, with the offset it is about; that of [AllocateNext] can
    change while it is retried. *)
Inductive op : Type :=
  | OpAllocate (offset : Z)
  | OpNext (offset : Z)
  | OpRelease (item : Z).

Section etcd.
Context {A : Type} `{AllocatorInterface A, !Snapshottable A}.

(** The functions that [Allocate], [AllocateNext] and [Release] give to
    [tryUpdate]. *)
Definition op_fn (draw : Z) (o : op) (a : A) : result (EtcdError (iError A)) op * A :=
  match o with
  | OpAllocate offset =>
      let '(ok, a) := iAllocate a offset in
      match ok with
      | Err err => (Err (ErrInner err), a)
      | Ok ok => (if negb ok then Err errorUnableToAllocate else Ok o, a)
      end
  | OpNext offset =>
      let '(ok, a) := iAllocate a offset in
      match ok with
      | Err err => (Err (ErrInner err), a)
      | Ok ok =>
          if negb ok then
            let '(next, a) := iAllocateNext draw a in
            match next with
            | Err err => (Err (ErrInner err), a)
            | Ok None => (Err errorUnableToAllocate, a)
            | Ok (Some offset) => (Ok (OpNext offset), a)
            end
          else (Ok o, a)
      end
  | OpRelease item =>
      let '(err, a) := iRelease a item in
      (match err with Some err => Err (ErrInner err) | None => Ok o end, a)
  end.

(** The function that [tryUpdate] gives to the storage. *)
Definition update (draw : Z) (o : op) (e : Etcd A) (existing : RangeAllocation) :
    result (EtcdError (iError A)) (op * RangeAllocation) * Etcd A :=
  match ResourceVersion existing with
  | None => (Err ErrUnavailable, e)
  | Some version =>
      if negb (bool_decide (last e = Some version)) then
        match iRestore (alloc e) (Contents existing).1 (Contents existing).2 with
        | None => (Err ErrRestore, e)
        | Some a =>
            let '(res, a) := op_fn draw o a in
            match res with
            | Err err => (Err err, mkEtcd a (last e))
            | Ok o =>
                (Ok (o, mkRangeAllocation (Some version) (iSnapshot a)), mkEtcd a (Some version))
            end
        end
      else
        (Ok (o, mkRangeAllocation (Some version) (iSnapshot (alloc e))), mkEtcd (alloc e) (Some version))
  end.

(** The stored object and its version. *)
Definition store : Type := option (Z * (string * list Z)).

Definition existing (s : store) : RangeAllocation :=
  match s with
  | Some (version, contents) => mkRangeAllocation (Some version) contents
  | None => mkRangeAllocation None ("", [])
  end.

(** What becomes of the request to the storage: it is answered, it fails before the stored
    object is read or when the new one is written, or its answer is lost. *)
Inductive fault : Type :=
  | Answered
  | Refused
  | Unwritten
  | Lost.

(** [tryUpdate] when no other server writes in between; [rev] is the revision of the
    storage after a write. The storage does not write an object that did not
    change. *)
Definition tryUpdate (f : fault) (draw rev : Z) (o : op) (e : Etcd A) (s : store) :
    result (EtcdError (iError A)) op * Etcd A * store :=
  match f with
  | Refused => (Err ErrStorage, e, s)
  | _ =>
      let '(res, e) := update draw o e (existing s) in
      match res with
      | Err err => (Err err, e, s)
      | Ok (o, out) =>
          if bool_decide (Contents out = Contents (existing s)) then (Ok o, e, s)
          else
            match f with
            | Unwritten => (Err ErrStorage, e, s)
            | Lost => (Err ErrStorage, e, Some (rev, Contents out))
            | _ => (Ok o, e, Some (rev, Contents out))
            end
      end
  end.

Definition Etcd_Allocate (f : fault) (draw rev : Z) (e : Etcd A) (s : store) (offset : Z) :
    result (EtcdError (iError A)) bool * Etcd A * store :=
  let '(ok, a) := iAllocate (alloc e) offset in
  let e := mkEtcd a (last e) in
  match ok with
  | Err err => (Err (ErrInner err), e, s)
  | Ok false => (Ok false, e, s)
  | Ok true =>
      match tryUpdate f draw rev (OpAllocate offset) e s with
      | (Err errorUnableToAllocate, e, s) => (Ok false, e, s)
      | (Err err, e, s) => (Err err, e, s)
      | (Ok _, e, s) => (Ok true, e, s)
      end
  end.

(** [AllocateNext]; the first draw is for the local copy, the second for a retry. *)
Definition Etcd_AllocateNext (f : fault) (draw draw' rev : Z) (e : Etcd A) (s : store) :
    result (EtcdError (iError A)) (option Z) * Etcd A * store :=
  let '(next, a) := iAllocateNext draw (alloc e) in
  let e := mkEtcd a (last e) in
  match next with
  | Err err => (Err (ErrInner err), e, s)
  | Ok None => (Ok None, e, s)
  | Ok (Some offset) =>
      match tryUpdate f draw' rev (OpNext offset) e s with
      | (Err err, e, s) => (Err err, e, s)
      | (Ok (OpNext offset), e, s) => (Ok (Some offset), e, s)
      | (Ok _, e, s) => (Ok None, e, s)
      end
  end.

Definition Etcd_Release (f : fault) (draw rev : Z) (e : Etcd A) (s : store) (item : Z) :
    option (EtcdError (iError A)) * Etcd A * store :=
  let '(err, a) := iRelease (alloc e) item in
  let e := mkEtcd a (last e) in
  match err with
  | Some err => (Some (ErrInner err), e, s)
  | None =>
      match tryUpdate f draw rev (OpRelease item) e s with
      | (Err err, e, s) => (Some err, e, s)
      | (Ok _, e, s) => (None, e, s)
      end
  end.

Definition Etcd_ForEach (e : Etcd A) : list Z := iForEach (alloc e).
Definition Etcd_Has (e : Etcd A) (item : Z) : bool := iHas (alloc e) item.
Definition Etcd_Free (e : Etcd A) : Z := iFree (alloc e).
Definition Etcd_Get (s : store) : RangeAllocation := existing s.

(** [CreateOrUpdate]. *)
Definition CreateOrUpdate (rev : Z) (e : Etcd A) (s : store) (snapshot : RangeAllocation) :
    option (EtcdError (iError A)) * Etcd A * store :=
  let conflict :=
    match ResourceVersion snapshot, s with
    | Some v, Some (version, _) => if negb (v =? version) then Some ErrVersion else None
    | None, Some _ => Some ErrInitialized
    | _, None => None
    end in
  match conflict with
  | Some err => (Some err, e, s)
  | None =>
      let s := if bool_decide (option_map snd s = Some (Contents snapshot)) then s
               else Some (rev, Contents snapshot) in
      match iRestore (alloc e) (Contents snapshot).1 (Contents snapshot).2 with
      | None => (Some ErrRestore, e, s)
      | Some a => (None, mkEtcd a (ResourceVersion snapshot), s)
      end
  end.

(** ** Several servers *)

(** A server is between calls, about to read the stored object, or about to write
    what it computed from version [v]. *)
Inductive phase : Type :=
  | Idle
  | Trying (o : op)
  | Computed (o : op) (v : Z) (out : string * list Z).

Record server : Type := mkServer {
  etcd : Etcd A;
  at_phase : phase;
}.

(** [held] is what the callers hold. *)
Record world : Type := mkWorld {
  stored : store;
  servers : nat → server;
  held : gset Z;
}.

Inductive event : Type :=
  | Granted (i : Z)
  | Released (i : Z).

Definition set_server (w : world) (n : nat) (e : Etcd A) (p : phase) : world :=
  mkWorld (stored w) (<[n := mkServer e p]> (servers w)) (held w).

(** An operation that succeeded. *)
Definition granted (o : op) : option Z :=
  match o with OpAllocate i | OpNext i => Some i | OpRelease _ => None end.

Definition finish (w : world) (n : nat) (e : Etcd A) (o : op) : list event * world :=
  let w := set_server w n e Idle in
  match granted o with
  | Some i => ([Granted i], mkWorld (stored w) (servers w) ({[i]} ∪ held w))
  | None => ([], w)
  end.

(** Reading the stored object and computing the new one; when nothing changed, the
    call is done. *)
Definition attempt (draw : Z) (w : world) (n : nat) (o : op) : list event * world :=
  let '(res, e) := update draw o (etcd (servers w n)) (existing (stored w)) in
  match res with
  | Err _ => ([], set_server w n e Idle)
  | Ok (o, out) =>
      if bool_decide (Contents out = Contents (existing (stored w))) then finish w n e o
      else ([], set_server w n e (Computed o (default 0 (ResourceVersion out)) (Contents out)))
  end.

Definition set_stored (w : world) (s : store) : world := mkWorld s (servers w) (held w).

(** The start of a release. *)
Definition begin_release (w : world) (n : nat) (i : Z) : world :=
  let e := etcd (servers w n) in
  let '(err, a) := iRelease (alloc e) i in
  let w := set_server w n (mkEtcd a (last e)) (match err with Some _ => Idle | None => Trying (OpRelease i) end) in
  mkWorld (stored w) (servers w) (held w ∖ {[i]}).

(** Only a holder releases an item, and stops holding it when it makes the call,
    whatever the answer will be. A request can fail before or after the write took
    effect. Offsets are checked by the caller to be below [size]. *)
Inductive step (size : Z) : world → list event → world → Prop :=
  | step_allocate w n i ok a :
      at_phase (servers w n) = Idle → 0 ≤ i < size →
      iAllocate (alloc (etcd (servers w n))) i = (ok, a) →
      step size w [] (set_server w n (mkEtcd a (last (etcd (servers w n))))
        (match ok with Ok true => Trying (OpAllocate i) | _ => Idle end))
  | step_next w n draw next a :
      at_phase (servers w n) = Idle →
      iAllocateNext draw (alloc (etcd (servers w n))) = (next, a) →
      step size w [] (set_server w n (mkEtcd a (last (etcd (servers w n))))
        (match next with Ok (Some i) => Trying (OpNext i) | _ => Idle end))
  | step_release w n i :
      at_phase (servers w n) = Idle → i ∈ held w →
      step size w [Released i] (begin_release w n i)
  | step_attempt w n o draw :
      at_phase (servers w n) = Trying o →
      step size w (attempt draw w n o).1 (attempt draw w n o).2
  | step_write w n o v out contents rev :
      at_phase (servers w n) = Computed o v out → stored w = Some (v, contents) → v < rev →
      let r := finish (set_stored w (Some (rev, out))) n (etcd (servers w n)) o in
      step size w r.1 r.2
  | step_conflict w n o v out version contents :
      at_phase (servers w n) = Computed o v out → stored w = Some (version, contents) → version ≠ v →
      step size w [] (set_server w n (etcd (servers w n)) (Trying o))
  | step_lost w n o v out contents rev :
      at_phase (servers w n) = Computed o v out → stored w = Some (v, contents) → v < rev →
      step size w [] (set_server (set_stored w (Some (rev, out))) n (etcd (servers w n)) Idle)
  | step_fail w n :
      step size w [] (set_server w n (etcd (servers w n)) Idle).

Inductive run (size : Z) : world → list event → world → Prop :=
  | run_nil w : run size w [] w
  | run_step w tr w' tr' w'' : run size w tr w' → step size w' tr' w'' → run size w (tr ++ tr') w''.

End etcd.
Arguments world A : clear implicits.
Arguments server A : clear implicits.

(** ** The invariant *)

(** What the callers hold after a sequence of events, and that nothing is granted
    that is held. *)
Fixpoint after (H : gset Z) (tr : list event) : gset Z :=
  match tr with
  | [] => H
  | Granted i :: tr => after ({[i]} ∪ H) tr
  | Released i :: tr => after (H ∖ {[i]}) tr
  end.

Fixpoint exclusive (H : gset Z) (tr : list event) : Prop :=
  match tr with
  | [] => True
  | Granted i :: tr => i ∉ H ∧ exclusive ({[i]} ∪ H) tr
  | Released i :: tr => exclusive (H ∖ {[i]}) tr
  end.

Lemma after_app H tr tr' : after H (tr ++ tr') = after (after H tr) tr'.
Proof. revert H. induction tr as [|[i|i] tr IH]; intros H; simpl; auto. Qed.

Lemma exclusive_app H tr tr' : exclusive H (tr ++ tr') ↔ exclusive H tr ∧ exclusive (after H tr) tr'.
Proof. revert H. induction tr as [|[i|i] tr IH]; intros H; simpl; [tauto|rewrite IH; tauto|apply IH]. Qed.

Section safety.
Context {A : Type} `{HA : AllocatorInterface A, !AllocatorLaws A, !Snapshottable A, !SnapshottableLaws A}.
Context (K : string * Z).

Definition op_of (p : phase) : option op :=
  match p with Idle => None | Trying o | Computed o _ _ => Some o end.

Definition allocating (s : server A) (i : Z) : Prop := op_of (at_phase s) ≫= granted = Some i.
Definition releasing (s : server A) (i : Z) : Prop := op_of (at_phase s) = Some (OpRelease i).

(** A server claims an item that it releases, or that is stored and that its copy of
    the current version does not have or is about to get: only this server can grant
    the item next. *)
Definition claims (v : Z) (b : A) (s : server A) (i : Z) : Prop :=
  releasing s i ∨
  last (etcd s) = Some v ∧ i ∈ items b ∧ (i ∉ items (alloc (etcd s)) ∨ allocating s i).

Record server_ok (v : Z) (s : server A) : Prop := {
  ok_valid : valid (alloc (etcd s));
  ok_kind : kind (alloc (etcd s)) = K;
  ok_last l : last (etcd s) = Some l → l ≤ v;
  ok_alloc i : allocating s i → i ∈ items (alloc (etcd s));
  ok_computed o v' out : at_phase s = Computed o v' out →
    last (etcd s) = Some v' ∧ out = iSnapshot (alloc (etcd s));
}.

Record inv (w : world A) (v : Z) (b : A) : Prop := {
  inv_stored : stored w = Some (v, iSnapshot b);
  inv_valid : valid b;
  inv_kind : kind b = K;
  inv_held : held w ⊆ items b;
  inv_server n : server_ok v (servers w n);
  inv_claims n i : claims v b (servers w n) i → i ∉ held w;
  inv_unique n m i : claims v b (servers w n) i → claims v b (servers w m) i → n = m;
  inv_releasing n i : releasing (servers w n) i → i ∈ items b;
}.

(** The copy of the current version has everything that is held. *)
Lemma inv_copy w v b n :
  inv w v b → last (etcd (servers w n)) = Some v → held w ⊆ items (alloc (etcd (servers w n))).
Proof.
  intros Hi Hl i Hheld. destruct (decide (i ∈ items (alloc (etcd (servers w n))))) as [|Hni]; [done|].
  exfalso. apply (inv_claims _ _ _ Hi n i); [|done]. right. split_and!; [done| |by left].
  by apply (inv_held _ _ _ Hi).
Qed.

Lemma inv_copy_other w v b n m i :
  inv w v b → last (etcd (servers w n)) = Some v → releasing (servers w m) i → n ≠ m →
  i ∈ items (alloc (etcd (servers w n))) ∧ ¬ allocating (servers w n) i.
Proof.
  intros Hi Hl Hr Hne. pose proof (inv_releasing _ _ _ Hi m i Hr) as Hb.
  assert (¬ claims v b (servers w n) i) as Hnc.
  { intros Hc. apply Hne. apply (inv_unique _ _ _ Hi n m i); [done|by left]. }
  split.
  - destruct (decide (i ∈ items (alloc (etcd (servers w n))))) as [|Hni]; [done|].
    exfalso. apply Hnc. right. auto.
  - intros Ha. apply Hnc. right. auto.
Qed.

(** A server whose claims do not grow, with what is held growing at most by an item
    it claimed and claims no longer. *)
Lemma inv_server_step w v b n e p i H' :
  inv w v b → server_ok v (mkServer e p) →
  (∀ j, claims v b (mkServer e p) j → claims v b (servers w n) j) →
  (∀ j, releasing (mkServer e p) j → j ∈ items b) →
  (H' = held w ∨ H' = {[i]} ∪ held w ∧ i ∈ items b ∧ claims v b (servers w n) i ∧
     ¬ claims v b (mkServer e p) i) →
  inv (mkWorld (stored w) (<[n := mkServer e p]> (servers w)) H') v b.
Proof.
  intros Hi Hs Hc Hr HH. split; simpl; try apply Hi.
  - destruct HH as [->|(-> & ? & _)]; pose proof (inv_held _ _ _ Hi); set_solver.
  - intros m. destruct (decide (m = n)) as [->|]; [by rewrite fn_lookup_insert|].
    rewrite fn_lookup_insert_ne by done. apply Hi.
  - intros m j Hm. destruct (decide (m = n)) as [->|Hne].
    + rewrite fn_lookup_insert in Hm. pose proof (inv_claims _ _ _ Hi n j (Hc j Hm)).
      destruct HH as [->|(-> & ? & ? & ?)]; [done|]. rewrite not_elem_of_union, not_elem_of_singleton.
      split; [by intros ->|done].
    + rewrite fn_lookup_insert_ne in Hm by done. pose proof (inv_claims _ _ _ Hi m j Hm).
      destruct HH as [->|(-> & ? & Hci & ?)]; [done|]. rewrite not_elem_of_union, not_elem_of_singleton.
      split; [|done]. intros ->. apply Hne. by apply (inv_unique _ _ _ Hi m n i).
  - intros m m' j Hm Hm'. apply (inv_unique _ _ _ Hi m m' j).
    + destruct (decide (m = n)) as [->|]; [rewrite fn_lookup_insert in Hm; auto|].
      by rewrite fn_lookup_insert_ne in Hm.
    + destruct (decide (m' = n)) as [->|]; [rewrite fn_lookup_insert in Hm'; auto|].
      by rewrite fn_lookup_insert_ne in Hm'.
  - intros m j. destruct (decide (m = n)) as [->|]; [rewrite fn_lookup_insert; auto|].
    rewrite fn_lookup_insert_ne by done. apply Hi.
Qed.

(** Ending a call leaves no more claims than there were. *)
Lemma idle_claims v b s e j :
  e = etcd s → claims v b (mkServer e Idle) j → claims v b s j.
Proof. intros -> [Hr|(? & ? & [?|?])]; [done|right; auto|done]. Qed.

Lemma idle_ok v s : server_ok v s → server_ok v (mkServer (etcd s) Idle).
Proof. intros []. by split. Qed.

Lemma phase_ok v s o :
  server_ok v s → op_of (at_phase s) = Some o → server_ok v (mkServer (etcd s) (Trying o)).
Proof. intros [] E. split; simpl; try done. intros i Hi. apply ok_alloc0. unfold allocating. by rewrite E. Qed.

(** Writing the server's copy: a new version, which no copy is of. *)
Lemma etcd_inv_write w v b n o out rev H' :
  inv w v b → at_phase (servers w n) = Computed o v out → v < rev →
  (H' = held w ∨ ∃ i, granted o = Some i ∧ H' = {[i]} ∪ held w) →
  inv (mkWorld (Some (rev, out)) (<[n := mkServer (etcd (servers w n)) Idle]> (servers w)) H') rev
    (alloc (etcd (servers w n))).
Proof.
  intros Hi Hp Hlt HH. pose proof (inv_server _ _ _ Hi n) as Hn.
  destruct (ok_computed _ _ Hn _ _ _ Hp) as [Hl ->]. set (a := alloc (etcd (servers w n))) in *.
  assert (∀ m j, claims rev a (<[n:=mkServer (etcd (servers w n)) Idle]> (servers w) m) j →
    m ≠ n ∧ releasing (servers w m) j) as Hcl.
  { intros m j Hm. destruct (decide (m = n)) as [->|Hne].
    - rewrite fn_lookup_insert in Hm. destruct Hm as [?|(E & _)]; [done|].
      apply (ok_last _ _ Hn) in E. lia.
    - rewrite fn_lookup_insert_ne in Hm by done. destruct Hm as [?|(E & _)]; [done|].
      apply (ok_last _ _ (inv_server _ _ _ Hi m)) in E. lia. }
  split; simpl; try done; try apply Hn.
  - pose proof (inv_copy _ _ _ _ Hi Hl). destruct HH as [->|(i & Hg & ->)]; [done|].
    assert (i ∈ items a); [|set_solver]. apply (ok_alloc _ _ Hn). unfold allocating. by rewrite Hp.
  - intros m. assert (server_ok rev (servers w m)) as Hm.
    { destruct (inv_server _ _ _ Hi m). split; try done. intros l E. apply ok_last0 in E. lia. }
    destruct (decide (m = n)) as [->|]; [rewrite fn_lookup_insert; by apply idle_ok|].
    by rewrite fn_lookup_insert_ne.
  - intros m j [Hne Hr]%Hcl. pose proof (inv_claims _ _ _ Hi m j (or_introl Hr)) as Hh.
    destruct (inv_copy_other _ _ _ n m j Hi Hl Hr ltac:(done)) as [_ Hna].
    destruct HH as [->|(i & Hg & ->)]; [done|]. rewrite not_elem_of_union, not_elem_of_singleton.
    split; [|done]. intros ->. apply Hna. unfold allocating. by rewrite Hp.
  - intros m m' j [_ Hm]%Hcl [_ Hm']%Hcl. apply (inv_unique _ _ _ Hi m m' j); by left.
  - intros m j Hm. destruct (decide (m = n)) as [->|Hne]; [by rewrite fn_lookup_insert in Hm|].
    rewrite fn_lookup_insert_ne in Hm by done. by apply (inv_copy_other _ _ _ n m j Hi Hl Hm).
Qed.

(** What an operation does to a set of items below [size]; [o'] is the operation with the offset
    it got. *)
Definition effect (size : Z) (o o' : op) (X Y : gset Z) : Prop :=
  match o with
  | OpAllocate i => o' = o ∧ i ∉ X ∧ Y = {[i]} ∪ X
  | OpNext _ => ∃ i, o' = OpNext i ∧ 0 ≤ i < size ∧ i ∉ X ∧ Y = {[i]} ∪ X
  | OpRelease i => o' = o ∧ Y = X ∖ {[i]}
  end.

Lemma effect_granted size o o' X Y :
  effect size o o' X Y → (∀ i, o ≠ OpRelease i) → ∃ i, granted o' = Some i ∧ i ∉ X ∧ Y = {[i]} ∪ X.
Proof. destruct o as [i|i|i]; simpl; [intros (-> & ? & ?) _; eauto|intros (j & -> & _ & ? & ?) _; eauto|]. intros _ Ho. by destruct (Ho i). Qed.

(** The functions that are retried, on a fresh copy. *)
Lemma op_fn_spec draw o a :
  valid a → (∀ i, granted o = Some i → 0 ≤ i < size_of a) →
  let '(res, a') := op_fn draw o a in
  valid a' ∧ kind a' = kind a ∧
  match res with
  | Ok o' => effect (size_of a) o o' (items a) (items a')
  | Err _ => items a' = items a
  end.
Proof.
  intros Hv Hr. destruct o as [i|i|i]; simpl.
  - pose proof (law_Allocate a i Hv (Hr i eq_refl)) as Ha. pose proof (kind_Allocate a i) as Hk.
    destruct (iAllocate a i) as [ok a']. destruct Ha as (H1 & _ & -> & H3).
    case_bool_decide; simpl; (split_and!; [done..|]); [set_solver|naive_solver].
  - pose proof (law_Allocate a i Hv (Hr i eq_refl)) as Ha. pose proof (kind_Allocate a i) as Hk.
    destruct (iAllocate a i) as [ok a']. destruct Ha as (H1 & _ & -> & H3).
    case_bool_decide as Hin; simpl; [|split_and!; [done..|]; exists i; split_and!; try done; by apply Hr].
    assert (items a' = items a) as E by set_solver.
    pose proof (law_AllocateNext draw a' H1) as Hn. pose proof (kind_AllocateNext draw a') as Hk'.
    destruct (iAllocateNext draw a') as [[[j|]|err] a'']; destruct Hn as (H4 & H4' & H5); simpl in *; [..|done];
      (split_and!; [done|congruence|]).
    + destruct H5 as (Hjr & Hj & Hj'). exists j. rewrite E in *. rewrite (kind_size a' a) in Hjr by done. done.
    + destruct H5 as [-> _]. done.
  - pose proof (law_Release a i Hv) as Ha. pose proof (kind_Release a i) as Hk. destruct (iRelease a i) as [err a'].
    destruct Ha as (-> & H1 & _ & H3). done.
Qed.

Lemma update_spec draw w v b n o :
  inv w v b → at_phase (servers w n) = Trying o →
  let '(res, e) := update draw o (etcd (servers w n)) (existing (stored w)) in
  match res with
  | Err _ =>
      server_ok v (mkServer e Idle) ∧
      ∀ j, claims v b (mkServer e Idle) j → claims v b (servers w n) j
  | Ok (o', out) =>
      out = mkRangeAllocation (Some v) (iSnapshot (alloc e)) ∧
      server_ok v (mkServer e (Computed o' v (iSnapshot (alloc e)))) ∧
      (∀ j, claims v b (mkServer e (Computed o' v (iSnapshot (alloc e)))) j → claims v b (servers w n) j) ∧
      (∀ j, o' = OpRelease j → o = OpRelease j) ∧
      (∀ i, granted o' = Some i → i ∈ items b →
         last e = Some v ∧ i ∈ items (alloc e) ∧ claims v b (servers w n) i ∨ items (alloc e) ≠ items b)
  end.
Proof.
  intros Hi Hp. pose proof (inv_server _ _ _ Hi n) as Hn. unfold update.
  rewrite (inv_stored _ _ _ Hi). simpl. destruct (servers w n) as [[a l] p] eqn:Es. simpl in *. subst p.
  destruct (bool_decide_reflect (l = Some v)) as [->|Hl]; simpl.
  { (* the server's copy is of the current version *)
    split_and!; [done| |done|done|].
    - destruct Hn. split; simpl in *; try done. naive_solver.
    - intros i Hg Hb. left. split_and!; [done| |].
      + apply (ok_alloc _ _ Hn). unfold allocating. simpl. by rewrite Hg.
      + right. split_and!; [done..|]. right. unfold allocating. simpl. by rewrite Hg. }
  destruct (law_Restore a b) as (c & Hc & Hcv & Hck & Hci);
    [apply Hn|apply Hi|rewrite (inv_kind _ _ _ Hi); apply Hn|].
  rewrite Hc. pose proof (op_fn_spec draw o c Hcv) as Hop. destruct (op_fn draw o c) as [res a'] eqn:Eop.
  destruct Hop as (Hv' & Hk' & Hres).
  { intros i Hg. rewrite (kind_size c a) by done. apply items_range; [apply Hn|].
    apply (ok_alloc _ _ Hn). unfold allocating. simpl. by rewrite Hg. }
  assert (kind a' = K) as HK by (rewrite Hk', Hck; apply (ok_kind _ _ Hn)).
  destruct res as [o'|err].
  2:{ split; [split; simpl; [done|done|apply (ok_last _ _ Hn)|done|done]|].
      intros j [?|(E & _)]; [done|]. simpl in E. congruence. }
  split; [done|]. assert (∀ i, o = OpRelease i → o' = o ∧ items a' = items c ∖ {[i]}) as Hrel
    by (intros i ->; apply Hres).
  assert ((∀ i, o ≠ OpRelease i) → ∃ i, granted o' = Some i ∧ i ∉ items c ∧ items a' = {[i]} ∪ items c) as Hall
    by (intros Ho; by eapply effect_granted).
  clear Hres. assert ((∃ i, o = OpRelease i) ∨ ∀ i, o ≠ OpRelease i) as [[i ->]|Ho]
    by (destruct o as [i|i|i]; [by right|by right|left; by exists i]).
  - destruct (Hrel i eq_refl) as [-> Hit]. split_and!; [|  |done|done].
    + split; simpl; [done|done|intros ? [= ->]; lia|done|naive_solver].
    + intros j [Hj|(_ & Hb & [Hj|Hj])]; [left; done| |done]. simpl in Hj. left.
      assert (j = i) as ->; [|done]. rewrite Hit, Hci in Hj. apply dec_stable. intros Hne.
      apply Hj, elem_of_difference. by rewrite elem_of_singleton.
  - destruct (Hall Ho) as (i & Hg & Hni & Hit). split_and!.
    + split; simpl; [done|done|intros ? [= ->]; lia| |naive_solver].
      intros j Hj. unfold allocating in Hj. simpl in Hj. assert (j = i) as -> by congruence.
      rewrite Hit. apply elem_of_union. left. by apply elem_of_singleton.
    + intros j [Hj|(_ & Hb & [Hj|Hj])].
      * unfold releasing in Hj. simpl in Hj. injection Hj as ->. done.
      * simpl in Hj. rewrite Hit, Hci in Hj. exfalso. apply Hj, elem_of_union. by right.
      * unfold allocating in Hj. simpl in Hj. assert (j = i) as -> by congruence. by rewrite Hci in Hni.
    + intros j ->. done.
    + intros j Hj Hb. exfalso. assert (j = i) as -> by congruence. by rewrite Hci in Hni.
Qed.

(** An operation that is about to write grants nothing that is held. *)
Lemma computed_free w v b n o out i :
  inv w v b → at_phase (servers w n) = Computed o v out → granted o = Some i → i ∉ held w.
Proof.
  intros Hi Hp Hg. destruct (decide (i ∈ items b)) as [Hb|Hb].
  - apply (inv_claims _ _ _ Hi n i). right. destruct (ok_computed _ _ (inv_server _ _ _ Hi n) _ _ _ Hp) as [-> _].
    split_and!; [done..|]. right. unfold allocating. by rewrite Hp.
  - intros Hh. by apply Hb, (inv_held _ _ _ Hi).
Qed.

Lemma attempt_inv draw w v b n o :
  inv w v b → at_phase (servers w n) = Trying o →
  let '(tr, w') := attempt draw w n o in
  inv w' v b ∧ exclusive (held w) tr ∧ held w' = after (held w) tr.
Proof.
  intros Hi Hp. pose proof (update_spec draw w v b n o Hi Hp) as Hu. unfold attempt.
  destruct (update draw o _ _) as [[[o' out]|err] e].
  2:{ destruct Hu as [H1 H2]. split; [|done]. apply (inv_server_step w v b n e Idle 0); auto. done. }
  destruct Hu as (-> & Hok & Hcl & Hrel & Hgr). simpl Contents. case_bool_decide as E; simpl.
  2:{ split; [|done]. apply (inv_server_step w v b n e _ 0); auto. intros j Hj.
      unfold releasing in Hj. simpl in Hj. injection Hj as ->. apply (inv_releasing _ _ _ Hi n j).
      unfold releasing. rewrite Hp. simpl. by rewrite (Hrel j). }
  rewrite (inv_stored _ _ _ Hi) in E. simpl in E.
  assert (items (alloc e) = items b) as Hit by (apply law_Snapshot; [apply Hok|apply Hi|done]).
  assert (server_ok v (mkServer e Idle)) as Hidle by (by destruct Hok).
  assert (∀ j, claims v b (mkServer e Idle) j → claims v b (servers w n) j) as Hcl'.
  { intros j Hj. apply Hcl. by apply (idle_claims v b (mkServer e (Computed o' v (iSnapshot (alloc e))))) in Hj. }
  unfold finish. destruct (granted o') as [i|] eqn:Hg; simpl.
  - assert (i ∈ items b) as Hb.
    { rewrite <- Hit. apply (ok_alloc _ _ Hok). unfold allocating. simpl. by rewrite Hg. }
    destruct (Hgr i eq_refl Hb) as [(_ & _ & Hc)|]; [|done].
    split; [|split; [|done]].
    + apply (inv_server_step w v b n e Idle i); auto; [done|]. right. split_and!; [done..|].
      intros [?|(_ & _ & [Hni|?])]; [done| |done]. simpl in Hni. rewrite Hit in Hni. done.
    + split; [|done]. by apply (inv_claims _ _ _ Hi n i).
  - split; [|done]. apply (inv_server_step w v b n e Idle 0); auto. done.
Qed.

Lemma release_inv w v b n i :
  inv w v b → at_phase (servers w n) = Idle → i ∈ held w → inv (begin_release w n i) v b.
Proof.
  intros Hi Hp Hheld. pose proof (inv_server _ _ _ Hi n) as Hn.
  pose proof (law_Release (alloc (etcd (servers w n))) i (ok_valid _ _ Hn)) as Ha.
  pose proof (kind_Release (alloc (etcd (servers w n))) i) as Hk. unfold begin_release.
  destruct (iRelease (alloc (etcd (servers w n))) i) as [err a]. destruct Ha as (-> & H1 & H2 & H3). simpl in Hk.
  set (s' := mkServer (mkEtcd a (last (etcd (servers w n)))) (Trying (OpRelease i))).
  assert (∀ j, claims v b s' j → j = i ∨ claims v b (servers w n) j) as Hc.
  { intros j [Hj|(Hl & Hb & [Hj|Hj])]; [|simpl in Hj|done].
    - unfold releasing in Hj. simpl in Hj. left. congruence.
    - rewrite H3 in Hj. destruct (decide (j = i)); [by left|]. right. right. split_and!; [done..|]. left. set_solver. }
  assert (∀ m j, claims v b (<[n:=s']> (servers w) m) j → j = i ∧ m = n ∨ j ≠ i ∧ claims v b (servers w m) j) as Hcl.
  { intros m j Hm. destruct (decide (m = n)) as [->|Hne].
    - rewrite fn_lookup_insert in Hm. apply Hc in Hm as [->|Hm]; [by left|].
      destruct (decide (j = i)) as [->|]; [by left|by right].
    - rewrite fn_lookup_insert_ne in Hm by done. right. split; [|done]. intros ->.
      by apply (inv_claims _ _ _ Hi m i Hm). }
  split; simpl; try apply Hi.
  - pose proof (inv_held _ _ _ Hi). set_solver.
  - intros m. destruct (decide (m = n)) as [->|]; [rewrite fn_lookup_insert|rewrite fn_lookup_insert_ne by done; apply Hi].
    split; simpl; [done|rewrite Hk; apply Hn|apply (ok_last _ _ Hn)|done|done].
  - intros m j [[-> _]|[Hne Hm]]%Hcl; [set_solver|]. pose proof (inv_claims _ _ _ Hi m j Hm). set_solver.
  - intros m m' j [[-> ->]|[Hne Hm]]%Hcl [[E ->]|[Hne' Hm']]%Hcl; [done|done|done|].
    by apply (inv_unique _ _ _ Hi m m' j).
  - intros m j Hm. destruct (decide (m = n)) as [->|].
    + rewrite fn_lookup_insert in Hm. unfold releasing in Hm. simpl in Hm. injection Hm as ->.
      by apply (inv_held _ _ _ Hi).
    + rewrite fn_lookup_insert_ne in Hm by done. by apply (inv_releasing _ _ _ Hi m j).
Qed.

Lemma start_ok v (s : server A) a o :
  server_ok v s → valid a → kind a = K →
  (∀ i, o = Some i → i ∈ items a) →
  ∀ p, op_of p ≫= granted = o → (∀ o v out, p ≠ Computed o v out) →
  server_ok v (mkServer (mkEtcd a (last (etcd s))) p).
Proof.
  intros Hs Hv Hk Hi p Hp Hnc. split; simpl; [done|done|apply (ok_last _ _ Hs)| |].
  - intros i Ha. apply Hi. unfold allocating in Ha. simpl in Ha. congruence.
  - intros o' v' out E. by destruct (Hnc o' v' out).
Qed.

(** A call that starts: the local copy grows by the item that the call is about, so
    what the server claims does not. *)
Lemma begin_inv w v b n a next p :
  inv w v b → at_phase (servers w n) = Idle → valid a → kind a = K →
  (∀ j, j ∈ items a ↔ next = Some j ∨ j ∈ items (alloc (etcd (servers w n)))) →
  (∀ j, next = Some j → j ∉ items (alloc (etcd (servers w n)))) →
  op_of p ≫= granted = next → (∀ j, op_of p ≠ Some (OpRelease j)) → (∀ o v out, p ≠ Computed o v out) →
  inv (set_server w n (mkEtcd a (last (etcd (servers w n)))) p) v b.
Proof.
  intros Hi Hidle Hv Hk Hit Hnext Hp Hrel Hnc. unfold set_server.
  apply (inv_server_step w v b n _ _ 0); auto.
  - apply (start_ok v (servers w n) a next); auto; [apply Hi|]. intros i ->. apply Hit. by left.
  - intros j [Hj|(Hl & Hb & Hj)]; [by apply Hrel in Hj|]. right. split_and!; [done..|]. left.
    destruct Hj as [Hj|Hj]; simpl in Hj.
    + intros Hin. apply Hj, Hit. by right.
    + unfold allocating in Hj. simpl in Hj. rewrite Hp in Hj. by apply Hnext.
  - intros j Hj. by apply Hrel in Hj.
Qed.

Lemma etcd_step_inv w v b tr w' :
  inv w v b → step K.2 w tr w' → (∀ a : A, kind a = K → size_of a = K.2) →
  (∃ v' b', inv w' v' b') ∧ exclusive (held w) tr ∧ held w' = after (held w) tr.
Proof.
  intros Hi Hstep HK. destruct Hstep as [w n i ok a Hp Hr E|w n draw next a Hp E|w n i Hp Hh|w n o draw Hp|
    w n o v' out contents rev Hp Hs Hlt|w n o v' out version contents Hp Hs Hne|
    w n o v' out contents rev Hp Hs Hlt|w n]; pose proof (inv_server _ _ _ Hi n) as Hn.
  - split; [|done]. exists v, b. rewrite <- (HK _ (ok_kind _ _ Hn)) in Hr.
    pose proof (law_Allocate _ i (ok_valid _ _ Hn) Hr) as Ha. pose proof (kind_Allocate (alloc (etcd (servers w n))) i) as Hk.
    rewrite E in Ha, Hk. destruct Ha as (Ha & _ & -> & Hit). simpl in Hk. rewrite (ok_kind _ _ Hn) in Hk.
    case_bool_decide as Hin; simpl.
    + apply (begin_inv w v b n a None); auto; try done. intros j. rewrite Hit. set_solver.
    + apply (begin_inv w v b n a (Some i)); auto; try done; [|naive_solver]. intros j. rewrite Hit. set_solver.
  - split; [|done]. exists v, b. pose proof (law_AllocateNext draw _ (ok_valid _ _ Hn)) as Ha.
    pose proof (kind_AllocateNext draw (alloc (etcd (servers w n)))) as Hk.
    rewrite E in Ha, Hk. simpl in Hk. rewrite (ok_kind _ _ Hn) in Hk. destruct Ha as (Ha & _ & Hnext).
    destruct next as [next|err]; [|done].
    apply (begin_inv w v b n a next); auto; destruct next as [i|]; try done.
    + destruct Hnext as (_ & Hni & ->). set_solver.
    + destruct Hnext as [-> _]. naive_solver.
    + destruct Hnext as (_ & Hni & _). naive_solver.
  - split; [exists v, b; by apply release_inv|]. unfold begin_release. by destruct (iRelease _ _).
  - pose proof (attempt_inv draw w v b n o Hi Hp) as Ha. destruct (attempt draw w n o) as [tr w'].
    destruct Ha as (H1 & H2 & H3). split; [by exists v, b|done].
  - rewrite (inv_stored _ _ _ Hi) in Hs. injection Hs as -> <-.
    pose proof (computed_free w v' b n o out) as Hfree. unfold r, finish, set_stored, set_server. simpl.
    destruct (granted o) as [i|] eqn:Hg; simpl; (split; [eexists rev, _; apply (etcd_inv_write w v' b n o out rev); eauto|]); [|done].
    split; [|done]. split; [by apply Hfree|done].
  - split; [|done]. exists v, b. apply (inv_server_step w v b n _ _ 0); auto.
    + apply phase_ok; [done|by rewrite Hp].
    + intros j [Hj|(? & ? & [Hj|Hj])].
      * left. unfold releasing in *. by rewrite Hp.
      * right. auto.
      * right. split_and!; [done..|]. right. unfold allocating in *. by rewrite Hp.
    + intros j Hj. apply (inv_releasing _ _ _ Hi n j). unfold releasing in *. by rewrite Hp.
  - rewrite (inv_stored _ _ _ Hi) in Hs. injection Hs as -> <-. split; [|done].
    eexists rev, _. apply (etcd_inv_write w v' b n o out rev); auto.
  - split; [|done]. exists v, b. apply (inv_server_step w v b n _ _ 0); auto; [by apply idle_ok| |done].
    intros j. by apply idle_claims.
Qed.

Lemma etcd_run_inv w v b tr w' :
  inv w v b → run K.2 w tr w' → (∀ a : A, kind a = K → size_of a = K.2) →
  (∃ v' b', inv w' v' b') ∧ exclusive (held w) tr ∧ held w' = after (held w) tr.
Proof.
  intros Hi Hrun HK. induction Hrun as [w|w tr w' tr' w'' Hrun IH Hstep]; [split; [by exists v, b|done]|].
  destruct (IH Hi) as ((v1 & b1 & Hi1) & He & Hh).
  destruct (etcd_step_inv _ _ _ _ _ Hi1 Hstep HK) as (H1 & H2 & H3).
  split; [done|]. rewrite exclusive_app, after_app, <- Hh. done.
Qed.

End safety.

(** ** One server as an allocator

    A server to whose storage nobody else writes is an allocator in turn, whose requests can
    fail: [requests] says what becomes of each, and what is drawn when it is retried. *)
Record client (A : Type) : Type := mkClient {
  c_etcd : Etcd A;
  c_store : store;
  requests : list (Z * fault);
}.
Arguments mkClient {A} _ _ _.
Arguments c_etcd {A} _.
Arguments c_store {A} _.
Arguments requests {A} _.

Definition next_request {A} (c : client A) : Z * fault * list (Z * fault) :=
  match requests c with [] => (0, Answered, []) | r :: rs => (r, rs) end.

Definition next_rev {A} (c : client A) : Z := match c_store c with Some (v, _) => v + 1 | None => 1 end.

#[global] Instance client_Interface (A : Type) `{AllocatorInterface A, !Snapshottable A} : AllocatorInterface (client A) := {|
  iError := EtcdError (iError A);
  iAllocate c i :=
    let '((draw, f), rs) := next_request c in
    let '((res, e), s) := Etcd_Allocate f draw (next_rev c) (c_etcd c) (c_store c) i in (res, mkClient e s rs);
  iAllocateNext draw c :=
    let '((draw', f), rs) := next_request c in
    let '((res, e), s) := Etcd_AllocateNext f draw draw' (next_rev c) (c_etcd c) (c_store c) in (res, mkClient e s rs);
  iRelease c i :=
    let '((draw, f), rs) := next_request c in
    let '((res, e), s) := Etcd_Release f draw (next_rev c) (c_etcd c) (c_store c) i in (res, mkClient e s rs);
  iForEach c := Etcd_ForEach (c_etcd c);
  iHas c i := Etcd_Has (c_etcd c) i;
  iFree c := Etcd_Free (c_etcd c);
|}.

Section client.
Context {A : Type} `{HA : AllocatorInterface A, !AllocatorLaws A, !Snapshottable A, !SnapshottableLaws A}.

(** The stored items, and whether the copy is of the stored version. *)
Definition stored_items (c : client A) : gset Z :=
  match c_store c with
  | Some (_, contents) =>
      match iRestore (alloc (c_etcd c)) contents.1 contents.2 with Some b => items b | None => ∅ end
  | None => ∅
  end.

Definition current (c : client A) : bool :=
  match c_store c with Some (v, _) => bool_decide (last (c_etcd c) = Some v) | None => false end.

(** A copy of the stored version is what is written next. *)
Definition client_surely (c : client A) : gset Z :=
  if current c then stored_items c ∩ items (alloc (c_etcd c)) else stored_items c.
Definition client_maybe (c : client A) : gset Z :=
  if current c then stored_items c ∪ items (alloc (c_etcd c)) else stored_items c.

Definition client_ok (c : client A) (v : Z) (b : A) : Prop :=
  c_store c = Some (v, iSnapshot b) ∧ valid b ∧ valid (alloc (c_etcd c)) ∧ kind (alloc (c_etcd c)) = kind b ∧
  ∀ l, last (c_etcd c) = Some l → l ≤ v.

Definition client_safe (c : client A) : Prop := ∃ v b, client_ok c v b.

Lemma client_sets c v b :
  client_ok c v b →
  client_surely c = (if bool_decide (last (c_etcd c) = Some v) then items b ∩ items (alloc (c_etcd c)) else items b) ∧
  client_maybe c = (if bool_decide (last (c_etcd c) = Some v) then items b ∪ items (alloc (c_etcd c)) else items b).
Proof.
  intros (Hs & Hb & Ha & Hk & _). unfold client_surely, client_maybe, stored_items, current. rewrite Hs.
  destruct (law_Restore (alloc (c_etcd c)) b Ha Hb Hk) as (b' & -> & _ & _ & ->). done.
Qed.

(** What a request leaves: everything is as the operation [o'] made it of [X], when it
    succeeded; otherwise the operation may have been made in part. *)
Definition left_by (c c' : client A) (b : A) (o : op) (res : result (EtcdError (iError A)) op) (X : gset Z) : Prop :=
  let size := size_of (alloc (c_etcd c)) in
  client_safe c' ∧ size_of (alloc (c_etcd c')) = size ∧
  match res with
  | Ok o' => ∃ Y, effect size o o' X Y ∧ client_surely c' = Y ∧ client_maybe c' = Y
  | Err err => (err = errorUnableToAllocate → client_maybe c' = X) ∧ ∃ Y, (Y = X ∨ ∃ o', effect size o o' X Y) ∧
      (client_surely c' = items b ∩ Y ∧ client_maybe c' = items b ∪ Y ∨ client_surely c' = Y ∧ client_maybe c' = Y)
  end.

(** The same copy and storage. *)
Lemma left_by_same c v b o X rs :
  client_ok c v b →
  (last (c_etcd c) = Some v → ∃ o', effect (size_of (alloc (c_etcd c))) o o' X (items (alloc (c_etcd c)))) →
  (last (c_etcd c) ≠ Some v → X = items b) →
  left_by c (mkClient (c_etcd c) (c_store c) rs) b o (Err ErrStorage) X.
Proof.
  intros Hok Hcur Hold. assert (client_ok (mkClient (c_etcd c) (c_store c) rs) v b) as Hok' by done.
  split; [by exists v, b|]. split; [done|]. split; [done|]. destruct (client_sets _ _ _ Hok') as [-> ->]. cbn [c_etcd].
  case_bool_decide as E; [|exists X; split; [by left|right; by rewrite (Hold E)]].
  eexists. split; [right; exact (Hcur E)|by left].
Qed.

(** What the request computes, written or not. *)
Lemma left_by_computed c v b a X o o' rs rev :
  client_ok c v b → v < rev → valid a → kind a = kind b → size_of a = size_of (alloc (c_etcd c)) →
  effect (size_of (alloc (c_etcd c))) o o' X (items a) →
  left_by c (mkClient (mkEtcd a (Some v)) (Some (v, iSnapshot b)) rs) b o (Err ErrStorage) X ∧
  (iSnapshot a = iSnapshot b → left_by c (mkClient (mkEtcd a (Some v)) (Some (v, iSnapshot b)) rs) b o (Ok o') X) ∧
  left_by c (mkClient (mkEtcd a (Some v)) (Some (rev, iSnapshot a)) rs) b o (Err ErrStorage) X ∧
  left_by c (mkClient (mkEtcd a (Some v)) (Some (rev, iSnapshot a)) rs) b o (Ok o') X.
Proof.
  intros (_ & Hb & _) Hrev Ha Hk Hsz He.
  assert (client_ok (mkClient (mkEtcd a (Some v)) (Some (v, iSnapshot b)) rs) v b) as Hok1.
  { split_and!; try done. simpl. intros l [= ->]. lia. }
  assert (client_ok (mkClient (mkEtcd a (Some v)) (Some (rev, iSnapshot a)) rs) rev a) as Hok2.
  { split_and!; try done. simpl. intros l [= ->]. lia. }
  destruct (client_sets _ _ _ Hok1) as [S1 M1], (client_sets _ _ _ Hok2) as [S2 M2]. cbn [c_etcd last alloc] in *.
  rewrite bool_decide_true in S1, M1 by done. rewrite bool_decide_false in S2, M2 by (intros [= ->]; lia).
  split; [|split; [|split]].
  - split; [by exists v, b|]. split; [done|]. split; [done|]. exists (items a). split; [right; by exists o'|by left].
  - intros E. split; [by exists v, b|]. split; [done|]. exists (items a). split; [done|].
    rewrite S1, M1, (law_Snapshot a b Ha Hb E). split; set_solver.
  - split; [by exists rev, a|]. split; [done|]. split; [done|]. exists (items a). split; [right; by exists o'|by right].
  - split; [by exists rev, a|]. split; [done|]. by exists (items a).
Qed.

Lemma tryUpdate_safe c v b o X f draw rs rev res e' s' :
  client_ok c v b → v < rev → (∀ i, granted o = Some i → 0 ≤ i < size_of (alloc (c_etcd c))) →
  (last (c_etcd c) = Some v → effect (size_of (alloc (c_etcd c))) o o X (items (alloc (c_etcd c)))) →
  (last (c_etcd c) ≠ Some v → X = items b) →
  tryUpdate f draw rev o (c_etcd c) (c_store c) = (res, e', s') →
  left_by c (mkClient e' s' rs) b o res X.
Proof.
  intros Hok Hrev Hrange Hcur Hold. pose proof Hok as (Hs & Hb & Ha & Hk & Hl).
  assert (tryUpdate Refused draw rev o (c_etcd c) (c_store c) = (res, e', s') → left_by c (mkClient e' s' rs) b o res X) as Href.
  { intros [= <- <- <-]. apply (left_by_same c v); [done| |done]. intros E. exists o. by apply Hcur. }
  assert (∀ a o', valid a → kind a = kind b → effect (size_of (alloc (c_etcd c))) o o' X (items a) →
    (if bool_decide (iSnapshot a = iSnapshot b) then (Ok o', mkEtcd a (Some v), c_store c)
     else match f with
          | Unwritten => (Err ErrStorage, mkEtcd a (Some v), c_store c)
          | Lost => (Err ErrStorage, mkEtcd a (Some v), Some (rev, iSnapshot a))
          | _ => (Ok o', mkEtcd a (Some v), Some (rev, iSnapshot a)) end) = (res, e', s') → left_by c (mkClient e' s' rs) b o res X) as Hcomp.
  { intros a o' Hva Hka He. assert (size_of a = size_of (alloc (c_etcd c))) as Hsz by (apply kind_size; congruence).
    destruct (left_by_computed c v b a X o o' rs rev Hok Hrev Hva Hka Hsz He) as (H1 & H2 & H3 & H4). rewrite Hs.
    case_bool_decide as E; [intros [= <- <- <-]; by apply H2|]. by destruct f; intros [= <- <- <-]. }
  unfold tryUpdate, update. destruct f; [|exact Href|..]; clear Href; rewrite Hs; simpl; rewrite Hs in Hcomp;
    (destruct (bool_decide_reflect (last (c_etcd c) = Some v)) as [E|E]; simpl;
     [exact (Hcomp _ _ Ha Hk (Hcur E))|];
     destruct (law_Restore (alloc (c_etcd c)) b Ha Hb Hk) as (a & -> & Hva & Hka & Hia);
     pose proof (op_fn_spec draw o a Hva) as Hop; rewrite (kind_size a (alloc (c_etcd c)) Hka) in Hop; specialize (Hop Hrange);
     destruct (op_fn draw o a) as [[o'|err] a']; destruct Hop as (Hva' & Hka' & He);
     [rewrite Hia, <- (Hold E) in He; apply Hcomp; [done|congruence|done]|];
     intros [= <- <- <-];
     assert (client_ok (mkClient (mkEtcd a' (last (c_etcd c))) (Some (v, iSnapshot b)) rs) v b) as Hok' by (split_and!; try done; simpl; congruence);
     split; [by exists v, b|]; split; [apply kind_size; simpl; congruence|];
     destruct (client_sets _ _ _ Hok') as [-> ->]; cbn [c_etcd last alloc];
     rewrite bool_decide_false by done; rewrite (Hold E); split; [done|]; exists (items b); split; [by left|by right]).
Qed.

(** What the operation starts from: the copy when it is current, and what is stored. *)
Definition working (c : client A) (v : Z) (b : A) : gset Z :=
  if bool_decide (last (c_etcd c) = Some v) then items (alloc (c_etcd c)) else items b.

Lemma working_sets c v b :
  client_ok c v b → client_surely c = items b ∩ working c v b ∧ client_maybe c = items b ∪ working c v b.
Proof. intros Hok. destruct (client_sets c v b Hok) as [-> ->]. unfold working. case_bool_decide; split; set_solver. Qed.

(** The call changes the copy, and then makes a request. *)
Lemma client_copy c v b a rs :
  client_ok c v b → valid a → kind a = kind (alloc (c_etcd c)) → client_ok (mkClient (mkEtcd a (last (c_etcd c))) (c_store c) rs) v b.
Proof. intros (? & ? & ? & ? & ?) ? ?. split_and!; try done. simpl. congruence. Qed.

Lemma client_request c v b a o f draw rs res e' s' :
  client_ok c v b → valid a → kind a = kind (alloc (c_etcd c)) →
  (∀ i, granted o = Some i → 0 ≤ i < size_of (alloc (c_etcd c))) → effect (size_of (alloc (c_etcd c))) o o (items (alloc (c_etcd c))) (items a) →
  tryUpdate f draw (next_rev c) o (mkEtcd a (last (c_etcd c))) (c_store c) = (res, e', s') →
  left_by c (mkClient e' s' rs) b o res (working c v b).
Proof.
  intros Hok Ha Hk Hr He Ht. pose proof (client_copy c v b a rs Hok Ha Hk) as Hok1.
  assert (size_of a = size_of (alloc (c_etcd c))) as Hsz by by apply kind_size.
  assert (v < next_rev c) as Hrev by (unfold next_rev; rewrite (proj1 Hok); lia).
  unfold left_by. rewrite <- Hsz in *. unfold working.
  apply (tryUpdate_safe (mkClient (mkEtcd a (last (c_etcd c))) (c_store c) rs) v b o _ f draw rs (next_rev c) res e' s' Hok1 Hrev); try done; simpl.
  - intros E. by rewrite bool_decide_true.
  - intros E. by rewrite bool_decide_false.
Qed.

(** Nothing is asked of the storage, and the copy has the same items. *)
Lemma client_unchanged c v b a rs :
  client_ok c v b → valid a → kind a = kind (alloc (c_etcd c)) → items a = items (alloc (c_etcd c)) →
  let c' := mkClient (mkEtcd a (last (c_etcd c))) (c_store c) rs in
  client_safe c' ∧ size_of a = size_of (alloc (c_etcd c)) ∧ client_surely c' = client_surely c ∧ client_maybe c' = client_maybe c.
Proof.
  intros Hok Ha Hk Hi. pose proof (client_copy c v b a rs Hok Ha Hk) as Hok'. split; [by exists v, b|]. split; [by apply kind_size|].
  destruct (client_sets _ _ _ Hok) as [-> ->], (client_sets _ _ _ Hok') as [-> ->]. simpl. by rewrite Hi.
Qed.

Lemma client_Allocate c v b i :
  client_ok c v b → 0 ≤ i < size_of (alloc (c_etcd c)) →
  let '(res, c') := iAllocate c i in
  client_safe c' ∧ size_of (alloc (c_etcd c')) = size_of (alloc (c_etcd c)) ∧ client_surely c ⊆ client_surely c' ∧
  match res with
  | Ok true => i ∉ client_surely c ∧ i ∈ client_surely c' ∧ client_maybe c' ⊆ {[i]} ∪ client_maybe c
  | Ok false => client_maybe c' ⊆ client_maybe c
  | Err _ => client_maybe c' ⊆ {[i]} ∪ client_maybe c
  end.
Proof.
  intros Hok Hi. simpl. destruct (next_request c) as [[draw f] rs]. unfold Etcd_Allocate. pose proof Hok as (_ & _ & Ha & _).
  pose proof (law_Allocate _ i Ha Hi) as Hal. pose proof (kind_Allocate (alloc (c_etcd c)) i) as Hk.
  destruct (iAllocate (alloc (c_etcd c)) i) as [ok a]. destruct Hal as (Hva & _ & -> & Hit). simpl in Hk.
  case_bool_decide as Hin; simpl.
  - destruct (client_unchanged c v b a rs Hok Hva Hk) as (? & ? & -> & ->); [set_solver|]. done.
  - destruct (tryUpdate _ _ _ _ _ _) as [[res e'] s'] eqn:Et.
    pose proof (client_request c v b a (OpAllocate i) f draw rs res e' s' Hok Hva Hk) as Hleft.
    destruct Hleft as (Hsafe & Hsz & Hleft); [by intros j [= ->]|done|done|]. destruct (working_sets c v b Hok) as [-> ->].
    destruct res as [o'|err].
    + destruct Hleft as (Y & (-> & Hn & HY) & HS & HM). split; [done|]. split; [done|]. cbn [fst snd]. rewrite HS, HM, HY. set_solver.
    + destruct Hleft as (Hun & Y & HY & HS).
      assert (items b ∩ working c v b ⊆ client_surely (mkClient e' s' rs) ∧ client_maybe (mkClient e' s' rs) ⊆ {[i]} ∪ (items b ∪ working c v b)) as [H1 H2].
      { destruct HY as [->|(o' & _ & _ & ->)], HS as [[-> ->]|[-> ->]]; set_solver. }
      destruct err; (split; [done|]); (split; [done|]); (split; [done|]); try done.
      cbn [fst snd]. rewrite (Hun eq_refl). set_solver.
Qed.

Lemma client_AllocateNext c v b draw :
  client_ok c v b →
  let '(res, c') := iAllocateNext draw c in
  client_safe c' ∧ size_of (alloc (c_etcd c')) = size_of (alloc (c_etcd c)) ∧ client_surely c ⊆ client_surely c' ∧
  match res with
  | Ok (Some i) => 0 ≤ i < size_of (alloc (c_etcd c)) ∧ i ∉ client_surely c ∧ i ∈ client_surely c' ∧ client_maybe c' ⊆ {[i]} ∪ client_maybe c
  | Ok None => client_maybe c' ⊆ client_maybe c
  | Err _ => ∃ i, client_maybe c' ⊆ {[i]} ∪ client_maybe c
  end.
Proof.
  intros Hok. simpl. destruct (next_request c) as [[draw' f] rs]. unfold Etcd_AllocateNext. pose proof Hok as (_ & _ & Ha & _).
  pose proof (law_AllocateNext draw _ Ha) as Hal. pose proof (kind_AllocateNext draw (alloc (c_etcd c))) as Hk.
  destruct (iAllocateNext draw (alloc (c_etcd c))) as [[[i|]|err] a]; destruct Hal as (Hva & _ & Hal); simpl in Hk; [| |done].
  - destruct Hal as (Hi & Hn & Hit). destruct (tryUpdate _ _ _ _ _ _) as [[res e'] s'] eqn:Et.
    pose proof (client_request c v b a (OpNext i) f draw' rs res e' s' Hok Hva Hk) as Hleft.
    destruct Hleft as (Hsafe & Hsz & Hleft); [by intros j [= <-]|by exists i|done|]. destruct (working_sets c v b Hok) as [-> ->].
    destruct res as [o'|err].
    + destruct Hleft as (Y & (j & -> & Hj & Hnj & HY) & HS & HM). split; [done|]. split; [done|]. cbn [fst snd]. rewrite HS, HM, HY. set_solver.
    + destruct Hleft as (_ & Y & HY & HS). split; [done|]. split; [done|]. cbn [fst snd].
      destruct HY as [->|(o' & j & _ & _ & _ & ->)], HS as [[-> ->]|[-> ->]]; (split; [set_solver|]); first [exists j; set_solver|exists i; set_solver].
  - destruct Hal as [-> _]. destruct (client_unchanged c v b (alloc (c_etcd c)) rs Hok Hva eq_refl eq_refl) as (? & ? & -> & ->). done.
Qed.

Lemma client_Release c v b i :
  client_ok c v b →
  let '(err, c') := iRelease c i in
  client_safe c' ∧ size_of (alloc (c_etcd c')) = size_of (alloc (c_etcd c)) ∧ client_surely c ∖ {[i]} ⊆ client_surely c' ∧
  client_maybe c' ⊆ if err then client_maybe c else client_maybe c ∖ {[i]}.
Proof.
  intros Hok. simpl. destruct (next_request c) as [[draw f] rs]. unfold Etcd_Release. pose proof Hok as (_ & _ & Ha & _).
  pose proof (law_Release _ i Ha) as Hal. pose proof (kind_Release (alloc (c_etcd c)) i) as Hk.
  destruct (iRelease (alloc (c_etcd c)) i) as [err a]. destruct Hal as (-> & Hva & _ & Hit). simpl in Hk.
  destruct (tryUpdate _ _ _ _ _ _) as [[res e'] s'] eqn:Et.
  pose proof (client_request c v b a (OpRelease i) f draw rs res e' s' Hok Hva Hk) as Hleft.
  destruct Hleft as (Hsafe & Hsz & Hleft); [done|done|done|]. destruct (working_sets c v b Hok) as [-> ->].
  destruct res as [o'|err].
  - destruct Hleft as (Y & (-> & HY) & HS & HM). split; [done|]. split; [done|]. cbn [fst snd]. rewrite HS, HM, HY. set_solver.
  - destruct Hleft as (_ & Y & HY & HS). split; [done|]. split; [done|]. cbn [fst snd].
    destruct HY as [->|(o' & _ & ->)], HS as [[-> ->]|[-> ->]]; set_solver.
Qed.

(** The stored allocator keeps its promise, whatever becomes of its requests. *)
#[global] Instance client_Safety : AllocatorSafety (client A) | 1.
Proof.
  refine {| safe := client_safe; surely := client_surely; maybe := client_maybe; bound c := size_of (alloc (c_etcd c)) |}.
  - intros c (v & b & Hok). destruct (working_sets c v b Hok) as [-> ->]. set_solver.
  - intros c i (v & b & Hok) Hi. destruct (client_sets c v b Hok) as [_ HM]. rewrite HM in Hi. pose proof Hok as (_ & Hb & Ha & Hk & _).
    assert (i ∈ items b ∨ i ∈ items (alloc (c_etcd c))) as [Hi'|Hi'] by (case_bool_decide; set_solver); [|by apply items_range].
    rewrite (kind_size _ _ Hk). by apply items_range.
  - intros c i (v & b & Hok) Hi. by apply (client_Allocate c v b).
  - intros draw c (v & b & Hok). by apply (client_AllocateNext c v b).
  - intros c i (v & b & Hok). by apply (client_Release c v b).
Defined.
End client.

(** ** Correctness *)

(** Servers that start, with the snapshot of [b] stored and [H] held. *)
Definition start {A} `{AllocatorInterface A, !Snapshottable A} (v : Z) (b fresh : A) (H : gset Z) : world A :=
  mkWorld (Some (v, iSnapshot b)) (λ _, mkServer (mkEtcd fresh None) Idle) H.

(** C4: several API servers that share one stored snapshot never hand out an item
    twice. Whatever the interleaving of their reads and writes, with requests that
    conflict, fail, or fail after they took effect, an item is granted only while
    nobody holds it, by whichever server; and all that is held is in the stored
    snapshot. *)
Theorem etcd_exclusive {A} `{HA : AllocatorInterface A, !AllocatorLaws A, !Snapshottable A, !SnapshottableLaws A}
    (v : Z) (b fresh : A) (H : gset Z) (tr : list event) (w : world A) :
  valid b → valid fresh → kind fresh = kind b → (∀ a : A, kind a = kind b → size_of a = (kind b).2) →
  H ⊆ items b → run (kind b).2 (start v b fresh H) tr w →
  exclusive H tr ∧ held w = after H tr ∧
  ∃ v' b', stored w = Some (v', iSnapshot b') ∧ valid b' ∧ held w ⊆ items b'.
Proof.
  intros Hb Hf Hk Hsize HH Hrun.
  assert (inv (kind b) (start v b fresh H) v b) as Hi.
  { split; simpl; try done; [..|].
    - intros n i [Hc|(Hc & _)]; done.
    - intros n m i [Hc|(Hc & _)]; done. }
  destruct (etcd_run_inv _ _ _ _ _ _ Hi Hrun Hsize) as ((v' & b' & Hi') & He & Hh).
  split; [done|]. split; [done|]. exists v', b'. split_and!; apply Hi'.
Qed.

Definition ex_map : AllocationBitmap := NewAllocationMap 8 "r".

(** One server allocates an item: its copy is changed, the new snapshot computed and
    written. *)
Definition ex_begun : world AllocationBitmap :=
  set_server (start 1 ex_map ex_map ∅) 0 (mkEtcd (Allocate ex_map 3).2 None) (Trying (OpAllocate 3)).

Definition ex_computed : world AllocationBitmap := (attempt 0 ex_begun 0 (OpAllocate 3)).2.

Definition ex_done : list event * world AllocationBitmap :=
  finish (set_stored ex_computed (Some (2, iSnapshot (Allocate ex_map 3).2))) 0
    (etcd (servers ex_computed 0)) (OpAllocate 3).

Lemma ex_run : run 8 (start 1 ex_map ex_map ∅) [Granted 3] ex_done.2.
Proof.
  apply (run_step 8 _ [] ex_computed [Granted 3]); [apply (run_step 8 _ [] ex_begun []);
    [apply (run_step 8 _ [] (start 1 ex_map ex_map ∅) []); [constructor|]|]|].
  - exact (step_allocate 8 (start 1 ex_map ex_map ∅) 0 3 (Ok true) (Allocate ex_map 3).2 eq_refl ltac:(lia) eq_refl).
  - exact (step_attempt 8 ex_begun 0 (OpAllocate 3) 0 eq_refl).
  - exact (step_write 8 ex_computed 0 (OpAllocate 3) 1 (iSnapshot (Allocate ex_map 3).2)
      (iSnapshot ex_map) 2 eq_refl eq_refl ltac:(lia)).
Qed.

Lemma etcd_exclusive_witness :
  exclusive ∅ [Granted 3] ∧ held ex_done.2 = after ∅ [Granted 3] ∧
  ∃ v' b', stored ex_done.2 = Some (v', iSnapshot b') ∧ valid b' ∧ held ex_done.2 ⊆ items b'.
Proof.
  apply (etcd_exclusive 1 ex_map ex_map ∅ [Granted 3] ex_done.2);
    [apply NewAllocationMap_inv|apply NewAllocationMap_inv|reflexivity| |apply empty_subseteq|exact ex_run].
  intros a E. by injection E.
Defined.
