(* ===== verification/PortAllocator.v ===== *)
(** * Node port allocation

    [pkg/registry/core/service/portallocator]: the allocator of a range of ports
    ([allocator.go]) over any [allocator.Interface], and the transaction of the
    service registry ([operation.go]). The calls of the allocator inside can fail, as those of
    the one in storage do. *)

From S2P Require Import Prelude GoStrings GoStrconv Bitmap AllocatorStorage.
#[local] Open Scope Z_scope.

(** [net.PortRange] of [apimachinery/pkg/util/net/port_range.go] *)
Record PortRange : Type := mkPortRange { Base : Z; RangeSize : Z }.

Definition PortRange_Contains (pr : PortRange) (p : Z) : bool :=
  (Base pr <=? p) && (p - Base pr <? RangeSize pr).

Definition PortRange_String (pr : PortRange) : string :=
  if RangeSize pr =? 0 then ""
  else Itoa (Base pr) +:+ "-" +:+ Itoa (Base pr + RangeSize pr - 1).

(** The errors, those of the allocator inside included. *)
Inductive PortError (E : Type) : Type :=
  | ErrFull
  | ErrAllocated
  | ErrNotInRange (validPorts : string)
  | ErrAllocator (err : E).
Arguments ErrFull {E}.
Arguments ErrAllocated {E}.
Arguments ErrNotInRange {E} _.
Arguments ErrAllocator {E} _.

#[global] Instance PortError_eq_dec {E} `{EqDecision E} : EqDecision (PortError E).
Proof. solve_decision. Defined.

Record PortAllocator (A : Type) : Type := mkPortAllocator {
  portRange : PortRange;
  alloc : A;
}.
Arguments mkPortAllocator {A} _ _.
Arguments portRange {A} _.
Arguments alloc {A} _.

(** [NewPortAllocator], backed by a bitmap. *)
Definition NewPortAllocator (pr : PortRange) : PortAllocator AllocationBitmap :=
  mkPortAllocator pr (NewAllocationMap (RangeSize pr) (PortRange_String pr)).

Section ports.
Context {A : Type} `{AllocatorInterface A}.

Definition contains (r : PortAllocator A) (port : Z) : option Z :=
  if negb (PortRange_Contains (portRange r) port) then None
  else Some (port - Base (portRange r)).

Definition with_alloc (r : PortAllocator A) (a : A) : PortAllocator A :=
  mkPortAllocator (portRange r) a.

Definition pa_Free (r : PortAllocator A) : Z := iFree (alloc r).
Definition pa_Used (r : PortAllocator A) : Z := RangeSize (portRange r) - iFree (alloc r).

Definition pa_Allocate (r : PortAllocator A) (port : Z) : option (PortError (iError A)) * PortAllocator A :=
  match contains r port with
  | None => (Some (ErrNotInRange (PortRange_String (portRange r))), r)
  | Some offset =>
      let '(res, a) := iAllocate (alloc r) offset in
      match res with
      | Err err => (Some (ErrAllocator err), with_alloc r a)
      | Ok allocated => if negb allocated then (Some ErrAllocated, with_alloc r a) else (None, with_alloc r a)
      end
  end.

Definition pa_AllocateNext (draw : Z) (r : PortAllocator A) :
    result (PortError (iError A)) Z * PortAllocator A :=
  let '(res, a) := iAllocateNext draw (alloc r) in
  match res with
  | Err err => (Err (ErrAllocator err), with_alloc r a)
  | Ok None => (Err ErrFull, with_alloc r a)
  | Ok (Some offset) => (Ok (Base (portRange r) + offset), with_alloc r a)
  end.

Definition pa_ForEach (r : PortAllocator A) : list Z :=
  map (λ offset, Base (portRange r) + offset) (iForEach (alloc r)).

Definition pa_Release (r : PortAllocator A) (port : Z) : option (iError A) * PortAllocator A :=
  match contains r port with
  | None => (None, r)
  | Some offset => let '(err, a) := iRelease (alloc r) offset in (err, with_alloc r a)
  end.

Definition pa_Has (r : PortAllocator A) (port : Z) : bool :=
  match contains r port with
  | None => false
  | Some offset => iHas (alloc r) offset
  end.

(** ** Transactions *)

Record PortAllocationOperation : Type := mkOperation {
  op_allocated : list Z;
  releaseDeferred : list Z;
  shouldRollback : bool;
  dryRun : bool;
}.

Definition StartOperation (dryRun : bool) : PortAllocationOperation :=
  mkOperation [] [] true dryRun.

Definition push_allocated (op : PortAllocationOperation) (port : Z) : PortAllocationOperation :=
  mkOperation (op_allocated op ++ [port]) (releaseDeferred op) (shouldRollback op) (dryRun op).

(** The loop over the ports to release: the errors, and the allocator afterwards. *)
Fixpoint release_each (l : list Z) (pa : PortAllocator A) : list (iError A) * PortAllocator A :=
  match l with
  | [] => ([], pa)
  | port :: l =>
      let '(err, pa) := pa_Release pa port in
      let '(errors, pa) := release_each l pa in
      (match err with Some e => e :: errors | None => errors end, pa)
  end.

Definition Rollback (op : PortAllocationOperation) (pa : PortAllocator A) : list (iError A) * PortAllocator A :=
  if dryRun op then ([], pa) else release_each (op_allocated op) pa.

Definition Commit (op : PortAllocationOperation) (pa : PortAllocator A) :
    list (iError A) * (PortAllocationOperation * PortAllocator A) :=
  if dryRun op then ([], (op, pa))
  else
    let '(errors, pa) := release_each (releaseDeferred op) pa in
    (errors, (mkOperation (op_allocated op) (releaseDeferred op) false (dryRun op), pa)).

Definition Finish (op : PortAllocationOperation) (pa : PortAllocator A) : PortAllocator A :=
  if shouldRollback op then (Rollback op pa).2 else pa.

Definition op_Allocate (op : PortAllocationOperation) (pa : PortAllocator A) (port : Z) :
    option (PortError (iError A)) * (PortAllocationOperation * PortAllocator A) :=
  if dryRun op then
    if pa_Has pa port then (Some ErrAllocated, (op, pa))
    else if existsb (λ a, port =? a) (op_allocated op) then (Some ErrAllocated, (op, pa))
    else (None, (push_allocated op port, pa))
  else
    let '(err, pa) := pa_Allocate pa port in
    match err with
    | None => (None, (push_allocated op port, pa))
    | Some e => (Some e, (op, pa))
    end.

(** The largest allocated port, or 32768. *)
Definition lastPort (op : PortAllocationOperation) : Z :=
  if Z.of_nat (length (op_allocated op)) =? 0 then 32768
  else fold_left (λ last p, if last <? p then p else last) (op_allocated op) 0.

(** The loop [for port := lastPort + 1; port < 100; port++] of the dry run. *)
Fixpoint dry_scan (op : PortAllocationOperation) (pa : PortAllocator A) (port : Z)
    (turns : nat) : option (Z * PortAllocationOperation) :=
  match turns with
  | O => None
  | S turns =>
      if port <? 100 then
        match op_Allocate op pa port with
        | (None, (op, _)) => Some (port, op)
        | (Some _, _) => dry_scan op pa (port + 1) turns
        end
      else None
  end.

(** [AllocateNext]: the loop has at most [100 - (lastPort + 1)] turns. *)
Definition op_AllocateNext (draw : Z) (op : PortAllocationOperation) (pa : PortAllocator A) :
    result (PortError (iError A)) Z * (PortAllocationOperation * PortAllocator A) :=
  if dryRun op then
    match dry_scan op pa (lastPort op + 1) (Z.to_nat (100 - (lastPort op + 1))) with
    | Some (port, op) => (Ok port, (op, pa))
    | None => (Ok (lastPort op + 1), (push_allocated op (lastPort op + 1), pa))
    end
  else
    let '(next, pa) := pa_AllocateNext draw pa in
    match next with
    | Ok port => (Ok port, (push_allocated op port, pa))
    | Err e => (Err e, (op, pa))
    end.

Definition ReleaseDeferred (op : PortAllocationOperation) (port : Z) : PortAllocationOperation :=
  mkOperation (op_allocated op) (releaseDeferred op ++ [port]) (shouldRollback op) (dryRun op).

(** A transaction is a sequence of these calls. *)
Inductive call : Type :=
  | CallAllocate (port : Z)
  | CallAllocateNext (draw : Z)
  | CallReleaseDeferred (port : Z).

Definition do_call (s : PortAllocationOperation * PortAllocator A) (c : call) :
    option (PortError (iError A)) * (PortAllocationOperation * PortAllocator A) :=
  match c with
  | CallAllocate port => op_Allocate s.1 s.2 port
  | CallAllocateNext draw =>
      let '(res, s) := op_AllocateNext draw s.1 s.2 in (match res with Ok _ => None | Err e => Some e end, s)
  | CallReleaseDeferred port => (None, (ReleaseDeferred s.1 port, s.2))
  end.

Fixpoint do_calls (calls : list call) (s : PortAllocationOperation * PortAllocator A) :
    list (option (PortError (iError A))) * (PortAllocationOperation * PortAllocator A) :=
  match calls with
  | [] => ([], s)
  | c :: calls =>
      let '(err, s) := do_call s c in
      let '(errs, s) := do_calls calls s in (err :: errs, s)
  end.

(** The answers of the calls, the operation and the allocator. *)
Definition transaction (dryRun : bool) (pa : PortAllocator A) (calls : list call) :
    list (option (PortError (iError A))) * (PortAllocationOperation * PortAllocator A) :=
  do_calls calls (StartOperation dryRun, pa).

(** The ports whose release failed. *)
Fixpoint failed_releases (l : list Z) (pa : PortAllocator A) : list Z :=
  match l with
  | [] => []
  | port :: l =>
      let '(err, pa) := pa_Release pa port in
      match err with Some _ => port :: failed_releases l pa | None => failed_releases l pa end
  end.

(** A call that the allocator inside failed. *)
Definition allocator_failed (err : option (PortError (iError A))) : bool :=
  match err with Some (ErrAllocator _) => true | _ => false end.
End ports.

(** ** Lemmas *)

Section proofs.
Context {A : Type} `{AllocatorInterface A, !AllocatorLaws A}.

(** The allocated ports. *)
Definition ports (r : PortAllocator A) : gset Z :=
  set_map (λ offset, Base (portRange r) + offset) (items (alloc r)).

Definition pa_valid (r : PortAllocator A) : Prop :=
  valid (alloc r) ∧ size_of (alloc r) = RangeSize (portRange r).

Lemma elem_of_ports r p : p ∈ ports r ↔ p - Base (portRange r) ∈ items (alloc r).
Proof.
  unfold ports. rewrite elem_of_map. split.
  - intros (o & -> & Ho). by replace (Base (portRange r) + o - Base (portRange r)) with o by lia.
  - intros Ho. exists (p - Base (portRange r)). split; [lia|done].
Qed.

Lemma port_contains_spec (r : PortAllocator A) p :
  contains r p =
    if bool_decide (Base (portRange r) ≤ p < Base (portRange r) + RangeSize (portRange r))
    then Some (p - Base (portRange r)) else None.
Proof.
  unfold contains, PortRange_Contains.
  destruct (Z.leb_spec (Base (portRange r)) p), (Z.ltb_spec (p - Base (portRange r))
    (RangeSize (portRange r))); simpl; case_bool_decide; done || lia.
Qed.

Lemma ports_in_range r p :
  pa_valid r → p ∈ ports r →
  Base (portRange r) ≤ p < Base (portRange r) + RangeSize (portRange r).
Proof.
  intros [Hv Hs] Hp. apply elem_of_ports in Hp. pose proof (items_range _ _ Hv Hp). lia.
Qed.

Lemma pa_Allocate_spec r p :
  pa_valid r →
  let '(err, r') := pa_Allocate r p in
  pa_valid r' ∧ portRange r' = portRange r ∧
  (err = None ↔ Base (portRange r) ≤ p < Base (portRange r) + RangeSize (portRange r) ∧
     p ∉ ports r) ∧
  ports r' = if err then ports r else {[p]} ∪ ports r.
Proof.
  intros Hv. pose proof Hv as [Hv1 Hs]. unfold pa_Allocate. rewrite port_contains_spec.
  case_bool_decide as Hr; [|split_and!; try done; naive_solver].
  pose proof (law_Allocate (alloc r) (p - Base (portRange r)) Hv1) as Ha.
  destruct (iAllocate _ _) as [ok a]. destruct Ha as (Ha1 & Ha2 & -> & Ha3); [lia|]. cbv beta iota.
  assert (∀ q, q ∈ ports (with_alloc r a) ↔ q = p ∨ q ∈ ports r) as Hp.
  { intros q. rewrite !elem_of_ports. simpl. rewrite Ha3, elem_of_union, elem_of_singleton.
    assert (q - Base (portRange r) = p - Base (portRange r) ↔ q = p) as -> by lia. done. }
  destruct (bool_decide_reflect (p - Base (portRange r) ∈ items (alloc r))) as [Hin|Hin];
    rewrite <- elem_of_ports in Hin; cbn [negb].
  - split_and!; [split; simpl; congruence|done|naive_solver|].
    apply set_eq. intros q. rewrite Hp. naive_solver.
  - split_and!; [split; simpl; congruence|done|naive_solver|].
    apply set_eq. intros q. rewrite Hp. set_solver.
Qed.

Lemma pa_AllocateNext_spec draw r :
  pa_valid r →
  let '(res, r') := pa_AllocateNext draw r in
  pa_valid r' ∧ portRange r' = portRange r ∧
  match res with
  | Ok p => Base (portRange r) ≤ p < Base (portRange r) + RangeSize (portRange r) ∧
      p ∉ ports r ∧ ports r' = {[p]} ∪ ports r
  | Err e => e = ErrFull ∧ ports r' = ports r ∧
      ∀ p, Base (portRange r) ≤ p < Base (portRange r) + RangeSize (portRange r) → p ∈ ports r
  end.
Proof.
  intros [Hv Hs]. unfold pa_AllocateNext.
  pose proof (law_AllocateNext draw (alloc r) Hv) as Ha.
  destruct (iAllocateNext draw (alloc r)) as [[[o|]|err] a]; destruct Ha as (Ha1 & Ha2 & Ha3); [..|done].
  - destruct Ha3 as (Ho & Hn & Hi).
    assert (Base (portRange r) + o - Base (portRange r) = o) as Eo by lia.
    split_and!; [split; simpl; congruence|done|lia..| |].
    + by rewrite elem_of_ports, Eo.
    + apply set_eq. intros q.
      rewrite elem_of_union, elem_of_singleton, !elem_of_ports. simpl.
      rewrite Hi, elem_of_union, elem_of_singleton.
      assert (q - Base (portRange r) = o ↔ q = Base (portRange r) + o) as -> by lia. done.
  - destruct Ha3 as [-> Hall]. split_and!; [split; simpl; congruence|done|done|done|].
    intros p Hp. apply elem_of_ports, Hall. lia.
Qed.

Lemma pa_Release_spec r p :
  pa_valid r →
  let '(err, r') := pa_Release r p in
  err = None ∧ pa_valid r' ∧ portRange r' = portRange r ∧ ports r' = ports r ∖ {[p]}.
Proof.
  intros Hv. pose proof Hv as [Hv1 Hs]. unfold pa_Release. rewrite port_contains_spec.
  case_bool_decide as Hr.
  - pose proof (law_Release (alloc r) (p - Base (portRange r)) Hv1) as Ha. destruct (iRelease _ _) as [err a].
    destruct Ha as (-> & H1 & H2 & H3). split; [done|].
    split_and!; [split; simpl; congruence|done|]. apply set_eq. intros q.
    rewrite elem_of_difference, elem_of_singleton, !elem_of_ports. simpl.
    rewrite H3, elem_of_difference, elem_of_singleton.
    assert (q - Base (portRange r) = p - Base (portRange r) ↔ q = p) as -> by lia. done.
  - split_and!; [done..|]. apply set_eq. intros q. rewrite elem_of_difference, elem_of_singleton.
    split; [|tauto]. intros Hq. split; [done|]. intros ->. by apply ports_in_range in Hq.
Qed.
End proofs.

(** ** Transactions over an allocator that can fail *)

Section transactions.
Context {A : Type} `{AllocatorInterface A, !AllocatorSafety A}.

(** The ports that are allocated for certain, and those that may be. *)
Definition as_ports (r : PortAllocator A) (X : gset Z) : gset Z := set_map (λ offset, Base (portRange r) + offset) X.
Definition surely_ports (r : PortAllocator A) : gset Z := as_ports r (surely (alloc r)).
Definition maybe_ports (r : PortAllocator A) : gset Z := as_ports r (maybe (alloc r)).

Definition pa_safe (r : PortAllocator A) : Prop := safe (alloc r) ∧ bound (alloc r) = RangeSize (portRange r).

Lemma elem_of_as_ports r X p : p ∈ as_ports r X ↔ p - Base (portRange r) ∈ X.
Proof.
  unfold as_ports. rewrite elem_of_map. split.
  - intros (o & -> & Ho). by replace (Base (portRange r) + o - Base (portRange r)) with o by lia.
  - intros Ho. exists (p - Base (portRange r)). split; [lia|done].
Qed.

(** Inclusions of offsets as inclusions of ports. *)
Lemma as_ports_mono r a X Y : X ⊆ Y → as_ports (with_alloc r a) X ⊆ as_ports r Y.
Proof. intros HXY p. rewrite !elem_of_as_ports. apply HXY. Qed.

Lemma as_ports_add r a X Y i : X ⊆ {[i]} ∪ Y → as_ports (with_alloc r a) X ⊆ {[Base (portRange r) + i]} ∪ as_ports r Y.
Proof.
  intros HXY p. rewrite elem_of_union, elem_of_singleton, !elem_of_as_ports. simpl. intros [Hp|Hp]%HXY%elem_of_union; [left|by right].
  apply elem_of_singleton in Hp. lia.
Qed.

Lemma surely_maybe_ports r : pa_safe r → surely_ports r ⊆ maybe_ports r.
Proof. intros [Hs _] p. unfold surely_ports, maybe_ports. rewrite !elem_of_as_ports. by apply surely_maybe. Qed.

Lemma pa_Allocate_safe r p :
  pa_safe r →
  let '(err, r') := pa_Allocate r p in
  pa_safe r' ∧ surely_ports r ⊆ surely_ports r' ∧
  match err with
  | None => p ∉ surely_ports r ∧ p ∈ surely_ports r' ∧ maybe_ports r' ⊆ {[p]} ∪ maybe_ports r
  | Some (ErrAllocator _) => maybe_ports r' ⊆ {[p]} ∪ maybe_ports r
  | Some _ => maybe_ports r' ⊆ maybe_ports r
  end.
Proof.
  intros [Hs Hb]. unfold pa_Allocate. rewrite port_contains_spec. case_bool_decide as Hr; [|done].
  pose proof (safe_Allocate (alloc r) (p - Base (portRange r)) Hs ltac:(lia)) as Ha. destruct (iAllocate _ _) as [res a].
  destruct Ha as (Hs' & Hb' & Hsub & Ha). assert (pa_safe (with_alloc r a)) as Hpa by (split; simpl; congruence).
  assert (surely_ports r ⊆ surely_ports (with_alloc r a)) as Hsub'.
  { intros q. unfold surely_ports. rewrite !elem_of_as_ports. apply Hsub. }
  assert (Base (portRange r) + (p - Base (portRange r)) = p) as Ep by lia.
  assert (maybe a ⊆ {[p - Base (portRange r)]} ∪ maybe (alloc r) → maybe_ports (with_alloc r a) ⊆ {[p]} ∪ maybe_ports r) as Hadd.
  { intros Hm. rewrite <- Ep at 1. by apply as_ports_add. }
  destruct res as [[]|err]; simpl; (split; [done|]); (split; [done|]); [|by apply as_ports_mono|by apply Hadd].
  destruct Ha as (Hn & Hy & Hm). unfold surely_ports. rewrite !elem_of_as_ports. split; [done|]. split; [done|by apply Hadd].
Qed.

Lemma pa_AllocateNext_safe draw r :
  pa_safe r →
  let '(res, r') := pa_AllocateNext draw r in
  pa_safe r' ∧ surely_ports r ⊆ surely_ports r' ∧
  match res with
  | Ok p => p ∉ surely_ports r ∧ p ∈ surely_ports r' ∧ maybe_ports r' ⊆ {[p]} ∪ maybe_ports r
  | Err (ErrAllocator _) => True
  | Err _ => maybe_ports r' ⊆ maybe_ports r
  end.
Proof.
  intros [Hs Hb]. unfold pa_AllocateNext. pose proof (safe_AllocateNext draw (alloc r) Hs) as Ha.
  destruct (iAllocateNext draw (alloc r)) as [res a]. destruct Ha as (Hs' & Hb' & Hsub & Ha).
  assert (pa_safe (with_alloc r a)) as Hpa by (split; simpl; congruence).
  assert (surely_ports r ⊆ surely_ports (with_alloc r a)) as Hsub'.
  { intros q. unfold surely_ports. rewrite !elem_of_as_ports. apply Hsub. }
  destruct res as [[i|]|err]; (split; [done|]); (split; [done|]); [|by apply as_ports_mono|done].
  destruct Ha as (_ & Hn & Hy & Hm). assert (Base (portRange r) + i - Base (portRange r) = i) as Ei by lia.
  unfold surely_ports. rewrite !elem_of_as_ports. cbn [with_alloc portRange alloc]. rewrite Ei. split; [done|]. split; [done|].
  by apply as_ports_add.
Qed.

Lemma pa_Release_safe r p :
  pa_safe r →
  let '(err, r') := pa_Release r p in
  pa_safe r' ∧ surely_ports r ∖ {[p]} ⊆ surely_ports r' ∧ maybe_ports r' ⊆ if err then maybe_ports r else maybe_ports r ∖ {[p]}.
Proof.
  intros [Hs Hb]. unfold pa_Release. rewrite port_contains_spec. case_bool_decide as Hr.
  - pose proof (safe_Release (alloc r) (p - Base (portRange r)) Hs) as Ha. destruct (iRelease _ _) as [err a].
    destruct Ha as (Hs' & Hb' & Hsub & Hm). split; [split; simpl; congruence|]. split.
    + intros q. unfold surely_ports. rewrite elem_of_difference, elem_of_singleton, !elem_of_as_ports. intros [Hq Hne]. apply Hsub.
      apply elem_of_difference. split; [done|]. rewrite elem_of_singleton. simpl. lia.
    + destruct err; [by apply as_ports_mono|]. intros q. unfold maybe_ports. rewrite elem_of_difference, elem_of_singleton, !elem_of_as_ports. simpl.
      intros [Hq Hne]%Hm%elem_of_difference. split; [done|]. intros ->. by apply Hne, elem_of_singleton.
  - split; [done|]. split; [set_solver|]. intros q Hq. apply elem_of_difference. split; [done|]. rewrite elem_of_singleton. intros ->.
    unfold maybe_ports in Hq. apply elem_of_as_ports in Hq. apply (maybe_range _ _ Hs) in Hq. lia.
Qed.

Lemma release_each_safe l r :
  pa_safe r →
  let '(errs, r') := release_each l r in
  pa_safe r' ∧ surely_ports r ∖ list_to_set l ⊆ surely_ports r' ∧
  maybe_ports r' ⊆ maybe_ports r ∖ (list_to_set l ∖ list_to_set (failed_releases l r)) ∧ length errs = length (failed_releases l r).
Proof.
  revert r. induction l as [|p l IH]; intros r Hr; simpl; [split; [done|]; set_solver|].
  pose proof (pa_Release_safe r p Hr) as Ha. destruct (pa_Release r p) as [err r1]. destruct Ha as (Hr1 & Hs1 & Hm1).
  specialize (IH r1 Hr1). destruct (release_each l r1) as [errs r2]. destruct IH as (Hr2 & Hs2 & Hm2 & Hlen).
  split; [done|]. split; [set_solver|]. destruct err; simpl; (split; [|lia]).
  - intros q Hq. apply Hm2 in Hq. set_solver.
  - intros q Hq. apply Hm2 in Hq. set_solver.
Qed.

(** What a transaction that started with [P] and [Q] keeps; [clean] says that the allocator
    has not failed so far. *)
Record op_inv (P Q : gset Z) (clean : bool) (s : PortAllocationOperation * PortAllocator A) : Prop := {
  oi_safe : pa_safe s.2;
  oi_live : dryRun s.1 = false;
  oi_surely : P ∪ list_to_set (op_allocated s.1) ⊆ surely_ports s.2;
  oi_maybe : clean = true → maybe_ports s.2 ⊆ Q ∪ list_to_set (op_allocated s.1);
  oi_fresh p : p ∈ op_allocated s.1 → p ∉ P;
  oi_nodup : NoDup (op_allocated s.1);
}.

Lemma push_inv P Q clean op pa pa' p :
  op_inv P Q clean (op, pa) → pa_safe pa' → surely_ports pa ⊆ surely_ports pa' →
  p ∉ surely_ports pa → p ∈ surely_ports pa' → maybe_ports pa' ⊆ {[p]} ∪ maybe_ports pa →
  op_inv P Q clean (push_allocated op p, pa').
Proof.
  intros [Hv Hl Hs Hm Hf Hn] Hv' Hsub Hfresh Hp Hm'. simpl in *. split; simpl.
  - done.
  - done.
  - rewrite list_to_set_app_L. set_solver.
  - intros Hc. specialize (Hm Hc). rewrite list_to_set_app_L. set_solver.
  - intros q [Hq|Hq]%elem_of_app; [auto|set_solver].
  - apply NoDup_app. split_and!; [done|set_solver|apply NoDup_singleton].
Qed.

Lemma do_call_inv P Q clean s c :
  op_inv P Q clean s → op_inv P Q (clean && negb (allocator_failed (do_call s c).1)) (do_call s c).2.
Proof.
  destruct s as [op pa]. intros Hi. pose proof Hi as [Hv Hl Hs Hm Hf Hn]. simpl in *.
  destruct c as [p|draw|p]; cbn [do_call fst snd].
  - unfold op_Allocate. rewrite Hl. pose proof (pa_Allocate_safe pa p Hv) as Ha.
    destruct (pa_Allocate pa p) as [[e|] pa']; destruct Ha as (H1 & H2 & H3); simpl.
    + split; simpl; try done; [set_solver|]. intros [Hc He]%andb_true_iff. specialize (Hm Hc). destruct e; try done; set_solver.
    + rewrite andb_true_r. destruct H3 as (? & ? & ?). by apply (push_inv P Q clean op pa).
  - unfold op_AllocateNext. rewrite Hl. pose proof (pa_AllocateNext_safe draw pa Hv) as Ha.
    destruct (pa_AllocateNext draw pa) as [[p|e] pa']; destruct Ha as (H1 & H2 & H3); simpl.
    + rewrite andb_true_r. destruct H3 as (? & ? & ?). by apply (push_inv P Q clean op pa).
    + split; simpl; try done; [set_solver|]. intros [Hc He]%andb_true_iff. specialize (Hm Hc). destruct e; try done; set_solver.
  - rewrite andb_true_r. by split.
Qed.

Lemma do_calls_inv P Q clean calls s :
  op_inv P Q clean s → op_inv P Q (clean && negb (existsb allocator_failed (do_calls calls s).1)) (do_calls calls s).2.
Proof.
  revert clean s. induction calls as [|c calls IH]; intros clean s Hs; simpl; [by rewrite andb_true_r|].
  apply (do_call_inv _ _ _ _ c) in Hs. destruct (do_call s c) as [err s1]. specialize (IH _ _ Hs). simpl in IH.
  destruct (do_calls calls s1) as [errs s2]. simpl in *. by rewrite negb_orb, andb_assoc.
Qed.

Lemma transaction_inv pa calls :
  pa_safe pa →
  op_inv (surely_ports pa) (maybe_ports pa) (negb (existsb allocator_failed (transaction false pa calls).1)) (transaction false pa calls).2.
Proof.
  intros Hv. apply (do_calls_inv _ _ true). split; simpl; [done|done|set_solver|set_solver|by intros p ?%not_elem_of_nil|apply NoDup_nil_2].
Qed.

Lemma op_Allocate_op op (pa : PortAllocator A) q :
  let '(err, (op', _)) := op_Allocate op pa q in
  op' = match err with Some _ => op | None => push_allocated op q end.
Proof. unfold op_Allocate. repeat case_match; simplify_eq; done. Qed.

Lemma dry_scan_op op (pa : PortAllocator A) q turns p op' :
  dry_scan op pa q turns = Some (p, op') → op' = push_allocated op p.
Proof.
  revert q. induction turns as [|turns IH]; intros q; cbn [dry_scan]; [done|].
  destruct (q <? 100); [|done]. pose proof (op_Allocate_op op pa q) as Hop.
  destruct (op_Allocate op pa q) as [[e|] [op1 pa1]]; [apply IH|]. intros [= <- <-]. done.
Qed.

(** Every call keeps the flags of the operation. *)
Lemma do_call_flags (s : PortAllocationOperation * PortAllocator A) c :
  shouldRollback (do_call s c).2.1 = shouldRollback s.1 ∧ dryRun (do_call s c).2.1 = dryRun s.1.
Proof.
  destruct s as [op pa], c as [p|draw|p]; cbn [do_call fst snd]; [..|done].
  - pose proof (op_Allocate_op op pa p) as Hop.
    destruct (op_Allocate op pa p) as [[e|] [op1 pa1]]; simpl; by subst op1.
  - unfold op_AllocateNext. destruct (dryRun op) eqn:Hd.
    + destruct (dry_scan op pa _ _) as [[q op1]|] eqn:E; [apply dry_scan_op in E as ->|]; done.
    + by destruct (pa_AllocateNext draw pa) as [[q|e] pa1].
Qed.

Lemma do_call_dry s c :
  dryRun s.1 = true → (do_call s c).2.2 = (s.2 : PortAllocator A).
Proof.
  destruct s as [op pa]. simpl. intros Hd. destruct c as [p|draw|p]; cbn [do_call fst snd]; [..|done];
    unfold op_Allocate, op_AllocateNext; rewrite Hd.
  - repeat case_match; done.
  - by destruct (dry_scan op pa _ _) as [[p op']|].
Qed.

Lemma do_calls_frame calls (s : PortAllocationOperation * PortAllocator A) :
  shouldRollback (do_calls calls s).2.1 = shouldRollback s.1 ∧ dryRun (do_calls calls s).2.1 = dryRun s.1 ∧
  (dryRun s.1 = true → (do_calls calls s).2.2 = s.2).
Proof.
  revert s. induction calls as [|c calls IH]; intros s; simpl; [done|]. destruct (do_call_flags s c) as [Hr Hd]. pose proof (do_call_dry s c) as Hp.
  destruct (do_call s c) as [err s1]. simpl in *. specialize (IH s1). destruct (do_calls calls s1) as [errs s2]. simpl in *.
  destruct IH as (-> & -> & IH). split; [done|]. split; [done|]. intros E. rewrite IH by (by rewrite Hd). by apply Hp.
Qed.
End transactions.

(** ** Correctness *)

(** C29: the transaction of the service registry errs on the side of keeping ports, over any
    allocator that keeps its promise, one in storage whose requests fail included. Whatever
    calls the transaction makes and whichever of them fail, it hands out each port once and
    none that was allocated for certain. A rollback (and [Finish] without a commit) never
    frees a port that was allocated before; when the allocator failed no call of the
    transaction, what may be allocated afterwards was so before or is a port whose release
    failed, one for each error that the rollback returns; so that without any failure the
    ports are exactly those from before. A commit keeps what was allocated before and what
    the transaction allocated, less the ports whose release was deferred; the ports of the
    releases that did not fail are free; and [Finish] then does nothing, whatever errors the
    commit had. A dry run never changes the allocator. *)
Theorem transaction_correct {A} `{AllocatorInterface A, !AllocatorSafety A}
    (pa : PortAllocator A) (calls : list call) :
  pa_safe pa →
  (let '(errs, (op, pa')) := transaction false pa calls in
   let clean := negb (existsb allocator_failed errs) in
   NoDup (op_allocated op) ∧ (∀ p, p ∈ op_allocated op → p ∉ surely_ports pa) ∧
   (let '(errors, pa'') := Rollback op pa' in
    Finish op pa' = pa'' ∧ surely_ports pa ⊆ surely_ports pa'' ∧
    length errors = length (failed_releases (op_allocated op) pa') ∧
    (clean = true → maybe_ports pa'' ⊆ maybe_ports pa ∪ list_to_set (failed_releases (op_allocated op) pa')) ∧
    (clean = true → errors = [] → surely_ports pa = maybe_ports pa →
     surely_ports pa'' = surely_ports pa ∧ maybe_ports pa'' = surely_ports pa)) ∧
   (let '(errors, (op', pa'')) := Commit op pa' in
    Finish op' pa'' = pa'' ∧
    (surely_ports pa ∪ list_to_set (op_allocated op)) ∖ list_to_set (releaseDeferred op) ⊆ surely_ports pa'' ∧
    length errors = length (failed_releases (releaseDeferred op) pa') ∧
    (clean = true → maybe_ports pa'' ⊆
       (maybe_ports pa ∪ list_to_set (op_allocated op)) ∖
       (list_to_set (releaseDeferred op) ∖ list_to_set (failed_releases (releaseDeferred op) pa'))))) ∧
  (transaction true pa calls).2.2 = pa ∧
  Finish (transaction true pa calls).2.1 pa = pa.
Proof.
  intros Hv. split; [|split].
  - pose proof (transaction_inv pa calls Hv) as Hi. destruct (do_calls_frame calls (StartOperation false, pa)) as (Hr & _ & _).
    fold (transaction false pa calls) in Hr. destruct (transaction false pa calls) as [errs [op pa']]. destruct Hi as [Hv' Hl Hs Hm Hf Hn].
    cbn [fst snd] in *. split; [done|]. split; [done|]. unfold Finish, Rollback, Commit. rewrite Hr, Hl. split.
    + pose proof (release_each_safe (op_allocated op) pa' Hv') as Hrel. destruct (release_each _ _) as [errors pa''] eqn:Erel.
      destruct Hrel as (Hv'' & Hs' & Hm' & Hlen). split; [done|]. cbn [shouldRollback StartOperation].
      assert (surely_ports pa ⊆ surely_ports pa'') as HS.
      { intros p Hp. apply Hs', elem_of_difference. split; [apply Hs, elem_of_union; by left|]. rewrite elem_of_list_to_set. intros Hin. by apply (Hf p). }
      assert (negb (existsb allocator_failed errs) = true → maybe_ports pa'' ⊆ maybe_ports pa ∪ list_to_set (failed_releases (op_allocated op) pa')) as HM.
      { intros Hc p Hp. apply Hm', elem_of_difference in Hp as [Hp Hnp]. apply (Hm Hc), elem_of_union in Hp as [Hp|Hp]; apply elem_of_union; [by left|right].
        apply dec_stable. intros Hnf. apply Hnp. by apply elem_of_difference. }
      split; [done|]. split; [done|]. split; [done|]. intros Hc -> E. destruct (failed_releases _ _); [|done]. specialize (HM Hc).
      pose proof (surely_maybe_ports _ Hv'') as Hsm.
      rewrite list_to_set_nil, union_empty_r_L, <- E in HM. split; (apply set_eq; intros p; split; [|intros Hp]); auto.
    + pose proof (release_each_safe (releaseDeferred op) pa' Hv') as Hrel. destruct (release_each _ _) as [errors pa''].
      destruct Hrel as (Hv'' & Hs' & Hm' & Hlen). split; [done|]. split; [|split; [done|]].
      { intros p [Hp Hnp]%elem_of_difference. apply Hs', elem_of_difference. split; [by apply Hs|done]. }
      intros Hc p Hp.
      apply Hm', elem_of_difference in Hp as [Hp Hnp]. apply (Hm Hc) in Hp. by apply elem_of_difference.
  - by apply (do_calls_frame calls (StartOperation true, pa)).
  - unfold Finish, Rollback. destruct (do_calls_frame calls (StartOperation true, pa)) as (Hr & Hd & _).
    fold (transaction true pa calls) in Hr, Hd. by rewrite Hr, Hd.
Qed.

(** The search of a dry run for the next free port never runs: the ports it
    starts from are above its bound of 100, so that once nothing or a port above
    98 was allocated it answers the successor of the last port whatever is
    allocated, even when that port is taken. *)
Theorem dry_AllocateNext_ignores_allocations {A} `{AllocatorInterface A}
    (op : PortAllocationOperation) (pa : PortAllocator A) (draw : Z) :
  dryRun op = true → (∀ p, p ∈ op_allocated op → 99 ≤ p) →
  ∃ last, 99 ≤ last ∧
    op_AllocateNext draw op pa = (Ok (last + 1), (push_allocated op (last + 1), pa)) ∧
    (op_allocated op = [] → last = 32768).
Proof.
  intros Hd Hp. exists (lastPort op).
  assert (99 ≤ lastPort op) as Hlast.
  { unfold lastPort. destruct (Z.eqb_spec (Z.of_nat (length (op_allocated op))) 0); [lia|].
    destruct (op_allocated op) as [|p l] eqn:E; [done|]. cbn [fold_left].
    assert (99 ≤ p) by (apply Hp; left).
    rewrite (proj2 (Z.ltb_lt 0 p)) by lia. clear -Hp H0.
    revert p H0 Hp. induction l as [|q l IH]; intros p Hpp Hp; simpl; [done|].
    apply IH.
    - destruct (p <? q); [apply Hp; right; left|done].
    - intros x Hx. destruct (p <? q); [apply Hp; by right|].
      apply elem_of_cons in Hx as [-> |Hx]; [done|]. apply Hp. by do 2 right. }
  split_and!; [done| |].
  - unfold op_AllocateNext. rewrite Hd.
    replace (Z.to_nat (100 - (lastPort op + 1))) with 0%nat by lia. done.
  - intros He. unfold lastPort. by rewrite He.
Qed.

(** ** Witnesses *)

(** The allocator of a server with an empty snapshot stored: the first and the third request
    are answered, the second is written but its answer is lost, and the fourth, a release of
    the rollback, is refused. *)
Definition ex_ports : PortAllocator (client AllocationBitmap) :=
  let empty := NewAllocationMap 2768 "30000-32767" in
  mkPortAllocator (mkPortRange 30000 2768)
    (mkClient (mkEtcd empty None) (Some (1, Snapshot empty)) [(0, Answered); (0, Lost); (0, Answered); (0, Refused)]).

Lemma ex_ports_safe : pa_safe ex_ports.
Proof.
  split; [|reflexivity]. exists 1, (NewAllocationMap 2768 "30000-32767").
  split; [reflexivity|]. split; [apply NewAllocationMap_inv|]. split; [apply NewAllocationMap_inv|]. done.
Qed.

Definition ex_calls : list call := [CallAllocate 30007; CallAllocate 30008; CallAllocateNext 7].

Lemma transaction_correct_witness :
  let '(errs, (op, pa)) := transaction false ex_ports ex_calls in
  errs = [None; Some (ErrAllocator ErrStorage); None] ∧ op_allocated op = [30007; 30009] ∧
  (Rollback op pa).1 = [ErrStorage] ∧ failed_releases (op_allocated op) pa = [30007] ∧
  surely_ports ex_ports ⊆ surely_ports (Finish op pa).
Proof.
  destruct (transaction_correct ex_ports ex_calls ex_ports_safe) as [H _].
  assert ((transaction false ex_ports ex_calls).1 = [None; Some (ErrAllocator ErrStorage); None]) as H1 by (vm_compute; reflexivity).
  assert (op_allocated (transaction false ex_ports ex_calls).2.1 = [30007; 30009]) as H2 by (vm_compute; reflexivity).
  assert ((Rollback (transaction false ex_ports ex_calls).2.1 (transaction false ex_ports ex_calls).2.2).1 = [ErrStorage]) as H3 by (vm_compute; reflexivity).
  assert (failed_releases (op_allocated (transaction false ex_ports ex_calls).2.1) (transaction false ex_ports ex_calls).2.2 = [30007]) as H4 by (vm_compute; reflexivity).
  destruct (transaction false ex_ports ex_calls) as [errs [op pa]]. cbn [fst snd] in H1, H2, H3, H4.
  destruct H as (_ & _ & H & _). destruct (Rollback op pa) as [errors pa'']. destruct H as (HF & H5 & _).
  split; [exact H1|]. split; [exact H2|]. split; [exact H3|]. split; [exact H4|]. rewrite HF. exact H5.
Defined.

Lemma dry_AllocateNext_ignores_allocations_witness :
  ∃ last, op_AllocateNext 0 (StartOperation true)
      (pa_Allocate (NewPortAllocator (mkPortRange 32000 2000)) 32769).2 =
    (Ok (last + 1), (push_allocated (StartOperation true) (last + 1),
      (pa_Allocate (NewPortAllocator (mkPortRange 32000 2000)) 32769).2)) ∧ last + 1 = 32769.
Proof.
  destruct (dry_AllocateNext_ignores_allocations (StartOperation true)
    (pa_Allocate (NewPortAllocator (mkPortRange 32000 2000)) 32769).2 0 eq_refl)
    as (last & _ & Heq & Hl).
  - intros p Hp. by apply not_elem_of_nil in Hp.
  - exists last. split; [exact Heq|]. rewrite (Hl eq_refl). reflexivity.
Defined.
