(* ===== verification/IpAllocator.v ===== *)
(** * Service address allocation

    [pkg/registry/core/service/ipallocator/allocator.go]: the allocator of the
    addresses of a network, without its first and its last one, over any
    [allocator.Interface]. *)

From S2P Require Import Prelude GoStrings GoStrconv GoInt Bitmap GoNet.

(** The errors, those of the allocator inside included. *)
Inductive IpError (E : Type) : Type :=
  | ErrFull
  | ErrAllocated
  | ErrMismatchedNetwork
  | ErrNotInRange (validRange : string)
  | ErrSubnetTooSmall
  | ErrAllocator (err : E).
Arguments ErrFull {E}.
Arguments ErrAllocated {E}.
Arguments ErrMismatchedNetwork {E}.
Arguments ErrNotInRange {E} _.
Arguments ErrSubnetTooSmall {E}.
Arguments ErrAllocator {E} _.

#[global] Instance IpError_eq_dec {E} `{EqDecision E} : EqDecision (IpError E).
Proof. solve_decision. Defined.

Record Range (A : Type) : Type := mkRange {
  net : IPNet;
  base : Z;
  max : Z;
  alloc : A;
}.
Arguments mkRange {A} _ _ _ _.
Arguments net {A} _.
Arguments base {A} _.
Arguments max {A} _.
Arguments alloc {A} _.

Definition bigForIP (ip : list Z) : Z :=
  let b := match To4 ip with Some b => Some b | None => To16 ip end in
  SetBytes (default [] b).

Definition addIPOffset (base offset : Z) : list Z := Bytes (Z.abs (base + offset)).

(** [big.Int.Int64] keeps the low 64 bits. *)
Definition calculateIPOffset (base : Z) (ip : list Z) : Z := wrap64 (bigForIP ip - base).

Definition RangeSize (subnet : IPNet) : Z :=
  let '(ones, bits) := Size (IPNet_Mask subnet) in
  if ((bits =? 32) && (31 <=? bits - ones)) || ((bits =? 128) && (127 <=? bits - ones)) then 0
  else if (bits =? 128) && (16 <=? bits - ones) then Z.shiftl 1 16
  else Z.shiftl 1 (bits - ones).

Definition GetIndexedIP (subnet : IPNet) (index : Z) : result (IpError Empty_set) (list Z) :=
  let ip := addIPOffset (bigForIP (IPNet_IP subnet)) index in
  if negb (Contains subnet ip) then Err ErrSubnetTooSmall else Ok ip.

Definition maximum (a b : Z) : Z := if b <? a then a else b.

Definition NewAllocatorCIDRRange {A} (cidr : IPNet) (allocatorFactory : Z → string → A) : Range A :=
  let size := RangeSize cidr in
  let base := bigForIP (IPNet_IP cidr) in
  let rangeSpec := IPNet_String cidr in
  let max := maximum 0 (size - 2) in
  mkRange cidr (base + 1) max (allocatorFactory max rangeSpec).

Definition NewCIDRRange (cidr : IPNet) : Range AllocationBitmap :=
  NewAllocatorCIDRRange cidr NewAllocationMap.

Section ranges.
Context {A : Type} `{AllocatorInterface A}.

Definition contains (r : Range A) (ip : list Z) : option Z :=
  if negb (Contains (net r) ip) then None
  else
    let offset := calculateIPOffset (base r) ip in
    if (offset <? 0) || (max r <=? offset) then None else Some offset.

Definition with_alloc (r : Range A) (a : A) : Range A := mkRange (net r) (base r) (max r) a.

Definition Range_Free (r : Range A) : Z := iFree (alloc r).
Definition Range_Used (r : Range A) : Z := max r - iFree (alloc r).

Definition Range_Allocate (r : Range A) (ip : list Z) : option (IpError (iError A)) * Range A :=
  match contains r ip with
  | None => (Some (ErrNotInRange (IPNet_String (net r))), r)
  | Some offset =>
      let '(res, a) := iAllocate (alloc r) offset in
      (match res with
       | Err err => Some (ErrAllocator err)
       | Ok allocated => if negb allocated then Some ErrAllocated else None
       end, with_alloc r a)
  end.

Definition Range_AllocateNext (draw : Z) (r : Range A) : result (IpError (iError A)) (list Z) * Range A :=
  let '(res, a) := iAllocateNext draw (alloc r) in
  (match res with
   | Err err => Err (ErrAllocator err)
   | Ok None => Err ErrFull
   | Ok (Some offset) => Ok (addIPOffset (base r) offset)
   end, with_alloc r a).

Definition Range_Release (r : Range A) (ip : list Z) : option (iError A) * Range A :=
  match contains r ip with
  | None => (None, r)
  | Some offset => let '(err, a) := iRelease (alloc r) offset in (err, with_alloc r a)
  end.

(** [ForEach], as the list of the addresses the function is called on; a nil address
    is the empty one. *)
Definition Range_ForEach (r : Range A) : list (list Z) :=
  map (λ offset, match GetIndexedIP (net r) (offset + 1) with Ok ip => ip | Err _ => [] end)
    (iForEach (alloc r)).

Definition Range_Has (r : Range A) (ip : list Z) : bool :=
  match contains r ip with
  | None => false
  | Some offset => iHas (alloc r) offset
  end.

End ranges.

(** [net.IP.Equal]: a four-byte address equals its sixteen-byte form. *)
Definition IP_Equal (ip x : list Z) : bool :=
  if decide (length ip = length x) then bool_decide (ip = x)
  else if decide (length ip = 4%nat ∧ length x = 16%nat) then
    bool_decide (take 12 x = v4InV6Prefix) && bool_decide (ip = drop 12 x)
  else if decide (length ip = 16%nat ∧ length x = 4%nat) then
    bool_decide (take 12 ip = v4InV6Prefix) && bool_decide (drop 12 ip = x)
  else false.

(** [Snapshot] and [Restore] of a range over a bitmap. The masks are compared as
    they print, in hexadecimal, which is comparing their bytes; the error of the
    bitmap is dropped. *)
Definition Range_Snapshot (r : Range AllocationBitmap) : string * list Z := Snapshot (alloc r).

Definition Range_Restore (r : Range AllocationBitmap) (network : IPNet) (data : list Z) :
    option (IpError (iError AllocationBitmap)) * Range AllocationBitmap :=
  if negb (IP_Equal (IPNet_IP network) (IPNet_IP (net r))) ||
     negb (bool_decide (IPNet_Mask network = IPNet_Mask (net r)))
  then (Some ErrMismatchedNetwork, r)
  else
    match Restore (alloc r) (IPNet_String network) data with
    | Some a => (None, with_alloc r a)
    | None => (None, r)
    end.

(** ** The addresses of a range *)

(** The number of an address. *)
Lemma bigForIP_norm ip : ip_ok ip → bigForIP ip = SetBytes (norm ip).
Proof.
  intros [Hl _]. unfold bigForIP, norm. destruct (To4 ip) eqn:E; [done|].
  unfold To4 in E. destruct (decide (length ip = 4%nat)); [done|].
  unfold To16. rewrite decide_False, decide_True by (done || lia). done.
Qed.

Lemma net_ip_ok n ones bits : net_ok n ones bits → ip_ok (IPNet_IP n) ∧ norm (IPNet_IP n) = IPNet_IP n.
Proof.
  intros [Hb ? ? Hlen ? Hh ?]. split; [split; [destruct Hb; subst; lia|done]|].
  destruct (IPNet_IP n) as [|b l]; [done|]. unfold norm.
  destruct (decide (length (b :: l) = 4%nat)) as [E|E]; [unfold To4; by rewrite decide_True|].
  rewrite To4_head; [done| |done]. intros ->. by apply Hh.
Qed.

Lemma RangeSize_spec n ones bits :
  net_ok n ones bits →
  RangeSize n =
    if (31 <=? bits - ones) && (bits =? 32) || (127 <=? bits - ones) && (bits =? 128) then 0
    else if (bits =? 128) && (16 <=? bits - ones) then 2 ^ 16
    else 2 ^ (bits - ones).
Proof.
  intros Hn. unfold RangeSize. rewrite (net_mask _ _ _ Hn), Size_CIDRMask by apply Hn.
  rewrite !Z.shiftl_1_l, (andb_comm (bits =? 32)), (andb_comm (bits =? 128) (127 <=? _)). done.
Qed.

Lemma RangeSize_bound n ones bits :
  net_ok n ones bits → 0 ≤ RangeSize n ≤ 2 ^ (bits - ones).
Proof.
  intros Hn. rewrite (RangeSize_spec n ones bits) by done. destruct Hn.
  assert (0 < 2 ^ (bits - ones)) by (apply Z.pow_pos_nonneg; lia).
  repeat case_match; try lia. split; [lia|]. apply Z.pow_le_mono_r; to_prop; lia.
Qed.

(** An address a network of at most 2^63 addresses contains is recovered from its
    number. *)
Lemma addIPOffset_ok n ones bits x :
  net_ok n ones bits → SetBytes (IPNet_IP n) ≤ x < SetBytes (IPNet_IP n) + 2 ^ (bits - ones) →
  let ip := addIPOffset x 0 in ip_ok ip ∧ norm ip = ip ∧ SetBytes ip = x ∧ Contains n ip = true.
Proof.
  intros Hn Hx ip. pose proof Hn as [Hbits Hones Hmask Hlen Hb Hh Hm].
  pose proof (SetBytes_bound _ Hb) as Hbd. destruct (IPNet_IP n) as [|b l] eqn:E; [simpl in Hlen; lia|].
  assert (1 ≤ b) as Hb1.
  { inversion_clear Hb. assert (b ≠ 0) by (intros ->; by apply Hh). lia. }
  assert (256 ^ Z.of_nat (length l) ≤ SetBytes (b :: l)) as Hlow.
  { rewrite SetBytes_cons. inversion_clear Hb. pose proof (SetBytes_bound l ltac:(done)). nia. }
  assert (256 ^ Z.of_nat (length (b :: l)) = 2 ^ bits) as EP.
  { rewrite <- Hlen, Z.mul_comm, Z.pow_mul_r by lia. done. }
  assert (x < 2 ^ bits) as Hhigh.
  { apply Z.mod_divide in Hm as [q Hq]; [|apply Z.pow_nonzero; lia]. rewrite Hq in *.
    assert (2 ^ bits = 2 ^ ones * 2 ^ (bits - ones)) as E2 by (rewrite <- Z.pow_add_r by lia; f_equal; lia).
    rewrite E2, EP in *. assert (0 < 2 ^ (bits - ones)) by (apply Z.pow_pos_nonneg; lia).
    assert (q < 2 ^ ones) by (apply (Z.mul_lt_mono_pos_r (2 ^ (bits - ones))); lia).
    clear - Hx H0 H. nia. }
  assert (0 ≤ x) by lia.
  assert (ip = Bytes x) as Eip by (subst ip; unfold addIPOffset; f_equal; lia).
  assert (length ip = length (b :: l)) as Hl.
  { rewrite Eip. apply (Bytes_length x (length l)). change (S (length l)) with (length (b :: l)). lia. }
  assert (SetBytes ip = x) as Hval by (rewrite Eip; by apply SetBytes_Bytes).
  assert (ip_ok ip) as Hok.
  { split; [clearbody ip; destruct Hbits; lia|]. rewrite Eip. by apply Bytes_bytes. }
  assert (norm ip = ip) as Hnorm.
  { unfold norm. destruct (decide (length ip = 4%nat)) as [E4|E4]; [unfold To4; by rewrite decide_True|].
    clearbody ip. destruct ip as [|c k]; [done|]. rewrite To4_head; [done| |done]. intros ->.
    destruct Hok as [_ Hbk]. inversion_clear Hbk. pose proof (SetBytes_bound k ltac:(done)).
    rewrite SetBytes_cons in Hval. simpl in Hl. injection Hl as Hl. rewrite Hl in *. lia. }
  split_and!; [done..|]. rewrite Contains_spec by done. rewrite Hnorm, Hval, Hl, E. split; [lia|done].
Qed.

Section proofs.
Context {A : Type} `{AllocatorInterface A, !AllocatorLaws A}.

(** A range as [NewAllocatorCIDRRange] builds it, over a network of at most 2^63
    addresses. *)
Record range_ok (r : Range A) (ones bits : Z) : Prop := {
  range_net : net_ok (net r) ones bits;
  range_small : bits - ones ≤ 63;
  range_base : base r = SetBytes (IPNet_IP (net r)) + 1;
  range_max : max r = maximum 0 (RangeSize (net r) - 2);
  range_valid : valid (alloc r);
  range_alloc : size_of (alloc r) = max r;
}.

(** The addresses that can be allocated, and those that are, as numbers. *)
Definition usable (r : Range A) (ip : list Z) : Prop :=
  Contains (net r) ip = true ∧ base r ≤ bigForIP ip < base r + max r.

Definition addresses (r : Range A) : gset Z := set_map (λ offset, base r + offset) (items (alloc r)).

Lemma elem_of_addresses r x : x ∈ addresses r ↔ x - base r ∈ items (alloc r).
Proof.
  unfold addresses. rewrite elem_of_map. split.
  - intros (o & -> & Ho). by replace (base r + o - base r) with o by lia.
  - intros Ho. exists (x - base r). split; [lia|done].
Qed.

Lemma range_bounds r ones bits :
  range_ok r ones bits →
  max r = 0 ∨ SetBytes (IPNet_IP (net r)) < base r ∧
    base r + max r < SetBytes (IPNet_IP (net r)) + 2 ^ (bits - ones).
Proof.
  intros [Hn _ Hb Hm _ _]. pose proof (RangeSize_bound _ _ _ Hn) as Hs. rewrite Hb, Hm.
  unfold maximum. destruct (Z.ltb_spec (RangeSize (net r) - 2) 0); lia.
Qed.

Lemma range_contains_spec r ones bits ip :
  range_ok r ones bits → ip_ok ip →
  (usable r ip ∧ contains r ip = Some (bigForIP ip - base r)) ∨ (¬ usable r ip ∧ contains r ip = None).
Proof.
  intros Hr Hip. pose proof Hr as [Hn Hs Hb _ _ _]. unfold contains, usable.
  destruct (Contains (net r) ip) eqn:E; cbn [negb]; [|right; naive_solver].
  apply (Contains_spec _ ones bits) in E as [_ Hx]; [|done..]. rewrite <- bigForIP_norm in Hx by done.
  unfold calculateIPOffset. rewrite wrap64_in.
  - destruct (Z.ltb_spec (bigForIP ip - base r) 0); simpl; [right; split; [lia|done]|].
    destruct (Z.leb_spec (max r) (bigForIP ip - base r)); [right|left]; split; (done || lia).
  - pose proof (Z.pow_le_mono_r 2 (bits - ones) 63 ltac:(lia) Hs). width64. lia.
Qed.

(** The fields an operation leaves alone. *)
Lemma with_alloc_ok r ones bits a :
  range_ok r ones bits → valid a → size_of a = size_of (alloc r) → range_ok (with_alloc r a) ones bits.
Proof. intros [] ? ?. split; simpl; congruence. Qed.

Lemma Range_Allocate_spec r ones bits ip :
  range_ok r ones bits → ip_ok ip →
  let '(err, r') := Range_Allocate r ip in
  range_ok r' ones bits ∧
  err = (if decide (usable r ip) then if decide (bigForIP ip ∈ addresses r) then Some ErrAllocated else None
         else Some (ErrNotInRange (IPNet_String (net r)))) ∧
  addresses r' = if err then addresses r else {[bigForIP ip]} ∪ addresses r.
Proof.
  intros Hr Hip. unfold Range_Allocate.
  destruct (range_contains_spec r ones bits ip Hr Hip) as [[Hu ->]|[Hu ->]].
  2:{ by rewrite decide_False. }
  rewrite decide_True by done. destruct Hu as [_ Hx].
  pose proof (law_Allocate (alloc r) (bigForIP ip - base r) (range_valid _ _ _ Hr)) as Ha.
  rewrite (range_alloc _ _ _ Hr) in Ha. specialize (Ha ltac:(lia)).
  destruct (iAllocate _ _) as [ok a]. destruct Ha as (Ha1 & Ha2 & -> & Ha3).
  assert (∀ q, q ∈ addresses (with_alloc r a) ↔ q = bigForIP ip ∨ q ∈ addresses r) as Hp.
  { intros q. rewrite !elem_of_addresses. simpl. rewrite Ha3, elem_of_union, elem_of_singleton.
    assert (q - base r = bigForIP ip - base r ↔ q = bigForIP ip) as -> by lia. done. }
  split; [apply with_alloc_ok; auto; rewrite (range_alloc _ _ _ Hr); done|].
  destruct (decide (bigForIP ip ∈ addresses r)) as [Hin|Hin]; pose proof Hin as Hin';
    rewrite elem_of_addresses in Hin'; [rewrite bool_decide_true by done|rewrite bool_decide_false by done];
    cbn [negb]; (split; [done|]); apply set_eq; intros q; rewrite Hp; set_solver.
Qed.

Lemma Range_AllocateNext_spec r ones bits draw :
  range_ok r ones bits →
  let '(res, r') := Range_AllocateNext draw r in
  range_ok r' ones bits ∧
  match res with
  | Ok ip => ip_ok ip ∧ usable r ip ∧ bigForIP ip ∉ addresses r ∧
      addresses r' = {[bigForIP ip]} ∪ addresses r
  | Err e => e = ErrFull ∧ addresses r' = addresses r ∧
      ∀ ip, usable r ip → bigForIP ip ∈ addresses r
  end.
Proof.
  intros Hr. unfold Range_AllocateNext.
  pose proof (law_AllocateNext draw (alloc r) (range_valid _ _ _ Hr)) as Ha.
  rewrite (range_alloc _ _ _ Hr) in Ha.
  destruct (iAllocateNext draw (alloc r)) as [[[o|]|err] a]; destruct Ha as (Ha1 & Ha2 & Ha3); [..|done];
    (split; [apply with_alloc_ok; auto; rewrite (range_alloc _ _ _ Hr); done|]).
  - destruct Ha3 as (Ho & Hno & Hi). pose proof (range_bounds r ones bits Hr) as Hbd.
    destruct (addIPOffset_ok (net r) ones bits (base r + o)) as (H1 & H2 & H3 & H4);
      [apply Hr|lia|]. unfold addIPOffset in *. rewrite Z.add_0_r in *.
    set (ip := Bytes (Z.abs (base r + o))) in *.
    assert (bigForIP ip = base r + o) as E by (by rewrite bigForIP_norm, H2).
    assert (base r + o - base r = o) as Eo by lia.
    split_and!; [done|split; [done|lia]| |].
    + by rewrite elem_of_addresses, E, Eo.
    + apply set_eq. intros q. rewrite elem_of_union, elem_of_singleton, !elem_of_addresses. simpl.
      rewrite Hi, elem_of_union, elem_of_singleton, E.
      assert (q - base r = o ↔ q = base r + o) as -> by lia. done.
  - destruct Ha3 as [-> Hall]. split_and!; [done..|]. intros ip [_ Hx].
    apply elem_of_addresses, Hall. lia.
Qed.

Lemma Range_Release_spec r ones bits ip :
  range_ok r ones bits → ip_ok ip →
  let '(err, r') := Range_Release r ip in
  err = None ∧ range_ok r' ones bits ∧
  addresses r' =
    if decide (usable r ip) then addresses r ∖ {[bigForIP ip]} else addresses r.
Proof.
  intros Hr Hip. unfold Range_Release.
  destruct (range_contains_spec r ones bits ip Hr Hip) as [[Hu ->]|[Hu ->]].
  2:{ by rewrite decide_False. }
  rewrite decide_True by done.
  pose proof (law_Release (alloc r) (bigForIP ip - base r) (range_valid _ _ _ Hr)) as Ha.
  destruct (iRelease _ _) as [err a]. destruct Ha as (-> & H1 & H2 & H3).
  split; [done|]. split; [by apply with_alloc_ok|]. apply set_eq. intros q.
  rewrite elem_of_difference, elem_of_singleton, !elem_of_addresses. simpl.
  rewrite H3, elem_of_difference, elem_of_singleton.
  assert (q - base r = bigForIP ip - base r ↔ q = bigForIP ip) as -> by lia. done.
Qed.

Lemma Range_ForEach_spec r ones bits :
  range_ok r ones bits →
  (∀ ip, ip ∈ Range_ForEach r → ip_ok ip ∧ usable r ip) ∧
  (∀ x, x ∈ addresses r ↔ ∃ ip, ip ∈ Range_ForEach r ∧ bigForIP ip = x).
Proof.
  intros Hr. pose proof Hr as [Hn _ Hb _ Hv Ha]. pose proof (range_bounds r ones bits Hr) as Hbd.
  assert (∀ o, o ∈ items (alloc r) → ∃ ip, GetIndexedIP (net r) (o + 1) = Ok ip ∧
    ip_ok ip ∧ bigForIP ip = base r + o ∧ usable r ip) as Hget.
  { intros o Ho. pose proof (items_range _ _ Hv Ho) as Hr'. unfold GetIndexedIP.
    destruct (net_ip_ok _ _ _ Hn) as [Hok Hnorm]. rewrite (bigForIP_norm _ Hok), Hnorm.
    destruct (addIPOffset_ok (net r) ones bits (base r + o)) as (H1 & H2 & H3 & H4); [done|lia|].
    unfold addIPOffset in *. replace (SetBytes (IPNet_IP (net r)) + (o + 1)) with (base r + o + 0) by lia.
    rewrite H4. cbn [negb]. eexists. split; [done|]. split; [done|].
    rewrite (bigForIP_norm _ H1), H2, H3. split; [done|]. split; [done|].
    rewrite (bigForIP_norm _ H1), H2, H3. lia. }
  unfold Range_ForEach. split.
  - intros ip Hip. apply list_elem_of_fmap in Hip as (o & -> & Ho). apply law_ForEach in Ho; [|done].
    destruct (Hget o Ho) as (ip & -> & ? & _ & ?). done.
  - intros x. rewrite elem_of_addresses. split.
    + intros Ho. destruct (Hget _ Ho) as (ip & Hg & _ & Hx & _). exists ip. split; [|lia].
      apply list_elem_of_fmap. exists (x - base r). rewrite Hg. split; [done|]. by apply law_ForEach.
    + intros (ip & Hip & <-). apply list_elem_of_fmap in Hip as (o & -> & Ho).
      apply law_ForEach in Ho; [|done]. destruct (Hget o Ho) as (ip & -> & _ & -> & _).
      by replace (base r + o - base r) with o by lia.
Qed.

Lemma Range_Has_spec r ones bits ip :
  range_ok r ones bits → ip_ok ip →
  Range_Has r ip = bool_decide (usable r ip ∧ bigForIP ip ∈ addresses r).
Proof.
  intros Hr Hip. unfold Range_Has.
  destruct (range_contains_spec r ones bits ip Hr Hip) as [[Hu ->]|[Hu ->]].
  - rewrite law_Has by apply Hr. apply bool_decide_ext. rewrite elem_of_addresses. tauto.
  - symmetry. apply bool_decide_false. tauto.
Qed.

End proofs.

(** ** Correctness *)

Lemma NewCIDRRange_ok cidr ones bits :
  net_ok cidr ones bits → bits - ones ≤ 63 → range_ok (NewCIDRRange cidr) ones bits.
Proof.
  intros Hn Hs. destruct (net_ip_ok _ _ _ Hn) as [Hok Hnorm].
  split; simpl; [done|done|by rewrite bigForIP_norm, Hnorm|done|apply NewAllocationMap_inv|done].
Qed.

(** The addresses of a range. The usable addresses of a network are those it
    contains less the network address and the broadcast address. A usable address
    that is not allocated can be allocated, once; any other request is refused with
    the error that says why and changes nothing. The next address is usable, was
    free, and is written with as many bytes as the network has; there is none only
    when every usable address is allocated. Releasing an address frees it and
    nothing else, and iteration visits exactly the allocated addresses. *)
Theorem Range_correct {A} `{AllocatorInterface A, !AllocatorLaws A} (r : Range A) (ones bits draw : Z)
    (ip : list Z) :
  range_ok r ones bits → ip_ok ip →
  (usable r ip → bigForIP ip ≠ SetBytes (IPNet_IP (net r)) ∧
     bigForIP ip ≠ SetBytes (IPNet_IP (net r)) + 2 ^ (bits - ones) - 1) ∧
  (let '(err, r') := Range_Allocate r ip in
   range_ok r' ones bits ∧
   err = (if decide (usable r ip) then
            if decide (bigForIP ip ∈ addresses r) then Some ErrAllocated else None
          else Some (ErrNotInRange (IPNet_String (net r)))) ∧
   addresses r' = if err then addresses r else {[bigForIP ip]} ∪ addresses r) ∧
  (let '(res, r') := Range_AllocateNext draw r in
   range_ok r' ones bits ∧
   match res with
   | Ok next => ip_ok next ∧ usable r next ∧ bigForIP next ∉ addresses r ∧
       addresses r' = {[bigForIP next]} ∪ addresses r
   | Err e => e = ErrFull ∧ addresses r' = addresses r ∧ ∀ ip, usable r ip → bigForIP ip ∈ addresses r
   end) ∧
  (let '(err, r') := Range_Release r ip in
   err = None ∧ range_ok r' ones bits ∧
   addresses r' = if decide (usable r ip) then addresses r ∖ {[bigForIP ip]} else addresses r) ∧
  Range_Has r ip = bool_decide (usable r ip ∧ bigForIP ip ∈ addresses r) ∧
  (∀ x, x ∈ addresses r ↔ ∃ ip, ip ∈ Range_ForEach r ∧ bigForIP ip = x).
Proof.
  intros Hr Hip. pose proof (range_bounds r ones bits Hr).
  split; [intros [_ Hu]; split; lia|]. split; [by apply Range_Allocate_spec|].
  split; [by apply Range_AllocateNext_spec|]. split; [by apply Range_Release_spec|].
  split; [by apply (Range_Has_spec r ones bits)|]. by apply (Range_ForEach_spec r ones bits).
Qed.

Definition ex_net : IPNet := mkIPNet [10; 0; 0; 0] (CIDRMask 24 32).

Lemma ex_net_ok : net_ok ex_net 24 32.
Proof. split; try done; [by left|repeat constructor; lia]. Qed.

Lemma Range_correct_witness :
  (Range_Allocate (NewCIDRRange ex_net) [10; 0; 0; 7]).1 = None ∧
  (Range_Allocate (NewCIDRRange ex_net) [10; 0; 0; 255]).1 = Some (ErrNotInRange "10.0.0.0/24") ∧
  10 * 256 ^ 3 + 7 ∉ addresses (NewCIDRRange ex_net).
Proof.
  split; [reflexivity|]. split; [reflexivity|].
  assert (ip_ok [10; 0; 0; 7]) as Hip by (split; [by left|repeat constructor; lia]).
  pose proof (Range_correct (NewCIDRRange ex_net) 24 32 0 [10; 0; 0; 7]
    (NewCIDRRange_ok _ _ _ ex_net_ok ltac:(lia)) Hip) as (_ & _ & _ & _ & Hhas & _).
  change (Range_Has _ _) with false in Hhas. symmetry in Hhas. apply bool_decide_eq_false in Hhas.
  intros Hin. apply Hhas. split; [split; [reflexivity|vm_compute; split; [discriminate|reflexivity]]|].
  exact Hin.
Defined.

(** The offset of an address is cut to 64 bits, so in a network of more than
    2^64 addresses two addresses a multiple of 2^64 apart share one slot: once one is
    allocated the other one counts as allocated, and releasing the one frees the
    other. *)
Theorem contains_aliases (r : Range AllocationBitmap) (ip ip' : list Z) (k : Z) :
  (Contains (net r) ip = Contains (net r) ip' → bigForIP ip' = bigForIP ip + k * 2 ^ 64 →
   contains r ip' = contains r ip) ∧
  let n := mkIPNet [253; 0; 0; 0; 0; 0; 0; 0; 0; 0; 0; 0; 0; 0; 0; 0] (CIDRMask 56 128) in
  let a := [253; 0; 0; 0; 0; 0; 0; 0; 0; 0; 0; 0; 0; 0; 0; 6] in
  let b := [253; 0; 0; 0; 0; 0; 0; 1; 0; 0; 0; 0; 0; 0; 0; 6] in
  let '(err, r1) := Range_Allocate (NewCIDRRange n) a in
  err = None ∧ Range_Has r1 b = true ∧ (Range_Allocate r1 b).1 = Some ErrAllocated ∧
  Range_Has (Range_Release r1 b).2 a = false.
Proof.
  split; [|vm_compute; done]. intros Hc E. unfold contains. rewrite Hc.
  destruct (Contains (net r) ip'); [|done]. simpl.
  assert (calculateIPOffset (base r) ip' = calculateIPOffset (base r) ip) as ->; [|done].
  unfold calculateIPOffset, wrap64. rewrite E.
  replace (bigForIP ip + k * 2 ^ 64 - base r + 2 ^ 63) with
    (bigForIP ip - base r + 2 ^ 63 + k * 2 ^ 64) by lia. by rewrite Z.mod_add.
Qed.

(** Restoring what was saved gives the range back. *)
Lemma Range_Snapshot_Restore cidr ones bits (r : Range AllocationBitmap) :
  net_ok cidr ones bits → range_ok r ones bits → net r = cidr →
  rangeSpec (alloc r) = IPNet_String cidr →
  Range_Restore (NewCIDRRange cidr) cidr (Range_Snapshot r).2 = (None, r).
Proof.
  intros Hn Hr Hnet Hspec. unfold Range_Restore, Range_Snapshot. simpl.
  assert (IP_Equal (IPNet_IP cidr) (IPNet_IP cidr) = true) as ->.
  { unfold IP_Equal. rewrite decide_True by done. by apply bool_decide_true. }
  rewrite bool_decide_true by done. simpl. unfold Restore. simpl. rewrite bool_decide_true by done. simpl.
  destruct r as [n b m [mx spec cnt al]]. simpl in *. subst.
  pose proof Hr as [_ _ Hb Hm Hv Ha]. simpl in *.
  destruct (net_ip_ok _ _ _ Hn) as [Hok Hnorm]. pose proof Hv as [H1 H2 H3]. simpl in *.
  unfold with_alloc. simpl. rewrite (bigForIP_norm _ Hok), Hnorm, SetBytes_Bytes, countBits_spec by done.
  change (mx = m) in Ha. by rewrite Ha, Hm, Hb, H2.
Qed.
