(* ===== verification/PortRepair.v ===== *)
(** * Node port repair

    The parsing of port ranges ([apimachinery/pkg/util/net/port_range.go]), the
    snapshots of the port allocator ([portallocator/allocator.go]), and the repair
    loop ([portallocator/controller/repair.go]) that rebuilds the stored allocations
    from the services. *)

From S2P Require Import Prelude GoStrings GoSpace GoStrconv GoInt Bitmap PortAllocator AllocatorStorage.

(** ** Port ranges *)

Inductive RangeError : Type :=
  | ErrNumber (e : NumError)
  | ErrNotation
  | ErrPortTooLarge
  | ErrEndBeforeStart.

#[global] Instance RangeError_eq_dec : EqDecision RangeError.
Proof. solve_decision. Defined.

(** The two halves around the first separator are [value[:i]] and [value[i+1:]]. *)
Definition parse_pair (value : string) (c : ascii) : result RangeError (Z * Z) :=
  match SplitN2 value c with
  | [a; b] =>
      match Atoi a with
      | Err e => Err (ErrNumber e)
      | Ok x => match Atoi b with Err e => Err (ErrNumber e) | Ok y => Ok (x, y) end
      end
  | _ => Err ErrNotation
  end.

Definition check_bounds (low high : Z) : result RangeError PortRange :=
  if (65535 <? low) || (65535 <? high) then Err ErrPortTooLarge
  else if high <? low then Err ErrEndBeforeStart
  else Ok (mkPortRange low (wrap64 (1 + high - low))).

(** [PortRange.Set], which is [ParsePortRange]. *)
Definition ParsePortRange (value : string) : result RangeError PortRange :=
  let value := TrimSpace value in
  if bool_decide (value = "") then Ok (mkPortRange 0 0)
  else
    match ContainsChar value "-"%char, ContainsChar value "+"%char with
    | false, false =>
        match Atoi value with Err e => Err (ErrNumber e) | Ok port => check_bounds port port end
    | true, false =>
        match parse_pair value "-"%char with Err e => Err e | Ok (low, high) => check_bounds low high end
    | false, true =>
        match parse_pair value "+"%char with
        | Err e => Err e
        | Ok (low, offset) => check_bounds low (wrap64 (low + offset))
        end
    | true, true => Err ErrNotation
    end.

(** ** Snapshots *)

Inductive SnapshotError : Type :=
  | ErrParse (e : RangeError)
  | ErrMismatchedNetwork
  | ErrBitmapRange.

Definition pa_Snapshot (r : PortAllocator AllocationBitmap) : string * list Z :=
  Snapshot (PortAllocator.alloc r).

Definition pa_Restore (r : PortAllocator AllocationBitmap) (pr : PortRange) (data : list Z) :
    result SnapshotError (PortAllocator AllocationBitmap) :=
  if negb (bool_decide (PortRange_String pr = PortRange_String (portRange r))) then Err ErrMismatchedNetwork
  else
    match Restore (PortAllocator.alloc r) (PortRange_String pr) data with
    | None => Err ErrBitmapRange
    | Some a => Ok (with_alloc r a)
    end.

Definition NewFromSnapshot (snap : string * list Z) :
    result SnapshotError (PortAllocator AllocationBitmap) :=
  match ParsePortRange snap.1 with
  | Err e => Err (ErrParse e)
  | Ok pr => pa_Restore (NewPortAllocator pr) pr snap.2
  end.

(** ** Repair *)

(** What the repair reads of a service. *)
Record Service : Type := mkService {
  NodePorts : list Z;
  HealthCheckNodePort : Z;
}.

Definition collectServiceNodePorts (service : Service) : list Z :=
  filter (λ port, port ≠ 0) (NodePorts service) ++
  (if HealthCheckNodePort service =? 0 then [] else [HealthCheckNodePort service]).

Definition numRepairsBeforeLeakCleanup : Z := 3.

Inductive RepairError : Type :=
  | ErrRebuild (e : SnapshotError)
  | ErrList
  | ErrRangeFull
  | ErrUnknown
  | ErrConflict
  | ErrPersist.

(** The allocator that is rebuilt, the stored one, and the counters. *)
Record repair_state : Type := mkRepair {
  rebuilt : PortAllocator AllocationBitmap;
  old : PortAllocator AllocationBitmap;
  leaks : gmap Z Z;
}.

(** One port of a service. A full range cannot happen in [Allocate]; the type test
    before that case would panic. *)
Definition repair_port (st : repair_state) (port : Z) : result RepairError repair_state :=
  let '(err, r) := pa_Allocate (rebuilt st) port in
  match err with
  | None =>
      Ok (mkRepair r (if pa_Has (old st) port then (pa_Release (old st) port).2 else old st)
            (delete port (leaks st)))
  | Some ErrAllocated | Some (ErrNotInRange _) => Ok (mkRepair r (old st) (leaks st))
  | Some ErrFull => Err ErrRangeFull
  | Some (ErrAllocator _) => Err ErrUnknown
  end.

Fixpoint repair_ports (ports : list Z) (st : repair_state) : result RepairError repair_state :=
  match ports with
  | [] => Ok st
  | port :: ports =>
      match repair_port st port with
      | Err e => Err e
      | Ok st => repair_ports ports st
      end
  end.

(** A port that is left in the stored allocator. *)
Definition repair_leak (st : PortAllocator AllocationBitmap * gmap Z Z) (port : Z) :
    PortAllocator AllocationBitmap * gmap Z Z :=
  let '(rebuilt, leaks) := st in
  let count := default (numRepairsBeforeLeakCleanup - 1) (leaks !! port) in
  if bool_decide (leaks !! port = None) || (0 <? count) then
    ((pa_Allocate rebuilt port).2, <[port := count - 1]> leaks)
  else (rebuilt, leaks).

(** [runOnce]: the store as it was read and as it is when the result is written. *)
Definition runOnce (pr : PortRange) (rev : Z) (counters : gmap Z Z) (e : Etcd AllocationBitmap)
    (read written : store) (services : option (list Service)) :
    option RepairError * gmap Z Z * Etcd AllocationBitmap * store :=
  let snapshot := Etcd_Get read in
  let range := (Contents snapshot).1 in
  let range := if bool_decide (range = "") then PortRange_String pr else range in
  match NewFromSnapshot (range, (Contents snapshot).2) with
  | Err err => (Some (ErrRebuild err), counters, e, written)
  | Ok stored =>
      match services with
      | None => (Some ErrList, counters, e, written)
      | Some services =>
          match repair_ports (flat_map collectServiceNodePorts services)
                  (mkRepair (NewPortAllocator pr) stored counters) with
          | Err err => (Some err, counters, e, written)
          | Ok st =>
              let '(rebuilt, counters) := fold_left repair_leak (pa_ForEach (old st)) (rebuilt st, leaks st) in
              let '(err, e, written) :=
                CreateOrUpdate rev e written
                  (mkRangeAllocation (ResourceVersion snapshot) (pa_Snapshot rebuilt)) in
              let err :=
                match err with
                | None => None
                | Some ErrVersion | Some ErrInitialized => Some ErrConflict
                | Some _ => Some ErrPersist
                end in
              (err, counters, e, written)
          end
      end
  end.

(** What an attempt meets: the store when it reads and when it writes, the services
    and the revision of a write. *)
Record meets : Type := mkMeets {
  at_read : store;
  at_write : store;
  listed : option (list Service);
  revision : Z;
}.

(** [RunOnce]: [RetryOnConflict] with [DefaultBackoff], four attempts. *)
Fixpoint retry_on_conflict (pr : PortRange) (steps : nat) (ms : nat → meets) (counters : gmap Z Z)
    (e : Etcd AllocationBitmap) (s : store) : option RepairError * gmap Z Z * Etcd AllocationBitmap * store :=
  match steps with
  | O => (Some ErrConflict, counters, e, s)
  | S steps =>
      let m := ms steps in
      match runOnce pr (revision m) counters e (at_read m) (at_write m) (listed m) with
      | (Some ErrConflict, counters, e, s) => retry_on_conflict pr steps ms counters e s
      | r => r
      end
  end.

Definition RunOnce (pr : PortRange) (ms : nat → meets) (counters : gmap Z Z) (e : Etcd AllocationBitmap)
    (s : store) : option RepairError * gmap Z Z * Etcd AllocationBitmap * store :=
  retry_on_conflict pr 4 ms counters e s.

(** ** Parsing what was printed *)

Definition port_range_ok (pr : PortRange) : Prop :=
  0 ≤ Base pr ∧ 1 ≤ RangeSize pr ∧ Base pr + RangeSize pr - 1 ≤ 65535.

(** What is not visible is neither a digit nor a dash. *)
Lemma hidden_not_digit c :
  visible c = false → c ∉ ["0"; "1"; "2"; "3"; "4"; "5"; "6"; "7"; "8"; "9"]%char ∧ c ≠ "-"%char.
Proof.
  intros Hc. split; [|intros ->; done].
  intros Hin. repeat (apply elem_of_cons in Hin as [->|Hin]; [done|]). by apply not_elem_of_nil in Hin.
Qed.

Lemma ParsePortRange_print pr : port_range_ok pr → ParsePortRange (PortRange_String pr) = Ok pr.
Proof.
  intros (Hb & Hs & Hmax). unfold PortRange_String. destruct (Z.eqb_spec (RangeSize pr) 0); [lia|].
  set (low := Base pr) in *. set (high := low + RangeSize pr - 1).
  assert (∀ z c, 0 ≤ z → c ∉ ["0"; "1"; "2"; "3"; "4"; "5"; "6"; "7"; "8"; "9"]%char →
    ContainsChar (Itoa z) c = false) as Hno by (intros; by apply Itoa_no_char).
  unfold ParsePortRange. rewrite TrimSpace_visible.
  2:{ intros c Hc. destruct (visible c) eqn:Hv; [done|]. destruct (hidden_not_digit c Hv) as [H1 H2].
      rewrite !ContainsChar_app, !Hno in Hc by (done || lia). simpl in Hc.
      by rewrite bool_decide_false in Hc by congruence. }
  rewrite bool_decide_false.
  2:{ intros E. apply (Itoa_nonempty low Hb). by destruct (Itoa low). }
  rewrite !ContainsChar_app, !(Hno _ "-"%char), !(Hno _ "+"%char) by (set_solver || lia). simpl.
  unfold parse_pair. rewrite SplitN2_app by (apply Hno; [done|set_solver]).
  rewrite !Atoi_Itoa by (unfold MaxInt64; lia). simpl. unfold check_bounds.
  destruct (Z.ltb_spec 65535 low), (Z.ltb_spec 65535 high), (Z.ltb_spec high low); try lia. simpl.
  rewrite wrap64_in by (width64; lia). destruct pr; simpl in *. do 2 f_equal. lia.
Qed.

(** ** The loops *)

Section repair.
Context (pr : PortRange).

Definition in_range (p : Z) : Prop := Base pr ≤ p < Base pr + RangeSize pr.

(** What is known when the ports [U] were seen: [O] was stored, [L] were the
    counters. *)
Record seen (st : repair_state) (U O : gset Z) (L : gmap Z Z) : Prop := {
  seen_rebuilt : pa_valid (rebuilt st) ∧ portRange (rebuilt st) = pr;
  seen_old : pa_valid (old st) ∧ portRange (old st) = pr;
  seen_U : ports (rebuilt st) = U;
  seen_O : ports (old st) = O ∖ U;
  seen_L p : leaks st !! p = if decide (p ∈ U) then None else L !! p;
}.

Lemma pa_Has_spec (r : PortAllocator AllocationBitmap) p :
  pa_valid r → pa_Has r p = bool_decide (p ∈ ports r).
Proof.
  intros Hv. unfold pa_Has. rewrite port_contains_spec. case_bool_decide as Hr.
  - rewrite law_Has by apply Hv. apply bool_decide_ext. by rewrite elem_of_ports.
  - symmetry. apply bool_decide_false. intros Hp. by apply ports_in_range in Hp.
Qed.

Lemma repair_port_spec st U O L p :
  seen st U O L →
  ∃ st', repair_port st p = Ok st' ∧ seen st' (if decide (in_range p) then {[p]} ∪ U else U) O L.
Proof.
  intros [[Hrv Hrr] [Hov Hor] HU HO HL]. unfold repair_port.
  pose proof (pa_Allocate_spec (rebuilt st) p Hrv) as Ha. rewrite Hrr in Ha.
  destruct (pa_Allocate (rebuilt st) p) as [err r] eqn:E. destruct Ha as (Hv' & Hr' & Hok & Hp).
  destruct err as [err|].
  - assert (¬ (in_range p ∧ p ∉ U)) as Hn by (intros [? ?]; assert (Some err = None); [apply Hok; split; [done|by rewrite HU]|done]).
    assert (err = ErrAllocated ∨ ∃ s, err = ErrNotInRange s) as Herr.
    { revert E. unfold pa_Allocate. destruct (contains _ _); [|intros [= <- _]; right; by eexists].
      destruct (iAllocate _ _) as [[[]|[]] ?]; simpl; intros [= <- _]. by left. }
    exists (mkRepair r (old st) (leaks st)). split; [by destruct Herr as [->|[s ->]]|]. assert ((if decide (in_range p) then {[p]} ∪ U else U) = U) as ->.
    { destruct (decide (in_range p)) as [Hin|]; [|done]. destruct (decide (p ∈ U)); [set_solver|tauto]. }
    by split; simpl; [split..|congruence| |].
  - destruct (proj1 Hok eq_refl) as [Hin Hni]. rewrite HU in *. rewrite decide_True by done. eexists. split; [done|].
    assert (pa_valid (if pa_Has (old st) p then (pa_Release (old st) p).2 else old st) ∧
      portRange (if pa_Has (old st) p then (pa_Release (old st) p).2 else old st) = pr ∧
      ports (if pa_Has (old st) p then (pa_Release (old st) p).2 else old st) = ports (old st) ∖ {[p]}) as (H1 & H2 & H3).
    { pose proof (pa_Release_spec (old st) p Hov) as Hrel. destruct (pa_Release (old st) p) as [e o]. destruct Hrel as (_ & ? & ? & ?).
      rewrite pa_Has_spec by done. simpl.
      case_bool_decide; [split_and!; [done|congruence|done]|]. split_and!; [done..|]. set_solver. }
    split; simpl; [split; congruence|by split|done| |].
    + etrans; [exact H3|]. rewrite HO. clear. set_solver.
    + intros q. destruct (decide (q = p)) as [->|Hne].
      * rewrite lookup_delete_eq, decide_True; [done|]. apply elem_of_union. left. by apply elem_of_singleton.
      * rewrite lookup_delete_ne, HL by done. apply decide_ext.
        rewrite elem_of_union, elem_of_singleton. tauto.
Qed.

(** The ports of the range in a list. *)
Definition used (l : list Z) : gset Z := list_to_set (filter in_range l).

Lemma repair_ports_spec l st U O L :
  seen st U O L → ∃ st', repair_ports l st = Ok st' ∧ seen st' (used l ∪ U) O L.
Proof.
  revert st U. induction l as [|p l IH]; intros st U Hs; cbn [repair_ports].
  { exists st. split; [done|]. by replace (used [] ∪ U) with U by set_solver. }
  destruct (repair_port_spec st U O L p Hs) as (st1 & -> & Hs1).
  destruct (IH _ _ Hs1) as (st2 & -> & Hs2). eexists. split; [done|].
  replace (used (p :: l) ∪ U) with (used l ∪ (if decide (in_range p) then {[p]} ∪ U else U)); [done|].
  unfold used. rewrite filter_cons. destruct (decide (in_range p)); simpl; set_solver.
Qed.

(** A leak is kept while its counter has not run out. *)
Definition grace (L : gmap Z Z) (p : Z) : bool :=
  match L !! p with None => true | Some c => 0 <? c end.

Definition tick (c : option Z) : Z :=
  match c with
  | None => numRepairsBeforeLeakCleanup - 2
  | Some c => if 0 <? c then c - 1 else c
  end.

Lemma repair_leak_spec r L p :
  pa_valid r → portRange r = pr → in_range p →
  let '(r', L') := repair_leak (r, L) p in
  pa_valid r' ∧ portRange r' = pr ∧ ports r' = (if grace L p then {[p]} ∪ ports r else ports r) ∧
  L' = <[p := tick (L !! p)]> L.
Proof.
  intros Hv Hpr Hin. unfold repair_leak, grace, tick.
  pose proof (pa_Allocate_spec r p Hv) as Ha. destruct (pa_Allocate r p) as [err r'].
  destruct Ha as (Hv' & Hr' & Hok & Hp). rewrite Hpr in *.
  assert (ports r' = {[p]} ∪ ports r) as Hp'.
  { rewrite Hp. destruct err; [|done]. destruct (decide (p ∈ ports r)); [set_solver|].
    by assert (Some p0 = None) by (apply Hok; done). }
  destruct (L !! p) as [c|] eqn:E; simpl; [|done].
  destruct (Z.ltb_spec 0 c); [done|]. split_and!; [done..|]. by rewrite insert_id.
Qed.

Lemma repair_leaks_spec l r L :
  NoDup l → pa_valid r → portRange r = pr → (∀ p, p ∈ l → in_range p) →
  let '(r', L') := fold_left repair_leak l (r, L) in
  pa_valid r' ∧ portRange r' = pr ∧
  (∀ p, p ∈ ports r' ↔ p ∈ ports r ∨ p ∈ l ∧ grace L p = true) ∧
  (∀ p, L' !! p = if decide (p ∈ l) then Some (tick (L !! p)) else L !! p).
Proof.
  intros Hnd. revert r L. induction Hnd as [|q l Hq Hnd IH]; intros r L Hv Hpr Hin; cbn [fold_left].
  { split_and!; [done|done| |done]. intros p. split; [by left|]. by intros [?|[?%not_elem_of_nil _]]. }
  pose proof (repair_leak_spec r L q Hv Hpr (Hin q ltac:(left))) as H1.
  destruct (repair_leak (r, L) q) as [r1 L1]. destruct H1 as (Hv1 & Hpr1 & Hp1 & ->).
  specialize (IH r1 (<[q := tick (L !! q)]> L) Hv1 Hpr1 ltac:(intros; apply Hin; by right)).
  destruct (fold_left repair_leak l _) as [r2 L2]. destruct IH as (H1 & H2 & H3 & H4).
  assert (∀ p, p ∈ l → p ≠ q) as Hne by (intros p ? ->; done).
  split_and!; [done|done| |].
  - intros p. rewrite H3, Hp1, elem_of_cons. destruct (decide (p = q)) as [->|Hpq].
    + destruct (grace L q); [set_solver|naive_solver].
    + assert (grace (<[q:=tick (L !! q)]> L) p = grace L p) as -> by (unfold grace; by rewrite lookup_insert_ne).
      destruct (grace L q); set_solver.
  - intros p. rewrite H4. destruct (decide (p = q)) as [->|Hpq].
    + rewrite decide_False, decide_True by (done || by left). by rewrite lookup_insert_eq.
    + rewrite lookup_insert_ne by done. destruct (decide (p ∈ l)), (decide (p ∈ q :: l)); set_solver.
Qed.

End repair.

(** ** Correctness *)

(** The ports of a bitmap of the range. *)
Definition bitmap_ports (pr : PortRange) (b : AllocationBitmap) : gset Z :=
  ports (mkPortAllocator pr b).

Definition bitmap_ok (pr : PortRange) (b : AllocationBitmap) : Prop :=
  bitmap_inv b ∧ rangeSpec b = PortRange_String pr ∧ Bitmap.max b = RangeSize pr.

Lemma NewFromSnapshot_spec pr b :
  port_range_ok pr → bitmap_ok pr b → NewFromSnapshot (Snapshot b) = Ok (mkPortAllocator pr b).
Proof.
  intros Hpr ([Hb1 Hb2 Hb3] & Hspec & Hmax). unfold NewFromSnapshot. simpl. rewrite Hspec.
  rewrite ParsePortRange_print by done. unfold pa_Restore. simpl. rewrite bool_decide_true by done. simpl.
  unfold Restore. simpl. rewrite bool_decide_true by done. simpl. unfold with_alloc. simpl.
  rewrite SetBytes_Bytes, countBits_spec by done.
  destruct b as [mx spec cnt al]. simpl in *. by subst.
Qed.

Lemma pa_spec_kept (r : PortAllocator AllocationBitmap) p :
  rangeSpec (PortAllocator.alloc (pa_Allocate r p).2) = rangeSpec (PortAllocator.alloc r).
Proof.
  unfold pa_Allocate. destruct (contains r p); [|done]. simpl. unfold Allocate. by destruct (Bit _ _).
Qed.

Lemma repair_ports_rangeSpec l st st' :
  repair_ports l st = Ok st' →
  rangeSpec (PortAllocator.alloc (rebuilt st')) = rangeSpec (PortAllocator.alloc (rebuilt st)).
Proof.
  revert st. induction l as [|p l IH]; intros st; cbn [repair_ports]; [by intros [= ->]|].
  unfold repair_port. pose proof (pa_spec_kept (rebuilt st) p) as Hk.
  destruct (pa_Allocate (rebuilt st) p) as [[[]|] r]; simpl in Hk; try done; intros ->%IH; done.
Qed.

Lemma repair_leaks_rangeSpec l r L :
  rangeSpec (PortAllocator.alloc (fold_left repair_leak l (r, L)).1) = rangeSpec (PortAllocator.alloc r).
Proof.
  revert r L. induction l as [|p l IH]; intros r L; simpl; [done|].
  destruct (_ || _); [|apply IH]. rewrite IH. apply pa_spec_kept.
Qed.

(** What a repair makes of the stored ports and of the counters, before it writes. *)
Lemma repair_rebuild_spec pr b L svcs :
  port_range_ok pr → bitmap_ok pr b →
  let U := used pr (flat_map collectServiceNodePorts svcs) in
  ∃ st, repair_ports (flat_map collectServiceNodePorts svcs)
          (mkRepair (NewPortAllocator pr) (mkPortAllocator pr b) L) = Ok st ∧
  let '(r, L') := fold_left repair_leak (pa_ForEach (old st)) (rebuilt st, leaks st) in
  bitmap_ok pr (PortAllocator.alloc r) ∧ portRange r = pr ∧
  (∀ p, p ∈ ports r ↔ p ∈ U ∨ p ∈ bitmap_ports pr b ∧ grace L p = true) ∧
  (∀ p, L' !! p = if decide (p ∈ U) then None
                  else if decide (p ∈ bitmap_ports pr b) then Some (tick (L !! p)) else L !! p).
Proof.
  intros Hpr (Hb & Hspec & Hmax) U.
  assert (seen pr (mkRepair (NewPortAllocator pr) (mkPortAllocator pr b) L) ∅ (bitmap_ports pr b) L) as Hs.
  { split; simpl; [split; [split; [apply NewAllocationMap_inv|done]|done]|done| | |done].
    - apply set_eq. intros p. rewrite elem_of_ports. simpl. rewrite elem_of_bits, Z.testbit_0_l by done. set_solver.
    - unfold bitmap_ports. set_solver. }
  destruct (repair_ports_spec pr (flat_map collectServiceNodePorts svcs) _ _ _ _ Hs) as (st & Hst & Hseen).
  exists st. split; [done|]. fold U in Hseen. rewrite union_empty_r_L in Hseen.
  pose proof (repair_ports_rangeSpec _ _ _ Hst) as Hrs. simpl in Hrs.
  destruct Hseen as [[Hrv Hrr] [Hov Hor] HU HO HL].
  assert (∀ p, p ∈ pa_ForEach (old st) ↔ p ∈ bitmap_ports pr b ∖ U) as Hfor.
  { intros p. rewrite <- HO, elem_of_ports. unfold pa_ForEach. rewrite list_elem_of_fmap. split.
    - intros (o & -> & Ho). rewrite law_ForEach in Ho by apply Hov.
      by replace (Base (portRange (old st)) + o - Base (portRange (old st))) with o by lia.
    - intros Ho. exists (p - Base (portRange (old st))). rewrite law_ForEach by apply Hov. split; [lia|done]. }
  pose proof (repair_leaks_spec pr (pa_ForEach (old st)) (rebuilt st) (leaks st)) as Hl.
  pose proof (repair_leaks_rangeSpec (pa_ForEach (old st)) (rebuilt st) (leaks st)) as Hls.
  destruct (fold_left repair_leak _ _) as [r L']. destruct Hl as (H1 & H2 & H3 & H4); try done.
  { unfold pa_ForEach. apply NoDup_fmap; [intros x y; lia|]. apply NoDup_ForEach, Hov. }
  { intros p Hp. apply Hfor in Hp. rewrite <- HO in Hp. apply ports_in_range in Hp; [|done]. by rewrite Hor in Hp. }
  simpl in Hls. split; [split_and!; [apply H1|congruence|]|].
  { destruct H1 as [_ Hsz]. rewrite <- H2. exact Hsz. }
  split; [done|]. assert (∀ p, p ∉ U → grace (leaks st) p = grace L p) as Hgr.
  { intros p Hp. unfold grace. by rewrite HL, decide_False. }
  split.
  - intros p. rewrite H3, HU, Hfor, elem_of_difference. destruct (decide (p ∈ U)) as [|Hp]; [tauto|].
    rewrite Hgr by done. tauto.
  - intros p. rewrite H4, HL. destruct (decide (p ∈ U)) as [Hp|Hp].
    + rewrite decide_False; [done|]. rewrite Hfor, elem_of_difference. tauto.
    + apply decide_ext. rewrite Hfor, elem_of_difference. tauto.
Qed.

Lemma runOnce_spec (pr : PortRange) (rev v version : Z) (L : gmap Z Z) (e : Etcd AllocationBitmap)
    (b : AllocationBitmap) (contents : string * list Z) (svcs : list Service) :
  port_range_ok pr → bitmap_ok pr b → rangeSpec (alloc e) = PortRange_String pr →
  let U := used pr (flat_map collectServiceNodePorts svcs) in
  let O := bitmap_ports pr b in
  let '(err, L', e', s') := runOnce pr rev L e (Some (v, Snapshot b)) (Some (version, contents)) (Some svcs) in
  (∀ p, L' !! p = if decide (p ∈ U) then None
                  else if decide (p ∈ O) then Some (tick (L !! p)) else L !! p) ∧
  rangeSpec (alloc e') = PortRange_String pr ∧
  if decide (version = v) then
    err = None ∧ ∃ v' b', s' = Some (v', Snapshot b') ∧ bitmap_ok pr b' ∧
      ∀ p, p ∈ bitmap_ports pr b' ↔ p ∈ U ∨ p ∈ O ∧ grace L p = true
  else err = Some ErrConflict ∧ s' = Some (version, contents).
Proof.
  intros Hpr Hb Hspec U O. pose proof (repair_rebuild_spec pr b L svcs Hpr Hb) as (st & Hst & Hreb).
  fold U O in Hreb. unfold runOnce. simpl. rewrite bool_decide_false.
  2:{ destruct Hb as (_ & -> & _). unfold PortRange_String. destruct Hpr as (? & ? & ?).
      destruct (Z.eqb_spec (RangeSize pr) 0); [lia|]. intros E. apply (Itoa_nonempty (Base pr)); [done|].
      by destruct (Itoa (Base pr)). }
  change (rangeSpec b, Bytes (allocated b)) with (Snapshot b). rewrite (NewFromSnapshot_spec pr b) by done.
  rewrite Hst. destruct (fold_left repair_leak _ _) as [r L']. destruct Hreb as (Hok & Hrange & Hports & HL).
  pose proof Hok as (Hbi & Hrs & _).
  unfold CreateOrUpdate. simpl. destruct (Z.eqb_spec v version) as [->|Hne]; simpl.
  2:{ split; [done|]. split; [done|]. rewrite decide_False by done. done. }
  unfold Restore. simpl. rewrite Hspec, Hrs, bool_decide_true by done. simpl.
  split; [done|]. split; [done|]. rewrite decide_True by done. split; [done|].
  assert (∀ p, p ∈ bitmap_ports pr (PortAllocator.alloc r) ↔ p ∈ ports r) as Hp.
  { intros p. unfold bitmap_ports. rewrite !elem_of_ports. simpl. by rewrite Hrange. }
  assert (pa_Snapshot r = Snapshot (PortAllocator.alloc r)) as Hsn by done.
  case_bool_decide as Ec.
  - exists version, (PortAllocator.alloc r). split; [by injection Ec as ->|]. split; [done|].
    intros p. by rewrite Hp.
  - exists rev, (PortAllocator.alloc r). split; [done|]. split; [done|]. intros p. by rewrite Hp.
Qed.

(** One pass of the repair. When nobody wrote in between, it succeeds and stores
    exactly the ports that services use within the range, each once however many
    services use it, and those stored ports that no service uses and whose counter
    has not run out; when somebody wrote, it reports a conflict and leaves the store
    alone. A port in use loses its counter, an unused stored port has it set to one
    or decreased, in both cases. *)
Theorem runOnce_repairs (pr : PortRange) (rev v version : Z) (L : gmap Z Z) (e : Etcd AllocationBitmap)
    (b : AllocationBitmap) (contents : string * list Z) (svcs : list Service) :
  port_range_ok pr → bitmap_ok pr b → rangeSpec (alloc e) = PortRange_String pr →
  let U := used pr (flat_map collectServiceNodePorts svcs) in
  let O := bitmap_ports pr b in
  let '(err, L', e', s') := runOnce pr rev L e (Some (v, Snapshot b)) (Some (version, contents)) (Some svcs) in
  (∀ p, L' !! p = if decide (p ∈ U) then None
                  else if decide (p ∈ O) then Some (tick (L !! p)) else L !! p) ∧
  rangeSpec (alloc e') = PortRange_String pr ∧
  if decide (version = v) then
    err = None ∧ ∃ v' b', s' = Some (v', Snapshot b') ∧ bitmap_ok pr b' ∧
      ∀ p, p ∈ bitmap_ports pr b' ↔ p ∈ U ∨ p ∈ O ∧ grace L p = true
  else err = Some ErrConflict ∧ s' = Some (version, contents).
Proof. apply runOnce_spec. Qed.

Definition ex_range : PortRange := mkPortRange 30000 100.
Definition ex_stored : AllocationBitmap :=
  (Allocate (Allocate (NewAllocationMap 100 "30000-30099") 7).2 9).2.
Definition ex_etcd : Etcd AllocationBitmap := mkEtcd (NewAllocationMap 100 "30000-30099") None.

Lemma ex_range_ok : port_range_ok ex_range.
Proof. split; simpl; lia. Qed.

Lemma ex_stored_ok : bitmap_ok ex_range ex_stored.
Proof.
  split; [|done]. assert (bitmap_inv (NewAllocationMap 100 "30000-30099")) as H by apply NewAllocationMap_inv.
  pose proof (Allocate_refines _ 7 H ltac:(simpl; lia)) as H1. unfold ex_stored.
  destruct (Allocate (NewAllocationMap 100 "30000-30099") 7) as [ok a] eqn:E. destruct H1 as (H1 & Hs & _). simpl.
  pose proof (Allocate_refines a 9 H1) as H2. destruct (Allocate a 9) as [ok' a']. simpl. apply H2.
  rewrite Hs. simpl. lia.
Qed.

Lemma runOnce_repairs_witness :
  let '(err, L', _, s') := runOnce ex_range 6 ∅ ex_etcd (Some (5, Snapshot ex_stored))
    (Some (5, Snapshot ex_stored)) (Some [mkService [30007; 0; 30007] 30050]) in
  err = None ∧ L' !! 30009 = Some 1 ∧ ∃ v' b', s' = Some (v', Snapshot b') ∧ bitmap_ok ex_range b'.
Proof.
  pose proof (runOnce_repairs ex_range 6 5 5 ∅ ex_etcd ex_stored (Snapshot ex_stored)
    [mkService [30007; 0; 30007] 30050] ex_range_ok ex_stored_ok eq_refl) as H.
  assert ((runOnce ex_range 6 ∅ ex_etcd (Some (5, Snapshot ex_stored))
    (Some (5, Snapshot ex_stored)) (Some [mkService [30007; 0; 30007] 30050])).1.1.2 !! 30009 = Some 1) as HL
    by (vm_compute; reflexivity).
  destruct (runOnce _ _ _ _ _ _ _) as [[[err L'] e'] s']. simpl in HL.
  destruct H as (_ & _ & H & v' & b' & Hs & Hb & _). split; [exact H|]. split; [exact HL|].
  exists v', b'. split; [exact Hs|exact Hb].
Defined.

(** The counters are also decreased by passes that end in a conflict, so the
    passes within one [RunOnce] use up the three passes a leak should survive: an
    unused port that was never flagged before is freed by a single [RunOnce] whose
    first two attempts meet a conflict. Its counter stays at zero, so that the next
    time the port is allocated and not yet in a service it is freed at once. *)
Theorem RunOnce_counts_retries (pr : PortRange) (rev p : Z) (L : gmap Z Z) (e : Etcd AllocationBitmap)
    (b : AllocationBitmap) (svcs : list Service) (s : store) :
  port_range_ok pr → bitmap_ok pr b → rangeSpec (alloc e) = PortRange_String pr →
  p ∈ bitmap_ports pr b → p ∉ used pr (flat_map collectServiceNodePorts svcs) → L !! p = None →
  let at_version v := Some (v, Snapshot b) in
  let ms i := match i with
              | 3%nat => mkMeets (at_version 1) (at_version 2) (Some svcs) rev
              | 2%nat => mkMeets (at_version 2) (at_version 3) (Some svcs) rev
              | _ => mkMeets (at_version 3) (at_version 3) (Some svcs) rev
              end in
  ∃ L' e' v' b', RunOnce pr ms L e s = (None, L', e', Some (v', Snapshot b')) ∧
    p ∉ bitmap_ports pr b' ∧ L' !! p = Some 0 ∧ grace L' p = false.
Proof.
  intros Hpr Hb He Hp Hu HL at_version ms. unfold RunOnce. cbn [retry_on_conflict ms at_read at_write listed revision].
  pose proof (runOnce_spec pr rev 1 2 L e b (Snapshot b) svcs Hpr Hb He) as H1. unfold at_version.
  destruct (runOnce pr rev L e _ _ _) as [[[err1 L1] e1] s1]. destruct H1 as (HL1 & He1 & ? & ?). subst err1 s1.
  pose proof (runOnce_spec pr rev 2 3 L1 e1 b (Snapshot b) svcs Hpr Hb He1) as H2.
  destruct (runOnce pr rev L1 e1 _ _ _) as [[[err2 L2] e2] s2]. destruct H2 as (HL2 & He2 & ? & ?). subst err2 s2.
  pose proof (runOnce_spec pr rev 3 3 L2 e2 b (Snapshot b) svcs Hpr Hb He2) as H3.
  destruct (runOnce pr rev L2 e2 _ _ _) as [[[err3 L3] e3] s3].
  destruct H3 as (HL3 & He3 & ? & v' & b' & -> & _ & Hports). subst err3.
  assert (L1 !! p = Some 1) as E1 by (by rewrite HL1, decide_False, decide_True, HL).
  assert (L2 !! p = Some 0) as E2 by (by rewrite HL2, decide_False, decide_True, E1).
  assert (L3 !! p = Some 0) as E3 by (by rewrite HL3, decide_False, decide_True, E2).
  exists L3, e3, v', b'. split; [done|]. split; [|split; [done|unfold grace; by rewrite E3]].
  rewrite Hports. unfold grace. rewrite E2. naive_solver.
Qed.

Lemma RunOnce_counts_retries_witness :
  ∃ L' e' v' b',
    RunOnce ex_range (λ i, match i with
              | 3%nat => mkMeets (Some (1, Snapshot ex_stored)) (Some (2, Snapshot ex_stored)) (Some []) 8
              | 2%nat => mkMeets (Some (2, Snapshot ex_stored)) (Some (3, Snapshot ex_stored)) (Some []) 8
              | _ => mkMeets (Some (3, Snapshot ex_stored)) (Some (3, Snapshot ex_stored)) (Some []) 8
              end) ∅ ex_etcd None = (None, L', e', Some (v', Snapshot b')) ∧
    30007 ∉ bitmap_ports ex_range b' ∧ L' !! 30007 = Some 0 ∧ grace L' 30007 = false.
Proof.
  apply (RunOnce_counts_retries ex_range 8 30007 ∅ ex_etcd ex_stored [] None);
    [exact ex_range_ok|exact ex_stored_ok|reflexivity| |apply not_elem_of_empty|reflexivity].
  unfold bitmap_ports. apply elem_of_ports. simpl. apply elem_of_bits; [done|reflexivity].
Defined.

(** Parsing a printed port range gives the range back. *)
Theorem ParsePortRange_String (pr : PortRange) :
  port_range_ok pr → ParsePortRange (PortRange_String pr) = Ok pr.
Proof. apply ParsePortRange_print. Qed.

Lemma ParsePortRange_String_witness : ParsePortRange "30000-32767" = Ok (mkPortRange 30000 2768).
Proof. apply (ParsePortRange_String (mkPortRange 30000 2768)). split; simpl; lia. Defined.
