(* ===== verification/Store.v ===== *)
(** * The indexed store of client-go

    [staging/src/k8s.io/client-go/tools/cache]: [thread_safe_store.go],
    [index.go] and [store.go]. Each method of the thread-safe map runs under its
    lock and is one function. A stored object is not nil, as for the key functions
    of the clients. A Go panic is an error value; the state it leaves is not used. *)

From S2P Require Import Prelude GoStrings GoStrconv.

(** Functions and maps of the interface, as notations that keep them visible. *)
Notation IndexFunc O := (O → result string (list string)).
Notation Index := (gmap string (gset string)).
Notation Indices := (gmap string Index).
Notation Indexers O := (gmap string (IndexFunc O)).

Section store.
Context {O : Type}.
Local Notation IndexFunc := (IndexFunc O).
Local Notation Indexers := (Indexers O).

Record threadSafeMap : Type := mkStore {
  items : gmap string O;
  indexers : Indexers;
  indices : Indices;
}.

Inductive StoreError : Type :=
  | IndexPanic (key name err : string)
  | NoIndex (indexName : string)
  | IndexError (err : string)
  | RunningIndex
  | IndexerConflict (names : list string)
  | KeyError (obj : O) (err : string).

Definition NewThreadSafeStore (indexers : Indexers) (indices : Indices) : threadSafeMap :=
  mkStore ∅ indexers indices.

(** ** Indices *)

(** [set.Insert(key)] on the set of an index value, which is made when missing. *)
Definition insert_value (key : string) (index : Index) (indexValue : string) : Index :=
  <[indexValue := {[key]} ∪ default ∅ (index !! indexValue)]> index.

(** [set.Delete(key)] when the set is there. *)
Definition delete_value (key : string) (index : Index) (indexValue : string) : Index :=
  match index !! indexValue with
  | Some set => <[indexValue := set ∖ {[key]}]> index
  | None => index
  end.

(** The loop of [deleteFromIndices] over the indexers. *)
Fixpoint delete_each (fs : list (string * IndexFunc)) (obj : O) (key : string)
    (indices : Indices) : result StoreError Indices :=
  match fs with
  | [] => Ok indices
  | (name, indexFunc) :: fs =>
      match indexFunc obj with
      | Err e => Err (IndexPanic key name e)
      | Ok indexValues =>
          match indices !! name with
          | None => delete_each fs obj key indices
          | Some index =>
              delete_each fs obj key
                (<[name := fold_left (delete_value key) indexValues index]> indices)
          end
      end
  end.

Definition deleteFromIndices (c : threadSafeMap) (obj : O) (key : string) :
    result StoreError Indices :=
  delete_each (map_to_list (indexers c)) obj key (indices c).

(** The loop of [updateIndices] over the indexers. *)
Fixpoint update_each (fs : list (string * IndexFunc)) (newObj : O) (key : string)
    (indices : Indices) : result StoreError Indices :=
  match fs with
  | [] => Ok indices
  | (name, indexFunc) :: fs =>
      match indexFunc newObj with
      | Err e => Err (IndexPanic key name e)
      | Ok indexValues =>
          let index := default ∅ (indices !! name) in
          update_each fs newObj key
            (<[name := fold_left (insert_value key) indexValues index]> indices)
      end
  end.

Definition updateIndices (c : threadSafeMap) (oldObj : option O) (newObj : O) (key : string) :
    result StoreError Indices :=
  match
    match oldObj with
    | Some oldObj => deleteFromIndices c oldObj key
    | None => Ok (indices c)
    end
  with
  | Err e => Err e
  | Ok indices => update_each (map_to_list (indexers c)) newObj key indices
  end.

(** ** Operations *)

Definition Add (c : threadSafeMap) (key : string) (obj : O) : result StoreError threadSafeMap :=
  let oldObject := items c !! key in
  match updateIndices c oldObject obj key with
  | Ok indices => Ok (mkStore (<[key := obj]> (items c)) (indexers c) indices)
  | Err e => Err e
  end.

Definition Update (c : threadSafeMap) (key : string) (obj : O) :
    result StoreError threadSafeMap :=
  let oldObject := items c !! key in
  match updateIndices c oldObject obj key with
  | Ok indices => Ok (mkStore (<[key := obj]> (items c)) (indexers c) indices)
  | Err e => Err e
  end.

Definition Delete (c : threadSafeMap) (key : string) : result StoreError threadSafeMap :=
  match items c !! key with
  | Some obj =>
      match deleteFromIndices c obj key with
      | Ok indices => Ok (mkStore (delete key (items c)) (indexers c) indices)
      | Err e => Err e
      end
  | None => Ok c
  end.

Definition Get (c : threadSafeMap) (key : string) : option O := items c !! key.

Definition List (c : threadSafeMap) : list O := (map_to_list (items c)).*2.

Definition ListKeys (c : threadSafeMap) : list string := (map_to_list (items c)).*1.

(** The loop of [Replace] that rebuilds the indices. *)
Fixpoint rebuild (c : threadSafeMap) (l : list (string * O)) : result StoreError threadSafeMap :=
  match l with
  | [] => Ok c
  | (key, item) :: l =>
      match updateIndices c None item key with
      | Ok indices => rebuild (mkStore (items c) (indexers c) indices) l
      | Err e => Err e
      end
  end.

Definition Replace (c : threadSafeMap) (newItems : gmap string O) :
    result StoreError threadSafeMap :=
  rebuild (mkStore newItems (indexers c) ∅) (map_to_list newItems).

(** The set [c.indices[indexName][indexKey]], empty when either is missing. *)
Definition index_set (indices : Indices) (indexName indexKey : string) : gset string :=
  default ∅ (default ∅ (indices !! indexName) !! indexKey).

(** [set.List()]: the keys in order. *)
Definition set_List (set : gset string) : list string := merge_sort String.le (elements set).

(** [Index]; a missing item is a nil, [None], of the list. *)
Definition IndexOf (c : threadSafeMap) (indexName : string) (obj : O) :
    result StoreError (list (option O)) :=
  match indexers c !! indexName with
  | None => Err (NoIndex indexName)
  | Some indexFunc =>
      match indexFunc obj with
      | Err e => Err (IndexError e)
      | Ok indexKeys =>
          let returnKeySet :=
            fold_left (λ acc indexKey, index_set (indices c) indexName indexKey ∪ acc)
              indexKeys (∅ : gset string) in
          Ok ((λ absoluteKey, items c !! absoluteKey) <$> elements returnKeySet)
      end
  end.

Definition ByIndex (c : threadSafeMap) (indexName indexKey : string) :
    result StoreError (list (option O)) :=
  match indexers c !! indexName with
  | None => Err (NoIndex indexName)
  | Some _ =>
      Ok ((λ key, items c !! key) <$> set_List (index_set (indices c) indexName indexKey))
  end.

Definition IndexKeys (c : threadSafeMap) (indexName indexKey : string) :
    result StoreError (list string) :=
  match indexers c !! indexName with
  | None => Err (NoIndex indexName)
  | Some _ => Ok (set_List (index_set (indices c) indexName indexKey))
  end.

Definition ListIndexFuncValues (c : threadSafeMap) (indexName : string) : list string :=
  (map_to_list (default ∅ (indices c !! indexName))).*1.

Definition AddIndexers (c : threadSafeMap) (newIndexers : Indexers) :
    result StoreError threadSafeMap :=
  if negb (bool_decide (size (items c) = 0%nat)) then Err RunningIndex
  else
    let oldKeys : gset string := dom (indexers c) in
    let newKeys : gset string := dom newIndexers in
    if existsb (λ k, bool_decide (k ∈ oldKeys)) (set_List newKeys) then
      Err (IndexerConflict (set_List (oldKeys ∩ newKeys)))
    else Ok (mkStore (items c) (newIndexers ∪ indexers c) (indices c)).

(** ** The cache ([store.go]) *)

Definition KeyFunc : Type := O → result string string.

Record cache : Type := mkCache {
  cacheStorage : threadSafeMap;
  keyFunc : KeyFunc;
}.

Definition set_storage (c : cache) (r : result StoreError threadSafeMap) :
    result StoreError cache :=
  match r with Ok s => Ok (mkCache s (keyFunc c)) | Err e => Err e end.

Definition cache_Add (c : cache) (obj : O) : result StoreError cache :=
  match keyFunc c obj with
  | Err e => Err (KeyError obj e)
  | Ok key => set_storage c (Add (cacheStorage c) key obj)
  end.

Definition cache_Update (c : cache) (obj : O) : result StoreError cache :=
  match keyFunc c obj with
  | Err e => Err (KeyError obj e)
  | Ok key => set_storage c (Update (cacheStorage c) key obj)
  end.

Definition cache_Delete (c : cache) (obj : O) : result StoreError cache :=
  match keyFunc c obj with
  | Err e => Err (KeyError obj e)
  | Ok key => set_storage c (Delete (cacheStorage c) key)
  end.

Definition GetByKey (c : cache) (key : string) : option O := Get (cacheStorage c) key.

Definition cache_Get (c : cache) (obj : O) : result StoreError (option O) :=
  match keyFunc c obj with
  | Err e => Err (KeyError obj e)
  | Ok key => Ok (GetByKey c key)
  end.

(** The loop of [Replace] that keys the new objects. *)
Fixpoint key_items (c : cache) (l : list O) (newItems : gmap string O) :
    result StoreError (gmap string O) :=
  match l with
  | [] => Ok newItems
  | item :: l =>
      match keyFunc c item with
      | Err e => Err (KeyError item e)
      | Ok key => key_items c l (<[key := item]> newItems)
      end
  end.

Definition cache_Replace (c : cache) (l : list O) : result StoreError cache :=
  match key_items c l ∅ with
  | Err e => Err e
  | Ok newItems => set_storage c (Replace (cacheStorage c) newItems)
  end.

Definition NewStore (keyFunc : KeyFunc) : cache := mkCache (NewThreadSafeStore ∅ ∅) keyFunc.

Definition NewIndexer (keyFunc : KeyFunc) (indexers : Indexers) : cache :=
  mkCache (NewThreadSafeStore indexers ∅) keyFunc.

(** [IndexFuncToKeyFuncAdapter] *)
Definition IndexFuncToKeyFuncAdapter (indexFunc : IndexFunc) : KeyFunc :=
  λ obj,
    match indexFunc obj with
    | Err e => Err e
    | Ok indexKeys =>
        if 1 <? Z.of_nat (length indexKeys) then Err "too many keys"
        else match indexKeys with
             | [] => Err "unexpected empty indexKeys"
             | key :: _ => Ok key
             end
    end.
End store.
Arguments threadSafeMap : clear implicits.
Arguments StoreError : clear implicits.
Arguments cache : clear implicits.
Arguments KeyFunc : clear implicits.

(** ** Keys of API objects *)

(** An object is an explicit key, has metadata, or has none (the error of
    [meta.Accessor]). *)
Inductive metaObject : Type :=
  | ExplicitKey (key : string)
  | WithMeta (namespace name : string)
  | WithoutMeta (err : string).

Definition MetaNamespaceKeyFunc : KeyFunc metaObject :=
  λ obj,
    match obj with
    | ExplicitKey key => Ok key
    | WithoutMeta err => Err ("object has no meta: " +:+ err)
    | WithMeta namespace name =>
        if 0 <? slen namespace then Ok (namespace +:+ "/" +:+ name) else Ok name
    end.

Definition SplitMetaNamespaceKey (key : string) : result string (string * string) :=
  match Split key "/" with
  | [name] => Ok ("", name)
  | [namespace; name] => Ok (namespace, name)
  | _ => Err ("unexpected key format: " +:+ key)
  end.

Definition NamespaceIndex : string := "namespace".

Definition MetaNamespaceIndexFunc : IndexFunc metaObject :=
  λ obj,
    match obj with
    | WithMeta namespace _ => Ok [namespace]
    | ExplicitKey _ => Err "object has no meta"
    | WithoutMeta err => Err ("object has no meta: " +:+ err)
    end.

(** ** Lemmas *)

Section indices.
Context {O : Type}.
Implicit Types (c : threadSafeMap O) (obj : O).

(** The values of an index function on an object. *)
Definition values (f : IndexFunc O) (obj : O) : list string :=
  match f obj with Ok vs => vs | Err _ => [] end.

Lemma insert_values_spec key vs (index : Index) v k :
  k ∈ default ∅ (fold_left (insert_value key) vs index !! v) ↔
  k ∈ default ∅ (index !! v) ∨ (k = key ∧ v ∈ vs).
Proof.
  revert index. induction vs as [|w vs IH]; intros index; simpl; [set_solver|].
  rewrite IH. unfold insert_value. destruct (decide (w = v)) as [->|Hne].
  - rewrite lookup_insert_eq. simpl. set_solver.
  - rewrite lookup_insert_ne by done. set_solver.
Qed.

Lemma delete_values_spec key vs (index : Index) v k :
  k ∈ default ∅ (fold_left (delete_value key) vs index !! v) ↔
  k ∈ default ∅ (index !! v) ∧ ¬ (k = key ∧ v ∈ vs).
Proof.
  revert index. induction vs as [|w vs IH]; intros index; simpl; [set_solver|].
  rewrite IH. unfold delete_value. destruct (index !! w) as [s|] eqn:Ew.
  - destruct (decide (w = v)) as [->|Hne].
    + rewrite lookup_insert_eq, Ew. simpl. set_solver.
    + rewrite lookup_insert_ne by done. set_solver.
  - destruct (decide (w = v)) as [->|Hne]; [|set_solver]. rewrite Ew. simpl. set_solver.
Qed.

Lemma index_set_insert (ind : Indices) name index name' v :
  index_set (<[name := index]> ind) name' v =
  if decide (name = name') then default ∅ (index !! v) else index_set ind name' v.
Proof.
  unfold index_set. case_decide as Hn.
  - subst. by rewrite lookup_insert_eq.
  - by rewrite lookup_insert_ne.
Qed.

(** The entries that a list of indexers makes for an object. *)
Definition entry (fs : list (string * IndexFunc O)) obj (name v : string) : Prop :=
  ∃ f, (name, f) ∈ fs ∧ v ∈ values f obj.

Lemma entry_cons nf fs obj name v :
  entry (nf :: fs) obj name v ↔
  (nf.1 = name ∧ v ∈ values nf.2 obj) ∨ entry fs obj name v.
Proof.
  unfold entry. setoid_rewrite elem_of_cons. destruct nf as [n f]; simpl. naive_solver.
Qed.

Lemma update_each_spec fs obj key (ind ind' : Indices) :
  update_each fs obj key ind = Ok ind' →
  ∀ name v k, k ∈ index_set ind' name v ↔
    k ∈ index_set ind name v ∨ (k = key ∧ entry fs obj name v).
Proof.
  revert ind. induction fs as [|[n f] fs IH]; intros ind; simpl.
  { intros [= <-] name v k. unfold entry. set_solver. }
  destruct (f obj) as [vs|e] eqn:Ef; [|done]. intros Hok name v k.
  rewrite (IH _ Hok), entry_cons, index_set_insert. simpl. unfold values at 1. rewrite Ef.
  case_decide as Hn; [subst|naive_solver].
  rewrite insert_values_spec. change (default ∅ (default ∅ (ind !! name) !! v))
    with (index_set ind name v). naive_solver.
Qed.

Lemma delete_each_spec fs obj key (ind ind' : Indices) :
  delete_each fs obj key ind = Ok ind' →
  ∀ name v k, k ∈ index_set ind' name v ↔
    k ∈ index_set ind name v ∧ ¬ (k = key ∧ entry fs obj name v).
Proof.
  revert ind. induction fs as [|[n f] fs IH]; intros ind; simpl.
  { intros [= <-] name v k. unfold entry. set_solver. }
  destruct (f obj) as [vs|e] eqn:Ef; [|done].
  destruct (ind !! n) as [index|] eqn:En; intros Hok name v k;
    rewrite (IH _ Hok), entry_cons; simpl; unfold values at 1; rewrite Ef.
  - rewrite index_set_insert. case_decide as Hn; [subst|naive_solver].
    rewrite delete_values_spec. unfold index_set. rewrite En. simpl. naive_solver.
  - destruct (decide (n = name)) as [->|]; [|naive_solver].
    unfold index_set. rewrite En. simpl. set_solver.
Qed.

(** Index functions that succeed on every object never make the store panic. *)
Definition total_indexers (ixs : Indexers O) : Prop :=
  map_Forall (λ _ f, ∀ obj, ∃ vs, f obj = Ok vs) ixs.

Definition total_list (fs : list (string * IndexFunc O)) : Prop :=
  ∀ name f obj, (name, f) ∈ fs → ∃ vs, f obj = Ok vs.

Lemma total_indexers_list ixs : total_indexers ixs → total_list (map_to_list ixs).
Proof. intros Ht name f obj Hin%elem_of_map_to_list. exact (Ht name f Hin obj). Qed.

Lemma update_each_total fs obj key ind :
  total_list fs → ∃ ind', update_each fs obj key ind = Ok ind'.
Proof.
  revert ind. induction fs as [|[n f] fs IH]; intros ind Ht; simpl; [eauto|].
  destruct (Ht n f obj ltac:(left)) as [vs ->]. apply IH.
  intros n' f' obj' Hin. apply (Ht n'). by right.
Qed.

Lemma delete_each_total fs obj key ind :
  total_list fs → ∃ ind', delete_each fs obj key ind = Ok ind'.
Proof.
  revert ind. induction fs as [|[n f] fs IH]; intros ind Ht; simpl; [eauto|].
  destruct (Ht n f obj ltac:(left)) as [vs ->].
  assert (total_list fs) by (intros n' f' obj' Hin; apply (Ht n'); by right).
  destruct (ind !! n); by apply IH.
Qed.

(** ** The invariant: an index holds exactly the keys of the objects that have
    its value. *)
Definition indexed c : Prop :=
  ∀ name v k, k ∈ index_set (indices c) name v ↔
    ∃ obj, items c !! k = Some obj ∧ entry (map_to_list (indexers c)) obj name v.

Lemma deleteFromIndices_spec c obj key ind :
  indexed c → items c !! key = Some obj → deleteFromIndices c obj key = Ok ind →
  ∀ name v k, k ∈ index_set ind name v ↔
    ∃ obj, delete key (items c) !! k = Some obj ∧ entry (map_to_list (indexers c)) obj name v.
Proof.
  intros Hinv Hkey Hd name v k. rewrite (delete_each_spec _ _ _ _ _ Hd), (Hinv name v k).
  destruct (decide (k = key)) as [->|Hne].
  - rewrite lookup_delete_eq. naive_solver.
  - rewrite lookup_delete_ne by done. naive_solver.
Qed.

Lemma updateIndices_spec c obj key ind :
  indexed c → updateIndices c (items c !! key) obj key = Ok ind →
  indexed (mkStore (<[key := obj]> (items c)) (indexers c) ind).
Proof.
  intros Hinv Hu name v k. simpl. unfold updateIndices in Hu.
  assert (∃ ind1, update_each (map_to_list (indexers c)) obj key ind1 = Ok ind ∧
    ∀ name v k, k ∈ index_set ind1 name v ↔
      ∃ obj, delete key (items c) !! k = Some obj ∧ entry (map_to_list (indexers c)) obj name v)
    as (ind1 & Hok & H1).
  { destruct (items c !! key) as [old|] eqn:Ekey.
    - destruct (deleteFromIndices c old key) as [ind1|] eqn:Ed; [|done].
      exists ind1. split; [done|]. by apply (deleteFromIndices_spec c old).
    - exists (indices c). split; [done|]. intros name' v' k'. rewrite (Hinv name' v' k').
      by rewrite delete_id. }
  rewrite (update_each_spec _ _ _ _ _ Hok), H1. destruct (decide (k = key)) as [->|Hne].
  - rewrite lookup_insert_eq, lookup_delete_eq. naive_solver.
  - rewrite lookup_insert_ne, lookup_delete_ne by done. naive_solver.
Qed.

Lemma Add_indexed c c' key obj :
  indexed c → Add c key obj = Ok c' →
  indexed c' ∧ items c' = <[key := obj]> (items c) ∧ indexers c' = indexers c.
Proof.
  unfold Add. intros Hinv Hadd. go_case_in Hadd. by eauto using updateIndices_spec.
Qed.

Lemma Delete_indexed c c' key :
  indexed c → Delete c key = Ok c' →
  indexed c' ∧ items c' = delete key (items c) ∧ indexers c' = indexers c.
Proof.
  unfold Delete. intros Hinv Hd. destruct (items c !! key) as [obj|] eqn:Ekey.
  - destruct (deleteFromIndices c obj key) as [ind|] eqn:Ed; simplify_eq/=.
    split; [|done]. intros name v k. by apply (deleteFromIndices_spec c obj).
  - simplify_eq. by rewrite delete_id.
Qed.

Lemma rebuild_spec c c' l :
  rebuild c l = Ok c' →
  items c' = items c ∧ indexers c' = indexers c ∧
  ∀ name v k, k ∈ index_set (indices c') name v ↔ k ∈ index_set (indices c) name v ∨
    ∃ obj, (k, obj) ∈ l ∧ entry (map_to_list (indexers c)) obj name v.
Proof.
  revert c. induction l as [|[key item] l IH]; intros c; simpl.
  { intros [= <-]. set_solver. }
  unfold updateIndices. destruct (update_each _ _ _ _) as [ind|] eqn:Eu; [|done].
  intros Hok. apply IH in Hok as (-> & -> & Hset). simpl in *. split_and!; [done..|].
  intros name v k. rewrite Hset, (update_each_spec _ _ _ _ _ Eu).
  setoid_rewrite elem_of_cons. naive_solver.
Qed.

Lemma Replace_indexed c c' new :
  Replace c new = Ok c' → indexed c' ∧ items c' = new ∧ indexers c' = indexers c.
Proof.
  unfold Replace. intros (Hi & Hx & Hset)%rebuild_spec. simpl in *. split_and!; [|done..].
  intros name v k. rewrite Hset, Hi, Hx. setoid_rewrite elem_of_map_to_list.
  unfold index_set. rewrite lookup_empty. simpl. rewrite lookup_empty. set_solver.
Qed.

Lemma AddIndexers_indexed c c' new :
  indexed c → AddIndexers c new = Ok c' →
  indexed c' ∧ items c' = ∅ ∧ items c = ∅ ∧ dom (indexers c) ∩ dom new =@{gset string} ∅ ∧
  indexers c' = new ∪ indexers c.
Proof.
  unfold AddIndexers. intros Hinv Ha. destruct (bool_decide _) eqn:Es; simplify_eq/=.
  apply bool_decide_eq_true, map_size_empty_iff in Es.
  destruct (existsb _ _) eqn:Ee; simplify_eq/=. rewrite Es. split_and!; [|done..| |done].
  - intros name v k. simpl. rewrite (Hinv name v k), Es. setoid_rewrite lookup_empty. naive_solver.
  - apply disjoint_intersection_L. intros x Hx Hy. enough (existsb (λ k, bool_decide (k ∈ dom (indexers c)))
      (set_List (dom new)) = true) by congruence.
    apply existsb_elem. exists x. rewrite bool_decide_eq_true. split; [|done].
    unfold set_List. by rewrite merge_sort_Permutation, elem_of_elements.
Qed.

Lemma New_indexed ixs : indexed (NewThreadSafeStore ixs ∅).
Proof.
  intros name v k. simpl. unfold index_set. rewrite lookup_empty. simpl.
  rewrite lookup_empty. setoid_rewrite lookup_empty. set_solver.
Qed.

Lemma updateIndices_total c old obj key :
  total_indexers (indexers c) → ∃ ind, updateIndices c old obj key = Ok ind.
Proof.
  intros Ht%total_indexers_list. unfold updateIndices, deleteFromIndices.
  destruct old as [old|].
  - destruct (delete_each_total _ old key (indices c) Ht) as [ind ->].
    by apply update_each_total.
  - by apply update_each_total.
Qed.

Lemma rebuild_total c l : total_indexers (indexers c) → ∃ c', rebuild c l = Ok c'.
Proof.
  revert c. induction l as [|[key item] l IH]; intros c Ht; simpl; [eauto|].
  destruct (updateIndices_total c None item key Ht) as [ind ->]. by apply IH.
Qed.
End indices.

(** ** Runs of the store and their specification *)

Section runs.
Context {O : Type}.

Inductive call : Type :=
  | CallAdd (key : string) (obj : O)
  | CallUpdate (key : string) (obj : O)
  | CallDelete (key : string)
  | CallReplace (newItems : gmap string O)
  | CallAddIndexers (newIndexers : Indexers O).

(** One call; the error of [AddIndexers] is returned to the caller and changes
    nothing. *)
Definition do_call (c : threadSafeMap O) (x : call) : result (StoreError O) (threadSafeMap O) :=
  match x with
  | CallAdd key obj => Add c key obj
  | CallUpdate key obj => Update c key obj
  | CallDelete key => Delete c key
  | CallReplace newItems => Replace c newItems
  | CallAddIndexers newIndexers =>
      match AddIndexers c newIndexers with Ok c => Ok c | Err _ => Ok c end
  end.

Fixpoint run (c : threadSafeMap O) (calls : list call) :
    result (StoreError O) (threadSafeMap O) :=
  match calls with
  | [] => Ok c
  | x :: calls => match do_call c x with Ok c => run c calls | Err e => Err e end
  end.

(** The specification: a map of objects and a map of index functions. *)
Definition spec_call (s : gmap string O * Indexers O) (x : call) : gmap string O * Indexers O :=
  match x with
  | CallAdd key obj | CallUpdate key obj => (<[key := obj]> s.1, s.2)
  | CallDelete key => (delete key s.1, s.2)
  | CallReplace newItems => (newItems, s.2)
  | CallAddIndexers new =>
      if bool_decide (s.1 = ∅ ∧ dom s.2 ∩ dom new =@{gset string} ∅) then (s.1, new ∪ s.2) else s
  end.

Definition call_total (x : call) : Prop :=
  match x with CallAddIndexers new => total_indexers new | _ => True end.

Definition refines (c : threadSafeMap O) (s : gmap string O * Indexers O) : Prop :=
  indexed c ∧ items c = s.1 ∧ indexers c = s.2 ∧ total_indexers s.2.

Lemma AddIndexers_refused (c : threadSafeMap O) new e :
  AddIndexers c new = Err e → ¬ (items c = ∅ ∧ dom (indexers c) ∩ dom new =@{gset string} ∅).
Proof.
  unfold AddIndexers. intros Ha [He Hd]. rewrite He, map_size_empty in Ha. simpl in Ha.
  destruct (existsb _ _) eqn:Ee; [|done]. apply existsb_elem in Ee as (k & Hk & Hin).
  apply bool_decide_eq_true in Hin. unfold set_List in Hk.
  rewrite merge_sort_Permutation, elem_of_elements in Hk. set_solver.
Qed.

Lemma Add_refines (c : threadSafeMap O) key obj :
  indexed c → total_indexers (indexers c) →
  ∃ c', Add c key obj = Ok c' ∧ refines c' (<[key := obj]> (items c), indexers c).
Proof.
  intros Hinv Ht. destruct (updateIndices_total c (items c !! key) obj key Ht) as [ind Hu].
  assert (Add c key obj = Ok (mkStore (<[key := obj]> (items c)) (indexers c) ind)) as Ha
    by (unfold Add; by rewrite Hu).
  eexists. split; [exact Ha|]. by apply Add_indexed in Ha as (? & ? & ?).
Qed.

Lemma do_call_refines c s x :
  refines c s → call_total x → ∃ c', do_call c x = Ok c' ∧ refines c' (spec_call s x).
Proof.
  intros (Hinv & Hi & Hx & Ht) Hcall. subst.
  destruct s as [its ixs]; simpl in *; subst.
  destruct x as [key obj|key obj|key|new|new]; simpl in *.
  - by apply Add_refines.
  - by apply Add_refines.
  - assert (∃ c', Delete c key = Ok c') as [c' Hd].
    { unfold Delete, deleteFromIndices. destruct (items c !! key) as [obj|]; [|eauto].
      destruct (delete_each_total (map_to_list (indexers c)) obj key (indices c)) as [ind ->];
        [by apply total_indexers_list|eauto]. }
    exists c'. split; [done|]. apply Delete_indexed in Hd as (? & ? & Hx); [|done].
    by split_and!.
  - destruct (rebuild_total (mkStore new (indexers c) ∅) (map_to_list new) Ht) as [c' Hr].
    exists c'. split; [exact Hr|]. apply Replace_indexed in Hr as (? & ? & Hx).
    by split_and!.
  - destruct (AddIndexers c new) as [c'|e] eqn:Ea.
    + exists c'. split; [done|].
      apply AddIndexers_indexed in Ea as (? & Hi' & He & Hdis & Hx); [|done].
      rewrite bool_decide_true by (split; [exact He|exact Hdis]).
      split_and!; simpl; [done|congruence|done|].
      intros n f Hf. apply lookup_union_Some_raw in Hf as [Hf|[_ Hf]]; [by eapply Hcall|by eapply Ht].
    + exists c. split; [done|]. rewrite bool_decide_false by by eapply AddIndexers_refused.
      done.
Qed.

Lemma run_refines calls c s :
  refines c s → Forall call_total calls →
  ∃ c', run c calls = Ok c' ∧ refines c' (fold_left spec_call calls s).
Proof.
  revert c s. induction calls as [|x calls IH]; intros c s Hr Hall; simpl; [eauto|].
  apply Forall_cons in Hall as [Hx Hall].
  destruct (do_call_refines c s x Hr Hx) as (c1 & -> & Hr1). by apply IH.
Qed.

(** The objects with a value of an index, by name of the index function. *)
Definition with_value (its : gmap string O) (P : O → Prop) `{∀ o, Decision (P o)} : gmap string O :=
  filter (λ kv, P kv.2) its.

Lemma keys_of_set (its : gmap string O) (ks : list string) (P : O → Prop) `{∀ o, Decision (P o)} :
  NoDup ks → (∀ k, k ∈ ks ↔ ∃ obj, its !! k = Some obj ∧ P obj) →
  ∃ l, (λ k, its !! k) <$> ks = Some <$> l ∧ l ≡ₚ (map_to_list (with_value its P)).*2.
Proof.
  intros Hnd Hks. set (m := with_value its P).
  assert (ks ≡ₚ (map_to_list m).*1) as Hp.
  { apply NoDup_Permutation; [done|apply NoDup_fst_map_to_list|]. intros k.
    rewrite Hks, list_elem_of_fmap. setoid_rewrite elem_of_map_to_list'.
    subst m. unfold with_value. setoid_rewrite map_lookup_filter_Some. simpl. split.
    - intros (obj & ? & ?). by exists (k, obj).
    - intros ([k' obj] & -> & ? & ?). eauto. }
  assert ((λ k, its !! k) <$> (map_to_list m).*1 = Some <$> (map_to_list m).*2) as Hm.
  { rewrite <- !list_fmap_compose. apply list_fmap_ext. intros i [k obj] Hi. simpl.
    apply list_elem_of_lookup_2, elem_of_map_to_list in Hi.
    by apply map_lookup_filter_Some in Hi as [? _]. }
  assert ((λ k, its !! k) <$> ks ≡ₚ Some <$> (map_to_list m).*2) as Hq
    by (rewrite <- Hm; by rewrite Hp).
  apply Permutation_map_inv in Hq as (l & Hl & Hpl). exists l. split; [exact Hl|].
  by symmetry.
Qed.

Lemma entry_indexer (ixs : Indexers O) name f obj v :
  ixs !! name = Some f → entry (map_to_list ixs) obj name v ↔ v ∈ values f obj.
Proof.
  intros Hf. unfold entry. setoid_rewrite elem_of_map_to_list. split; [|by eauto].
  intros (g & Hg & Hv). congruence.
Qed.

Lemma elem_of_union_sets (ind : Indices) name vs (acc : gset string) k :
  k ∈ fold_left (λ acc v, index_set ind name v ∪ acc) vs acc ↔
  k ∈ acc ∨ ∃ v, v ∈ vs ∧ k ∈ index_set ind name v.
Proof.
  revert acc. induction vs as [|v vs IH]; intros acc; simpl; [set_solver|].
  rewrite IH. set_solver.
Qed.

Lemma elem_of_set_List (s : gset string) k : k ∈ set_List s ↔ k ∈ s.
Proof. unfold set_List. by rewrite merge_sort_Permutation, elem_of_elements. Qed.

Lemma NoDup_set_List (s : gset string) : NoDup (set_List s).
Proof. unfold set_List. rewrite merge_sort_Permutation. apply NoDup_elements. Qed.
End runs.
Arguments call : clear implicits.

(** ** Correctness *)

(** C10: the indexed store refines a plain map of objects. After any calls, with
    index functions that succeed, no call panics and the store holds the objects
    of the specification; [ByIndex] lists exactly the objects with the index value
    asked for, once each, [IndexKeys] their keys in order, and [Index] the objects
    that share an index value with the given one; an unknown index is an error. *)
Theorem threadSafeMap_refines {O} (ixs : Indexers O) (calls : list (call O)) :
  total_indexers ixs → Forall call_total calls →
  ∃ c, run (NewThreadSafeStore ixs ∅) calls = Ok c ∧
    let s := fold_left spec_call calls (∅, ixs) in
    (∀ key, Get c key = s.1 !! key) ∧
    ∀ name,
      match s.2 !! name with
      | None => ∀ v obj, ByIndex c name v = Err (NoIndex name) ∧
                  IndexOf c name obj = Err (NoIndex name)
      | Some f =>
          (∀ v, ∃ l ks, ByIndex c name v = Ok (Some <$> l) ∧
             l ≡ₚ (map_to_list (with_value s.1 (λ o, v ∈ values f o))).*2 ∧
             IndexKeys c name v = Ok ks ∧ Sorted String.le ks ∧
             ∀ k, k ∈ ks ↔ ∃ o, s.1 !! k = Some o ∧ v ∈ values f o) ∧
          (∀ obj, ∃ l, IndexOf c name obj = Ok (Some <$> l) ∧
             l ≡ₚ (map_to_list (with_value s.1
                     (λ o, Exists (λ v, v ∈ values f o) (values f obj)))).*2)
      end.
Proof.
  intros Ht Hcalls.
  destruct (run_refines calls (NewThreadSafeStore ixs ∅) (∅, ixs)) as (c & Hrun & Hc);
    [split; [apply New_indexed|done]|done|].
  exists c. split; [done|]. destruct Hc as (Hinv & Hi & Hx & Htot). cbv zeta.
  rewrite <- Hi, <- Hx in *. split; [done|]. intros name. destruct (indexers c !! name) as [f|] eqn:Ef.
  2:{ intros v obj. unfold ByIndex, IndexOf. by rewrite Ef. }
  assert (∀ v k, k ∈ index_set (indices c) name v ↔
    ∃ o, items c !! k = Some o ∧ v ∈ values f o) as Hset.
  { intros v k. rewrite (Hinv name v k). by setoid_rewrite (entry_indexer _ _ _ _ _ Ef). }
  split.
  - intros v. unfold ByIndex, IndexKeys. rewrite Ef.
    destruct (keys_of_set (items c) (set_List (index_set (indices c) name v))
      (λ o, v ∈ values f o)) as (l & -> & Hl).
    + apply NoDup_set_List.
    + intros k. by rewrite elem_of_set_List.
    + exists l. eexists. split_and!; [done..| |].
      * apply Sorted_merge_sort, _.
      * intros k. by rewrite elem_of_set_List.
  - intros obj. unfold IndexOf. rewrite Ef. destruct (Htot name f Ef obj) as [vs Evs].
    rewrite Evs. destruct (keys_of_set (items c) (elements (fold_left
      (λ acc v, index_set (indices c) name v ∪ acc) vs (∅ : gset string)))
      (λ o, Exists (λ v, v ∈ values f o) (values f obj))) as (l & -> & Hl); [..|by eauto].
    + apply NoDup_elements.
    + intros k. rewrite elem_of_elements, elem_of_union_sets. unfold values at 2. rewrite Evs.
      setoid_rewrite Exists_exists. setoid_rewrite Hset. set_solver.
Qed.

(** Splitting the key of an API object gives back its namespace and its name,
    when they have no slash. *)
Theorem SplitMetaNamespaceKey_roundtrip (namespace name : string) :
  ContainsChar namespace "/" = false → ContainsChar name "/" = false →
  ∃ key, MetaNamespaceKeyFunc (WithMeta namespace name) = Ok key ∧
    SplitMetaNamespaceKey key = Ok (namespace, name).
Proof.
  intros Hns Hname. unfold MetaNamespaceKeyFunc. destruct (0 <? slen namespace) eqn:E.
  - eexists. split; [done|]. unfold SplitMetaNamespaceKey.
    change ("/" +:+ name) with (String "/" name). by rewrite Split_app, Split_none.
  - exists name. split; [done|]. unfold SplitMetaNamespaceKey. rewrite Split_none by done.
    by destruct namespace.
Qed.

(** ** Witnesses *)

(** Objects with a namespace and a node, indexed by both. *)
Definition ex_indexers : Indexers (string * string) :=
  <["namespace" := λ o, Ok [o.1]]> {["node" := λ o, Ok [o.2; "all"]]}.

Definition ex_calls : list (call (string * string)) :=
  [CallAdd "a/1" ("a", "n1"); CallAdd "b/2" ("b", "n1"); CallAdd "a/3" ("a", "n2");
   CallUpdate "a/3" ("a", "n1"); CallDelete "b/2"; CallAddIndexers ∅].

Lemma ex_indexers_total : total_indexers ex_indexers.
Proof.
  unfold ex_indexers, total_indexers.
  intros name f [[_ <-]|[_ [_ <-]%lookup_singleton_Some]]%lookup_insert_Some obj; eauto.
Qed.

Lemma threadSafeMap_refines_witness :
  ∃ c, run (NewThreadSafeStore ex_indexers ∅) ex_calls = Ok c ∧
    Get c "a/3" = Some ("a", "n1") ∧ Get c "b/2" = None ∧
    ByIndex c "node" "n1" = Ok [Some ("a", "n1"); Some ("a", "n1")].
Proof.
  destruct (threadSafeMap_refines ex_indexers ex_calls) as (c & Hrun & Hget & _).
  - exact ex_indexers_total.
  - repeat constructor. intros name f Hf. by rewrite lookup_empty in Hf.
  - exists c. rewrite !Hget. split_and!; [exact Hrun|vm_compute; reflexivity..|].
    assert (match run (NewThreadSafeStore ex_indexers ∅) ex_calls with
      | Ok c => ByIndex c "node" "n1" | Err e => Err e end
      = Ok [Some ("a", "n1"); Some ("a", "n1")]) as E by (vm_compute; reflexivity).
    by rewrite Hrun in E.
Defined.

Lemma SplitMetaNamespaceKey_roundtrip_witness :
  ∃ key, MetaNamespaceKeyFunc (WithMeta "kube-system" "dns") = Ok key ∧
    SplitMetaNamespaceKey key = Ok ("kube-system", "dns").
Proof. by apply SplitMetaNamespaceKey_roundtrip. Defined.
