(* ===== verification/Heap.v ===== *)
(** * The heap of client-go

    [staging/src/k8s.io/client-go/tools/cache/heap.go], a keyed priority queue
    on top of Go's [container/heap], whose functions [up], [down], [Push], [Pop],
    [Remove] and [Fix] are modelled here as they are in the Go library. Positions
    of the slice are natural numbers. *)

From S2P Require Import Prelude.

Section heap.
Context {V : Type} (keyFunc : V → result string string) (lessFunc : V → V → bool).

Record heapItem : Type := mkItem {
  obj : V;
  index : nat;
}.

Record heapData : Type := mkData {
  items : gmap string heapItem;
  queue : list string;
}.

Inductive HeapError : Type :=
  | KeyError (o : V) (err : string)
  | Closed
  | NotFound
  | Removed.

(** ** [heap.Interface] *)

(** The object at a position of the queue. *)
Definition at_ (h : heapData) (i : nat) : option V :=
  key ← queue h !! i; obj <$> items h !! key.

(** [Less]; the positions that [container/heap] compares are in the queue. *)
Definition Less (h : heapData) (i j : nat) : bool :=
  match at_ h i, at_ h j with
  | Some itemi, Some itemj => lessFunc itemi itemj
  | _, _ => false
  end.

Definition Len (h : heapData) : nat := length (queue h).

Definition set_index (i : nat) (item : heapItem) : heapItem := mkItem (obj item) i.

Definition Swap (h : heapData) (i j : nat) : heapData :=
  match queue h !! i, queue h !! j with
  | Some ki, Some kj =>
      mkData (alter (set_index j) ki (alter (set_index i) kj (items h)))
        (<[j := ki]> (<[i := kj]> (queue h)))
  | _, _ => h
  end.

Definition data_Push (h : heapData) (key : string) (o : V) : heapData :=
  let n := length (queue h) in
  mkData (<[key := mkItem o n]> (items h)) (queue h ++ [key]).

(** [heapData.Pop]; [None] is the nil it returns when the item is missing. *)
Definition data_Pop (h : heapData) : option V * heapData :=
  match last (queue h) with
  | None => (None, h)
  | Some key =>
      let queue := take (length (queue h) - 1) (queue h) in
      match items h !! key with
      | None => (None, mkData (items h) queue)
      | Some item => (Some (obj item), mkData (delete key (items h)) queue)
      end
  end.

(** ** [container/heap] *)

Definition parent (j : nat) : nat := ((j - 1) / 2)%nat.

(** The loop of [up] moves to the parent, so [j + 1] turns are enough. *)
Fixpoint up_loop (turns : nat) (h : heapData) (j : nat) : heapData :=
  match turns with
  | O => h
  | S turns =>
      let i := parent j in
      if bool_decide (i = j) || negb (Less h j i) then h
      else up_loop turns (Swap h i j) i
  end.

Definition up (h : heapData) (j : nat) : heapData := up_loop (S j) h j.

(** The child that [down] compares with. *)
Definition child (h : heapData) (i n : nat) : nat :=
  let j1 := (2 * i + 1)%nat in
  let j2 := (j1 + 1)%nat in
  if bool_decide (j2 < n)%nat && Less h j2 j1 then j2 else j1.

(** The loop of [down] moves to a child below [n], so [n] turns are enough. *)
Fixpoint down_loop (turns : nat) (h : heapData) (i n : nat) : heapData * nat :=
  match turns with
  | O => (h, i)
  | S turns =>
      if bool_decide (n ≤ 2 * i + 1)%nat then (h, i)
      else
        let j := child h i n in
        if negb (Less h j i) then (h, i) else down_loop turns (Swap h i j) j n
  end.

Definition down (h : heapData) (i0 n : nat) : heapData * bool :=
  let '(h, i) := down_loop n h i0 n in (h, bool_decide (i0 < i)%nat).

Definition heap_Push (h : heapData) (key : string) (o : V) : heapData :=
  let h := data_Push h key o in up h (Len h - 1).

Definition heap_Pop (h : heapData) : option V * heapData :=
  let n := (Len h - 1)%nat in
  data_Pop (down (Swap h 0 n) 0 n).1.

(** [down] and, when nothing moved, [up]. *)
Definition settle (h : heapData) (i n : nat) : heapData :=
  let '(h, moved) := down h i n in if moved then h else up h i.

Definition heap_Remove (h : heapData) (i : nat) : option V * heapData :=
  let n := (Len h - 1)%nat in
  data_Pop (if bool_decide (n ≠ i) then settle (Swap h i n) i n else h).

Definition heap_Fix (h : heapData) (i : nat) : heapData := settle h i (Len h).

(** ** [Heap] *)

Record Heap : Type := mkHeap {
  data : heapData;
  closed : bool;
}.

Definition NewHeap : Heap := mkHeap (mkData ∅ []) false.

Definition Close (h : Heap) : Heap := mkHeap (data h) true.

Definition addIfNotPresentLocked (h : heapData) (key : string) (o : V) : heapData :=
  match items h !! key with
  | Some _ => h
  | None => heap_Push h key o
  end.

(** The update or insertion in [Add] and [BulkAdd]. *)
Definition addLocked (h : heapData) (key : string) (o : V) : heapData :=
  match items h !! key with
  | Some item =>
      heap_Fix (mkData (<[key := mkItem o (index item)]> (items h)) (queue h)) (index item)
  | None => addIfNotPresentLocked h key o
  end.

Definition Add (h : Heap) (o : V) : option HeapError * Heap :=
  match keyFunc o with
  | Err e => (Some (KeyError o e), h)
  | Ok key =>
      if closed h then (Some Closed, h)
      else (None, mkHeap (addLocked (data h) key o) (closed h))
  end.

Fixpoint bulk_loop (h : heapData) (l : list V) : option HeapError * heapData :=
  match l with
  | [] => (None, h)
  | o :: l =>
      match keyFunc o with
      | Err e => (Some (KeyError o e), h)
      | Ok key => bulk_loop (addLocked h key o) l
      end
  end.

Definition BulkAdd (h : Heap) (l : list V) : option HeapError * Heap :=
  if closed h then (Some Closed, h)
  else let '(err, d) := bulk_loop (data h) l in (err, mkHeap d (closed h)).

Definition AddIfNotPresent (h : Heap) (o : V) : option HeapError * Heap :=
  match keyFunc o with
  | Err e => (Some (KeyError o e), h)
  | Ok id =>
      if closed h then (Some Closed, h)
      else (None, mkHeap (addIfNotPresentLocked (data h) id o) (closed h))
  end.

Definition Update (h : Heap) (o : V) : option HeapError * Heap := Add h o.

Definition Delete (h : Heap) (o : V) : option HeapError * Heap :=
  match keyFunc o with
  | Err e => (Some (KeyError o e), h)
  | Ok key =>
      match items (data h) !! key with
      | Some item => (None, mkHeap (heap_Remove (data h) (index item)).2 (closed h))
      | None => (Some NotFound, h)
      end
  end.

(** What [Pop] does when it runs: wait, fail, or return an object. *)
Inductive PopResult : Type :=
  | Wait
  | PopErr (e : HeapError) (h : Heap)
  | Popped (o : V) (h : Heap).

Definition Pop (h : Heap) : PopResult :=
  if bool_decide (length (queue (data h)) = 0%nat) then
    if closed h then PopErr Closed h else Wait
  else
    let '(o, d) := heap_Pop (data h) in
    match o with
    | Some o => Popped o (mkHeap d (closed h))
    | None => PopErr Removed (mkHeap d (closed h))
    end.

Definition List (h : Heap) : list V := (λ kv, obj kv.2) <$> map_to_list (items (data h)).

Definition ListKeys (h : Heap) : list string := (map_to_list (items (data h))).*1.

Definition GetByKey (h : Heap) (key : string) : option V := obj <$> items (data h) !! key.

Definition Get (h : Heap) (o : V) : result HeapError (option V) :=
  match keyFunc o with
  | Err e => Err (KeyError o e)
  | Ok key => Ok (GetByKey h key)
  end.

Definition IsClosed (h : Heap) : bool := closed h.
End heap.
Arguments heapItem : clear implicits.
Arguments heapData : clear implicits.
Arguments Heap : clear implicits.
Arguments HeapError : clear implicits.
Arguments PopResult : clear implicits.

(** ** The keys of the queue and the items agree *)

Section wf.
Context {V : Type}.
Implicit Types (h : heapData V).

(** Every key of the queue has an item with its position, and every item is at
    its position of the queue. *)
Record wf h : Prop := {
  wf_queue i k : queue h !! i = Some k → ∃ o, items h !! k = Some (mkItem o i);
  wf_items k it : items h !! k = Some it → queue h !! index it = Some k;
}.

(** The objects by key. *)
Definition contents h : gmap string V := obj <$> items h.

Lemma wf_inj h i j k : wf h → queue h !! i = Some k → queue h !! j = Some k → i = j.
Proof.
  intros Hwf Hi Hj. destruct (wf_queue h Hwf i k Hi) as [o Ho].
  destruct (wf_queue h Hwf j k Hj) as [o' Ho']. congruence.
Qed.

Lemma wf_at h i : wf h → (i < Len h)%nat →
  ∃ k o, queue h !! i = Some k ∧ items h !! k = Some (mkItem o i) ∧ at_ h i = Some o.
Proof.
  intros Hwf Hi. destruct (lookup_lt_is_Some_2 (queue h) i Hi) as [k Hk].
  destruct (wf_queue h Hwf i k Hk) as [o Ho]. exists k, o. split_and!; [done..|].
  unfold at_. rewrite Hk. simpl. by rewrite Ho.
Qed.

Lemma at_contents h i k : queue h !! i = Some k → at_ h i = contents h !! k.
Proof. intros Hk. unfold at_, contents. rewrite Hk, lookup_fmap. done. Qed.

Lemma contents_Swap h i j : contents (Swap h i j) = contents h.
Proof.
  unfold Swap. destruct (queue h !! i) as [ki|]; [|done].
  destruct (queue h !! j) as [kj|]; [|done]. unfold contents. simpl.
  apply map_eq. intros k. rewrite !lookup_fmap. rewrite !lookup_alter.
  repeat case_decide; subst; by destruct (items h !! _).
Qed.

Lemma Len_Swap h i j : Len (Swap h i j) = Len h.
Proof.
  unfold Swap, Len. destruct (queue h !! i); [|done]. destruct (queue h !! j); [|done].
  simpl. by rewrite !length_insert.
Qed.

(** Where a position of the swapped queue comes from. *)
Definition swapped (i j x : nat) : nat :=
  if decide (x = i) then j else if decide (x = j) then i else x.

Lemma queue_Swap h i j x :
  (i < Len h)%nat → (j < Len h)%nat → queue (Swap h i j) !! x = queue h !! swapped i j x.
Proof.
  intros Hi Hj. unfold Swap, Len in *.
  destruct (lookup_lt_is_Some_2 (queue h) i Hi) as [ki Hki].
  destruct (lookup_lt_is_Some_2 (queue h) j Hj) as [kj Hkj]. rewrite Hki, Hkj. simpl.
  unfold swapped. destruct (decide (x = j)) as [->|Hxj].
  - rewrite list_lookup_insert_eq by by rewrite length_insert.
    destruct (decide (j = i)); by subst.
  - rewrite list_lookup_insert_ne by done. destruct (decide (x = i)) as [->|Hxi].
    + by rewrite list_lookup_insert_eq.
    + by rewrite list_lookup_insert_ne.
Qed.

Lemma at_Swap h i j x :
  (i < Len h)%nat → (j < Len h)%nat → at_ (Swap h i j) x = at_ h (swapped i j x).
Proof.
  intros Hi Hj. pose proof (queue_Swap h i j x Hi Hj) as Hq.
  destruct (queue h !! swapped i j x) as [k|] eqn:Ek.
  - by rewrite (at_contents _ _ _ Hq), (at_contents _ _ _ Ek), contents_Swap.
  - unfold at_. by rewrite Hq, Ek.
Qed.

(** Swapping moves the recorded positions along. *)
Lemma items_Swap h i j k :
  wf h → (i < Len h)%nat → (j < Len h)%nat →
  items (Swap h i j) !! k = (λ it, set_index (swapped i j (index it)) it) <$> items h !! k.
Proof.
  intros Hwf Hi Hj. destruct (wf_at h i Hwf Hi) as (ki & oi & Hki & Hoi & _).
  destruct (wf_at h j Hwf Hj) as (kj & oj & Hkj & Hoj & _).
  unfold Swap. rewrite Hki, Hkj. simpl. destruct (decide (k = ki)) as [->|Hk1].
  - rewrite lookup_alter_eq. rewrite Hoi. destruct (decide (ki = kj)) as [->|Hne].
    + rewrite lookup_alter_eq, Hoj. simplify_eq. simpl. unfold swapped. by rewrite decide_True.
    + rewrite lookup_alter_ne, Hoi by done. simpl. unfold swapped. by rewrite decide_True.
  - rewrite lookup_alter_ne by done. destruct (decide (k = kj)) as [->|Hk2].
    + rewrite lookup_alter_eq, Hoj. simpl. unfold swapped. case_decide; [congruence|].
      by rewrite decide_True.
    + rewrite lookup_alter_ne by done. destruct (items h !! k) as [[o x]|] eqn:Ek; [|done].
      pose proof (wf_items h Hwf k _ Ek) as Hkx. simpl in *. unfold swapped.
      case_decide; [congruence|]. case_decide; [congruence|done].
Qed.

Lemma swapped_involutive i j x : swapped i j (swapped i j x) = x.
Proof. unfold swapped. repeat case_decide; congruence. Qed.

Lemma wf_Swap h i j : wf h → (i < Len h)%nat → (j < Len h)%nat → wf (Swap h i j).
Proof.
  intros Hwf Hi Hj. split.
  - intros x k. rewrite queue_Swap by done. intros Hk.
    destruct (wf_queue h Hwf _ _ Hk) as [o Ho]. exists o.
    rewrite items_Swap, Ho by done. simpl. unfold set_index. simpl. by rewrite swapped_involutive.
  - intros k it. rewrite items_Swap by done. destruct (items h !! k) as [it'|] eqn:Ek; [|done].
    intros [= <-]. rewrite queue_Swap by done. simpl. rewrite swapped_involutive.
    by apply (wf_items h Hwf).
Qed.
End wf.

(** ** Heap order *)

(** A comparison function for the heap: a strict weak order. *)
Class LessLaws {V} (less : V → V → bool) : Prop := {
  less_asym a b : less a b = true → less b a = false;
  less_negtrans a b c : less a b = false → less b c = false → less a c = false;
}.

Section order.
Context {V : Type} (less : V → V → bool) `{!LessLaws less}.
Implicit Types (h : heapData V).

(** The object at [y] does not go in front of the one at [x]. *)
Definition le_at h (x y : nat) : Prop :=
  ∀ a b, at_ h x = Some a → at_ h y = Some b → less b a = false.

(** The positions below [n] are in heap order, except for those in [P]. *)
Definition ordered_but (P : nat → Prop) h (n : nat) : Prop :=
  ∀ x, (0 < x < n)%nat → ¬ P x → le_at h (parent x) x.

Definition ordered h (n : nat) : Prop := ordered_but (λ _, False) h n.

(** The children of [i] do not go in front of its parent. *)
Definition grand h (i n : nat) : Prop :=
  ∀ x, (0 < x < n)%nat → parent x = i → (0 < i)%nat → le_at h (parent i) x.

Lemma parent_lt x : (0 < x)%nat → (parent x < x)%nat.
Proof. intros. unfold parent. apply Nat.div_lt_upper_bound; lia. Qed.

Lemma parent_child x i : (0 < x)%nat → parent x = i ↔ x = (2 * i + 1)%nat ∨ x = (2 * i + 2)%nat.
Proof.
  intros Hx. unfold parent. pose proof (Nat.div_mod (x - 1) 2 ltac:(lia)).
  pose proof (Nat.mod_upper_bound (x - 1) 2 ltac:(lia)). split; [lia|].
  intros [->| ->].
  - replace (2 * i + 1 - 1)%nat with (i * 2)%nat by lia. by apply Nat.div_mul.
  - replace (2 * i + 2 - 1)%nat with (1 + i * 2)%nat by lia.
    rewrite Nat.div_add by lia. done.
Qed.

Lemma le_at_trans h x y z : wf h → (y < Len h)%nat → le_at h x y → le_at h y z → le_at h x z.
Proof.
  intros Hwf Hy Hxy Hyz a b Ha Hb. destruct (wf_at h y Hwf Hy) as (_ & c & _ & _ & Hc).
  eapply less_negtrans; eauto.
Qed.

Lemma le_at_refl h x : le_at h x x.
Proof.
  intros a b Ha Hb. assert (a = b) as <- by congruence. destruct (less a a) eqn:E; [|done].
  by rewrite (less_asym _ _ E) in E.
Qed.

Lemma Less_true h x y : Less less h x y = true → le_at h x y.
Proof.
  unfold Less. intros HL a b Ha Hb. rewrite Ha, Hb in HL. by apply less_asym.
Qed.

Lemma Less_false h x y : Less less h x y = false → le_at h y x.
Proof. unfold Less. intros HL a b Ha Hb. by rewrite Ha, Hb in HL. Qed.

Lemma le_at_Swap h i j x y :
  (i < Len h)%nat → (j < Len h)%nat →
  le_at h (swapped i j x) (swapped i j y) → le_at (Swap h i j) x y.
Proof. intros Hi Hj Hle a b. rewrite !at_Swap by done. apply Hle. Qed.

Lemma swapped_l i j : swapped i j i = j.
Proof. unfold swapped. by rewrite decide_True. Qed.

Lemma swapped_r i j : swapped i j j = i.
Proof. unfold swapped. case_decide; [done|]. by rewrite decide_True. Qed.

Lemma swapped_ne i j x : x ≠ i → x ≠ j → swapped i j x = x.
Proof. intros. unfold swapped. by rewrite !decide_False. Qed.

(** ** [up] *)

Definition up_inv h (j n : nat) : Prop := ordered_but (λ x, x = j) h n ∧ grand h j n.

Lemma up_step h j n :
  wf h → (n ≤ Len h)%nat → (0 < j < n)%nat → up_inv h j n →
  Less less h j (parent j) = true → up_inv (Swap h (parent j) j) (parent j) n.
Proof.
  intros Hwf Hn Hj [Hord Hgr] HL. set (p := parent j).
  pose proof (parent_lt j ltac:(lia)) as Hp. fold p in Hp, HL.
  assert (p < Len h)%nat by lia. assert (j < Len h)%nat by lia.
  pose proof (Less_true _ _ _ HL) as Hjp. split.
  - intros x Hx Hne. apply le_at_Swap; [done..|]. pose proof (parent_lt x ltac:(lia)).
    destruct (decide (x = j)) as [->|Hxj].
    { fold p. by rewrite swapped_l, swapped_r. }
    rewrite (swapped_ne _ _ x) by done. destruct (decide (parent x = p)) as [Hpx|Hpx].
    { rewrite Hpx, swapped_l. apply (le_at_trans h j p x); [done..|].
      rewrite <- Hpx. by apply Hord. }
    destruct (decide (parent x = j)) as [Hpj|Hpj].
    { rewrite Hpj, swapped_r. apply (Hgr x); [done..|lia]. }
    rewrite swapped_ne by done. by apply Hord.
  - intros x Hx Hpx H0p. pose proof (parent_lt p H0p) as Hpp.
    apply le_at_Swap; [done..|]. rewrite (swapped_ne _ _ (parent p)) by lia.
    assert (le_at h (parent p) p) as Hgp by (apply Hord; lia).
    destruct (decide (x = j)) as [->|Hxj]; [by rewrite swapped_r|].
    pose proof (parent_lt x ltac:(lia)). rewrite swapped_ne by (done || lia).
    apply (le_at_trans h _ p); [done..|]. rewrite <- Hpx. by apply Hord.
Qed.

Lemma up_loop_ordered turns h j n :
  wf h → (n ≤ Len h)%nat → (j < n)%nat → (j < turns)%nat → up_inv h j n →
  ordered (up_loop less turns h j) n.
Proof.
  revert h j. induction turns as [|turns IH]; intros h j Hwf Hn Hj Ht Hinv; [lia|].
  cbn [up_loop]. destruct (decide (j = 0)%nat) as [->|Hj0].
  { rewrite bool_decide_true by done. simpl. intros x Hx _. apply Hinv; lia. }
  pose proof (parent_lt j ltac:(lia)) as Hp. rewrite bool_decide_false by lia. simpl.
  destruct (Less less h j (parent j)) eqn:HL; simpl.
  - apply IH; rewrite ?Len_Swap; [apply wf_Swap; (done || lia)|lia..|].
    apply up_step; [done..|lia|done|done].
  - intros x Hx _. destruct (decide (x = j)) as [->|Hne]; [by apply Less_false|].
    by apply Hinv.
Qed.

Lemma up_loop_keeps turns h j :
  wf h → (j < Len h)%nat →
  let h' := up_loop less turns h j in
  wf h' ∧ contents h' = contents h ∧ Len h' = Len h ∧
  ∀ x, (j < x)%nat → queue h' !! x = queue h !! x.
Proof.
  revert h j. induction turns as [|turns IH]; intros h j Hwf Hj; [done|].
  cbn [up_loop]. destruct (_ || _) eqn:E; [done|].
  apply orb_false_iff in E as [E _]. apply bool_decide_eq_false in E.
  assert (parent j < j)%nat as Hp. { apply parent_lt. destruct j; [done|lia]. }
  destruct (IH (Swap h (parent j) j) (parent j)) as (Hw & Hc & Hl & Hq);
    [apply wf_Swap; (done || lia)|rewrite Len_Swap; lia|].
  cbv zeta. rewrite contents_Swap in Hc. rewrite Len_Swap in Hl. split_and!; [done..|].
  intros x Hx. rewrite Hq, queue_Swap by lia. by rewrite swapped_ne by lia.
Qed.

(** ** [down] *)

(** Position [i] may be wrong on both sides. *)
Definition down_inv h (i n : nat) : Prop :=
  ordered_but (λ x, x = i ∨ parent x = i) h n ∧ grand h i n.

Lemma child_spec h i n :
  (2 * i + 1 < n)%nat → (n ≤ Len h)%nat → wf h →
  let j := child less h i n in
  (j < n)%nat ∧ (i < j)%nat ∧ parent j = i ∧
  ∀ x, (0 < x < n)%nat → parent x = i → le_at h j x.
Proof.
  intros Hi Hn Hwf. unfold child. cbv zeta.
  destruct (bool_decide (2 * i + 1 + 1 < n)%nat && Less less h (2 * i + 1 + 1) (2 * i + 1)) eqn:E.
  - apply andb_true_iff in E as [E1 E2]. apply bool_decide_eq_true in E1.
    split_and!; [done|lia|apply parent_child; lia|]. intros x Hx Hpx.
    apply parent_child in Hpx as [->| ->]; [by apply Less_true| |lia].
    replace (2 * i + 2)%nat with (2 * i + 1 + 1)%nat by lia. apply le_at_refl.
  - split_and!; [done|lia|apply parent_child; lia|]. intros x Hx Hpx.
    apply parent_child in Hpx as [->| ->]; [apply le_at_refl| |lia].
    replace (2 * i + 2)%nat with (2 * i + 1 + 1)%nat in * by lia.
    rewrite bool_decide_true in E by lia. by apply Less_false.
Qed.

Lemma down_step h i n j :
  wf h → (n ≤ Len h)%nat → (2 * i + 1 < n)%nat → down_inv h i n →
  j = child less h i n → Less less h j i = true →
  down_inv (Swap h i j) j n ∧ le_at (Swap h i j) (parent j) j ∧
  (∀ x, (0 < x < n)%nat → x ≠ j → parent x ≠ j → le_at (Swap h i j) (parent x) x).
Proof.
  intros Hwf Hn Hi [Hord Hgr] Hj HL.
  destruct (child_spec h i n Hi Hn Hwf) as (Hjn & Hij & Hpj & Hmin). rewrite <- Hj in *.
  assert (i < Len h)%nat by lia. assert (j < Len h)%nat by lia.
  assert (∀ x, (0 < x < n)%nat → x ≠ j → parent x ≠ j → le_at (Swap h i j) (parent x) x) as Hrest.
  { intros x Hx Hxj Hpxj. apply le_at_Swap; [done..|]. pose proof (parent_lt x ltac:(lia)).
    destruct (decide (x = i)) as [->|Hxi].
    { rewrite swapped_l, swapped_ne by lia. apply Hgr; [lia|done|lia]. }
    rewrite (swapped_ne _ _ x) by done. destruct (decide (parent x = i)) as [Hpi|Hpi].
    - rewrite Hpi, swapped_l. by apply Hmin.
    - rewrite swapped_ne by done. apply Hord; [done|]. intros [?|?]; done. }
  split_and!; [split| |done].
  - intros x Hx Hnot. apply Hrest; [done|..]; intros ?; apply Hnot; auto.
  - intros x Hx Hpx Hj0. rewrite Hpj. pose proof (parent_lt x ltac:(lia)).
    apply le_at_Swap; [done..|]. rewrite swapped_l, swapped_ne by lia.
    rewrite <- Hpx. apply Hord; [done|]. intros [?|?]; lia.
  - rewrite Hpj. apply le_at_Swap; [done..|]. rewrite swapped_l, swapped_r. by apply Less_true.
Qed.

Lemma down_loop_grows turns h i n : (i ≤ (down_loop less turns h i n).2)%nat.
Proof.
  revert h i. induction turns as [|turns IH]; intros h i; cbn [down_loop]; [done|].
  case_bool_decide; [done|]. destruct (negb _); [done|].
  etrans; [|apply IH]. unfold child. destruct (_ && _); lia.
Qed.

(** The loop repairs a position that is not in front of its parent. *)
Lemma down_loop_ordered turns h i n :
  wf h → (n ≤ Len h)%nat → (n ≤ turns + i)%nat → down_inv h i n →
  ((0 < i < n)%nat → le_at h (parent i) i) → ordered (down_loop less turns h i n).1 n.
Proof.
  revert h i. induction turns as [|turns IH]; intros h i Hwf Hn Ht Hinv Hi; cbn [down_loop].
  { intros x Hx _. pose proof (parent_lt x ltac:(lia)). apply Hinv; [done|].
    intros [?|?]; lia. }
  case_bool_decide as Hin.
  { intros x Hx _. destruct (decide (x = i)) as [->|Hne]; [by apply Hi|]. apply Hinv; [done|].
    intros [?|Hpx]; [done|]. apply parent_child in Hpx; lia. }
  pose proof (child_spec h i n ltac:(lia) Hn Hwf) as Hcs. cbv zeta in *.
  set (j := child less h i n) in *. destruct Hcs as (Hjn & Hij & Hpj & Hmin).
  destruct (Less less h j i) eqn:HL; simpl.
  - destruct (down_step h i n j) as (Hinv' & Hpar & Hrest); try (done || lia).
    apply IH; rewrite ?Len_Swap; [apply wf_Swap; (done || lia)|lia..|done|done].
  - intros x Hx _. destruct (decide (x = i)) as [->|Hne]; [by apply Hi|].
    destruct (decide (parent x = i)) as [Hpx|Hpx].
    + rewrite Hpx. apply (le_at_trans h i j x); [done|lia|by apply Less_false|by apply Hmin].
    + apply Hinv; [done|]. intros [?|?]; tauto.
Qed.

(** [down] either moves the object at [i] and repairs the order, or leaves the
    heap alone, with [i] at most in front of its parent. *)
Lemma down_spec h i n :
  wf h → (n ≤ Len h)%nat → down_inv h i n →
  let '(h', moved) := down less h i n in
  if moved then ordered h' n else h' = h ∧ up_inv h i n.
Proof.
  intros Hwf Hn Hinv. unfold down. destruct n as [|n].
  { simpl. rewrite bool_decide_false by lia. split; [done|]. split; intros x; lia. }
  cbn [down_loop]. case_bool_decide as Hin.
  { rewrite bool_decide_false by lia. split; [done|]. split; [|apply Hinv].
    intros x Hx Hne. apply Hinv; [done|]. intros [?|Hpx]; [done|]. apply parent_child in Hpx; lia. }
  pose proof (child_spec h i (S n) ltac:(lia) Hn Hwf) as Hcs. cbv zeta in *.
  set (j := child less h i (S n)) in *. destruct Hcs as (Hjn & Hij & Hpj & Hmin).
  destruct (Less less h j i) eqn:HL; simpl.
  - destruct (down_step h i (S n) j) as (Hinv' & Hpar & _); try (done || lia).
    pose proof (down_loop_ordered n (Swap h i j) j (S n)) as Hord.
    pose proof (down_loop_grows n (Swap h i j) j (S n)) as Hgr.
    rewrite Len_Swap in Hord. destruct (down_loop _ _ _ _ _) as [h' i']. simpl in *.
    rewrite bool_decide_true by lia. apply Hord; [|done|lia|done|done].
    apply wf_Swap; (done || lia).
  - rewrite bool_decide_false by lia. split; [done|]. split; [|apply Hinv].
    intros x Hx Hne. destruct (decide (parent x = i)) as [Hpx|Hpx].
    + rewrite Hpx. apply (le_at_trans h i j x); [done|lia|by apply Less_false|by apply Hmin].
    + apply Hinv; [done|]. intros [?|?]; tauto.
Qed.

Lemma down_loop_keeps turns h i n :
  wf h → (n ≤ Len h)%nat →
  let h' := (down_loop less turns h i n).1 in
  wf h' ∧ contents h' = contents h ∧ Len h' = Len h ∧
  ∀ x, (n ≤ x)%nat → queue h' !! x = queue h !! x.
Proof.
  revert h i. induction turns as [|turns IH]; intros h i Hwf Hn; [done|].
  cbn [down_loop]. case_bool_decide as Hin; [done|].
  destruct (child_spec h i n ltac:(lia) Hn Hwf) as (Hjn & Hij & _).
  destruct (negb _); [done|]. set (j := child less h i n) in *.
  destruct (IH (Swap h i j) j) as (Hw & Hc & Hl & Hq);
    [apply wf_Swap; (done || lia)|rewrite Len_Swap; lia|].
  cbv zeta. rewrite contents_Swap in Hc. rewrite Len_Swap in Hl. split_and!; [done..|].
  intros x Hx. rewrite Hq, queue_Swap by lia. by rewrite swapped_ne by lia.
Qed.

(** [settle] repairs a position that may be wrong on both sides and keeps the
    objects and the positions from [n] on. *)
Lemma settle_spec h i n :
  wf h → (n ≤ Len h)%nat → (i < n)%nat → down_inv h i n →
  let h' := settle less h i n in
  ordered h' n ∧ wf h' ∧ contents h' = contents h ∧ Len h' = Len h ∧
  ∀ x, (n ≤ x)%nat → queue h' !! x = queue h !! x.
Proof.
  intros Hwf Hn Hi Hinv. unfold settle.
  pose proof (down_spec h i n Hwf Hn Hinv) as Hd.
  pose proof (down_loop_keeps n h i n Hwf Hn) as Hk. unfold down in *.
  destruct (down_loop less n h i n) as [h' i']. simpl in *.
  destruct (bool_decide (i < i')%nat); [done|]. destruct Hd as [-> Hup].
  destruct (up_loop_keeps (S i) h i Hwf ltac:(lia)) as (? & ? & ? & Hq).
  split_and!; [|done..|].
  - apply up_loop_ordered; [done..|lia|done].
  - intros x Hx. unfold up. apply Hq. lia.
Qed.

(** ** Insertion and removal *)

Record valid h : Prop := {
  valid_wf : wf h;
  valid_ordered : ordered h (Len h);
}.

Lemma le_at_same h h' x y :
  at_ h' x = at_ h x → at_ h' y = at_ h y → le_at h x y → le_at h' x y.
Proof. intros E1 E2 Hle a b. rewrite E1, E2. apply Hle. Qed.

Lemma valid_min h x : valid h → (x < Len h)%nat → le_at h 0 x.
Proof.
  intros [Hwf Hord]. induction x as [x IH] using lt_wf_ind. intros Hx.
  destruct (decide (x = 0)%nat) as [->|Hx0]; [apply le_at_refl|].
  pose proof (parent_lt x ltac:(lia)).
  apply (le_at_trans h 0 (parent x) x); [done|lia|apply IH; lia|apply Hord; [lia|tauto]].
Qed.

Lemma contents_at h k o :
  wf h → contents h !! k = Some o → ∃ i, (i < Len h)%nat ∧ queue h !! i = Some k ∧ at_ h i = Some o.
Proof.
  intros Hwf Hk. pose proof Hk as Hk'. unfold contents in Hk. rewrite lookup_fmap in Hk.
  destruct (items h !! k) as [it|] eqn:Ek; [|done]. pose proof (wf_items h Hwf k it Ek) as Hq.
  exists (index it). split_and!; [by eapply lookup_lt_Some|done|].
  by rewrite (at_contents _ _ _ Hq).
Qed.

Lemma data_Push_spec h key o :
  wf h → items h !! key = None →
  let h' := data_Push h key o in
  wf h' ∧ Len h' = S (Len h) ∧ contents h' = <[key := o]> (contents h) ∧
  ∀ x, (x < Len h)%nat → at_ h' x = at_ h x.
Proof.
  intros Hwf Hnew. unfold data_Push, Len. cbv zeta. simpl.
  assert (∀ i k, queue h !! i = Some k → k ≠ key) as Hne.
  { intros i k Hk ->. destruct (wf_queue h Hwf i key Hk); congruence. }
  split_and!.
  - split; simpl.
    + intros i k [Hk|[Hl Hk]]%lookup_app_Some.
      * rewrite lookup_insert_ne by (symmetry; eauto). by apply (wf_queue h Hwf).
      * apply list_lookup_singleton_Some in Hk as [Hi <-]. rewrite lookup_insert_eq.
        exists o. do 2 f_equal. lia.
    + intros k it [[<- <-]|[Hk Hit]]%lookup_insert_Some; simpl.
      * rewrite lookup_app_r by lia. by rewrite Nat.sub_diag.
      * apply lookup_app_l_Some. by apply (wf_items h Hwf).
  - rewrite length_app. simpl. lia.
  - unfold contents. simpl. by rewrite fmap_insert.
  - intros x Hx. unfold at_. simpl. rewrite lookup_app_l by done.
    destruct (queue h !! x) as [k|] eqn:Ek; [|done]. simpl.
    rewrite lookup_insert_ne; [done|]. symmetry. eauto.
Qed.

Lemma heap_Push_spec h key o :
  valid h → items h !! key = None →
  valid (heap_Push less h key o) ∧ contents (heap_Push less h key o) = <[key := o]> (contents h).
Proof.
  intros [Hwf Hord] Hnew. unfold heap_Push.
  destruct (data_Push_spec h key o Hwf Hnew) as (Hwf' & Hlen & Hc & Hat).
  set (h1 := data_Push h key o) in *. cbv zeta.
  assert (up_inv h1 (Len h) (S (Len h))) as Hinv.
  { split.
    - intros x Hx Hne. pose proof (parent_lt x ltac:(lia)).
      apply (le_at_same h); [apply Hat; lia..|]. apply Hord; [lia|tauto].
    - intros x Hx Hpx. apply parent_child in Hpx; lia. }
  replace (Len h1 - 1)%nat with (Len h) by lia.
  destruct (up_loop_keeps (S (Len h)) h1 (Len h) Hwf' ltac:(lia)) as (Hw & Hc' & Hl & _).
  split; [|unfold up; congruence]. split; [exact Hw|]. unfold up. rewrite Hl, Hlen.
  apply up_loop_ordered; [done|lia..|done].
Qed.

(** Removing the last position, when the others are in order. *)
Lemma data_Pop_spec h n k :
  wf h → Len h = S n → ordered h n → queue h !! n = Some k →
  let '(o, h') := data_Pop h in
  o = contents h !! k ∧ is_Some o ∧ valid h' ∧ contents h' = delete k (contents h).
Proof.
  intros Hwf Hlen Hord Hk. unfold data_Pop. unfold Len in Hlen.
  rewrite last_lookup, Hlen. simpl. rewrite Hk. destruct (wf_queue h Hwf n k Hk) as [o Ho].
  rewrite Ho. replace (n - 0)%nat with n by lia.
  assert (∀ x k', take n (queue h) !! x = Some k' → queue h !! x = Some k' ∧ (x < n)%nat ∧ k' ≠ k)
    as Hq.
  { intros x k' Hx. pose proof (lookup_lt_Some _ _ _ Hx) as Hl. rewrite length_take in Hl.
    rewrite lookup_take_lt in Hx by lia. split_and!; [done|lia|]. intros ->.
    pose proof (wf_inj h x n k Hwf Hx Hk). lia. }
  split_and!; [|done| |].
  - unfold contents. by rewrite lookup_fmap, Ho.
  - split.
    + split; simpl.
      * intros x k' (Hx & _ & Hne)%Hq. rewrite lookup_delete_ne by done. by apply (wf_queue h Hwf).
      * intros k' it [Hne Hit]%lookup_delete_Some. pose proof (wf_items h Hwf k' it Hit) as Hx.
        rewrite lookup_take_lt; [done|]. pose proof (lookup_lt_Some _ _ _ Hx) as Hl.
        destruct (decide (index it = n)) as [E|]; [|lia]. rewrite E in Hx. congruence.
    + unfold Len. simpl. rewrite length_take, Hlen. intros x Hx Hne.
      pose proof (parent_lt x ltac:(lia)). apply (le_at_same h); [..|apply Hord; [lia|done]];
        unfold at_; simpl; rewrite lookup_take_lt by lia;
        match goal with |- (queue h !! ?y ≫= _) = _ => destruct (queue h !! y) as [k'|] eqn:Ey end;
        [|done| |done]; simpl; (rewrite lookup_delete_ne; [done|]); intros <-;
        pose proof (wf_inj h _ n k Hwf Ey Hk); lia.
  - unfold contents. simpl. by rewrite fmap_delete.
Qed.

(** An object that replaces the one at [i] leaves only [i] in doubt. *)
Lemma ordered_down_inv h h' i n :
  wf h → (i < Len h)%nat → (n ≤ Len h)%nat → ordered h (Len h) →
  (∀ x, (x < n)%nat → x ≠ i → at_ h' x = at_ h x) → down_inv h' i n.
Proof.
  intros Hwf Hi Hn Hord Hat. split.
  - intros x Hx Hne. pose proof (parent_lt x ltac:(lia)).
    apply (le_at_same h); [apply Hat; [lia|tauto]..|]. apply Hord; [lia|tauto].
  - intros x Hx Hpx Hi0. pose proof (parent_lt i Hi0). pose proof (parent_lt x ltac:(lia)).
    apply (le_at_same h); [apply Hat; lia..|].
    apply (le_at_trans h _ i); [done..|apply Hord; [lia|tauto]|].
    rewrite <- Hpx. apply Hord; [lia|tauto].
Qed.

Lemma heap_Fix_spec h i k o o' :
  valid h → items h !! k = Some (mkItem o i) →
  let h' := heap_Fix less (mkData (<[k := mkItem o' i]> (items h)) (queue h)) i in
  valid h' ∧ contents h' = <[k := o']> (contents h).
Proof.
  intros [Hwf Hord] Hk. cbv zeta. set (h1 := mkData (<[k := mkItem o' i]> (items h)) (queue h)).
  pose proof (wf_items h Hwf k _ Hk) as Hq. simpl in Hq.
  pose proof (lookup_lt_Some _ _ _ Hq) as Hi. change (length (queue h)) with (Len h) in Hi.
  assert (wf h1) as Hwf1.
  { split; simpl.
    - intros x k' Hx. destruct (decide (k' = k)) as [->|Hne].
      + rewrite (wf_inj h x i k Hwf Hx Hq), lookup_insert_eq. by eauto.
      + rewrite lookup_insert_ne by done. by apply (wf_queue h Hwf).
    - intros k' it [[<- <-]|[Hne Hit]]%lookup_insert_Some; [done|]. by apply (wf_items h Hwf). }
  assert (down_inv h1 i (Len h)) as Hinv.
  { apply (ordered_down_inv h); [done..|]. intros x Hx Hne. unfold at_. simpl.
    destruct (queue h !! x) as [k'|] eqn:Ex; [|done]. simpl. rewrite lookup_insert_ne; [done|].
    intros <-. apply Hne. by eapply wf_inj. }
  destruct (settle_spec h1 i (Len h) Hwf1 ltac:(done) Hi Hinv) as (Ho & Hw & Hc & Hl & _).
  split; [split|].
  - exact Hw.
  - change (heap_Fix less h1 i) with (settle less h1 i (Len h)). rewrite Hl. exact Ho.
  - change (heap_Fix less h1 i) with (settle less h1 i (Len h)). rewrite Hc.
    unfold contents. simpl. by rewrite fmap_insert.
Qed.

Lemma heap_Remove_spec h i k :
  valid h → queue h !! i = Some k →
  let '(o, h') := heap_Remove less h i in
  o = contents h !! k ∧ is_Some o ∧ valid h' ∧ contents h' = delete k (contents h).
Proof.
  intros [Hwf Hord] Hk. unfold heap_Remove. pose proof (lookup_lt_Some _ _ _ Hk) as Hi.
  change (length (queue h)) with (Len h) in Hi. case_bool_decide as Hn.
  - set (n := (Len h - 1)%nat) in *. assert (n < Len h)%nat by lia.
    assert (down_inv (Swap h i n) i n) as Hinv.
    { apply (ordered_down_inv h); [done..|lia|done|]. intros x Hx Hne.
      rewrite at_Swap by done. by rewrite swapped_ne by lia. }
    destruct (settle_spec (Swap h i n) i n) as (Ho & Hw & Hc & Hl & Hq);
      [by apply wf_Swap|rewrite Len_Swap; lia|lia|done|].
    rewrite contents_Swap in Hc. rewrite Len_Swap in Hl. rewrite <- Hc.
    apply (data_Pop_spec _ n); [done|lia|done|].
    rewrite Hq, queue_Swap, swapped_r by (done || lia). done.
  - apply (data_Pop_spec h (Len h - 1)%nat); [done|lia| |by rewrite Hn].
    intros x Hx Hne. apply Hord; [lia|tauto].
Qed.

Lemma heap_Pop_spec h :
  valid h → Len h ≠ 0%nat →
  ∃ k o h', heap_Pop less h = (Some o, h') ∧ contents h !! k = Some o ∧
    (∀ k' o', contents h !! k' = Some o' → less o' o = false) ∧
    valid h' ∧ contents h' = delete k (contents h).
Proof.
  intros Hv Hne. pose proof Hv as [Hwf Hord].
  destruct (wf_at h 0 Hwf ltac:(lia)) as (k & o & Hq & _ & Hat).
  set (n := (Len h - 1)%nat). assert (n < Len h)%nat by lia.
  assert (down_inv (Swap h 0 n) 0 n) as Hinv.
  { apply (ordered_down_inv h); [done|lia..|done|]. intros x Hx Hx0.
    rewrite at_Swap by lia. by rewrite swapped_ne by lia. }
  assert (wf (Swap h 0 n)) as Hwf1 by (apply wf_Swap; (done || lia)).
  pose proof (down_spec (Swap h 0 n) 0 n Hwf1) as Hd. rewrite Len_Swap in Hd.
  specialize (Hd ltac:(lia) Hinv).
  destruct (down_loop_keeps n (Swap h 0 n) 0 n Hwf1) as (Hw & Hc & Hl & Hqn);
    [rewrite Len_Swap; lia|].
  rewrite contents_Swap in Hc. rewrite Len_Swap in Hl. unfold heap_Pop. fold n. unfold down in *.
  destruct (down_loop less n (Swap h 0 n) 0 n) as [h1 i1]. simpl in *.
  assert (ordered h1 n) as Ho1.
  { destruct (bool_decide _); [done|]. destruct Hd as [-> [Hb _]].
    intros x Hx _. apply Hb; [done|lia]. }
  pose proof (data_Pop_spec h1 n k Hw ltac:(lia) Ho1) as Hp.
  rewrite Hqn, queue_Swap, swapped_r in Hp by lia. specialize (Hp Hq).
  destruct (data_Pop h1) as [o1 h2]. rewrite Hc in Hp. destruct Hp as (-> & _ & Hv2 & Hc2).
  rewrite (at_contents _ _ _ Hq) in Hat. exists k, o, h2. rewrite Hat. split_and!; [done..| |done|done].
  intros k' o' Hk'. destruct (contents_at h k' o' Hwf Hk') as (x & Hx & _ & Hatx).
  refine (valid_min h x Hv Hx o o' _ Hatx). by rewrite (at_contents _ _ _ Hq).
Qed.

Lemma addLocked_spec h key o :
  valid h → valid (addLocked less h key o) ∧
  contents (addLocked less h key o) = <[key := o]> (contents h).
Proof.
  intros Hv. unfold addLocked, addIfNotPresentLocked. destruct (items h !! key) as [[o' i]|] eqn:E.
  - by apply (heap_Fix_spec h i key o').
  - by apply heap_Push_spec.
Qed.

Lemma addIfNotPresentLocked_spec h key o :
  valid h → valid (addIfNotPresentLocked less h key o) ∧
  contents (addIfNotPresentLocked less h key o) =
    (if contents h !! key then contents h else <[key := o]> (contents h)).
Proof.
  intros Hv. unfold addIfNotPresentLocked, contents at 2. rewrite lookup_fmap.
  destruct (items h !! key) as [it|] eqn:E; simpl; [done|]. by apply heap_Push_spec.
Qed.
End order.

(** ** Runs and their specification *)

Section runs.
Context {V : Type} (keyFunc : V → result string string) (less : V → V → bool).

Inductive call : Type :=
  | CallAdd (o : V)
  | CallBulkAdd (l : list V)
  | CallAddIfNotPresent (o : V)
  | CallUpdate (o : V)
  | CallDelete (o : V)
  | CallPop
  | CallClose.

(** What a call returns; [OutWait] when [Pop] would block. *)
Inductive outcome : Type :=
  | OutErr (e : option (HeapError V))
  | OutObj (o : V)
  | OutWait.

Definition do_call (h : Heap V) (c : call) : outcome * Heap V :=
  match c with
  | CallAdd o => let '(e, h) := Add keyFunc less h o in (OutErr e, h)
  | CallBulkAdd l => let '(e, h) := BulkAdd keyFunc less h l in (OutErr e, h)
  | CallAddIfNotPresent o => let '(e, h) := AddIfNotPresent keyFunc less h o in (OutErr e, h)
  | CallUpdate o => let '(e, h) := Update keyFunc less h o in (OutErr e, h)
  | CallDelete o => let '(e, h) := Delete keyFunc less h o in (OutErr e, h)
  | CallPop =>
      match Pop less h with
      | Wait => (OutWait, h)
      | PopErr e h => (OutErr (Some e), h)
      | Popped o h => (OutObj o, h)
      end
  | CallClose => (OutErr None, Close h)
  end.

Fixpoint run (h : Heap V) (calls : list call) : list outcome * Heap V :=
  match calls with
  | [] => ([], h)
  | c :: calls =>
      let '(out, h) := do_call h c in
      let '(outs, h) := run h calls in (out :: outs, h)
  end.

(** The specification: objects by key and whether the heap is closed. [Pop] takes
    some object that no other one goes in front of. *)
Notation spec := (gmap string V * bool)%type.

Fixpoint spec_bulk (m : gmap string V) (l : list V) : option (HeapError V) * gmap string V :=
  match l with
  | [] => (None, m)
  | o :: l =>
      match keyFunc o with
      | Err e => (Some (KeyError o e), m)
      | Ok key => spec_bulk (<[key := o]> m) l
      end
  end.

Inductive spec_step : spec → call → outcome → spec → Prop :=
  | spec_add c o key m :
      c = CallAdd o ∨ c = CallUpdate o → keyFunc o = Ok key →
      spec_step (m, false) c (OutErr None) (<[key := o]> m, false)
  | spec_bulkAdd l e m m' :
      spec_bulk m l = (e, m') → spec_step (m, false) (CallBulkAdd l) (OutErr e) (m', false)
  | spec_addIfNew o key m :
      keyFunc o = Ok key → m !! key = None →
      spec_step (m, false) (CallAddIfNotPresent o) (OutErr None) (<[key := o]> m, false)
  | spec_addIfPresent o key o' m :
      keyFunc o = Ok key → m !! key = Some o' →
      spec_step (m, false) (CallAddIfNotPresent o) (OutErr None) (m, false)
  | spec_key c o e s :
      c ∈ [CallAdd o; CallUpdate o; CallAddIfNotPresent o; CallDelete o] → keyFunc o = Err e →
      spec_step s c (OutErr (Some (KeyError o e))) s
  | spec_closed c o key m :
      c ∈ [CallAdd o; CallUpdate o; CallAddIfNotPresent o] → keyFunc o = Ok key →
      spec_step (m, true) c (OutErr (Some Closed)) (m, true)
  | spec_bulkClosed l m : spec_step (m, true) (CallBulkAdd l) (OutErr (Some Closed)) (m, true)
  | spec_delete o key o' m b :
      keyFunc o = Ok key → m !! key = Some o' →
      spec_step (m, b) (CallDelete o) (OutErr None) (delete key m, b)
  | spec_deleteMissing o key m b :
      keyFunc o = Ok key → m !! key = None →
      spec_step (m, b) (CallDelete o) (OutErr (Some NotFound)) (m, b)
  | spec_pop key o m b :
      m !! key = Some o → (∀ key' o', m !! key' = Some o' → less o' o = false) →
      spec_step (m, b) CallPop (OutObj o) (delete key m, b)
  | spec_popClosed : spec_step (∅, true) CallPop (OutErr (Some Closed)) (∅, true)
  | spec_popWait : spec_step (∅, false) CallPop OutWait (∅, false)
  | spec_close m b : spec_step (m, b) CallClose (OutErr None) (m, true).

Inductive spec_run : spec → list call → list outcome → spec → Prop :=
  | spec_nil s : spec_run s [] [] s
  | spec_cons s c out s1 calls outs s2 :
      spec_step s c out s1 → spec_run s1 calls outs s2 →
      spec_run s (c :: calls) (out :: outs) s2.

Definition view (h : Heap V) : spec := (contents (data h), closed h).

Context `{!LessLaws less}.

Lemma bulk_loop_spec l d :
  valid less d →
  let '(e, d') := bulk_loop keyFunc less d l in
  valid less d' ∧ spec_bulk (contents d) l = (e, contents d').
Proof.
  revert d. induction l as [|o l IH]; intros d Hv; simpl; [done|].
  destruct (keyFunc o) as [key|e]; [|done].
  destruct (addLocked_spec less d key o Hv) as [Hv' <-]. by apply IH.
Qed.

Lemma Add_step h o c :
  c = CallAdd o ∨ c = CallUpdate o → valid less (data h) →
  let '(e, h') := Add keyFunc less h o in
  valid less (data h') ∧ spec_step (view h) c (OutErr e) (view h').
Proof.
  intros Hc Hv. unfold Add. destruct (keyFunc o) as [key|e] eqn:Ek.
  - destruct h as [d [|]]; simpl in *; unfold view; simpl.
    + split; [done|]. eapply spec_closed; [|done]. set_solver.
    + destruct (addLocked_spec less d key o Hv) as [Hv' ->]. split; [done|]. by eapply spec_add.
  - split; [done|]. apply spec_key; [set_solver|done].
Qed.

Lemma do_call_step h c :
  valid less (data h) →
  let '(out, h') := do_call h c in
  valid less (data h') ∧ spec_step (view h) c out (view h').
Proof.
  intros Hv. destruct c as [o|l|o|o|o| |]; cbn [do_call].
  - pose proof (Add_step h o (CallAdd o) ltac:(auto) Hv). by destruct (Add _ _ _ _).
  - unfold BulkAdd. destruct h as [d [|]]; simpl in *; [by split; [|apply spec_bulkClosed]|].
    pose proof (bulk_loop_spec l d Hv) as Hb. destruct (bulk_loop _ _ _ _) as [e d'].
    destruct Hb as [Hv' Hb]. split; [done|]. by apply spec_bulkAdd.
  - unfold AddIfNotPresent. destruct (keyFunc o) as [key|e] eqn:Ek.
    2:{ split; [done|]. apply spec_key; [set_solver|done]. }
    destruct h as [d [|]]; simpl in *; unfold view; simpl.
    + split; [done|]. eapply spec_closed; [|done]. set_solver.
    + destruct (addIfNotPresentLocked_spec less d key o Hv) as [Hv' ->]. split; [done|].
      destruct (contents d !! key) eqn:Ed; [by eapply spec_addIfPresent|by eapply spec_addIfNew].
  - pose proof (Add_step h o (CallUpdate o) ltac:(auto) Hv) as Ha. unfold Update.
    by destruct (Add _ _ _ _).
  - unfold Delete. destruct (keyFunc o) as [key|e] eqn:Ek.
    2:{ split; [done|]. apply spec_key; [set_solver|done]. }
    destruct h as [d b]; simpl in *. destruct (items d !! key) as [it|] eqn:Ei.
    + pose proof (wf_items d (valid_wf _ _ Hv) key it Ei) as Hq.
      pose proof (heap_Remove_spec less d (index it) key Hv Hq) as Hr.
      destruct (heap_Remove _ _ _) as [o' d']. destruct Hr as (_ & _ & Hv' & Hc).
      split; [done|]. unfold view. simpl. rewrite Hc. eapply spec_delete; [done|].
      unfold contents. by rewrite lookup_fmap, Ei.
    + split; [done|]. eapply spec_deleteMissing; [done|]. simpl. unfold contents.
      by rewrite lookup_fmap, Ei.
  - unfold Pop. destruct h as [d b]; simpl in *. case_bool_decide as Hl.
    + assert (contents d = ∅) as He.
      { apply map_empty. intros k. destruct (contents d !! k) as [o|] eqn:Eo; [|done].
        destruct (contents_at d k o (valid_wf _ _ Hv) Eo) as (i & Hi & _). unfold Len in Hi. lia. }
      unfold view. destruct b; simpl; rewrite He; (split; [done|constructor]).
    + destruct (heap_Pop_spec less d Hv Hl) as (k & o & d' & -> & Hk & Hmin & Hv' & Hc).
      split; [done|]. unfold view. simpl. rewrite Hc. by eapply spec_pop.
  - split; [done|]. apply spec_close.
Qed.

Lemma run_spec calls h :
  valid less (data h) →
  let '(outs, h') := run h calls in
  valid less (data h') ∧ spec_run (view h) calls outs (view h').
Proof.
  revert h. induction calls as [|c calls IH]; intros h Hv; simpl; [by split; [|constructor]|].
  pose proof (do_call_step h c Hv) as Hs. destruct (do_call h c) as [out h1].
  destruct Hs as [Hv1 Hs]. specialize (IH h1 Hv1). destruct (run h1 calls) as [outs h2].
  destruct IH as [Hv2 Hr]. split; [done|]. by eapply spec_cons.
Qed.

Lemma NewHeap_valid : valid less (data (@NewHeap V)).
Proof.
  split; simpl; [|intros x Hx _; unfold Len in Hx; simpl in Hx; lia].
  split; simpl; [by intros [|i] k|]. intros k it Hk. by rewrite lookup_empty in Hk.
Qed.

(** ** Draining the heap *)

(** Repeated calls of [Pop]. *)
Fixpoint drain (n : nat) (h : Heap V) : list V :=
  match n with
  | O => []
  | S n => match Pop less h with Popped o h => o :: drain n h | _ => [] end
  end.

Lemma drain_spec n h :
  valid less (data h) → n = size (contents (data h)) →
  StronglySorted (λ a b, less b a = false) (drain n h) ∧
  drain n h ≡ₚ (map_to_list (contents (data h))).*2.
Proof.
  revert h. induction n as [|n IH]; intros [d b] Hv Hn; simpl in *.
  { symmetry in Hn. apply map_size_empty_iff in Hn. rewrite Hn, map_to_list_empty.
    split; [constructor|done]. }
  unfold Pop. simpl. case_bool_decide as Hl.
  { exfalso. assert (contents d ≠ ∅) as Hc by (intros E; by rewrite E, map_size_empty in Hn).
    apply map_choose in Hc as (k & o & Hk).
    destruct (contents_at d k o (valid_wf _ _ Hv) Hk) as (i & Hi & _). unfold Len in Hi. lia. }
  destruct (heap_Pop_spec less d Hv Hl) as (k & o & d' & -> & Hk & Hmin & Hv' & Hc).
  destruct (IH (mkHeap d' b) Hv') as [Hs Hp]; simpl in *.
  { rewrite Hc, map_size_delete, Hk, <- Hn. simpl. lia. }
  assert ((map_to_list (contents d)).*2 ≡ₚ o :: (map_to_list (contents d')).*2) as Hd
    by (rewrite Hc; by rewrite <- (map_to_list_delete _ _ _ Hk)).
  split; [|by rewrite Hp].
  constructor; [done|]. rewrite Hp. apply Forall_forall. intros o' Ho'.
  assert (o' ∈ (map_to_list (contents d)).*2) as Hin by (rewrite Hd; by right).
  apply list_elem_of_fmap in Hin as ([k' ?] & -> & Hk'%elem_of_map_to_list). by eapply Hmin.
Qed.
End runs.

(** ** Correctness *)

(** C9: the heap refines a map of objects by key with a minimum. Whatever calls
    are made, each returns what the specification allows: in particular [Pop]
    returns, and removes, an object that no other one goes in front of, an
    insertion with a known key replaces the object, and a closed heap refuses
    insertions; and the heap stays in heap order with its positions right. *)
Theorem Heap_refines {V} (keyFunc : V → result string string) (less : V → V → bool)
    (calls : list (call (V := V))) :
  LessLaws less →
  let '(outs, h) := run keyFunc less NewHeap calls in
  valid less (data h) ∧ spec_run keyFunc less (∅, false) calls outs (view h).
Proof.
  intros Hless. pose proof (run_spec keyFunc less calls NewHeap (NewHeap_valid less)) as Hr.
  destruct (run keyFunc less NewHeap calls) as [outs h]. destruct Hr as [Hv Hr].
  split; [done|]. replace (∅, false) with (view (@NewHeap V)); [done|].
  unfold view. f_equal.
Qed.

(** As many calls of [Pop] as there are objects return all of them, each
    once, in the order of the comparison function. *)
Theorem drain_sorted {V} (keyFunc : V → result string string) (less : V → V → bool)
    (calls : list (call (V := V))) :
  LessLaws less →
  let h := (run keyFunc less NewHeap calls).2 in
  let out := drain less (length (List h)) h in
  StronglySorted (λ a b, less b a = false) out ∧ out ≡ₚ List h.
Proof.
  intros Hless. cbv zeta.
  pose proof (run_spec keyFunc less calls NewHeap (NewHeap_valid less)) as Hr.
  destruct (run keyFunc less NewHeap calls) as [outs h]. destruct Hr as [Hv _]. simpl.
  assert (List h = (map_to_list (contents (data h))).*2) as ->.
  { unfold List, contents. rewrite map_to_list_fmap, <- list_fmap_compose. done. }
  rewrite length_fmap, length_map_to_list. by apply drain_spec.
Qed.

(** ** Witnesses *)

Definition ex_key (o : string * Z) : result string string :=
  if bool_decide (o.1 = "") then Err "no key" else Ok o.1.

Definition ex_less (a b : string * Z) : bool := a.2 <? b.2.

#[local] Instance ex_less_laws : LessLaws ex_less.
Proof. split; unfold ex_less; intros; to_prop; apply Z.ltb_ge; lia. Qed.

Definition ex_calls : list (call (V := string * Z)) :=
  [CallAdd ("a", 5); CallAdd ("b", 3); CallBulkAdd [("c", 4); ("d", 1); ("", 0); ("e", 9)];
   CallUpdate ("a", 2); CallDelete ("b", 0); CallPop; CallClose; CallAdd ("f", 7)].

Lemma Heap_refines_witness :
  (run ex_key ex_less NewHeap ex_calls).1 =
    [OutErr None; OutErr None; OutErr (Some (KeyError ("", 0) "no key")); OutErr None;
     OutErr None; OutObj ("d", 1); OutErr None; OutErr (Some Closed)] ∧
  valid ex_less (data (run ex_key ex_less NewHeap ex_calls).2).
Proof.
  split; [vm_compute; reflexivity|].
  pose proof (Heap_refines ex_key ex_less ex_calls ex_less_laws) as Hr.
  destruct (run ex_key ex_less NewHeap ex_calls) as [outs h]. exact (proj1 Hr).
Defined.

Lemma drain_sorted_witness :
  let h := (run ex_key ex_less NewHeap ex_calls).2 in
  drain ex_less 2 h = [("a", 2); ("c", 4)] ∧
  StronglySorted (λ a b, ex_less b a = false) (drain ex_less (length (List h)) h).
Proof.
  split; [vm_compute; reflexivity|]. apply (drain_sorted ex_key ex_less ex_calls ex_less_laws).
Defined.
