(* ===== verification/DeltaFifo.v ===== *)
(** * The queue of deltas of client-go

    [staging/src/k8s.io/client-go/tools/cache/delta_fifo.go]: the queue between a
    reflector, which lists and watches objects, and the informer that keeps a
    store up to date. Every method runs under the lock of the queue. [Pop] may
    wait; the processing function it calls works on a state of its own. *)

From S2P Require Import Prelude.

Section deltas.
Context {V : Type} (keyFunc : V → result string string).

(** An object of the queue: an API object, or the marker that stands for an object
    whose deletion was missed, with the last known object if there is one. *)
Inductive object : Type :=
  | Plain (v : V)
  | DeletedFinalStateUnknown (key : string) (obj : option object).

Inductive DeltaType : Type := Added | Updated | Deleted | Sync.

#[global] Instance DeltaType_eq_dec : EqDecision DeltaType.
Proof. solve_decision. Defined.

Record Delta : Type := mkDelta {
  DType : DeltaType;
  Object : object;
}.

Local Notation Deltas := (list Delta).

Record DeltaFIFO : Type := mkFIFO {
  items : gmap string (list Delta);
  queue : list string;
  populated : bool;
  initialPopulationCount : Z;
  closed : bool;
}.

(** [knownObjects], an interface: the keys it lists, and the look-up of a key. *)
Record KeyListerGetter : Type := mkKnown {
  KnownKeys : list string;
  KnownGet : string → result string (option object);
}.

Inductive FifoError : Type :=
  | KeyError (obj : object) (err : string)
  | Enqueue (err : FifoError)
  | ZeroLengthDeltas
  | NilDelta.

Definition NewDeltaFIFO : DeltaFIFO := mkFIFO ∅ [] false 0 false.

Definition Close (f : DeltaFIFO) : DeltaFIFO :=
  mkFIFO (items f) (queue f) (populated f) (initialPopulationCount f) true.

Definition IsClosed (f : DeltaFIFO) : bool := closed f.

Definition Oldest (d : Deltas) : option Delta := head d.
Definition Newest (d : Deltas) : option Delta := last d.

(** [KeyOf] of an object, and of a list of deltas. *)
Definition KeyOf (obj : object) : result string string :=
  match obj with
  | DeletedFinalStateUnknown key _ => Ok key
  | Plain v => keyFunc v
  end.

Definition KeyOfDeltas (d : Deltas) : result FifoError string :=
  match Newest d with
  | None => Err ZeroLengthDeltas
  | Some n => match KeyOf (Object n) with Ok k => Ok k | Err e => Err (KeyError (Object n) e) end
  end.

Definition HasSynced (f : DeltaFIFO) : bool := populated f && (initialPopulationCount f =? 0).

Definition set_populated (f : DeltaFIFO) : DeltaFIFO :=
  mkFIFO (items f) (queue f) true (initialPopulationCount f) (closed f).

Definition set_items (f : DeltaFIFO) (items : gmap string (list Delta)) (queue : list string) :
    DeltaFIFO :=
  mkFIFO items queue (populated f) (initialPopulationCount f) (closed f).

(** ** Deduplication *)

(** Of two deletions, the one with the most information. *)
Definition isDeletionDup (a b : Delta) : option Delta :=
  if negb (bool_decide (DType b = Deleted)) || negb (bool_decide (DType a = Deleted)) then None
  else
    match Object b with
    | DeletedFinalStateUnknown _ _ => Some a
    | Plain _ => Some b
    end.

Definition isDup (a b : Delta) : option Delta :=
  match isDeletionDup a b with
  | Some out => Some out
  | None => None
  end.

Definition dedupDeltas (deltas : Deltas) : Deltas :=
  let n := length deltas in
  if bool_decide (n < 2)%nat then deltas
  else
    match deltas !! (n - 1)%nat, deltas !! (n - 2)%nat with
    | Some a, Some b =>
        match isDup a b with
        | Some out => take (n - 2) deltas ++ [out]
        | None => deltas
        end
    | _, _ => deltas
    end.

Definition willObjectBeDeletedLocked (f : DeltaFIFO) (id : string) : bool :=
  match last (default [] (items f !! id)) with
  | Some d => bool_decide (DType d = Deleted)
  | None => false
  end.

(** ** Producers *)

Definition queueActionLocked (f : DeltaFIFO) (actionType : DeltaType) (obj : object) :
    option FifoError * DeltaFIFO :=
  match KeyOf obj with
  | Err e => (Some (KeyError obj e), f)
  | Ok id =>
      if bool_decide (actionType = Sync) && willObjectBeDeletedLocked f id then (None, f)
      else
        let newDeltas := dedupDeltas (default [] (items f !! id) ++ [mkDelta actionType obj]) in
        if bool_decide (0 < length newDeltas)%nat then
          let queue := match items f !! id with Some _ => queue f | None => queue f ++ [id] end in
          (None, set_items f (<[id := newDeltas]> (items f)) queue)
        else (None, set_items f (delete id (items f)) (queue f))
  end.

Definition Add (f : DeltaFIFO) (obj : object) : option FifoError * DeltaFIFO :=
  queueActionLocked (set_populated f) Added obj.

Definition Update (f : DeltaFIFO) (obj : object) : option FifoError * DeltaFIFO :=
  queueActionLocked (set_populated f) Updated obj.

Definition Delete (knownObjects : option KeyListerGetter) (f : DeltaFIFO) (obj : object) :
    option FifoError * DeltaFIFO :=
  match KeyOf obj with
  | Err e => (Some (KeyError obj e), f)
  | Ok id =>
      let f := set_populated f in
      let missing := bool_decide (items f !! id = None) in
      let skip :=
        match knownObjects with
        | None => missing
        | Some known =>
            match KnownGet known id with
            | Ok None => missing
            | _ => false
            end
        end in
      if skip then (None, f) else queueActionLocked f Deleted obj
  end.

Definition addIfNotPresent (f : DeltaFIFO) (id : string) (deltas : Deltas) : DeltaFIFO :=
  let f := set_populated f in
  match items f !! id with
  | Some _ => f
  | None => set_items f (<[id := deltas]> (items f)) (queue f ++ [id])
  end.

(** [AddIfNotPresent] of a list of deltas; an empty one makes Go panic on the nil
    that [Newest] returns. *)
Definition AddIfNotPresent (f : DeltaFIFO) (deltas : Deltas) : option FifoError * DeltaFIFO :=
  match Newest deltas with
  | None => (Some NilDelta, f)
  | Some n =>
      match KeyOf (Object n) with
      | Err e => (Some (KeyError (Object n) e), f)
      | Ok id => (None, addIfNotPresent f id deltas)
      end
  end.

(** The first loop of [Replace]: a [Sync] delta for every object of the list. *)
Fixpoint replace_sync (f : DeltaFIFO) (keys : gset string) (l : list object) :
    option FifoError * (DeltaFIFO * gset string) :=
  match l with
  | [] => (None, (f, keys))
  | item :: l =>
      match KeyOf item with
      | Err e => (Some (KeyError item e), (f, keys))
      | Ok key =>
          let keys := {[key]} ∪ keys in
          let '(err, f) := queueActionLocked f Sync item in
          match err with
          | Some e => (Some (Enqueue e), (f, keys))
          | None => replace_sync f keys l
          end
      end
  end.

(** The loop that queues deletions of the queue's own items, without known objects. *)
Fixpoint replace_own (f : DeltaFIFO) (keys : gset string) (l : list (string * list Delta)) :
    option FifoError * DeltaFIFO :=
  match l with
  | [] => (None, f)
  | (k, oldItem) :: l =>
      if bool_decide (k ∈ keys) then replace_own f keys l
      else
        let deletedObj := Object <$> Newest oldItem in
        let '(err, f) := queueActionLocked f Deleted (DeletedFinalStateUnknown k deletedObj) in
        match err with
        | Some e => (Some e, f)
        | None => replace_own f keys l
        end
  end.

(** The loop that queues deletions of the known objects, with their number. *)
Fixpoint replace_known (known : KeyListerGetter) (f : DeltaFIFO) (keys : gset string)
    (knownKeys : list string) (queuedDeletions : Z) : option FifoError * (DeltaFIFO * Z) :=
  match knownKeys with
  | [] => (None, (f, queuedDeletions))
  | k :: knownKeys =>
      if bool_decide (k ∈ keys) then replace_known known f keys knownKeys queuedDeletions
      else
        let deletedObj := match KnownGet known k with Ok obj => obj | Err _ => None end in
        let queuedDeletions := queuedDeletions + 1 in
        let '(err, f) := queueActionLocked f Deleted (DeletedFinalStateUnknown k deletedObj) in
        match err with
        | Some e => (Some e, (f, queuedDeletions))
        | None => replace_known known f keys knownKeys queuedDeletions
        end
  end.

(** The first [Replace] sets the number of objects to pop until [HasSynced]. *)
Definition populate (f : DeltaFIFO) (count : Z) : DeltaFIFO :=
  if populated f then f else mkFIFO (items f) (queue f) true count (closed f).

Definition Replace (knownObjects : option KeyListerGetter) (f : DeltaFIFO) (l : list object) :
    option FifoError * DeltaFIFO :=
  let '(err, (f, keys)) := replace_sync f ∅ l in
  match err with
  | Some e => (Some e, f)
  | None =>
      match knownObjects with
      | None =>
          let '(err, f) := replace_own f keys (map_to_list (items f)) in
          match err with
          | Some e => (Some e, f)
          | None => (None, populate f (Z.of_nat (length l)))
          end
      | Some known =>
          let '(err, (f, queuedDeletions)) := replace_known known f keys (KnownKeys known) 0 in
          match err with
          | Some e => (Some e, f)
          | None => (None, populate f (Z.of_nat (length l) + queuedDeletions))
          end
      end
  end.

Definition syncKeyLocked (known : KeyListerGetter) (f : DeltaFIFO) (key : string) :
    option FifoError * DeltaFIFO :=
  match KnownGet known key with
  | Err _ => (None, f)
  | Ok None => (None, f)
  | Ok (Some obj) =>
      match KeyOf obj with
      | Err e => (Some (KeyError obj e), f)
      | Ok id =>
          if bool_decide (0 < length (default [] (items f !! id)))%nat then (None, f)
          else
            let '(err, f) := queueActionLocked f Sync obj in
            match err with
            | Some e => (Some (Enqueue e), f)
            | None => (None, f)
            end
      end
  end.

Fixpoint resync_keys (known : KeyListerGetter) (f : DeltaFIFO) (keys : list string) :
    option FifoError * DeltaFIFO :=
  match keys with
  | [] => (None, f)
  | k :: keys =>
      let '(err, f) := syncKeyLocked known f k in
      match err with
      | Some e => (Some e, f)
      | None => resync_keys known f keys
      end
  end.

Definition Resync (knownObjects : option KeyListerGetter) (f : DeltaFIFO) :
    option FifoError * DeltaFIFO :=
  match knownObjects with
  | None => (None, f)
  | Some known => resync_keys known f (KnownKeys known)
  end.

(** ** The consumer *)

(** The error of a processing function; [ErrRequeue] asks to queue the item again. *)
Inductive ProcessError : Type :=
  | ErrRequeue (err : option string)
  | ProcessFailed (err : string).

(** What [Pop] does when it runs: it waits with the queue it has left, reports the
    closed queue, or returns the item, the error, and the new states. *)
Inductive PopResult (P : Type) : Type :=
  | PopWait (f : DeltaFIFO)
  | PopClosed (f : DeltaFIFO)
  | Popped (item : Deltas) (err : option string) (f : DeltaFIFO) (p : P).

Arguments PopWait {P} f.
Arguments PopClosed {P} f.
Arguments Popped {P} item err f p.

(** The loop of [Pop], by recursion on the queue it consumes. *)
Fixpoint pop_loop {P} (process : Deltas → P → option ProcessError * P) (f : DeltaFIFO)
    (queue : list string) (count : Z) (p : P) : PopResult P :=
  match queue with
  | [] =>
      let f := mkFIFO (items f) [] (populated f) count (closed f) in
      if IsClosed f then PopClosed f else PopWait f
  | id :: queue =>
      let count := if 0 <? count then count - 1 else count in
      match items f !! id with
      | None => pop_loop process f queue count p
      | Some item =>
          let f := mkFIFO (delete id (items f)) queue (populated f) count (closed f) in
          let '(err, p) := process item p in
          match err with
          | Some (ErrRequeue e) => Popped item e (addIfNotPresent f id item) p
          | Some (ProcessFailed e) => Popped item (Some e) f p
          | None => Popped item None f p
          end
      end
  end.

Definition Pop {P} (process : Deltas → P → option ProcessError * P) (f : DeltaFIFO) (p : P) :
    PopResult P :=
  pop_loop process f (queue f) (initialPopulationCount f) p.

(** ** Reading *)

Definition listLocked (f : DeltaFIFO) : list (option object) :=
  (λ kv, Object <$> Newest kv.2) <$> map_to_list (items f).

Definition ListKeys (f : DeltaFIFO) : list string := (map_to_list (items f)).*1.

Definition GetByKey (f : DeltaFIFO) (key : string) : option Deltas := items f !! key.

Definition Get (f : DeltaFIFO) (obj : object) : result FifoError (option Deltas) :=
  match KeyOf obj with
  | Err e => Err (KeyError obj e)
  | Ok key => Ok (GetByKey f key)
  end.
End deltas.
Arguments object : clear implicits.
Arguments Delta : clear implicits.
Notation Deltas V := (list (Delta V)).
Arguments DeltaFIFO : clear implicits.
Arguments KeyListerGetter : clear implicits.
Arguments FifoError : clear implicits.
Arguments PopResult : clear implicits.
Arguments PopWait {V P} f.
Arguments PopClosed {V P} f.
Arguments Popped {V P} item err f p.

(** ** Invariant *)

Section proofs.
Context {V : Type} (keyFunc : V → result string string).
Implicit Types (f : DeltaFIFO V) (ds : list (Delta V)) (obj : object V).

(** What the code depends on: the queue holds the keys of the items, each once, and
    every item has a delta. *)
Record wf f : Prop := {
  wf_nodup : NoDup (queue f);
  wf_keys k : k ∈ queue f ↔ is_Some (items f !! k);
  wf_nonempty k : items f !! k ≠ Some [];
}.

Lemma wf_lookup f k : wf f → items f !! k = None ↔ k ∉ queue f.
Proof. intros Hwf. rewrite (wf_keys f Hwf), eq_None_not_Some. done. Qed.

Lemma dedupDeltas_snoc ds d :
  ∃ ds' d', dedupDeltas (ds ++ [d]) = ds' ++ [d'] ∧ DType d' = DType d ∧
    (DType d ≠ Deleted → d' = d) ∧ d' ∈ ds ++ [d] ∧ ∀ x, x ∈ ds' → x ∈ ds.
Proof.
  unfold dedupDeltas. rewrite length_app. simpl. case_bool_decide as Hn.
  { exists ds, d. set_solver. }
  rewrite lookup_app_r by lia. replace (length ds + 1 - 1 - length ds)%nat with 0%nat by lia. simpl.
  rewrite lookup_app_l by lia.
  destruct (lookup_lt_is_Some_2 ds (length ds + 1 - 2)) as [b Hb]; [lia|]. rewrite Hb.
  unfold isDup, isDeletionDup.
  destruct (decide (DType b = Deleted)) as [Eb|Eb];
    [|rewrite (bool_decide_false (DType b = Deleted)) by done; simpl; exists ds, d; set_solver].
  rewrite (bool_decide_true (DType b = Deleted)) by done. simpl.
  case_bool_decide as Ed; simpl; [|exists ds, d; set_solver].
  rewrite take_app_le by lia. exists (take (length ds + 1 - 2) ds).
  assert (∀ x, x ∈ take (length ds + 1 - 2) ds → x ∈ ds) as Ht
    by (intros x (i & ? & _)%elem_of_take; by eapply list_elem_of_lookup_2).
  destruct (Object b).
  - exists b. split_and!; [done|congruence|done|apply elem_of_app; left; by eapply list_elem_of_lookup_2|done].
  - exists d. set_solver.
Qed.

(** What [queueActionLocked] does with an object of key [id]. *)
Definition queued f (t : DeltaType) obj (id : string) f' : Prop :=
  ∃ ds d, items f' = <[id := ds ++ [d]]> (items f) ∧ DType d = t ∧
    (t ≠ Deleted → d = mkDelta t obj) ∧
    (∀ x, x ∈ ds ++ [d] → x ∈ default [] (items f !! id) ∨ x = mkDelta t obj) ∧
    queue f' = (if items f !! id then queue f else queue f ++ [id]).

Lemma queueActionLocked_spec f t obj id :
  KeyOf keyFunc obj = Ok id →
  ∃ f', queueActionLocked keyFunc f t obj = (None, f') ∧
    populated f' = populated f ∧ initialPopulationCount f' = initialPopulationCount f ∧
    ((t = Sync ∧ willObjectBeDeletedLocked f id = true ∧ f' = f) ∨
     ((t = Sync → willObjectBeDeletedLocked f id = false) ∧ queued f t obj id f')).
Proof.
  intros Hid. unfold queueActionLocked. rewrite Hid.
  destruct (bool_decide (t = Sync) && willObjectBeDeletedLocked f id) eqn:E.
  { to_prop. eexists. split_and!; [done..|]. auto. }
  destruct (dedupDeltas_snoc (default [] (items f !! id)) (mkDelta t obj))
    as (ds & d & -> & Ht & Hd & Hin & Hsub).
  rewrite bool_decide_true by (rewrite length_app; simpl; lia).
  eexists. split_and!; [done..|]. right. split.
  { intros ->. by destruct (willObjectBeDeletedLocked f id). }
  exists ds, d. simpl. split_and!; [done..| |by destruct (items f !! id)].
  intros x [Hx| ->%list_elem_of_singleton]%elem_of_app; [auto|]. set_solver.
Qed.

Lemma queued_wf f t obj id f' : wf f → queued f t obj id f' → wf f'.
Proof.
  intros Hwf (ds & d & Hi & _ & _ & _ & Hq). split.
  - rewrite Hq. destruct (items f !! id) eqn:E; [apply Hwf|]. apply NoDup_app. split_and!.
    + apply Hwf.
    + intros x Hx ->%list_elem_of_singleton. by apply wf_lookup in E.
    + apply NoDup_singleton.
  - intros k. rewrite Hq, Hi, lookup_insert_is_Some'. destruct (items f !! id) eqn:E.
    + rewrite (wf_keys f Hwf). split; [auto|]. intros [<-|]; [by rewrite E|done].
    + rewrite elem_of_app, list_elem_of_singleton, (wf_keys f Hwf). naive_solver.
  - intros k Hk. rewrite Hi in Hk. apply lookup_insert_Some in Hk as [[_ Hk]|[_ Hk]].
    + by destruct ds.
    + by apply (wf_nonempty f Hwf k).
Qed.

Lemma queueActionLocked_wf f t obj : wf f → wf (queueActionLocked keyFunc f t obj).2.
Proof.
  intros Hwf. destruct (KeyOf keyFunc obj) as [id|e] eqn:E.
  - destruct (queueActionLocked_spec f t obj id E) as (f' & -> & _ & _ & [(_ & _ & ->)|[_ Hq]]); [done|].
    by eapply queued_wf.
  - unfold queueActionLocked. by rewrite E.
Qed.

Lemma set_populated_wf f : wf f → wf (set_populated f).
Proof. by intros [? ? ?]. Qed.

Lemma populate_wf f n : wf f → wf (populate f n).
Proof. intros [? ? ?]. unfold populate. by destruct (populated f). Qed.

Lemma replace_sync_wf f keys l : wf f → wf (replace_sync keyFunc f keys l).2.1.
Proof.
  revert f keys. induction l as [|item l IH]; intros f keys Hwf; simpl; [done|].
  destruct (KeyOf keyFunc item); [|done].
  pose proof (queueActionLocked_wf f Sync item Hwf) as Hq.
  destruct (queueActionLocked _ _ _ _) as [[e|] f']; [done|]. by apply IH.
Qed.

Lemma replace_own_wf f keys l : wf f → wf (replace_own keyFunc f keys l).2.
Proof.
  revert f. induction l as [|[k old] l IH]; intros f Hwf; simpl; [done|].
  case_bool_decide; [by apply IH|].
  pose proof (queueActionLocked_wf f Deleted (DeletedFinalStateUnknown k (Object <$> Newest old)) Hwf).
  destruct (queueActionLocked _ _ _ _) as [[e|] f']; [done|]. by apply IH.
Qed.

Lemma replace_known_wf known f keys ks n : wf f → wf (replace_known keyFunc known f keys ks n).2.1.
Proof.
  revert f n. induction ks as [|k ks IH]; intros f n Hwf; simpl; [done|].
  case_bool_decide; [by apply IH|].
  match goal with |- context [queueActionLocked _ f Deleted ?o] =>
    pose proof (queueActionLocked_wf f Deleted o Hwf) end.
  destruct (queueActionLocked _ _ _ _) as [[e|] f']; [done|]. by apply IH.
Qed.

Lemma Replace_wf known f l : wf f → wf (Replace keyFunc known f l).2.
Proof.
  intros Hwf. unfold Replace. pose proof (replace_sync_wf f ∅ l Hwf) as Hs.
  destruct (replace_sync _ _ _ _) as [[e|] [f1 keys]]; [done|]. simpl in Hs.
  destruct known as [known|].
  - pose proof (replace_known_wf known f1 keys (KnownKeys known) 0 Hs) as Hk.
    destruct (replace_known _ _ _ _ _ _) as [[e|] [f2 n]]; [done|]. by apply populate_wf.
  - pose proof (replace_own_wf f1 keys (map_to_list (items f1)) Hs) as Hk.
    destruct (replace_own _ _ _ _) as [[e|] f2]; [done|]. by apply populate_wf.
Qed.

Lemma syncKeyLocked_wf known f k : wf f → wf (syncKeyLocked keyFunc known f k).2.
Proof.
  intros Hwf. unfold syncKeyLocked. destruct (KnownGet known k) as [[obj|]|]; [|done..].
  destruct (KeyOf keyFunc obj); [|done]. case_bool_decide; [done|].
  pose proof (queueActionLocked_wf f Sync obj Hwf) as Hq.
  by destruct (queueActionLocked _ _ _ _) as [[e|] f'].
Qed.

Lemma Resync_wf known f : wf f → wf (Resync keyFunc known f).2.
Proof.
  intros Hwf. destruct known as [known|]; [|done]. unfold Resync. revert f Hwf.
  induction (KnownKeys known) as [|k ks IH]; intros f Hwf; simpl; [done|].
  pose proof (syncKeyLocked_wf known f k Hwf) as Hk.
  destruct (syncKeyLocked _ _ _ _) as [[e|] f']; [done|]. by apply IH.
Qed.

Lemma Delete_wf known f obj : wf f → wf (Delete keyFunc known f obj).2.
Proof.
  intros Hwf%set_populated_wf. unfold Delete. destruct (KeyOf keyFunc obj) eqn:E.
  - cbv zeta. destruct (match known with None => _ | Some _ => _ end); [done|].
    by apply queueActionLocked_wf.
  - simpl. destruct Hwf as [H1 H2 H3]. by split.
Qed.

Lemma addIfNotPresent_wf f id ds : wf f → ds ≠ [] → wf (addIfNotPresent f id ds).
Proof.
  intros Hwf Hds. unfold addIfNotPresent. simpl. destruct (items f !! id) eqn:E.
  { by apply set_populated_wf. }
  split; simpl.
  - apply NoDup_app. split_and!; [apply Hwf| |apply NoDup_singleton].
    intros x Hx ->%list_elem_of_singleton. by apply wf_lookup in E.
  - intros k. rewrite elem_of_app, list_elem_of_singleton, lookup_insert_is_Some', (wf_keys f Hwf).
    naive_solver.
  - intros k [[_ Hk]|[_ Hk]]%lookup_insert_Some; [done|]. by apply (wf_nonempty f Hwf k).
Qed.

(** What is left after the head of the queue is taken. *)
Definition popped f (id : string) (q : list string) : DeltaFIFO V :=
  mkFIFO (delete id (items f)) q (populated f)
    (if 0 <? initialPopulationCount f then initialPopulationCount f - 1
     else initialPopulationCount f) (closed f).

Lemma popped_wf f id q : wf f → queue f = id :: q → wf (popped f id q).
Proof.
  intros Hwf Hq. pose proof (wf_nodup f Hwf) as Hnd. rewrite Hq in Hnd.
  apply NoDup_cons in Hnd as [Hid Hnd]. split; simpl; [done|..].
  - intros k. pose proof (wf_keys f Hwf k) as Hk. rewrite Hq, elem_of_cons in Hk.
    destruct (decide (k = id)) as [->|Hne].
    + rewrite lookup_delete_eq. split; [done|by intros []].
    + rewrite lookup_delete_ne by done. naive_solver.
  - intros k [_ Hk]%lookup_delete_Some. by apply (wf_nonempty f Hwf k).
Qed.

(** [Pop] takes the head of the queue: no key of a well-formed queue is stale. *)
Lemma Pop_spec {P} (process : Deltas V → P → option ProcessError * P) f (p : P) :
  wf f →
  match queue f with
  | [] => Pop process f p = (if closed f then PopClosed f else PopWait f)
  | id :: q =>
      ∃ item, items f !! id = Some item ∧ item ≠ [] ∧
        Pop process f p =
          let '(err, p') := process item p in
          match err with
          | Some (ErrRequeue e) => Popped item e (addIfNotPresent (popped f id q) id item) p'
          | Some (ProcessFailed e) => Popped item (Some e) (popped f id q) p'
          | None => Popped item None (popped f id q) p'
          end
  end.
Proof.
  intros Hwf. unfold Pop. destruct (queue f) as [|id q] eqn:Eq; simpl.
  { destruct f; simpl in *; subst. done. }
  assert (is_Some (items f !! id)) as [item Hitem] by (apply (wf_keys f Hwf); rewrite Eq; left).
  exists item. rewrite Hitem. split_and!; [done| |done].
  intros ->. by apply (wf_nonempty f Hwf id).
Qed.
End proofs.

(** ** Runs *)

Section runs.
Context {V : Type} (keyFunc : V → result string string).

(** The calls of producers and consumers; [CallPop] carries the answer of the
    processing function, [known] the known objects at the time of the call. *)
Inductive call : Type :=
  | CallAdd (obj : object V)
  | CallUpdate (obj : object V)
  | CallDelete (known : option (KeyListerGetter V)) (obj : object V)
  | CallAddIfNotPresent (deltas : Deltas V)
  | CallReplace (known : option (KeyListerGetter V)) (l : list (object V))
  | CallResync (known : option (KeyListerGetter V))
  | CallPop (answer : option ProcessError)
  | CallClose.

Definition do_call (f : DeltaFIFO V) (c : call) : DeltaFIFO V :=
  match c with
  | CallAdd obj => (Add keyFunc f obj).2
  | CallUpdate obj => (Update keyFunc f obj).2
  | CallDelete known obj => (Delete keyFunc known f obj).2
  | CallAddIfNotPresent deltas => (AddIfNotPresent keyFunc f deltas).2
  | CallReplace known l => (Replace keyFunc known f l).2
  | CallResync known => (Resync keyFunc known f).2
  | CallPop answer =>
      match Pop (λ _ p, (answer, p)) f tt with
      | PopWait f | PopClosed f | Popped _ _ f _ => f
      end
  | CallClose => Close f
  end.

Lemma do_call_wf f c : wf f → wf (do_call f c).
Proof.
  intros Hwf. destruct c; simpl.
  - by apply queueActionLocked_wf, set_populated_wf.
  - by apply queueActionLocked_wf, set_populated_wf.
  - by apply Delete_wf.
  - unfold AddIfNotPresent. destruct (Newest deltas) as [n|] eqn:En; [|done].
    destruct (KeyOf keyFunc (Object n)); [|done]. apply addIfNotPresent_wf; [done|by intros ->].
  - by apply Replace_wf.
  - by apply Resync_wf.
  - pose proof (Pop_spec (λ _ p, (answer, p)) f tt Hwf) as Hp.
    destruct (queue f) as [|id q] eqn:Eq.
    + rewrite Hp. by destruct (closed f).
    + destruct Hp as (item & Hi & Hne & ->). pose proof (popped_wf f id q Hwf Eq).
      destruct answer as [[e|e]|]; [by apply addIfNotPresent_wf|done..].
  - by destruct Hwf.
Qed.
End runs.
Arguments call : clear implicits.

(** ** Correctness *)

(** The property the queue's code depends on holds after any calls: the queue
    lists the keys of the pending items, each once, and every item has a delta.
    So [Pop] never meets a stale key: it hands the deltas of the key that was
    queued first to the processing function and removes them, or puts them back at
    the end when it is asked to. *)
Theorem DeltaFIFO_invariant {V} (keyFunc : V → result string string) (calls : list (call V)) :
  let f := fold_left (do_call keyFunc) calls NewDeltaFIFO in
  wf f ∧
  ∀ id q, queue f = id :: q →
    ∃ item, items f !! id = Some item ∧ item ≠ [] ∧
    ∀ P (process : Deltas V → P → option ProcessError * P) (p p' : P) err,
      process item p = (err, p') →
      ∃ err' f', Pop process f p = Popped item err' f' p' ∧
        (queue f', items f' !! id) =
          match err with Some (ErrRequeue _) => (q ++ [id], Some item) | _ => (q, None) end ∧
        ∀ k, k ≠ id → items f' !! k = items f !! k.
Proof.
  cbv zeta. assert (wf (fold_left (do_call keyFunc) calls NewDeltaFIFO)) as Hwf.
  { assert (wf (@NewDeltaFIFO V)) as Hnew.
    { split; simpl; [by apply NoDup_nil_2| |done]. intros k. rewrite lookup_empty.
      split; [by intros ?%not_elem_of_nil|by intros []]. }
    revert Hnew. generalize (@NewDeltaFIFO V). induction calls as [|c calls IH]; intros f Hf; [done|].
    simpl. apply IH. by apply do_call_wf. }
  set (f := fold_left _ _ _) in *. split; [done|]. intros id q Hq.
  assert (is_Some (items f !! id)) as [item Hi] by (apply (wf_keys f Hwf); rewrite Hq; left).
  exists item. split_and!; [done| |].
  { intros ->. by apply (wf_nonempty f Hwf id). }
  intros P process p p' err Hproc. pose proof (Pop_spec process f p Hwf) as Hp. rewrite Hq in Hp.
  destruct Hp as (item' & Hi' & _ & ->). assert (item' = item) as -> by congruence. rewrite Hproc.
  destruct err as [[e|e]|].
  - unfold addIfNotPresent. simpl. rewrite lookup_delete_eq.
    eexists _, _. split_and!; [done|simpl; by rewrite lookup_insert_eq|].
    intros k Hk. simpl. by rewrite lookup_insert_ne, lookup_delete_ne.
  - eexists _, _. split_and!; [done|simpl; by rewrite lookup_delete_eq|].
    intros k Hk. simpl. by rewrite lookup_delete_ne.
  - eexists _, _. split_and!; [done|simpl; by rewrite lookup_delete_eq|].
    intros k Hk. simpl. by rewrite lookup_delete_ne.
Qed.
