(* ===== verification/Informer.v ===== *)
(** * The informer: queue of deltas, store and handlers together

    [HandleDeltas] of [staging/src/k8s.io/client-go/tools/cache/shared_informer.go]
    and the loop of [controller.go], over the queue of [DeltaFifo.v] and the
    indexed store of [Store.v]. The store is also the queue's [knownObjects]. *)

From S2P Require Import Prelude Store DeltaFifo.

Section informer.
Context {V : Type} (keyFunc : V → result string string).

(** What the handlers are told. *)
Inductive notification : Type :=
  | addNotification (newObj : object V) (sync : bool)
  | updateNotification (oldObj newObj : object V) (sync : bool)
  | deleteNotification (oldObj : object V).

Record informer : Type := mkInformer {
  fifo : DeltaFIFO V;
  indexer : Store.cache (object V);
  log : list notification;
}.

(** [DeletionHandlingMetaNamespaceKeyFunc] over the key function of the objects is
    the queue's [KeyOf]. *)
Definition NewInformer (indexers : Indexers (object V)) : informer :=
  mkInformer NewDeltaFIFO (Store.NewIndexer (KeyOf keyFunc) indexers) [].

(** The store as the queue's known objects. *)
Definition knownObjects (c : Store.cache (object V)) : KeyListerGetter V :=
  mkKnown (Store.ListKeys (Store.cacheStorage c)) (λ key, Ok (Store.GetByKey c key)).

(** [HandleDeltas], from the oldest delta to the newest; the sequence of
    notifications stands for the calls of [distribute]. *)
Fixpoint HandleDeltas (deltas : Deltas V) (s : Store.cache (object V) * list notification) :
    option (StoreError (object V)) * (Store.cache (object V) * list notification) :=
  match deltas with
  | [] => (None, s)
  | d :: deltas =>
      let '(c, log) := s in
      match DType d with
      | Deleted =>
          match Store.cache_Delete c (Object d) with
          | Err e => (Some e, s)
          | Ok c => HandleDeltas deltas (c, log ++ [deleteNotification (Object d)])
          end
      | t =>
          let isSync := bool_decide (t = Sync) in
          match Store.cache_Get c (Object d) with
          | Ok (Some old) =>
              match Store.cache_Update c (Object d) with
              | Err e => (Some e, s)
              | Ok c => HandleDeltas deltas (c, log ++ [updateNotification old (Object d) isSync])
              end
          | _ =>
              match Store.cache_Add c (Object d) with
              | Err e => (Some e, s)
              | Ok c => HandleDeltas deltas (c, log ++ [addNotification (Object d) isSync])
              end
          end
      end
  end.

(** [HandleDeltas] as a processing function of the queue. *)
Definition process (deltas : Deltas V) (s : Store.cache (object V) * list notification) :
    option ProcessError * (Store.cache (object V) * list notification) :=
  let '(err, s) := HandleDeltas deltas s in
  ((λ _, ProcessFailed "store error") <$> err, s).

(** One turn of [processLoop]; when the queue is empty the loop waits or ends. *)
Definition processLoop_turn (retryOnError : bool) (s : informer) : informer :=
  match Pop process (fifo s) (indexer s, log s) with
  | PopWait f | PopClosed f => mkInformer f (indexer s) (log s)
  | Popped obj err f (c, log) =>
      let f :=
        match err with
        | Some _ => if retryOnError then (AddIfNotPresent keyFunc f obj).2 else f
        | None => f
        end in
      mkInformer f c log
  end.

(** ** Events *)

(** What the reflector reports, the periodic resync, and a turn of the loop. *)
Inductive event : Type :=
  | EvAdd (v : V)
  | EvUpdate (v : V)
  | EvDelete (v : V)
  | EvRelist (l : list V)
  | EvResync
  | EvProcess.

Definition set_fifo (s : informer) (f : DeltaFIFO V) : informer := mkInformer f (indexer s) (log s).

Definition step (s : informer) (e : event) : informer :=
  let known := Some (knownObjects (indexer s)) in
  match e with
  | EvAdd v => set_fifo s (DeltaFifo.Add keyFunc (fifo s) (Plain v)).2
  | EvUpdate v => set_fifo s (DeltaFifo.Update keyFunc (fifo s) (Plain v)).2
  | EvDelete v => set_fifo s (DeltaFifo.Delete keyFunc known (fifo s) (Plain v)).2
  | EvRelist l => set_fifo s (DeltaFifo.Replace keyFunc known (fifo s) (Plain <$> l)).2
  | EvResync => set_fifo s (DeltaFifo.Resync keyFunc known (fifo s)).2
  | EvProcess => processLoop_turn false s
  end.

(** ** The specification: the objects of the server as last reported *)

Definition put (m : gmap string V) (v : V) : gmap string V :=
  match keyFunc v with Ok k => <[k := v]> m | Err _ => m end.

Definition server_step (m : gmap string V) (e : event) : gmap string V :=
  match e with
  | EvAdd v | EvUpdate v => put m v
  | EvDelete v => match keyFunc v with Ok k => delete k m | Err _ => m end
  | EvRelist l => fold_left put l ∅
  | EvResync | EvProcess => m
  end.

(** A relist is safe when the queue does not end with the deletion of an object of
    the list, and every queued object that is in neither the list nor the store
    ends with its deletion. *)
Definition safe_relist (s : informer) (l : list V) : Prop :=
  (∀ v, v ∈ l → ∃ k, keyFunc v = Ok k ∧ willObjectBeDeletedLocked (fifo s) k = false) ∧
  (∀ k, is_Some (DeltaFifo.items (fifo s) !! k) → Store.GetByKey (indexer s) k = None →
     (∀ v, v ∈ l → keyFunc v ≠ Ok k) → willObjectBeDeletedLocked (fifo s) k = true).

Definition safe (s : informer) (e : event) : Prop :=
  match e with
  | EvRelist l => safe_relist s l
  | _ => True
  end.

(** Runs in which every relist is safe. *)
Inductive run : informer → list event → informer → Prop :=
  | run_nil s : run s [] s
  | run_cons s e es s' : safe s e → run (step s e) es s' → run s (e :: es) s'.

(** ** What the pending deltas come to *)

(** The object under a key after its deltas are handled. *)
Definition final (ds : Deltas V) (old : option (object V)) : option (object V) :=
  match last ds with
  | None => old
  | Some d => if decide (DType d = Deleted) then None else Some (Object d)
  end.

Definition pending (f : DeltaFIFO V) (k : string) (old : option (object V)) : option (object V) :=
  final (default [] (DeltaFifo.items f !! k)) old.

(** The deltas of a key are about it, and only deletions have no object. *)
Definition keyed (f : DeltaFIFO V) : Prop :=
  ∀ k ds d, DeltaFifo.items f !! k = Some ds → d ∈ ds →
    KeyOf keyFunc (Object d) = Ok k ∧ (DType d ≠ Deleted → ∃ v, Object d = Plain v).

Implicit Types (f : DeltaFIFO V).

Lemma final_snoc ds d old :
  final (ds ++ [d]) old = if decide (DType d = Deleted) then None else Some (Object d).
Proof. unfold final. by rewrite last_snoc. Qed.

Lemma queued_pending f t obj id f' k old :
  queued f t obj id f' →
  pending f' k old =
    if decide (k = id) then if decide (t = Deleted) then None else Some obj
    else pending f k old.
Proof.
  intros (ds & d & Hi & Ht & Hobj & _). unfold pending. rewrite Hi.
  destruct (decide (k = id)) as [->|Hne].
  - rewrite lookup_insert_eq. simpl. rewrite final_snoc, Ht.
    destruct (decide (t = Deleted)); [done|]. by rewrite Hobj.
  - by rewrite lookup_insert_ne.
Qed.

Lemma queued_keyed f t obj id f' :
  keyed f → KeyOf keyFunc obj = Ok id → (t ≠ Deleted → ∃ v, obj = Plain v) →
  queued f t obj id f' → keyed f'.
Proof.
  intros Hk Hid Hobj (ds & d & Hi & _ & _ & Hin & _) k ds' d' Hk' Hd'. rewrite Hi in Hk'.
  apply lookup_insert_Some in Hk' as [[<- <-]|[_ Hk']]; [|by eapply Hk].
  destruct (Hin d' Hd') as [Hold| ->]; [|done].
  destruct (DeltaFifo.items f !! id) as [ds0|] eqn:E; [|by apply not_elem_of_nil in Hold].
  by eapply Hk.
Qed.

Lemma willBeDeleted_pending f k :
  willObjectBeDeletedLocked f k = true →  ∀ old, pending f k old = None.
Proof.
  unfold willObjectBeDeletedLocked, pending, final. intros H old.
  destruct (last _); [|done]. apply bool_decide_eq_true in H. by rewrite decide_True.
Qed.

Lemma queued_willBeDeleted f t obj id f' k :
  queued f t obj id f' →
  willObjectBeDeletedLocked f' k =
    if decide (k = id) then bool_decide (t = Deleted) else willObjectBeDeletedLocked f k.
Proof.
  intros (ds & d & Hi & Ht & _). unfold willObjectBeDeletedLocked. rewrite Hi.
  destruct (decide (k = id)) as [->|Hne].
  - rewrite lookup_insert_eq. simpl. by rewrite last_snoc, Ht.
  - by rewrite lookup_insert_ne.
Qed.
End informer.
Arguments notification : clear implicits.
Arguments informer : clear implicits.
Arguments event : clear implicits.

(** ** The store *)

Section proofs.
Context {V : Type} (keyFunc : V → result string string).
Implicit Types (f : DeltaFIFO V) (c : Store.cache (object V)) (s : informer V).

Definition stored c : gmap string (object V) := Store.items (Store.cacheStorage c).

Definition store_ok c : Prop :=
  Store.refines (Store.cacheStorage c) (stored c, Store.indexers (Store.cacheStorage c)) ∧
  Store.keyFunc c = KeyOf keyFunc.

Lemma cache_put_spec c o k :
  store_ok c → KeyOf keyFunc o = Ok k →
  ∃ c', Store.cache_Add c o = Ok c' ∧ Store.cache_Update c o = Ok c' ∧ store_ok c' ∧
    stored c' = <[k := o]> (stored c).
Proof.
  intros [(Hix & _ & _ & Ht) Hk] Ho. unfold Store.cache_Add, Store.cache_Update. rewrite Hk, Ho.
  destruct (Store.Add_refines (Store.cacheStorage c) k o Hix Ht) as (m & Hadd & Hm).
  change (Store.Update (Store.cacheStorage c) k o) with (Store.Add (Store.cacheStorage c) k o).
  rewrite Hadd. simpl. eexists. split_and!; [done..| |].
  - split; [|done]. destruct Hm as (? & Hi & Hx & ?). unfold stored. simpl in *.
    split_and!; [done..|]. by rewrite Hx.
  - unfold stored. simpl. by destruct Hm as (_ & -> & _).
Qed.

Lemma cache_Delete_spec c o k :
  store_ok c → KeyOf keyFunc o = Ok k →
  ∃ c', Store.cache_Delete c o = Ok c' ∧ store_ok c' ∧ stored c' = delete k (stored c).
Proof.
  intros [Hr Hk] Ho. unfold Store.cache_Delete. rewrite Hk, Ho.
  destruct (Store.do_call_refines _ _ (Store.CallDelete k) Hr I) as (m & Hdel & Hm).
  simpl in Hdel. rewrite Hdel. simpl. eexists. split_and!; [done| |].
  - split; [|done]. destruct Hm as (? & Hi & Hx & ?). unfold stored. simpl in *.
    split_and!; [done..|]. by rewrite Hx.
  - unfold stored. simpl. by destruct Hm as (_ & -> & _).
Qed.

(** ** What the handlers can rely on

    [told l m]: the notifications [l] describe how a store came to hold [m]: an
    object is added when its key is free, and updated from the object that was
    there. *)
Inductive told : list (notification V) → gmap string (object V) → Prop :=
  | told_nil : told [] ∅
  | told_add l m k o sync :
      told l m → KeyOf keyFunc o = Ok k → m !! k = None →
      told (l ++ [addNotification o sync]) (<[k := o]> m)
  | told_update l m k old o sync :
      told l m → KeyOf keyFunc o = Ok k → m !! k = Some old →
      told (l ++ [updateNotification old o sync]) (<[k := o]> m)
  | told_delete l m k o :
      told l m → KeyOf keyFunc o = Ok k → told (l ++ [deleteNotification o]) (delete k m).

(** One delta: the store changes under its key, and the handlers are told. *)
Lemma handle_one d ds c log k :
  store_ok c → KeyOf keyFunc (Object d) = Ok k →
  ∃ c1 n, HandleDeltas (d :: ds) (c, log) = HandleDeltas ds (c1, log ++ [n]) ∧ store_ok c1 ∧
    stored c1 = partial_alter (final [d]) k (stored c) ∧
    (told log (stored c) → told (log ++ [n]) (stored c1)).
Proof.
  intros Hc Hd. cbn [HandleDeltas]. destruct (decide (DType d = Deleted)) as [Et|Et].
  { destruct (cache_Delete_spec c (Object d) k Hc Hd) as (c2 & Hdel & Hc2 & Hs2).
    exists c2, (deleteNotification (Object d)). rewrite Et, Hdel. split_and!; try done.
    - rewrite Hs2. apply partial_alter_ext. intros x _. unfold final. simpl. by rewrite decide_True.
    - rewrite Hs2. intros. by apply told_delete. }
  destruct (cache_put_spec c (Object d) k Hc Hd) as (c1 & Ha & Hu & Hc1 & Hs1).
  exists c1, (match stored c !! k with
    | Some old => updateNotification old (Object d) (bool_decide (DType d = Sync))
    | None => addNotification (Object d) (bool_decide (DType d = Sync)) end).
  assert (Store.cache_Get c (Object d) = Ok (stored c !! k)) as Hg.
  { unfold Store.cache_Get. destruct Hc as [_ ->]. by rewrite Hd. }
  split_and!; [|done| |].
  - rewrite Hg, Ha, Hu. by destruct (DType d), (stored c !! k).
  - rewrite Hs1. apply partial_alter_ext. intros x _. unfold final. simpl. by rewrite decide_False.
  - rewrite Hs1. intros. destruct (stored c !! k) eqn:E; [by apply told_update|by apply told_add].
Qed.

(** Handling the deltas of a key brings the store to what they come to. *)
Lemma HandleDeltas_spec ds c log k :
  store_ok c → (∀ d, d ∈ ds → KeyOf keyFunc (Object d) = Ok k) →
  told log (stored c) →
  ∃ c' log', HandleDeltas ds (c, log) = (None, (c', log')) ∧ store_ok c' ∧
    stored c' = partial_alter (final ds) k (stored c) ∧ told log' (stored c').
Proof.
  revert c log. induction ds as [|d ds IH]; intros c log Hc Hds Hlog.
  { exists c, log. split_and!; try done. by rewrite partial_alter_id. }
  destruct (handle_one d ds c log k Hc) as (c1 & n & -> & Hc1 & Hs1 & Hn); [apply Hds; left|].
  destruct (IH c1 (log ++ [n])) as (c' & log' & -> & Hc' & Hs & Hr); [done| |by auto|].
  { intros x Hx. apply Hds. by right. }
  exists c', log'. split_and!; try done. rewrite Hs, Hs1, partial_alter_partial_alter_eq.
  apply partial_alter_ext. intros x _. unfold final. simpl. rewrite last_cons.
  by destruct (last ds).
Qed.
End proofs.

(** ** Consistency of queue, store and server *)

Section consistency.
Context {V : Type} (keyFunc : V → result string string).
Implicit Types (f : DeltaFIFO V) (c : Store.cache (object V)) (s : informer V).

(** The store with the pending deltas handled is the server's state [m]. *)
Record consistent (m : gmap string V) s : Prop := {
  c_wf : wf (fifo s);
  c_store : store_ok keyFunc (indexer s);
  c_plain k o : stored (indexer s) !! k = Some o → ∃ v, o = Plain v ∧ keyFunc v = Ok k;
  c_keyed : keyed keyFunc (fifo s);
  c_pending k : pending (fifo s) k (stored (indexer s) !! k) = Plain <$> m !! k;
  c_told : told keyFunc (log s) (stored (indexer s));
}.

(** The part of the queue that consistency is about. *)
Definition same_queue f f' : Prop :=
  DeltaFifo.items f' = DeltaFifo.items f ∧ DeltaFifo.queue f' = DeltaFifo.queue f.

Lemma consistent_fifo m m' s f' :
  consistent m s → wf f' → keyed keyFunc f' →
  (∀ k, pending f' k (stored (indexer s) !! k) = Plain <$> m' !! k) →
  consistent m' (set_fifo s f').
Proof. intros [] Hwf Hk Hp. by split. Qed.

(** Queueing a change of one key. *)
Lemma consistent_queued m s t v k f0 f' :
  consistent m s → keyFunc v = Ok k → same_queue (fifo s) f0 → queued f0 t (Plain v) k f' →
  consistent (if decide (t = Deleted) then delete k m else <[k := v]> m) (set_fifo s f').
Proof.
  intros Hc Hk [Hi Hq] Hqd.
  assert (wf f0) as Hwf0 by (destruct (c_wf _ _ Hc); split; by rewrite ?Hi, ?Hq).
  assert (keyed keyFunc f0) as Hk0 by (unfold keyed; rewrite Hi; apply Hc).
  apply (consistent_fifo m); [done|by eapply queued_wf| |].
  - apply (queued_keyed keyFunc f0 t (Plain v) k); [done|exact Hk|by eauto|done].
  - intros k'. rewrite (queued_pending f0 t (Plain v) k f' k' _ Hqd).
    assert (pending f0 k' (stored (indexer s) !! k') = Plain <$> m !! k') as Hp
      by (unfold pending; rewrite Hi; apply Hc).
    destruct (decide (k' = k)) as [->|Hne].
    + case_decide; [by rewrite lookup_delete_eq|by rewrite lookup_insert_eq].
    + case_decide; [by rewrite lookup_delete_ne|by rewrite lookup_insert_ne].
Qed.

Lemma same_queue_populated f : same_queue f (set_populated f).
Proof. done. Qed.

Lemma step_put m s v t :
  t = Added ∨ t = Updated → consistent m s →
  consistent (put keyFunc m v)
    (set_fifo s (queueActionLocked keyFunc (set_populated (fifo s)) t (Plain v)).2).
Proof.
  intros Ht Hc. unfold put. destruct (keyFunc v) as [k|e] eqn:Ek.
  - destruct (queueActionLocked_spec keyFunc (set_populated (fifo s)) t (Plain v) k Ek)
      as (f' & -> & _ & _ & [[-> _]|[_ Hq]]); [by destruct Ht|].
    pose proof (consistent_queued m s t v k _ f' Hc Ek (same_queue_populated _) Hq) as H.
    rewrite decide_False in H by (by destruct Ht as [->| ->]). done.
  - unfold queueActionLocked. simpl. rewrite Ek.
    apply (consistent_fifo m); [done|apply set_populated_wf, Hc|apply Hc|apply Hc].
Qed.

Lemma step_delete m s v :
  consistent m s → consistent (server_step keyFunc m (EvDelete v)) (step keyFunc s (EvDelete v)).
Proof.
  intros Hc. simpl. unfold DeltaFifo.Delete. simpl. destruct (keyFunc v) as [k|e] eqn:Ek.
  2:{ simpl. apply (consistent_fifo m); [done|apply Hc..]. }
  assert (queueActionLocked keyFunc (set_populated (fifo s)) Deleted (Plain v) =
    (None, (queueActionLocked keyFunc (set_populated (fifo s)) Deleted (Plain v)).2) ∧
    consistent (delete k m)
      (set_fifo s (queueActionLocked keyFunc (set_populated (fifo s)) Deleted (Plain v)).2)) as [_ Hq].
  { destruct (queueActionLocked_spec keyFunc (set_populated (fifo s)) Deleted (Plain v) k Ek)
      as (f' & -> & _ & _ & [[? _]|[_ Hq]]); [done|]. split; [done|].
    by apply (consistent_queued m s Deleted v k _ f' Hc Ek (same_queue_populated _)). }
  change (Store.GetByKey (indexer s) k) with (stored (indexer s) !! k).
  destruct (stored (indexer s) !! k) as [o|] eqn:Es; [done|]. case_bool_decide as Ei; [|done].
  assert (m !! k = None) as Hm.
  { pose proof (c_pending _ _ Hc k) as Hp. unfold pending in Hp. rewrite Ei, Es in Hp.
    by destruct (m !! k). }
  rewrite delete_id by done.
  apply (consistent_fifo m); [done|apply set_populated_wf, Hc|apply Hc|apply Hc].
Qed.

(** ** Resync *)

Lemma step_syncKey m s k :
  consistent m s → 
  ∃ f', syncKeyLocked keyFunc (knownObjects (indexer s)) (fifo s) k = (None, f') ∧
    consistent m (set_fifo s f').
Proof.
  intros Hc. unfold syncKeyLocked. simpl.
  assert (consistent m (set_fifo s (fifo s))) as Hsame by (by destruct s).
  change (Store.GetByKey (indexer s) k) with (stored (indexer s) !! k).
  destruct (stored (indexer s) !! k) as [o|] eqn:Es; [|by eauto].
  destruct (c_plain _ _ Hc k o Es) as (v & -> & Hv). simpl. rewrite Hv.
  case_bool_decide as Hl; [by eauto|].
  destruct (queueActionLocked_spec keyFunc (fifo s) Sync (Plain v) k Hv)
    as (f' & -> & _ & _ & [(_ & _ & ->)|[_ Hq]]); [by eauto|]. exists f'. split; [done|].
  pose proof (consistent_queued m s Sync v k _ f' Hc Hv ltac:(done) Hq) as H.
  rewrite decide_False in H by done. rewrite insert_id in H; [done|].
  pose proof (c_pending _ _ Hc k) as Hp. unfold pending in Hp.
  destruct (default [] (DeltaFifo.items (fifo s) !! k)) as [|d ds] eqn:Ed; [|simpl in Hl; lia].
  unfold final in Hp. simpl in Hp. rewrite Es in Hp. by destruct (m !! k); simplify_eq/=.
Qed.

Lemma step_resync m s : consistent m s → consistent m (step keyFunc s EvResync).
Proof.
  simpl. generalize (Store.ListKeys (Store.cacheStorage (indexer s))) as ks. intros ks.
  revert s. induction ks as [|k ks IH]; intros s Hc; simpl; [by destruct s|].
  destruct (step_syncKey m s k Hc) as (f' & -> & Hc').
  apply (IH (set_fifo s f')). done.
Qed.

(** ** Relisting *)

Lemma fold_put_lookup l m k :
  fold_left (put keyFunc) l m !! k =
  match fold_left (put keyFunc) l ∅ !! k with Some v => Some v | None => m !! k end.
Proof.
  revert m. induction l as [|v l IH]; intros m; simpl; [by rewrite lookup_empty|].
  rewrite IH, (IH (put keyFunc ∅ v)). destruct (fold_left _ l ∅ !! k); [done|].
  unfold put. destruct (keyFunc v) as [k'|]; [|by rewrite lookup_empty].
  destruct (decide (k = k')) as [->|]; [by rewrite !lookup_insert_eq|].
  by rewrite !lookup_insert_ne, lookup_empty.
Qed.

Lemma fold_put_keys l k :
  is_Some (fold_left (put keyFunc) l ∅ !! k) ↔ ∃ v, v ∈ l ∧ keyFunc v = Ok k.
Proof.
  induction l as [|v l IH]; simpl.
  { rewrite lookup_empty. split; [by intros []|by intros (v & ?%not_elem_of_nil & _)]. }
  rewrite fold_put_lookup. destruct (fold_left _ l ∅ !! k) as [w|] eqn:E.
  - split; [|by eauto]. intros _. destruct IH as [IH _].
    destruct (IH ltac:(by eauto)) as (x & ? & ?). exists x. by split; [right|].
  - assert (keyFunc v ≠ Ok k →
      is_Some (None : option V) ↔ ∃ w, w ∈ v :: l ∧ keyFunc w = Ok k) as Hrest.
    { intros Hne. rewrite IH. split.
      - intros (w & Hw & Hk). exists w. by split; [right|].
      - intros (w & [->|Hw]%elem_of_cons & Hk); [done|by eauto]. }
    unfold put. destruct (keyFunc v) as [k'|e] eqn:Ek.
    + destruct (decide (k = k')) as [->|Hne].
      * rewrite lookup_insert_eq. split; [intros _; exists v; by split; [left|]|by eauto].
      * rewrite lookup_insert_ne, lookup_empty by done. apply Hrest. congruence.
    + rewrite lookup_empty. apply Hrest. congruence.
Qed.

(** The first loop of [Replace]. *)
Lemma replace_sync_spec l f keys :
  wf f → keyed keyFunc f →
  (∀ v, v ∈ l → ∃ k, keyFunc v = Ok k ∧ willObjectBeDeletedLocked f k = false) →
  ∃ f' keys', replace_sync keyFunc f keys (Plain <$> l) = (None, (f', keys')) ∧
    wf f' ∧ keyed keyFunc f' ∧
    (∀ k, k ∈ keys' ↔ k ∈ keys ∨ is_Some (fold_left (put keyFunc) l ∅ !! k)) ∧
    ∀ k old, pending f' k old =
      match fold_left (put keyFunc) l ∅ !! k with
      | Some v => Some (Plain v)
      | None => pending f k old
      end.
Proof.
  revert f keys. induction l as [|v l IH]; intros f keys Hwf Hk Hl.
  { exists f, keys. simpl. split_and!; [done..| |done]. intros k. rewrite lookup_empty.
    split; [auto|by intros [?|[]]]. }
  destruct (Hl v ltac:(left)) as (kv & Hkv & Hwd). rewrite fmap_cons. cbn [replace_sync fold_left].
  change (KeyOf keyFunc (Plain v)) with (keyFunc v). rewrite Hkv.
  destruct (queueActionLocked_spec keyFunc f Sync (Plain v) kv Hkv)
    as (f1 & -> & _ & _ & [(_ & ? & _)|[_ Hq]]); [congruence|].
  destruct (IH f1 ({[kv]} ∪ keys)) as (f' & keys' & -> & Hwf' & Hk' & Hkeys & Hp).
  - by eapply queued_wf.
  - apply (queued_keyed keyFunc f Sync (Plain v) kv); [done..|by eauto|done].
  - intros w Hw. destruct (Hl w ltac:(by right)) as (kw & Hkw & Hwd'). exists kw. split; [done|].
    rewrite (queued_willBeDeleted _ _ _ _ _ _ Hq). by case_decide.
  - assert (put keyFunc ∅ v = {[kv := v]}) as -> by (unfold put; by rewrite Hkv).
    exists f', keys'. split_and!; [done..| |].
    + intros k. rewrite Hkeys, (fold_put_lookup l {[kv := v]}), elem_of_union, elem_of_singleton.
      destruct (fold_left _ l ∅ !! k); [split; intros _; right; by eexists|].
      destruct (decide (k = kv)) as [->|]; [rewrite lookup_singleton_eq; naive_solver|].
      rewrite lookup_singleton_ne by done. naive_solver.
    + intros k old. rewrite Hp, (fold_put_lookup l {[kv := v]}). destruct (fold_left _ l ∅ !! k); [done|].
      rewrite (queued_pending _ _ _ _ _ _ _ Hq). case_decide as E.
      * subst. by rewrite lookup_singleton_eq.
      * by rewrite lookup_singleton_ne.
Qed.

(** The second loop of [Replace]. *)
Lemma replace_known_spec known f keys ks n :
  wf f → keyed keyFunc f →
  ∃ f' n', replace_known keyFunc known f keys ks n = (None, (f', n')) ∧ wf f' ∧
    keyed keyFunc f' ∧
    ∀ k old, pending f' k old =
      if decide (k ∈ ks ∧ k ∉ keys) then None else pending f k old.
Proof.
  revert f n. induction ks as [|k0 ks IH]; intros f n Hwf Hk; simpl.
  { exists f, n. by split_and!. }
  case_bool_decide as Hin.
  { destruct (IH f n Hwf Hk) as (f' & n' & -> & ? & ? & Hp). exists f', n'.
    split_and!; [done..|]. intros k old. rewrite Hp.
    repeat case_decide; set_solver. }
  match goal with |- context [queueActionLocked _ f Deleted ?o] =>
    destruct (queueActionLocked_spec keyFunc f Deleted o k0 eq_refl)
      as (f1 & -> & _ & _ & [[? _]|[_ Hq]]) end; [done|].
  destruct (IH f1 (n + 1)) as (f' & n' & -> & ? & ? & Hp); [by eapply queued_wf|
    eapply queued_keyed; [exact Hk| |done|exact Hq]; done|].
  exists f', n'. split_and!; [done..|]. intros k old.
  rewrite Hp, (queued_pending _ _ _ _ _ _ _ Hq). repeat case_decide; set_solver.
Qed.

Lemma step_relist m s l :
  consistent m s → safe_relist keyFunc s l →
  consistent (fold_left (put keyFunc) l ∅) (step keyFunc s (EvRelist l)).
Proof.
  intros Hc [Hs1 Hs2]. simpl. unfold DeltaFifo.Replace.
  destruct (replace_sync_spec l (fifo s) ∅ (c_wf _ _ Hc) (c_keyed _ _ Hc) Hs1)
    as (f1 & keys & -> & Hwf1 & Hk1 & Hkeys & Hp1).
  destruct (replace_known_spec (knownObjects (indexer s)) f1 keys
    (KnownKeys (knownObjects (indexer s))) 0 Hwf1 Hk1) as (f2 & n & -> & Hwf2 & Hk2 & Hp2).
  simpl. apply (consistent_fifo m); [done|by apply populate_wf| |].
  - unfold keyed, populate in *. by destruct (populated f2).
  - intros k. assert (pending (populate f2 (Z.of_nat (length (Plain <$> l)) + n)) k
      (stored (indexer s) !! k) = pending f2 k (stored (indexer s) !! k)) as ->
      by (unfold populate; by destruct (populated f2)).
    rewrite Hp2, Hp1. specialize (Hkeys k). rewrite elem_of_empty in Hkeys.
    assert (k ∈ KnownKeys (knownObjects (indexer s)) ↔ is_Some (stored (indexer s) !! k)) as Hkn.
    { simpl. unfold Store.ListKeys. rewrite list_elem_of_fmap. split.
      - intros ([k' o] & -> & Ho%elem_of_map_to_list). by exists o.
      - intros [o Ho]. exists (k, o). by rewrite elem_of_map_to_list. }
    destruct (fold_left (put keyFunc) l ∅ !! k) as [v|] eqn:El.
    { rewrite decide_False by naive_solver. done. }
    destruct (stored (indexer s) !! k) as [o|] eqn:Es; [by rewrite decide_True by naive_solver|].
    rewrite decide_False by (rewrite Hkn; naive_solver). simpl.
    unfold pending. destruct (DeltaFifo.items (fifo s) !! k) as [ds|] eqn:Ei; [|done].
    assert (willObjectBeDeletedLocked (fifo s) k = true) as Hwd.
    { apply Hs2; [by rewrite Ei|exact Es|]. intros v Hv Hkv.
      assert (is_Some (fold_left (put keyFunc) l ∅ !! k)) as [? ?]
        by (apply fold_put_keys; eauto). congruence. }
    pose proof (willBeDeleted_pending _ _ Hwd None) as H. unfold pending in H. by rewrite Ei in H.
Qed.

(** ** Processing *)

Lemma step_process m s :
  consistent m s →
  consistent m (step keyFunc s EvProcess) ∧
  DeltaFifo.queue (fifo (step keyFunc s EvProcess)) = tail (DeltaFifo.queue (fifo s)).
Proof.
  intros Hc. simpl. unfold processLoop_turn.
  pose proof (Pop_spec process (fifo s) (indexer s, log s) (c_wf _ _ Hc)) as Hpop.
  destruct (DeltaFifo.queue (fifo s)) as [|id q] eqn:Eq.
  { rewrite Hpop. destruct s as [f c l]; simpl in *. by destruct (closed f); split. }
  destruct Hpop as (item & Hi & Hne & ->).
  destruct (HandleDeltas_spec keyFunc item (indexer s) (log s) id) as (c' & log' & Hh & Hc' & Hst & Ht);
    [apply Hc| |apply Hc|].
  { intros d Hd. by apply (c_keyed _ _ Hc id item d). }
  unfold process. rewrite Hh. simpl. split; [|done]. split; simpl.
  - by apply popped_wf; [apply Hc|].
  - done.
  - intros k o. rewrite Hst, lookup_partial_alter. case_decide as E; [subst|by apply Hc].
    unfold final. destruct (last item) as [d|] eqn:El.
    + case_decide as Ed; [done|]. intros [= <-].
      assert (d ∈ item) as Hd by (apply last_Some in El as [l' ->]; set_solver).
      destruct (c_keyed _ _ Hc k item d Hi Hd) as [Hk Hv]. destruct (Hv Ed) as [v Ev].
      exists v. split; [done|]. by rewrite Ev in Hk.
    + by apply last_None in El.
  - intros k ds d Hk. simpl in Hk. apply lookup_delete_Some in Hk as [_ Hk]. revert Hk. by apply Hc.
  - intros k. pose proof (c_pending _ _ Hc k) as Hp. rewrite <- Hp. unfold pending. simpl.
    rewrite Hst, lookup_partial_alter. destruct (decide (id = k)) as [->|Hne'].
    + by rewrite lookup_delete_eq, Hi.
    + by rewrite lookup_delete_ne.
  - done.
Qed.

Lemma step_consistent m s e :
  consistent m s → safe keyFunc s e →
  consistent (server_step keyFunc m e) (step keyFunc s e).
Proof.
  intros Hc Hs. destruct e as [v|v|v|l| |].
  - apply step_put; auto.
  - apply step_put; auto.
  - by apply step_delete.
  - by eapply step_relist.
  - by apply step_resync.
  - by apply step_process.
Qed.

Lemma run_consistent m s es s' :
  run keyFunc s es s' → consistent m s →
  consistent (fold_left (server_step keyFunc) es m) s'.
Proof.
  intros Hrun. revert m. induction Hrun as [|s e es s' Hsafe Hrun IH]; intros m Hc; [done|].
  simpl. apply IH. by apply step_consistent.
Qed.

Lemma NewInformer_consistent ixs : Store.total_indexers ixs → consistent ∅ (NewInformer keyFunc ixs).
Proof.
  intros Ht. split; simpl.
  - split; simpl; [by apply NoDup_nil_2| |done]. intros k. rewrite lookup_empty.
    split; [by intros ?%not_elem_of_nil|by intros []].
  - split; [|done]. split_and!; [apply Store.New_indexed|done..].
  - intros k o Hk. unfold stored in Hk. simpl in Hk. by rewrite lookup_empty in Hk.
  - intros k ds d Hk. simpl in Hk. by rewrite lookup_empty in Hk.
  - intros k. unfold pending, stored. simpl. by rewrite !lookup_empty.
  - constructor.
Qed.

(** The loop empties the queue in as many turns as it has keys. *)
Lemma drain_queue m s n :
  consistent m s → length (DeltaFifo.queue (fifo s)) = n →
  ∃ s', run keyFunc s (replicate n EvProcess) s' ∧ consistent m s' ∧
    DeltaFifo.queue (fifo s') = [].
Proof.
  revert s. induction n as [|n IH]; intros s Hc Hn.
  { exists s. split_and!; [constructor|done|by apply nil_length_inv]. }
  destruct (step_process m s Hc) as [Hc1 Hq1].
  destruct (IH (step keyFunc s EvProcess) Hc1) as (s' & Hr & Hc' & Hq').
  { rewrite Hq1. destruct (DeltaFifo.queue (fifo s)); simpl in *; lia. }
  exists s'. split_and!; [by constructor|done..].
Qed.

Lemma consistent_drained m s :
  consistent m s → DeltaFifo.queue (fifo s) = [] → stored (indexer s) = Plain <$> m.
Proof.
  intros Hc Hq. apply map_eq. intros k. rewrite lookup_fmap, <- (c_pending _ _ Hc k).
  unfold pending. assert (DeltaFifo.items (fifo s) !! k = None) as ->; [|done].
  apply (wf_lookup _ _ (c_wf _ _ Hc)). rewrite Hq. apply not_elem_of_nil.
Qed.
End consistency.

(** ** Correctness *)

(** C3: the informer converges. After any additions, updates, deletions, resyncs,
    turns of the loop and safe relists, the loop needs as many turns as there are
    queued keys to empty the queue; the store then holds exactly the objects of
    the server as last reported, and the handlers were told every change of it: an
    addition for a new object, an update with the object it replaces. *)
Theorem informer_converges {V} (keyFunc : V → result string string)
    (ixs : Indexers (object V)) (es : list (event V)) (s : informer V) :
  total_indexers ixs → run keyFunc (NewInformer keyFunc ixs) es s →
  ∃ s', run keyFunc s (replicate (length (DeltaFifo.queue (fifo s))) EvProcess) s' ∧
    DeltaFifo.queue (fifo s') = [] ∧
    stored (indexer s') = Plain <$> fold_left (server_step keyFunc) es ∅ ∧
    told keyFunc (log s') (stored (indexer s')).
Proof.
  intros Ht Hrun.
  pose proof (run_consistent keyFunc ∅ _ es s Hrun (NewInformer_consistent keyFunc ixs Ht)) as Hc.
  destruct (drain_queue keyFunc _ s _ Hc eq_refl) as (s' & Hr & Hc' & Hq).
  exists s'. split_and!; [done..| |apply Hc']. by eapply consistent_drained.
Qed.

(** A relist with an empty queue is always safe. *)
Lemma empty_queue_safe {V} (keyFunc : V → result string string) (s : informer V) l :
  DeltaFifo.items (fifo s) = ∅ → Forall (λ v, is_ok (keyFunc v) = true) l →
  safe_relist keyFunc s l.
Proof.
  intros He Hl. split.
  - intros v Hv. rewrite Forall_forall in Hl. specialize (Hl v Hv).
    destruct (keyFunc v) as [k|]; [|done]. exists k. split; [done|].
    unfold willObjectBeDeletedLocked. by rewrite He, lookup_empty.
  - intros k [ds Hk]. by rewrite He, lookup_empty in Hk.
Qed.

(** ** Examples *)

Definition ex_keyFunc (v : string * Z) : result string string :=
  if bool_decide (v.1 = "") then Err "no name" else Ok v.1.

Definition ex_events (x y : Z) : list (event (string * Z)) :=
  [EvRelist [("a", x); ("b", x)]; EvProcess; EvUpdate ("a", y); EvDelete ("b", x); EvAdd ("c", y)].

Lemma informer_converges_witness :
  ∃ s', stored (indexer s') = Plain <$> fold_left (server_step ex_keyFunc) (ex_events 1 2) ∅ ∧
    fold_left (server_step ex_keyFunc) (ex_events 1 2) ∅ = {["a" := ("a", 2); "c" := ("c", 2)]}.
Proof.
  destruct (informer_converges ex_keyFunc ∅ (ex_events 1 2)
    (fold_left (step ex_keyFunc) (ex_events 1 2) (NewInformer ex_keyFunc ∅)))
    as (s' & _ & _ & Hst & _).
  - intros name f Hf. by rewrite lookup_empty in Hf.
  - repeat (constructor; [first [apply empty_queue_safe; [reflexivity|repeat constructor]|exact I]|]).
    constructor.
  - exists s'. split; [exact Hst|]. vm_compute. reflexivity.
Defined.

(** A relist can lose an object. When an object is deleted and made again
    before its queued deletion is handled, [Replace] ignores the [Sync] of the new
    object; the queue is empty afterwards, and the store lacks the object. *)
Theorem Replace_loses_recreated (x y : Z) :
  let es := [EvAdd ("a", x); EvProcess; EvDelete ("a", x); EvRelist [("a", y)]; EvProcess] in
  let s := fold_left (step ex_keyFunc) es (NewInformer ex_keyFunc ∅) in
  DeltaFifo.queue (fifo s) = [] ∧ Store.GetByKey (indexer s) "a" = None ∧
  fold_left (server_step ex_keyFunc) es ∅ !! "a" = Some ("a", y).
Proof. split_and!; vm_compute; reflexivity. Qed.

(** A relist can keep an object that is gone. An object that is still queued
    and not yet in the store is not among the known objects, so [Replace] with a
    list without it queues no deletion; the store then holds it for good. *)
Theorem Replace_keeps_unlisted (x : Z) :
  let es := [EvAdd ("a", x); EvRelist []; EvProcess] in
  let s := fold_left (step ex_keyFunc) es (NewInformer ex_keyFunc ∅) in
  DeltaFifo.queue (fifo s) = [] ∧ Store.GetByKey (indexer s) "a" = Some (Plain ("a", x)) ∧
  fold_left (server_step ex_keyFunc) es ∅ = ∅.
Proof. split_and!; vm_compute; reflexivity. Qed.
