(* ===== verification/LeaderElection.v ===== *)
(** * Leader election

    [staging/src/k8s.io/client-go/tools/leaderelection]: the elector of
    [leaderelection.go] over the lock of [resourcelock/configmaplock.go]. Times
    and durations are nanoseconds. The API server is a record with a version: an
    update must carry the current version, as the server documents for optimistic
    concurrency. *)

From S2P Require Import Prelude.
From stdpp Require Import functions.

#[local] Open Scope Z_scope.

Record LeaderElectionRecord : Type := mkRecord {
  HolderIdentity : string;
  LeaseDurationSeconds : Z;
  AcquireTime : Z;
  RenewTime : Z;
  LeaderTransitions : Z;
}.

#[global] Instance LeaderElectionRecord_eq_dec : EqDecision LeaderElectionRecord.
Proof. solve_decision. Defined.

Definition zeroRecord : LeaderElectionRecord := mkRecord "" 0 0 0 0.

Definition Second : Z := 1000000000.

(** ** Configuration *)

Record LeaderElectionConfig : Type := mkConfig {
  Identity : string;
  LeaseDuration : Z;
  RenewDeadline : Z;
  RetryPeriod : Z;
}.

Inductive ConfigError : Type :=
  | LeaseNotGreater
  | DeadlineNotGreater
  | LeaseZero
  | DeadlineZero
  | RetryZero.

(** The elector's bookkeeping. *)
Record LeaderElector : Type := mkElector {
  observedRecord : LeaderElectionRecord;
  observedTime : Z;
  reportedLeader : string;
}.

(** [NewLeaderElector]; [jittered] is the product of the retry period and the
    jitter factor in floating point. *)
Definition NewLeaderElector (jittered : Z → Z) (lec : LeaderElectionConfig) :
    result ConfigError LeaderElector :=
  if LeaseDuration lec <=? RenewDeadline lec then Err LeaseNotGreater
  else if RenewDeadline lec <=? jittered (RetryPeriod lec) then Err DeadlineNotGreater
  else if LeaseDuration lec <? 1 then Err LeaseZero
  else if RenewDeadline lec <? 1 then Err DeadlineZero
  else if RetryPeriod lec <? 1 then Err RetryZero
  else Ok (mkElector zeroRecord 0 "").

Definition GetLeader (le : LeaderElector) : string := HolderIdentity (observedRecord le).

Definition IsLeader (lec : LeaderElectionConfig) (le : LeaderElector) : bool :=
  bool_decide (HolderIdentity (observedRecord le) = Identity lec).

(** [maybeReportTransition], with the identity it reports. *)
Definition maybeReportTransition (le : LeaderElector) : option string * LeaderElector :=
  if bool_decide (HolderIdentity (observedRecord le) = reportedLeader le) then (None, le)
  else
    let leader := HolderIdentity (observedRecord le) in
    (Some leader, mkElector (observedRecord le) (observedTime le) leader).

(** [Check]: whether the lease is expired by more than the tolerance. *)
Definition Check (lec : LeaderElectionConfig) (le : LeaderElector) (now tolerance : Z) : bool :=
  if negb (IsLeader lec le) then true
  else negb (LeaseDuration lec + tolerance <? now - observedTime le).

(** ** The lock *)

Inductive LockError : Type :=
  | ErrNotFound
  | ErrAlreadyExists
  | ErrConflict
  | ErrNotInitialized
  | ErrRequest.

(** The stored record and its version. *)
Definition server : Type := option (LeaderElectionRecord * Z).

(** A time in JSON has seconds only. *)
Definition json_time (t : Z) : Z := t / Second * Second.

Definition json_record (r : LeaderElectionRecord) : LeaderElectionRecord :=
  mkRecord (HolderIdentity r) (LeaseDurationSeconds r) (json_time (AcquireTime r))
    (json_time (RenewTime r)) (LeaderTransitions r).

(** [ConfigMapLock.Get]: the record, and the version of the object that is kept
    for the update. *)
Definition Get (srv : server) : result LockError (LeaderElectionRecord * Z) :=
  match srv with
  | None => Err ErrNotFound
  | Some rv => Ok rv
  end.

Definition Create (srv : server) (ler : LeaderElectionRecord) : result LockError server :=
  match srv with
  | Some _ => Err ErrAlreadyExists
  | None => Ok (Some (json_record ler, 0))
  end.

(** [Update] with the kept version; the server refuses an old one. *)
Definition Update (srv : server) (cm : option Z) (ler : LeaderElectionRecord) :
    result LockError server :=
  match cm with
  | None => Err ErrNotInitialized
  | Some version =>
      match srv with
      | None => Err ErrNotFound
      | Some (_, current) =>
          if version =? current then Ok (Some (json_record ler, current + 1)) else Err ErrConflict
      end
  end.

(** ** [tryAcquireOrRenew] *)

Definition newRecord (lec : LeaderElectionConfig) (now : Z) : LeaderElectionRecord :=
  mkRecord (Identity lec) (Z.quot (LeaseDuration lec) Second) now now 0.

(** Steps 2 and 3, after a record was read at time [t]: the record to write, or
    [None] when another holder's lease has not expired. *)
Definition after_get (lec : LeaderElectionConfig) (le : LeaderElector) (now t : Z)
    (old : LeaderElectionRecord) : option LeaderElectionRecord * LeaderElector :=
  let le :=
    if negb (bool_decide (observedRecord le = old)) then mkElector old t (reportedLeader le)
    else le in
  if (now <? observedTime le + LeaseDuration lec) && negb (IsLeader lec le) then (None, le)
  else
    let new := newRecord lec now in
    let new :=
      if IsLeader lec le then
        mkRecord (HolderIdentity new) (LeaseDurationSeconds new) (AcquireTime old)
          (RenewTime new) (LeaderTransitions old)
      else
        mkRecord (HolderIdentity new) (LeaseDurationSeconds new) (AcquireTime new)
          (RenewTime new) (LeaderTransitions old + 1) in
    (Some new, le).

(** After a successful write, at time [t]. *)
Definition after_write (le : LeaderElector) (t : Z) (new : LeaderElectionRecord) : LeaderElector :=
  mkElector new t (reportedLeader le).

(** The whole call, when nobody else writes in between; [t1] and [t2] are the
    later readings of the clock. *)
Definition tryAcquireOrRenew (lec : LeaderElectionConfig) (le : LeaderElector)
    (now t1 t2 : Z) (srv : server) : bool * LeaderElector * server :=
  match Get srv with
  | Err ErrNotFound =>
      let new := newRecord lec now in
      match Create srv new with
      | Err _ => (false, le, srv)
      | Ok srv => (true, after_write le t2 new, srv)
      end
  | Err _ => (false, le, srv)
  | Ok (old, version) =>
      let '(new, le) := after_get lec le now t1 old in
      match new with
      | None => (false, le, srv)
      | Some new =>
          match Update srv (Some version) new with
          | Err _ => (false, le, srv)
          | Ok srv => (true, after_write le t2 new, srv)
          end
      end
  end.

(** ** Many electors *)

(** A client is between calls, has read its clock, is about to write, or has
    written and waits for the answer. The times are the world's at the start of
    the call. *)
Inductive phase : Type :=
  | Idle
  | Started (start : Z)
  | Creating (start : Z) (new : LeaderElectionRecord)
  | Updating (start : Z) (new : LeaderElectionRecord) (version : Z)
  | Written (start : Z) (new : LeaderElectionRecord).

(** [last] is the start of the client's last call that succeeded. *)
Record client : Type := mkClient {
  elector : LeaderElector;
  at_phase : phase;
  last : option Z;
}.

(** [writes] lists the records written, newest first, with the start of the call
    that wrote them. *)
Record world : Type := mkWorld {
  time : Z;
  srv : server;
  writes : list (LeaderElectionRecord * Z);
  clients : string → client;
}.

Section world.
(** Each client has a configuration, with its identity, and a clock that is off by
    a constant. *)
Context (config : string → LeaderElectionConfig) (offset : string → Z).

Definition clock (w : world) (i : string) : Z := time w + offset i.

Definition set_client (w : world) (i : string) (c : client) : world :=
  mkWorld (time w) (srv w) (writes w) (<[i := c]> (clients w)).

Definition to_phase (w : world) (i : string) (p : phase) : world :=
  set_client w i (mkClient (elector (clients w i)) p (last (clients w i))).

(** Reading the record. *)
Definition do_get (w : world) (i : string) (start : Z) : world :=
  let c := clients w i in
  match Get (srv w) with
  | Err ErrNotFound => to_phase w i (Creating start (newRecord (config i) (start + offset i)))
  | Err _ => to_phase w i Idle
  | Ok (old, version) =>
      let '(new, le) :=
        after_get (config i) (elector c) (start + offset i) (clock w i) old in
      set_client w i
        (mkClient le
           (match new with Some new => Updating start new version | None => Idle end) (last c))
  end.

(** The server's answer to a write: it takes effect or fails. *)
Definition do_write (w : world) (i : string) (start : Z) (new : LeaderElectionRecord)
    (r : result LockError server) : world :=
  match r with
  | Err _ => to_phase w i Idle
  | Ok srv' =>
      let w := to_phase w i (Written start new) in
      mkWorld (time w) srv' ((json_record new, start) :: writes w) (clients w)
  end.

Inductive step : world → world → Prop :=
  | step_tick w d :
      0 ≤ d → step w (mkWorld (time w + d) (srv w) (writes w) (clients w))
  | step_start w i :
      at_phase (clients w i) = Idle → step w (to_phase w i (Started (time w)))
  | step_get w i start :
      at_phase (clients w i) = Started start → step w (do_get w i start)
  | step_create w i start new :
      at_phase (clients w i) = Creating start new →
      step w (do_write w i start new (Create (srv w) new))
  | step_update w i start new version :
      at_phase (clients w i) = Updating start new version →
      step w (do_write w i start new (Update (srv w) (Some version) new))
  | step_success w i start new :
      at_phase (clients w i) = Written start new →
      step w (set_client w i
        (mkClient (after_write (elector (clients w i)) (clock w i) new) Idle (Some start)))
  | step_fail w i :
      step w (to_phase w i Idle).

Definition new_world (t : Z) : world :=
  mkWorld t None [] (λ _, mkClient (mkElector zeroRecord 0 "") Idle None).
End world.

(** ** The invariant *)

Section safety.
Context (config : string → LeaderElectionConfig) (offset : string → Z).

(** How long a lease lasts at least, from the start of the call that wrote it. *)
Context (D : Z).

(** Identities are distinct and not empty, and a lease is longer than [D] by at
    least the second that a stored time loses. *)
Record good_config : Prop := {
  id_nonempty i : Identity (config i) ≠ "";
  id_inj i j : Identity (config i) = Identity (config j) → i = j;
  lease_long i : D + Second ≤ LeaseDuration (config i);
}.

Definition start_of (p : phase) : option Z :=
  match p with
  | Idle => None
  | Started s | Creating s _ | Updating s _ _ | Written s _ => Some s
  end.

(** The starts of successful calls that a client knows of or is about to learn. *)
Definition claim (c : client) (st : Z) : Prop :=
  last c = Some st ∨ ∃ new, at_phase c = Written st new.

(** The record that client [i] is about to write is its own. *)
Definition own (i : string) (start : Z) (new : LeaderElectionRecord) : Prop :=
  HolderIdentity new = Identity (config i) ∧ RenewTime new = start + offset i.

(** Client [i] may replace the last record: it is its own, or the lease is over. *)
Definition may_replace (i : string) (start : Z) (rec : LeaderElectionRecord) (st : Z) : Prop :=
  HolderIdentity rec = Identity (config i) ∨ st + LeaseDuration (config i) ≤ start + Second.

Record inv (w : world) : Prop := {
  inv_writes rec st : (rec, st) ∈ writes w →
    st ≤ time w ∧ ∃ i, HolderIdentity rec = Identity (config i) ∧
      RenewTime rec = json_time (st + offset i);
  inv_srv : match srv w with
            | None => writes w = []
            | Some (rec, v) => ∃ st ws, writes w = (rec, st) :: ws
            end;
  inv_start i st : start_of (at_phase (clients w i)) = Some st →
    st ≤ time w ∧ ∀ st', last (clients w i) = Some st' → st' ≤ st;
  inv_observed i :
    HolderIdentity (observedRecord (elector (clients w i))) = "" ∨
    HolderIdentity (observedRecord (elector (clients w i))) = Identity (config i) ∨
    ∃ st, (observedRecord (elector (clients w i)), st) ∈ writes w ∧
      st + offset i ≤ observedTime (elector (clients w i));
  inv_writing i start new :
    at_phase (clients w i) = Creating start new ∨ at_phase (clients w i) = Written start new →
    own i start new;
  inv_updating i start new v : at_phase (clients w i) = Updating start new v →
    own i start new ∧
    ∃ rec v' st ws, srv w = Some (rec, v') ∧ writes w = (rec, st) :: ws ∧ v ≤ v' ∧
      (v = v' → may_replace i start rec st);
  inv_claim i st : claim (clients w i) st →
    st ≤ time w ∧
    ((∃ rec v st' ws, srv w = Some (rec, v) ∧ writes w = (rec, st') :: ws ∧
        HolderIdentity rec = Identity (config i) ∧ st ≤ st') ∨
     st + D ≤ time w);
}.

Context (Hgood : good_config).

Lemma json_time_close a b : json_time a = json_time b → a < b + Second.
Proof.
  unfold json_time, Second. intros H. pose proof (Z.mod_pos_bound a 1000000000 ltac:(lia)).
  pose proof (Z.mod_pos_bound b 1000000000 ltac:(lia)).
  pose proof (Z.div_mod a 1000000000 ltac:(lia)). pose proof (Z.div_mod b 1000000000 ltac:(lia)). lia.
Qed.

(** Equal records were written by calls that started within a second. *)
Lemma writes_close w rec st st' :
  inv w → (rec, st) ∈ writes w → (rec, st') ∈ writes w → st < st' + Second.
Proof.
  intros Hinv H1 H2. destruct (inv_writes w Hinv _ _ H1) as (_ & i & Hi & Ri).
  destruct (inv_writes w Hinv _ _ H2) as (_ & j & Hj & Rj).
  assert (i = j) as -> by (apply (id_inj Hgood); congruence).
  rewrite Ri in Rj. apply json_time_close in Rj. lia.
Qed.

(** What an elector has observed, as in the invariant. *)
Definition observed_ok (w : world) (i : string) (le : LeaderElector) : Prop :=
  HolderIdentity (observedRecord le) = "" ∨
  HolderIdentity (observedRecord le) = Identity (config i) ∨
  ∃ st, (observedRecord le, st) ∈ writes w ∧ st + offset i ≤ observedTime le.

(** What [after_get] establishes about the last record. *)
Lemma after_get_spec w i start rec v st ws new le :
  inv w → srv w = Some (rec, v) → writes w = (rec, st) :: ws →
  after_get (config i) (elector (clients w i)) (start + offset i) (clock offset w i) rec = (new, le) →
  observed_ok w i le ∧ ∀ n, new = Some n → own i start n ∧ may_replace i start rec st.
Proof.
  intros Hinv Hsrv Hws. unfold after_get.
  set (le1 := if negb (bool_decide (observedRecord (elector (clients w i)) = rec))
    then mkElector rec (clock offset w i) (reportedLeader (elector (clients w i)))
    else elector (clients w i)).
  assert ((rec, st) ∈ writes w) as Hin by (rewrite Hws; left).
  destruct (inv_writes w Hinv rec st Hin) as (Hst & h & Hh & _).
  assert (observedRecord le1 = rec ∧ observed_ok w i le1) as [Hobs Hok].
  { subst le1. case_bool_decide as E; simpl.
    - split; [done|]. apply (inv_observed w Hinv i).
    - split; [done|]. right. right. exists st. split; [done|]. simpl. unfold clock. lia. }
  assert (∀ n, own i start n → start + offset i <? observedTime le1 + LeaseDuration (config i) = false ∨
    IsLeader (config i) le1 = true → own i start n ∧ may_replace i start rec st) as Hmay.
  { intros n Hown Hor. split; [done|]. unfold may_replace. destruct Hor as [Hexp|Hl].
    - apply Z.ltb_ge in Hexp. destruct Hok as [H|[H|(st0 & H0 & Ht)]].
      + rewrite Hobs, Hh in H. by apply (id_nonempty Hgood) in H.
      + left. congruence.
      + right. rewrite Hobs in H0. pose proof (writes_close w rec st st0 Hinv Hin H0). lia.
    - left. apply bool_decide_eq_true in Hl. congruence. }
  destruct (_ && _) eqn:E; intros [= <- <-]; (split; [done|]); [done|].
  apply andb_false_iff in E. rewrite negb_false_iff in E.
  intros n [= <-]. apply Hmay; [|done]. by destruct (IsLeader (config i) le1).
Qed.

Lemma inv_new t : inv (new_world t).
Proof.
  split; simpl; try done.
  - intros rec st H. by apply not_elem_of_nil in H.
  - by left.
  - by intros i s n [?|?].
  - by intros i st [?|[new ?]].
Qed.

(** Facts about one client in a world where one client changed. *)
Ltac client_case i j :=
  destruct (decide (i = j)) as [<-|]; simpl in *;
  rewrite ?fn_lookup_insert, ?fn_lookup_insert_ne in * by done; simpl in *.

(** Changing a client without writing keeps the invariant when the client is fine. *)
Lemma inv_set_client w i c :
  inv w →
  (∀ st, start_of (at_phase c) = Some st → st ≤ time w ∧ ∀ st', last c = Some st' → st' ≤ st) →
  observed_ok w i (elector c) →
  (∀ start new, at_phase c = Creating start new ∨ at_phase c = Written start new →
     own i start new) →
  (∀ start new v, at_phase c = Updating start new v → own i start new ∧
    ∃ rec v' st ws, srv w = Some (rec, v') ∧ writes w = (rec, st) :: ws ∧ v ≤ v' ∧
      (v = v' → may_replace i start rec st)) →
  (∀ st, claim c st → claim (clients w i) st) →
  inv (set_client w i c).
Proof.
  intros Hinv Hst Hobs Hcr Hup Hcl. destruct Hinv as [I1 I2 I3 I4 I5 I6 I7].
  split; simpl; [done|done|..]; intros j; client_case i j; auto.
Qed.

Lemma inv_to_phase w i p :
  inv w →
  (∀ st, start_of p = Some st → st ≤ time w ∧ ∀ st', last (clients w i) = Some st' → st' ≤ st) →
  (∀ start new, p = Creating start new → own i start new) →
  (∀ start new v, p ≠ Updating start new v) → (∀ start new, p ≠ Written start new) →
  inv (to_phase w i p).
Proof.
  intros Hinv Hst Hcr Hup Hwr. apply inv_set_client; simpl; try done.
  - apply Hinv.
  - intros start new [H|H]; [by apply Hcr|by apply Hwr in H].
  - intros start new v Hp. by apply Hup in Hp.
  - intros st [H|[new H]]; [by left|]. simpl in H. by apply Hwr in H.
Qed.

(** A write by a client that may replace the last record. *)
Lemma inv_write w i start new v' :
  inv w → own i start new → start_of (at_phase (clients w i)) = Some start →
  (srv w = None ∨ ∃ rec v st ws, srv w = Some (rec, v) ∧ writes w = (rec, st) :: ws ∧
     may_replace i start rec st ∧ v' = v + 1) →
  inv (mkWorld (time w) (Some (json_record new, v')) ((json_record new, start) :: writes w)
    (clients (to_phase w i (Written start new)))).
Proof.
  intros Hinv [Hown Hren] Hs Hmay. destruct (inv_start w Hinv i start Hs) as [Hst Hlast].
  assert (∀ j st, claim (clients w j) st → (j = i ∧ st ≤ start) ∨ st + D ≤ time w) as Hclaims.
  { intros j st Hc. destruct (inv_claim w Hinv j st Hc) as (_ & [(rec & v & st' & ws & Hsrv & Hws & Hh & Hle)|?]);
      [|by right].
    destruct Hmay as [Hn|(rec' & v1 & st1 & ws' & Hsrv' & Hws' & [Hr|Hr] & _)]; [congruence|..].
    - left. assert (j = i) as -> by (apply (id_inj Hgood); congruence). split; [done|].
      destruct Hc as [Hc|[n Hc]]; [by apply Hlast|]. rewrite Hc in Hs. simpl in Hs. simplify_eq. done.
    - right. pose proof (lease_long Hgood i). assert (st1 = st') by congruence. lia. }
  split; simpl.
  - intros rec st [[= -> ->]|Hin]%elem_of_cons; [|by apply Hinv].
    split; [done|]. exists i. simpl. rewrite Hren. done.
  - eauto.
  - intros j. client_case i j; [|apply Hinv]. intros st [= <-]. done.
  - intros j. assert (observed_ok w j (elector (clients w j))) as Ho by apply (inv_observed w Hinv).
    assert (elector (<[i:=mkClient (elector (clients w i)) (Written start new)
      (last (clients w i))]> (clients w) j) = elector (clients w j)) as ->.
    { client_case i j; done. }
    destruct Ho as [?|[?|(st & ? & ?)]]; [by left|by right; left|].
    right. right. exists st. split; [by right|done].
  - intros j. client_case i j; [|apply Hinv]. intros s n [?|[= <- <-]]; done.
  - intros j. client_case i j; [done|]. intros start' new' v Hup.
    destruct (inv_updating w Hinv j start' new' v Hup) as (Ho & rec & v1 & st & ws & Hsrv & Hws & Hv & _).
    split; [done|]. eexists _, _, _, _. split_and!; [done..| |].
    + destruct Hmay as [Hn|(rec' & v2 & st2 & ws2 & Hsrv2 & _ & _ & ->)]; [congruence|].
      assert (v2 = v1) by congruence. lia.
    + destruct Hmay as [Hn|(rec' & v2 & st2 & ws2 & Hsrv2 & _ & _ & ->)]; [congruence|].
      assert (v2 = v1) by congruence. lia.
  - intros j st. client_case i j.
    + intros Hc. assert (claim (clients w i) st ∨ st = start) as [Hc'| ->].
      { destruct Hc as [Hc|[n Hc]]; [by left; left|]. simpl in Hc. simplify_eq. by right. }
      * destruct (inv_claim w Hinv i st Hc') as [Hle _]. split; [done|].
        destruct (Hclaims i st Hc') as [[_ ?]|?]; [|by right]. left.
        by eexists _, _, _, _.
      * split; [done|]. left. by eexists _, _, _, _.
    + intros Hc. destruct (inv_claim w Hinv j st Hc) as [Hle _]. split; [done|].
      destruct (Hclaims j st Hc) as [[-> _]|?]; [done|by right].
Qed.

Lemma inv_step w w' : inv w → step config offset w w' → inv w'.
Proof.
  intros Hinv Hstep. destruct Hstep as [w d Hd|w i Hp|w i start Hp|w i start new Hp
    |w i start new v Hp|w i start new Hp|w i].
  - destruct Hinv as [I1 I2 I3 I4 I5 I6 I7]. split; simpl; try done.
    + intros rec st H. destruct (I1 _ _ H) as [? ?]. split; [lia|done].
    + intros i st H. destruct (I3 _ _ H) as [? ?]. split; [lia|done].
    + intros i st H. destruct (I7 _ _ H) as [? [?|?]]; (split; [lia|]); [by left|right; lia].
  - apply inv_to_phase; [done|simpl|done..]. intros st [= <-]. split; [done|].
    intros st' Hl. apply (inv_claim w Hinv i). by left.
  - pose proof (inv_start w Hinv i start ltac:(by rewrite Hp)) as [Hst Hlast].
    unfold do_get. destruct (srv w) as [[rec v]|] eqn:Es; simpl.
    + pose proof (inv_srv w Hinv) as Hw. rewrite Es in Hw. destruct Hw as (st & ws & Hw).
      destruct (after_get _ _ _ _ _) as [new le] eqn:Ea.
      destruct (after_get_spec w i start rec v st ws new le Hinv Es Hw Ea) as [Hobs Hnew].
      apply inv_set_client; simpl; [done|..].
      * intros st'. destruct new; simpl; [intros [= <-]|]; done.
      * done.
      * intros s n [Hn|Hn]; by destruct new.
      * intros s n v' Hn. destruct new as [new|]; simplify_eq. destruct (Hnew _ eq_refl).
        split; [done|]. eexists _, _, _, _. split_and!; [done..|]. done.
      * intros st' [H|[n H]]; [by left|]. simpl in H. by destruct new.
    + apply inv_to_phase; simpl; try done.
      * intros st [= <-]. done.
      * intros s n [= <- <-]. done.
  - pose proof (inv_writing w Hinv i start new (or_introl Hp)) as Hown. unfold do_write, Create.
    destruct (srv w) as [[rec v]|] eqn:Es; [by apply inv_to_phase|].
    apply (inv_write w); [done..|by rewrite Hp|by left].
  - destruct (inv_updating w Hinv i start new v Hp) as (Hown & rec & v' & st & ws & Es & Hw & Hv & Hm).
    unfold do_write, Update. rewrite Es. destruct (Z.eqb_spec v v') as [<-|]; [|by apply inv_to_phase].
    apply (inv_write w); [done..|by rewrite Hp|]. right. eauto 10.
  - apply inv_set_client; simpl; [done|done| |by intros ? ? [?|?]|done|].
    + right. left. by apply (inv_writing w Hinv i start new); right.
    + intros st [[= <-]|[n H]]; [|done]. right. eauto.
  - by apply inv_to_phase.
Qed.
End safety.

(** A step that replaces the holder comes after the lease. *)
Lemma replaced_late config offset D w w' rec v rec' v' :
  good_config config D → inv config offset D w → step config offset w w' → srv w = Some (rec, v) → srv w' = Some (rec', v') →
  HolderIdentity rec' ≠ HolderIdentity rec → ∃ st ws, writes w = (rec, st) :: ws ∧ st + D ≤ time w.
Proof.
  intros Hgood Hinv Hstep Hs Hs' Hne. destruct Hstep as [w d Hd|w i Hp|w i start Hp|w i start new Hp|w i start new u Hp|w i start new Hp|w i]; simpl in Hs';
    try congruence.
  - unfold do_get in Hs'. rewrite Hs in Hs'. simpl in Hs'. destruct (after_get _ _ _ _ _) as [new le]. simpl in Hs'. congruence.
  - unfold do_write, Create in Hs'. rewrite Hs in Hs'. simpl in Hs'. congruence.
  - destruct (inv_updating _ _ _ w Hinv i start new u Hp) as ([Hown _] & rec1 & v1 & st & ws & Es & Hw & _ & Hm). rewrite Hs in Es. injection Es as <- <-.
    unfold do_write, Update in Hs'. rewrite Hs in Hs'. destruct (Z.eqb_spec u v) as [Hu|_]; simpl in Hs'; [|congruence]. injection Hs' as <- _.
    exists st, ws. split; [done|]. destruct (Hm Hu) as [Hh|Hl]; [simpl in Hne; congruence|]. pose proof (lease_long _ _ Hgood i).
    destruct (inv_start _ _ _ w Hinv i start ltac:(by rewrite Hp)) as [? _]. lia.
Qed.

Lemma inv_reachable config offset D t w :
  good_config config D → rtc (step config offset) (new_world t) w → inv config offset D w.
Proof.
  intros Hgood Hrun. pose proof (inv_new config offset D t) as Hinv. revert Hinv.
  induction Hrun as [|w w1 w2 Hs Hrun IH]; intros Hinv; [done|].
  apply IH. by eapply inv_step.
Qed.

(** A call with nobody in between is a sequence of steps of the client. *)
Lemma try_is_steps config offset w i :
  at_phase (clients w i) = Idle →
  let t := clock offset w i in
  let '(ok, le, s) := tryAcquireOrRenew (config i) (elector (clients w i)) t t t (srv w) in
  ∃ w', rtc (step config offset) w w' ∧ srv w' = s ∧ time w' = time w ∧
    elector (clients w' i) = le ∧ at_phase (clients w' i) = Idle ∧
    (ok = true → last (clients w' i) = Some (time w)).
Proof.
  intros Hidle t.
  set (w1 := to_phase w i (Started (time w))).
  assert (step config offset w w1) as H1 by by apply step_start.
  assert (step config offset w1 (do_get config offset w1 i (time w))) as H2.
  { apply step_get. simpl. by rewrite fn_lookup_insert. }
  unfold do_get in H2. replace (elector (clients w1 i)) with (elector (clients w i)) in H2
    by (simpl; by rewrite fn_lookup_insert).
  change (srv w1) with (srv w) in H2. change (clock offset w1 i) with t in H2.
  change (time w + offset i) with t in H2. unfold tryAcquireOrRenew.
  destruct (srv w) as [[rec v]|] eqn:Es; simpl in H2 |- *.
  - destruct (after_get (config i) (elector (clients w i)) t t rec) as [[new|] le] eqn:Ea.
    + rewrite Z.eqb_refl. set (w2 := set_client _ _ _) in H2.
      assert (clients w2 i = mkClient le (Updating (time w) new v) (last (clients w1 i))) as Hc2
        by (simpl; by rewrite fn_lookup_insert).
      pose proof (step_update config offset w2 i (time w) new v ltac:(by rewrite Hc2)) as H3.
      unfold do_write, Update in H3. change (srv w2) with (srv w) in H3.
      rewrite Es, Z.eqb_refl in H3. set (w3 := mkWorld _ _ _ _) in H3.
      pose proof (step_success config offset w3 i (time w) new
        ltac:(simpl; by rewrite fn_lookup_insert)) as H4.
      eexists. split_and!; [eapply rtc_l, rtc_l, rtc_l, rtc_once; eauto|done|done|..];
        simpl; rewrite ?fn_lookup_insert; simpl; rewrite ?fn_lookup_insert; done.
    + eexists. split_and!; [eapply rtc_l, rtc_once; eauto|done|done|..];
        simpl; by rewrite ?fn_lookup_insert.
  - set (w2 := to_phase _ _ _) in H2.
    pose proof (step_create config offset w2 i (time w) (newRecord (config i) t)
      ltac:(simpl; by rewrite fn_lookup_insert)) as H3.
    unfold do_write, Create in H3. change (srv w2) with (srv w) in H3. rewrite Es in H3.
    set (w3 := mkWorld _ _ _ _) in H3.
    pose proof (step_success config offset w3 i (time w) (newRecord (config i) t)
      ltac:(simpl; by rewrite fn_lookup_insert)) as H4.
    eexists. split_and!; [eapply rtc_l, rtc_l, rtc_l, rtc_once; eauto|done|done|..];
      simpl; rewrite ?fn_lookup_insert; simpl; rewrite ?fn_lookup_insert; done.
Qed.

(** ** Correctness *)

(** C5: a lease is respected. Take any number of clients with distinct identities, whose
    clocks are off by constants and which make one call at a time, and any interleaving of their reads and writes, with failed
    requests, conflicts and lost answers; let [D] be shorter than the lease of every client by
    the second that a stored time can lose. Then for [D] after the start of a call of
    [tryAcquireOrRenew] that returned true the record names the client that made it, so that
    no two clients have such a call behind them; and a step that replaces the holder of the
    record comes no sooner than [D] after the start of the call that wrote the record. How
    long a client acts as leader after its last successful call is not part of this. *)
Theorem lease_respected (config : string → LeaderElectionConfig) (offset : string → Z) (D t : Z) (w : world) :
  good_config config D → rtc (step config offset) (new_world t) w →
  (∀ i st, last (clients w i) = Some st → time w < st + D →
     ∃ rec v, srv w = Some (rec, v) ∧ HolderIdentity rec = Identity (config i)) ∧
  (∀ i j sti stj, last (clients w i) = Some sti → last (clients w j) = Some stj →
     time w < sti + D → time w < stj + D → i = j) ∧
  (∀ w' rec v rec' v', step config offset w w' → srv w = Some (rec, v) → srv w' = Some (rec', v') →
     HolderIdentity rec' ≠ HolderIdentity rec → ∃ st ws, writes w = (rec, st) :: ws ∧ st + D ≤ time w).
Proof.
  intros Hgood Hrun. pose proof (inv_reachable config offset D t w Hgood Hrun) as Hinv.
  assert (∀ i st, last (clients w i) = Some st → time w < st + D →
    ∃ rec v, srv w = Some (rec, v) ∧ HolderIdentity rec = Identity (config i)) as Hnamed.
  { intros i st Hl Ht. destruct (inv_claim _ _ _ w Hinv i st ltac:(by left)) as (_ & [(rec & v & st' & ws & Hs & _ & Hh & _)|?]); [|lia]. eauto. }
  split; [exact Hnamed|]. split.
  - intros i j sti stj Hi Hj Hti Htj. destruct (Hnamed i sti Hi Hti) as (rec & v & Hs & Hh). destruct (Hnamed j stj Hj Htj) as (rec' & v' & Hs' & Hh').
    apply (id_inj _ _ Hgood). congruence.
  - intros w' rec v rec' v' Hstep Hs Hs' Hne. by eapply replaced_late.
Qed.

(** What a call writes. It makes the record when there is none; it leaves
    another holder's record alone until the lease, counted from when this client
    first saw the record, is over; when it takes over it counts a transition and
    sets the time of acquisition; when it renews it keeps both. *)
Theorem tryAcquireOrRenew_correct (lec : LeaderElectionConfig) (le : LeaderElector)
    (now t1 t2 : Z) (s : server) :
  let '(ok, le', s') := tryAcquireOrRenew lec le now t1 t2 s in
  match s with
  | None => ok = true ∧ s' = Some (json_record (newRecord lec now), 0)
  | Some (old, v) =>
      let seen := if decide (observedRecord le = old) then observedTime le else t1 in
      let mine := bool_decide (HolderIdentity old = Identity lec) in
      (ok = mine || (seen + LeaseDuration lec <=? now)) ∧
      if ok then
        ∃ new, s' = Some (json_record new, v + 1) ∧ observedRecord le' = new ∧
          HolderIdentity new = Identity lec ∧ RenewTime new = now ∧
          AcquireTime new = (if mine then AcquireTime old else now) ∧
          LeaderTransitions new = LeaderTransitions old + (if mine then 0 else 1)
      else s' = s ∧ observedRecord le' = old ∧ observedTime le' = seen
  end.
Proof.
  destruct s as [[old v]|]; simpl; [|done]. unfold tryAcquireOrRenew. simpl. unfold after_get.
  set (le1 := if negb (bool_decide (observedRecord le = old)) then _ else le).
  set (seen := if decide (observedRecord le = old) then observedTime le else t1).
  assert (observedRecord le1 = old ∧ observedTime le1 = seen) as [Ho Ht].
  { subst le1 seen. case_bool_decide as E; simpl; [by rewrite decide_True|by rewrite decide_False]. }
  assert (IsLeader lec le1 = bool_decide (HolderIdentity old = Identity lec)) as Hl
    by (unfold IsLeader; by rewrite Ho).
  rewrite Hl, Ht. set (mine := bool_decide (HolderIdentity old = Identity lec)).
  rewrite Z.leb_antisym. destruct (now <? seen + LeaseDuration lec), mine; simpl;
    rewrite ?Z.eqb_refl; simpl; (split; [done|]); try done;
    eexists; split_and!; (reflexivity || (simpl; lia)).
Qed.

(** ** Witnesses *)

Definition ex_config (i : string) : LeaderElectionConfig :=
  mkConfig ("c" +:+ i) (15 * Second) (10 * Second) (2 * Second).

Lemma ex_good : good_config ex_config (12 * Second).
Proof.
  split; simpl; [done| |unfold Second; lia]. intros i j H. by injection H.
Qed.

Lemma lease_respected_witness :
  ∃ w, rtc (step ex_config (λ _, 0)) (new_world 100) w ∧ last (clients w "a") = Some 100 ∧
    ∃ rec v, srv w = Some (rec, v) ∧ HolderIdentity rec = "ca".
Proof.
  pose proof (try_is_steps ex_config (λ _, 0) (new_world 100) "a" eq_refl) as H.
  simpl in H. destruct H as (w & Hrun & _ & Ht & _ & _ & Hok).
  exists w. split; [exact Hrun|]. split; [by apply Hok|].
  destruct (lease_respected ex_config (λ _, 0) (12 * Second) 100 w ex_good Hrun) as (Hnamed & _).
  apply (Hnamed "a" 100); [by apply Hok|]. rewrite Ht. unfold Second. simpl. lia.
Defined.
