(* ===== verification/Int64Amount.v ===== *)
(** * Fixed-width decimal amounts

    [staging/src/k8s.io/apimachinery/pkg/api/resource]: the overflow-checked
    arithmetic of [math.go] and the decimal amounts of [amount.go] that resource
    quantities are made of. An [int64] is an integer with its wrap-around written
    out, division truncates; [big.Int] and the unscaled part of [inf.Dec] are
    integers. *)

From S2P Require Import Prelude GoStrings GoStrconv GoInt.

Definition mostPositive : Z := 2 ^ 63 - 1.
Definition mostNegative : Z := - (mostPositive + 1).

(** A checked operation returns its result, or [None] for the false of Go. *)
Definition int64Add (a b : Z) : option Z :=
  let c := wrap64 (a + b) in
  if (0 <? a) && (0 <? b) then if c <? 0 then None else Some c
  else if (a <? 0) && (b <? 0) then
    if 0 <? c then None
    else if (a =? mostNegative) && (b =? mostNegative) then None
    else Some c
  else Some c.

Definition int64Multiply (a b : Z) : option Z :=
  if (a =? 0) || (b =? 0) || (a =? 1) || (b =? 1) then Some (wrap64 (a * b))
  else if (a =? mostNegative) || (b =? mostNegative) then None
  else
    let c := wrap64 (a * b) in
    if div64 c b =? a then Some c else None.

Definition int64MultiplyScale (a b : Z) : option Z :=
  if (a =? 0) || (a =? 1) then Some (wrap64 (a * b))
  else if (a =? mostNegative) && negb (b =? 1) then None
  else
    let c := wrap64 (a * b) in
    if div64 c b =? a then Some c else None.

Definition int64MultiplyScale10 (a : Z) : option Z :=
  if (a =? 0) || (a =? 1) then Some (wrap64 (a * 10))
  else if a =? mostNegative then None
  else
    let c := wrap64 (a * 10) in
    if div64 c 10 =? a then Some c else None.

Definition int64MultiplyScale100 (a : Z) : option Z :=
  if (a =? 0) || (a =? 1) then Some (wrap64 (a * 100))
  else if a =? mostNegative then None
  else
    let c := wrap64 (a * 100) in
    if div64 c 100 =? a then Some c else None.

Definition int64MultiplyScale1000 (a : Z) : option Z :=
  if (a =? 0) || (a =? 1) then Some (wrap64 (a * 1000))
  else if a =? mostNegative then None
  else
    let c := wrap64 (a * 1000) in
    if div64 c 1000 =? a then Some c else None.

(** The loop of [positiveScaleInt64]. *)
Fixpoint scale_loop (n : nat) (value : Z) : option Z :=
  match n with
  | O => Some value
  | S n =>
      match int64MultiplyScale value 10 with
      | Some value => scale_loop n value
      | None => None
      end
  end.

Definition positiveScaleInt64 (base scale : Z) : option Z :=
  if scale =? 0 then Some base
  else if scale =? 1 then int64MultiplyScale10 base
  else if scale =? 2 then int64MultiplyScale100 base
  else if scale =? 3 then int64MultiplyScale1000 base
  else if scale =? 6 then int64MultiplyScale base 1000000
  else if scale =? 9 then int64MultiplyScale base 1000000000
  else scale_loop (Z.to_nat scale) base.

(** The loop of [negativeScaleInt64]; it ends early when the value is zero. *)
Fixpoint reduce_loop (n : nat) (base value : Z) (fraction : bool) : Z * bool :=
  match n with
  | O =>
      (if fraction then if 0 <? base then wrap64 (value + 1) else wrap64 (value - 1) else value,
       negb fraction)
  | S n =>
      let fraction := if negb fraction && negb (Z.rem value 10 =? 0) then true else fraction in
      let value := div64 value 10 in
      if value =? 0 then
        if fraction then if 0 <? base then (1, false) else (-1, false) else (0, true)
      else reduce_loop n base value fraction
  end.

Definition negativeScaleInt64 (base scale : Z) : Z * bool :=
  if scale =? 0 then (base, true) else reduce_loop (Z.to_nat scale) base base false.

(** The table of powers of ten. *)
Definition pow10Int64 (b : Z) : Z :=
  if (0 <=? b) && (b <=? 18) then 10 ^ b else 0.

Definition divideByScaleInt64 (base scale : Z) : Z * Z * bool :=
  if scale =? 0 then (base, 0, true)
  else if 18 <=? scale then (0, base, false)
  else
    let divisor := pow10Int64 scale in
    (div64 base divisor, Z.rem base divisor, true).

(** The loops of [removeInt64Factors], which divides a positive value by [base] as
    long as it can; 64 turns are enough for an [int64]. *)
Fixpoint factors_loop (turns : nat) (base result times : Z) : Z * Z :=
  match turns with
  | O => (result, times)
  | S turns =>
      if (base <=? result) && (Z.rem result base =? 0) then
        factors_loop turns base (div64 result base) (times + 1)
      else (result, times)
  end.

Definition removeInt64Factors (value base : Z) : Z * Z :=
  let negative := value <? 0 in
  let result := if negative then wrap64 (- value) else value in
  let '(result, times) := factors_loop 64 base result 0 in
  (if negative then wrap64 (- result) else result, times).

(** [removeBigIntFactors]; a factor of at least two is removed at most as often as
    the number has binary digits. *)
Fixpoint big_factors_loop (turns : nat) (d factor times : Z) : Z * Z :=
  match turns with
  | O => (d, times)
  | S turns =>
      if d =? 0 then (d, times)
      else if negb (d mod factor =? 0) then (d, times)
      else big_factors_loop turns (d / factor) factor (times + 1)
  end.

Definition removeBigIntFactors (d factor : Z) : Z * Z :=
  big_factors_loop (S (Z.to_nat (Z.log2 (Z.abs d)))) d factor 0.

(** ** [int64Amount] *)

Record int64Amount : Type := mkAmount {
  value : Z;
  scale : Z;
}.

#[global] Instance int64Amount_eq_dec : EqDecision int64Amount.
Proof. solve_decision. Defined.

Definition Sign (a : int64Amount) : Z :=
  if value a =? 0 then 0 else if 0 <? value a then 1 else -1.

Definition AsInt64 (a : int64Amount) : option Z :=
  if scale a =? 0 then Some (value a)
  else if scale a <? 0 then None
  else positiveScaleInt64 (value a) (scale a).

Definition AsScaledInt64 (a : int64Amount) (s : Z) : option Z :=
  if scale a <? s then Some (negativeScaleInt64 (value a) (wrap32 (s - scale a))).1
  else positiveScaleInt64 (value a) (wrap32 (scale a - s)).

(** The order of two decimals, as [inf.Dec] compares them: at their common scale. *)
Definition Dec_Cmp (a b : int64Amount) : Z :=
  let m := Z.min (scale a) (scale b) in
  match value a * 10 ^ (scale a - m) ?= value b * 10 ^ (scale b - m) with
  | Eq => 0
  | Lt => -1
  | Gt => 1
  end.

Definition cmp_values (x y : Z) : Z := if x =? y then 0 else if x <? y then -1 else 1.

Definition Cmp (a b : int64Amount) : Z :=
  if scale a =? scale b then cmp_values (value a) (value b)
  else if scale b <? scale a then
    let '(result, remainder, exact) :=
      divideByScaleInt64 (value b) (wrap32 (scale a - scale b)) in
    if negb exact then Dec_Cmp a b
    else if result =? value a then
      if remainder =? 0 then 0 else if 0 <? remainder then -1 else 1
    else cmp_values (value a) result
  else
    let '(result, remainder, exact) :=
      divideByScaleInt64 (value a) (wrap32 (scale b - scale a)) in
    if negb exact then Dec_Cmp a b
    else if result =? value b then
      if remainder =? 0 then 0 else if 0 <? remainder then 1 else -1
    else cmp_values result (value b).

(** [Add], with the amount it leaves. *)
Definition Add (a b : int64Amount) : bool * int64Amount :=
  if value b =? 0 then (true, a)
  else if value a =? 0 then (true, mkAmount (value b) (scale b))
  else if scale a =? scale b then
    match int64Add (value a) (value b) with
    | None => (false, a)
    | Some c => (true, mkAmount c (scale a))
    end
  else if scale b <? scale a then
    match positiveScaleInt64 (value a) (wrap32 (scale a - scale b)) with
    | None => (false, a)
    | Some c =>
        match int64Add c (value b) with
        | None => (false, a)
        | Some c => (true, mkAmount c (scale b))
        end
    end
  else
    match positiveScaleInt64 (value b) (wrap32 (scale b - scale a)) with
    | None => (false, a)
    | Some c =>
        match int64Add (value a) c with
        | None => (false, a)
        | Some c => (true, mkAmount c (scale a))
        end
    end.

Definition Sub (a b : int64Amount) : bool * int64Amount :=
  Add a (mkAmount (wrap64 (- value b)) (scale b)).

Definition AsScale (a : int64Amount) (s : Z) : int64Amount * bool :=
  if s <=? scale a then (a, true)
  else
    let '(result, exact) := negativeScaleInt64 (value a) (wrap32 (s - scale a)) in
    (mkAmount result s, exact).

(** [infDecAmount.AsCanonicalBytes] on the decimal of an amount: the number that is
    printed and the exponent. *)
Fixpoint exponent_loop (turns : nat) (amount exponent : Z) : Z * Z :=
  match turns with
  | O => (amount, exponent)
  | S turns =>
      if negb (Z.rem exponent 3 =? 0) then exponent_loop turns (amount * 10) (wrap32 (exponent - 1))
      else (amount, exponent)
  end.

Definition Dec_canonical (a : int64Amount) : Z * Z :=
  let '(amount, times) := removeBigIntFactors (value a) 10 in
  exponent_loop 3 amount (wrap32 (scale a + times)).

(** [AsCanonicalBytes], before the number is printed in base ten. *)
Definition canonical (a : int64Amount) : Z * Z :=
  let '(amount, times) := removeInt64Factors (value a) 10 in
  let exponent := wrap32 (scale a + times) in
  let r := Z.rem exponent 3 in
  if (r =? 1) || (r =? -2) then
    match int64MultiplyScale10 amount with
    | None => Dec_canonical a
    | Some amount => (amount, wrap32 (exponent - 1))
    end
  else if (r =? 2) || (r =? -1) then
    match int64MultiplyScale100 amount with
    | None => Dec_canonical a
    | Some amount => (amount, wrap32 (exponent - 2))
    end
  else (amount, exponent).

Definition AsCanonicalBytes (a : int64Amount) : string * Z :=
  let '(amount, exponent) := canonical a in (Itoa amount, exponent).

Ltac width := unfold mostNegative, mostPositive in *; width64.

Lemma int64Add_checked a b : in64 a → in64 b → int64Add a b = checked (a + b).
Proof.
  intros Ha Hb. unfold int64Add.
  pose proof (wrap64_range (a + b)) as Hc. destruct (wrap64_congr (a + b)) as [k Hk].
  destruct (decide (in64 (a + b))) as [Hin|Hout].
  - rewrite checked_in, wrap64_in by done. clear Hk Hc. width.
    destruct (0 <? a) eqn:E1, (0 <? b) eqn:E2, (a <? 0) eqn:E3, (b <? 0) eqn:E4,
      (a + b <? 0) eqn:E5, (0 <? a + b) eqn:E6, (a =? -(9223372036854775808 - 1 + 1)) eqn:E7,
      (b =? -(9223372036854775808 - 1 + 1)) eqn:E8; simpl; to_prop; (done || lia).
  - rewrite checked_out by done. set (c := wrap64 (a + b)) in *. width.
    assert (k = -1 ∨ k = 1) as Hk' by lia.
    destruct (0 <? a) eqn:E1, (0 <? b) eqn:E2, (a <? 0) eqn:E3, (b <? 0) eqn:E4,
      (c <? 0) eqn:E5, (0 <? c) eqn:E6, (a =? -(9223372036854775808 - 1 + 1)) eqn:E7,
      (b =? -(9223372036854775808 - 1 + 1)) eqn:E8; simpl; to_prop; (done || lia).
Qed.

(** A product is checked by dividing it again. *)
Lemma mul_checked a b :
  in64 a → in64 b → a ≠ mostNegative → b ≠ 0 →
  (if div64 (wrap64 (a * b)) b =? a then Some (wrap64 (a * b)) else None) = checked (a * b).
Proof.
  intros Ha Hb Hmin Hb0. destruct (decide (in64 (a * b))) as [Hin|Hout].
  - rewrite checked_in, wrap64_in by done. unfold div64. rewrite Z.quot_mul by done.
    rewrite wrap64_in by done. by rewrite Z.eqb_refl.
  - rewrite checked_out by done. destruct (Z.eqb_spec (div64 (wrap64 (a * b)) b) a) as [E|]; [|done].
    exfalso. apply Hout. pose proof (wrap64_range (a * b)) as Hc.
    destruct (wrap64_congr (a * b)) as [k Hk]. set (c := wrap64 (a * b)) in *. clearbody c.
    pose proof (Z.quot_rem' c b) as Hqr. pose proof (Z.rem_bound_abs c b Hb0) as Hr.
    assert (in64 (Z.quot c b) ∨ c ÷ b = 2 ^ 63) as [Hq|Hq].
    { pose proof (Z.quot_abs c b Hb0) as Hqa.
      pose proof (Z.quot_le_upper_bound (Z.abs c) (Z.abs b) (2 ^ 63)) as Hu. width.
      assert (Z.abs c ÷ Z.abs b ≤ 9223372036854775808) by (apply Hu; nia). lia. }
    + unfold div64 in E. rewrite wrap64_in in E by done. rewrite E in Hqr.
      assert (k = 0) as ->. { width. lia. } rewrite <- (Z.add_0_r (a * b)).
      rewrite Z.mul_0_l in Hk. by rewrite <- Hk.
    + unfold div64 in E. rewrite Hq in E. exfalso. apply Hmin. rewrite <- E. reflexivity.
Qed.

Lemma int64Multiply_checked a b : in64 a → in64 b → int64Multiply a b = checked (a * b).
Proof.
  intros Ha Hb. unfold int64Multiply.
  destruct ((a =? 0) || (b =? 0) || (a =? 1) || (b =? 1)) eqn:E1.
  - assert (in64 (a * b)) as Hin.
    { apply orb_true_iff in E1 as [[[E|E]%orb_true_iff|E]%orb_true_iff|E];
        apply Z.eqb_eq in E; subst; width; lia. }
    by rewrite checked_in, wrap64_in.
  - to_prop. destruct ((a =? mostNegative) || (b =? mostNegative)) eqn:E2.
    + rewrite checked_out; [done|]. apply orb_true_iff in E2 as [E|E]; apply Z.eqb_eq in E; subst;
        width; nia.
    + to_prop. by apply mul_checked.
Qed.

Lemma int64MultiplyScale_checked a b :
  in64 a → in64 b → 1 < b → int64MultiplyScale a b = checked (a * b).
Proof.
  intros Ha Hb Hb1. unfold int64MultiplyScale. destruct ((a =? 0) || (a =? 1)) eqn:E1.
  - assert (in64 (a * b)) as Hin.
    { apply orb_true_iff in E1 as [E|E]; apply Z.eqb_eq in E; subst; width; lia. }
    by rewrite checked_in, wrap64_in.
  - destruct (Z.eqb_spec b 1); [lia|]. destruct (Z.eqb_spec a mostNegative) as [->|Hne]; simpl.
    + rewrite checked_out; [done|]. width. lia.
    + apply mul_checked; (done || lia).
Qed.

Lemma int64MultiplyScale10_eq a : int64MultiplyScale10 a = int64MultiplyScale a 10.
Proof. unfold int64MultiplyScale10, int64MultiplyScale. by rewrite andb_true_r. Qed.

Lemma int64MultiplyScale100_eq a : int64MultiplyScale100 a = int64MultiplyScale a 100.
Proof. unfold int64MultiplyScale100, int64MultiplyScale. by rewrite andb_true_r. Qed.

Lemma int64MultiplyScale1000_eq a : int64MultiplyScale1000 a = int64MultiplyScale a 1000.
Proof. unfold int64MultiplyScale1000, int64MultiplyScale. by rewrite andb_true_r. Qed.

(** ** Scaling *)

Lemma scale_loop_checked n v : in64 v → scale_loop n v = checked (v * 10 ^ Z.of_nat n).
Proof.
  revert v. induction n as [|n IH]; intros v Hv; cbn [scale_loop].
  { by rewrite Z.mul_1_r, checked_in. }
  rewrite int64MultiplyScale_checked by (done || width; lia).
  rewrite Nat2Z.inj_succ, Z.pow_succ_r by lia. rewrite Z.mul_assoc.
  pose proof (Z.pow_pos_nonneg 10 (Z.of_nat n) ltac:(lia) ltac:(lia)).
  destruct (decide (in64 (v * 10))) as [Hin|Hout].
  - rewrite checked_in by done. by apply IH.
  - rewrite checked_out by done. symmetry. apply checked_out. width. nia.
Qed.

Lemma positiveScaleInt64_checked base s :
  in64 base → 0 ≤ s → positiveScaleInt64 base s = checked (base * 10 ^ s).
Proof.
  intros Hb Hs. unfold positiveScaleInt64.
  rewrite int64MultiplyScale10_eq, int64MultiplyScale100_eq, int64MultiplyScale1000_eq.
  destruct (Z.eqb_spec s 0) as [->|]; [by rewrite Z.mul_1_r, checked_in|].
  destruct (Z.eqb_spec s 1) as [->|]; [by apply int64MultiplyScale_checked; [|width|]|].
  destruct (Z.eqb_spec s 2) as [->|]; [by apply int64MultiplyScale_checked; [|width|]|].
  destruct (Z.eqb_spec s 3) as [->|]; [by apply int64MultiplyScale_checked; [|width|]|].
  destruct (Z.eqb_spec s 6) as [->|]; [by apply int64MultiplyScale_checked; [|width|]|].
  destruct (Z.eqb_spec s 9) as [->|]; [by apply int64MultiplyScale_checked; [|width|]|].
  rewrite scale_loop_checked by done. by rewrite Z2Nat.id.
Qed.

(** Division rounded away from zero. *)
Definition round_away (x d : Z) : Z := Z.quot x d + (if Z.rem x d =? 0 then 0 else Z.sgn x).

Lemma quot_in64 x d : in64 x → 1 < d → in64 (Z.quot x d) ∧ Z.abs (Z.quot x d) ≤ 2 ^ 62.
Proof.
  intros Hx Hd. pose proof (Z.quot_rem' x d). pose proof (Z.rem_bound_abs x d ltac:(lia)).
  pose proof (Z.rem_sign_mul x d ltac:(lia)). change (2 ^ 62) with 4611686018427387904. width.
  split; nia.
Qed.

Lemma rem_mul_zero x a b :
  0 < a → 0 < b →
  Z.rem x (a * b) = 0 ↔ Z.rem x a = 0 ∧ Z.rem (Z.quot x a) b = 0.
Proof.
  intros Ha Hb. rewrite !Z.rem_divide by nia. split.
  - intros [q ->]. replace (q * (a * b)) with (q * b * a) by ring.
    rewrite Z.quot_mul by lia. split; [by exists (q * b)|by exists q].
  - intros [[q ->] [r Hr]]. rewrite Z.quot_mul in Hr by lia. exists r. rewrite Hr. ring.
Qed.

Lemma reduce_loop_spec n i base :
  in64 base →
  let d := 10 ^ Z.of_nat i in
  let D := 10 ^ Z.of_nat (i + n) in
  reduce_loop n base (Z.quot base d) (negb (Z.rem base d =? 0)) =
  (round_away base D, Z.rem base D =? 0).
Proof.
  intros Hb. revert i. induction n as [|n IH]; intros i d D; cbn [reduce_loop].
  - subst D. rewrite Nat.add_0_r. fold d. rewrite negb_involutive. f_equal. unfold round_away.
    destruct (Z.eqb_spec (Z.rem base d) 0) as [E|E]; simpl; [lia|].
    assert (1 < d) as Hd. { subst d. destruct i; [simpl in E; by rewrite Z.rem_1_r in E|].
      rewrite Nat2Z.inj_succ, Z.pow_succ_r by lia.
      pose proof (Z.pow_pos_nonneg 10 (Z.of_nat i) ltac:(lia) ltac:(lia)). lia. }
    destruct (quot_in64 base d Hb Hd) as [Hq1 Hq2].
    assert (base ≠ 0) by (intros ->; by rewrite Z.rem_0_l in E by lia).
    destruct (Z.ltb_spec 0 base); 
      rewrite wrap64_in by (change (2 ^ 62) with 4611686018427387904 in *; width; lia); lia.
  - assert (0 < d) as Hd by (apply Z.pow_pos_nonneg; lia).
    assert (d * 10 = 10 ^ Z.of_nat (S i)) as Hd10
      by (rewrite Nat2Z.inj_succ, Z.pow_succ_r by lia; subst d; lia).
    assert (in64 (Z.quot base d)) as Hqd.
    { destruct (decide (d = 1)) as [->|]; [by rewrite Z.quot_1_r|]. apply quot_in64; (done || lia). }
    assert (div64 (Z.quot base d) 10 = Z.quot base (10 ^ Z.of_nat (S i))) as ->.
    { unfold div64. rewrite wrap64_in by (apply quot_in64; (done || lia)).
      by rewrite Z.quot_quot, Hd10 by lia. }
    assert ((if negb (negb (Z.rem base d =? 0)) && negb (Z.rem (base ÷ d) 10 =? 0) then true
      else negb (Z.rem base d =? 0)) = negb (Z.rem base (10 ^ Z.of_nat (S i)) =? 0)) as ->.
    { pose proof (rem_mul_zero base d 10 Hd ltac:(lia)) as Hr. rewrite Hd10 in Hr.
      destruct (Z.eqb_spec (Z.rem base d) 0), (Z.eqb_spec (Z.rem (base ÷ d) 10) 0),
        (Z.eqb_spec (Z.rem base (10 ^ Z.of_nat (S i))) 0); simpl; tauto || lia. }
    assert (D = 10 ^ Z.of_nat (S i + n)) as HDeq by (subst D; f_equal; lia).
    destruct (Z.eqb_spec (base ÷ 10 ^ Z.of_nat (S i)) 0) as [E0|E0];
      [|rewrite HDeq; apply (IH (S i))].
    (* everything is in the fraction already *)
    set (e := 10 ^ Z.of_nat (S i)) in *. assert (0 < e) by lia.
    pose proof (Z.quot_rem' base e) as Hqr. pose proof (Z.rem_bound_abs base e ltac:(lia)).
    assert (∃ k, 0 < k ∧ D = e * k) as (k & Hk & HD).
    { exists (10 ^ Z.of_nat n). split; [apply Z.pow_pos_nonneg; lia|].
      rewrite HDeq. subst e. rewrite Nat2Z.inj_add, Z.pow_add_r by lia. done. }
    assert (Z.quot base D = 0) as HqD by (rewrite HD, <- Z.quot_quot, E0 by lia; by rewrite Z.quot_0_l by lia).
    pose proof (Z.quot_rem' base D) as HrD. unfold round_away. rewrite HqD in *.
    assert (Z.rem base e = base) by lia. assert (Z.rem base D = base) by lia.
    rewrite H1, H2. destruct (Z.eqb_spec base 0) as [->|]; simpl; [done|].
    destruct (Z.ltb_spec 0 base); f_equal; lia.
Qed.

Lemma negativeScaleInt64_spec base s :
  in64 base → 0 ≤ s →
  negativeScaleInt64 base s = (round_away base (10 ^ s), Z.rem base (10 ^ s) =? 0).
Proof.
  intros Hb Hs. unfold negativeScaleInt64. destruct (Z.eqb_spec s 0) as [->|].
  - unfold round_away. simpl. rewrite Z.rem_1_r, Z.quot_1_r. simpl. f_equal. lia.
  - pose proof (reduce_loop_spec (Z.to_nat s) 0 base Hb) as H. cbv zeta in H. simpl in H.
    rewrite Z.quot_1_r, Z.rem_1_r in H. simpl in H. by rewrite Z2Nat.id in H.
Qed.

(** ** Factors *)

Lemma factors_loop_spec turns base r t :
  2 ≤ base → 0 ≤ r < 2 ^ Z.of_nat turns → in64 r →
  let '(r', t') := factors_loop turns base r t in
  r = r' * base ^ (t' - t) ∧ t ≤ t' ∧ 0 ≤ r' ≤ r ∧ (r' < base ∨ Z.rem r' base ≠ 0).
Proof.
  intros Hbase. revert r t. induction turns as [|turns IH]; intros r t Hr Hin; cbn [factors_loop].
  { simpl in Hr. rewrite Z.sub_diag. simpl. lia. }
  destruct ((base <=? r) && (Z.rem r base =? 0)) eqn:E.
  2:{ rewrite Z.sub_diag. split_and!; [lia|lia|lia|done|]. to_prop. destruct E; to_prop; lia. }
  to_prop. assert (div64 r base = Z.quot r base) as ->.
  { unfold div64. apply wrap64_in, quot_in64; (done || lia). }
  pose proof (Z.quot_rem' r base) as Hqr. rewrite H0 in Hqr.
  assert (0 ≤ Z.quot r base) by (apply Z.quot_pos; lia).
  rewrite Nat2Z.inj_succ, Z.pow_succ_r in Hr by lia.
  specialize (IH (Z.quot r base) (t + 1)). destruct (factors_loop turns base (r ÷ base) (t + 1)) as [r' t'].
  destruct IH as (H3 & H4 & H5 & H6); [nia|apply quot_in64; (done || lia)|].
  split_and!; [|lia|lia|nia|done].
  replace (t' - t) with (Z.succ (t' - (t + 1))) by lia. rewrite Z.pow_succ_r by lia. nia.
Qed.

Lemma factors_loop_stop turns base r t : r < base → factors_loop turns base r t = (r, t).
Proof.
  intros Hr. destruct turns; cbn [factors_loop]; [done|].
  by destruct (Z.leb_spec base r); [lia|].
Qed.

Lemma removeInt64Factors_spec v base :
  in64 v → 2 ≤ base →
  let '(r, t) := removeInt64Factors v base in
  v = r * base ^ t ∧ 0 ≤ t ∧ in64 r ∧
  (v ≠ mostNegative → Z.abs r < base ∨ Z.rem r base ≠ 0).
Proof.
  intros Hv Hb. unfold removeInt64Factors. destruct (Z.eqb_spec v mostNegative) as [->|Hne].
  { assert (wrap64 (- mostNegative) = mostNegative) as E by reflexivity.
    change (mostNegative <? 0) with true. cbv iota. rewrite E, factors_loop_stop by (width; lia).
    rewrite E. split_and!; [lia|lia|width; lia|done]. }
  assert (in64 (Z.abs v)) as Habs by (width; lia).
  assert ((if v <? 0 then wrap64 (- v) else v) = Z.abs v) as ->.
  { destruct (Z.ltb_spec v 0); [rewrite wrap64_in by (width; lia)|]; lia. }
  pose proof (factors_loop_spec 64 base (Z.abs v) 0 Hb) as H.
  destruct (factors_loop 64 base (Z.abs v) 0) as [r t].
  destruct H as (Hr & Ht & Hle & Hf); [change (2 ^ Z.of_nat 64) with (2 ^ 64); width; lia|done|].
  rewrite Z.sub_0_r in Hr. destruct (Z.ltb_spec v 0).
  - rewrite wrap64_in by (width; lia). split_and!; [lia|lia|width; lia|].
    intros _. rewrite Z.rem_opp_l by lia. lia.
  - split_and!; [lia|lia|width; lia|]. intros _. lia.
Qed.

Lemma big_factors_loop_spec turns d factor t :
  2 ≤ factor → Z.abs d < 2 ^ Z.of_nat turns →
  let '(r, t') := big_factors_loop turns d factor t in
  d = r * factor ^ (t' - t) ∧ t ≤ t' ∧ (r = 0 ∨ r mod factor ≠ 0).
Proof.
  intros Hf. revert d t. induction turns as [|turns IH]; intros d t Hd; cbn [big_factors_loop].
  { simpl in Hd. rewrite Z.sub_diag. lia. }
  destruct (Z.eqb_spec d 0) as [->|Hd0]; [rewrite Z.sub_diag; lia|].
  destruct (Z.eqb_spec (d mod factor) 0) as [E|E]; simpl; [|rewrite Z.sub_diag; lia].
  pose proof (Z.div_mod d factor ltac:(lia)) as Hdm. rewrite E in Hdm.
  rewrite Nat2Z.inj_succ, Z.pow_succ_r in Hd by lia.
  specialize (IH (d / factor) (t + 1)). destruct (big_factors_loop turns (d / factor) factor (t + 1)) as [r t'].
  destruct IH as (H1 & H2 & H3); [nia|]. split_and!; [|lia|done].
  replace (t' - t) with (Z.succ (t' - (t + 1))) by lia. rewrite Z.pow_succ_r by lia. nia.
Qed.

Lemma removeBigIntFactors_spec d factor :
  2 ≤ factor →
  let '(r, t) := removeBigIntFactors d factor in
  d = r * factor ^ t ∧ 0 ≤ t ∧ (r = 0 ∨ r mod factor ≠ 0).
Proof.
  intros Hf. unfold removeBigIntFactors.
  pose proof (big_factors_loop_spec (S (Z.to_nat (Z.log2 (Z.abs d)))) d factor 0 Hf) as H.
  destruct (big_factors_loop _ d factor 0) as [r t]. rewrite Z.sub_0_r in H. apply H.
  rewrite Nat2Z.inj_succ, Z2Nat.id by apply Z.log2_nonneg.
  destruct (decide (d = 0)) as [->|]; [simpl; lia|]. apply Z.log2_spec. lia.
Qed.

(** More turns than the loops need change nothing. *)
Lemma factors_loop_more turns k base r t :
  2 ≤ base → 0 ≤ r < 2 ^ Z.of_nat turns → in64 r →
  factors_loop (turns + k) base r t = factors_loop turns base r t.
Proof.
  intros Hbase. revert r t. induction turns as [|turns IH]; intros r t Hr Hin.
  { simpl in Hr. rewrite !factors_loop_stop by lia. done. }
  cbn [factors_loop Nat.add]. destruct ((base <=? r) && (Z.rem r base =? 0)) eqn:E; [|done]. to_prop.
  assert (div64 r base = Z.quot r base) as -> by (unfold div64; apply wrap64_in, quot_in64; (done || lia)).
  pose proof (Z.quot_rem' r base) as Hqr. rewrite H0 in Hqr.
  assert (0 ≤ Z.quot r base) by (apply Z.quot_pos; lia).
  rewrite Nat2Z.inj_succ, Z.pow_succ_r in Hr by lia.
  apply IH; [nia|]. apply quot_in64; (done || lia).
Qed.

Lemma big_factors_loop_more turns k d factor t :
  2 ≤ factor → Z.abs d < 2 ^ Z.of_nat turns →
  big_factors_loop (turns + k) d factor t = big_factors_loop turns d factor t.
Proof.
  intros Hf. revert d t. induction turns as [|turns IH]; intros d t Hd.
  { simpl in Hd. assert (d = 0) as -> by lia. by destruct k. }
  cbn [big_factors_loop Nat.add]. destruct (d =? 0); [done|].
  destruct (Z.eqb_spec (d mod factor) 0) as [E|E]; simpl; [|done].
  pose proof (Z.div_mod d factor ltac:(lia)) as Hdm. rewrite E in Hdm.
  rewrite Nat2Z.inj_succ, Z.pow_succ_r in Hd by lia. apply IH. nia.
Qed.

(** ** Amounts *)

(** An amount with an [int64] value and a scale whose differences fit an [int32]. *)
Definition valid (a : int64Amount) : Prop :=
  in64 (value a) ∧ - 2 ^ 30 ≤ scale a < 2 ^ 30.

(** The value of an amount in units of [10 ^ m]. *)
Definition at_scale (a : int64Amount) (m : Z) : Z := value a * 10 ^ (scale a - m).

Ltac small_scale := change (2 ^ 30) with 1073741824 in *; change (2 ^ 31) with 2147483648 in *.

Lemma wrap32_diff a b : valid a → valid b → wrap32 (scale a - scale b) = scale a - scale b.
Proof. intros [_ Ha] [_ Hb]. apply wrap32_in. small_scale. lia. Qed.

Lemma at_scale_own a : at_scale a (scale a) = value a.
Proof. unfold at_scale. rewrite Z.sub_diag. lia. Qed.

Lemma at_scale_le a m m' : m' ≤ m ≤ scale a → at_scale a m' = at_scale a m * 10 ^ (m - m').
Proof.
  intros Hm. unfold at_scale. rewrite <- Z.mul_assoc, <- Z.pow_add_r by lia. do 2 f_equal. lia.
Qed.

(** The scaled operand of [Add], when scales differ. *)
Lemma scaled_checked a b :
  valid a → valid b → scale b ≤ scale a →
  positiveScaleInt64 (value a) (wrap32 (scale a - scale b)) = checked (at_scale a (scale b)).
Proof.
  intros Ha Hb Hle. rewrite wrap32_diff by done. apply positiveScaleInt64_checked; [apply Ha|lia].
Qed.

(** The outcome of [Add] when both values are not zero: the sum in units of the
    smaller scale. *)
Lemma Add_nonzero a b :
  valid a → valid b → value a ≠ 0 → value b ≠ 0 →
  let m := Z.min (scale a) (scale b) in
  Add a b =
    match checked (at_scale a m), checked (at_scale b m) with
    | Some x, Some y =>
        match checked (x + y) with Some c => (true, mkAmount c m) | None => (false, a) end
    | _, _ => (false, a)
    end.
Proof.
  intros Ha Hb Ha0 Hb0 m. unfold Add. destruct (Z.eqb_spec (value b) 0); [lia|].
  destruct (Z.eqb_spec (value a) 0); [lia|].
  destruct (Z.eqb_spec (scale a) (scale b)) as [E|E].
  { assert (m = scale a) as -> by lia. rewrite at_scale_own.
    replace (at_scale b (scale a)) with (value b) by (rewrite E; by rewrite at_scale_own).
    rewrite !checked_in by (apply Ha || apply Hb).
    rewrite int64Add_checked by (apply Ha || apply Hb). by destruct (checked _). }
  destruct (Z.ltb_spec (scale b) (scale a)).
  - assert (m = scale b) as -> by lia. rewrite scaled_checked by (done || lia).
    rewrite at_scale_own, (checked_in (value b)) by apply Hb.
    destruct (decide (in64 (at_scale a (scale b)))) as [Hin|Hout];
      [rewrite checked_in by done|by rewrite checked_out].
    rewrite int64Add_checked by (done || apply Hb). by destruct (checked _).
  - assert (m = scale a) as -> by lia. rewrite scaled_checked by (done || lia).
    rewrite at_scale_own, (checked_in (value a)) by apply Ha.
    destruct (decide (in64 (at_scale b (scale a)))) as [Hin|Hout];
      [rewrite checked_in by done|by rewrite checked_out].
    rewrite int64Add_checked by (done || apply Ha). by destruct (checked _).
Qed.

Lemma Add_spec (a b : int64Amount) :
  valid a → valid b →
  let m := Z.min (scale a) (scale b) in
  let '(ok, c) := Add a b in
  if ok then m ≤ scale c ∧ in64 (value c) ∧ at_scale c m = at_scale a m + at_scale b m
  else c = a ∧ ¬ (in64 (at_scale a m) ∧ in64 (at_scale b m) ∧ in64 (at_scale a m + at_scale b m)).
Proof.
  intros Ha Hb m.
  destruct (Z.eqb_spec (value b) 0) as [Eb|Eb].
  { unfold Add. rewrite Eb. simpl. split_and!; [lia|apply Ha|]. unfold at_scale at 3. rewrite Eb. lia. }
  destruct (Z.eqb_spec (value a) 0) as [Ea|Ea].
  { unfold Add. rewrite Ea. destruct (Z.eqb_spec (value b) 0); [done|]. simpl.
    split_and!; [lia|apply Hb|]. unfold at_scale. simpl. rewrite Ea. lia. }
  rewrite Add_nonzero by done. fold m. unfold checked.
  destruct (decide (in64 (at_scale a m))) as [H1|H1]; [|tauto].
  destruct (decide (in64 (at_scale b m))) as [H2|H2]; [|tauto].
  destruct (decide (in64 (at_scale a m + at_scale b m))) as [H3|H3]; [|tauto].
  split_and!; [simpl; lia|done|]. unfold at_scale at 1. simpl. rewrite Z.sub_diag. lia.
Qed.

(** ** Correctness *)

(** The overflow checks are exact: each checked operation returns the true
    result when it fits in an [int64], and fails exactly when it does not. *)
Theorem int64_checks_exact (a b s : Z) :
  in64 a → in64 b → 0 ≤ s →
  int64Add a b = checked (a + b) ∧
  int64Multiply a b = checked (a * b) ∧
  int64MultiplyScale10 a = checked (a * 10) ∧
  int64MultiplyScale100 a = checked (a * 100) ∧
  int64MultiplyScale1000 a = checked (a * 1000) ∧
  positiveScaleInt64 a s = checked (a * 10 ^ s) ∧
  negativeScaleInt64 a s = (round_away a (10 ^ s), Z.rem a (10 ^ s) =? 0).
Proof.
  intros Ha Hb Hs. split_and!.
  - by apply int64Add_checked.
  - by apply int64Multiply_checked.
  - rewrite int64MultiplyScale10_eq. by apply int64MultiplyScale_checked; [|width|].
  - rewrite int64MultiplyScale100_eq. by apply int64MultiplyScale_checked; [|width|].
  - rewrite int64MultiplyScale1000_eq. by apply int64MultiplyScale_checked; [|width|].
  - by apply positiveScaleInt64_checked.
  - by apply negativeScaleInt64_spec.
Qed.

Lemma int64_checks_exact_witness :
  int64Add mostPositive 1 = checked (mostPositive + 1) ∧
  positiveScaleInt64 mostPositive 4 = checked (mostPositive * 10 ^ 4) ∧
  negativeScaleInt64 mostPositive 4 = (922337203685478, false).
Proof.
  assert (in64 mostPositive ∧ in64 1) as [H1 H2] by (width; lia).
  pose proof (int64_checks_exact mostPositive 1 4 H1 H2 ltac:(lia)) as (Ha & _ & _ & _ & _ & Hp & Hn).
  split_and!; [exact Ha|exact Hp|exact Hn].
Defined.

(** Adding amounts of different scales is exact or refused. When [Add]
    succeeds, the amount it leaves is the sum; when it fails, it leaves the amount
    as it was, and an operand or the sum does not fit an [int64] at the smaller of
    the two scales. *)
Theorem Add_exact (a b : int64Amount) :
  valid a → valid b →
  let m := Z.min (scale a) (scale b) in
  let '(ok, c) := Add a b in
  if ok then m ≤ scale c ∧ in64 (value c) ∧ at_scale c m = at_scale a m + at_scale b m
  else c = a ∧ ¬ (in64 (at_scale a m) ∧ in64 (at_scale b m) ∧ in64 (at_scale a m + at_scale b m)).
Proof. apply Add_spec. Qed.

Lemma Add_exact_witness :
  ∃ c, Add (mkAmount 15 (-1)) (mkAmount 2 3) = (true, c) ∧
    at_scale c (-1) = at_scale (mkAmount 15 (-1)) (-1) + at_scale (mkAmount 2 3) (-1).
Proof.
  exists (mkAmount 20015 (-1)). split; [reflexivity|].
  assert (valid (mkAmount 15 (-1)) ∧ valid (mkAmount 2 3)) as [Ha Hb]
    by (split; split; simpl; width; small_scale; lia).
  pose proof (Add_exact (mkAmount 15 (-1)) (mkAmount 2 3) Ha Hb) as H. cbv zeta in H.
  change (Add _ _) with (true, mkAmount 20015 (-1)) in H. cbv beta iota in H.
  destruct H as (_ & _ & H). exact H.
Defined.

(** Comparison of a truncated quotient decides the comparison of the products. *)
Lemma cmp_divided x y d :
  0 < d →
  (if Z.quot y d =? x then if Z.rem y d =? 0 then 0 else if 0 <? Z.rem y d then -1 else 1
   else cmp_values x (Z.quot y d)) =
  match x * d ?= y with Eq => 0 | Lt => -1 | Gt => 1 end.
Proof.
  intros Hd. pose proof (Z.quot_rem' y d) as Hqr. pose proof (Z.rem_bound_abs y d ltac:(lia)) as Hr.
  pose proof (Z.rem_sign_mul y d ltac:(lia)) as Hs. set (q := y ÷ d) in *. set (r := y `rem` d) in *.
  unfold cmp_values. destruct (Z.eqb_spec q x) as [E|E].
  - destruct (Z.eqb_spec r 0), (Z.ltb_spec 0 r), (Z.compare_spec (x * d) y); nia.
  - destruct (Z.eqb_spec x q); [congruence|].
    destruct (Z.ltb_spec x q), (Z.compare_spec (x * d) y); nia.
Qed.

Lemma divideByScaleInt64_spec base s :
  in64 base → 0 < s →
  divideByScaleInt64 base s =
    if 18 <=? s then (0, base, false)
    else (Z.quot base (10 ^ s), Z.rem base (10 ^ s), true).
Proof.
  intros Hb Hs. unfold divideByScaleInt64. destruct (Z.eqb_spec s 0); [lia|].
  destruct (Z.leb_spec 18 s); [done|]. unfold pow10Int64.
  rewrite (proj2 (Z.leb_le 0 s)), (proj2 (Z.leb_le s 18)) by lia. simpl. unfold div64.
  rewrite wrap64_in; [done|]. apply quot_in64; [done|]. apply Z.pow_gt_1; lia.
Qed.

(** The comparison of amounts, which divides instead of multiplying to stay
    within an [int64], agrees with the comparison of the exact decimals. *)
Theorem Cmp_exact (a b : int64Amount) : valid a → valid b → Cmp a b = Dec_Cmp a b.
Proof.
  intros Ha Hb. unfold Cmp, Dec_Cmp. destruct (Z.eqb_spec (scale a) (scale b)) as [E|E].
  { rewrite E, Z.min_id, Z.sub_diag, !Z.mul_1_r. unfold cmp_values.
    destruct (Z.compare_spec (value a) (value b)), (Z.eqb_spec (value a) (value b)),
      (Z.ltb_spec (value a) (value b)); lia. }
  destruct (Z.ltb_spec (scale b) (scale a)).
  - rewrite wrap32_diff, divideByScaleInt64_spec by (done || apply Hb || lia).
    rewrite Z.min_r, Z.sub_diag, Z.mul_1_r by lia.
    destruct (18 <=? scale a - scale b); [done|]. simpl.
    apply cmp_divided, Z.pow_pos_nonneg; lia.
  - rewrite wrap32_diff, divideByScaleInt64_spec by (done || apply Ha || lia).
    rewrite Z.min_l, Z.sub_diag, Z.mul_1_r by lia.
    destruct (18 <=? scale b - scale a); [done|]. simpl.
    pose proof (cmp_divided (value b) (value a) (10 ^ (scale b - scale a))
      ltac:(apply Z.pow_pos_nonneg; lia)) as H1.
    set (q := value a ÷ 10 ^ (scale b - scale a)) in *.
    set (r := value a `rem` 10 ^ (scale b - scale a)) in *.
    rewrite Z.compare_antisym. unfold cmp_values in *.
    destruct (q =? value b) eqn:E1, (value b * 10 ^ (scale b - scale a) ?= value a) eqn:E2; simpl in *;
      destruct (r =? 0), (0 <? r), (Z.eqb_spec (value b) q), (Z.ltb_spec (value b) q),
        (Z.ltb_spec q (value b)); to_prop; (done || lia).
Qed.

Lemma Cmp_exact_witness :
  Cmp (mkAmount 1999 (-3)) (mkAmount 2 0) = Dec_Cmp (mkAmount 1999 (-3)) (mkAmount 2 0).
Proof. apply Cmp_exact; split; simpl; width; small_scale; lia. Defined.

(** [Sub] is exact or refused, as [Add] is, except for the most negative value:
    negating it overflows, so subtracting it from zero reports success and leaves
    the most negative amount instead of a positive one. *)
Theorem Sub_wraps (s : Z) (a b : int64Amount) :
  Sub (mkAmount 0 s) (mkAmount mostNegative s) = (true, mkAmount mostNegative s) ∧
  (valid a → valid b → value b ≠ mostNegative →
   let m := Z.min (scale a) (scale b) in
   let '(ok, c) := Sub a b in
   ok = true → at_scale c m = at_scale a m - at_scale b m).
Proof.
  split; [reflexivity|]. intros Ha Hb Hne m. unfold Sub.
  assert (wrap64 (- value b) = - value b) as -> by (apply wrap64_in; destruct Hb as [Hb _]; width; lia).
  assert (valid (mkAmount (- value b) (scale b))) as Hb'.
  { split; simpl; [destruct Hb as [Hb _]; width; lia|apply Hb]. }
  pose proof (Add_spec a _ Ha Hb') as H. simpl in H. fold m in H.
  destruct (Add a _) as [[|] c]; [|done]. intros _. destruct H as (_ & _ & ->).
  unfold at_scale. simpl. lia.
Qed.

(** The loops that move factors into the exponent end: however many turns
    they are given beyond those of the model, 64 for a machine integer and one more
    than the binary logarithm for a big one, the result is the same, it is the number
    without those factors, and no factor is left. *)
Theorem factor_loops_terminate (v d base : Z) (n k : nat) :
  in64 v → v ≠ mostNegative → 2 ≤ base →
  factors_loop (64 + k) base (Z.abs v) 0 = factors_loop 64 base (Z.abs v) 0 ∧
  (let '(r, t) := removeInt64Factors v base in
   v = r * base ^ t ∧ 0 ≤ t ∧ in64 r ∧ (Z.abs r < base ∨ Z.rem r base ≠ 0)) ∧
  big_factors_loop (S (Z.to_nat (Z.log2 (Z.abs d))) + n) d base 0 = removeBigIntFactors d base ∧
  (let '(r, t) := removeBigIntFactors d base in
   d = r * base ^ t ∧ 0 ≤ t ∧ (r = 0 ∨ r mod base ≠ 0)).
Proof.
  intros Hv Hmin Hb. split; [|split; [|split]].
  - apply factors_loop_more; [done|change (2 ^ Z.of_nat 64) with (2 ^ 64); width; lia|width; lia].
  - pose proof (removeInt64Factors_spec v base Hv Hb) as H. destruct (removeInt64Factors v base). naive_solver.
  - apply big_factors_loop_more; [done|]. rewrite Nat2Z.inj_succ, Z2Nat.id by apply Z.log2_nonneg.
    destruct (decide (d = 0)) as [->|]; [simpl; lia|]. apply Z.log2_spec. lia.
  - by apply removeBigIntFactors_spec.
Qed.

Lemma factor_loops_terminate_witness :
  factors_loop (64 + 100) 10 (Z.abs (-1200)) 0 = factors_loop 64 10 (Z.abs (-1200)) 0 ∧
  big_factors_loop (S (Z.to_nat (Z.log2 (Z.abs 4000)))+ 5) 4000 10 0 = removeBigIntFactors 4000 10.
Proof.
  assert (in64 (-1200) ∧ -1200 ≠ mostNegative) as [H1 H2] by (width; lia).
  destruct (factor_loops_terminate (-1200) 4000 10 5 100 H1 H2 ltac:(lia)) as (Ha & _ & Hb & _).
  split; [exact Ha|exact Hb].
Defined.

(** ** Canonical form *)

(** What makes a number and an exponent the canonical form of an amount: the same
    decimal, an exponent that is a multiple of three, and no factor of a thousand
    left in the number. *)
Definition canonical_of (a : int64Amount) (p : Z * Z) : Prop :=
  p.2 mod 3 = 0 ∧ scale a - 2 ≤ p.2 ∧
  p.1 * 10 ^ (p.2 - (scale a - 2)) = value a * 10 ^ 2 ∧
  (value a ≠ 0 → p.1 mod 1000 ≠ 0).

(** Factors of ten taken out of the value, some of them put back. *)
Lemma canonical_of_factors a r t k :
  value a = r * 10 ^ t → 0 ≤ t → (value a ≠ 0 → r mod 10 ≠ 0) →
  k = (scale a + t) mod 3 → canonical_of a (r * 10 ^ k, scale a + t - k).
Proof.
  intros Hv Ht Hr Hk. pose proof (Z.mod_pos_bound (scale a + t) 3 ltac:(lia)) as Hk3.
  rewrite <- Hk in Hk3. split_and!; simpl.
  - rewrite Hk, Zminus_mod_idemp_r, Z.sub_diag. done.
  - lia.
  - rewrite Hv, <- !Z.mul_assoc, <- !Z.pow_add_r by lia. do 2 f_equal. lia.
  - intros Hne. specialize (Hr Hne). assert (k = 0 ∨ k = 1 ∨ k = 2) as [H0|[H0|H0]] by lia; rewrite H0;
      [change (10 ^ 0) with 1|change (10 ^ 1) with 10|change (10 ^ 2) with 100];
      intros Hm; apply Hr; apply Z.mod_divide in Hm as [q Hq]; try lia;
      apply Z.mod_divide; try lia; [exists (100 * q)|exists (10 * q)|exists q]; lia.
Qed.

(** The exponent loop multiplies as often as the exponent is above a multiple of
    three; three turns are enough. *)
Lemma exponent_loop_spec x e n :
  - 2 ^ 31 + 2 ≤ e < 2 ^ 31 →
  exponent_loop (3 + n) x e = (x * 10 ^ (e mod 3), e - e mod 3).
Proof.
  intros He. change (2 ^ 31) with 2147483648 in He. cbn [exponent_loop Nat.add].
  assert (∀ z, Z.rem z 3 = 0 ↔ z mod 3 = 0) as Hrem.
  { intros z. by rewrite Z.rem_divide, Z.mod_divide by lia. }
  assert (∀ z, negb (Z.rem z 3 =? 0) = negb (z mod 3 =? 0)) as Hb.
  { intros z. f_equal. apply eq_bool_prop_intro. rewrite !Is_true_true, !Z.eqb_eq. apply Hrem. }
  rewrite !Hb, !wrap32_in by (change (2 ^ 31) with 2147483648; rewrite ?wrap32_in by
    (change (2 ^ 31) with 2147483648; lia); lia).
  pose proof (Z.mod_pos_bound e 3 ltac:(lia)) as Hm. pose proof (Z.div_mod e 3 ltac:(lia)) as Hd.
  assert (e mod 3 = 0 ∨ e mod 3 = 1 ∨ e mod 3 = 2) as [E|[E|E]] by lia.
  - rewrite E. simpl. f_equal; lia.
  - assert ((e - 1) mod 3 = 0) as E1 by (symmetry; apply (Z.mod_unique_pos _ _ (e / 3)); lia).
    rewrite E, E1. simpl. f_equal; lia.
  - assert ((e - 1) mod 3 = 1) as E1 by (symmetry; apply (Z.mod_unique_pos _ _ (e / 3)); lia).
    assert ((e - 1 - 1) mod 3 = 0) as E2 by (symmetry; apply (Z.mod_unique_pos _ _ (e / 3)); lia).
    rewrite E, E1, E2. simpl. f_equal; lia.
Qed.

(** Machine and big factor removal both leave a number that ten does not divide, and
    take out fewer than 64 factors. *)
Lemma removeInt64Factors_ten v :
  in64 v →
  let '(r, t) := removeInt64Factors v 10 in
  v = r * 10 ^ t ∧ 0 ≤ t < 64 ∧ in64 r ∧ (v ≠ 0 → r mod 10 ≠ 0).
Proof.
  intros Hv. pose proof (removeInt64Factors_spec v 10 Hv ltac:(lia)) as H.
  destruct (Z.eqb_spec v mostNegative) as [->|Hne]; [vm_compute in H; by vm_compute|].
  destruct (Z.eqb_spec v 0) as [->|Hv0]; [by vm_compute|].
  destruct (removeInt64Factors v 10) as [r t]. destruct H as (H1 & H2 & H3 & H4).
  split_and!; [done|lia| |done|].
  - destruct (Z.lt_ge_cases t 64) as [|Ht]; [done|exfalso].
    pose proof (Z.pow_le_mono_r 10 64 t ltac:(lia) Ht). width.
    change (10 ^ 64) with (18446744073709551616 * 542101086242752217003726400434970855712890625) in *.
    assert (r ≠ 0) by (intros ->; lia). nia.
  - intros _ Hm. apply Z.mod_divide in Hm; [|lia]. assert (r ≠ 0) by (intros ->; lia).
    destruct (H4 Hne) as [Hs|Hs]; [destruct Hm; lia|]. by apply Hs, Z.rem_divide; [lia|].
Qed.

Lemma removeBigIntFactors_ten v :
  in64 v →
  let '(r, t) := removeBigIntFactors v 10 in
  v = r * 10 ^ t ∧ 0 ≤ t < 64 ∧ (v ≠ 0 → r mod 10 ≠ 0).
Proof.
  intros Hv. pose proof (removeBigIntFactors_spec v 10 ltac:(lia)) as H.
  destruct (Z.eqb_spec v 0) as [->|Hv0]; [by vm_compute|].
  destruct (removeBigIntFactors v 10) as [r t]. destruct H as (H1 & H2 & H3).
  assert (r ≠ 0) by (intros ->; lia). split_and!; [done|lia| |intros _; by destruct H3].
  destruct (Z.lt_ge_cases t 64) as [|Ht]; [done|exfalso].
  pose proof (Z.pow_le_mono_r 10 64 t ltac:(lia) Ht). width.
  change (10 ^ 64) with (18446744073709551616 * 542101086242752217003726400434970855712890625) in *. nia.
Qed.

Lemma Dec_canonical_spec a : valid a → canonical_of a (Dec_canonical a).
Proof.
  intros [Hv Hs]. unfold Dec_canonical. pose proof (removeBigIntFactors_ten _ Hv) as H.
  destruct (removeBigIntFactors (value a) 10) as [r t]. destruct H as (H1 & H2 & H3).
  small_scale. rewrite wrap32_in by (small_scale; lia).
  rewrite (exponent_loop_spec _ _ 0) by (small_scale; lia). by apply canonical_of_factors; [|lia|..].
Qed.

(** The remainder of an exponent, as Go and as the mathematicians have it. *)
Lemma rem3_mod e :
  ((Z.rem e 3 =? 1) || (Z.rem e 3 =? -2) = (e mod 3 =? 1)) ∧
  ((Z.rem e 3 =? 2) || (Z.rem e 3 =? -1) = (e mod 3 =? 2)).
Proof.
  pose proof (Z.quot_rem' e 3) as Hq. pose proof (Z.rem_bound_abs e 3 ltac:(lia)) as Hb.
  pose proof (Z.div_mod e 3 ltac:(lia)) as Hd. pose proof (Z.mod_pos_bound e 3 ltac:(lia)).
  set (r := Z.rem e 3) in *. set (q := Z.quot e 3) in *. set (m := e mod 3) in *. set (d := e / 3) in *.
  split; destruct (Z.eqb_spec r 1), (Z.eqb_spec r (-2)), (Z.eqb_spec r 2), (Z.eqb_spec r (-1)),
    (Z.eqb_spec m 1), (Z.eqb_spec m 2); simpl; (done || lia).
Qed.

Lemma canonical_spec a : valid a → canonical_of a (canonical a).
Proof.
  intros Ha. pose proof Ha as [Hv Hs]. unfold canonical.
  pose proof (removeInt64Factors_ten _ Hv) as H.
  destruct (removeInt64Factors (value a) 10) as [r t]. destruct H as (H1 & H2 & Hr & H3).
  small_scale. rewrite wrap32_in by (small_scale; lia). set (e := scale a + t).
  destruct (rem3_mod e) as [-> ->]. pose proof (Z.mod_pos_bound e 3 ltac:(lia)).
  assert (∀ k, k = e mod 3 → canonical_of a (r * 10 ^ k, e - k)) as Hk
    by (intros; by apply canonical_of_factors; [|lia|..]).
  destruct (Z.eqb_spec (e mod 3) 1) as [E|E]; [|destruct (Z.eqb_spec (e mod 3) 2) as [E'|E']].
  - rewrite int64MultiplyScale10_eq, int64MultiplyScale_checked by (done || (width; lia)).
    unfold checked. destruct (decide _); [|by apply Dec_canonical_spec].
    rewrite wrap32_in by (small_scale; lia). apply (Hk 1). lia.
  - rewrite int64MultiplyScale100_eq, int64MultiplyScale_checked by (done || (width; lia)).
    unfold checked. destruct (decide _); [|by apply Dec_canonical_spec].
    rewrite wrap32_in by (small_scale; lia). apply (Hk 2). lia.
  - replace (r, e) with (r * 10 ^ 0, e - 0) by (f_equal; lia). apply Hk. lia.
Qed.

(** Two canonical forms of the same decimal are the same. *)
Lemma canonical_of_unique x y e f :
  e mod 3 = 0 → f mod 3 = 0 → e ≤ f → x ≠ 0 → x mod 1000 ≠ 0 → x = y * 10 ^ (f - e) →
  (x, e) = (y, f).
Proof.
  intros He Hf Hle Hx0 Hx Hxy. destruct (Z.eq_dec e f) as [->|Hne].
  { rewrite Z.sub_diag in Hxy. f_equal. lia. }
  exfalso. apply Hx, Z.mod_divide; [lia|]. exists (y * 10 ^ (f - e - 3)).
  rewrite Hxy, <- Z.mul_assoc. f_equal. change 1000 with (10 ^ 3).
  apply Z.mod_divide in He as [i ->], Hf as [j ->]; try lia. rewrite <- Z.pow_add_r by lia. f_equal. lia.
Qed.

(** Canonical forms decide equality: two amounts that are not zero are printed
    with the same number and exponent exactly when they are the same decimal, even
    where the machine representation overflows and the number is computed with
    unbounded integers. *)
Theorem canonical_unique (a b : int64Amount) :
  valid a → valid b → value a ≠ 0 → (canonical a = canonical b ↔ Dec_Cmp a b = 0).
Proof.
  intros Ha Hb Hne. set (m := Z.min (scale a) (scale b)).
  assert (Dec_Cmp a b = 0 ↔ at_scale a (m - 2) = at_scale b (m - 2)) as ->.
  { unfold Dec_Cmp. fold m. rewrite (at_scale_le a m), (at_scale_le b m) by lia.
    replace (m - (m - 2)) with 2 by lia. unfold at_scale.
    destruct (Z.compare_spec (value a * 10 ^ (scale a - m)) (value b * 10 ^ (scale b - m))); lia. }
  assert (∀ c p, canonical_of c p → m ≤ scale c → at_scale c (m - 2) = p.1 * 10 ^ (p.2 - (m - 2))) as Hval.
  { intros c p (_ & Hp1 & Hp2 & _) Hc. unfold at_scale.
    replace (p.2 - (m - 2)) with (p.2 - (scale c - 2) + (scale c - m)) by lia.
    replace (scale c - (m - 2)) with (2 + (scale c - m)) by lia.
    rewrite !Z.pow_add_r, !Z.mul_assoc, Hp2 by lia. done. }
  pose proof (canonical_spec a Ha) as Ca. pose proof (canonical_spec b Hb) as Cb.
  rewrite (Hval a _ Ca), (Hval b _ Cb) by lia.
  destruct Ca as (Ea & La & Va & Na), Cb as (Eb & Lb & Vb & Nb). clear Hval.
  destruct (canonical a) as [x e], (canonical b) as [y f]; simpl in *.
  split; [by intros [= -> ->]|]. intros Hxy.
  assert (x ≠ 0) by (intros ->; lia).
  assert (∀ k, 0 ≤ k → 10 ^ k ≠ 0) as Hp by (intros k ?; apply Z.pow_nonzero; lia).
  assert (y ≠ 0) by (intros ->; pose proof (Hp (e - (m - 2)) ltac:(lia)); nia).
  assert (value b ≠ 0) as Hbne by (intros E; rewrite E in Vb; pose proof (Hp (f - (scale b - 2)) ltac:(lia)); nia).
  destruct (Z.le_ge_cases e f) as [Hle|Hle]; [|symmetry].
  - apply canonical_of_unique; auto.
    apply (Z.mul_cancel_r _ _ (10 ^ (e - (m - 2)))); [apply Hp; lia|].
    rewrite Hxy, <- Z.mul_assoc, <- Z.pow_add_r by lia. do 2 f_equal. lia.
  - apply canonical_of_unique; auto.
    apply (Z.mul_cancel_r _ _ (10 ^ (f - (m - 2)))); [apply Hp; lia|].
    rewrite <- Hxy, <- Z.mul_assoc, <- Z.pow_add_r by lia. do 2 f_equal. lia.
Qed.

Lemma canonical_unique_witness :
  canonical (mkAmount 1200 1) = canonical (mkAmount 12 3) ↔ Dec_Cmp (mkAmount 1200 1) (mkAmount 12 3) = 0.
Proof. apply canonical_unique; [split; simpl; width; small_scale; lia..|done]. Defined.
