(* ===== verification/DeploymentRolling.v ===== *)
(** * Rolling updates of deployments

    [pkg/controller/deployment/rolling.go], the scaling of [sync.go], and the
    arithmetic of [util/deployment_util.go]: how many replicas a rolling update adds
    to the new replica set and takes from the old ones. Counts are [int32] and their
    sums wrap. A scaled replica set is written through the API client, which can
    refuse. *)

From S2P Require Import Prelude GoStrings GoStrconv GoInt.

(** ** [intstr] *)

Inductive IntOrString : Type :=
  | IntVal (i : Z)
  | StrVal (s : string).

(** [strings.Replace(s, "%", "", -1)] *)
Fixpoint remove_char (c : ascii) (s : string) : string :=
  match s with
  | "" => ""
  | String a s => if bool_decide (a = c) then remove_char c s else String a (remove_char c s)
  end.

(** The value and whether it is a percentage: every string counts as one, with or
    without the sign. *)
Definition getIntOrPercentValue (x : IntOrString) : result NumError (Z * bool) :=
  match x with
  | IntVal i => Ok (i, false)
  | StrVal s =>
      match Atoi (remove_char "%"%char s) with
      | Err e => Err e
      | Ok v => Ok (v, true)
      end
  end.

(** The percentage of the total, rounded up or down. The code divides in floating
    point; for products below [2 ^ 52] the rounded quotient is the one here. *)
Definition GetValueFromIntOrPercent (x : IntOrString) (total : Z) (roundUp : bool) : result NumError Z :=
  match getIntOrPercentValue x with
  | Err e => Err e
  | Ok (value, isPercent) =>
      Ok (if isPercent then
            if roundUp then - (- (value * total) / 100) else value * total / 100
          else value)
  end.

(** ** Deployments and replica sets *)

Inductive Strategy : Type :=
  | RollingUpdate (maxSurge maxUnavailable : option IntOrString)
  | Recreate
  | OtherStrategy (name : string).

Record Deployment : Type := mkDeployment {
  d_Replicas : Z;
  d_Strategy : Strategy;
  d_StatusReplicas : Z;
}.

(** [Replicas] is the size asked for in the spec, [StatusReplicas] the one observed. *)
Record ReplicaSet : Type := mkReplicaSet {
  UID : string;
  Name : string;
  CreationTimestamp : Z;
  Replicas : Z;
  StatusReplicas : Z;
  AvailableReplicas : Z;
  Annotations : gmap string string;
}.

Definition DesiredReplicasAnnotation : string := "deployment.kubernetes.io/desired-replicas".
Definition MaxReplicasAnnotation : string := "deployment.kubernetes.io/max-replicas".

Definition IsRollingUpdate (d : Deployment) : bool :=
  match d_Strategy d with RollingUpdate _ _ => true | _ => false end.

Definition ValueOrDefault (x : option IntOrString) (y : IntOrString) : IntOrString := default y x.

Definition ResolveFenceposts (maxSurge maxUnavailable : option IntOrString) (desired : Z) :
    result NumError (Z * Z) :=
  match GetValueFromIntOrPercent (ValueOrDefault maxSurge (IntVal 0)) desired true with
  | Err e => Err e
  | Ok surge =>
      match GetValueFromIntOrPercent (ValueOrDefault maxUnavailable (IntVal 0)) desired false with
      | Err e => Err e
      | Ok unavailable =>
          let unavailable := if (surge =? 0) && (unavailable =? 0) then 1 else unavailable in
          Ok (wrap32 surge, wrap32 unavailable)
      end
  end.

(** The two callers ignore the error, and get zeros with it. *)
Definition MaxUnavailable (d : Deployment) : Z :=
  match d_Strategy d with
  | RollingUpdate surge unavailable =>
      if d_Replicas d =? 0 then 0
      else
        let maxUnavailable :=
          match ResolveFenceposts surge unavailable (d_Replicas d) with Ok (_, u) => u | Err _ => 0 end in
        if d_Replicas d <? maxUnavailable then d_Replicas d else maxUnavailable
  | _ => 0
  end.

Definition MinAvailable (d : Deployment) : Z :=
  if negb (IsRollingUpdate d) then 0 else wrap32 (d_Replicas d - MaxUnavailable d).

Definition MaxSurge (d : Deployment) : Z :=
  match d_Strategy d with
  | RollingUpdate surge unavailable =>
      match ResolveFenceposts surge unavailable (d_Replicas d) with Ok (s, _) => s | Err _ => 0 end
  | _ => 0
  end.

Definition GetReplicaCountForReplicaSets (l : list ReplicaSet) : Z :=
  fold_left (λ total rs, wrap32 (total + Replicas rs)) l 0.

Definition GetAvailableReplicaCountForReplicaSets (l : list ReplicaSet) : Z :=
  fold_left (λ total rs, wrap32 (total + AvailableReplicas rs)) l 0.

Inductive DeployError : Type :=
  | ErrFencepost (e : NumError)
  | ErrStrategy (name : string)
  | ErrInvalidScale
  | ErrUpdate (name : string).

(** A nil [MaxSurge] is an error here, where the fenceposts take zero. *)
Definition NewRSNewReplicas (d : Deployment) (allRSs : list ReplicaSet) (newRS : ReplicaSet) :
    result DeployError Z :=
  match d_Strategy d with
  | RollingUpdate surge _ =>
      match surge with
      | None => Err (ErrFencepost (ErrSyntax ""))
      | Some surge =>
          match GetValueFromIntOrPercent surge (d_Replicas d) true with
          | Err e => Err (ErrFencepost e)
          | Ok maxSurge =>
              let currentPodCount := GetReplicaCountForReplicaSets allRSs in
              let maxTotalPods := wrap32 (d_Replicas d + wrap32 maxSurge) in
              if maxTotalPods <=? currentPodCount then Ok (Replicas newRS)
              else
                let scaleUpCount := wrap32 (maxTotalPods - currentPodCount) in
                let scaleUpCount := Z.min scaleUpCount (wrap32 (d_Replicas d - Replicas newRS)) in
                Ok (wrap32 (Replicas newRS + scaleUpCount))
          end
      end
  | Recreate => Ok (d_Replicas d)
  | OtherStrategy name => Err (ErrStrategy name)
  end.

(** ** Scaling *)

Definition annotated (rs : ReplicaSet) (key : string) (i : Z) : bool :=
  bool_decide (default "" (Annotations rs !! key) = Itoa i).

Definition ReplicasAnnotationsNeedUpdate (rs : ReplicaSet) (desiredReplicas maxReplicas : Z) : bool :=
  negb (annotated rs DesiredReplicasAnnotation desiredReplicas) ||
  negb (annotated rs MaxReplicasAnnotation maxReplicas).

Definition SetReplicasAnnotations (rs : ReplicaSet) (desiredReplicas maxReplicas : Z) : ReplicaSet :=
  mkReplicaSet (UID rs) (Name rs) (CreationTimestamp rs) (Replicas rs) (StatusReplicas rs) (AvailableReplicas rs)
    (<[MaxReplicasAnnotation := Itoa maxReplicas]>
       (<[DesiredReplicasAnnotation := Itoa desiredReplicas]> (Annotations rs))).

Definition set_replicas (rs : ReplicaSet) (n : Z) : ReplicaSet :=
  mkReplicaSet (UID rs) (Name rs) (CreationTimestamp rs) n (StatusReplicas rs) (AvailableReplicas rs) (Annotations rs).

(** ** Sorting *)

(** [ReplicaSetsByCreationTimestamp]; names are compared byte by byte. *)
Definition older (a b : ReplicaSet) : bool :=
  if CreationTimestamp a =? CreationTimestamp b then String.ltb (Name a) (Name b)
  else CreationTimestamp a <? CreationTimestamp b.

(** Insertion sort, for [sort.Sort] on an order that tells all elements apart. *)
Fixpoint insert_by (lt : ReplicaSet → ReplicaSet → bool) (rs : ReplicaSet) (l : list ReplicaSet) : list ReplicaSet :=
  match l with
  | [] => [rs]
  | x :: l => if lt x rs then x :: insert_by lt rs l else rs :: x :: l
  end.

Definition sort_by (lt : ReplicaSet → ReplicaSet → bool) (l : list ReplicaSet) : list ReplicaSet :=
  foldr (insert_by lt) [] l.

Definition sort_rs (l : list ReplicaSet) : list ReplicaSet := sort_by older l.

Section rolling.
(** Whether the client refuses the update of a replica set. *)
Context (refuse : string → bool).

(** The replica set as written; [scaled] tells whether its size changed. *)
Definition scaleReplicaSet (rs : ReplicaSet) (newScale : Z) (d : Deployment) :
    result DeployError (bool * ReplicaSet) :=
  let sizeNeedsUpdate := negb (Replicas rs =? newScale) in
  let maxReplicas := wrap32 (d_Replicas d + MaxSurge d) in
  let annotationsNeedUpdate := ReplicasAnnotationsNeedUpdate rs (d_Replicas d) maxReplicas in
  if sizeNeedsUpdate || annotationsNeedUpdate then
    if refuse (Name rs) then Err (ErrUpdate (Name rs))
    else Ok (sizeNeedsUpdate, SetReplicasAnnotations (set_replicas rs newScale) (d_Replicas d) maxReplicas)
  else Ok (false, rs).

Definition scaleReplicaSetAndRecordEvent (rs : ReplicaSet) (newScale : Z) (d : Deployment) :
    result DeployError (bool * ReplicaSet) :=
  if Replicas rs =? newScale then Ok (false, rs) else scaleReplicaSet rs newScale d.

Definition reconcileNewReplicaSet (allRSs : list ReplicaSet) (newRS : ReplicaSet) (d : Deployment) :
    result DeployError (bool * ReplicaSet) :=
  if Replicas newRS =? d_Replicas d then Ok (false, newRS)
  else if d_Replicas d <? Replicas newRS then scaleReplicaSetAndRecordEvent newRS (d_Replicas d) d
  else
    match NewRSNewReplicas d allRSs newRS with
    | Err e => Err e
    | Ok newReplicasCount => scaleReplicaSetAndRecordEvent newRS newReplicasCount d
    end.

(** The loop of [cleanupUnhealthyReplicas]: the replica sets as they are afterwards,
    the number of replicas taken, and the error it stopped at. *)
Fixpoint cleanup_loop (oldRSs : list ReplicaSet) (d : Deployment) (maxCleanupCount total : Z) :
    list ReplicaSet * Z * option DeployError :=
  match oldRSs with
  | [] => ([], total, None)
  | rs :: rest =>
      if maxCleanupCount <=? total then (oldRSs, total, None)
      else if (Replicas rs =? 0) || (Replicas rs =? AvailableReplicas rs) then
        let '(rest, total, err) := cleanup_loop rest d maxCleanupCount total in (rs :: rest, total, err)
      else
        let scaledDownCount :=
          wrap32 (Z.min (wrap32 (maxCleanupCount - total)) (wrap32 (Replicas rs - AvailableReplicas rs))) in
        let newReplicasCount := wrap32 (Replicas rs - scaledDownCount) in
        if Replicas rs <? newReplicasCount then (oldRSs, 0, Some ErrInvalidScale)
        else
          match scaleReplicaSetAndRecordEvent rs newReplicasCount d with
          | Err e => (oldRSs, total, Some e)
          | Ok (_, rs) =>
              let '(rest, total, err) := cleanup_loop rest d maxCleanupCount (wrap32 (total + scaledDownCount)) in
              (rs :: rest, total, err)
          end
  end.

Definition cleanupUnhealthyReplicas (oldRSs : list ReplicaSet) (d : Deployment) (maxCleanupCount : Z) :
    list ReplicaSet * Z * option DeployError :=
  cleanup_loop (sort_rs oldRSs) d maxCleanupCount 0.

Fixpoint scale_down_loop (oldRSs : list ReplicaSet) (d : Deployment) (totalScaleDownCount total : Z) :
    list ReplicaSet * Z * option DeployError :=
  match oldRSs with
  | [] => ([], total, None)
  | rs :: rest =>
      if totalScaleDownCount <=? total then (oldRSs, total, None)
      else if Replicas rs =? 0 then
        let '(rest, total, err) := scale_down_loop rest d totalScaleDownCount total in (rs :: rest, total, err)
      else
        let scaleDownCount := wrap32 (Z.min (Replicas rs) (wrap32 (totalScaleDownCount - total))) in
        let newReplicasCount := wrap32 (Replicas rs - scaleDownCount) in
        if Replicas rs <? newReplicasCount then (oldRSs, 0, Some ErrInvalidScale)
        else
          match scaleReplicaSetAndRecordEvent rs newReplicasCount d with
          | Err e => (oldRSs, total, Some e)
          | Ok (_, rs) =>
              let '(rest, total, err) := scale_down_loop rest d totalScaleDownCount (wrap32 (total + scaleDownCount)) in
              (rs :: rest, total, err)
          end
  end.

Definition scaleDownOldReplicaSetsForRollingUpdate (allRSs oldRSs : list ReplicaSet) (d : Deployment) :
    list ReplicaSet * Z * option DeployError :=
  let minAvailable := wrap32 (d_Replicas d - MaxUnavailable d) in
  let availablePodCount := GetAvailableReplicaCountForReplicaSets allRSs in
  if availablePodCount <=? minAvailable then (oldRSs, 0, None)
  else scale_down_loop (sort_rs oldRSs) d (wrap32 (availablePodCount - minAvailable)) 0.

(** [reconcileOldReplicaSets]: whether something was scaled, and the old replica sets
    as they are afterwards. An error ends it without being returned. *)
Definition reconcileOldReplicaSets (allRSs oldRSs : list ReplicaSet) (newRS : ReplicaSet) (d : Deployment) :
    bool * list ReplicaSet :=
  let oldPodsCount := GetReplicaCountForReplicaSets oldRSs in
  if oldPodsCount =? 0 then (false, oldRSs)
  else
    let allPodsCount := GetReplicaCountForReplicaSets allRSs in
    let minAvailable := wrap32 (d_Replicas d - MaxUnavailable d) in
    let newRSUnavailablePodCount := wrap32 (Replicas newRS - AvailableReplicas newRS) in
    let maxScaledDown := wrap32 (wrap32 (allPodsCount - minAvailable) - newRSUnavailablePodCount) in
    if maxScaledDown <=? 0 then (false, oldRSs)
    else
      let '(oldRSs, cleanupCount, err) := cleanupUnhealthyReplicas oldRSs d maxScaledDown in
      match err with
      | Some _ => (false, oldRSs)
      | None =>
          let '(oldRSs, scaledDownCount, err) :=
            scaleDownOldReplicaSetsForRollingUpdate (oldRSs ++ [newRS]) oldRSs d in
          match err with
          | Some _ => (false, oldRSs)
          | None => (0 <? wrap32 (cleanupCount + scaledDownCount), oldRSs)
          end
      end.

Definition FilterActiveReplicaSets (l : list ReplicaSet) : list ReplicaSet :=
  List.filter (λ rs, 0 <? Replicas rs) l.

(** The scaling of [rolloutRolling]: the new replica set up if it can be, otherwise
    the old ones down. *)
Definition rolloutRolling (oldRSs : list ReplicaSet) (newRS : ReplicaSet) (d : Deployment) :
    result DeployError (list ReplicaSet * ReplicaSet) :=
  match reconcileNewReplicaSet (oldRSs ++ [newRS]) newRS d with
  | Err e => Err e
  | Ok (true, newRS') => Ok (oldRSs, newRS')
  | Ok (false, newRS') =>
      let active := FilterActiveReplicaSets oldRSs in
      let inactive := List.filter (λ rs, negb (0 <? Replicas rs)) oldRSs in
      let '(_, scaled) := reconcileOldReplicaSets (oldRSs ++ [newRS]) active newRS' d in
      Ok (inactive ++ scaled, newRS')
  end.

End rolling.

(** ** Sums *)

Definition sum (f : ReplicaSet → Z) (l : list ReplicaSet) : Z := foldr (λ rs s, f rs + s) 0 l.

Lemma sum_app f l k : sum f (l ++ k) = sum f l + sum f k.
Proof. induction l as [|rs l IH]; simpl; [done|]. rewrite IH. lia. Qed.

#[global] Instance sum_perm f : Proper ((≡ₚ) ==> (=)) (sum f).
Proof. intros l k Hp. induction Hp; simpl; lia. Qed.

Lemma sum_nonneg f l : (∀ rs, rs ∈ l → 0 ≤ f rs) → 0 ≤ sum f l.
Proof.
  induction l as [|rs l IH]; intros Hl; simpl; [done|].
  pose proof (Hl rs ltac:(left)). assert (0 ≤ sum f l) by (apply IH; intros; apply Hl; by right). lia.
Qed.

Lemma sum_le f g l : (∀ rs, rs ∈ l → f rs ≤ g rs) → sum f l ≤ sum g l.
Proof.
  induction l as [|rs l IH]; intros Hl; simpl; [done|].
  pose proof (Hl rs ltac:(left)). assert (sum f l ≤ sum g l) by (apply IH; intros; apply Hl; by right). lia.
Qed.

Ltac w32 := change (2 ^ 30) with 1073741824 in *; change (2 ^ 31) with 2147483648 in *.

Lemma count_sum f l t :
  (∀ rs, rs ∈ l → 0 ≤ f rs) → 0 ≤ t → t + sum f l < 2 ^ 31 →
  fold_left (λ total rs, wrap32 (total + f rs)) l t = t + sum f l.
Proof.
  revert t. induction l as [|rs l IH]; intros t Hl Ht Hb; simpl; [lia|]. simpl in Hb.
  pose proof (Hl rs ltac:(left)). assert (0 ≤ sum f l) by (apply sum_nonneg; intros; apply Hl; by right).
  rewrite wrap32_in by (w32; lia). rewrite IH; [lia|intros; apply Hl; by right|lia|lia].
Qed.

(** A replica set with no more available replicas than it should have. *)
Definition sane (rs : ReplicaSet) : Prop := 0 ≤ AvailableReplicas rs ≤ Replicas rs.

(** Replica sets with a sum of sizes within the width of the counters. *)
Definition sane_list (l : list ReplicaSet) : Prop :=
  (∀ rs, rs ∈ l → sane rs) ∧ sum Replicas l < 2 ^ 30.

Lemma sane_list_facts l :
  sane_list l → 0 ≤ sum AvailableReplicas l ≤ sum Replicas l ∧
  GetReplicaCountForReplicaSets l = sum Replicas l ∧
  GetAvailableReplicaCountForReplicaSets l = sum AvailableReplicas l.
Proof.
  intros [Hs Hb].
  assert (0 ≤ sum AvailableReplicas l) by (apply sum_nonneg; intros rs Hrs; apply Hs in Hrs; unfold sane in *; lia).
  assert (sum AvailableReplicas l ≤ sum Replicas l) by (apply sum_le; intros rs Hrs; apply Hs in Hrs; unfold sane in *; lia).
  split; [done|]. unfold GetReplicaCountForReplicaSets, GetAvailableReplicaCountForReplicaSets.
  rewrite !count_sum; [done|..]; try (intros rs Hrs; apply Hs in Hrs; unfold sane in *; lia); w32; lia.
Qed.

Lemma sane_list_perm l k : l ≡ₚ k → sane_list l → sane_list k.
Proof. intros Hp [Hs Hb]. split; [intros rs; rewrite <- Hp; apply Hs|by rewrite <- Hp]. Qed.

Lemma sane_list_app l k : sane_list (l ++ k) → sane_list l ∧ sane_list k.
Proof.
  intros [Hs Hb]. rewrite sum_app in Hb.
  assert (0 ≤ sum Replicas l ∧ 0 ≤ sum Replicas k) as [? ?].
  { split; apply sum_nonneg; intros rs Hrs; destruct (Hs rs); rewrite ?elem_of_app; auto; lia. }
  split; (split; [intros rs Hrs; apply Hs, elem_of_app; auto|lia]).
Qed.

Lemma insert_by_perm lt rs l : insert_by lt rs l ≡ₚ rs :: l.
Proof.
  induction l as [|x l IH]; simpl; [done|]. destruct (lt x rs); [|done]. rewrite IH. constructor.
Qed.

Lemma sort_by_perm lt l : sort_by lt l ≡ₚ l.
Proof. induction l as [|rs l IH]; simpl; [done|]. by rewrite insert_by_perm, IH. Qed.

Lemma sort_rs_perm l : sort_rs l ≡ₚ l.
Proof. apply sort_by_perm. Qed.

(** ** The loops *)

(** What scaling leaves alone. *)
Definition scaled_to (rs rs' : ReplicaSet) : Prop :=
  Name rs' = Name rs ∧ CreationTimestamp rs' = CreationTimestamp rs ∧
  AvailableReplicas rs' = AvailableReplicas rs ∧ 0 ≤ Replicas rs' ≤ Replicas rs.

Lemma scaled_to_refl rs : 0 ≤ Replicas rs → scaled_to rs rs.
Proof. intros. unfold scaled_to. split_and!; (done || lia). Qed.

Lemma scaled_refl l : (∀ rs, rs ∈ l → sane rs) → Forall2 scaled_to l l.
Proof.
  induction l as [|rs l IH]; intros Hl; constructor; [|apply IH; intros; apply Hl; by right].
  apply scaled_to_refl. destruct (Hl rs); [left|lia].
Qed.

Lemma record_event_spec refuse rs n d :
  match scaleReplicaSetAndRecordEvent refuse rs n d with
  | Ok (scaled, rs') =>
      Name rs' = Name rs ∧ CreationTimestamp rs' = CreationTimestamp rs ∧
      AvailableReplicas rs' = AvailableReplicas rs ∧ Replicas rs' = n ∧
      scaled = negb (Replicas rs =? n) ∧ (Replicas rs = n → rs' = rs)
  | Err _ => refuse (Name rs) = true ∧ Replicas rs ≠ n
  end.
Proof.
  unfold scaleReplicaSetAndRecordEvent. destruct (Z.eqb_spec (Replicas rs) n) as [E|E]; simpl; [by split_and!|].
  unfold scaleReplicaSet. destruct (Z.eqb_spec (Replicas rs) n); [done|]. simpl.
  destruct (refuse (Name rs)); [done|]. by split_and!.
Qed.

(** Cleaning up takes unavailable replicas only. *)
Lemma cleanup_loop_spec refuse d l m t :
  (∀ rs, rs ∈ l → sane rs) → sum Replicas l < 2 ^ 30 → 0 ≤ t → m < 2 ^ 31 →
  let '(l', t', err) := cleanup_loop refuse l d m t in
  Forall2 scaled_to l l' ∧ (∀ rs, rs ∈ l' → sane rs) ∧ err ≠ Some ErrInvalidScale ∧
  t' = t + (sum Replicas l - sum Replicas l') ∧
  ((∀ n, refuse n = false) → err = None) ∧
  ((∀ rs, rs ∈ l → Replicas rs = AvailableReplicas rs) → l' = l).
Proof.
  revert t. induction l as [|rs l IH]; intros t Hs Hb Ht Hm; cbn [cleanup_loop].
  { split_and!; (done || simpl; lia). }
  assert (sane rs) as Hrs by (apply Hs; left). assert (∀ x, x ∈ l → sane x) as Hl by (intros; apply Hs; by right).
  pose proof Hrs as [Ha1 Ha2]. simpl in Hb.
  assert (0 ≤ sum Replicas l) by (apply sum_nonneg; intros x Hx; destruct (Hl x Hx); lia).
  destruct (Z.leb_spec m t); [split_and!; try done; [by apply scaled_refl|lia]|].
  destruct ((Replicas rs =? 0) || (Replicas rs =? AvailableReplicas rs)) eqn:E.
  { specialize (IH t Hl ltac:(lia) Ht Hm). destruct (cleanup_loop refuse l d m t) as [[l' t'] err].
    destruct IH as (H1 & H2 & H3 & H4 & H5 & H6). split_and!; [|  |done|simpl; lia|done|].
    - constructor; [apply scaled_to_refl; lia|done].
    - intros x [->|Hx]%elem_of_cons; auto.
    - intros Hall. f_equal. apply H6. intros x Hx. apply Hall. by right. }
  to_prop. w32.
  set (u := Z.min (m - t) (Replicas rs - AvailableReplicas rs)).
  assert (wrap32 (Z.min (wrap32 (m - t)) (wrap32 (Replicas rs - AvailableReplicas rs))) = u) as ->.
  { rewrite (wrap32_in (m - t)), (wrap32_in (Replicas rs - _)), wrap32_in by (w32; lia). done. }
  assert (0 < u) by lia. rewrite (wrap32_in (Replicas rs - u)) by (w32; lia).
  destruct (Z.ltb_spec (Replicas rs) (Replicas rs - u)); [lia|].
  pose proof (record_event_spec refuse rs (Replicas rs - u) d) as Hev.
  destruct (scaleReplicaSetAndRecordEvent refuse rs (Replicas rs - u) d) as [[sc rs']|e] eqn:Ee.
  2:{ destruct Hev as [Hev _]. split_and!; [by apply scaled_refl|done| |lia| |].
      - intros [= ->]. unfold scaleReplicaSetAndRecordEvent, scaleReplicaSet in Ee. repeat case_match; done.
      - intros Hno. by rewrite Hno in Hev.
      - intros Hall. pose proof (Hall rs ltac:(left)). lia. }
  destruct Hev as (E1 & E2 & E3 & E4 & _ & _). rewrite (wrap32_in (t + u)) by (w32; lia).
  specialize (IH (t + u) Hl ltac:(lia) ltac:(lia) Hm). destruct (cleanup_loop refuse l d m (t + u)) as [[l' t'] err].
  destruct IH as (G1 & G2 & G3 & G4 & G5 & G6). split_and!; [| |done|simpl; lia|done|].
  - constructor; [unfold scaled_to; split_and!; (done || lia)|done].
  - intros x [->|Hx]%elem_of_cons; [|auto]. unfold sane. lia.
  - intros Hall. pose proof (Hall rs ltac:(left)). lia.
Qed.

(** Scaling down takes as much as it is asked for, or everything. *)
Lemma scale_down_loop_spec refuse d l m t :
  (∀ rs, rs ∈ l → sane rs) → sum Replicas l < 2 ^ 30 → 0 ≤ t ≤ m → m < 2 ^ 31 →
  let '(l', t', err) := scale_down_loop refuse l d m t in
  Forall2 scaled_to l l' ∧ t' = t + (sum Replicas l - sum Replicas l') ∧ t' ≤ m ∧
  ((∀ n, refuse n = false) → err = None ∧ t' = Z.min m (t + sum Replicas l)).
Proof.
  revert t. induction l as [|rs l IH]; intros t Hs Hb Ht Hm; cbn [scale_down_loop].
  { split_and!; simpl; [constructor|lia|lia|intros _; split; [done|lia]]. }
  assert (sane rs) as Hrs by (apply Hs; left). assert (∀ x, x ∈ l → sane x) as Hl by (intros; apply Hs; by right).
  pose proof Hrs as [Ha1 Ha2]. simpl in Hb.
  assert (0 ≤ sum Replicas l) by (apply sum_nonneg; intros x Hx; destruct (Hl x Hx); lia).
  destruct (Z.leb_spec m t); [split_and!; [by apply scaled_refl|lia|lia|intros _; simpl; split; (done || lia)]|].
  destruct (Z.eqb_spec (Replicas rs) 0) as [E|E].
  { specialize (IH t Hl ltac:(lia) Ht Hm). destruct (scale_down_loop refuse l d m t) as [[l' t'] err].
    destruct IH as (G1 & G2 & G3 & G4). split_and!; [|simpl; lia|done|].
    - constructor; [apply scaled_to_refl; lia|done].
    - intros Hno. destruct (G4 Hno). split; [done|]. simpl. lia. }
  w32. set (u := Z.min (Replicas rs) (m - t)).
  assert (wrap32 (Z.min (Replicas rs) (wrap32 (m - t))) = u) as ->.
  { rewrite (wrap32_in (m - t)), wrap32_in by (w32; lia). done. }
  assert (0 < u) by lia. rewrite (wrap32_in (Replicas rs - u)) by (w32; lia).
  destruct (Z.ltb_spec (Replicas rs) (Replicas rs - u)); [lia|].
  pose proof (record_event_spec refuse rs (Replicas rs - u) d) as Hev.
  destruct (scaleReplicaSetAndRecordEvent refuse rs (Replicas rs - u) d) as [[sc rs']|e] eqn:Ee.
  2:{ destruct Hev as [Hev _]. split_and!; [by apply scaled_refl|lia|lia|]. intros Hno. by rewrite Hno in Hev. }
  destruct Hev as (E1 & E2 & E3 & E4 & _ & _). rewrite (wrap32_in (t + u)) by (w32; lia).
  specialize (IH (t + u) Hl ltac:(lia) ltac:(lia) Hm). destruct (scale_down_loop refuse l d m (t + u)) as [[l' t'] err].
  destruct IH as (G1 & G2 & G3 & G4). split_and!; [|simpl; lia|lia|].
  - constructor; [unfold scaled_to; split_and!; (done || lia)|done].
  - intros Hno. destruct (G4 Hno). split; [done|]. simpl. lia.
Qed.

(** The available replicas that are left after scaling: the replica set controller
    deletes replicas that are not available first. *)
Definition left_available (rs : ReplicaSet) : Z := Z.min (AvailableReplicas rs) (Replicas rs).

Lemma scaled_sums l l' :
  (∀ rs, rs ∈ l → sane rs) → Forall2 scaled_to l l' →
  sum AvailableReplicas l' = sum AvailableReplicas l ∧ 0 ≤ sum Replicas l' ≤ sum Replicas l ∧
  sum AvailableReplicas l - (sum Replicas l - sum Replicas l') ≤ sum left_available l'.
Proof.
  intros Hs H2. induction H2 as [|rs rs' l l' Hr H2 IH]; simpl; [lia|].
  destruct IH as (I1 & I2 & I3); [intros; apply Hs; by right|].
  destruct Hr as (_ & _ & Ha & Hr). destruct (Hs rs); [left|].
  split_and!; [lia..|]. unfold left_available at 1. lia.
Qed.

(** ** Fenceposts *)

(** A rolling strategy whose bounds resolve, within the width of the counters. *)
Definition rolling_ok (d : Deployment) : Prop :=
  ∃ surge unavailable s u, d_Strategy d = RollingUpdate (Some surge) unavailable ∧
    GetValueFromIntOrPercent surge (d_Replicas d) true = Ok s ∧
    GetValueFromIntOrPercent (ValueOrDefault unavailable (IntVal 0)) (d_Replicas d) false = Ok u ∧
    0 ≤ s ∧ 0 ≤ u < 2 ^ 30 ∧ 0 ≤ d_Replicas d ∧ d_Replicas d + s < 2 ^ 30.

(** At least one of the bounds leaves room when there is something to update. *)
Lemma fenceposts d :
  rolling_ok d →
  0 ≤ MaxSurge d ∧ d_Replicas d + MaxSurge d < 2 ^ 30 ∧ 0 ≤ MaxUnavailable d ≤ d_Replicas d ∧
  (0 < d_Replicas d → 0 < MaxSurge d + MaxUnavailable d) ∧
  ∃ surge unavailable, d_Strategy d = RollingUpdate (Some surge) unavailable ∧
    GetValueFromIntOrPercent surge (d_Replicas d) true = Ok (MaxSurge d).
Proof.
  intros (surge & un & s & u & Hst & Hs & Hu & Hs0 & Hu0 & Hr & Hb). w32.
  assert (ResolveFenceposts (Some surge) un (d_Replicas d) =
    Ok (s, if (s =? 0) && (u =? 0) then 1 else u)) as Hf.
  { unfold ResolveFenceposts. simpl. rewrite Hs, Hu. rewrite (wrap32_in s) by (w32; lia).
    do 2 f_equal. apply wrap32_in. w32. destruct ((s =? 0) && (u =? 0)); lia. }
  assert (MaxSurge d = s) as Es by (unfold MaxSurge; by rewrite Hst, Hf).
  assert (MaxUnavailable d = if d_Replicas d =? 0 then 0
    else Z.min (d_Replicas d) (if (s =? 0) && (u =? 0) then 1 else u)) as Eu.
  { unfold MaxUnavailable. rewrite Hst, Hf. destruct (d_Replicas d =? 0); [done|].
    destruct (Z.ltb_spec (d_Replicas d) (if (s =? 0) && (u =? 0) then 1 else u)); lia. }
  rewrite Es, Eu. destruct (Z.eqb_spec (d_Replicas d) 0), (Z.eqb_spec s 0), (Z.eqb_spec u 0); simpl;
    (split_and!; [lia..|exists surge, un; split; [done|congruence]]).
Qed.

(** ** Correctness *)

Lemma reconcileOld_spec refuse allRSs oldRSs newRS d :
  rolling_ok d → sane_list (oldRSs ++ [newRS]) →
  let '(b, old') := reconcileOldReplicaSets refuse allRSs oldRSs newRS d in
  (∃ k, k ≡ₚ oldRSs ∧ Forall2 scaled_to k old') ∧
  Z.min (sum AvailableReplicas (oldRSs ++ [newRS])) (d_Replicas d - MaxUnavailable d) ≤
    sum left_available old' + AvailableReplicas newRS.
Proof.
  intros Hd Hs. destruct (fenceposts d Hd) as (Hsg & Hmb & Hun & _). w32.
  destruct (sane_list_app _ _ Hs) as [[So Bo] [Sn _]]. pose proof (Sn newRS ltac:(left)) as [Hn1 Hn2].
  assert (Forall2 scaled_to oldRSs oldRSs) as Hrefl by (by apply scaled_refl).
  assert (sum AvailableReplicas oldRSs ≤ sum left_available oldRSs) as Hsame
    by (destruct (scaled_sums _ _ So Hrefl) as (_ & _ & ?); lia).
  rewrite sum_app. simpl. unfold reconcileOldReplicaSets.
  destruct (_ =? 0); [split; [by exists oldRSs|simpl; lia]|].
  destruct (Z.leb_spec (wrap32 (wrap32 (GetReplicaCountForReplicaSets allRSs -
    wrap32 (d_Replicas d - MaxUnavailable d)) - wrap32 (Replicas newRS - AvailableReplicas newRS))) 0);
    [split; [by exists oldRSs|simpl; lia]|].
  unfold cleanupUnhealthyReplicas.
  assert (∀ z, wrap32 z < 2 ^ 31) as Hw.
  { intros z. unfold wrap32. pose proof (Z.mod_pos_bound (z + 2 ^ 31) (2 ^ 32) ltac:(lia)). lia. }
  pose proof (cleanup_loop_spec refuse d (sort_rs oldRSs)
    (wrap32 (wrap32 (GetReplicaCountForReplicaSets allRSs - wrap32 (d_Replicas d - MaxUnavailable d)) -
       wrap32 (Replicas newRS - AvailableReplicas newRS))) 0) as Hc.
  destruct (cleanup_loop refuse (sort_rs oldRSs) d _ 0) as [[l' t'] err].
  assert (∀ rs, rs ∈ sort_rs oldRSs → sane rs) as Ssort by (intros rs; rewrite sort_rs_perm; apply So).
  destruct Hc as (C1 & C2 & C3 & C4 & C5 & C6); [done|by rewrite sort_rs_perm|lia|apply Hw|].
  destruct (scaled_sums _ _ Ssort C1) as (K1 & K2 & _). rewrite sort_rs_perm in K1, K2.
  assert (Forall2 scaled_to l' l') as Hrefl' by (by apply scaled_refl).
  destruct (scaled_sums _ _ C2 Hrefl') as (_ & _ & L3).
  destruct err as [e|]; [split; [exists (sort_rs oldRSs); split; [apply sort_rs_perm|done]|lia]|].
  unfold scaleDownOldReplicaSetsForRollingUpdate.
  destruct (sane_list_facts (l' ++ [newRS])) as (_ & _ & ->).
  { split; [intros rs [?|?]%elem_of_app; auto|]. rewrite sum_app in *. simpl in *. w32. destruct Hs as [_ Hs]. rewrite sum_app in Hs. simpl in Hs. lia. }
  rewrite sum_app, (wrap32_in (d_Replicas d - MaxUnavailable d)) by (w32; lia). simpl.
  destruct (Z.leb_spec (sum AvailableReplicas l' + (AvailableReplicas newRS + 0)) (d_Replicas d - MaxUnavailable d)).
  { split; [exists (sort_rs oldRSs); split; [apply sort_rs_perm|done]|lia]. }
  destruct Hs as [_ Hs]. rewrite sum_app in Hs. simpl in Hs. w32.
  assert (0 ≤ sum AvailableReplicas oldRSs ≤ sum Replicas oldRSs) as Hav by (by apply sane_list_facts).
  set (m := sum AvailableReplicas l' + (AvailableReplicas newRS + 0) - (d_Replicas d - MaxUnavailable d)) in *.
  rewrite (wrap32_in m) by (w32; lia).
  pose proof (scale_down_loop_spec refuse d (sort_rs l') m 0) as Hsd.
  destruct (scale_down_loop refuse (sort_rs l') d m 0) as [[l'' t''] err'].
  assert (∀ rs, rs ∈ sort_rs l' → sane rs) as Ssort' by (intros rs; rewrite sort_rs_perm; apply C2).
  destruct Hsd as (D1 & D2 & D3 & _); [done|rewrite sort_rs_perm; lia|lia|w32; lia|].
  destruct (scaled_sums _ _ Ssort' D1) as (M1 & M2 & M3). rewrite sort_rs_perm in M1, M2, M3, D2.
  assert (∃ k, k ≡ₚ oldRSs ∧ Forall2 scaled_to k l'') as Hk.
  { destruct (Permutation_Forall2 (P := flip scaled_to) (l1 := l') (l1' := sort_rs l') (l2 := sort_rs oldRSs))
      as (k & Hk1 & Hk2); [by rewrite sort_rs_perm|by apply Forall2_flip|].
    exists k. split; [by rewrite <- Hk1, sort_rs_perm|]. apply Forall2_flip in Hk2.
    clear - Hk2 D1. revert l'' D1. induction Hk2 as [|x y k l Hxy Hk2 IH]; intros l'' D1; inversion D1; subst; constructor.
    - destruct Hxy as (?&?&?&?), H1 as (?&?&?&?). unfold scaled_to. split_and!; (congruence || lia).
    - by apply IH. }
  assert (Z.min (sum AvailableReplicas oldRSs + (AvailableReplicas newRS + 0)) (d_Replicas d - MaxUnavailable d) ≤
    sum left_available l'' + AvailableReplicas newRS) by lia.
  destruct err'; done.
Qed.

Lemma reconcileNew_spec refuse old new d :
  rolling_ok d → sane_list (old ++ [new]) →
  match reconcileNewReplicaSet refuse (old ++ [new]) new d with
  | Err _ => refuse (Name new) = true
  | Ok (scaled, new') =>
      AvailableReplicas new' = AvailableReplicas new ∧
      if scaled then
        d_Replicas d < Replicas new ∧ Replicas new' = d_Replicas d ∨
        Replicas new < Replicas new' ≤ d_Replicas d ∧
          sum Replicas old + Replicas new' ≤ d_Replicas d + MaxSurge d
      else new' = new ∧ (Replicas new = d_Replicas d ∨
        Replicas new < d_Replicas d ∧ d_Replicas d + MaxSurge d ≤ sum Replicas old + Replicas new)
  end.
Proof.
  intros Hd Hs. destruct (fenceposts d Hd) as (Hsg & Hmb & _ & _ & surge & un & Hst & Hv). w32.
  pose proof (sane_list_facts _ Hs) as (_ & Hcount & _). destruct (sane_list_app _ _ Hs) as [[So Bo] [Sn Bn]].
  pose proof (Sn new ltac:(left)) as [Hn1 Hn2]. rewrite sum_app in Hcount. simpl in Hcount, Bn.
  destruct Hs as [_ Hs]. rewrite sum_app in Hs. simpl in Hs. w32.
  assert (0 ≤ sum Replicas old) by (apply sum_nonneg; intros x Hx; destruct (So x Hx); lia).
  unfold reconcileNewReplicaSet. destruct (Z.eqb_spec (Replicas new) (d_Replicas d)) as [E|E]; [auto|].
  destruct (Z.ltb_spec (d_Replicas d) (Replicas new)).
  { pose proof (record_event_spec refuse new (d_Replicas d) d) as Hev.
    destruct (scaleReplicaSetAndRecordEvent refuse new (d_Replicas d) d) as [[sc new']|]; [|tauto].
    destruct Hev as (_ & _ & Ha & Hr & -> & _). split; [done|].
    destruct (Z.eqb_spec (Replicas new) (d_Replicas d)); [lia|]. simpl. left. lia. }
  unfold NewRSNewReplicas. rewrite Hst, Hv, Hcount, (wrap32_in (MaxSurge d)), (wrap32_in (d_Replicas d + MaxSurge d))
    by (w32; lia).
  set (n := if d_Replicas d + MaxSurge d <=? sum Replicas old + (Replicas new + 0) then _ else _).
  assert (∃ k, n = Ok k ∧ (k = Replicas new ∧ d_Replicas d + MaxSurge d ≤ sum Replicas old + Replicas new ∨
    Replicas new < k ≤ d_Replicas d ∧ sum Replicas old + k ≤ d_Replicas d + MaxSurge d)) as (k & -> & Hk).
  { subst n. destruct (Z.leb_spec (d_Replicas d + MaxSurge d) (sum Replicas old + (Replicas new + 0))).
    - eexists. split; [done|]. left. lia.
    - eexists. split; [done|]. right. rewrite (wrap32_in (_ - (_ + _))), (wrap32_in (d_Replicas d - Replicas new)) by (w32; lia).
      rewrite wrap32_in by (w32; lia). lia. }
  pose proof (record_event_spec refuse new k d) as Hev.
  destruct (scaleReplicaSetAndRecordEvent refuse new k d) as [[sc new']|]; [|tauto].
  destruct Hev as (_ & _ & Ha & Hr & -> & Hsame). split; [done|].
  destruct (Z.eqb_spec (Replicas new) k) as [Ek|Ek]; simpl; [split; [auto|lia]|lia].
Qed.

Lemma active_perm l :
  List.filter (λ rs, negb (0 <? Replicas rs)) l ++ FilterActiveReplicaSets l ≡ₚ l.
Proof.
  induction l as [|rs l IH]; simpl; [done|]. destruct (0 <? Replicas rs); simpl; [|by rewrite IH].
  by rewrite <- Permutation_middle, IH.
Qed.

Lemma inactive_sums l :
  (∀ rs, rs ∈ l → sane rs) →
  let k := List.filter (λ rs, negb (0 <? Replicas rs)) l in
  sum Replicas k = 0 ∧ sum AvailableReplicas k = 0 ∧ sum left_available k = 0.
Proof.
  induction l as [|rs l IH]; intros Hl; simpl; [done|].
  destruct IH as (I1 & I2 & I3); [intros; apply Hl; by right|]. destruct (Hl rs); [left|].
  destruct (Z.ltb_spec 0 (Replicas rs)); simpl; [done|]. unfold left_available at 1. lia.
Qed.

(** The split into replica sets with and without replicas. *)
Lemma active_facts old new :
  sane_list (old ++ [new]) →
  let inactive := List.filter (λ rs, negb (0 <? Replicas rs)) old in
  let active := FilterActiveReplicaSets old in
  sane_list (active ++ [new]) ∧ (∀ rs, rs ∈ inactive → sane rs) ∧
  sum Replicas active = sum Replicas old ∧ sum AvailableReplicas active = sum AvailableReplicas old ∧
  sum Replicas inactive = 0 ∧ sum left_available inactive = 0.
Proof.
  intros Hs inactive active. pose proof (active_perm old) as Hp. fold inactive active in Hp.
  destruct (sane_list_app _ _ Hs) as [[So _] _]. destruct (inactive_sums old So) as (I1 & I2 & I3). fold inactive in I1, I2, I3.
  assert (sane_list (inactive ++ (active ++ [new]))) as Hs' by (eapply sane_list_perm; [|exact Hs]; by rewrite app_assoc, Hp).
  destruct (sane_list_app _ _ Hs') as [[Si _] Ha].
  pose proof (f_equal (λ x, x) (sum_app Replicas inactive active)) as E1.
  pose proof (f_equal (λ x, x) (sum_app AvailableReplicas inactive active)) as E2.
  rewrite Hp in E1, E2. split_and!; (done || lia).
Qed.

Lemma rolloutRolling_bounds_aux (refuse : string → bool) (old : list ReplicaSet) (new : ReplicaSet) (d : Deployment) :
  rolling_ok d → sane_list (old ++ [new]) →
  match rolloutRolling refuse old new d with
  | Err _ => refuse (Name new) = true
  | Ok (old', new') =>
      sum Replicas old' + Replicas new' ≤
        Z.max (sum Replicas (old ++ [new])) (d_Replicas d + MaxSurge d) ∧
      Z.min (sum AvailableReplicas (old ++ [new])) (d_Replicas d - MaxUnavailable d) ≤
        sum left_available old' + left_available new' ∧
      (Replicas new ≤ Replicas new' ≤ d_Replicas d ∨ Replicas new' = d_Replicas d) ∧
      ∃ k, k ≡ₚ old ∧ Forall2 scaled_to k old'
  end.
Proof.
  intros Hd Hs. destruct (fenceposts d Hd) as (Hsg & Hmb & Hun & _).
  pose proof (reconcileNew_spec refuse old new d Hd Hs) as Hn. unfold rolloutRolling.
  destruct (sane_list_app _ _ Hs) as [[So _] [Sn _]]. pose proof (Sn new ltac:(left)) as [Hn1 Hn2].
  destruct (scaled_sums old old So ltac:(by apply scaled_refl)) as (_ & _ & Hl).
  assert (0 ≤ sum AvailableReplicas old) by (apply sum_nonneg; intros x Hx; destruct (So x Hx); lia).
  destruct (reconcileNewReplicaSet refuse (old ++ [new]) new d) as [[[] new']|]; [| |done].
  { destruct Hn as [Ha Hn]. rewrite !sum_app. simpl. unfold left_available at 2. split_and!; [lia|lia|lia|].
    exists old. split; [done|]. by apply scaled_refl. }
  destruct Hn as (_ & -> & Hn). destruct (active_facts old new Hs) as (Hs' & Si & F1 & F2 & F3 & F4).
  pose proof (reconcileOld_spec refuse (old ++ [new]) _ new d Hd Hs') as Ho.
  destruct (reconcileOldReplicaSets refuse (old ++ [new]) (FilterActiveReplicaSets old) new d) as [b old'].
  destruct Ho as [(k & Hk & Hk2) Ho]. rewrite !sum_app in *. simpl in *.
  assert (∀ rs, rs ∈ k → sane rs) as Sk.
  { intros rs. rewrite Hk. intros Hrs. destruct Hs' as [Hs' _]. apply Hs', elem_of_app. by left. }
  destruct (scaled_sums k old' Sk Hk2) as (_ & K2 & _). rewrite Hk in K2. unfold left_available at 3.
  split_and!; [lia|lia|lia|].
  exists (List.filter (λ rs, negb (0 <? Replicas rs)) old ++ k). split; [by rewrite Hk, active_perm|].
  apply Forall2_app; [by apply scaled_refl|done].
Qed.

(** C18: a round of a rolling update keeps both bounds, whatever updates are refused, when
    no replica set reports more available replicas than its size (a status that lags behind
    a scale-down can, see [stale_status_overscales]), the strategy resolves to bounds that are
    not negative, and the sums of sizes are below 2^30. The sizes add up to at most what they did or the desired number with the surge,
    whichever is more; the replicas that are available once replica sets have deleted
    their unavailable replicas first are at least as many as before or the desired
    number without the allowed unavailability, whichever is less; the new replica set
    moves towards the desired number and never past it, and no old one grows. *)
Theorem rolloutRolling_bounds (refuse : string → bool) (old : list ReplicaSet) (new : ReplicaSet) (d : Deployment) :
  rolling_ok d → sane_list (old ++ [new]) →
  match rolloutRolling refuse old new d with
  | Err _ => refuse (Name new) = true
  | Ok (old', new') =>
      sum Replicas old' + Replicas new' ≤
        Z.max (sum Replicas (old ++ [new])) (d_Replicas d + MaxSurge d) ∧
      Z.min (sum AvailableReplicas (old ++ [new])) (d_Replicas d - MaxUnavailable d) ≤
        sum left_available old' + left_available new' ∧
      (Replicas new ≤ Replicas new' ≤ d_Replicas d ∨ Replicas new' = d_Replicas d) ∧
      ∃ k, k ≡ₚ old ∧ Forall2 scaled_to k old'
  end.
Proof. apply rolloutRolling_bounds_aux. Qed.

(** ** Progress *)

(** A round after which every replica becomes available. *)
Definition healthy (rs : ReplicaSet) : ReplicaSet :=
  mkReplicaSet (UID rs) (Name rs) (CreationTimestamp rs) (Replicas rs) (Replicas rs) (Replicas rs) (Annotations rs).

Definition round (d : Deployment) (s : list ReplicaSet * ReplicaSet) : list ReplicaSet * ReplicaSet :=
  match rolloutRolling (λ _, false) s.1 s.2 d with
  | Ok (old, new) => (map healthy old, healthy new)
  | Err _ => s
  end.

Definition complete (d : Deployment) (s : list ReplicaSet * ReplicaSet) : Prop :=
  sum Replicas s.1 = 0 ∧ Replicas s.2 = d_Replicas d.

(** What is left to do. *)
Definition distance (d : Deployment) (s : list ReplicaSet * ReplicaSet) : Z :=
  sum Replicas s.1 + Z.abs (d_Replicas d - Replicas s.2).

Definition all_healthy (s : list ReplicaSet * ReplicaSet) : Prop :=
  ∀ rs, rs ∈ s.1 ++ [s.2] → AvailableReplicas rs = Replicas rs.

Lemma sum_healthy l : sum Replicas (map healthy l) = sum Replicas l.
Proof. induction l as [|rs l IH]; simpl; [done|]. lia. Qed.

Lemma healthy_sum l :
  (∀ rs, rs ∈ l → AvailableReplicas rs = Replicas rs) → sum AvailableReplicas l = sum Replicas l.
Proof.
  induction l as [|rs l IH]; intros Hl; simpl; [done|].
  rewrite (Hl rs ltac:(left)), IH; [done|intros; apply Hl; by right].
Qed.

(** With nothing unavailable and nothing refused, the old replica sets give up what
    the bound allows. *)
Lemma reconcileOld_progress allRSs old new d :
  rolling_ok d → sane_list (old ++ [new]) → all_healthy (old, new) →
  GetReplicaCountForReplicaSets allRSs = sum Replicas (old ++ [new]) →
  0 < sum Replicas old + Replicas new - (d_Replicas d - MaxUnavailable d) →
  sum Replicas (reconcileOldReplicaSets (λ _, false) allRSs old new d).2 =
    sum Replicas old -
      Z.min (sum Replicas old) (sum Replicas old + Replicas new - (d_Replicas d - MaxUnavailable d)).
Proof.
  intros Hd Hs Hh Hall Hpos. destruct (fenceposts d Hd) as (Hsg & Hmb & Hun & _). w32.
  destruct (sane_list_app _ _ Hs) as [So' [Sn _]]. pose proof So' as [So Bo].
  pose proof (Sn new ltac:(left)) as [Hn1 Hn2].
  assert (AvailableReplicas new = Replicas new) as Hnew by (apply Hh, elem_of_app; right; left).
  pose proof Hs as [_ Hb]. rewrite sum_app in Hb, Hall. simpl in Hb, Hall. w32.
  destruct (sane_list_facts old So') as (Hold & Hc & _).
  unfold reconcileOldReplicaSets. rewrite Hc, Hall.
  destruct (Z.eqb_spec (sum Replicas old) 0); [simpl; lia|].
  rewrite Hnew, (wrap32_in (d_Replicas d - MaxUnavailable d)), (wrap32_in (Replicas new - Replicas new)) by (w32; lia).
  rewrite (wrap32_in (sum Replicas old + (Replicas new + 0) - _)) by (w32; lia).
  rewrite wrap32_in by (w32; lia).
  set (m := sum Replicas old + (Replicas new + 0) - (d_Replicas d - MaxUnavailable d) - (Replicas new - Replicas new)).
  destruct (Z.leb_spec m 0); [lia|]. unfold cleanupUnhealthyReplicas.
  assert (∀ rs, rs ∈ sort_rs old → sane rs) as Ss by (intros rs; rewrite sort_rs_perm; apply So).
  pose proof (cleanup_loop_spec (λ _, false) d (sort_rs old) m 0) as Hcl.
  destruct (cleanup_loop (λ _, false) (sort_rs old) d m 0) as [[l' t'] err].
  destruct Hcl as (_ & _ & _ & C4 & C5 & C6); [done|by rewrite sort_rs_perm|lia|w32; lia|].
  rewrite (C5 ltac:(done)). assert (l' = sort_rs old) as ->.
  { apply C6. intros rs. rewrite sort_rs_perm. intros Hrs. symmetry. apply Hh, elem_of_app. by left. }
  clear C5 C6. unfold scaleDownOldReplicaSetsForRollingUpdate.
  destruct (sane_list_facts (sort_rs old ++ [new])) as (_ & _ & ->).
  { eapply sane_list_perm; [|exact Hs]. by rewrite sort_rs_perm. }
  assert (sum AvailableReplicas (sort_rs old) = sum Replicas old) as Eh.
  { rewrite sort_rs_perm. apply healthy_sum. intros rs Hrs. apply Hh, elem_of_app. by left. }
  rewrite sum_app, (wrap32_in (d_Replicas d - MaxUnavailable d)), Eh by (w32; lia). simpl. rewrite Hnew.
  destruct (Z.leb_spec (sum Replicas old + (Replicas new + 0)) (d_Replicas d - MaxUnavailable d)); [lia|].
  rewrite (wrap32_in (sum Replicas old + (Replicas new + 0) - (d_Replicas d - MaxUnavailable d))) by (w32; lia).
  set (m' := sum Replicas old + (Replicas new + 0) - (d_Replicas d - MaxUnavailable d)).
  pose proof (scale_down_loop_spec (λ _, false) d (sort_rs (sort_rs old)) m' 0) as Hsd.
  destruct (scale_down_loop (λ _, false) (sort_rs (sort_rs old)) d m' 0) as [[l'' t''] err'].
  destruct Hsd as (_ & D2 & _ & D4); [intros rs; rewrite !sort_rs_perm; apply So|by rewrite !sort_rs_perm|lia|w32; lia|].
  destruct (D4 ltac:(done)) as [-> D5]. clear D4. rewrite !sort_rs_perm in D2, D5. simpl. lia.
Qed.

Lemma round_step d s :
  rolling_ok d → sane_list (s.1 ++ [s.2]) → all_healthy s →
  sane_list ((round d s).1 ++ [(round d s).2]) ∧ all_healthy (round d s) ∧
  (complete d s → complete d (round d s)) ∧
  (complete d s ∨ distance d (round d s) < distance d s).
Proof.
  intros Hd Hs Hh. destruct s as [old new]. simpl in *. pose proof (fenceposts d Hd) as (Hsg & Hmb & Hun & Hroom & _).
  pose proof (rolloutRolling_bounds_aux (λ _, false) old new d Hd Hs) as Hbound.
  pose proof (reconcileNew_spec (λ _, false) old new d Hd Hs) as Hn.
  unfold round. simpl. unfold rolloutRolling in *.
  destruct (sane_list_app _ _ Hs) as [[So _] [Sn _]]. pose proof (Sn new ltac:(left)) as [Hn1 Hn2].
  assert (0 ≤ sum Replicas old) as Hold0 by (apply sum_nonneg; intros x Hx; destruct (So x Hx); lia).
  assert (∀ old' new', sum Replicas old' + Replicas new' < 2 ^ 30 → 0 ≤ Replicas new' →
    (∀ rs, rs ∈ old' → 0 ≤ Replicas rs) →
    sane_list (map healthy old' ++ [healthy new']) ∧ all_healthy (map healthy old', healthy new')) as Hmk.
  { intros old' new' Hb Hn' Ho'. assert (∀ rs, rs ∈ map healthy old' ++ [healthy new'] →
      sane rs ∧ AvailableReplicas rs = Replicas rs) as Hall.
    { intros rs [Hrs|Hrs]%elem_of_app.
      - apply list_elem_of_fmap in Hrs as (x & -> & Hx). specialize (Ho' x Hx). unfold sane. simpl. lia.
      - apply list_elem_of_singleton in Hrs as ->. unfold sane. simpl. lia. }
    split; [split; [intros rs Hrs; by apply Hall|]|intros rs Hrs; by apply Hall].
    rewrite sum_app, sum_healthy. simpl. lia. }
  destruct Hs as [Hs1 Hs2]. pose proof (conj Hs1 Hs2 : sane_list (old ++ [new])) as Hs. rewrite sum_app in Hs2. simpl in Hs2.
  assert (∀ k old', k ≡ₚ old → Forall2 scaled_to k old' → ∀ rs, rs ∈ old' → 0 ≤ Replicas rs) as Hk.
  { intros k old' _ H2 rs Hrs. apply list_elem_of_lookup in Hrs as [i Hi].
    destruct (Forall2_lookup_r _ _ _ _ _ H2 Hi) as (x & _ & _ & _ & _ & ? & _). done. }
  destruct (reconcileNewReplicaSet (λ _, false) (old ++ [new]) new d) as [[[] new']|]; [| |done].
  - destruct Hbound as (B1 & _ & B3 & k & Hk1 & Hk2). destruct Hn as [_ Hn]. rewrite sum_app in B1. simpl in B1.
    destruct (Hmk old new' ltac:(w32; lia) ltac:(lia) ltac:(by apply (Hk k))) as [M1 M2].
    unfold complete, distance. simpl. rewrite sum_healthy. split_and!; [done|done|lia|right; lia].
  - destruct Hn as (_ & -> & Hn). destruct (active_facts old new Hs) as (Hs' & Si & F1 & F2 & F3 & F4).
    assert (all_healthy (FilterActiveReplicaSets old, new)) as Hh'.
    { intros rs Hrs. apply Hh. rewrite <- (active_perm old). simpl in *. rewrite <- app_assoc, elem_of_app. by right. }
    pose proof (reconcileOld_progress (old ++ [new]) _ new d Hd Hs' Hh') as Hp.
    destruct (sane_list_facts _ Hs) as (_ & Hc & _). rewrite Hc, !sum_app, F1 in Hp. simpl in Hp.
    destruct (reconcileOldReplicaSets (λ _, false) (old ++ [new]) (FilterActiveReplicaSets old) new d) as [b old'].
    simpl in Hp. destruct Hbound as (B1 & _ & B3 & k & Hk1 & Hk2). rewrite !sum_app in B1. simpl in B1.
    destruct (Hmk (List.filter (λ rs, negb (0 <? Replicas rs)) old ++ old') new) as [M1 M2];
      [rewrite sum_app; w32; lia|lia|by apply (Hk k)|].
    unfold complete, distance. simpl. rewrite sum_healthy, sum_app, F3.
    assert (0 ≤ sum Replicas old' ≤ sum Replicas old) as Ho'.
    { assert (∀ rs, rs ∈ k → sane rs) as Sk by (intros rs; rewrite Hk1; apply So).
      destruct (scaled_sums _ _ Sk Hk2) as (_ & K & _). rewrite Hk1, sum_app, F3 in K. lia. }
    split_and!; [done|done|lia|].
    + destruct (Z.eq_dec (sum Replicas old) 0) as [E0|E0]; destruct Hn as [Hn|Hn]; [left; lia|lia|right|right];
        (assert (0 < d_Replicas d ∨ d_Replicas d = 0) by lia); rewrite Hp by lia; lia.
Qed.

(** A rolling update completes. When nothing is refused and the replicas of each
    round become available before the next, as many rounds as there are replicas to
    move end with the new replica set at the desired size and every old one empty, from
    any sizes within the counters, and further rounds leave it that way. *)
Theorem rollout_completes (d : Deployment) (s : list ReplicaSet * ReplicaSet) (n : nat) :
  rolling_ok d → sane_list (s.1 ++ [s.2]) → all_healthy s → distance d s ≤ Z.of_nat n →
  complete d (Nat.iter n (round d) s).
Proof.
  intros Hd Hs Hh Hn.
  assert (∀ m, sane_list ((Nat.iter m (round d) s).1 ++ [(Nat.iter m (round d) s).2]) ∧
    all_healthy (Nat.iter m (round d) s) ∧
    (complete d (Nat.iter m (round d) s) ∨ distance d (Nat.iter m (round d) s) ≤ distance d s - Z.of_nat m)) as Hm.
  { induction m as [|m (I1 & I2 & I3)]; [simpl; split_and!; [done|done|right; lia]|].
    rewrite Nat.iter_succ. destruct (round_step d _ Hd I1 I2) as (R1 & R2 & R3 & R4).
    split_and!; [done|done|]. destruct I3 as [I3|I3]; [left; auto|]. destruct R4; [left; auto|right; lia]. }
  destruct (Hm n) as (M1 & _ & [M|M]); [done|]. destruct (Nat.iter n (round d) s) as [old new]. clear Hm.
  unfold complete, distance in *. simpl in *. destruct (sane_list_app _ _ M1) as [So _].
  destruct (sane_list_facts old So) as (? & _). lia.
Qed.

Definition ex_rs (name : string) (created replicas available : Z) : ReplicaSet :=
  mkReplicaSet name name created replicas replicas available ∅.

(** Ten replicas, three to surge and two unavailable, as in the comments of the code. *)
Definition ex_deployment : Deployment :=
  mkDeployment 10 (RollingUpdate (Some (StrVal "25%")) (Some (IntVal 2))) 10.

Lemma ex_rolling_ok : rolling_ok ex_deployment.
Proof.
  exists (StrVal "25%"), (Some (IntVal 2)), 3, 2.
  split_and!; vm_compute; (reflexivity || congruence || (split; congruence)).
Qed.

(** A status that lags behind: five replicas are wanted, with one to surge and one unavailable;
    the new replica set was scaled to three and still reports six available replicas. The
    old one, whose three replicas are available, is scaled down to none, so that at most three
    replicas are left, one less than the bound. *)
Example stale_status_overscales :
  let d := mkDeployment 5 (RollingUpdate (Some (IntVal 1)) (Some (IntVal 1))) 5 in
  match rolloutRolling (λ _, false) [ex_rs "old" 1 3 3] (ex_rs "new" 2 3 6) d with
  | Ok (old, new) => Replicas <$> old = [0] ∧ Replicas new = 3 ∧ d_Replicas d - MaxUnavailable d = 4
  | Err _ => False
  end.
Proof. by vm_compute. Qed.

Lemma sane_list_check l :
  forallb (λ rs, (0 <=? AvailableReplicas rs) && (AvailableReplicas rs <=? Replicas rs)) l &&
    (sum Replicas l <? 2 ^ 30) = true → sane_list l.
Proof.
  intros [Hl Hb]%andb_prop. split; [|lia]. intros rs Hrs. rewrite forallb_forall in Hl.
  specialize (Hl rs ltac:(by apply list_elem_of_In)). unfold sane. lia.
Qed.

Lemma rolloutRolling_bounds_witness :
  rolloutRolling (λ _, false) [ex_rs "old" 1 8 7] (ex_rs "new" 2 5 0) ex_deployment =
    Ok ([ex_rs "old" 1 8 7], ex_rs "new" 2 5 0) ∧
  sum Replicas [ex_rs "old" 1 8 7] + Replicas (ex_rs "new" 2 5 0) ≤ Z.max 13 13.
Proof.
  split; [vm_compute; reflexivity|].
  exact (proj1 (rolloutRolling_bounds (λ _, false) [ex_rs "old" 1 8 7] (ex_rs "new" 2 5 0) ex_deployment
    ex_rolling_ok (sane_list_check [ex_rs "old" 1 8 7; ex_rs "new" 2 5 0] eq_refl))).
Defined.

Lemma rollout_completes_witness :
  complete ex_deployment (Nat.iter 20 (round ex_deployment) ([ex_rs "old" 1 10 10], ex_rs "new" 2 0 0)).
Proof.
  apply rollout_completes.
  - apply ex_rolling_ok.
  - apply sane_list_check. vm_compute. reflexivity.
  - intros rs Hrs. simpl in Hrs.
    apply elem_of_cons in Hrs as [->|[->|[]%not_elem_of_nil]%elem_of_cons]; reflexivity.
  - vm_compute. congruence.
Defined.
