(* ===== verification/DeploymentScaling.v ===== *)
(** * Scaling and recreating deployments

    The rest of the replica arithmetic of the deployment controller: the proportional
    scaling of [sync.go] with the fractions of [util/deployment_util.go], the
    recreate strategy of [recreate.go], and the revisions. *)

From S2P Require Import Prelude GoStrings GoStrconv GoInt DeploymentRolling.

(** ** Fractions *)

Definition getIntFromAnnotation (rs : ReplicaSet) (key : string) : option Z :=
  match Annotations rs !! key with
  | None => None
  | Some s => match Atoi s with Ok i => Some (wrap32 i) | Err _ => None end
  end.

Definition GetDesiredReplicasAnnotation (rs : ReplicaSet) : option Z :=
  getIntFromAnnotation rs DesiredReplicasAnnotation.

Definition getMaxReplicasAnnotation (rs : ReplicaSet) : option Z :=
  getIntFromAnnotation rs MaxReplicasAnnotation.

Definition IsSaturated (d : Deployment) (rs : option ReplicaSet) : bool :=
  match rs with
  | None => false
  | Some rs =>
      match Atoi (default "" (Annotations rs !! DesiredReplicasAnnotation)) with
      | Err _ => false
      | Ok desired =>
          (Replicas rs =? d_Replicas d) && (wrap32 desired =? d_Replicas d) &&
          (AvailableReplicas rs =? d_Replicas d)
      end
  end.

(** [integer.RoundToInt32] of a quotient, for a positive divisor: half away from zero. *)
Definition round_quotient (a b : Z) : Z :=
  if a <? 0 then - ((- (2 * a) + b) / (2 * b)) else (2 * a + b) / (2 * b).

Section scaling.
(** What converting a quotient gives that is not finite or does not fit: Go leaves it
    to the platform. *)
Context (out_of_range : Z → Z → Z).
(** Whether the client refuses the update of a replica set. *)
Context (refuse : string → bool).

Definition RoundToInt32 (num den : Z) : Z :=
  let q := round_quotient (if den <? 0 then - num else num) (Z.abs den) in
  if (den =? 0) || negb (wrap32 q =? q) then out_of_range num den else q.

(** The product is one of [int32]; the division is not. *)
Definition getReplicaSetFraction (rs : ReplicaSet) (d : Deployment) : Z :=
  if d_Replicas d =? 0 then wrap32 (- Replicas rs)
  else
    let deploymentReplicas := wrap32 (d_Replicas d + MaxSurge d) in
    let annotatedReplicas := default (d_StatusReplicas d) (getMaxReplicasAnnotation rs) in
    wrap32 (RoundToInt32 (wrap32 (Replicas rs * deploymentReplicas)) annotatedReplicas - Replicas rs).

Definition GetProportion (rs : ReplicaSet) (d : Deployment) (toAdd added : Z) : Z :=
  if (Replicas rs =? 0) || (toAdd =? 0) || (toAdd =? added) then 0
  else
    let rsFraction := getReplicaSetFraction rs d in
    let allowed := wrap32 (toAdd - added) in
    if 0 <? toAdd then Z.min rsFraction allowed else Z.max rsFraction allowed.

(** ** Scaling *)

(** [ReplicaSetsBySizeOlder] and [ReplicaSetsBySizeNewer]. *)
Definition by_size_older (a b : ReplicaSet) : bool :=
  if Replicas a =? Replicas b then older a b else Replicas b <? Replicas a.

Definition by_size_newer (a b : ReplicaSet) : bool :=
  if Replicas a =? Replicas b then older b a else Replicas b <? Replicas a.

(** [append(oldRSs, newRS)] without the nil pointers, which every reader of it skips. *)
Definition with_new (oldRSs : list ReplicaSet) (newRS : option ReplicaSet) : list ReplicaSet :=
  oldRSs ++ option_list newRS.

Definition FindActiveOrLatest (newRS : option ReplicaSet) (oldRSs : list ReplicaSet) : option ReplicaSet :=
  let sorted := sort_by (λ a b, older b a) oldRSs in
  match FilterActiveReplicaSets (with_new sorted newRS) with
  | [] => match newRS with Some rs => Some rs | None => head sorted end
  | [rs] => Some rs
  | _ => None
  end.

(** The loop that fills [nameToSize], with the number of replicas added. *)
Fixpoint proportions (l : list ReplicaSet) (d : Deployment) (toAdd added : Z) (nameToSize : gmap string Z) :
    gmap string Z * Z :=
  match l with
  | [] => (nameToSize, added)
  | rs :: l =>
      if toAdd =? 0 then proportions l d toAdd added (<[Name rs := Replicas rs]> nameToSize)
      else
        let proportion := GetProportion rs d toAdd added in
        proportions l d toAdd (wrap32 (added + proportion))
          (<[Name rs := wrap32 (Replicas rs + proportion)]> nameToSize)
  end.

(** The first replica set gets what is left over. *)
Definition add_leftover (rs : ReplicaSet) (toAdd added : Z) (nameToSize : gmap string Z) : gmap string Z :=
  if toAdd =? 0 then nameToSize
  else
    let size := wrap32 (default 0 (nameToSize !! Name rs) + wrap32 (toAdd - added)) in
    <[Name rs := if size <? 0 then 0 else size]> nameToSize.

(** The loop of updates: the replica sets as they are afterwards and the error it
    stopped at. *)
Fixpoint update_sizes (l : list ReplicaSet) (d : Deployment) (nameToSize : gmap string Z) :
    list ReplicaSet * option DeployError :=
  match l with
  | [] => ([], None)
  | rs :: rest =>
      match scaleReplicaSet refuse rs (default 0 (nameToSize !! Name rs)) d with
      | Err e => (l, Some e)
      | Ok (_, rs) => let '(rest, err) := update_sizes rest d nameToSize in (rs :: rest, err)
      end
  end.

Definition allowed_size (d : Deployment) : Z :=
  if 0 <? d_Replicas d then wrap32 (d_Replicas d + MaxSurge d) else 0.

(** The last branch of [scale]. *)
Definition scale_proportionally (allRSs : list ReplicaSet) (d : Deployment) :
    list ReplicaSet * option DeployError :=
  let toAdd := wrap32 (allowed_size d - GetReplicaCountForReplicaSets allRSs) in
  let sorted :=
    if 0 <? toAdd then sort_by by_size_newer allRSs
    else if toAdd <? 0 then sort_by by_size_older allRSs
    else allRSs in
  let '(nameToSize, added) := proportions sorted d toAdd 0 ∅ in
  match sorted with
  | [] => ([], None)
  | rs :: _ => update_sizes sorted d (add_leftover rs toAdd added nameToSize)
  end.

(** The loop for a saturated new replica set. *)
Fixpoint scale_to_zero (l : list ReplicaSet) (d : Deployment) : list ReplicaSet * option DeployError :=
  match l with
  | [] => ([], None)
  | rs :: rest =>
      match scaleReplicaSetAndRecordEvent refuse rs 0 d with
      | Err e => (l, Some e)
      | Ok (_, rs) => let '(rest, err) := scale_to_zero rest d in (rs :: rest, err)
      end
  end.

(** [scale]: the replica sets it looks at as they are afterwards, and the error.
    Looking for the active one leaves the old ones sorted, newest first. *)
Definition scale (d : Deployment) (newRS : option ReplicaSet) (oldRSs : list ReplicaSet) :
    list ReplicaSet * option DeployError :=
  match FindActiveOrLatest newRS oldRSs with
  | Some activeOrLatest =>
      if Replicas activeOrLatest =? d_Replicas d then ([activeOrLatest], None)
      else
        match scaleReplicaSetAndRecordEvent refuse activeOrLatest (d_Replicas d) d with
        | Err e => ([activeOrLatest], Some e)
        | Ok (_, rs) => ([rs], None)
        end
  | None =>
      let oldRSs := sort_by (λ a b, older b a) oldRSs in
      if IsSaturated d newRS then scale_to_zero (FilterActiveReplicaSets oldRSs) d
      else if IsRollingUpdate d then
        scale_proportionally (FilterActiveReplicaSets (with_new oldRSs newRS)) d
      else ([], None)
  end.

(** ** Recreate *)

(** [scaleDownOldReplicaSetsForRecreate]: whether something was scaled, the replica
    sets as they are afterwards, and the error it stopped at. *)
Fixpoint scaleDownOldReplicaSetsForRecreate (oldRSs : list ReplicaSet) (d : Deployment) :
    bool * list ReplicaSet * option DeployError :=
  match oldRSs with
  | [] => (false, [], None)
  | rs :: rest =>
      if Replicas rs =? 0 then
        let '(scaled, rest, err) := scaleDownOldReplicaSetsForRecreate rest d in (scaled, rs :: rest, err)
      else
        match scaleReplicaSetAndRecordEvent refuse rs 0 d with
        | Err e => (false, oldRSs, Some e)
        | Ok (scaledRS, updatedRS) =>
            let '(scaled, rest, err) := scaleDownOldReplicaSetsForRecreate rest d in
            (match err with None => scaledRS || scaled | Some _ => false end,
             (if scaledRS then updatedRS else rs) :: rest, err)
        end
  end.

Definition GetActualReplicaCountForReplicaSets (l : list ReplicaSet) : Z :=
  fold_left (λ total rs, wrap32 (total + StatusReplicas rs)) l 0.

Inductive PodPhase : Type :=
  | PodPending | PodRunning | PodSucceeded | PodFailed | PodUnknown.

(** [podMap] maps the UID of a replica set to the phases of its pods. *)
Definition pod_running (p : PodPhase) : bool :=
  match p with PodFailed | PodSucceeded => false | _ => true end.

Definition oldPodsRunning (newRS : option ReplicaSet) (oldRSs : list ReplicaSet)
    (podMap : list (string * list PodPhase)) : bool :=
  (0 <? GetActualReplicaCountForReplicaSets oldRSs) ||
  existsb (λ '(rsUID, podList),
    match newRS with
    | Some rs => if bool_decide (UID rs = rsUID) then false else existsb pod_running podList
    | None => existsb pod_running podList
    end) podMap.

(** The scaling of [rolloutRecreate]; [created] is what creating the new replica set
    gives. The result is the old replica sets with a size, the new one, and the error. *)
Definition rolloutRecreate (created : result DeployError ReplicaSet) (newRS : option ReplicaSet)
    (oldRSs : list ReplicaSet) (podMap : list (string * list PodPhase)) (d : Deployment) :
    list ReplicaSet * option ReplicaSet * option DeployError :=
  let '(scaledDown, active, err) := scaleDownOldReplicaSetsForRecreate (FilterActiveReplicaSets oldRSs) d in
  match err with
  | Some e => (active, newRS, Some e)
  | None =>
      if scaledDown then (active, newRS, None)
      else if oldPodsRunning newRS oldRSs podMap then (active, newRS, None)
      else
        match match newRS with Some rs => Ok rs | None => created end with
        | Err e => (active, newRS, Some e)
        | Ok rs =>
            match scaleReplicaSetAndRecordEvent refuse rs (d_Replicas d) d with
            | Err e => (active, Some rs, Some e)
            | Ok (_, rs) => (active, Some rs, None)
            end
        end
  end.
End scaling.

(** ** Revisions *)

Definition RevisionAnnotation : string := "deployment.kubernetes.io/revision".

Definition Revision (rs : ReplicaSet) : result NumError Z :=
  match Annotations rs !! RevisionAnnotation with
  | None => Ok 0
  | Some v => Atoi v
  end.

Definition MaxRevision (allRSs : list ReplicaSet) : Z :=
  fold_left (λ max rs,
    match Revision rs with
    | Err _ => max
    | Ok v => if max <? v then v else max
    end) allRSs 0.

Definition last_revision_step : Z * Z → ReplicaSet → Z * Z := λ '(max, secMax) rs,
  match Revision rs with
  | Err _ => (max, secMax)
  | Ok v =>
      if max <=? v then (v, max)
      else if secMax <? v then (max, v)
      else (max, secMax)
  end.

Definition LastRevision (allRSs : list ReplicaSet) : Z :=
  (fold_left last_revision_step allRSs (0, 0)).2.

(** The revisions that parse. *)
Definition revisions (l : list ReplicaSet) : list Z :=
  omap (λ rs, match Revision rs with Ok v => Some v | Err _ => None end) l.


Lemma last_revision_loop l max sec rest :
  sec ≤ max → Forall (λ v, v ≤ sec) rest →
  let '(max', sec') := fold_left last_revision_step l (max, sec) in
  ∃ rest', max' :: sec' :: rest' ≡ₚ max :: sec :: rest ++ revisions l ∧
    sec' ≤ max' ∧ Forall (λ v, v ≤ sec') rest'.
Proof.
  revert max sec rest. induction l as [|rs l IH]; intros max sec rest Hle Hrest; simpl.
  { exists rest. by rewrite app_nil_r. }
  unfold revisions. simpl. fold (revisions l). destruct (Revision rs) as [v|]; [|by apply IH].
  destruct (Z.leb_spec max v); [|destruct (Z.ltb_spec sec v)].
  - specialize (IH v max (sec :: rest)). destruct (fold_left _ l (v, max)) as [max' sec'].
    destruct IH as (rest' & Hp & ? & ?); [lia|constructor; [lia|eapply Forall_impl; [done|]; simpl; lia]|].
    exists rest'. split; [|done]. rewrite Hp. simpl. solve_Permutation.
  - specialize (IH max v (sec :: rest)). destruct (fold_left _ l (max, v)) as [max' sec'].
    destruct IH as (rest' & Hp & ? & ?); [lia|constructor; [lia|eapply Forall_impl; [done|]; simpl; lia]|].
    exists rest'. split; [|done]. rewrite Hp. simpl. solve_Permutation.
  - specialize (IH max sec (v :: rest)). destruct (fold_left _ l (max, sec)) as [max' sec'].
    destruct IH as (rest' & Hp & ? & ?); [lia|constructor; [lia|done]|].
    exists rest'. split; [|done]. rewrite Hp. simpl. solve_Permutation.
Qed.

(** The last revision is the second of the revisions that parse, with two zeros, in
    descending order. *)
Lemma LastRevision_second l :
  ∃ max rest, 0 :: 0 :: revisions l ≡ₚ max :: LastRevision l :: rest ∧
    LastRevision l ≤ max ∧ Forall (λ v, v ≤ LastRevision l) rest.
Proof.
  pose proof (last_revision_loop l 0 0 [] ltac:(lia) ltac:(constructor)) as H. unfold LastRevision.
  destruct (fold_left last_revision_step l (0, 0)) as [max' sec']. destruct H as (rest' & Hp & ? & ?).
  exists max', rest'. simpl. by rewrite Hp.
Qed.

(** ** Proportional scaling *)

(** The largest size the rounded fraction can stand for. *)
Lemma round_quotient_bounds a b : 0 ≤ a → 0 < b → 0 ≤ round_quotient a b ≤ a.
Proof.
  intros Ha Hb. unfold round_quotient. destruct (Z.ltb_spec a 0); [lia|].
  split; [apply Z.div_pos; lia|]. destruct (Z.eq_dec a 0) as [->|]; [rewrite Z.div_small; lia|].
  apply Z.lt_succ_r, Z.div_lt_upper_bound; nia.
Qed.

(** The counters hold the products of sizes, and every annotation is a size. *)
Definition fits (d : Deployment) (l : list ReplicaSet) : Prop :=
  (∀ rs, rs ∈ l → 0 ≤ Replicas rs ∧
    0 < default (d_StatusReplicas d) (getMaxReplicasAnnotation rs)) ∧
  sum Replicas l * (d_Replicas d + MaxSurge d) < 2 ^ 30 ∧ sum Replicas l < 2 ^ 30.

Lemma fits_perm d l k : l ≡ₚ k → fits d l → fits d k.
Proof.
  intros Hp (H1 & H2 & H3). split_and!; [intros rs; rewrite <- Hp; apply H1|by rewrite <- Hp..].
Qed.

Lemma fits_cons d rs l :
  0 ≤ d_Replicas d + MaxSurge d → fits d (rs :: l) →
  0 ≤ Replicas rs ∧ 0 ≤ sum Replicas l ∧ fits d [rs] ∧ fits d l.
Proof.
  intros HK (H1 & H2 & H3). simpl in *. destruct (H1 rs ltac:(left)) as [Hr Hm].
  assert (0 ≤ sum Replicas l) by (apply sum_nonneg; intros x Hx; apply H1; by right).
  split_and!; [done|done| |]; (split_and!; [intros x Hx|simpl; nia|simpl; lia]).
  - apply list_elem_of_singleton in Hx as ->. auto.
  - apply H1. by right.
Qed.

Section proportional.
Context (oor : Z → Z → Z) (d : Deployment) (Hd : rolling_ok d).

Lemma fraction_bounds rs :
  fits d [rs] →
  - Replicas rs ≤ getReplicaSetFraction oor rs d ≤ Replicas rs * (d_Replicas d + MaxSurge d).
Proof.
  intros (H1 & H2 & H3). destruct (fenceposts d Hd) as (Hsg & Hmb & Hun & _). simpl in *. w32.
  destruct (H1 rs ltac:(left)) as [Hr Hm]. unfold getReplicaSetFraction.
  destruct (Z.eqb_spec (d_Replicas d) 0) as [E|E].
  { rewrite wrap32_in by (w32; lia). nia. }
  rewrite (wrap32_in (d_Replicas d + MaxSurge d)), (wrap32_in (Replicas rs * _)) by (w32; nia).
  set (num := Replicas rs * (d_Replicas d + MaxSurge d)) in *.
  set (den := default (d_StatusReplicas d) (getMaxReplicasAnnotation rs)) in *.
  assert (0 ≤ num < 1073741824) by (subst num; nia).
  unfold RoundToInt32. destruct (Z.ltb_spec den 0); [lia|]. rewrite Z.abs_eq by lia.
  destruct (round_quotient_bounds num den) as [Q1 Q2]; [lia|done|].
  rewrite (wrap32_in (round_quotient num den)) by (w32; lia). rewrite Z.eqb_refl.
  destruct (Z.eqb_spec den 0); [lia|]. simpl. rewrite wrap32_in by (w32; lia). lia.
Qed.

Lemma proportion_bounds rs toAdd added :
  fits d [rs] → - 2 ^ 31 ≤ toAdd - added < 2 ^ 31 →
  let p := GetProportion oor rs d toAdd added in
  - Replicas rs ≤ Z.max p 0 ∧ (toAdd ≤ 0 → toAdd ≤ added → toAdd ≤ added + p ∧ - Replicas rs ≤ p) ∧
  (0 < toAdd → added ≤ toAdd → added + p ≤ toAdd ∧ - Replicas rs ≤ p) ∧
  ((0 < toAdd → added ≤ toAdd) → (toAdd ≤ 0 → toAdd ≤ added) → p ≤ Replicas rs * (d_Replicas d + MaxSurge d)).
Proof.
  intros Hf Ht. pose proof (fraction_bounds rs Hf) as HF. destruct Hf as (H1 & H2 & _).
  destruct (fenceposts d Hd) as (Hsg & Hmb & Hun & _).
  destruct (H1 rs ltac:(left)) as [Hr Hm]. simpl in H2. unfold GetProportion.
  assert (0 ≤ Replicas rs * (d_Replicas d + MaxSurge d)) by nia.
  destruct ((Replicas rs =? 0) || (toAdd =? 0) || (toAdd =? added)) eqn:E; simpl; [split_and!; lia|].
  to_prop. rewrite wrap32_in by done. destruct (Z.ltb_spec 0 toAdd); split_and!; lia.
Qed.

(** The sizes that the loop over the replica sets assigns. *)
Lemma proportions_spec l toAdd added m :
  fits d l → NoDup (map Name l) → - 2 ^ 30 ≤ toAdd < 2 ^ 30 →
  (0 < toAdd → added ≤ toAdd) → (toAdd ≤ 0 → toAdd ≤ added) →
  - 2 ^ 30 ≤ added - sum Replicas l → added + sum Replicas l * (d_Replicas d + MaxSurge d) < 2 ^ 30 →
  let '(m', added') := proportions oor l d toAdd added m in
  (∀ n, n ∉ map Name l → m' !! n = m !! n) ∧
  (∀ rs, rs ∈ l → 0 ≤ default 0 (m' !! Name rs)) ∧
  sum (λ rs, default 0 (m' !! Name rs)) l = sum Replicas l + (added' - added) ∧
  (0 < toAdd → added' ≤ toAdd) ∧ (toAdd ≤ 0 → toAdd ≤ added') ∧ (toAdd = 0 → added' = added) ∧
  - 2 ^ 30 ≤ added' < 2 ^ 30 ∧
  sum (λ rs, default 0 (m' !! Name rs)) l ≤ sum Replicas l + sum Replicas l * (d_Replicas d + MaxSurge d).
Proof.
  destruct (fenceposts d Hd) as (Hsg & Hmb & Hun & _). w32. revert added m.
  induction l as [|rs l IH]; intros added m Hf Hnd Ht Hup Hdn Hlo Hhi; cbn [proportions].
  { simpl in *. split_and!; (done || lia || set_solver). }
  destruct (fits_cons d rs l ltac:(lia) Hf) as (Hr & Hl & Hf1 & Hfl). apply NoDup_cons in Hnd as [Hn Hnd].
  simpl in Hlo, Hhi. set (K := d_Replicas d + MaxSurge d) in *.
  assert (∃ p, (if toAdd =? 0 then proportions oor l d toAdd added (<[Name rs := Replicas rs]> m) else
      proportions oor l d toAdd (wrap32 (added + GetProportion oor rs d toAdd added))
        (<[Name rs := wrap32 (Replicas rs + GetProportion oor rs d toAdd added)]> m)) =
      proportions oor l d toAdd (added + p) (<[Name rs := Replicas rs + p]> m) ∧
    - Replicas rs ≤ p ≤ Replicas rs * K ∧ (toAdd = 0 → p = 0) ∧
    (0 < toAdd → added + p ≤ toAdd) ∧ (toAdd ≤ 0 → toAdd ≤ added + p)) as (p & -> & Hp & Hp0 & Hpu & Hpd).
  { assert (0 ≤ Replicas rs * K) by (subst K; nia). assert (0 ≤ sum Replicas l * K) by (subst K; nia).
    destruct Hf as (_ & Hf2 & _). fold K in Hf2. simpl in Hf2. w32.
    destruct (Z.eqb_spec toAdd 0) as [E|E]; [exists 0; rewrite !Z.add_0_r; split_and!; (done || lia)|].
    destruct (proportion_bounds rs toAdd added Hf1 ltac:(w32; lia)) as (_ & P1 & P2 & P3). fold K in P3.
    exists (GetProportion oor rs d toAdd added).
    assert (- Replicas rs ≤ GetProportion oor rs d toAdd added ≤ Replicas rs * K) as HP.
    { split; [|lia]. destruct (Z.lt_ge_cases 0 toAdd); lia. }
    rewrite !wrap32_in by (w32; lia). split_and!; [done|lia|lia|done|lia|lia]. }
  specialize (IH (added + p) (<[Name rs := Replicas rs + p]> m) Hfl Hnd Ht Hpu Hpd ltac:(lia) ltac:(lia)).
  destruct (proportions oor l d toAdd (added + p) _) as [m' added'].
  destruct IH as (I1 & I2 & I3 & I4 & I5 & I6 & I7 & I8).
  assert (m' !! Name rs = Some (Replicas rs + p)) as Hrs by (rewrite I1 by done; apply lookup_insert_eq).
  split_and!; [| | |done|done|lia|lia|lia|]; simpl; rewrite ?Hrs; simpl; try lia.
  - intros n Hni. rewrite I1 by set_solver. apply lookup_insert_ne. set_solver.
  - intros x [->|Hx]%elem_of_cons; [rewrite Hrs; simpl; lia|auto].
Qed.

Lemma update_sizes_spec refuse l m :
  (∀ n, refuse n = false) →
  ∃ l', update_sizes refuse l d m = (l', None) ∧
    Forall2 (λ rs rs', Name rs' = Name rs ∧ Replicas rs' = default 0 (m !! Name rs)) l l'.
Proof.
  intros Hno. induction l as [|rs l (l' & IH & IH2)]; simpl; [by exists []|].
  unfold scaleReplicaSet. rewrite Hno, IH. set (z := default 0 (m !! Name rs)).
  destruct (Z.eqb_spec (Replicas rs) z) as [E|E]; simpl;
    [destruct (ReplicasAnnotationsNeedUpdate rs (d_Replicas d) (wrap32 (d_Replicas d + MaxSurge d)))|];
    eexists; (split; [done|]); constructor; done.
Qed.

Lemma sized_sum (size : string → Z) l l' :
  Forall2 (λ rs rs', Name rs' = Name rs ∧ Replicas rs' = size (Name rs)) l l' →
  map Name l' = map Name l ∧ sum Replicas l' = sum (λ rs, size (Name rs)) l ∧
  ((∀ rs, rs ∈ l → 0 ≤ size (Name rs)) → Forall (λ rs, 0 ≤ Replicas rs) l').
Proof.
  intros H. induction H as [|rs rs' l l' [H1 H2] H (I1 & I2 & I3)]; simpl; [done|].
  split_and!; [congruence|lia|]. intros Hl. constructor; [rewrite H2; apply Hl; left|].
  apply I3. intros x Hx. apply Hl. by right.
Qed.

(** The same sizes but for the first replica set. *)
Lemma sum_insert rs l (m : gmap string Z) z :
  NoDup (map Name (rs :: l)) →
  sum (λ x, default 0 (<[Name rs := z]> m !! Name x)) l = sum (λ x, default 0 (m !! Name x)) l.
Proof.
  intros [Hn _]%NoDup_cons. induction l as [|x l IH]; simpl in *; [done|].
  rewrite lookup_insert_ne by set_solver. rewrite IH; [done|set_solver].
Qed.

Lemma allowed_size_eq : allowed_size d = if 0 <? d_Replicas d then d_Replicas d + MaxSurge d else 0.
Proof.
  destruct (fenceposts d Hd) as (Hsg & Hmb & Hun & _). unfold allowed_size. w32.
  destruct (0 <? d_Replicas d); [|done]. apply wrap32_in. w32. lia.
Qed.

Lemma scale_proportionally_spec refuse all :
  (∀ n, refuse n = false) → NoDup (map Name all) → fits d all → all ≠ [] →
  ∃ l, scale_proportionally oor refuse all d = (l, None) ∧ map Name l ≡ₚ map Name all ∧
    Forall (λ rs, 0 ≤ Replicas rs) l ∧ allowed_size d ≤ sum Replicas l ∧
    (sum Replicas all ≤ allowed_size d → sum Replicas l = allowed_size d) ∧
    (sum Replicas l = allowed_size d ∨ ∃ rs, head l = Some rs ∧ Replicas rs = 0).
Proof.
  intros Hno Hnd Hf Hne. destruct (fenceposts d Hd) as (Hsg & Hmb & Hun & _). w32.
  assert (0 ≤ allowed_size d < 1073741824) as Ha by (rewrite allowed_size_eq; destruct (0 <? d_Replicas d); lia).
  unfold scale_proportionally. assert (GetReplicaCountForReplicaSets all = sum Replicas all) as ->.
  { unfold GetReplicaCountForReplicaSets. destruct Hf as (H1 & _ & H3). rewrite count_sum; [done|apply H1|lia|w32; lia]. }
  assert (0 ≤ sum Replicas all < 1073741824) as Hs.
  { destruct Hf as (H1 & _ & H3). w32. split; [apply sum_nonneg, H1|done]. }
  rewrite wrap32_in by (w32; lia). set (toAdd := allowed_size d - sum Replicas all).
  set (sorted := if 0 <? toAdd then _ else _).
  assert (sorted ≡ₚ all) as Hp by (subst sorted; destruct (0 <? toAdd), (toAdd <? 0); by rewrite ?sort_by_perm).
  assert (fits d sorted) as Hf' by (by eapply fits_perm; [symmetry|]).
  assert (NoDup (map Name sorted)) as Hnd' by (by rewrite Hp).
  assert (sum Replicas sorted = sum Replicas all) as Es by (by rewrite Hp).
  pose proof (proportions_spec sorted toAdd 0 ∅ Hf' Hnd') as H. destruct (proportions oor sorted d toAdd 0 ∅) as [m added].
  pose proof Hf' as (_ & Hk & _). w32.
  destruct H as (_ & H2 & H3 & H4 & H5 & H6 & H7 & H8); [lia..|].
  clearbody sorted. destruct sorted as [|rs l].
  { apply Permutation_nil_l in Hp. by subst. }
  destruct (update_sizes_spec refuse (rs :: l) (add_leftover rs toAdd added m) Hno) as (l' & -> & Hl').
  destruct (sized_sum (λ n, default 0 (add_leftover rs toAdd added m !! n)) _ _ Hl') as (N1 & N2 & N3).
  exists l'. split; [done|]. split; [by rewrite N1, Hp|]. simpl in N2, H3, H8.
  pose proof (H2 rs ltac:(left)) as Hrs.
  assert (0 ≤ sum (λ x, default 0 (m !! Name x)) l) as Hl0 by (apply sum_nonneg; intros x Hx; apply H2; by right).
  assert (∀ x, x ∈ rs :: l → 0 ≤ default 0 (add_leftover rs toAdd added m !! Name x)) as Hpos.
  { intros x Hx. unfold add_leftover. destruct (toAdd =? 0); [auto|].
    destruct (decide (Name x = Name rs)) as [->|]; [|rewrite lookup_insert_ne by done; auto].
    rewrite lookup_insert_eq. simpl. case_match; lia. }
  split; [auto|]. unfold add_leftover in *. destruct (Z.eqb_spec toAdd 0) as [E|E].
  { assert (added = 0) by lia. simpl in Es. split_and!; lia. }
  rewrite lookup_insert_eq, sum_insert in N2 by done. simpl in N2, Es.
  inversion Hl' as [|? rs' ? ? [_ Hhead]]; subst. rewrite lookup_insert_eq in Hhead. simpl in Hhead.
  rewrite (wrap32_in (toAdd - added)) in * by (w32; lia). rewrite wrap32_in in * by (w32; simpl in *; nia).
  destruct (Z.ltb_spec (default 0 (m !! Name rs) + (toAdd - added)) 0).
  - split_and!; [lia|lia|]. right. by exists rs'.
  - split_and!; [lia|lia|]. left. lia.
Qed.
End proportional.

Lemma active_of_perm l k : l ≡ₚ k → FilterActiveReplicaSets l ≡ₚ FilterActiveReplicaSets k.
Proof.
  intros Hp. unfold FilterActiveReplicaSets. induction Hp as [|x l k Hp IH|x y l|l k j _ IH1 _ IH2]; simpl.
  - done.
  - by case_match; rewrite IH.
  - repeat case_match; try done. constructor.
  - by rewrite IH1, IH2.
Qed.

(** Scaling a deployment that has several active replica sets distributes what it
    should. With the products of sizes within the counters and no update
    refused, no replica set gets a negative size, and the sizes add up to the allowed
    size of the deployment, or, when that is smaller than what there is, to more of it
    only where the largest replica set is already down to zero. *)
Theorem scale_fills (oor : Z → Z → Z) (refuse : string → bool) (d : Deployment) (newRS : option ReplicaSet)
    (oldRSs : list ReplicaSet) :
  rolling_ok d → (∀ n, refuse n = false) →
  let active := FilterActiveReplicaSets (with_new oldRSs newRS) in
  (2 ≤ length active)%nat → NoDup (map Name active) → fits d active → IsSaturated d newRS = false →
  ∃ l, scale oor refuse d newRS oldRSs = (l, None) ∧ map Name l ≡ₚ map Name active ∧
    Forall (λ rs, 0 ≤ Replicas rs) l ∧ allowed_size d ≤ sum Replicas l ∧
    (sum Replicas active ≤ allowed_size d → sum Replicas l = allowed_size d) ∧
    (sum Replicas l = allowed_size d ∨ ∃ rs, head l = Some rs ∧ Replicas rs = 0).
Proof.
  intros Hd Hno active Hlen Hnd Hf Hsat.
  assert (FilterActiveReplicaSets (with_new (sort_by (λ a b, older b a) oldRSs) newRS) ≡ₚ active) as Hp.
  { apply active_of_perm. unfold with_new. by rewrite sort_by_perm. }
  unfold scale, FindActiveOrLatest. rewrite <- Hp in Hlen.
  set (all := FilterActiveReplicaSets (with_new (sort_by _ oldRSs) newRS)) in *.
  assert (match all with [] => match newRS with Some rs => Some rs | None => head (sort_by (λ a b, older b a) oldRSs) end
    | [rs] => Some rs | _ => None end = None) as ->.
  { destruct all as [|? [|? ?]]; simpl in Hlen; [lia|lia|done]. }
  rewrite Hsat. assert (IsRollingUpdate d = true) as ->.
  { destruct Hd as (? & ? & ? & ? & Hst & _). unfold IsRollingUpdate. by rewrite Hst. }
  destruct (scale_proportionally_spec oor d Hd refuse all Hno) as (l & H1 & H2 & H3 & H4 & H5 & H6).
  - by rewrite Hp.
  - by eapply fits_perm; [symmetry|].
  - intros E. rewrite E in Hlen. simpl in Hlen. lia.
  - exists l. rewrite Hp in H2, H5. done.
Qed.

(** ** Recreating *)

Lemma recreate_down_spec refuse l d :
  (∀ rs, rs ∈ l → 0 < Replicas rs) →
  let '(scaled, _, err) := scaleDownOldReplicaSetsForRecreate refuse l d in
  scaled = false → err = None → l = [].
Proof.
  intros Hl. destruct l as [|rs l]; simpl; [done|]. pose proof (Hl rs ltac:(left)) as Hr.
  destruct (Z.eqb_spec (Replicas rs) 0); [lia|]. pose proof (record_event_spec refuse rs 0 d) as He.
  destruct (scaleReplicaSetAndRecordEvent refuse rs 0 d) as [[b rs']|]; [|done].
  destruct He as (_ & _ & _ & _ & -> & _). destruct (Z.eqb_spec (Replicas rs) 0); [lia|].
  destruct (scaleDownOldReplicaSetsForRecreate refuse l d) as [[sc l'] err]. by destruct err.
Qed.

(** A recreating update touches the new replica set only when the old ones are
    gone: none of them has a size, they count no replicas in their status, and every
    pod of another replica set has ended. *)
Theorem recreate_exclusive (refuse : string → bool) (created : result DeployError ReplicaSet)
    (newRS : option ReplicaSet) (oldRSs : list ReplicaSet) (podMap : list (string * list PodPhase)) (d : Deployment) :
  (rolloutRecreate refuse created newRS oldRSs podMap d).1.2 ≠ newRS →
  (∀ rs, rs ∈ oldRSs → Replicas rs ≤ 0) ∧
  GetActualReplicaCountForReplicaSets oldRSs ≤ 0 ∧
  (∀ uid pods p, (uid, pods) ∈ podMap → (∀ rs, newRS = Some rs → UID rs ≠ uid) → p ∈ pods →
    p = PodFailed ∨ p = PodSucceeded).
Proof.
  unfold rolloutRecreate.
  pose proof (recreate_down_spec refuse (FilterActiveReplicaSets oldRSs) d) as Hdown.
  destruct (scaleDownOldReplicaSetsForRecreate refuse (FilterActiveReplicaSets oldRSs) d) as [[sc act] err].
  destruct err as [e|]; simpl; [done|]. destruct sc; simpl; [done|].
  destruct (oldPodsRunning newRS oldRSs podMap) eqn:Hold; simpl; [done|]. intros _.
  apply orb_false_elim in Hold as [Hact Hpods]. split_and!; [|lia|].
  - intros rs Hrs. destruct (Z.le_gt_cases (Replicas rs) 0) as [|Hpos]; [done|].
    assert (rs ∈ FilterActiveReplicaSets oldRSs) as Hin.
    { apply list_elem_of_In, filter_In. split; [by apply list_elem_of_In|lia]. }
    rewrite Hdown in Hin; [by apply not_elem_of_nil in Hin| |done|done].
    intros x [_ Hx]%list_elem_of_In%filter_In. lia.
  - intros uid pods p Hin Hnew Hp.
    assert (existsb pod_running pods = false) as Hno.
    { destruct (existsb pod_running pods) eqn:E; [|done]. rewrite <- Hpods. symmetry. apply existsb_exists.
      exists (uid, pods). split; [by apply list_elem_of_In|]. destruct newRS as [rs|]; [|done].
      rewrite bool_decide_false by (by apply Hnew). done. }
    destruct (pod_running p) eqn:Ep; [|destruct p; auto; done].
    exfalso. assert (existsb pod_running pods = true) as Hyes; [|congruence]. apply existsb_exists. exists p. split; [by apply list_elem_of_In|done].
Qed.

(** ** Overflow *)

(** Two replica sets of a deployment of a hundred thousand, scaled up by half. *)
Definition big_rs (name : string) (created : Z) : ReplicaSet :=
  mkReplicaSet name name created 50000 50000 50000
    {[ DesiredReplicasAnnotation := "100000"; MaxReplicasAnnotation := "100000" ]}.

Definition big_deployment : Deployment :=
  mkDeployment 150000 (RollingUpdate (Some (IntVal 0)) (Some (IntVal 1))) 100000.

(** The product of sizes wraps, and the second replica set is given a negative size
    while the deployment grows. *)
Theorem scale_overflow :
  map (λ rs, (Name rs, Replicas rs))
    (scale (λ _ _, 0) (λ _, false) big_deployment (Some (big_rs "new" 2)) [big_rs "old" 1]).1 =
  [("new", 160899); ("old", -10899)].
Proof. vm_compute. reflexivity. Qed.

(** ** Witnesses *)

Definition annotated_rs (name : string) (created replicas : Z) (max : string) : ReplicaSet :=
  mkReplicaSet name name created replicas replicas replicas {[ MaxReplicasAnnotation := max ]}.

Lemma fits_check d l :
  forallb (λ rs, (0 <=? Replicas rs) &&
    (0 <? default (d_StatusReplicas d) (getMaxReplicasAnnotation rs))) l &&
  (sum Replicas l * (d_Replicas d + MaxSurge d) <? 2 ^ 30) && (sum Replicas l <? 2 ^ 30) = true → fits d l.
Proof.
  intros [[Hl H2]%andb_prop H3]%andb_prop. split_and!; [|lia..]. intros rs Hrs. rewrite forallb_forall in Hl.
  specialize (Hl rs ltac:(by apply list_elem_of_In)). lia.
Qed.

(** Ten replicas in two replica sets, of a deployment that had ten and gets to thirteen. *)
Lemma scale_fills_witness :
  ∃ l, scale (λ _ _, 0) (λ _, false) ex_deployment (Some (annotated_rs "new" 2 4 "10"))
      [annotated_rs "old" 1 6 "10"] = (l, None) ∧ sum Replicas l = 13 ∧ map Replicas l = [8; 5].
Proof.
  destruct (scale_fills (λ _ _, 0) (λ _, false) ex_deployment (Some (annotated_rs "new" 2 4 "10"))
    [annotated_rs "old" 1 6 "10"]) as (l & H1 & _ & _ & _ & H5 & _).
  - apply ex_rolling_ok.
  - reflexivity.
  - vm_compute. lia.
  - apply (bool_decide_unpack _). vm_compute. exact I.
  - apply fits_check. vm_compute. reflexivity.
  - vm_compute. reflexivity.
  - exists l. split; [exact H1|]. split.
    + rewrite H5; vm_compute; congruence.
    + apply (f_equal (λ x, map Replicas x.1)) in H1. simpl in H1. rewrite <- H1. vm_compute. reflexivity.
Defined.

Lemma recreate_exclusive_witness :
  (rolloutRecreate (λ _, false) (Err ErrInvalidScale) (Some (ex_rs "new" 2 0 0)) [ex_rs "old" 1 0 0]
     [("old", [PodSucceeded]); ("new", [PodRunning])] (mkDeployment 3 Recreate 0)).1.2 ≠ Some (ex_rs "new" 2 0 0) ∧
  GetActualReplicaCountForReplicaSets [ex_rs "old" 1 0 0] ≤ 0.
Proof.
  assert ((rolloutRecreate (λ _, false) (Err ErrInvalidScale) (Some (ex_rs "new" 2 0 0)) [ex_rs "old" 1 0 0]
     [("old", [PodSucceeded]); ("new", [PodRunning])] (mkDeployment 3 Recreate 0)).1.2 ≠ Some (ex_rs "new" 2 0 0)) as H
    by (vm_compute; congruence).
  split; [exact H|]. exact (proj1 (proj2 (recreate_exclusive _ _ _ _ _ _ H))).
Defined.
