(* ===== verification/Validation.v ===== *)
(** * Validation of names and label values

    The formats of [staging/src/k8s.io/apimachinery/pkg/util/validation/validation.go]:
    the regular expressions as data with a matcher, the functions that test them, and
    what they say about the strings they accept. *)

From S2P Require Import Prelude GoStrings GoStrconv.

(** ** Regular expressions *)

Inductive regex : Type :=
  | Nul
  | Eps
  | Cls (f : ascii → bool)
  | Cat (r s : regex)
  | Alt (r s : regex)
  | Star (r : regex).

(** [r?] *)
Definition Opt (r : regex) : regex := Alt r Eps.

Fixpoint nullable (r : regex) : bool :=
  match r with
  | Nul | Cls _ => false
  | Eps | Star _ => true
  | Cat r s => nullable r && nullable s
  | Alt r s => nullable r || nullable s
  end.

(** What is left to match after a character. *)
Fixpoint deriv (c : ascii) (r : regex) : regex :=
  match r with
  | Nul | Eps => Nul
  | Cls f => if f c then Eps else Nul
  | Cat r s => if nullable r then Alt (Cat (deriv c r) s) (deriv c s) else Cat (deriv c r) s
  | Alt r s => Alt (deriv c r) (deriv c s)
  | Star r => Cat (deriv c r) (Star r)
  end.

(** [MatchString] of an expression between [^] and [$]. *)
Fixpoint MatchString (r : regex) (s : string) : bool :=
  match s with
  | "" => nullable r
  | String c s => MatchString (deriv c r) s
  end.

(** ** Formats *)

Definition in_range (lo hi : ascii) (c : ascii) : bool :=
  let n := N_of_ascii c in (N_of_ascii lo <=? n)%N && (n <=? N_of_ascii hi)%N.

Definition lower (c : ascii) : bool := in_range "a" "z" c.
Definition upper (c : ascii) : bool := in_range "A" "Z" c.
Definition digit (c : ascii) : bool := in_range "0" "9" c.
Definition char (d c : ascii) : bool := bool_decide (d = c).

Definition qnameCharFmt : regex := Cls (λ c, upper c || lower c || digit c).
Definition qnameExtCharFmt : regex :=
  Cls (λ c, char "-" c || upper c || lower c || digit c || char "_" c || char "." c).
Definition qualifiedNameFmt : regex := Cat (Opt (Cat qnameCharFmt (Star qnameExtCharFmt))) qnameCharFmt.
Definition labelValueFmt : regex := Opt qualifiedNameFmt.
Definition dns1123_char : regex := Cls (λ c, lower c || digit c).
Definition dns1123_ext : regex := Cls (λ c, char "-" c || lower c || digit c).
Definition dns1123LabelFmt : regex := Cat dns1123_char (Opt (Cat (Star dns1123_ext) dns1123_char)).
Definition dns1123SubdomainFmt : regex := Cat dns1123LabelFmt (Star (Cat (Cls (char ".")) dns1123LabelFmt)).
Definition dns1035LabelFmt : regex := Cat (Cls lower) (Opt (Cat (Star dns1123_ext) dns1123_char)).
Definition wildcardDNS1123SubdomainFmt : regex :=
  Cat (Cls (char "*")) (Cat (Cls (char ".")) dns1123SubdomainFmt).
Definition cIdentifierFmt : regex :=
  Cat (Cls (λ c, upper c || lower c || char "_" c)) (Star (Cls (λ c, upper c || lower c || digit c || char "_" c))).

Definition qualifiedNameMaxLength : Z := 63.
Definition LabelValueMaxLength : Z := 63.
Definition DNS1123LabelMaxLength : Z := 63.
Definition DNS1123SubdomainMaxLength : Z := 253.
Definition DNS1035LabelMaxLength : Z := 63.

Definition strlen (s : string) : Z := Z.of_nat (String.length s).

(** The messages. *)
Inductive Msg : Type :=
  | EmptyError
  | MaxLenError (length : Z)
  | RegexError
  | InclusiveRangeError (lo hi : Z)
  | PrefixPart (m : Msg)
  | NamePart (m : Msg).

Definition test_format (max : Z) (r : regex) (value : string) : list Msg :=
  (if max <? strlen value then [MaxLenError max] else []) ++
  (if negb (MatchString r value) then [RegexError] else []).

Definition IsValidLabelValue (value : string) : list Msg := test_format LabelValueMaxLength labelValueFmt value.
Definition IsDNS1123Label (value : string) : list Msg := test_format DNS1123LabelMaxLength dns1123LabelFmt value.
Definition IsDNS1123Subdomain (value : string) : list Msg :=
  test_format DNS1123SubdomainMaxLength dns1123SubdomainFmt value.
Definition IsDNS1035Label (value : string) : list Msg := test_format DNS1035LabelMaxLength dns1035LabelFmt value.
Definition IsWildcardDNS1123Subdomain (value : string) : list Msg :=
  test_format DNS1123SubdomainMaxLength wildcardDNS1123SubdomainFmt value.
Definition IsCIdentifier (value : string) : list Msg :=
  if negb (MatchString cIdentifierFmt value) then [RegexError] else [].

Definition IsValidPortNum (port : Z) : list Msg :=
  if (1 <=? port) && (port <=? 65535) then [] else [InclusiveRangeError 1 65535].
Definition IsInRange (value min max : Z) : list Msg :=
  if (min <=? value) && (value <=? max) then [] else [InclusiveRangeError min max].

(** The part of [IsQualifiedName] after the prefix. *)
Definition test_name (name : string) : list Msg :=
  (if strlen name =? 0 then [NamePart EmptyError]
   else if qualifiedNameMaxLength <? strlen name then [NamePart (MaxLenError qualifiedNameMaxLength)]
   else []) ++
  (if negb (MatchString qualifiedNameFmt name) then [NamePart RegexError] else []).

Definition IsQualifiedName (value : string) : list Msg :=
  match Split value "/" with
  | [name] => test_name name
  | [prefix; name] =>
      (if strlen prefix =? 0 then [PrefixPart EmptyError]
       else PrefixPart <$> IsDNS1123Subdomain prefix) ++ test_name name
  | _ => [RegexError]
  end.

(** ** The matcher is correct *)

(** The strings an expression stands for. *)
Inductive lang : regex → string → Prop :=
  | lang_eps : lang Eps ""
  | lang_cls f c : f c = true → lang (Cls f) (String c "")
  | lang_cat r s x y : lang r x → lang s y → lang (Cat r s) (x +:+ y)
  | lang_alt_l r s x : lang r x → lang (Alt r s) x
  | lang_alt_r r s x : lang s x → lang (Alt r s) x
  | lang_star_nil r : lang (Star r) ""
  | lang_star_app r x y : lang r x → lang (Star r) y → lang (Star r) (x +:+ y).

Lemma string_app_eq_nil (x y : string) : x +:+ y = "" → x = "" ∧ y = "".
Proof. by destruct x. Qed.

Lemma nullable_spec r : nullable r = true ↔ lang r "".
Proof.
  split.
  - induction r as [| |f|r IHr s IHs|r IHr s IHs|r IHr]; simpl; intros H; try done.
    + constructor.
    + apply andb_prop in H as [H1 H2]. apply (lang_cat r s "" ""); auto.
    + apply orb_prop in H as [H|H]; [by apply lang_alt_l, IHr|by apply lang_alt_r, IHs].
    + constructor.
  - intros H. remember "" as x eqn:E. induction H; simplify_eq/=; try done.
    + apply string_app_eq_nil in E as [-> ->]. rewrite IHlang1, IHlang2; done.
    + by rewrite IHlang.
    + rewrite IHlang by done. apply orb_true_r.
Qed.

(** A non-empty string of a repetition starts with a non-empty part. *)
Lemma star_cons r c s :
  lang (Star r) (String c s) → ∃ x y, s = x +:+ y ∧ lang r (String c x) ∧ lang (Star r) y.
Proof.
  intros H. remember (Star r) as q eqn:Eq. remember (String c s) as t eqn:Et.
  revert c s Et. induction H; intros c0 s0 Et; simplify_eq/=.
  destruct x as [|d x]; simpl in Et; [by apply IHlang2|]. injection Et as -> <-. eauto.
Qed.

Lemma deriv_spec c r s : lang (deriv c r) s ↔ lang r (String c s).
Proof.
  revert s. induction r as [| |f|r IHr q IHq|r IHr q IHq|r IHr]; intros s; simpl.
  - split; intros H; inversion H.
  - split; intros H; inversion H.
  - destruct (f c) eqn:E.
    + split; intros H; inversion H; subst; [by constructor|constructor].
    + split; intros H; inversion H; congruence.
  - assert (lang (Cat (deriv c r) q) s ↔ ∃ x y, s = x +:+ y ∧ lang r (String c x) ∧ lang q y) as Hcat.
    { split.
      - intros H. inversion H; subst. rewrite IHr in *. eauto.
      - intros (x & y & -> & H1 & H2). constructor; [by apply IHr|done]. }
    assert (lang (Cat r q) (String c s) ↔
      (∃ x y, s = x +:+ y ∧ lang r (String c x) ∧ lang q y) ∨ (lang r "" ∧ lang q (String c s))) as Hgoal.
    { split.
      - intros H. inversion H as [| |? ? x y H1 H2 E1 E2| | | |]; subst.
        destruct x as [|d x]; simpl in *; [by right; subst|]. injection E2 as -> <-. left. eauto.
      - intros [(x & y & -> & H1 & H2)|[H1 H2]]; [apply (lang_cat r q (String c x) y); done|].
        apply (lang_cat r q "" (String c s)); done. }
    rewrite Hgoal. destruct (nullable r) eqn:En.
    + apply nullable_spec in En. split.
      * intros H. inversion H; subst; [left; by apply Hcat|]. right. split; [done|by apply IHq].
      * intros [H|[_ H]]; [by apply lang_alt_l, Hcat|by apply lang_alt_r, IHq].
    + rewrite Hcat. split; [by left|]. intros [H|[H _]]; [done|]. apply nullable_spec in H. congruence.
  - split.
    + intros H. inversion H; subst; [by apply lang_alt_l, IHr|by apply lang_alt_r, IHq].
    + intros H. inversion H; subst; [by apply lang_alt_l, IHr|by apply lang_alt_r, IHq].
  - split.
    + intros H. inversion H as [| |? ? x y H1 H2| | | |]; subst.
      apply (lang_star_app r (String c x) y); [by apply IHr|done].
    + intros (x & y & -> & H1 & H2)%star_cons. constructor; [by apply IHr|done].
Qed.

Lemma MatchString_spec r s : MatchString r s = true ↔ lang r s.
Proof.
  revert r. induction s as [|c s IH]; intros r; simpl; [apply nullable_spec|]. by rewrite IH, deriv_spec.
Qed.

(** ** What the formats accept *)

Fixpoint all_chars (f : ascii → bool) (s : string) : bool :=
  match s with "" => true | String c s => f c && all_chars f s end.

Lemma all_chars_app f s t : all_chars f (s +:+ t) = all_chars f s && all_chars f t.
Proof. induction s as [|c s IH]; simpl; [done|]. by rewrite IH, andb_assoc. Qed.

Lemma all_chars_impl (f g : ascii → bool) s :
  (∀ c, f c = true → g c = true) → all_chars f s = true → all_chars g s = true.
Proof.
  intros Hfg. induction s as [|c s IH]; simpl; [done|]. intros [H1 H2]%andb_prop. rewrite Hfg, IH; done.
Qed.

(** The classes of an expression all stay within a set of characters. *)
Fixpoint within (r : regex) (f : ascii → bool) : Prop :=
  match r with
  | Nul | Eps => True
  | Cls g => ∀ c, g c = true → f c = true
  | Cat r s | Alt r s => within r f ∧ within s f
  | Star r => within r f
  end.

Lemma lang_chars r f s : within r f → lang r s → all_chars f s = true.
Proof.
  intros Hw H. induction H; simpl in *; try done.
  - rewrite Hw; done.
  - rewrite all_chars_app, IHlang1, IHlang2; tauto.
  - tauto.
  - tauto.
  - rewrite all_chars_app, IHlang1, IHlang2; done.
Qed.

(** The characters of names and values. *)
Definition name_char (c : ascii) : bool :=
  char "-" c || upper c || lower c || digit c || char "_" c || char "." c.

Lemma qualifiedName_chars s : MatchString qualifiedNameFmt s = true → all_chars name_char s = true ∧ s ≠ "".
Proof.
  rewrite MatchString_spec. intros H. split.
  - eapply lang_chars; [|exact H]. unfold name_char. simpl. repeat split; intros c Hc; try done;
      destruct (upper c), (lower c), (digit c); simpl in *; rewrite ?orb_true_r; done.
  - intros ->. apply nullable_spec in H. by vm_compute in H.
Qed.

Lemma labelValue_chars v : IsValidLabelValue v = [] → all_chars name_char v = true.
Proof.
  unfold IsValidLabelValue, test_format. destruct (MatchString labelValueFmt v) eqn:E.
  - intros _. apply MatchString_spec in E. inversion E as [| | |? ? ? H|? ? ? H| |]; subst.
    + apply qualifiedName_chars. by apply MatchString_spec.
    + by inversion H.
  - simpl. intros H. by apply app_eq_nil in H as [_ ?].
Qed.

Lemma Join_Split s c : Join (Split s c) (String c "") = s.
Proof.
  induction s as [|a s IH]; simpl; [done|]. destruct (Split s c) as [|t rest] eqn:E.
  { by destruct s; simpl in E; repeat case_match. }
  case_bool_decide as Hc; [subst a; simpl in *; by rewrite IH|]. destruct rest; simpl in *; by rewrite IH.
Qed.

Lemma subdomain_chars s :
  MatchString dns1123SubdomainFmt s = true → all_chars name_char s = true.
Proof.
  rewrite MatchString_spec. apply lang_chars. unfold name_char. simpl. repeat split; intros c Hc; try done;
    destruct (upper c), (lower c), (digit c), (char "-" c), (char "." c); simpl in *; rewrite ?orb_true_r; done.
Qed.

(** The characters of keys. *)
Definition key_char (c : ascii) : bool := name_char c || char "/" c.

Lemma qualified_chars k : IsQualifiedName k = [] → all_chars key_char k = true ∧ k ≠ "".
Proof.
  assert (∀ n, test_name n = [] → all_chars key_char n = true ∧ n ≠ "") as Hname.
  { intros n [_ H]%app_eq_nil. destruct (MatchString qualifiedNameFmt n) eqn:E; [|done].
    apply qualifiedName_chars in E as [E ?]. split; [|done]. eapply all_chars_impl; [|exact E].
    intros c Hc. unfold key_char. by rewrite Hc. }
  rewrite <- (Join_Split k "/"%char) at 2 3. unfold IsQualifiedName.
  destruct (Split k "/") as [|p [|n [|? ?]]]; [done|apply Hname| |done].
  intros [Hp Hn]%app_eq_nil. destruct (Hname n Hn) as [Hc He]. simpl.
  split; [|by destruct p]. rewrite all_chars_app. simpl. rewrite Hc, andb_true_r.
  destruct (strlen p =? 0); [done|]. apply fmap_nil_inv in Hp. apply app_eq_nil in Hp as [_ Hp].
  destruct (MatchString dns1123SubdomainFmt p) eqn:E; [|done].
  eapply all_chars_impl; [|by apply subdomain_chars]. intros c Hc'. unfold key_char. by rewrite Hc'.
Qed.

(** ** Subdomains are lists of labels *)

Lemma label_no_dot s : MatchString dns1123LabelFmt s = true → ContainsChar s "." = false.
Proof.
  rewrite MatchString_spec. intros H.
  assert (all_chars (λ c, negb (char "." c)) s = true) as Ha.
  { eapply lang_chars; [|exact H].
    assert (∀ c, lower c || digit c = true → negb (char "." c) = true) as H1.
    { intros c Hc. unfold char. case_bool_decide; [subst; by vm_compute in Hc|done]. }
    assert (∀ c, char "-" c || lower c || digit c = true → negb (char "." c) = true) as H2.
    { intros c Hc. unfold char. case_bool_decide; [subst; by vm_compute in Hc|done]. }
    simpl. auto 10. }
  clear H. induction s as [|c s IH]; simpl in *; [done|]. apply andb_prop in Ha as [H1 H2].
  rewrite IH by done. unfold char in H1. rewrite orb_false_r. apply bool_decide_eq_false.
  intros ->. by rewrite bool_decide_true in H1.
Qed.

Lemma subdomain_tail s :
  lang (Star (Cat (Cls (char ".")) dns1123LabelFmt)) s ↔
  s = "" ∨ ∃ t, s = String "." t ∧ Forall (λ l, MatchString dns1123LabelFmt l = true) (Split t ".").
Proof.
  split.
  - intros H. remember (Star _) as r eqn:E. induction H as [| | | | | |r x y H1 _ H2 IH]; simplify_eq; [by left|].
    right. inversion H1 as [| |? ? u v Hu Hv| | | |]; subst. inversion Hu as [|? c Hc| | | | |]; subst.
    unfold char in Hc. apply bool_decide_eq_true in Hc as <-. simpl. eexists. split; [done|].
    apply MatchString_spec in Hv. pose proof (label_no_dot v Hv) as Hd.
    destruct (IH eq_refl) as [->|(t & -> & Ht)].
    + rewrite string_app_nil_r, Split_none by done. by constructor.
    + rewrite Split_app by done. by constructor.
  - intros [->|(t & -> & Ht)]; [constructor|].
    assert (∀ ls, Forall (λ l, MatchString dns1123LabelFmt l = true) ls → ls ≠ [] →
      lang (Star (Cat (Cls (char ".")) dns1123LabelFmt)) (String "." (Join ls "."))) as Hj.
    { intros ls Hls. induction Hls as [|l ls Hl Hls IH]; [done|]. intros _.
      apply MatchString_spec in Hl. assert (lang (Cat (Cls (char ".")) dns1123LabelFmt) (String "." l)) as Hp.
      { apply (lang_cat (Cls (char ".")) _ (String "." "") l); [by constructor|done]. }
      destruct ls as [|l' ls].
      - rewrite <- (string_app_nil_r (String "." (Join [l] "."))). apply lang_star_app; [done|constructor].
      - change (String "." (Join (l :: l' :: ls) ".")) with (String "." l +:+ String "." (Join (l' :: ls) ".")).
        apply lang_star_app; [done|by apply IH]. }
    rewrite <- (Join_Split t "."). apply Hj; [done|]. destruct t; simpl; repeat case_match; done.
Qed.

(** A subdomain is accepted exactly when each of its parts between dots is a label and
    it is not too long; the parts themselves can be longer than a label may be. *)
Theorem IsDNS1123Subdomain_labels (s : string) :
  IsDNS1123Subdomain s = [] ↔
  strlen s ≤ 253 ∧ ∀ l, l ∈ Split s "." → MatchString dns1123LabelFmt l = true.
Proof.
  unfold IsDNS1123Subdomain, test_format, DNS1123SubdomainMaxLength. rewrite <- Forall_forall.
  assert (MatchString dns1123SubdomainFmt s = true ↔
    Forall (λ l, MatchString dns1123LabelFmt l = true) (Split s ".")) as Hm.
  { rewrite MatchString_spec. split.
    - intros H. inversion H as [| |? ? u v Hu Hv| | | |]; subst. apply MatchString_spec in Hu.
      pose proof (label_no_dot u Hu) as Hd. apply subdomain_tail in Hv as [->|(t & -> & Ht)].
      + rewrite string_app_nil_r, Split_none by done. by constructor.
      + rewrite Split_app by done. by constructor.
    - intros H. pose proof (Join_Split s "."%char) as Hs. destruct (Split s ".") as [|l [|l' ls]] eqn:E.
      + by destruct s; simpl in E; repeat case_match.
      + simpl in Hs. subst l. apply Forall_inv in H. rewrite <- (string_app_nil_r s).
        constructor; [by apply MatchString_spec|constructor].
      + apply Forall_cons in H as [Hl H]. rewrite <- Hs.
        change (Join (l :: l' :: ls) ".") with (l +:+ String "." (Join (l' :: ls) ".")).
        constructor; [by apply MatchString_spec|]. apply subdomain_tail. right. eexists. split; [done|].
        rewrite Split_Join; [done|done|]. intros p Hp. apply label_no_dot. rewrite Forall_forall in H. by apply H. }
  rewrite <- Hm. destruct (Z.ltb_spec 253 (strlen s)); destruct (MatchString dns1123SubdomainFmt s); simpl;
    split; try done; intros; try lia; destruct_and?; try done; lia.
Qed.
