(* ===== verification/LabelSelector.v ===== *)
(** * Label selectors

    [staging/src/k8s.io/apimachinery/pkg/labels/selector.go] and [labels.go]:
    requirements, their meaning, the lexer and the parser, and the printing; and the
    conversions of [pkg/apis/meta/v1/helpers.go] between selectors and the API type. *)

From S2P Require Import Prelude GoStrings GoStrconv Validation.

(** ** Requirements *)

(** [selection.Operator]: a string, of which these are the ones known. *)
Inductive Operator : Type :=
  | DoesNotExist | Equals | DoubleEquals | In | NotEquals | NotIn | Exists | GreaterThan | LessThan
  | OtherOperator (s : string).

#[global] Instance Operator_eq_dec : EqDecision Operator.
Proof. solve_decision. Defined.

Record Requirement : Type := mkRequirement {
  key : string;
  operator : Operator;
  strValues : list string;
}.

#[global] Instance Requirement_eq_dec : EqDecision Requirement.
Proof. solve_decision. Defined.

(** [Set], the labels of an object. *)
Notation Labels := (gmap string string).
Definition Has (ls : Labels) (label : string) : bool := bool_decide (is_Some (ls !! label)).
Definition Get (ls : Labels) (label : string) : string := default "" (ls !! label).

Inductive SelError : Type :=
  | ErrKey (k : string) (msgs : list Msg)
  | ErrValue (v : string) (msgs : list Msg)
  | ErrValues (op : Operator)
  | ErrOperator (op : Operator)
  | ErrFound (literal : string)
  | ErrSelector (s : string)
  | ErrPanic
  | ErrFuel.

Definition validateLabelKey (k : string) : result SelError unit :=
  match IsQualifiedName k with [] => Ok () | errs => Err (ErrKey k errs) end.

Definition validateLabelValue (v : string) : result SelError unit :=
  match IsValidLabelValue v with [] => Ok () | errs => Err (ErrValue v errs) end.

Definition ParseInt (s : string) : result NumError Z := Atoi s.

(** The loop of [NewRequirement] over the values. *)
Fixpoint validate_values (vals : list string) : result SelError unit :=
  match vals with
  | [] => Ok ()
  | v :: vals => match validateLabelValue v with Err e => Err e | Ok _ => validate_values vals end
  end.

Definition values_ok (op : Operator) (vals : list string) : result SelError unit :=
  match op with
  | In | NotIn => match vals with [] => Err (ErrValues op) | _ => Ok () end
  | Equals | DoubleEquals | NotEquals => match vals with [_] => Ok () | _ => Err (ErrValues op) end
  | Exists | DoesNotExist => match vals with [] => Ok () | _ => Err (ErrValues op) end
  | GreaterThan | LessThan =>
      match vals with
      | [v] => match ParseInt v with Ok _ => Ok () | Err _ => Err (ErrValues op) end
      | _ => Err (ErrValues op)
      end
  | OtherOperator _ => Err (ErrOperator op)
  end.

Definition NewRequirement (k : string) (op : Operator) (vals : list string) : result SelError Requirement :=
  match validateLabelKey k with
  | Err e => Err e
  | Ok _ =>
      match values_ok op vals with
      | Err e => Err e
      | Ok _ =>
          match validate_values vals with
          | Err e => Err e
          | Ok _ => Ok (mkRequirement k op vals)
          end
      end
  end.

Definition hasValue (r : Requirement) (value : string) : bool := existsb (λ v, bool_decide (v = value)) (strValues r).

Definition Requirement_Matches (r : Requirement) (ls : Labels) : bool :=
  match operator r with
  | In | Equals | DoubleEquals => if negb (Has ls (key r)) then false else hasValue r (Get ls (key r))
  | NotIn | NotEquals => if negb (Has ls (key r)) then true else negb (hasValue r (Get ls (key r)))
  | Exists => Has ls (key r)
  | DoesNotExist => negb (Has ls (key r))
  | GreaterThan | LessThan =>
      if negb (Has ls (key r)) then false
      else
        match ParseInt (Get ls (key r)) with
        | Err _ => false
        | Ok lsValue =>
            match strValues r with
            | [v] =>
                match ParseInt v with
                | Err _ => false
                | Ok rValue =>
                    (bool_decide (operator r = GreaterThan) && (rValue <? lsValue)) ||
                    (bool_decide (operator r = LessThan) && (lsValue <? rValue))
                end
            | _ => false
            end
        end
  | OtherOperator _ => false
  end.

Definition Values (r : Requirement) : gset string := list_to_set (strValues r).

(** [sets.String.List] and [safeSort]. *)
Definition List (s : gset string) : list string := merge_sort String.le (elements s).
Definition safeSort (l : list string) : list string := merge_sort String.le l.

Definition operator_String (op : Operator) : string :=
  match op with
  | Equals => "="
  | DoubleEquals => "=="
  | NotEquals => "!="
  | In => " in "
  | NotIn => " notin "
  | GreaterThan => ">"
  | LessThan => "<"
  | Exists | DoesNotExist | OtherOperator _ => ""
  end.

Definition values_String (vals : list string) : string :=
  match vals with
  | [v] => v
  | vs => Join (safeSort vs) ","
  end.

Definition Requirement_String (r : Requirement) : string :=
  let head := match operator r with DoesNotExist => "!" | _ => "" end +:+ key r in
  match operator r with
  | Exists | DoesNotExist => head
  | op =>
      let vals := values_String (strValues r) in
      head +:+ operator_String op +:+
        match op with In | NotIn => "(" +:+ vals +:+ ")" | _ => vals end
  end.

(** ** Selectors *)

Inductive Selector : Type :=
  | nothingSelector
  | internalSelector (reqs : list Requirement).

(** [sort.Sort(ByKey(reqs))]: requirements with the same key end up in some order. *)
Class SortByKey := {
  sort_ByKey : list Requirement → list Requirement;
  sort_ByKey_perm l : sort_ByKey l ≡ₚ l;
  sort_ByKey_sorted l : Sorted (λ a b, String.le (key a) (key b)) (sort_ByKey l);
}.

Definition Everything : Selector := internalSelector [].
Definition Nothing : Selector := nothingSelector.

Definition Matches (s : Selector) (l : Labels) : bool :=
  match s with
  | nothingSelector => false
  | internalSelector reqs => forallb (λ r, Requirement_Matches r l) reqs
  end.

Definition Empty (s : Selector) : bool :=
  match s with nothingSelector => false | internalSelector reqs => bool_decide (reqs = []) end.

Definition Selector_String (s : Selector) : string :=
  match s with nothingSelector => "" | internalSelector reqs => Join (map Requirement_String reqs) "," end.

Definition Add `{SortByKey} (s : Selector) (reqs : list Requirement) : Selector :=
  match s with
  | nothingSelector => nothingSelector
  | internalSelector l => internalSelector (sort_ByKey (l ++ reqs))
  end.

(** ** The lexer *)

Inductive Token : Type :=
  | ErrorToken | EndOfStringToken | ClosedParToken | CommaToken | DoesNotExistToken | DoubleEqualsToken
  | EqualsToken | GreaterThanToken | IdentifierToken | InToken | LessThanToken | NotEqualsToken
  | NotInToken | OpenParToken.

#[global] Instance Token_eq_dec : EqDecision Token.
Proof. solve_decision. Defined.

Definition string2token (s : string) : option Token :=
  if bool_decide (s = ")") then Some ClosedParToken
  else if bool_decide (s = ",") then Some CommaToken
  else if bool_decide (s = "!") then Some DoesNotExistToken
  else if bool_decide (s = "==") then Some DoubleEqualsToken
  else if bool_decide (s = "=") then Some EqualsToken
  else if bool_decide (s = ">") then Some GreaterThanToken
  else if bool_decide (s = "in") then Some InToken
  else if bool_decide (s = "<") then Some LessThanToken
  else if bool_decide (s = "!=") then Some NotEqualsToken
  else if bool_decide (s = "notin") then Some NotInToken
  else if bool_decide (s = "(") then Some OpenParToken
  else None.

Definition ScannedItem : Type := Token * string.

Definition isWhitespace (ch : ascii) : bool :=
  char " " ch || char "009" ch || char "013" ch || char "010" ch.

Definition isSpecialSymbol (ch : ascii) : bool :=
  char "=" ch || char "!" ch || char "(" ch || char ")" ch || char "," ch || char ">" ch || char "<" ch.

(** The position of the lexer is the rest of the string. Reading past the end gives
    the byte zero, which ends what is being read also where it occurs in the string. *)
Fixpoint identifier_loop (s : string) : string * string :=
  match s with
  | "" => ("", "")
  | String ch s' =>
      if char "000" ch then ("", s')
      else if isSpecialSymbol ch || isWhitespace ch then ("", s)
      else let '(buffer, rest) := identifier_loop s' in (String ch buffer, rest)
  end.

Definition scanIDOrKeyword (s : string) : ScannedItem * string :=
  let '(buffer, rest) := identifier_loop s in
  match string2token buffer with
  | Some tok => ((tok, buffer), rest)
  | None => ((IdentifierToken, buffer), rest)
  end.

(** The last token recognised, what was read, and the rest. *)
Fixpoint symbol_loop (s buffer : string) (last : option ScannedItem) : option ScannedItem * string * string :=
  match s with
  | "" => (last, buffer, "")
  | String ch s' =>
      if char "000" ch then (last, buffer, s')
      else if isSpecialSymbol ch then
        let buffer := buffer +:+ String ch "" in
        match string2token buffer with
        | Some tok => symbol_loop s' buffer (Some (tok, buffer))
        | None =>
            match last with
            | Some _ => (last, buffer, s)
            | None => symbol_loop s' buffer None
            end
        end
      else (last, buffer, s)
  end.

Definition scanSpecialSymbol (s : string) : ScannedItem * string :=
  let '(last, buffer, rest) := symbol_loop s "" None in
  match last with
  | None => ((ErrorToken, buffer), rest)
  | Some item => (item, rest)
  end.

Fixpoint skipWhiteSpaces (s : string) : string :=
  match s with
  | "" => ""
  | String ch s' => if isWhitespace ch then skipWhiteSpaces s' else s
  end.

Definition Lex (s : string) : ScannedItem * string :=
  match skipWhiteSpaces s with
  | "" => ((EndOfStringToken, ""), "")
  | String ch s' =>
      if char "000" ch then ((EndOfStringToken, ""), s')
      else if isSpecialSymbol ch then scanSpecialSymbol (String ch s')
      else scanIDOrKeyword (String ch s')
  end.

(** [Parser.scan]: every turn reads a character, or ends. *)
Fixpoint scan_loop (fuel : nat) (s : string) : option (list ScannedItem) :=
  match fuel with
  | O => None
  | S fuel =>
      let '(item, rest) := Lex s in
      if bool_decide (item.1 = EndOfStringToken) then Some [item]
      else cons item <$> scan_loop fuel rest
  end.

Definition scan (s : string) : option (list ScannedItem) := scan_loop (S (String.length s)) s.

(** ** The parser *)

(** A parser gives a value and the items that are left, or fails. Reading past the
    last item panics. *)
Definition P (A : Type) : Type := list ScannedItem → result SelError (A * list ScannedItem).

#[global] Instance P_ret : MRet P := λ A x items, Ok (x, items).
#[global] Instance P_bind : MBind P := λ A B f m items,
  match m items with Err e => Err e | Ok (x, rest) => f x rest end.

Definition fail {A} (e : SelError) : P A := λ _, Err e.

(** [ParserContext] *)
Inductive ParserContext : Type := KeyAndOperator | ValuesContext.

(** Among values [in] and [notin] are identifiers. *)
Definition in_context (context : ParserContext) (item : ScannedItem) : ScannedItem :=
  match context, item.1 with
  | ValuesContext, (InToken | NotInToken) => (IdentifierToken, item.2)
  | _, _ => item
  end.

Definition lookahead (context : ParserContext) : P ScannedItem := λ items,
  match items with
  | [] => Err ErrPanic
  | item :: _ => Ok (in_context context item, items)
  end.

Definition consume (context : ParserContext) : P ScannedItem := λ items,
  match items with
  | [] => Err ErrPanic
  | item :: rest => Ok (in_context context item, rest)
  end.

Definition lift {A} (r : result SelError A) : P A := λ items,
  match r with Err e => Err e | Ok x => Ok (x, items) end.

Definition parseKeyAndInferOperator : P (string * option Operator) :=
  '(tok, literal) ← consume ValuesContext;
  '(op, tok, literal) ← (if bool_decide (tok = DoesNotExistToken) then
      '(tok, literal) ← consume ValuesContext; mret (Some DoesNotExist, tok, literal)
    else mret (None, tok, literal));
  if negb (bool_decide (tok = IdentifierToken)) then fail (ErrFound literal)
  else
    _ ← lift (validateLabelKey literal);
    '(t, _) ← lookahead ValuesContext;
    if bool_decide (t = EndOfStringToken) || bool_decide (t = CommaToken) then
      mret (literal, match op with None => Some Exists | Some _ => op end)
    else mret (literal, op).

Definition parseOperator : P Operator :=
  '(tok, lit) ← consume KeyAndOperator;
  match tok with
  | InToken => mret In
  | EqualsToken => mret Equals
  | DoubleEqualsToken => mret DoubleEquals
  | GreaterThanToken => mret GreaterThan
  | LessThanToken => mret LessThan
  | NotInToken => mret NotIn
  | NotEqualsToken => mret NotEquals
  | _ => fail (ErrFound lit)
  end.

Fixpoint parseIdentifiersList (s : gset string) (items : list ScannedItem) :
    result SelError (gset string * list ScannedItem) :=
  match items with
  | [] => Err ErrPanic
  | item :: items' =>
      let '(tok, lit) := in_context ValuesContext item in
      match tok with
      | IdentifierToken =>
          let s := {[lit]} ∪ s in
          match items' with
          | [] => Err ErrPanic
          | item2 :: _ =>
              match (in_context ValuesContext item2).1 with
              | CommaToken => parseIdentifiersList s items'
              | ClosedParToken => Ok (s, items')
              | _ => Err (ErrFound item2.2)
              end
          end
      | CommaToken =>
          let s := if (size s =? 0)%nat then {[""]} ∪ s else s in
          match items' with
          | [] => Err ErrPanic
          | item2 :: items'' =>
              match (in_context ValuesContext item2).1 with
              | ClosedParToken => Ok ({[""]} ∪ s, items')
              | CommaToken => parseIdentifiersList ({[""]} ∪ s) items''
              | _ => parseIdentifiersList s items'
              end
          end
      | _ => Err (ErrFound lit)
      end
  end.

Definition parseValues : P (gset string) :=
  '(tok, lit) ← consume ValuesContext;
  if negb (bool_decide (tok = OpenParToken)) then fail (ErrFound lit)
  else
    '(tok, lit) ← lookahead ValuesContext;
    match tok with
    | IdentifierToken | CommaToken =>
        s ← parseIdentifiersList ∅;
        '(tok, _) ← consume ValuesContext;
        if negb (bool_decide (tok = ClosedParToken)) then fail (ErrFound lit) else mret s
    | ClosedParToken => _ ← consume ValuesContext; mret {[""]}
    | _ => fail (ErrFound lit)
    end.

Definition parseExactValue : P (gset string) :=
  '(tok, lit) ← lookahead ValuesContext;
  if bool_decide (tok = EndOfStringToken) || bool_decide (tok = CommaToken) then mret {[""]}
  else
    '(tok, lit) ← consume ValuesContext;
    if bool_decide (tok = IdentifierToken) then mret {[lit]} else fail (ErrFound lit).

Definition parseRequirement : P Requirement :=
  '(k, op) ← parseKeyAndInferOperator;
  match op with
  | Some op => lift (NewRequirement k op [])
  | None =>
      op ← parseOperator;
      vals ← match op with In | NotIn => parseValues | _ => parseExactValue end;
      lift (NewRequirement k op (List vals))
  end.

Fixpoint parse_loop (fuel : nat) (reqs : list Requirement) : P (list Requirement) := λ items,
  match fuel with
  | O => Err ErrFuel
  | S fuel =>
      ('(tok, lit) ← lookahead ValuesContext;
       match tok with
       | IdentifierToken | DoesNotExistToken =>
           r ← parseRequirement;
           '(t, l) ← consume ValuesContext;
           match t with
           | EndOfStringToken => mret (reqs ++ [r])
           | CommaToken =>
               '(t2, l2) ← lookahead ValuesContext;
               if negb (bool_decide (t2 = IdentifierToken)) && negb (bool_decide (t2 = DoesNotExistToken))
               then fail (ErrFound l2)
               else parse_loop fuel (reqs ++ [r])
           | _ => fail (ErrFound l)
           end
       | EndOfStringToken => mret reqs
       | _ => fail (ErrFound lit)
       end) items
  end.

Definition Parser_parse (s : string) : result SelError (list Requirement) :=
  match scan s with
  | None => Err ErrFuel
  | Some items =>
      match parse_loop (length items) [] items with Err e => Err e | Ok (reqs, _) => Ok reqs end
  end.

Definition parse `{SortByKey} (s : string) : result SelError (list Requirement) :=
  match Parser_parse s with Err e => Err e | Ok items => Ok (sort_ByKey items) end.

Definition Parse `{SortByKey} (s : string) : result SelError Selector :=
  match parse s with Err e => Err e | Ok reqs => Ok (internalSelector reqs) end.

Definition ParseToRequirements `{SortByKey} (s : string) : result SelError (list Requirement) := parse s.

(** ** Sets of labels and the API type *)

(** The loop over the labels of [SelectorFromSet]; an invalid one ends it. *)
Fixpoint requirements_of (l : list (string * string)) : option (list Requirement) :=
  match l with
  | [] => Some []
  | (label, value) :: l =>
      match NewRequirement label Equals [value] with
      | Err _ => None
      | Ok r => cons r <$> requirements_of l
      end
  end.

Definition SelectorFromSet `{SortByKey} (ls : Labels) : Selector :=
  match requirements_of (map_to_list ls) with
  | None => internalSelector []
  | Some reqs => internalSelector (sort_ByKey reqs)
  end.

Definition SelectorFromValidatedSet `{SortByKey} (ls : Labels) : Selector :=
  internalSelector (sort_ByKey (map (λ '(label, value), mkRequirement label Equals [value]) (map_to_list ls))).

Definition Set_String (ls : Labels) : string :=
  Join (merge_sort String.le (map (λ '(k, v), k +:+ "=" +:+ v) (map_to_list ls))) ",".

Definition Conflicts (labels1 labels2 : Labels) : bool :=
  let '(small, big) := if (size labels2 <? size labels1)%nat then (labels2, labels1) else (labels1, labels2) in
  existsb (λ '(k, v), match big !! k with Some val => negb (bool_decide (val = v)) | None => false end)
    (map_to_list small).

Definition Merge (labels1 labels2 : Labels) : Labels :=
  map_fold (λ k v m, <[k := v]> m) (map_fold (λ k v m, <[k := v]> m) ∅ labels1) labels2.

Definition Set_Equals (labels1 labels2 : Labels) : bool :=
  (size labels1 =? size labels2)%nat &&
  forallb (λ '(k, v), bool_decide (labels2 !! k = Some v)) (map_to_list labels1).

Definition AreLabelsInWhiteList (labels whitelist : Labels) : bool :=
  if (size whitelist =? 0)%nat then true
  else forallb (λ '(k, v), bool_decide (whitelist !! k = Some v)) (map_to_list labels).

(** [LabelSelectorRequirement] and [LabelSelector]. *)
Inductive LabelSelectorOperator : Type :=
  | LabelSelectorOpIn | LabelSelectorOpNotIn | LabelSelectorOpExists | LabelSelectorOpDoesNotExist
  | LabelSelectorOpOther (s : string).

Record LabelSelectorRequirement : Type := mkLabelSelectorRequirement {
  Key : string;
  OperatorOf : LabelSelectorOperator;
  ValuesOf : list string;
}.

Record LabelSelector : Type := mkLabelSelector {
  MatchLabels : Labels;
  MatchExpressions : list LabelSelectorRequirement;
}.

Definition convert_operator (op : LabelSelectorOperator) : result SelError Operator :=
  match op with
  | LabelSelectorOpIn => Ok In
  | LabelSelectorOpNotIn => Ok NotIn
  | LabelSelectorOpExists => Ok Exists
  | LabelSelectorOpDoesNotExist => Ok DoesNotExist
  | LabelSelectorOpOther s => Err (ErrOperator (OtherOperator s))
  end.

Fixpoint add_labels `{SortByKey} (l : list (string * string)) (selector : Selector) : result SelError Selector :=
  match l with
  | [] => Ok selector
  | (k, v) :: l =>
      match NewRequirement k Equals [v] with
      | Err e => Err e
      | Ok r => add_labels l (Add selector [r])
      end
  end.

Fixpoint add_expressions `{SortByKey} (l : list LabelSelectorRequirement) (selector : Selector) :
    result SelError Selector :=
  match l with
  | [] => Ok selector
  | expr :: l =>
      match convert_operator (OperatorOf expr) with
      | Err e => Err e
      | Ok op =>
          match NewRequirement (Key expr) op (ValuesOf expr) with
          | Err e => Err e
          | Ok r => add_expressions l (Add selector [r])
          end
      end
  end.

Definition LabelSelectorAsSelector `{SortByKey} (ps : option LabelSelector) : result SelError Selector :=
  match ps with
  | None => Ok Nothing
  | Some ps =>
      if (size (MatchLabels ps) + length (MatchExpressions ps) =? 0)%nat then Ok Everything
      else
        match add_labels (map_to_list (MatchLabels ps)) (internalSelector []) with
        | Err e => Err e
        | Ok selector => add_expressions (MatchExpressions ps) selector
        end
  end.

(** The loop of [ParseToLabelSelector]. *)
Fixpoint to_label_selector (reqs : list Requirement) (ls : LabelSelector) : result SelError LabelSelector :=
  match reqs with
  | [] => Ok ls
  | req :: reqs =>
      let add op := to_label_selector reqs (mkLabelSelector (MatchLabels ls)
        (MatchExpressions ls ++ [mkLabelSelectorRequirement (key req) op (List (Values req))])) in
      match operator req with
      | Equals | DoubleEquals =>
          match elements (Values req) with
          | [val] =>
              to_label_selector reqs (mkLabelSelector (<[key req := val]> (MatchLabels ls)) (MatchExpressions ls))
          | _ => Err (ErrValues (operator req))
          end
      | In => add LabelSelectorOpIn
      | NotIn => add LabelSelectorOpNotIn
      | Exists => add LabelSelectorOpExists
      | DoesNotExist => add LabelSelectorOpDoesNotExist
      | op => Err (ErrOperator op)
      end
  end.

Definition ParseToLabelSelector `{SortByKey} (s : string) : result SelError LabelSelector :=
  match ParseToRequirements s with
  | Err e => Err e
  | Ok reqs => to_label_selector reqs (mkLabelSelector ∅ [])
  end.

(** A sort that is one. *)
#[export] Instance merge_sort_by_key : SortByKey.
Proof.
  refine {| sort_ByKey := merge_sort (λ a b, String.le (key a) (key b)) |}.
  - intros l. apply merge_sort_Permutation.
  - intros l. apply Sorted_merge_sort. intros a b. apply (total String.le).
Defined.

Example parse1 : Parse "x in (foo,,baz),y,z notin (),w!=a , !v" = Ok (internalSelector
  [mkRequirement "v" DoesNotExist []; mkRequirement "w" NotEquals ["a"]; mkRequirement "x" In ["";"baz"; "foo"];
   mkRequirement "y" Exists []; mkRequirement "z" NotIn [""]]).
Proof. vm_compute. reflexivity. Qed.

(** ** Scanning ends *)

Lemma string2token_not_end s tok : string2token s = Some tok → tok ≠ EndOfStringToken.
Proof. unfold string2token. intros H. repeat case_bool_decide; simplify_eq; done. Qed.

Lemma identifier_loop_length s : (String.length (identifier_loop s).2 ≤ String.length s)%nat.
Proof.
  induction s as [|ch s IH]; simpl; [done|]. destruct (char "000" ch); [simpl; lia|].
  destruct (isSpecialSymbol ch || isWhitespace ch); [done|]. destruct (identifier_loop s). simpl in *. lia.
Qed.

Lemma symbol_loop_spec s buffer last :
  let '(last', _, rest) := symbol_loop s buffer last in
  (String.length rest ≤ String.length s)%nat ∧
  (∀ item, last = Some item → item.1 ≠ EndOfStringToken → ∃ item', last' = Some item' ∧ item'.1 ≠ EndOfStringToken).
Proof.
  revert buffer last. induction s as [|ch s IH]; intros buffer last; cbn [symbol_loop]; [split; [done|eauto]|].
  destruct (char "000" ch); [split; [simpl; lia|eauto]|].
  destruct (isSpecialSymbol ch); [|split; [done|eauto]].
  destruct (string2token (buffer +:+ String ch "")) as [tok|] eqn:E.
  - apply string2token_not_end in E.
    specialize (IH (buffer +:+ String ch "") (Some (tok, buffer +:+ String ch ""))).
    destruct (symbol_loop s _ _) as [[last' b] rest]. destruct IH as [IH1 IH2].
    split; [simpl; lia|]. intros _ _ _. by eapply IH2.
  - destruct last as [item|]; [split; [done|eauto]|]. specialize (IH (buffer +:+ String ch "") None).
    destruct (symbol_loop s _ _) as [[last' b] rest]. destruct IH as [IH1 IH2]. split; [simpl; lia|done].
Qed.

Lemma special_token ch : isSpecialSymbol ch = true → is_Some (string2token (String ch "")).
Proof.
  unfold isSpecialSymbol, char. intros H. repeat (apply orb_prop in H as [H|H]);
    apply bool_decide_eq_true in H as <-; vm_compute; eauto.
Qed.

Lemma skip_length s : (String.length (skipWhiteSpaces s) ≤ String.length s)%nat.
Proof. induction s as [|ch s IH]; simpl; [done|]. destruct (isWhitespace ch); simpl; lia. Qed.

(** A token is the end, or takes at least a character. *)
Lemma Lex_progress s :
  (Lex s).1 = (EndOfStringToken, "") ∨
  (Lex s).1.1 ≠ EndOfStringToken ∧ (String.length (Lex s).2 < String.length s)%nat.
Proof.
  unfold Lex. pose proof (skip_length s) as Hs. destruct (skipWhiteSpaces s) as [|ch s'] eqn:E; [by left|].
  assert (isWhitespace ch = false) as Hws.
  { clear Hs. revert E. induction s as [|c s IH]; simpl; [done|]. destruct (isWhitespace c) eqn:Ec; [done|].
    by intros [= <- <-]. }
  destruct (char "000" ch) eqn:E0; [by left|]. right. destruct (isSpecialSymbol ch) eqn:Esp.
  - destruct (special_token ch Esp) as [tok Ht]. unfold scanSpecialSymbol. cbn [symbol_loop].
    rewrite E0, Esp. cbn [String.append]. rewrite Ht.
    pose proof (symbol_loop_spec s' (String ch "") (Some (tok, String ch ""))) as Hl.
    destruct (symbol_loop s' _ _) as [[last b] rest]. destruct Hl as [Hl1 Hl2].
    destruct (Hl2 _ eq_refl) as ([tok' lit'] & -> & Hne); [by eapply string2token_not_end|].
    split; [done|]. simpl in *. lia.
  - unfold scanIDOrKeyword. cbn [identifier_loop]. rewrite E0, Esp, Hws. simpl.
    pose proof (identifier_loop_length s') as Hl. destruct (identifier_loop s') as [b rest]. simpl in *.
    destruct (string2token (String ch b)) as [tok|] eqn:Et; simpl; (split; [|lia]); [|done].
    by eapply string2token_not_end.
Qed.

(** What scanning gives. *)
Inductive scans : string → list ScannedItem → Prop :=
  | scans_end s rest : Lex s = ((EndOfStringToken, ""), rest) → scans s [(EndOfStringToken, "")]
  | scans_token s item rest items :
      Lex s = (item, rest) → item.1 ≠ EndOfStringToken → scans rest items → scans s (item :: items).

Lemma scan_loop_spec fuel s : (String.length s < fuel)%nat → ∃ items, scan_loop fuel s = Some items ∧ scans s items.
Proof.
  revert s. induction fuel as [|fuel IH]; intros s Hf; [lia|]. cbn [scan_loop].
  pose proof (Lex_progress s) as Hp. destruct (Lex s) as [item rest] eqn:E. simpl in Hp.
  destruct Hp as [->|[Hne Hlen]].
  - exists [(EndOfStringToken, "")]. split; [done|]. by econstructor.
  - rewrite bool_decide_false by done. destruct (IH rest) as (items & -> & Hi); [lia|].
    exists (item :: items). split; [done|]. by econstructor.
Qed.

Lemma scans_det s items items' : scans s items → scans s items' → items = items'.
Proof.
  intros H. revert items'. induction H as [s rest E|s item rest items E Hne H IH]; intros items' H'.
  - destruct H' as [|s item' rest' items' E' Hne' H']; [done|]. rewrite E in E'. injection E' as <- _. done.
  - destruct H' as [s rest' E'|s item' rest' items' E' Hne' H']; rewrite E in E'.
    + injection E' as -> _. done.
    + injection E' as -> ->. f_equal. by apply IH.
Qed.

Lemma scan_scans s items : scan s = Some items ↔ scans s items.
Proof.
  destruct (scan_loop_spec (S (String.length s)) s) as (items' & E & H); [lia|]. unfold scan. rewrite E. split.
  - by intros [= <-].
  - intros H'. f_equal. by eapply scans_det.
Qed.

(** Only the last item is the end. *)
Definition well (items : list ScannedItem) : Prop :=
  ∃ pre, items = pre ++ [(EndOfStringToken, "")] ∧ Forall (λ i, i.1 ≠ EndOfStringToken) pre.

Lemma scans_well s items : scans s items → well items.
Proof.
  induction 1 as [|s item rest items E Hne H (pre & -> & Hp)]; [by exists []|].
  exists (item :: pre). split; [done|]. by constructor.
Qed.

(** ** Parsing is total *)

(** A result that is a value with a property, or an error of the input. *)
Definition safe {A} (Q : A → list ScannedItem → Prop) (r : result SelError (A * list ScannedItem)) : Prop :=
  match r with
  | Err e => e ≠ ErrPanic ∧ e ≠ ErrFuel
  | Ok (x, rest) => Q x rest
  end.

Lemma safe_bind {A B} (R : A → list ScannedItem → Prop) (Q : B → list ScannedItem → Prop)
    (m : P A) (f : A → P B) items :
  safe R (m items) → (∀ x rest, R x rest → safe Q (f x rest)) → safe Q ((m ≫= f) items).
Proof. unfold mbind, P_bind. destruct (m items) as [[x rest]|e]; simpl; auto. Qed.

Lemma safe_impl {A} (R Q : A → list ScannedItem → Prop) r :
  safe R r → (∀ x rest, R x rest → Q x rest) → safe Q r.
Proof. destruct r as [[x rest]|e]; simpl; auto. Qed.

Lemma in_context_end c item : (in_context c item).1 = EndOfStringToken ↔ item.1 = EndOfStringToken.
Proof. destruct c, item as [[] ?]; simpl; done. Qed.

Lemma well_cons item items : well (item :: items) → item.1 ≠ EndOfStringToken → well items.
Proof.
  intros ([|p pre] & E & Hp) Hne; [by simplify_eq/=|]. injection E as -> ->. apply Forall_cons in Hp as [_ Hp]. by exists pre.
Qed.

Lemma well_not_nil : ¬ well [].
Proof. intros ([|p pre] & E & _); done. Qed.

Definition shorter {A} (items : list ScannedItem) (_ : A) (rest : list ScannedItem) : Prop :=
  well rest ∧ (length rest < length items)%nat.

Lemma consume_safe c items :
  well items → safe (λ item rest, item.1 ≠ EndOfStringToken → shorter items item rest) (consume c items).
Proof.
  intros Hw. destruct items as [|item items]; [by apply well_not_nil in Hw|]. simpl. rewrite in_context_end.
  intros Hne. split; [by eapply well_cons|simpl; lia].
Qed.

Lemma lookahead_safe c items :
  well items → safe (λ item rest, rest = items ∧ (item.1 ≠ EndOfStringToken → well (tail items))) (lookahead c items).
Proof.
  intros Hw. destruct items; [by apply well_not_nil in Hw|]. simpl. rewrite in_context_end.
  split; [done|]. by apply well_cons.
Qed.

Lemma lift_safe {A} (r : result SelError A) items :
  (∀ e, r = Err e → e ≠ ErrPanic ∧ e ≠ ErrFuel) → safe (λ _ rest, rest = items) (lift r items).
Proof. intros H. unfold lift. destruct r; simpl; auto. Qed.

Lemma validateLabelKey_err k e : validateLabelKey k = Err e → e ≠ ErrPanic ∧ e ≠ ErrFuel.
Proof. unfold validateLabelKey. destruct (IsQualifiedName k); [done|]. by intros [= <-]. Qed.

Lemma NewRequirement_err k op vals e : NewRequirement k op vals = Err e → e ≠ ErrPanic ∧ e ≠ ErrFuel.
Proof.
  unfold NewRequirement. destruct (validateLabelKey k) eqn:E; [|intros [= <-]; by eapply validateLabelKey_err].
  destruct (values_ok op vals) as [|e'] eqn:E2.
  2:{ intros [= <-]. unfold values_ok in E2. repeat case_match; simplify_eq; done. }
  destruct (validate_values vals) as [|e'] eqn:E3; [done|]. intros [= <-]. clear -E3.
  induction vals as [|v vals IH]; simpl in E3; [done|]. unfold validateLabelValue in E3.
  destruct (IsValidLabelValue v); [by apply IH|]. by simplify_eq.
Qed.

Lemma shorter_trans {A B} items (x : A) (y : B) rest rest' :
  shorter items x rest → shorter rest y rest' → shorter items y rest'.
Proof. intros [H1 H2] [H3 H4]. split; [done|lia]. Qed.

Ltac tok_case := case_bool_decide; simpl in *; try (split; discriminate).

Lemma parseKeyAndInferOperator_safe items : well items → safe (shorter items) (parseKeyAndInferOperator items).
Proof.
  intros Hw. unfold parseKeyAndInferOperator. eapply safe_bind; [by apply consume_safe|]. intros [tok lit] rest Hr.
  eapply (safe_bind (λ x rest, x.1.2 ≠ EndOfStringToken → shorter items x rest)).
  - tok_case; [|done]. subst tok. destruct Hr as [Hw' Hl]; [done|].
    eapply safe_bind; [by apply consume_safe|]. intros [tok' lit'] rest' Hr'. simpl. intros Hne.
    destruct (Hr' Hne). split; [done|lia].
  - intros [[op tok'] lit'] rest' Hr'. tok_case. subst tok'. destruct Hr' as [Hw' Hl]; [done|].
    eapply safe_bind; [apply lift_safe, validateLabelKey_err|]. intros _ ? ->.
    eapply safe_bind; [by apply lookahead_safe|]. intros [t ?] ? [-> _].
    destruct (bool_decide (t = EndOfStringToken) || bool_decide (t = CommaToken)); by split.
Qed.

Lemma parseIdentifiersList_safe n s items :
  (length items ≤ n)%nat → well items → safe (λ _ rest, well rest ∧ (length rest ≤ length items)%nat) (parseIdentifiersList s items).
Proof.
  revert s items. induction n as [|n IH]; intros s items Hn Hw.
  { destruct items; [by apply well_not_nil in Hw|simpl in Hn; lia]. }
  destruct items as [|item items]; [by apply well_not_nil in Hw|]. cbn [parseIdentifiersList].
  destruct (in_context ValuesContext item) as [tok lit] eqn:Ei.
  assert (tok ≠ EndOfStringToken → well items) as Hw1.
  { intros Hne. eapply well_cons; [done|]. rewrite <- (in_context_end ValuesContext), Ei. done. }
  assert (∀ s, well items → safe (λ _ rest, well rest ∧ (length rest ≤ length (item :: items))%nat) (parseIdentifiersList s items)) as Hrec.
  { intros s' Hw'. eapply safe_impl; [apply IH; [simpl in Hn; lia|done]|]. simpl. intros _ rest [? ?]. split; [done|lia]. }
  destruct tok; try (split; discriminate); specialize (Hw1 ltac:(done)).
  - destruct items as [|item2 items]; [by apply well_not_nil in Hw1|].
    destruct (in_context ValuesContext item2) as [tok2 lit2] eqn:E2. simpl in Hn. simpl.
    destruct tok2; try (by apply Hrec); [split; [done|simpl; lia]|].
    eapply safe_impl; [apply IH; [lia|]|].
    + eapply well_cons; [done|]. rewrite <- (in_context_end ValuesContext), E2. done.
    + simpl. intros _ rest [? ?]. split; [done|lia].
  - destruct items as [|item2 items]; [by apply well_not_nil in Hw1|].
    destruct (in_context ValuesContext item2) as [tok2 lit2] eqn:E2. simpl.
    destruct tok2; try (split; discriminate); [split; [done|simpl; lia]|by apply Hrec].
Qed.

Lemma parseValues_safe items : well items → safe (shorter items) (parseValues items).
Proof.
  intros Hw. unfold parseValues. eapply safe_bind; [by apply consume_safe|]. intros [tok lit] rest Hr.
  tok_case. subst tok. specialize (Hr ltac:(done)) as [Hw' Hl].
  eapply safe_bind; [by apply lookahead_safe|]. intros [t l] ? [-> Ht].
  assert (safe (shorter items) ((s ← parseIdentifiersList ∅; '(tok, _) ← consume ValuesContext;
    if negb (bool_decide (tok = ClosedParToken)) then fail (ErrFound l) else mret s) rest)) as Hgo.
  { eapply safe_bind; [by apply (parseIdentifiersList_safe (length rest))|]. intros s rest' [Hw2 Hl2].
    eapply safe_bind; [by apply consume_safe|]. intros [tok ?] rest2 Hr2. tok_case. subst tok.
    specialize (Hr2 ltac:(done)) as [Hw3 Hl3]. split; [done|lia]. }
  destruct t; try (split; discriminate); [|done|done].
  destruct rest as [|item rest]; [by apply well_not_nil in Hw'|]. simpl in *. split; [by apply Ht|lia].
Qed.

Lemma parseExactValue_safe items :
  well items → safe (λ _ rest, well rest ∧ (length rest ≤ length items)%nat) (parseExactValue items).
Proof.
  intros Hw. unfold parseExactValue. eapply safe_bind; [by apply lookahead_safe|]. intros [t l] ? [-> Ht].
  destruct (bool_decide (t = EndOfStringToken) || bool_decide (t = CommaToken)); [by split|].
  eapply safe_bind; [by apply consume_safe|]. intros [tok lit] rest Hr. tok_case.
  subst tok. destruct Hr; [done|]. split; [done|lia].
Qed.

Lemma parseOperator_safe items : well items → safe (shorter items) (parseOperator items).
Proof.
  intros Hw. unfold parseOperator. eapply safe_bind; [by apply consume_safe|]. intros [tok lit] rest Hr.
  destruct tok; try (split; discriminate); by apply Hr.
Qed.

Lemma parseRequirement_safe items : well items → safe (shorter items) (parseRequirement items).
Proof.
  intros Hw. unfold parseRequirement. eapply safe_bind; [by apply parseKeyAndInferOperator_safe|].
  intros [k [op|]] rest [Hw1 Hl1].
  { eapply safe_impl; [apply lift_safe, NewRequirement_err|]. by intros r ? ->. }
  eapply safe_bind; [by apply parseOperator_safe|]. intros op rest2 [Hw2 Hl2].
  eapply (safe_bind (λ _ rest, well rest ∧ (length rest ≤ length rest2)%nat)).
  - destruct op; try (by apply parseExactValue_safe);
      (eapply safe_impl; [by apply parseValues_safe|]; intros x rest' [? ?]; split; [done|lia]).
  - intros vals rest3 [Hw3 Hl3]. eapply safe_impl; [apply lift_safe, NewRequirement_err|].
    intros r ? ->. split; [done|lia].
Qed.

Lemma parse_loop_safe fuel reqs items :
  well items → (length items ≤ fuel)%nat → safe (λ _ _, True) (parse_loop fuel reqs items).
Proof.
  revert reqs items. induction fuel as [|fuel IH]; intros reqs items Hw Hf.
  { destruct items; [by apply well_not_nil in Hw|simpl in Hf; lia]. }
  cbn [parse_loop]. eapply safe_bind; [by apply lookahead_safe|]. intros [tok lit] ? [-> _].
  match goal with |- context [parseRequirement ≫= ?f] =>
    assert (safe (λ _ _, True) ((parseRequirement ≫= f) items)) as Hgo; [|destruct tok; try done; split; discriminate] end.
  eapply safe_bind; [by apply parseRequirement_safe|]. intros r rest [Hw1 Hl1].
  eapply safe_bind; [by apply consume_safe|]. intros [t l] rest2 Hr2.
  destruct t; try done; try (split; discriminate). destruct Hr2 as [Hw2 Hl2]; [done|].
  eapply safe_bind; [by apply lookahead_safe|]. intros [t2 l2] ? [-> _].
  destruct (negb _ && negb _); [split; discriminate|]. apply IH; [done|lia].
Qed.

(** Parsing a selector ends on every string, with a selector or with an error
    about the string: the scanner reads a character in every turn, the parser never
    looks past the last token, and the turns the model allows for are enough. *)
Theorem Parse_total `{SortByKey} (s : string) :
  Parse s ≠ Err ErrPanic ∧ Parse s ≠ Err ErrFuel.
Proof.
  unfold Parse, parse, Parser_parse.
  destruct (scan_loop_spec (S (String.length s)) s) as (items & E & Hs); [lia|]. unfold scan. rewrite E.
  pose proof (parse_loop_safe (length items) [] items (scans_well s items Hs) ltac:(done)) as Hp.
  destruct (parse_loop (length items) [] items) as [[reqs rest]|e]; [done|]. simpl in Hp. split; intros [= ->]; tauto.
Qed.
