(* ===== verification/LabelSelectorPrint.v ===== *)
(** * Printing and parsing label selectors

    The round trip of [Selector_String] and [Parse] of [LabelSelector.v], and what the
    selectors made from sets of labels and from the API type match. *)

From S2P Require Import Prelude GoStrings GoStrconv Validation LabelSelector.

(** ** Words and symbols *)

(** The characters that end no identifier. *)
Definition plain (c : ascii) : bool := negb (char "000" c) && negb (isSpecialSymbol c || isWhitespace c).

Lemma key_char_plain c : key_char c = true → plain c = true.
Proof.
  intros Hc. destruct (plain c) eqn:E; [done|]. exfalso. revert Hc. apply not_true_iff_false. revert E.
  unfold plain, isSpecialSymbol, isWhitespace, char. rewrite andb_false_iff, !negb_false_iff, !orb_true_iff, !bool_decide_eq_true.
  intros H. destruct_or!; subst c; vm_compute; reflexivity.
Qed.

Lemma name_char_plain c : name_char c = true → plain c = true.
Proof. intros Hc. apply key_char_plain. unfold key_char. by rewrite Hc. Qed.

(** What can follow an identifier. *)
Definition ends (rest : string) : Prop :=
  match rest with "" => True | String c _ => isSpecialSymbol c || isWhitespace c = true end.

Lemma ends_not_nul c : isSpecialSymbol c || isWhitespace c = true → char "000" c = false.
Proof.
  unfold char at 1. case_bool_decide; [subst c; by vm_compute|done].
Qed.

Lemma identifier_loop_word w rest :
  all_chars plain w = true → ends rest → identifier_loop (w +:+ rest) = (w, rest).
Proof.
  intros Hw He. induction w as [|c w IH]; simpl in *.
  - destruct rest as [|c rest]; simpl in *; [done|]. by rewrite ends_not_nul, He.
  - apply andb_prop in Hw as [Hc Hw]. unfold plain in Hc. apply andb_prop in Hc as [H1 H2].
    apply negb_true_iff in H1, H2. rewrite H1, H2. by rewrite IH.
Qed.

Definition word (w : string) : ScannedItem := (default IdentifierToken (string2token w), w).

Lemma Lex_word w rest : w ≠ "" → all_chars plain w = true → ends rest → Lex (w +:+ rest) = (word w, rest).
Proof.
  intros Hne Hw He. pose proof (identifier_loop_word w rest Hw He) as Hl. destruct w as [|c w]; [done|].
  simpl in Hw. apply andb_prop in Hw as [Hc _]. unfold plain in Hc. apply andb_prop in Hc as [H1 H2].
  apply negb_true_iff in H1, H2. apply orb_false_elim in H2 as [H2 H3]. unfold Lex. simpl in Hl |- *. rewrite H3, H1, H2.
  unfold scanIDOrKeyword. simpl. rewrite Hl. unfold word. by destruct (string2token (String c w)).
Qed.

Lemma word_not_end w : (word w).1 ≠ EndOfStringToken.
Proof. unfold word. destruct (string2token w) eqn:E; simpl; [by eapply string2token_not_end|done]. Qed.

Lemma word_value v : all_chars plain v = true → in_context ValuesContext (word v) = (IdentifierToken, v).
Proof.
  intros Hv. unfold word, string2token. repeat case_bool_decide; subst; try (by vm_compute in Hv); done.
Qed.

(** A symbol that the next character does not extend. *)
Definition stops (sym rest : string) : Prop :=
  match rest with
  | "" => True
  | String c _ => char "000" c = false ∧ (isSpecialSymbol c = true → string2token (sym +:+ String c "") = None)
  end.

Lemma symbol_loop_stops sym tok rest :
  stops sym rest → (symbol_loop rest sym (Some (tok, sym))).1.1 = Some (tok, sym) ∧
    (symbol_loop rest sym (Some (tok, sym))).2 = rest.
Proof.
  intros Hs. destruct rest as [|c rest]; simpl in *; [done|]. destruct Hs as [-> Hs].
  destruct (isSpecialSymbol c); [|done]. by rewrite Hs.
Qed.

Lemma Lex_symbol c tok rest :
  isSpecialSymbol c = true → string2token (String c "") = Some tok → stops (String c "") rest →
  Lex (String c rest) = ((tok, String c ""), rest).
Proof.
  intros Hc Ht Hs. assert (char "000" c = false) as H0 by (apply ends_not_nul; by rewrite Hc).
  assert (isWhitespace c = false) as Hws.
  { revert Hc. unfold isSpecialSymbol, char at 1 2 3 4 5 6 7. rewrite !orb_true_iff, !bool_decide_eq_true.
    intros H. destruct_or!; subst c; done. }
  unfold Lex. simpl. rewrite Hws, H0, Hc. unfold scanSpecialSymbol. simpl. rewrite H0, Hc. simpl. rewrite Ht.
  destruct (symbol_loop_stops (String c "") tok rest Hs) as [H1 H2].
  destruct (symbol_loop rest _ _) as [[last b] rest']. simpl in *. by subst.
Qed.

(** The symbols of two characters. *)
Lemma Lex_symbol2 c tok tok2 rest :
  isSpecialSymbol c = true → string2token (String c "") = Some tok →
  string2token (String c "=") = Some tok2 → stops (String c "=") rest →
  Lex (String c (String "=" rest)) = ((tok2, String c "="), rest).
Proof.
  intros Hc Ht Ht2 Hs. assert (char "000" c = false) as H0 by (apply ends_not_nul; by rewrite Hc).
  assert (isWhitespace c = false) as Hws.
  { revert Hc. unfold isSpecialSymbol, char at 1 2 3 4 5 6 7. rewrite !orb_true_iff, !bool_decide_eq_true.
    intros H. destruct_or!; subst c; done. }
  unfold Lex. simpl. rewrite Hws, H0, Hc. unfold scanSpecialSymbol. simpl. rewrite H0, Hc. simpl. rewrite Ht. simpl.
  rewrite Ht2. destruct (symbol_loop_stops (String c "=") tok2 rest Hs) as [H1 H2].
  destruct (symbol_loop rest _ _) as [[last b] rest']. simpl in *. by subst.
Qed.

Lemma Lex_space s : Lex (String " " s) = Lex s.
Proof. done. Qed.

(** What starts a string: an identifier, a symbol, or nothing. *)
Definition starts (rest : string) : Prop :=
  match rest with "" => True | String c _ => char "000" c = false end.

Lemma stops_any sym rest :
  (∀ c, string2token (sym +:+ String c "") = None) → starts rest → stops sym rest.
Proof. intros H Hs. destruct rest; simpl in *; auto. Qed.

Ltac no_token := intros c; unfold string2token; repeat (rewrite bool_decide_false by congruence); done.

Lemma no_ext_comma c : string2token ("," +:+ String c "") = None.
Proof. revert c. no_token. Qed.
Lemma no_ext_open c : string2token ("(" +:+ String c "") = None.
Proof. revert c. no_token. Qed.
Lemma no_ext_closed c : string2token (")" +:+ String c "") = None.
Proof. revert c. no_token. Qed.
Lemma no_ext_gt c : string2token (">" +:+ String c "") = None.
Proof. revert c. no_token. Qed.
Lemma no_ext_lt c : string2token ("<" +:+ String c "") = None.
Proof. revert c. no_token. Qed.
Lemma no_ext_eq2 c : string2token ("==" +:+ String c "") = None.
Proof. revert c. no_token. Qed.
Lemma no_ext_ne c : string2token ("!=" +:+ String c "") = None.
Proof. revert c. no_token. Qed.

(** ** The tokens of a printed selector *)

(** What follows a requirement. *)
Definition follows (rest : string) : Prop := rest = "" ∨ ∃ t, rest = String "," t.

Lemma follows_ends rest : follows rest → ends rest.
Proof. intros [->|[t ->]]; done. Qed.

Lemma ends_starts rest : ends rest → starts rest.
Proof. destruct rest; simpl; [done|]. apply ends_not_nul. Qed.

Lemma plain_starts v rest : all_chars plain v = true → starts rest → starts (v +:+ rest).
Proof.
  intros Hv Hr. destruct v as [|c v]; [done|]. simpl in *. apply andb_prop in Hv as [Hc _].
  unfold plain in Hc. apply andb_prop in Hc as [Hc _]. by apply negb_true_iff in Hc.
Qed.

(** The first character of a value is no symbol; after an empty one comes a comma. *)
Lemma stops_value sym v rest :
  string2token (sym +:+ ",") = None → all_chars plain v = true → follows rest → stops sym (v +:+ rest).
Proof.
  intros Hs Hv Hf. destruct v as [|c v]; simpl in *.
  - destruct Hf as [->|[t ->]]; simpl; done.
  - apply andb_prop in Hv as [Hc _]. unfold plain in Hc. apply andb_prop in Hc as [H1 H2].
    apply negb_true_iff in H1, H2. apply orb_false_elim in H2 as [H2 _]. by rewrite H2.
Qed.

Lemma scans_word w rest items :
  w ≠ "" → all_chars plain w = true → ends rest → scans rest items → scans (w +:+ rest) (word w :: items).
Proof. intros H1 H2 H3 Hs. econstructor; [by apply Lex_word|apply word_not_end|done]. Qed.

Lemma scans_symbol c tok rest items :
  isSpecialSymbol c = true → string2token (String c "") = Some tok → stops (String c "") rest →
  scans rest items → scans (String c rest) ((tok, String c "") :: items).
Proof.
  intros H1 H2 H3 Hs. econstructor; [by apply Lex_symbol|by eapply string2token_not_end|done].
Qed.

Lemma scans_symbol2 c tok tok2 rest items :
  isSpecialSymbol c = true → string2token (String c "") = Some tok →
  string2token (String c "=") = Some tok2 → stops (String c "=") rest →
  scans rest items → scans (String c (String "=" rest)) ((tok2, String c "=") :: items).
Proof.
  intros H1 H2 H3 H4 Hs. econstructor; [by eapply Lex_symbol2|by eapply string2token_not_end|done].
Qed.

Lemma scans_space s items : scans s items → scans (String " " s) items.
Proof. intros H. destruct H; econstructor; try done; by rewrite Lex_space. Qed.

(** An empty value leaves no token. *)
Definition value_items (v : string) : list ScannedItem := if bool_decide (v = "") then [] else [word v].

Definition comma : ScannedItem := (CommaToken, ",").

Fixpoint values_items (vs : list string) : list ScannedItem :=
  match vs with
  | [] => []
  | [v] => value_items v
  | v :: vs => value_items v ++ comma :: values_items vs
  end.

Lemma scans_value v rest items :
  all_chars plain v = true → ends rest → scans rest items → scans (v +:+ rest) (value_items v ++ items).
Proof.
  intros Hv He Hs. unfold value_items. case_bool_decide; [by subst|]. by apply scans_word.
Qed.

Lemma scans_comma rest items : starts rest → scans rest items → scans (String "," rest) (comma :: items).
Proof. intros Hr. apply scans_symbol; [done|done|]. apply stops_any; [apply no_ext_comma|done]. Qed.

Lemma values_starts vs rest :
  Forall (λ v, all_chars plain v = true) vs → starts rest → starts (Join vs "," +:+ rest).
Proof.
  intros Hvs Hr. destruct Hvs as [|v vs Hv Hvs]; [done|]. destruct vs as [|v' vs]; [by apply plain_starts|].
  change (Join (v :: v' :: vs) ",") with (v +:+ "," +:+ Join (v' :: vs) ","). rewrite !string_app_assoc.
  by apply plain_starts.
Qed.

Lemma scans_values vs rest items :
  Forall (λ v, all_chars plain v = true) vs → ends rest → scans rest items →
  scans (Join vs "," +:+ rest) (values_items vs ++ items).
Proof.
  intros Hvs He Hs. induction Hvs as [|v vs Hv Hvs IH]; [done|].
  destruct vs as [|v' vs]; [by apply scans_value|].
  change (Join (v :: v' :: vs) ",") with (v +:+ "," +:+ Join (v' :: vs) ",").
  change (values_items (v :: v' :: vs)) with (value_items v ++ comma :: values_items (v' :: vs)).
  rewrite !string_app_assoc, <- app_assoc. apply scans_value; [done|done|].
  apply (scans_comma (Join (v' :: vs) "," +:+ rest)); [|done]. apply values_starts; [done|by apply ends_starts].
Qed.

Definition operator_items (op : Operator) : list ScannedItem :=
  match op with
  | Equals => [(EqualsToken, "=")]
  | DoubleEquals => [(DoubleEqualsToken, "==")]
  | NotEquals => [(NotEqualsToken, "!=")]
  | In => [(InToken, "in"); (OpenParToken, "(")]
  | NotIn => [(NotInToken, "notin"); (OpenParToken, "(")]
  | GreaterThan => [(GreaterThanToken, ">")]
  | LessThan => [(LessThanToken, "<")]
  | Exists | DoesNotExist | OtherOperator _ => []
  end.

Definition requirement_items (r : Requirement) : list ScannedItem :=
  match operator r with
  | Exists | OtherOperator _ => [word (key r)]
  | DoesNotExist => [(DoesNotExistToken, "!"); word (key r)]
  | In | NotIn =>
      word (key r) :: operator_items (operator r) ++ values_items (safeSort (strValues r)) ++ [(ClosedParToken, ")")]
  | op => word (key r) :: operator_items op ++ value_items (default "" (head (strValues r)))
  end.

(** A requirement that the constructor accepts, with values that are a set. *)
Definition proper (r : Requirement) : Prop :=
  NewRequirement (key r) (operator r) (strValues r) = Ok r ∧ NoDup (strValues r).

Lemma validate_values_ok vals : validate_values vals = Ok () → Forall (λ v, all_chars plain v = true) vals.
Proof.
  induction vals as [|v vals IH]; simpl; [by constructor|]. unfold validateLabelValue.
  destruct (IsValidLabelValue v) eqn:E; [|done]. intros H. constructor; [|auto].
  eapply all_chars_impl; [apply name_char_plain|by apply labelValue_chars].
Qed.

Lemma proper_facts r :
  proper r → key r ≠ "" ∧ all_chars plain (key r) = true ∧
    Forall (λ v, all_chars plain v = true) (strValues r) ∧
    validateLabelKey (key r) = Ok () ∧ values_ok (operator r) (strValues r) = Ok () ∧
    validate_values (strValues r) = Ok ().
Proof.
  intros [H _]. unfold NewRequirement in H. destruct (validateLabelKey (key r)) as [[]|] eqn:E1; [|done].
  destruct (values_ok (operator r) (strValues r)) as [[]|] eqn:E2; [|done].
  destruct (validate_values (strValues r)) as [[]|] eqn:E3; [|done].
  unfold validateLabelKey in E1. destruct (IsQualifiedName (key r)) eqn:Ek; [|done].
  destruct (qualified_chars _ Ek) as [Hc Hne]. split_and!; try done.
  - eapply all_chars_impl; [apply key_char_plain|done].
  - by apply validate_values_ok.
Qed.

Lemma safeSort_perm l : safeSort l ≡ₚ l.
Proof. apply merge_sort_Permutation. Qed.

Lemma safeSort_nil : safeSort [] = [].
Proof. done. Qed.

Lemma safeSort_single v : safeSort [v] = [v].
Proof. apply Permutation_singleton_r, safeSort_perm. Qed.

(** Every operator with values prints them sorted. *)
Lemma Requirement_String_values r rest :
  match operator r with Exists | DoesNotExist => False | _ => True end →
  Requirement_String r +:+ rest =
    key r +:+ operator_String (operator r) +:+
      match operator r with
      | In | NotIn => "(" +:+ Join (safeSort (strValues r)) "," +:+ ")"
      | _ => Join (safeSort (strValues r)) ","
      end +:+ rest.
Proof.
  intros Hop. unfold Requirement_String.
  assert (values_String (strValues r) = Join (safeSort (strValues r)) ",") as Hv.
  { unfold values_String. destruct (strValues r) as [|v [|v' vs]]; [done|by rewrite safeSort_single|done]. }
  destruct (operator r); try done; cbv zeta; rewrite Hv, ?string_app_assoc; reflexivity.
Qed.

Lemma scans_closed rest items :
  starts rest → scans rest items → scans (String ")" rest) ((ClosedParToken, ")") :: items).
Proof. intros Hr. apply scans_symbol; [done|done|]. apply stops_any; [apply no_ext_closed|done]. Qed.

Lemma scans_open rest items :
  starts rest → scans rest items → scans (String "(" rest) ((OpenParToken, "(") :: items).
Proof. intros Hr. apply scans_symbol; [done|done|]. apply stops_any; [apply no_ext_open|done]. Qed.

Lemma single_value op vals :
  match op with In | NotIn | Exists | DoesNotExist | OtherOperator _ => False | _ => True end →
  values_ok op vals = Ok () → ∃ v, vals = [v].
Proof. intros Hop. destruct op; try done; simpl; destruct vals as [|v [|? ?]]; try done; eauto. Qed.

(** The list in parentheses. *)
Lemma scans_set op vs rest items :
  op = In ∨ op = NotIn →
  Forall (λ v, all_chars plain v = true) vs → follows rest → scans rest items →
  scans (operator_String op +:+ ("(" +:+ Join vs "," +:+ ")") +:+ rest)
    (operator_items op ++ values_items vs ++ (ClosedParToken, ")") :: items).
Proof.
  intros Hop Hvs Hf Hs. apply follows_ends, ends_starts in Hf.
  assert (scans (Join vs "," +:+ String ")" rest) (values_items vs ++ (ClosedParToken, ")") :: items)) as H1.
  { apply scans_values; [done|done|]. by apply scans_closed. }
  assert (scans (String "(" (Join vs "," +:+ String ")" rest))
    ((OpenParToken, "(") :: values_items vs ++ (ClosedParToken, ")") :: items)) as H2.
  { apply scans_open; [by apply values_starts|done]. }
  rewrite !string_app_assoc. destruct Hop as [-> | ->]; apply scans_space.
  - apply (scans_word "in" (String " " (String "(" (Join vs "," +:+ String ")" rest)))); [done|done|done|].
    by apply scans_space.
  - apply (scans_word "notin" (String " " (String "(" (Join vs "," +:+ String ")" rest)))); [done|done|done|].
    by apply scans_space.
Qed.

Lemma scans_exact op v rest items :
  match op with In | NotIn | Exists | DoesNotExist | OtherOperator _ => False | _ => True end →
  all_chars plain v = true → follows rest → scans rest items →
  scans (operator_String op +:+ v +:+ rest) (operator_items op ++ value_items v ++ items).
Proof.
  intros Hop Hv Hf Hs. pose proof (follows_ends rest Hf) as He.
  assert (scans (v +:+ rest) (value_items v ++ items)) as H1 by (by apply scans_value).
  assert (starts (v +:+ rest)) as Hst by (by apply plain_starts, ends_starts).
  destruct op; try done; simpl.
  - apply scans_symbol; [done|done| |done]. by apply stops_value.
  - eapply (scans_symbol2 "="%char); [done|done|done| |done]. apply stops_any; [apply no_ext_eq2|done].
  - eapply (scans_symbol2 "!"%char); [done|done|done| |done]. apply stops_any; [apply no_ext_ne|done].
  - apply scans_symbol; [done|done| |done]. apply stops_any; [apply no_ext_gt|done].
  - apply scans_symbol; [done|done| |done]. apply stops_any; [apply no_ext_lt|done].
Qed.

Lemma operator_ends op t :
  match op with Exists | DoesNotExist | OtherOperator _ => False | _ => True end → ends (operator_String op +:+ t).
Proof. by destruct op. Qed.

Lemma scans_requirement r rest items :
  proper r → follows rest → scans rest items → scans (Requirement_String r +:+ rest) (requirement_items r ++ items).
Proof.
  intros Hr Hf Hs. destruct (proper_facts r Hr) as (Hne & Hk & Hvs & _ & Hok & _).
  pose proof (follows_ends rest Hf) as He.
  assert (Forall (λ v, all_chars plain v = true) (safeSort (strValues r))) as Hsort by (by rewrite safeSort_perm).
  assert (match operator r with In | NotIn | Exists | DoesNotExist | OtherOperator _ => False | _ => True end →
    scans (Requirement_String r +:+ rest)
      ((word (key r) :: operator_items (operator r) ++ value_items (default "" (head (strValues r)))) ++ items)) as Hexact.
  { intros Hop. destruct (single_value _ _ Hop Hok) as [v E]. rewrite Requirement_String_values by (by destruct (operator r)).
    rewrite E in *. rewrite safeSort_single. simpl. apply Forall_inv in Hvs.
    replace (match operator r with In | NotIn => _ | _ => v end) with v by (by destruct (operator r)).
    apply scans_word; [done|done|apply operator_ends; by destruct (operator r)|]. rewrite <- app_assoc. by apply scans_exact. }
  assert (operator r = In ∨ operator r = NotIn →
    scans (Requirement_String r +:+ rest) ((word (key r) :: operator_items (operator r) ++
      values_items (safeSort (strValues r)) ++ [(ClosedParToken, ")")]) ++ items)) as Hset.
  { intros Hop. rewrite Requirement_String_values by (by destruct Hop as [-> | ->]).
    replace (match operator r with In | NotIn => _ | _ => _ end)
      with ("(" +:+ Join (safeSort (strValues r)) "," +:+ ")") by (by destruct Hop as [-> | ->]).
    simpl. apply scans_word; [done|done|apply operator_ends; by destruct Hop as [-> | ->]|].
    rewrite <- !app_assoc. by apply scans_set. }
  unfold requirement_items. destruct (operator r) eqn:Eop; auto; try done.
  - unfold Requirement_String. rewrite Eop, string_app_assoc.
    apply (scans_symbol "!"%char DoesNotExistToken); [done|done| |].
    + destruct (key r) as [|c k]; [done|]. simpl in *. apply andb_prop in Hk as [Hc _]. unfold plain in Hc.
      apply andb_prop in Hc as [H1 H2]. apply negb_true_iff in H1, H2. apply orb_false_elim in H2 as [H2 _].
      by rewrite H1, H2.
    + by apply scans_word.
  - unfold Requirement_String. rewrite Eop. by apply scans_word.
Qed.

Fixpoint selector_items (reqs : list Requirement) : list ScannedItem :=
  match reqs with
  | [] => []
  | [r] => requirement_items r
  | r :: reqs => requirement_items r ++ comma :: selector_items reqs
  end.

Lemma requirement_starts r t : proper r → starts (Requirement_String r +:+ t).
Proof.
  intros Hr. destruct (proper_facts r Hr) as (Hne & Hk & _). unfold Requirement_String.
  assert (∀ u, starts (key r +:+ u)) as Hu.
  { intros u. destruct (key r) as [|c k]; [done|]. simpl in *. apply andb_prop in Hk as [Hc _].
    unfold plain in Hc. apply andb_prop in Hc as [Hc _]. by apply negb_true_iff in Hc. }
  destruct (operator r); simpl; rewrite ?string_app_assoc; try apply Hu; done.
Qed.

Lemma scans_selector reqs :
  Forall proper reqs →
  scans (Selector_String (internalSelector reqs)) (selector_items reqs ++ [(EndOfStringToken, "")]).
Proof.
  intros H. induction H as [|r reqs Hr Hrs IH]; [by econstructor|]. unfold Selector_String in *.
  assert (scans "" [(EndOfStringToken, "")]) as Hend by (by econstructor).
  destruct reqs as [|r' reqs].
  - rewrite <- (string_app_nil_r (Join (map Requirement_String [r]) ",")). apply scans_requirement; [done|by left|done].
  - change (Join (map Requirement_String (r :: r' :: reqs)) ",")
      with (Requirement_String r +:+ String "," (Join (map Requirement_String (r' :: reqs)) ",")).
    change (selector_items (r :: r' :: reqs)) with (requirement_items r ++ comma :: selector_items (r' :: reqs)).
    rewrite <- app_assoc. apply scans_requirement; [done|right; eauto|].
    apply (scans_comma (Join (map Requirement_String (r' :: reqs)) ",")); [|done].
    apply Forall_inv in Hrs. destruct reqs as [|r'' reqs]; [|by apply requirement_starts].
    simpl. rewrite <- (string_app_nil_r (Requirement_String r')). by apply requirement_starts.
Qed.

(** ** Parsing the tokens *)

(** The requirement with its values as a sorted set, as the parser builds it. *)
Definition normal (r : Requirement) : Requirement :=
  mkRequirement (key r) (operator r) (List (Values r)).

Lemma List_safeSort vals : NoDup vals → List (list_to_set vals) = safeSort vals.
Proof.
  intros Hnd. apply (StronglySorted_unique String.le).
  - apply Sorted_StronglySorted; [apply _|]. apply Sorted_merge_sort, _.
  - apply Sorted_StronglySorted; [apply _|]. apply Sorted_merge_sort, _.
  - unfold List, safeSort. rewrite !merge_sort_Permutation. by apply elements_list_to_set.
Qed.

Lemma validate_values_spec vals : validate_values vals = Ok () ↔ Forall (λ v, IsValidLabelValue v = []) vals.
Proof.
  induction vals as [|v vals IH]; simpl; [done|]. unfold validateLabelValue. rewrite Forall_cons, <- IH.
  destruct (IsValidLabelValue v); [tauto|]. split; [done|by intros [? _]].
Qed.

Lemma values_ok_sorted op vals : values_ok op vals = Ok () → values_ok op (safeSort vals) = Ok ().
Proof.
  intros H. destruct vals as [|v [|v' vals]].
  - by rewrite safeSort_nil.
  - by rewrite safeSort_single.
  - assert (∃ x y l, safeSort (v :: v' :: vals) = x :: y :: l) as (x & y & l & ->).
    { pose proof (Permutation_length (safeSort_perm (v :: v' :: vals))) as Hl.
      destruct (safeSort _) as [|x [|y l]]; simpl in Hl; [lia|lia|eauto]. }
    by destruct op.
Qed.

Lemma NewRequirement_normal r :
  proper r → NewRequirement (key r) (operator r) (safeSort (strValues r)) = Ok (normal r).
Proof.
  intros Hr. destruct (proper_facts r Hr) as (_ & _ & _ & Hk & Hok & Hv). destruct Hr as [_ Hnd].
  unfold NewRequirement. rewrite Hk, values_ok_sorted by done.
  rewrite (proj2 (validate_values_spec (safeSort (strValues r)))).
  - unfold normal, Values. by rewrite List_safeSort.
  - rewrite safeSort_perm. by apply validate_values_spec.
Qed.

Lemma parse_words vs s rest :
  vs ≠ [] → Forall (λ v, v ≠ "" ∧ all_chars plain v = true) vs →
  parseIdentifiersList s (values_items vs ++ (ClosedParToken, ")") :: rest) =
    Ok (list_to_set vs ∪ s, (ClosedParToken, ")") :: rest).
Proof.
  intros Hne Hvs. revert s Hne. induction Hvs as [|v vs [Hv1 Hv2] Hvs IH]; intros s Hne; [done|].
  assert (value_items v = [word v]) as Ev by (unfold value_items; by rewrite bool_decide_false).
  destruct vs as [|v' vs].
  - simpl. rewrite Ev. cbn [app parseIdentifiersList]. rewrite word_value by done. simpl. do 2 f_equal. set_solver.
  - change (values_items (v :: v' :: vs)) with (value_items v ++ comma :: values_items (v' :: vs)).
    rewrite Ev. cbn [app parseIdentifiersList]. rewrite word_value by done. cbn [in_context comma fst snd].
    assert ((size ({[v]} ∪ s) =? 0)%nat = false) as ->.
    { apply Nat.eqb_neq. intros H%size_empty_inv. set_solver. }
    assert (∃ w l, values_items (v' :: vs) ++ (ClosedParToken, ")") :: rest = word w :: l ∧ all_chars plain w = true)
      as (w & l & El & Hw).
    { apply Forall_inv in Hvs as [? ?]. exists v'. destruct vs; simpl; unfold value_items;
        rewrite bool_decide_false by done; eauto. }
    specialize (IH ({[v]} ∪ s) ltac:(done)). rewrite El in IH |- *.
    change (match (word w).1 with InToken | NotInToken => _ | _ => word w end) with (in_context ValuesContext (word w)).
    rewrite word_value by done. cbn [fst]. rewrite IH.
    do 2 f_equal. set_solver.
Qed.

(** In a sorted set only the first value can be empty. *)
Lemma sorted_empty_first v vs : Sorted String.le (v :: vs) → NoDup (v :: vs) → "" ∉ vs.
Proof.
  intros Hs [Hv _]%NoDup_cons Hin. apply Sorted_StronglySorted in Hs; [|apply _].
  apply StronglySorted_inv in Hs as [_ Hf]. rewrite Forall_forall in Hf.
  assert (v = "") as ->; [|done]. apply (anti_symm String.le); [by apply Hf|]. by destruct v.
Qed.

Lemma first_word v vs rest :
  v ≠ "" → ∃ l, values_items (v :: vs) ++ rest = word v :: l.
Proof. intros Hv. destruct vs; simpl; unfold value_items; rewrite bool_decide_false by done; eauto. Qed.

Lemma parse_comma s item2 items :
  (in_context ValuesContext item2).1 = IdentifierToken →
  parseIdentifiersList s (comma :: item2 :: items) =
    parseIdentifiersList (if (size s =? 0)%nat then {[""]} ∪ s else s) (item2 :: items).
Proof.
  intros H. transitivity (match (in_context ValuesContext item2).1 with
    | ClosedParToken => Ok ({[""]} ∪ (if (size s =? 0)%nat then {[""]} ∪ s else s), item2 :: items)
    | CommaToken => parseIdentifiersList ({[""]} ∪ (if (size s =? 0)%nat then {[""]} ∪ s else s)) items
    | _ => parseIdentifiersList (if (size s =? 0)%nat then {[""]} ∪ s else s) (item2 :: items)
    end); [reflexivity|]. by rewrite H.
Qed.

Lemma parseValues_items vs rest :
  vs ≠ [] → Forall (λ v, all_chars plain v = true) vs → Sorted String.le vs → NoDup vs →
  parseValues ((OpenParToken, "(") :: values_items vs ++ (ClosedParToken, ")") :: rest) = Ok (list_to_set vs, rest).
Proof.
  intros Hne Hvs Hs Hnd. destruct vs as [|v vs]; [done|]. pose proof (sorted_empty_first v vs Hs Hnd) as Hnin.
  apply Forall_cons in Hvs as [Hv Hvs].
  assert (Forall (λ v, v ≠ "" ∧ all_chars plain v = true) vs) as Hvs'.
  { rewrite Forall_forall in Hvs |- *. intros x Hx. split; [set_solver|auto]. }
  unfold parseValues, mbind, P_bind. cbn [consume in_context fst snd]. rewrite bool_decide_true by done. cbn [negb].
  destruct (decide (v = "")) as [->|Hv0].
  - destruct vs as [|v' vs]; [vm_compute; by rewrite ?right_id_L|].
    apply Forall_cons in Hvs' as Hv'. destruct Hv' as [[Hv'1 Hv'2] _].
    change (values_items ("" :: v' :: vs)) with (comma :: values_items (v' :: vs)).
    pose proof (parse_words (v' :: vs) {[""]} rest ltac:(done) Hvs') as Hp.
    destruct (first_word v' vs ((ClosedParToken, ")") :: rest) Hv'1) as [l El]. cbn [app]. rewrite El in Hp |- *.
    cbn [lookahead in_context comma fst snd]. change (CommaToken, ",") with comma.
    rewrite parse_comma by (by rewrite word_value). rewrite size_empty. cbn [Nat.eqb].
    rewrite (right_id_L ∅ (∪) {[""]}), Hp.
    cbn [consume in_context fst snd]. rewrite bool_decide_true by done. cbn [negb]. unfold mret, P_ret. do 2 f_equal. set_solver.
  - pose proof (parse_words (v :: vs) ∅ rest ltac:(done) ltac:(by constructor)) as Hp.
    destruct (first_word v vs ((ClosedParToken, ")") :: rest) Hv0) as [l El]. rewrite El in Hp |- *.
    cbn [lookahead]. rewrite word_value by done. rewrite Hp.
    cbn [consume in_context fst snd]. rewrite bool_decide_true by done. cbn [negb]. unfold mret, P_ret. do 2 f_equal. set_solver.
Qed.

(** The token after a requirement. *)
Definition next_ok (rest : list ScannedItem) : Prop :=
  ∃ item rest', rest = item :: rest' ∧ (item = (EndOfStringToken, "") ∨ item = comma).

Lemma parseExactValue_items v rest :
  all_chars plain v = true → next_ok rest → parseExactValue (value_items v ++ rest) = Ok ({[v]}, rest).
Proof.
  intros Hv (item & rest' & -> & Hn). unfold parseExactValue, mbind, P_bind, value_items.
  case_bool_decide as E; [subst; destruct Hn as [-> | ->]; done|].
  cbn [app lookahead]. rewrite word_value by done. rewrite !bool_decide_false by done. cbn [orb consume].
  rewrite word_value by done. by rewrite bool_decide_true.
Qed.

Lemma parseKey_items r items :
  proper r →
  parseKeyAndInferOperator (word (key r) :: items) =
    match items with
    | [] => Err ErrPanic
    | item :: _ =>
        let t := (in_context ValuesContext item).1 in
        Ok (key r, if bool_decide (t = EndOfStringToken) || bool_decide (t = CommaToken) then Some Exists else None, items)
    end.
Proof.
  intros Hr. destruct (proper_facts r Hr) as (_ & Hk & _ & Hok & _).
  unfold parseKeyAndInferOperator, mbind, P_bind. cbn [consume]. rewrite word_value by done.
  rewrite bool_decide_false by done. unfold mret, P_ret. rewrite bool_decide_true by done. cbn [negb].
  unfold lift. rewrite Hok. destruct items as [|[t l] items]; [done|]. by destruct t.
Qed.

Lemma normal_no_values r : strValues r = [] → normal r = mkRequirement (key r) (operator r) [].
Proof. intros E. unfold normal, Values. by rewrite E. Qed.

Lemma consume_cons c item items : consume c (item :: items) = Ok (in_context c item, items).
Proof. done. Qed.

(** The operator and the values after a key. *)
Lemma parse_exact r rest :
  proper r → next_ok rest →
  match operator r with In | NotIn | Exists | DoesNotExist | OtherOperator _ => False | _ => True end →
  parseRequirement ((word (key r) :: operator_items (operator r) ++
    value_items (default "" (head (strValues r)))) ++ rest) = Ok (normal r, rest).
Proof.
  intros Hr Hn Hop. pose proof (NewRequirement_normal r Hr) as Hnew.
  destruct (proper_facts r Hr) as (_ & _ & Hvs & _ & Hok & _). destruct (single_value _ _ Hop Hok) as [v E].
  rewrite E in *. rewrite safeSort_single in Hnew. apply Forall_inv in Hvs. change (default "" (head [v])) with v.
  unfold parseRequirement, mbind, P_bind. cbn [app]. rewrite parseKey_items by done.
  pose proof (parseExactValue_items v rest Hvs Hn) as Hp.
  assert (List {[v]} = [v]) as Hl.
  { rewrite <- (safeSort_single v). rewrite <- List_safeSort by apply NoDup_singleton. by rewrite list_to_set_singleton_L. }
  destruct (operator r); try done; cbn [operator_items app in_context fst];
    (rewrite !bool_decide_false by done); cbn [orb]; unfold parseOperator, mbind, P_bind, lift;
    cbn [consume in_context fst]; unfold mret, P_ret.
  all: rewrite Hp, Hl, Hnew; done.
Qed.

Lemma parse_set r rest :
  proper r → operator r = In ∨ operator r = NotIn →
  parseRequirement ((word (key r) :: operator_items (operator r) ++
    values_items (safeSort (strValues r)) ++ [(ClosedParToken, ")")]) ++ rest) = Ok (normal r, rest).
Proof.
  intros Hr Hop. pose proof (NewRequirement_normal r Hr) as Hnew.
  destruct (proper_facts r Hr) as (_ & _ & Hvs & _ & Hok & _). pose proof Hr as [_ Hnd].
  assert (parseValues ((OpenParToken, "(") :: values_items (safeSort (strValues r)) ++ (ClosedParToken, ")") :: rest) =
    Ok (list_to_set (strValues r), rest)) as Hp.
  { rewrite parseValues_items.
    - do 2 f_equal. apply leibniz_equiv. by rewrite safeSort_perm.
    - intros E. pose proof (safeSort_perm (strValues r)) as Hs. rewrite E in Hs. apply Permutation_nil_l in Hs.
      rewrite <- Hs in Hok. by destruct Hop as [E' | E']; rewrite E' in Hok.
    - by rewrite safeSort_perm.
    - apply Sorted_merge_sort, _.
    - by rewrite safeSort_perm. }
  rewrite <- List_safeSort in Hnew by done.
  unfold parseRequirement, mbind, P_bind. cbn [app]. rewrite parseKey_items by done. rewrite <- !app_assoc.
  destruct Hop as [Eop | Eop]; rewrite Eop in *; cbn [operator_items app in_context fst];
    (rewrite !bool_decide_false by done); cbn [orb]; unfold parseOperator, mbind, P_bind, lift;
    cbn [consume in_context fst]; unfold mret, P_ret.
  all: match type of Hp with ?l = _ => match goal with |- context [parseValues ?x] => change (parseValues x) with l end end.
  all: rewrite Hp, Hnew; done.
Qed.

Lemma parseRequirement_items r rest :
  proper r → next_ok rest → parseRequirement (requirement_items r ++ rest) = Ok (normal r, rest).
Proof.
  intros Hr Hn. pose proof (parse_exact r rest Hr Hn) as Hexact. pose proof (parse_set r rest Hr) as Hset.
  pose proof (NewRequirement_normal r Hr) as Hnew. destruct (proper_facts r Hr) as (_ & Hk & _ & Hkey & Hok & _).
  unfold requirement_items. destruct (operator r) eqn:Eop; auto; try done.
  - assert (strValues r = []) as E by (simpl in Hok; by destruct (strValues r)). rewrite E, safeSort_nil in Hnew.
    unfold parseRequirement, parseKeyAndInferOperator, mbind, P_bind. cbn [app].
    rewrite consume_cons. cbn [in_context fst snd]. rewrite bool_decide_true, consume_cons, word_value by done.
    unfold mret, P_ret.
    rewrite bool_decide_true by done. cbn [negb]. unfold lift. rewrite Hkey.
    destruct Hn as (item & rest' & -> & [-> | ->]); simpl; rewrite Hnew; done.
  - assert (strValues r = []) as E by (simpl in Hok; by destruct (strValues r)). rewrite E, safeSort_nil in Hnew.
    unfold parseRequirement, mbind, P_bind. cbn [app]. rewrite parseKey_items by done.
    destruct Hn as (item & rest' & -> & [-> | ->]); simpl; unfold lift; rewrite Hnew; done.
Qed.

Lemma first_requirement r items :
  proper r → ∃ item l, requirement_items r ++ items = item :: l ∧
    ((in_context ValuesContext item).1 = IdentifierToken ∨ (in_context ValuesContext item).1 = DoesNotExistToken).
Proof.
  intros Hr. destruct (proper_facts r Hr) as (_ & Hk & _). pose proof (word_value _ Hk) as Hw.
  unfold requirement_items. destruct (operator r); eexists _, _; (split; [reflexivity|]);
    first [left; by rewrite Hw|right; done].
Qed.

Lemma parse_loop_items fuel acc reqs :
  Forall proper reqs → reqs ≠ [] → (length reqs ≤ fuel)%nat →
  parse_loop fuel acc (selector_items reqs ++ [(EndOfStringToken, "")]) = Ok (acc ++ map normal reqs, []).
Proof.
  intros Hrs. revert fuel acc. induction Hrs as [|r reqs Hr Hrs IH]; intros fuel acc Hne Hf; [done|].
  destruct fuel as [|fuel]; [simpl in Hf; lia|]. simpl in Hf.
  destruct reqs as [|r' reqs].
  - simpl selector_items. destruct (first_requirement r [(EndOfStringToken, "")] Hr) as (item & l & El & Ht).
    pose proof (parseRequirement_items r [(EndOfStringToken, "")] Hr ltac:(eexists _, _; eauto)) as Hp.
    cbn [parse_loop]. unfold mbind, P_bind. rewrite El in Hp |- *. cbn [lookahead].
    destruct (in_context ValuesContext item) as [t lit]. simpl in Ht.
    destruct Ht as [-> | ->]; rewrite Hp; done.
  - change (selector_items (r :: r' :: reqs)) with (requirement_items r ++ comma :: selector_items (r' :: reqs)).
    rewrite <- app_assoc. set (rest := (comma :: selector_items (r' :: reqs)) ++ [(EndOfStringToken, "")]).
    destruct (first_requirement r rest Hr) as (item & l & El & Ht).
    pose proof (parseRequirement_items r rest Hr ltac:(eexists _, _; eauto)) as Hp.
    specialize (IH fuel (acc ++ [normal r]) ltac:(done) ltac:(simpl in *; lia)). rewrite <- app_assoc in IH.
    assert (∃ item' l', selector_items (r' :: reqs) ++ [(EndOfStringToken, "")] = item' :: l' ∧
      ((in_context ValuesContext item').1 = IdentifierToken ∨ (in_context ValuesContext item').1 = DoesNotExistToken))
      as (item' & l' & El' & Ht').
    { apply Forall_inv in Hrs as Hr'. destruct reqs as [|r'' reqs]; [by apply first_requirement|].
      change (selector_items (r' :: r'' :: reqs)) with (requirement_items r' ++ comma :: selector_items (r'' :: reqs)).
      rewrite <- app_assoc. by apply first_requirement. }
    subst rest. cbn [app] in *. rewrite El' in *.
    cbn [parse_loop]. unfold mbind, P_bind. rewrite El in Hp |- *. cbn [lookahead].
    destruct (in_context ValuesContext item) as [t lit]. simpl in Ht.
    destruct Ht as [-> | ->]; rewrite Hp, consume_cons; cbn [comma in_context fst]; cbn [lookahead];
      destruct (in_context ValuesContext item') as [t' lit']; simpl in Ht'; destruct Ht' as [-> | ->]; apply IH.
Qed.

(** ** The round trip *)

Lemma normal_Matches r ls : proper r → Requirement_Matches (normal r) ls = Requirement_Matches r ls.
Proof.
  intros Hr. pose proof Hr as [_ Hnd]. destruct (proper_facts r Hr) as (_ & _ & _ & _ & Hok & _).
  assert (List (Values r) ≡ₚ strValues r) as Hp by (unfold Values; by rewrite List_safeSort, safeSort_perm).
  assert (∀ v, hasValue (normal r) v = hasValue r v) as Hv.
  { intros v. unfold hasValue. simpl. apply eq_true_iff_eq. rewrite !existsb_exists.
    split; intros (x & Hx & Hd); exists x; (split; [|done]); revert Hx; rewrite <- !list_elem_of_In, Hp; done. }
  unfold Requirement_Matches. simpl. rewrite !Hv. destruct (operator r) eqn:Eop; try done; simpl in Hok;
    destruct (strValues r) as [|v [|? ?]]; try done; by apply Permutation_singleton_r in Hp as ->.
Qed.

Lemma forallb_perm {A} (f : A → bool) (l k : list A) : l ≡ₚ k → forallb f l = forallb f k.
Proof.
  intros Hp. apply eq_true_iff_eq. rewrite !forallb_forall. split; intros H x Hx; apply H; revert Hx;
    rewrite <- !list_elem_of_In, Hp; done.
Qed.

(** C19: a printed selector parses to the same selector. For requirements that the
    constructor accepts and whose values are sets, parsing what printing gives succeeds
    with these requirements, their values sorted, and the result matches the same
    labels; this includes keys and values that read [in] and [notin], and empty values. *)
Theorem Parse_Selector_String `{SortByKey} (reqs : list Requirement) :
  Forall proper reqs →
  ∃ reqs', Parse (Selector_String (internalSelector reqs)) = Ok (internalSelector reqs') ∧
    reqs' ≡ₚ map normal reqs ∧
    ∀ ls, Matches (internalSelector reqs') ls = Matches (internalSelector reqs) ls.
Proof.
  intros Hrs. exists (sort_ByKey (map normal reqs)).
  assert (Parser_parse (Selector_String (internalSelector reqs)) = Ok (map normal reqs)) as Hp.
  { unfold Parser_parse. rewrite (proj2 (scan_scans _ _) (scans_selector reqs Hrs)).
    destruct reqs as [|r reqs]; [done|]. rewrite parse_loop_items; [done|done|done|].
    clear Hrs. rewrite length_app. assert (∀ l, (length l ≤ S (length (selector_items l)))%nat) as Hl.
    { induction l as [|x [|y l] IH]; simpl in *; [lia|lia|]. rewrite length_app. simpl. lia. }
    specialize (Hl (r :: reqs)). simpl length at 3. lia. }
  unfold Parse, parse. rewrite Hp. split; [done|]. split; [apply sort_ByKey_perm|].
  intros ls. simpl. rewrite (forallb_perm _ _ _ (sort_ByKey_perm (map normal reqs))).
  clear Hp. induction Hrs as [|r reqs Hr Hrs IH]; simpl; [done|]. by rewrite normal_Matches, IH.
Qed.

(** ** What selectors from labels and from the API type match *)

Lemma NewRequirement_fields k op vals r : NewRequirement k op vals = Ok r → r = mkRequirement k op vals.
Proof. unfold NewRequirement. repeat case_match; by intros [= <-]. Qed.

Lemma equals_Matches k v ls : Requirement_Matches (mkRequirement k Equals [v]) ls = true ↔ ls !! k = Some v.
Proof.
  unfold Requirement_Matches, Has, Get, hasValue. simpl. destruct (ls !! k) as [v'|] eqn:E; simpl.
  - rewrite orb_false_r, bool_decide_eq_true. split; congruence.
  - done.
Qed.

Lemma equals_all (l : list (string * string)) (ls : Labels) :
  forallb (λ r, Requirement_Matches r ls) (map (λ '(k, v), mkRequirement k Equals [v]) l) = true ↔
  ∀ k v, (k, v) ∈ l → ls !! k = Some v.
Proof.
  rewrite forallb_forall. split.
  - intros H k v Hin. apply equals_Matches, H, in_map_iff. exists (k, v). by rewrite <- list_elem_of_In.
  - intros H x Hx. apply in_map_iff in Hx as ([k v] & <- & Hin). apply equals_Matches, H. by apply list_elem_of_In.
Qed.

Lemma requirements_of_spec l reqs :
  requirements_of l = Some reqs → reqs = map (λ '(k, v), mkRequirement k Equals [v]) l.
Proof.
  revert reqs. induction l as [|[k v] l IH]; intros reqs; simpl; [by intros [= <-]|].
  destruct (NewRequirement k Equals [v]) as [r|] eqn:E; [|done]. apply NewRequirement_fields in E as ->.
  destruct (requirements_of l); simpl; [|done]. intros [= <-]. f_equal. by apply IH.
Qed.

(** The selector made from a set matches the labels that include the set; the one with
    validation does when every label of the set is valid. *)
Lemma SelectorFromSet_exact `{SortByKey} (ls l : Labels) :
  (Matches (SelectorFromValidatedSet ls) l = true ↔ ls ⊆ l) ∧
  ((∀ k v, ls !! k = Some v → ∃ r, NewRequirement k Equals [v] = Ok r) →
    (Matches (SelectorFromSet ls) l = true ↔ ls ⊆ l)).
Proof.
  assert ((∀ k v, (k, v) ∈ map_to_list ls → l !! k = Some v) ↔ ls ⊆ l) as Hsub.
  { rewrite map_subseteq_spec. split; intros Hk k v; specialize (Hk k v); rewrite elem_of_map_to_list in *; auto. }
  split.
  - simpl. rewrite (forallb_perm _ _ _ (sort_ByKey_perm _)), equals_all. done.
  - intros Hv. unfold SelectorFromSet. destruct (requirements_of (map_to_list ls)) as [reqs|] eqn:E.
    + apply requirements_of_spec in E as ->. simpl. rewrite (forallb_perm _ _ _ (sort_ByKey_perm _)), equals_all. done.
    + exfalso. assert (∀ m, (∀ k v, (k, v) ∈ m → ∃ r, NewRequirement k Equals [v] = Ok r) → requirements_of m ≠ None) as Hm.
      { induction m as [|[k v] m IH]; intros Hm; simpl; [done|]. destruct (Hm k v) as [r ->]; [by left|].
        destruct (requirements_of m) eqn:Em; [done|]. exfalso. apply IH; [|done]. intros. apply Hm. by right. }
      apply (Hm (map_to_list ls)); [|done]. intros k v Hin. apply Hv. by apply elem_of_map_to_list.
Qed.

(** The meaning of an expression of the API type. *)
Definition expression_matches (e : LabelSelectorRequirement) (ls : Labels) : Prop :=
  match OperatorOf e with
  | LabelSelectorOpIn => ∃ v, ls !! Key e = Some v ∧ v ∈ ValuesOf e
  | LabelSelectorOpNotIn => ∀ v, ls !! Key e = Some v → v ∉ ValuesOf e
  | LabelSelectorOpExists => is_Some (ls !! Key e)
  | LabelSelectorOpDoesNotExist => ls !! Key e = None
  | LabelSelectorOpOther _ => False
  end.

Definition expression_requirement (e : LabelSelectorRequirement) : result SelError Requirement :=
  match convert_operator (OperatorOf e) with
  | Err err => Err err
  | Ok op => NewRequirement (Key e) op (ValuesOf e)
  end.

Lemma hasValue_spec r v : hasValue r v = true ↔ v ∈ strValues r.
Proof.
  unfold hasValue. rewrite existsb_exists, list_elem_of_In. split.
  - intros (x & Hx & ->%bool_decide_eq_true). done.
  - intros Hx. exists v. by rewrite bool_decide_true.
Qed.

Lemma expression_spec e r ls :
  expression_requirement e = Ok r → Requirement_Matches r ls = true ↔ expression_matches e ls.
Proof.
  unfold expression_requirement, expression_matches. destruct (OperatorOf e); simpl; try done;
    intros ->%NewRequirement_fields; unfold Requirement_Matches, Has, Get; cbn [operator key];
    (destruct (ls !! Key e) as [v|]; [rewrite (bool_decide_true (is_Some _)) by eauto|
      rewrite (bool_decide_false (is_Some _)) by (by intros [? ?])]); cbn [negb default id].
  - rewrite hasValue_spec. simpl. naive_solver.
  - split; [done|by intros (? & ? & _)].
  - rewrite negb_true_iff, <- not_true_iff_false, hasValue_spec. simpl. naive_solver.
  - done.
  - split; [by intros _; eauto|done].
  - split; [done|by intros [? ?]].
  - done.
  - done.
Qed.

Lemma Add_Matches `{SortByKey} sel r ls :
  Matches (Add sel [r]) ls = Matches sel ls && Requirement_Matches r ls.
Proof.
  destruct sel as [|reqs]; [done|]. simpl. rewrite (forallb_perm _ _ _ (sort_ByKey_perm _)), forallb_app.
  simpl. by rewrite andb_true_r.
Qed.

Lemma add_labels_spec `{SortByKey} l sel :
  match add_labels l sel with
  | Ok sel' => ∀ ls, Matches sel' ls = true ↔ Matches sel ls = true ∧ ∀ k v, (k, v) ∈ l → ls !! k = Some v
  | Err _ => ∃ k v e, (k, v) ∈ l ∧ NewRequirement k Equals [v] = Err e
  end.
Proof.
  revert sel. induction l as [|[k v] l IH]; intros sel; simpl; [set_solver|].
  destruct (NewRequirement k Equals [v]) as [r|e] eqn:E; [|exists k, v, e; split; [by left|done]].
  apply NewRequirement_fields in E as ->. specialize (IH (Add sel [mkRequirement k Equals [v]])).
  destruct (add_labels l _) as [sel'|].
  - intros ls. rewrite IH, Add_Matches, andb_true_iff, equals_Matches. set_solver.
  - destruct IH as (k' & v' & e' & Hin & He). exists k', v', e'. split; [by right|done].
Qed.

Lemma add_expressions_spec `{SortByKey} l sel :
  match add_expressions l sel with
  | Ok sel' => ∀ ls, Matches sel' ls = true ↔ Matches sel ls = true ∧ ∀ x, x ∈ l → expression_matches x ls
  | Err _ => ∃ x e, x ∈ l ∧ expression_requirement x = Err e
  end.
Proof.
  revert sel. induction l as [|x l IH]; intros sel; simpl; [set_solver|].
  assert (match convert_operator (OperatorOf x) with Err e => Err e | Ok op => NewRequirement (Key x) op (ValuesOf x) end =
    expression_requirement x) as Ex by done.
  destruct (convert_operator (OperatorOf x)) as [op|e]; [|exists x, e; split; [by left|done]].
  destruct (NewRequirement (Key x) op (ValuesOf x)) as [r|e]; [|exists x, e; split; [by left|done]].
  specialize (IH (Add sel [r])). destruct (add_expressions l _) as [sel'|].
  - intros ls. rewrite IH, Add_Matches, andb_true_iff, (expression_spec x r) by done. set_solver.
  - destruct IH as (x' & e' & Hin & He). exists x', e'. split; [by right|done].
Qed.

(** The selector made from an API object matches exactly what the object means:
    nothing when there is none, and otherwise the labels that include its labels and
    satisfy each of its expressions, so everything when it is empty; making it fails
    only when a label or an expression is not valid. *)
Theorem LabelSelectorAsSelector_meaning `{SortByKey} (ps : option LabelSelector) :
  match LabelSelectorAsSelector ps with
  | Ok sel => ∀ ls, Matches sel ls = true ↔
      ∃ p, ps = Some p ∧ MatchLabels p ⊆ ls ∧ ∀ x, x ∈ MatchExpressions p → expression_matches x ls
  | Err _ => ∃ p, ps = Some p ∧
      ((∃ k v e, MatchLabels p !! k = Some v ∧ NewRequirement k Equals [v] = Err e) ∨
       ∃ x e, x ∈ MatchExpressions p ∧ expression_requirement x = Err e)
  end.
Proof.
  destruct ps as [p|]; simpl; [|intros ls; split; [done|by intros (? & ? & _)]].
  assert (∀ ls : Labels, (∀ k v, (k, v) ∈ map_to_list (MatchLabels p) → ls !! k = Some v) ↔ MatchLabels p ⊆ ls) as Hsub.
  { intros ls. rewrite map_subseteq_spec. split; intros Hk k v; specialize (Hk k v); rewrite elem_of_map_to_list in *; auto. }
  destruct (Nat.eqb_spec (size (MatchLabels p) + length (MatchExpressions p)) 0) as [E|E].
  - intros ls. simpl. split; [intros _; exists p|done]. split; [done|].
    assert (MatchLabels p = ∅) as -> by (apply map_size_empty_inv; lia).
    assert (MatchExpressions p = []) as -> by (apply nil_length_inv; lia).
    split; [apply map_empty_subseteq|]. intros x Hx. by apply not_elem_of_nil in Hx.
  - pose proof (add_labels_spec (map_to_list (MatchLabels p)) (internalSelector [])) as Hl.
    destruct (add_labels _ _) as [sel|e].
    + pose proof (add_expressions_spec (MatchExpressions p) sel) as He.
      destruct (add_expressions _ sel) as [sel'|e].
      * intros ls. rewrite He, Hl, Hsub. simpl. split; [intros [[_ ?] ?]; eauto|by intros (? & [= <-] & ? & ?)].
      * exists p. eauto.
    + destruct Hl as (k & v & e' & Hin & He). apply elem_of_map_to_list in Hin. exists p. split; [done|]. left. eauto.
Qed.

(** ** Sets of labels *)

Lemma Merge_spec (l1 l2 : Labels) : Merge l1 l2 = l2 ∪ l1.
Proof.
  assert (∀ m1 m2 : Labels, map_fold (λ k v m, <[k := v]> m) m1 m2 = m2 ∪ m1) as Hf.
  { intros m1 m2. apply (map_fold_weak_ind (λ r m, r = m ∪ m1)); [by rewrite map_empty_union|].
    intros k v m r _ ->. by rewrite insert_union_l. }
  unfold Merge. by rewrite !Hf, (map_union_empty l1).
Qed.

Lemma Set_Equals_spec (l1 l2 : Labels) : Set_Equals l1 l2 = true ↔ l1 = l2.
Proof.
  unfold Set_Equals. rewrite andb_true_iff, Nat.eqb_eq, forallb_forall. split.
  - intros [Hs Hf]. apply map_subseteq_size_eq; [|lia]. apply map_subseteq_spec. intros k v Hk.
    specialize (Hf (k, v)). rewrite <- list_elem_of_In, elem_of_map_to_list in Hf.
    by specialize (Hf Hk); apply bool_decide_eq_true in Hf.
  - intros ->. split; [done|]. intros [k v]. rewrite <- list_elem_of_In, elem_of_map_to_list. intros ->.
    by apply bool_decide_eq_true.
Qed.

Lemma Conflicts_spec (l1 l2 : Labels) :
  Conflicts l1 l2 = true ↔ ∃ k v1 v2, l1 !! k = Some v1 ∧ l2 !! k = Some v2 ∧ v1 ≠ v2.
Proof.
  assert (∀ m1 m2 : Labels, existsb (λ '(k, v), match m2 !! k with Some val => negb (bool_decide (val = v)) | None => false end)
    (map_to_list m1) = true ↔ ∃ k v1 v2, m1 !! k = Some v1 ∧ m2 !! k = Some v2 ∧ v1 ≠ v2) as Hc.
  { intros m1 m2. rewrite existsb_exists. split.
    - intros ([k v] & Hin & Hk). rewrite <- list_elem_of_In, elem_of_map_to_list in Hin.
      destruct (m2 !! k) as [v'|] eqn:E; [|done]. apply negb_true_iff, bool_decide_eq_false in Hk. eauto 10.
    - intros (k & v1 & v2 & H1 & H2 & Hne). exists (k, v1). rewrite <- list_elem_of_In, elem_of_map_to_list, H2.
      split; [done|]. by apply negb_true_iff, bool_decide_eq_false. }
  unfold Conflicts. destruct (size l2 <? size l1)%nat; rewrite Hc; naive_solver.
Qed.

(** ** Where the code departs from its documentation *)

(** A set with an invalid label makes the selector that matches everything. *)
Theorem SelectorFromSet_invalid_matches_all :
  Matches (SelectorFromSet {["a" := "not a value"; "b" := "c"]}) ∅ = true.
Proof. vm_compute. reflexivity. Qed.

(** Empty values at the end of a list, which the grammar allows, are refused. *)
Theorem Parse_rejects_trailing_values : Parse "x in (a,,)" = Err (ErrFound ")").
Proof. vm_compute. reflexivity. Qed.

(** Of two requirements on one key that no labels satisfy, only one is kept. *)
Theorem ParseToLabelSelector_drops_conflict :
  (∀ ls sel, Parse "x=1,x=2" = Ok sel → Matches sel ls = false) ∧
  match ParseToLabelSelector "x=1,x=2" with
  | Err _ => false
  | Ok ps =>
      match LabelSelectorAsSelector (Some ps) with Err _ => false | Ok sel => Matches sel {["x" := "2"]} end
  end = true.
Proof.
  split; [|vm_compute; reflexivity].
  assert (Parse "x=1,x=2" = Ok (internalSelector [mkRequirement "x" Equals ["1"]; mkRequirement "x" Equals ["2"]])) as ->
    by (vm_compute; reflexivity).
  intros ls sel [= <-]. cbn [Matches forallb]. rewrite andb_true_r.
  apply not_true_iff_false. rewrite andb_true_iff, !equals_Matches. intros [H1 H2]. congruence.
Qed.

(** What follows a zero byte is not read. *)
Theorem Parse_ignores_after_nul :
  Parse ("x " +:+ String "000" "((,=") = Parse "x".
Proof. vm_compute. reflexivity. Qed.

(** ** Witnesses *)

Definition ex_reqs : list Requirement :=
  [mkRequirement "in" NotIn ["notin"; ""; "in"]; mkRequirement "example.com/x" Equals [""];
   mkRequirement "y" DoesNotExist []; mkRequirement "z" GreaterThan ["10"]].

Lemma Parse_Selector_String_witness :
  Forall proper ex_reqs ∧
  Selector_String (internalSelector ex_reqs) = "in notin (,in,notin),example.com/x=,!y,z>10" ∧
  ∃ reqs', Parse (Selector_String (internalSelector ex_reqs)) = Ok (internalSelector reqs') ∧
    reqs' ≡ₚ map normal ex_reqs.
Proof.
  assert (Forall proper ex_reqs) as Hp.
  { repeat constructor; try (vm_compute; reflexivity); apply (bool_decide_unpack _); vm_compute; exact I. }
  split; [exact Hp|]. split; [vm_compute; reflexivity|].
  destruct (Parse_Selector_String ex_reqs Hp) as (reqs' & H1 & H2 & _). exists reqs'. split; [exact H1|exact H2].
Defined.
