(* ===== verification/NodeTree.v ===== *)
(** * The node tree of the scheduler

    [pkg/scheduler/internal/cache/node_tree.go]: the names of the nodes by zone, and
    the iteration over them that takes zones in turn. *)

From S2P Require Import Prelude GoStrings.

(** ** State *)

(** The part of a node that the tree reads. *)
Record Node : Type := mkNode {
  NodeName : string;
  NodeLabels : gmap string string;
}.

Definition LabelZoneRegion : string := "failure-domain.beta.kubernetes.io/region".
Definition LabelZoneFailureDomain : string := "failure-domain.beta.kubernetes.io/zone".

Definition GetZoneKey (node : Node) : string :=
  let region := default "" (NodeLabels node !! LabelZoneRegion) in
  let failureDomain := default "" (NodeLabels node !! LabelZoneFailureDomain) in
  if bool_decide (region = "") && bool_decide (failureDomain = "") then ""
  else region +:+ String ":" (String "000" (String ":" failureDomain)).

Record nodeArray : Type := mkArray {
  nodes : list string;
  lastIndex : nat;
}.

Record NodeTree : Type := mkTree {
  tree : gmap string nodeArray;
  zones : list string;
  zoneIndex : nat;
  NumNodes : Z;
}.

(** ** Operations *)

(** The name, or [None] when the array is exhausted, and the array afterwards. *)
Definition next (na : nodeArray) : option string * nodeArray :=
  if bool_decide (nodes na = []) then (Some "", na)
  else
    match nodes na !! lastIndex na with
    | None => (None, na)
    | Some nodeName => (Some nodeName, mkArray (nodes na) (S (lastIndex na)))
    end.

Definition addNode (nt : NodeTree) (n : Node) : NodeTree :=
  let zone := GetZoneKey n in
  match tree nt !! zone with
  | Some na =>
      if bool_decide (NodeName n ∈ nodes na) then nt
      else
        mkTree (<[zone := mkArray (nodes na ++ [NodeName n]) (lastIndex na)]> (tree nt)) (zones nt) (zoneIndex nt)
          (NumNodes nt + 1)
  | None =>
      mkTree (<[zone := mkArray [NodeName n] 0]> (tree nt)) (zones nt ++ [zone]) (zoneIndex nt) (NumNodes nt + 1)
  end.

Definition newNodeTree (l : list Node) : NodeTree := fold_left addNode l (mkTree ∅ [] 0 0).

(** [append(l[:i], l[i+1:]...)] for the first [i] with the element. *)
Fixpoint remove_first (x : string) (l : list string) : list string :=
  match l with
  | [] => []
  | y :: l => if bool_decide (y = x) then l else y :: remove_first x l
  end.

(** The loop goes on after the zone is found, over elements that moved to the left; as
    a zone is listed once it does nothing more. *)
Definition removeZone (nt : NodeTree) (zone : string) : NodeTree :=
  mkTree (delete zone (tree nt)) (remove_first zone (zones nt)) (zoneIndex nt) (NumNodes nt).

(** The tree, and whether the node was found. *)
Definition removeNode (nt : NodeTree) (n : Node) : NodeTree * bool :=
  let zone := GetZoneKey n in
  match tree nt !! zone with
  | None => (nt, false)
  | Some na =>
      if bool_decide (NodeName n ∈ nodes na) then
        let left := remove_first (NodeName n) (nodes na) in
        let nt' := mkTree (<[zone := mkArray left (lastIndex na)]> (tree nt)) (zones nt) (zoneIndex nt) (NumNodes nt) in
        let nt' := if bool_decide (left = []) then removeZone nt' zone else nt' in
        (mkTree (tree nt') (zones nt') (zoneIndex nt') (NumNodes nt' - 1), true)
      else (nt, false)
  end.

(** [None] when a nil pointer is followed: [removeNode] reads the labels of the old
    node also when there is none. *)
Definition UpdateNode (nt : NodeTree) (old : option Node) (new : Node) : option NodeTree :=
  let oldZone := match old with Some n => GetZoneKey n | None => "" end in
  if bool_decide (oldZone = GetZoneKey new) then Some nt
  else
    match old with
    | Some old => Some (addNode (removeNode nt old).1 new)
    | None => None
    end.

Definition resetExhausted (nt : NodeTree) : NodeTree :=
  mkTree ((λ na, mkArray (nodes na) 0) <$> tree nt) (zones nt) 0 (NumNodes nt).

(** The loop of [Next]; a zone without an array would be a nil pointer. *)
Fixpoint next_loop (fuel : nat) (nt : NodeTree) (numExhaustedZones : nat) : option (string * NodeTree) :=
  match fuel with
  | O => None
  | S fuel =>
      let index := if (length (zones nt) <=? zoneIndex nt)%nat then 0%nat else zoneIndex nt in
      match zones nt !! index with
      | None => None
      | Some zone =>
          match tree nt !! zone with
          | None => None
          | Some na =>
              let '(nodeName, na) := next na in
              let nt := mkTree (<[zone := na]> (tree nt)) (zones nt) (S index) (NumNodes nt) in
              match nodeName with
              | Some nodeName => Some (nodeName, nt)
              | None =>
                  let num := S numExhaustedZones in
                  next_loop fuel (if (length (zones nt) <=? num)%nat then resetExhausted nt else nt) num
              end
          end
      end
  end.

(** Each zone can be exhausted once before the indexes are reset. *)
Definition Next (nt : NodeTree) : option (string * NodeTree) :=
  match zones nt with
  | [] => Some ("", nt)
  | _ => next_loop (S (length (zones nt))) nt 0
  end.

(** ** The invariant *)

Definition array_of (nt : NodeTree) (zone : string) : nodeArray := default (mkArray [] 0) (tree nt !! zone).

(** The nodes of all zones, zone by zone. *)
Definition all_nodes (nt : NodeTree) : list string := zones nt ≫= λ z, nodes (array_of nt z).

Record wf (nt : NodeTree) : Prop := mk_wf {
  wf_zones : NoDup (zones nt);
  wf_dom : ∀ z, z ∈ zones nt ↔ is_Some (tree nt !! z);
  wf_arrays : ∀ z na, tree nt !! z = Some na → nodes na ≠ [] ∧ NoDup (nodes na);
  wf_count : NumNodes nt = Z.of_nat (length (all_nodes nt));
}.

Lemma wf_new : wf (mkTree ∅ [] 0 0).
Proof.
  constructor; simpl; [constructor| |done|done]. intros z. rewrite lookup_empty. split; [by intros ?%not_elem_of_nil|by intros [? ?]].
Qed.

Lemma bind_insert_ne (f : nodeArray → list string) zs (t : gmap string nodeArray) zone na :
  zone ∉ zs →
  (zs ≫= λ z, f (default (mkArray [] 0) (<[zone := na]> t !! z))) =
  (zs ≫= λ z, f (default (mkArray [] 0) (t !! z))).
Proof.
  induction zs as [|y zs IH]; intros Hz; [done|]. rewrite !bind_cons, lookup_insert_ne by set_solver.
  rewrite IH; [done|set_solver].
Qed.

(** The nodes of one zone and the others. *)
Lemma all_nodes_insert (f : nodeArray → list string) zs (t : gmap string nodeArray) zone na :
  NoDup zs → zone ∈ zs →
  ∃ l, (zs ≫= λ z, f (default (mkArray [] 0) (t !! z))) ≡ₚ f (default (mkArray [] 0) (t !! zone)) ++ l ∧
    (zs ≫= λ z, f (default (mkArray [] 0) (<[zone := na]> t !! z))) ≡ₚ f na ++ l ∧
    (remove_first zone zs ≫= λ z, f (default (mkArray [] 0) (t !! z))) ≡ₚ l.
Proof.
  induction zs as [|z zs IH]; intros Hnd Hin; [by apply not_elem_of_nil in Hin|].
  apply NoDup_cons in Hnd as [Hz Hnd]. rewrite !bind_cons. cbn [remove_first]. destruct (decide (z = zone)) as [->|Hne].
  - exists (zs ≫= λ z, f (default (mkArray [] 0) (t !! z))). rewrite bool_decide_true by done.
    rewrite lookup_insert_eq, bind_insert_ne by done. done.
  - destruct IH as (l & H1 & H2 & H3); [done|set_solver|]. rewrite lookup_insert_ne, bool_decide_false by done.
    exists (f (default (mkArray [] 0) (t !! z)) ++ l). rewrite bind_cons, H1, H2, H3.
    split_and!; [by rewrite Permutation_app_swap_app..|done].
Qed.

Lemma remove_first_perm x l : x ∈ l → l ≡ₚ x :: remove_first x l.
Proof.
  induction l as [|y l IH]; intros Hx; [by apply not_elem_of_nil in Hx|]. simpl.
  case_bool_decide as E; [by subst|]. apply elem_of_cons in Hx as [Hx|Hx]; [done|].
  rewrite (IH Hx) at 1. constructor.
Qed.

Lemma remove_first_NoDup x l : NoDup l → NoDup (remove_first x l) ∧ ∀ y, y ∈ remove_first x l ↔ y ∈ l ∧ y ≠ x.
Proof.
  intros Hnd. destruct (decide (x ∈ l)) as [Hx|Hx].
  - pose proof (remove_first_perm x l Hx) as Hp. rewrite Hp in Hnd. apply NoDup_cons in Hnd as [Hn Hnd].
    split; [done|]. intros y. assert (y ∈ l ↔ y ∈ x :: remove_first x l) as -> by (by rewrite <- Hp). set_solver.
  - assert (remove_first x l = l) as ->.
    { clear Hnd. induction l as [|y l IH]; simpl; [done|]. rewrite bool_decide_false by set_solver. f_equal. set_solver. }
    split; [done|]. set_solver.
Qed.

(** ** Adding and removing *)

(** The names of a zone. *)
Definition names (nt : NodeTree) (zone : string) : list string := nodes (array_of nt zone).

Lemma addNode_spec nt n :
  wf nt → wf (addNode nt n) ∧
  (∀ z x, x ∈ names (addNode nt n) z ↔ x ∈ names nt z ∨ z = GetZoneKey n ∧ x = NodeName n).
Proof.
  intros Hw. unfold addNode. set (zone := GetZoneKey n). destruct (tree nt !! zone) as [na|] eqn:E.
  - destruct (wf_arrays nt Hw zone na E) as [Hne Hnd]. case_bool_decide as Hin.
    { split; [done|]. intros z x. split; [by left|]. intros [?|[-> ->]]; [done|]. unfold names, array_of. by rewrite E. }
    assert (zone ∈ zones nt) as Hz by (apply (wf_dom nt Hw); eauto).
    destruct (all_nodes_insert nodes (zones nt) (tree nt) zone (mkArray (nodes na ++ [NodeName n]) (lastIndex na))
      (wf_zones nt Hw) Hz) as (l & H1 & H2 & _). rewrite E in H1. simpl in H1, H2.
    split; [constructor; simpl|].
    + apply Hw.
    + intros z. rewrite (wf_dom nt Hw). destruct (decide (z = zone)) as [->|];
        [rewrite lookup_insert_eq, E; split; eauto|by rewrite lookup_insert_ne].
    + intros z na' Hz'. apply lookup_insert_Some in Hz' as [[<- <-]|[_ Hz']]; [|by apply (wf_arrays nt Hw z)]. simpl.
      split; [by destruct (nodes na)|]. apply NoDup_app. split_and!; [done|set_solver|apply NoDup_singleton].
    + rewrite (wf_count nt Hw). unfold all_nodes, array_of. simpl. rewrite H1, H2, !length_app. simpl. lia.
    + intros z x. unfold names, array_of. simpl. destruct (decide (z = zone)) as [->|].
      * rewrite lookup_insert_eq, E. simpl. set_solver.
      * rewrite lookup_insert_ne by done. naive_solver.
  - assert (zone ∉ zones nt) as Hz by (rewrite (wf_dom nt Hw), E; by intros [? ?]).
    split; [constructor; simpl|].
    + apply NoDup_app. split_and!; [apply Hw|set_solver|apply NoDup_singleton].
    + intros z. rewrite elem_of_app, (wf_dom nt Hw), list_elem_of_singleton. destruct (decide (z = zone)) as [->|];
        [rewrite lookup_insert_eq; split; eauto|rewrite lookup_insert_ne by done; naive_solver].
    + intros z na' Hz'. apply lookup_insert_Some in Hz' as [[<- <-]|[_ Hz']]; [|by apply (wf_arrays nt Hw z)]. simpl.
      split; [done|apply NoDup_singleton].
    + rewrite (wf_count nt Hw). unfold all_nodes, array_of. simpl. rewrite bind_app. simpl.
      rewrite bind_insert_ne, lookup_insert_eq by done. rewrite length_app. simpl. lia.
    + intros z x. unfold names, array_of. simpl. destruct (decide (z = zone)) as [->|].
      * rewrite lookup_insert_eq, E. simpl. set_solver.
      * rewrite lookup_insert_ne by done. naive_solver.
Qed.

Lemma removeNode_spec nt n :
  wf nt → wf (removeNode nt n).1 ∧
  ((removeNode nt n).2 = true ↔ NodeName n ∈ names nt (GetZoneKey n)) ∧
  (∀ z x, x ∈ names (removeNode nt n).1 z ↔ x ∈ names nt z ∧ ¬ (z = GetZoneKey n ∧ x = NodeName n)).
Proof.
  intros Hw. unfold removeNode. set (zone := GetZoneKey n). unfold names at 1, array_of at 1.
  destruct (tree nt !! zone) as [na|] eqn:E; simpl.
  2:{ split_and!; [done|split; [done|by intros ?%not_elem_of_nil]|]. intros z x. split; [|tauto]. intros Hx. split; [done|].
      intros [-> ->]. unfold names, array_of in Hx. rewrite E in Hx. by apply not_elem_of_nil in Hx. }
  destruct (wf_arrays nt Hw zone na E) as [Hne Hnd]. case_bool_decide as Hin; simpl.
  2:{ split_and!; [done|done|]. intros z x. split; [|tauto]. intros Hx. split; [done|].
      intros [-> ->]. unfold names, array_of in Hx. rewrite E in Hx. done. }
  assert (zone ∈ zones nt) as Hz by (apply (wf_dom nt Hw); eauto).
  set (left := remove_first (NodeName n) (nodes na)).
  destruct (remove_first_NoDup (NodeName n) (nodes na) Hnd) as [Hl1 Hl2].
  pose proof (Permutation_length (remove_first_perm _ _ Hin)) as Hlen. simpl in Hlen. fold left in Hl1, Hl2, Hlen.
  destruct (all_nodes_insert nodes (zones nt) (tree nt) zone (mkArray left (lastIndex na)) (wf_zones nt Hw) Hz)
    as (l & H1 & H2 & H3). rewrite E in H1. simpl in H1, H2.
  pose proof (wf_count nt Hw) as Hc. unfold all_nodes, array_of in Hc. rewrite H1, length_app in Hc.
  case_bool_decide as Eleft; simpl.
  - destruct (remove_first_NoDup zone (zones nt) (wf_zones nt Hw)) as [Hz1 Hz2].
    split_and!; [constructor; simpl|done|].
    + done.
    + intros z. rewrite Hz2, (wf_dom nt Hw), lookup_delete_is_Some. destruct (decide (z = zone)) as [->|];
        [naive_solver|rewrite lookup_insert_ne by done; naive_solver].
    + intros z na' Hz'. apply lookup_delete_Some in Hz' as [? Hz']. rewrite lookup_insert_ne in Hz' by done.
      by apply (wf_arrays nt Hw z).
    + unfold all_nodes, array_of. simpl. rewrite delete_insert_eq.
      assert ((remove_first zone (zones nt) ≫= λ z, nodes (default (mkArray [] 0) (delete zone (tree nt) !! z))) =
        (remove_first zone (zones nt) ≫= λ z, nodes (default (mkArray [] 0) (tree nt !! z)))) as ->.
      { assert (zone ∉ remove_first zone (zones nt)) as Hn by set_solver. revert Hn.
        generalize (remove_first zone (zones nt)) as zs. induction zs as [|y zs IH]; intros Hn; [done|].
        rewrite !bind_cons, lookup_delete_ne by set_solver. rewrite IH; [done|set_solver]. }
      rewrite H3, Hc, Hlen, Eleft. simpl. lia.
    + intros z x. unfold names, array_of. simpl. rewrite delete_insert_eq. destruct (decide (z = zone)) as [->|].
      * rewrite lookup_delete_eq, E. simpl. rewrite Eleft in Hl2. split; [by intros ?%not_elem_of_nil|].
        intros [Hx Hx']. apply Hl2. naive_solver.
      * rewrite lookup_delete_ne by done. naive_solver.
  - split_and!; [constructor; simpl|done|].
    + apply Hw.
    + intros z. rewrite (wf_dom nt Hw). destruct (decide (z = zone)) as [->|];
        [rewrite lookup_insert_eq, E; split; eauto|by rewrite lookup_insert_ne].
    + intros z na' Hz'. apply lookup_insert_Some in Hz' as [[<- <-]|[_ Hz']]; [done|by apply (wf_arrays nt Hw z)].
    + unfold all_nodes, array_of. simpl. rewrite H2, length_app, Hc, Hlen. lia.
    + intros z x. unfold names, array_of. simpl. destruct (decide (z = zone)) as [->|].
      * rewrite lookup_insert_eq, E. simpl. rewrite Hl2. naive_solver.
      * rewrite lookup_insert_ne by done. naive_solver.
Qed.

(** ** Iterating *)

(** The nodes that are left before the zones are exhausted. *)
Definition left_of (na : nodeArray) : list string := drop (lastIndex na) (nodes na).
Definition remaining (nt : NodeTree) : list string := zones nt ≫= λ z, left_of (array_of nt z).

(** The same zones with the same nodes. *)
Definition same_nodes (nt nt' : NodeTree) : Prop :=
  zones nt' = zones nt ∧ NumNodes nt' = NumNodes nt ∧ (∀ z, nodes <$> tree nt' !! z = nodes <$> tree nt !! z).

Lemma same_nodes_names nt nt' z : same_nodes nt nt' → nodes (array_of nt' z) = nodes (array_of nt z).
Proof.
  intros (_ & _ & H). specialize (H z). unfold array_of.
  destruct (tree nt' !! z), (tree nt !! z); simpl in *; by simplify_eq.
Qed.

Lemma same_nodes_all nt nt' : same_nodes nt nt' → all_nodes nt' = all_nodes nt.
Proof.
  intros Hs. pose proof Hs as (Hz & _ & _). unfold all_nodes. rewrite Hz. generalize (zones nt) as zs.
  induction zs as [|z zs IH]; [done|]. rewrite !bind_cons, IH. by rewrite (same_nodes_names nt nt').
Qed.

Lemma same_nodes_wf nt nt' : same_nodes nt nt' → wf nt → wf nt'.
Proof.
  intros Hs Hw. pose proof Hs as (Hz & Hc & Hn). constructor.
  - rewrite Hz. apply Hw.
  - intros z. rewrite Hz, (wf_dom nt Hw). specialize (Hn z). destruct (tree nt' !! z), (tree nt !! z); simpl in *; try done; split; eauto.
  - intros z na Hna. specialize (Hn z). rewrite Hna in Hn. destruct (tree nt !! z) as [na'|] eqn:E; [|done].
    injection Hn as Hn. rewrite Hn. by apply (wf_arrays nt Hw z na' E).
  - rewrite Hc, (wf_count nt Hw). by rewrite (same_nodes_all nt nt').
Qed.

Lemma same_nodes_trans nt1 nt2 nt3 : same_nodes nt1 nt2 → same_nodes nt2 nt3 → same_nodes nt1 nt3.
Proof.
  intros (? & ? & H1) (? & ? & H2). split_and!; [congruence..|]. intros z. by rewrite H2, H1.
Qed.

Lemma reset_same nt : same_nodes nt (resetExhausted nt).
Proof. split_and!; [done|done|]. intros z. simpl. rewrite lookup_fmap. by destruct (tree nt !! z). Qed.

Lemma reset_remaining nt : remaining (resetExhausted nt) = all_nodes nt.
Proof.
  unfold remaining, all_nodes. simpl. generalize (zones nt) as zs. induction zs as [|z zs IH]; [done|].
  rewrite !bind_cons, IH. f_equal. unfold array_of. simpl. rewrite lookup_fmap. by destruct (tree nt !! z).
Qed.

Lemma next_spec na :
  nodes na ≠ [] →
  match next na with
  | (Some x, na') => nodes na' = nodes na ∧ left_of na = x :: left_of na'
  | (None, na') => na' = na ∧ left_of na = []
  end.
Proof.
  intros Hne. unfold next, left_of. rewrite bool_decide_false by done.
  destruct (nodes na !! lastIndex na) as [x|] eqn:E; simpl.
  - split; [done|]. by apply drop_S.
  - split; [done|]. apply drop_ge. by apply lookup_ge_None.
Qed.

(** A turn of the loop. *)
Lemma turn_spec nt zone :
  wf nt → zone ∈ zones nt → ∀ index,
  ∃ na, tree nt !! zone = Some na ∧
    let '(x, na') := next na in
    let nt' := mkTree (<[zone := na']> (tree nt)) (zones nt) index (NumNodes nt) in
    same_nodes nt nt' ∧
    match x with
    | Some x => remaining nt ≡ₚ x :: remaining nt'
    | None => left_of na = [] ∧ (∀ z, array_of nt' z = array_of nt z) ∧ remaining nt' = remaining nt
    end.
Proof.
  intros Hw Hz index. destruct (proj1 (wf_dom nt Hw zone) Hz) as [na Hna]. exists na. split; [done|].
  destruct (wf_arrays nt Hw zone na Hna) as [Hne _]. pose proof (next_spec na Hne) as Hn.
  destruct (next na) as [x na'].
  assert (∀ nds, nodes na' = nds → nds = nodes na →
    same_nodes nt (mkTree (<[zone := na']> (tree nt)) (zones nt) index (NumNodes nt))) as Hsame.
  { intros nds H1 H2. split_and!; [done|done|]. intros z. simpl. destruct (decide (z = zone)) as [->|].
    - rewrite lookup_insert_eq, Hna. simpl. congruence.
    - by rewrite lookup_insert_ne. }
  destruct x as [x|].
  - destruct Hn as [Hn1 Hn2]. split; [by eapply Hsame|].
    destruct (all_nodes_insert left_of (zones nt) (tree nt) zone na' (wf_zones nt Hw) Hz) as (l & H1 & H2 & _).
    rewrite Hna in H1. simpl in H1. unfold remaining, array_of. simpl. by rewrite H1, H2, Hn2.
  - destruct Hn as [-> Hn2]. split; [by eapply Hsame|]. split; [done|].
    assert (∀ z, array_of (mkTree (<[zone := na]> (tree nt)) (zones nt) index (NumNodes nt)) z = array_of nt z) as Ha.
    { intros z. unfold array_of. simpl. by rewrite insert_id. }
    split; [done|]. unfold remaining. simpl. rewrite insert_id by done. done.
Qed.

Lemma remaining_nil nt : (∀ z, z ∈ zones nt → left_of (array_of nt z) = []) → remaining nt = [].
Proof.
  unfold remaining. generalize (zones nt) as zs. induction zs as [|z zs IH]; intros H; [done|].
  rewrite bind_cons, H, IH; [done|set_solver|set_solver].
Qed.

(** Right after the reset the first zone has a node. *)
Lemma next_loop_fresh fuel nt k :
  wf nt → zones nt ≠ [] →
  ∃ x nt', next_loop (S fuel) (resetExhausted nt) k = Some (x, nt') ∧ same_nodes nt nt' ∧
    all_nodes nt ≡ₚ x :: remaining nt'.
Proof.
  intros Hw Hne. pose proof (same_nodes_wf _ _ (reset_same nt) Hw) as Hw'.
  cbn [next_loop]. change (zones (resetExhausted nt)) with (zones nt). change (zoneIndex (resetExhausted nt)) with 0%nat.
  assert ((if (length (zones nt) <=? 0)%nat then 0 else 0) = 0)%nat as -> by (by case_match).
  destruct (zones nt) as [|zone zs] eqn:Ez; [done|]. cbn [lookup list_lookup].
  destruct (turn_spec (resetExhausted nt) zone Hw' ltac:(simpl; rewrite Ez; left) 1) as (na & Hna & Ht).
  rewrite Hna. change (zones (resetExhausted nt)) with (zones nt) in *. rewrite Ez in Ht.
  assert (left_of na ≠ []) as Hleft.
  { destruct (wf_arrays _ Hw' zone na Hna) as [Hn _]. simpl in Hna. rewrite lookup_fmap in Hna.
    destruct (tree nt !! zone) as [na0|]; [|done]. simpl in Hna. injection Hna as <-. unfold left_of. done. }
  destruct (next na) as [[x|] na']; [|by destruct Ht as (_ & ? & _)]. destruct Ht as [Hs Hr].
  eexists _, _. split; [done|]. split; [by eapply same_nodes_trans; [apply reset_same|]|].
  by rewrite <- reset_remaining, Hr.
Qed.

(** The zones between the last [k] places in turn and the index are exhausted. *)
Definition exhausted_before (nt : NodeTree) (j k : nat) : Prop :=
  ∀ i z, zones nt !! i = Some z →
    (length (zones nt) - k ≤ (if j <=? i then i - j else i + length (zones nt) - j))%nat →
    left_of (array_of nt z) = [].

Definition index_of (nt : NodeTree) : nat :=
  if (length (zones nt) <=? zoneIndex nt)%nat then 0%nat else zoneIndex nt.

Lemma next_loop_spec fuel nt k :
  wf nt → (k < length (zones nt))%nat → (length (zones nt) < fuel + k)%nat → exhausted_before nt (index_of nt) k →
  ∃ x nt', next_loop fuel nt k = Some (x, nt') ∧ same_nodes nt nt' ∧
    (remaining nt ≡ₚ x :: remaining nt' ∨ remaining nt = [] ∧ all_nodes nt ≡ₚ x :: remaining nt').
Proof.
  revert nt k. induction fuel as [|fuel IH]; intros nt k Hw Hk Hf He; [lia|]. cbn [next_loop]. fold (index_of nt).
  assert (index_of nt < length (zones nt))%nat as Hj.
  { unfold index_of. destruct (Nat.leb_spec (length (zones nt)) (zoneIndex nt)); lia. }
  set (j := index_of nt) in *. destruct (lookup_lt_is_Some_2 _ _ Hj) as [zone Hz]. rewrite Hz.
  destruct (turn_spec nt zone Hw (list_elem_of_lookup_2 _ _ _ Hz) (S j)) as (na & Hna & Ht). rewrite Hna.
  destruct (next na) as [[x|] na']; [eexists _, _; split; [done|]; destruct Ht; auto|].
  destruct Ht as (Hs & Hleft & Ha & Hrem). cbn [zones]. set (nt' := mkTree _ _ _ _) in *.
  assert (wf nt') as Hw' by (by eapply same_nodes_wf).
  destruct (Nat.leb_spec (length (zones nt)) (S k)).
  - assert (remaining nt = []) as Hnil.
    { apply remaining_nil. intros z [i Hi]%list_elem_of_lookup_1. destruct (decide (i = j)) as [->|Hij].
      - rewrite Hz in Hi. injection Hi as <-. unfold array_of. by rewrite Hna.
      - apply (He i z Hi). apply lookup_lt_Some in Hi. destruct (Nat.leb_spec j i); lia. }
    destruct fuel as [|fuel]; [lia|].
    destruct (next_loop_fresh fuel nt' (S k) Hw') as (x & nt'' & E & Hs' & Hr).
    { simpl. destruct (zones nt); [simpl in Hj; lia|done]. }
    rewrite E. eexists _, _. split; [done|]. split; [by eapply same_nodes_trans|]. right. split; [done|].
    by rewrite <- (same_nodes_all nt nt').
  - destruct (IH nt' (S k) Hw') as (x & nt'' & E & Hs' & Hr); [simpl; lia|simpl; lia| |].
    + intros i z Hi Hd. rewrite Ha. simpl in Hi, Hd. pose proof (lookup_lt_Some _ _ _ Hi) as Hil.
      destruct (decide (i = j)) as [->|Hij].
      { rewrite Hz in Hi. injection Hi as <-. unfold array_of. by rewrite Hna. }
      apply (He i z Hi).
      assert (index_of nt' = 0 ∧ length (zones nt) ≤ S j ∨ index_of nt' = S j ∧ S j < length (zones nt))%nat as Hj'.
      { unfold index_of. cbn [zones zoneIndex nt']. destruct (Nat.leb_spec (length (zones nt)) (S j)); lia. }
      destruct (Nat.leb_spec (index_of nt') i), (Nat.leb_spec j i); lia.
    + rewrite E. eexists _, _. split; [done|]. split; [by eapply same_nodes_trans|].
      rewrite (same_nodes_all nt nt' Hs), Hrem in Hr. done.
Qed.

Lemma Next_spec nt :
  wf nt → zones nt ≠ [] →
  ∃ x nt', Next nt = Some (x, nt') ∧ same_nodes nt nt' ∧
    (remaining nt ≡ₚ x :: remaining nt' ∨ remaining nt = [] ∧ all_nodes nt ≡ₚ x :: remaining nt').
Proof.
  intros Hw Hne. unfold Next. assert (0 < length (zones nt))%nat by (destruct (zones nt); [done|simpl; lia]).
  destruct (next_loop_spec (S (length (zones nt))) nt 0 Hw) as (x & nt' & E & Hx); [done|lia| |].
  - intros i z Hi Hd. apply lookup_lt_Some in Hi. exfalso.
    assert (index_of nt < length (zones nt))%nat.
    { unfold index_of. destruct (Nat.leb_spec (length (zones nt)) (zoneIndex nt)); lia. }
    destruct (Nat.leb_spec (index_of nt) i); lia.
  - destruct (zones nt); [done|]. eauto.
Qed.

(** A number of calls: the names they return. *)
Fixpoint take_next (n : nat) (nt : NodeTree) : option (list string * NodeTree) :=
  match n with
  | O => Some ([], nt)
  | S n =>
      match Next nt with
      | None => None
      | Some (x, nt) => match take_next n nt with None => None | Some (l, nt) => Some (x :: l, nt) end
      end
  end.

Lemma take_next_app n m nt l1 nt1 l2 nt2 :
  take_next n nt = Some (l1, nt1) → take_next m nt1 = Some (l2, nt2) → take_next (n + m) nt = Some (l1 ++ l2, nt2).
Proof.
  revert nt l1. induction n as [|n IH]; intros nt l1 H1 H2; simpl in *; [by simplify_eq|].
  destruct (Next nt) as [[x nt']|]; [|done]. destruct (take_next n nt') as [[l nt'']|] eqn:E; [|done].
  injection H1 as <- <-. by rewrite (IH nt' l E H2).
Qed.

Lemma remaining_zones nt : remaining nt ≠ [] → zones nt ≠ [].
Proof. unfold remaining. by destruct (zones nt). Qed.

Lemma take_remaining nt :
  wf nt → ∃ l nt', take_next (length (remaining nt)) nt = Some (l, nt') ∧ l ≡ₚ remaining nt ∧
    remaining nt' = [] ∧ same_nodes nt nt'.
Proof.
  intros Hw. remember (length (remaining nt)) as n eqn:En. revert nt Hw En.
  induction n as [|n IH]; intros nt Hw En; simpl.
  { symmetry in En. apply nil_length_inv in En. exists [], nt. rewrite En. split_and!; [done|done|done|]. by split_and!. }
  assert (remaining nt ≠ []) as Hne by (destruct (remaining nt); done).
  destruct (Next_spec nt Hw (remaining_zones nt Hne)) as (x & nt1 & -> & Hs & [Hr|[Hr _]]); [|done].
  pose proof (Permutation_length Hr) as Hl. simpl in Hl.
  destruct (IH nt1) as (l & nt' & -> & H1 & H2 & H3); [by eapply same_nodes_wf|lia|].
  exists (x :: l), nt'. split_and!; [done|by rewrite H1, Hr|done|by eapply same_nodes_trans].
Qed.

(** Trees that the operations build. *)
Inductive reachable : NodeTree → Prop :=
  | reach_new : reachable (mkTree ∅ [] 0 0)
  | reach_add nt n : reachable nt → reachable (addNode nt n)
  | reach_remove nt n : reachable nt → reachable (removeNode nt n).1
  | reach_update nt old new nt' : reachable nt → UpdateNode nt old new = Some nt' → reachable nt'
  | reach_next nt x nt' : reachable nt → Next nt = Some (x, nt') → reachable nt'.

Lemma reachable_wf nt : reachable nt → wf nt.
Proof.
  induction 1 as [|nt n _ IH|nt n _ IH|nt old new nt' _ IH E|nt x nt' _ IH E].
  - apply wf_new.
  - by apply addNode_spec.
  - by apply removeNode_spec.
  - unfold UpdateNode in E. case_bool_decide; [by simplify_eq|]. destruct old as [old|]; [|done]. injection E as <-.
    apply addNode_spec. by apply removeNode_spec.
  - destruct (decide (zones nt = [])) as [Ez|Ez].
    + unfold Next in E. rewrite Ez in E. by simplify_eq.
    + destruct (Next_spec nt IH Ez) as (y & nt'' & E' & Hs & _). rewrite E in E'. simplify_eq. by eapply same_nodes_wf.
Qed.

(** What is left of the turn, and then everything. *)
Lemma visits_all nt :
  wf nt →
  NumNodes nt = Z.of_nat (length (all_nodes nt)) ∧
  ∃ l1 l2 nt', take_next (length (remaining nt) + Z.to_nat (NumNodes nt)) nt = Some (l1 ++ l2, nt') ∧
    l1 ≡ₚ remaining nt ∧ l2 ≡ₚ all_nodes nt ∧ all_nodes nt' = all_nodes nt.
Proof.
  intros Hw. pose proof (wf_count nt Hw) as Hc. split; [done|]. rewrite Hc, Nat2Z.id.
  destruct (take_remaining nt Hw) as (l1 & nt1 & H1 & Hl1 & Hr1 & Hs1).
  pose proof (same_nodes_wf _ _ Hs1 Hw) as Hw1. rewrite <- (same_nodes_all nt nt1 Hs1).
  destruct (decide (zones nt1 = [])) as [Ez|Ez].
  { assert (all_nodes nt1 = []) as E by (unfold all_nodes; by rewrite Ez).
    exists l1, [], nt1. rewrite E. simpl. rewrite Nat.add_0_r, app_nil_r. by split_and!. }
  destruct (Next_spec nt1 Hw1 Ez) as (x & nt2 & E2 & Hs2 & [Hr2|[_ Hr2]]).
  { rewrite Hr1 in Hr2. by apply Permutation_nil_cons in Hr2. }
  destruct (take_remaining nt2) as (l & nt3 & H3 & Hl3 & Hr3 & Hs3); [by eapply same_nodes_wf|].
  exists l1, (x :: l), nt3. split_and!; [|done|by rewrite Hl3, Hr2|].
  - eapply take_next_app; [exact H1|]. rewrite (Permutation_length Hr2). simpl. by rewrite E2, H3.
  - by rewrite (same_nodes_all nt2 nt3 Hs3), (same_nodes_all nt1 nt2 Hs2).
Qed.

(** Iterating over the node tree is fair. In every tree that the operations
    build, the count is the number of nodes, and as many calls of [Next] as there are
    nodes left in the turn return each of them once, after which as many calls as
    there are nodes return every node once, whatever zones the nodes are in; [Next]
    always returns. *)
Theorem Next_visits_all (nt : NodeTree) :
  reachable nt →
  NumNodes nt = Z.of_nat (length (all_nodes nt)) ∧
  ∃ l1 l2 nt', take_next (length (remaining nt) + Z.to_nat (NumNodes nt)) nt = Some (l1 ++ l2, nt') ∧
    l1 ≡ₚ remaining nt ∧ l2 ≡ₚ all_nodes nt ∧ all_nodes nt' = all_nodes nt.
Proof. intros Hw%reachable_wf. by apply visits_all. Qed.

(** ** An update of an unknown node *)

(** A node that is updated before it was added, in the same zone, is not in the tree. *)
Theorem UpdateNode_unknown (n : Node) :
  UpdateNode (newNodeTree []) (Some n) n = Some (newNodeTree []) ∧ all_nodes (newNodeTree []) = [].
Proof. unfold UpdateNode. by rewrite bool_decide_true. Qed.

(** Without an old node the update follows the nil pointer, unless the new node has no
    zone, although the test of the old node provides for that case. *)
Theorem UpdateNode_nil (nt : NodeTree) (new : Node) : UpdateNode nt None new = None ↔ GetZoneKey new ≠ "".
Proof. unfold UpdateNode. case_bool_decide; naive_solver. Qed.

(** ** Witness *)

Definition ex_node (name zone : string) : Node := mkNode name {[LabelZoneFailureDomain := zone]}.

Lemma Next_visits_all_witness :
  let nt := newNodeTree [ex_node "n1" "a"; ex_node "n2" "b"; ex_node "n3" "a"] in
  (fst <$> take_next 4 nt) = Some ["n1"; "n2"; "n3"; "n1"] ∧ NumNodes nt = Z.of_nat (length (all_nodes nt)).
Proof.
  split; [vm_compute; reflexivity|].
  exact (proj1 (Next_visits_all _ (reach_add _ (ex_node "n3" "a") (reach_add _ (ex_node "n2" "b")
    (reach_add _ (ex_node "n1" "a") reach_new))))).
Defined.
