(* ===== verification/NodeInfo.v ===== *)
(** * What the scheduler keeps of a node

    [pkg/scheduler/cache/node_info.go] and [host_ports.go]: the resources that the pods
    of a node request, the host ports they use, and the bookkeeping when pods come and
    go. Amounts are [int64] and their sums wrap; a nil map of scalar resources is the
    empty map. *)

From S2P Require Import Prelude GoStrings GoInt PodQos Validation NodeTree.

(** ** Resources *)

Record Resource : Type := mkResource {
  MilliCPU : Z;
  Memory : Z;
  EphemeralStorage : Z;
  AllowedPodNumber : Z;
  ScalarResources : gmap string Z;
}.

Definition emptyResource : Resource := mkResource 0 0 0 0 ∅.

Definition ResourcePods : string := "pods".
Definition ResourceEphemeralStorage : string := "ephemeral-storage".

(** [strings.Contains] *)
Fixpoint Contains (s sub : string) : bool :=
  HasPrefix s sub || match s with "" => false | String _ s => Contains s sub end.

Definition IsPrefixedNativeResource (name : string) : bool := Contains name "kubernetes.io/".
Definition IsNativeResource (name : string) : bool := negb (Contains name "/") || IsPrefixedNativeResource name.
Definition IsExtendedResourceName (name : string) : bool :=
  if IsNativeResource name || HasPrefix name "requests." then false
  else match IsQualifiedName ("requests." +:+ name) with [] => true | _ => false end.
Definition IsHugePageResourceName (name : string) : bool := HasPrefix name "hugepages-".
Definition IsAttachableVolumeResourceName (name : string) : bool := HasPrefix name "attachable-volumes-".
Definition IsScalarResourceName (name : string) : bool :=
  IsExtendedResourceName name || IsHugePageResourceName name || IsPrefixedNativeResource name ||
  IsAttachableVolumeResourceName name.

Definition SetScalar (r : Resource) (name : string) (quantity : Z) : Resource :=
  mkResource (MilliCPU r) (Memory r) (EphemeralStorage r) (AllowedPodNumber r)
    (<[name := quantity]> (ScalarResources r)).

Definition scalar (r : Resource) (name : string) : Z := default 0 (ScalarResources r !! name).

Definition AddScalar (r : Resource) (name : string) (quantity : Z) : Resource :=
  SetScalar r name (wrap64 (scalar r name + quantity)).

(** The turn of the loop of [Resource.Add] for one entry. *)
Definition add_entry (r : Resource) (rName : string) (rQuant : Quantity) : Resource :=
  if bool_decide (rName = ResourceCPU) then
    mkResource (wrap64 (MilliCPU r + MilliValue rQuant)) (Memory r) (EphemeralStorage r) (AllowedPodNumber r) (ScalarResources r)
  else if bool_decide (rName = ResourceMemory) then
    mkResource (MilliCPU r) (wrap64 (Memory r + Value rQuant)) (EphemeralStorage r) (AllowedPodNumber r) (ScalarResources r)
  else if bool_decide (rName = ResourcePods) then
    mkResource (MilliCPU r) (Memory r) (EphemeralStorage r) (wrap64 (AllowedPodNumber r + Value rQuant)) (ScalarResources r)
  else if bool_decide (rName = ResourceEphemeralStorage) then
    mkResource (MilliCPU r) (Memory r) (wrap64 (EphemeralStorage r + Value rQuant)) (AllowedPodNumber r) (ScalarResources r)
  else if IsScalarResourceName rName then AddScalar r rName (Value rQuant)
  else r.

(** [Resource.Add]: the entries change different fields, so their order is immaterial. *)
Definition Resource_Add (r : Resource) (rl : ResourceList) : Resource :=
  fold_left (λ r kv, add_entry r kv.1 kv.2) (map_to_list rl) r.

Definition NewResource (rl : ResourceList) : Resource := Resource_Add emptyResource rl.

(** ** Host ports *)

Record ContainerPort : Type := mkPort {
  HostIP : string;
  Protocol : string;
  HostPort : Z;
}.

Definition DefaultBindAllHostIP : string := "0.0.0.0".

Notation HostPortInfo := (gmap string (gset (string * Z))).

Definition sanitize_ip (ip : string) : string := if bool_decide (ip = "") then DefaultBindAllHostIP else ip.
Definition sanitize_protocol (protocol : string) : string := if bool_decide (protocol = "") then "TCP" else protocol.

Definition HostPortInfo_Add (h : HostPortInfo) (ip protocol : string) (port : Z) : HostPortInfo :=
  if port <=? 0 then h
  else
    let ip := sanitize_ip ip in
    let pp := (sanitize_protocol protocol, port) in
    match h !! ip with
    | None => <[ip := {[pp]}]> h
    | Some m => <[ip := {[pp]} ∪ m]> h
    end.

Definition HostPortInfo_Remove (h : HostPortInfo) (ip protocol : string) (port : Z) : HostPortInfo :=
  if port <=? 0 then h
  else
    let ip := sanitize_ip ip in
    let pp := (sanitize_protocol protocol, port) in
    match h !! ip with
    | None => h
    | Some m => if (size (m ∖ {[pp]}) =? 0)%nat then delete ip h else <[ip := m ∖ {[pp]}]> h
    end.

Definition has_port (h : HostPortInfo) (ip : string) (pp : string * Z) : bool :=
  match h !! ip with Some m => bool_decide (pp ∈ m) | None => false end.

Definition CheckConflict (h : HostPortInfo) (ip protocol : string) (port : Z) : bool :=
  if port <=? 0 then false
  else
    let ip := sanitize_ip ip in
    let pp := (sanitize_protocol protocol, port) in
    if bool_decide (ip = DefaultBindAllHostIP) then existsb (λ '(_, m), bool_decide (pp ∈ m)) (map_to_list h)
    else has_port h DefaultBindAllHostIP pp || has_port h ip pp.

(** ** Pods *)

Record PodContainer : Type := mkPodContainer {
  CRequests : ResourceList;
  Ports : list ContainerPort;
}.

(** The part of a pod that the scheduler's cache reads. *)
Record SchedPod : Type := mkSchedPod {
  PUID : string;
  PNamespace : string;
  PName : string;
  PLabels : gmap string string;
  PNodeName : string;
  PContainers : list PodContainer;
  PAffinity : bool;
}.

Inductive CacheError : Type :=
  | ErrEmptyUID
  | ErrNoPod (name : string)
  | ErrInCache (key : string)
  | ErrAssumedElsewhere (key : string)
  | ErrNotAssumed (key : string)
  | ErrAlreadyAdded (key : string)
  | ErrNotAdded (key : string)
  | ErrFatal
  | ErrMissingState
  | ErrNilPointer.

Definition GetPodKey (pod : SchedPod) : result CacheError string :=
  if bool_decide (PUID pod = "") then Err ErrEmptyUID else Ok (PUID pod).

Definition DefaultMilliCPURequest : Z := 100.
Definition DefaultMemoryRequest : Z := 200 * 1024 * 1024.

Definition GetNonzeroRequests (requests : ResourceList) : Z * Z :=
  (match requests !! ResourceCPU with None => DefaultMilliCPURequest | Some q => MilliValue q end,
   match requests !! ResourceMemory with None => DefaultMemoryRequest | Some q => Value q end).

Definition calculateResource (pod : SchedPod) : Resource * Z * Z :=
  fold_left (λ '(res, non0CPU, non0Mem) c,
    let '(cpu, mem) := GetNonzeroRequests (CRequests c) in
    (Resource_Add res (CRequests c), wrap64 (non0CPU + cpu), wrap64 (non0Mem + mem)))
    (PContainers pod) (emptyResource, 0, 0).

(** ** Node information *)

Record ContainerImage : Type := mkImage {
  Names : list string;
  SizeBytes : Z;
}.

(** A node: what the tree reads, what can be allocated and the images it has. Taints,
    conditions and the transient volume counts are only copied and left out. *)
Record SchedNode : Type := mkSchedNode {
  SNode : Node;
  Allocatable : ResourceList;
  Images : list ContainerImage;
}.

Record ImageStateSummary : Type := mkSummary {
  SummarySize : Z;
  NumNodesWith : Z;
}.

Record NodeInfo : Type := mkNodeInfo {
  node : option SchedNode;
  pods : list SchedPod;
  podsWithAffinity : list SchedPod;
  usedPorts : HostPortInfo;
  requestedResource : Resource;
  nonzeroRequest : Z * Z;
  allocatableResource : Resource;
  nodeImageStates : gmap string ImageStateSummary;
  generation : Z;
}.

(** The counter of generations is shared; an operation takes it and returns it. *)
Definition NewNodeInfo (gen : Z) : NodeInfo * Z :=
  (mkNodeInfo None [] [] ∅ emptyResource (0, 0) emptyResource ∅ (gen + 1), gen + 1).

Definition UpdateUsedPorts (h : HostPortInfo) (pod : SchedPod) (add : bool) : HostPortInfo :=
  fold_left (λ h c,
    fold_left (λ h p,
      if add then HostPortInfo_Add h (HostIP p) (Protocol p) (HostPort p)
      else HostPortInfo_Remove h (HostIP p) (Protocol p) (HostPort p)) (Ports c) h) (PContainers pod) h.

(** The loop over the scalar resources of a pod: each changes the entry of its name,
    which is zero when it is missing. *)
Definition change_scalars (sign : Z) (a b : gmap string Z) : gmap string Z :=
  merge (λ x y, match y with None => x | Some y => Some (wrap64 (default 0 x + sign * y)) end) a b.

(** Adding and subtracting what a pod requests; the number of pods is not a request. *)
Definition add_request (r res : Resource) : Resource :=
  mkResource (wrap64 (MilliCPU r + MilliCPU res)) (wrap64 (Memory r + Memory res))
    (wrap64 (EphemeralStorage r + EphemeralStorage res)) (AllowedPodNumber r)
    (change_scalars 1 (ScalarResources r) (ScalarResources res)).

Definition sub_request (r res : Resource) : Resource :=
  mkResource (wrap64 (MilliCPU r - MilliCPU res)) (wrap64 (Memory r - Memory res))
    (wrap64 (EphemeralStorage r - EphemeralStorage res)) (AllowedPodNumber r)
    (change_scalars (-1) (ScalarResources r) (ScalarResources res)).

Definition NodeInfo_AddPod (n : NodeInfo) (pod : SchedPod) (gen : Z) : NodeInfo * Z :=
  let '(res, non0CPU, non0Mem) := calculateResource pod in
  (mkNodeInfo (node n) (pods n ++ [pod])
    (if PAffinity pod then podsWithAffinity n ++ [pod] else podsWithAffinity n)
    (UpdateUsedPorts (usedPorts n) pod true) (add_request (requestedResource n) res)
    (wrap64 ((nonzeroRequest n).1 + non0CPU), wrap64 ((nonzeroRequest n).2 + non0Mem))
    (allocatableResource n) (nodeImageStates n) (gen + 1), gen + 1).

(** The first pod with the key is overwritten by the last one, which is cut off. *)
Fixpoint find_key (k : string) (l : list SchedPod) : option nat :=
  match l with
  | [] => None
  | p :: l =>
      if negb (bool_decide (PUID p = "")) && bool_decide (PUID p = k) then Some 0%nat
      else S <$> find_key k l
  end.

Definition swap_remove (i : nat) (l : list SchedPod) : list SchedPod :=
  match last l with
  | None => l
  | Some p => take (length l - 1) (<[i := p]> l)
  end.

Definition remove_key (k : string) (l : list SchedPod) : list SchedPod :=
  match find_key k l with None => l | Some i => swap_remove i l end.

(** The pods with affinity are changed also when the pod is not found after all. The
    message of the error reads the name of the node. *)
Definition NodeInfo_RemovePod (n : NodeInfo) (pod : SchedPod) (gen : Z) : result CacheError unit * NodeInfo * Z :=
  match GetPodKey pod with
  | Err e => (Err e, n, gen)
  | Ok k1 =>
      let affinity := remove_key k1 (podsWithAffinity n) in
      match find_key k1 (pods n) with
      | None =>
          (match node n with None => Err ErrNilPointer | Some _ => Err (ErrNoPod (PName pod)) end,
           mkNodeInfo (node n) (pods n) affinity (usedPorts n) (requestedResource n) (nonzeroRequest n)
             (allocatableResource n) (nodeImageStates n) (generation n), gen)
      | Some i =>
          let '(res, non0CPU, non0Mem) := calculateResource pod in
          (Ok (),
           mkNodeInfo (node n) (swap_remove i (pods n)) affinity (UpdateUsedPorts (usedPorts n) pod false)
             (sub_request (requestedResource n) res)
             (wrap64 ((nonzeroRequest n).1 - non0CPU), wrap64 ((nonzeroRequest n).2 - non0Mem))
             (allocatableResource n) (nodeImageStates n) (gen + 1), gen + 1)
      end
  end.

Definition SetNode (n : NodeInfo) (nd : SchedNode) (gen : Z) : NodeInfo * Z :=
  (mkNodeInfo (Some nd) (pods n) (podsWithAffinity n) (usedPorts n) (requestedResource n) (nonzeroRequest n)
    (NewResource (Allocatable nd)) (nodeImageStates n) (gen + 1), gen + 1).

Definition NodeInfo_RemoveNode (n : NodeInfo) (gen : Z) : NodeInfo * Z :=
  (mkNodeInfo None (pods n) (podsWithAffinity n) (usedPorts n) (requestedResource n) (nonzeroRequest n)
    emptyResource ∅ (gen + 1), gen + 1).

Definition SetImageStates (n : NodeInfo) (s : gmap string ImageStateSummary) : NodeInfo :=
  mkNodeInfo (node n) (pods n) (podsWithAffinity n) (usedPorts n) (requestedResource n) (nonzeroRequest n)
    (allocatableResource n) s (generation n).

Definition FilterOutPods (n : NodeInfo) (l : list SchedPod) : list SchedPod :=
  match node n with
  | None => l
  | Some nd =>
      filter (λ p, PNodeName p ≠ NodeName (SNode nd) ∨ Exists (λ np, PUID np = PUID p) (pods n)) l
  end.

(** [None]: the node is nil. *)
Definition Filter (n : NodeInfo) (pod : SchedPod) : option bool :=
  nd ← node n;
  Some (negb (bool_decide (PNodeName pod = NodeName (SNode nd))) ||
    existsb (λ p, bool_decide (PName p = PName pod) && bool_decide (PNamespace p = PNamespace pod)) (pods n)).

(** ** Sums *)

(** The sum of an amount over the pods of a node. *)
Definition total (f : SchedPod → Z) (l : list SchedPod) : Z := foldr (λ p s, f p + s) 0 l.

Lemma total_app f l k : total f (l ++ k) = total f l + total f k.
Proof. induction l as [|p l IH]; simpl; [lia|]. rewrite IH. lia. Qed.

#[global] Instance total_proper f : Proper ((≡ₚ) ==> (=)) (total f).
Proof. induction 1; simpl; lia. Qed.

(** ** Amounts *)

Inductive kind : Type := KCPU | KMemory | KStorage | KScalar (name : string).

Definition amount (r : Resource) (k : kind) : Z :=
  match k with
  | KCPU => MilliCPU r
  | KMemory => Memory r
  | KStorage => EphemeralStorage r
  | KScalar name => scalar r name
  end.

Definition request (p : SchedPod) (k : kind) : Z := amount (calculateResource p).1.1 k.
Definition nonzero_cpu (p : SchedPod) : Z := (calculateResource p).1.2.
Definition nonzero_memory (p : SchedPod) : Z := (calculateResource p).2.

Lemma change_scalars_lookup sign a b name :
  in64 (default 0 (a !! name)) →
  default 0 (change_scalars sign a b !! name) = wrap64 (default 0 (a !! name) + sign * default 0 (b !! name)).
Proof.
  intros Ha. unfold change_scalars. rewrite lookup_merge. destruct (b !! name) as [y|]; simpl.
  - by destruct (a !! name).
  - rewrite Z.mul_0_r, Z.add_0_r, (wrap64_in _ Ha). by destruct (a !! name).
Qed.

Lemma amount_add r res k : in64 (amount r k) → amount (add_request r res) k = wrap64 (amount r k + amount res k).
Proof.
  intros Hr. destruct k; try done. simpl in *. unfold scalar in *. simpl. rewrite change_scalars_lookup by done.
  f_equal. lia.
Qed.

Lemma amount_sub r res k : in64 (amount r k) → amount (sub_request r res) k = wrap64 (amount r k - amount res k).
Proof.
  intros Hr. destruct k; try done. simpl in *. unfold scalar in *. simpl. rewrite change_scalars_lookup by done.
  f_equal; lia.
Qed.

(** ** Ports *)

(** The address, protocol and port of an entry, when it is one. *)
Definition port_of (p : ContainerPort) : gset (string * (string * Z)) :=
  if HostPort p <=? 0 then ∅ else {[(sanitize_ip (HostIP p), (sanitize_protocol (Protocol p), HostPort p))]}.

Definition ports_of (pod : SchedPod) : gset (string * (string * Z)) := ⋃ (port_of <$> (PContainers pod ≫= Ports)).

(** That the table has an entry, and that no address has an empty one. *)
Definition uses (h : HostPortInfo) (e : string * (string * Z)) : Prop := has_port h e.1 e.2 = true.
Definition no_empty (h : HostPortInfo) : Prop := ∀ ip m, h !! ip = Some m → m ≠ ∅.

#[global] Instance uses_dec h e : Decision (uses h e).
Proof. unfold uses. apply _. Defined.

Lemma uses_iff h ip pp : uses h (ip, pp) ↔ ∃ m, h !! ip = Some m ∧ pp ∈ m.
Proof.
  unfold uses, has_port. simpl. destruct (h !! ip) as [m|]; [rewrite bool_decide_eq_true; naive_solver|].
  split; [done|naive_solver].
Qed.

Lemma uses_add h p e : uses (HostPortInfo_Add h (HostIP p) (Protocol p) (HostPort p)) e ↔ uses h e ∨ e ∈ port_of p.
Proof.
  destruct e as [ip pp]. unfold HostPortInfo_Add, port_of. destruct (HostPort p <=? 0); [set_solver|].
  set (ip' := sanitize_ip _). set (x := (sanitize_protocol _, HostPort p)). rewrite elem_of_singleton.
  assert (∀ m, (∀ y, y ∈ m ↔ uses h (ip', y)) →
    uses (<[ip' := {[x]} ∪ m]> h) (ip, pp) ↔ uses h (ip, pp) ∨ (ip, pp) = (ip', x)) as Hins.
  { intros m Hm. rewrite (uses_iff (<[_ := _]> h)). destruct (decide (ip = ip')) as [->|].
    - rewrite lookup_insert_eq, <- Hm. split.
      + intros (? & [= <-] & [->%elem_of_singleton|?]%elem_of_union); auto.
      + intros [?|[= ->]]; eexists; (split; [done|]); set_solver.
    - rewrite lookup_insert_ne, <- uses_iff by done. naive_solver. }
  destruct (h !! ip') as [m|] eqn:E.
  - apply Hins. intros y. rewrite uses_iff. naive_solver.
  - assert (∀ y, y ∈ (∅ : gset (string * Z)) ↔ uses h (ip', y)) as He by (intros y; rewrite uses_iff, E; set_solver).
    specialize (Hins ∅ He). by rewrite union_empty_r_L in Hins.
Qed.

Lemma uses_remove h p e :
  uses (HostPortInfo_Remove h (HostIP p) (Protocol p) (HostPort p)) e ↔ uses h e ∧ e ∉ port_of p.
Proof.
  destruct e as [ip pp]. unfold HostPortInfo_Remove, port_of. destruct (HostPort p <=? 0); [set_solver|].
  set (ip' := sanitize_ip _). rewrite elem_of_singleton, !uses_iff. destruct (h !! ip') as [m|] eqn:E.
  2:{ destruct (decide (ip = ip')) as [->|]; naive_solver. }
  set (x := (sanitize_protocol _, HostPort p)).
  destruct (Nat.eqb_spec (size (m ∖ {[x]})) 0) as [Hs%size_empty_inv|Hs]; destruct (decide (ip = ip')) as [->|].
  - rewrite lookup_delete_eq. split; [naive_solver|]. intros [(m' & E' & Hpp) Hne]. simplify_eq. exfalso.
    apply (not_elem_of_empty (C := gset (string * Z)) pp). rewrite <- Hs. apply elem_of_difference. split; [done|]. intros ->%elem_of_singleton. done.
  - rewrite lookup_delete_ne by done. naive_solver.
  - rewrite lookup_insert_eq, E. split.
    + intros (? & [= <-] & [? Hn]%elem_of_difference). split; [eauto|]. intros [= ->]. apply Hn. set_solver.
    + intros [(m' & [= <-] & Hpp) Hne]. eexists. split; [done|]. apply elem_of_difference. split; [done|].
      intros ->%elem_of_singleton. done.
  - rewrite lookup_insert_ne by done. naive_solver.
Qed.

(** Adding the ports of a pod and taking them away. *)
Lemma uses_update h pod (add : bool) e :
  uses (UpdateUsedPorts h pod add) e ↔ if add then uses h e ∨ e ∈ ports_of pod else uses h e ∧ e ∉ ports_of pod.
Proof.
  unfold UpdateUsedPorts, ports_of. revert h. induction (PContainers pod) as [|c cs IH]; intros h; cbn [fold_left].
  { destruct add; set_solver. }
  rewrite IH, bind_cons, fmap_app, union_list_app_L. set (h' := fold_left _ (Ports c) h).
  assert (uses h' e ↔ if add then uses h e ∨ e ∈ ⋃ (port_of <$> Ports c) else uses h e ∧ e ∉ ⋃ (port_of <$> Ports c)) as Hh.
  { unfold h'. clear IH h'. revert h. induction (Ports c) as [|p ps IH]; intros h; cbn [fold_left].
    { destruct add; set_solver. }
    rewrite IH, fmap_cons. cbn [union_list foldr]. destruct add; [rewrite uses_add|rewrite uses_remove]; set_solver. }
  destruct add; rewrite Hh; set_solver.
Qed.

(** Two entries conflict when their protocols and ports are the same and their addresses
    are, or one of them stands for all addresses. *)
Definition conflicts (e e' : string * (string * Z)) : Prop :=
  e.2 = e'.2 ∧ (e.1 = e'.1 ∨ e.1 = DefaultBindAllHostIP ∨ e'.1 = DefaultBindAllHostIP).

Lemma CheckConflict_exact h p :
  CheckConflict h (HostIP p) (Protocol p) (HostPort p) = true ↔ ∃ e e', uses h e ∧ e' ∈ port_of p ∧ conflicts e e'.
Proof.
  unfold CheckConflict, port_of, conflicts. destruct (HostPort p <=? 0); [set_solver|].
  set (ip' := sanitize_ip _). set (x := (sanitize_protocol _, HostPort p)).
  transitivity (∃ ip, uses h (ip, x) ∧ (ip = ip' ∨ ip = DefaultBindAllHostIP ∨ ip' = DefaultBindAllHostIP)).
  2:{ setoid_rewrite elem_of_singleton. split.
      - intros (ip & Hu & Hip). by exists (ip, x), (ip', x).
      - intros ([ip y] & e' & Hu & -> & [Hy Hip]). simpl in *. subst y. eauto. }
  case_bool_decide as Hall.
  - rewrite existsb_exists. split.
    + intros ([ip m] & Hin%list_elem_of_In%elem_of_map_to_list & Hm%bool_decide_eq_true). exists ip.
      split; [apply uses_iff; eauto|auto].
    + intros (ip & (m & Hm & Hx)%uses_iff & _). exists (ip, m).
      split; [apply list_elem_of_In; by apply elem_of_map_to_list|by apply bool_decide_eq_true].
  - rewrite orb_true_iff. unfold uses. simpl. split; [intros [?|?]; eauto|]. intros (ip & Hu & [->|[->|?]]); auto.
Qed.

(** ** Taking a pod out of a list *)

Notation uids l := (PUID <$> l).

Lemma find_key_Some k l i : find_key k l = Some i → ∃ p, l !! i = Some p ∧ PUID p = k.
Proof.
  revert i. induction l as [|p l IH]; intros i; simpl; [done|]. case_bool_decide; simpl.
  - destruct (find_key k l) as [j|]; [|done]. intros [= <-]. by apply IH.
  - case_bool_decide; [intros [= <-]; eauto|]. destruct (find_key k l) as [j|]; [|done]. intros [= <-]. by apply IH.
Qed.

Lemma find_key_None k l : k ≠ "" → find_key k l = None → k ∉ uids l.
Proof.
  intros Hk. induction l as [|p l IH]; simpl; [intros _; apply not_elem_of_nil|].
  destruct (find_key k l); [case_match; done|]. specialize (IH eq_refl).
  case_bool_decide; simpl; [intros _ [?|?]%elem_of_cons; [congruence|done]|].
  case_bool_decide; [done|]. intros _ [?|?]%elem_of_cons; [congruence|done].
Qed.

Lemma swap_remove_perm l i p : l !! i = Some p → l ≡ₚ p :: swap_remove i l.
Proof.
  intros Hi. unfold swap_remove. destruct l as [|q l _] using rev_ind; [done|]. rewrite last_snoc, length_app.
  replace (length l + length [q] - 1)%nat with (length l) by (simpl; lia).
  destruct (decide (i < length l)%nat) as [Hlt|Hge].
  - rewrite lookup_app_l in Hi by done. rewrite insert_app_l, take_app_le, take_ge by (rewrite ?length_insert; lia).
    destruct (list_elem_of_split_length l i p Hi) as (l1 & l2 & -> & ->).
    rewrite insert_app_r_alt, Nat.sub_diag by lia. simpl. rewrite <- app_assoc. simpl.
    rewrite <- Permutation_middle. by rewrite <- Permutation_cons_append.
  - pose proof (lookup_lt_Some _ _ _ Hi) as Hl. rewrite length_app in Hl. simpl in Hl.
    assert (i = length l) as -> by lia. rewrite list_lookup_middle in Hi by done. injection Hi as ->.
    rewrite insert_app_r_alt, take_app_le, take_ge by lia. by rewrite <- Permutation_cons_append.
Qed.

(** Taking the only pod with a key out. *)
Lemma remove_key_perm l p : NoDup (uids l) → p ∈ l → PUID p ≠ "" → l ≡ₚ p :: remove_key (PUID p) l.
Proof.
  intros Hnd Hp Hk. unfold remove_key. destruct (find_key (PUID p) l) as [i|] eqn:E.
  - destruct (find_key_Some _ _ _ E) as (q & Hi & Hq). assert (q = p) as ->; [|by apply swap_remove_perm].
    apply list_elem_of_lookup_1 in Hp as [j Hj].
    assert (i = j) as ->; [|congruence]. eapply NoDup_lookup; [exact Hnd|rewrite list_lookup_fmap, Hi; simpl; by rewrite Hq|].
    by rewrite list_lookup_fmap, Hj.
  - exfalso. apply (find_key_None _ _ Hk E). by apply list_elem_of_fmap_2.
Qed.

Lemma remove_key_id l k : k ∉ uids l → remove_key k l = l.
Proof.
  intros Hk. unfold remove_key. destruct (find_key k l) as [i|] eqn:E; [|done].
  destruct (find_key_Some _ _ _ E) as (q & Hi & <-). destruct Hk.
  by apply list_elem_of_fmap_2, list_elem_of_lookup_2 with i.
Qed.

(** ** The bookkeeping of a node *)

(** What the fields say of the pods: they are listed once, those with affinity again,
    and the requests are the sums over them, as [int64]. The ports in use are ports of
    pods of the node. *)
Record info_wf (n : NodeInfo) : Prop := mk_info_wf {
  iw_uids : NoDup (uids (pods n));
  iw_keys : ∀ p, p ∈ pods n → PUID p ≠ "";
  iw_affinity : podsWithAffinity n ≡ₚ filter (λ p, PAffinity p = true) (pods n);
  iw_requested : ∀ k, amount (requestedResource n) k = wrap64 (total (λ p, request p k) (pods n));
  iw_cpu : (nonzeroRequest n).1 = wrap64 (total nonzero_cpu (pods n));
  iw_memory : (nonzeroRequest n).2 = wrap64 (total nonzero_memory (pods n));
  iw_ports : ∀ e, uses (usedPorts n) e → ∃ p, p ∈ pods n ∧ e ∈ ports_of p;
}.

Lemma info_wf_new gen : info_wf (NewNodeInfo gen).1.
Proof. constructor; simpl; try done; [constructor|by intros p ?%not_elem_of_nil|by intros []]. Qed.

Lemma calculateResource_same p q :
  PContainers p = PContainers q → calculateResource p = calculateResource q ∧ ports_of p = ports_of q.
Proof. intros E. unfold calculateResource, ports_of. by rewrite E. Qed.

Lemma AddPod_spec n p gen :
  info_wf n → PUID p ≠ "" → PUID p ∉ uids (pods n) →
  ∃ n', NodeInfo_AddPod n p gen = (n', gen + 1) ∧ info_wf n' ∧ pods n' = pods n ++ [p] ∧ node n' = node n ∧
    generation n' = gen + 1 ∧ nodeImageStates n' = nodeImageStates n.
Proof.
  intros Hw Hk Hn. unfold NodeInfo_AddPod. destruct (calculateResource p) as [[res c] m] eqn:E.
  eexists. split; [done|]. split; [|done]. constructor; simpl.
  - rewrite fmap_app. apply NoDup_app. split_and!; [apply Hw|set_solver|apply NoDup_singleton].
  - intros q [Hq| ->%list_elem_of_singleton]%elem_of_app; [by apply (iw_keys n Hw)|done].
  - rewrite filter_app, <- (iw_affinity n Hw). destruct (PAffinity p) eqn:Ea.
    + by rewrite filter_cons_True, filter_nil.
    + rewrite filter_cons_False by congruence. by rewrite filter_nil, app_nil_r.
  - intros k. rewrite amount_add by (rewrite (iw_requested n Hw); apply wrap64_range).
    rewrite (iw_requested n Hw), wrap64_add_l, total_app. simpl. unfold request at 3. rewrite E. simpl. f_equal. lia.
  - rewrite (iw_cpu n Hw), wrap64_add_l, total_app. simpl. unfold nonzero_cpu at 3. rewrite E. simpl. f_equal. lia.
  - rewrite (iw_memory n Hw), wrap64_add_l, total_app. simpl. unfold nonzero_memory at 3. rewrite E. simpl. f_equal. lia.
  - intros e [(q & Hq & He)%(iw_ports n Hw)|He]%(uses_update _ p true).
    + exists q. split; [by apply elem_of_app; left|done].
    + exists p. split; [by apply elem_of_app; right; left|done].
Qed.

(** The pod that is taken out is the one with the key; what is subtracted is computed
    from the argument, which has the same containers. *)
Lemma RemovePod_spec n p q gen :
  info_wf n → q ∈ pods n → PUID p = PUID q → PContainers p = PContainers q →
  ∃ n', NodeInfo_RemovePod n p gen = (Ok (), n', gen + 1) ∧ info_wf n' ∧ pods n ≡ₚ q :: pods n' ∧ node n' = node n ∧
    generation n' = gen + 1 ∧ nodeImageStates n' = nodeImageStates n.
Proof.
  intros Hw Hq Hu Hc. pose proof (iw_keys n Hw q Hq) as Hk. destruct (calculateResource_same p q Hc) as [Er Ep].
  pose proof (remove_key_perm (pods n) q (iw_uids n Hw) Hq Hk) as Hperm.
  unfold NodeInfo_RemovePod, GetPodKey. rewrite Hu, bool_decide_false by done. unfold remove_key in Hperm.
  destruct (find_key (PUID q) (pods n)) as [i|] eqn:Ef; [|by destruct (find_key_None _ _ Hk Ef); apply list_elem_of_fmap_2].
  rewrite Er. destruct (calculateResource q) as [[res c] m] eqn:E. eexists. split; [done|]. split; [|done].
  set (left := swap_remove i (pods n)) in *.
  assert (PUID q ∉ uids left ∧ NoDup (uids left)) as [Hn Hnd].
  { pose proof (iw_uids n Hw) as H. rewrite Hperm in H. simpl in H. by apply NoDup_cons in H. }
  constructor; simpl.
  - done.
  - intros x Hx. apply (iw_keys n Hw). rewrite Hperm. by right.
  - pose proof (iw_affinity n Hw) as Ha. rewrite Hperm in Ha. destruct (PAffinity q) eqn:Ea.
    + rewrite filter_cons_True in Ha by done. apply (Permutation_cons_inv (a := q)). rewrite <- Ha. symmetry.
      apply remove_key_perm; [|rewrite Ha; by left|done]. rewrite Ha. simpl. apply NoDup_cons.
      split; [|eapply sublist_NoDup; [exact Hnd|apply fmap_sublist, sublist_filter]].
      intros (x & Hx & Hin)%list_elem_of_fmap_1. apply list_elem_of_filter in Hin as [_ Hin]. apply Hn. rewrite Hx.
      by apply list_elem_of_fmap_2.
    + rewrite filter_cons_False in Ha by congruence. rewrite remove_key_id; [done|]. rewrite Ha.
      intros (x & Hx & Hin)%list_elem_of_fmap_1. apply list_elem_of_filter in Hin as [_ Hin]. apply Hn. rewrite Hx.
      by apply list_elem_of_fmap_2.
  - intros k. rewrite amount_sub by (rewrite (iw_requested n Hw); apply wrap64_range).
    rewrite (iw_requested n Hw), Hperm. rewrite <- Z.add_opp_r, wrap64_add_l. simpl. unfold request at 1. rewrite E.
    simpl. f_equal. lia.
  - rewrite (iw_cpu n Hw), Hperm. rewrite <- Z.add_opp_r, wrap64_add_l. simpl. unfold nonzero_cpu at 1. rewrite E.
    simpl. f_equal. lia.
  - rewrite (iw_memory n Hw), Hperm. rewrite <- Z.add_opp_r, wrap64_add_l. simpl. unfold nonzero_memory at 1. rewrite E.
    simpl. f_equal. lia.
  - intros e [(x & Hx & He)%(iw_ports n Hw) Hne]%(uses_update _ p false). exists x. split; [|done].
    rewrite Hperm in Hx. apply elem_of_cons in Hx as [->|Hx]; [|done]. by rewrite Ep in Hne.
Qed.

(** The other operations keep the pods, and take a new generation. *)
Lemma SetNode_spec n nd gen :
  info_wf n → info_wf (SetNode n nd gen).1 ∧ pods (SetNode n nd gen).1 = pods n ∧ generation (SetNode n nd gen).1 = gen + 1.
Proof. intros []. split; [by constructor|done]. Qed.

Lemma NodeInfo_RemoveNode_spec n gen :
  info_wf n → info_wf (NodeInfo_RemoveNode n gen).1 ∧ pods (NodeInfo_RemoveNode n gen).1 = pods n ∧
    generation (NodeInfo_RemoveNode n gen).1 = gen + 1.
Proof. intros []. split; [by constructor|done]. Qed.

(** ** A port of two pods *)

Definition ex_port_pod (uid : string) : SchedPod :=
  mkSchedPod uid "ns" uid ∅ "n1" [mkPodContainer ∅ [mkPort "" "" 80]] false.

(** When one of two pods with the same host port goes, the port is free although the
    other pod still uses it. *)
Theorem shared_port_freed :
  let n := (NodeInfo_AddPod (NodeInfo_AddPod (NewNodeInfo 0).1 (ex_port_pod "a") 1).1 (ex_port_pod "b") 2).1 in
  let '(r, n', _) := NodeInfo_RemovePod n (ex_port_pod "a") 3 in
  r = Ok () ∧ pods n' = [ex_port_pod "b"] ∧ CheckConflict (usedPorts n) "" "" 80 = true ∧
  CheckConflict (usedPorts n') "" "" 80 = false.
Proof. vm_compute. repeat split. Qed.
