(* ===== verification/SchedulerCache.v ===== *)
(** * The scheduler's cache

    [pkg/scheduler/internal/cache/cache.go]: the pods that are added to nodes or assumed
    to be, the information kept of each node, the node tree and the images. Each
    operation runs under the lock of the cache and is a step from one state to the next.
    A program stop ([ErrFatal]) and a nil pointer that is followed ([ErrNilPointer],
    [ErrMissingState]) are error values. *)

From S2P Require Import Prelude GoStrings GoInt PodQos Validation NodeTree NodeInfo LabelSelector.

(** ** State *)

(** Times are in nanoseconds. *)
Record podState : Type := mkPodState {
  psPod : SchedPod;
  deadline : option Z;
  bindingFinished : bool;
}.

Record imageState : Type := mkImageState {
  imageSize : Z;
  imageNodes : gset string;
}.

(** [assumedPods] maps keys to [true] only. The counter of generations is a variable of
    the package [cache]. *)
Record Cache : Type := mkCache {
  ttl : Z;
  assumedPods : gset string;
  podStates : gmap string podState;
  cacheNodes : gmap string NodeInfo;
  nodeTree : NodeTree;
  imageStates : gmap string imageState;
  gen : Z;
}.

Definition newSchedulerCache (ttl gen : Z) : Cache := mkCache ttl ∅ ∅ ∅ (newNodeTree []) ∅ gen.

Definition set_nodes (c : Cache) (ns : gmap string NodeInfo) (g : Z) : Cache :=
  mkCache (ttl c) (assumedPods c) (podStates c) ns (nodeTree c) (imageStates c) g.

Definition set_pods (c : Cache) (assumed : gset string) (states : gmap string podState) : Cache :=
  mkCache (ttl c) assumed states (cacheNodes c) (nodeTree c) (imageStates c) (gen c).

Definition set_tree (c : Cache) (nt : NodeTree) : Cache :=
  mkCache (ttl c) (assumedPods c) (podStates c) (cacheNodes c) nt (imageStates c) (gen c).

Definition set_images (c : Cache) (im : gmap string imageState) : Cache :=
  mkCache (ttl c) (assumedPods c) (podStates c) (cacheNodes c) (nodeTree c) im (gen c).

(** ** Pods of nodes *)

(** The information of a node, made when there is none. *)
Definition get_or_new (c : Cache) (name : string) : NodeInfo * Z :=
  match cacheNodes c !! name with
  | Some n => (n, gen c)
  | None => NewNodeInfo (gen c)
  end.

Definition addPod (c : Cache) (pod : SchedPod) : Cache :=
  let '(n, g) := get_or_new c (PNodeName pod) in
  let '(n, g) := NodeInfo_AddPod n pod g in
  set_nodes c (<[PNodeName pod := n]> (cacheNodes c)) g.

(** A node that has neither pods nor a node object goes. *)
Definition put_or_drop (ns : gmap string NodeInfo) (name : string) (n : NodeInfo) : gmap string NodeInfo :=
  match pods n, node n with
  | [], None => delete name ns
  | _, _ => <[name := n]> ns
  end.

(** [RemovePod] of a nil node reads the pods of it after the key. *)
Definition removePod (c : Cache) (pod : SchedPod) : result CacheError unit * Cache :=
  match cacheNodes c !! PNodeName pod with
  | None => ((match GetPodKey pod with Err e => Err e | Ok _ => Err ErrNilPointer end), c)
  | Some n =>
      match NodeInfo_RemovePod n pod (gen c) with
      | (Err e, n, g) => (Err e, set_nodes c (<[PNodeName pod := n]> (cacheNodes c)) g)
      | (Ok _, n, g) => (Ok (), set_nodes c (put_or_drop (cacheNodes c) (PNodeName pod) n) g)
      end
  end.

Definition updatePod (c : Cache) (oldPod newPod : SchedPod) : result CacheError unit * Cache :=
  match removePod c oldPod with
  | (Err e, c) => (Err e, c)
  | (Ok _, c) => (Ok (), addPod c newPod)
  end.

(** ** Operations on pods *)

Definition AssumePod (c : Cache) (pod : SchedPod) : result CacheError unit * Cache :=
  match GetPodKey pod with
  | Err e => (Err e, c)
  | Ok key =>
      match podStates c !! key with
      | Some _ => (Err (ErrInCache key), c)
      | None =>
          let c := addPod c pod in
          (Ok (), set_pods c ({[key]} ∪ assumedPods c) (<[key := mkPodState pod None false]> (podStates c)))
      end
  end.

Definition finishBinding (c : Cache) (pod : SchedPod) (now : Z) : result CacheError unit * Cache :=
  match GetPodKey pod with
  | Err e => (Err e, c)
  | Ok key =>
      match podStates c !! key with
      | Some currState =>
          if bool_decide (key ∈ assumedPods c) then
            (Ok (), set_pods c (assumedPods c) (<[key := mkPodState (psPod currState) (Some (now + ttl c)) true]> (podStates c)))
          else (Ok (), c)
      | None => (Ok (), c)
      end
  end.

Definition ForgetPod (c : Cache) (pod : SchedPod) : result CacheError unit * Cache :=
  match GetPodKey pod with
  | Err e => (Err e, c)
  | Ok key =>
      match podStates c !! key with
      | Some currState =>
          if negb (bool_decide (PNodeName (psPod currState) = PNodeName pod)) then (Err (ErrAssumedElsewhere key), c)
          else if bool_decide (key ∈ assumedPods c) then
            match removePod c pod with
            | (Err e, c) => (Err e, c)
            | (Ok _, c) => (Ok (), set_pods c (assumedPods c ∖ {[key]}) (delete key (podStates c)))
            end
          else (Err (ErrNotAssumed key), c)
      | None => (Err (ErrNotAssumed key), c)
      end
  end.

(** The error of [removePod] is ignored; the panic is not. *)
Definition AddPod (c : Cache) (pod : SchedPod) : result CacheError unit * Cache :=
  match GetPodKey pod with
  | Err e => (Err e, c)
  | Ok key =>
      match podStates c !! key with
      | Some currState =>
          if bool_decide (key ∈ assumedPods c) then
            let moved :=
              if negb (bool_decide (PNodeName (psPod currState) = PNodeName pod)) then
                match removePod c (psPod currState) with
                | (Err ErrNilPointer, c) => (Err ErrNilPointer, c)
                | (_, c) => (Ok (), addPod c pod)
                end
              else (Ok (), c) in
            match moved with
            | (Err e, c) => (Err e, c)
            | (Ok _, c) =>
                (Ok (), set_pods c (assumedPods c ∖ {[key]})
                  (<[key := mkPodState pod None (bindingFinished currState)]> (podStates c)))
            end
          else (Err (ErrAlreadyAdded key), c)
      | None =>
          let c := addPod c pod in
          (Ok (), set_pods c (assumedPods c) (<[key := mkPodState pod None false]> (podStates c)))
      end
  end.

Definition UpdatePod (c : Cache) (oldPod newPod : SchedPod) : result CacheError unit * Cache :=
  match GetPodKey oldPod with
  | Err e => (Err e, c)
  | Ok key =>
      match podStates c !! key with
      | Some currState =>
          if bool_decide (key ∈ assumedPods c) then (Err (ErrNotAdded key), c)
          else if negb (bool_decide (PNodeName (psPod currState) = PNodeName newPod)) then (Err ErrFatal, c)
          else
            match updatePod c oldPod newPod with
            | (Err e, c) => (Err e, c)
            | (Ok _, c) =>
                (Ok (), set_pods c (assumedPods c)
                  (<[key := mkPodState newPod (deadline currState) (bindingFinished currState)]> (podStates c)))
            end
      | None => (Err (ErrNotAdded key), c)
      end
  end.

Definition RemovePod (c : Cache) (pod : SchedPod) : result CacheError unit * Cache :=
  match GetPodKey pod with
  | Err e => (Err e, c)
  | Ok key =>
      match podStates c !! key with
      | Some currState =>
          if bool_decide (key ∈ assumedPods c) then (Err (ErrNotAdded key), c)
          else if negb (bool_decide (PNodeName (psPod currState) = PNodeName pod)) then (Err ErrFatal, c)
          else
            match removePod c (psPod currState) with
            | (Err e, c) => (Err e, c)
            | (Ok _, c) => (Ok (), set_pods c (assumedPods c) (delete key (podStates c)))
            end
      | None => (Err (ErrNotAdded key), c)
      end
  end.

Definition IsAssumedPod (c : Cache) (pod : SchedPod) : result CacheError bool :=
  match GetPodKey pod with
  | Err e => Err e
  | Ok key => Ok (bool_decide (key ∈ assumedPods c))
  end.

Definition GetPod (c : Cache) (pod : SchedPod) : result CacheError SchedPod :=
  match GetPodKey pod with
  | Err e => Err e
  | Ok key => match podStates c !! key with None => Err (ErrNotAdded key) | Some ps => Ok (psPod ps) end
  end.

(** ** Expiry *)

Definition expirePod (c : Cache) (key : string) (ps : podState) : result CacheError unit * Cache :=
  match removePod c (psPod ps) with
  | (Err e, c) => (Err e, c)
  | (Ok _, c) => (Ok (), set_pods c (assumedPods c ∖ {[key]}) (delete key (podStates c)))
  end.

(** The turn of the loop for one key; an error of [expirePod] is logged, a panic stops. *)
Definition cleanup_one (now : Z) (c : Cache) (key : string) : result CacheError unit * Cache :=
  match podStates c !! key with
  | None => (Err ErrMissingState, c)
  | Some ps =>
      if negb (bindingFinished ps) then (Ok (), c)
      else
        match deadline ps with
        | None => (Err ErrNilPointer, c)
        | Some dl =>
            if dl <? now then
              match expirePod c key ps with
              | (Err ErrNilPointer, c) => (Err ErrNilPointer, c)
              | (_, c) => (Ok (), c)
              end
            else (Ok (), c)
        end
  end.

(** [keys] lists the assumed pods in the order of the iteration. *)
Fixpoint cleanupAssumedPods (now : Z) (keys : list string) (c : Cache) : result CacheError unit * Cache :=
  match keys with
  | [] => (Ok (), c)
  | key :: keys =>
      match cleanup_one now c key with
      | (Err e, c) => (Err e, c)
      | (Ok _, c) => cleanupAssumedPods now keys c
      end
  end.

(** ** Nodes and images *)

Definition createImageStateSummary (state : imageState) : ImageStateSummary :=
  mkSummary (imageSize state) (Z.of_nat (size (imageNodes state))).

Definition image_names (nd : SchedNode) : list (string * Z) := Images nd ≫= λ im, (λ name, (name, SizeBytes im)) <$> Names im.

(** The turn of the loops for one name of an image. *)
Definition add_image (nodeName : string) (acc : gmap string imageState * gmap string ImageStateSummary)
    (image : string * Z) : gmap string imageState * gmap string ImageStateSummary :=
  let '(states, newSum) := acc in
  let '(name, sizeBytes) := image in
  let state := match states !! name with
    | None => mkImageState sizeBytes {[nodeName]}
    | Some state => mkImageState (imageSize state) ({[nodeName]} ∪ imageNodes state)
    end in
  (<[name := state]> states,
   match newSum !! name with None => <[name := createImageStateSummary state]> newSum | Some _ => newSum end).

(** The states and the summaries that the node gets. *)
Definition addNodeImageStates (states : gmap string imageState) (nd : SchedNode) :
    gmap string imageState * gmap string ImageStateSummary :=
  fold_left (add_image (NodeName (SNode nd))) (image_names nd) (states, ∅).

Definition remove_image (nodeName : string) (states : gmap string imageState) (image : string * Z) :
    gmap string imageState :=
  match states !! image.1 with
  | None => states
  | Some state =>
      let left := imageNodes state ∖ {[nodeName]} in
      if (size left =? 0)%nat then delete image.1 states else <[image.1 := mkImageState (imageSize state) left]> states
  end.

Definition removeNodeImageStates (states : gmap string imageState) (nd : option SchedNode) : gmap string imageState :=
  match nd with
  | None => states
  | Some nd => fold_left (remove_image (NodeName (SNode nd))) (image_names nd) states
  end.

(** The images of the new node and the node itself, after the tree has changed. *)
Definition set_node_info (c : Cache) (n : NodeInfo) (nd : SchedNode) : Cache :=
  let '(im, newSum) := addNodeImageStates (imageStates c) nd in
  let '(n, g) := SetNode (SetImageStates n newSum) nd (gen c) in
  set_images (set_nodes c (<[NodeName (SNode nd) := n]> (cacheNodes c)) g) im.

(** The information of the node: found, without its images, or new. *)
Definition start_node (c : Cache) (nd : SchedNode) : NodeInfo * Cache :=
  let name := NodeName (SNode nd) in
  match cacheNodes c !! name with
  | None => let '(n, g) := NewNodeInfo (gen c) in (n, set_nodes c (<[name := n]> (cacheNodes c)) g)
  | Some n => (n, set_images c (removeNodeImageStates (imageStates c) (node n)))
  end.

Definition AddNode (c : Cache) (nd : SchedNode) : Cache :=
  let '(n, c) := start_node c nd in
  set_node_info (set_tree c (addNode (nodeTree c) (SNode nd))) n nd.

Definition UpdateNode (c : Cache) (oldNode : option SchedNode) (newNode : SchedNode) : result CacheError unit * Cache :=
  let '(n, c) := start_node c newNode in
  match NodeTree.UpdateNode (nodeTree c) (SNode <$> oldNode) (SNode newNode) with
  | None => (Err ErrNilPointer, c)
  | Some nt => (Ok (), set_node_info (set_tree c nt) n newNode)
  end.

(** The error of the tree is ignored. *)
Definition RemoveNode (c : Cache) (nd : SchedNode) : result CacheError unit * Cache :=
  let name := NodeName (SNode nd) in
  match cacheNodes c !! name with
  | None => (Err ErrNilPointer, c)
  | Some n =>
      let '(n, g) := NodeInfo_RemoveNode n (gen c) in
      let c := set_nodes c (put_or_drop (cacheNodes c) name n) g in
      let c := set_tree c (removeNode (nodeTree c) (SNode nd)).1 in
      (Ok (), set_images c (removeNodeImageStates (imageStates c) (Some nd)))
  end.

(** ** Reading *)

(** A clone has the same contents; what it shares with the original is replaced there
    and never changed. *)
Definition Snapshot (c : Cache) : gmap string NodeInfo * gset string := (cacheNodes c, assumedPods c).

Definition refresh_one (name : string) (info : NodeInfo) (m : gmap string NodeInfo) : gmap string NodeInfo :=
  match m !! name with
  | Some current => if generation current =? generation info then m else <[name := info]> m
  | None => <[name := info]> m
  end.

Definition UpdateNodeNameToInfoMap (c : Cache) (nodeNameToInfo : gmap string NodeInfo) : gmap string NodeInfo :=
  let m := map_fold refresh_one nodeNameToInfo (cacheNodes c) in
  filter (λ kv, is_Some (cacheNodes c !! kv.1)) m.

(** The order of the nodes is the one of a map. *)
Definition FilteredList (c : Cache) (podFilter : SchedPod → bool) (selector : Selector) : list SchedPod :=
  map_to_list (cacheNodes c) ≫= λ kv,
    filter (λ p, podFilter p && Matches selector (PLabels p) = true) (pods kv.2).

Definition CacheList (c : Cache) (selector : Selector) : list SchedPod := FilteredList c (λ _, true) selector.

(** ** Steps of the nodes *)

(** The node object of a name. *)
Definition node_of (ns : gmap string NodeInfo) (x : string) : option SchedNode := ns !! x ≫= node.

(** A step that gives every node it changes a generation of its own. *)
Definition fresh_step (ns ns' : gmap string NodeInfo) (g g' : Z) : Prop :=
  g ≤ g' ∧ ∀ x n, ns' !! x = Some n → ns !! x = Some n ∨ g < generation n.

Lemma fresh_step_refl ns g : fresh_step ns ns g g.
Proof. split; [lia|auto]. Qed.

Lemma fresh_step_trans ns1 ns2 ns3 g1 g2 g3 :
  fresh_step ns1 ns2 g1 g2 → fresh_step ns2 ns3 g2 g3 → fresh_step ns1 ns3 g1 g3.
Proof.
  intros [? H1] [? H2]. split; [lia|]. intros x n Hn. destruct (H2 x n Hn) as [Hn'|]; [|right; lia].
  by apply H1.
Qed.

Lemma fresh_insert ns x n g g' : g < generation n → g ≤ g' → fresh_step ns (<[x := n]> ns) g g'.
Proof. intros Hg ?. split; [done|]. intros y m [[-> ->]|[_ ?]]%lookup_insert_Some; auto. Qed.

Lemma fresh_put_or_drop ns x n g g' : g < generation n → g ≤ g' → fresh_step ns (put_or_drop ns x n) g g'.
Proof.
  intros Hg ?. assert (fresh_step ns (<[x := n]> ns) g g') as Hi by (by apply fresh_insert).
  assert (fresh_step ns (delete x ns) g g') as Hd by (split; [done|]; intros y m [_ ?]%lookup_delete_Some; auto).
  unfold put_or_drop. by repeat case_match.
Qed.

Lemma put_or_drop_lookup ns x n y m :
  put_or_drop ns x n !! y = Some m ↔ (y = x ∧ m = n ∧ (pods n ≠ [] ∨ is_Some (node n))) ∨ (y ≠ x ∧ ns !! y = Some m).
Proof.
  unfold put_or_drop. destruct (pods n) as [|p l] eqn:Ep, (node n) as [nd|] eqn:En;
    rewrite ?lookup_insert_Some, ?lookup_delete_Some; naive_solver.
Qed.

Lemma put_or_drop_node ns x n y : node_of (put_or_drop ns x n) y = if decide (y = x) then node n else node_of ns y.
Proof.
  unfold node_of, put_or_drop. destruct (decide (y = x)) as [->|].
  - destruct (pods n) as [|p l], (node n) as [nd|] eqn:En; rewrite ?lookup_insert_eq, ?lookup_delete_eq; simpl; done.
  - destruct (pods n), (node n); rewrite ?lookup_insert_ne, ?lookup_delete_ne by done; done.
Qed.

(** ** Where the pods are *)

(** The containers of a pod do not change while it exists: they are a function of its
    identity. *)
Section Invariant.
Context (spec : string → list PodContainer).

Definition conforms (p : SchedPod) : Prop := PContainers p = spec (PUID p).

(** What a node has to be when [placed] says on which node each pod is. *)
Record info_ok (placed : gmap string string) (g : Z) (x : string) (n : NodeInfo) : Prop := mk_info_ok {
  io_wf : info_wf n;
  io_live : pods n ≠ [] ∨ is_Some (node n);
  io_gen : generation n ≤ g;
  io_pods : ∀ p, p ∈ pods n → conforms p ∧ placed !! PUID p = Some x;
}.

Record nodes_ok (placed : gmap string string) (ns : gmap string NodeInfo) (g : Z) : Prop := mk_nodes_ok {
  no_infos : ∀ x n, ns !! x = Some n → info_ok placed g x n;
  no_placed : ∀ u x, placed !! u = Some x → u ≠ "" ∧ ∃ n p, ns !! x = Some n ∧ p ∈ pods n ∧ PUID p = u;
}.

Lemma info_ok_mono placed placed' g g' x n :
  info_ok placed g x n → g ≤ g' → (∀ p, p ∈ pods n → placed !! PUID p = Some x → placed' !! PUID p = Some x) →
  info_ok placed' g' x n.
Proof.
  intros [] ? Hp. constructor; [done|done|lia|]. intros p Hin. destruct (io_pods0 p Hin). split; [done|]. by apply Hp.
Qed.

Lemma addPod_ok placed c pod :
  nodes_ok placed (cacheNodes c) (gen c) → PUID pod ≠ "" → conforms pod → placed !! PUID pod = None →
  ∃ ns g, addPod c pod = set_nodes c ns g ∧ nodes_ok (<[PUID pod := PNodeName pod]> placed) ns g ∧
    fresh_step (cacheNodes c) ns (gen c) g ∧ ∀ x, node_of ns x = node_of (cacheNodes c) x.
Proof.
  intros [Hinfos Hplaced] Hk Hc Hn. unfold addPod.
  destruct (get_or_new c (PNodeName pod)) as [n0 g0] eqn:E0.
  assert (info_wf n0 ∧ gen c ≤ g0 ∧ node n0 = node_of (cacheNodes c) (PNodeName pod) ∧
    pods n0 = default [] (pods <$> cacheNodes c !! PNodeName pod)) as (Hw0 & Hg0 & Hnd0 & Hp0).
  { unfold get_or_new in E0. unfold node_of. destruct (cacheNodes c !! PNodeName pod) as [n|] eqn:E.
    - injection E0 as <- <-. split_and!; [by destruct (Hinfos _ _ E)|lia|done|done].
    - pose proof (info_wf_new (gen c)) as Hw. rewrite E0 in Hw. unfold NewNodeInfo in E0. injection E0 as <- <-.
      split_and!; [done|lia|done|done]. }
  assert (∀ p, p ∈ pods n0 → conforms p ∧ placed !! PUID p = Some (PNodeName pod)) as Hpods.
  { intros p Hp. rewrite Hp0 in Hp. destruct (cacheNodes c !! PNodeName pod) as [n|] eqn:E; [|by apply not_elem_of_nil in Hp].
    by apply (io_pods _ _ _ _ (Hinfos _ _ E)). }
  assert (PUID pod ∉ uids (pods n0)) as Hnin.
  { intros (p & Hu & Hp)%list_elem_of_fmap_1. apply Hpods in Hp as [_ Hp]. rewrite <- Hu in Hp. congruence. }
  destruct (AddPod_spec n0 pod g0 Hw0 Hk Hnin) as (n & E & Hw & Hp & Hnd & Hg & _). rewrite E.
  eexists _, _. split; [done|]. split_and!; [constructor| |].
  - intros x m [[<- <-]|[Hne Hm]]%lookup_insert_Some.
    + constructor; [done|rewrite Hp; left; by destruct (pods n0)|lia|]. intros p. rewrite Hp.
      intros [Hin| ->%list_elem_of_singleton]%elem_of_app; [|by rewrite lookup_insert_eq].
      destruct (Hpods p Hin). split; [done|]. rewrite lookup_insert_ne by congruence. done.
    + eapply info_ok_mono; [by apply Hinfos|lia|]. intros p Hin Hpl. by rewrite lookup_insert_ne by congruence.
  - intros u x [[<- <-]|[Hne Hu]]%lookup_insert_Some.
    + split; [done|]. exists n, pod. rewrite lookup_insert_eq, Hp. split_and!; [done|apply elem_of_app; right; by left|done].
    + destruct (Hplaced u x Hu) as (? & m & p & Hm & Hin & Hpu). split; [done|].
      destruct (decide (x = PNodeName pod)) as [->|].
      * exists n, p. rewrite lookup_insert_eq, Hp, Hp0, Hm. split_and!; [done|apply elem_of_app; by left|done].
      * exists m, p. by rewrite lookup_insert_ne.
  - apply fresh_insert; lia.
  - intros x. unfold node_of. destruct (decide (x = PNodeName pod)) as [->|].
    + rewrite lookup_insert_eq. simpl. by rewrite Hnd, Hnd0.
    + by rewrite lookup_insert_ne.
Qed.

Lemma removePod_ok placed c pod :
  nodes_ok placed (cacheNodes c) (gen c) → conforms pod → placed !! PUID pod = Some (PNodeName pod) →
  ∃ ns g, removePod c pod = (Ok (), set_nodes c ns g) ∧ nodes_ok (delete (PUID pod) placed) ns g ∧
    fresh_step (cacheNodes c) ns (gen c) g ∧ ∀ x, node_of ns x = node_of (cacheNodes c) x.
Proof.
  intros [Hinfos Hplaced] Hc Hpl. destruct (Hplaced _ _ Hpl) as (Hk & n & q & Hn & Hq & Hu).
  pose proof (Hinfos _ _ Hn) as Hio. destruct (io_pods _ _ _ _ Hio q Hq) as [Hcq _].
  destruct (RemovePod_spec n pod q (gen c) (io_wf _ _ _ _ Hio) Hq) as (n' & E & Hw & Hp & Hnd & Hg & _); [done|congruence|].
  unfold removePod. rewrite Hn, E. eexists _, _. split; [done|].
  assert (∀ p, p ∈ pods n' → p ∈ pods n ∧ PUID p ≠ PUID pod) as Hleft.
  { intros p Hin. split; [rewrite Hp; by right|]. intros E'. pose proof (iw_uids n (io_wf _ _ _ _ Hio)) as Hnd'.
    rewrite Hp in Hnd'. simpl in Hnd'. apply NoDup_cons in Hnd' as [Hni _]. apply Hni. rewrite Hu, <- E'.
    by apply list_elem_of_fmap_2. }
  split_and!; [constructor| |].
  - intros x m [(-> & -> & Hlive)|[Hne Hm]]%put_or_drop_lookup.
    + constructor; [done|done|lia|]. intros p Hin. destruct (Hleft p Hin) as [Hin' Hne].
      rewrite lookup_delete_ne by congruence. by apply (io_pods _ _ _ _ Hio).
    + eapply info_ok_mono; [by apply Hinfos|lia|]. intros p Hin Hpx. rewrite lookup_delete_ne; [done|]. congruence.
  - intros u x [Hne Hux]%lookup_delete_Some. destruct (Hplaced u x Hux) as (? & m & p & Hm & Hin & Hpu). split; [done|].
    destruct (decide (x = PNodeName pod)) as [->|Hx].
    + rewrite Hn in Hm. injection Hm as <-. exists n', p. rewrite Hp in Hin. apply elem_of_cons in Hin as [->|Hin]; [congruence|].
      split_and!; [|done|done]. apply put_or_drop_lookup. left. split_and!; [done|done|]. left. intros E'.
      rewrite E' in Hin. by apply not_elem_of_nil in Hin.
    + exists m, p. split_and!; [|done|done]. apply put_or_drop_lookup. by right.
  - apply fresh_put_or_drop; lia.
  - intros x. rewrite put_or_drop_node. destruct (decide (x = PNodeName pod)) as [->|]; [|done].
    unfold node_of. by rewrite Hn, Hnd.
Qed.
End Invariant.
