(* ===== verification/SchedulerCacheSpec.v ===== *)
(** * What the scheduler's cache promises

    The state machine of a pod in [pkg/scheduler/internal/cache/interface.go], and that
    the operations of the cache implement it, with the cases in which they stop the process
    or panic, the sums that the
    nodes carry, the snapshots that are brought up to date by generations, and the node
    tree and the images that follow the nodes. *)

From S2P Require Import Prelude GoStrings GoInt PodQos Validation NodeTree NodeInfo LabelSelector SchedulerCache.

(** ** The state machine *)

(** A pod that is not in the cache, one assumed on a node, with the time from which it
    expires once its binding is finished, and one added to a node. *)
Inductive status : Type :=
  | Absent
  | Assumed (node : string) (expiry : option Z)
  | Added (node : string).

Inductive pod_op : Type :=
  | OAssume (p : SchedPod)
  | OFinish (p : SchedPod) (now : Z)
  | OForget (p : SchedPod)
  | OAdd (p : SchedPod)
  | OUpdate (old new : SchedPod)
  | ORemove (p : SchedPod).

Definition op_pod (o : pod_op) : SchedPod :=
  match o with OAssume p | OFinish p _ | OForget p | OAdd p | OUpdate p _ | ORemove p => p end.

Definition run_pod (c : Cache) (o : pod_op) : result CacheError unit * Cache :=
  match o with
  | OAssume p => AssumePod c p
  | OFinish p now => finishBinding c p now
  | OForget p => ForgetPod c p
  | OAdd p => AddPod c p
  | OUpdate old new => UpdatePod c old new
  | ORemove p => RemovePod c p
  end.

(** The transitions of the diagram; [None] where it has none. *)
Definition machine (ttl : Z) (o : pod_op) (s : status) : option status :=
  match o, s with
  | OAssume p, Absent => Some (Assumed (PNodeName p) None)
  | OFinish p now, Assumed x _ => Some (Assumed x (Some (now + ttl)))
  | OFinish _ _, s => Some s
  | OForget p, Assumed x _ => if bool_decide (x = PNodeName p) then Some Absent else None
  | OAdd p, (Absent | Assumed _ _) => Some (Added (PNodeName p))
  | OUpdate _ new, Added _ => Some (Added (PNodeName new))
  | ORemove _, Added _ => Some Absent
  | _, _ => None
  end.

(** Expiry: what became of a pod that is assumed. *)
Definition expire (now : Z) (s : status) : status :=
  match s with
  | Assumed x (Some dl) => if dl <? now then Absent else s
  | _ => s
  end.

Definition pod_status (assumed : bool) (ps : podState) : status :=
  if assumed then Assumed (PNodeName (psPod ps)) (if bindingFinished ps then deadline ps else None)
  else Added (PNodeName (psPod ps)).

Definition status_of (c : Cache) (u : string) : status :=
  match podStates c !! u with
  | None => Absent
  | Some ps => pod_status (bool_decide (u ∈ assumedPods c)) ps
  end.

(** The errors that are not a crash of the process. *)
Definition crash (e : CacheError) : bool :=
  match e with ErrFatal | ErrMissingState | ErrNilPointer => true | _ => false end.

(** ** Images *)

(** The nodes that have an image. *)
Definition image_nodes (states : gmap string imageState) (name : string) : gset string :=
  default ∅ (imageNodes <$> states !! name).

Definition no_empty_images (states : gmap string imageState) : Prop :=
  ∀ name st, states !! name = Some st → imageNodes st ≠ ∅.

Lemma add_images_spec x l states sum :
  let states' := (fold_left (add_image x) l (states, sum)).1 in
  (no_empty_images states → no_empty_images states') ∧
  ∀ name y, y ∈ image_nodes states' name ↔ y ∈ image_nodes states name ∨ y = x ∧ name ∈ l.*1.
Proof.
  revert states sum. induction l as [|[name sz] l IH]; intros states sum.
  { split; [done|]. intros ? y. cbn. rewrite elem_of_nil. tauto. }
  cbn [fold_left add_image].
  set (st := match states !! name with None => _ | Some _ => _ end).
  assert (∀ y, y ∈ imageNodes st ↔ y ∈ image_nodes states name ∨ y = x) as Hst.
  { intros y. unfold st, image_nodes. destruct (states !! name); simpl; set_solver. }
  destruct (IH (<[name := st]> states) (match sum !! name with None => <[name := createImageStateSummary st]> sum | Some _ => sum end))
    as [IH1 IH2]. split.
  - intros Hne. apply IH1. intros k st' [[<- <-]|[_ Hk]]%lookup_insert_Some; [|by apply (Hne k)].
    intros E. apply (not_elem_of_empty (C := gset string) x). rewrite <- E. apply Hst. by right.
  - intros k y. rewrite IH2. rewrite fmap_cons, elem_of_cons. unfold image_nodes at 1.
    destruct (decide (k = name)) as [->|Hne].
    + rewrite lookup_insert_eq. simpl. rewrite Hst. naive_solver.
    + rewrite lookup_insert_ne by done. fold (image_nodes states k). simpl. naive_solver.
Qed.

Lemma remove_images_spec x l states :
  let states' := fold_left (remove_image x) l states in
  (no_empty_images states → no_empty_images states') ∧
  ∀ name y, y ∈ image_nodes states' name ↔ y ∈ image_nodes states name ∧ ¬ (y = x ∧ name ∈ l.*1).
Proof.
  revert states. induction l as [|[name sz] l IH]; intros states.
  { split; [done|]. intros ? y. cbn. rewrite elem_of_nil. tauto. }
  cbn [fold_left]. destruct (IH (remove_image x states (name, sz))) as [IH1 IH2].
  assert (no_empty_images states → no_empty_images (remove_image x states (name, sz))) as H1.
  { intros Hne. unfold remove_image. simpl. destruct (states !! name) as [st|] eqn:E; [|done].
    destruct (Nat.eqb_spec (size (imageNodes st ∖ {[x]})) 0) as [?|Hs].
    - intros k st' [_ ?]%lookup_delete_Some. by apply (Hne k).
    - intros k st' [[<- <-]|[_ Hk]]%lookup_insert_Some; [|by apply (Hne k)]. simpl. intros E'. by rewrite E', size_empty in Hs. }
  assert (∀ k y, y ∈ image_nodes (remove_image x states (name, sz)) k ↔ y ∈ image_nodes states k ∧ ¬ (y = x ∧ k = name)) as H2.
  { intros k y. unfold remove_image. simpl. destruct (states !! name) as [st|] eqn:E.
    2:{ split; [|tauto]. intros Hy. split; [done|]. intros [_ ->]. unfold image_nodes in Hy. rewrite E in Hy. set_solver. }
    destruct (Nat.eqb_spec (size (imageNodes st ∖ {[x]})) 0) as [Hs%size_empty_inv|Hs]; unfold image_nodes;
      (destruct (decide (k = name)) as [->|]; [|rewrite ?lookup_delete_ne, ?lookup_insert_ne by done; naive_solver]).
    - rewrite lookup_delete_eq, E. simpl. set_solver.
    - rewrite lookup_insert_eq, E. simpl. set_solver. }
  split; [auto|]. intros k y. rewrite IH2, H2, fmap_cons, elem_of_cons. simpl. naive_solver.
Qed.

(** ** The invariant of the pods *)

Section Machine.
Context (spec : string → list PodContainer).

Definition placement (c : Cache) : gmap string string := (λ ps, PNodeName (psPod ps)) <$> podStates c.

Record pods_ok (c : Cache) : Prop := mk_pods_ok {
  po_nodes : nodes_ok spec (placement c) (cacheNodes c) (gen c);
  po_states : ∀ u ps, podStates c !! u = Some ps → PUID (psPod ps) = u ∧ conforms spec (psPod ps);
  po_assumed : ∀ u, u ∈ assumedPods c →
    ∃ ps, podStates c !! u = Some ps ∧ (bindingFinished ps = true → is_Some (deadline ps));
}.

(** The rest of the cache is as before. *)
Definition same_rest (c c' : Cache) : Prop :=
  ttl c' = ttl c ∧ nodeTree c' = nodeTree c ∧ imageStates c' = imageStates c ∧
  (∀ x, node_of (cacheNodes c') x = node_of (cacheNodes c) x) ∧
  fresh_step (cacheNodes c) (cacheNodes c') (gen c) (gen c').

(** A step that changes the status of one pod. *)
Definition moved (c c' : Cache) (u : string) (s : status) : Prop :=
  pods_ok c' ∧ same_rest c c' ∧ ∀ v, status_of c' v = if decide (v = u) then s else status_of c v.

(** What a step may do to the nodes. *)
Definition nodes_step (c : Cache) (placed : gmap string string) (ns : gmap string NodeInfo) (g : Z) : Prop :=
  nodes_ok spec placed ns g ∧ fresh_step (cacheNodes c) ns (gen c) g ∧
  ∀ x, node_of ns x = node_of (cacheNodes c) x.

Lemma moved_insert c ns g assumed u ps :
  pods_ok c → nodes_step c (<[u := PNodeName (psPod ps)]> (placement c)) ns g →
  PUID (psPod ps) = u → conforms spec (psPod ps) → (∀ v, v ≠ u → v ∈ assumed ↔ v ∈ assumedPods c) →
  (u ∈ assumed → bindingFinished ps = true → is_Some (deadline ps)) →
  moved c (set_pods (set_nodes c ns g) assumed (<[u := ps]> (podStates c))) u (pod_status (bool_decide (u ∈ assumed)) ps).
Proof.
  intros Hok (Hns & Hf & Hnd) Hu Hc Ha Hdl. split; [constructor; simpl|split].
  - unfold placement. simpl. by rewrite fmap_insert.
  - intros v ps' [[<- <-]|[_ ?]]%lookup_insert_Some; [done|by apply (po_states c Hok)].
  - intros v Hv. destruct (decide (v = u)) as [->|Hne]; [rewrite lookup_insert_eq; eauto|].
    rewrite lookup_insert_ne by done. apply (po_assumed c Hok). by apply Ha.
  - by split_and!.
  - intros v. unfold status_of. simpl. destruct (decide (v = u)) as [->|Hne]; [by rewrite lookup_insert_eq|].
    rewrite lookup_insert_ne by done. by rewrite (bool_decide_ext _ _ (Ha v Hne)).
Qed.

Lemma moved_delete c ns g assumed u :
  pods_ok c → nodes_step c (delete u (placement c)) ns g → u ∉ assumed → (∀ v, v ≠ u → v ∈ assumed ↔ v ∈ assumedPods c) →
  moved c (set_pods (set_nodes c ns g) assumed (delete u (podStates c))) u Absent.
Proof.
  intros Hok (Hns & Hf & Hnd) Hu Ha. split; [constructor; simpl|split].
  - unfold placement. simpl. by rewrite fmap_delete.
  - intros v ps' [_ ?]%lookup_delete_Some. by apply (po_states c Hok).
  - intros v Hv. assert (v ≠ u) by (intros ->; done). rewrite lookup_delete_ne by done.
    apply (po_assumed c Hok). by apply Ha.
  - by split_and!.
  - intros v. unfold status_of. simpl. destruct (decide (v = u)) as [->|Hne]; [by rewrite lookup_delete_eq|].
    rewrite lookup_delete_ne by done. by rewrite (bool_decide_ext _ _ (Ha v Hne)).
Qed.

Lemma placement_lookup c u ps : podStates c !! u = Some ps → placement c !! u = Some (PNodeName (psPod ps)).
Proof. intros E. unfold placement. by rewrite lookup_fmap, E. Qed.

Lemma set_nodes_id c : set_nodes c (cacheNodes c) (gen c) = c.
Proof. by destruct c. Qed.

Lemma nodes_step_id c u ps :
  pods_ok c → podStates c !! u = Some ps → ∀ x, x = PNodeName (psPod ps) →
  nodes_step c (<[u := x]> (placement c)) (cacheNodes c) (gen c).
Proof.
  intros Hok E x ->. rewrite insert_id by (by apply placement_lookup).
  split_and!; [apply Hok|apply fresh_step_refl|done].
Qed.

(** Adding a pod that is not placed and removing one that is. *)
Lemma addPod_step c pod :
  pods_ok c → PUID pod ≠ "" → conforms spec pod → podStates c !! PUID pod = None →
  ∃ ns g, addPod c pod = set_nodes c ns g ∧ nodes_step c (<[PUID pod := PNodeName pod]> (placement c)) ns g.
Proof.
  intros Hok Hk Hc Hn. destruct (addPod_ok spec (placement c) c pod) as (ns & g & E & H1 & H2 & H3);
    [apply Hok|done|done|unfold placement; by rewrite lookup_fmap, Hn|]. exists ns, g. done.
Qed.

Lemma removePod_step c pod :
  pods_ok c → conforms spec pod → placement c !! PUID pod = Some (PNodeName pod) →
  ∃ ns g, removePod c pod = (Ok (), set_nodes c ns g) ∧ nodes_step c (delete (PUID pod) (placement c)) ns g.
Proof.
  intros Hok Hc Hn. destruct (removePod_ok spec (placement c) c pod) as (ns & g & E & H1 & H2 & H3);
    [apply Hok|done|done|]. exists ns, g. done.
Qed.

(** Moving a pod: [removePod] of one form of it and [addPod] of the other. *)
Lemma move_step c old new :
  pods_ok c → conforms spec old → conforms spec new → PUID new = PUID old →
  placement c !! PUID old = Some (PNodeName old) →
  ∃ c1 ns g, removePod c old = (Ok (), c1) ∧ addPod c1 new = set_nodes c ns g ∧
    nodes_step c (<[PUID old := PNodeName new]> (placement c)) ns g.
Proof.
  intros Hok Hco Hcn Hu Hp. destruct (removePod_step c old Hok Hco Hp) as (ns & g & E & H1 & H2 & H3).
  destruct (no_placed _ _ _ _ (po_nodes c Hok) _ _ Hp) as [Hk _].
  destruct (addPod_ok spec (delete (PUID old) (placement c)) (set_nodes c ns g) new) as (ns' & g' & E' & H1' & H2' & H3');
    [done|congruence|done|by rewrite Hu, lookup_delete_eq|].
  exists (set_nodes c ns g), ns', g'. split_and!; [done|by rewrite E'|].
  split_and!; [|by eapply fresh_step_trans|].
  - by rewrite Hu, insert_delete_eq in H1'.
  - intros x. by rewrite H3', <- H3.
Qed.

(** ** The operations on pods *)

(** What the callers guarantee: a pod keeps its containers, and an update is of one pod. *)
Definition valid_pod (c : Cache) (o : pod_op) : Prop :=
  conforms spec (op_pod o) ∧
  match o with
  | OUpdate old new => conforms spec new ∧ PUID new = PUID old
  | _ => True
  end.

(** What becomes of an operation: the pod moves, the operation returns an error that changes
    nothing, or the process stops or panics. *)
Inductive verdict : Type :=
  | Moves (s : status)
  | Refuses
  | Stops (e : CacheError).

(** The verdict, in the words of the diagram but for two cases: an update or a removal that
    names another node than the one that an added pod is on stops the process, and an update
    whose old object names another node fails to take the pod from there, with a panic when
    that node is not known. *)
Definition verdict_of (c : Cache) (o : pod_op) : verdict :=
  match o, status_of c (PUID (op_pod o)) with
  | OUpdate old new, Added x =>
      if negb (bool_decide (x = PNodeName new)) then Stops ErrFatal
      else if bool_decide (x = PNodeName old) then Moves (Added x)
      else match node_of (cacheNodes c) (PNodeName old) with Some _ => Refuses | None => Stops ErrNilPointer end
  | ORemove p, Added x => if negb (bool_decide (x = PNodeName p)) then Stops ErrFatal else Moves Absent
  | _, s => match machine (ttl c) o s with Some s => Moves s | None => Refuses end
  end.

Definition follows (c : Cache) (o : pod_op) : Prop :=
  match verdict_of c o with
  | Moves s => machine (ttl c) o (status_of c (PUID (op_pod o))) = Some s ∧
      ∃ c', run_pod c o = (Ok (), c') ∧ moved c c' (PUID (op_pod o)) s
  | Refuses => ∃ e, run_pod c o = (Err e, c) ∧ crash e = false
  | Stops e => run_pod c o = (Err e, c) ∧ crash e = true
  end.

Lemma GetPodKey_ok p : PUID p ≠ "" → GetPodKey p = Ok (PUID p).
Proof. intros Hk. unfold GetPodKey. by rewrite bool_decide_false. Qed.

Lemma AssumePod_follows c p : pods_ok c → valid_pod c (OAssume p) → PUID p ≠ "" → follows c (OAssume p).
Proof.
  intros Hok [Hc _] Hk. unfold follows, verdict_of, status_of. simpl in *. unfold AssumePod. rewrite GetPodKey_ok by done.
  destruct (podStates c !! PUID p) as [ps|] eqn:E.
  { unfold pod_status. case_bool_decide; eexists; done. }
  destruct (addPod_step c p Hok Hk Hc E) as (ns & g & -> & Hns).
  pose proof (moved_insert c ns g ({[PUID p]} ∪ assumedPods c) (PUID p) (mkPodState p None false) Hok Hns eq_refl Hc) as Hm.
  rewrite bool_decide_true in Hm by set_solver. split; [done|]. eexists. split; [done|]. apply Hm; [set_solver|done].
Qed.

Lemma finishBinding_follows c p now : pods_ok c → valid_pod c (OFinish p now) → PUID p ≠ "" → follows c (OFinish p now).
Proof.
  intros Hok [Hc _] Hk. unfold follows, verdict_of. simpl in *. unfold finishBinding. rewrite GetPodKey_ok by done.
  assert (∀ s, status_of c (PUID p) = s → moved c c (PUID p) s) as Hid.
  { intros s <-. split_and!; [done|split_and!; [done..|apply fresh_step_refl]|]. intros v. by case_decide; subst. }
  specialize (Hid _ eq_refl). unfold status_of in *. destruct (podStates c !! PUID p) as [ps|] eqn:E; [|split; [done|eauto]].
  unfold pod_status in *. case_bool_decide as Ha; [|split; [done|eauto]]. split; [done|]. eexists. split; [done|].
  destruct (po_states c Hok _ _ E) as [Hu Hcps]. set (ps' := mkPodState (psPod ps) (Some (now + ttl c)) true).
  pose proof (moved_insert c (cacheNodes c) (gen c) (assumedPods c) (PUID p) ps' Hok
    (nodes_step_id c _ ps Hok E _ eq_refl) Hu Hcps) as Hm.
  rewrite bool_decide_true, set_nodes_id in Hm by done. apply Hm; [done|eauto].
Qed.

Lemma ForgetPod_follows c p : pods_ok c → valid_pod c (OForget p) → PUID p ≠ "" → follows c (OForget p).
Proof.
  intros Hok [Hc _] Hk. unfold follows, verdict_of, status_of. simpl in *. unfold ForgetPod. rewrite GetPodKey_ok by done.
  destruct (podStates c !! PUID p) as [ps|] eqn:E; [|eexists; done]. unfold pod_status.
  destruct (bool_decide (PUID p ∈ assumedPods c)) eqn:Ha; repeat case_bool_decide; simpl; try done; try (eexists; done).
  destruct (removePod_step c p Hok Hc) as (ns & g & -> & Hns); [rewrite (placement_lookup c _ ps E); congruence|].
  split; [done|]. eexists. split; [done|]. apply (moved_delete c ns g); [done|done|set_solver|set_solver].
Qed.

Lemma AddPod_follows c p : pods_ok c → valid_pod c (OAdd p) → PUID p ≠ "" → follows c (OAdd p).
Proof.
  intros Hok [Hc _] Hk. unfold follows, verdict_of, status_of. simpl in *. unfold AddPod. rewrite GetPodKey_ok by done.
  destruct (podStates c !! PUID p) as [ps|] eqn:E.
  2:{ destruct (addPod_step c p Hok Hk Hc E) as (ns & g & -> & Hns). split; [done|]. eexists. split; [done|].
      pose proof (moved_insert c ns g (assumedPods c) (PUID p) (mkPodState p None false) Hok Hns eq_refl Hc) as Hm.
      rewrite bool_decide_false in Hm; [by apply Hm|]. intros (ps & ? & _)%(po_assumed c Hok). congruence. }
  unfold pod_status. case_bool_decide as Ha; [|eexists; done]. destruct (po_states c Hok _ _ E) as [Hu Hcps].
  assert (∃ ns g, (if negb (bool_decide (PNodeName (psPod ps) = PNodeName p)) then
      match removePod c (psPod ps) with
      | (Err ErrNilPointer, c) => (Err ErrNilPointer, c)
      | (_, c) => (Ok (), addPod c p)
      end
    else (Ok (), c)) = (Ok (E := CacheError) (), set_nodes c ns g) ∧
    nodes_step c (<[PUID p := PNodeName p]> (placement c)) ns g) as (ns & g & -> & Hns).
  { case_bool_decide as Hx; simpl.
    - exists (cacheNodes c), (gen c). rewrite set_nodes_id. split; [done|]. by eapply nodes_step_id.
    - destruct (move_step c (psPod ps) p Hok Hcps Hc) as (c1 & ns & g & -> & E' & Hns); [done| |].
      { rewrite Hu. by apply placement_lookup. }
      exists ns, g. rewrite E'. split; [done|]. by rewrite Hu in Hns. }
  split; [done|]. eexists. split; [done|].
  pose proof (moved_insert c ns g (assumedPods c ∖ {[PUID p]}) (PUID p) (mkPodState p None (bindingFinished ps)) Hok Hns eq_refl Hc) as Hm.
  rewrite bool_decide_false in Hm by set_solver. apply Hm; [set_solver|]. intros ?. set_solver.
Qed.

(** Taking a pod from a node that does not have it. *)
Lemma removePod_elsewhere c pod x :
  pods_ok c → PUID pod ≠ "" → placement c !! PUID pod = Some x → x ≠ PNodeName pod →
  ∃ e, removePod c pod = (Err e, c) ∧
    match node_of (cacheNodes c) (PNodeName pod) with Some _ => crash e = false | None => e = ErrNilPointer end.
Proof.
  intros Hok Hk Hp Hx. unfold removePod, node_of, GetPodKey. rewrite bool_decide_false by done.
  destruct (cacheNodes c !! PNodeName pod) as [n|] eqn:E; [|by eexists]. cbn [mbind option_bind].
  destruct (no_infos _ _ _ _ (po_nodes c Hok) _ _ E) as [Hwf _ _ Hpods].
  assert (PUID pod ∉ uids (pods n)) as Hn.
  { intros (q & Hq & Hin)%list_elem_of_fmap_1. destruct (Hpods q Hin) as [_ Hq']. rewrite <- Hq, Hp in Hq'. congruence. }
  unfold NodeInfo_RemovePod, GetPodKey. rewrite bool_decide_false by done.
  destruct (find_key (PUID pod) (pods n)) as [i|] eqn:Ef.
  { destruct (find_key_Some _ _ _ Ef) as (q & Hi & Hq). destruct Hn. rewrite <- Hq. by apply list_elem_of_fmap_2, list_elem_of_lookup_2 with i. }
  rewrite remove_key_id.
  - assert (mkNodeInfo (node n) (pods n) (podsWithAffinity n) (usedPorts n) (requestedResource n) (nonzeroRequest n)
      (allocatableResource n) (nodeImageStates n) (generation n) = n) as -> by by destruct n.
    rewrite insert_id by done. destruct (node n); rewrite set_nodes_id; eexists; done.
  - intros Hin. apply Hn. revert Hin. unfold uids. rewrite (iw_affinity n Hwf). intros (q & -> & [_ Hq]%list_elem_of_filter)%list_elem_of_fmap_1.
    by apply list_elem_of_fmap_2.
Qed.

Lemma UpdatePod_follows c old new : pods_ok c → valid_pod c (OUpdate old new) → PUID old ≠ "" → follows c (OUpdate old new).
Proof.
  intros Hok (Hco & Hcn & Hu) Hk. unfold follows, verdict_of. simpl in *. unfold UpdatePod. rewrite GetPodKey_ok by done.
  unfold status_of in *. destruct (podStates c !! PUID old) as [ps|] eqn:E; [|eexists; done]. unfold pod_status in *.
  case_bool_decide as Ha; [eexists; done|].
  destruct (bool_decide_reflect (PNodeName (psPod ps) = PNodeName new)) as [Hnew|Hnew]; simpl; [|done]. unfold updatePod.
  case_bool_decide as Hold.
  - split; [by rewrite <- Hnew|].
    destruct (move_step c old new Hok Hco Hcn Hu) as (c1 & ns & g & -> & E' & Hns);
      [rewrite (placement_lookup c _ ps E); congruence|]. rewrite E'. eexists. split; [done|].
    pose proof (moved_insert c ns g (assumedPods c) (PUID old) (mkPodState new (deadline ps) (bindingFinished ps)) Hok Hns Hu Hcn) as Hm.
    rewrite bool_decide_false in Hm by done. unfold pod_status in Hm. simpl in Hm. rewrite Hnew. by apply Hm.
  - destruct (removePod_elsewhere c old _ Hok Hk (placement_lookup c _ ps E) Hold) as (e & -> & He).
    destruct (node_of (cacheNodes c) (PNodeName old)); [by exists e|by rewrite He].
Qed.

Lemma RemovePod_follows c p : pods_ok c → valid_pod c (ORemove p) → PUID p ≠ "" → follows c (ORemove p).
Proof.
  intros Hok [Hc _] Hk. unfold follows, verdict_of. simpl in *. unfold RemovePod. rewrite GetPodKey_ok by done.
  unfold status_of in *. destruct (podStates c !! PUID p) as [ps|] eqn:E; [|eexists; done]. unfold pod_status in *.
  case_bool_decide as Ha; [eexists; done|]. destruct (po_states c Hok _ _ E) as [Hu Hcps].
  destruct (bool_decide_reflect (PNodeName (psPod ps) = PNodeName p)) as [Hx|Hx]; simpl; [|done]. split; [done|].
  destruct (removePod_step c (psPod ps) Hok Hcps) as (ns & g & -> & Hns); [rewrite Hu; by apply placement_lookup|].
  eexists. split; [done|]. rewrite Hu in Hns. by apply (moved_delete c ns g).
Qed.

Lemma run_pod_follows c o : pods_ok c → valid_pod c o → PUID (op_pod o) ≠ "" → follows c o.
Proof.
  destruct o; auto using AssumePod_follows, finishBinding_follows, ForgetPod_follows, AddPod_follows,
    UpdatePod_follows, RemovePod_follows.
Qed.

(** A pod without an identity is refused. *)
Lemma run_pod_empty c o : PUID (op_pod o) = "" → run_pod c o = (Err ErrEmptyUID, c).
Proof.
  intros Hk. assert (GetPodKey (op_pod o) = Err ErrEmptyUID) as E by (unfold GetPodKey; by rewrite bool_decide_true).
  destruct o; simpl in *; unfold AssumePod, finishBinding, ForgetPod, AddPod, UpdatePod, RemovePod; by rewrite E.
Qed.

(** ** Expiry *)

Lemma same_rest_refl c : same_rest c c.
Proof. split_and!; [done..|apply fresh_step_refl]. Qed.

Lemma same_rest_trans c1 c2 c3 : same_rest c1 c2 → same_rest c2 c3 → same_rest c1 c3.
Proof.
  intros (? & ? & ? & Hn1 & Hf1) (? & ? & ? & Hn2 & Hf2). split_and!; [congruence..| |by eapply fresh_step_trans].
  intros x. by rewrite Hn2, Hn1.
Qed.

Lemma assumed_status c u : pods_ok c → u ∈ assumedPods c ↔ ∃ x e, status_of c u = Assumed x e.
Proof.
  intros Hok. unfold status_of, pod_status. split.
  - intros Ha. destruct (po_assumed c Hok u Ha) as (ps & -> & _). rewrite bool_decide_true by done. eauto.
  - intros (x & e & E). destruct (podStates c !! u); [|done]. by case_bool_decide.
Qed.

Lemma cleanup_one_ok now c u :
  pods_ok c → u ∈ assumedPods c → ∃ c', cleanup_one now c u = (Ok (), c') ∧ moved c c' u (expire now (status_of c u)).
Proof.
  intros Hok Ha. destruct (po_assumed c Hok u Ha) as (ps & E & Hdl). destruct (po_states c Hok _ _ E) as [Hu Hc].
  assert (∀ s, status_of c u = s → moved c c u s) as Hid.
  { intros s <-. split_and!; [done|apply same_rest_refl|]. intros v. by case_decide; subst. }
  specialize (Hid _ eq_refl). unfold cleanup_one. unfold status_of in *. rewrite E in *. unfold pod_status in *.
  rewrite bool_decide_true in * by done. destruct (bindingFinished ps); simpl in *; [|eauto].
  destruct (Hdl eq_refl) as [dl Edl]. rewrite Edl in *. simpl in *. destruct (dl <? now); [|eauto]. unfold expirePod.
  destruct (removePod_step c (psPod ps) Hok Hc) as (ns & g & -> & Hns); [rewrite Hu; by apply placement_lookup|].
  eexists. split; [done|]. rewrite Hu in Hns. apply (moved_delete c ns g); [done|done|set_solver|set_solver].
Qed.

Lemma cleanup_ok now keys c :
  pods_ok c → NoDup keys → (∀ u, u ∈ keys → u ∈ assumedPods c) →
  ∃ c', cleanupAssumedPods now keys c = (Ok (), c') ∧ pods_ok c' ∧ same_rest c c' ∧
    ∀ v, status_of c' v = if decide (v ∈ keys) then expire now (status_of c v) else status_of c v.
Proof.
  intros Hok Hnd. revert c Hok. induction Hnd as [|u keys Hu Hnd IH]; intros c Hok Ha; cbn [cleanupAssumedPods].
  { exists c. split_and!; [done|done|apply same_rest_refl|]. intros v. by rewrite decide_False by apply not_elem_of_nil. }
  destruct (cleanup_one_ok now c u Hok) as (c1 & -> & Hok1 & Hs1 & Hst1); [apply Ha; by left|].
  destruct (IH c1 Hok1) as (c' & -> & Hok' & Hs' & Hst').
  { intros v Hv. rewrite (assumed_status c1 v Hok1), Hst1, decide_False by (intros ->; done).
    apply (assumed_status c v Hok), Ha. by right. }
  exists c'. split_and!; [done|done|by eapply same_rest_trans|]. intros v. rewrite Hst', Hst1.
  destruct (decide (v = u)) as [->|Hne]; [rewrite decide_False, decide_True by (done || by left); done|].
  destruct (decide (v ∈ keys)); [rewrite decide_True by (by right)|rewrite decide_False by set_solver]; done.
Qed.

(** One turn of the loop that the cache starts, over the assumed pods in any order. *)
Lemma cleanupAssumedPods_spec now keys c :
  pods_ok c → keys ≡ₚ elements (assumedPods c) →
  ∃ c', cleanupAssumedPods now keys c = (Ok (), c') ∧ pods_ok c' ∧ same_rest c c' ∧
    ∀ v, status_of c' v = expire now (status_of c v).
Proof.
  intros Hok Hp. destruct (cleanup_ok now keys c Hok) as (c' & E & Hok' & Hs & Hst).
  - rewrite Hp. apply NoDup_elements.
  - intros u. rewrite Hp. apply elem_of_elements.
  - exists c'. split_and!; [done|done|done|]. intros v. rewrite Hst. case_decide as Hv; [done|].
    rewrite Hp, elem_of_elements in Hv. unfold status_of, pod_status. rewrite bool_decide_false by done.
    by destruct (podStates c !! v).
Qed.

(** ** The operations on nodes *)

Lemma nodes_ok_set placed ns g x n' g' :
  nodes_ok spec placed ns g → info_wf n' → pods n' = default [] (pods <$> ns !! x) → is_Some (node n') →
  generation n' = g' → g ≤ g' → nodes_ok spec placed (<[x := n']> ns) g'.
Proof.
  intros [Hinfos Hplaced] Hw Hp Hnd Hg Hle. constructor.
  - intros y m [[<- <-]|[Hne Hm]]%lookup_insert_Some; [|apply (info_ok_mono spec placed placed g g' y m); eauto].
    constructor; [done|by right|lia|]. intros p Hin. rewrite Hp in Hin.
    destruct (ns !! x) as [n|] eqn:E; [|by apply not_elem_of_nil in Hin]. by apply (io_pods _ _ _ _ _ (Hinfos _ _ E)).
  - intros u y Hu. destruct (Hplaced u y Hu) as (? & n & p & Hn & Hin & Hpu). split; [done|].
    destruct (decide (y = x)) as [->|].
    + exists n', p. rewrite lookup_insert_eq, Hp, Hn. done.
    + exists n, p. by rewrite lookup_insert_ne.
Qed.

Lemma nodes_ok_drop placed ns g x n n' g' :
  nodes_ok spec placed ns g → ns !! x = Some n → info_wf n' → pods n' = pods n → generation n' = g' → g ≤ g' →
  nodes_ok spec placed (put_or_drop ns x n') g'.
Proof.
  intros [Hinfos Hplaced] Hn Hw Hp Hg Hle. constructor.
  - intros y m [(-> & -> & Hl)|[Hne Hm]]%put_or_drop_lookup; [|apply (info_ok_mono spec placed placed g g' y m); eauto].
    constructor; [done|done|lia|]. intros p. rewrite Hp. by apply (io_pods _ _ _ _ _ (Hinfos _ _ Hn)).
  - intros u y Hu. destruct (Hplaced u y Hu) as (? & m & p & Hm & Hin & Hpu). split; [done|].
    destruct (decide (y = x)) as [->|].
    + rewrite Hn in Hm. injection Hm as <-. exists n', p. rewrite Hp. split_and!; [|done|done].
      apply put_or_drop_lookup. left. split_and!; [done|done|]. left. rewrite Hp. intros E. rewrite E in Hin.
      by apply not_elem_of_nil in Hin.
    + exists m, p. split_and!; [|done|done]. apply put_or_drop_lookup. by right.
Qed.

(** Both ways to a node object: the pods of the node stay. *)
Lemma start_set c nd :
  pods_ok c →
  let name := NodeName (SNode nd) in
  ∃ n c1, start_node c nd = (n, c1) ∧ nodeTree c1 = nodeTree c ∧ ∀ nt, ∃ n' g',
    set_node_info (set_tree c1 nt) n nd = mkCache (ttl c) (assumedPods c) (podStates c) (<[name := n']> (cacheNodes c)) nt
      (addNodeImageStates (removeNodeImageStates (imageStates c) (node_of (cacheNodes c) name)) nd).1 g' ∧
    node n' = Some nd ∧ nodes_ok spec (placement c) (<[name := n']> (cacheNodes c)) g' ∧
    fresh_step (cacheNodes c) (<[name := n']> (cacheNodes c)) (gen c) g'.
Proof.
  intros Hok name. unfold start_node, set_node_info, node_of. fold name.
  destruct (cacheNodes c !! name) as [n|] eqn:E; simpl; (eexists _, _; split; [done|]; split; [done|]; intros nt; simpl).
  - destruct (addNodeImageStates _ nd) as [im sum]. eexists _, _. split; [done|]. split; [done|].
    pose proof (io_wf _ _ _ _ _ (no_infos _ _ _ _ (po_nodes c Hok) _ _ E)) as [].
    split; [eapply nodes_ok_set; [apply Hok| | | | |]|apply fresh_insert]; simpl; rewrite ?E; eauto; try lia. by constructor.
  - destruct (addNodeImageStates _ nd) as [im sum]. eexists _, _. simpl. rewrite insert_insert_eq. split; [done|]. split; [done|].
    destruct (info_wf_new (gen c)).
    split; [eapply nodes_ok_set; [apply Hok| | | | |]|apply fresh_insert]; simpl; rewrite ?E; eauto; try lia. by constructor.
Qed.

(** The tree has the names of the nodes in their zones, and the images of each node
    name it. *)
Record nodes_match (c : Cache) : Prop := mk_nodes_match {
  nm_names : ∀ x nd, node_of (cacheNodes c) x = Some nd → NodeName (SNode nd) = x;
  nm_wf : NodeTree.wf (nodeTree c);
  nm_tree : ∀ z x, x ∈ names (nodeTree c) z ↔ ∃ nd, node_of (cacheNodes c) x = Some nd ∧ GetZoneKey (SNode nd) = z;
  nm_images : ∀ name x, x ∈ image_nodes (imageStates c) name ↔
    ∃ nd, node_of (cacheNodes c) x = Some nd ∧ name ∈ (image_names nd).*1;
  nm_nonempty : no_empty_images (imageStates c);
}.

Lemma nodes_match_same c c' : same_rest c c' → nodes_match c → nodes_match c'.
Proof.
  intros (_ & Ht & Hi & Hn & _) []. constructor; rewrite ?Ht, ?Hi; try done.
  - intros x nd. rewrite Hn. auto.
  - intros z x. rewrite nm_tree0. by setoid_rewrite Hn.
  - intros name x. rewrite nm_images0. by setoid_rewrite Hn.
Qed.

Lemma node_of_insert ns x n y : node_of (<[x := n]> ns) y = if decide (y = x) then node n else node_of ns y.
Proof.
  unfold node_of. destruct (decide (y = x)) as [->|]; [by rewrite lookup_insert_eq|by rewrite lookup_insert_ne].
Qed.

(** The images after the old node object is taken out and a new one put in. *)
Lemma images_replaced c nd :
  nodes_match c →
  let name := NodeName (SNode nd) in
  let states := (addNodeImageStates (removeNodeImageStates (imageStates c) (node_of (cacheNodes c) name)) nd).1 in
  no_empty_images states ∧
  ∀ im x, x ∈ image_nodes states im ↔
    if decide (x = name) then im ∈ (image_names nd).*1 else x ∈ image_nodes (imageStates c) im.
Proof.
  intros Hm name states.
  assert (let r := removeNodeImageStates (imageStates c) (node_of (cacheNodes c) name) in
    no_empty_images r ∧ ∀ im x, x ∈ image_nodes r im ↔ x ∈ image_nodes (imageStates c) im ∧ x ≠ name) as [Hr1 Hr2].
  { unfold removeNodeImageStates. destruct (node_of (cacheNodes c) name) as [old|] eqn:E.
    - destruct (remove_images_spec (NodeName (SNode old)) (image_names old) (imageStates c)) as [H1 H2].
      split; [by apply H1, Hm|]. intros im x. rewrite H2, (nm_names c Hm name old E). split; [|tauto].
      intros [Hx Hn]. split; [done|]. intros ->. apply Hn. split; [done|].
      apply (nm_images c Hm) in Hx as (nd' & E' & Hin). congruence.
    - split; [apply Hm|]. intros im x. split; [|tauto]. intros Hx. split; [done|]. intros ->.
      apply (nm_images c Hm) in Hx as (nd' & E' & _). congruence. }
  unfold states, addNodeImageStates.
  destruct (add_images_spec (NodeName (SNode nd)) (image_names nd)
    (removeNodeImageStates (imageStates c) (node_of (cacheNodes c) name)) ∅) as [H1 H2].
  split; [by apply H1|]. intros im x. rewrite H2, Hr2. fold name. case_decide; naive_solver.
Qed.

(** Setting the node object of a name keeps the nodes in step with the tree and the
    images, when the tree is changed for that name. *)
Lemma nodes_match_set c nd nt n' g' :
  nodes_match c → node n' = Some nd → NodeTree.wf nt →
  let name := NodeName (SNode nd) in
  (∀ z x, x ∈ names nt z ↔ if decide (x = name) then z = GetZoneKey (SNode nd) else x ∈ names (nodeTree c) z) →
  nodes_match (mkCache (ttl c) (assumedPods c) (podStates c) (<[name := n']> (cacheNodes c)) nt
    (addNodeImageStates (removeNodeImageStates (imageStates c) (node_of (cacheNodes c) name)) nd).1 g').
Proof.
  intros Hm Hn' Hw name Hnames. destruct (images_replaced c nd Hm) as [Hi1 Hi2]. fold name in Hi1, Hi2. constructor; simpl.
  - intros x nd'. rewrite node_of_insert. case_decide; [by intros; simplify_eq|apply Hm].
  - done.
  - intros z x. rewrite Hnames, node_of_insert. case_decide; [naive_solver|apply Hm].
  - intros im x. rewrite Hi2, node_of_insert. case_decide; [naive_solver|apply Hm].
  - done.
Qed.

Lemma AddNode_ok c nd :
  pods_ok c → nodes_match c →
  (∀ nd', node_of (cacheNodes c) (NodeName (SNode nd)) = Some nd' → GetZoneKey (SNode nd') = GetZoneKey (SNode nd)) →
  let c' := AddNode c nd in
  pods_ok c' ∧ nodes_match c' ∧ fresh_step (cacheNodes c) (cacheNodes c') (gen c) (gen c') ∧
  (∀ u, status_of c' u = status_of c u) ∧
  ∀ x, node_of (cacheNodes c') x = if decide (x = NodeName (SNode nd)) then Some nd else node_of (cacheNodes c) x.
Proof.
  intros Hok Hm Hz. unfold AddNode. destruct (start_set c nd Hok) as (n & c1 & -> & Ht & Hset).
  destruct (Hset (addNode (nodeTree c1) (SNode nd))) as (n' & g' & -> & Hn' & Hns & Hf). rewrite Ht.
  destruct (addNode_spec (nodeTree c) (SNode nd) (nm_wf c Hm)) as [Hw Hnames]. split_and!; try done.
  - constructor; [done|apply Hok..].
  - apply nodes_match_set; [done|done|done|]. intros z x. rewrite Hnames.
    case_decide as Hx; [|tauto]. subst x. rewrite (nm_tree c Hm). split; [|auto]. intros [(nd' & E & <-)|[-> _]]; [by apply Hz|done].
  - intros x. simpl. rewrite node_of_insert. by rewrite Hn'.
Qed.

Lemma UpdateNode_ok c old new :
  pods_ok c → nodes_match c → NodeName (SNode old) = NodeName (SNode new) →
  node_of (cacheNodes c) (NodeName (SNode new)) = Some old →
  ∃ c', UpdateNode c (Some old) new = (Ok (), c') ∧
  pods_ok c' ∧ nodes_match c' ∧ fresh_step (cacheNodes c) (cacheNodes c') (gen c) (gen c') ∧
  (∀ u, status_of c' u = status_of c u) ∧
  ∀ x, node_of (cacheNodes c') x = if decide (x = NodeName (SNode new)) then Some new else node_of (cacheNodes c) x.
Proof.
  intros Hok Hm Hn Hold. unfold UpdateNode. destruct (start_set c new Hok) as (n & c1 & -> & Ht & Hset). rewrite Ht.
  assert (∃ nt, NodeTree.UpdateNode (nodeTree c) (Some (SNode old)) (SNode new) = Some nt ∧ NodeTree.wf nt ∧
    ∀ z x, x ∈ names nt z ↔ if decide (x = NodeName (SNode new)) then z = GetZoneKey (SNode new) else x ∈ names (nodeTree c) z)
    as (nt & E & Hw & Hnames).
  { assert (∀ z x, x = NodeName (SNode new) → x ∈ names (nodeTree c) z ↔ z = GetZoneKey (SNode old)) as Hin.
    { intros z x ->. rewrite (nm_tree c Hm), Hold. naive_solver. }
    unfold NodeTree.UpdateNode. case_bool_decide as Ez; (eexists; split; [done|]).
    - split; [apply Hm|]. intros z x. case_decide; [rewrite Hin by done; by rewrite Ez|done].
    - destruct (removeNode_spec (nodeTree c) (SNode old) (nm_wf c Hm)) as (Hw1 & _ & Hn1).
      destruct (addNode_spec (removeNode (nodeTree c) (SNode old)).1 (SNode new) Hw1) as [Hw2 Hn2].
      split; [done|]. intros z x. rewrite Hn2, Hn1. case_decide; [rewrite Hin by done; rewrite Hn; naive_solver|naive_solver]. }
  simpl. rewrite E. destruct (Hset nt) as (n' & g' & -> & Hn' & Hns & Hf).
  eexists. split; [done|]. split_and!; try done.
  - constructor; [done|apply Hok..].
  - by apply nodes_match_set.
  - intros x. simpl. rewrite node_of_insert. by rewrite Hn'.
Qed.

Lemma RemoveNode_ok c nd :
  pods_ok c → nodes_match c → node_of (cacheNodes c) (NodeName (SNode nd)) = Some nd →
  ∃ c', RemoveNode c nd = (Ok (), c') ∧
  pods_ok c' ∧ nodes_match c' ∧ fresh_step (cacheNodes c) (cacheNodes c') (gen c) (gen c') ∧
  (∀ u, status_of c' u = status_of c u) ∧
  ∀ x, node_of (cacheNodes c') x = if decide (x = NodeName (SNode nd)) then None else node_of (cacheNodes c) x.
Proof.
  intros Hok Hm Hnd. unfold RemoveNode. set (name := NodeName (SNode nd)) in *.
  destruct (cacheNodes c !! name) as [n|] eqn:E; [|unfold node_of in Hnd; by rewrite E in Hnd]. simpl.
  eexists. split; [done|].
  destruct (NodeInfo_RemoveNode_spec n (gen c) (io_wf _ _ _ _ _ (no_infos _ _ _ _ (po_nodes c Hok) _ _ E))) as (Hw & Hp & Hg).
  assert (∀ x, node_of (put_or_drop (cacheNodes c) name (NodeInfo_RemoveNode n (gen c)).1) x =
    if decide (x = name) then None else node_of (cacheNodes c) x) as Hnode.
  { intros x. rewrite put_or_drop_node. done. }
  destruct (removeNode_spec (nodeTree c) (SNode nd) (nm_wf c Hm)) as (Hw1 & _ & Hn1).
  destruct (remove_images_spec name (image_names nd) (imageStates c)) as [Hi1 Hi2].
  split_and!; simpl; try done.
  - constructor; simpl; [|apply Hok..]. unfold placement. simpl.
    apply (nodes_ok_drop _ (cacheNodes c) (gen c) _ n); [apply Hok|done|done|done|done|lia].
  - constructor; simpl.
    + intros x nd'. setoid_rewrite Hnode. case_decide; [done|apply Hm].
    + done.
    + intros z x. rewrite Hn1, (nm_tree c Hm). setoid_rewrite Hnode. case_decide as Hx; [|naive_solver].
      subst x. rewrite Hnd. naive_solver.
    + intros im x. fold name. rewrite Hi2, (nm_images c Hm). setoid_rewrite Hnode. case_decide as Hx; [|naive_solver].
      subst x. rewrite Hnd. naive_solver.
    + by apply Hi1, Hm.
  - apply fresh_put_or_drop; simpl; lia.
Qed.

(** ** Events *)

(** The operations, the loop that expires pods, and generations that are taken by node
    information outside the cache. *)
Inductive event : Type :=
  | EPod (o : pod_op)
  | EExpire (now : Z) (keys : list string)
  | EAddNode (nd : SchedNode)
  | EUpdateNode (old new : SchedNode)
  | ERemoveNode (nd : SchedNode)
  | ETick (n : nat).

Definition run (c : Cache) (e : event) : result CacheError unit * Cache :=
  match e with
  | EPod o => run_pod c o
  | EExpire now keys => cleanupAssumedPods now keys c
  | EAddNode nd => (Ok (), AddNode c nd)
  | EUpdateNode old new => UpdateNode c (Some old) new
  | ERemoveNode nd => RemoveNode c nd
  | ETick n => (Ok (), set_nodes c (cacheNodes c) (gen c + Z.of_nat n))
  end.

(** The handlers are called with the object that they were called with before: a node that is
    known is removed and updated from what it was, and is added again in its zone. *)
Definition valid (c : Cache) (e : event) : Prop :=
  match e with
  | EPod o => valid_pod c o
  | EExpire _ keys => keys ≡ₚ elements (assumedPods c)
  | EAddNode nd =>
      ∀ nd', node_of (cacheNodes c) (NodeName (SNode nd)) = Some nd' → GetZoneKey (SNode nd') = GetZoneKey (SNode nd)
  | EUpdateNode old new =>
      NodeName (SNode old) = NodeName (SNode new) ∧ node_of (cacheNodes c) (NodeName (SNode new)) = Some old
  | ERemoveNode nd => cacheNodes c !! NodeName (SNode nd) = None ∨ node_of (cacheNodes c) (NodeName (SNode nd)) = Some nd
  | ETick _ => True
  end.

Definition cache_ok (c : Cache) : Prop := pods_ok c ∧ nodes_match c.

(** The process goes on. *)
Definition survives (r : result CacheError unit) : bool := match r with Err e => negb (crash e) | Ok _ => true end.

Lemma cache_ok_new ttl g : cache_ok (newSchedulerCache ttl g).
Proof.
  split; constructor; simpl; try done.
  - apply wf_new.
  - intros z x. unfold names, array_of. simpl. rewrite lookup_empty. simpl. split; [by intros ?%not_elem_of_nil|].
    intros (nd & E & _). done.
  - intros name x. split; [|by intros (nd & E & _)]. unfold image_nodes. rewrite lookup_empty. simpl. set_solver.
Qed.

Lemma pod_event_ok c o :
  cache_ok c → valid_pod c o →
  ∃ r c', run_pod c o = (r, c') ∧ cache_ok c' ∧ same_rest c c'.
Proof.
  intros [Hok Hm] Hv. destruct (decide (PUID (op_pod o) = "")) as [Hk|Hk].
  { rewrite run_pod_empty by done. eexists _, c. split_and!; [done|done|apply same_rest_refl]. }
  pose proof (run_pod_follows c o Hok Hv Hk) as Hf. unfold follows in Hf. destruct (verdict_of c o) as [st| |e].
  - destruct Hf as (_ & c' & E & Hok' & Hs & _). exists (Ok ()), c'.
    split_and!; [done|split; [done|by eapply nodes_match_same]|done].
  - destruct Hf as (e & E & He). exists (Err e), c. split_and!; [done|done|apply same_rest_refl].
  - destruct Hf as [E He]. exists (Err e), c. split_and!; [done|done|apply same_rest_refl].
Qed.

Lemma event_ok c e :
  cache_ok c → valid c e →
  ∃ r c', run c e = (r, c') ∧ cache_ok c' ∧
    fresh_step (cacheNodes c) (cacheNodes c') (gen c) (gen c').
Proof.
  intros Hc Hv. pose proof Hc as [Hok Hm]. destruct e as [o|now keys|nd|old new|nd|n]; simpl in *.
  - destruct (pod_event_ok c o Hc Hv) as (r & c' & E & Hc' & (_ & _ & _ & _ & Hf)). by exists r, c'.
  - destruct (cleanupAssumedPods_spec now keys c Hok Hv) as (c' & E & Hok' & Hs & _). exists (Ok ()), c'.
    split_and!; [done|split; [done|by eapply nodes_match_same]|apply Hs].
  - destruct (AddNode_ok c nd Hok Hm Hv) as (H1 & H2 & H3 & _). by eexists _, _.
  - destruct Hv as [Hn Ho]. destruct (UpdateNode_ok c old new Hok Hm Hn Ho) as (c' & E & H1 & H2 & H3 & _). by exists (Ok ()), c'.
  - destruct Hv as [Hv|Hv]; [unfold RemoveNode; rewrite Hv; exists (Err ErrNilPointer), c; split_and!; [done|done|apply fresh_step_refl]|].
    destruct (RemoveNode_ok c nd Hok Hm Hv) as (c' & E & H1 & H2 & H3 & _). by exists (Ok ()), c'.
  - eexists _, _. split; [done|]. split_and!; [split| ].
    + constructor; simpl; [|apply Hok..]. constructor; simpl; [|apply Hok]. intros x m Hx.
      eapply info_ok_mono; [by apply Hok|lia|done].
    + destruct Hm. by constructor.
    + split; [simpl; lia|auto].
Qed.

(** One after the other, while the process goes on. *)
Inductive steps : Cache → Cache → Prop :=
  | steps_refl c : steps c c
  | steps_event c1 c2 e : steps c1 c2 → valid c2 e → survives (run c2 e).1 = true → steps c1 (run c2 e).2.

Lemma steps_ok c c' :
  cache_ok c → steps c c' → cache_ok c' ∧ fresh_step (cacheNodes c) (cacheNodes c') (gen c) (gen c').
Proof.
  intros Hc Hs. induction Hs as [c|c1 c2 e _ IH Hv _]; [split; [done|apply fresh_step_refl]|].
  destruct (IH Hc) as [Hc2 Hf]. destruct (event_ok c2 e Hc2 Hv) as (r & c' & -> & Hc' & Hf'). simpl.
  split; [done|by eapply fresh_step_trans].
Qed.

(** The caches that a scheduler can have. *)
Definition reachable_cache (c : Cache) : Prop := ∃ t g, steps (newSchedulerCache t g) c.

Lemma reachable_cache_ok c : reachable_cache c → cache_ok c.
Proof. intros (t & g & Hs). by apply (steps_ok _ _ (cache_ok_new t g)) in Hs as [? _]. Qed.

(** ** Snapshots *)

(** A map of node information whose entries are older than the counter, and the same as
    the cache's where the generations are. *)
Definition snapshot_of (m : gmap string NodeInfo) (c : Cache) : Prop :=
  ∀ x i, m !! x = Some i → generation i ≤ gen c ∧
    ∀ n, cacheNodes c !! x = Some n → generation n = generation i → n = i.

Lemma snapshot_steps m c c' :
  snapshot_of m c → fresh_step (cacheNodes c) (cacheNodes c') (gen c) (gen c') → snapshot_of m c'.
Proof.
  intros Hm [Hg Hf] x i Hi. destruct (Hm x i Hi) as [Hle Heq]. split; [lia|]. intros n Hn Hgn.
  destruct (Hf x n Hn) as [Hn'|]; [by apply Heq|lia].
Qed.

Lemma refresh_lookup (m ns : gmap string NodeInfo) x :
  map_fold refresh_one m ns !! x = match ns !! x with
    | None => m !! x
    | Some n => match m !! x with
        | Some i => if generation i =? generation n then Some i else Some n
        | None => Some n
        end
    end.
Proof.
  apply (map_fold_weak_ind (λ r ns, r !! x = match ns !! x with
    | None => m !! x
    | Some n => match m !! x with
        | Some i => if generation i =? generation n then Some i else Some n
        | None => Some n
        end
    end) refresh_one m); [by rewrite lookup_empty|]. intros y n ns' r Hy IH. unfold refresh_one.
  destruct (decide (x = y)) as [->|Hne].
  - rewrite Hy in IH. rewrite lookup_insert_eq, IH. destruct (m !! y) as [i|] eqn:E; [|by rewrite lookup_insert_eq].
    destruct (_ =? _); [by rewrite IH|by rewrite lookup_insert_eq].
  - rewrite lookup_insert_ne by done. destruct (r !! y) as [i|]; [destruct (_ =? _)|]; by rewrite ?lookup_insert_ne.
Qed.

Lemma UpdateNodeNameToInfoMap_current m c : snapshot_of m c → UpdateNodeNameToInfoMap c m = cacheNodes c.
Proof.
  intros Hm. apply map_eq. intros x. unfold UpdateNodeNameToInfoMap.
  destruct (cacheNodes c !! x) as [n|] eqn:E.
  - apply map_lookup_filter_Some. simpl. rewrite E. split; [|eauto]. rewrite refresh_lookup, E.
    destruct (m !! x) as [i|] eqn:Ei; [|done]. destruct (Z.eqb_spec (generation i) (generation n)) as [Hg|]; [|done].
    f_equal. symmetry. by apply (Hm x i Ei).
  - apply map_lookup_filter_None. right. simpl. intros i _. rewrite E. by intros [? ?].
Qed.

Lemma snapshot_self c : cache_ok c → snapshot_of (cacheNodes c) c.
Proof.
  intros [Hok _] x i Hi. split; [apply (io_gen _ _ _ _ _ (no_infos _ _ _ _ (po_nodes c Hok) x i Hi))|]. congruence.
Qed.

(** ** What holds of every cache *)

Definition on_node (s : status) (x : string) : Prop :=
  match s with Absent => False | Assumed y _ | Added y => y = x end.

Lemma on_node_placed c u x : on_node (status_of c u) x ↔ placement c !! u = Some x.
Proof.
  unfold status_of, placement, pod_status. rewrite lookup_fmap. destruct (podStates c !! u) as [ps|]; simpl; [|done].
  case_bool_decide; simpl; naive_solver.
Qed.

Lemma pods_on_node c x n u : cache_ok c → cacheNodes c !! x = Some n → u ∈ uids (pods n) ↔ on_node (status_of c u) x.
Proof.
  intros [Hok _] Hn. rewrite on_node_placed. pose proof (po_nodes c Hok) as [Hinfos Hplaced]. split.
  - intros (p & -> & Hp)%list_elem_of_fmap_1. by apply (io_pods _ _ _ _ _ (Hinfos _ _ Hn)).
  - intros Hu. destruct (Hplaced u x Hu) as (_ & m & p & Hm & Hp & <-). rewrite Hn in Hm. injection Hm as <-.
    by apply list_elem_of_fmap_2.
Qed.

(** C12: the sums that the scheduler decides by are right in every cache it can have as long
    as pods keep their containers, updates keep the identity of the pod (an update to a pod
    that was created again under the name breaks it, see [UpdatePod_new_identity]), and a
    known node is updated and removed from the object it has and added again in its zone:
    whatever pods were assumed, bound, forgotten, added, updated, removed or expired before,
    on whatever nodes the calls name, and whatever nodes came and went, while the process has
    not stopped. A node lists the pods that are assumed on it
    or added to it, each once; the requests it carries are the sums over these pods, as
    [int64], and so are the requests with defaults; the pods with affinity are those
    among them; no port is taken that none of them uses. A pod in the cache is on a
    node of the cache, and a node without pods and without a node object is dropped. *)
Theorem cache_sums (c : Cache) :
  reachable_cache c →
  (∀ x n, cacheNodes c !! x = Some n →
    NoDup (uids (pods n)) ∧ (∀ u, u ∈ uids (pods n) ↔ on_node (status_of c u) x) ∧
    (∀ k, amount (requestedResource n) k = wrap64 (total (λ p, request p k) (pods n))) ∧
    nonzeroRequest n = (wrap64 (total nonzero_cpu (pods n)), wrap64 (total nonzero_memory (pods n))) ∧
    podsWithAffinity n ≡ₚ filter (λ p, PAffinity p = true) (pods n) ∧
    (∀ e, uses (usedPorts n) e → ∃ p, p ∈ pods n ∧ e ∈ ports_of p) ∧
    (pods n ≠ [] ∨ is_Some (node n))) ∧
  ∀ u x, on_node (status_of c u) x → is_Some (cacheNodes c !! x).
Proof.
  intros Hc%reachable_cache_ok. pose proof Hc as [Hok _]. pose proof (po_nodes c Hok) as [Hinfos Hplaced]. split.
  - intros x n Hn. destruct (Hinfos x n Hn) as [[] Hl _ _]. split_and!; [done| |done| |done|done|done].
    + intros u. by apply pods_on_node.
    + destruct (nonzeroRequest n). by simplify_eq/=.
  - intros u x Hu%on_node_placed. destruct (Hplaced u x Hu) as (_ & n & _ & Hn & _). eauto.
Qed.


(** Bringing the scheduler's copy of the nodes up to date by their generations is
    exact: a copy taken from any cache, brought up to date after any further events,
    also when nodes were removed and added back under the same name, is the information
    of the cache at that time. *)
Theorem snapshot_exact (c c' : Cache) :
  reachable_cache c → steps c c' →
  UpdateNodeNameToInfoMap c ∅ = cacheNodes c ∧ UpdateNodeNameToInfoMap c' (cacheNodes c) = cacheNodes c'.
Proof.
  intros Hc%reachable_cache_ok Hs. split; apply UpdateNodeNameToInfoMap_current; [intros x i; by rewrite lookup_empty|].
  eapply snapshot_steps; [by apply snapshot_self|]. by apply (steps_ok c c').
Qed.

(** The tree and the images follow the nodes. In every cache the names in the tree
    are those of the nodes that are present, each once; after what is left of the
    current turn, as many calls of [Next] as there are nodes return each of them once;
    and an image names exactly the nodes that have it, with no entry for an image that no
    node has. *)
Theorem tree_follows_nodes (c : Cache) :
  reachable_cache c →
  (∃ l1 l2 nt', take_next (length (remaining (nodeTree c)) + Z.to_nat (NumNodes (nodeTree c))) (nodeTree c) = Some (l1 ++ l2, nt') ∧
    length l1 = length (remaining (nodeTree c)) ∧ NoDup l2 ∧ ∀ x, x ∈ l2 ↔ is_Some (node_of (cacheNodes c) x)) ∧
  (∀ im x, x ∈ image_nodes (imageStates c) im ↔ ∃ nd, node_of (cacheNodes c) x = Some nd ∧ im ∈ (image_names nd).*1) ∧
  (∀ im st, imageStates c !! im = Some st → imageNodes st ≠ ∅).
Proof.
  intros [_ Hm]%reachable_cache_ok. split_and!; [|apply Hm|apply Hm]. pose proof (nm_wf c Hm) as Hw.
  destruct (visits_all (nodeTree c) Hw) as (_ & l1 & l2 & nt' & E & H1 & H2 & _).
  assert (∀ z x, x ∈ nodes (array_of (nodeTree c) z) ↔ ∃ nd, node_of (cacheNodes c) x = Some nd ∧ GetZoneKey (SNode nd) = z) as Hin
    by apply (nm_tree c Hm).
  exists l1, l2, nt'. split_and!; [done|by rewrite H1| |].
  - rewrite H2. unfold all_nodes. apply NoDup_bind.
    + intros z1 z2 x _ _ (nd & E1 & <-)%Hin (nd' & E2 & <-)%Hin. congruence.
    + intros z [na Hz]%(wf_dom _ Hw). unfold array_of. rewrite Hz. by apply (wf_arrays _ Hw z).
    + apply Hw.
  - intros x. rewrite H2. unfold all_nodes. rewrite list_elem_of_bind. split.
    + intros (z & (nd & -> & _)%Hin & _). eauto.
    + intros [nd Hnd]. exists (GetZoneKey (SNode nd)).
      assert (x ∈ nodes (array_of (nodeTree c) (GetZoneKey (SNode nd)))) as Hx by (apply Hin; eauto). split; [done|].
      apply (wf_dom _ Hw). unfold array_of in Hx. destruct (tree (nodeTree c) !! _); [eauto|by apply not_elem_of_nil in Hx].
Qed.

Lemma uids_bind {A} (f : A → list SchedPod) l : uids (l ≫= f) = l ≫= λ x, uids (f x).
Proof. induction l as [|x l IH]; [done|]. by rewrite !bind_cons, fmap_app, IH. Qed.

(** Listing: the pods of the nodes that pass, each once. *)
Lemma FilteredList_spec c f sel :
  cache_ok c →
  NoDup (uids (FilteredList c f sel)) ∧
  ∀ p, p ∈ FilteredList c f sel ↔
    f p = true ∧ Matches sel (PLabels p) = true ∧ ∃ x n, cacheNodes c !! x = Some n ∧ p ∈ pods n.
Proof.
  intros Hc. pose proof Hc as [Hok _]. pose proof (po_nodes c Hok) as [Hinfos _]. unfold FilteredList. split.
  - rewrite uids_bind. apply NoDup_bind.
    + intros [x1 n1] [x2 n2] u H1%elem_of_map_to_list H2%elem_of_map_to_list.
      intros (p & -> & [_ Hp]%list_elem_of_filter)%list_elem_of_fmap_1.
      intros (q & Hu & [_ Hq]%list_elem_of_filter)%list_elem_of_fmap_1. simpl in *.
      destruct (io_pods _ _ _ _ _ (Hinfos _ _ H1) p Hp) as [_ E1]. destruct (io_pods _ _ _ _ _ (Hinfos _ _ H2) q Hq) as [_ E2].
      congruence.
    + intros [x n] Hx%elem_of_map_to_list. simpl. eapply sublist_NoDup; [|apply fmap_sublist, sublist_filter].
      apply (io_wf _ _ _ _ _ (Hinfos _ _ Hx)).
    + apply NoDup_map_to_list.
  - intros p. rewrite list_elem_of_bind. split.
    + intros ([x n] & [[? ?]%andb_true_iff Hp]%list_elem_of_filter & Hx%elem_of_map_to_list). eauto 10.
    + intros (Hf & Hs & x & n & Hn & Hp). exists (x, n). split; [|by apply elem_of_map_to_list].
      apply list_elem_of_filter. by rewrite Hf, Hs.
Qed.
End Machine.

(** ** Where the callers do not keep to the machine *)

Definition ex_spec (u : string) : list PodContainer := [mkPodContainer {[ResourceCPU := 250 * 10 ^ 6]} []].
Definition ex_pod (uid node : string) (labels : gmap string string) : SchedPod :=
  mkSchedPod uid "default" "web-0" labels node (ex_spec uid) false.
Definition ex_sched_node (name : string) : SchedNode := mkSchedNode (mkNode name ∅) ∅ [mkImage ["nginx"] 100].
Definition ex_cache0 : Cache := (run (newSchedulerCache 30 0) (EAddNode (ex_sched_node "n1"))).2.

(** A pod that was deleted and created again under its name can reach the cache as one
    update from the old object to the new one. Its key is then still the old identity:
    the removal of the new pod is refused, and what it requests stays on the node. *)
Theorem UpdatePod_new_identity :
  let old := ex_pod "a" "n1" ∅ in
  let new := ex_pod "b" "n1" ∅ in
  let '(r1, c1) := AddPod ex_cache0 old in
  let '(r2, c2) := UpdatePod c1 old new in
  let '(r3, c3) := RemovePod c2 new in
  r1 = Ok () ∧ r2 = Ok () ∧ r3 = Err (ErrNotAdded "b") ∧
  (λ n, (pods n, MilliCPU (requestedResource n))) <$> cacheNodes c3 !! "n1" = Some ([new], 250).
Proof. vm_compute. repeat split. Qed.

(** A pod that is confirmed on the node it was assumed on is found under [GetPod], but
    the node keeps the object that was assumed, with the labels it had then. *)
Theorem AddPod_keeps_assumed :
  let assumed := ex_pod "a" "n1" ∅ in
  let added := ex_pod "a" "n1" {["app" := "web"]} in
  let '(r1, c1) := AssumePod ex_cache0 assumed in
  let '(r2, c2) := AddPod c1 added in
  r1 = Ok () ∧ r2 = Ok () ∧ GetPod c2 added = Ok added ∧ pods <$> cacheNodes c2 !! "n1" = Some [assumed] ∧
  CacheList c2 (internalSelector [mkRequirement "app" Equals ["web"]]) = [].
Proof. vm_compute. repeat split. Qed.

(** The removal of a node that is not in the cache follows a nil pointer. *)
Theorem RemoveNode_unknown c nd :
  cacheNodes c !! NodeName (SNode nd) = None → RemoveNode c nd = (Err ErrNilPointer, c).
Proof. intros E. unfold RemoveNode. by rewrite E. Qed.

(** ** Witnesses *)

Definition ex_cache1 : Cache := (run ex_cache0 (EPod (OAssume (ex_pod "a" "n1" ∅)))).2.
Definition ex_cache2 : Cache := (run ex_cache1 (EPod (OFinish (ex_pod "a" "n1" ∅) 5))).2.

Lemma ex_reachable1 : reachable_cache ex_spec ex_cache1.
Proof.
  exists 30, 0. apply (steps_event ex_spec _ ex_cache0 (EPod (OAssume (ex_pod "a" "n1" ∅)))).
  - apply (steps_event ex_spec _ _ (EAddNode (ex_sched_node "n1"))); [constructor| |reflexivity]. intros nd' E. vm_compute in E. discriminate.
  - split; [reflexivity|exact I].
  - vm_compute. reflexivity.
Qed.

Lemma ex_step12 : steps ex_spec ex_cache1 ex_cache2.
Proof.
  apply (steps_event ex_spec _ ex_cache1 (EPod (OFinish (ex_pod "a" "n1" ∅) 5))); [constructor| |vm_compute; reflexivity].
  split; [reflexivity|exact I].
Qed.

Lemma cache_sums_witness :
  (∃ n, cacheNodes ex_cache1 !! "n1" = Some n ∧ MilliCPU (requestedResource n) = 250 ∧
    NoDup (uids (pods n)) ∧ ∀ u, u ∈ uids (pods n) ↔ on_node (status_of ex_cache1 u) "n1").
Proof.
  destruct (cacheNodes ex_cache1 !! "n1") as [n|] eqn:E; [|vm_compute in E; discriminate].
  exists n. split; [reflexivity|]. split; [vm_compute in E; injection E as <-; reflexivity|].
  destruct (proj1 (cache_sums ex_spec ex_cache1 ex_reachable1) "n1" n E) as (H1 & H2 & _).
  split; [exact H1|exact H2].
Defined.

(** The pod is added, and then an update moves it to another node. *)
Definition ex_cache3 : Cache := (run ex_cache1 (EPod (OAdd (ex_pod "a" "n1" ∅)))).2.

Lemma ex_reachable3 : reachable_cache ex_spec ex_cache3.
Proof.
  destruct ex_reachable1 as (t & g & Hs). exists t, g. apply (steps_event ex_spec _ ex_cache1 (EPod (OAdd (ex_pod "a" "n1" ∅)))); [exact Hs| |vm_compute; reflexivity].
  split; [reflexivity|exact I].
Qed.


Lemma snapshot_exact_witness :
  UpdateNodeNameToInfoMap ex_cache2 (cacheNodes ex_cache1) = cacheNodes ex_cache2 ∧
  (generation <$> cacheNodes ex_cache2 !! "n1") = Some 3.
Proof.
  split; [exact (proj2 (snapshot_exact ex_spec ex_cache1 ex_cache2 ex_reachable1 ex_step12))|vm_compute; reflexivity].
Defined.

Lemma tree_follows_nodes_witness :
  fst <$> take_next 1 (nodeTree ex_cache1) = Some ["n1"] ∧
  (∀ im x, x ∈ image_nodes (imageStates ex_cache1) im ↔
    ∃ nd, node_of (cacheNodes ex_cache1) x = Some nd ∧ im ∈ (image_names nd).*1).
Proof.
  split; [vm_compute; reflexivity|].
  exact (proj1 (proj2 (tree_follows_nodes ex_spec ex_cache1 ex_reachable1))).
Defined.
