(* ===== verification/NodeGraph.v ===== *)
(** * The graph of the node authorizer

    [plugin/pkg/auth/authorizer/node/graph.go], [intset.go] and the graph of
    [third_party/forked/gonum/graph/simple]: which node a secret, a config map, a claim, a
    volume, an attachment or a service account leads to, through the pods of the node.
    The order in which neighbours are visited is that of a map, and whether a slice has
    room behind its last element is up to the runtime: both are parameters. *)

From S2P Require Import Prelude GoStrings.

(** ** Vertices *)

Inductive vertexType : Type :=
  | configMapVertexType
  | nodeVertexType
  | podVertexType
  | pvcVertexType
  | pvVertexType
  | secretVertexType
  | vaVertexType
  | serviceAccountVertexType.

#[global] Instance vertexType_eq_dec : EqDecision vertexType.
Proof. solve_decision. Defined.

Definition vertexType_byte (t : vertexType) : nat :=
  match t with
  | configMapVertexType => 0
  | nodeVertexType => 1
  | podVertexType => 2
  | pvcVertexType => 3
  | pvVertexType => 4
  | secretVertexType => 5
  | vaVertexType => 6
  | serviceAccountVertexType => 7
  end.

Definition byte_vertexType (n : nat) : vertexType :=
  match n with
  | 0 => configMapVertexType
  | 1 => nodeVertexType
  | 2 => podVertexType
  | 3 => pvcVertexType
  | 4 => pvVertexType
  | 5 => secretVertexType
  | 6 => vaVertexType
  | _ => serviceAccountVertexType
  end%nat.

#[global] Instance vertexType_countable : Countable vertexType :=
  inj_countable' vertexType_byte byte_vertexType ltac:(by intros []).

(** Type, namespace and name of a vertex. *)
Notation vkey := (vertexType * string * string)%type.

(** ** Sets of numbers with generations *)

(** The generation is a byte. *)
Record intSet : Type := mkIntSet {
  currentGeneration : Z;
  members : gmap nat Z;
}.

Definition newIntSet : intSet := mkIntSet 0 ∅.
Definition int_has (s : option intSet) (i : nat) : bool :=
  match s with None => false | Some s => bool_decide (is_Some (members s !! i)) end.
Definition startNewGeneration (s : intSet) : intSet := mkIntSet ((currentGeneration s + 1) mod 256) (members s).
Definition mark (s : intSet) (i : nat) : intSet := mkIntSet (currentGeneration s) (<[i := currentGeneration s]> (members s)).
Definition sweep (s : intSet) : intSet :=
  mkIntSet (currentGeneration s) (filter (λ kv, kv.2 = currentGeneration s) (members s)).

(** ** The graph *)

(** [gnodes] and [gedges] are the graph of vertices by number, where a pair of vertices
    has one edge at most; an edge carries the number of the node it leads to, or nothing. *)
Record Graph : Type := mkGraph {
  gnodes : gmap nat vkey;
  gedges : gmap (nat * nat) (option nat);
  freeIDs : gset nat;
  vertices : gmap vkey nat;
  destinationEdgeIndex : gmap nat intSet;
  destinationEdgeThreshold : nat;
}.

Definition NewGraph : Graph := mkGraph ∅ ∅ ∅ ∅ ∅ 200.

Definition set_index (g : Graph) (i : gmap nat intSet) : Graph :=
  mkGraph (gnodes g) (gedges g) (freeIDs g) (vertices g) i (destinationEdgeThreshold g).

Definition set_edges (g : Graph) (es : gmap (nat * nat) (option nat)) : Graph :=
  mkGraph (gnodes g) es (freeIDs g) (vertices g) (destinationEdgeIndex g) (destinationEdgeThreshold g).

(** The vertices that an edge leads to from [v], and those that have an edge to it. *)
Definition tos (g : Graph) (v : nat) : gset nat := set_map snd (filter (λ e, e.1 = v) (dom (gedges g))).
Definition froms (g : Graph) (v : nat) : gset nat := set_map fst (filter (λ e, e.2 = v) (dom (gedges g))).

Definition Degree (g : Graph) (v : nat) : nat :=
  if bool_decide (is_Some (gnodes g !! v)) then size (filter (λ e, e.1 = v ∨ e.2 = v) (dom (gedges g))) else 0.

Definition max_id (g : Graph) : nat := max_list (elements (dom (gnodes g))).
Definition min_id (s : gset nat) : option nat :=
  match elements s with [] => None | x :: l => Some (foldr min x l) end.

(** The used numbers are those of the vertices. *)
Definition NewNodeID (g : Graph) : nat :=
  if bool_decide (gnodes g = ∅) then 0%nat
  else match min_id (freeIDs g) with Some id => id | None => S (max_id g) end.

Definition RemoveNode (g : Graph) (v : nat) : Graph :=
  if bool_decide (is_Some (gnodes g !! v)) then
    mkGraph (delete v (gnodes g)) (filter (λ e, ¬ (e.1.1 = v ∨ e.1.2 = v)) (gedges g)) ({[v]} ∪ freeIDs g)
      (vertices g) (destinationEdgeIndex g) (destinationEdgeThreshold g)
  else g.

(** An edge replaces the one between the two vertices, also when that had the other
    direction. Both vertices are in the graph and they are not the same. *)
Definition SetEdge (g : Graph) (from to : nat) (destination : option nat) : Graph :=
  set_edges g (<[(from, to) := destination]> (delete (to, from) (gedges g))).

Definition RemoveEdge (g : Graph) (from to : nat) : Graph :=
  set_edges g (delete (to, from) (delete (from, to) (gedges g))).

(** ** Keeping the graph *)

Definition createVertex_locked (g : Graph) (k : vkey) : Graph * nat :=
  let id := NewNodeID g in
  (mkGraph (<[id := k]> (gnodes g)) (gedges g) (freeIDs g ∖ {[id]}) (<[k := id]> (vertices g))
    (destinationEdgeIndex g) (destinationEdgeThreshold g), id).

Definition getOrCreateVertex_locked (g : Graph) (k : vkey) : Graph * nat :=
  match vertices g !! k with
  | Some id => (g, id)
  | None => createVertex_locked g k
  end.

(** A vertex with its key. *)
Definition removeVertex_locked (g : Graph) (v : nat * vkey) : Graph :=
  let g := RemoveNode g v.1 in
  mkGraph (gnodes g) (gedges g) (freeIDs g) (delete v.2 (vertices g)) (delete v.1 (destinationEdgeIndex g))
    (destinationEdgeThreshold g).

(** ** What pods and volumes refer to *)

Record EnvVars : Type := mkEnv {
  EnvFromSecrets : list (option string);
  EnvSecretKeys : list (option string);
  EnvFromConfigMaps : list (option string);
  EnvConfigMapKeys : list (option string);
}.

(** The members of a volume source that refer to other objects; a reference is a name. *)
Record VolumeSource : Type := mkVolumeSource {
  AzureFile : option string;
  CephFS : option (option string);
  Cinder : option (option string);
  FlexVolume : option (option string);
  Projected : option (list (option string * option string));
  RBD : option (option string);
  SecretVolume : option string;
  ScaleIO : option (option string);
  ISCSI : option (option string);
  StorageOS : option (option string);
  ConfigMapVolume : option string;
  PersistentVolumeClaim : option string;
}.

Record GPod : Type := mkGPod {
  gNamespace : string;
  gName : string;
  gUID : string;
  gNodeName : string;
  gMirror : bool;
  ServiceAccountName : string;
  ImagePullSecrets : list string;
  gInitContainers : list EnvVars;
  gContainers : list EnvVars;
  Volumes : list VolumeSource;
}.

Definition visitContainerSecretNames (c : EnvVars) : list string :=
  omap id (EnvFromSecrets c) ++ omap id (EnvSecretKeys c).

Definition visitContainerConfigmapNames (c : EnvVars) : list string :=
  omap id (EnvFromConfigMaps c) ++ omap id (EnvConfigMapKeys c).

Definition non_empty (s : string) : list string := if bool_decide (s = "") then [] else [s].

(** The cases of the switch in their order: the first member that is set. *)
Definition volume_secrets (v : VolumeSource) : list string :=
  match AzureFile v, CephFS v, Cinder v, FlexVolume v, Projected v, RBD v, SecretVolume v, ScaleIO v, ISCSI v, StorageOS v with
  | Some s, _, _, _, _, _, _, _, _, _ => non_empty s
  | _, Some r, _, _, _, _, _, _, _, _ | _, _, Some r, _, _, _, _, _, _, _ | _, _, _, Some r, _, _, _, _, _, _ => option_list r
  | _, _, _, _, Some sources, _, _, _, _, _ => omap fst sources
  | _, _, _, _, _, Some r, _, _, _, _ => option_list r
  | _, _, _, _, _, _, Some s, _, _, _ => [s]
  | _, _, _, _, _, _, _, Some r, _, _ | _, _, _, _, _, _, _, _, Some r, _ | _, _, _, _, _, _, _, _, _, Some r => option_list r
  | _, _, _, _, _, _, _, _, _, _ => []
  end.

Definition volume_configmaps (v : VolumeSource) : list string :=
  match Projected v, ConfigMapVolume v with
  | Some sources, _ => omap snd sources
  | None, Some s => [s]
  | None, None => []
  end.

(** The names that the visitors are called with, one after the other; the visitor of the
    graph never stops. *)
Definition VisitPodSecretNames (pod : GPod) : list string :=
  ImagePullSecrets pod ++ (gInitContainers pod ≫= visitContainerSecretNames) ++
  (gContainers pod ≫= visitContainerSecretNames) ++ (Volumes pod ≫= volume_secrets).

Definition VisitPodConfigmapNames (pod : GPod) : list string :=
  (gInitContainers pod ≫= visitContainerConfigmapNames) ++ (gContainers pod ≫= visitContainerConfigmapNames) ++
  (Volumes pod ≫= volume_configmaps).

(** A reference to a secret with its namespace. *)
Record SecretReference : Type := mkSecretRef {
  RefNamespace : string;
  RefName : string;
}.

(** The members of the source of a volume: of a file share the namespace and the name of
    the secret; of the others the reference; of a driver the three references. *)
Record PVSource : Type := mkPVSource {
  PVAzureFile : option (option string * string);
  PVCephFS : option (option SecretReference);
  PVCinder : option (option SecretReference);
  PVFlexVolume : option (option SecretReference);
  PVRBD : option (option SecretReference);
  PVScaleIO : option (option SecretReference);
  PVISCSI : option (option SecretReference);
  PVStorageOS : option (option SecretReference);
  PVCSI : option (option SecretReference * option SecretReference * option SecretReference);
}.

Record PersistentVolume : Type := mkPV {
  PVName : string;
  ClaimRef : option (string * string);
  Source : PVSource;
}.

Definition getClaimRefNamespace (pv : PersistentVolume) : string :=
  match ClaimRef pv with Some (ns, _) => ns | None => "" end.

(** The namespace of the claim unless the reference has one. *)
Definition ref_or_claim (pv : PersistentVolume) (r : option SecretReference) : list (string * string * bool) :=
  match r with
  | None => []
  | Some r => [(if bool_decide (RefNamespace r = "") then getClaimRefNamespace pv else RefNamespace r, RefName r, true)]
  end.

Definition ref_only (visible : bool) (r : option SecretReference) : list (string * string * bool) :=
  match r with None => [] | Some r => [(RefNamespace r, RefName r, visible)] end.

(** Namespace, name and [kubeletVisible]. *)
Definition VisitPVSecretNames (pv : PersistentVolume) : list (string * string * bool) :=
  let s := Source pv in
  match PVAzureFile s, PVCephFS s, PVCinder s, PVFlexVolume s, PVRBD s, PVScaleIO s, PVISCSI s, PVStorageOS s, PVCSI s with
  | Some (ns, name), _, _, _, _, _, _, _, _ =>
      if bool_decide (name = "") then []
      else [(match ns with
             | Some ns => if bool_decide (ns = "") then getClaimRefNamespace pv else ns
             | None => getClaimRefNamespace pv
             end, name, true)]
  | _, Some r, _, _, _, _, _, _, _ => ref_or_claim pv r
  | _, _, Some r, _, _, _, _, _, _ => ref_only true r
  | _, _, _, Some r, _, _, _, _, _ => ref_or_claim pv r
  | _, _, _, _, Some r, _, _, _, _ => ref_or_claim pv r
  | _, _, _, _, _, Some r, _, _, _ => ref_or_claim pv r
  | _, _, _, _, _, _, Some r, _, _ => ref_or_claim pv r
  | _, _, _, _, _, _, _, Some r, _ => ref_only true r
  | _, _, _, _, _, _, _, _, Some (publish, node_publish, node_stage) =>
      ref_only false publish ++ ref_only true node_publish ++ ref_only true node_stage
  | _, _, _, _, _, _, _, _, _ => []
  end.

Section Maintain.
(** The order of a visit, which depends on anything, and whether a slice of a length has
    room for another element. *)
Context (visit : Graph → gset nat → list nat) (spare : nat → bool).

Definition mark_destination (g : Graph) (n : nat) (index : intSet) (dest : nat) : intSet :=
  match gedges g !! (n, dest) with
  | Some (Some d) => mark index d
  | _ => index
  end.

Definition recomputeDestinationIndex_locked (g : Graph) (n : nat) : Graph :=
  if (Degree g n <? destinationEdgeThreshold g)%nat then set_index g (delete n (destinationEdgeIndex g))
  else
    let index := match destinationEdgeIndex g !! n with None => newIntSet | Some i => startNewGeneration i end in
    let index := sweep (fold_left (mark_destination g n) (visit g (tos g n)) index) in
    if (size (members index) <? destinationEdgeThreshold g)%nat then set_index g (delete n (destinationEdgeIndex g))
    else set_index g (<[n := index]> (destinationEdgeIndex g)).

(** The loop over the vertices with an edge to the one that goes: [neighborsToRemove],
    and the last value of [neighborsToRecompute], which is [neighborsToRemove] as it was
    then with one more element. *)
Fixpoint visit_to (g : Graph) (l : list nat) (remove : list nat) (recompute : option (nat * nat)) :
    list nat * option (nat * nat) :=
  match l with
  | [] => (remove, recompute)
  | n :: l =>
      if (Degree g n =? 1)%nat then visit_to g l (remove ++ [n]) recompute
      else visit_to g l remove (Some (length remove, n))
  end.

(** When the slice had room, the element was written behind [neighborsToRemove], and the
    next element of [neighborsToRemove] overwrote it. *)
Definition neighborsToRecompute (remove : list nat) (recompute : option (nat * nat)) : list nat :=
  match recompute with
  | None => []
  | Some (k, n) => take k remove ++ [if spare k then default n (remove !! k) else n]
  end.

Definition with_key (g : Graph) (v : nat) : option (nat * vkey) := (λ k, (v, k)) <$> gnodes g !! v.

Definition deleteVertex_locked (g : Graph) (k : vkey) : Graph :=
  match vertices g !! k with
  | None => g
  | Some v =>
      let remove := filter (λ n, Degree g n = 1%nat) (visit g (tos g v)) in
      let '(remove, recompute) := visit_to g (visit g (froms g v)) remove None in
      let g' := removeVertex_locked g (v, k) in
      let g' := fold_left removeVertex_locked (omap (with_key g) remove) g' in
      fold_left recomputeDestinationIndex_locked (neighborsToRecompute remove recompute) g'
  end.

(** The loop of [deleteEdges_locked]. The slice that is visited changes under the loop: a
    removed edge moves the later ones to the left, so that the next one is passed over
    and the last one met twice. A node has one edge from a config map, and the others
    are passed anyway. *)
Fixpoint delete_edges (fromType : vertexType) (toVert : nat) (l : list nat) (g : Graph) (remove recompute : list nat) :
    Graph * list nat * list nat :=
  match l with
  | [] => (g, remove, recompute)
  | n :: l =>
      match gnodes g !! n with
      | Some (t, _, _) =>
          if bool_decide (t = fromType) then
            let g := RemoveEdge g n toVert in
            if (Degree g n =? 0)%nat then delete_edges fromType toVert l g (remove ++ [n]) recompute
            else delete_edges fromType toVert l g remove (recompute ++ [n])
          else delete_edges fromType toVert l g remove recompute
      | None => delete_edges fromType toVert l g remove recompute
      end
  end.

Definition deleteEdges_locked (g : Graph) (fromType : vertexType) (to : vkey) : Graph :=
  match vertices g !! to with
  | None => g
  | Some toVert =>
      let '(g', remove, recompute) := delete_edges fromType toVert (visit g (froms g toVert)) g [] [] in
      let g' := fold_left removeVertex_locked (omap (with_key g') remove) g' in
      fold_left recomputeDestinationIndex_locked recompute g'
  end.

(** ** The operations *)

(** An edge to a pod from an object it refers to, which leads to the node of the pod. *)
Definition link (t : vertexType) (ns : string) (podVertex nodeVertex : nat) (g : Graph) (name : string) : Graph :=
  let '(g, v) := getOrCreateVertex_locked g (t, ns, name) in
  recomputeDestinationIndex_locked (SetEdge g v podVertex (Some nodeVertex)) v.

Definition AddPod (g : Graph) (pod : GPod) : Graph :=
  let g := deleteVertex_locked g (podVertexType, gNamespace pod, gName pod) in
  let '(g, podVertex) := getOrCreateVertex_locked g (podVertexType, gNamespace pod, gName pod) in
  let '(g, nodeVertex) := getOrCreateVertex_locked g (nodeVertexType, "", gNodeName pod) in
  let g := SetEdge g podVertex nodeVertex (Some nodeVertex) in
  if gMirror pod then g
  else
    let g := if bool_decide (ServiceAccountName pod = "") then g
             else link serviceAccountVertexType (gNamespace pod) podVertex nodeVertex g (ServiceAccountName pod) in
    let g := fold_left (link secretVertexType (gNamespace pod) podVertex nodeVertex) (VisitPodSecretNames pod) g in
    let g := fold_left (link configMapVertexType (gNamespace pod) podVertex nodeVertex) (VisitPodConfigmapNames pod) g in
    fold_left (link pvcVertexType (gNamespace pod) podVertex nodeVertex) (omap PersistentVolumeClaim (Volumes pod)) g.

Definition DeletePod (g : Graph) (name namespace : string) : Graph :=
  deleteVertex_locked g (podVertexType, namespace, name).

(** An edge to a volume from a secret that the kubelet reads. *)
Definition link_pv (pvVertex : nat) (g : Graph) (s : string * string * bool) : Graph :=
  let '(ns, secret, kubeletVisible) := s in
  if kubeletVisible then
    let '(g, v) := getOrCreateVertex_locked g (secretVertexType, ns, secret) in
    SetEdge g v pvVertex None
  else g.

Definition AddPV (g : Graph) (pv : PersistentVolume) : Graph :=
  let g := deleteVertex_locked g (pvVertexType, "", PVName pv) in
  match ClaimRef pv with
  | None => g
  | Some (ns, name) =>
      let '(g, pvVertex) := getOrCreateVertex_locked g (pvVertexType, "", PVName pv) in
      let '(g, pvcVertex) := getOrCreateVertex_locked g (pvcVertexType, ns, name) in
      let g := SetEdge g pvVertex pvcVertex None in
      fold_left (link_pv pvVertex) (VisitPVSecretNames pv) g
  end.

Definition DeletePV (g : Graph) (name : string) : Graph := deleteVertex_locked g (pvVertexType, "", name).

Definition AddVolumeAttachment (g : Graph) (attachmentName nodeName : string) : Graph :=
  let g := deleteVertex_locked g (vaVertexType, "", attachmentName) in
  if bool_decide (nodeName = "") then g
  else
    let '(g, vaVertex) := getOrCreateVertex_locked g (vaVertexType, "", attachmentName) in
    let '(g, nodeVertex) := getOrCreateVertex_locked g (nodeVertexType, "", nodeName) in
    SetEdge g vaVertex nodeVertex (Some nodeVertex).

Definition DeleteVolumeAttachment (g : Graph) (name : string) : Graph := deleteVertex_locked g (vaVertexType, "", name).

Definition SetNodeConfigMap (g : Graph) (nodeName configMapName configMapNamespace : string) : Graph :=
  let g := deleteEdges_locked g configMapVertexType (nodeVertexType, "", nodeName) in
  if negb (bool_decide (configMapName = "")) && negb (bool_decide (configMapNamespace = "")) then
    let '(g, configmapVertex) := getOrCreateVertex_locked g (configMapVertexType, configMapNamespace, configMapName) in
    let '(g, nodeVertex) := getOrCreateVertex_locked g (nodeVertexType, "", nodeName) in
    SetEdge g configmapVertex nodeVertex (Some nodeVertex)
  else g.

(** ** Paths *)

(** What the traversal keeps: the stack, the visited vertices, [found] of the closures and
    whether the visitor stopped it. *)
Record walk : Type := mkWalk {
  stack : list nat;
  visited : gset nat;
  found : bool;
  stopped : bool;
}.

(** The visitor, for the neighbour [n] of [t]. *)
Definition walk_visit (g : Graph) (target t : nat) (w : walk) (n : nat) : walk :=
  let passes := match gedges g !! (t, n) with
    | Some (Some d) => bool_decide (d = target)
    | _ => true
    end in
  if negb passes then w
  else
    let found := match gedges g !! (t, n) with Some (Some _) => true | _ => found w end in
    if bool_decide (n ∈ visited w) then mkWalk (stack w) (visited w) found (stopped w)
    else
      let found := found || bool_decide (n = target) in
      mkWalk (n :: stack w) ({[n]} ∪ visited w) found (stopped w || found).

Fixpoint walk_loop (fuel : nat) (g : Graph) (target : nat) (w : walk) : option bool :=
  match fuel with
  | O => None
  | S fuel =>
      match stack w with
      | [] => Some (found w)
      | t :: rest =>
          let w := fold_left (walk_visit g target t) (visit g (tos g t)) (mkWalk rest (visited w) (found w) false) in
          if stopped w then Some (found w) else walk_loop fuel g target w
      end
  end.

(** Each vertex is taken from the stack once. *)
Definition Walk (g : Graph) (from target : nat) : option bool :=
  if bool_decide (from = target) then Some true
  else walk_loop (S (size (gnodes g))) g target (mkWalk [from] {[from]} false false).
End Maintain.
