(* ===== verification/NodeGraphSpec.v ===== *)
(** * What the graph of the node authorizer means

    The graph represents a map of edges between the keys of API objects: the numbers of
    the vertices, the removal of vertices that lost their last edge and the reuse of
    numbers do not show. A walk in it finds a node exactly when the object leads there. *)

From S2P Require Import Prelude GoStrings NodeGraph.

(** ** Edges between keys *)

(** An edge between the keys of two objects, with the node it leads to. *)
Notation edge_map := (gmap (vkey * vkey) (option vkey)).

Definition type_of (k : vkey) : vertexType := k.1.1.

(** The layers of the graph, from the nodes up. *)
Definition layer (t : vertexType) : nat :=
  match t with
  | nodeVertexType => 0
  | podVertexType => 1
  | pvcVertexType => 2
  | pvVertexType => 3
  | configMapVertexType | secretVertexType | vaVertexType | serviceAccountVertexType => 4
  end.

(** Edges go down, and one with a destination ends there or in a pod of that node. *)
Record layered (A : edge_map) : Prop := mk_layered {
  la_down : ∀ k1 k2 d, A !! (k1, k2) = Some d → (layer (type_of k2) < layer (type_of k1))%nat;
  la_dest : ∀ k1 k2 kd, A !! (k1, k2) = Some (Some kd) →
    type_of kd = nodeVertexType ∧ (k2 = kd ∨ type_of k2 = podVertexType ∧ A !! (k2, kd) = Some (Some kd));
  la_node : ∀ k1 k2 d, A !! (k1, k2) = Some d → type_of k2 = nodeVertexType → d = Some k2;
}.

(** ** Representation *)

(** The edge between two numbers. *)
Definition edge_at (g : Graph) (A : edge_map) (i j : nat) : option (option nat) :=
  k1 ← gnodes g !! i; k2 ← gnodes g !! j; dk ← A !! (k1, k2); Some (dk ≫= λ kd, vertices g !! kd).

Record repr (g : Graph) (A : edge_map) : Prop := mk_repr {
  r_bij : ∀ i k, gnodes g !! i = Some k ↔ vertices g !! k = Some i;
  r_free : ∀ i, i ∈ freeIDs g → gnodes g !! i = None;
  r_edges : ∀ i j, gedges g !! (i, j) = edge_at g A i j;
  r_dom : ∀ k1 k2 dk, A !! (k1, k2) = Some dk →
    is_Some (vertices g !! k1) ∧ is_Some (vertices g !! k2) ∧ (∀ kd, dk = Some kd → is_Some (vertices g !! kd));
}.

Lemma repr_new : repr NewGraph ∅.
Proof. by constructor. Qed.

(** The index has no part in it. *)
Lemma repr_index g A ix : repr (set_index g ix) A ↔ repr g A.
Proof. split; intros []; by constructor. Qed.

Lemma repr_recompute visit g A n : repr (recomputeDestinationIndex_locked visit g n) A ↔ repr g A.
Proof. unfold recomputeDestinationIndex_locked. repeat case_match; apply repr_index. Qed.

Lemma repr_recompute_all visit l g A : repr (fold_left (recomputeDestinationIndex_locked visit) l g) A ↔ repr g A.
Proof. revert g. induction l as [|n l IH]; intros g; simpl; [done|]. by rewrite IH, repr_recompute. Qed.

Lemma edge_key g A i j d :
  repr g A → gedges g !! (i, j) = Some d ↔
  ∃ k1 k2 dk, vertices g !! k1 = Some i ∧ vertices g !! k2 = Some j ∧ A !! (k1, k2) = Some dk ∧
    d = (dk ≫= λ kd, vertices g !! kd).
Proof.
  intros Hr. rewrite (r_edges g A Hr). unfold edge_at. split.
  - intros E. destruct (gnodes g !! i) as [k1|] eqn:E1; [|done]. destruct (gnodes g !! j) as [k2|] eqn:E2; [|done]. simpl in E.
    destruct (A !! (k1, k2)) as [dk|] eqn:E3; [|done]. simpl in E. injection E as <-.
    exists k1, k2, dk. split_and!; [by apply (r_bij g A Hr)|by apply (r_bij g A Hr)|done|done].
  - intros (k1 & k2 & dk & H1 & H2 & H3 & ->). apply (r_bij g A Hr) in H1, H2. rewrite H1, H2. simpl. by rewrite H3.
Qed.

Lemma key_edge g A k1 k2 i j :
  repr g A → vertices g !! k1 = Some i → vertices g !! k2 = Some j →
  gedges g !! (i, j) = (λ dk, dk ≫= λ kd, vertices g !! kd) <$> A !! (k1, k2).
Proof.
  intros Hr H1%(r_bij g A Hr) H2%(r_bij g A Hr). rewrite (r_edges g A Hr). unfold edge_at. rewrite H1, H2. simpl.
  by destruct (A !! (k1, k2)).
Qed.

(** Two numbers of one key are the same, and two keys of one number. *)
Lemma key_inj g A k1 k2 i : repr g A → vertices g !! k1 = Some i → vertices g !! k2 = Some i → k1 = k2.
Proof. intros Hr H1%(r_bij g A Hr) H2%(r_bij g A Hr). congruence. Qed.

(** ** New vertices *)

Lemma max_id_ge g i : is_Some (gnodes g !! i) → (i ≤ max_id g)%nat.
Proof.
  intros Hi. unfold max_id. apply max_list_elem_of_le. by apply elem_of_elements, elem_of_dom.
Qed.

Lemma min_id_in s i : min_id s = Some i → i ∈ s.
Proof.
  unfold min_id. destruct (elements s) as [|x l] eqn:E; [done|]. intros [= <-]. rewrite <- elem_of_elements, E. clear E.
  induction l as [|y l IH]; simpl; [by left|]. destruct (Nat.min_spec y (foldr min x l)) as [[_ ->]|[_ ->]]; set_solver.
Qed.

Lemma NewNodeID_fresh g A : repr g A → gnodes g !! NewNodeID g = None.
Proof.
  intros Hr. unfold NewNodeID. case_bool_decide as E; [by rewrite E|].
  destruct (min_id (freeIDs g)) as [i|] eqn:Ei; [by apply (r_free g A Hr), min_id_in|].
  destruct (gnodes g !! S (max_id g)) eqn:E'; [|done]. pose proof (max_id_ge g (S (max_id g)) ltac:(eauto)). lia.
Qed.

Lemma repr_create g A k : repr g A → vertices g !! k = None → repr (createVertex_locked g k).1 A.
Proof.
  intros Hr Hk. pose proof (NewNodeID_fresh g A Hr) as Hf. unfold createVertex_locked. set (id := NewNodeID g) in *.
  constructor; simpl.
  - intros i k'. destruct (decide (i = id)) as [->|Hi].
    + rewrite lookup_insert_eq. destruct (decide (k' = k)) as [->|Hk']; [by rewrite lookup_insert_eq|].
      rewrite lookup_insert_ne by done. split; [congruence|]. intros E%(r_bij g A Hr). congruence.
    + rewrite lookup_insert_ne by done. destruct (decide (k' = k)) as [->|Hk'].
      * rewrite lookup_insert_eq. split; [|congruence]. intros E%(r_bij g A Hr). congruence.
      * rewrite lookup_insert_ne by done. apply Hr.
  - intros i [Hi Hne]%elem_of_difference. rewrite lookup_insert_ne by set_solver. by apply (r_free g A Hr).
  - intros i j. rewrite (r_edges g A Hr). unfold edge_at. simpl.
    assert (∀ k2, A !! (k, k2) = None ∧ A !! (k2, k) = None) as HA.
    { intros k2. split; (destruct (A !! _) as [dk|] eqn:E; [|done]); destruct (r_dom g A Hr _ _ _ E) as (H1 & H2 & _);
        rewrite Hk in *; [by destruct H1|by destruct H2]. }
    assert (∀ k1 k2 dk, A !! (k1, k2) = Some dk → (dk ≫= λ kd, <[k := id]> (vertices g) !! kd) = (dk ≫= λ kd, vertices g !! kd)) as Hd.
    { intros k1 k2 [kd|] E; [|done]. simpl. rewrite lookup_insert_ne; [done|]. intros <-.
      destruct (r_dom g A Hr _ _ _ E) as (_ & _ & H3). destruct (H3 k eq_refl). congruence. }
    destruct (decide (i = id)) as [->|Hi].
    { rewrite Hf, lookup_insert_eq. simpl. destruct (_ !! j) as [k2|]; [|done]. simpl. by rewrite (proj1 (HA k2)). }
    rewrite (lookup_insert_ne _ id i) by done. destruct (gnodes g !! i) as [k1|]; [|done]. simpl.
    destruct (decide (j = id)) as [->|Hj].
    { rewrite Hf, lookup_insert_eq. simpl. by rewrite (proj2 (HA k1)). }
    rewrite lookup_insert_ne by done. destruct (gnodes g !! j) as [k2|]; [|done]. simpl.
    destruct (A !! (k1, k2)) as [dk|] eqn:E; [|done]. simpl. by rewrite (Hd _ _ _ E).
  - assert (∀ k', is_Some (vertices g !! k') → is_Some (<[k := id]> (vertices g) !! k')) as Hs.
    { intros k' ?. destruct (decide (k' = k)) as [->|]; [rewrite lookup_insert_eq; eauto|by rewrite lookup_insert_ne]. }
    intros k1 k2 dk E. destruct (r_dom g A Hr _ _ _ E) as (H1 & H2 & H3). split_and!; auto.
Qed.

(** A vertex for a key, and the numbers of the others as they were. *)
Lemma getOrCreate_spec g A k :
  repr g A → ∃ g' id, getOrCreateVertex_locked g k = (g', id) ∧ repr g' A ∧ vertices g' !! k = Some id ∧
    ∀ k' i, vertices g !! k' = Some i → vertices g' !! k' = Some i.
Proof.
  intros Hr. unfold getOrCreateVertex_locked. destruct (vertices g !! k) as [id|] eqn:E.
  - exists g, id. done.
  - exists (createVertex_locked g k).1, (createVertex_locked g k).2. split_and!; [done|by apply repr_create| |].
    + simpl. by rewrite lookup_insert_eq.
    + intros k' i Hi. simpl. rewrite lookup_insert_ne; [done|congruence].
Qed.

(** ** Edges *)

Lemma layered_insert A k1 k2 dk :
  layered A → (layer (type_of k2) < layer (type_of k1))%nat →
  (type_of k2 = nodeVertexType → dk = Some k2) →
  (∀ kd, dk = Some kd → type_of kd = nodeVertexType ∧
    (k2 = kd ∨ type_of k2 = podVertexType ∧ A !! (k2, kd) = Some (Some kd))) →
  layered (<[(k1, k2) := dk]> A).
Proof.
  intros [H1 H2 H3] Hl Hn Hd.
  assert (∀ k3 kd, type_of kd = nodeVertexType → A !! (k3, kd) = Some (Some kd) →
    <[(k1, k2) := dk]> A !! (k3, kd) = Some (Some kd)) as Hkeep.
  { intros k3 kd Ht E. destruct (decide ((k3, kd) = (k1, k2))) as [[= -> ->]|]; [|by rewrite lookup_insert_ne].
    by rewrite lookup_insert_eq, Hn. }
  constructor.
  - intros k3 k4 d [[[= <- <-] <-]|[_ E]]%lookup_insert_Some; [done|by eapply H1].
  - intros k3 k4 kd [[[= <- <-] ->]|[_ E]]%lookup_insert_Some.
    + destruct (Hd kd eq_refl) as [? [?|[? ?]]]; auto.
    + destruct (H2 k3 k4 kd E) as [? [?|[? ?]]]; auto.
  - intros k3 k4 d [[[= <- <-] <-]|[_ E]]%lookup_insert_Some; [done|by eapply H3].
Qed.

Lemma repr_SetEdge g A k1 k2 dk i j :
  repr g A → A !! (k2, k1) = None → vertices g !! k1 = Some i → vertices g !! k2 = Some j →
  (∀ kd, dk = Some kd → is_Some (vertices g !! kd)) →
  repr (SetEdge g i j (dk ≫= λ kd, vertices g !! kd)) (<[(k1, k2) := dk]> A).
Proof.
  intros Hr HA Hi Hj Hd. pose proof Hi as Gi. pose proof Hj as Gj. apply (r_bij g A Hr) in Gi, Gj. constructor; simpl.
  - apply Hr.
  - apply Hr.
  - intros i' j'. unfold edge_at. simpl. destruct (decide ((i', j') = (i, j))) as [[= -> ->]|Hne].
    { rewrite lookup_insert_eq, Gi, Gj. simpl. by rewrite lookup_insert_eq. }
    rewrite lookup_insert_ne by done. transitivity (gedges g !! (i', j')).
    { destruct (decide ((i', j') = (j, i))) as [[= -> ->]|]; [|by rewrite lookup_delete_ne].
      rewrite lookup_delete_eq, (r_edges g A Hr). unfold edge_at. rewrite Gi, Gj. simpl. by rewrite HA. }
    rewrite (r_edges g A Hr). unfold edge_at. destruct (gnodes g !! i') as [k3|] eqn:E3; [|done].
    destruct (gnodes g !! j') as [k4|] eqn:E4; [|done]. simpl. rewrite lookup_insert_ne; [done|].
    intros [= <- <-]. apply (r_bij g A Hr) in E3, E4. congruence.
  - intros k3 k4 d [[[= <- <-] <-]|[_ E]]%lookup_insert_Some; [split_and!; eauto|by apply (r_dom g A Hr) in E].
Qed.

(** ** Removal *)

Definition edges_closed (g : Graph) : Prop :=
  ∀ i j d, gedges g !! (i, j) = Some d → is_Some (gnodes g !! i) ∧ is_Some (gnodes g !! j).

Lemma repr_closed g A : repr g A → edges_closed g.
Proof.
  intros Hr i j d (k1 & k2 & dk & H1 & H2 & _)%(edge_key g A i j d Hr). apply (r_bij g A Hr) in H1, H2. eauto.
Qed.

Lemma removeVertex_spec g v :
  edges_closed g →
  let g' := removeVertex_locked g v in
  gnodes g' = delete v.1 (gnodes g) ∧ vertices g' = delete v.2 (vertices g) ∧
  (∀ i j, gedges g' !! (i, j) = if decide (i = v.1 ∨ j = v.1) then None else gedges g !! (i, j)) ∧
  (∀ i, i ∈ freeIDs g' → i ∈ freeIDs g ∨ i = v.1).
Proof.
  intros Hc. unfold removeVertex_locked, RemoveNode. simpl. case_bool_decide as E; simpl.
  - split_and!; [done|done| |set_solver]. intros i j. case_decide as Hij.
    + apply map_lookup_filter_None. right. simpl. tauto.
    + destruct (gedges g !! (i, j)) as [d|] eqn:Ee; [by apply map_lookup_filter_Some|].
      apply map_lookup_filter_None. by left.
  - assert (gnodes g !! v.1 = None) as Hn by (destruct (gnodes g !! v.1); [destruct E; eauto|done]).
    split_and!; [by rewrite delete_id|done| |auto]. intros i j. case_decide as Hij; [|done].
    destruct (gedges g !! (i, j)) as [d|] eqn:Ee; [|done]. destruct (Hc i j d Ee) as [[? ?] [? ?]].
    destruct Hij; subst; congruence.
Qed.

Lemma removeVertex_all l g :
  edges_closed g →
  let g' := fold_left removeVertex_locked l g in
  (∀ i, gnodes g' !! i = if decide (i ∈ l.*1) then None else gnodes g !! i) ∧
  (∀ k, vertices g' !! k = if decide (k ∈ l.*2) then None else vertices g !! k) ∧
  (∀ i j, gedges g' !! (i, j) = if decide (i ∈ l.*1 ∨ j ∈ l.*1) then None else gedges g !! (i, j)) ∧
  (∀ i, i ∈ freeIDs g' → i ∈ freeIDs g ∨ i ∈ l.*1).
Proof.
  revert g. induction l as [|v l IH]; intros g Hc; cbn [fold_left].
  { split_and!; [intros i|intros k|intros i j|by left]; (rewrite decide_False; [done|set_solver]). }
  destruct (removeVertex_spec g v Hc) as (Hn & Hv & He & Hf).
  assert (edges_closed (removeVertex_locked g v)) as Hc'.
  { intros i j d E. rewrite He in E. case_decide as Hij; [done|]. rewrite Hn, !lookup_delete_ne by naive_solver.
    by apply (Hc i j d). }
  destruct (IH _ Hc') as (Hn' & Hv' & He' & Hf'). rewrite !fmap_cons. split_and!.
  - intros i. rewrite Hn', Hn. destruct (decide (i = v.1)) as [->|].
    + rewrite lookup_delete_eq, (decide_True (P := v.1 ∈ v.1 :: _)) by (by left). by case_decide.
    + rewrite lookup_delete_ne by done. repeat case_decide; set_solver.
  - intros k. rewrite Hv', Hv. destruct (decide (k = v.2)) as [->|].
    + rewrite lookup_delete_eq, (decide_True (P := v.2 ∈ v.2 :: _)) by (by left). by case_decide.
    + rewrite lookup_delete_ne by done. repeat case_decide; set_solver.
  - intros i j. rewrite He', He. repeat case_decide; set_solver.
  - intros i Hi. destruct (Hf' i Hi) as [Hi'|Hi']; [destruct (Hf i Hi') as [?| ->]; [by left|right; by left]|right; by right].
Qed.

(** Taking vertices out: the edges that are left end in the others. *)
Lemma repr_remove g A A' l :
  repr g A → (∀ i k, (i, k) ∈ l → vertices g !! k = Some i) →
  (∀ k1 k2, A' !! (k1, k2) = if decide (k1 ∈ l.*2 ∨ k2 ∈ l.*2) then None else A !! (k1, k2)) →
  (∀ k1 k2 kd, A' !! (k1, k2) = Some (Some kd) → kd ∉ l.*2) →
  repr (fold_left removeVertex_locked l g) A'.
Proof.
  intros Hr Hl HA Hd. destruct (removeVertex_all l g (repr_closed g A Hr)) as (Hn & Hv & He & Hf).
  assert (∀ i k, vertices g !! k = Some i → i ∈ l.*1 ↔ k ∈ l.*2) as Hik.
  { intros i k Hk. split.
    - intros ([i' k'] & -> & Hin)%list_elem_of_fmap_1. simpl in *. rewrite (key_inj g A k k' i' Hr Hk (Hl _ _ Hin)).
      by apply (list_elem_of_fmap_2 snd _ _ Hin).
    - intros ([i' k'] & -> & Hin)%list_elem_of_fmap_1. simpl in *. pose proof (Hl _ _ Hin). simplify_eq.
      by apply (list_elem_of_fmap_2 fst _ _ Hin). }
  constructor.
  - intros i k. rewrite Hn, Hv. pose proof (r_bij g A Hr i k) as Hb. split.
    + case_decide as Hi; [done|]. intros E%Hb. rewrite decide_False; [done|]. by rewrite <- (Hik i k E).
    + case_decide as Hk; [done|]. intros E. rewrite decide_False; [by apply Hb|]. by rewrite (Hik i k E).
  - intros i Hi. rewrite Hn. case_decide; [done|]. destruct (Hf i Hi); [by apply (r_free g A Hr)|done].
  - intros i j. rewrite He, (r_edges g A Hr). unfold edge_at. rewrite !Hn.
    destruct (gnodes g !! i) as [k1|] eqn:E1; [|by repeat case_decide].
    destruct (gnodes g !! j) as [k2|] eqn:E2; [|simpl; by repeat case_decide].
    pose proof (Hik i k1 (proj1 (r_bij g A Hr i k1) E1)) as H1. pose proof (Hik j k2 (proj1 (r_bij g A Hr j k2) E2)) as H2.
    repeat case_decide; simpl; try tauto; try done.
    rewrite HA, decide_False by tauto. pose proof (HA k1 k2) as HA'. rewrite decide_False in HA' by tauto.
    destruct (A !! (k1, k2)) as [[kd|]|] eqn:E; simpl; [|done|done]. rewrite Hv, decide_False; [done|]. by eapply Hd.
  - intros k1 k2 dk E. pose proof E as E'. rewrite HA in E'. case_decide as Hk; [done|].
    destruct (r_dom g A Hr k1 k2 dk E') as (H1 & H2 & H3). rewrite !Hv, !decide_False by tauto. split_and!; [done|done|].
    intros kd ->. rewrite Hv, decide_False by (by eapply Hd). by apply H3.
Qed.

(** ** Deleting a vertex *)

Definition without (k : vkey) (A : edge_map) : edge_map := filter (λ e, e.1.1 ≠ k ∧ e.1.2 ≠ k) A.

Lemma without_lookup k A k1 k2 : without k A !! (k1, k2) = if decide (k1 = k ∨ k2 = k) then None else A !! (k1, k2).
Proof.
  unfold without. case_decide as H.
  - apply map_lookup_filter_None. right. simpl. tauto.
  - destruct (A !! (k1, k2)) eqn:E; [apply map_lookup_filter_Some; simpl; tauto|apply map_lookup_filter_None; by left].
Qed.

Lemma layered_without k A : layered A → type_of k ≠ nodeVertexType → layered (without k A).
Proof.
  intros [H1 H2 H3] Hk. constructor; intros k1 k2 d; rewrite without_lookup; (case_decide as Hd; [done|]); [apply H1| |apply H3].
  intros E. destruct (H2 k1 k2 d E) as [Ht Hor]. split; [done|]. rewrite without_lookup, decide_False; [done|].
  intros [->| ->]; [apply Hd; by right|done].
Qed.

(** A neighbour with one edge has it with the vertex. *)
Lemma one_edge g A n v kn kv :
  repr g A → layered A → vertices g !! kn = Some n → vertices g !! kv = Some v → Degree g n = 1%nat →
  n ∈ tos g v ∪ froms g v →
  ∀ k2, (is_Some (A !! (kn, k2)) ∨ is_Some (A !! (k2, kn))) → k2 = kv.
Proof.
  intros Hr Hl Hn Hv Hdeg Hin.
  assert (∀ i j, is_Some (gedges g !! (i, j)) → i ≠ j) as Hirr.
  { intros i j [d (k1 & k2 & dk & H1 & H2 & E & _)%(edge_key g A i j d Hr)] ->.
    rewrite (key_inj g A k1 k2 j Hr H1 H2) in E. apply (la_down A Hl) in E. lia. }
  unfold Degree in Hdeg. case_bool_decide; [|done]. apply size_1_elem_of in Hdeg as [[a b] Hx].
  assert (∀ i j, is_Some (gedges g !! (i, j)) → i = n ∨ j = n → (i, j) = (a, b)) as Hone.
  { intros i j Hij Hor. assert ((i, j) ∈ ({[(a, b)]} : gset (nat * nat))) as He; [|by apply elem_of_singleton in He].
    rewrite <- Hx. apply elem_of_filter. split; [done|]. by apply elem_of_dom. }
  assert ((a, b) = (v, n) ∨ (a, b) = (n, v)) as Hab.
  { unfold tos, froms in Hin. apply elem_of_union in Hin as [Hin|Hin];
      apply elem_of_map in Hin as ([i j] & -> & [Hi He]%elem_of_filter); simpl in *; subst; apply elem_of_dom in He.
    - left. symmetry. apply Hone; auto.
    - right. symmetry. apply Hone; auto. }
  intros k2 Hk2.
  assert (∃ j, vertices g !! k2 = Some j ∧ (is_Some (gedges g !! (n, j)) ∨ is_Some (gedges g !! (j, n)))) as (j & Hj & Hnj).
  { destruct Hk2 as [[dk E]|[dk E]]; destruct (r_dom g A Hr _ _ _ E) as ([i1 H1] & [i2 H2] & _).
    - exists i2. split; [done|]. left. rewrite (key_edge g A kn k2 n i2 Hr Hn H2), E. eauto.
    - exists i1. split; [done|]. right. rewrite (key_edge g A k2 kn i1 n Hr H1 Hn), E. eauto. }
  assert (j = v) as ->; [|by apply (key_inj g A k2 kv v Hr)].
  destruct Hnj as [Hnj|Hnj]; pose proof (Hirr _ _ Hnj) as Hne; apply Hone in Hnj; try auto; destruct Hab; simplify_eq; done.
Qed.

Lemma visit_to_spec g l remove rec n :
  n ∈ (visit_to g l remove rec).1 ↔ n ∈ remove ∨ n ∈ l ∧ Degree g n = 1%nat.
Proof.
  revert remove rec. induction l as [|m l IH]; intros remove rec; cbn [visit_to]; [simpl; set_solver|].
  destruct (Nat.eqb_spec (Degree g m) 1) as [E|E]; rewrite IH, elem_of_cons.
  - rewrite elem_of_app, list_elem_of_singleton. naive_solver.
  - naive_solver.
Qed.

(** ** Deleting the edges of a type to a vertex *)

Definition type_at (g : Graph) (i : nat) : option vertexType := type_of <$> gnodes g !! i.

Lemma Degree_0 g n : is_Some (gnodes g !! n) → Degree g n = 0%nat → ∀ j, gedges g !! (n, j) = None ∧ gedges g !! (j, n) = None.
Proof.
  intros Hn. unfold Degree. rewrite bool_decide_true by done. intros Hs%size_empty_inv j.
  split; (destruct (gedges g !! _) as [d|] eqn:E; [|done]); exfalso.
  - apply (not_elem_of_empty (C := gset (nat * nat)) (n, j)), Hs, elem_of_filter. split; [by left|]. apply elem_of_dom. eauto.
  - apply (not_elem_of_empty (C := gset (nat * nat)) (j, n)), Hs, elem_of_filter. split; [by right|]. apply elem_of_dom. eauto.
Qed.

Lemma delete_edges_spec ft tv l g rm rc g' rm' rc' :
  delete_edges ft tv l g rm rc = (g', rm', rc') →
  ∃ es, g' = set_edges g es ∧
    (∀ i j, es !! (i, j) =
      if decide ((j = tv ∧ i ∈ l ∧ type_at g i = Some ft) ∨ (i = tv ∧ j ∈ l ∧ type_at g j = Some ft)) then None
      else gedges g !! (i, j)) ∧
    ∀ n, n ∈ rm' → n ∈ rm ∨ is_Some (gnodes g !! n) ∧ ∀ j, es !! (n, j) = None ∧ es !! (j, n) = None.
Proof.
  revert g rm rc. induction l as [|n l IH]; intros g rm rc E; cbn [delete_edges] in E.
  { injection E as <- <- <-. exists (gedges g). split_and!; [by destruct g| |auto].
    intros i j. rewrite decide_False; [done|]. set_solver. }
  assert (type_at g n ≠ Some ft → delete_edges ft tv l g rm rc = (g', rm', rc') →
    ∃ es, g' = set_edges g es ∧ (∀ i j, es !! (i, j) =
      if decide ((j = tv ∧ i ∈ n :: l ∧ type_at g i = Some ft) ∨ (i = tv ∧ j ∈ n :: l ∧ type_at g j = Some ft)) then None
      else gedges g !! (i, j)) ∧
    ∀ n, n ∈ rm' → n ∈ rm ∨ is_Some (gnodes g !! n) ∧ ∀ j, es !! (n, j) = None ∧ es !! (j, n) = None) as Hskip.
  { intros Ht E'. destruct (IH g rm rc E') as (es & -> & He & Hrm). exists es. split_and!; [done| |done].
    intros i j. rewrite He. apply decide_ext. rewrite !elem_of_cons. naive_solver. }
  unfold type_at in Hskip at 1. destruct (gnodes g !! n) as [[[t ns] nm]|] eqn:En; [|by apply Hskip].
  case_bool_decide as Ht; [|apply Hskip; [unfold type_of; simpl; congruence|done]]. subst t. clear Hskip.
  set (g1 := RemoveEdge g n tv) in *.
  assert (∀ i j, gedges g1 !! (i, j) = if decide ((j = tv ∧ i = n) ∨ (i = tv ∧ j = n)) then None else gedges g !! (i, j)) as Hg1.
  { intros i j. unfold g1, RemoveEdge. simpl. case_decide as H.
    - destruct H as [[-> ->]|[-> ->]]; [|by rewrite lookup_delete_eq].
      destruct (decide ((n, tv) = (tv, n))) as [E'|]; [rewrite E'; by rewrite lookup_delete_eq|].
      by rewrite lookup_delete_ne, lookup_delete_eq.
    - rewrite !lookup_delete_ne by naive_solver. done. }
  assert (∀ i, type_at g1 i = type_at g i) as Hty by done.
  assert (type_at g n = Some ft) as Hn by (unfold type_at; by rewrite En).
  assert (∃ rm1 rc1, delete_edges ft tv l g1 rm1 rc1 = (g', rm', rc') ∧
    ∀ m, m ∈ rm1 → m ∈ rm ∨ m = n ∧ Degree g1 n = 0%nat) as (rm1 & rc1 & E1 & Hrm1).
  { destruct (Nat.eqb_spec (Degree g1 n) 0) as [Hd|Hd]; (eexists _, _; split; [exact E|]); [|auto].
    intros m [?|Hm]%elem_of_app; [by left|]. right. by apply list_elem_of_singleton in Hm. }
  destruct (IH g1 rm1 rc1 E1) as (es & -> & He & Hrm). exists es. split_and!; [done| |].
  - intros i j. rewrite He, Hg1, !Hty. repeat case_decide; rewrite ?elem_of_cons in *; naive_solver.
  - intros m Hm. destruct (Hrm m Hm) as [Hm1|?]; [|by right]. destruct (Hrm1 m Hm1) as [?|[-> Hd]]; [by left|]. right.
    assert (is_Some (gnodes g1 !! n)) as Hs by (simpl; eauto). split; [done|]. intros j.
    destruct (Degree_0 g1 n Hs Hd j) as [H1 H2]. rewrite !He, H1, H2. by repeat case_decide.
Qed.

Definition without_edges (ft : vertexType) (to : vkey) (A : edge_map) : edge_map :=
  filter (λ e, ¬ (e.1.2 = to ∧ type_of e.1.1 = ft)) A.

Lemma without_edges_lookup ft to A k1 k2 :
  without_edges ft to A !! (k1, k2) = if decide (k2 = to ∧ type_of k1 = ft) then None else A !! (k1, k2).
Proof.
  unfold without_edges. case_decide as H.
  - apply map_lookup_filter_None. right. simpl. tauto.
  - destruct (A !! (k1, k2)) eqn:E; [apply map_lookup_filter_Some; simpl; tauto|apply map_lookup_filter_None; by left].
Qed.

Lemma layered_without_edges ft to A :
  layered A → ft ≠ podVertexType → layered (without_edges ft to A).
Proof.
  intros [H1 H2 H3] Hft.
  constructor; intros k1 k2 d; rewrite without_edges_lookup; (case_decide as Hd; [done|]); [apply H1| |apply H3].
  intros E. destruct (H2 k1 k2 d E) as [Ht Hor]. split; [done|]. destruct Hor as [?|[Hp E']]; [by left|right].
  split; [done|]. rewrite without_edges_lookup, decide_False; [done|]. intros [_ ?]. congruence.
Qed.

Section Order.
Context (visit : Graph → gset nat → list nat) (spare : nat → bool).
Context (visit_perm : ∀ g s, visit g s ≡ₚ elements s).

Lemma elem_of_visit g s n : n ∈ visit g s ↔ n ∈ s.
Proof using visit_perm. by rewrite visit_perm, elem_of_elements. Qed.

Lemma deleteVertex_repr g A k :
  repr g A → layered A → type_of k ≠ nodeVertexType → repr (deleteVertex_locked visit spare g k) (without k A).
Proof using visit_perm.
  intros Hr Hl Hk. unfold deleteVertex_locked. destruct (vertices g !! k) as [v|] eqn:Hv.
  2:{ assert (without k A = A) as ->; [|done]. apply map_eq. intros [k1 k2]. rewrite without_lookup. case_decide as Hd; [|done].
      destruct (A !! (k1, k2)) as [dk|] eqn:E; [|done]. destruct (r_dom g A Hr _ _ _ E) as ([? ?] & [? ?] & _).
      destruct Hd; subst; congruence. }
  set (rm0 := filter _ (visit g (tos g v))). destruct (visit_to g (visit g (froms g v)) rm0 None) as [rm rec] eqn:Erm.
  assert (∀ n, n ∈ rm ↔ n ∈ tos g v ∪ froms g v ∧ Degree g n = 1%nat) as Hrm.
  { intros n. pose proof (visit_to_spec g (visit g (froms g v)) rm0 None n) as Hs. rewrite Erm in Hs. simpl in Hs.
    rewrite Hs. unfold rm0. rewrite list_elem_of_filter, !elem_of_visit, elem_of_union. tauto. }
  apply repr_recompute_all.
  change (repr (fold_left removeVertex_locked ((v, k) :: omap (with_key g) rm) g) (without k A)).
  assert (∀ i k', (i, k') ∈ omap (with_key g) rm ↔ i ∈ rm ∧ gnodes g !! i = Some k') as Hom.
  { intros i k'. rewrite list_elem_of_omap. unfold with_key. split.
    - intros (x & Hx & E). destruct (gnodes g !! x) eqn:Ex; [|done]. simpl in E. by simplify_eq.
    - intros [Hi E]. exists i. by rewrite E. }
  assert (∀ k', k' ∈ ((v, k) :: omap (with_key g) rm).*2 ↔ k' = k ∨ ∃ i, i ∈ rm ∧ vertices g !! k' = Some i) as Hkeys.
  { intros k'. rewrite fmap_cons, elem_of_cons. simpl. split.
    - intros [->|([i k''] & -> & [Hi E]%Hom)%list_elem_of_fmap_1]; [by left|]. right. exists i. split; [done|]. by apply (r_bij g A Hr).
    - intros [->|(i & Hi & E)]; [by left|]. right. apply (list_elem_of_fmap_2' snd _ (i, k')); [|done]. apply Hom.
      split; [done|]. by apply (r_bij g A Hr). }
  assert (∀ k1 k2, (∃ i, i ∈ rm ∧ vertices g !! k1 = Some i) → is_Some (A !! (k1, k2)) ∨ is_Some (A !! (k2, k1)) → k2 = k) as Hone.
  { intros k1 k2 (i & [Hi1 Hi2]%Hrm & E). by apply (one_edge g A i v k1 k). }
  apply (repr_remove g A).
  - done.
  - intros i k' [[= -> ->]|[_ E]%Hom]%elem_of_cons; [done|]. by apply (r_bij g A Hr).
  - intros k1 k2. rewrite without_lookup. destruct (decide (k1 = k ∨ k2 = k)) as [Hd|Hd].
    { rewrite decide_True; [done|]. rewrite !Hkeys. tauto. }
    case_decide as Hx; [|done]. rewrite !Hkeys in Hx. destruct (A !! (k1, k2)) as [dk|] eqn:E; [|done]. exfalso. apply Hd.
    destruct Hx as [[->|Hm]|[->|Hm]]; [by left| |by right|].
    + right. apply (Hone k1 k2 Hm). left. eauto.
    + left. apply (Hone k2 k1 Hm). right. eauto.
  - intros k1 k2 kd. rewrite without_lookup. case_decide as Hx; [done|]. intros E. rewrite Hkeys.
    destruct (la_dest A Hl k1 k2 kd E) as [Ht Hor]. intros [->|Hm]; [done|].
    destruct Hor as [->|[_ E']].
    + apply Hx. left. apply (Hone kd k1 Hm). right. eauto.
    + apply Hx. right. apply (Hone kd k2 Hm). right. eauto.
Qed.

Lemma deleteEdges_repr g A ft to :
  repr g A → layered A → type_of to = nodeVertexType → ft ≠ podVertexType →
  repr (deleteEdges_locked visit g ft to) (without_edges ft to A).
Proof using visit_perm.
  clear spare. intros Hr Hl Hto Hft. unfold deleteEdges_locked. destruct (vertices g !! to) as [tv|] eqn:Htv.
  2:{ assert (without_edges ft to A = A) as ->; [|done]. apply map_eq. intros [k1 k2]. rewrite without_edges_lookup.
      case_decide as Hd; [|done]. destruct Hd as [-> _]. destruct (A !! (k1, to)) as [dk|] eqn:E; [|done].
      destruct (r_dom g A Hr _ _ _ E) as (_ & [? ?] & _). congruence. }
  destruct (delete_edges ft tv (visit g (froms g tv)) g [] []) as [[g' rm] rc] eqn:E.
  destruct (delete_edges_spec _ _ _ _ _ _ _ _ _ E) as (es & -> & He & Hrm). apply repr_recompute_all.
  pose proof (proj2 (r_bij g A Hr tv to) Htv) as Gtv.
  assert (repr (set_edges g es) (without_edges ft to A)) as Hr'.
  { constructor; simpl; [apply Hr|apply Hr| |].
    - intros i j. rewrite He, (r_edges g A Hr). unfold edge_at. simpl.
      destruct (gnodes g !! i) as [k1|] eqn:E1; [|by case_decide].
      destruct (gnodes g !! j) as [k2|] eqn:E2; [|simpl; by case_decide]. simpl. rewrite without_edges_lookup.
      unfold type_at. rewrite E1, E2. simpl.
      assert (j = tv ↔ k2 = to) as Hj.
      { split; [intros ->; congruence|]. intros ->. apply (r_bij g A Hr) in E2. congruence. }
      destruct (A !! (k1, k2)) as [dk|] eqn:EA; [|simpl; by repeat case_decide].
      assert (i ∈ froms g j) as Hin.
      { unfold froms. apply elem_of_map. exists (i, j). split; [done|]. apply elem_of_filter. split; [done|].
        apply elem_of_dom. rewrite (r_edges g A Hr). unfold edge_at. rewrite E1, E2. simpl. rewrite EA. eauto. }
      assert (i ≠ tv) as Hi.
      { intros ->. assert (k1 = to) as -> by congruence. apply (la_down A Hl) in EA. rewrite Hto in EA. simpl in EA. lia. }
      destruct (decide (k2 = to ∧ type_of k1 = ft)) as [[Hk Ht]|Hd].
      + rewrite decide_True; [done|]. left. apply Hj in Hk as ->. split_and!; [done|by apply elem_of_visit|by rewrite Ht].
      + rewrite decide_False; [done|]. naive_solver.
    - intros k1 k2 dk. rewrite without_edges_lookup. case_decide; [done|]. apply (r_dom g A Hr). }
  assert (∀ i k, (i, k) ∈ omap (with_key (set_edges g es)) rm → i ∈ rm ∧ vertices g !! k = Some i) as Hom.
  { intros i k (x & Hx & E')%list_elem_of_omap. unfold with_key in E'. simpl in E'. destruct (gnodes g !! x) eqn:Ex; [|done].
    simpl in E'. simplify_eq. split; [done|]. by apply (r_bij g A Hr). }
  assert (∀ k1 k2, k1 ∈ (omap (with_key (set_edges g es)) rm).*2 →
    without_edges ft to A !! (k1, k2) = None ∧ without_edges ft to A !! (k2, k1) = None) as Hiso.
  { intros k1 k2 ([i k] & -> & [Hi Hk]%Hom)%list_elem_of_fmap_1. simpl.
    destruct (Hrm i Hi) as [Hn|[_ Hn]]; [by apply not_elem_of_nil in Hn|].
    split; (destruct (without_edges ft to A !! _) as [dk|] eqn:Ew; [|done]);
      destruct (r_dom _ _ Hr' _ _ _ Ew) as ([i1 H1] & [i2 H2] & _); simpl in H1, H2.
    - pose proof (key_edge _ _ _ _ _ _ Hr' H1 H2) as Hke. rewrite Ew in Hke. simpl in Hke.
      assert (i1 = i) as -> by congruence. destruct (Hn i2) as [Hn1 _]. congruence.
    - pose proof (key_edge _ _ _ _ _ _ Hr' H1 H2) as Hke. rewrite Ew in Hke. simpl in Hke.
      assert (i2 = i) as -> by congruence. destruct (Hn i1) as [_ Hn2]. congruence. }
  apply (repr_remove _ _ _ _ Hr').
  - intros i k Hik. by apply Hom.
  - intros k1 k2. case_decide as H; [|done]. destruct H as [H|H]; [by apply (Hiso k1 k2)|by apply (Hiso k2 k1)].
  - intros k1 k2 kd Ew Hin. destruct (Hiso kd k1 Hin) as [_ Hx]. destruct (Hiso kd k2 Hin) as [_ Hy].
    destruct (la_dest _ (layered_without_edges ft to A Hl Hft) _ _ _ Ew) as [_ [->|[_ ?]]]; congruence.
Qed.

(** ** Adding a pod *)

(** While the edges of a pod are set up: the pod and its node are there. *)
Record pod_state (podk nodek : vkey) (pv nv : nat) (g : Graph) (A : edge_map) : Prop := mk_pod_state {
  ps_repr : repr g A;
  ps_layered : layered A;
  ps_pod : vertices g !! podk = Some pv;
  ps_node : vertices g !! nodek = Some nv;
  ps_edge : A !! (podk, nodek) = Some (Some nodek);
}.

Definition add_refs (ns : string) (podk nodek : vkey) (l : list (vertexType * string)) (A : edge_map) : edge_map :=
  fold_left (λ A r, <[((r.1, ns, r.2), podk) := Some nodek]> A) l A.

Lemma link_ok t ns name podk nodek pv nv g A :
  type_of podk = podVertexType → type_of nodek = nodeVertexType → (1 < layer t)%nat → pod_state podk nodek pv nv g A →
  pod_state podk nodek pv nv (link visit t ns pv nv g name) (<[((t, ns, name), podk) := Some nodek]> A).
Proof using Type.
  clear spare visit_perm. intros Hp Hn Ht [Hr Hl Hpv Hnv He]. unfold link.
  destruct (getOrCreate_spec g A (t, ns, name) Hr) as (g' & id & -> & Hr' & Hid & Hmono). simpl.
  assert (layered (<[((t, ns, name), podk) := Some nodek]> A)) as Hl'.
  { apply layered_insert; [done|by rewrite Hp|rewrite Hp; done|].
    intros kd [= <-]. split; [done|]. right. done. }
  assert (recomputeDestinationIndex_locked visit (SetEdge g' id pv (Some nv)) id =
    set_index (SetEdge g' id pv (Some nv)) (destinationEdgeIndex (recomputeDestinationIndex_locked visit (SetEdge g' id pv (Some nv)) id))) as Hix.
  { unfold recomputeDestinationIndex_locked. repeat case_match; done. }
  constructor.
  - apply repr_recompute. pose proof (repr_SetEdge g' A (t, ns, name) podk (Some nodek) id pv Hr') as Hs. simpl in Hs.
    rewrite (Hmono _ _ Hnv) in Hs. apply Hs; [|done|by apply Hmono|intros kd [= <-]; eauto].
    destruct (A !! (podk, (t, ns, name))) as [d|] eqn:E; [|done]. apply (la_down A Hl) in E. rewrite Hp in E. change (type_of (t, ns, name)) with t in E. change (layer podVertexType) with 1%nat in E.
    lia.
  - done.
  - rewrite Hix. simpl. by apply Hmono.
  - rewrite Hix. simpl. by apply Hmono.
  - rewrite lookup_insert_ne; [done|]. intros [= <- <-]. rewrite Hp in Hn. done.
Qed.

Lemma links_ok t ns names podk nodek pv nv g A :
  type_of podk = podVertexType → type_of nodek = nodeVertexType → (1 < layer t)%nat → pod_state podk nodek pv nv g A →
  pod_state podk nodek pv nv (fold_left (link visit t ns pv nv) names g) (add_refs ns podk nodek ((λ n, (t, n)) <$> names) A).
Proof using Type.
  clear spare visit_perm. intros Hp Hn Ht. revert g A.
  induction names as [|n names IH]; intros g A Hs; [done|]. apply IH. by apply link_ok.
Qed.

Lemma add_refs_app ns podk nodek l1 l2 A : add_refs ns podk nodek (l1 ++ l2) A = add_refs ns podk nodek l2 (add_refs ns podk nodek l1 A).
Proof using Type. unfold add_refs. by rewrite fold_left_app. Qed.

Lemma add_refs_lookup ns podk nodek l A k1 k2 :
  add_refs ns podk nodek l A !! (k1, k2) =
  if decide (k2 = podk ∧ k1.1.2 = ns ∧ (k1.1.1, k1.2) ∈ l) then Some (Some nodek) else A !! (k1, k2).
Proof using Type.
  clear spare visit_perm visit. revert A. induction l as [|[t n] l IH]; intros A.
  { rewrite decide_False; [done|]. intros (_ & _ & Hin). by apply not_elem_of_nil in Hin. }
  assert (add_refs ns podk nodek ((t, n) :: l) A = add_refs ns podk nodek l (<[((t, ns, n), podk) := Some nodek]> A)) as -> by done.
  rewrite IH.
  destruct k1 as [[t1 ns1] n1]. simpl. destruct (decide (k2 = podk ∧ ns1 = ns ∧ (t1, n1) ∈ l)) as [Hd|Hd].
  { rewrite decide_True; [done|]. rewrite elem_of_cons. tauto. }
  destruct (decide ((t1, ns1, n1, k2) = ((t, ns, n), podk))) as [[= -> -> -> ->]|Hne].
  - rewrite lookup_insert_eq, decide_True; [done|]. rewrite elem_of_cons. auto.
  - rewrite lookup_insert_ne by congruence. rewrite decide_False; [done|]. rewrite elem_of_cons.
    intros (-> & -> & [[= -> ->]|Hin]); [done|]. by apply Hd.
Qed.
End Order.

(** ** Objects *)

Definition pod_refs (p : GPod) : list (vertexType * string) :=
  if gMirror p then []
  else ((λ n, (serviceAccountVertexType, n)) <$> non_empty (ServiceAccountName p)) ++
    ((λ n, (secretVertexType, n)) <$> VisitPodSecretNames p) ++
    ((λ n, (configMapVertexType, n)) <$> VisitPodConfigmapNames p) ++
    ((λ n, (pvcVertexType, n)) <$> omap PersistentVolumeClaim (Volumes p)).

(** The pods by namespace and name, the volumes, the attachments with their nodes, and the
    config maps that nodes take their configuration from. *)
Record objects : Type := mkObjects {
  oPods : gmap (string * string) GPod;
  oPVs : gmap string PersistentVolume;
  oAttachments : gmap string string;
  oConfigs : gmap string (string * string);
}.

Definition node_key (n : string) : vkey := (nodeVertexType, "", n).
Definition pod_key (p : string * string) : vkey := (podVertexType, p.1, p.2).
Definition pv_key (n : string) : vkey := (pvVertexType, "", n).
Definition va_key (n : string) : vkey := (vaVertexType, "", n).

(** The edges that the comments of the operations promise. *)
Inductive aedge (o : objects) : vkey → vkey → option vkey → Prop :=
  | ae_pod nn p : oPods o !! nn = Some p → aedge o (pod_key nn) (node_key (gNodeName p)) (Some (node_key (gNodeName p)))
  | ae_ref nn p t n : oPods o !! nn = Some p → (t, n) ∈ pod_refs p →
      aedge o (t, nn.1, n) (pod_key nn) (Some (node_key (gNodeName p)))
  | ae_pv nm pv ns c : oPVs o !! nm = Some pv → ClaimRef pv = Some (ns, c) → aedge o (pv_key nm) (pvcVertexType, ns, c) None
  | ae_secret nm pv c ns s : oPVs o !! nm = Some pv → ClaimRef pv = Some c → (ns, s, true) ∈ VisitPVSecretNames pv →
      aedge o (secretVertexType, ns, s) (pv_key nm) None
  | ae_va nm n : oAttachments o !! nm = Some n → aedge o (va_key nm) (node_key n) (Some (node_key n))
  | ae_config n ns c : oConfigs o !! n = Some (ns, c) → aedge o (configMapVertexType, ns, c) (node_key n) (Some (node_key n)).

Definition graph_ok (g : Graph) (o : objects) : Prop :=
  ∃ A, repr g A ∧ layered A ∧ ∀ k1 k2 d, A !! (k1, k2) = Some d ↔ aedge o k1 k2 d.

Lemma pod_refs_layer p t n : (t, n) ∈ pod_refs p → (1 < layer t)%nat.
Proof.
  unfold pod_refs. destruct (gMirror p); [by intros ?%not_elem_of_nil|]. rewrite !elem_of_app.
  intros [H|[H|[H|H]]]; apply list_elem_of_fmap_1 in H as (? & [= -> _] & _); simpl; lia.
Qed.
