(* ===== verification/NodeGraphPaths.v ===== *)
(** * What leads to a node

    The operations of the node authorizer's graph keep it the graph of the pods, volumes,
    attachments and node configurations they were called with, and a walk in it decides
    whether an object is related to a node. *)

From S2P Require Import Prelude GoStrings NodeGraph NodeGraphSpec.

(** ** Changes of the objects *)

Definition del_pod (o : objects) (nn : string * string) : objects :=
  mkObjects (delete nn (oPods o)) (oPVs o) (oAttachments o) (oConfigs o).
Definition add_pod (o : objects) (p : GPod) : objects :=
  mkObjects (<[(gNamespace p, gName p) := p]> (oPods o)) (oPVs o) (oAttachments o) (oConfigs o).
Definition del_pv (o : objects) (nm : string) : objects :=
  mkObjects (oPods o) (delete nm (oPVs o)) (oAttachments o) (oConfigs o).
Definition add_pv (o : objects) (pv : PersistentVolume) : objects :=
  mkObjects (oPods o) (<[PVName pv := pv]> (oPVs o)) (oAttachments o) (oConfigs o).
Definition del_va (o : objects) (nm : string) : objects :=
  mkObjects (oPods o) (oPVs o) (delete nm (oAttachments o)) (oConfigs o).
Definition add_va (o : objects) (nm n : string) : objects :=
  mkObjects (oPods o) (oPVs o) (<[nm := n]> (oAttachments o)) (oConfigs o).
Definition del_config (o : objects) (n : string) : objects :=
  mkObjects (oPods o) (oPVs o) (oAttachments o) (delete n (oConfigs o)).
Definition set_config (o : objects) (n : string) (c : string * string) : objects :=
  mkObjects (oPods o) (oPVs o) (oAttachments o) (<[n := c]> (oConfigs o)).

Lemma pod_key_inj nn nn' : pod_key nn = pod_key nn' → nn = nn'.
Proof. destruct nn, nn'. unfold pod_key. simpl. congruence. Qed.

Lemma pod_key_ref nn t ns n p : (t, n) ∈ pod_refs p → (t, ns, n) ≠ pod_key nn.
Proof. intros Hl%pod_refs_layer E. unfold pod_key in E. simplify_eq. simpl in Hl. lia. Qed.

Ltac keys := unfold pod_key, node_key, pv_key, va_key in *; simplify_eq/=; try done.

Lemma aedge_del_pod o nn k1 k2 d :
  aedge (del_pod o nn) k1 k2 d ↔ aedge o k1 k2 d ∧ ¬ (k1 = pod_key nn ∨ k2 = pod_key nn).
Proof.
  split.
  - intros H. inversion H as [nn' p Hp|nn' p t n Hp Hr|nm pv ns c Hp Hc|nm pv c ns s Hp Hc Hs|nm n Hn|n ns c Hn]; subst; simpl in *.
    + apply lookup_delete_Some in Hp as [Hne Hp]. split; [by constructor|]. intros [E|E]; [by apply pod_key_inj in E|keys].
    + apply lookup_delete_Some in Hp as [Hne Hp]. split; [by econstructor|]. intros [E|E]; [by eapply pod_key_ref|by apply pod_key_inj in E].
    + split; [by econstructor|]. intros [E|E]; keys.
    + split; [by econstructor|]. intros [E|E]; keys.
    + split; [by econstructor|]. intros [E|E]; keys.
    + split; [by econstructor|]. intros [E|E]; keys.
  - intros [H Hk]. destruct H as [nn' p Hp|nn' p t n Hp Hr|nm pv ns c Hp Hc|nm pv c ns s Hp Hc Hs|nm n Hn|n ns c Hn]; try (by econstructor).
    + constructor. simpl. apply lookup_delete_Some. split; [|done]. intros ->. tauto.
    + econstructor; [|done]. simpl. apply lookup_delete_Some. split; [|done]. intros ->. tauto.
Qed.

Lemma aedge_add_pod o p k1 k2 d :
  let nn := (gNamespace p, gName p) in
  aedge (add_pod o p) k1 k2 d ↔
  aedge (del_pod o nn) k1 k2 d ∨
  (d = Some (node_key (gNodeName p)) ∧
   (k1 = pod_key nn ∧ k2 = node_key (gNodeName p) ∨
    k2 = pod_key nn ∧ k1.1.2 = gNamespace p ∧ (k1.1.1, k1.2) ∈ pod_refs p)).
Proof.
  intros nn. split.
  - intros H. inversion H as [nn' q Hp|nn' q t n Hp Hr|nm pv ns c Hp Hc|nm pv c ns s Hp Hc Hs|nm n Hn|n ns c Hn]; subst; simpl in *;
      try (left; by econstructor).
    + apply lookup_insert_Some in Hp as [[<- <-]|[Hne Hp]]; [right; auto|]. left. constructor. by apply lookup_delete_Some.
    + apply lookup_insert_Some in Hp as [[<- <-]|[Hne Hp]]; [right; auto 10|]. left. econstructor; [|done]. by apply lookup_delete_Some.
  - intros [H|[-> Hor]].
    + inversion H as [nn' q Hp|nn' q t n Hp Hr|nm pv ns c Hp Hc|nm pv c ns s Hp Hc Hs|nm n Hn|n ns c Hn]; subst; simpl in *;
        try (by econstructor); apply lookup_delete_Some in Hp as [Hne Hp].
      * constructor. simpl. by rewrite lookup_insert_ne.
      * econstructor; [|done]. simpl. by rewrite lookup_insert_ne.
    + assert (oPods (add_pod o p) !! nn = Some p) as Hp by (simpl; by rewrite lookup_insert_eq).
      destruct Hor as [[-> ->]|(-> & Hns & Hr)]; [by constructor|]. destruct k1 as [[t ns] n]. simpl in *. subst ns.
      by apply (ae_ref (add_pod o p) nn p).
Qed.

(** Case analysis on an edge. *)
Ltac edge_cases H :=
  inversion H as [?nn ?p ?Hp|?nn ?p ?t ?n ?Hp ?Hr|?nm ?pv ?ns ?c ?Hp ?Hc|?nm ?pv ?c ?ns ?s ?Hp ?Hc ?Hs|?nm ?n ?Hn|?n ?ns ?c ?Hn]; subst; simpl in *.

Lemma pod_ref_type p t n :
  (t, n) ∈ pod_refs p → t = serviceAccountVertexType ∨ t = secretVertexType ∨ t = configMapVertexType ∨ t = pvcVertexType.
Proof.
  unfold pod_refs. destruct (gMirror p); [by intros ?%not_elem_of_nil|]. rewrite !elem_of_app.
  intros [H|[H|[H|H]]]; apply list_elem_of_fmap_1 in H as (? & [= -> _] & _); auto.
Qed.

Lemma aedge_del_pv o nm k1 k2 d :
  aedge (del_pv o nm) k1 k2 d ↔ aedge o k1 k2 d ∧ ¬ (k1 = pv_key nm ∨ k2 = pv_key nm).
Proof.
  split.
  - intros H. edge_cases H; try (apply lookup_delete_Some in Hp as [Hne Hp]); (split; [by econstructor|]); intros [E|E]; keys.
    destruct (pod_ref_type _ _ _ Hr); naive_solver.
  - intros [H Hk]. edge_cases H; try (by econstructor); econstructor; try done; simpl; apply lookup_delete_Some;
      (split; [|done]); intros ->; tauto.
Qed.

Lemma aedge_add_pv o pv k1 k2 d :
  aedge (add_pv o pv) k1 k2 d ↔
  aedge (del_pv o (PVName pv)) k1 k2 d ∨
  (d = None ∧ ∃ c, ClaimRef pv = Some c ∧
   (k1 = pv_key (PVName pv) ∧ k2 = (pvcVertexType, c.1, c.2) ∨
    k2 = pv_key (PVName pv) ∧ type_of k1 = secretVertexType ∧ (k1.1.2, k1.2, true) ∈ VisitPVSecretNames pv)).
Proof.
  split.
  - intros H. edge_cases H; try (left; by econstructor); apply lookup_insert_Some in Hp as [[<- <-]|[Hne Hp]].
    + right. eauto 10.
    + left. econstructor; [|done]. by apply lookup_delete_Some.
    + right. eauto 10.
    + left. econstructor; [|done|done]. by apply lookup_delete_Some.
  - assert (oPVs (add_pv o pv) !! PVName pv = Some pv) as Hpv by (simpl; by rewrite lookup_insert_eq).
    intros [H|(-> & c & Hc & Hor)].
    + edge_cases H; try (by econstructor); apply lookup_delete_Some in Hp as [Hne Hp]; econstructor; try done; simpl;
        by rewrite lookup_insert_ne.
    + destruct Hor as [[-> ->]|(-> & Ht & Hs)]; [apply (ae_pv _ _ pv); [done|]; by destruct c|].
      destruct k1 as [[t ns] n]. unfold type_of in Ht. simpl in *. subst t. by apply (ae_secret _ _ pv c).
Qed.

Lemma aedge_del_va o nm k1 k2 d :
  aedge (del_va o nm) k1 k2 d ↔ aedge o k1 k2 d ∧ ¬ (k1 = va_key nm ∨ k2 = va_key nm).
Proof.
  split.
  - intros H. edge_cases H; try (apply lookup_delete_Some in Hn as [Hne Hn]); (split; [by econstructor|]); intros [E|E]; keys.
    destruct (pod_ref_type _ _ _ Hr); naive_solver.
  - intros [H Hk]. edge_cases H; try (by econstructor). econstructor. simpl. apply lookup_delete_Some.
    split; [|done]. intros ->. tauto.
Qed.

Lemma aedge_add_va o nm n k1 k2 d :
  aedge (add_va o nm n) k1 k2 d ↔
  aedge (del_va o nm) k1 k2 d ∨ d = Some (node_key n) ∧ k1 = va_key nm ∧ k2 = node_key n.
Proof.
  split.
  - intros H. edge_cases H; try (left; by econstructor). apply lookup_insert_Some in Hn as [[<- <-]|[Hne Hn]]; [right; auto|].
    left. constructor. by apply lookup_delete_Some.
  - intros [H|(-> & -> & ->)].
    + edge_cases H; try (by econstructor). apply lookup_delete_Some in Hn as [Hne Hn]. constructor. simpl. by rewrite lookup_insert_ne.
    + constructor. simpl. by rewrite lookup_insert_eq.
Qed.

Lemma aedge_del_config o n k1 k2 d :
  aedge (del_config o n) k1 k2 d ↔ aedge o k1 k2 d ∧ ¬ (k2 = node_key n ∧ type_of k1 = configMapVertexType).
Proof.
  split.
  - intros H. edge_cases H; try (apply lookup_delete_Some in Hn as [Hne Hn]); (split; [by econstructor|]); intros [E1 E2];
      unfold type_of in E2; keys.
  - intros [H Hk]. edge_cases H; try (by econstructor). constructor. simpl. apply lookup_delete_Some.
    split; [|done]. intros ->. by apply Hk.
Qed.

Lemma aedge_set_config o n c k1 k2 d :
  aedge (set_config o n c) k1 k2 d ↔
  aedge (del_config o n) k1 k2 d ∨ d = Some (node_key n) ∧ k1 = (configMapVertexType, c.1, c.2) ∧ k2 = node_key n.
Proof.
  split.
  - intros H. edge_cases H; try (left; by econstructor). apply lookup_insert_Some in Hn as [[<- ->]|[Hne Hn]]; [right; auto|].
    left. constructor. by apply lookup_delete_Some.
  - intros [H|(-> & -> & ->)].
    + edge_cases H; try (by econstructor). apply lookup_delete_Some in Hn as [Hne Hn]. constructor. simpl. by rewrite lookup_insert_ne.
    + constructor. simpl. rewrite lookup_insert_eq. by destruct c.
Qed.

Section Order.
Context (visit : Graph → gset nat → list nat) (spare : nat → bool).
Context (visit_perm : ∀ g s, visit g s ≡ₚ elements s).

Lemma DeletePod_ok g o nn : graph_ok g o → graph_ok (DeletePod visit spare g nn.2 nn.1) (del_pod o nn).
Proof using visit_perm.
  intros (A & Hr & Hl & HA). exists (without (pod_key nn) A). split_and!.
  - by apply deleteVertex_repr.
  - by apply layered_without.
  - intros k1 k2 d. rewrite without_lookup, aedge_del_pod, <- HA. case_decide; naive_solver.
Qed.

Lemma AddPod_ok g o p : graph_ok g o → graph_ok (AddPod visit spare g p) (add_pod o p).
Proof using visit_perm.
  intros (A & Hr & Hl & HA). set (nn := (gNamespace p, gName p)). set (nk := node_key (gNodeName p)).
  exists (add_refs (gNamespace p) (pod_key nn) nk (pod_refs p) (<[(pod_key nn, nk) := Some nk]> (without (pod_key nn) A))).
  assert (type_of (pod_key nn) ≠ nodeVertexType) as Hpt by done.
  pose proof (deleteVertex_repr visit spare visit_perm g A (pod_key nn) Hr Hl Hpt) as Hr1.
  pose proof (layered_without (pod_key nn) A Hl Hpt) as Hl1.
  assert (∃ pv nv g4, AddPod visit spare g p =
    (if gMirror p then g4 else
      fold_left (link visit pvcVertexType (gNamespace p) pv nv) (omap PersistentVolumeClaim (Volumes p))
      (fold_left (link visit configMapVertexType (gNamespace p) pv nv) (VisitPodConfigmapNames p)
      (fold_left (link visit secretVertexType (gNamespace p) pv nv) (VisitPodSecretNames p)
      (fold_left (link visit serviceAccountVertexType (gNamespace p) pv nv) (non_empty (ServiceAccountName p)) g4)))) ∧
    pod_state (pod_key nn) nk pv nv g4 (<[(pod_key nn, nk) := Some nk]> (without (pod_key nn) A))) as (pv & nv & g4 & -> & Hs).
  { unfold AddPod. change (podVertexType, gNamespace p, gName p) with (pod_key nn). change (nodeVertexType, "", gNodeName p) with nk.
    destruct (getOrCreate_spec _ _ (pod_key nn) Hr1) as (g2 & pv & -> & Hr2 & Hpv & _).
    destruct (getOrCreate_spec _ _ nk Hr2) as (g3 & nv & -> & Hr3 & Hnv & Hm).
    exists pv, nv, (SetEdge g3 pv nv (Some nv)). split.
    { destruct (gMirror p); [done|]. unfold non_empty. by case_bool_decide. }
    assert (without (pod_key nn) A !! (nk, pod_key nn) = None) as Hnone.
    { rewrite without_lookup, decide_True by (by right). done. }
    pose proof (repr_SetEdge g3 _ (pod_key nn) nk (Some nk) pv nv Hr3 Hnone (Hm _ _ Hpv) Hnv) as Hset. simpl in Hset.
    rewrite Hnv in Hset. constructor.
    - apply Hset. intros kd [= <-]. eauto.
    - apply layered_insert; [done|simpl; lia|done|]. intros kd [= <-]. split; [done|by left].
    - simpl. by apply Hm.
    - done.
    - by rewrite lookup_insert_eq. }
  assert (pod_state (pod_key nn) nk pv nv (if gMirror p then g4 else
      fold_left (link visit pvcVertexType (gNamespace p) pv nv) (omap PersistentVolumeClaim (Volumes p))
      (fold_left (link visit configMapVertexType (gNamespace p) pv nv) (VisitPodConfigmapNames p)
      (fold_left (link visit secretVertexType (gNamespace p) pv nv) (VisitPodSecretNames p)
      (fold_left (link visit serviceAccountVertexType (gNamespace p) pv nv) (non_empty (ServiceAccountName p)) g4))))
    (add_refs (gNamespace p) (pod_key nn) nk (pod_refs p) (<[(pod_key nn, nk) := Some nk]> (without (pod_key nn) A)))) as Hs'.
  { unfold pod_refs. destruct (gMirror p); [done|]. rewrite !add_refs_app. repeat (apply links_ok; [done|done|simpl; lia|]). done. }
  split_and!; [apply Hs'|apply Hs'|]. intros k1 k2 d. rewrite aedge_add_pod, aedge_del_pod, <- HA, add_refs_lookup. fold nn nk.
  destruct (decide (k2 = pod_key nn ∧ k1.1.2 = gNamespace p ∧ (k1.1.1, k1.2) ∈ pod_refs p)) as [Hd|Hd]; [naive_solver|].
  destruct (decide ((k1, k2) = (pod_key nn, nk))) as [[= -> ->]|Hne]; [rewrite lookup_insert_eq; naive_solver|].
  rewrite lookup_insert_ne, without_lookup by done. case_decide; naive_solver.
Qed.

Lemma DeletePV_ok g o nm : graph_ok g o → graph_ok (DeletePV visit spare g nm) (del_pv o nm).
Proof using visit_perm.
  intros (A & Hr & Hl & HA). exists (without (pv_key nm) A). split_and!.
  - by apply deleteVertex_repr.
  - by apply layered_without.
  - intros k1 k2 d. rewrite without_lookup, aedge_del_pv, <- HA. case_decide; naive_solver.
Qed.

(** The secrets of a volume. *)
Definition pv_secrets (pvk : vkey) (l : list (string * string * bool)) (A : edge_map) : edge_map :=
  fold_left (λ A (s : string * string * bool), if s.2 then <[((secretVertexType, s.1.1, s.1.2), pvk) := None]> A else A) l A.

Lemma pv_secrets_lookup pvk l A k1 k2 :
  pv_secrets pvk l A !! (k1, k2) =
  if decide (k2 = pvk ∧ type_of k1 = secretVertexType ∧ (k1.1.2, k1.2, true) ∈ l) then Some None else A !! (k1, k2).
Proof using Type.
  clear spare visit_perm visit. revert A. induction l as [|[[ns n] b] l IH]; intros A.
  { rewrite decide_False; [done|]. intros (_ & _ & Hin). by apply not_elem_of_nil in Hin. }
  assert (pv_secrets pvk ((ns, n, b) :: l) A =
    pv_secrets pvk l (if b then <[((secretVertexType, ns, n), pvk) := None]> A else A)) as -> by done. rewrite IH.
  destruct k1 as [[t1 ns1] n1]. unfold type_of. simpl.
  destruct (decide (k2 = pvk ∧ t1 = secretVertexType ∧ (ns1, n1, true) ∈ l)) as [Hd|Hd].
  { rewrite decide_True; [done|]. rewrite elem_of_cons. tauto. }
  destruct (decide (b = true ∧ (t1, ns1, n1, k2) = ((secretVertexType, ns, n), pvk))) as [[-> [= -> -> -> ->]]|Hne].
  - rewrite lookup_insert_eq, decide_True; [done|]. rewrite elem_of_cons. auto.
  - rewrite decide_False; [destruct b; [|done]; rewrite lookup_insert_ne; [done|naive_solver]|]. rewrite elem_of_cons.
    intros (-> & -> & [[= -> -> <-]|Hin]); [by apply Hne|by apply Hd].
Qed.

Lemma link_pv_ok l pvk pv g A :
  type_of pvk = pvVertexType → repr g A → layered A → vertices g !! pvk = Some pv →
  repr (fold_left (link_pv pv) l g) (pv_secrets pvk l A) ∧ layered (pv_secrets pvk l A).
Proof using Type.
  clear spare visit_perm visit. intros Ht. revert g A. induction l as [|[[ns n] b] l IH]; intros g A Hr Hl Hv; [done|].
  assert (pv_secrets pvk ((ns, n, b) :: l) A =
    pv_secrets pvk l (if b then <[((secretVertexType, ns, n), pvk) := None]> A else A)) as -> by done.
  cbn [fold_left link_pv]. destruct b; [|by apply IH].
  destruct (getOrCreate_spec g A (secretVertexType, ns, n) Hr) as (g' & id & -> & Hr' & Hid & Hm). apply IH.
  - assert (A !! (pvk, (secretVertexType, ns, n)) = None) as Hnone.
    { destruct (A !! (pvk, (secretVertexType, ns, n))) as [d|] eqn:E; [|done]. apply (la_down A Hl) in E. rewrite Ht in E.
      change (4 < 3)%nat in E. lia. }
    apply (repr_SetEdge g' A (secretVertexType, ns, n) pvk None id pv Hr' Hnone Hid); [by apply Hm|done].
  - apply layered_insert; [done|rewrite Ht; simpl; lia|rewrite Ht; done|done].
  - simpl. by apply Hm.
Qed.

Lemma AddPV_ok g o pv : graph_ok g o → graph_ok (AddPV visit spare g pv) (add_pv o pv).
Proof using visit_perm.
  intros (A & Hr & Hl & HA). set (pvk := pv_key (PVName pv)).
  assert (type_of pvk ≠ nodeVertexType) as Hpt by done.
  pose proof (deleteVertex_repr visit spare visit_perm g A pvk Hr Hl Hpt) as Hr1.
  pose proof (layered_without pvk A Hl Hpt) as Hl1. unfold AddPV. change (pvVertexType, "", PVName pv) with pvk.
  destruct (ClaimRef pv) as [[ns c]|] eqn:Ec.
  2:{ exists (without pvk A). split_and!; [done|done|]. intros k1 k2 d. rewrite aedge_add_pv, aedge_del_pv, <- HA, without_lookup, Ec.
      fold pvk. case_decide; naive_solver. }
  destruct (getOrCreate_spec _ _ pvk Hr1) as (g2 & v & -> & Hr2 & Hv & _).
  set (ck := (pvcVertexType, ns, c)). destruct (getOrCreate_spec _ _ ck Hr2) as (g3 & cv & -> & Hr3 & Hcv & Hm).
  assert (without pvk A !! (ck, pvk) = None) as Hnone.
  { rewrite without_lookup, decide_True by (by right). done. }
  pose proof (repr_SetEdge g3 _ pvk ck None v cv Hr3 Hnone (Hm _ _ Hv) Hcv) as Hset. simpl in Hset.
  assert (layered (<[(pvk, ck) := None]> (without pvk A))) as Hl2.
  { apply layered_insert; [done|simpl; lia|done|done]. }
  destruct (link_pv_ok (VisitPVSecretNames pv) pvk v (SetEdge g3 v cv None) (<[(pvk, ck) := None]> (without pvk A)))
    as [Hr' Hl']; [done|by apply Hset|done|simpl; by apply Hm|].
  eexists. split_and!; [exact Hr'|exact Hl'|]. intros k1 k2 d. rewrite aedge_add_pv, aedge_del_pv, <- HA, pv_secrets_lookup, Ec. fold pvk.
  destruct (decide (k2 = pvk ∧ type_of k1 = secretVertexType ∧ (k1.1.2, k1.2, true) ∈ VisitPVSecretNames pv)) as [Hd|Hd];
    [naive_solver|].
  destruct (decide ((k1, k2) = (pvk, ck))) as [[= -> ->]|Hne]; [rewrite lookup_insert_eq; naive_solver|].
  rewrite lookup_insert_ne, without_lookup by done. case_decide; [naive_solver|]. split; [naive_solver|].
  intros [?|(_ & [ns' c'] & [= <- <-] & [[-> ->]|?])]; [naive_solver|done|naive_solver].
Qed.

Lemma DeleteVA_ok g o nm : graph_ok g o → graph_ok (DeleteVolumeAttachment visit spare g nm) (del_va o nm).
Proof using visit_perm.
  intros (A & Hr & Hl & HA). exists (without (va_key nm) A). split_and!.
  - by apply deleteVertex_repr.
  - by apply layered_without.
  - intros k1 k2 d. rewrite without_lookup, aedge_del_va, <- HA. case_decide; naive_solver.
Qed.

(** An edge to a node from a vertex above the pods. *)
Lemma node_edge_ok g A k n :
  repr g A → layered A → (1 < layer (type_of k))%nat →
  let '(g1, v) := getOrCreateVertex_locked g k in
  let '(g2, nv) := getOrCreateVertex_locked g1 (node_key n) in
  repr (SetEdge g2 v nv (Some nv)) (<[(k, node_key n) := Some (node_key n)]> A) ∧
  layered (<[(k, node_key n) := Some (node_key n)]> A).
Proof using Type.
  clear spare visit_perm visit. intros Hr Hl Hk.
  destruct (getOrCreate_spec _ _ k Hr) as (g1 & v & -> & Hr1 & Hv & _).
  destruct (getOrCreate_spec _ _ (node_key n) Hr1) as (g2 & nv & -> & Hr2 & Hnv & Hm).
  assert (A !! (node_key n, k) = None) as Hnone.
  { destruct (A !! (node_key n, k)) as [d|] eqn:E; [|done]. apply (la_down A Hl) in E. change (layer (type_of k) < 0)%nat in E. lia. }
  pose proof (repr_SetEdge g2 A k (node_key n) (Some (node_key n)) v nv Hr2 Hnone (Hm _ _ Hv) Hnv) as Hset. simpl in Hset.
  rewrite Hnv in Hset. split; [apply Hset; intros kd [= <-]; eauto|].
  apply layered_insert; [done|change (0 < layer (type_of k))%nat; lia|done|]. intros kd [= <-]. split; [done|by left].
Qed.

Lemma AddVA_ok g o nm n :
  graph_ok g o → graph_ok (AddVolumeAttachment visit spare g nm n) (if bool_decide (n = "") then del_va o nm else add_va o nm n).
Proof using visit_perm.
  intros Hg. pose proof (DeleteVA_ok g o nm Hg) as (A & Hr & Hl & HA). unfold AddVolumeAttachment. unfold DeleteVolumeAttachment in Hr.
  case_bool_decide; [by exists A|]. pose proof (node_edge_ok _ A (va_key nm) n Hr Hl) as He.
  change (vaVertexType, "", nm) with (va_key nm) in *. change (nodeVertexType, "", n) with (node_key n).
  destruct (getOrCreateVertex_locked _ (va_key nm)) as [g1 v]. destruct (getOrCreateVertex_locked g1 (node_key n)) as [g2 nv].
  destruct He as [Hr' Hl']; [simpl; lia|]. eexists. split_and!; [exact Hr'|exact Hl'|]. intros k1 k2 d.
  rewrite aedge_add_va, <- HA. destruct (decide ((k1, k2) = (va_key nm, node_key n))) as [[= -> ->]|Hne].
  - rewrite lookup_insert_eq, HA, aedge_del_va. naive_solver.
  - rewrite lookup_insert_ne by done. naive_solver.
Qed.

Lemma SetNodeConfigMap_ok g o n name ns :
  graph_ok g o →
  graph_ok (SetNodeConfigMap visit g n name ns)
    (if bool_decide (name = "") || bool_decide (ns = "") then del_config o n else set_config o n (ns, name)).
Proof using visit_perm.
  clear spare. intros (A & Hr & Hl & HA). unfold SetNodeConfigMap. change (nodeVertexType, "", n) with (node_key n).
  assert (configMapVertexType ≠ podVertexType) as Hcp by done.
  pose proof (deleteEdges_repr visit visit_perm g A configMapVertexType (node_key n) Hr Hl eq_refl Hcp) as Hr1.
  pose proof (layered_without_edges configMapVertexType (node_key n) A Hl Hcp) as Hl1.
  assert (∀ k1 k2 d, without_edges configMapVertexType (node_key n) A !! (k1, k2) = Some d ↔ aedge (del_config o n) k1 k2 d) as HA1.
  { intros k1 k2 d. rewrite without_edges_lookup, aedge_del_config, <- HA. case_decide; naive_solver. }
  rewrite <- negb_orb. destruct (_ || _); simpl; [by eexists|].
  pose proof (node_edge_ok _ _ (configMapVertexType, ns, name) n Hr1 Hl1) as He.
  destruct (getOrCreateVertex_locked _ (configMapVertexType, ns, name)) as [g1 v].
  destruct (getOrCreateVertex_locked g1 (node_key n)) as [g2 nv].
  destruct He as [Hr' Hl']; [simpl; lia|]. eexists. split_and!; [exact Hr'|exact Hl'|]. intros k1 k2 d.
  rewrite aedge_set_config, <- HA1. simpl. destruct (decide ((k1, k2) = (configMapVertexType, ns, name, node_key n))) as [[= -> ->]|Hne].
  - rewrite lookup_insert_eq, HA1, aedge_del_config. naive_solver.
  - rewrite lookup_insert_ne by done. naive_solver.
Qed.
End Order.
