(* ===== verification/NodeWalk.v ===== *)
(** * Walks in the graph of the node authorizer

    The depth-first traversal with its filter of edges finds the node exactly when a path
    of edges that the filter lets pass reaches it, and it ends within as many steps as
    there are vertices. *)

From S2P Require Import Prelude GoStrings NodeGraph NodeGraphSpec.

(** ** Walks *)

(** The edges that the filter lets pass, and the vertices with an edge that leads to the
    node at once. *)
Definition allowed (g : Graph) (target t n : nat) : Prop :=
  ∃ d, gedges g !! (t, n) = Some d ∧ (d = None ∨ d = Some target).
Definition hit (g : Graph) (target t : nat) : Prop := ∃ n, gedges g !! (t, n) = Some (Some target).

#[global] Instance allowed_dec g target t n : Decision (allowed g target t n).
Proof.
  refine (match gedges g !! (t, n) as o return gedges g !! (t, n) = o → Decision (allowed g target t n) with
    | Some d => λ E, cast_if (decide (d = None ∨ d = Some target))
    | None => λ E, right _
    end eq_refl); [exists d; done|intros (d' & E' & ?); naive_solver|intros (d' & E' & _); congruence].
Defined.

Lemma tos_edge g t n : n ∈ tos g t ↔ is_Some (gedges g !! (t, n)).
Proof.
  unfold tos. rewrite elem_of_map. split.
  - intros ([a b] & -> & [Ha Hin]%elem_of_filter). simpl in *. subst. by apply elem_of_dom in Hin.
  - intros Hs. exists (t, n). split; [done|]. apply elem_of_filter. split; [done|]. by apply elem_of_dom.
Qed.

Lemma walk_fold g target t l w :
  (∀ n, n ∈ l → is_Some (gedges g !! (t, n))) →
  let w' := fold_left (walk_visit g target t) l w in
  (∀ x, x ∈ visited w' ↔ x ∈ visited w ∨ x ∈ l ∧ allowed g target t x) ∧
  (∃ new, stack w' = new ++ stack w ∧ NoDup new ∧ ∀ x, x ∈ new ↔ x ∈ visited w' ∧ x ∉ visited w) ∧
  (found w' = true ↔ found w = true ∨ ∃ n, n ∈ l ∧
    (gedges g !! (t, n) = Some (Some target) ∨ n = target ∧ n ∉ visited w ∧ allowed g target t n)) ∧
  (stopped w' = true → stopped w = true ∨ found w' = true).
Proof.
  revert w. induction l as [|n l IH]; intros w Hl; cbn [fold_left].
  { split_and!; [set_solver|exists []; split_and!; [done|constructor|set_solver]|set_solver|auto]. }
  destruct (IH (walk_visit g target t w n)) as (Hv & (new & Hst & Hnd & Hnew) & Hf & Hs); [set_solver|]. clear IH.
  destruct (Hl n ltac:(by left)) as [d Hd].
  assert (allowed g target t n ↔ d = None ∨ d = Some target) as Hall.
  { unfold allowed. rewrite Hd. naive_solver. }
  assert ((walk_visit g target t w n = w ∧ ¬ allowed g target t n) ∨
    (allowed g target t n ∧ n ∈ visited w ∧
      walk_visit g target t w n = mkWalk (stack w) (visited w) (match d with Some _ => true | None => found w end) (stopped w)) ∨
    (allowed g target t n ∧ n ∉ visited w ∧
      let f := match d with Some _ => true | None => found w end || bool_decide (n = target) in
      walk_visit g target t w n = mkWalk (n :: stack w) ({[n]} ∪ visited w) f (stopped w || f))) as Hcases.
  { unfold walk_visit. rewrite Hd. destruct d as [d|]; simpl.
    - case_bool_decide as E; simpl; [|left; split; [done|]; rewrite Hall; naive_solver].
      right. case_bool_decide; [left|right]; (split; [rewrite Hall; naive_solver|]); done.
    - right. case_bool_decide; [left|right]; (split; [rewrite Hall; naive_solver|]); done. }
  destruct Hcases as [[E Hn]|[(Ha & Hin & E)|(Ha & Hin & E)]]; rewrite E in *; simpl in *.
  - split_and!; [intros x; rewrite Hv, elem_of_cons; destruct (decide (x = n)) as [->|]; tauto|eauto| |done]. rewrite Hf.
    split; [intros [?|(m & Hm & Hor)]; [by left|right; exists m; split; [by right|done]]|]. intros [?|(m & [->|?]%elem_of_cons & Hm)]; [by left| |eauto].
    exfalso. apply Hn. destruct Hm as [Hm|(_ & _ & ?)]; [|done]. rewrite Hd in Hm. rewrite Hall. naive_solver.
  - split_and!; [intros x; rewrite Hv, elem_of_cons; destruct (decide (x = n)) as [->|]; tauto|eauto| |done]. rewrite Hf. split.
    + intros [Hx|(m & Hm & Hor)]; [|right; exists m; split; [by right|done]]. destruct d as [d|]; [|by left]. right. exists n. split; [by left|]. left. rewrite Hd.
      rewrite Hall in Ha. naive_solver.
    + intros [Hx|(m & [->|?]%elem_of_cons & Hm)]; [left; by destruct d| |eauto].
      destruct Hm as [Hm|(_ & ? & _)]; [|done]. rewrite Hd in Hm. simplify_eq. by left.
  - split_and!; [intros x; rewrite Hv, elem_of_cons, elem_of_union, elem_of_singleton; destruct (decide (x = n)) as [->|]; tauto| | |].
    + exists (new ++ [n]). rewrite Hst, <- app_assoc. split_and!; [done| |].
      * apply NoDup_app. split_and!; [done| |apply NoDup_singleton]. intros x Hx%Hnew. set_solver.
      * intros x. rewrite elem_of_app, Hnew, list_elem_of_singleton, elem_of_union, elem_of_singleton, Hv.
        destruct (decide (x = n)) as [->|]; set_solver.
    + rewrite Hf, orb_true_iff, bool_decide_eq_true. split.
      * intros [[Hx| ->]|(m & Hm & Hor)]; [destruct d as [d|]; [|by left]| |].
        -- right. exists n. split; [by left|]. left. rewrite Hd. rewrite Hall in Ha. naive_solver.
        -- right. exists target. split; [by left|]. by right.
        -- right. exists m. split; [by right|]. destruct Hor as [?|(? & Hni & ?)]; [by left|right].
           split_and!; [done| |done]. intros ?. apply Hni. by apply elem_of_union; right.
      * intros [Hx|(m & [->|Hm]%elem_of_cons & Hor)].
        -- left. left. by destruct d.
        -- left. destruct Hor as [Hor|(-> & _)]; [|by right]. rewrite Hd in Hor. simplify_eq. by left.
        -- destruct (decide (m = n)) as [->|Hmn].
           2:{ right. exists m. split; [done|]. destruct Hor as [?|(? & Hni & ?)]; [by left|right]. split_and!; [done| |done].
               intros [?%elem_of_singleton|?]%elem_of_union; done. }
           destruct Hor as [Hor|(-> & _)]; [|left; by right]. rewrite Hd in Hor. simplify_eq. left. by left.
    + intros Hx. destruct (Hs Hx) as [[?|Hy]%orb_true_iff|?]; [by left| |by right]. right. apply Hf. by left.
Qed.

(** What a walk is to find. *)
Definition reaches (g : Graph) (from target : nat) : Prop :=
  ∃ t, rtc (allowed g target) from t ∧ (t = target ∨ hit g target t).

(** The visited vertices are reached; those that are done have their neighbours among
    them. *)
Record walk_inv (g : Graph) (from target : nat) (w : walk) : Prop := mk_walk_inv {
  wi_from : from ∈ visited w;
  wi_reached : ∀ x, x ∈ visited w → rtc (allowed g target) from x ∧ is_Some (gnodes g !! x);
  wi_stack : NoDup (stack w) ∧ ∀ x, x ∈ stack w → x ∈ visited w;
  wi_found : found w = true → reaches g from target;
  wi_done : ∀ x, x ∈ visited w → x ∉ stack w →
    (∀ n, allowed g target x n → n ∈ visited w) ∧ (hit g target x → found w = true);
  wi_target : target ∈ visited w → found w = true;
}.

Lemma closed_reached g from target w :
  walk_inv g from target w → stack w = [] → ∀ x, rtc (allowed g target) from x → x ∈ visited w.
Proof.
  intros Hi Hs x Hx.
  assert (∀ y n, y ∈ visited w → allowed g target y n → n ∈ visited w) as Hcl.
  { intros y n Hy. apply (wi_done _ _ _ _ Hi y Hy). rewrite Hs. apply not_elem_of_nil. }
  pose proof (wi_from _ _ _ _ Hi) as Hf. clear Hi. induction Hx as [|x y z Hxy _ IH]; [done|]. apply IH. by apply (Hcl x).
Qed.

Section Order.
Context (visit : Graph → gset nat → list nat) (visit_perm : ∀ g s, visit g s ≡ₚ elements s).

(** One vertex is taken from the stack and its neighbours are visited. *)
Lemma walk_turn g from target w t rest :
  edges_closed g → walk_inv g from target w → stack w = t :: rest →
  let w' := fold_left (walk_visit g target t) (visit g (tos g t)) (mkWalk rest (visited w) (found w) false) in
  walk_inv g from target w' ∧ (stopped w' = true → found w' = true) ∧
  (size (visited w') + length rest = size (visited w) + length (stack w'))%nat.
Proof using visit_perm.
  intros Hc [Hfrom Hre [Hnd Hsub] Hfound Hdone Htar] Hst.
  assert (∀ n, n ∈ visit g (tos g t) ↔ is_Some (gedges g !! (t, n))) as Hvis.
  { intros n. by rewrite visit_perm, elem_of_elements, tos_edge. }
  rewrite Hst in *. apply NoDup_cons in Hnd as [Ht Hnd].
  destruct (walk_fold g target t (visit g (tos g t)) (mkWalk rest (visited w) (found w) false)) as (Hv & (new & Hst' & Hndn & Hnew) & Hf & Hs);
    [intros n; by rewrite Hvis|].
  set (w' := fold_left _ _ _) in *. cbn [visited stack found stopped] in *.
  assert (t ∈ visited w) as Htv by (apply Hsub; by left). destruct (Hre t Htv) as [Htr _].
  assert (∀ n, allowed g target t n → n ∈ visit g (tos g t)) as Hal by (intros n (d & E & _); apply Hvis; eauto).
  split_and!; [constructor| |].
  - apply Hv. by left.
  - intros x [Hx|[_ Hx]]%Hv; [by apply Hre|]. split; [by eapply rtc_r|]. destruct Hx as (d & E & _). by destruct (Hc _ _ _ E).
  - rewrite Hst'. split.
    + apply NoDup_app. split_and!; [done| |done]. intros x [_ Hx]%Hnew Hin. apply Hx, Hsub. by right.
    + intros x [Hx|Hx]%elem_of_app; [by apply Hnew in Hx as [? _]|]. apply Hv. left. apply Hsub. by right.
  - intros [?|(n & Hn & [E|(-> & _ & Ha)])]%Hf; [auto|exists t; split; [done|right; by exists n]|].
    exists target. split; [by eapply rtc_r|by left].
  - intros x Hx Hns. rewrite Hst' in Hns. assert (x ∉ new ∧ x ∉ rest) as [Hn Hr] by (split; intros ?; apply Hns, elem_of_app; auto).
    assert (x ∈ visited w) as Hxw by (destruct (decide (x ∈ visited w)); [done|]; destruct Hn; by apply Hnew).
    destruct (decide (x = t)) as [->|Hxt].
    + split; [intros n Ha; apply Hv; right; auto|]. intros [n E]. apply Hf. right. exists n. split; [apply Hvis; eauto|by left].
    + destruct (Hdone x Hxw) as [H1 H2]; [intros [?|?]%elem_of_cons; done|]. split; [intros n Ha; apply Hv; left; auto|].
      intros Hh. apply Hf. left. auto.
  - intros [Hx|[Hin Hx]]%Hv; apply Hf; [left; auto|]. destruct (decide (target ∈ visited w)) as [Hy|Hy]; [left; auto|].
    right. exists target. split; [done|]. by right.
  - intros Hx. by destruct (Hs Hx).
  - rewrite Hst', length_app. assert (visited w' = visited w ∪ list_to_set new) as ->.
    { apply set_eq. intros x. rewrite elem_of_union, elem_of_list_to_set, Hnew, Hv. destruct (decide (x ∈ visited w)); tauto. }
    rewrite size_union, size_list_to_set by (done || (intros x Hx Hx'%elem_of_list_to_set; by apply Hnew in Hx' as [_ ?])). lia.
Qed.

Lemma walk_loop_spec fuel g from target w :
  edges_closed g → walk_inv g from target w → (size (gnodes g) + length (stack w) < fuel + size (visited w))%nat →
  ∃ b, walk_loop visit fuel g target w = Some b ∧ (b = true ↔ reaches g from target).
Proof using visit_perm.
  intros Hc. revert w. induction fuel as [|fuel IH]; intros w Hi Hf.
  { exfalso. assert (size (visited w) ≤ size (gnodes g))%nat; [|lia]. rewrite <- (size_dom (D := gset nat)). apply subseteq_size.
    intros x Hx. apply elem_of_dom. by apply (wi_reached _ _ _ _ Hi). }
  cbn [walk_loop]. destruct (stack w) as [|t rest] eqn:Hst.
  - exists (found w). split; [done|]. split; [apply (wi_found _ _ _ _ Hi)|]. intros (t & Ht & Hor).
    pose proof (closed_reached g from target w Hi Hst t Ht) as Hin. destruct Hor as [->|Hh]; [by apply (wi_target _ _ _ _ Hi)|].
    apply (wi_done _ _ _ _ Hi t Hin); [rewrite Hst; apply not_elem_of_nil|done].
  - destruct (walk_turn g from target w t rest Hc Hi Hst) as (Hi' & Hs' & Hm). set (w' := fold_left _ _ _) in *.
    destruct (stopped w') eqn:Es; [|apply IH; [done|simpl in Hf; lia]]. exists (found w'). split; [done|].
    rewrite (Hs' eq_refl). split; [intros _; by apply (wi_found _ _ _ _ Hi'), Hs'|done].
Qed.

Lemma Walk_spec g from target :
  edges_closed g → is_Some (gnodes g !! from) →
  ∃ b, Walk visit g from target = Some b ∧ (b = true ↔ reaches g from target).
Proof using visit_perm.
  intros Hc Hfrom. unfold Walk. case_bool_decide as E.
  { exists true. split; [done|]. split; [|done]. intros _. exists from. subst. split; [done|by left]. }
  apply walk_loop_spec; [done| |].
  - constructor; simpl.
    + set_solver.
    + intros x ->%elem_of_singleton. by split.
    + split; [apply NoDup_singleton|]. intros x ->%list_elem_of_singleton. set_solver.
    + done.
    + intros x ->%elem_of_singleton Hn. destruct Hn. by left.
    + by intros ->%elem_of_singleton.
  - cbn [stack visited length]. rewrite size_singleton. lia.
Qed.
End Order.
