(* ===== verification/NodeRelated.v ===== *)
(** * Objects that are related to a node

    What the comment of the node authorizer promises: which objects lead to a node, in
    terms of pods, volumes, attachments and node configurations; and that a walk in the
    graph that represents these objects decides it. *)

From S2P Require Import Prelude GoStrings NodeGraph NodeGraphSpec NodeGraphPaths NodeWalk.

(** ** Paths between keys *)

Definition plain (A : edge_map) (a b : vkey) : Prop := A !! (a, b) = Some None.

(** Edges without a destination, and then one that leads to the node. *)
Definition leads (A : edge_map) (k nk : vkey) : Prop :=
  ∃ k1 k2, rtc (plain A) k k1 ∧ A !! (k1, k2) = Some (Some nk).

Lemma edge_plain g A i j k1 :
  repr g A → vertices g !! k1 = Some i → gedges g !! (i, j) = Some None →
  ∃ k2, vertices g !! k2 = Some j ∧ plain A k1 k2.
Proof.
  intros Hr H1 E. apply (edge_key g A i j None Hr) in E as (k1' & k2 & dk & H1' & H2 & EA & Ed).
  rewrite (key_inj g A k1' k1 i Hr H1' H1) in EA. exists k2. split; [done|]. unfold plain. rewrite EA. f_equal.
  destruct dk as [kd|]; [|done]. simpl in Ed. destruct (r_dom g A Hr _ _ _ EA) as (_ & _ & H3). destruct (H3 kd eq_refl). congruence.
Qed.

Lemma edge_dest g A i j k1 nk target :
  repr g A → vertices g !! k1 = Some i → vertices g !! nk = Some target → gedges g !! (i, j) = Some (Some target) →
  ∃ k2, vertices g !! k2 = Some j ∧ A !! (k1, k2) = Some (Some nk).
Proof.
  intros Hr H1 Hnk E. apply (edge_key g A i j _ Hr) in E as (k1' & k2 & dk & H1' & H2 & EA & Ed).
  rewrite (key_inj g A k1' k1 i Hr H1' H1) in EA. exists k2. split; [done|]. destruct dk as [kd|]; [|done]. simpl in Ed.
  rewrite EA. by rewrite (key_inj g A kd nk target Hr).
Qed.

Lemma reaches_leads g A k nk from target :
  repr g A → layered A → vertices g !! k = Some from → vertices g !! nk = Some target →
  type_of k ≠ nodeVertexType → type_of nk = nodeVertexType → reaches g from target ↔ leads A k nk.
Proof.
  intros Hr Hl Hk Hnk Ht Hnt. split.
  - intros (t & Hpath & Hor). revert k Hk Ht. induction Hpath as [from|from y t (d & E & Hd) Hpath IH]; intros k Hk Ht.
    + destruct Hor as [->|[n E]]; [by rewrite (key_inj g A k nk target Hr Hk Hnk) in Ht|].
      destruct (edge_dest g A from n k nk target Hr Hk Hnk E) as (k2 & _ & EA). exists k, k2. done.
    + destruct Hd as [->| ->].
      * destruct (edge_plain g A from y k Hr Hk E) as (k2 & H2 & EA). destruct (IH Hor k2 H2) as (k3 & k4 & H3 & H4).
        { intros Hk2. pose proof (la_node A Hl _ _ _ EA Hk2). done. }
        exists k3, k4. split; [by eapply rtc_l|done].
      * destruct (edge_dest g A from y k nk target Hr Hk Hnk E) as (k2 & _ & EA). exists k, k2. done.
  - intros (k1 & k2 & Hpath & E). clear Ht. revert from Hk. induction Hpath as [k|k k' k1 Hp Hpath IH]; intros from Hk.
    + destruct (r_dom g A Hr _ _ _ E) as (_ & [j Hj] & _). exists from. split; [done|]. right. exists j.
      rewrite (key_edge g A k k2 from j Hr Hk Hj), E. simpl. by rewrite Hnk.
    + destruct (r_dom g A Hr _ _ _ Hp) as (_ & [j Hj] & _). destruct (IH E j Hj) as (t & Ht & Hor). exists t. split; [|done].
      eapply rtc_l; [|done]. exists None. split; [|by left]. by rewrite (key_edge g A k k' from j Hr Hk Hj), Hp.
Qed.

(** ** Related objects *)

(** A pod on the node refers to the object. *)
Definition pod_uses (o : objects) (n : string) (t : vertexType) (ns name : string) : Prop :=
  ∃ nm p, oPods o !! (ns, nm) = Some p ∧ gNodeName p = n ∧ (t, name) ∈ pod_refs p.

(** A volume that is bound to a claim that a pod on the node uses. *)
Definition pv_used (o : objects) (n nm : string) : Prop :=
  ∃ pv ns c, oPVs o !! nm = Some pv ∧ ClaimRef pv = Some (ns, c) ∧ pod_uses o n pvcVertexType ns c.

Definition related (o : objects) (n : string) (k : vkey) : Prop :=
  let '(t, ns, name) := k in
  match t with
  | secretVertexType =>
      pod_uses o n t ns name ∨
      ∃ nm pv, oPVs o !! nm = Some pv ∧ (ns, name, true) ∈ VisitPVSecretNames pv ∧ pv_used o n nm
  | configMapVertexType => pod_uses o n t ns name ∨ oConfigs o !! n = Some (ns, name)
  | pvcVertexType | serviceAccountVertexType => pod_uses o n t ns name
  | pvVertexType => ns = "" ∧ pv_used o n name
  | vaVertexType => ns = "" ∧ oAttachments o !! name = Some n
  | podVertexType => ∃ p, oPods o !! (ns, name) = Some p ∧ gNodeName p = n
  | nodeVertexType => False
  end.

Section Related.
Context (o : objects) (A : edge_map) (HA : ∀ k1 k2 d, A !! (k1, k2) = Some d ↔ aedge o k1 k2 d).

Lemma plain_cases k1 k2 :
  plain A k1 k2 ↔
  (∃ nm pv ns c, k1 = pv_key nm ∧ k2 = (pvcVertexType, ns, c) ∧ oPVs o !! nm = Some pv ∧ ClaimRef pv = Some (ns, c)) ∨
  (∃ nm pv c ns s, k1 = (secretVertexType, ns, s) ∧ k2 = pv_key nm ∧ oPVs o !! nm = Some pv ∧ ClaimRef pv = Some c ∧
    (ns, s, true) ∈ VisitPVSecretNames pv).
Proof using HA.
  unfold plain. rewrite HA. split.
  - intros H. edge_cases H; [left; by eexists _, _, _, _|right; by eexists _, _, _, _, _].
  - intros [(nm & pv & ns & c & -> & -> & ? & ?)|(nm & pv & c & ns & s & -> & -> & ? & ? & ?)]; by econstructor.
Qed.

Lemma dest_cases k1 n :
  (∃ k2, A !! (k1, k2) = Some (Some (node_key n))) ↔
  (∃ nn p, k1 = pod_key nn ∧ oPods o !! nn = Some p ∧ gNodeName p = n) ∨
  pod_uses o n (type_of k1) k1.1.2 k1.2 ∨ (∃ nm, k1 = va_key nm ∧ oAttachments o !! nm = Some n) ∨
  (∃ ns c, k1 = (configMapVertexType, ns, c) ∧ oConfigs o !! n = Some (ns, c)).
Proof using HA.
  split.
  - intros [k2 H%HA]. edge_cases H; [left; by eexists _, _|right; left|right; right; left; by eexists|right; right; right; by eexists _, _].
    destruct nn as [ns nm]. by exists nm, p.
  - intros [(nn & p & -> & Hp & <-)|[(nm & p & Hp & <- & Hr)|[(nm & -> & Hn)|(ns & c & -> & Hn)]]].
    + eexists. apply HA. by constructor.
    + destruct k1 as [[t ns] name]. eexists. apply HA. by apply (ae_ref o (ns, nm) p).
    + eexists. apply HA. by constructor.
    + eexists. apply HA. by constructor.
Qed.

Lemma pod_uses_type n t ns name : pod_uses o n t ns name → t ≠ pvVertexType ∧ t ≠ podVertexType ∧ t ≠ vaVertexType ∧ t ≠ nodeVertexType.
Proof using Type. intros (nm & p & _ & _ & Hr). destruct (pod_ref_type p t name Hr) as [->|[->|[->| ->]]]; done. Qed.

(** By the layers: a secret, a volume and a claim. *)
Lemma leads_claim n ns c : leads A (pvcVertexType, ns, c) (node_key n) ↔ pod_uses o n pvcVertexType ns c.
Proof using HA.
  split.
  - intros (k1 & k2 & Hp & E). apply rtc_inv in Hp as [<-|(k' & Hp & _)].
    + destruct (proj1 (dest_cases (pvcVertexType, ns, c) n) ltac:(eauto)) as [(? & ? & ? & _)|[?|[(? & ? & _)|(? & ? & ? & _)]]];
        [done|done|done|done].
    + apply plain_cases in Hp as [(? & ? & ? & ? & ? & _)|(? & ? & ? & ? & ? & ? & _)]; done.
  - intros H. destruct (proj2 (dest_cases (pvcVertexType, ns, c) n)) as [k2 E]; [right; by left|].
    by exists (pvcVertexType, ns, c), k2.
Qed.

Lemma leads_volume n nm : leads A (pv_key nm) (node_key n) ↔ pv_used o n nm.
Proof using HA.
  split.
  - intros (k1 & k2 & Hp & E). apply rtc_inv in Hp as [<-|(k' & Hp & Hrest)].
    + destruct (proj1 (dest_cases (pv_key nm) n) ltac:(eauto)) as [(? & ? & ? & _)|[H|[(? & ? & _)|(? & ? & ? & _)]]]; try done.
      by apply pod_uses_type in H as [? _].
    + apply plain_cases in Hp as [(nm' & pv & ns & c & [= <-] & -> & Hpv & Hc)|(? & ? & ? & ? & ? & ? & _)]; [|done].
      exists pv, ns, c. split_and!; [done|done|]. apply leads_claim. by exists k1, k2.
  - intros (pv & ns & c & Hpv & Hc & Hu). apply leads_claim in Hu as (k1 & k2 & Hp & E). exists k1, k2. split; [|done].
    eapply rtc_l; [|done]. apply plain_cases. left. eauto 10.
Qed.

Lemma leads_related n k : type_of k ≠ nodeVertexType → leads A k (node_key n) ↔ related o n k.
Proof using HA.
  intros Ht. destruct k as [[t ns] name]. unfold type_of in Ht. simpl in Ht.
  assert (∀ P : Prop, t ≠ secretVertexType → t ≠ pvVertexType →
    ((∃ k2, A !! (t, ns, name, k2) = Some (Some (node_key n))) ↔ P) → leads A (t, ns, name) (node_key n) ↔ P) as Hno.
  { intros P Hs Hv <-. split.
    - intros (k1 & k2 & Hp & E). apply rtc_inv in Hp as [<-|(k' & Hp & _)]; [eauto|].
      apply plain_cases in Hp as [(? & ? & ? & ? & [=] & _)|(? & ? & ? & ? & ? & [=] & _)]; done.
    - intros [k2 E]. by exists (t, ns, name), k2. }
  destruct t; simpl; try (apply Hno; [done|done|]; rewrite dest_cases; unfold type_of; simpl).
  - split; [intros [(? & ? & ? & _)|[?|[(? & ? & _)|(? & ? & [= <- <-] & ?)]]]; try done; auto|naive_solver].
  - done.
  - split; [|intros (p & ? & ?); left; exists (ns, name), p; done].
    intros [([ns' nm'] & p & [= -> ->] & ? & ?)|[H|[(? & ? & _)|(? & ? & ? & _)]]]; [eauto|by apply pod_uses_type in H as (_ & ? & _)|done|done].
  - split; [intros [(? & ? & ? & _)|[?|[(? & ? & _)|(? & ? & ? & _)]]]; done|naive_solver].
  - split.
    + intros H. destruct (decide (ns = "")) as [->|Hns]; [split; [done|]; by apply leads_volume|]. exfalso.
      destruct H as (k1 & k2 & Hp & E). apply rtc_inv in Hp as [<-|(k' & Hp & _)].
      * destruct (proj1 (dest_cases (pvVertexType, ns, name) n) ltac:(eauto)) as [(? & ? & ? & _)|[H|[(? & ? & _)|(? & ? & ? & _)]]]; try done.
        by apply pod_uses_type in H as [? _].
      * apply plain_cases in Hp as [(? & ? & ? & ? & [= ? ?] & _)|(? & ? & ? & ? & ? & ? & _)]; done.
    + intros [-> H]. by apply leads_volume.
  - split.
    + intros (k1 & k2 & Hp & E). apply rtc_inv in Hp as [<-|(k' & Hp & Hrest)].
      * destruct (proj1 (dest_cases (secretVertexType, ns, name) n) ltac:(eauto)) as [(? & ? & ? & _)|[H|[(? & ? & _)|(? & ? & ? & _)]]]; try done.
        by left.
      * apply plain_cases in Hp as [(? & ? & ? & ? & ? & _)|(nm & pv & c & ns' & s & [= <- <-] & -> & Hpv & Hc & Hs)]; [done|].
        right. exists nm, pv. split_and!; [done|done|]. apply leads_volume. by exists k1, k2.
    + intros [H|(nm & pv & Hpv & Hs & Hu)].
      * destruct (proj2 (dest_cases (secretVertexType, ns, name) n)) as [k2 E]; [right; by left|]. by exists (secretVertexType, ns, name), k2.
      * pose proof Hu as (pv' & ns' & c & Hpv' & Hc & _). rewrite Hpv in Hpv'. injection Hpv' as <-.
        apply leads_volume in Hu as (k1 & k2 & Hp & E). exists k1, k2. split; [|done]. eapply rtc_l; [|done].
        apply plain_cases. right. by exists nm, pv, (ns', c), ns, name.
  - split; [|intros [-> ?]; right; right; left; by exists name].
    intros [(? & ? & ? & _)|[H|[(nm & [= -> ->] & ?)|(? & ? & ? & _)]]]; [done|by apply pod_uses_type in H as (_ & _ & ? & _)|done|done].
  - split; [intros [(? & ? & ? & _)|[?|[(? & ? & _)|(? & ? & ? & _)]]]; done|naive_solver].
Qed.
End Related.
