(* ===== verification/NodeAuthorizer.v ===== *)
(** * The node authorizer

    [plugin/pkg/auth/authorizer/node/node_authorizer.go], [graph_populator.go] and
    [pkg/auth/nodeidentifier/default.go]: what a kubelet may do. Access to secrets, config
    maps, claims, volumes, attachments and service accounts follows the graph, that to
    leases and driver information the name of the node, and the rest static rules. *)

From S2P Require Import Prelude GoStrings RbacRules NodeGraph NodeGraphSpec NodeGraphPaths NodeWalk NodeRelated.

(** ** The identity of a node *)

Definition nodeUserNamePrefix : string := "system:node:".
Definition NodesGroup : string := "system:nodes".

Definition TrimPrefix (s prefix : string) : string :=
  if HasPrefix s prefix then String.substring (String.length prefix) (String.length s - String.length prefix) s else s.

(** The name, and whether the user is a node. *)
Definition NodeIdentity (u : UserInfo) : string * bool :=
  if negb (HasPrefix (UserName u) nodeUserNamePrefix) then ("", false)
  else if negb (existsb (λ g, bool_decide (g = NodesGroup)) (UserGroups u)) then ("", false)
  else (TrimPrefix (UserName u) nodeUserNamePrefix, true).

(** ** Paths *)

Inductive PathError : Type := UnknownNode | UnknownObject | NoPath.

Section Authorizer.
Context (visit : Graph → gset nat → list nat) (spare : nat → bool).

Definition hasPathFrom (g : Graph) (nodeName : string) (k : vkey) : result PathError bool :=
  match vertices g !! (nodeVertexType, "", nodeName) with
  | None => Err UnknownNode
  | Some nodeVertex =>
      match vertices g !! k with
      | None => Err UnknownObject
      | Some startingVertex =>
          if int_has (destinationEdgeIndex g !! startingVertex) nodeVertex then Ok true
          else
            match Walk visit g startingVertex nodeVertex with
            | Some true => Ok true
            | _ => Err NoPath
            end
      end
  end.

(** ** Decisions *)

Record FeatureGate : Type := mkFeatures {
  ExpandPersistentVolumes : bool;
  CSIPersistentVolume : bool;
  TokenRequest : bool;
  NodeLease : bool;
  KubeletPluginsWatcher : bool;
  CSINodeInfo : bool;
}.

(** The reason of a decision; two of them quote a name. *)
Inductive NodeReason : Type :=
  | Because (text : string)
  | UnknownNodeForUser (user : string)
  | OnlyLeasesIn (namespace : string).

(** The decision with its reason; the error is always nil. *)
Definition authorize (g : Graph) (nodeName : string) (startingType : vertexType) (a : Attributes) : Decision * NodeReason :=
  if bool_decide (GetName a = "") then (DecisionNoOpinion, Because "No Object name found")
  else
    match hasPathFrom g nodeName (startingType, GetNamespace a, GetName a) with
    | Ok true => (DecisionAllow, Because "")
    | _ => (DecisionNoOpinion, Because "no path found to object")
    end.

Definition is_verb (a : Attributes) (verbs : list string) : bool := existsb (λ v, bool_decide (GetVerb a = v)) verbs.

Definition authorizeStatusUpdate (g : Graph) (nodeName : string) (startingType : vertexType) (a : Attributes) : Decision * NodeReason :=
  if negb (is_verb a ["update"; "patch"]) then (DecisionNoOpinion, Because "can only get/update/patch this type")
  else if negb (bool_decide (GetSubresource a = "status")) then (DecisionNoOpinion, Because "can only update status subresource")
  else authorize g nodeName startingType a.

Definition authorizeGet (g : Graph) (nodeName : string) (startingType : vertexType) (a : Attributes) : Decision * NodeReason :=
  if negb (is_verb a ["get"]) then (DecisionNoOpinion, Because "can only get individual resources of this type")
  else if negb (bool_decide (GetSubresource a = "")) then (DecisionNoOpinion, Because "cannot get subresource")
  else authorize g nodeName startingType a.

Definition authorizeReadNamespacedObject (g : Graph) (nodeName : string) (startingType : vertexType) (a : Attributes) : Decision * NodeReason :=
  if negb (is_verb a ["get"; "list"; "watch"]) then (DecisionNoOpinion, Because "can only read resources of this type")
  else if negb (bool_decide (GetSubresource a = "")) then (DecisionNoOpinion, Because "cannot read subresource")
  else if bool_decide (GetNamespace a = "") then (DecisionNoOpinion, Because "can only read namespaced object of this type")
  else authorize g nodeName startingType a.

Definition authorizeCreateToken (g : Graph) (nodeName : string) (startingType : vertexType) (a : Attributes) : Decision * NodeReason :=
  if negb (is_verb a ["create"]) || bool_decide (GetName a = "") then
    (DecisionNoOpinion, Because "can only create tokens for individual service accounts")
  else if negb (bool_decide (GetSubresource a = "token")) then
    (DecisionNoOpinion, Because "can only create token subresource of serviceaccount")
  else
    match hasPathFrom g nodeName (startingType, GetNamespace a, GetName a) with
    | Ok true => (DecisionAllow, Because "")
    | _ => (DecisionNoOpinion, Because "no path found to object")
    end.

Definition NamespaceNodeLease : string := "kube-node-lease".
Definition object_verbs : list string := ["get"; "create"; "update"; "patch"; "delete"].

Definition authorizeLease (nodeName : string) (a : Attributes) : Decision * NodeReason :=
  if negb (is_verb a object_verbs) then (DecisionNoOpinion, Because "can only get, create, update, patch, or delete a node lease")
  else if negb (bool_decide (GetNamespace a = NamespaceNodeLease)) then
    (DecisionNoOpinion, OnlyLeasesIn NamespaceNodeLease)
  else if negb (is_verb a ["create"]) && negb (bool_decide (GetName a = nodeName)) then
    (DecisionNoOpinion, Because "can only access node lease with the same name as the requesting node")
  else (DecisionAllow, Because "").

Definition authorizeCSINodeInfo (nodeName : string) (a : Attributes) : Decision * NodeReason :=
  if negb (is_verb a object_verbs) then (DecisionNoOpinion, Because "can only get, create, update, patch, or delete a CSINodeInfo")
  else if negb (bool_decide (GetSubresource a = "")) then (DecisionNoOpinion, Because "cannot authorize CSINodeInfo subresources")
  else if negb (is_verb a ["create"]) && negb (bool_decide (GetName a = nodeName)) then
    (DecisionNoOpinion, Because "can only access CSINodeInfo with the same name as the requesting node")
  else (DecisionAllow, Because "").

Definition is_resource (a : Attributes) (group resource : string) : bool :=
  bool_decide (GetAPIGroup a = group) && bool_decide (GetResource a = resource).

Definition disabled (gate : string) : Decision * NodeReason := (DecisionNoOpinion, Because ("disabled by feature gate " +:+ gate)).

Definition Authorize (g : Graph) (features : FeatureGate) (nodeRules : list PolicyRule) (a : Attributes) : Decision * NodeReason :=
  let '(nodeName, isNode) := NodeIdentity (GetUser a) in
  if negb isNode then (DecisionNoOpinion, Because "")
  else if bool_decide (nodeName = "") then (DecisionNoOpinion, UnknownNodeForUser (UserName (GetUser a)))
  else
    let static := if RulesAllow a nodeRules then (DecisionAllow, Because "") else (DecisionNoOpinion, Because "") in
    if negb (IsResourceRequest a) then static
    else if is_resource a "" "secrets" then authorizeReadNamespacedObject g nodeName secretVertexType a
    else if is_resource a "" "configmaps" then authorizeReadNamespacedObject g nodeName configMapVertexType a
    else if is_resource a "" "persistentvolumeclaims" then
      if ExpandPersistentVolumes features && bool_decide (GetSubresource a = "status") then
        authorizeStatusUpdate g nodeName pvcVertexType a
      else authorizeGet g nodeName pvcVertexType a
    else if is_resource a "" "persistentvolumes" then authorizeGet g nodeName pvVertexType a
    else if is_resource a "storage.k8s.io" "volumeattachments" then
      if CSIPersistentVolume features then authorizeGet g nodeName vaVertexType a else disabled "CSIPersistentVolume"
    else if is_resource a "" "serviceaccounts" then
      if TokenRequest features then authorizeCreateToken g nodeName serviceAccountVertexType a else disabled "TokenRequest"
    else if is_resource a "coordination.k8s.io" "leases" then
      if NodeLease features then authorizeLease nodeName a else disabled "NodeLease"
    else if is_resource a "csi.storage.k8s.io" "csinodeinfos" then
      if KubeletPluginsWatcher features && CSINodeInfo features then authorizeCSINodeInfo nodeName a
      else (DecisionNoOpinion, Because "disabled by feature gates KubeletPluginsWatcher and CSINodeInfo")
    else static.
End Authorizer.

(** ** Keeping the graph up to date *)

(** The handlers of the informers. A node refers to the config map it is configured by,
    namespace and name, both empty when there is none. *)
Section Populator.
Context (visit : Graph → gset nat → list nat) (spare : nat → bool).

Definition updatePod (g : Graph) (oldPod : option GPod) (pod : GPod) : Graph :=
  if bool_decide (gNodeName pod = "") then g
  else
    match oldPod with
    | Some old =>
        if bool_decide (gNodeName pod = gNodeName old) && bool_decide (gUID pod = gUID old) then g
        else AddPod visit spare g pod
    | None => AddPod visit spare g pod
    end.

Definition deletePod (g : Graph) (pod : GPod) : Graph :=
  if bool_decide (gNodeName pod = "") then g else DeletePod visit spare g (gName pod) (gNamespace pod).

Definition updatePV (g : Graph) (pv : PersistentVolume) : Graph := AddPV visit spare g pv.
Definition deletePV (g : Graph) (pv : PersistentVolume) : Graph := DeletePV visit spare g (PVName pv).

(** An attachment by its name and its node. *)
Definition updateVolumeAttachment (g : Graph) (oldNode : option string) (name nodeName : string) : Graph :=
  match oldNode with
  | Some old => if bool_decide (old = nodeName) then g else AddVolumeAttachment visit spare g name nodeName
  | None => AddVolumeAttachment visit spare g name nodeName
  end.

Definition deleteVolumeAttachment (g : Graph) (name : string) : Graph := DeleteVolumeAttachment visit spare g name.

Definition updateNode (g : Graph) (oldConfig : option (string * string)) (nodeName : string) (config : string * string) : Graph :=
  if bool_decide (config = default ("", "") oldConfig) then g
  else SetNodeConfigMap visit g nodeName config.2 config.1.

Definition deleteNode (g : Graph) (nodeName : string) : Graph := SetNodeConfigMap visit g nodeName "" "".
End Populator.
