(* ===== verification/NodeAuthorizerSpec.v ===== *)
(** * What the node authorizer promises

    A kubelet reads a secret, a config map, a claim, a volume, an attachment or gets a token
    exactly when the object is related to its node, up to the index of destinations, which
    the deletion of pods leaves behind. *)

From S2P Require Import Prelude GoStrings RbacRules NodeGraph NodeGraphSpec NodeGraphPaths NodeWalk NodeRelated NodeAuthorizer.

(** ** The index *)

(** An index that is kept has as many destinations as the threshold asks for. *)
Definition index_ok (thr : nat) (g : Graph) : Prop :=
  destinationEdgeThreshold g = thr ∧
  ∀ v ix, destinationEdgeIndex g !! v = Some ix → (thr ≤ size (members ix))%nat.

Lemma index_ok_same thr g g' :
  destinationEdgeThreshold g' = destinationEdgeThreshold g →
  (∀ v ix, destinationEdgeIndex g' !! v = Some ix → destinationEdgeIndex g !! v = Some ix) → index_ok thr g → index_ok thr g'.
Proof. intros Ht Hi [H1 H2]. split; [congruence|]. intros v ix E. by apply (H2 v), Hi. Qed.

Lemma index_ok_fold {A} thr (f : Graph → A → Graph) l g :
  (∀ g x, index_ok thr g → index_ok thr (f g x)) → index_ok thr g → index_ok thr (fold_left f l g).
Proof. intros Hf. revert g. induction l as [|x l IH]; intros g Hg; simpl; auto. Qed.

Lemma index_ok_recompute visit thr g n : index_ok thr g → index_ok thr (recomputeDestinationIndex_locked visit g n).
Proof.
  intros Hi. pose proof Hi as [Ht Hx]. unfold recomputeDestinationIndex_locked.
  assert (index_ok thr (set_index g (delete n (destinationEdgeIndex g)))) as Hdel.
  { eapply index_ok_same; [| |done]; [done|]. simpl. by intros v ix [_ ?]%lookup_delete_Some. }
  destruct (Degree g n <? _)%nat; [done|]. set (ix := sweep _).
  destruct (Nat.ltb_spec (size (members ix)) (destinationEdgeThreshold g)) as [?|Hge]; [done|].
  split; [done|]. simpl. intros v ix' [[<- <-]|[_ E]]%lookup_insert_Some; [lia|by apply (Hx v)].
Qed.

Lemma index_ok_remove thr g v : index_ok thr g → index_ok thr (removeVertex_locked g v).
Proof.
  apply index_ok_same; unfold removeVertex_locked, RemoveNode; case_bool_decide; simpl; try done;
    by intros w ix [_ ?]%lookup_delete_Some.
Qed.

Lemma index_ok_getOrCreate thr g k : index_ok thr g → index_ok thr (getOrCreateVertex_locked g k).1.
Proof. unfold getOrCreateVertex_locked. destruct (vertices g !! k); [done|]. by apply index_ok_same. Qed.

Lemma index_ok_edge thr g es : index_ok thr g → index_ok thr (set_edges g es).
Proof. by apply index_ok_same. Qed.

Section Order.
Context (visit : Graph → gset nat → list nat) (spare : nat → bool) (thr : nat).

Lemma index_ok_deleteVertex g k : index_ok thr g → index_ok thr (deleteVertex_locked visit spare g k).
Proof using Type.
  intros Hi. unfold deleteVertex_locked. destruct (vertices g !! k) as [v|]; [|done].
  destruct (visit_to _ _ _ _) as [rm rc]. apply index_ok_fold; [intros; by apply index_ok_recompute|].
  apply index_ok_fold; [intros; by apply index_ok_remove|]. by apply index_ok_remove.
Qed.

Lemma index_ok_deleteEdges g t k : index_ok thr g → index_ok thr (deleteEdges_locked visit g t k).
Proof using Type.
  clear spare. intros Hi. unfold deleteEdges_locked. destruct (vertices g !! k) as [v|]; [|done].
  destruct (delete_edges t v _ g [] []) as [[g' rm] rc] eqn:E.
  destruct (delete_edges_spec _ _ _ _ _ _ _ _ _ E) as (es & -> & _).
  apply index_ok_fold; [intros; by apply index_ok_recompute|].
  apply index_ok_fold; [intros; by apply index_ok_remove|]. by apply index_ok_edge.
Qed.

Lemma index_ok_link t ns pv nv g name : index_ok thr g → index_ok thr (link visit t ns pv nv g name).
Proof using Type.
  intros Hi. unfold link. pose proof (index_ok_getOrCreate thr g (t, ns, name) Hi) as Hg.
  destruct (getOrCreateVertex_locked g (t, ns, name)) as [g' v]. by apply index_ok_recompute, index_ok_edge.
Qed.

(** Two vertices and an edge between them. *)
Lemma index_ok_two g k1 k2 (f : nat → nat → option nat) :
  index_ok thr g →
  let '(g1, v1) := getOrCreateVertex_locked g k1 in
  let '(g2, v2) := getOrCreateVertex_locked g1 k2 in
  index_ok thr (SetEdge g2 v1 v2 (f v1 v2)).
Proof using Type.
  intros Hi. pose proof (index_ok_getOrCreate thr g k1 Hi) as H1. destruct (getOrCreateVertex_locked g k1) as [g1 v1].
  pose proof (index_ok_getOrCreate thr g1 k2 H1) as H2. destruct (getOrCreateVertex_locked g1 k2) as [g2 v2].
  by apply index_ok_edge.
Qed.

Lemma index_ok_AddPod g p : index_ok thr g → index_ok thr (AddPod visit spare g p).
Proof using Type.
  intros Hi. unfold AddPod. set (pk := (podVertexType, _, _)). set (nk := (nodeVertexType, "", _)).
  pose proof (index_ok_two _ pk nk (λ _ v, Some v) (index_ok_deleteVertex g pk Hi)) as H.
  destruct (getOrCreateVertex_locked _ pk) as [g1 v1]. destruct (getOrCreateVertex_locked g1 nk) as [g2 v2].
  destruct (gMirror p); [done|]. repeat (apply index_ok_fold; [intros; by apply index_ok_link|]).
  case_bool_decide; [done|by apply index_ok_link].
Qed.

Lemma index_ok_AddPV g pv : index_ok thr g → index_ok thr (AddPV visit spare g pv).
Proof using Type.
  intros Hi. unfold AddPV. set (pk := (pvVertexType, _, _)). pose proof (index_ok_deleteVertex g pk Hi) as Hd.
  destruct (ClaimRef pv) as [[ns c]|]; [|done]. set (ck := (pvcVertexType, _, _)).
  pose proof (index_ok_two _ pk ck (λ _ _, None) Hd) as H.
  destruct (getOrCreateVertex_locked _ pk) as [g1 v1]. destruct (getOrCreateVertex_locked g1 ck) as [g2 v2].
  apply index_ok_fold; [|done]. intros g' [[ns' s] b] Hg. unfold link_pv. destruct b; [|done].
  pose proof (index_ok_getOrCreate thr g' (secretVertexType, ns', s) Hg) as H'.
  destruct (getOrCreateVertex_locked g' _) as [g'' v]. by apply index_ok_edge.
Qed.

Lemma index_ok_AddVA g nm n : index_ok thr g → index_ok thr (AddVolumeAttachment visit spare g nm n).
Proof using Type.
  intros Hi. unfold AddVolumeAttachment. set (k1 := (vaVertexType, _, _)). pose proof (index_ok_deleteVertex g k1 Hi) as Hd.
  case_bool_decide; [done|]. set (k2 := (nodeVertexType, "", _)). pose proof (index_ok_two _ k1 k2 (λ _ v, Some v) Hd) as H'.
  destruct (getOrCreateVertex_locked _ k1) as [g1 v1]. by destruct (getOrCreateVertex_locked g1 k2) as [g2 v2].
Qed.

Lemma index_ok_SetNodeConfigMap g n nm ns : index_ok thr g → index_ok thr (SetNodeConfigMap visit g n nm ns).
Proof using Type.
  intros Hi. unfold SetNodeConfigMap. set (k2 := (nodeVertexType, "", _)).
  pose proof (index_ok_deleteEdges g configMapVertexType k2 Hi) as Hd. destruct (_ && _); [|done].
  set (k1 := (configMapVertexType, _, _)). pose proof (index_ok_two _ k1 k2 (λ _ v, Some v) Hd) as H'.
  destruct (getOrCreateVertex_locked _ k1) as [g1 v1]. by destruct (getOrCreateVertex_locked g1 k2) as [g2 v2].
Qed.
End Order.

(** ** Events *)

(** What the informers tell the populator: an update with the object before it, if there
    was one, and a deletion. *)
Inductive graph_event : Type :=
  | PodUpdated (old : option GPod) (pod : GPod)
  | PodDeleted (pod : GPod)
  | PVUpdated (pv : PersistentVolume)
  | PVDeleted (pv : PersistentVolume)
  | AttachmentUpdated (oldNode : option string) (name nodeName : string)
  | AttachmentDeleted (name : string)
  | NodeUpdated (oldConfig : option (string * string)) (nodeName : string) (config : string * string)
  | NodeDeleted (nodeName : string).

Definition pod_name (p : GPod) : string * string := (gNamespace p, gName p).

(** A reference to a config map with both its parts. *)
Definition config_ref (c : string * string) : option (string * string) :=
  if bool_decide (c.2 = "") || bool_decide (c.1 = "") then None else Some c.

Definition no_objects : objects := mkObjects ∅ ∅ ∅ ∅.

(** The objects after an event. A pod counts as it was last told with a node, until its
    deletion is told with one: events about a pod that has no node do not count, also when it
    has taken the name of a pod that had one. *)
Definition step_objects (o : objects) (e : graph_event) : objects :=
  match e with
  | PodUpdated _ p => if bool_decide (gNodeName p = "") then o else add_pod o p
  | PodDeleted p => if bool_decide (gNodeName p = "") then o else del_pod o (pod_name p)
  | PVUpdated pv => add_pv o pv
  | PVDeleted pv => del_pv o (PVName pv)
  | AttachmentUpdated _ nm n => if bool_decide (n = "") then del_va o nm else add_va o nm n
  | AttachmentDeleted nm => del_va o nm
  | NodeUpdated _ n c => match config_ref c with Some c => set_config o n c | None => del_config o n end
  | NodeDeleted n => del_config o n
  end.

(** The references of a pod do not change once it has a node. *)
Definition same_pod (p q : GPod) : bool :=
  negb (bool_decide (gNodeName p = gNodeName q) && bool_decide (gUID p = gUID q)) || bool_decide (pod_refs p = pod_refs q).

(** The object before an update is the one that was told last, and what the API server keeps
    immutable is. *)
Definition valid (o : objects) (e : graph_event) : bool :=
  match e with
  | PodUpdated (Some old) p =>
      bool_decide (gNodeName p = "") || bool_decide (gNodeName old = "") ||
      match oPods o !! pod_name p with
      | Some stored => same_pod stored p && bool_decide (gNodeName stored = gNodeName old) && bool_decide (gUID stored = gUID old)
      | None => false
      end
  | AttachmentUpdated (Some old) nm _ => bool_decide (oAttachments o !! nm = if bool_decide (old = "") then None else Some old)
  | NodeUpdated old n _ => bool_decide (oConfigs o !! n = config_ref (default ("", "") old))
  | _ => true
  end.

Fixpoint valid_from (o : objects) (es : list graph_event) : bool :=
  match es with
  | [] => true
  | e :: es => valid o e && valid_from (step_objects o e) es
  end.

Definition objects_after (es : list graph_event) : objects := fold_left step_objects es no_objects.

(** Pods that agree on their node and their references have the same edges. *)
Lemma aedge_add_agree o p q k1 k2 d :
  oPods o !! pod_name p = Some q → gNodeName q = gNodeName p → pod_refs q = pod_refs p →
  aedge (add_pod o p) k1 k2 d ↔ aedge o k1 k2 d.
Proof.
  intros Hq Hn Hr.
  assert (∀ o1 o2 : objects, oPVs o1 = oPVs o2 → oAttachments o1 = oAttachments o2 → oConfigs o1 = oConfigs o2 →
    (∀ nn p1, oPods o1 !! nn = Some p1 → ∃ p2, oPods o2 !! nn = Some p2 ∧ gNodeName p2 = gNodeName p1 ∧ pod_refs p2 = pod_refs p1) →
    aedge o1 k1 k2 d → aedge o2 k1 k2 d) as Hsub.
  { intros o1 o2 H1 H2 H3 H4 H. edge_cases H; rewrite ?H1, ?H2, ?H3 in *; try by econstructor.
    - destruct (H4 _ _ Hp) as (p2 & ? & <- & ?). by constructor.
    - destruct (H4 _ _ Hp) as (p2 & ? & <- & E). econstructor; [done|by rewrite E]. }
  split; apply Hsub; try done; simpl; intros nn p1 E.
  - apply lookup_insert_Some in E as [[<- <-]|[_ E]]; [by exists q|by exists p1].
  - destruct (decide (nn = pod_name p)) as [->|Hne].
    + exists p. rewrite lookup_insert_eq. rewrite Hq in E. by simplify_eq.
    + exists p1. by rewrite lookup_insert_ne.
Qed.

Section History.
Context (visit : Graph → gset nat → list nat) (spare : nat → bool).
Context (visit_perm : ∀ g s, visit g s ≡ₚ elements s).

Definition step_graph (g : Graph) (e : graph_event) : Graph :=
  match e with
  | PodUpdated old p => updatePod visit spare g old p
  | PodDeleted p => deletePod visit spare g p
  | PVUpdated pv => updatePV visit spare g pv
  | PVDeleted pv => deletePV visit spare g pv
  | AttachmentUpdated old nm n => updateVolumeAttachment visit spare g old nm n
  | AttachmentDeleted nm => deleteVolumeAttachment visit spare g nm
  | NodeUpdated old n c => updateNode visit g old n c
  | NodeDeleted n => deleteNode visit g n
  end.

Definition graph_after (es : list graph_event) : Graph := fold_left step_graph es NewGraph.

Lemma graph_ok_same g o o' : (∀ k1 k2 d, aedge o' k1 k2 d ↔ aedge o k1 k2 d) → graph_ok g o → graph_ok g o'.
Proof using Type. intros He (A & Hr & Hl & HA). exists A. split_and!; [done|done|]. intros k1 k2 d. by rewrite He. Qed.

Lemma step_pod g o old p :
  valid o (PodUpdated old p) = true → graph_ok g o →
  graph_ok (updatePod visit spare g old p) (step_objects o (PodUpdated old p)).
Proof using visit_perm.
  cbn [valid step_objects]. unfold updatePod. intros Hv Hg. case_bool_decide as Hn; [done|].
  destruct old as [q|]; [|by apply AddPod_ok]. destruct (bool_decide _ && bool_decide _) eqn:E; [|by apply AddPod_ok].
  rewrite andb_true_iff, !bool_decide_eq_true in E. destruct E as [En Eu].
  rewrite (bool_decide_false (gNodeName q = "")) in Hv by congruence. simpl in Hv.
  destruct (oPods o !! pod_name p) as [st|] eqn:Es; [|done].
  rewrite !andb_true_iff in Hv. destruct Hv as [[Hs H1%bool_decide_eq_true] H2%bool_decide_eq_true].
  apply (graph_ok_same g o); [|done]. intros k1 k2 d. apply (aedge_add_agree o p st); [done|congruence|].
  unfold same_pod in Hs. rewrite !bool_decide_true in Hs by congruence. by apply bool_decide_eq_true in Hs.
Qed.

Lemma step_attachment g o old nm n :
  valid o (AttachmentUpdated old nm n) = true → graph_ok g o →
  graph_ok (updateVolumeAttachment visit spare g old nm n) (step_objects o (AttachmentUpdated old nm n)).
Proof using visit_perm.
  intros Hv Hg. unfold updateVolumeAttachment. destruct old as [m|]; [|by apply AddVA_ok].
  case_bool_decide as E; [|by apply AddVA_ok]. subst m. apply (graph_ok_same g o); [|done].
  cbn [valid step_objects] in *. apply bool_decide_eq_true in Hv. destruct o as [ps vs os cs]. unfold del_va, add_va. simpl in *.
  destruct (bool_decide (n = "")); [by rewrite delete_id|by rewrite insert_id].
Qed.

Lemma step_config g o n c :
  graph_ok g o → graph_ok (SetNodeConfigMap visit g n c.2 c.1) (match config_ref c with Some c => set_config o n c | None => del_config o n end).
Proof using visit_perm.
  clear spare. intros Hg. pose proof (SetNodeConfigMap_ok visit visit_perm g o n c.2 c.1 Hg) as H. unfold config_ref. destruct c as [ns c]. simpl in *.
  by destruct (_ || _).
Qed.

Lemma step_node g o old n c :
  valid o (NodeUpdated old n c) = true → graph_ok g o →
  graph_ok (updateNode visit g old n c) (step_objects o (NodeUpdated old n c)).
Proof using visit_perm.
  clear spare. cbn [valid step_objects]. intros Hv%bool_decide_eq_true Hg. unfold updateNode. case_bool_decide as E; [|by apply step_config].
  rewrite <- E in Hv. apply (graph_ok_same g o); [|done]. destruct o as [ps vs os cs]. unfold del_config, set_config. simpl in *.
  destruct (config_ref c) as [c'|]; [by rewrite insert_id|by rewrite delete_id].
Qed.

Lemma step_ok g o e : valid o e = true → graph_ok g o → graph_ok (step_graph g e) (step_objects o e).
Proof using visit_perm.
  intros Hv Hg. destruct e as [old p|p|pv|pv|old nm n|nm|old n c|n]; simpl.
  - by apply step_pod.
  - unfold deletePod. case_bool_decide as E; [done|]. by apply (DeletePod_ok visit spare visit_perm g o (pod_name p)).
  - by apply AddPV_ok.
  - by apply DeletePV_ok.
  - by apply step_attachment.
  - by apply DeleteVA_ok.
  - by apply step_node.
  - by apply (step_config g o n ("", "")).
Qed.

Lemma step_index thr g e : index_ok thr g → index_ok thr (step_graph g e).
Proof using Type.
  intros Hi. destruct e as [old p|p|pv|pv|old nm n|nm|old n c|n]; simpl.
  - unfold updatePod. repeat case_match; try done; by apply index_ok_AddPod.
  - unfold deletePod. case_match; [done|by apply index_ok_deleteVertex].
  - by apply index_ok_AddPV.
  - by apply index_ok_deleteVertex.
  - unfold updateVolumeAttachment. repeat case_match; try done; by apply index_ok_AddVA.
  - by apply index_ok_deleteVertex.
  - unfold updateNode. case_match; [done|by apply index_ok_SetNodeConfigMap].
  - by apply index_ok_SetNodeConfigMap.
Qed.

Lemma graph_after_ok es : valid_from no_objects es = true → graph_ok (graph_after es) (objects_after es).
Proof using visit_perm.
  unfold graph_after, objects_after. assert (graph_ok NewGraph no_objects) as H0.
  { exists ∅. split_and!; [apply repr_new|by split|]. intros k1 k2 d. rewrite lookup_empty. split; [done|]. intros H. by edge_cases H. }
  generalize NewGraph, no_objects, H0. clear H0. induction es as [|e es IH]; intros g o Hg Hv; simpl in *; [done|].
  apply andb_true_iff in Hv as [Hv Hvs]. apply IH; [|done]. by apply step_ok.
Qed.

Lemma graph_after_index es : index_ok 200 (graph_after es).
Proof using Type. apply index_ok_fold; [apply step_index|]. by split. Qed.
End History.

(** ** Requests *)

(** The index of an object counts the node as a destination. *)
Definition indexed (g : Graph) (n : string) (k : vkey) : Prop :=
  ∃ v nv, vertices g !! k = Some v ∧ vertices g !! node_key n = Some nv ∧ int_has (destinationEdgeIndex g !! v) nv = true.

(** The kind of object that the graph decides on. *)
Definition graph_resource (a : Attributes) : option vertexType :=
  if is_resource a "" "secrets" then Some secretVertexType
  else if is_resource a "" "configmaps" then Some configMapVertexType
  else if is_resource a "" "persistentvolumeclaims" then Some pvcVertexType
  else if is_resource a "" "persistentvolumes" then Some pvVertexType
  else if is_resource a "storage.k8s.io" "volumeattachments" then Some vaVertexType
  else if is_resource a "" "serviceaccounts" then Some serviceAccountVertexType
  else None.

(** The requests that a node may make for an object that is related to it. *)
Definition request_ok (f : FeatureGate) (t : vertexType) (a : Attributes) : bool :=
  negb (bool_decide (GetName a = "")) &&
  match t with
  | secretVertexType | configMapVertexType =>
      is_verb a ["get"; "list"; "watch"] && bool_decide (GetSubresource a = "") && negb (bool_decide (GetNamespace a = ""))
  | pvcVertexType =>
      if ExpandPersistentVolumes f && bool_decide (GetSubresource a = "status") then is_verb a ["update"; "patch"]
      else is_verb a ["get"] && bool_decide (GetSubresource a = "")
  | pvVertexType => is_verb a ["get"] && bool_decide (GetSubresource a = "")
  | vaVertexType => CSIPersistentVolume f && is_verb a ["get"] && bool_decide (GetSubresource a = "")
  | serviceAccountVertexType => TokenRequest f && is_verb a ["create"] && bool_decide (GetSubresource a = "token")
  | _ => false
  end.

Definition path_ok (r : result PathError bool) : bool := match r with Ok true => true | _ => false end.

(** Every request is either refused for its form or decided by the path alone. *)
Lemma Authorize_path visit g f rules a t n :
  NodeIdentity (GetUser a) = (n, true) → n ≠ "" → IsResourceRequest a = true → graph_resource a = Some t →
  (Authorize visit g f rules a).1 =
    if request_ok f t a && path_ok (hasPathFrom visit g n (t, GetNamespace a, GetName a)) then DecisionAllow else DecisionNoOpinion.
Proof.
  intros Hi Hn Hreq Hr. unfold Authorize. rewrite Hi, Hreq. rewrite bool_decide_false by done. cbn [negb].
  unfold graph_resource in Hr. 
  repeat match type of Hr with
  | (if ?b then _ else _) = _ => destruct b eqn:?; [injection Hr as <-|]
  end; try done;
  unfold request_ok, authorizeReadNamespacedObject, authorizeGet, authorizeStatusUpdate, authorizeCreateToken, authorize, disabled, path_ok;
  destruct (hasPathFrom visit g n _) as [[|]|].
  all: repeat match goal with
    | |- context [is_verb ?b ?l] => destruct (is_verb b l)
    | |- context [ExpandPersistentVolumes ?b] => destruct (ExpandPersistentVolumes b)
    | |- context [CSIPersistentVolume ?b] => destruct (CSIPersistentVolume b)
    | |- context [TokenRequest ?b] => destruct (TokenRequest b)
    end; simpl; try done.
  all: repeat (case_bool_decide; simpl; try done); congruence.
Qed.

Lemma leads_known g A k nk : repr g A → leads A k nk → is_Some (vertices g !! k) ∧ is_Some (vertices g !! nk).
Proof.
  intros Hr (k1 & k2 & Hp & E). destruct (r_dom g A Hr _ _ _ E) as (H1 & _ & H3). split; [|by apply H3].
  apply rtc_inv in Hp as [<-|(k' & Hp & _)]; [done|]. by destruct (r_dom g A Hr _ _ _ Hp) as (? & _).
Qed.

Lemma hasPathFrom_spec visit g o n k :
  (∀ g s, visit g s ≡ₚ elements s) → graph_ok g o → type_of k ≠ nodeVertexType →
  path_ok (hasPathFrom visit g n k) = true ↔ related o n k ∨ indexed g n k.
Proof.
  intros Hvis (A & Hr & Hl & HA) Ht. rewrite <- (leads_related o A HA n k Ht). unfold hasPathFrom, indexed.
  fold (node_key n). destruct (vertices g !! node_key n) as [nv|] eqn:En; simpl.
  2:{ split; [done|]. intros [[_ [? ?]]%(leads_known g A k _ Hr)|(? & ? & _ & ? & _)]; congruence. }
  destruct (vertices g !! k) as [v|] eqn:Ek; simpl.
  2:{ split; [done|]. intros [[[? ?] _]%(leads_known g A k _ Hr)|(? & ? & ? & _)]; congruence. }
  destruct (int_has _ nv) eqn:Ei; [split; [|done]; intros _; right; by exists v, nv|].
  destruct (Walk_spec visit Hvis g v nv (repr_closed g A Hr)) as (b & -> & Hb); [exists k; by apply (r_bij g A Hr)|].
  rewrite (reaches_leads g A k (node_key n) v nv Hr Hl Ek En Ht eq_refl) in Hb. rewrite <- Hb. destruct b; simpl.
  - split; [by left|done].
  - split; [done|]. intros [?|(? & ? & ? & ? & ?)]; [done|]. simplify_eq. congruence.
Qed.

(** C25: A kubelet gets exactly what is related to its node. After any events that the
    informers can tell (the object before an update is the one told last, and the references
    of a pod do not change while it keeps its node and identity), in whatever order the maps of the graph are visited, the decision
    on a secret, a config map, a claim, a volume, an attachment or a token of a service
    account is to allow exactly when the request has the form that its kind asks for and
    the object is one that the node needs: a pod on the node, as it was last told with a node,
    refers to it (itself, or
    through a claim to the volume and the secrets of the volume), the volume is attached
    to the node, or the node takes its configuration from it. Otherwise it has no
    opinion. A pod that is replaced under its name by one without a node counts until the
    deletion of a pod with a node is told, see [unbound_update_keeps_access]. Only an object whose index of destinations has the node is allowed beside
    these, and an index has two hundred destinations or more. *)
Theorem node_authorizer_exact visit spare es f rules a t n :
  (∀ g s, visit g s ≡ₚ elements s) → valid_from no_objects es = true →
  NodeIdentity (GetUser a) = (n, true) → n ≠ "" → IsResourceRequest a = true → graph_resource a = Some t →
  let g := graph_after visit spare es in
  let k := (t, GetNamespace a, GetName a) in
  let d := (Authorize visit g f rules a).1 in
  (d = DecisionAllow ↔ request_ok f t a = true ∧ (related (objects_after es) n k ∨ indexed g n k)) ∧
  (d = DecisionAllow ∨ d = DecisionNoOpinion) ∧
  ∀ v ix, destinationEdgeIndex g !! v = Some ix → (200 ≤ size (members ix))%nat.
Proof.
  intros Hvis Hv Hi Hn Hreq Hr g k d. assert (type_of k ≠ nodeVertexType) as Ht.
  { unfold graph_resource in Hr. unfold k, type_of. simpl. repeat (case_match; [congruence|]). done. }
  pose proof (hasPathFrom_spec visit g (objects_after es) n k Hvis (graph_after_ok visit spare Hvis es Hv) Ht) as Hp.
  assert (d = if request_ok f t a && path_ok (hasPathFrom visit g n k) then DecisionAllow else DecisionNoOpinion) as Hd
    by by apply Authorize_path.
  rewrite <- Hp. rewrite Hd. split_and!; [|by destruct (_ && _); auto|apply graph_after_index].
  rewrite <- andb_true_iff. by destruct (_ && _).
Qed.

(** A pod of a namespace with its node and its secrets. *)
Definition simple_pod (name node : string) (secrets : list string) : GPod :=
  mkGPod "ns" name ("uid-" +:+ name) node false "" secrets [] [] [].

Definition read_secret (node name : string) : Attributes :=
  mkAttributes (mkUser (nodeUserNamePrefix +:+ node) [NodesGroup]) "get" "ns" "" "secrets" "" name true "".

Definition all_features : FeatureGate := mkFeatures true true true true true true.
Definition in_order (_ : Graph) (s : gset nat) : list nat := elements s.

Lemma node_authorizer_exact_witness :
  let es := [PodUpdated None (simple_pod "p" "n1" ["s1"]); PodUpdated None (simple_pod "q" "n2" ["s2"])] in
  (Authorize in_order (graph_after in_order (λ _, false) es) all_features [] (read_secret "n1" "s1")).1 = DecisionAllow ∧
  related (objects_after es) "n1" (secretVertexType, "ns", "s1").
Proof.
  intros es.
  destruct (node_authorizer_exact in_order (λ _, false) es all_features [] (read_secret "n1" "s1") secretVertexType "n1") as (H & _ & _);
    [intros; reflexivity|vm_compute; reflexivity|reflexivity|done|reflexivity|reflexivity|].
  assert (related (objects_after es) "n1" (secretVertexType, "ns", "s1")) as Hrel.
  { left. exists "p", (simple_pod "p" "n1" ["s1"]). split_and!; [vm_compute; reflexivity|reflexivity|]. simpl. by left. }
  split; [|done]. apply H. split; [reflexivity|]. by left.
Defined.

(** ** The index is left behind *)

Definition two_letters (i : nat) : string :=
  String (Ascii.ascii_of_nat (97 + i / 16)) (String (Ascii.ascii_of_nat (97 + i mod 16)) "").

(** Two hundred pods on as many nodes with two secrets; one of them goes, and a pod without
    secrets comes to another node, which takes the number of the node that went. *)
Definition recycled : list graph_event :=
  ((λ i, PodUpdated None (simple_pod (two_letters i) (two_letters i) ["s1"; "s2"])) <$> seq 0 200) ++
  [PodDeleted (simple_pod (two_letters 0) (two_letters 0) ["s1"; "s2"]); PodUpdated None (simple_pod "new" "other" [])].

(** A node may read a secret that no pod of it ever referred to: of the objects that the
    deleted pod referred to, only the index of one is computed again. *)
Theorem stale_index_allows :
  valid_from no_objects recycled = true ∧
  (Authorize in_order (graph_after in_order (λ _, false) recycled) all_features [] (read_secret "other" "s1")).1 = DecisionAllow ∧
  ¬ related (objects_after recycled) "other" (secretVertexType, "ns", "s1").
Proof.
  split_and!; [vm_compute; reflexivity|vm_compute; reflexivity|].
  assert (map_Forall (λ _ p, gNodeName p = "other" → pod_refs p = []) (oPods (objects_after recycled))) as Hp.
  { refine (bool_decide_unpack _ _). vm_compute. exact I. }
  assert (oPVs (objects_after recycled) = ∅) as Hv by (vm_compute; reflexivity).
  intros [(nm & p & E & Hn & Hin)|(nm & pv & E & _)]; [|by rewrite Hv in E].
  rewrite (Hp _ _ E Hn) in Hin. by apply not_elem_of_nil in Hin.
Qed.

(** ** Corners *)

(** A pod that replaces another under its name and has no node yet leaves the edges of the
    other in place. *)
Theorem unbound_update_ignored visit spare g old p : gNodeName p = "" → updatePod visit spare g old p = g.
Proof. intros E. unfold updatePod. by rewrite bool_decide_true. Qed.

(** So the node of the first pod keeps the access that the pod gave it, even after the second
    one is deleted. *)
Theorem unbound_update_keeps_access :
  let p := simple_pod "p" "n1" ["s1"] in
  let q := mkGPod "ns" "p" "uid-2" "" false "" ["s2"] [] [] [] in
  let es := [PodUpdated None p; PodUpdated (Some p) q; PodDeleted q] in
  valid_from no_objects es = true ∧
  (Authorize in_order (graph_after in_order (λ _, false) es) all_features [] (read_secret "n1" "s1")).1 = DecisionAllow.
Proof. vm_compute. done. Qed.

(** The status of a claim may not be read, whatever the objects are. *)
Theorem status_get_refused visit g f rules a n :
  NodeIdentity (GetUser a) = (n, true) → n ≠ "" → IsResourceRequest a = true → graph_resource a = Some pvcVertexType →
  GetVerb a = "get" → GetSubresource a = "status" → (Authorize visit g f rules a).1 = DecisionNoOpinion.
Proof.
  intros Hi Hn Hreq Hr Hv Hs. rewrite (Authorize_path visit g f rules a pvcVertexType n) by done.
  unfold request_ok, is_verb. rewrite Hv, Hs. simpl. destruct (ExpandPersistentVolumes f), (negb _); done.
Qed.
