(* ===== verification/Fifo.v ===== *)
(** * The queue without deltas

    [staging/src/k8s.io/client-go/tools/cache/fifo.go]: objects by key with a queue of
    keys, behind one lock. The order in which the keys of a map are enumerated is a
    parameter. *)

From S2P Require Import Prelude.

Section fifo.
Context {V : Type} (keyFunc : V → result string string) (keys_of : gmap string V → list string).

Record FIFO : Type := mkFIFO {
  items : gmap string V;
  queue : list string;
  populated : bool;
  initialPopulationCount : Z;
  closed : bool;
}.

Inductive FIFOError : Type := KeyError (obj : V) (err : string).

Definition NewFIFO : FIFO := mkFIFO ∅ [] false 0 false.

Definition Close (f : FIFO) : FIFO := mkFIFO (items f) (queue f) (populated f) (initialPopulationCount f) true.

Definition IsClosed (f : FIFO) : bool := closed f.

Definition HasSynced (f : FIFO) : bool := populated f && (initialPopulationCount f =? 0).

Definition set_items (f : FIFO) (items : gmap string V) (queue : list string) : FIFO :=
  mkFIFO items queue true (initialPopulationCount f) (closed f).

Definition Add (f : FIFO) (obj : V) : option FIFOError * FIFO :=
  match keyFunc obj with
  | Err e => (Some (KeyError obj e), f)
  | Ok id =>
      let queue := match items f !! id with None => queue f ++ [id] | Some _ => queue f end in
      (None, set_items f (<[id := obj]> (items f)) queue)
  end.

Definition addIfNotPresent (f : FIFO) (id : string) (obj : V) : FIFO :=
  match items f !! id with
  | Some _ => set_items f (items f) (queue f)
  | None => set_items f (<[id := obj]> (items f)) (queue f ++ [id])
  end.

Definition AddIfNotPresent (f : FIFO) (obj : V) : option FIFOError * FIFO :=
  match keyFunc obj with
  | Err e => (Some (KeyError obj e), f)
  | Ok id => (None, addIfNotPresent f id obj)
  end.

Definition Update (f : FIFO) (obj : V) : option FIFOError * FIFO := Add f obj.

(** The key stays in the queue. *)
Definition Delete (f : FIFO) (obj : V) : option FIFOError * FIFO :=
  match keyFunc obj with
  | Err e => (Some (KeyError obj e), f)
  | Ok id => (None, set_items f (delete id (items f)) (queue f))
  end.

Definition List (f : FIFO) : list V := (map_to_list (items f)).*2.
Definition ListKeys (f : FIFO) : list string := (map_to_list (items f)).*1.
Definition GetByKey (f : FIFO) (key : string) : option V := items f !! key.
Definition Get (f : FIFO) (obj : V) : result FIFOError (option V) :=
  match keyFunc obj with
  | Err e => Err (KeyError obj e)
  | Ok key => Ok (GetByKey f key)
  end.

(** What the processing function returns: an error or none, or that the object is to be
    queued again, with an error or none. *)
Inductive processed : Type :=
  | Done (err : option string)
  | ErrRequeue (err : option string).

Inductive PopResult : Type :=
  | PopWaits (f : FIFO)
  | PopClosed (f : FIFO)
  | Popped (obj : V) (err : option string) (f : FIFO).

Definition dequeue (f : FIFO) (items : gmap string V) (queue : list string) : FIFO :=
  mkFIFO items queue (populated f)
    (if 0 <? initialPopulationCount f then initialPopulationCount f - 1 else initialPopulationCount f) (closed f).

(** The loop over the queue, which drops keys that have no object. It waits or returns when
    the queue is empty. *)
Fixpoint pop_loop (process : V → processed) (q : list string) (f : FIFO) : PopResult :=
  match q with
  | [] => if IsClosed f then PopClosed f else PopWaits f
  | id :: q =>
      let f := dequeue f (items f) q in
      match items f !! id with
      | None => pop_loop process q f
      | Some item =>
          let f := mkFIFO (delete id (items f)) (queue f) (populated f) (initialPopulationCount f) (closed f) in
          match process item with
          | ErrRequeue err => Popped item err (addIfNotPresent f id item)
          | Done err => Popped item err f
          end
      end
  end.

Definition Pop (process : V → processed) (f : FIFO) : PopResult := pop_loop process (queue f) f.

Fixpoint key_items (l : list V) (m : gmap string V) : result FIFOError (gmap string V) :=
  match l with
  | [] => Ok m
  | item :: l =>
      match keyFunc item with
      | Err e => Err (KeyError item e)
      | Ok key => key_items l (<[key := item]> m)
      end
  end.

Definition Replace (f : FIFO) (l : list V) : option FIFOError * FIFO :=
  match key_items l ∅ with
  | Err e => (Some e, f)
  | Ok items =>
      let count := if populated f then initialPopulationCount f else Z.of_nat (size items) in
      (None, mkFIFO items (keys_of items) true count (closed f))
  end.

Definition Resync (f : FIFO) : FIFO :=
  mkFIFO (items f) (queue f ++ filter (λ id, id ∉ queue f) (keys_of (items f))) (populated f)
    (initialPopulationCount f) (closed f).
End fifo.
Arguments FIFO : clear implicits.
Arguments FIFOError : clear implicits.
Arguments PopResult : clear implicits.

(** ** What waits in the queue *)

(** The objects in the order in which they are popped: each at the first place of its key. *)
Fixpoint waiting {V} (m : gmap string V) (q : list string) : list (string * V) :=
  match q with
  | [] => []
  | k :: q =>
      match m !! k with
      | Some v => (k, v) :: waiting (delete k m) q
      | None => waiting m q
      end
  end.

Definition pending {V} (f : FIFO V) : list (string * V) := waiting (items f) (queue f).

(** Every object is queued. *)
Definition queued {V} (f : FIFO V) : Prop := ∀ k, is_Some (items f !! k) → k ∈ queue f.

Section waiting.
Context {V : Type}.
Implicit Types (m : gmap string V) (q : list string).

Lemma waiting_elem m q k v : (k, v) ∈ waiting m q ↔ m !! k = Some v ∧ k ∈ q.
Proof.
  revert m. induction q as [|x q IH]; intros m; simpl; [split; [by intros ?%not_elem_of_nil|by intros [_ ?%not_elem_of_nil]]|].
  rewrite elem_of_cons. destruct (m !! x) as [w|] eqn:Ex.
  - rewrite elem_of_cons, IH, lookup_delete_Some. destruct (decide (k = x)) as [->|Hne]; [|naive_solver].
    rewrite Ex. naive_solver.
  - rewrite IH. destruct (decide (k = x)) as [->|Hne]; [|naive_solver]. rewrite Ex. naive_solver.
Qed.

Lemma waiting_NoDup m q : NoDup (waiting m q).*1.
Proof.
  revert m. induction q as [|x q IH]; intros m; simpl; [constructor|]. destruct (m !! x) as [w|]; [|done]. cbn. constructor; [|done].
  intros ([k v] & -> & Hin)%list_elem_of_fmap. apply waiting_elem in Hin as [Hin _]. simpl in Hin. by rewrite lookup_delete_eq in Hin.
Qed.

Lemma waiting_all m q : (∀ k, is_Some (m !! k) → k ∈ q) → waiting m q ≡ₚ map_to_list m.
Proof.
  intros Hq. apply NoDup_Permutation; [eapply NoDup_fmap_1, waiting_NoDup|apply NoDup_map_to_list|].
  intros [k v]. rewrite waiting_elem, elem_of_map_to_list. naive_solver.
Qed.

Lemma waiting_insert m q k v :
  is_Some (m !! k) → waiting (<[k := v]> m) q = (λ kv, if decide (kv.1 = k) then (k, v) else kv) <$> waiting m q.
Proof.
  revert m. induction q as [|x q IH]; intros m Hk; simpl; [done|]. destruct (decide (x = k)) as [->|Hne].
  - destruct Hk as [w Hw]. rewrite lookup_insert_eq, Hw. cbn. rewrite decide_True by done. f_equal. rewrite delete_insert_eq.
    rewrite <- (list_fmap_id (waiting _ q)) at 1. apply list_fmap_ext. intros i [k' v'] Hin%list_elem_of_lookup_2.
    apply waiting_elem in Hin as [Hin _]. simpl. rewrite decide_False; [done|]. intros ->. by rewrite lookup_delete_eq in Hin.
  - rewrite lookup_insert_ne by done. destruct (m !! x) as [w|] eqn:Ex; [|by apply IH]. cbn. rewrite decide_False by done. f_equal.
    rewrite delete_insert_ne by done. apply IH. by rewrite lookup_delete_ne.
Qed.

Lemma waiting_skip m q q' : (∀ k, k ∈ q' → m !! k = None) → waiting m (q ++ q') = waiting m q.
Proof.
  revert m. induction q as [|x q IH]; intros m Hq; simpl.
  - induction q' as [|x q' IH]; simpl; [done|]. rewrite (Hq x) by (by left). apply IH. intros k Hk. apply Hq. by right.
  - assert (∀ k, k ∈ q' → delete x m !! k = None) as Hq' by (intros k Hk; apply lookup_delete_None; auto).
    destruct (m !! x); [by rewrite (IH (delete x m))|by apply IH].
Qed.

(** A key that is not queued goes to the end. *)
Lemma waiting_append m q k v : m !! k = None → k ∉ q → waiting (<[k := v]> m) (q ++ [k]) = waiting m q ++ [(k, v)].
Proof.
  revert m. induction q as [|x q IH]; intros m Hm Hk; simpl; [by rewrite lookup_insert_eq|].
  apply not_elem_of_cons in Hk as [Hne Hk]. rewrite lookup_insert_ne by done. destruct (m !! x) as [w|]; [|by apply IH].
  simpl. f_equal. rewrite delete_insert_ne by done. apply IH; [|done]. by rewrite lookup_delete_ne.
Qed.

(** A second place of a key is of no use. *)
Lemma waiting_again m q k : k ∈ q → waiting m (q ++ [k]) = waiting m q.
Proof.
  revert m. induction q as [|x q IH]; intros m Hk; [by apply not_elem_of_nil in Hk|]. cbn [waiting app]. apply elem_of_cons in Hk as [->|Hk].
  - destruct (m !! x) as [w|] eqn:Ex; [f_equal|]; apply waiting_skip; intros k ->%list_elem_of_singleton; [by rewrite lookup_delete_eq|done].
  - destruct (m !! x); [by rewrite IH|by apply IH].
Qed.

(** A key that is queued without an object takes its place, before objects that came later. *)
Lemma waiting_place m q k v :
  m !! k = None → k ∈ q → ∃ l1 l2, waiting m q = l1 ++ l2 ∧ waiting (<[k := v]> m) q = l1 ++ (k, v) :: l2.
Proof.
  revert m. induction q as [|x q IH]; intros m Hm Hk; simpl; [by apply not_elem_of_nil in Hk|].
  destruct (decide (x = k)) as [->|Hne].
  - rewrite Hm, lookup_insert_eq, delete_insert_eq, delete_id by done. by exists [], (waiting m q).
  - apply elem_of_cons in Hk as [->|Hk]; [done|]. rewrite lookup_insert_ne by done. destruct (m !! x) as [w|] eqn:Ex; [|by apply IH].
    rewrite delete_insert_ne by done. destruct (IH (delete x m)) as (l1 & l2 & E & H); [by rewrite lookup_delete_ne|done|].
    exists ((x, w) :: l1), l2. by rewrite E, H.
Qed.

Lemma waiting_delete m q k : waiting (delete k m) q = filter (λ kv, kv.1 ≠ k) (waiting m q).
Proof.
  revert m. induction q as [|x q IH]; intros m; cbn [waiting]; [done|]. destruct (decide (x = k)) as [->|Hne].
  - rewrite lookup_delete_eq. destruct (m !! k) as [w|]; [|by apply IH]. rewrite filter_cons_False by (simpl; tauto).
    by rewrite <- (IH (delete k m)), delete_delete_eq.
  - rewrite lookup_delete_ne by done. destruct (m !! x) as [w|]; [|by apply IH]. rewrite filter_cons_True by done. f_equal.
    by rewrite <- IH, delete_delete.
Qed.
End waiting.

(** ** The abstract queue *)

Section spec.
Context {V : Type} (keyFunc : V → result string string) (keys_of : gmap string V → list string).

Inductive call : Type :=
  | CallAdd (o : V)
  | CallUpdate (o : V)
  | CallAddIfNotPresent (o : V)
  | CallDelete (o : V)
  | CallReplace (l : list V)
  | CallResync
  | CallPop (process : V → processed)
  | CallClose.

Inductive output : Type :=
  | OutErr (err : option (FIFOError V))
  | OutPopped (o : V) (err : option string)
  | OutWaits
  | OutClosed
  | OutNone.

Definition do_call (f : FIFO V) (c : call) : output * FIFO V :=
  match c with
  | CallAdd o => let '(e, f) := Add keyFunc f o in (OutErr e, f)
  | CallUpdate o => let '(e, f) := Update keyFunc f o in (OutErr e, f)
  | CallAddIfNotPresent o => let '(e, f) := AddIfNotPresent keyFunc f o in (OutErr e, f)
  | CallDelete o => let '(e, f) := Delete keyFunc f o in (OutErr e, f)
  | CallReplace l => let '(e, f) := Replace keyFunc keys_of f l in (OutErr e, f)
  | CallResync => (OutNone, Resync keys_of f)
  | CallPop process =>
      match Pop process f with
      | PopWaits f => (OutWaits, f)
      | PopClosed f => (OutClosed, f)
      | Popped o err f => (OutPopped o err, f)
      end
  | CallClose => (OutNone, Close f)
  end.

(** What waits, the keys that were deleted since the objects were last replaced, and
    whether the queue is closed. *)
Record queue_spec : Type := mkSpec {
  sWaiting : list (string * V);
  sDeleted : gset string;
  sClosed : bool;
}.

(** A new object goes to the end, unless one of its key was deleted: then it may go before
    others. *)
Definition placed (D : gset string) (p : list (string * V)) (k : string) (v : V) (p' : list (string * V)) : Prop :=
  ∃ l1 l2, p = l1 ++ l2 ∧ p' = l1 ++ (k, v) :: l2 ∧ (k ∉ D → l2 = []).

Definition replaced (k : string) (v : V) (p : list (string * V)) : list (string * V) :=
  (λ kv, if decide (kv.1 = k) then (k, v) else kv) <$> p.

Definition objects_of (c : call) : list V :=
  match c with
  | CallAdd o | CallUpdate o | CallAddIfNotPresent o | CallDelete o => [o]
  | CallReplace l => l
  | _ => []
  end.

Inductive spec_step : queue_spec → call → output → queue_spec → Prop :=
  | s_error s c o e : o ∈ objects_of c → keyFunc o = Err e → spec_step s c (OutErr (Some (KeyError o e))) s
  | s_new p D b c o k p' :
      c = CallAdd o ∨ c = CallUpdate o ∨ c = CallAddIfNotPresent o → keyFunc o = Ok k → k ∉ p.*1 → placed D p k o p' →
      spec_step (mkSpec p D b) c (OutErr None) (mkSpec p' D b)
  | s_newer p D b c o k :
      c = CallAdd o ∨ c = CallUpdate o → keyFunc o = Ok k → k ∈ p.*1 →
      spec_step (mkSpec p D b) c (OutErr None) (mkSpec (replaced k o p) D b)
  | s_present p D b o k :
      keyFunc o = Ok k → k ∈ p.*1 → spec_step (mkSpec p D b) (CallAddIfNotPresent o) (OutErr None) (mkSpec p D b)
  | s_delete p D b o k :
      keyFunc o = Ok k →
      spec_step (mkSpec p D b) (CallDelete o) (OutErr None) (mkSpec (filter (λ kv, kv.1 ≠ k) p) ({[k]} ∪ D) b)
  | s_replace p D b l m p' :
      key_items keyFunc l ∅ = Ok m → p' ≡ₚ map_to_list m → spec_step (mkSpec p D b) (CallReplace l) (OutErr None) (mkSpec p' ∅ b)
  | s_resync s : spec_step s CallResync OutNone s
  | s_pop k v p D b process err :
      process v = Done err → spec_step (mkSpec ((k, v) :: p) D b) (CallPop process) (OutPopped v err) (mkSpec p D b)
  | s_requeue k v p D b process err p' :
      process v = ErrRequeue err → placed D p k v p' →
      spec_step (mkSpec ((k, v) :: p) D b) (CallPop process) (OutPopped v err) (mkSpec p' D b)
  | s_waits D process : spec_step (mkSpec [] D false) (CallPop process) OutWaits (mkSpec [] D false)
  | s_closed D process : spec_step (mkSpec [] D true) (CallPop process) OutClosed (mkSpec [] D true)
  | s_close p D b : spec_step (mkSpec p D b) CallClose OutNone (mkSpec p D true).

(** Keys that were not deleted are in the queue once, with their objects. *)
Definition fresh (m : gmap string V) (q : list string) (D : gset string) : Prop :=
  ∀ k q1 q2, k ∉ D → q = q1 ++ k :: q2 → is_Some (m !! k) ∧ k ∉ q1 ∧ k ∉ q2.

Record implements (f : FIFO V) (s : queue_spec) : Prop := mk_implements {
  im_waiting : sWaiting s = pending f;
  im_closed : sClosed s = closed f;
  im_queued : queued f;
  im_fresh : fresh (items f) (queue f) (sDeleted s);
  im_count : 0 ≤ initialPopulationCount f;
}.

Lemma pending_keys (f : FIFO V) k : queued f → k ∈ (pending f).*1 ↔ is_Some (items f !! k).
Proof using Type.
  intros Hq. unfold pending. rewrite list_elem_of_fmap. split.
  - intros ([k' v] & -> & [? _]%waiting_elem). eauto.
  - intros [v Hv]. exists (k, v). split; [done|]. apply waiting_elem. split; [done|]. apply Hq. eauto.
Qed.

Lemma fresh_not_queued m q D k : fresh m q D → m !! k = None → k ∉ D → k ∉ q.
Proof using Type.
  intros Hf Hm HD (q1 & q2 & ->)%list_elem_of_split. destruct (Hf k q1 q2 HD eq_refl) as [[? ?] _]. congruence.
Qed.

(** Places in a longer queue. *)
Lemma split_snoc (q q1 q2 : list string) k x :
  q ++ [x] = q1 ++ k :: q2 → (q2 = [] ∧ q1 = q ∧ k = x) ∨ ∃ q2', q2 = q2' ++ [x] ∧ q = q1 ++ k :: q2'.
Proof using Type.
  intros E. destruct q2 as [|y q2 _] using rev_ind; [apply app_inj_tail in E as [-> ->]; by left|]. right.
  assert (q1 ++ k :: q2 ++ [y] = (q1 ++ k :: q2) ++ [y]) as E' by by rewrite <- app_assoc.
  rewrite E' in E. apply app_inj_tail in E as [-> ->]. eauto.
Qed.

Lemma fresh_append m q D k v : fresh m q D → m !! k = None → fresh (<[k := v]> m) (q ++ [k]) D.
Proof using Type.
  intros Hf Hm k' q1 q2 HD [(-> & -> & ->)|(q2' & -> & ->)]%split_snoc.
  - rewrite lookup_insert_eq. split_and!; [done|by eapply fresh_not_queued|apply not_elem_of_nil].
  - destruct (Hf k' q1 q2' HD eq_refl) as ([w Hw] & H1 & H2). assert (k' ≠ k) by congruence.
    rewrite lookup_insert_ne by done. split_and!; [eauto|done|]. rewrite elem_of_app, list_elem_of_singleton. by intros [?|?].
Qed.

(** A new object in the queue, at the place of its key or at the end. *)
Lemma put_new f D k v cnt b :
  queued f → fresh (items f) (queue f) D → items f !! k = None →
  let f' := mkFIFO (<[k := v]> (items f)) (queue f ++ [k]) true cnt b in
  queued f' ∧ fresh (items f') (queue f') D ∧ placed D (pending f) k v (pending f').
Proof using Type.
  intros Hq Hf Hm f'. split_and!.
  - intros k' Hk'. simpl. apply elem_of_app. simpl in Hk'. destruct (decide (k' = k)) as [->|Hne]; [right; by left|left].
    rewrite lookup_insert_ne in Hk' by done. by apply Hq.
  - by apply fresh_append.
  - unfold placed, pending. simpl. destruct (decide (k ∈ queue f)) as [Hin|Hin].
    + rewrite waiting_again by done. destruct (waiting_place (items f) (queue f) k v Hm Hin) as (l1 & l2 & E1 & E2).
      exists l1, l2. split_and!; [done|done|]. intros HD. by destruct (fresh_not_queued _ _ _ _ Hf Hm HD).
    + exists (waiting (items f) (queue f)), []. rewrite app_nil_r, waiting_append by done. done.
Qed.

Lemma fresh_tail m q D k : fresh m (k :: q) D → fresh m q D ∧ (k ∉ D → k ∉ q).
Proof using Type.
  intros Hf. split.
  - intros k' q1 q2 HD ->. destruct (Hf k' (k :: q1) q2 HD eq_refl) as (? & H1 & ?). split_and!; [done| |done].
    intros ?. apply H1. by right.
  - intros HD. by destruct (Hf k [] q HD eq_refl) as (_ & _ & ?).
Qed.

Lemma fresh_delete m q D k : fresh m q D → k ∉ q → fresh (delete k m) q D.
Proof using Type.
  intros Hf Hk k' q1 q2 HD ->. destruct (Hf k' q1 q2 HD eq_refl) as (? & ? & ?). split_and!; [|done|done].
  rewrite lookup_delete_ne; [done|]. intros ->. apply Hk, elem_of_app. right. by left.
Qed.

Lemma fresh_delete_old m q D k : fresh m q D → fresh (delete k m) q ({[k]} ∪ D).
Proof using Type.
  intros Hf k' q1 q2 HD ->. apply not_elem_of_union in HD as [Hne%not_elem_of_singleton HD].
  destruct (Hf k' q1 q2 HD eq_refl) as (? & ? & ?). split_and!; [by rewrite lookup_delete_ne|done|done].
Qed.

(** The loop of [Pop] comes to the first object that waits, or to the end of the queue. *)
Lemma pop_loop_spec process q (f : FIFO V) D :
  queue f = q → queued f → fresh (items f) q D → 0 ≤ initialPopulationCount f →
  match do_call f (CallPop process) with
  | (out, f') => ∃ s', implements f' s' ∧ spec_step (mkSpec (pending f) D (closed f)) (CallPop process) out s'
  end.
Proof using Type.
  intros <-. unfold do_call, Pop, pending. remember (queue f) as q eqn:Eq. revert f Eq.
  induction q as [|id q IH]; intros f Eq Hq Hf Hc; cbn [pop_loop waiting].
  - unfold IsClosed. destruct (closed f) eqn:Ec; eexists (mkSpec [] D _); (split; [|constructor]); constructor; simpl;
      unfold pending; rewrite <- ?Eq; done.
  - set (f1 := dequeue f (items f) q). apply fresh_tail in Hf as [Hf Hid].
    assert (0 ≤ initialPopulationCount f1) as Hc1 by (unfold f1, dequeue; simpl; destruct (Z.ltb_spec 0 (initialPopulationCount f)); lia).
    change (items f1) with (items f). destruct (items f !! id) as [item|] eqn:Ei.
    + assert (∀ k, is_Some (delete id (items f) !! k) → k ∈ q) as Hq'.
      { intros k [w [Hne Hw]%lookup_delete_Some]. assert (k ∈ queue f) as Hk by (apply Hq; eauto). rewrite <- Eq in Hk. by apply elem_of_cons in Hk as [->|?]. }
      assert (fresh (delete id (items f)) q D) as Hf'.
      { intros k q1 q2 HD E. destruct (Hf k q1 q2 HD E) as (? & ? & ?). split_and!; [|done|done].
        rewrite lookup_delete_ne; [done|]. intros ->. apply (Hid HD). rewrite E. apply elem_of_app. right. by left. }
      destruct (process item) as [err|err] eqn:Ep; simpl.
      * eexists (mkSpec (waiting (delete id (items f)) q) D (closed f)). split; [|by constructor]. by constructor.
      * set (f2 := mkFIFO _ _ _ _ _). assert (items f2 !! id = None) as Hn by apply lookup_delete_eq.
        unfold addIfNotPresent. rewrite Hn.
        destruct (put_new f2 D id item (initialPopulationCount f2) (closed f2)) as (H1 & H2 & H3); [done|done|done|].
        eexists (mkSpec (pending _) D (closed f)). split; [|eapply s_requeue; [done|exact H3]]. by constructor.
    + apply (IH f1); [done| |done|done]. intros k Hk. simpl. assert (k ∈ queue f) as Hin by by apply Hq. rewrite <- Eq in Hin.
      apply elem_of_cons in Hin as [->|?]; [|done]. simpl in Hk. rewrite Ei in Hk. by destruct Hk.
Qed.

Context (keys_perm : ∀ m, keys_of m ≡ₚ (map_to_list m).*1).

Lemma keys_of_elem m k : k ∈ keys_of m ↔ is_Some (m !! k).
Proof using keys_perm.
  rewrite keys_perm, list_elem_of_fmap. split.
  - intros ([k' v] & -> & ?%elem_of_map_to_list). eauto.
  - intros [v Hv]. exists (k, v). split; [done|]. by apply elem_of_map_to_list.
Qed.

Lemma fresh_keys m D : fresh m (keys_of m) D.
Proof using keys_perm.
  intros k q1 q2 _ E. assert (NoDup (keys_of m)) as Hnd by (rewrite keys_perm; apply NoDup_fst_map_to_list).
  split; [apply keys_of_elem; rewrite E; apply elem_of_app; right; by left|].
  rewrite E in Hnd. apply NoDup_app in Hnd as (_ & Hnd & [H2 _]%NoDup_cons). split; [|done]. intros Hk. by apply (Hnd k Hk); left.
Qed.

Lemma put_spec c o k (f : FIFO V) s :
  implements f s → keyFunc o = Ok k →
  (c = CallAdd o ∨ c = CallUpdate o →
    ∃ s', implements (Add keyFunc f o).2 s' ∧ (Add keyFunc f o).1 = None ∧ spec_step s c (OutErr None) s') ∧
  (c = CallAddIfNotPresent o →
    ∃ s', implements (AddIfNotPresent keyFunc f o).2 s' ∧ (AddIfNotPresent keyFunc f o).1 = None ∧ spec_step s c (OutErr None) s').
Proof using Type.
  destruct s as [p D b]. intros [Hp Hb Hq Hf Hc] Hk. simpl in *. subst p b. unfold Add, AddIfNotPresent, addIfNotPresent. rewrite Hk.
  destruct (items f !! k) as [w|] eqn:Ek; simpl.
  - assert (k ∈ (pending f).*1) as Hin by (apply pending_keys; eauto). split; intros Hcall.
    + exists (mkSpec (replaced k o (pending f)) D (closed f)). split_and!; [|done|by eapply s_newer]. constructor; simpl; try done.
      * unfold replaced, pending. simpl. by rewrite waiting_insert.
      * intros k' Hk'. apply Hq. simpl in Hk'. destruct (decide (k' = k)) as [->|]; [eauto|by rewrite lookup_insert_ne in Hk'].
      * intros k' q1 q2 HD E. destruct (Hf k' q1 q2 HD E) as (? & ? & ?). split_and!; [|done|done].
        destruct (decide (k' = k)) as [->|]; [by rewrite lookup_insert_eq|by rewrite lookup_insert_ne].
    + exists (mkSpec (pending f) D (closed f)). subst c. split_and!; [by constructor|done|by eapply s_present].
  - assert (k ∉ (pending f).*1) as Hin by (rewrite pending_keys by done; rewrite Ek; by intros [? ?]).
    destruct (put_new f D k o (initialPopulationCount f) (closed f) Hq Hf Ek) as (H1 & H2 & H3).
    split; intros Hcall; (exists (mkSpec (pending (set_items f (<[k := o]> (items f)) (queue f ++ [k]))) D (closed f));
      split_and!; [by constructor|done|]); eapply s_new; eauto; tauto.
Qed.

Lemma key_items_error l m e :
  key_items keyFunc l m = Err e → ∃ o err, o ∈ l ∧ keyFunc o = Err err ∧ e = KeyError o err.
Proof using Type.
  revert m. induction l as [|o l IH]; intros m; simpl; [done|]. destruct (keyFunc o) as [k|err] eqn:Ek.
  - intros (o' & err & ? & ? & ->)%IH. exists o', err. split_and!; [by right|done|done].
  - intros [= <-]. exists o, err. split_and!; [by left|done|done].
Qed.

(** Nothing is to be queued again. *)
Lemma Resync_same (f : FIFO V) : queued f → Resync keys_of f = f.
Proof using keys_perm.
  intros Hq. unfold Resync. destruct (filter (λ id, id ∉ queue f) (keys_of (items f))) as [|k l] eqn:E; [rewrite app_nil_r; by destruct f|].
  exfalso. assert (k ∈ filter (λ id, id ∉ queue f) (keys_of (items f))) as Hk by (rewrite E; by left).
  apply list_elem_of_filter in Hk as [Hn Hk]. by apply Hn, Hq, keys_of_elem.
Qed.

(** A queue that is in sync stays so. *)
Lemma set_items_synced (f : FIFO V) i q : HasSynced f = true → HasSynced (set_items f i q) = true.
Proof using Type. by intros [_ H]%andb_true_iff. Qed.

Lemma Add_synced (f : FIFO V) o : HasSynced f = true → HasSynced (Add keyFunc f o).2 = true.
Proof using Type. unfold Add. destruct (keyFunc o); [apply set_items_synced|done]. Qed.

Lemma AddIfNotPresent_synced (f : FIFO V) o : HasSynced f = true → HasSynced (AddIfNotPresent keyFunc f o).2 = true.
Proof using Type.
  unfold AddIfNotPresent, addIfNotPresent. destruct (keyFunc o) as [k|]; [|done]. destruct (items f !! k); apply set_items_synced.
Qed.

Lemma Pop_synced process (f : FIFO V) :
  HasSynced f = true →
  match Pop process f with PopWaits f' | PopClosed f' | Popped _ _ f' => HasSynced f' = true end.
Proof using Type.
  unfold Pop. generalize (queue f). intros q. revert f. induction q as [|id q IH]; intros f Hs; cbn [pop_loop].
  - by destruct (IsClosed f).
  - assert (∀ i q, HasSynced (dequeue f i q) = true) as Hd.
    { intros i q'. unfold HasSynced in *. apply andb_true_iff in Hs as [H1 H2]. simpl. apply Z.eqb_eq in H2. by rewrite H1, H2. }
    destruct (items _ !! id) as [item|]; [|apply IH, Hd]. specialize (Hd (delete id (items f)) q).
    destruct (process item); [done|]. unfold addIfNotPresent. simpl. rewrite lookup_delete_eq.
    unfold HasSynced in *. simpl in *. by apply andb_true_iff in Hd as [_ ?].
Qed.

Lemma do_call_spec (f : FIFO V) s c :
  implements f s →
  let '(out, f') := do_call f c in ∃ s', implements f' s' ∧ spec_step s c out s' ∧ (HasSynced f = true → HasSynced f' = true).
Proof using keys_perm.
  intros Hi. assert (∀ c o e, o ∈ objects_of c → keyFunc o = Err e →
    ∃ s', implements f s' ∧ spec_step s c (OutErr (Some (KeyError o e))) s' ∧ (HasSynced f = true → HasSynced f = true)) as Herr.
  { intros c' o e Ho He. exists s. split_and!; [done|by constructor|done]. }
  destruct c as [o|o|o|o|l| |process|].
  - pose proof (put_spec (CallAdd o) o) as Hput. cbn [do_call]. destruct (keyFunc o) as [k|e] eqn:Ek.
    + destruct (Hput k f s Hi eq_refl) as [(s' & H1 & H2 & H3) _]; [by left|]. pose proof (Add_synced f o) as Hs. destruct (Add keyFunc f o) as [e f1].
      simpl in *. subst e. eauto.
    + unfold Add. rewrite Ek. apply Herr; [by left|done].
  - pose proof (put_spec (CallUpdate o) o) as Hput. cbn [do_call]. unfold Update. destruct (keyFunc o) as [k|e] eqn:Ek.
    + destruct (Hput k f s Hi eq_refl) as [(s' & H1 & H2 & H3) _]; [by right|]. pose proof (Add_synced f o) as Hs. destruct (Add keyFunc f o) as [e f1].
      simpl in *. subst e. eauto.
    + unfold Add. rewrite Ek. apply Herr; [by left|done].
  - pose proof (put_spec (CallAddIfNotPresent o) o) as Hput. cbn [do_call]. destruct (keyFunc o) as [k|e] eqn:Ek.
    + destruct (Hput k f s Hi eq_refl) as [_ (s' & H1 & H2 & H3)]; [done|]. pose proof (AddIfNotPresent_synced f o) as Hs.
      destruct (AddIfNotPresent keyFunc f o) as [e f1]. simpl in *. subst e. eauto.
    + unfold AddIfNotPresent. rewrite Ek. apply Herr; [by left|done].
  - cbn [do_call]. unfold Delete. destruct (keyFunc o) as [k|e] eqn:Ek; [|apply Herr; [by left|done]].
    destruct s as [p D b]. destruct Hi as [Hp Hb Hq Hf Hc]. simpl in *. subst p b.
    exists (mkSpec (filter (λ kv, kv.1 ≠ k) (pending f)) ({[k]} ∪ D) (closed f)). split_and!; [|by constructor|apply set_items_synced].
    constructor; simpl; try done.
    + unfold pending. simpl. by rewrite waiting_delete.
    + intros k' Hk'. simpl in *. destruct Hk' as [w [_ Hw]%lookup_delete_Some]. apply Hq. eauto.
    + by apply fresh_delete_old.
  - cbn [do_call]. unfold Replace. destruct (key_items keyFunc l ∅) as [m|e] eqn:Em.
    + destruct s as [p D b]. destruct Hi as [Hp Hb Hq Hf Hc]. simpl in *. subst p b.
      exists (mkSpec (waiting m (keys_of m)) ∅ (closed f)). split_and!.
      * constructor; simpl; [done|done| |apply fresh_keys|destruct (populated f); [done|lia]]. intros k. by rewrite <- keys_of_elem.
      * eapply s_replace; [done|]. apply waiting_all. intros k. by rewrite <- keys_of_elem.
      * unfold HasSynced. simpl. intros [Hpop H]%andb_true_iff. by rewrite Hpop.
    + destruct (key_items_error l ∅ e Em) as (o & err & Ho & He & ->). by apply Herr.
  - cbn [do_call]. rewrite Resync_same by apply Hi. exists s. split_and!; [done|constructor|done].
  - destruct s as [p D b]. destruct Hi as [Hp Hb Hq Hf Hc]. simpl in Hp, Hb, Hf. subst p b.
    pose proof (pop_loop_spec process (queue f) f D eq_refl Hq Hf Hc) as H. pose proof (Pop_synced process f) as Hs.
    cbn [do_call] in *. destruct (Pop process f); destruct H as (s' & ? & ?); eauto.
  - cbn [do_call]. destruct s as [p D b]. destruct Hi as [Hp Hb Hq Hf Hc]. simpl in *. subst p b.
    exists (mkSpec (pending f) D true). split_and!; [by constructor|by constructor|done].
Qed.

Fixpoint run (f : FIFO V) (calls : list call) : list output * FIFO V :=
  match calls with
  | [] => ([], f)
  | c :: calls => let '(out, f) := do_call f c in let '(outs, f) := run f calls in (out :: outs, f)
  end.

Inductive spec_run : queue_spec → list call → list output → queue_spec → Prop :=
  | run_nil s : spec_run s [] [] s
  | run_cons s s1 s2 c calls out outs :
      spec_step s c out s1 → spec_run s1 calls outs s2 → spec_run s (c :: calls) (out :: outs) s2.

Lemma fifo_run_spec calls (f : FIFO V) s :
  implements f s → let '(outs, f') := run f calls in ∃ s', implements f' s' ∧ spec_run s calls outs s'.
Proof using keys_perm.
  revert f s. induction calls as [|c calls IH]; intros f s Hi; cbn [run]; [exists s; split; [done|constructor]|].
  pose proof (do_call_spec f s c Hi) as H. destruct (do_call f c) as [out f1]. destruct H as (s1 & H1 & Hs & _).
  specialize (IH f1 s1 H1). destruct (run f1 calls) as [outs f2]. destruct IH as (s2 & H2 & Hr). exists s2. split; [done|by econstructor].
Qed.

Lemma NewFIFO_implements : implements (@NewFIFO V) (mkSpec [] ∅ false).
Proof using Type. constructor; simpl; try done; [by intros k [? ?]|]. by intros k [|x q1] q2 _ E. Qed.
End spec.
Arguments call : clear implicits.
Arguments output : clear implicits.
Arguments queue_spec : clear implicits.

(** C37: The queue without deltas is a queue of the latest objects. Through any sequence of
    calls, in whatever order maps are enumerated and whatever the processing functions
    answer, every call has the effect of the abstract queue: an object waits at one place,
    an update replaces it there, a deletion takes it out, [Pop] gives the first object that
    waits and returns exactly when one does or the queue is closed, an object that is to be
    queued again and a new object go to the end unless their key was deleted since the
    objects were last replaced, a resync does nothing, and the errors are those of the key
    function. Everything that is stored waits. *)
Theorem FIFO_refines {V} (keyFunc : V → result string string) keys_of (calls : list (call V)) :
  (∀ m, keys_of m ≡ₚ (map_to_list m).*1) →
  let '(outs, f) := run keyFunc keys_of NewFIFO calls in
  ∃ s, spec_run keyFunc (mkSpec [] ∅ false) calls outs s ∧
    sWaiting s = pending f ∧ sClosed s = closed f ∧ pending f ≡ₚ map_to_list (items f).
Proof.
  intros Hk. pose proof (fifo_run_spec keyFunc keys_of Hk calls NewFIFO (mkSpec [] ∅ false) NewFIFO_implements) as H.
  destruct (run keyFunc keys_of NewFIFO calls) as [outs f]. destruct H as (s & [Hp Hb Hq _ _] & Hr). exists s.
  split_and!; [done|done|done|]. by apply waiting_all.
Qed.

(** ** Examples *)

Definition ex_key (o : string * Z) : result string string := if bool_decide (o.1 = "") then Err "no key" else Ok o.1.
Definition ex_keys (m : gmap string (string * Z)) : list string := (map_to_list m).*1.
Definition ex_done (_ : string * Z) : processed := Done None.

Lemma FIFO_refines_witness :
  let calls := [CallAdd ("a", 1); CallAdd ("b", 2); CallUpdate ("a", 3); CallDelete ("b", 0); CallPop ex_done; CallPop ex_done] in
  (run ex_key ex_keys NewFIFO calls).1 = [OutErr None; OutErr None; OutErr None; OutErr None; OutPopped ("a", 3) None; OutWaits] ∧
  ∃ s, spec_run ex_key (mkSpec [] ∅ false) calls (run ex_key ex_keys NewFIFO calls).1 s.
Proof.
  intros calls. split; [vm_compute; reflexivity|].
  pose proof (FIFO_refines ex_key ex_keys calls ltac:(reflexivity)) as H.
  destruct (run ex_key ex_keys NewFIFO calls) as [outs f]. destruct H as (s & H & _). by exists s.
Defined.

(** An object that is deleted and added again comes before one that was added in between. *)
Theorem deleted_keeps_place :
  (run ex_key ex_keys NewFIFO
    [CallAdd ("a", 1); CallDelete ("a", 1); CallAdd ("b", 2); CallAdd ("a", 3); CallPop ex_done]).1 =
  [OutErr None; OutErr None; OutErr None; OutErr None; OutPopped ("a", 3) None].
Proof. vm_compute. reflexivity. Qed.

(** When the first objects are replaced before they are popped, the queue does not count as
    synced although nothing waits. *)
Theorem replaced_not_synced :
  let f := (run ex_key ex_keys NewFIFO [CallReplace [("a", 1)]; CallReplace []]).2 in
  pending f = [] ∧ HasSynced f = false.
Proof. vm_compute. done. Qed.
