(* ===== verification/SchedulingQueue.v ===== *)
(** * The scheduling queue

    [pkg/scheduler/internal/queue/scheduling_queue.go] with what it uses of
    [pkg/scheduler/util/utils.go], [pkg/api/v1/pod/util.go] and
    [pkg/scheduler/algorithm]: the pods that wait to be scheduled, in a heap by priority
    and, when they were tried in vain, in a map beside it, with the nodes that they are
    nominated for. Every method runs under the lock of the queue. The heap is a copy of
    the one in [Heap.v] without the lock. The order in which a map is enumerated is a
    parameter. *)

From S2P Require Import Prelude GoStrings LabelSelector Store Heap.

(** ** The heap *)

Section sched_heap.
Context {V : Type} (keyFunc : V → result string string) (lessFunc : V → V → bool).
Implicit Types (h : heapData V).

Inductive heapError : Type :=
  | HeapKeyError (o : V) (err : string)
  | ObjectNotFound
  | ObjectRemoved.

Definition newHeap : heapData V := mkData ∅ [].

Definition hAdd h (o : V) : option heapError * heapData V :=
  match keyFunc o with
  | Err e => (Some (HeapKeyError o e), h)
  | Ok key =>
      match Heap.items h !! key with
      | Some item => (None, heap_Fix lessFunc (mkData (<[key := mkItem o (index item)]> (Heap.items h)) (Heap.queue h)) (index item))
      | None => (None, heap_Push lessFunc h key o)
      end
  end.

Definition hAddIfNotPresent h (o : V) : option heapError * heapData V :=
  match keyFunc o with
  | Err e => (Some (HeapKeyError o e), h)
  | Ok key => match Heap.items h !! key with Some _ => (None, h) | None => (None, heap_Push lessFunc h key o) end
  end.

Definition hUpdate h (o : V) : option heapError * heapData V := hAdd h o.

Definition hDelete h (o : V) : option heapError * heapData V :=
  match keyFunc o with
  | Err e => (Some (HeapKeyError o e), h)
  | Ok key =>
      match Heap.items h !! key with
      | Some item => (None, (heap_Remove lessFunc h (index item)).2)
      | None => (Some ObjectNotFound, h)
      end
  end.

Definition hPop h : result heapError V * heapData V :=
  let '(o, h) := heap_Pop lessFunc h in
  match o with Some o => (Ok o, h) | None => (Err ObjectRemoved, h) end.

Definition hGetByKey h (key : string) : option V := obj <$> Heap.items h !! key.

Definition hGet h (o : V) : result heapError (option V) :=
  match keyFunc o with
  | Err e => Err (HeapKeyError o e)
  | Ok key => Ok (hGetByKey h key)
  end.

Definition hList h : list V := (λ kv, obj kv.2) <$> map_to_list (Heap.items h).
End sched_heap.
Arguments heapError : clear implicits.

(** ** Pods *)

Record PodCondition : Type := mkCondition {
  CType : string;
  CStatus : string;
  CReason : string;
  LastProbeTime : Z;
  LastTransitionTime : Z;
}.

Record PodAffinityTerm : Type := mkAffinityTerm {
  TermSelector : option LabelSelector;
  TermNamespaces : list string;
}.

Definition PodScheduled : string := "PodScheduled".
Definition ConditionFalse : string := "False".
Definition PodReasonUnschedulable : string := "Unschedulable".
Definition DefaultPriorityWhenNoDefaultClassExists : Z := 0.

Section queue.
(** What a pod has besides, and how [reflect.DeepEqual] compares it. *)
Context {X : Type} `{EqDecision X}.

(** A pod with what the queue reads of it. Times are nanoseconds since the zero time.
    The required affinity terms are those of [Affinity.PodAffinity], none when either is
    nil; [pRest] is what else there is of the metadata and the specification, the
    terms as they are written included, but for the version and the generation. *)
Record Pod : Type := mkPod {
  pNamespace : string;
  pName : string;
  pUID : string;
  pPriority : option Z;
  CreationTimestamp : Z;
  pLabels : Labels;
  RequiredTerms : option (list PodAffinityTerm);
  pRest : X;
  ResourceVersion : string;
  Generation : Z;
  Conditions : list PodCondition;
  NominatedNode : string;
}.

Definition GetPodFullName (pod : Pod) : string := pName pod +:+ "_" +:+ pNamespace pod.

Definition GetPodPriority (pod : Pod) : Z :=
  match pPriority pod with Some p => p | None => DefaultPriorityWhenNoDefaultClassExists end.

Definition GetPodCondition (pod : Pod) (conditionType : string) : option PodCondition :=
  find (λ c, bool_decide (CType c = conditionType)) (Conditions pod).

Definition podTimestamp (pod : Pod) : Z :=
  match GetPodCondition pod PodScheduled with
  | None => CreationTimestamp pod
  | Some condition => if LastProbeTime condition =? 0 then LastTransitionTime condition else LastProbeTime condition
  end.

Definition activeQComp (p1 p2 : Pod) : bool :=
  let prio1 := GetPodPriority p1 in
  let prio2 := GetPodPriority p2 in
  (prio2 <? prio1) || ((prio1 =? prio2) && (podTimestamp p1 <? podTimestamp p2)).

Definition isPodUnschedulable (pod : Pod) : bool :=
  match GetPodCondition pod PodScheduled with
  | None => false
  | Some cond => bool_decide (CStatus cond = ConditionFalse) && bool_decide (CReason cond = PodReasonUnschedulable)
  end.

Definition NominatedNodeName (pod : Pod) : string := NominatedNode pod.

(** The version, the generation and the status do not count. The labels and the terms are
    also in [pRest], as they are written. *)
Definition isPodUpdated (oldPod newPod : Pod) : bool :=
  negb (bool_decide (pNamespace oldPod = pNamespace newPod) && bool_decide (pName oldPod = pName newPod) &&
        bool_decide (pUID oldPod = pUID newPod) && bool_decide (pPriority oldPod = pPriority newPod) &&
        bool_decide (CreationTimestamp oldPod = CreationTimestamp newPod) && bool_decide (pLabels oldPod = pLabels newPod) &&
        bool_decide (pRest oldPod = pRest newPod)).

(** ** Nominated pods *)

Record nominatedPodMap : Type := mkNominated {
  nominatedPods : gmap string (list Pod);
  nominatedPodToNode : gmap string string;
}.

Definition newNominatedPodMap : nominatedPodMap := mkNominated ∅ ∅.

(** The list without the first pod of the identifier. *)
Fixpoint remove_uid (uid : string) (l : list Pod) : list Pod :=
  match l with
  | [] => []
  | np :: l => if bool_decide (pUID np = uid) then l else np :: remove_uid uid l
  end.

Definition has_uid (uid : string) (l : list Pod) : bool := existsb (λ np, bool_decide (pUID np = uid)) l.

Definition npm_delete (npm : nominatedPodMap) (p : Pod) : nominatedPodMap :=
  match nominatedPodToNode npm !! pUID p with
  | None => npm
  | Some nnn =>
      let l := default [] (nominatedPods npm !! nnn) in
      let pods :=
        if has_uid (pUID p) l then
          let l := remove_uid (pUID p) l in
          if bool_decide (length l = 0%nat) then delete nnn (nominatedPods npm) else <[nnn := l]> (nominatedPods npm)
        else nominatedPods npm in
      mkNominated pods (delete (pUID p) (nominatedPodToNode npm))
  end.

Definition npm_add (npm : nominatedPodMap) (p : Pod) (nodeName : string) : nominatedPodMap :=
  let npm := npm_delete npm p in
  let nnn := if bool_decide (nodeName = "") then NominatedNodeName p else nodeName in
  if bool_decide (nnn = "") then npm
  else
    let toNode := <[pUID p := nnn]> (nominatedPodToNode npm) in
    let l := default [] (nominatedPods npm !! nnn) in
    if has_uid (pUID p) l then mkNominated (nominatedPods npm) toNode
    else mkNominated (<[nnn := l ++ [p]]> (nominatedPods npm)) toNode.

Definition npm_update (npm : nominatedPodMap) (oldPod newPod : Pod) : nominatedPodMap :=
  npm_add (npm_delete npm oldPod) newPod "".

Definition podsForNode (npm : nominatedPodMap) (nodeName : string) : list Pod := default [] (nominatedPods npm !! nodeName).

(** ** The queue *)

(** The cycles are counters of 64 bits, which do not run over. *)
Record PriorityQueue : Type := mkPQ {
  activeQ : heapData Pod;
  unschedulableQ : gmap string Pod;
  nominated : nominatedPodMap;
  schedulingCycle : Z;
  moveRequestCycle : Z;
  pqClosed : bool;
}.

Definition NewPriorityQueue : PriorityQueue := mkPQ newHeap ∅ newNominatedPodMap 0 (-1) false.

Definition podKeyFunc (p : Pod) : result string string := MetaNamespaceKeyFunc (WithMeta (pNamespace p) (pName p)).

Definition set_active (q : PriorityQueue) (h : heapData Pod) : PriorityQueue :=
  mkPQ h (unschedulableQ q) (nominated q) (schedulingCycle q) (moveRequestCycle q) (pqClosed q).
Definition set_unschedulable (q : PriorityQueue) (u : gmap string Pod) : PriorityQueue :=
  mkPQ (activeQ q) u (nominated q) (schedulingCycle q) (moveRequestCycle q) (pqClosed q).
Definition set_nominated (q : PriorityQueue) (n : nominatedPodMap) : PriorityQueue :=
  mkPQ (activeQ q) (unschedulableQ q) n (schedulingCycle q) (moveRequestCycle q) (pqClosed q).
Definition set_cycles (q : PriorityQueue) (s m : Z) : PriorityQueue :=
  mkPQ (activeQ q) (unschedulableQ q) (nominated q) s m (pqClosed q).

(** The methods of [UnschedulablePodsMap]. *)
Definition addOrUpdate (u : gmap string Pod) (pod : Pod) : gmap string Pod := <[GetPodFullName pod := pod]> u.
Definition u_delete (u : gmap string Pod) (pod : Pod) : gmap string Pod := delete (GetPodFullName pod) u.
Definition u_get (u : gmap string Pod) (pod : Pod) : option Pod := u !! GetPodFullName pod.

Inductive QueueError : Type :=
  | ErrHeap (e : heapError Pod)
  | ErrInUnschedulableQ
  | ErrInActiveQ
  | ErrQueueClosed.

(** Whether [activeQ.Get] finds the pod; its error is ignored. *)
Definition in_active (q : PriorityQueue) (pod : Pod) : bool :=
  match hGet podKeyFunc (activeQ q) pod with Ok (Some _) => true | _ => false end.

Definition add_active (q : PriorityQueue) (pod : Pod) : option QueueError * PriorityQueue :=
  let '(e, h) := hAdd podKeyFunc activeQComp (activeQ q) pod in (ErrHeap <$> e, set_active q h).

Definition Add (q : PriorityQueue) (pod : Pod) : option QueueError * PriorityQueue :=
  match add_active q pod with
  | (Some e, q) => (Some e, q)
  | (None, q) =>
      let q := match u_get (unschedulableQ q) pod with
        | Some _ => set_unschedulable q (u_delete (unschedulableQ q) pod)
        | None => q
        end in
      (None, set_nominated q (npm_add (nominated q) pod ""))
  end.

Definition add_and_nominate (q : PriorityQueue) (pod : Pod) : option QueueError * PriorityQueue :=
  match add_active q pod with
  | (Some e, q) => (Some e, q)
  | (None, q) => (None, set_nominated q (npm_add (nominated q) pod ""))
  end.

Definition AddIfNotPresent (q : PriorityQueue) (pod : Pod) : option QueueError * PriorityQueue :=
  match u_get (unschedulableQ q) pod with
  | Some _ => (None, q)
  | None => if in_active q pod then (None, q) else add_and_nominate q pod
  end.

Definition SchedulingCycle (q : PriorityQueue) : Z := schedulingCycle q.

Definition AddUnschedulableIfNotPresent (q : PriorityQueue) (pod : Pod) (podSchedulingCycle : Z) : option QueueError * PriorityQueue :=
  match u_get (unschedulableQ q) pod with
  | Some _ => (Some ErrInUnschedulableQ, q)
  | None =>
      if in_active q pod then (Some ErrInActiveQ, q)
      else if (moveRequestCycle q <? podSchedulingCycle) && isPodUnschedulable pod then
        let q := set_unschedulable q (addOrUpdate (unschedulableQ q) pod) in
        (None, set_nominated q (npm_add (nominated q) pod ""))
      else add_and_nominate q pod
  end.

Inductive PopResult : Type :=
  | PopWaits
  | PopFails (e : QueueError) (q : PriorityQueue)
  | PopGives (pod : Pod) (q : PriorityQueue).

Definition Pop (q : PriorityQueue) : PopResult :=
  if bool_decide (length (Heap.queue (activeQ q)) = 0%nat) then
    if pqClosed q then PopFails ErrQueueClosed q else PopWaits
  else
    match hPop activeQComp (activeQ q) with
    | (Err e, h) => PopFails (ErrHeap e) (set_active q h)
    | (Ok pod, h) => let q := set_active q h in PopGives pod (set_cycles q (schedulingCycle q + 1) (moveRequestCycle q))
    end.

Definition Update (q : PriorityQueue) (oldPod newPod : Pod) : option QueueError * PriorityQueue :=
  if in_active q newPod then
    let q := set_nominated q (npm_update (nominated q) oldPod newPod) in
    let '(e, h) := hUpdate podKeyFunc activeQComp (activeQ q) newPod in (ErrHeap <$> e, set_active q h)
  else
    match u_get (unschedulableQ q) newPod with
    | Some usPod =>
        let q := set_nominated q (npm_update (nominated q) oldPod newPod) in
        if isPodUpdated oldPod newPod then
          add_active (set_unschedulable q (u_delete (unschedulableQ q) usPod)) newPod
        else (None, set_unschedulable q (addOrUpdate (unschedulableQ q) newPod))
    | None => add_and_nominate q newPod
    end.

(** It always returns nil. *)
Definition Delete (q : PriorityQueue) (pod : Pod) : PriorityQueue :=
  let q := set_nominated q (npm_delete (nominated q) pod) in
  match hDelete podKeyFunc activeQComp (activeQ q) pod with
  | (None, h) => set_active q h
  | (Some _, h) => let q := set_active q h in set_unschedulable q (u_delete (unschedulableQ q) pod)
  end.

(** ** Moving pods back *)

Context (order : gmap string Pod → list Pod).

Definition request_move (q : PriorityQueue) : PriorityQueue := set_cycles q (schedulingCycle q) (schedulingCycle q).

Definition MoveAllToActiveQueue (q : PriorityQueue) : PriorityQueue :=
  let h := fold_left (λ h pod, (hAdd podKeyFunc activeQComp h pod).2) (order (unschedulableQ q)) (activeQ q) in
  request_move (set_unschedulable (set_active q h) ∅).

Definition move_one (q : PriorityQueue) (pod : Pod) : PriorityQueue :=
  match add_active q pod with
  | (None, q) => set_unschedulable q (u_delete (unschedulableQ q) pod)
  | (Some _, q) => q
  end.

Definition movePodsToActiveQueue (q : PriorityQueue) (pods : list Pod) : PriorityQueue :=
  request_move (fold_left move_one pods q).

Definition unschedulableQTimeInterval : Z := 60 * 1000000000.

Definition is_leftover (currentTime : Z) (pod : Pod) : bool :=
  negb (podTimestamp pod =? 0) && (unschedulableQTimeInterval <? currentTime - podTimestamp pod).

Definition flushUnschedulableQLeftover (q : PriorityQueue) (currentTime : Z) : PriorityQueue :=
  let podsToMove := filter (λ pod, is_leftover currentTime pod = true) (order (unschedulableQ q)) in
  if (0 <? length podsToMove)%nat then movePodsToActiveQueue q podsToMove else q.

Definition GetNamespacesFromPodAffinityTerm (pod : Pod) (term : PodAffinityTerm) : gset string :=
  if bool_decide (length (TermNamespaces term) = 0%nat) then {[pNamespace pod]} else list_to_set (TermNamespaces term).

(** A selector that could not be made is nil, and matching it panics: [None]. *)
Definition PodMatchesTermsNamespaceAndSelector (pod : Pod) (namespaces : gset string) (selector : option Selector) : option bool :=
  if negb (bool_decide (pNamespace pod ∈ namespaces)) then Some false
  else match selector with Some s => Some (Matches s (pLabels pod)) | None => None end.

Context `{SortByKey}.

Fixpoint any_term_matches (up pod : Pod) (terms : list PodAffinityTerm) : option bool :=
  match terms with
  | [] => Some false
  | term :: terms =>
      let namespaces := GetNamespacesFromPodAffinityTerm up term in
      let selector := match LabelSelectorAsSelector (TermSelector term) with Ok s => Some s | Err _ => None end in
      match PodMatchesTermsNamespaceAndSelector pod namespaces selector with
      | Some true => Some true
      | Some false => any_term_matches up pod terms
      | None => None
      end
  end.

Fixpoint matching_pods (pod : Pod) (ups : list Pod) : option (list Pod) :=
  match ups with
  | [] => Some []
  | up :: ups =>
      match match RequiredTerms up with Some terms => any_term_matches up pod terms | None => Some false end with
      | None => None
      | Some b => l ← matching_pods pod ups; Some (if b : bool then up :: l else l)
      end
  end.

Definition getUnschedulablePodsWithMatchingAffinityTerm (q : PriorityQueue) (pod : Pod) : option (list Pod) :=
  matching_pods pod (order (unschedulableQ q)).

Definition AssignedPodAdded (q : PriorityQueue) (pod : Pod) : option PriorityQueue :=
  pods ← getUnschedulablePodsWithMatchingAffinityTerm q pod; Some (movePodsToActiveQueue q pods).

Definition AssignedPodUpdated (q : PriorityQueue) (pod : Pod) : option PriorityQueue :=
  pods ← getUnschedulablePodsWithMatchingAffinityTerm q pod; Some (movePodsToActiveQueue q pods).

(** ** Queries and the rest *)

Definition NominatedPodsForNode (q : PriorityQueue) (nodeName : string) : list Pod := podsForNode (nominated q) nodeName.
Definition WaitingPods (q : PriorityQueue) : list Pod := hList (activeQ q) ++ order (unschedulableQ q).
Definition Close (q : PriorityQueue) : PriorityQueue :=
  mkPQ (activeQ q) (unschedulableQ q) (nominated q) (schedulingCycle q) (moveRequestCycle q) true.
Definition DeleteNominatedPodIfExists (q : PriorityQueue) (pod : Pod) : PriorityQueue :=
  set_nominated q (npm_delete (nominated q) pod).
Definition UpdateNominatedPodForNode (q : PriorityQueue) (pod : Pod) (nodeName : string) : PriorityQueue :=
  set_nominated q (npm_add (nominated q) pod nodeName).
Definition NumUnschedulablePods (q : PriorityQueue) : nat := size (unschedulableQ q).
End queue.
Arguments Pod : clear implicits.
Arguments PriorityQueue : clear implicits.
Arguments QueueError : clear implicits.
Arguments PopResult : clear implicits.
