(* ===== verification/SchedulingQueueSpec.v ===== *)
(** * What the scheduling queue promises

    A pod waits in one of the two queues of the priority queue; [Pop] gives one of the
    highest priority that has waited longest; a request to move pods back is never lost on
    a pod that is just being tried; and the operations fail when they say so. *)

From S2P Require Import Prelude GoStrings LabelSelector Store Heap SchedulingQueue.

(** ** The heap *)

Section heap.
Context {V : Type} (keyFunc : V → result string string) (less : V → V → bool) `{!LessLaws less}.

Lemma hAdd_spec h o k :
  valid less h → keyFunc o = Ok k →
  ∃ h', hAdd keyFunc less h o = (None, h') ∧ valid less h' ∧ contents h' = <[k := o]> (contents h).
Proof.
  intros Hv Hk. unfold hAdd. rewrite Hk. pose proof (addLocked_spec less h k o Hv) as [H1 H2].
  unfold addLocked, addIfNotPresentLocked in *. destruct (Heap.items h !! k); eauto.
Qed.

Lemma hDelete_spec h o k :
  valid less h → keyFunc o = Ok k →
  match contents h !! k with
  | Some _ => ∃ h', hDelete keyFunc less h o = (None, h') ∧ valid less h' ∧ contents h' = delete k (contents h)
  | None => hDelete keyFunc less h o = (Some ObjectNotFound, h)
  end.
Proof.
  intros Hv Hk. unfold hDelete, contents at 1. rewrite Hk, lookup_fmap. destruct (Heap.items h !! k) as [it|] eqn:E; simpl; [|done].
  pose proof (heap_Remove_spec less h (index it) k Hv (wf_items h (valid_wf less h Hv) k it E)) as H.
  destruct (heap_Remove less h (index it)) as [o' h']. destruct H as (_ & _ & H1 & H2). eauto.
Qed.

Lemma hGet_spec h o k : keyFunc o = Ok k → hGet keyFunc h o = Ok (contents h !! k).
Proof. intros Hk. unfold hGet, hGetByKey, contents. by rewrite Hk, lookup_fmap. Qed.

Lemma heap_empty h : valid less h → length (Heap.queue h) = 0%nat ↔ contents h = ∅.
Proof.
  intros Hv. pose proof (valid_wf less h Hv) as Hw. split.
  - intros Hl. apply map_eq. intros k. rewrite lookup_empty. destruct (contents h !! k) as [o|] eqn:E; [|done].
    destruct (contents_at h k o Hw E) as (i & Hi & _). unfold Len in Hi. lia.
  - intros Hc. destruct (Heap.queue h) as [|k l] eqn:E; [done|]. destruct (wf_queue h Hw 0%nat k) as [o Ho]; [by rewrite E|].
    assert (contents h !! k = Some o) as Hk by (unfold contents; by rewrite lookup_fmap, Ho). by rewrite Hc in Hk.
Qed.
End heap.

(** ** Pods and their keys *)

Section pods.
Context {X : Type} `{EqDecision X}.
Implicit Types (p : Pod X).

(** Names as the API server allows them. *)
Definition pod_ok p : bool :=
  negb (ContainsChar (pNamespace p) "/") && negb (ContainsChar (pName p) "/") && negb (ContainsChar (pName p) "_").

Definition podKey p : string := if 0 <? slen (pNamespace p) then pNamespace p +:+ "/" +:+ pName p else pName p.
Definition same_pod p1 p2 : Prop := pNamespace p1 = pNamespace p2 ∧ pName p1 = pName p2.

Lemma podKeyFunc_key p : podKeyFunc p = Ok (podKey p).
Proof. unfold podKeyFunc, podKey. simpl. by destruct (0 <? _). Qed.

Lemma podKey_inj p1 p2 : pod_ok p1 = true → pod_ok p2 = true → podKey p1 = podKey p2 ↔ same_pod p1 p2.
Proof.
  unfold pod_ok. rewrite !andb_true_iff, !negb_true_iff. intros [[N1 M1] _] [[N2 M2] _]. split.
  - unfold podKey. destruct (0 <? slen (pNamespace p1)) eqn:E1, (0 <? slen (pNamespace p2)) eqn:E2; intros E.
    + by apply split_unique in E.
    + rewrite <- E in M2. by rewrite ContainsChar_app, orb_true_r in M2.
    + rewrite E in M1. by rewrite ContainsChar_app, orb_true_r in M1.
    + apply Z.ltb_ge in E1, E2. unfold slen in *. destruct (pNamespace p1) eqn:?, (pNamespace p2) eqn:?; simpl in *; try lia. by split; congruence.
  - intros [E1 E2]. unfold podKey. by rewrite E1, E2.
Qed.

Lemma fullName_inj p1 p2 : pod_ok p1 = true → pod_ok p2 = true → GetPodFullName p1 = GetPodFullName p2 ↔ same_pod p1 p2.
Proof.
  unfold pod_ok. rewrite !andb_true_iff, !negb_true_iff. intros [_ U1] [_ U2]. unfold GetPodFullName. split.
  - intros E. apply split_unique in E as [? ?]; by try split.
  - intros [-> ->]. done.
Qed.

Lemma keys_agree p1 p2 : pod_ok p1 = true → pod_ok p2 = true → podKey p1 = podKey p2 ↔ GetPodFullName p1 = GetPodFullName p2.
Proof. intros H1 H2. by rewrite podKey_inj, fullName_inj. Qed.

#[export] Instance activeQComp_laws : LessLaws (activeQComp (X := X)).
Proof.
  split; unfold activeQComp; intros a b.
  - intros Hab. apply not_true_is_false. intros Hba. rewrite !orb_true_iff, !andb_true_iff, !Z.ltb_lt, !Z.eqb_eq in *. lia.
  - intros c Hab Hbc. apply not_true_is_false. intros Hac. apply not_true_iff_false in Hab, Hbc.
    rewrite !orb_true_iff, !andb_true_iff, !Z.ltb_lt, !Z.eqb_eq in *. lia.
Qed.
End pods.

(** ** Nominations *)

Section nominations.
Context {X : Type}.
Implicit Types (p : Pod X) (l : list (Pod X)).

(** A pod is listed under the node it is nominated for, once; no list is empty. *)
Record npm_ok (npm : nominatedPodMap (X := X)) : Prop := mk_npm_ok {
  no_lists : ∀ n l, nominatedPods npm !! n = Some l → l ≠ [] ∧ NoDup (pUID <$> l) ∧ n ≠ "";
  no_nodes : ∀ uid n, nominatedPodToNode npm !! uid = Some n ↔ ∃ l, nominatedPods npm !! n = Some l ∧ uid ∈ pUID <$> l;
}.

Definition others (uid : string) l : list (Pod X) := filter (λ p, pUID p ≠ uid) l.

Lemma has_uid_spec uid l : has_uid uid l = true ↔ uid ∈ pUID <$> l.
Proof.
  unfold has_uid. rewrite existsb_exists. rewrite list_elem_of_fmap. split.
  - intros (p & Hin & E%bool_decide_eq_true). exists p. split; [done|]. by apply list_elem_of_In.
  - intros (p & -> & Hin). exists p. split; [by apply list_elem_of_In|]. by apply bool_decide_eq_true.
Qed.

Lemma others_none uid l : uid ∉ pUID <$> l → others uid l = l.
Proof.
  unfold others. induction l as [|p l IH]; [done|]. rewrite fmap_cons, not_elem_of_cons. intros [H1 H2].
  rewrite filter_cons_True by (intros E; by apply H1). by rewrite IH.
Qed.

Lemma remove_uid_others uid l : NoDup (pUID <$> l) → remove_uid uid l = others uid l.
Proof.
  induction l as [|p l IH]; [done|]. rewrite fmap_cons. intros [Hp Hl]%NoDup_cons. cbn [remove_uid]. unfold others. case_bool_decide as E.
  - rewrite filter_cons_False by (intros ?; by apply H). subst uid. symmetry. by apply others_none.
  - rewrite filter_cons_True by done. f_equal. by apply IH.
Qed.

Lemma others_uids uid l u : u ∈ pUID <$> others uid l ↔ u ∈ pUID <$> l ∧ u ≠ uid.
Proof.
  unfold others. rewrite !list_elem_of_fmap. split.
  - intros (p & -> & [H1 H2]%list_elem_of_filter). eauto.
  - intros ((p & -> & Hp) & Hne). exists p. split; [done|]. by apply list_elem_of_filter.
Qed.

Lemma others_NoDup uid l : NoDup (pUID <$> l) → NoDup (pUID <$> others uid l).
Proof.
  unfold others. induction l as [|p l IH]; [done|]. rewrite fmap_cons. intros [Hp Hl]%NoDup_cons. rewrite filter_cons.
  case_decide as E; [|by apply IH]. cbn. constructor; [|by apply IH]. intros Hin. apply Hp.
  change (pUID p ∈ pUID <$> others uid l) in Hin. by apply others_uids in Hin as [? _].
Qed.

Lemma pods_of npm n : npm_ok npm → NoDup (pUID <$> podsForNode npm n) ∧ (podsForNode npm n ≠ [] → is_Some (nominatedPods npm !! n)).
Proof.
  intros [H1 _]. unfold podsForNode. destruct (nominatedPods npm !! n) as [l|] eqn:E; simpl; [|split; [constructor|done]].
  destruct (H1 n l E) as (? & ? & ?). split; [done|eauto].
Qed.

Lemma nominated_in npm uid n : npm_ok npm → nominatedPodToNode npm !! uid = Some n ↔ uid ∈ pUID <$> podsForNode npm n.
Proof.
  intros [_ H2]. rewrite H2. unfold podsForNode. destruct (nominatedPods npm !! n) as [l|]; simpl; [naive_solver|].
  split; [naive_solver|]. by intros ?%not_elem_of_nil.
Qed.

(** The lists of a well-formed map decide it. *)
Lemma npm_ok_lists (pods : gmap string (list (Pod X))) (toNode : gmap string string) :
  (∀ n l, pods !! n = Some l → l ≠ [] ∧ NoDup (pUID <$> l) ∧ n ≠ "") →
  (∀ uid n, toNode !! uid = Some n ↔ uid ∈ pUID <$> default [] (pods !! n)) → npm_ok (mkNominated pods toNode).
Proof.
  intros H1 H2. split; [done|]. intros uid n. simpl. rewrite H2. destruct (pods !! n) as [l|]; simpl; [naive_solver|].
  split; [by intros ?%not_elem_of_nil|naive_solver].
Qed.

Lemma npm_delete_spec npm p :
  npm_ok npm →
  npm_ok (npm_delete npm p) ∧ nominatedPodToNode (npm_delete npm p) = delete (pUID p) (nominatedPodToNode npm) ∧
  ∀ n, podsForNode (npm_delete npm p) n = others (pUID p) (podsForNode npm n).
Proof.
  intros Hok. pose proof Hok as [H1 H2]. unfold npm_delete. destruct (nominatedPodToNode npm !! pUID p) as [nnn|] eqn:E.
  2:{ split_and!; [done|by rewrite delete_id|]. intros n. rewrite others_none; [done|].
      intros Hin%(nominated_in npm _ n Hok). congruence. }
  pose proof (proj1 (nominated_in npm _ nnn Hok) E) as Hin. unfold podsForNode in Hin.
  destruct (nominatedPods npm !! nnn) as [l|] eqn:El; simpl in *; [|by apply not_elem_of_nil in Hin].
  destruct (H1 nnn l El) as (_ & Hnd & Hnn). rewrite (proj2 (has_uid_spec _ _) Hin), remove_uid_others by done.
  set (pods := if bool_decide _ then _ else _).
  assert (∀ n, default [] (pods !! n) = others (pUID p) (podsForNode npm n)) as Hp.
  { intros n. unfold podsForNode. destruct (decide (n = nnn)) as [->|Hne].
    - rewrite El. simpl. unfold pods. case_bool_decide as E0; [|by rewrite lookup_insert_eq].
      rewrite lookup_delete_eq. simpl. by destruct (others (pUID p) l).
    - transitivity (default [] (nominatedPods npm !! n)); [unfold pods; case_bool_decide; by rewrite ?lookup_delete_ne, ?lookup_insert_ne|].
      symmetry. apply others_none. intros Hin'%(nominated_in npm _ n Hok). congruence. }
  split_and!; [|done|done]. apply npm_ok_lists.
  - intros n l' El'. destruct (decide (n = nnn)) as [->|Hne].
    + unfold pods in El'. case_bool_decide as E0; [by rewrite lookup_delete_eq in El'|]. rewrite lookup_insert_eq in El'.
      injection El' as <-. split_and!; [by intros Hnil; rewrite Hnil in E0|by apply others_NoDup|done].
    + apply H1. unfold pods in El'. by case_bool_decide; rewrite ?lookup_delete_ne, ?lookup_insert_ne in El'.
  - intros uid n. rewrite Hp, others_uids, <- (nominated_in npm uid n Hok), lookup_delete_Some. naive_solver.
Qed.

Definition nomination p (nodeName : string) : string := if bool_decide (nodeName = "") then NominatedNodeName p else nodeName.

Lemma npm_add_spec npm p nodeName :
  npm_ok npm →
  let nnn := nomination p nodeName in
  npm_ok (npm_add npm p nodeName) ∧
  (∀ uid, nominatedPodToNode (npm_add npm p nodeName) !! uid =
    if bool_decide (uid = pUID p) then (if bool_decide (nnn = "") then None else Some nnn) else nominatedPodToNode npm !! uid) ∧
  ∀ n, podsForNode (npm_add npm p nodeName) n =
    others (pUID p) (podsForNode npm n) ++ (if bool_decide (n = nnn ∧ nnn ≠ "") then [p] else []).
Proof.
  intros Hok nnn. destruct (npm_delete_spec npm p Hok) as (Hok1 & Ht & Hp). unfold npm_add. fold (nomination p nodeName). fold nnn.
  set (npm1 := npm_delete npm p) in *. destruct (decide (nnn = "")) as [En|En].
  { rewrite (bool_decide_true (nnn = "")) by done. split_and!; [done| |].
    - intros uid. rewrite Ht. case_bool_decide as E; [subst; by rewrite lookup_delete_eq|by rewrite lookup_delete_ne].
    - intros n. rewrite Hp, bool_decide_false by tauto. by rewrite app_nil_r. }
  rewrite !(bool_decide_false (nnn = "")) by done.
  assert (has_uid (pUID p) (default [] (nominatedPods npm1 !! nnn)) = false) as ->.
  { apply not_true_iff_false. rewrite has_uid_spec. fold (podsForNode npm1 nnn). rewrite Hp, others_uids. tauto. }
  fold (podsForNode npm1 nnn). rewrite Hp.
  assert (∀ n, podsForNode (mkNominated (<[nnn := others (pUID p) (podsForNode npm nnn) ++ [p]]> (nominatedPods npm1))
      (<[pUID p := nnn]> (nominatedPodToNode npm1))) n =
    others (pUID p) (podsForNode npm n) ++ (if bool_decide (n = nnn ∧ nnn ≠ "") then [p] else [])) as Hpods.
  { intros n. unfold podsForNode at 1. simpl. destruct (decide (n = nnn)) as [->|Hne].
    - by rewrite lookup_insert_eq, bool_decide_true.
    - rewrite lookup_insert_ne, bool_decide_false, app_nil_r by naive_solver. by rewrite <- Hp. }
  split_and!; [|intros uid; case_bool_decide as E; simpl; [subst; by rewrite lookup_insert_eq|rewrite lookup_insert_ne, Ht, lookup_delete_ne by done; done]|done].
  apply npm_ok_lists.
  - intros n l [[<- <-]|[Hne El]]%lookup_insert_Some; [|by apply (no_lists npm1 Hok1)]. split_and!; [by destruct (others _ _)| |done].
    rewrite fmap_app. apply NoDup_app. split_and!; [apply others_NoDup; by apply pods_of| |apply NoDup_singleton].
    intros u [_ Hu]%others_uids ->%list_elem_of_singleton. done.
  - intros uid n. pose proof (Hpods n) as Hn. unfold podsForNode at 1 in Hn. simpl in Hn. rewrite Hn, fmap_app, elem_of_app, others_uids.
    rewrite <- (nominated_in npm uid n Hok). destruct (decide (uid = pUID p)) as [->|Hne].
    + rewrite lookup_insert_eq. split; [intros [= <-]; right; rewrite bool_decide_true by done; by left|].
      intros [[_ ?]|Hin]; [done|]. case_bool_decide as E; [by destruct E as [-> _]|by apply not_elem_of_nil in Hin].
    + rewrite lookup_insert_ne, Ht, lookup_delete_ne by done. split; [by left|]. intros [[? _]|Hin]; [done|].
      case_bool_decide; [|by apply not_elem_of_nil in Hin]. by apply list_elem_of_singleton in Hin.
Qed.
End nominations.

(** ** The invariant *)

Section invariant.
Context {X : Type} `{EqDecision X}.
Implicit Types (p : Pod X) (q : PriorityQueue X).

(** The pods of the active queue by their keys. *)
Definition active q : gmap string (Pod X) := contents (activeQ q).
Definition is_active q p : Prop := active q !! podKey p = Some p.
Definition is_parked q p : Prop := unschedulableQ q !! GetPodFullName p = Some p.

(** The heap is in order, pods are under their keys, no pod is in both queues, nominations
    agree, and the last request to move was in a cycle that has begun. *)
Record queue_ok q : Prop := mk_queue_ok {
  qo_heap : valid activeQComp (activeQ q);
  qo_active : ∀ k p, active q !! k = Some p → pod_ok p = true ∧ k = podKey p;
  qo_parked : ∀ k p, unschedulableQ q !! k = Some p → pod_ok p = true ∧ k = GetPodFullName p;
  qo_apart : ∀ p, pod_ok p = true → active q !! podKey p = None ∨ unschedulableQ q !! GetPodFullName p = None;
  qo_nominated : npm_ok (nominated q);
  qo_cycle : -1 ≤ moveRequestCycle q ≤ schedulingCycle q;
}.

Lemma New_ok : queue_ok (NewPriorityQueue (X := X)).
Proof.
  constructor; [apply (NewHeap_valid activeQComp)|done|done|intros p _; by left| |simpl; lia].
  split; [done|]. intros uid n. simpl. split; [done|]. by intros (l & ? & _).
Qed.

Lemma ok_nominated q n : queue_ok q → npm_ok n → queue_ok (set_nominated q n).
Proof. intros [] ?. by constructor. Qed.

(** A pod comes to the active queue and leaves the other one. *)
Lemma ok_put q p h :
  queue_ok q → pod_ok p = true → valid activeQComp h → contents h = <[podKey p := p]> (active q) →
  queue_ok (set_unschedulable (set_active q h) (delete (GetPodFullName p) (unschedulableQ q))).
Proof.
  intros [H1 H2 H3 H4 H5 H6] Hp Hv Hc. constructor; try done; unfold active in *; simpl in *.
  - rewrite Hc. intros k p' [[<- <-]|[_ E]]%lookup_insert_Some; [done|by apply H2].
  - intros k p' [_ E]%lookup_delete_Some. by apply H3.
  - intros p' Hp'. rewrite Hc. destruct (decide (podKey p = podKey p')) as [E|E].
    + right. apply lookup_delete_None. left. by apply (keys_agree p p').
    + rewrite lookup_insert_ne by done. destruct (H4 p' Hp') as [?|?]; [by left|right]. apply lookup_delete_None. by right.
Qed.

(** A pod that is not active comes to the other queue, or is replaced there. *)
Lemma ok_park q p :
  queue_ok q → pod_ok p = true → active q !! podKey p = None → queue_ok (set_unschedulable q (addOrUpdate (unschedulableQ q) p)).
Proof.
  intros [H1 H2 H3 H4 H5 H6] Hp Hn. constructor; try done; unfold active, addOrUpdate in *; simpl in *.
  - intros k p' [[<- <-]|[_ E]]%lookup_insert_Some; [done|by apply H3].
  - intros p' Hp'. destruct (decide (podKey p = podKey p')) as [E|E]; [left; by rewrite <- E|].
    rewrite lookup_insert_ne by (by rewrite <- keys_agree). by apply H4.
Qed.

Lemma ok_unpark q k : queue_ok q → queue_ok (set_unschedulable q (delete k (unschedulableQ q))).
Proof.
  intros [H1 H2 H3 H4 H5 H6]. constructor; try done; simpl.
  - intros k' p [_ E]%lookup_delete_Some. by apply H3.
  - intros p Hp. destruct (H4 p Hp) as [?|?]; [by left|right]. apply lookup_delete_None. by right.
Qed.

Lemma ok_drop q k h :
  queue_ok q → valid activeQComp h → contents h = delete k (active q) → queue_ok (set_active q h).
Proof.
  intros [H1 H2 H3 H4 H5 H6] Hv Hc. constructor; try done; unfold active in *; simpl in *; rewrite Hc.
  - intros k' p [_ E]%lookup_delete_Some. by apply H2.
  - intros p Hp. destruct (H4 p Hp) as [?|?]; [left|by right]. apply lookup_delete_None. by right.
Qed.

Lemma ok_cycles q s m : queue_ok q → -1 ≤ m ≤ s → queue_ok (set_cycles q s m).
Proof. intros [] ?. by constructor. Qed.

(** ** The operations on the active queue *)

Lemma add_active_spec q p :
  queue_ok q → ∃ h, add_active q p = (None, set_active q h) ∧ valid activeQComp h ∧ contents h = <[podKey p := p]> (active q).
Proof.
  intros Hq. destruct (hAdd_spec podKeyFunc activeQComp (activeQ q) p (podKey p) (qo_heap q Hq) (podKeyFunc_key p)) as (h & E & Hv & Hc).
  exists h. unfold add_active. by rewrite E.
Qed.

Lemma in_active_spec q p : in_active q p = bool_decide (is_Some (active q !! podKey p)).
Proof.
  unfold in_active. rewrite (hGet_spec podKeyFunc (activeQ q) p (podKey p)) by apply podKeyFunc_key. unfold active.
  destruct (contents (activeQ q) !! podKey p); [by rewrite bool_decide_true|]. symmetry. apply bool_decide_false. by intros [? ?].
Qed.

(** What [AddIfNotPresent] and others do with a pod that is in no queue. *)
Lemma add_and_nominate_spec q p :
  queue_ok q → pod_ok p = true → unschedulableQ q !! GetPodFullName p = None →
  ∃ q', add_and_nominate q p = (None, q') ∧ queue_ok q' ∧ active q' = <[podKey p := p]> (active q) ∧
    unschedulableQ q' = unschedulableQ q ∧ nominated q' = npm_add (nominated q) p "" ∧
    schedulingCycle q' = schedulingCycle q ∧ moveRequestCycle q' = moveRequestCycle q.
Proof.
  intros Hq Hp Hu. unfold add_and_nominate. destruct (add_active_spec q p Hq) as (h & -> & Hv & Hc). eexists. split; [done|].
  split_and!; try done. pose proof (ok_put q p h Hq Hp Hv Hc) as H. rewrite delete_id in H by done.
  apply ok_nominated; [destruct q; exact H|]. apply npm_add_spec, Hq.
Qed.

Lemma queue_Add_spec q p :
  queue_ok q → pod_ok p = true →
  ∃ q', Add q p = (None, q') ∧ queue_ok q' ∧ active q' = <[podKey p := p]> (active q) ∧
    unschedulableQ q' = delete (GetPodFullName p) (unschedulableQ q) ∧ nominated q' = npm_add (nominated q) p "" ∧
    schedulingCycle q' = schedulingCycle q ∧ moveRequestCycle q' = moveRequestCycle q.
Proof.
  intros Hq Hp. unfold Add. destruct (add_active_spec q p Hq) as (h & -> & Hv & Hc). pose proof (ok_put q p h Hq Hp Hv Hc) as H.
  unfold u_get, u_delete. simpl. destruct (unschedulableQ q !! GetPodFullName p) as [p'|] eqn:E; eexists; (split; [done|]); split_and!; try done.
  - apply ok_nominated; [done|]. apply npm_add_spec, Hq.
  - rewrite delete_id in H by done. apply ok_nominated; [by destruct q|]. apply npm_add_spec, Hq.
  - simpl. by rewrite delete_id.
Qed.

Lemma Update_spec q old p :
  queue_ok q → pod_ok p = true →
  ∃ q', Update q old p = (None, q') ∧ queue_ok q' ∧ schedulingCycle q' = schedulingCycle q ∧ moveRequestCycle q' = moveRequestCycle q ∧
  match active q !! podKey p, unschedulableQ q !! GetPodFullName p with
  | None, Some _ =>
      if isPodUpdated old p then active q' = <[podKey p := p]> (active q) ∧ unschedulableQ q' = delete (GetPodFullName p) (unschedulableQ q)
      else active q' = active q ∧ unschedulableQ q' = <[GetPodFullName p := p]> (unschedulableQ q)
  | _, _ => active q' = <[podKey p := p]> (active q) ∧ unschedulableQ q' = unschedulableQ q
  end.
Proof.
  intros Hq Hp. unfold Update. rewrite in_active_spec.
  assert (npm_ok (npm_update (nominated q) old p)) as Hn by (apply npm_add_spec, npm_delete_spec, Hq).
  destruct (active q !! podKey p) as [p0|] eqn:Ea.
  - rewrite bool_decide_true by done. unfold hUpdate. simpl.
    destruct (hAdd_spec podKeyFunc activeQComp (activeQ q) p (podKey p) (qo_heap q Hq) (podKeyFunc_key p)) as (h & -> & Hv & Hc).
    simpl. eexists. split; [done|]. assert (unschedulableQ q !! GetPodFullName p = None) as Hu.
    { destruct (qo_apart q Hq p Hp) as [?|?]; [congruence|done]. }
    split_and!; try done. pose proof (ok_put q p h Hq Hp Hv Hc) as H. rewrite delete_id in H by done.
    apply (ok_nominated _ _ H Hn).
  - rewrite bool_decide_false by (by intros [? ?]). unfold u_get. destruct (unschedulableQ q !! GetPodFullName p) as [us|] eqn:Eu.
    + destruct (qo_parked q Hq _ _ Eu) as [_ Hk]. destruct (isPodUpdated old p).
      * unfold add_active. simpl.
        destruct (hAdd_spec podKeyFunc activeQComp (activeQ q) p (podKey p) (qo_heap q Hq) (podKeyFunc_key p)) as (h & -> & Hv & Hc).
        simpl. eexists. split; [done|]. unfold u_delete. rewrite <- Hk. split_and!; try done.
        apply (ok_nominated _ _ (ok_put q p h Hq Hp Hv Hc) Hn).
      * eexists. split; [done|]. split_and!; try done. apply (ok_park (set_nominated q _)); [by apply ok_nominated|done|done].
    + destruct (add_and_nominate_spec q p Hq Hp Eu) as (q' & -> & H1 & H2 & H3 & _ & H4 & H5). exists q'. done.
Qed.

Lemma Delete_spec q p :
  queue_ok q → pod_ok p = true →
  queue_ok (Delete q p) ∧ active (Delete q p) = delete (podKey p) (active q) ∧
  unschedulableQ (Delete q p) = delete (GetPodFullName p) (unschedulableQ q) ∧
  schedulingCycle (Delete q p) = schedulingCycle q ∧ moveRequestCycle (Delete q p) = moveRequestCycle q.
Proof.
  intros Hq Hp. unfold Delete. simpl.
  assert (npm_ok (npm_delete (nominated q) p)) as Hn by apply npm_delete_spec, Hq.
  pose proof (hDelete_spec podKeyFunc activeQComp (activeQ q) p (podKey p) (qo_heap q Hq) (podKeyFunc_key p)) as H. fold (active q) in H.
  destruct (active q !! podKey p) as [p0|] eqn:Ea.
  - destruct H as (h & -> & Hv & Hc). split_and!; [|done| |done|done].
    + apply (ok_drop (set_nominated q _) (podKey p)); [by apply ok_nominated|done|done].
    + simpl. rewrite delete_id; [done|]. destruct (qo_apart q Hq p Hp) as [?|?]; [congruence|done].
  - rewrite H. split_and!; [|by rewrite delete_id|done|done|done].
    pose proof (ok_unpark (set_nominated q (npm_delete (nominated q) p)) (GetPodFullName p) (ok_nominated _ _ Hq Hn)) as H'. by destruct q.
Qed.

(** [Pop] on every branch. *)
Lemma queue_Pop_spec q :
  queue_ok q →
  match Pop q with
  | PopWaits => active q = ∅ ∧ pqClosed q = false
  | PopFails e q' => active q = ∅ ∧ pqClosed q = true ∧ e = ErrQueueClosed ∧ q' = q
  | PopGives p q' =>
      is_active q p ∧ pod_ok p = true ∧ (∀ p', is_active q p' → activeQComp p' p = false) ∧ queue_ok q' ∧
      active q' = delete (podKey p) (active q) ∧ unschedulableQ q' = unschedulableQ q ∧ nominated q' = nominated q ∧
      schedulingCycle q' = schedulingCycle q + 1 ∧ moveRequestCycle q' = moveRequestCycle q
  end.
Proof.
  intros Hq. unfold Pop. pose proof (heap_empty activeQComp (activeQ q) (qo_heap q Hq)) as He. fold (active q) in He. case_bool_decide as El.
  - destruct (pqClosed q) eqn:Ec; [split_and!; [by apply He|done|done|done]|split; [by apply He|done]].
  - destruct (heap_Pop_spec activeQComp (activeQ q) (qo_heap q Hq) El) as (k & p & h & E & Hk & Hmin & Hv & Hc).
    unfold hPop. rewrite E. simpl. destruct (qo_active q Hq k p Hk) as [Hp ->]. split_and!; try done.
    + intros p' Hp'. by apply (Hmin (podKey p')).
    + apply (ok_cycles (set_active q h)); [by apply (ok_drop q (podKey p))|]. pose proof (qo_cycle q Hq). simpl. lia.
Qed.

(** The errors and the place of a pod that could not be scheduled. *)
Lemma AddUnschedulable_spec q p c :
  queue_ok q → pod_ok p = true →
  match unschedulableQ q !! GetPodFullName p, active q !! podKey p with
  | Some _, _ => AddUnschedulableIfNotPresent q p c = (Some ErrInUnschedulableQ, q)
  | None, Some _ => AddUnschedulableIfNotPresent q p c = (Some ErrInActiveQ, q)
  | None, None => ∃ q', AddUnschedulableIfNotPresent q p c = (None, q') ∧ queue_ok q' ∧
      schedulingCycle q' = schedulingCycle q ∧ moveRequestCycle q' = moveRequestCycle q ∧
      if (moveRequestCycle q <? c) && isPodUnschedulable p
      then active q' = active q ∧ unschedulableQ q' = <[GetPodFullName p := p]> (unschedulableQ q)
      else active q' = <[podKey p := p]> (active q) ∧ unschedulableQ q' = unschedulableQ q
  end.
Proof.
  intros Hq Hp. unfold AddUnschedulableIfNotPresent, u_get. destruct (unschedulableQ q !! GetPodFullName p) as [p0|] eqn:Eu; [done|].
  rewrite in_active_spec. destruct (active q !! podKey p) as [p0|] eqn:Ea; [by rewrite bool_decide_true|].
  rewrite bool_decide_false by (by intros [? ?]). destruct (_ && _).
  - eexists. split; [done|]. split_and!; try done. apply ok_nominated; [by apply ok_park|apply npm_add_spec, Hq].
  - destruct (add_and_nominate_spec q p Hq Hp Eu) as (q' & -> & H1 & H2 & H3 & _ & H4 & H5). by exists q'.
Qed.

Lemma AddIfNotPresent_spec q p :
  queue_ok q → pod_ok p = true →
  ∃ q', AddIfNotPresent q p = (None, q') ∧ queue_ok q' ∧
    schedulingCycle q' = schedulingCycle q ∧ moveRequestCycle q' = moveRequestCycle q ∧ unschedulableQ q' = unschedulableQ q ∧
    match unschedulableQ q !! GetPodFullName p, active q !! podKey p with
    | None, None => active q' = <[podKey p := p]> (active q)
    | _, _ => q' = q
    end.
Proof.
  intros Hq Hp. unfold AddIfNotPresent, u_get. destruct (unschedulableQ q !! GetPodFullName p) as [p0|] eqn:Eu; [by exists q|].
  rewrite in_active_spec. destruct (active q !! podKey p) as [p0|] eqn:Ea; [rewrite bool_decide_true by done; by exists q|].
  rewrite bool_decide_false by (by intros [? ?]).
  destruct (add_and_nominate_spec q p Hq Hp Eu) as (q' & -> & H1 & H2 & H3 & _ & H4 & H5). by exists q'.
Qed.

(** ** Moves *)

(** Pods that go to the active queue, one after the other. *)
Definition ins_all (l : list (Pod X)) (m : gmap string (Pod X)) : gmap string (Pod X) :=
  fold_left (λ m p, <[podKey p := p]> m) l m.

Lemma ins_all_out l m k : k ∉ podKey <$> l → ins_all l m !! k = m !! k.
Proof.
  revert m. induction l as [|p l IH]; intros m Hk; [done|]. rewrite fmap_cons, not_elem_of_cons in Hk. destruct Hk as [H1 H2].
  cbn [ins_all fold_left]. fold (ins_all l (<[podKey p := p]> m)). by rewrite IH, lookup_insert_ne.
Qed.

Lemma ins_all_in l m p : NoDup (podKey <$> l) → p ∈ l → ins_all l m !! podKey p = Some p.
Proof.
  revert m. induction l as [|p' l IH]; intros m Hnd Hp; [by apply not_elem_of_nil in Hp|]. rewrite fmap_cons in Hnd.
  apply NoDup_cons in Hnd as [Hn Hnd]. cbn [ins_all fold_left]. fold (ins_all l (<[podKey p' := p']> m)).
  apply elem_of_cons in Hp as [->|Hp]; [rewrite ins_all_out by done; by rewrite lookup_insert_eq|by apply IH].
Qed.

Lemma add_all_spec l h :
  valid activeQComp h →
  let h' := fold_left (λ h pod, (hAdd podKeyFunc activeQComp h pod).2) l h in
  valid activeQComp h' ∧ contents h' = ins_all l (contents h).
Proof.
  revert h. induction l as [|p l IH]; intros h Hv; [done|]. cbn [fold_left].
  destruct (hAdd_spec podKeyFunc activeQComp h p (podKey p) Hv (podKeyFunc_key p)) as (h' & -> & Hv' & Hc'). simpl.
  destruct (IH h' Hv') as [H1 H2]. split; [done|]. rewrite H2, Hc'. done.
Qed.

Lemma move_one_spec q p :
  queue_ok q → pod_ok p = true →
  queue_ok (move_one q p) ∧ active (move_one q p) = <[podKey p := p]> (active q) ∧
  unschedulableQ (move_one q p) = delete (GetPodFullName p) (unschedulableQ q) ∧
  schedulingCycle (move_one q p) = schedulingCycle q ∧ moveRequestCycle (move_one q p) = moveRequestCycle q.
Proof.
  intros Hq Hp. unfold move_one. destruct (add_active_spec q p Hq) as (h & -> & Hv & Hc). unfold u_delete.
  split_and!; try done. by apply (ok_put q p h).
Qed.

Lemma move_all_spec l q :
  queue_ok q → Forall (λ p, pod_ok p = true) l →
  let q' := fold_left move_one l q in
  queue_ok q' ∧ active q' = ins_all l (active q) ∧ (∀ k, unschedulableQ q' !! k = if decide (k ∈ GetPodFullName <$> l) then None else unschedulableQ q !! k) ∧
  schedulingCycle q' = schedulingCycle q ∧ moveRequestCycle q' = moveRequestCycle q.
Proof.
  revert q. induction l as [|p l IH]; intros q Hq Hl; cbn [fold_left].
  { by split_and!. }
  apply Forall_cons in Hl as [Hp Hl]. destruct (move_one_spec q p Hq Hp) as (H1 & H2 & H3 & H4 & H5).
  destruct (IH _ H1 Hl) as (I1 & I2 & I3 & I4 & I5). split_and!; [done|by rewrite I2, H2| |congruence|congruence].
  intros k. rewrite I3, H3, fmap_cons. destruct (decide (k = GetPodFullName p)) as [->|Hne].
  - rewrite (decide_True (P := _ ∈ _ :: _)) by (by left). case_decide; [done|]. apply lookup_delete_eq.
  - rewrite lookup_delete_ne by done. repeat case_decide; try done; exfalso; set_solver.
Qed.

Context (order : gmap string (Pod X) → list (Pod X)) (order_perm : ∀ m, order m ≡ₚ (map_to_list m).*2).

Lemma parked_in_order q p : queue_ok q → p ∈ order (unschedulableQ q) ↔ is_parked q p.
Proof using order_perm.
  intros Hq. rewrite order_perm, list_elem_of_fmap. unfold is_parked. split.
  - intros ([k p'] & -> & E%elem_of_map_to_list). simpl. destruct (qo_parked q Hq k p' E) as [_ ->]. done.
  - intros E. exists (GetPodFullName p, p). split; [done|]. by apply elem_of_map_to_list.
Qed.

Lemma order_ok q : queue_ok q → Forall (λ p, pod_ok p = true) (order (unschedulableQ q)).
Proof using order_perm. intros Hq. apply Forall_forall. intros p Hp%(parked_in_order q p Hq). by apply (qo_parked q Hq) in Hp as [? _]. Qed.

Lemma order_keys q : queue_ok q → NoDup (podKey <$> order (unschedulableQ q)).
Proof using order_perm.
  intros Hq. rewrite order_perm, <- list_fmap_compose. apply NoDup_fmap_2_strong; [|apply NoDup_map_to_list].
  intros [k1 p1] [k2 p2] H1%elem_of_map_to_list H2%elem_of_map_to_list E. simpl in E.
  destruct (qo_parked q Hq _ _ H1) as [O1 ->], (qo_parked q Hq _ _ H2) as [O2 ->]. apply keys_agree in E; [|done|done].
  rewrite E in *. congruence.
Qed.

(** Every parked pod becomes active; what was active stays. *)
Lemma MoveAll_spec q :
  queue_ok q →
  let q' := MoveAllToActiveQueue order q in
  queue_ok q' ∧ unschedulableQ q' = ∅ ∧ (∀ p, is_parked q p → is_active q' p) ∧ (∀ p, is_active q p → is_active q' p) ∧
  moveRequestCycle q' = schedulingCycle q ∧ schedulingCycle q' = schedulingCycle q.
Proof using order_perm.
  intros Hq q'. destruct (add_all_spec (order (unschedulableQ q)) (activeQ q) (qo_heap q Hq)) as [Hv Hc].
  pose proof (order_ok q Hq) as Hok. rewrite Forall_forall in Hok. fold (active q) in Hc.
  assert (∀ k p, active q' !! k = Some p → pod_ok p = true ∧ k = podKey p) as Hact.
  { intros k p E. unfold q', active in E. simpl in E. rewrite Hc in E. destruct (decide (k ∈ podKey <$> order (unschedulableQ q))) as [Hin|Hin].
    - apply list_elem_of_fmap in Hin as (p' & -> & Hin). rewrite ins_all_in in E by (done || by apply order_keys).
      injection E as <-. split; [by apply Hok|done].
    - rewrite ins_all_out in E by done. by apply (qo_active q Hq). }
  split_and!; [constructor|..]; try done.
  - intros p _. by right.
  - apply Hq.
  - pose proof (qo_cycle q Hq). simpl. lia.
  - intros p Hp. unfold is_active, active. simpl. rewrite Hc. apply ins_all_in; [by apply order_keys|by apply parked_in_order].
  - intros p Hp. unfold is_active, active. simpl. rewrite Hc. rewrite ins_all_out; [done|].
    intros (p' & E & Hp')%list_elem_of_fmap. pose proof (Hok _ Hp') as O'. destruct (qo_active q Hq _ _ Hp) as [O _].
    apply (parked_in_order q p' Hq) in Hp'. apply (keys_agree p p' O O') in E as E'.
    destruct (qo_apart q Hq p O) as [H|H]; [unfold is_active in Hp; congruence|]. unfold is_parked in Hp'. rewrite E' in H. congruence.
Qed.

Lemma movePods_spec q l :
  queue_ok q → l ⊆ order (unschedulableQ q) →
  let q' := movePodsToActiveQueue q l in
  queue_ok q' ∧ moveRequestCycle q' = schedulingCycle q ∧ schedulingCycle q' = schedulingCycle q ∧
  ∀ k, unschedulableQ q' !! k = if decide (k ∈ GetPodFullName <$> l) then None else unschedulableQ q !! k.
Proof using order_perm.
  intros Hq Hl. assert (Forall (λ p, pod_ok p = true) l) as Hok.
  { pose proof (order_ok q Hq) as H. rewrite Forall_forall in *. auto. }
  destruct (move_all_spec l q Hq Hok) as (H1 & H2 & H3 & H4 & H5). unfold movePodsToActiveQueue, request_move. simpl.
  split_and!; [|done|done|done]. apply ok_cycles; [done|]. rewrite H4. pose proof (qo_cycle q Hq). lia.
Qed.
End invariant.

(** ** Sequences of calls *)

Section calls.
Context {X : Type} `{EqDecision X} (order : gmap string (Pod X) → list (Pod X)) `{SortByKey}.
Implicit Types (p : Pod X) (q : PriorityQueue X).

Inductive call : Type :=
  | CAdd p
  | CAddIfNotPresent p
  | CAddUnschedulable p (cycle : Z)
  | CPop
  | CUpdate (old : Pod X) p
  | CDelete p
  | CMoveAll
  | CAssignedAdded p
  | CAssignedUpdated p
  | CFlush (now : Z)
  | CNominate p (node : string)
  | CDeleteNominated p
  | CClose.

(** The queue after a call, [None] when the call panics; a [Pop] that waits changes
    nothing. *)
Definition step q (c : call) : option (PriorityQueue X) :=
  match c with
  | CAdd p => Some (Add q p).2
  | CAddIfNotPresent p => Some (AddIfNotPresent q p).2
  | CAddUnschedulable p cycle => Some (AddUnschedulableIfNotPresent q p cycle).2
  | CPop => Some match Pop q with PopWaits => q | PopFails _ q => q | PopGives _ q => q end
  | CUpdate old p => Some (Update q old p).2
  | CDelete p => Some (Delete q p)
  | CMoveAll => Some (MoveAllToActiveQueue order q)
  | CAssignedAdded p => AssignedPodAdded order q p
  | CAssignedUpdated p => AssignedPodUpdated order q p
  | CFlush now => Some (flushUnschedulableQLeftover order q now)
  | CNominate p n => Some (UpdateNominatedPodForNode q p n)
  | CDeleteNominated p => Some (DeleteNominatedPodIfExists q p)
  | CClose => Some (Close q)
  end.

Definition call_ok (c : call) : bool :=
  match c with
  | CAdd p | CAddIfNotPresent p | CAddUnschedulable p _ | CUpdate _ p | CDelete p => pod_ok p
  | _ => true
  end.

Definition run (cs : list call) q : option (PriorityQueue X) := foldl (λ o c, q ← o; step q c) (Some q) cs.

Context (order_perm : ∀ m, order m ≡ₚ (map_to_list m).*2).

Lemma matching_sub p ups l : matching_pods p ups = Some l → l ⊆ ups.
Proof using Type.
  clear order_perm order. revert l. induction ups as [|up ups IH]; intros l; simpl; [by intros [= <-]|].
  destruct (match RequiredTerms up with Some _ => _ | None => _ end) as [b|]; [|done]. destruct (matching_pods p ups) as [l'|]; [|done].
  simpl. intros [= <-]. specialize (IH l' eq_refl). destruct b; set_solver.
Qed.

(** A call keeps the invariant, and the cycles only grow. *)
Lemma call_keeps_ok q c q' :
  queue_ok q → call_ok c = true → step q c = Some q' →
  queue_ok q' ∧ schedulingCycle q ≤ schedulingCycle q' ∧ moveRequestCycle q ≤ moveRequestCycle q'.
Proof using order_perm.
  intros Hq Hc. pose proof (qo_cycle q Hq) as Hcy.
  assert (∀ p o, (l ← getUnschedulablePodsWithMatchingAffinityTerm order q p; Some (movePodsToActiveQueue q l)) = Some o →
    queue_ok o ∧ schedulingCycle q ≤ schedulingCycle o ∧ moveRequestCycle q ≤ moveRequestCycle o) as Hmove.
  { intros p o. unfold getUnschedulablePodsWithMatchingAffinityTerm. destruct (matching_pods p _) as [l|] eqn:E; [|done]. simpl. intros [= <-].
    destruct (movePods_spec order order_perm q l Hq (matching_sub p _ l E)) as (H1 & H2 & H3 & _). split; [done|]. lia. }
  destruct c as [p|p|p c| |old p|p| |p|p|now|p n|p|]; simpl in *; try (apply Hmove); intros [= <-].
  - destruct (queue_Add_spec q p Hq Hc) as (q' & -> & ? & _ & _ & _ & ? & ?). simpl. split; [done|lia].
  - destruct (AddIfNotPresent_spec q p Hq Hc) as (q' & -> & ? & ? & ? & _). simpl. split; [done|lia].
  - pose proof (AddUnschedulable_spec q p c Hq Hc) as Hs. destruct (unschedulableQ q !! GetPodFullName p); [rewrite Hs; simpl; split; [done|lia]|].
    destruct (active q !! podKey p); [rewrite Hs; simpl; split; [done|lia]|]. destruct Hs as (q' & -> & ? & ? & ? & _). simpl. split; [done|lia].
  - pose proof (queue_Pop_spec q Hq) as Hs. destruct (Pop q) as [|e q'|p q']; [split; [done|lia]| |].
    + destruct Hs as (_ & _ & _ & ->). split; [done|lia].
    + destruct Hs as (_ & _ & _ & ? & _ & _ & _ & ? & ?). split; [done|lia].
  - destruct (Update_spec q old p Hq Hc) as (q' & -> & ? & ? & ? & _). simpl. split; [done|lia].
  - destruct (Delete_spec q p Hq Hc) as (? & _ & _ & ? & ?). split; [done|lia].
  - destruct (MoveAll_spec order order_perm q Hq) as (? & _ & _ & _ & ? & ?). split; [done|lia].
  - unfold flushUnschedulableQLeftover. set (l := filter _ _). destruct (0 <? length l)%nat; [|split; [done|lia]].
    destruct (movePods_spec order order_perm q l Hq) as (H1 & H2 & H3 & _); [by intros p [_ ?]%list_elem_of_filter|]. split; [done|lia].
  - split; [apply ok_nominated; [done|apply npm_add_spec, Hq]|simpl; lia].
  - split; [apply ok_nominated; [done|apply npm_delete_spec, Hq]|simpl; lia].
  - split; [by destruct Hq|simpl; lia].
Qed.

Lemma run_none cs : foldl (λ o c, q ← o; step q c) None cs = None.
Proof using Type. clear order_perm. by induction cs. Qed.

Lemma run_ok cs q q' :
  queue_ok q → forallb call_ok cs = true → run cs q = Some q' →
  queue_ok q' ∧ schedulingCycle q ≤ schedulingCycle q' ∧ moveRequestCycle q ≤ moveRequestCycle q'.
Proof using order_perm.
  unfold run. revert q. induction cs as [|c cs IH]; intros q Hq Hc; simpl in *; [intros [= <-]; split; [done|lia]|].
  apply andb_true_iff in Hc as [Hc Hcs]. destruct (step q c) as [q1|] eqn:E; [|by rewrite run_none].
  destruct (call_keeps_ok q c q1 Hq Hc E) as (H1 & H2 & H3). intros E'. destruct (IH q1 H1 Hcs E') as (I1 & I2 & I3). split; [done|lia].
Qed.
End calls.
Arguments call : clear implicits.

(** ** The properties *)

(** C35: The scheduling queue keeps its pods. After any sequence of calls, in whatever order
    maps are enumerated: a pod is in the active or in the unschedulable queue or in none,
    never in both; a pod is listed for exactly the node it is nominated for, once; and
    [Pop] waits only when nothing is active, fails only when besides the queue is closed,
    and otherwise takes out an active pod such that no active pod has a higher priority, or
    the same and an earlier timestamp, leaves everything else alone and starts the next
    scheduling cycle. *)
Theorem scheduling_queue_correct {X} `{EqDecision X} (order : gmap string (Pod X) → list (Pod X)) `{SortByKey} cs q :
  (∀ m, order m ≡ₚ (map_to_list m).*2) → forallb call_ok cs = true → run order cs NewPriorityQueue = Some q →
  (∀ p : Pod X, pod_ok p = true → active q !! podKey p = None ∨ unschedulableQ q !! GetPodFullName p = None) ∧
  (∀ uid n, nominatedPodToNode (nominated q) !! uid = Some n ↔ uid ∈ pUID <$> NominatedPodsForNode q n) ∧
  (∀ n, NoDup (pUID <$> NominatedPodsForNode q n)) ∧
  match Pop q with
  | PopWaits => active q = ∅ ∧ pqClosed q = false
  | PopFails e q' => active q = ∅ ∧ pqClosed q = true ∧ e = ErrQueueClosed ∧ q' = q
  | PopGives p q' =>
      is_active q p ∧
      (∀ p', is_active q p' → GetPodPriority p' < GetPodPriority p ∨
        GetPodPriority p' = GetPodPriority p ∧ podTimestamp p ≤ podTimestamp p') ∧
      active q' = delete (podKey p) (active q) ∧ unschedulableQ q' = unschedulableQ q ∧ nominated q' = nominated q ∧
      schedulingCycle q' = schedulingCycle q + 1 ∧ moveRequestCycle q' = moveRequestCycle q
  end.
Proof.
  intros Hord Hcs Hrun. destruct (run_ok order Hord cs _ q New_ok Hcs Hrun) as (Hq & _ & _).
  split_and!; [by apply (qo_apart q Hq)|intros uid n; by apply nominated_in, qo_nominated|intros n; by apply pods_of, qo_nominated|].
  pose proof (queue_Pop_spec q Hq) as Hp. destruct (Pop q) as [|e q'|p q']; [done|done|].
  destruct Hp as (H1 & _ & H2 & _ & H3 & H4 & H5 & H6 & H7). split_and!; try done. intros p' Hp'.
  specialize (H2 p' Hp'). unfold activeQComp in H2. apply orb_false_iff in H2 as [Ha%Z.ltb_ge Hb].
  destruct (Z.eqb_spec (GetPodPriority p') (GetPodPriority p)) as [E|E]; [right; split; [done|]|left; lia].
  simpl in Hb. by apply Z.ltb_ge in Hb.
Qed.

(** A request to move pods back to the active queue. *)
Definition is_move {X} (c : call X) : bool :=
  match c with CMoveAll | CAssignedAdded _ | CAssignedUpdated _ => true | _ => false end.

(** C36: A request to move pods is not lost on the pod that is just being tried. When pods
    are to be moved back while, or after, a pod of scheduling cycle [cycle] is tried, then
    whatever calls come between, the pod goes to the active queue when it is reported as
    unschedulable, not to the unschedulable one, where it would miss the event that may
    have made room for it. A request to move all pods makes every parked pod active at
    once. *)
Theorem move_not_lost {X} `{EqDecision X} (order : gmap string (Pod X) → list (Pod X)) `{SortByKey} before move after q1 q2 q3 (p : Pod X) cycle :
  (∀ m, order m ≡ₚ (map_to_list m).*2) → forallb call_ok (before ++ after) = true → is_move move = true → pod_ok p = true →
  run order before NewPriorityQueue = Some q1 → step order q1 move = Some q2 → run order after q2 = Some q3 →
  cycle ≤ SchedulingCycle q1 → active q3 !! podKey p = None → unschedulableQ q3 !! GetPodFullName p = None →
  (∃ q4, AddUnschedulableIfNotPresent q3 p cycle = (None, q4) ∧ is_active q4 p ∧ unschedulableQ q4 = unschedulableQ q3) ∧
  (move = CMoveAll → unschedulableQ q2 = ∅ ∧ ∀ p', is_parked q1 p' → is_active q2 p').
Proof.
  intros Hord Hcs Hm Hp Hr1 Hs Hr3 Hcy Ha Hu. rewrite forallb_app, andb_true_iff in Hcs. destruct Hcs as [Hb Hf].
  destruct (run_ok order Hord before _ q1 New_ok Hb Hr1) as (Hq1 & _ & _).
  assert (queue_ok q2 ∧ moveRequestCycle q2 = schedulingCycle q1) as [Hq2 Hm2].
  { assert (call_ok move = true) as Hmo by by destruct move. split; [by destruct (call_keeps_ok order Hord q1 move q2 Hq1 Hmo Hs)|].
    destruct move; try done; simpl in Hs; unfold AssignedPodAdded, AssignedPodUpdated, getUnschedulablePodsWithMatchingAffinityTerm in Hs.
    - injection Hs as <-. by destruct (MoveAll_spec order Hord q1 Hq1) as (_ & _ & _ & _ & ? & _).
    - destruct (matching_pods _ _) as [l|] eqn:E; [|done]. injection Hs as <-.
      by destruct (movePods_spec order Hord q1 l Hq1 (matching_sub _ _ l E)) as (_ & ? & _).
    - destruct (matching_pods _ _) as [l|] eqn:E; [|done]. injection Hs as <-.
      by destruct (movePods_spec order Hord q1 l Hq1 (matching_sub _ _ l E)) as (_ & ? & _). }
  destruct (run_ok order Hord after q2 q3 Hq2 Hf Hr3) as (Hq3 & _ & Hmono). split.
  - pose proof (AddUnschedulable_spec q3 p cycle Hq3 Hp) as Hadd. rewrite Ha, Hu in Hadd. destruct Hadd as (q4 & E & _ & _ & _ & Hadd).
    exists q4. unfold SchedulingCycle in Hcy. rewrite (proj2 (Z.ltb_ge (moveRequestCycle q3) cycle)) in Hadd by lia. simpl in Hadd.
    destruct Hadd as [H1 H2]. split_and!; [done| |done]. unfold is_active. rewrite H1. by rewrite lookup_insert_eq.
  - intros ->. simpl in Hs. injection Hs as <-. by destruct (MoveAll_spec order Hord q1 Hq1) as (_ & ? & ? & _).
Qed.

(** The selectors of the affinity terms of a pod can be made. *)
Definition terms_ok {X} `{SortByKey} (p : Pod X) : bool :=
  forallb (λ t, match LabelSelectorAsSelector (TermSelector t) with Ok _ => true | Err _ => false end) (default [] (RequiredTerms p)).

Lemma matching_total {X} `{SortByKey} (p : Pod X) ups : forallb terms_ok ups = true → is_Some (matching_pods p ups).
Proof.
  induction ups as [|up ups IH]; intros Hok; simpl in *; [eauto|]. apply andb_true_iff in Hok as [Hu Hok]. destruct (IH Hok) as [l ->].
  assert (is_Some (match RequiredTerms up with Some terms => any_term_matches up p terms | None => Some false end)) as [b ->]; [|simpl; eauto].
  unfold terms_ok in Hu. destruct (RequiredTerms up) as [terms|]; [|eauto]. simpl in Hu.
  induction terms as [|t terms IHt]; simpl in *; [eauto|]. apply andb_true_iff in Hu as [Ht Hu].
  unfold PodMatchesTermsNamespaceAndSelector. destruct (LabelSelectorAsSelector (TermSelector t)) as [s|]; [|done].
  destruct (negb _); [by apply IHt|]. destruct (Matches s (pLabels p)); [eauto|by apply IHt].
Qed.

(** When the operations of the scheduling queue fail. After any sequence of calls, adding
    and updating a pod never fails. Reporting a pod as unschedulable fails exactly when it
    is in one of the queues, with the error that names the queue, and then changes nothing.
    [Pop] fails exactly when the queue is closed and nothing is active. An assigned pod is
    handled whenever the selectors of the parked pods' affinity terms can be made. *)
Theorem scheduling_queue_errors {X} `{EqDecision X} (order : gmap string (Pod X) → list (Pod X)) `{SortByKey} cs q (old p : Pod X) cycle :
  (∀ m, order m ≡ₚ (map_to_list m).*2) → forallb call_ok cs = true → run order cs NewPriorityQueue = Some q → pod_ok p = true →
  (Add q p).1 = None ∧ (AddIfNotPresent q p).1 = None ∧ (Update q old p).1 = None ∧
  (∀ e, (AddUnschedulableIfNotPresent q p cycle).1 = Some e ↔
    is_Some (unschedulableQ q !! GetPodFullName p) ∧ e = ErrInUnschedulableQ ∨ is_Some (active q !! podKey p) ∧ e = ErrInActiveQ) ∧
  ((AddUnschedulableIfNotPresent q p cycle).1 ≠ None → (AddUnschedulableIfNotPresent q p cycle).2 = q) ∧
  (∀ e q', Pop q = PopFails e q' ↔ active q = ∅ ∧ pqClosed q = true ∧ e = ErrQueueClosed ∧ q' = q) ∧
  (forallb terms_ok (order (unschedulableQ q)) = true → is_Some (AssignedPodAdded order q p) ∧ is_Some (AssignedPodUpdated order q p)).
Proof.
  intros Hord Hcs Hrun Hp. destruct (run_ok order Hord cs _ q New_ok Hcs Hrun) as (Hq & _ & _).
  destruct (queue_Add_spec q p Hq Hp) as (qa & -> & _). destruct (AddIfNotPresent_spec q p Hq Hp) as (qb & -> & _).
  destruct (Update_spec q old p Hq Hp) as (qc & -> & _). split_and!; try done.
  - pose proof (AddUnschedulable_spec q p cycle Hq Hp) as H1. pose proof (qo_apart q Hq p Hp) as Hap. intros e.
    destruct (unschedulableQ q !! GetPodFullName p) as [pu|], (active q !! podKey p) as [pa|];
      [by destruct Hap|rewrite H1; simpl; split; [intros [= <-]; left; eauto|by intros [[_ ->]|[[? ?] _]]]
       |rewrite H1; simpl; split; [intros [= <-]; right; eauto|by intros [[[? ?] _]|[_ ->]]]|].
    destruct H1 as (q' & -> & _). simpl. split; [done|]. by intros [[[? ?] _]|[[? ?] _]].
  - pose proof (AddUnschedulable_spec q p cycle Hq Hp) as H1. destruct (unschedulableQ q !! GetPodFullName p); [by rewrite H1|].
    destruct (active q !! podKey p); [by rewrite H1|]. by destruct H1 as (q' & -> & _).
  - intros e q'. pose proof (queue_Pop_spec q Hq) as H1. destruct (Pop q) as [|e0 q0|p0 q0].
    + split; [done|]. intros (_ & ? & _). destruct H1; congruence.
    + split; [intros [= <- <-]; done|]. destruct H1 as (_ & _ & -> & ->). by intros (_ & _ & -> & ->).
    + split; [done|]. intros (E & _). destruct H1 as (Ha & _). unfold is_active in Ha. by rewrite E in Ha.
  - intros Ht. unfold AssignedPodAdded, AssignedPodUpdated, getUnschedulablePodsWithMatchingAffinityTerm.
    destruct (matching_total p (order (unschedulableQ q)) Ht) as [l ->]. simpl. eauto.
Qed.

(** ** Examples *)

Definition any_order (m : gmap string (Pod unit)) : list (Pod unit) := (map_to_list m).*2.
Definition unschedulable : list PodCondition := [mkCondition PodScheduled ConditionFalse PodReasonUnschedulable 0 5].
Definition example_pod (name : string) (priority : Z) (conditions : list PodCondition) (node : string) : Pod unit :=
  mkPod "ns" name ("uid-" +:+ name) (Some priority) 1 ∅ None () "1" 0 conditions node.

Lemma any_order_perm m : any_order m ≡ₚ (map_to_list m).*2.
Proof. reflexivity. Qed.

(** The queue after some calls. *)
Definition queue_after (cs : list (call unit)) : PriorityQueue unit := default NewPriorityQueue (run any_order cs NewPriorityQueue).

Lemma scheduling_queue_correct_witness :
  let cs := [CAdd (example_pod "low" 1 [] ""); CAdd (example_pod "high" 7 [] "n1"); CAdd (example_pod "mid" 3 [] "")] in
  ∃ q, run any_order cs NewPriorityQueue = Some q ∧ match Pop q with PopGives p _ => pName p = "high" ∧ is_active q p | _ => False end.
Proof.
  intros cs. exists (queue_after cs). assert (run any_order cs NewPriorityQueue = Some (queue_after cs)) as E by (vm_compute; reflexivity).
  split; [done|]. destruct (scheduling_queue_correct any_order cs (queue_after cs) any_order_perm ltac:(vm_compute; reflexivity) E) as (_ & _ & _ & H).
  assert (match Pop (queue_after cs) with PopGives p _ => pName p = "high" | _ => False end) as Hp by (vm_compute; reflexivity).
  destruct (Pop (queue_after cs)); [done|done|]. destruct H as (H & _). done.
Defined.

Lemma move_not_lost_witness :
  let p := example_pod "p" 1 unschedulable "" in
  let before := [CAdd p; CPop] in
  ∃ q1 q2 q4, run any_order before NewPriorityQueue = Some q1 ∧ step any_order q1 CMoveAll = Some q2 ∧
    AddUnschedulableIfNotPresent q2 p 1 = (None, q4) ∧ is_active q4 p.
Proof.
  intros p before. set (q1 := queue_after before). set (q2 := queue_after (before ++ [CMoveAll])).
  assert (run any_order before NewPriorityQueue = Some q1) as E1 by (vm_compute; reflexivity).
  assert (step any_order q1 CMoveAll = Some q2) as E2 by (vm_compute; reflexivity).
  destruct (move_not_lost any_order before CMoveAll [] q1 q2 q2 p 1 any_order_perm) as [(q4 & H1 & H2 & _) _];
    try (vm_compute; reflexivity); [vm_compute; by intros|]. exists q1, q2, q4. done.
Defined.

Lemma scheduling_queue_errors_witness :
  let p := example_pod "p" 1 unschedulable "" in
  let q := queue_after [CAdd p] in
  (AddUnschedulableIfNotPresent q p 1).1 = Some ErrInActiveQ ∧ (Add q p).1 = None.
Proof.
  intros p q. assert (run any_order [CAdd p] NewPriorityQueue = Some q) as E by (vm_compute; reflexivity).
  destruct (scheduling_queue_errors any_order [CAdd p] q p p 1 any_order_perm eq_refl E eq_refl) as (H1 & _ & _ & H2 & _).
  split; [|done]. apply H2. right. split; [|done]. vm_compute. eauto.
Defined.

(** A nomination that was made before the API object has it is lost when an update of the
    pod without it comes between. *)
Theorem update_forgets_nomination :
  let p := example_pod "p" 1 [] "" in
  let q := queue_after [CAdd p; CNominate p "n1"] in
  NominatedPodsForNode q "n1" = [p] ∧ NominatedPodsForNode (Update q p (example_pod "p" 1 unschedulable "")).2 "n1" = [].
Proof. vm_compute. done. Qed.

(** A parked pod with a selector that cannot be made brings the scheduler down when a pod is
    assigned in its namespace. *)
Theorem invalid_selector_panics :
  let term := mkAffinityTerm (Some (mkLabelSelector ∅ [mkLabelSelectorRequirement "k" LabelSelectorOpIn []])) [] in
  let p := mkPod "ns" "p" "uid" None 1 ∅ (Some [term]) () "1" 0 unschedulable "" in
  let q := queue_after [CAddUnschedulable p 1] in
  is_parked q p ∧ AssignedPodAdded any_order q (example_pod "other" 1 [] "") = None.
Proof. vm_compute. done. Qed.

(** The slice behind a list of nominated pods after the element at [i] was taken out in
    place: those behind it have moved and the last place is as it was. A caller that got
    the list before reads this. *)
Definition shifted {A} (i : nat) (l : list A) : list A := take i l ++ drop (S i) l ++ option_list (last l).

Theorem shared_list_changes :
  let pods := [example_pod "a" 1 [] "n"; example_pod "b" 1 [] "n"; example_pod "c" 1 [] "n"] in
  let q := queue_after (CAdd <$> pods) in
  let seen := shifted 0 (NominatedPodsForNode q "n") in
  NominatedPodsForNode q "n" = pods ∧ take 2 seen = NominatedPodsForNode (Delete q (example_pod "a" 1 [] "n")) "n" ∧
  pName <$> seen = ["b"; "c"; "c"].
Proof. vm_compute. done. Qed.
