(* ===== verification/Expectations.v ===== *)
(** * The expectations of controllers

    [pkg/controller/controller_utils.go]: how many creations and deletions a controller
    waits to observe before it acts again, and, for deletions, of which objects. The store
    behind it is the one of [Store.v], which behaves as a map; its key functions never
    fail. The counters are 64-bit integers. A method is one step, but for the two counters,
    which are read and written one after the other. *)

From S2P Require Import Prelude GoInt.

(** ** Counters *)

Record ControlleeExpectations : Type := mkExp {
  add : Z;
  del : Z;
  timestamp : Z;
}.

Definition ExpectationsTimeout : Z := 5 * 60 * 1000000000.

Definition Exp_Add (e : ControlleeExpectations) (a d : Z) : ControlleeExpectations :=
  mkExp (wrap64 (add e + a)) (wrap64 (del e + d)) (timestamp e).

Definition Fulfilled (e : ControlleeExpectations) : bool := (add e <=? 0) && (del e <=? 0).

Definition isExpired (now : Z) (e : ControlleeExpectations) : bool := ExpectationsTimeout <? now - timestamp e.

Definition GetCounts (e : ControlleeExpectations) : Z * Z := (add e, del e).

(** ** By controller *)

Notation ControllerExpectations := (gmap string ControlleeExpectations).

Definition GetExpectations (r : ControllerExpectations) (controllerKey : string) : option ControlleeExpectations :=
  r !! controllerKey.

Definition DeleteExpectations (r : ControllerExpectations) (controllerKey : string) : ControllerExpectations :=
  match r !! controllerKey with Some _ => delete controllerKey r | None => r end.

Definition SatisfiedExpectations (now : Z) (r : ControllerExpectations) (controllerKey : string) : bool :=
  match GetExpectations r controllerKey with
  | Some exp => if Fulfilled exp then true else isExpired now exp
  | None => true
  end.

Definition SetExpectations (now : Z) (r : ControllerExpectations) (controllerKey : string) (a d : Z) : ControllerExpectations :=
  <[controllerKey := mkExp a d now]> r.

Definition ExpectCreations (now : Z) (r : ControllerExpectations) (controllerKey : string) (adds : Z) : ControllerExpectations :=
  SetExpectations now r controllerKey adds 0.

Definition ExpectDeletions (now : Z) (r : ControllerExpectations) (controllerKey : string) (dels : Z) : ControllerExpectations :=
  SetExpectations now r controllerKey 0 dels.

Definition LowerExpectations (r : ControllerExpectations) (controllerKey : string) (a d : Z) : ControllerExpectations :=
  match GetExpectations r controllerKey with
  | Some exp => <[controllerKey := Exp_Add exp (- a) (- d)]> r
  | None => r
  end.

Definition RaiseExpectations (r : ControllerExpectations) (controllerKey : string) (a d : Z) : ControllerExpectations :=
  match GetExpectations r controllerKey with
  | Some exp => <[controllerKey := Exp_Add exp a d]> r
  | None => r
  end.

Definition CreationObserved (r : ControllerExpectations) (controllerKey : string) : ControllerExpectations :=
  LowerExpectations r controllerKey 1 0.

Definition DeletionObserved (r : ControllerExpectations) (controllerKey : string) : ControllerExpectations :=
  LowerExpectations r controllerKey 0 1.

(** ** With the identities of what is deleted *)

Record UIDTracking : Type := mkTracking {
  counts : ControllerExpectations;
  uidStore : gmap string (gset string);
}.

Definition NewUIDTracking : UIDTracking := mkTracking ∅ ∅.

Definition GetUIDs (u : UIDTracking) (controllerKey : string) : option (gset string) := uidStore u !! controllerKey.

(** [ExpectDeletions], [DeletionObserved] and [DeleteExpectations] of
    [UIDTrackingControllerExpectations]; the other methods are those of the counters. *)
Definition uid_ExpectDeletions (now : Z) (u : UIDTracking) (rcKey : string) (deletedKeys : list string) : UIDTracking :=
  let expectedUIDs : gset string := list_to_set deletedKeys in
  mkTracking (ExpectDeletions now (counts u) rcKey (Z.of_nat (size expectedUIDs))) (<[rcKey := expectedUIDs]> (uidStore u)).

Definition uid_DeletionObserved (u : UIDTracking) (rcKey deleteKey : string) : UIDTracking :=
  match GetUIDs u rcKey with
  | Some uids =>
      if bool_decide (deleteKey ∈ uids) then
        mkTracking (DeletionObserved (counts u) rcKey) (<[rcKey := uids ∖ {[deleteKey]}]> (uidStore u))
      else u
  | None => u
  end.

Definition uid_DeleteExpectations (u : UIDTracking) (rcKey : string) : UIDTracking :=
  mkTracking (DeleteExpectations (counts u) rcKey)
    (match uidStore u !! rcKey with Some _ => delete rcKey (uidStore u) | None => uidStore u end).

Definition uid_ExpectCreations (now : Z) (u : UIDTracking) (rcKey : string) (adds : Z) : UIDTracking :=
  mkTracking (ExpectCreations now (counts u) rcKey adds) (uidStore u).

Definition uid_CreationObserved (u : UIDTracking) (rcKey : string) : UIDTracking :=
  mkTracking (CreationObserved (counts u) rcKey) (uidStore u).

Definition uid_Satisfied (now : Z) (u : UIDTracking) (rcKey : string) : bool := SatisfiedExpectations now (counts u) rcKey.

(** ** Observations commute *)

Lemma Exp_Add_comm e a d a' d' : Exp_Add (Exp_Add e a d) a' d' = Exp_Add (Exp_Add e a' d') a d.
Proof. unfold Exp_Add. simpl. f_equal; rewrite !wrap64_add_l; f_equal; lia. Qed.

(** Several adjustments are one. *)
Lemma Exp_Add_add e a d a' d' : Exp_Add (Exp_Add e a d) a' d' = Exp_Add e (a + a') (d + d').
Proof. unfold Exp_Add. simpl. f_equal; rewrite !wrap64_add_l; f_equal; lia. Qed.

Lemma LowerExpectations_comm r k a d a' d' :
  LowerExpectations (LowerExpectations r k a d) k a' d' = LowerExpectations (LowerExpectations r k a' d') k a d.
Proof.
  unfold LowerExpectations, GetExpectations. destruct (r !! k) as [e|] eqn:E; [|by rewrite E].
  rewrite !lookup_insert_eq, !insert_insert_eq. f_equal. apply Exp_Add_comm.
Qed.

(** Observing creations one by one. *)
Lemma observe_creations n r k e :
  r !! k = Some e → Nat.iter n (λ r, CreationObserved r k) r !! k = Some (if (n =? 0)%nat then e else Exp_Add e (- Z.of_nat n) 0).
Proof.
  intros He. induction n as [|n IH]; [done|]. simpl Nat.iter. unfold CreationObserved at 1, LowerExpectations, GetExpectations. rewrite IH, lookup_insert_eq. f_equal.
  destruct (Nat.eqb_spec n 0) as [->|Hn]; [done|]. rewrite Exp_Add_add. simpl. f_equal. lia.
Qed.

(** The observation of a deletion and that of a creation commute, and a deletion counts
    once. *)
Lemma uid_observations_comm u k x :
  uid_DeletionObserved (uid_CreationObserved u k) k x = uid_CreationObserved (uid_DeletionObserved u k x) k.
Proof.
  unfold uid_DeletionObserved, uid_CreationObserved, GetUIDs. simpl. destruct (uidStore u !! k) as [uids|]; [|done].
  case_bool_decide; [|done]. f_equal. apply LowerExpectations_comm.
Qed.

Lemma uid_DeletionObserved_twice u k x :
  uid_DeletionObserved (uid_DeletionObserved u k x) k x = uid_DeletionObserved u k x.
Proof.
  unfold uid_DeletionObserved, GetUIDs. destruct (uidStore u !! k) as [uids|] eqn:E; [|by rewrite E].
  case_bool_decide as Hx; [|rewrite E; by rewrite bool_decide_false].
  simpl. rewrite lookup_insert_eq, bool_decide_false; [done|]. set_solver.
Qed.
