(* ===== verification/ControllerRef.v ===== *)
(** * Controller references

    [pkg/controller/controller_ref_manager.go] and
    [apimachinery/pkg/apis/meta/v1/controller_ref.go]: a controller claims, among the
    objects it sees, those it owns and those it may adopt, and releases what its selector
    no longer matches. The answers of the API server to the patches are a parameter, and
    so is the check that precedes the first adoption; what is sent is recorded. *)

From S2P Require Import Prelude LabelSelector.

(** ** Owners *)

Record OwnerReference : Type := mkOwner {
  OwnerAPIVersion : string;
  OwnerKind : string;
  OwnerName : string;
  OwnerUID : string;
  OwnerController : option bool;
  OwnerBlockDeletion : option bool;
}.

#[global] Instance OwnerReference_eq_dec : EqDecision OwnerReference.
Proof. solve_decision. Defined.

(** What the code uses of [metav1.Object]. *)
Class Object (T : Type) := {
  GetUID : T → string;
  GetDeleting : T → bool;
  GetLabels : T → Labels;
  GetOwnerReferences : T → list OwnerReference;
}.

Definition is_controller (ref : OwnerReference) : bool := match OwnerController ref with Some b => b | None => false end.

Definition GetControllerOf `{Object T} (controllee : T) : option OwnerReference :=
  find is_controller (GetOwnerReferences controllee).

Definition IsControlledBy `{Object T, Object W} (obj : T) (owner : W) : bool :=
  match GetControllerOf obj with Some ref => bool_decide (OwnerUID ref = GetUID owner) | None => false end.

Definition NewControllerRef (apiVersion kind name uid : string) : OwnerReference :=
  mkOwner apiVersion kind name uid (Some true) (Some true).

(** ** The manager *)

Inductive ApiErr : Type :=
  | ErrNotFound
  | ErrInvalid
  | ErrCannotAdopt (err : string)
  | ErrOther (err : string).

#[global] Instance ApiErr_eq_dec : EqDecision ApiErr.
Proof. solve_decision. Defined.

(** A patch that adds the controller to, or removes it from, the object with a UID. *)
Inductive Patch : Type :=
  | PatchAdopt (uid : string)
  | PatchRelease (uid : string).

(** Whether [CanAdopt] was called and what it found, and the patches that were sent. *)
Record RefManager : Type := mkRefManager {
  canAdoptErr : option (option string);
  sent : list Patch;
}.

Definition NewRefManager : RefManager := mkRefManager None [].

Section manager.
Context `{Object T}.
Context (controllerUID : string) (controllerDeleting : bool).
(** The function that is called before the first adoption, if any, by what it returns. *)
Context (CanAdoptFunc : option (option string)) (patch : Patch → option ApiErr).

Definition CanAdopt (m : RefManager) : option string * RefManager :=
  match canAdoptErr m with
  | Some err => (err, m)
  | None =>
      let err := match CanAdoptFunc with Some err => err | None => None end in
      (err, mkRefManager (Some err) (sent m))
  end.

Definition send (p : Patch) (m : RefManager) : option ApiErr * RefManager := (patch p, mkRefManager (canAdoptErr m) (sent m ++ [p])).

(** [AdoptPod], [AdoptReplicaSet] and [AdoptControllerRevision]. *)
Definition AdoptObject (obj : T) (m : RefManager) : option ApiErr * RefManager :=
  match CanAdopt m with
  | (Some err, m) => (Some (ErrCannotAdopt err), m)
  | (None, m) => send (PatchAdopt (GetUID obj)) m
  end.

(** [ReleasePod], [ReleaseReplicaSet] and [ReleaseControllerRevision]. *)
Definition ReleaseObject (obj : T) (m : RefManager) : option ApiErr * RefManager :=
  match send (PatchRelease (GetUID obj)) m with
  | (Some ErrNotFound, m) => (None, m)
  | (Some ErrInvalid, m) => (None, m)
  | (err, m) => (err, m)
  end.

(** An object is claimed, or not, or there is an error. *)
Definition ClaimObject (obj : T) (match_ : T → bool) (m : RefManager) : result ApiErr bool * RefManager :=
  match GetControllerOf obj with
  | Some controllerRef =>
      if negb (bool_decide (OwnerUID controllerRef = controllerUID)) then (Ok false, m)
      else if match_ obj then (Ok true, m)
      else if controllerDeleting then (Ok false, m)
      else
        match ReleaseObject obj m with
        | (Some err, m) => if bool_decide (err = ErrNotFound) then (Ok false, m) else (Err err, m)
        | (None, m) => (Ok false, m)
        end
  | None =>
      if controllerDeleting || negb (match_ obj) then (Ok false, m)
      else if GetDeleting obj then (Ok false, m)
      else
        match AdoptObject obj m with
        | (Some err, m) => if bool_decide (err = ErrNotFound) then (Ok false, m) else (Err err, m)
        | (None, m) => (Ok true, m)
        end
  end.

(** The loop of the [Claim] methods: what is claimed, the errors and the manager. *)
Fixpoint claim_loop (match_ : T → bool) (objs : list T) (m : RefManager) : list T * list ApiErr * RefManager :=
  match objs with
  | [] => ([], [], m)
  | obj :: objs =>
      let (r, m) := ClaimObject obj match_ m in
      let '(claimed, errlist, m) := claim_loop match_ objs m in
      match r with
      | Err err => (claimed, err :: errlist, m)
      | Ok true => (obj :: claimed, errlist, m)
      | Ok false => (claimed, errlist, m)
      end
  end.

(** [ClaimReplicaSets] and [ClaimControllerRevisions]. *)
Definition ClaimObjects (selector : Selector) (objs : list T) (m : RefManager) : list T * list ApiErr * RefManager :=
  claim_loop (λ obj, Matches selector (GetLabels obj)) objs m.

(** [ClaimPods], which takes filters as well. *)
Fixpoint all_filters (filters : list (T → bool)) (obj : T) : bool :=
  match filters with
  | [] => true
  | filter :: filters => if negb (filter obj) then false else all_filters filters obj
  end.

Definition ClaimPods (selector : Selector) (filters : list (T → bool)) (pods : list T) (m : RefManager) : list T * list ApiErr * RefManager :=
  claim_loop (λ obj, if negb (Matches selector (GetLabels obj)) then false else all_filters filters obj) pods m.
End manager.

(** What the check before an adoption finds out: the object on the server, or an error. *)
Record Fresh : Type := mkFresh {
  freshUID : string;
  freshDeleting : bool;
}.

Definition RecheckDeletionTimestamp (obj : result string Fresh) : option string :=
  match obj with
  | Err err => Some ("can't recheck DeletionTimestamp: " +:+ err)
  | Ok obj => if freshDeleting obj then Some "has just been deleted" else None
  end.

(** ** What is claimed, object by object *)

Section claims.
Context `{Object T}.
Context (controllerUID : string) (controllerDeleting : bool).
Context (CanAdoptFunc : option (option string)) (patch : Patch → option ApiErr) (match_ : T → bool).

Definition owned (obj : T) : bool :=
  match GetControllerOf obj with Some ref => bool_decide (OwnerUID ref = controllerUID) | None => false end.

Definition orphan (obj : T) : bool := match GetControllerOf obj with Some _ => false | None => true end.

(** The objects that are to be adopted, and those that are to be released. *)
Definition adoptable (obj : T) : bool := orphan obj && match_ obj && negb controllerDeleting && negb (GetDeleting obj).
Definition releasable (obj : T) : bool := owned obj && negb (match_ obj) && negb controllerDeleting.

Definition adopt_error : option string := match CanAdoptFunc with Some err => err | None => None end.

Definition ignore (ignored : list ApiErr) (err : option ApiErr) : option ApiErr :=
  match err with Some e => if bool_decide (e ∈ ignored) then None else Some e | None => None end.

Definition adopted (obj : T) : bool :=
  adoptable obj && bool_decide (adopt_error = None) && bool_decide (patch (PatchAdopt (GetUID obj)) = None).

Definition claimable (obj : T) : bool := owned obj && match_ obj || adopted obj.

Definition claim_error (obj : T) : option ApiErr :=
  if adoptable obj then
    match adopt_error with
    | Some err => Some (ErrCannotAdopt err)
    | None => ignore [ErrNotFound] (patch (PatchAdopt (GetUID obj)))
    end
  else if releasable obj then ignore [ErrNotFound; ErrInvalid] (patch (PatchRelease (GetUID obj)))
  else None.

Definition claim_patch (obj : T) : option Patch :=
  if adoptable obj then (if bool_decide (adopt_error = None) then Some (PatchAdopt (GetUID obj)) else None)
  else if releasable obj then Some (PatchRelease (GetUID obj)) else None.

(** The manager remembers what the check found. *)
Definition remembers (m : RefManager) : Prop := canAdoptErr m = None ∨ canAdoptErr m = Some adopt_error.

Definition claim_value (obj : T) : result ApiErr bool :=
  match claim_error obj with Some err => Err err | None => Ok (claimable obj) end.

Definition claim_state (obj : T) (m : RefManager) : RefManager :=
  mkRefManager (if adoptable obj then Some adopt_error else canAdoptErr m) (sent m ++ option_list (claim_patch obj)).

Lemma CanAdopt_spec m : remembers m → CanAdopt CanAdoptFunc m = (adopt_error, mkRefManager (Some adopt_error) (sent m)).
Proof. destruct m as [c s]. unfold remembers, CanAdopt, adopt_error. simpl. by intros [->| ->]. Qed.

Lemma ClaimObject_spec obj m :
  remembers m →
  ClaimObject controllerUID controllerDeleting CanAdoptFunc patch obj match_ m = (claim_value obj, claim_state obj m).
Proof.
  intros Hm. destruct m as [c s] eqn:Em. unfold ClaimObject, claim_value, claim_state, claim_error, claim_patch, claimable, adopted, adoptable, releasable, owned, orphan.
  destruct (GetControllerOf obj) as [ref|]; simpl.
  - case_bool_decide; simpl; [|by rewrite app_nil_r].
    destruct (match_ obj) eqn:Ematch; simpl; [by rewrite app_nil_r|]. destruct controllerDeleting; simpl; [by rewrite app_nil_r|].
    unfold ReleaseObject, send, ignore. simpl. by destruct (patch (PatchRelease (GetUID obj))) as [[]|].
  - destruct controllerDeleting, (match_ obj), (GetDeleting obj); simpl; rewrite ?app_nil_r; try done.
    unfold AdoptObject. rewrite CanAdopt_spec by done. destruct adopt_error as [err|]; simpl; [by rewrite app_nil_r|].
    unfold ignore. by destruct (patch (PatchAdopt (GetUID obj))) as [[]|].
Qed.

Lemma claim_state_remembers obj m : remembers m → remembers (claim_state obj m).
Proof. unfold remembers, claim_state. simpl. destruct (adoptable obj); [by right|done]. Qed.

Lemma claim_error_not_claimable obj err : claim_error obj = Some err → claimable obj = false.
Proof.
  unfold claim_error, claimable, adopted, adoptable, releasable, owned, orphan, ignore. destruct (GetControllerOf obj) as [ref|]; simpl.
  - by destruct (bool_decide (OwnerUID ref = controllerUID)), (match_ obj).
  - destruct (match_ obj), controllerDeleting, (GetDeleting obj); simpl; try done. destruct adopt_error; [done|].
    by destruct (patch (PatchAdopt (GetUID obj))).
Qed.

Lemma claim_loop_spec objs m :
  remembers m →
  claim_loop controllerUID controllerDeleting CanAdoptFunc patch match_ objs m =
    (filter (λ obj, claimable obj = true) objs, omap claim_error objs,
     mkRefManager (if existsb adoptable objs then Some adopt_error else canAdoptErr m) (sent m ++ omap claim_patch objs)).
Proof.
  revert m. induction objs as [|obj objs IH]; intros m Hm; simpl; [destruct m; simpl; by rewrite app_nil_r|].
  rewrite ClaimObject_spec by done. rewrite (IH (claim_state obj m)) by by apply claim_state_remembers.
  unfold claim_value, claim_state. simpl. rewrite <- app_assoc.
  assert (option_list (claim_patch obj) ++ omap claim_patch objs = omap claim_patch (obj :: objs)) as ->
    by (simpl; by destruct (claim_patch obj)).
  assert ((if existsb adoptable objs then Some adopt_error else if adoptable obj then Some adopt_error else canAdoptErr m) =
    (if adoptable obj || existsb adoptable objs then Some adopt_error else canAdoptErr m)) as ->
    by by destruct (adoptable obj), (existsb adoptable objs).
  destruct (claim_error obj) as [err|] eqn:Eerr.
  - rewrite (filter_cons_False _ obj); [done|]. by rewrite (claim_error_not_claimable obj err).
  - rewrite filter_cons. by destruct (claimable obj); destruct (decide _).
Qed.
End claims.

Lemma claim_loop_ext `{Object T} uid deleting CanAdoptFunc patch (f g : T → bool) objs m :
  (∀ obj, f obj = g obj) → claim_loop uid deleting CanAdoptFunc patch f objs m = claim_loop uid deleting CanAdoptFunc patch g objs m.
Proof.
  intros Hfg. revert m. induction objs as [|obj objs IH]; intros m; simpl; [done|].
  assert (ClaimObject uid deleting CanAdoptFunc patch obj f m = ClaimObject uid deleting CanAdoptFunc patch obj g m) as ->
    by (unfold ClaimObject; by rewrite !Hfg).
  destruct (ClaimObject _ _ _ _ obj g m) as [r m']. by rewrite IH.
Qed.

(** C34: claiming is exact, object by object, for any answers of the server. Claimed are the
    pods that match the selector and the filters and are owned by the controller, or are
    orphans that were adopted: not being deleted, the controller not being deleted, the
    check before the adoption passed and the patch accepted. A patch is sent for every such
    orphan, and to release every owned pod that no longer matches, and for no other pod; an
    error is returned for each patch that is refused, except those that mean that there is
    nothing to do; and the check is made once, and only when there is something to adopt. *)
Theorem ClaimPods_exact `{Object T} uid deleting CanAdoptFunc patch selector (filters : list (T → bool)) (pods : list T) :
  let m := (λ pod, Matches selector (GetLabels pod) && forallb (λ f, f pod) filters) in
  ClaimPods uid deleting CanAdoptFunc patch selector filters pods NewRefManager =
    (filter (λ pod, claimable uid deleting CanAdoptFunc patch m pod = true) pods,
     omap (claim_error uid deleting CanAdoptFunc patch m) pods,
     mkRefManager (if existsb (adoptable deleting m) pods then Some (adopt_error CanAdoptFunc) else None)
       (omap (claim_patch uid deleting CanAdoptFunc m) pods)).
Proof.
  intros m. unfold ClaimPods. rewrite (claim_loop_ext _ _ _ _ _ m).
  - rewrite claim_loop_spec by by left. done.
  - intros pod. unfold m. destruct (Matches _ _); simpl; [|done]. induction filters as [|f fs IH]; simpl; [done|]. destruct (f pod); simpl; [apply IH|done].
Qed.
