(* ===== verification/ReplicaSet.v ===== *)
(** * The replica set controller

    [pkg/controller/replicaset/replica_set.go], [replica_set_utils.go] and what they use of
    [pkg/controller/controller_utils.go] and [pkg/api/v1/pod/util.go]: a sync compares the
    pods that the informer shows with the size of the replica set and creates or deletes
    the difference, and the expectations of [Expectations.v] keep it from acting again
    before it has seen what it did. What the API server answers is a parameter, one answer
    per call; calls that run at the same time are numbered in the order in which they end.
    What [sort.Sort] returns is a parameter with the laws of a sort ([SortActive]). *)

From S2P Require Import Prelude GoStrings GoInt Store LabelSelector DeploymentScaling SchedulingQueue Expectations ControllerRef.

(** ** Pods *)

Record RPod : Type := mkRPod {
  rpNamespace : string;
  rpName : string;
  rpUID : string;
  rpVersion : string;
  rpNode : string;
  rpPhase : PodPhase;
  rpConditions : list PodCondition;
  rpRestarts : list Z;
  rpCreation : Z;
  rpDeleting : bool;
  rpLabels : Labels;
  rpOwners : list OwnerReference;
}.

#[global] Instance PodPhase_eq_dec : EqDecision PodPhase.
Proof. solve_decision. Defined.
#[global] Instance RPod_Object : Object RPod := {
  GetUID := rpUID;
  GetDeleting := rpDeleting;
  GetLabels := rpLabels;
  GetOwnerReferences := rpOwners;
}.

Definition PodKey (pod : RPod) : string := rpNamespace pod +:+ "/" +:+ rpName pod.

Definition IsPodActive (p : RPod) : bool :=
  negb (bool_decide (rpPhase p = PodSucceeded)) && negb (bool_decide (rpPhase p = PodFailed)) && negb (rpDeleting p).

Definition FilterActivePods (pods : list RPod) : list RPod := filter (λ p, IsPodActive p = true) pods.

Definition PodReady : string := "Ready".
Definition ConditionTrue : string := "True".

Definition GetPodReadyCondition (p : RPod) : option PodCondition :=
  find (λ c, bool_decide (CType c = PodReady)) (rpConditions p).

Definition IsPodReady (p : RPod) : bool :=
  match GetPodReadyCondition p with Some c => bool_decide (CStatus c = ConditionTrue) | None => false end.

Definition IsPodAvailable (p : RPod) (minReadySeconds now : Z) : bool :=
  if negb (IsPodReady p) then false
  else
    match GetPodReadyCondition p with
    | Some c =>
        (minReadySeconds =? 0) ||
        (negb (LastTransitionTime c =? 0) && (LastTransitionTime c + minReadySeconds * 1000000000 <? now))
    | None => false
    end.

(** ** The order in which pods are deleted *)

Definition phase_rank (p : PodPhase) : Z :=
  match p with PodPending => 0 | PodUnknown => 1 | PodRunning => 2 | _ => 0 end.

Definition afterOrZero (t1 t2 : Z) : bool :=
  if (t1 =? 0) || (t2 =? 0) then t1 =? 0 else t2 <? t1.

Definition podReadyTime (p : RPod) : Z :=
  if IsPodReady p then
    match find (λ c, bool_decide (CType c = PodReady) && bool_decide (CStatus c = ConditionTrue)) (rpConditions p) with
    | Some c => LastTransitionTime c
    | None => 0
    end
  else 0.

Definition maxContainerRestarts (p : RPod) : Z := fold_left Z.max (rpRestarts p) 0.

(** [ActivePods.Less] *)
Definition active_less (a b : RPod) : bool :=
  if negb (bool_decide (rpNode a = rpNode b)) && (bool_decide (rpNode a = "") || bool_decide (rpNode b = "")) then
    bool_decide (rpNode a = "")
  else if negb (phase_rank (rpPhase a) =? phase_rank (rpPhase b)) then phase_rank (rpPhase a) <? phase_rank (rpPhase b)
  else if negb (Bool.eqb (IsPodReady a) (IsPodReady b)) then negb (IsPodReady a)
  else if IsPodReady a && IsPodReady b && negb (podReadyTime a =? podReadyTime b) then
    afterOrZero (podReadyTime a) (podReadyTime b)
  else if negb (maxContainerRestarts a =? maxContainerRestarts b) then maxContainerRestarts b <? maxContainerRestarts a
  else if negb (rpCreation a =? rpCreation b) then afterOrZero (rpCreation a) (rpCreation b)
  else false.

(** [sort.Sort(ActivePods(pods))] *)
Class SortActive := {
  sort_active : list RPod → list RPod;
  sort_active_perm l : sort_active l ≡ₚ l;
  sort_active_sorted l : Sorted (λ a b, active_less b a = false) (sort_active l);
}.

Section controller.
Context `{SortActive}.

(** The pods to delete, and what the sort leaves of the list it was given. *)
Definition getPodsToDelete (filteredPods : list RPod) (diff : Z) : list RPod * list RPod :=
  let filteredPods := if diff <? Z.of_nat (length filteredPods) then sort_active filteredPods else filteredPods in
  (take (Z.to_nat diff) filteredPods, filteredPods).

Definition getPodKeys (pods : list RPod) : list string := PodKey <$> pods.

(** ** Slow start *)

(** The number of successful calls, an error, and the number of calls; [fn i] is the error
    of the call number [i], if any. *)
Fixpoint batch_loop (fuel : nat) (fn : nat → option string) (batchSize remaining successes calls : Z) : option (Z * option string * Z) :=
  match fuel with
  | O => None
  | S fuel =>
      if batchSize <=? 0 then Some (successes, None, calls)
      else
        let errs := omap fn (seq (Z.to_nat calls) (Z.to_nat batchSize)) in
        let successes := successes + (batchSize - Z.of_nat (length errs)) in
        match errs with
        | e :: _ => Some (successes, Some e, calls + batchSize)
        | [] =>
            let remaining := remaining - batchSize in
            batch_loop fuel fn (Z.min (2 * batchSize) remaining) remaining successes (calls + batchSize)
        end
  end.

Definition slowStartBatch (fuel : nat) (count initialBatchSize : Z) (fn : nat → option string) : option (Z * option string * Z) :=
  batch_loop fuel fn (Z.min count initialBatchSize) count 0 0.

Definition SlowStartInitialBatchSize : Z := 1.

(** A batch is at least one call. *)
Definition batches (count : Z) : nat := S (S (Z.to_nat count)).

(** ** Managing replicas *)

(** What the API server answers to the creation of a pod. *)
Inductive CreateResult : Type :=
  | Created
  | CreateTimeout
  | CreateError (err : string).

#[global] Instance CreateResult_eq_dec : EqDecision CreateResult.
Proof. solve_decision. Defined.

Definition create_error (r : CreateResult) : option string :=
  match r with CreateError e => Some e | _ => None end.

(** The error, the expectations afterwards, the number of creations that were tried, and
    the pods whose deletion was. *)
Record managed : Type := mkManaged {
  mErr : option string;
  mExpectations : UIDTracking;
  mCreations : Z;
  mDeletions : list RPod;
}.

Definition manageReplicas (now burstReplicas : Z) (expectations : UIDTracking) (rsKey : string) (replicas : Z) (filteredPods : list RPod)
    (create : nat → CreateResult) (delete : RPod → option string) : option managed :=
  let diff := Z.of_nat (length filteredPods) - replicas in
  if diff <? 0 then
    let diff := diff * -1 in
    let diff := if burstReplicas <? diff then burstReplicas else diff in
    let expectations := uid_ExpectCreations now expectations rsKey diff in
    '(successfulCreations, err, calls) ← slowStartBatch (batches diff) diff SlowStartInitialBatchSize (λ i, create_error (create i));
    let skippedPods := diff - successfulCreations in
    Some (mkManaged err (Nat.iter (Z.to_nat skippedPods) (λ u, uid_CreationObserved u rsKey) expectations) calls [])
  else if 0 <? diff then
    let diff := if burstReplicas <? diff then burstReplicas else diff in
    let podsToDelete := (getPodsToDelete filteredPods diff).1 in
    let expectations := uid_ExpectDeletions now expectations rsKey (getPodKeys podsToDelete) in
    let expectations := fold_left (λ u targetPod, match delete targetPod with Some _ => uid_DeletionObserved u rsKey (PodKey targetPod) | None => u end)
      podsToDelete expectations in
    Some (mkManaged (head (omap delete podsToDelete)) expectations 0 podsToDelete)
  else Some (mkManaged None expectations 0 []).
End controller.

(** ** Replica sets and their lister *)

Record RSCondition : Type := mkRSCondition {
  rcType : string;
  rcStatus : string;
  rcReason : string;
  rcMessage : string;
  rcTransition : Z;
}.

Record RSStatus : Type := mkStatus {
  sReplicas : Z;
  sFullyLabeled : Z;
  sReady : Z;
  sAvailable : Z;
  sObservedGeneration : Z;
  sConditions : list RSCondition;
}.

Record RSet : Type := mkRSet {
  rsNamespace : string;
  rsName : string;
  rsUID : string;
  rsGeneration : Z;
  rsDeleting : bool;
  rsReplicas : Z;
  rsMinReadySeconds : Z;
  rsSelector : option LabelSelector;
  rsTemplateLabels : Labels;
  rsStatus : RSStatus;
}.

Definition rs_key (rs : RSet) : string :=
  if 0 <? slen (rsNamespace rs) then rsNamespace rs +:+ "/" +:+ rsName rs else rsName rs.

(** The lister enumerates the replica sets in some order; those of a namespace, and the one
    with a name. *)
Definition ReplicaSets (l : list RSet) (namespace : string) : list RSet := filter (λ rs, rsNamespace rs = namespace) l.

Definition rs_Get (l : list RSet) (namespace name : string) : option RSet :=
  find (λ rs, bool_decide (rsName rs = name)) (ReplicaSets l namespace).

Section lister.
Context `{SortByKey}.

(** The loop of [GetPodReplicaSets]. *)
Fixpoint matching_sets (sets : list RSet) (pod : RPod) : result string (list RSet) :=
  match sets with
  | [] => Ok []
  | rs :: sets =>
      if negb (bool_decide (rsNamespace rs = rpNamespace pod)) then matching_sets sets pod
      else
        match LabelSelectorAsSelector (rsSelector rs) with
        | Err _ => Err "invalid selector"
        | Ok selector =>
            if Empty selector || negb (Matches selector (rpLabels pod)) then matching_sets sets pod
            else match matching_sets sets pod with Ok rss => Ok (rs :: rss) | Err e => Err e end
        end
  end.

Definition GetPodReplicaSets (l : list RSet) (pod : RPod) : result string (list RSet) :=
  if bool_decide (rpLabels pod = ∅) then Err "no ReplicaSets found for pod because it has no labels"
  else
    match matching_sets (ReplicaSets l (rpNamespace pod)) pod with
    | Err e => Err e
    | Ok [] => Err "could not find ReplicaSet for pod"
    | Ok rss => Ok rss
    end.

Definition getPodReplicaSets (l : list RSet) (pod : RPod) : list RSet :=
  match GetPodReplicaSets l pod with Ok rss => rss | Err _ => [] end.
End lister.

Definition resolveControllerRef (kind : string) (l : list RSet) (namespace : string) (ref : OwnerReference) : option RSet :=
  if negb (bool_decide (OwnerKind ref = kind)) then None
  else
    match rs_Get l namespace (OwnerName ref) with
    | Some rs => if bool_decide (rsUID rs = OwnerUID ref) then Some rs else None
    | None => None
    end.

(** ** The handlers of the informers *)

(** The expectations, the keys that are queued and those that are queued after a time. *)
Record handled : Type := mkHandled {
  hExpectations : UIDTracking;
  hQueued : list string;
  hLater : list (string * Z);
}.

Section handlers.
Context `{SortByKey} (kind : string) (l : list RSet).

Definition deletePod (u : UIDTracking) (pod : RPod) : handled :=
  match GetControllerOf pod with
  | None => mkHandled u [] []
  | Some ref =>
      match resolveControllerRef kind l (rpNamespace pod) ref with
      | None => mkHandled u [] []
      | Some rs => mkHandled (uid_DeletionObserved u (rs_key rs) (PodKey pod)) [rs_key rs] []
      end
  end.

Definition addPod (u : UIDTracking) (pod : RPod) : handled :=
  if rpDeleting pod then deletePod u pod
  else
    match GetControllerOf pod with
    | Some ref =>
        match resolveControllerRef kind l (rpNamespace pod) ref with
        | None => mkHandled u [] []
        | Some rs => mkHandled (uid_CreationObserved u (rs_key rs)) [rs_key rs] []
        end
    | None => mkHandled u (rs_key <$> getPodReplicaSets l pod) []
    end.

Definition updatePod (u : UIDTracking) (oldPod curPod : RPod) : handled :=
  if bool_decide (rpVersion curPod = rpVersion oldPod) then mkHandled u [] []
  else
    let labelChanged := negb (bool_decide (rpLabels curPod = rpLabels oldPod)) in
    if rpDeleting curPod then
      let h := deletePod u curPod in
      if labelChanged then
        let h2 := deletePod (hExpectations h) oldPod in
        mkHandled (hExpectations h2) (hQueued h ++ hQueued h2) (hLater h ++ hLater h2)
      else h
    else
      let controllerRefChanged := negb (bool_decide (GetControllerOf curPod = GetControllerOf oldPod)) in
      let before := match GetControllerOf oldPod with
        | Some ref => if controllerRefChanged then option_list (rs_key <$> resolveControllerRef kind l (rpNamespace oldPod) ref) else []
        | None => []
        end in
      match GetControllerOf curPod with
      | Some ref =>
          match resolveControllerRef kind l (rpNamespace curPod) ref with
          | None => mkHandled u before []
          | Some rs =>
              mkHandled u (before ++ [rs_key rs])
                (if negb (IsPodReady oldPod) && IsPodReady curPod && (0 <? rsMinReadySeconds rs)
                 then [(rs_key rs, rsMinReadySeconds rs * 1000000000 + 1000000000)] else [])
          end
      | None =>
          if labelChanged || controllerRefChanged then mkHandled u (before ++ (rs_key <$> getPodReplicaSets l curPod)) []
          else mkHandled u before []
      end.
End handlers.

(** ** Status *)

#[global] Instance RSCondition_eq_dec : EqDecision RSCondition.
Proof. solve_decision. Defined.

Definition NewReplicaSetCondition (now : Z) (condType status reason msg : string) : RSCondition :=
  mkRSCondition condType status reason msg now.

Definition ReplicaFailure : string := "ReplicaFailure".

Definition GetCondition (status : RSStatus) (condType : string) : option RSCondition :=
  find (λ c, bool_decide (rcType c = condType)) (sConditions status).

Definition filterOutCondition (conditions : list RSCondition) (condType : string) : list RSCondition :=
  filter (λ c, rcType c ≠ condType) conditions.

Definition SetCondition (conditions : list RSCondition) (c : RSCondition) : list RSCondition :=
  match find (λ x, bool_decide (rcType x = rcType c)) conditions with
  | Some cur => if bool_decide (rcStatus cur = rcStatus c) && bool_decide (rcReason cur = rcReason c) then conditions
                else filterOutCondition conditions (rcType c) ++ [c]
  | None => filterOutCondition conditions (rcType c) ++ [c]
  end.

Definition RemoveCondition (conditions : list RSCondition) (condType : string) : list RSCondition := filterOutCondition conditions condType.

Definition count (f : RPod → bool) (pods : list RPod) : Z := Z.of_nat (length (filter (λ p, f p = true) pods)).

Section status.
Context `{SortByKey}.

Definition calculateStatus (now : Z) (rs : RSet) (filteredPods : list RPod) (manageReplicasErr : option string) : RSStatus :=
  let templateLabel := SelectorFromValidatedSet (rsTemplateLabels rs) in
  let status := rsStatus rs in
  let diff := Z.of_nat (length filteredPods) - rsReplicas rs in
  let conditions :=
    match manageReplicasErr, GetCondition status ReplicaFailure with
    | Some err, None =>
        let reason := if diff <? 0 then "FailedCreate" else if 0 <? diff then "FailedDelete" else "" in
        SetCondition (sConditions status) (NewReplicaSetCondition now ReplicaFailure ConditionTrue reason err)
    | None, Some _ => RemoveCondition (sConditions status) ReplicaFailure
    | _, _ => sConditions status
    end in
  mkStatus (wrap32 (Z.of_nat (length filteredPods))) (wrap32 (count (λ p, Matches templateLabel (rpLabels p)) filteredPods))
    (wrap32 (count IsPodReady filteredPods))
    (wrap32 (count (λ p, IsPodReady p && IsPodAvailable p (rsMinReadySeconds rs) now) filteredPods))
    (sObservedGeneration status) conditions.
End status.

(** The answers of the API server to the attempts to update the status and to read the
    replica set again. *)
Definition statusUpdateRetries : nat := 1.

Definition set_status (rs : RSet) (status : RSStatus) : RSet :=
  mkRSet (rsNamespace rs) (rsName rs) (rsUID rs) (rsGeneration rs) (rsDeleting rs) (rsReplicas rs) (rsMinReadySeconds rs)
    (rsSelector rs) (rsTemplateLabels rs) status.

Section update.
Context (UpdateStatus : nat → RSet → result string RSet) (Get : nat → result string RSet).

(** The loop of [updateReplicaSetStatus]; [i] is the attempt and [retries] what remains of the
    retries. The result comes with what was written. *)
Fixpoint status_loop (retries i : nat) (rs : RSet) (newStatus : RSStatus) : result string RSet * list RSet :=
  let rs := set_status rs newStatus in
  match UpdateStatus i rs with
  | Ok updatedRS => (Ok updatedRS, [rs])
  | Err updateErr =>
      match retries with
      | O => (Err updateErr, [rs])
      | S retries =>
          match Get i with
          | Err getErr => (Err getErr, [rs])
          | Ok rs' => let (r, writes) := status_loop retries (S i) rs' newStatus in (r, rs :: writes)
          end
      end
  end.

Definition same_status (generation : Z) (a b : RSStatus) : bool :=
  (sReplicas a =? sReplicas b) && (sFullyLabeled a =? sFullyLabeled b) && (sReady a =? sReady b) && (sAvailable a =? sAvailable b) &&
  (generation =? sObservedGeneration a) && bool_decide (sConditions a = sConditions b).

Definition updateReplicaSetStatus (rs : RSet) (newStatus : RSStatus) : result string RSet * list RSet :=
  if same_status (rsGeneration rs) (rsStatus rs) newStatus then (Ok rs, [])
  else
    status_loop statusUpdateRetries 0 rs
      (mkStatus (sReplicas newStatus) (sFullyLabeled newStatus) (sReady newStatus) (sAvailable newStatus) (rsGeneration rs)
        (sConditions newStatus)).
End update.

(** ** A sync *)

Inductive SyncErr : Type :=
  | ErrBadKey (err : string)
  | ErrClaim (errs : list ApiErr)
  | ErrManage (err : string)
  | ErrStatus (err : string).

(** How far a sync gets before it looks at the pods: it ends with or without an error, or
    it goes on with the replica set, its selector and whether the expectations were met. *)
Inductive checked : Type :=
  | CheckEnd (err : option SyncErr) (u : UIDTracking)
  | CheckGo (rs : RSet) (selector : Selector) (rsNeedsSync : bool).

(** What a sync did: its error, the expectations, the keys it queued for later, the claims,
    what became of the replicas, and the status that was written. *)
Record synced : Type := mkSynced {
  syErr : option SyncErr;
  syExpectations : UIDTracking;
  syLater : list (string * Z);
  syClaims : RefManager;
  syManaged : option managed;
  syWrites : list RSet;
}.

(** What the API server answers during a sync. *)
Record answers : Type := mkAnswers {
  aFresh : result string Fresh;
  aPatch : Patch → option ApiErr;
  aCreate : nat → CreateResult;
  aDelete : RPod → option string;
  aUpdateStatus : nat → RSet → result string RSet;
  aGet : nat → result string RSet;
}.

Section sync.
Context `{SortByKey, SortActive} (burstReplicas : Z).

Definition claimPods (rs : RSet) (selector : Selector) (a : answers) (filteredPods : list RPod) : list RPod * list ApiErr * RefManager :=
  let canAdopt := RecheckDeletionTimestamp
    (match aFresh a with
     | Err err => Err err
     | Ok fresh => if negb (bool_decide (freshUID fresh = rsUID rs)) then Err "original is gone" else Ok fresh
     end) in
  ClaimPods (rsUID rs) (rsDeleting rs) (Some canAdopt) (aPatch a) selector [] filteredPods NewRefManager.

(** [syncReplicaSet] up to the conversion of the selector. *)
Definition sync_check (now : Z) (l : list RSet) (u : UIDTracking) (key : string) : checked :=
  match SplitMetaNamespaceKey key with
  | Err err => CheckEnd (Some (ErrBadKey err)) u
  | Ok (namespace, name) =>
      match rs_Get l namespace name with
      | None => CheckEnd None (uid_DeleteExpectations u key)
      | Some rs =>
          let rsNeedsSync := uid_Satisfied now u key in
          match LabelSelectorAsSelector (rsSelector rs) with
          | Err _ => CheckEnd None u
          | Ok selector => CheckGo rs selector rsNeedsSync
          end
      end
  end.

(** The rest, from the list of the pods of the namespace on. The counts of the status do
    not depend on the order in which [manageReplicas] leaves the pods. *)
Definition sync_rest (now : Z) (u : UIDTracking) (rs : RSet) (selector : Selector) (rsNeedsSync : bool) (allPods : list RPod) (a : answers) : option synced :=
  let filteredPods := FilterActivePods allPods in
  match claimPods rs selector a filteredPods with
  | (filteredPods, [], claims) =>
      m ← (if rsNeedsSync && negb (rsDeleting rs) then
             Some <$> manageReplicas now burstReplicas u (rs_key rs) (rsReplicas rs) filteredPods (aCreate a) (aDelete a)
           else Some None);
      let u := match m with Some m => mExpectations m | None => u end in
      let manageReplicasErr := match m with Some m => mErr m | None => None end in
      let newStatus := calculateStatus now rs filteredPods manageReplicasErr in
      match updateReplicaSetStatus (aUpdateStatus a) (aGet a) rs newStatus with
      | (Err err, writes) => Some (mkSynced (Some (ErrStatus err)) u [] claims m writes)
      | (Ok updatedRS, writes) =>
          let later :=
            if bool_decide (manageReplicasErr = None) && (0 <? rsMinReadySeconds updatedRS) &&
               (sReady (rsStatus updatedRS) =? rsReplicas updatedRS) && negb (sAvailable (rsStatus updatedRS) =? rsReplicas updatedRS)
            then [(rs_key updatedRS, rsMinReadySeconds updatedRS * 1000000000)] else [] in
          Some (mkSynced (ErrManage <$> manageReplicasErr) u later claims m writes)
      end
  | (_, errs, claims) => Some (mkSynced (Some (ErrClaim errs)) u [] claims None [])
  end.

Definition syncReplicaSet (now : Z) (l : list RSet) (u : UIDTracking) (key : string) (allPods : list RPod) (a : answers) : option synced :=
  match sync_check now l u key with
  | CheckEnd err u => Some (mkSynced err u [] NewRefManager None [])
  | CheckGo rs selector rsNeedsSync =>
      sync_rest now u rs selector rsNeedsSync (filter (λ pod, rpNamespace pod = rsNamespace rs) allPods) a
  end.
End sync.
