(* ===== verification/ReplicaSetSpec.v ===== *)
(** * What the replica set controller promises

    Which pods are deleted first is decided by a strict order; creations start slowly and
    stop at the first failing batch; and, whatever the informer has not shown yet, a sync
    never creates or deletes a pod too many. *)

From S2P Require Import Prelude GoStrings GoInt LabelSelector DeploymentScaling Heap SchedulingQueue Expectations ReplicaSet.

(** ** The order of pods *)

(** Comparing lists of numbers by the first that differs. *)
Fixpoint lex (a b : list Z) : bool :=
  match a, b with
  | x :: a, y :: b => if negb (x =? y) then x <? y else lex a b
  | _, _ => false
  end.

Lemma lex_asym a b : lex a b = true → lex b a = false.
Proof.
  revert b. induction a as [|x a IH]; intros [|y b]; simpl; try done. rewrite (Z.eqb_sym y x).
  destruct (Z.eqb_spec x y) as [->|Hne]; simpl; [apply IH|]. intros ?%Z.ltb_lt. apply Z.ltb_ge. lia.
Qed.

Lemma lex_negtrans a b c : length a = length b → length b = length c → lex a b = false → lex b c = false → lex a c = false.
Proof.
  revert b c. induction a as [|x a IH]; intros [|y b] [|z c]; simpl; try done. intros [= E1] [= E2].
  destruct (Z.eqb_spec x y) as [->|H1], (Z.eqb_spec y z) as [->|H2]; simpl.
  - by apply IH.
  - done.
  - destruct (Z.eqb_spec x z); [done|]. simpl. done.
  - intros Ha%Z.ltb_ge Hb%Z.ltb_ge. destruct (Z.eqb_spec x z); simpl; [lia|]. apply Z.ltb_ge. lia.
Qed.

(** An empty time comes first, and then the later of two times. *)
Definition time_rank (t : Z) : list Z := [if t =? 0 then 0 else 1; - t].

Definition pod_rank (p : RPod) : list Z :=
  (if bool_decide (rpNode p = "") then 0 else 1) :: phase_rank (rpPhase p) :: (if IsPodReady p then 1 else 0) ::
  time_rank (podReadyTime p) ++ [- maxContainerRestarts p] ++ time_rank (rpCreation p).

Lemma lex_time t1 t2 l1 l2 :
  lex (time_rank t1 ++ l1) (time_rank t2 ++ l2) = if negb (t1 =? t2) then afterOrZero t1 t2 else lex l1 l2.
Proof.
  unfold time_rank, afterOrZero. simpl.
  destruct (Z.eqb_spec t1 0) as [E1|E1], (Z.eqb_spec t2 0) as [E2|E2], (Z.eqb_spec t1 t2) as [E|E]; subst; simpl; try lia; try done.
  - by rewrite Z.eqb_refl.
  - destruct (Z.eqb_spec (- t1) (- t2)); simpl; [lia|]. destruct (Z.ltb_spec (- t1) (- t2)), (Z.ltb_spec t2 t1); lia || done.
Qed.

(** [ActivePods.Less] compares the ranks. *)
Lemma active_less_lex a b : active_less a b = lex (pod_rank a) (pod_rank b).
Proof.
  unfold active_less, pod_rank. cbn [lex].
  assert ((if bool_decide (rpNode a = "") then 0 else 1) =? (if bool_decide (rpNode b = "") then 0 else 1) =
    negb (negb (bool_decide (rpNode a = rpNode b)) && (bool_decide (rpNode a = "") || bool_decide (rpNode b = "")))) as E1.
  { repeat case_bool_decide; simpl; congruence. }
  rewrite E1, negb_involutive. destruct (_ && (_ || _)) eqn:E2.
  { rewrite andb_true_iff, negb_true_iff in E2. destruct E2 as [E2%bool_decide_eq_false _].
    by destruct (bool_decide (rpNode a = "")), (bool_decide (rpNode b = "")). }
  destruct (negb (phase_rank (rpPhase a) =? phase_rank (rpPhase b))); [done|]. rewrite <- app_assoc || idtac.
  destruct (IsPodReady a) eqn:Ra, (IsPodReady b) eqn:Rb; simpl negb; cbn [Bool.eqb negb andb Z.eqb Z.ltb Z.compare]; try done.
  - rewrite lex_time. destruct (negb (podReadyTime a =? podReadyTime b)); [done|]. cbn [app lex].
    destruct (Z.eqb_spec (- maxContainerRestarts a) (- maxContainerRestarts b)) as [E|E];
      destruct (Z.eqb_spec (maxContainerRestarts a) (maxContainerRestarts b)); try lia; simpl negb; cbn iota.
    + rewrite <- (app_nil_r (time_rank (rpCreation a))), <- (app_nil_r (time_rank (rpCreation b))), lex_time. done.
    + destruct (Z.ltb_spec (maxContainerRestarts b) (maxContainerRestarts a)), (Z.ltb_spec (- maxContainerRestarts a) (- maxContainerRestarts b)); lia || done.
  - unfold podReadyTime. rewrite Ra, Rb. rewrite lex_time. cbn [Z.eqb negb app lex].
    destruct (Z.eqb_spec (- maxContainerRestarts a) (- maxContainerRestarts b)) as [E|E];
      destruct (Z.eqb_spec (maxContainerRestarts a) (maxContainerRestarts b)); try lia; simpl negb; cbn iota.
    + rewrite <- (app_nil_r (time_rank (rpCreation a))), <- (app_nil_r (time_rank (rpCreation b))), lex_time. done.
    + destruct (Z.ltb_spec (maxContainerRestarts b) (maxContainerRestarts a)), (Z.ltb_spec (- maxContainerRestarts a) (- maxContainerRestarts b)); lia || done.
Qed.

#[export] Instance active_less_laws : LessLaws active_less.
Proof.
  split; [intros a b|intros a b c]; rewrite !active_less_lex; [apply lex_asym|by apply lex_negtrans].
Qed.

Definition active_le (a b : RPod) : Prop := active_less b a = false.
#[export] Instance active_le_dec : RelDecision active_le.
Proof. intros a b. unfold active_le. apply _. Defined.

#[export] Instance merge_sort_active : SortActive.
Proof.
  refine {| sort_active := merge_sort active_le |}.
  - intros l. apply merge_sort_Permutation.
  - intros l. apply Sorted_merge_sort. intros a b. unfold active_le. destruct (active_less b a) eqn:E; [right; by apply less_asym|by left].
Defined.

(** ** Slow start *)

(** The errors among the first [n] calls after [calls] of them. *)
Definition errors_of (fn : nat → option string) (calls n : Z) : list string := omap fn (seq (Z.to_nat calls) (Z.to_nat n)).

Lemma errors_of_app fn calls n m :
  0 ≤ calls → 0 ≤ n → 0 ≤ m → errors_of fn calls (n + m) = errors_of fn calls n ++ errors_of fn (calls + n) m.
Proof.
  intros. unfold errors_of. rewrite !Z2Nat.inj_add by lia. by rewrite seq_app, omap_app.
Qed.

Lemma errors_of_length fn calls n : 0 ≤ n → Z.of_nat (length (errors_of fn calls n)) ≤ n.
Proof.
  intros. unfold errors_of. transitivity (Z.of_nat (length (seq (Z.to_nat calls) (Z.to_nat n)))); [|rewrite length_seq; lia].
  apply inj_le. induction (seq _ _) as [|x l IH]; csimpl; [lia|]. destruct (fn x); csimpl; lia.
Qed.

Lemma some_triple {A B C} (a a' : A) (b : B) (c c' : C) : a = a' → c = c' → Some (a, b, c) = Some (a', b, c').
Proof. by intros -> ->. Qed.

(** The loop makes [n] more calls, all of those that remain unless one fails; a batch is at
    most one longer than what went before it. *)
Lemma batch_loop_spec fuel fn size remaining successes calls :
  0 ≤ calls → 0 < size ≤ calls + 1 → 0 ≤ remaining < Z.of_nat fuel →
  ∃ n, batch_loop fuel fn (Z.min size remaining) remaining successes calls =
    Some (successes + n - Z.of_nat (length (errors_of fn calls n)), head (errors_of fn calls n), calls + n) ∧
    0 ≤ n ≤ remaining ∧ (errors_of fn calls n = [] → n = remaining) ∧
    ∀ i err, fn i = Some err → calls ≤ Z.of_nat i < calls + n → calls + n ≤ 2 * Z.of_nat i + 1.
Proof.
  revert size remaining successes calls. induction fuel as [|fuel IH]; intros size remaining successes calls Hc Hs Hr; [lia|].
  cbn [batch_loop]. destruct (Z.leb_spec (Z.min size remaining) 0) as [Hle|Hgt].
  { exists 0. rewrite Z.add_0_r. change (errors_of fn calls 0) with (@nil string). split; [apply some_triple; simpl; lia|]. split; [lia|]. split; [lia|]. intros; lia. }
  set (b := Z.min size remaining) in *. fold (errors_of fn calls b). pose proof (errors_of_length fn calls b ltac:(lia)) as Hlen.
  destruct (errors_of fn calls b) as [|e errs] eqn:Ee.
  - destruct (IH (2 * b) (remaining - b) (successes + (b - Z.of_nat 0)) (calls + b)) as (n & En & Hn & Hall & Hi); [lia..|].
    exists (b + n). rewrite errors_of_app, Ee by lia. simpl app. simpl length. rewrite En. split; [apply some_triple; simpl; lia|]. split; [lia|].
    split; [intros He; specialize (Hall He); lia|]. intros i err Hfi Hrange.
    destruct (decide (Z.of_nat i < calls + b)) as [Hlt|Hge]; [|rewrite Z.add_assoc; apply (Hi i err); [done|lia]].
    exfalso. assert (err ∈ errors_of fn calls b) as Hin; [|rewrite Ee in Hin; by apply elem_of_nil in Hin].
    apply list_elem_of_omap. exists i. split; [|done]. apply elem_of_seq. lia.
  - exists b. rewrite Ee. split; [apply some_triple; simpl; lia|]. split; [lia|]. split; [done|]. intros. lia.
Qed.

Lemma slowStartBatch_total count fn :
  ∃ n, slowStartBatch (batches count) count SlowStartInitialBatchSize fn =
    Some (n - Z.of_nat (length (errors_of fn 0 n)), head (errors_of fn 0 n), n) ∧
    0 ≤ n ≤ Z.max 0 count ∧ (errors_of fn 0 n = [] → n = Z.max 0 count) ∧
    ∀ i err, fn i = Some err → Z.of_nat i < n → n ≤ 2 * Z.of_nat i + 1.
Proof.
  unfold slowStartBatch, batches, SlowStartInitialBatchSize. destruct (decide (0 ≤ count)) as [Hc|Hc].
  - rewrite Z.min_comm. destruct (batch_loop_spec (S (S (Z.to_nat count))) fn 1 count 0 0) as (n & -> & Hn & Hall & Hi); [lia..|].
    exists n. split; [apply some_triple; lia|]. split; [lia|]. split; [intros; rewrite Z.max_r by lia; auto|]. intros i err Hf Hin. apply (Hi i err); [done|lia].
  - exists 0. cbn [batch_loop]. destruct (Z.leb_spec (Z.min count 1) 0); [|lia]. split; [done|]. split; [lia|]. split; [lia|]. intros; lia.
Qed.

(** ** The expectations of one controller *)

(** The controller with the key [k] waits for [a] creations and for the deletion of the
    pods [X]. *)
Definition tracks (u : UIDTracking) (k : string) (a : Z) (X : gset string) : Prop :=
  match counts u !! k with
  | Some e => add e = a ∧ del e = Z.of_nat (size X)
  | None => a = 0 ∧ X = ∅
  end ∧ default ∅ (uidStore u !! k) = X.

(** Counters that are far from the ends of their range. *)
Definition small (a : Z) (X : gset string) : Prop := 0 ≤ a < 2 ^ 31 ∧ Z.of_nat (size X) < 2 ^ 31.

Lemma tracks_creation u k a X : tracks u k a X → small a X → 1 ≤ a → tracks (uid_CreationObserved u k) k (a - 1) X.
Proof.
  unfold tracks, small, uid_CreationObserved, CreationObserved, LowerExpectations, GetExpectations. intros [Hc Hx] Hs Ha. simpl.
  destruct (counts u !! k) as [e|]; [|lia]. rewrite lookup_insert_eq. simpl. destruct Hc as [-> ->].
  rewrite !wrap64_in by (unfold in64; lia). split; [lia|done].
Qed.

Lemma tracks_deletion u k a X x : tracks u k a X → small a X → tracks (uid_DeletionObserved u k x) k a (X ∖ {[x]}).
Proof.
  unfold tracks, small, uid_DeletionObserved, GetUIDs. intros [Hc Hx] Hs.
  assert (x ∉ X → X ∖ {[x]} = X) as Hnot by set_solver.
  destruct (uidStore u !! k) as [uids|] eqn:Eu; simpl in Hx; subst X; [|rewrite Eu; rewrite Hnot by set_solver; done].
  case_bool_decide as Hin; [|by rewrite Hnot, Eu]. simpl. rewrite lookup_insert_eq. split; [|done].
  unfold DeletionObserved, LowerExpectations, GetExpectations. destruct (counts u !! k) as [e|]; [|set_solver].
  rewrite lookup_insert_eq. simpl. destruct Hc as [-> ->].
  rewrite (size_difference_alt uids {[x]}). replace (uids ∩ {[x]}) with ({[x]} : gset string) by set_solver. rewrite size_singleton.
  assert (1 ≤ size uids)%nat by (rewrite <- (size_singleton (C:=gset string) x); apply subseteq_size; set_solver).
  rewrite !wrap64_in by (unfold in64; lia). lia.
Qed.

Lemma tracks_ExpectCreations now u k a d : tracks u k a ∅ → tracks (uid_ExpectCreations now u k d) k d ∅.
Proof. intros [_ Hx]. unfold tracks, uid_ExpectCreations, ExpectCreations, SetExpectations. simpl. by rewrite lookup_insert_eq. Qed.

Lemma tracks_ExpectDeletions now u k keys : tracks (uid_ExpectDeletions now u k keys) k 0 (list_to_set keys).
Proof. unfold tracks, uid_ExpectDeletions, ExpectDeletions, SetExpectations. simpl. by rewrite !lookup_insert_eq. Qed.

Lemma tracks_satisfied now u k a X :
  tracks u k a X → 0 ≤ a → (∀ e, counts u !! k = Some e → isExpired now e = false) → uid_Satisfied now u k = true → a = 0 ∧ X = ∅.
Proof.
  unfold tracks, uid_Satisfied, SatisfiedExpectations, GetExpectations. intros [Hc _] Ha Hexp.
  destruct (counts u !! k) as [e|]; [|done]. rewrite (Hexp e) by done. destruct (Fulfilled e) eqn:Ef; [|done]. intros _.
  unfold Fulfilled in Ef. rewrite andb_true_iff, !Z.leb_le in Ef. split; [lia|]. apply leibniz_equiv, size_empty_inv. lia.
Qed.

Lemma tracks_skip n u k a X :
  tracks u k a X → small a X → Z.of_nat n ≤ a → tracks (Nat.iter n (λ u, uid_CreationObserved u k) u) k (a - Z.of_nat n) X.
Proof.
  intros Ht Hs. induction n as [|n IH]; intros Hn; [by rewrite Z.sub_0_r|]. simpl Nat.iter.
  replace (a - Z.of_nat (S n)) with (a - Z.of_nat n - 1) by lia. unfold small in *. apply tracks_creation; [apply IH; lia|unfold small; lia|lia].
Qed.

(** The calls that fail. *)
Definition failed {A} (g : A → option string) (x : A) : bool := match g x with Some _ => true | None => false end.

Lemma tracks_failures {A} (f : A → string) (g : A → option string) l u k a X :
  tracks u k a X → small a X →
  tracks (fold_left (λ u x, match g x with Some _ => uid_DeletionObserved u k (f x) | None => u end) l u) k a
    (X ∖ list_to_set (f <$> filter (λ x, failed g x = true) l)).
Proof.
  revert u X. induction l as [|x l IH]; intros u X Ht Hs; csimpl; [by rewrite difference_empty_L|].
  destruct (g x) eqn:Eg.
  - rewrite filter_cons_True by (unfold failed; by rewrite Eg). csimpl. rewrite <- difference_difference_l_L. apply IH; [by apply tracks_deletion|].
    unfold small in *. assert (size (X ∖ {[f x]}) ≤ size X)%nat by (apply subseteq_size; set_solver). lia.
  - rewrite filter_cons_False by (unfold failed; by rewrite Eg). by apply IH.
Qed.

(** ** Managing replicas *)

Section manage.
Context `{SortActive} (now burst : Z) (u : UIDTracking) (k : string) (replicas : Z) (pods : list RPod).
Context (create : nat → CreateResult) (delete : RPod → option string).
Context (Hburst : 0 ≤ burst < 2 ^ 31).

Let n := Z.of_nat (length pods).

(** The errors of the first [c] creations. *)
Definition create_errors (c : Z) : list string := errors_of (λ i, create_error (create i)) 0 c.

(** Too few pods: creations are tried and, once they succeeded, waited for. *)
Lemma manage_create a :
  n < replicas → tracks u k a ∅ →
  ∃ m, manageReplicas now burst u k replicas pods create delete = Some m ∧ mDeletions m = [] ∧
    0 ≤ mCreations m ≤ Z.min burst (replicas - n) ∧ mErr m = head (create_errors (mCreations m)) ∧
    (create_errors (mCreations m) = [] → mCreations m = Z.min burst (replicas - n)) ∧
    tracks (mExpectations m) k (mCreations m - Z.of_nat (length (create_errors (mCreations m)))) ∅.
Proof using Hburst.
  intros Hn Ht. unfold manageReplicas. fold n. destruct (Z.ltb_spec (n - replicas) 0); [|lia].
  replace (if burst <? (n - replicas) * -1 then burst else (n - replicas) * -1) with (Z.min burst (replicas - n))
    by (destruct (Z.ltb_spec burst ((n - replicas) * -1)); lia).
  set (d := Z.min burst (replicas - n)).
  destruct (slowStartBatch_total d (λ i, create_error (create i))) as (c & -> & Hc & Hall & _). fold (create_errors c) in *. simpl.
  pose proof (errors_of_length (λ i, create_error (create i)) 0 c ltac:(lia)) as Hlen. fold (create_errors c) in Hlen.
  eexists. split; [done|]. simpl. split; [done|]. split; [lia|]. split; [done|]. split; [intros E; specialize (Hall E); lia|].
  pose proof (tracks_skip (Z.to_nat (d - (c - Z.of_nat (length (create_errors c))))) _ k d ∅ (tracks_ExpectCreations now u k a d Ht)) as Hskip.
  replace (d - Z.of_nat _) with (c - Z.of_nat (length (create_errors c))) in Hskip by lia.
  apply Hskip; [unfold small; rewrite size_empty; lia|lia].
Qed.

(** The pods whose deletion was accepted. *)
Definition accepted (l : list RPod) : list RPod := filter (λ p, delete p = None) l.

Lemma accepted_keys l :
  NoDup (PodKey <$> l) →
  list_to_set (PodKey <$> l) ∖ list_to_set (PodKey <$> filter (λ p, failed delete p = true) l) =
    (list_to_set (PodKey <$> accepted l) : gset string).
Proof.
  unfold accepted. induction l as [|p l IH]; intros Hnd; [set_solver|]. csimpl in *. apply NoDup_cons in Hnd as [Hp Hnd]. specialize (IH Hnd).
  assert (∀ P (D : ∀ p, Decision (P p)), PodKey p ∉ (list_to_set (PodKey <$> filter P l) : gset string)) as Hnot.
  { intros P D Hin. apply Hp. apply elem_of_list_to_set, list_elem_of_fmap in Hin as (q & -> & Hq). apply list_elem_of_fmap. exists q.
    split; [done|]. by apply list_elem_of_filter in Hq as [_ ?]. }
  destruct (delete p) as [err|] eqn:Ep.
  - rewrite (filter_cons_True _ p), (filter_cons_False _ p) by (unfold failed; by rewrite Ep). csimpl. rewrite <- IH.
    assert (PodKey p ∉ (list_to_set (PodKey <$> l) : gset string)) by (by rewrite elem_of_list_to_set). set_solver.
  - rewrite (filter_cons_False _ p), (filter_cons_True _ p) by (unfold failed; by rewrite Ep). csimpl. rewrite <- IH. pose proof (Hnot (λ p, failed delete p = true) _).
    set_solver.
Qed.

Lemma delete_order d :
  0 ≤ d → d ≤ n →
  ∃ kept, (getPodsToDelete pods d).1 ++ kept ≡ₚ pods ∧ Z.of_nat (length (getPodsToDelete pods d).1) = d ∧
    ∀ p q, p ∈ (getPodsToDelete pods d).1 → q ∈ kept → active_less q p = false.
Proof.
  intros Hd Hdn. unfold getPodsToDelete. simpl. fold n. destruct (Z.ltb_spec d n).
  - exists (drop (Z.to_nat d) (sort_active pods)). rewrite take_drop. split; [apply sort_active_perm|].
    split; [rewrite length_take, (Permutation_length (sort_active_perm pods)); lia|].
    pose proof (sort_active_sorted pods) as Hs. rewrite <- (take_drop (Z.to_nat d) (sort_active pods)) in Hs.
    apply Sorted_StronglySorted in Hs; [|intros x y z Hxy Hyz; by eapply less_negtrans].
    intros p q Hp Hq. eapply StronglySorted_app_1_elem_of in Hs; done.
  - exists (drop (Z.to_nat d) pods). rewrite take_drop. split; [done|]. split; [rewrite length_take; lia|].
    intros p q _. rewrite drop_ge by lia. by intros ?%elem_of_nil.
Qed.

(** Too many pods: the first in the order are deleted, and the deletions that were accepted
    are waited for. *)
Lemma manage_delete :
  0 ≤ replicas < n → NoDup (PodKey <$> pods) →
  ∃ m kept, manageReplicas now burst u k replicas pods create delete = Some m ∧ mCreations m = 0 ∧ mErr m = head (omap delete (mDeletions m)) ∧
    mDeletions m ++ kept ≡ₚ pods ∧ Z.of_nat (length (mDeletions m)) = Z.min burst (n - replicas) ∧
    (∀ p q, p ∈ mDeletions m → q ∈ kept → active_less q p = false) ∧
    tracks (mExpectations m) k 0 (list_to_set (PodKey <$> accepted (mDeletions m))).
Proof using Hburst.
  intros Hn Hnd. unfold manageReplicas. fold n. destruct (Z.ltb_spec (n - replicas) 0); [lia|]. destruct (Z.ltb_spec 0 (n - replicas)); [|lia].
  replace (if burst <? n - replicas then burst else n - replicas) with (Z.min burst (n - replicas))
    by (destruct (Z.ltb_spec burst (n - replicas)); lia).
  set (d := Z.min burst (n - replicas)).
  destruct (delete_order d) as (kept & Hperm & Hlen & Hmin); [lia|lia|].
  set (del := (getPodsToDelete pods d).1) in *. eexists _, kept. split; [done|]. cbn [mCreations mErr mDeletions mExpectations].
  assert (NoDup (PodKey <$> del)) as Hnd'.
  { rewrite <- Hperm, fmap_app in Hnd. by apply NoDup_app in Hnd as [? _]. }
  do 5 (split; [done|]). rewrite <- accepted_keys by done.
  apply (tracks_failures PodKey delete del); [apply tracks_ExpectDeletions|].
  unfold small. unfold getPodKeys. rewrite size_list_to_set, length_fmap by done. lia.
Qed.
(** The right number of pods: nothing happens. *)
Lemma manage_equal : n = replicas → manageReplicas now burst u k replicas pods create delete = Some (mkManaged None u 0 []).
Proof using.
  intros E. unfold manageReplicas. fold n. destruct (Z.ltb_spec (n - replicas) 0); [lia|]. by destruct (Z.ltb_spec 0 (n - replicas)); [lia|].
Qed.
End manage.
