(* ===== verification/ReplicaSetSystem.v ===== *)
(** * A replica set, its pods and what the informer shows of them

    The controller of [ReplicaSet.v] beside an API server that holds the pods and an informer
    that shows them late: the pods it lists may be gone, those that were created may not be
    listed yet, and the handlers run after the list has changed. A sync goes through
    [syncReplicaSet] and [manageReplicas] step by step: it checks the expectations, lists the
    pods, sets the new expectations, calls the server once for each creation or deletion and
    takes back the expectations of the calls that failed. Pods end, the informer moves and
    handlers run between any two of these steps. [sync_rest_runs] shows that the functions of
    [ReplicaSet.v] are what these steps amount to when nothing comes in between. *)

From S2P Require Import Prelude GoStrings GoInt Store LabelSelector DeploymentScaling SchedulingQueue Expectations ControllerRef ReplicaSet ReplicaSetSpec.

(** What the informer tells its handlers. *)
Inductive note : Type :=
  | NAdd (p : RPod)
  | NUpdate (old cur : RPod)
  | NDelete (p : RPod).

(** How far a sync has come: it has checked the expectations, listed and claimed the pods,
    is creating [diff] pods, takes back expectations, or is deleting pods. [unlisted] counts
    the pods that were alive and not listed when the sync listed them, and [kept] has the
    listed pods that it did not choose to delete. *)
Inductive work : Type :=
  | Checked (rs : RSet) (sel : Selector) (rsNeedsSync : bool)
  | Listed (rs : RSet) (filteredPods : list RPod) (unlisted : nat)
  | Creating (rs : RSet) (diff calls successfulCreations : Z) (unlisted : nat)
  | Skipping (rs : RSet) (skippedPods : Z)
  | Deleting (rs : RSet) (podsToDelete : list RPod) (kept : gset string).

(** [live] are the keys of the active pods on the server, [used] those of all pods that the
    controller created and [lost] those of pods that ended without the controller knowing;
    [seen] has the active pods that the informer lists and [announced] those it added.
    [doubt] says that a sync went on because its expectations had timed out, or that a pod
    was created although its creation was answered with an error. *)
Record system : Type := mkSystem {
  live : gset string;
  used : gset string;
  lost : gset string;
  announced : gset string;
  seen : gmap string RPod;
  notes : list note;
  exps : UIDTracking;
  sets : list RSet;
  doubt : bool;
  syncing : option work;
}.

Definition keys (l : list RPod) : gset string := list_to_set (PodKey <$> l).

Section system.
Context `{SortByKey, SortActive} (kind namespace name uid : string) (selector : Selector) (burst : Z).

(** The replica set, whose size can change. *)
Definition is_ours (rs : RSet) : Prop :=
  rsNamespace rs = namespace ∧ rsName rs = name ∧ rsUID rs = uid ∧ 0 ≤ rsReplicas rs ∧ LabelSelectorAsSelector (rsSelector rs) = Ok selector.

Definition listed (l : list RSet) : Prop := ∃ rs, rs_Get l namespace name = Some rs ∧ is_ours rs.

Definition our_key : string := if 0 <? slen namespace then namespace +:+ "/" +:+ name else name.

(** Its pods, and the pods it has nothing to do with. *)
Definition ours (p : RPod) : Prop :=
  rpNamespace p = namespace ∧ Matches selector (rpLabels p) = true ∧
  ∃ ref, GetControllerOf p = Some ref ∧ OwnerKind ref = kind ∧ OwnerName ref = name ∧ OwnerUID ref = uid.

Definition foreign (p : RPod) : Prop :=
  IsPodActive p = false ∨
  match GetControllerOf p with Some ref => OwnerUID ref ≠ uid | None => Matches selector (rpLabels p) = false end.

Definition handle (l : list RSet) (u : UIDTracking) (n : note) : UIDTracking :=
  hExpectations
    (match n with
     | NAdd p => addPod kind l u p
     | NUpdate old cur => updatePod kind l u old cur
     | NDelete p => deletePod kind l u p
     end).

(** What happens around the controller. *)
Inductive env_step : system → system → Prop :=
  (** A pod ends, or somebody deletes it. *)
  | env_lose L U X A S N E R d y k :
      env_step (mkSystem L U X A S N E R d y) (mkSystem (L ∖ {[k]}) U (X ∪ {[k]}) A S N E R d y)
  (** Somebody changes the replica set. *)
  | env_sets L U X A S N E R d y R' :
      listed R' → env_step (mkSystem L U X A S N E R d y) (mkSystem L U X A S N E R' d y)
  (** The informer adds a pod. *)
  | env_see_add L U X A S N E R d y p :
      ours p → PodKey p ∈ U ∖ A → (IsPodActive p = false → PodKey p ∉ L) →
      env_step (mkSystem L U X A S N E R d y)
        (mkSystem L U X (A ∪ {[PodKey p]}) (if IsPodActive p then <[PodKey p := p]> S else S) (N ++ [NAdd p]) E R d y)
  (** It shows a change of a pod. *)
  | env_see_update L U X A S N E R d y old p :
      ours p → S !! PodKey p = Some old → IsPodActive p = true →
      env_step (mkSystem L U X A S N E R d y) (mkSystem L U X A (<[PodKey p := p]> S) (N ++ [NUpdate old p]) E R d y)
  (** It shows that a pod is being deleted or has ended, as often as it likes. *)
  | env_see_inactive L U X A S N E R d y old p :
      ours p → ours old → PodKey old = PodKey p → PodKey p ∈ A → PodKey p ∉ L → IsPodActive p = false →
      env_step (mkSystem L U X A S N E R d y) (mkSystem L U X A (delete (PodKey p) S) (N ++ [NUpdate old p]) E R d y)
  (** It shows that a pod is gone; what it remembers of the pod can be old. *)
  | env_see_delete L U X A S N E R d y p :
      ours p → PodKey p ∈ A → PodKey p ∉ L →
      env_step (mkSystem L U X A S N E R d y) (mkSystem L U X A (delete (PodKey p) S) (N ++ [NDelete p]) E R d y)
  (** A handler runs. *)
  | env_handle L U X A S n N E R d y :
      env_step (mkSystem L U X A S (n :: N) E R d y) (mkSystem L U X A S N (handle R E n) R d y).

(** Whether a sync goes on only because the expectations are too old. *)
Definition given_up (now : Z) (E : UIDTracking) : bool :=
  match GetExpectations (counts E) our_key with
  | Some e => negb (Fulfilled e) && isExpired now e
  | None => false
  end.

(** [manageReplicas] up to the expectations it sets, and the work that it goes on with. *)
Definition start_managing (now : Z) (expectations : UIDTracking) (rs : RSet) (filteredPods : list RPod) (unlisted : nat) :
    UIDTracking * option work :=
  let diff := Z.of_nat (length filteredPods) - rsReplicas rs in
  if diff <? 0 then
    let diff := diff * -1 in
    let diff := if burst <? diff then burst else diff in
    (uid_ExpectCreations now expectations (rs_key rs) diff, Some (Creating rs diff 0 0 unlisted))
  else if 0 <? diff then
    let diff := if burst <? diff then burst else diff in
    let podsToDelete := (getPodsToDelete filteredPods diff).1 in
    (uid_ExpectDeletions now expectations (rs_key rs) (getPodKeys podsToDelete),
     Some (Deleting rs podsToDelete (keys filteredPods ∖ keys podsToDelete)))
  else (expectations, None).

(** The pod that the server has made during a call, if any. *)
Definition new_pod (made : option string) : gset string := match made with Some k => {[k]} | None => ∅ end.

(** The steps of the worker that syncs the replica set. *)
Inductive sync_step : system → system → Prop :=
  (** The replica set and its expectations are read. *)
  | sync_begin L U X A S N E R d now rs sel b :
      sync_check now R E our_key = CheckGo rs sel b →
      sync_step (mkSystem L U X A S N E R d None) (mkSystem L U X A S N E R (d || given_up now E) (Some (Checked rs sel b)))
  (** The pods are listed and claimed. *)
  | sync_list L U X A S N E R d rs sel b allPods others a pods claims :
      b && negb (rsDeleting rs) = true → allPods ≡ₚ (map_to_list S).*2 ++ others → Forall foreign others →
      claimPods rs sel a (FilterActivePods allPods) = (pods, [], claims) →
      sync_step (mkSystem L U X A S N E R d (Some (Checked rs sel b))) (mkSystem L U X A S N E R d (Some (Listed rs pods (size (L ∖ dom S)))))
  (** The replicas are not managed. *)
  | sync_unmanaged L U X A S N E R d rs sel b :
      b && negb (rsDeleting rs) = false →
      sync_step (mkSystem L U X A S N E R d (Some (Checked rs sel b))) (mkSystem L U X A S N E R d None)
  (** The expectations are set. *)
  | sync_expect L U X A S N E R d now rs pods u :
      sync_step (mkSystem L U X A S N E R d (Some (Listed rs pods u)))
        (mkSystem L U X A S N (start_managing now E rs pods u).1 R d (start_managing now E rs pods u).2)
  (** A pod is created: a timeout may hide a creation, and so may another error. *)
  | sync_create L U X A S N E R d rs diff c n u r made :
      c < diff → (r = Created → is_Some made) → (∀ k, made = Some k → k ∉ U) →
      sync_step (mkSystem L U X A S N E R d (Some (Creating rs diff c n u)))
        (mkSystem (L ∪ new_pod made) (U ∪ new_pod made) X A S N E R
          (d || (bool_decide (is_Some (create_error r)) && bool_decide (is_Some made)))
          (Some (Creating rs diff (c + 1) (if create_error r then n else n + 1) u)))
  (** All were created, or the batches stop after a failure. *)
  | sync_created L U X A S N E R d rs diff c n u :
      c = diff ∨ n < c →
      sync_step (mkSystem L U X A S N E R d (Some (Creating rs diff c n u))) (mkSystem L U X A S N E R d (Some (Skipping rs (diff - n))))
  (** The expectation of a creation that failed or was skipped is taken back. *)
  | sync_skip L U X A S N E R d rs k :
      0 < k →
      sync_step (mkSystem L U X A S N E R d (Some (Skipping rs k)))
        (mkSystem L U X A S N (uid_CreationObserved E (rs_key rs)) R d (Some (Skipping rs (k - 1))))
  (** A pod is deleted, in any order. *)
  | sync_delete L U X A S N E R d rs l1 p l2 kept :
      sync_step (mkSystem L U X A S N E R d (Some (Deleting rs (l1 ++ p :: l2) kept)))
        (mkSystem (L ∖ {[PodKey p]}) U X A S N E R d (Some (Deleting rs (l1 ++ l2) kept)))
  (** The deletion of a pod is answered with an error, which may hide that it was deleted. *)
  | sync_not_deleted L U X A S N E R d rs l1 p l2 kept hidden :
      hidden ⊆ {[PodKey p]} →
      sync_step (mkSystem L U X A S N E R d (Some (Deleting rs (l1 ++ p :: l2) kept)))
        (mkSystem (L ∖ hidden) U (X ∪ hidden) A S N (uid_DeletionObserved E (rs_key rs) (PodKey p)) R d (Some (Deleting rs (l1 ++ l2) kept)))
  (** The sync ends. *)
  | sync_end L U X A S N E R d rs w :
      w = Skipping rs 0 ∨ (∃ kept, w = Deleting rs [] kept) →
      sync_step (mkSystem L U X A S N E R d (Some w)) (mkSystem L U X A S N E R d None).

Inductive reachable : system → Prop :=
  | reach_start S R :
      listed R → (∀ k p, S !! k = Some p → PodKey p = k ∧ ours p ∧ IsPodActive p = true) →
      reachable (mkSystem (dom S) (dom S) ∅ (dom S) S [] NewUIDTracking R false None)
  | reach_env s s' : reachable s → env_step s s' → reachable s'
  | reach_sync s s' : reachable s → sync_step s s' → reachable s'.

(** ** The handlers *)

Definition creation (n : note) : bool := match n with NAdd p => negb (rpDeleting p) | _ => false end.

Definition removal (n : note) : option string :=
  match n with
  | NAdd p | NUpdate _ p => if rpDeleting p then Some (PodKey p) else None
  | NDelete p => Some (PodKey p)
  end.

Definition about_ours (n : note) : Prop :=
  match n with
  | NAdd p | NDelete p => ours p
  | NUpdate old p => ours old ∧ ours p ∧ PodKey old = PodKey p
  end.

Lemma ours_resolve l p :
  listed l → ours p → ∃ ref rs, GetControllerOf p = Some ref ∧ resolveControllerRef kind l (rpNamespace p) ref = Some rs ∧ rs_key rs = our_key.
Proof.
  intros (rs & Hget & Hns & Hname & Huid & _) (-> & _ & ref & Href & Hkind & Hn & Hu). exists ref, rs. split; [done|].
  unfold resolveControllerRef, rs_key, our_key. rewrite Hkind, bool_decide_true by done. simpl. rewrite Hn, Hget, bool_decide_true by congruence.
  by rewrite Hns, Hname.
Qed.

Lemma deletePod_tracks l u p a X :
  listed l → ours p → tracks u our_key a X → small a X → tracks (hExpectations (deletePod kind l u p)) our_key a (X ∖ {[PodKey p]}).
Proof.
  intros Hl Hp Ht Hs. destruct (ours_resolve l p Hl Hp) as (ref & rs & Eref & Ers & Ekey). unfold deletePod. rewrite Eref, Ers, Ekey.
  by apply tracks_deletion.
Qed.

Lemma small_difference a X Y : small a X → small a (X ∖ Y).
Proof. unfold small. intros ?. assert (size (X ∖ Y) ≤ size X)%nat by (apply subseteq_size; set_solver). lia. Qed.

Lemma only_removed (X : gset string) k x : x ∈ X → x ∉ X ∖ {[k]} → Some k = Some x.
Proof. intros Hx Hn. f_equal. destruct (decide (x = k)); [done|]. set_solver. Qed.

Lemma updatePod_tracks l u old p a X :
  listed l → ours old → ours p → PodKey old = PodKey p → tracks u our_key a X → small a X →
  tracks (hExpectations (updatePod kind l u old p)) our_key a X ∨
  (rpDeleting p = true ∧ tracks (hExpectations (updatePod kind l u old p)) our_key a (X ∖ {[PodKey p]})).
Proof.
  intros Hl Hold Hp Ekey Ht Hs. unfold updatePod. case_bool_decide; [by left|]. destruct (rpDeleting p); [right; split; [done|]|left].
  - pose proof (deletePod_tracks l u p a X Hl Hp Ht Hs) as Ht1. case_bool_decide; simpl; [done|].
    replace (X ∖ {[PodKey p]}) with (X ∖ {[PodKey p]} ∖ {[PodKey old]}) by (rewrite Ekey; set_solver).
    apply deletePod_tracks; try done. by apply small_difference.
  - destruct (ours_resolve l p Hl Hp) as (ref & rs & -> & -> & _). done.
Qed.

Lemma handle_tracks l u n a X :
  listed l → about_ours n → tracks u our_key a X → small a X → (creation n = true → 1 ≤ a) →
  ∃ X', tracks (handle l u n) our_key (a - if creation n then 1 else 0) X' ∧ X' ⊆ X ∧ ∀ x, x ∈ X → x ∉ X' → removal n = Some x.
Proof.
  intros Hl Hn Ht Hs Ha. unfold handle. destruct n as [p|old p|p]; simpl in *.
  - unfold addPod. destruct (rpDeleting p); simpl in *.
    + exists (X ∖ {[PodKey p]}). rewrite Z.sub_0_r. split; [by apply deletePod_tracks|]. split; [set_solver|apply only_removed].
    + exists X. destruct (ours_resolve l p Hl Hn) as (ref & rs & -> & -> & ->). simpl. split; [apply tracks_creation; auto|]. split; [done|]. done.
  - destruct Hn as (Hold & Hp & Ekey). rewrite Z.sub_0_r. destruct (updatePod_tracks l u old p a X) as [Ht'|[Hd Ht']]; try done.
    + exists X. split; [done|]. split; [done|]. done.
    + rewrite Hd. exists (X ∖ {[PodKey p]}). split; [done|]. split; [set_solver|apply only_removed].
  - rewrite Z.sub_0_r. exists (X ∖ {[PodKey p]}). split; [by apply deletePod_tracks|]. split; [set_solver|apply only_removed].
Qed.

Lemma filter_keeps {A} (P : A → Prop) `{∀ x, Decision (P x)} (l : list A) : (∀ x, x ∈ l → P x) → filter P l = l.
Proof.
  induction l as [|x l IH]; intros Hl; [done|]. rewrite filter_cons_True by (apply Hl; left). f_equal. apply IH. intros y Hy. apply Hl. by right.
Qed.

Lemma filter_drops {A} (P : A → Prop) `{∀ x, Decision (P x)} (l : list A) : (∀ x, x ∈ l → ¬ P x) → filter P l = [].
Proof.
  intros Hl. apply elem_of_nil_inv. intros x [Hp Hx]%list_elem_of_filter. by apply (Hl x).
Qed.

(** The pods that are listed are claimed as they are, and no others. *)
Definition match_all (p : RPod) : bool := if negb (Matches selector (GetLabels p)) then false else all_filters [] p.

Lemma ours_claim del can patch p :
  ours p → claimable uid del can patch match_all p = true ∧ adoptable del match_all p = false ∧ releasable uid del match_all p = false.
Proof.
  intros (_ & Hm & ref & Href & _ & _ & Hu). unfold claimable, adopted, adoptable, releasable, owned, orphan, match_all. rewrite Href. simpl. rewrite Hm.
  rewrite bool_decide_true by done. done.
Qed.

Lemma foreign_claim del can patch p :
  foreign p → IsPodActive p = true →
  claimable uid del can patch match_all p = false ∧ adoptable del match_all p = false ∧ releasable uid del match_all p = false.
Proof.
  intros [?|Hf] Ha; [congruence|]. unfold claimable, adopted, adoptable, releasable, owned, orphan, match_all. destruct (GetControllerOf p) as [ref|].
  - rewrite bool_decide_false by done. done.
  - simpl. rewrite Hf. done.
Qed.

Lemma claimPods_ours rs a allPods l others :
  is_ours rs → allPods ≡ₚ l ++ others → Forall (λ p, ours p ∧ IsPodActive p = true) l → Forall foreign others →
  ∃ pods claims, claimPods rs selector a (FilterActivePods allPods) = (pods, [], claims) ∧ pods ≡ₚ l.
Proof.
  intros (_ & _ & Huid & _) Hall Hl Ho. unfold claimPods, ClaimPods. rewrite claim_loop_spec by by left. rewrite Huid. fold match_all.
  rewrite Forall_forall in Hl, Ho.
  assert (∀ p, p ∈ FilterActivePods allPods → (ours p ∨ foreign p) ∧ IsPodActive p = true) as Hin.
  { intros p [Ha Hp]%list_elem_of_filter. rewrite Hall, elem_of_app in Hp. split; [|done]. destruct Hp as [Hp|Hp]; [left; by apply Hl|right; by apply Ho]. }
  eexists _, _. split.
  - f_equal. f_equal. apply elem_of_nil_inv. intros e (p & Hp & He)%list_elem_of_omap. unfold claim_error in He.
    destruct (Hin p Hp) as [[Hour|Hfor] Ha].
    + destruct (ours_claim (rsDeleting rs) None (λ _, None) p Hour) as (_ & E1 & E2). by rewrite E1, E2 in He.
    + destruct (foreign_claim (rsDeleting rs) None (λ _, None) p Hfor Ha) as (_ & E1 & E2). by rewrite E1, E2 in He.
  - unfold FilterActivePods. rewrite Hall, !filter_app.
    assert (∀ del can patch, filter (λ p, claimable uid del can patch match_all p = true) (filter (λ p, IsPodActive p = true) others) = []) as ->.
    { intros. apply filter_drops. intros p [Ha Hp]%list_elem_of_filter Hc.
      destruct (foreign_claim del can patch p (Ho p Hp) Ha) as (E & _). congruence. }
    rewrite app_nil_r, (filter_keeps (λ p, IsPodActive p = true)) by (intros p Hp; by apply Hl).
    rewrite filter_keeps; [done|]. intros p Hp. by apply ours_claim, Hl.
Qed.

(** A sync that need not manage the replicas leaves the expectations as they are. *)
Lemma rest_spec now E rs b allPods a l others sy :
  is_ours rs → allPods ≡ₚ l ++ others → Forall (λ p, ours p ∧ IsPodActive p = true) l → Forall foreign others →
  sync_rest burst now E rs selector b allPods a = Some sy →
  if b && negb (rsDeleting rs) then
    ∃ pods m, pods ≡ₚ l ∧ manageReplicas now burst E our_key (rsReplicas rs) pods (aCreate a) (aDelete a) = Some m ∧
      syManaged sy = Some m ∧ syExpectations sy = mExpectations m
  else syManaged sy = None ∧ syExpectations sy = E.
Proof.
  intros Hrs Hall Hl Ho. assert (rs_key rs = our_key) as Hkey by (destruct Hrs as (E1 & E2 & _); unfold rs_key, our_key; by rewrite E1, E2).
  destruct (claimPods_ours rs a allPods l others Hrs Hall Hl Ho) as (pods & claims & Hclaim & Hperm).
  unfold sync_rest. rewrite Hclaim, Hkey. destruct (b && negb (rsDeleting rs)); simpl.
  - destruct (manageReplicas _ _ _ _ _ pods _ _) as [m|] eqn:Em; simpl; [|done]. intros Hsy. exists pods, m. split; [done|]. split; [done|].
    by destruct (updateReplicaSetStatus _ _ _ _) as [[] ?]; simplify_eq.
  - by destruct (updateReplicaSetStatus _ _ _ _) as [[] ?]; intros; simplify_eq.
Qed.

Lemma keys_listed (S : gmap string RPod) pods :
  (∀ k p, S !! k = Some p → PodKey p = k) → pods ≡ₚ (map_to_list S).*2 →
  NoDup (PodKey <$> pods) ∧ list_to_set (PodKey <$> pods) = dom S ∧ length pods = size (dom S).
Proof.
  intros HS Hperm. assert (PodKey <$> (map_to_list S).*2 = (map_to_list S).*1) as E.
  { rewrite <- list_fmap_compose. apply list_fmap_ext. intros i [k p] Hin. apply list_elem_of_lookup_2, elem_of_map_to_list in Hin. by apply HS. }
  assert (NoDup (PodKey <$> pods)) as Hnd by (rewrite Hperm, E; apply NoDup_fst_map_to_list). split; [done|].
  assert (list_to_set (PodKey <$> pods) = dom S) as Hdom.
  { apply set_eq. intros k. rewrite elem_of_list_to_set, Hperm, E, list_elem_of_fmap, elem_of_dom. split.
    - intros ([k' p] & -> & Hin%elem_of_map_to_list). by exists p.
    - intros [p Hp]. exists (k, p). split; [done|]. by apply elem_of_map_to_list. }
  split; [done|]. rewrite <- Hdom, size_list_to_set by done. by rewrite length_fmap.
Qed.

(** The second half of a sync that manages the replicas, when the invariant holds: nothing
    is pending, and what is done stays within the difference. *)
(** ** The invariant *)

Definition pending (U A : gset string) (N : list note) : Z :=
  Z.of_nat (size (U ∖ A)) + Z.of_nat (length (filter (λ n, creation n = true) N)).

(** The creations that a sync has announced and not made, or not taken back. *)
Definition owed (y : option work) : Z :=
  match y with Some (Creating _ diff _ n _) => diff - n | Some (Skipping _ k) => k | _ => 0 end.

(** What the controller waits for: at least the creations that were not made, not announced
    or not handled, and all deletions that the informer does not show yet. *)
Definition awaits (s : system) (a : Z) (D : gset string) : Prop :=
  tracks (exps s) our_key a D ∧ small a D ∧ pending (used s) (announced s) (notes s) + owed (syncing s) ≤ a ∧
  dom (seen s) ∖ live s ⊆ D ∪ lost s ∧
  match syncing s with
  | Some (Checked _ _ true) | Some (Listed _ _ _) => a = 0 ∧ D = ∅
  | Some (Deleting _ todo _) => keys todo ∩ dom (seen s) ⊆ D
  | _ => True
  end.

Definition work_rs (w : work) : RSet :=
  match w with Checked rs _ _ | Listed rs _ _ | Creating rs _ _ _ _ | Skipping rs _ | Deleting rs _ _ => rs end.

(** What a sync knows of the pods [L] that are alive, once it has listed them. *)
Definition work_ok (L X A : gset string) (d : bool) (w : work) : Prop :=
  match w with
  | Checked _ sel _ => sel = selector
  | Listed _ pods u =>
      NoDup (PodKey <$> pods) ∧ keys pods ⊆ A ∧ Z.of_nat (size L) ≤ Z.of_nat (length pods) + Z.of_nat u ∧
      (d = false → u = 0%nat ∧ keys pods ⊆ L ∪ X)
  | Creating rs diff c n u =>
      0 ≤ n ≤ c ∧ c ≤ diff ∧ Z.of_nat (size L) + (diff - c) ≤ rsReplicas rs + Z.of_nat u ∧ (d = false → u = 0%nat)
  | Skipping _ k => 0 ≤ k
  | Deleting rs todo kept =>
      NoDup (PodKey <$> todo) ∧ keys todo ⊆ A ∧ keys todo ## kept ∧ rsReplicas rs ≤ Z.of_nat (size kept) ∧ (d = false → keys todo ∪ kept ⊆ L ∪ X)
  end.

Record inv (s : system) : Prop := {
  inv_awaits : doubt s = false → ∃ a D, awaits s a D;
  inv_listed : listed (sets s);
  inv_live : live s ⊆ used s;
  inv_announced : announced s ⊆ used s;
  inv_seen : dom (seen s) ⊆ announced s;
  inv_shown : live s ∩ announced s ⊆ dom (seen s);
  inv_unseen : used s ∖ announced s ∖ live s ⊆ lost s;
  inv_removal n k : n ∈ notes s → removal n = Some k → k ∉ dom (seen s) ∧ k ∉ live s ∧ k ∈ announced s;
  inv_notes : Forall about_ours (notes s);
  inv_pods k p : seen s !! k = Some p → PodKey p = k ∧ ours p ∧ IsPodActive p = true;
  inv_work w : syncing s = Some w → is_ours (work_rs w) ∧ work_ok (live s) (lost s) (announced s) (doubt s) w;
}.

Lemma active_not_deleting p : IsPodActive p = true → rpDeleting p = false.
Proof. unfold IsPodActive. rewrite !andb_true_iff, !negb_true_iff. tauto. Qed.

Lemma work_ok_mono L X A L' X' A' d w :
  work_ok L X A d w → L' ⊆ L → A ⊆ A' → L ∪ X ⊆ L' ∪ X' → work_ok L' X' A' d w.
Proof.
  intros Hw HL HA HX. apply subseteq_size in HL as Hsize. destruct w as [rs sel b|rs pods u|rs diff c n u|rs k|rs todo kept]; simpl in *; [done|..|done|].
  - destruct Hw as (H1 & H2 & H3 & H4). split; [done|]. split; [by etrans|]. split; [lia|]. intros Hd. destruct (H4 Hd) as [-> ?]. split; [done|]. by etrans.
  - destruct Hw as (H1 & H2 & H3 & H4). split; [done|]. split; [done|]. split; [lia|done].
  - destruct Hw as (H1 & H2 & H3 & H4 & H5). do 2 (split; [done || by etrans|]). do 2 (split; [done|]). intros Hd. etrans; [by apply H5|done].
Qed.

Lemma inv_start S R :
  listed R → (∀ k p, S !! k = Some p → PodKey p = k ∧ ours p ∧ IsPodActive p = true) →
  inv (mkSystem (dom S) (dom S) ∅ (dom S) S [] NewUIDTracking R false None).
Proof.
  intros HR HS. split; simpl; rewrite ?difference_diag_L; try done.
  - intros _. exists 0, ∅. unfold awaits, pending. simpl. rewrite difference_diag_L, size_empty.
    split; [done|]. split; [unfold small; rewrite size_empty; lia|]. split; [done|]. split; [clear; set_solver|done].
  - clear. set_solver.
  - clear. set_solver.
  - by intros n k ?%elem_of_nil.
Qed.

(** Pods that end without the controller knowing. *)
Lemma lost_covered (L X Y : gset string) : L ∪ X ⊆ L ∖ Y ∪ (X ∪ Y).
Proof. intros x Hx. destruct (decide (x ∈ Y)); set_solver. Qed.

Lemma stale_lost (S L D X Y : gset string) : S ∖ L ⊆ D ∪ X → S ∖ (L ∖ Y) ⊆ D ∪ (X ∪ Y).
Proof. intros Hd x Hx. destruct (decide (x ∈ Y)); [clear Hd|specialize (Hd x)]; set_solver. Qed.

Lemma inv_lose L U X A S N E R d y Y : inv (mkSystem L U X A S N E R d y) → inv (mkSystem (L ∖ Y) U (X ∪ Y) A S N E R d y).
Proof.
  intros [Haw Hl H1 H2 H3 H4 H5 H6 H7 H8 H9]. split; simpl in *; try done.
  - intros Hd. destruct (Haw Hd) as (a & D & Ht & Hs & Hp & Hst & Hy). exists a, D. do 3 (split; [done|]). split; [|done]. by apply stale_lost.
  - clear -H1. set_solver.
  - clear -H4. set_solver.
  - intros x Hx. destruct (decide (x ∈ Y)) as [Hin|Hin]; [clear H5|clear -H5 Hx Hin; specialize (H5 x)]; set_solver.
  - intros n k' Hn Hr. destruct (H6 n k' Hn Hr) as (? & HnL & ?). split; [done|]. split; [|done]. clear -HnL. set_solver.
  - intros w Hw. destruct (H9 w Hw) as [? Hok]. split; [done|]. eapply work_ok_mono; [exact Hok|clear; set_solver|done|by apply lost_covered].
Qed.

Lemma inv_sets L U X A S N E R d y R' : listed R' → inv (mkSystem L U X A S N E R d y) → inv (mkSystem L U X A S N E R' d y).
Proof. intros HR [H1 H2 H3 H4 H5 H6 H7 H8 H9 H10]. split; done. Qed.

Lemma pending_note U A N n : pending U A (N ++ [n]) = pending U A N + if creation n then 1 else 0.
Proof.
  unfold pending. rewrite filter_app, length_app. destruct (creation n) eqn:En.
  - rewrite (filter_cons_True _ n) by done. simpl. lia.
  - rewrite (filter_cons_False _ n) by (by rewrite En). simpl. lia.
Qed.

(** A note of something that is not an addition. *)
Lemma inv_change L U X A S S' N E R d y n :
  inv (mkSystem L U X A S N E R d y) → about_ours n → creation n = false → dom S' ⊆ dom S → L ∩ dom S ⊆ dom S' →
  (∀ k, removal n = Some k → k ∉ dom S' ∧ k ∉ L ∧ k ∈ A) → (∀ k p, S' !! k = Some p → PodKey p = k ∧ ours p ∧ IsPodActive p = true) →
  inv (mkSystem L U X A S' (N ++ [n]) E R d y).
Proof.
  intros [Haw Hl H1 H2 H3 H4 H5 H6 H7 H8 H9] Hn Hc Hdom Hkeep Hrem Hpods. simpl in *. split; simpl; try done.
  - intros Hd. destruct (Haw Hd) as (a & D & Ht & Hs & Hp & Hst & Hy). exists a, D. do 2 (split; [done|]). split; [|split]; simpl in *.
    + rewrite pending_note, Hc, Z.add_0_r. exact Hp.
    + clear -Hst Hdom. set_solver.
    + destruct y as [[]|]; try done. clear -Hy Hdom. set_solver.
  - clear -H3 Hdom. set_solver.
  - clear -H4 Hkeep. set_solver.
  - intros n' k [Hin| ->%list_elem_of_singleton]%elem_of_app Hr; [|by apply Hrem]. destruct (H6 n' k Hin Hr) as (HnS & ? & ?).
    split; [|done]. clear -Hdom HnS. set_solver.
  - apply Forall_app. split; [done|]. by apply Forall_singleton.
Qed.

Lemma inv_see_add L U X A S N E R d y p :
  ours p → PodKey p ∈ U ∖ A → (IsPodActive p = false → PodKey p ∉ L) → inv (mkSystem L U X A S N E R d y) →
  inv (mkSystem L U X (A ∪ {[PodKey p]}) (if IsPodActive p then <[PodKey p := p]> S else S) (N ++ [NAdd p]) E R d y).
Proof.
  intros Hours [HU HA]%elem_of_difference Hact [Haw Hl H1 H2 H3 H4 H5 H6 H7 H8 H9]. simpl in *.
  set (k := PodKey p) in *. assert (k ∉ dom S) as Hk by (intros Hk; by apply HA, H3).
  assert (dom (if IsPodActive p then <[k := p]> S else S) = if IsPodActive p then {[k]} ∪ dom S else dom S) as Edom
    by (destruct (IsPodActive p); [by rewrite dom_insert_L|done]).
  split; simpl; rewrite ?Edom; try done.
  - intros Hd. destruct (Haw Hd) as (a & D & Ht & Hs & Hp & Hst & Hy). exists a, D. do 2 (split; [done|]). split; [|split]; simpl in *.
    + rewrite pending_note. simpl. unfold pending in *. rewrite <- difference_difference_l_L, size_difference_alt.
      replace (U ∖ A ∩ {[k]}) with ({[k]} : gset string) by (clear -HU HA; set_solver). rewrite size_singleton.
      assert (1 ≤ size (U ∖ A))%nat by (rewrite <- (size_singleton (C:=gset string) k); apply subseteq_size; clear -HU HA; set_solver).
      destruct (rpDeleting p); simpl; lia.
    + rewrite Edom. destruct (IsPodActive p); [|done]. intros x [[->%elem_of_singleton|Hx]%elem_of_union Hxl]%elem_of_difference.
      * apply elem_of_union. right. apply H5. clear -HU HA Hxl. set_solver.
      * apply Hst. by apply elem_of_difference.
    + rewrite Edom. destruct y as [[| | | |rs todo kept]|]; try done. destruct (H9 _ eq_refl) as (_ & _ & HtA & _).
      assert (k ∉ keys todo) as Hkt by (intros Hin; by apply HA, HtA). destruct (IsPodActive p); [|done]. clear -Hy Hkt. set_solver.
  - clear -H2 HU. set_solver.
  - destruct (IsPodActive p); clear -H3; set_solver.
  - intros x [HxL [HxA| ->%elem_of_singleton]%elem_of_union]%elem_of_intersection.
    + assert (x ∈ dom S) by (apply H4; by apply elem_of_intersection). destruct (IsPodActive p); [apply elem_of_union; by right|done].
    + destruct (IsPodActive p); [apply elem_of_union; left; by apply elem_of_singleton|]. by destruct Hact.
  - clear -H5. set_solver.
  - intros n k' [Hin| ->%list_elem_of_singleton]%elem_of_app Hr.
    + destruct (H6 n k' Hin Hr) as (Hk' & ? & Hk''). split; [|split; [done|apply elem_of_union; by left]].
      destruct (IsPodActive p); [|done]. intros [->%elem_of_singleton|?]%elem_of_union; done.
    + simpl in Hr. destruct (rpDeleting p) eqn:Edel; simplify_eq. destruct (IsPodActive p) eqn:Eact; [by apply active_not_deleting in Eact; congruence|].
      split; [done|]. split; [by apply Hact|]. apply elem_of_union. right. by apply elem_of_singleton.
  - apply Forall_app. split; [done|]. by apply Forall_singleton.
  - intros k' p' Hp'. destruct (IsPodActive p) eqn:Eact; [|by apply H8]. apply lookup_insert_Some in Hp' as [[<- <-]|[_ ?]]; [done|by apply H8].
  - intros w Hw. destruct (H9 w Hw) as [? Hok]. split; [done|]. eapply work_ok_mono; [exact Hok|done|clear; set_solver|done].
Qed.

Lemma inv_see_update L U X A S N E R d y old p :
  ours p → S !! PodKey p = Some old → IsPodActive p = true → inv (mkSystem L U X A S N E R d y) →
  inv (mkSystem L U X A (<[PodKey p := p]> S) (N ++ [NUpdate old p]) E R d y).
Proof.
  intros Hours Hold Hact Hinv. destruct (inv_pods _ Hinv _ _ Hold) as (Hkey & Hours' & _). apply elem_of_dom_2 in Hold as Hdom.
  eapply inv_change; try done; simpl.
  - rewrite dom_insert_L. clear -Hdom. set_solver.
  - rewrite dom_insert_L. clear. set_solver.
  - intros k. by rewrite (active_not_deleting p Hact).
  - intros k p' [[<- <-]|[_ ?]]%lookup_insert_Some; [done|]. by apply (inv_pods _ Hinv).
Qed.

Lemma inv_forget L U X A S N E R d y k n :
  about_ours n → creation n = false → (∀ k', removal n = Some k' → k' = k) → k ∈ A → k ∉ L → inv (mkSystem L U X A S N E R d y) →
  inv (mkSystem L U X A (delete k S) (N ++ [n]) E R d y).
Proof.
  intros Hn Hc Hr HA HL Hinv. eapply inv_change; try done; rewrite ?dom_delete_L.
  - clear. set_solver.
  - clear -HL. set_solver.
  - intros k' ->%Hr. split; [|done]. clear. set_solver.
  - intros k' p [_ ?]%lookup_delete_Some. by apply (inv_pods _ Hinv).
Qed.

Lemma inv_handle L U X A S n N E R d y :
  inv (mkSystem L U X A S (n :: N) E R d y) → inv (mkSystem L U X A S N (handle R E n) R d y).
Proof.
  intros [Haw Hl H1 H2 H3 H4 H5 H6 H7 H8 H9]. simpl in *. apply Forall_cons in H7 as [Hn H7].
  split; simpl; try done; [|intros n' k Hin; apply H6; by right].
  intros Hdoubt. destruct (Haw Hdoubt) as (a & D & Ht & Hs & Hp & Hd & Hy). simpl in *.
  assert (pending U A N + (if creation n then 1 else 0) + owed y ≤ a) as Hp'.
  { unfold pending in *. destruct (creation n) eqn:En;
      [rewrite filter_cons_True in Hp by done; simpl in Hp|rewrite filter_cons_False in Hp by (by rewrite En)]; lia. }
  assert (0 ≤ pending U A N) as Hpos by (unfold pending; lia).
  assert (0 ≤ owed y) as Howed.
  { destruct y as [[| |rs diff c m u|rs k|]|]; simpl; try lia; destruct (H9 _ eq_refl) as (_ & Hok); simpl in Hok; lia. }
  destruct (handle_tracks R E n a D) as (D' & Ht' & Hsub & Hrem); [done..| |].
  { intros Hc. rewrite Hc in Hp'. lia. }
  assert (∀ x, x ∈ D → x ∈ dom S → x ∈ D') as Hkeep.
  { intros x HxD HxS. destruct (decide (x ∈ D')); [done|]. destruct (H6 n x ltac:(by left)) as (? & _); [by apply Hrem|done]. }
  exists (a - if creation n then 1 else 0), D'. split; [done|]. assert (size D' ≤ size D)%nat by by apply subseteq_size.
  unfold small in *. split; [destruct (creation n); lia|]. split; [simpl; lia|]. simpl. split.
  - intros x Hx. pose proof (Hd x Hx) as [HxD|HxX]%elem_of_union; [|apply elem_of_union; by right].
    apply elem_of_union. left. apply Hkeep; [done|]. by apply elem_of_difference in Hx as [? _].
  - assert (a = 0 ∧ D = ∅ → a - (if creation n then 1 else 0) = 0 ∧ D' = ∅) as Hzero.
    { intros [-> ->]. split; [destruct (creation n); lia|]. clear -Hsub. set_solver. }
    destruct y as [[rs sel []| | | |rs todo kept]|]; try done; [by apply Hzero..|].
    intros x [Hxt HxS]%elem_of_intersection. apply Hkeep; [|done]. apply Hy. by apply elem_of_intersection.
Qed.

Context (Hkey : SplitMetaNamespaceKey our_key = Ok (namespace, name)) (Hburst : 0 ≤ burst < 2 ^ 31).

Lemma ours_key rs : is_ours rs → rs_key rs = our_key.
Proof. intros (E1 & E2 & _). unfold rs_key, our_key. by rewrite E1, E2. Qed.

Lemma satisfied_settled now u a D :
  tracks u our_key a D → 0 ≤ a → given_up now u = false → uid_Satisfied now u our_key = true → a = 0 ∧ D = ∅.
Proof.
  unfold tracks, given_up, uid_Satisfied, SatisfiedExpectations, GetExpectations. intros [Hc _] Ha Hg.
  destruct (counts u !! our_key) as [e|]; [|done]. destruct (Fulfilled e) eqn:Ef; simpl in Hg; [intros _|congruence].
  unfold Fulfilled in Ef. rewrite andb_true_iff, !Z.leb_le in Ef. split; [lia|]. apply leibniz_equiv, size_empty_inv. lia.
Qed.

Lemma inv_begin L U X A S N E R d now rs sel b :
  sync_check now R E our_key = CheckGo rs sel b → inv (mkSystem L U X A S N E R d None) →
  inv (mkSystem L U X A S N E R (d || given_up now E) (Some (Checked rs sel b))).
Proof.
  intros Hcheck [Haw Hl H1 H2 H3 H4 H5 H6 H7 H8 H9]. simpl in *.
  unfold sync_check in Hcheck. rewrite Hkey in Hcheck. destruct Hl as (rs' & Hget & Hours). rewrite Hget in Hcheck.
  rewrite (proj2 (proj2 (proj2 (proj2 Hours)))) in Hcheck. simplify_eq. split; simpl; try done.
  - intros [-> Hg]%orb_false_iff. destruct (Haw eq_refl) as (a & D & Ht & Hs & Hp & Hd & _). exists a, D. do 4 (split; [done|]). simpl.
    destruct (uid_Satisfied now E our_key) eqn:Hsat; [|done]. unfold small in Hs. eapply satisfied_settled; [done|lia|done|done].
  - by exists rs.
  - intros w [= <-]. done.
Qed.

Lemma pods_ours (S : gmap string RPod) :
  (∀ k p, S !! k = Some p → PodKey p = k ∧ ours p ∧ IsPodActive p = true) → Forall (λ p, ours p ∧ IsPodActive p = true) (map_to_list S).*2.
Proof.
  intros HS. apply Forall_forall. intros p ([k p'] & -> & Hin%elem_of_map_to_list)%list_elem_of_fmap. by destruct (HS _ _ Hin) as (_ & ? & ?).
Qed.

(** The pods that a sync lists and claims. *)
Lemma claimed_listed L U X A S N E R d y rs sel allPods others a pods claims :
  inv (mkSystem L U X A S N E R d y) → is_ours rs → sel = selector → allPods ≡ₚ (map_to_list S).*2 ++ others → Forall foreign others →
  claimPods rs sel a (FilterActivePods allPods) = (pods, [], claims) →
  NoDup (PodKey <$> pods) ∧ keys pods = dom S ∧ length pods = size (dom S).
Proof.
  intros Hinv Hours -> Hall Ho Hclaim. pose proof (inv_pods _ Hinv) as H8. simpl in H8.
  destruct (claimPods_ours rs a allPods (map_to_list S).*2 others Hours Hall) as (pods' & claims' & Hclaim' & Hperm); [by apply pods_ours|done|].
  rewrite Hclaim in Hclaim'. simplify_eq. apply keys_listed; [|done]. intros k p Hp. by apply H8.
Qed.

Lemma inv_list L U X A S N E R d rs sel b allPods others a pods claims :
  b && negb (rsDeleting rs) = true → allPods ≡ₚ (map_to_list S).*2 ++ others → Forall foreign others →
  claimPods rs sel a (FilterActivePods allPods) = (pods, [], claims) → inv (mkSystem L U X A S N E R d (Some (Checked rs sel b))) →
  inv (mkSystem L U X A S N E R d (Some (Listed rs pods (size (L ∖ dom S))))).
Proof.
  intros [-> _]%andb_true_iff Hall Ho Hclaim Hinv. destruct (inv_work _ Hinv _ eq_refl) as [Hours Hsel]. simpl in Hours, Hsel.
  destruct (claimed_listed _ _ _ _ _ _ _ _ _ _ _ _ _ _ _ _ _ Hinv Hours Hsel Hall Ho Hclaim) as (Hnd & Hkeys & Hlen).
  destruct Hinv as [Haw Hl H1 H2 H3 H4 H5 H6 H7 H8 H9]. simpl in *. split; simpl; try done. intros w [= <-]. simpl. split; [done|]. split; [done|].
  split; [by rewrite Hkeys|]. split.
  - pose proof (size_difference_alt L (dom S)) as Ed. assert (size (L ∩ dom S) ≤ size (dom S))%nat by (apply subseteq_size; clear; set_solver).
    assert (size (L ∩ dom S) ≤ size L)%nat by (apply subseteq_size; clear; set_solver). lia.
  - intros Hd. destruct (Haw Hd) as (a' & D & _ & _ & Hp & Hst & -> & ->). unfold pending in Hp. simpl in *.
    assert (U ⊆ A) as HUA by (apply empty_difference_subseteq_L, leibniz_equiv, size_empty_inv; lia).
    assert (L ∖ dom S = ∅) as ->.
    { apply elem_of_equiv_empty_L. intros x [HxL HxS]%elem_of_difference. apply HxS, H4, elem_of_intersection. split; [done|by apply HUA, H1]. }
    split; [done|]. rewrite Hkeys. clear -Hst. intros x Hx. destruct (decide (x ∈ L)) as [?|Hn]; [apply elem_of_union; by left|].
    apply elem_of_union. right. specialize (Hst x). set_solver.
Qed.

Lemma inv_none L U X A S N E R d y : owed y = 0 → inv (mkSystem L U X A S N E R d y) → inv (mkSystem L U X A S N E R d None).
Proof.
  intros Ho [Haw Hl H1 H2 H3 H4 H5 H6 H7 H8 H9]. simpl in *. split; simpl; try done. intros Hd.
  destruct (Haw Hd) as (a & D & Ht & Hs & Hp & Hst & _). exists a, D. do 2 (split; [done|]). simpl in *. split; [lia|done].
Qed.

Lemma keys_kept todo kept pods : todo ++ kept ≡ₚ pods → NoDup (PodKey <$> pods) → keys pods ∖ keys todo = keys kept.
Proof.
  intros Hperm Hnd. unfold keys. rewrite <- Hperm, fmap_app, list_to_set_app_L. rewrite <- Hperm, fmap_app, NoDup_app in Hnd.
  destruct Hnd as (_ & Hdisj & _). apply set_eq. intros x. specialize (Hdisj x).
  rewrite elem_of_difference, elem_of_union, !elem_of_list_to_set. clear -Hdisj. tauto.
Qed.

(** The replicas are managed: what is about to be created is missing, and what is kept is
    enough. *)
Lemma start_cases now E rs pods u :
  0 ≤ rsReplicas rs → NoDup (PodKey <$> pods) →
  let n := Z.of_nat (length pods) in
  (n < rsReplicas rs ∧ start_managing now E rs pods u =
    (uid_ExpectCreations now E (rs_key rs) (Z.min burst (rsReplicas rs - n)), Some (Creating rs (Z.min burst (rsReplicas rs - n)) 0 0 u))) ∨
  (n = rsReplicas rs ∧ start_managing now E rs pods u = (E, None)) ∨
  (rsReplicas rs < n ∧ ∃ todo kept, start_managing now E rs pods u =
    (uid_ExpectDeletions now E (rs_key rs) (PodKey <$> todo), Some (Deleting rs todo (keys kept))) ∧
    todo = (getPodsToDelete pods (Z.min burst (n - rsReplicas rs))).1 ∧
    todo ++ kept ≡ₚ pods ∧ Z.of_nat (length todo) = Z.min burst (n - rsReplicas rs)).
Proof.
  intros Hr Hnd n. unfold start_managing. fold n. destruct (Ztrichotomy n (rsReplicas rs)) as [Hlt|[Heq|Hgt]].
  - left. split; [done|]. destruct (Z.ltb_spec (n - rsReplicas rs) 0); [|lia].
    replace (if burst <? (n - rsReplicas rs) * -1 then burst else (n - rsReplicas rs) * -1) with (Z.min burst (rsReplicas rs - n))
      by (destruct (Z.ltb_spec burst ((n - rsReplicas rs) * -1)); lia). done.
  - right. left. split; [done|]. destruct (Z.ltb_spec (n - rsReplicas rs) 0); [lia|]. by destruct (Z.ltb_spec 0 (n - rsReplicas rs)); [lia|].
  - right. right. split; [lia|]. destruct (Z.ltb_spec (n - rsReplicas rs) 0); [lia|]. destruct (Z.ltb_spec 0 (n - rsReplicas rs)); [|lia].
    replace (if burst <? n - rsReplicas rs then burst else n - rsReplicas rs) with (Z.min burst (n - rsReplicas rs))
      by (destruct (Z.ltb_spec burst (n - rsReplicas rs)); lia).
    destruct (delete_order pods (Z.min burst (n - rsReplicas rs))) as (kept & Hperm & Hlen & _); [lia|unfold n; lia|].
    eexists _, kept. split; [|by split]. by rewrite (keys_kept _ kept pods).
Qed.

Lemma inv_expect L U X A S N E R d now rs pods u :
  inv (mkSystem L U X A S N E R d (Some (Listed rs pods u))) →
  inv (mkSystem L U X A S N (start_managing now E rs pods u).1 R d (start_managing now E rs pods u).2).
Proof.
  intros Hinv. destruct (inv_work _ Hinv _ eq_refl) as [Hours (Hnd & HkA & Hsize & Hok)]. simpl in *. pose proof (ours_key rs Hours) as Ekey.
  pose proof Hours as (_ & _ & _ & Hr & _). pose proof Hinv as [Haw Hl H1 H2 H3 H4 H5 H6 H7 H8 _]. simpl in *.
  destruct (start_cases now E rs pods u Hr Hnd) as [[Hlt ->]|[[Heq ->]|(Hgt & todo & kept & -> & _ & Hperm & Hlen)]]; simpl.
  - split; simpl; try done.
    + intros Hd. destruct (Haw Hd) as (a & D & Ht & Hs & Hp & Hst & -> & ->). simpl in *. eexists _, ∅. split; [rewrite Ekey; by eapply tracks_ExpectCreations|].
      split; [unfold small; rewrite size_empty; lia|]. simpl. split; [lia|]. done.
    + intros w [= <-]. simpl. split; [done|]. split; [lia|]. split; [lia|]. split; [lia|]. intros Hd. by destruct (Hok Hd).
  - by eapply inv_none, Hinv.
  - assert (keys pods = keys todo ∪ keys kept) as Ek by (unfold keys; by rewrite <- Hperm, fmap_app, list_to_set_app_L).
    rewrite <- Hperm, fmap_app in Hnd. apply NoDup_app in Hnd as (Hndt & Hdisj & Hndk).
    pose proof (Permutation_length Hperm) as Hlp. rewrite length_app in Hlp.
    split; simpl; try done.
    + intros Hd. destruct (Haw Hd) as (a & D & Ht & Hs & Hp & Hst & -> & ->). simpl in *. exists 0, (keys todo). split; [rewrite Ekey; apply tracks_ExpectDeletions|].
      split; [unfold small, keys; rewrite size_list_to_set, length_fmap by done; lia|]. simpl. split; [done|]. split; [clear -Hst; set_solver|clear; set_solver].
    + intros w [= <-]. simpl. split; [done|]. split; [done|]. split; [rewrite Ek in HkA; clear -HkA; set_solver|]. split.
      { intros x Hx%elem_of_list_to_set Hx'%elem_of_list_to_set. by apply (Hdisj x). }
      split; [unfold keys; rewrite size_list_to_set, length_fmap by done; lia|]. intros Hd. destruct (Hok Hd) as [_ Hsub]. rewrite Ek in Hsub. exact Hsub.
Qed.

Lemma size_new_pod (L : gset string) made : (size (L ∪ new_pod made) ≤ size L + 1)%nat.
Proof.
  rewrite size_union_alt. assert (size (new_pod made ∖ L) ≤ 1)%nat; [|lia].
  transitivity (size (new_pod made)); [apply subseteq_size; clear; set_solver|]. unfold new_pod.
  destruct made as [k|]; [rewrite size_singleton|rewrite size_empty]; lia.
Qed.

Lemma pending_new U A N made : pending (U ∪ new_pod made) A N ≤ pending U A N + if made then 1 else 0.
Proof.
  unfold pending. destruct made as [k|]; [|simpl new_pod; rewrite union_empty_r_L; lia].
  assert (size ((U ∪ new_pod (Some k)) ∖ A) ≤ size (U ∖ A) + 1)%nat as Hle; [|lia].
  etrans; [|apply (size_new_pod (U ∖ A) (Some k))]. apply subseteq_size. clear. set_solver.
Qed.

Lemma inv_create L U X A S N E R d rs diff c n u r made :
  c < diff → (r = Created → is_Some made) → (∀ k, made = Some k → k ∉ U) → inv (mkSystem L U X A S N E R d (Some (Creating rs diff c n u))) →
  inv (mkSystem (L ∪ new_pod made) (U ∪ new_pod made) X A S N E R (d || (bool_decide (is_Some (create_error r)) && bool_decide (is_Some made)))
    (Some (Creating rs diff (c + 1) (if create_error r then n else n + 1) u))).
Proof.
  intros Hc _ Hnew Hinv. destruct (inv_work _ Hinv _ eq_refl) as [Hours (Hn & Hcd & Hsize & Hu)]. destruct Hinv as [Haw Hl H1 H2 H3 H4 H5 H6 H7 H8 _]. simpl in *.
  assert (∀ x, x ∈ new_pod made → x ∉ U) as HC by (intros x Hx; apply Hnew; destruct made; simpl in Hx; set_solver).
  assert (∀ x, x ∈ new_pod made → x ∉ A) as HCA by (intros x Hx HA; by apply (HC x Hx), H2).
  split; simpl; try done.
  - intros [-> Hhid]%orb_false_iff. destruct (Haw eq_refl) as (a & D & Ht & Hs & Hp & Hst & _). simpl in *. exists a, D. do 2 (split; [done|]). simpl. split; [|split; [|done]].
    + pose proof (pending_new U A N made) as Hpn. destruct (create_error r), made; simpl in *; lia || done.
    + clear -Hst. set_solver.
  - clear -H1. set_solver.
  - clear -H2. set_solver.
  - clear -H4 HCA. set_solver.
  - clear -H5. set_solver.
  - intros m k Hin Hr. destruct (H6 m k Hin Hr) as (? & HkL & HkA). split; [done|]. split; [|done]. clear -HkL HkA HCA. set_solver.
  - intros w [= <-]. simpl. pose proof (size_new_pod L made). split; [done|]. split; [destruct (create_error r); lia|]. split; [lia|]. split; [lia|].
    by intros [-> _]%orb_false_iff; apply Hu.
Qed.

Lemma inv_created L U X A S N E R d rs diff c n u :
  inv (mkSystem L U X A S N E R d (Some (Creating rs diff c n u))) → inv (mkSystem L U X A S N E R d (Some (Skipping rs (diff - n)))).
Proof.
  intros Hinv. destruct (inv_work _ Hinv _ eq_refl) as [Hours (Hn & Hcd & _)]. destruct Hinv as [Haw Hl H1 H2 H3 H4 H5 H6 H7 H8 _]. simpl in *.
  split; simpl; try done. intros w [= <-]. simpl. split; [done|lia].
Qed.

Lemma inv_skip L U X A S N E R d rs k :
  0 < k → inv (mkSystem L U X A S N E R d (Some (Skipping rs k))) →
  inv (mkSystem L U X A S N (uid_CreationObserved E (rs_key rs)) R d (Some (Skipping rs (k - 1)))).
Proof.
  intros Hk Hinv. destruct (inv_work _ Hinv _ eq_refl) as [Hours _]. destruct Hinv as [Haw Hl H1 H2 H3 H4 H5 H6 H7 H8 _]. simpl in *.
  split; simpl; try done.
  - intros Hd. destruct (Haw Hd) as (a & D & Ht & Hs & Hp & Hst & _). simpl in *. assert (0 ≤ pending U A N) by (unfold pending; lia).
    exists (a - 1), D. rewrite (ours_key rs Hours). split; [apply tracks_creation; [done..|lia]|]. unfold small in *. split; [lia|]. simpl. split; [lia|done].
  - intros w [= <-]. simpl. split; [done|lia].
Qed.

(** One pod less to delete, whose deletion is awaited or taken back. *)
Lemma todo_less l1 p l2 :
  NoDup (PodKey <$> (l1 ++ p :: l2)) →
  NoDup (PodKey <$> (l1 ++ l2)) ∧ PodKey p ∉ keys (l1 ++ l2) ∧ keys (l1 ++ p :: l2) = {[PodKey p]} ∪ keys (l1 ++ l2).
Proof.
  intros Hnd. assert (l1 ++ p :: l2 ≡ₚ p :: (l1 ++ l2)) as Hperm by (symmetry; apply Permutation_middle).
  rewrite Hperm in Hnd. csimpl in *. apply NoDup_cons in Hnd as [Hp Hnd]. split; [done|]. unfold keys. rewrite elem_of_list_to_set. split; [done|].
  by rewrite Hperm.
Qed.

Lemma inv_delete L U X A S N E R d rs l1 p l2 kept :
  inv (mkSystem L U X A S N E R d (Some (Deleting rs (l1 ++ p :: l2) kept))) →
  inv (mkSystem (L ∖ {[PodKey p]}) U X A S N E R d (Some (Deleting rs (l1 ++ l2) kept))).
Proof.
  intros Hinv. destruct (inv_work _ Hinv _ eq_refl) as [Hours (Hnd & HtA & Hdisj & Hr & Hkept)]. destruct Hinv as [Haw Hl H1 H2 H3 H4 H5 H6 H7 H8 _]. simpl in *.
  destruct (todo_less l1 p l2 Hnd) as (Hnd' & Hp & Ek). rewrite Ek in *. split; simpl; try done.
  - intros Hd. destruct (Haw Hd) as (a & D & Ht & Hs & Hpend & Hst & Hy). simpl in *. rewrite Ek in Hy. exists a, D. do 3 (split; [done|]). simpl. split.
    + intros x [HxS Hx]%elem_of_difference. destruct (decide (x = PodKey p)) as [->|Hne]; [|clear -Hst Hne HxS Hx; specialize (Hst x); set_solver].
      apply elem_of_union. left. apply Hy. clear -HxS. set_solver.
    + clear -Hy. set_solver.
  - clear -H1. set_solver.
  - clear -H4. set_solver.
  - intros x Hx. assert (x ≠ PodKey p) as Hne by (intros ->; clear -Hx HtA; set_solver). apply H5. clear -Hx Hne. set_solver.
  - intros m k Hin Hrem. destruct (H6 m k Hin Hrem) as (? & HkL & ?). split; [done|]. split; [|done]. clear -HkL. set_solver.
  - intros w [= <-]. simpl. split; [done|]. split; [done|]. split; [clear -HtA; set_solver|]. split; [clear -Hdisj; set_solver|]. split; [done|].
    intros Hd. specialize (Hkept Hd). intros x Hx. assert (x ≠ PodKey p) as Hne by (intros ->; clear -Hx Hdisj Hp; set_solver).
    assert (x ∈ L ∪ X) as HxL by (apply Hkept; clear -Hx; set_solver). clear -HxL Hne. set_solver.
Qed.

Lemma inv_not_deleted L U X A S N E R d rs l1 p l2 kept hidden :
  inv (mkSystem L U X A S N E R d (Some (Deleting rs (l1 ++ p :: l2) kept))) →
  inv (mkSystem (L ∖ hidden) U (X ∪ hidden) A S N (uid_DeletionObserved E (rs_key rs) (PodKey p)) R d (Some (Deleting rs (l1 ++ l2) kept))).
Proof.
  intros Hinv. apply (inv_lose _ _ _ _ _ _ _ _ _ _ hidden) in Hinv. destruct (inv_work _ Hinv _ eq_refl) as [Hours (Hnd & HtA & Hdisj & Hr & Hkept)].
  destruct Hinv as [Haw Hl H1 H2 H3 H4 H5 H6 H7 H8 _]. simpl in *. destruct (todo_less l1 p l2 Hnd) as (Hnd' & Hp & Ek). rewrite Ek in *. split; simpl; try done.
  - intros Hd. destruct (Haw Hd) as (a & D & Ht & Hs & Hpend & Hst & Hy). simpl in *. rewrite Ek in Hy. exists a, (D ∖ {[PodKey p]}).
    rewrite (ours_key rs Hours). split; [by apply tracks_deletion|]. split; [by apply small_difference|]. simpl. split; [done|]. split.
    + intros x Hx. destruct (decide (x = PodKey p)) as [->|Hne]; [|specialize (Hst x Hx); clear -Hst Hne; set_solver].
      apply elem_of_union. right. apply elem_of_difference in Hx as [_ HxL]. pose proof (Hkept Hd (PodKey p)) as Hin. clear -Hin HxL. set_solver.
    + intros x [Hx HxS]%elem_of_intersection. apply elem_of_difference. split; [apply Hy; clear -Hx HxS; set_solver|].
      intros ->%elem_of_singleton. by apply Hp.
  - intros w [= <-]. simpl. split; [done|]. split; [done|]. split; [clear -HtA; set_solver|]. split; [clear -Hdisj; set_solver|]. split; [done|].
    intros Hd. specialize (Hkept Hd). clear -Hkept. set_solver.
Qed.

Lemma reachable_inv s : reachable s → inv s.
Proof.
  induction 1 as [S R HR HS|s s' _ IH Hstep|s s' _ IH Hstep]; [by apply inv_start|destruct Hstep..].
  - by apply inv_lose.
  - by eapply inv_sets.
  - by apply inv_see_add.
  - by apply inv_see_update.
  - apply inv_forget; try done. simpl. intros k'. destruct (rpDeleting p); [by intros [= ->]|done].
  - apply inv_forget; try done. simpl. by intros k' [= ->].
  - by apply inv_handle.
  - by apply inv_begin.
  - eapply inv_list; eassumption.
  - eapply inv_none; [|eassumption]. done.
  - by apply inv_expect.
  - by apply inv_create.
  - eapply inv_created; eassumption.
  - by apply inv_skip.
  - by apply inv_delete.
  - by apply inv_not_deleted.
  - eapply inv_none; [|done]. by destruct H1 as [-> |[kept ->]].
Qed.
(** ** The steps of a sync and the functions of the controller *)

(** [made i] is the pod that the call number [i] has made, and [hidden p] says that [p] was
    deleted although its deletion was answered with an error. *)
Section run.
Context (a : answers) (made : nat → option string) (hidden : RPod → bool).
Context (Hmade : ∀ i, Z.of_nat i < burst → aCreate a i = Created → is_Some (made i)) (Hdistinct : ∀ i j k, made i = Some k → made j = Some k → i = j).

Definition made_pods (i j : nat) : gset string := list_to_set (omap made (seq i j)).

Definition creation_errors (i j : nat) : list string := omap (λ i, create_error (aCreate a i)) (seq i j).

Lemma made_pods_cons i j : made_pods i (S j) = new_pod (made i) ∪ made_pods (S i) j.
Proof. unfold made_pods. csimpl. destruct (made i); simpl; [done|]. by rewrite union_empty_l_L. Qed.

Lemma create_run L U X A V N E R d rs diff u i j n :
  (∀ l k, made l = Some k → k ∈ U → (l < i)%nat) → Z.of_nat (i + j) ≤ diff ≤ burst →
  ∃ d', rtc sync_step (mkSystem L U X A V N E R d (Some (Creating rs diff (Z.of_nat i) n u)))
    (mkSystem (L ∪ made_pods i j) (U ∪ made_pods i j) X A V N E R d'
      (Some (Creating rs diff (Z.of_nat (i + j)) (n + Z.of_nat j - Z.of_nat (length (creation_errors i j))) u))).
Proof.
  revert L U d i n. induction j as [|j IH]; intros L U d i n Hfresh Hj.
  - exists d. unfold made_pods, creation_errors. simpl. rewrite !union_empty_r_L, Nat.add_0_r, Z.add_0_r, Z.sub_0_r. done.
  - destruct (IH (L ∪ new_pod (made i)) (U ∪ new_pod (made i)) (d || (bool_decide (is_Some (create_error (aCreate a i))) && bool_decide (is_Some (made i)))) (S i)
      (if create_error (aCreate a i) then n else n + 1)) as [d' Hrun].
    + intros l k Hl [Hk|Hk]%elem_of_union; [pose proof (Hfresh l k Hl Hk); lia|]. destruct (made i) as [k'|] eqn:Ei; simpl in Hk; [|clear -Hk; set_solver].
      apply elem_of_singleton in Hk as ->. rewrite (Hdistinct l i k'); [lia|done..].
    + lia.
    + exists d'. rewrite made_pods_cons, !union_assoc_L. eapply rtc_l; [apply (sync_create L U X A V N E R d rs diff (Z.of_nat i) n u (aCreate a i) (made i))|].
      * lia.
      * apply Hmade. lia.
      * intros k Hk Hin. pose proof (Hfresh i k Hk Hin). lia.
      * replace (Z.of_nat i + 1) with (Z.of_nat (S i)) by lia. rewrite <- Nat.add_succ_comm. unfold creation_errors in *. csimpl.
        destruct (create_error (aCreate a i)); csimpl; [replace (n + Z.of_nat (S j) - _) with (n + Z.of_nat j - Z.of_nat (length (omap (λ i, create_error (aCreate a i)) (seq (S i) j)))) by lia
          |replace (n + Z.of_nat (S j) - _) with (n + 1 + Z.of_nat j - Z.of_nat (length (omap (λ i, create_error (aCreate a i)) (seq (S i) j)))) by lia]; exact Hrun.
Qed.

Lemma skip_run L U X A V N E R d rs k :
  rtc sync_step (mkSystem L U X A V N E R d (Some (Skipping rs (Z.of_nat k))))
    (mkSystem L U X A V N (Nat.iter k (λ u, uid_CreationObserved u (rs_key rs)) E) R d None).
Proof.
  revert E. induction k as [|k IH]; intros E.
  - apply rtc_once. eapply sync_end. by left.
  - rewrite Nat.iter_succ_r. eapply rtc_l; [apply sync_skip; lia|]. replace (Z.of_nat (S k) - 1) with (Z.of_nat k) by lia. apply IH.
Qed.

(** The pods that are gone after the deletions of [l]. *)
Definition gone (l : list RPod) : gset string := keys (filter (λ p, aDelete a p = None ∨ hidden p = true) l).

Lemma gone_cons p l : gone (p :: l) = (if decide (aDelete a p = None ∨ hidden p = true) then {[PodKey p]} else ∅) ∪ gone l.
Proof. unfold gone, keys. rewrite filter_cons. destruct (decide _); csimpl; [done|]. by rewrite union_empty_l_L. Qed.

Lemma delete_run L U X A V N E R d rs l kept :
  ∃ X', rtc sync_step (mkSystem L U X A V N E R d (Some (Deleting rs l kept)))
    (mkSystem (L ∖ gone l) U X' A V N
      (fold_left (λ u targetPod, match aDelete a targetPod with Some _ => uid_DeletionObserved u (rs_key rs) (PodKey targetPod) | None => u end) l E)
      R d None).
Proof.
  revert L X E. induction l as [|p l IH]; intros L X E.
  - exists X. change (gone []) with (∅ : gset string). rewrite difference_empty_L. apply rtc_once. eapply sync_end. right. by exists kept.
  - rewrite gone_cons, <- difference_difference_l_L. simpl. destruct (aDelete a p) as [err|] eqn:Ep.
    + destruct (IH (L ∖ if decide (hidden p = true) then {[PodKey p]} else ∅) (X ∪ if decide (hidden p = true) then {[PodKey p]} else ∅)
        (uid_DeletionObserved E (rs_key rs) (PodKey p))) as [X' Hrun].
      exists X'. eapply rtc_l; [apply (sync_not_deleted _ _ _ _ _ _ _ _ _ _ [] p l _ (if decide (hidden p = true) then {[PodKey p]} else ∅))|].
      * destruct (decide _); [done|apply empty_subseteq].
      * simpl. destruct (hidden p); simpl in *; exact Hrun.
    + destruct (IH (L ∖ {[PodKey p]}) X E) as [X' Hrun]. exists X'. rewrite decide_True by by left.
      eapply rtc_l; [apply (sync_delete _ _ _ _ _ _ _ _ _ _ [] p l)|exact Hrun].
Qed.

(** [manageReplicas] is a sequence of steps. *)
Lemma manage_runs L U X A V N E R d now rs pods u m :
  0 ≤ rsReplicas rs → NoDup (PodKey <$> pods) → (∀ i k, made i = Some k → k ∉ U) →
  manageReplicas now burst E (rs_key rs) (rsReplicas rs) pods (aCreate a) (aDelete a) = Some m →
  ∃ U' X' d', rtc sync_step (mkSystem L U X A V N E R d (Some (Listed rs pods u)))
    (mkSystem (L ∖ gone (mDeletions m) ∪ made_pods 0 (Z.to_nat (mCreations m))) U' X' A V N (mExpectations m) R d' None).
Proof.
  intros Hr Hnd Hfresh Hm. pose proof (sync_expect L U X A V N E R d now rs pods u) as Hstep. unfold start_managing in Hstep. unfold manageReplicas in Hm.
  destruct (Z.of_nat (length pods) - rsReplicas rs <? 0) eqn:Elt; [|destruct (0 <? Z.of_nat (length pods) - rsReplicas rs)].
  - set (diff := if burst <? _ then burst else _) in *. apply Z.ltb_lt in Elt.
    destruct (slowStartBatch_total diff (λ i, create_error (aCreate a i))) as (c & Hc & Hle & Hcall & _). rewrite Hc in Hm. simpl in Hm. injection Hm as <-.
    assert (0 ≤ diff) by (unfold diff; destruct (_ <? _); lia). cbn [fst snd mDeletions mCreations mExpectations] in *.
    set (E1 := uid_ExpectCreations _ _ _ _) in *. destruct (create_run L U X A V N E1 R d rs diff u 0 (Z.to_nat c) 0) as [d' Hrun].
    { intros l k Hl Hk. by destruct (Hfresh l k Hl). }
    { simpl. unfold diff in *. destruct (Z.ltb_spec burst ((Z.of_nat (length pods) - rsReplicas rs) * -1)); lia. }
    change (errors_of (λ i, create_error (aCreate a i)) 0 c) with (creation_errors 0 (Z.to_nat c)) in *.
    change (gone []) with (∅ : gset string). rewrite difference_empty_L. simpl (0 + _)%nat in Hrun. rewrite Z.add_0_l, Z2Nat.id in Hrun by lia.
    assert (Z.of_nat (length (creation_errors 0 (Z.to_nat c))) ≤ c) as Herr by (apply (errors_of_length (λ i, create_error (aCreate a i)) 0 c); lia).
    eexists _, X, d'. eapply rtc_l; [exact Hstep|]. etrans; [exact Hrun|]. eapply rtc_l; [apply sync_created|].
    + destruct (decide (creation_errors 0 (Z.to_nat c) = [])) as [Hnil|Hne]; [left; rewrite (Hcall Hnil); lia|right].
      assert (length (creation_errors 0 (Z.to_nat c)) ≠ 0%nat) by (by intros ?%nil_length_inv). lia.
    + pose proof (skip_run (L ∪ made_pods 0 (Z.to_nat c)) (U ∪ made_pods 0 (Z.to_nat c)) X A V N E1 R d' rs
        (Z.to_nat (diff - (c - Z.of_nat (length (creation_errors 0 (Z.to_nat c))))))) as Hskip. rewrite Z2Nat.id in Hskip by lia. exact Hskip.
  - set (diff := if burst <? _ then burst else _) in *. injection Hm as <-. cbn [fst snd mDeletions mCreations mExpectations] in *.
    destruct (delete_run L U X A V N (uid_ExpectDeletions now E (rs_key rs) (getPodKeys (getPodsToDelete pods diff).1)) R d rs (getPodsToDelete pods diff).1
      (keys pods ∖ keys (getPodsToDelete pods diff).1)) as [X' Hrun]. change (made_pods 0 (Z.to_nat 0)) with (∅ : gset string). rewrite union_empty_r_L.
    exists U, X', d. by eapply rtc_l.
  - injection Hm as <-. cbn [fst snd mDeletions mCreations mExpectations] in *. exists U, X, d. change (made_pods 0 (Z.to_nat 0)) with (∅ : gset string).
    change (gone []) with (∅ : gset string). rewrite union_empty_r_L, difference_empty_L. by apply rtc_once.
Qed.

(** The second half of a sync, as [sync_rest] has it, is a sequence of steps. *)
Lemma sync_rest_runs L U X A V N E R d now rs sel b allPods others sy :
  inv (mkSystem L U X A V N E R d (Some (Checked rs sel b))) → (∀ i k, made i = Some k → k ∉ U) →
  allPods ≡ₚ (map_to_list V).*2 ++ others → Forall foreign others → sync_rest burst now E rs sel b allPods a = Some sy →
  ∃ U' X' d', rtc sync_step (mkSystem L U X A V N E R d (Some (Checked rs sel b)))
    (mkSystem (match syManaged sy with Some m => L ∖ gone (mDeletions m) ∪ made_pods 0 (Z.to_nat (mCreations m)) | None => L end)
      U' X' A V N (syExpectations sy) R d' None).
Proof.
  intros Hinv Hfresh Hall Ho Hsy. destruct (inv_work _ Hinv _ eq_refl) as [Hours Hsel]. simpl in Hours, Hsel. subst sel.
  pose proof Hours as (_ & _ & _ & Hr & _). pose proof (inv_pods _ Hinv) as Hpods. simpl in Hpods.
  destruct (claimPods_ours rs a allPods (map_to_list V).*2 others Hours Hall (pods_ours V Hpods) Ho) as (pods & claims & Hclaim & Hperm).
  destruct (keys_listed V pods) as (Hnd & _ & _); [intros k p Hp; by apply Hpods|done|].
  unfold sync_rest in Hsy. rewrite Hclaim in Hsy. destruct (b && negb (rsDeleting rs)) eqn:Eb; simpl in Hsy.
  - destruct (manageReplicas _ _ _ _ _ pods _ _) as [m|] eqn:Em; simpl in Hsy; [|done].
    assert (syManaged sy = Some m ∧ syExpectations sy = mExpectations m) as [-> ->] by (by destruct (updateReplicaSetStatus _ _ _ _) as [[] ?]; simplify_eq).
    destruct (manage_runs L U X A V N E R d now rs pods (size (L ∖ dom V)) m Hr Hnd Hfresh Em) as (U' & X' & d' & Hrun).
    exists U', X', d'. eapply rtc_l; [|exact Hrun]. by eapply sync_list.
  - assert (syManaged sy = None ∧ syExpectations sy = E) as [-> ->] by (by destruct (updateReplicaSetStatus _ _ _ _) as [[] ?]; simplify_eq).
    exists U, X, d. apply rtc_once. by apply sync_unmanaged.
Qed.
End run.

(** A sync that found its expectations met, without doubt, lists all pods that are alive. *)
Lemma settled_listed L U X A V N E R rs sel :
  inv (mkSystem L U X A V N E R false (Some (Checked rs sel true))) → L ⊆ dom V ∧ dom V ∖ L ⊆ X ∧ tracks E our_key 0 ∅.
Proof.
  intros [Haw _ H1 H2 H3 H4 _ _ _ _ _]. destruct (Haw eq_refl) as (a & D & Ht & _ & Hp & Hst & -> & ->). unfold pending in Hp. simpl in *.
  assert (U ⊆ A) as HUA by (apply empty_difference_subseteq_L, leibniz_equiv, size_empty_inv; lia).
  split; [intros x Hx; apply H4, elem_of_intersection; split; [done|by apply HUA, H1]|]. split; [clear -Hst; set_solver|done].
Qed.

(** What [manageReplicas] asks of a server that does it all. *)
Lemma manage_exact now u r pods a :
  0 ≤ r → NoDup (PodKey <$> pods) → tracks u our_key 0 ∅ → (∀ i, aCreate a i = Created) →
  let n := Z.of_nat (length pods) in
  ∃ m, manageReplicas now burst u our_key r pods (aCreate a) (aDelete a) = Some m ∧ mCreations m = Z.max 0 (Z.min burst (r - n)) ∧
    Z.of_nat (length (mDeletions m)) = Z.max 0 (Z.min burst (n - r)) ∧ NoDup (PodKey <$> mDeletions m) ∧ keys (mDeletions m) ⊆ keys pods.
Proof.
  intros Hr Hnd Ht Hcr n. destruct (Ztrichotomy n r) as [Hlt|[Heq|Hgt]].
  - destruct (manage_create now burst u our_key r pods (aCreate a) (aDelete a) Hburst 0 Hlt Ht) as (m & -> & Hd & Hc & _ & Hall & _).
    fold n in Hc, Hall. exists m. rewrite Hd. split; [done|]. split; [|split; [simpl; lia|split; [by apply NoDup_nil_2|apply empty_subseteq]]].
    rewrite Hall; [lia|]. unfold create_errors, errors_of. induction (seq _ _) as [|i l IH]; [done|]. csimpl. rewrite Hcr. apply IH.
  - exists (mkManaged None u 0 []). rewrite manage_equal by done. simpl. split; [done|]. split; [lia|]. split; [lia|]. split; [by apply NoDup_nil_2|apply empty_subseteq].
  - destruct (manage_delete now burst u our_key r pods (aCreate a) (aDelete a) Hburst) as (m & kept & -> & Hc & _ & Hperm & Hlen & _); [lia|done|].
    fold n in Hlen. exists m. split; [done|]. split; [lia|]. split; [lia|]. rewrite <- Hperm, fmap_app in Hnd. apply NoDup_app in Hnd as [Hnd _].
    split; [done|]. unfold keys. rewrite <- Hperm, fmap_app, list_to_set_app_L. clear. set_solver.
Qed.

(** The names that the server gives to new pods. *)
Lemma omap_lookup_cons (x : string) l k i : omap (λ j, (x :: l) !! j) (seq (S k) i) = omap (λ j, l !! j) (seq k i).
Proof. revert k. induction i as [|i IH]; intros k; [done|]. csimpl. by rewrite IH. Qed.

Lemma omap_lookup (l : list string) i : omap (λ j, l !! j) (seq 0 i) = take i l.
Proof.
  revert l. induction i as [|i IH]; intros l; [done|]. destruct l as [|x l]; csimpl.
  - generalize 1%nat. clear IH. induction i as [|i IH]; intros k; [done|]. csimpl. apply IH.
  - by rewrite omap_lookup_cons, IH.
Qed.

(** What is alive after a sync in which nothing is refused. *)
Lemma size_after (L : gset string) a hidden (dels : list RPod) fresh (U : gset string) c :
  (∀ p, aDelete a p = None) → NoDup (PodKey <$> dels) → keys dels ⊆ L → L ⊆ U → NoDup fresh → (∀ k, k ∈ fresh → k ∉ U) → (c ≤ length fresh)%nat →
  Z.of_nat (size (L ∖ gone a hidden dels ∪ made_pods (λ i, fresh !! i) 0 c)) = Z.of_nat (size L) + Z.of_nat c - Z.of_nat (length dels).
Proof.
  intros Hdel Hnd Hsub HLU Hndf Hfresh Hc. unfold gone, made_pods. rewrite filter_keeps by (intros p _; left; apply Hdel). rewrite omap_lookup.
  apply subseteq_size in Hsub as Hle. rewrite size_union.
  - rewrite (size_difference L (keys dels)) by done. rewrite size_list_to_set by (apply (sublist_NoDup _ fresh); [done|apply sublist_take]). rewrite length_take.
    unfold keys in *. rewrite size_list_to_set, length_fmap in * by done. lia.
  - intros x [Hx _]%elem_of_difference Hx'%elem_of_list_to_set. apply (Hfresh x); [|by apply HLU].
    apply elem_of_take in Hx' as (i & Hi & _). by eapply list_elem_of_lookup_2.
Qed.

Lemma sync_rest_total now E rs sel b allPods a : ∃ sy, sync_rest burst now E rs sel b allPods a = Some sy.
Proof.
  unfold sync_rest. destruct (claimPods _ _ _ _) as [[pods errs] claims]. destruct errs; [|by eexists].
  assert (∃ m, (if b && negb (rsDeleting rs) then
    Some <$> manageReplicas now burst E (rs_key rs) (rsReplicas rs) pods (aCreate a) (aDelete a) else Some None) = Some m) as [m ->].
  { destruct (b && _); [|by eexists]. unfold manageReplicas. destruct (_ <? 0); [|destruct (0 <? _); by eexists].
    destruct (slowStartBatch_total (if burst <? (Z.of_nat (length pods) - rsReplicas rs) * -1 then burst else (Z.of_nat (length pods) - rsReplicas rs) * -1)
      (λ i, create_error (aCreate a i))) as (c & -> & _). by eexists. }
  simpl. destruct (updateReplicaSetStatus _ _ _ _) as [[] ?]; by eexists.
Qed.

(** The pods that a deletion leaves alive, beside those that were to be kept. *)
Lemma kept_alive (kept L : gset string) : (size kept ≤ size L + size (kept ∖ L))%nat.
Proof.
  rewrite Nat.add_comm. transitivity (size (kept ∖ L ∪ L)); [|rewrite size_union_alt; apply Nat.add_le_mono_l, subseteq_size; clear; set_solver].
  apply subseteq_size. intros x Hx. destruct (decide (x ∈ L)) as [Hin|Hin]; clear -Hx Hin; set_solver.
Qed.
End system.

(** C32: a sync creates a pod only when one is missing and deletes a pod only when enough are
    kept. Take any state that the pods, the informer, the handlers and the steps of earlier
    syncs can reach, in any order, with creations that time out, calls that fail and errors
    that hide a deletion. A pod is created only while fewer than the wanted number are alive;
    after a deletion no fewer are alive than wanted, except for pods that the sync meant to
    keep and that ended by themselves or were deleted by somebody else. Two things weaken
    this: that an expectation timed out before the informer showed what was awaited, and that
    a creation took effect although it was answered with an error other than a timeout. After
    those the number can be exceeded by the pods that were alive and not listed, and fallen
    short of by all listed pods that are gone. *)
Theorem sync_never_overshoots `{SortByKey, SortActive} kind namespace name uid selector burst s s' :
  SplitMetaNamespaceKey (our_key namespace name) = Ok (namespace, name) → 0 ≤ burst < 2 ^ 31 →
  reachable kind namespace name uid selector burst s → sync_step namespace name uid selector burst s s' →
  let n := Z.of_nat (size (live s)) in
  let n' := Z.of_nat (size (live s')) in
  (live s' ⊈ live s → ∃ rs diff c m unlisted, syncing s = Some (Creating rs diff c m unlisted) ∧
     n < rsReplicas rs + Z.of_nat unlisted ∧ (doubt s = false → unlisted = 0%nat)) ∧
  (live s ⊈ live s' → ∃ rs todo kept, syncing s = Some (Deleting rs todo kept) ∧
     rsReplicas rs ≤ n' + Z.of_nat (size (kept ∖ live s')) ∧ (doubt s = false → kept ∖ live s' ⊆ lost s')).
Proof.
  intros Hkey Hburst Hreach Hstep n n'. apply reachable_inv in Hreach as Hinv; [|done..].
  apply (reach_sync _ _ _ _ _ _ s s') in Hreach as Hinv'; [|done]. apply reachable_inv in Hinv'; [|done..].
  destruct Hstep; subst n n'; simpl in *; try (split; intros Hch; by destruct Hch).
  - split; [|intros Hch; destruct Hch; clear; set_solver]. intros _. destruct (inv_work _ _ _ _ _ _ Hinv _ eq_refl) as (_ & _ & _ & Hsize & Hu). simpl in *.
    eexists _, _, _, _, _. split; [done|]. split; [lia|done].
  - split; [intros Hch; destruct Hch; clear; set_solver|]. intros _. destruct (inv_work _ _ _ _ _ _ Hinv' _ eq_refl) as (_ & _ & _ & _ & Hr & Hkept). simpl in *.
    eexists _, _, kept. split; [done|]. pose proof (kept_alive kept (L ∖ {[PodKey p]})). split; [lia|]. intros Hd. specialize (Hkept Hd). clear -Hkept. set_solver.
  - split; [intros Hch; destruct Hch; clear; set_solver|]. intros _. destruct (inv_work _ _ _ _ _ _ Hinv' _ eq_refl) as (_ & _ & _ & _ & Hr & Hkept). simpl in *.
    eexists _, _, kept. split; [done|]. pose proof (kept_alive kept (L ∖ hidden)). split; [lia|]. intros Hd. specialize (Hkept Hd). clear -Hkept. set_solver.
Qed.

(** C33: a sync makes progress. Take any reachable state in which a sync has found the
    expectations met and the replica set is not being deleted, the informer lists no pod that
    was lost, no expectation has timed out and no creation was hidden. When the server accepts
    every call, the rest of the sync ends, with exactly as many calls to create or to delete
    as the difference to the wanted size and the burst allow, and only pods that are alive are
    chosen; the steps it takes leave that many pods more or less. *)
Theorem sync_progress `{SortByKey, SortActive} kind namespace name uid selector burst s now rs sel allPods others a fresh :
  SplitMetaNamespaceKey (our_key namespace name) = Ok (namespace, name) → 0 ≤ burst < 2 ^ 31 →
  reachable kind namespace name uid selector burst s → syncing s = Some (Checked rs sel true) → rsDeleting rs = false →
  doubt s = false → lost s ∩ dom (seen s) = ∅ → allPods ≡ₚ (map_to_list (seen s)).*2 ++ others → Forall (foreign uid selector) others →
  (∀ i, aCreate a i = Created) → (∀ p, aDelete a p = None) →
  NoDup fresh → (∀ k, k ∈ fresh → k ∉ used s) → burst ≤ Z.of_nat (length fresh) →
  let n := Z.of_nat (size (live s)) in
  let creations := Z.max 0 (Z.min burst (rsReplicas rs - n)) in
  let deletions := Z.max 0 (Z.min burst (n - rsReplicas rs)) in
  ∃ sy m s', sync_rest burst now (exps s) rs sel true allPods a = Some sy ∧ syManaged sy = Some m ∧
    mCreations m = creations ∧ Z.of_nat (length (mDeletions m)) = deletions ∧ keys (mDeletions m) ⊆ live s ∧
    rtc (sync_step namespace name uid selector burst) s s' ∧ syncing s' = None ∧ exps s' = syExpectations sy ∧
    Z.of_nat (size (live s')) = n + creations - deletions.
Proof.
  intros Hkey Hburst Hreach Hsync Hdel Hdoubt Hlost Hall Ho Hcr Hdl Hnd Hfresh Hlen n creations deletions. apply reachable_inv in Hreach as Hinv; [|done..].
  destruct s as [L U X A V N E R d y]. simpl in *. subst y d. pose proof (settled_listed _ _ _ _ _ _ _ _ _ _ _ _ _ _ _ Hinv) as (HL & Hst & Ht).
  assert (L = dom V) as EL.
  { apply set_eq. intros x. split; [apply HL|]. intros Hx. destruct (decide (x ∈ L)) as [?|Hn]; [done|]. exfalso. clear -Hst Hlost Hx Hn. set_solver. }
  destruct (inv_work _ _ _ _ _ _ Hinv _ eq_refl) as [Hours Hsel]. simpl in Hours, Hsel. subst sel. pose proof Hours as (_ & _ & _ & Hr & _).
  pose proof (inv_pods _ _ _ _ _ _ Hinv) as Hpods. simpl in Hpods.
  destruct (sync_rest_total burst now E rs selector true allPods a) as [sy Hsy].
  pose proof (rest_spec kind namespace name uid selector burst now E rs true allPods a _ others sy Hours Hall (pods_ours _ _ _ _ _ V Hpods) Ho Hsy) as Hspec.
  rewrite Hdel in Hspec. destruct Hspec as (pods & m & Hperm & Hm & Em & Eexp).
  destruct (keys_listed V pods) as (Hndp & Hkeys & Hlp); [intros k p Hp; by apply Hpods|done|].
  destruct (manage_exact namespace name burst Hburst now E (rsReplicas rs) pods a Hr Hndp Ht Hcr) as (m' & Hm' & Hc & Hd & Hndd & Hsub).
  rewrite Hm in Hm'. injection Hm' as <-. rewrite Hlp, <- EL in Hc, Hd. fold (keys pods) in Hkeys. rewrite Hkeys, <- EL in Hsub.
  destruct (sync_rest_runs kind namespace name uid selector burst Hburst a (λ i, fresh !! i) (λ _, false)) with (3 := Hinv) (5 := Hall) (6 := Ho) (7 := Hsy)
    as (U' & X' & d' & Hrun).
  - intros i Hi _. apply lookup_lt_is_Some_2. lia.
  - intros i j k Hi Hj. exact (NoDup_lookup fresh i j k Hnd Hi Hj).
  - intros i k Hi. apply Hfresh. by eapply list_elem_of_lookup_2.
  - eexists sy, m, _. do 5 (split; [done|]). split; [exact Hrun|]. split; [done|]. split; [done|]. simpl. rewrite Em.
    rewrite (size_after L a _ (mDeletions m) fresh U) by (done || lia || apply (inv_live _ _ _ _ _ _ Hinv)). unfold n, creations, deletions. lia.
Qed.

(** ** A replica set of two pods, of which one is there *)

Definition ex_status : RSStatus := mkStatus 0 0 0 0 0 [].
Definition ex_rs : RSet := mkRSet "ns" "web" "u1" 1 false 2 0 (Some (mkLabelSelector {["app" := "web"]} [])) {["app" := "web"]} ex_status.
Definition ex_pod : RPod :=
  mkRPod "ns" "web-a" "p1" "1" "node1" PodRunning [] [] 1 false {["app" := "web"]} [NewControllerRef "apps/v1" "ReplicaSet" "web" "u1"].
Definition ex_selector : Selector := internalSelector [mkRequirement "app" Equals ["web"]].
Definition ex_seen : gmap string RPod := {["ns/web-a" := ex_pod]}.
Definition ex_answers : answers :=
  mkAnswers (Err "none") (λ _, None) (λ _, Created) (λ _, None) (λ _ rs, Ok rs) (λ _, Ok ex_rs).

Definition ex_at (E : UIDTracking) (w : option work) : system := mkSystem (dom ex_seen) (dom ex_seen) ∅ (dom ex_seen) ex_seen [] E [ex_rs] false w.

#[local] Notation ex_reachable := (reachable "ReplicaSet" "ns" "web" "u1" ex_selector 3).
#[local] Notation ex_step := (sync_step "ns" "web" "u1" ex_selector 3).

Lemma ex_checked : ex_reachable (ex_at NewUIDTracking (Some (Checked ex_rs ex_selector true))).
Proof.
  eapply reach_sync; [apply (reach_start _ _ _ _ _ _ ex_seen [ex_rs])|].
  - exists ex_rs. split; [reflexivity|]. repeat (split; [done|]). vm_compute. reflexivity.
  - intros k p Hp. unfold ex_seen in Hp. apply lookup_singleton_Some in Hp as [<- <-]. split; [reflexivity|]. split; [|reflexivity].
    split; [reflexivity|]. split; [vm_compute; reflexivity|]. eexists. repeat (split; [reflexivity|]). reflexivity.
  - apply (sync_begin _ _ _ _ _ _ _ _ _ _ _ NewUIDTracking [ex_rs] false 0 ex_rs ex_selector true). vm_compute. reflexivity.
Qed.

Lemma sync_progress_witness :
  ∃ sy s', sync_rest 3 7 NewUIDTracking ex_rs ex_selector true [ex_pod] ex_answers = Some sy ∧ mCreations <$> syManaged sy = Some 1 ∧
    rtc ex_step (ex_at NewUIDTracking (Some (Checked ex_rs ex_selector true))) s' ∧ size (live s') = 2%nat.
Proof.
  destruct (sync_progress "ReplicaSet" "ns" "web" "u1" ex_selector 3 (ex_at NewUIDTracking (Some (Checked ex_rs ex_selector true))) 7 ex_rs ex_selector
    [ex_pod] [] ex_answers ["ns/web-b"; "ns/web-c"; "ns/web-d"]) as (sy & m & s' & Hsy & Hm & Hc & _ & _ & Hrun & _ & _ & Hn).
  - vm_compute. reflexivity.
  - lia.
  - apply ex_checked.
  - reflexivity.
  - reflexivity.
  - reflexivity.
  - reflexivity.
  - reflexivity.
  - constructor.
  - reflexivity.
  - reflexivity.
  - by apply (bool_decide_unpack _).
  - apply Forall_forall. by apply (bool_decide_unpack _).
  - simpl. lia.
  - exists sy, s'. split; [exact Hsy|]. split; [rewrite Hm; simpl; f_equal; rewrite Hc; vm_compute; reflexivity|]. split; [exact Hrun|].
    assert (Z.of_nat (size (live s')) = 2) by (rewrite Hn; vm_compute; reflexivity). lia.
Defined.

(** The sync up to the creation of the pod that is missing. *)
Definition ex_expected : UIDTracking := uid_ExpectCreations 7 NewUIDTracking "ns/web" 1.

Lemma ex_creating : ex_reachable (ex_at ex_expected (Some (Creating ex_rs 1 0 0 0))).
Proof.
  eapply reach_sync; [eapply reach_sync; [apply ex_checked|]|].
  - eapply (sync_list _ _ _ _ _ _ _ _ _ _ _ _ _ _ _ _ _ [ex_pod] [] ex_answers [ex_pod]); [reflexivity|reflexivity|done|vm_compute; reflexivity].
  - apply (sync_expect "ns" "web" "u1" ex_selector 3 _ _ _ _ _ _ NewUIDTracking _ _ 7 ex_rs [ex_pod] 0).
Qed.

Definition ex_after : system :=
  mkSystem (dom ex_seen ∪ {["ns/web-b"]}) (dom ex_seen ∪ {["ns/web-b"]}) ∅ (dom ex_seen) ex_seen [] ex_expected [ex_rs] false
    (Some (Creating ex_rs 1 1 1 0)).

Lemma ex_create : ex_step (ex_at ex_expected (Some (Creating ex_rs 1 0 0 0))) ex_after.
Proof.
  apply (sync_create _ _ _ _ _ _ _ _ _ _ _ _ _ false ex_rs 1 0 0 0 Created (Some "ns/web-b")); [lia|done|]. intros k [= <-]. by apply (bool_decide_unpack _).
Qed.

Lemma sync_never_overshoots_witness :
  size (live ex_after) = 2%nat ∧ ∃ rs diff c m u,
    syncing (ex_at ex_expected (Some (Creating ex_rs 1 0 0 0))) = Some (Creating rs diff c m u) ∧ 1 < rsReplicas rs + Z.of_nat u ∧ u = 0%nat.
Proof.
  split; [vm_compute; reflexivity|].
  destruct (sync_never_overshoots "ReplicaSet" "ns" "web" "u1" ex_selector 3 (ex_at ex_expected (Some (Creating ex_rs 1 0 0 0))) ex_after) as [Hcreate _].
  - vm_compute. reflexivity.
  - lia.
  - apply ex_creating.
  - apply ex_create.
  - destruct Hcreate as (rs & diff & c & m & u & Hw & Hn & Hu).
    + intros Hsub. assert ("ns/web-b" ∈ live (ex_at ex_expected (Some (Creating ex_rs 1 0 0 0)))) as Hin.
      { apply Hsub. by apply (bool_decide_unpack _). }
      revert Hin. by apply (bool_decide_unpack _).
    + exists rs, diff, c, m, u. split; [exact Hw|]. split; [|by apply Hu]. exact Hn.
Defined.

(** The informer does not show the new pod for five minutes: the next sync gives the
    expectation up, and there are three pods where two are wanted. *)
Lemma timeout_overshoots : ∃ s, ex_reachable s ∧ doubt s = true ∧ rsReplicas ex_rs = 2 ∧ size (live s) = 3%nat.
Proof.
  set (late := 8 + ExpectationsTimeout).
  eassert (ex_reachable _) as Hend.
  { eapply reach_sync; [eapply reach_sync; [eapply reach_sync; [apply ex_creating|apply ex_create]|]|].
    - apply sync_created. by left.
    - eapply sync_end. left. reflexivity. }
  eassert (ex_reachable _) as Hcreating.
  { eapply reach_sync; [eapply reach_sync; [eapply reach_sync; [exact Hend|]|]|].
    - apply (sync_begin _ _ _ _ _ _ _ _ _ _ _ ex_expected [ex_rs] false late ex_rs ex_selector true). vm_compute. reflexivity.
    - eapply (sync_list _ _ _ _ _ _ _ _ _ _ _ _ _ _ _ _ _ [ex_pod] [] ex_answers [ex_pod]); [reflexivity|reflexivity|done|vm_compute; reflexivity].
    - apply (sync_expect "ns" "web" "u1" ex_selector 3 _ _ _ _ _ _ ex_expected _ _ late ex_rs [ex_pod]). }
  eexists. split.
  - eapply reach_sync; [exact Hcreating|].
    apply (sync_create _ _ _ _ _ _ _ _ _ _ _ _ _ _ ex_rs 1 0 0 _ Created (Some "ns/web-c")); [lia|done|]. intros k [= <-]. by apply (bool_decide_unpack _).
  - split; [vm_compute; reflexivity|]. split; [reflexivity|]. vm_compute. reflexivity.
Qed.

(** ** Where the code departs from its comments *)

(** A failure to delete is reported as the failure to create that preceded it. *)
Lemma calculateStatus_keeps_reason :
  let old := mkStatus 1 1 0 0 1 [mkRSCondition ReplicaFailure ConditionTrue "FailedCreate" "quota" 5] in
  let rs := mkRSet "ns" "web" "u1" 1 false 0 0 (Some (mkLabelSelector {["app" := "web"]} [])) {["app" := "web"]} old in
  rcReason <$> sConditions (calculateStatus 10 rs [ex_pod] (Some "cannot delete")) = ["FailedCreate"].
Proof. vm_compute. reflexivity. Qed.

(** The key of a pod without a namespace is not that of [MetaNamespaceKeyFunc]. *)
Lemma PodKey_without_namespace :
  let pod := mkRPod "" "a" "p1" "1" "" PodPending [] [] 1 false ∅ [] in
  PodKey pod = "/a" ∧ MetaNamespaceKeyFunc (WithMeta (rpNamespace pod) (rpName pod)) = Ok "a".
Proof. vm_compute. done. Qed.

(** Choosing the pods to delete changes the order of the list that was given. *)
Lemma getPodsToDelete_reorders :
  let late := mkRPod "ns" "web-b" "p2" "1" "" PodPending [] [] 2 false {["app" := "web"]} [] in
  (getPodsToDelete [ex_pod; late] 1).2 = [late; ex_pod].
Proof. vm_compute. reflexivity. Qed.

(** One replica set with a selector that is not valid hides those that match a pod. *)
Lemma GetPodReplicaSets_fails_for_all :
  let bad := mkRSet "ns" "bad" "u2" 1 false 1 0 (Some (mkLabelSelector {["app" := "a b"]} [])) ∅ ex_status in
  GetPodReplicaSets [ex_rs] ex_pod = Ok [ex_rs] ∧ GetPodReplicaSets [ex_rs; bad] ex_pod = Err "invalid selector".
Proof. vm_compute. done. Qed.
