(* ===== verification/DelayingQueue.v ===== *)
(** * The delaying work queue

    [staging/src/k8s.io/client-go/util/workqueue/delaying_queue.go]: a work queue to which
    items can be added later. Requests go through a channel to a loop that keeps them in a
    heap by the time at which they are due, and adds them to the work queue of [Workqueue.v]
    when that time has come. The heap of entries and the map of known entries by item are
    one [heapData] of [Heap.v]: the key of an entry is its item, which both have once, and
    the position in the slice is the index that an entry keeps of itself. Items are strings,
    as the controllers use them. The loop is a state machine with a step for each use of the
    lock of the work queue and of the channel; the clock gives the time of each step. The
    metrics are left out. *)

From S2P Require Import Prelude Workqueue Heap.

(** ** Entries *)

Record waitFor : Type := mkWait {
  wdata : string;
  readyAt : Z;
}.

Definition wait_less (a b : waitFor) : bool := readyAt a <? readyAt b.

Notation waitForPriorityQueue := (heapData waitFor).

Definition newWaiting : waitForPriorityQueue := mkData ∅ [].

Definition Peek (pq : waitForPriorityQueue) : option waitFor := at_ pq 0.

(** The entry, or the time of the one that is known when that is sooner. *)
Definition insert_entry (q : waitForPriorityQueue) (entry : waitFor) : waitForPriorityQueue :=
  match items q !! wdata entry with
  | Some existing =>
      if readyAt entry <? readyAt (obj existing) then
        heap_Fix wait_less
          (mkData (<[wdata entry := mkItem (mkWait (wdata (obj existing)) (readyAt entry)) (index existing)]> (items q)) (Heap.queue q))
          (index existing)
      else q
  | None => heap_Push wait_less q (wdata entry) entry
  end.

(** ** The queue *)

(** Where the waiting loop is: at its top, adding the entries that are ready at the time it
    has read, in its [select] with the time of its timer, while it drains the channel, or past
    its end. *)
Inductive position : Type :=
  | AtTop
  | AtReady (now : Z)
  | AtSelect (nextReadyAt : option Z)
  | AtDrain
  | AtEnd.

#[export] Instance position_eq_dec : EqDecision position.
Proof. solve_decision. Defined.

(** [senders] are the entries of the calls of [AddAfter] that are in their [select]. *)
Record delayingType : Type := mkDelaying {
  interface : Queue string;
  stopCh : bool;
  senders : list waitFor;
  waitingForAddCh : list waitFor;
  waitingForQueue : waitForPriorityQueue;
  loop_at : position;
}.

Definition newDelayingQueue : delayingType := mkDelaying newQueue false [] [] newWaiting AtTop.

(** What happens: a request to add an item at a time, the addition of an item by the delaying
    queue, and what is done to the work queue directly. *)
Inductive event : Type :=
  | ERequest (item : string) (due : Z)
  | EAdd (item : string) (now : Z)
  | EWork (l : label string).

Definition set_interface (q : delayingType) (i : Queue string) : delayingType :=
  mkDelaying i (stopCh q) (senders q) (waitingForAddCh q) (waitingForQueue q) (loop_at q).
Definition set_channel (q : delayingType) (c : list waitFor) : delayingType :=
  mkDelaying (interface q) (stopCh q) (senders q) c (waitingForQueue q) (loop_at q).
Definition set_position (q : delayingType) (p : position) : delayingType :=
  mkDelaying (interface q) (stopCh q) (senders q) (waitingForAddCh q) (waitingForQueue q) p.

Definition set_senders (q : delayingType) (l : list waitFor) : delayingType :=
  mkDelaying (interface q) (stopCh q) l (waitingForAddCh q) (waitingForQueue q) (loop_at q).

(** [ShutDown] shuts the work queue down and then closes the channel. *)
Definition q_ShutDown (q : delayingType) : delayingType := set_interface q (Workqueue.ShutDown (interface q)).
Definition close_stop (q : delayingType) : delayingType :=
  mkDelaying (interface q) true (senders q) (waitingForAddCh q) (waitingForQueue q) (loop_at q).

(** The room of the channel. *)
Definition channel_size : nat := 1000.

(** [AddAfter], up to the [select]: the queue afterwards, or what is to be sent. *)
Definition AddAfter (now : Z) (item : string) (duration : Z) (q : delayingType) : list event * delayingType + waitFor :=
  if Workqueue.ShuttingDown (interface q) then inl ([], q)
  else if duration <=? 0 then inl ([ERequest item (now + duration); EAdd item now], set_interface q (Workqueue.Add item (interface q)))
  else inr (mkWait item (now + duration)).

(** ** The waiting loop *)

(** The top of the loop: the clock is read unless the work queue is shut down. *)
Definition loop_top (now : Z) (q : delayingType) : delayingType :=
  if Workqueue.ShuttingDown (interface q) then set_position q AtEnd else set_position q (AtReady now).

(** The wait for the first entry, if there is one. *)
Definition set_timer (q : delayingType) : delayingType :=
  set_position q (AtSelect (if (Heap.Len (waitingForQueue q) =? 0)%nat then None else readyAt <$> Peek (waitingForQueue q))).

(** One turn of the loop over the entries that are ready: the first one is taken from the heap
    and added, or the loop goes on to its [select]. The model has no value where the code
    would panic. *)
Definition add_ready (now : Z) (q : delayingType) : option (list event * delayingType) :=
  if (Heap.Len (waitingForQueue q) =? 0)%nat then Some ([], set_timer q)
  else
    match Peek (waitingForQueue q) with
    | None => None
    | Some entry =>
        if now <? readyAt entry then Some ([], set_timer q)
        else
          match heap_Pop wait_less (waitingForQueue q) with
          | (Some entry, pq) =>
              Some ([EAdd (wdata entry) now],
                    mkDelaying (Workqueue.Add (wdata entry) (interface q)) (stopCh q) (senders q) (waitingForAddCh q) pq (loop_at q))
          | (None, _) => None
          end
    end.

(** What is done with an entry that is received. *)
Definition receive (now : Z) (entry : waitFor) (q : delayingType) : list event * delayingType :=
  if now <? readyAt entry then
    ([], mkDelaying (interface q) (stopCh q) (senders q) (waitingForAddCh q) (insert_entry (waitingForQueue q) entry) (loop_at q))
  else ([EAdd (wdata entry) now], set_interface q (Workqueue.Add (wdata entry) (interface q))).

(** ** Steps

    [held] are the items of the workers, as in [Workqueue.v]. *)

(** The steps of the loop, at the time [now]: its test for the shutdown, a turn of the loop
    over the ready entries, its end, its heartbeat, its timer, the channel. *)
Inductive lstep (now : Z) : delayingType → list event → delayingType → Prop :=
  | step_top q : loop_at q = AtTop → lstep now q [] (loop_top now q)
  | step_ready at_ q evs q' : loop_at q = AtReady at_ → add_ready at_ q = Some (evs, q') → lstep now q evs q'
  | step_stop q next : loop_at q = AtSelect next → stopCh q = true → lstep now q [] (set_position q AtEnd)
  | step_heartbeat q next : loop_at q = AtSelect next → lstep now q [] (set_position q AtTop)
  | step_timer q due : loop_at q = AtSelect (Some due) → due ≤ now → lstep now q [] (set_position q AtTop)
  | step_receive q next entry rest evs q' :
      loop_at q = AtSelect next ∨ loop_at q = AtDrain → waitingForAddCh q = entry :: rest →
      receive now entry (set_position (set_channel q rest) AtDrain) = (evs, q') → lstep now q evs q'
  | step_drained q : loop_at q = AtDrain → waitingForAddCh q = [] → lstep now q [] (set_position q AtTop).

Inductive dstep : delayingType * list string → list event → delayingType * list string → Prop :=
  (** The methods of the work queue itself, but for its shutdown. *)
  | step_work q held l i held' :
      l ≠ LShutDown → Workqueue.step (interface q, held) l (i, held') → dstep (q, held) [EWork l] (set_interface q i, held')
  (** [AddAfter] ends at once or gets to its [select], where it sends when there is room or
      gives up when the queue has been stopped. *)
  | step_add_now now item duration q held evs q' : AddAfter now item duration q = inl (evs, q') → dstep (q, held) evs (q', held)
  | step_add_later now item duration q held entry :
      AddAfter now item duration q = inr entry →
      dstep (q, held) [ERequest item (readyAt entry)] (set_senders q (senders q ++ [entry]), held)
  | step_send q held pre entry post :
      senders q = pre ++ entry :: post → (length (waitingForAddCh q) < channel_size)%nat →
      dstep (q, held) [] (set_channel (set_senders q (pre ++ post)) (waitingForAddCh q ++ [entry]), held)
  | step_give_up q held pre entry post :
      senders q = pre ++ entry :: post → stopCh q = true → dstep (q, held) [] (set_senders q (pre ++ post), held)
  | step_shut_down q held : dstep (q, held) [EWork LShutDown] (q_ShutDown q, held)
  | step_close q held : Workqueue.ShuttingDown (interface q) = true → stopCh q = false → dstep (q, held) [] (close_stop q, held)
  (** The loop. *)
  | step_loop now q held evs q' : lstep now q evs q' → dstep (q, held) evs (q', held).

Inductive druns : delayingType * list string → list event → delayingType * list string → Prop :=
  | druns_nil s : druns s [] s
  | druns_step s evs s' evs' s'' : dstep s evs s' → druns s' evs' s'' → druns s (evs ++ evs') s''.

(** Steps of the loop alone, so many of them, none at a time before [r]. *)
Inductive lruns (r : Z) : nat → delayingType → list event → delayingType → Prop :=
  | lruns_nil q : lruns r 0 q [] q
  | lruns_step n now q evs q' evs' q'' : r ≤ now → lstep now q evs q' → lruns r n q' evs' q'' → lruns r (S n) q (evs ++ evs') q''.

(** ** The heap of entries *)

#[export] Instance wait_less_laws : LessLaws wait_less.
Proof. split; unfold wait_less; intros *; rewrite ?Z.ltb_lt, ?Z.ltb_ge; lia. Qed.

(** The heap is in order, and an entry is kept under its item. *)
Definition sound (pq : waitForPriorityQueue) : Prop :=
  valid wait_less pq ∧ ∀ k w, contents pq !! k = Some w → wdata w = k.

Lemma newWaiting_sound : sound newWaiting.
Proof. split; [apply NewHeap_valid|]. intros k w Hk. done. Qed.

Lemma Len_contents (pq : waitForPriorityQueue) : sound pq → Heap.Len pq = size (contents pq).
Proof.
  intros [[Hwf _] _]. unfold contents. rewrite map_size_fmap, <- size_dom. unfold Heap.Len.
  assert (NoDup (Heap.queue pq)) as Hnd by (apply NoDup_alt; intros i j k; by apply wf_inj).
  rewrite <- (size_list_to_set (C:=gset string)) by done. f_equal. apply set_eq. intros k. rewrite elem_of_list_to_set, elem_of_dom. split.
  - intros [i Hi]%list_elem_of_lookup. destruct (wf_queue _ Hwf i k Hi) as [o Ho]. by eexists.
  - intros [it Hit]. apply (wf_items _ Hwf) in Hit. by eapply list_elem_of_lookup_2.
Qed.

(** The entry under an item after an insertion: the sooner one. *)
Lemma insert_entry_spec pq e :
  sound pq → sound (insert_entry pq e) ∧
  contents (insert_entry pq e) = match contents pq !! wdata e with
    | Some w => if readyAt e <? readyAt w then <[wdata e := e]> (contents pq) else contents pq
    | None => <[wdata e := e]> (contents pq)
    end.
Proof.
  intros [Hv Hk]. unfold insert_entry. assert (contents pq !! wdata e = obj <$> items pq !! wdata e) as E by apply lookup_fmap.
  destruct (items pq !! wdata e) as [[w i]|] eqn:Ei; simpl in *; rewrite E.
  - pose proof (Hk _ _ E) as Hw. destruct (readyAt e <? readyAt w); [|done]. rewrite Hw.
    replace (mkWait (wdata e) (readyAt e)) with e by by destruct e.
    destruct (heap_Fix_spec wait_less pq i (wdata e) w e Hv Ei) as [Hv' Hc]. split; [|done]. split; [done|].
    intros k w'. rewrite Hc. intros [[<- <-]|[_ ?]]%lookup_insert_Some; [done|by apply Hk].
  - destruct (heap_Push_spec wait_less pq (wdata e) e Hv Ei) as [Hv' Hc]. split; [|done]. split; [done|].
    intros k w'. rewrite Hc. intros [[<- <-]|[_ ?]]%lookup_insert_Some; [done|by apply Hk].
Qed.

(** The first entry is due first. *)
Lemma Peek_spec pq :
  sound pq → if (Heap.Len pq =? 0)%nat then contents pq = ∅
  else ∃ k w, Peek pq = Some w ∧ contents pq !! k = Some w ∧ ∀ k' w', contents pq !! k' = Some w' → readyAt w ≤ readyAt w'.
Proof.
  intros Hs. destruct (Nat.eqb_spec (Heap.Len pq) 0) as [E|E]; [rewrite Len_contents in E by done; by apply map_size_empty_iff|].
  destruct Hs as [Hv Hk]. destruct (wf_at pq 0 (valid_wf _ _ Hv) ltac:(lia)) as (k & w & Hq & _ & Hat). exists k, w. split; [done|].
  split; [by rewrite <- (at_contents _ _ _ Hq)|]. intros k' w' Hk'. destruct (contents_at pq k' w' (valid_wf _ _ Hv) Hk') as (x & Hx & _ & Hatx).
  pose proof (valid_min wait_less pq x Hv Hx w w' Hat Hatx) as Hle. unfold wait_less in Hle. rewrite Z.ltb_ge in Hle. done.
Qed.

(** ** Additions *)

(** What the events are for the work queue. *)
Definition work_label (e : event) : option (label string) :=
  match e with ERequest _ _ => None | EAdd x _ => Some (LAdd x) | EWork l => Some l end.
Definition work_labels (evs : list event) : list (label string) := omap work_label evs.

(** The length of the heap when an entry is taken, and when one is put in. *)
Lemma Len_pop (pq pq' : waitForPriorityQueue) k w :
  sound pq → sound pq' → contents pq !! k = Some w → contents pq' = delete k (contents pq) → Heap.Len pq = S (Heap.Len pq').
Proof.
  intros Hs Hs' Hk Hc. rewrite !Len_contents by done. rewrite Hc, map_size_delete, Hk. simpl.
  assert (contents pq ≠ ∅) as Hne by (intros E; by rewrite E in Hk). apply map_size_non_empty_iff in Hne. lia.
Qed.

Lemma Len_insert_entry pq e : sound pq → (Heap.Len (insert_entry pq e) ≤ S (Heap.Len pq))%nat.
Proof.
  intros Hs. destruct (insert_entry_spec pq e Hs) as [Hs' Hc]. rewrite !Len_contents by done. rewrite Hc.
  destruct (contents pq !! wdata e) eqn:E; [case_match|]; rewrite ?map_size_insert, ?E; unfold id; lia.
Qed.

(** A turn over the ready entries adds one that is due, which leaves the heap, or there is
    none. *)
Lemma add_ready_spec now q :
  sound (waitingForQueue q) →
  (add_ready now q = Some ([], set_timer q) ∧ ∀ k w, contents (waitingForQueue q) !! k = Some w → now < readyAt w) ∨
  ∃ k w pq, add_ready now q = Some ([EAdd k now], mkDelaying (Workqueue.Add k (interface q)) (stopCh q) (senders q) (waitingForAddCh q) pq (loop_at q)) ∧
    contents (waitingForQueue q) !! k = Some w ∧ readyAt w ≤ now ∧ sound pq ∧ contents pq = delete k (contents (waitingForQueue q)).
Proof.
  intros Hs. unfold add_ready. pose proof (Peek_spec _ Hs) as Hp. destruct (Nat.eqb_spec (Heap.Len (waitingForQueue q)) 0) as [E0|E0].
  { left. split; [done|]. intros k w. by rewrite Hp. }
  destruct Hp as (k0 & w0 & -> & Hw0 & Hmin). destruct (Z.ltb_spec now (readyAt w0)) as [Hlt|Hge].
  { left. split; [done|]. intros k w Hk. specialize (Hmin k w Hk). lia. }
  right. destruct Hs as [Hv Hk]. destruct (heap_Pop_spec wait_less _ Hv E0) as (k1 & w1 & pq1 & -> & Hw1 & Hle & Hv1 & Hc1).
  exists k1, w1, pq1. rewrite (Hk _ _ Hw1). split; [done|]. split; [done|]. split.
  { specialize (Hle _ _ Hw0). unfold wait_less in Hle. apply Z.ltb_ge in Hle. lia. }
  split; [|done]. split; [done|]. intros k w. rewrite Hc1. intros [_ ?]%lookup_delete_Some. by apply Hk.
Qed.

(** ** The invariant *)

(** The timer of the [select] is that of the entry that is due first. *)
Definition timer_set (q : delayingType) : Prop :=
  ∀ next, loop_at q = AtSelect next →
  match next with
  | None => contents (waitingForQueue q) = ∅
  | Some due => (∃ k w, contents (waitingForQueue q) !! k = Some w ∧ readyAt w = due) ∧
      ∀ k w, contents (waitingForQueue q) !! k = Some w → due ≤ readyAt w
  end.

(** Every entry was asked for. *)
Definition asked (tr : list event) (e : waitFor) : Prop := ERequest (wdata e) (readyAt e) ∈ tr.

Record dinv (tr : list event) (q : delayingType) : Prop := {
  dinv_sound : sound (waitingForQueue q);
  dinv_timer : timer_set q;
  dinv_senders : Forall (asked tr) (senders q);
  dinv_channel : Forall (asked tr) (waitingForAddCh q);
  dinv_waiting k w : contents (waitingForQueue q) !! k = Some w → asked tr w;
}.

(** Additions are not early: the item was asked for, at a time that has come. *)
Definition not_early (tr evs : list event) : Prop :=
  ∀ pre x now post, evs = pre ++ EAdd x now :: post → ∃ r, ERequest x r ∈ tr ++ pre ∧ r ≤ now.

Lemma asked_app tr evs e : asked tr e → asked (tr ++ evs) e.
Proof. unfold asked. intros ?. apply elem_of_app. by left. Qed.

Lemma dinv_weaken tr evs q : dinv tr q → dinv (tr ++ evs) q.
Proof.
  intros [H1 H2 H3 H4 H5]. split; [done..| | |].
  - eapply Forall_impl; [exact H3|]. intros. by apply asked_app.
  - eapply Forall_impl; [exact H4|]. intros. by apply asked_app.
  - intros k w Hk. by eapply asked_app, H5.
Qed.

(** Changes that leave the entries alone. *)
Lemma dinv_same tr q q' :
  dinv tr q → waitingForQueue q' = waitingForQueue q → senders q' ⊆ senders q ++ waitingForAddCh q → waitingForAddCh q' ⊆ senders q ++ waitingForAddCh q →
  loop_at q' = loop_at q ∨ (∀ next, loop_at q' ≠ AtSelect next) → dinv tr q'.
Proof.
  intros [H1 H2 H3 H4 H5] Ew Hse Hch Hat. rewrite Forall_forall in H3, H4.
  assert (∀ e, e ∈ senders q ++ waitingForAddCh q → asked tr e) as Hall by (intros e [?|?]%elem_of_app; auto).
  split; [by rewrite Ew| |apply Forall_forall; auto|apply Forall_forall; auto|by rewrite Ew].
  intros next Hnext. rewrite Ew. destruct Hat as [Hat|Hat]; [rewrite Hat in Hnext; by apply H2|by apply Hat in Hnext].
Qed.

Lemma not_early_nil tr : not_early tr [].
Proof. intros pre x now post E. by destruct pre. Qed.

Lemma not_early_other tr e : (∀ x now, e ≠ EAdd x now) → not_early tr [e].
Proof. intros He pre x now post E. destruct pre as [|e' pre]; injection E as E1 E2; [by apply He in E1|by destruct pre]. Qed.

Lemma run_one (s s' : Queue string * list string) l : Workqueue.step s l s' → Workqueue.run s [l] s'.
Proof. intros Hs. eapply run_cons; [exact Hs|constructor]. Qed.

(** A step that nobody notices. *)
Lemma silent_inv tr q q' (held : list string) :
  dinv tr q' → interface q' = interface q →
  dinv (tr ++ []) q' ∧ not_early tr [] ∧ Workqueue.run (interface q, held) (work_labels []) (interface q', held).
Proof. intros Hinv ->. rewrite app_nil_r. split; [done|]. split; [apply not_early_nil|constructor]. Qed.

(** An entry is received. *)
Lemma receive_spec tr now entry q evs q' held :
  dinv tr q → (∀ next, loop_at q ≠ AtSelect next) → asked tr entry → receive now entry q = (evs, q') →
  dinv (tr ++ evs) q' ∧ not_early tr evs ∧ Workqueue.run (interface q, held) (work_labels evs) (interface q', held).
Proof.
  intros Hinv Hat Hask. unfold receive. destruct (Z.ltb_spec now (readyAt entry)) as [Hlt|Hge]; intros [= <- <-].
  - rewrite app_nil_r. split; [|split; [apply not_early_nil|constructor]]. destruct Hinv as [H1 _ H3 H4 H5].
    destruct (insert_entry_spec (waitingForQueue q) entry H1) as [Hs Hc]. split; simpl; try done; [intros next E; by apply Hat in E|].
    intros k w. rewrite Hc. assert (<[wdata entry := entry]> (contents (waitingForQueue q)) !! k = Some w → asked tr w) as Hins.
    { intros [[_ <-]|[_ ?]]%lookup_insert_Some; [done|by eapply H5]. }
    destruct (contents (waitingForQueue q) !! wdata entry) as [w0|]; [|done]. destruct (readyAt entry <? readyAt w0); [done|apply H5].
  - split; [apply dinv_weaken; eapply dinv_same; [exact Hinv|..]; try done; simpl; [set_solver..|by left]|]. split; [|apply run_one; constructor].
    intros pre x now' post E. destruct pre as [|e pre]; injection E as E1 E2; [|by destruct pre]. simplify_eq. exists (readyAt entry).
    split; [|done]. apply elem_of_app. by left.
Qed.

Lemma AddAfter_inl tr now item duration q evs q' held :
  dinv tr q → AddAfter now item duration q = inl (evs, q') →
  dinv (tr ++ evs) q' ∧ not_early tr evs ∧ Workqueue.run (interface q, held) (work_labels evs) (interface q', held).
Proof.
  intros Hinv. unfold AddAfter. destruct (Workqueue.ShuttingDown (interface q)).
  { intros [= <- <-]. rewrite app_nil_r. split; [done|]. split; [apply not_early_nil|constructor]. }
  destruct (Z.leb_spec duration 0); [|done]. intros [= <- <-].
  split; [apply dinv_weaken; eapply dinv_same; [exact Hinv|..]; try done; simpl; [set_solver..|by left]|]. split; [|apply run_one; constructor].
  intros pre x now' post E. destruct pre as [|e1 [|e2 pre]]; [done| |apply (f_equal length) in E; simpl in E; rewrite length_app in E; simpl in E; lia].
  simplify_eq/=. exists (now' + duration). split; [set_solver|lia].
Qed.

Lemma add_ready_inv tr now q evs q' held :
  dinv tr q → (∀ next, loop_at q ≠ AtSelect next) → add_ready now q = Some (evs, q') →
  dinv (tr ++ evs) q' ∧ not_early tr evs ∧ Workqueue.run (interface q, held) (work_labels evs) (interface q', held).
Proof.
  intros Hinv Hat E. pose proof (dinv_sound _ _ Hinv) as Hs.
  destruct (add_ready_spec now q Hs) as [[E' _]|(k & w & pq & E' & Hk & Hr & Hs' & Hc)]; rewrite E' in E; injection E as <- <-.
  - apply silent_inv; [|done]. destruct Hinv as [_ _ H3 H4 H5]. split; simpl; try done. intros next [= <-].
    pose proof (Peek_spec _ Hs) as Hp. simpl. destruct (Heap.Len (waitingForQueue q) =? 0)%nat; [done|].
    destruct Hp as (k & w & -> & Hw & Hmin). simpl. split; [by exists k, w|done].
  - split; [|split; [|apply run_one; constructor]].
    + apply dinv_weaken. destruct Hinv as [_ _ H3 H4 H5]. split; simpl; try done; [intros next Hn; by apply Hat in Hn|].
      intros k' w'. rewrite Hc. intros [_ ?]%lookup_delete_Some. by eapply H5.
    + intros pre x now' post E. destruct pre as [|e pre]; injection E as E1 E2; [|by destruct pre]. simplify_eq. exists (readyAt w).
      split; [|done]. apply elem_of_app. left. rewrite <- (proj2 Hs _ _ Hk). by apply (dinv_waiting _ _ Hinv x w).
Qed.

Lemma lstep_inv tr now q evs q' held :
  lstep now q evs q' → dinv tr q →
  dinv (tr ++ evs) q' ∧ not_early tr evs ∧ Workqueue.run (interface q, held) (work_labels evs) (interface q', held).
Proof.
  intros Hstep Hinv. destruct Hstep.
  - unfold loop_top. destruct (Workqueue.ShuttingDown (interface q));
      (apply silent_inv; [|reflexivity]; eapply dinv_same; [exact Hinv|done|..|by right]; simpl; set_solver).
  - eapply add_ready_inv; [done| |done]. intros next. by rewrite H.
  - apply silent_inv; [|reflexivity]. eapply dinv_same; [exact Hinv|done|..|by right]; simpl; set_solver.
  - apply silent_inv; [|reflexivity]. eapply dinv_same; [exact Hinv|done|..|by right]; simpl; set_solver.
  - apply silent_inv; [|reflexivity]. eapply dinv_same; [exact Hinv|done|..|by right]; simpl; set_solver.
  - pose proof (dinv_channel _ _ Hinv) as Hch. rewrite H0 in Hch. apply Forall_cons in Hch as [Hask Hch].
    refine (receive_spec tr now entry _ evs q' held _ _ Hask H1); [|done]. eapply dinv_same; [exact Hinv|done|..|by right]; simpl; rewrite ?H0; set_solver.
  - apply silent_inv; [|reflexivity]. eapply dinv_same; [exact Hinv|done|..|by right]; simpl; set_solver.
Qed.

Lemma dstep_inv tr s evs s' :
  dstep s evs s' → dinv tr s.1 →
  dinv (tr ++ evs) s'.1 ∧ not_early tr evs ∧ Workqueue.run (interface s.1, s.2) (work_labels evs) (interface s'.1, s'.2).
Proof.
  intros Hstep Hinv. destruct Hstep; cbn [fst snd] in *.
  - split; [apply dinv_weaken; eapply dinv_same; [exact Hinv|..]; try done; simpl; [set_solver..|by left]|].
    split; [by apply not_early_other|]. by apply run_one.
  - by eapply AddAfter_inl.
  - split; [|split; [by apply not_early_other|constructor]]. destruct Hinv as [H1 H2 H3 H4 H5]. split; simpl; try done.
    + apply Forall_app. split; [eapply Forall_impl; [exact H3|]; intros; by apply asked_app|]. apply Forall_singleton.
      unfold AddAfter in H. destruct (Workqueue.ShuttingDown (interface q)); [done|]. destruct (duration <=? 0); [done|]. injection H as <-.
      unfold asked. simpl. set_solver.
    + eapply Forall_impl; [exact H4|]. intros. by apply asked_app.
    + intros k w Hk. by eapply asked_app, H5.
  - apply silent_inv; [|reflexivity]. eapply dinv_same; [exact Hinv|done|..|by left]; simpl; rewrite H; set_solver.
  - apply silent_inv; [|reflexivity]. eapply dinv_same; [exact Hinv|done|..|by left]; simpl; rewrite H; set_solver.
  - split; [apply dinv_weaken; eapply dinv_same; [exact Hinv|..]; try done; simpl; [set_solver..|by left]|].
    split; [by apply not_early_other|]. apply run_one. constructor.
  - apply silent_inv; [|reflexivity]. eapply dinv_same; [exact Hinv|done|..|by left]; simpl; set_solver.
  - by eapply lstep_inv.
Qed.

Lemma run_app (s s' s'' : Queue string * list string) ls ls' : Workqueue.run s ls s' → Workqueue.run s' ls' s'' → Workqueue.run s (ls ++ ls') s''.
Proof. induction 1; simpl; [done|]. intros. eapply run_cons; eauto. Qed.

Lemma not_early_app tr evs evs' : not_early tr evs → not_early (tr ++ evs) evs' → not_early tr (evs ++ evs').
Proof.
  intros H1 H2 pre x now post E. apply app_eq_app in E as [l [[-> E]|[-> E]]].
  - destruct l as [|e l]; simpl in E.
    + subst evs'. destruct (H2 [] x now post eq_refl) as (r & Hr & ?). exists r. split; [set_solver|done].
    + injection E as <- ->. by apply (H1 pre x now l).
  - destruct (H2 l x now post E) as (r & Hr & ?). exists r. by rewrite app_assoc.
Qed.

(** ** Requests are not lost *)

(** The request to add [x] at the time [r] is still on its way, or waits in the heap, for a time
    that is not later. *)
Definition under_way (x : string) (r : Z) (q : delayingType) : Prop :=
  (∃ e, e ∈ senders q ++ waitingForAddCh q ∧ wdata e = x ∧ readyAt e ≤ r) ∨
  ∃ w, contents (waitingForQueue q) !! x = Some w ∧ readyAt w ≤ r.

Definition added (x : string) (evs : list event) : Prop := ∃ now, EAdd x now ∈ evs.

Lemma under_way_same x r q q' :
  under_way x r q → waitingForQueue q' = waitingForQueue q → senders q ++ waitingForAddCh q ⊆ senders q' ++ waitingForAddCh q' → under_way x r q'.
Proof.
  intros [(e & He & Hx)|Hw] Ew Hsub; [left; exists e; split; [by apply Hsub|done]|right; by rewrite Ew].
Qed.

Lemma receive_under_way x r now entry rest q evs q' :
  sound (waitingForQueue q) → waitingForAddCh q = entry :: rest → under_way x r q →
  receive now entry (set_position (set_channel q rest) AtDrain) = (evs, q') → under_way x r q' ∨ added x evs.
Proof.
  intros Hs Ech Hway. unfold receive. destruct (Z.ltb_spec now (readyAt entry)) as [Hlt|Hge]; intros [= <- <-].
  - left. destruct (insert_entry_spec (waitingForQueue q) entry Hs) as [_ Hc]. unfold under_way. simpl. rewrite Hc. destruct Hway as [(e & He & Hx & Hr)|(w & Hw & Hr)].
    + rewrite Ech, elem_of_app, elem_of_cons in He. destruct He as [He|[->|He]]; [left; exists e; set_solver| |left; exists e; set_solver].
      right. rewrite Hx. destruct (contents (waitingForQueue q) !! x) as [w|] eqn:Ew; [|exists entry; by rewrite lookup_insert_eq].
      destruct (Z.ltb_spec (readyAt entry) (readyAt w)); [exists entry; by rewrite lookup_insert_eq|]. exists w. split; [done|lia].
    + right. destruct (decide (x = wdata entry)) as [->|Hne].
      * rewrite Hw. destruct (Z.ltb_spec (readyAt entry) (readyAt w)); [exists entry; rewrite lookup_insert_eq; split; [done|lia]|by exists w].
      * exists w. split; [|done]. destruct (contents (waitingForQueue q) !! wdata entry) as [w0|]; [destruct (_ <? _)|]; rewrite ?lookup_insert_ne by done; done.
  - destruct (decide (wdata entry = x)) as [<-|Hne]; [right; exists now; set_solver|left]. destruct Hway as [(e & He & Hx & Hr)|Hw]; [left|by right].
    exists e. split; [|done]. rewrite Ech in He. simpl. set_unfold. destruct He as [?|[->|?]]; [by left|done|by right].
Qed.

Lemma add_ready_under_way x r now q evs q' :
  sound (waitingForQueue q) → add_ready now q = Some (evs, q') → under_way x r q → under_way x r q' ∨ added x evs.
Proof.
  intros Hs E Hway. destruct (add_ready_spec now q Hs) as [[E' _]|(k & w & pq & E' & Hk & Hr & Hs' & Hc)]; rewrite E' in E; injection E as <- <-; [by left|].
  destruct (decide (k = x)) as [->|Hne]; [right; exists now; set_solver|left]. destruct Hway as [?|(w' & Hw' & ?)]; [by left|right].
  exists w'. simpl. by rewrite Hc, lookup_delete_ne.
Qed.

Lemma lstep_under_way x r now q evs q' :
  sound (waitingForQueue q) → lstep now q evs q' → under_way x r q → under_way x r q' ∨ added x evs.
Proof.
  intros Hs Hstep Hway. destruct Hstep; try (by left).
  - left. unfold loop_top. by destruct (Workqueue.ShuttingDown _).
  - by eapply add_ready_under_way.
  - by eapply receive_under_way.
Qed.

Lemma dstep_under_way tr x r s evs s' :
  dinv tr s.1 → dstep s evs s' → under_way x r s.1 → under_way x r s'.1 ∨ added x evs ∨ stopCh s'.1 = true.
Proof.
  intros Hinv Hstep Hway. destruct Hstep; cbn [fst snd] in *; try (left; eapply under_way_same; [exact Hway|done|simpl; set_solver]).
  - left. unfold AddAfter in H. destruct (Workqueue.ShuttingDown _); [by injection H as <- <-|]. destruct (_ <=? _); [|done]. injection H as <- <-.
    eapply under_way_same; [exact Hway|done|simpl; set_solver].
  - left. eapply under_way_same; [exact Hway|done|]. simpl. rewrite H. set_solver.
  - by right; right.
  - destruct (lstep_under_way x r now q evs q' (dinv_sound _ _ Hinv) H Hway); [by left|by right; left].
Qed.

(** What the loop leaves alone: the senders and the stop channel. *)
Lemma lstep_frame now q evs q' : lstep now q evs q' → senders q' = senders q ∧ stopCh q' = stopCh q.
Proof.
  destruct 1; try done.
  - unfold loop_top. by destruct (Workqueue.ShuttingDown _).
  - unfold add_ready in H0. destruct (_ =? _)%nat; [by injection H0 as <- <-|]. destruct (Peek _); [|done].
    destruct (_ <? _); [by injection H0 as <- <-|]. destruct (heap_Pop _ _) as [[?|] ?]; [by injection H0 as <- <-|done].
  - unfold receive in H1. destruct (_ <? _); by injection H1 as <- <-.
Qed.

Lemma dstep_stop s evs s' : dstep s evs s' → stopCh s.1 = true → stopCh s'.1 = true.
Proof.
  intros Hstep Hst. destruct Hstep; simpl in *; try done.
  - unfold AddAfter in H. destruct (Workqueue.ShuttingDown _); [by injection H as <- <-|]. destruct (_ <=? _); [|done]. by injection H as <- <-.
  - by rewrite (proj2 (lstep_frame _ _ _ _ H)).
Qed.

Lemma druns_stop s evs s' : druns s evs s' → stopCh s.1 = true → stopCh s'.1 = true.
Proof. induction 1; eauto using dstep_stop. Qed.

Lemma druns_inv tr s evs s' :
  druns s evs s' → dinv tr s.1 →
  dinv (tr ++ evs) s'.1 ∧ not_early tr evs ∧ Workqueue.run (interface s.1, s.2) (work_labels evs) (interface s'.1, s'.2) ∧
  ∀ x r, under_way x r s.1 → under_way x r s'.1 ∨ added x evs ∨ stopCh s'.1 = true.
Proof.
  intros Hruns. revert tr. induction Hruns as [s|s evs s' evs' s'' Hstep Hruns IH]; intros tr Hinv.
  { rewrite app_nil_r. split; [done|]. split; [apply not_early_nil|]. split; [constructor|]. intros x r ?. by left. }
  destruct (dstep_inv tr s evs s' Hstep Hinv) as (Hinv' & Hearly & Hrun). destruct (IH _ Hinv') as (Hinv'' & Hearly' & Hrun' & Hway').
  rewrite app_assoc. split; [done|]. split; [|split].
  - by apply not_early_app.
  - unfold work_labels. rewrite omap_app. by eapply run_app.
  - intros x r Hway. destruct (dstep_under_way tr x r _ _ _ Hinv Hstep Hway) as [Hw|[[now Hn]|Hst]].
    + destruct (Hway' x r Hw) as [?|[[now Hn]|?]]; [by left|right; left; exists now; set_solver|by right; right].
    + right. left. exists now. set_solver.
    + right. right. by eapply druns_stop.
Qed.

(** A request is under way once it was made. *)
Lemma dstep_request tr s evs s' pre x r post :
  dinv tr s.1 → dstep s evs s' → evs = pre ++ ERequest x r :: post → added x post ∨ under_way x r s'.1.
Proof.
  intros Hinv Hstep E. assert (ERequest x r ∈ evs) as Hin by (rewrite E; set_solver).
  destruct Hstep; cbn [fst snd] in *; try (by apply elem_of_nil in Hin); try (by apply list_elem_of_singleton in Hin).
  - unfold AddAfter in H. destruct (Workqueue.ShuttingDown _); [injection H as <- <-; by apply elem_of_nil in Hin|]. destruct (_ <=? _); [|done]. injection H as <- <-.
    left. destruct pre as [|e1 [|e2 pre]]; [|done|apply (f_equal length) in E; simpl in E; rewrite length_app in E; simpl in E; lia].
    injection E as <- _ <-. exists now. set_solver.
  - apply list_elem_of_singleton in Hin as [= -> ->]. right. left. exists entry. unfold AddAfter in H. destruct (Workqueue.ShuttingDown _); [done|].
    destruct (_ <=? _); [done|]. injection H as <-. simpl. split; [set_solver|done].
  - destruct H; try (by apply elem_of_nil in Hin).
    + destruct (add_ready_spec at_ q (dinv_sound _ _ Hinv)) as [[E' _]|(k & w & pq & E' & _)]; rewrite E' in H0; injection H0 as <- <-;
        [by apply elem_of_nil in Hin|by apply list_elem_of_singleton in Hin].
    + unfold receive in H1. destruct (_ <? _); injection H1 as <- <-; [by apply elem_of_nil in Hin|by apply list_elem_of_singleton in Hin].
Qed.

Lemma druns_request tr s evs s' pre x r post :
  dinv tr s.1 → druns s evs s' → evs = pre ++ ERequest x r :: post → added x post ∨ under_way x r s'.1 ∨ stopCh s'.1 = true.
Proof.
  intros Hinv Hruns. revert tr Hinv pre. induction Hruns as [s|s evs s' evs' s'' Hstep Hruns IH]; intros tr Hinv pre E; [by destruct pre|].
  destruct (dstep_inv tr s evs s' Hstep Hinv) as (Hinv' & _). apply app_eq_app in E as [l [[-> E]|[-> E]]]; [|by eapply IH].
  destruct l as [|e l]; [by apply (IH _ Hinv' [])|]. injection E as <- ->.
  destruct (dstep_request tr s _ s' pre x r l Hinv Hstep eq_refl) as [[now Hn]|Hway]; [left; exists now; set_solver|].
  destruct (druns_inv _ _ _ _ Hruns Hinv') as (_ & _ & _ & Hkeep).
  destruct (Hkeep x r Hway) as [?|[[now Hn]|?]]; [by right; left|left; exists now; set_solver|by right; right].
Qed.

Lemma dinv_init : dinv [] newDelayingQueue.
Proof. split; simpl; [apply newWaiting_sound|done|done|done|done]. Qed.

(** C26: the delaying queue is a work queue to which items are added neither early nor never.
    Whatever its callers, its clock and its loop do, what happens to the work queue inside it
    is a run of the work queue; an item that the delaying queue adds was asked for before,
    at a time that has come; and a request to add an item has been followed by an addition of
    that item, or is on its way or waiting for a time that is not later than the one it
    asked for, unless the queue has been stopped. The timer of the loop is set to the first
    time that something is due. *)
Theorem delaying_queue_correct evs q held :
  druns (newDelayingQueue, []) evs (q, held) →
  Workqueue.run (newQueue, []) (work_labels evs) (interface q, held) ∧
  (∀ pre x now post, evs = pre ++ EAdd x now :: post → ∃ r, ERequest x r ∈ pre ∧ r ≤ now) ∧
  (∀ pre x r post, evs = pre ++ ERequest x r :: post → added x post ∨ under_way x r q ∨ stopCh q = true) ∧
  timer_set q.
Proof.
  intros Hruns. destruct (druns_inv [] _ _ _ Hruns dinv_init) as (Hinv & Hearly & Hrun & _). split; [done|]. split; [done|]. split; [|apply Hinv].
  intros pre x r post E. exact (druns_request [] (newDelayingQueue, []) _ (q, held) pre x r post dinv_init Hruns E).
Qed.

(** ** The loop serves what is due *)

Lemma druns_trans s evs s' evs' s'' : druns s evs s' → druns s' evs' s'' → druns s (evs ++ evs') s''.
Proof. induction 1; simpl; [done|]. intros. rewrite <- app_assoc. eapply druns_step; eauto. Qed.

(** A channel that is closed belongs to a work queue that is shut down. *)
Definition stop_shut (q : delayingType) : Prop := stopCh q = true → Workqueue.ShuttingDown (interface q) = true.

Lemma Add_ShuttingDown x (i : Queue string) : Workqueue.ShuttingDown (Workqueue.Add x i) = Workqueue.ShuttingDown i.
Proof. unfold Workqueue.Add, Workqueue.ShuttingDown. destruct (shuttingDown i) eqn:E; [done|]. repeat case_bool_decide; done. Qed.

Lemma step_ShuttingDown (s s' : Queue string * list string) l :
  Workqueue.step s l s' → Workqueue.ShuttingDown s.1 = true → Workqueue.ShuttingDown s'.1 = true.
Proof.
  unfold Workqueue.ShuttingDown. intros Hstep Hs. destruct Hstep; simpl in *; try done.
  - by apply (eq_trans (Add_ShuttingDown _ _)).
  - unfold Workqueue.Get in H. destruct (Workqueue.queue q); [by destruct (shuttingDown q)|]. by injection H as <- <-.
  - unfold Workqueue.Done. by case_bool_decide.
Qed.

Lemma lstep_ShuttingDown now q evs q' :
  lstep now q evs q' → Workqueue.ShuttingDown (interface q') = Workqueue.ShuttingDown (interface q).
Proof.
  destruct 1; try done.
  - unfold loop_top. by destruct (Workqueue.ShuttingDown (interface q)) eqn:E.
  - unfold add_ready in H0. destruct (_ =? _)%nat; [by injection H0 as <- <-|]. destruct (Peek _); [|done].
    destruct (_ <? _); [by injection H0 as <- <-|]. destruct (heap_Pop _ _) as [[?|] ?]; [|done]. injection H0 as <- <-. apply Add_ShuttingDown.
  - unfold receive in H1. destruct (_ <? _); injection H1 as <- <-; [done|apply Add_ShuttingDown].
Qed.

Lemma druns_stop_shut s evs s' : druns s evs s' → stop_shut s.1 → stop_shut s'.1.
Proof.
  unfold stop_shut. induction 1 as [|s evs s' evs' s'' Hstep _ IH]; intros Hs; [done|]. apply IH. clear IH. destruct Hstep; simpl in *; try done.
  - intros Hst. apply (step_ShuttingDown _ _ _ H0). by apply Hs.
  - unfold AddAfter in H. destruct (Workqueue.ShuttingDown _) eqn:E; [injection H as <- <-; by rewrite E|]. destruct (_ <=? _); [|done].
    injection H as <- <-. simpl. by rewrite Add_ShuttingDown, E.
  - rewrite (proj2 (lstep_frame _ _ _ _ H)), (lstep_ShuttingDown _ _ _ _ H). done.
Qed.

(** The loop runs, and nobody has shut the queue down. *)
Record live (q : delayingType) : Prop := {
  live_sound : sound (waitingForQueue q);
  live_open : Workqueue.ShuttingDown (interface q) = false;
  live_stop : stopCh q = false;
  live_at : loop_at q ≠ AtEnd;
}.

Lemma lstep_sound now q evs q' : sound (waitingForQueue q) → lstep now q evs q' → sound (waitingForQueue q').
Proof.
  intros Hs. destruct 1; try done.
  - unfold loop_top. by destruct (Workqueue.ShuttingDown _).
  - destruct (add_ready_spec at_ q Hs) as [[E _]|(k & w & pq & E & _ & _ & ? & _)]; rewrite E in H0; by injection H0 as <- <-.
  - unfold receive in H1. destruct (_ <? _); injection H1 as <- <-; [by apply insert_entry_spec|done].
Qed.

Lemma lstep_live now q evs q' : live q → lstep now q evs q' → live q'.
Proof.
  intros [Hs Ho Hst Hat] Hstep. split.
  - by eapply lstep_sound.
  - by rewrite (lstep_ShuttingDown _ _ _ _ Hstep).
  - by rewrite (proj2 (lstep_frame _ _ _ _ Hstep)).
  - destruct Hstep; try done.
    + unfold loop_top. by rewrite Ho.
    + destruct (add_ready_spec at_ q Hs) as [[E _]|(k & w & pq & E & _)]; rewrite E in H0; by injection H0 as <- <-.
    + congruence.
    + unfold receive in H1. destruct (_ <? _); by injection H1 as <- <-.
Qed.

(** The loop is never stuck. *)
Lemma live_steps now q : live q → ∃ evs q', lstep now q evs q'.
Proof.
  intros [Hs Ho Hst Hat]. destruct (loop_at q) as [|at_|next| |] eqn:E; [..|done].
  - eexists _, _. by apply step_top.
  - destruct (add_ready_spec at_ q Hs) as [[E' _]|(k & w & pq & E' & _)]; eexists _, _; by eapply step_ready.
  - eexists _, _. by eapply step_heartbeat.
  - destruct (waitingForAddCh q) as [|entry rest] eqn:Ech; [eexists _, _; by apply step_drained|].
    destruct (receive now entry (set_position (set_channel q rest) AtDrain)) as [evs q'] eqn:Er.
    exists evs, q'. by eapply (step_receive now q None); [right| |].
Qed.

(** The item waits for a time up to [r], in the heap, or in the channel while the loop drains
    it. *)
Definition waits (x : string) (r : Z) (q : delayingType) : Prop :=
  (∃ w, contents (waitingForQueue q) !! x = Some w ∧ readyAt w ≤ r) ∨
  loop_at q = AtDrain ∧ ∃ e, e ∈ waitingForAddCh q ∧ wdata e = x ∧ readyAt e ≤ r.

(** How many steps the loop has left at most until it has added what is due at [r]. *)
Definition loop_rank (r : Z) (q : delayingType) : nat :=
  let len := Heap.Len (waitingForQueue q) in
  let chan := length (waitingForAddCh q) in
  match loop_at q with
  | AtTop => 1 + len
  | AtReady now => if r <=? now then len else len + 2 * chan + 4
  | AtSelect _ => len + 2 * chan + 3
  | AtDrain => len + 2 * chan + 2
  | AtEnd => 0
  end.

Lemma receive_serves x r now q entry rest evs q' :
  sound (waitingForQueue q) → waitingForAddCh q = entry :: rest →
  (∃ w, contents (waitingForQueue q) !! x = Some w ∧ readyAt w ≤ r) ∨ (∃ e, e ∈ entry :: rest ∧ wdata e = x ∧ readyAt e ≤ r) →
  receive now entry (set_position (set_channel q rest) AtDrain) = (evs, q') →
  added x evs ∨ waits x r q' ∧ (loop_rank r q' < Heap.Len (waitingForQueue q) + 2 * length (waitingForAddCh q) + 2)%nat.
Proof.
  intros Hs Ech Hw Er. assert (under_way x r (set_senders q [])) as Hway by (destruct Hw as [?|(e & He & ?)]; [by right|left; exists e; simpl; by rewrite Ech]).
  assert (receive now entry (set_position (set_channel (set_senders q []) rest) AtDrain) = (evs, set_senders q' [])) as Er'.
  { unfold receive in *. simpl in *. destruct (now <? readyAt entry); by injection Er as <- <-. }
  destruct (receive_under_way x r now entry rest (set_senders q []) evs _ Hs Ech Hway Er') as [Hway'|?]; [right|by left]. clear Er'.
  assert (loop_at q' = AtDrain ∧ waitingForAddCh q' = rest ∧ Heap.Len (waitingForQueue q') ≤ S (Heap.Len (waitingForQueue q)))%nat as (Hat & Hch & Hlen).
  { unfold receive in Er. destruct (now <? readyAt entry); injection Er as <- <-; simpl; split_and!; try done; [by apply Len_insert_entry|lia]. }
  split; [|unfold loop_rank; rewrite Hat, Ech, Hch; simpl; lia].
  destruct Hway' as [(e & He & ?)|?]; [right; split; [done|]; by exists e|by left].
Qed.

(** Each step of the loop adds the item or brings that nearer. *)
Lemma lstep_serves x r now q evs q' :
  live q → r ≤ now → waits x r q → lstep now q evs q' → added x evs ∨ waits x r q' ∧ (loop_rank r q' < loop_rank r q)%nat.
Proof.
  intros [Hs Ho Hst _] Hr Hw Hstep. destruct Hstep; unfold loop_rank at 2;
    try (destruct Hw as [Hw|[Hw _]]; [|by rewrite Hw in H]; right; split; [by left|]; rewrite H; unfold loop_rank; simpl; lia).
  - destruct Hw as [Hw|[Hw _]]; [|congruence]. right. unfold loop_top. rewrite Ho, H. split; [by left|]. unfold loop_rank. simpl.
    rewrite (proj2 (Z.leb_le r now) Hr). lia.
  - destruct Hw as [(w' & Hw' & Hr')|[Hw _]]; [|congruence]. rewrite H.
    destruct (add_ready_spec at_ q Hs) as [[E Hnone]|(k & w & pq & E & Hk & _ & Hs' & Hc)]; rewrite E in H0; injection H0 as <- <-.
    + right. split; [left; by exists w'|]. specialize (Hnone _ _ Hw'). unfold loop_rank. simpl. destruct (Z.leb_spec r at_); lia.
    + destruct (decide (k = x)) as [->|Hne]; [left; exists at_; set_solver|right]. split; [left; exists w'; simpl; by rewrite Hc, lookup_delete_ne|].
      unfold loop_rank. simpl. rewrite H, (Len_pop _ pq k w Hs Hs' Hk Hc). destruct (r <=? at_); lia.
  - assert ((∃ w, contents (waitingForQueue q) !! x = Some w ∧ readyAt w ≤ r) ∨ (∃ e, e ∈ entry :: rest ∧ wdata e = x ∧ readyAt e ≤ r)) as Hw'
      by (destruct Hw as [?|[_ Hw]]; [by left|right; by rewrite <- H0]).
    destruct (receive_serves x r now q entry rest evs q' Hs H0 Hw' H1) as [?|[? Hlt]]; [by left|right]. split; [done|].
    destruct H as [-> | ->]; lia.
  - right. destruct Hw as [Hw|[_ (e & He & _)]]; [|rewrite H0 in He; by apply elem_of_nil in He]. split; [by left|]. rewrite H. unfold loop_rank. simpl. lia.
Qed.

Lemma lruns_serve x r n q evs q' : lruns r n q evs q' → live q → waits x r q → (loop_rank r q < n)%nat → added x evs.
Proof.
  induction 1 as [|n now q evs q' evs' q'' Hr Hstep _ IH]; intros Hl Hw Hn; [lia|].
  destruct (lstep_serves x r now q evs q' Hl Hr Hw Hstep) as [[t Ht]|[Hw' Hlt]]; [exists t; set_solver|].
  destruct (IH (lstep_live _ _ _ _ Hl Hstep) Hw' ltac:(lia)) as [t Ht]. exists t. set_solver.
Qed.

Lemma live_lruns r n q : live q → ∃ evs q', lruns r n q evs q'.
Proof.
  revert q. induction n as [|n IH]; intros q Hl; [eexists _, _; constructor|]. destruct (live_steps r q Hl) as (evs & q' & Hstep).
  destruct (IH q' (lstep_live _ _ _ _ Hl Hstep)) as (evs' & q'' & Hruns). eexists _, _. eapply lruns_step; [reflexivity|exact Hstep|exact Hruns].
Qed.

(** The loop can get to its [select] with the channel as it is, and receive from it. *)
Lemma serve_select r q :
  live q → loop_at q ≠ AtDrain → ∃ n evs q' next, lruns r n q evs q' ∧ live q' ∧ loop_at q' = AtSelect next ∧ waitingForAddCh q' = waitingForAddCh q.
Proof.
  assert (∀ len q now, Heap.Len (waitingForQueue q) = len → live q → loop_at q = AtReady now →
    ∃ n evs q' next, lruns r n q evs q' ∧ live q' ∧ loop_at q' = AtSelect next ∧ waitingForAddCh q' = waitingForAddCh q) as Hready.
  { clear q. induction len as [len IH] using lt_wf_ind. intros q now Hlen Hl Hat. pose proof (live_sound _ Hl) as Hs.
    destruct (add_ready_spec now q Hs) as [[E _]|(k & w & pq & E & Hk & _ & Hs' & Hc)].
    - pose proof (step_ready r now q _ _ Hat E) as Hstep. exists 1%nat, ([] ++ []). eexists _, _.
      split; [eapply lruns_step; [reflexivity|exact Hstep|constructor]|]. split; [by eapply lstep_live|done].
    - pose proof (step_ready r now q _ _ Hat E) as Hstep.
      edestruct (IH (Heap.Len pq)) with (q := mkDelaying (Workqueue.Add k (interface q)) (stopCh q) (senders q) (waitingForAddCh q) pq (loop_at q))
        as (n & evs & q' & next & Hruns & Hl' & Hat' & Hch'); [|reflexivity|exact (lstep_live _ _ _ _ Hl Hstep)|exact Hat|].
      { pose proof (Len_pop _ pq k w Hs Hs' Hk Hc). lia. }
      exists (S n). eexists _, q', next. split; [eapply lruns_step; [reflexivity|exact Hstep|exact Hruns]|done]. }
  intros Hl Hnd. destruct (loop_at q) as [|now|next| |] eqn:Hat; [| |..|by destruct (live_at _ Hl)].
  - pose proof (step_top r q Hat) as Hstep. unfold loop_top in Hstep. rewrite (live_open _ Hl) in Hstep.
    edestruct (Hready _ (set_position q (AtReady r)) r eq_refl) as (n & evs & q' & next & Hruns & ?); [by eapply lstep_live|done|].
    exists (S n). eexists _, q', next. split; [eapply lruns_step; [reflexivity|exact Hstep|exact Hruns]|done].
  - by eapply Hready.
  - exists 0%nat, [], q, next. split; [constructor|done].
  - done.
Qed.

Lemma lruns_app r n q evs q' m evs' q'' : lruns r n q evs q' → lruns r m q' evs' q'' → lruns r (n + m) q (evs ++ evs') q''.
Proof. induction 1; simpl; [done|]. intros. rewrite <- app_assoc. eapply lruns_step; eauto. Qed.

Lemma serve_waits x r q : live q → waits x r q → ∃ n evs q', lruns r n q evs q' ∧ added x evs.
Proof.
  intros Hl Hw. destruct (live_lruns r (S (loop_rank r q)) q Hl) as (evs & q' & Hruns). eexists _, evs, q'. split; [exact Hruns|].
  eapply lruns_serve; [exact Hruns|done..|lia].
Qed.

Lemma serve_channel x r q e :
  live q → e ∈ waitingForAddCh q → wdata e = x → readyAt e ≤ r → ∃ n evs q', lruns r n q evs q' ∧ added x evs.
Proof.
  intros Hl He Hx Hr. destruct (decide (loop_at q = AtDrain)) as [Hat|Hat]; [apply serve_waits; [done|right; split; [done|]; by exists e]|].
  destruct (serve_select r q Hl Hat) as (n & evs & q1 & next & Hruns & Hl1 & Hat1 & Hch1).
  destruct (waitingForAddCh q) as [|e0 rest] eqn:Ech; [by apply elem_of_nil in He|].
  destruct (receive r e0 (set_position (set_channel q1 rest) AtDrain)) as [evs1 q2] eqn:Er.
  pose proof (step_receive r q1 next e0 rest evs1 q2 (or_introl Hat1) Hch1 Er) as Hstep.
  assert (lruns r (n + 1) q (evs ++ evs1 ++ []) q2) as Hruns' by (eapply lruns_app; [exact Hruns|]; eapply lruns_step; [reflexivity|exact Hstep|constructor]).
  destruct (receive_serves x r r q1 e0 rest evs1 q2 (live_sound _ Hl1) Hch1) as [[t Ht]|[Hw _]]; [right; by exists e|done| |].
  - eexists _, _, q2. split; [exact Hruns'|]. exists t. set_solver.
  - destruct (serve_waits x r q2 (lstep_live _ _ _ _ Hl1 Hstep) Hw) as (m & evs2 & q' & Hruns2 & t & Ht).
    eexists _, _, q'. split; [eapply lruns_app; [exact Hruns'|exact Hruns2]|]. exists t. set_solver.
Qed.

Lemma reachable_live tr q held :
  druns (newDelayingQueue, []) tr (q, held) → loop_at q ≠ AtEnd → Workqueue.ShuttingDown (interface q) = false → live q.
Proof.
  intros Hreach Hat Ho. destruct (druns_inv [] _ _ _ Hreach dinv_init) as (Hinv & _). split; [exact (dinv_sound _ _ Hinv)|done| |done].
  assert (stop_shut q) as Hss by (apply (druns_stop_shut _ _ _ Hreach); by unfold stop_shut). unfold stop_shut in Hss. destruct (stopCh q); [|done].
  rewrite (Hss eq_refl) in Ho. done.
Qed.

(** C27: the loop serves what is due, on its own. In every state that the delaying queue can
    reach in which it is not shut down and its loop has not ended: an item that waits in the
    heap, or in the channel while the loop drains it, for a time up to [r] is added by every
    run of the loop alone of more than [loop_rank] steps, none at a clock reading before [r];
    the loop has a run of any length, so that it is never stuck; and an item in the channel
    can be added by steps of the loop alone (the [select] chooses when it receives). *)
Theorem delaying_queue_prompt tr q held x r :
  druns (newDelayingQueue, []) tr (q, held) → loop_at q ≠ AtEnd → Workqueue.ShuttingDown (interface q) = false →
  (waits x r q → ∀ n evs q', lruns r n q evs q' → (loop_rank r q < n)%nat → added x evs) ∧
  (∀ n, ∃ evs q', lruns r n q evs q') ∧
  (∀ e, e ∈ waitingForAddCh q → wdata e = x → readyAt e ≤ r → ∃ n evs q', lruns r n q evs q' ∧ added x evs).
Proof.
  intros Hreach Hend Hsd. pose proof (reachable_live _ _ _ Hreach Hend Hsd) as Hl. split; [|split].
  - intros Hw n evs q' Hruns. by eapply lruns_serve.
  - intros n. by apply live_lruns.
  - intros e. by apply serve_channel.
Qed.

(** ** An item that is asked for at 0 for the time 5 *)

Definition ex_sent : delayingType := mkDelaying newQueue false [] [mkWait "a" 5] newWaiting AtTop.

Lemma ex_sent_run : druns (newDelayingQueue, []) [ERequest "a" 5] (ex_sent, []).
Proof.
  change [ERequest "a" 5] with ([ERequest "a" 5] ++ [] ++ []).
  eapply druns_step; [exact (step_add_later 0 "a" 5 newDelayingQueue [] (mkWait "a" 5) eq_refl)|]. eapply druns_step; [|constructor].
  refine (step_send (set_senders newDelayingQueue [mkWait "a" 5]) [] [] (mkWait "a" 5) [] eq_refl _). simpl. unfold channel_size. lia.
Qed.

(** The loop at its first [select], and the entry in its heap. *)
Definition ex_waiting : delayingType := mkDelaying newQueue false [] [] (insert_entry newWaiting (mkWait "a" 5)) AtDrain.

Lemma ex_waiting_run : druns (newDelayingQueue, []) [ERequest "a" 5] (ex_waiting, []).
Proof.
  change [ERequest "a" 5] with ([ERequest "a" 5] ++ []). eapply druns_trans; [exact ex_sent_run|].
  change (@nil event) with (@nil event ++ [] ++ [] ++ []).
  eapply druns_step; [eapply (step_loop 1), step_top; reflexivity|].
  eapply druns_step; [eapply (step_loop 1), step_ready; reflexivity|].
  eapply druns_step; [eapply (step_loop 2), (step_receive 2 _ None); [left; reflexivity|reflexivity|vm_compute; reflexivity]|]. constructor.
Qed.

Lemma delaying_queue_prompt_witness :
  loop_rank 5 ex_waiting = 3%nat ∧ (∀ evs q', lruns 5 4 ex_waiting evs q' → added "a" evs) ∧ ∃ n evs q', lruns 5 n ex_sent evs q' ∧ added "a" evs.
Proof.
  split; [reflexivity|]. split.
  - intros evs q' Hruns. apply (proj1 (delaying_queue_prompt [ERequest "a" 5] ex_waiting [] "a" 5 ex_waiting_run ltac:(done) eq_refl)) with 4%nat q'; [|exact Hruns|vm_compute; lia].
    left. exists (mkWait "a" 5). split; [reflexivity|simpl; lia].
  - apply (proj2 (proj2 (delaying_queue_prompt [ERequest "a" 5] ex_sent [] "a" 5 ex_sent_run ltac:(done) eq_refl)) (mkWait "a" 5)); [simpl; left|reflexivity|simpl; lia].
Defined.

(** The receipt, the next turn, and the turn at 5. *)
Lemma ex_added_run : ∃ q, druns (newDelayingQueue, []) [ERequest "a" 5; EAdd "a" 5] (q, []) ∧ Workqueue.queue (interface q) = ["a"].
Proof.
  eexists. split.
  - change [ERequest "a" 5; EAdd "a" 5] with ([ERequest "a" 5] ++ [EAdd "a" 5]). eapply druns_trans; [exact ex_sent_run|].
    change [EAdd "a" 5] with ([] ++ [] ++ [] ++ [] ++ [] ++ [] ++ [] ++ [] ++ [EAdd "a" 5] ++ []).
    eapply druns_step; [eapply (step_loop 1), step_top; reflexivity|].
    eapply druns_step; [eapply (step_loop 1), step_ready; reflexivity|].
    eapply druns_step; [eapply (step_loop 2), (step_receive 2 _ None); [left; reflexivity|reflexivity|vm_compute; reflexivity]|].
    eapply druns_step; [eapply (step_loop 2), step_drained; reflexivity|].
    eapply druns_step; [eapply (step_loop 3), step_top; reflexivity|].
    eapply druns_step; [eapply (step_loop 3), step_ready; [reflexivity|vm_compute; reflexivity]|].
    eapply druns_step; [eapply (step_loop 5), (step_timer 5 _ 5); [reflexivity|lia]|].
    eapply druns_step; [eapply (step_loop 5), step_top; reflexivity|].
    eapply druns_step; [eapply (step_loop 5), step_ready; [reflexivity|vm_compute; reflexivity]|]. constructor.
  - reflexivity.
Qed.

Lemma delaying_queue_correct_witness :
  ∃ q, Workqueue.queue (interface q) = ["a"] ∧ Workqueue.run (newQueue, []) [LAdd "a"] (interface q, []) ∧ timer_set q.
Proof.
  destruct ex_added_run as (q & Hruns & Hq). exists q. split; [exact Hq|].
  destruct (delaying_queue_correct _ _ _ Hruns) as (Hrun & _ & _ & Ht). split; [exact Hrun|exact Ht].
Defined.
