(* ===== verification/RateLimiters.v ===== *)
(** * Rate limiters and the rate-limited queue

    [staging/src/k8s.io/client-go/util/workqueue/default_rate_limiters.go] and
    [rate_limitting_queue.go]: how long an item that failed has to wait before it is tried
    again. The token bucket is that of another library and a parameter: what it answers, and
    its state afterwards. The numbers of failures are not wrapped: they count calls. Floating
    point is as far as the code uses it: an integer is rounded to 53 bits and multiplied by a
    power of two; what a conversion gives that does not fit is a parameter. *)

From S2P Require Import Prelude Workqueue Heap DelayingQueue.

(** ** Floating point *)

Inductive float : Type :=
  | Finite (z : Z)
  | PosInf
  | NegInf
  | NaN.

(** The nearest number with 53 bits, the even one of two. *)
Definition round53 (n : Z) : Z :=
  if Z.abs n <? 2 ^ 53 then n
  else
    let e := Z.log2 (Z.abs n) - 52 in
    let q := Z.abs n / 2 ^ e in
    let rest := Z.abs n mod 2 ^ e in
    let q := if (2 ^ (e - 1) <? rest) || ((rest =? 2 ^ (e - 1)) && Z.odd q) then q + 1 else q in
    Z.sgn n * (q * 2 ^ e).

(** [float64(n) * math.Pow(2, float64(exp))] *)
Definition times_pow2 (n exp : Z) : float :=
  let f := round53 n in
  if exp <? 1024 then
    let z := f * 2 ^ exp in
    if 2 ^ 1024 <=? z then PosInf else if z <=? - 2 ^ 1024 then NegInf else Finite z
  else if f =? 0 then NaN else if 0 <? f then PosInf else NegInf.

(** [backoff > math.MaxInt64]: the constant is converted, which rounds it up. *)
Definition above_MaxInt64 (f : float) : bool := match f with Finite z => 2 ^ 63 <? z | PosInf => true | _ => false end.

Section limiters.
Context {B : Type} (reserve : B → Z * B) (out_of_range : float → Z).

Definition to_duration (f : float) : Z :=
  match f with
  | Finite z => if (- 2 ^ 63 <=? z) && (z <? 2 ^ 63) then z else out_of_range f
  | _ => out_of_range f
  end.

(** ** Limiters *)

Inductive limiter : Type :=
  | BucketRateLimiter (bucket : B)
  | ItemExponentialFailureRateLimiter (failures : gmap string Z) (baseDelay maxDelay : Z)
  | ItemFastSlowRateLimiter (failures : gmap string Z) (maxFastAttempts fastDelay slowDelay : Z)
  | MaxOfRateLimiter (limiters : list limiter).

Definition NewItemExponentialFailureRateLimiter (baseDelay maxDelay : Z) : limiter := ItemExponentialFailureRateLimiter ∅ baseDelay maxDelay.
Definition NewItemFastSlowRateLimiter (fastDelay slowDelay maxFastAttempts : Z) : limiter :=
  ItemFastSlowRateLimiter ∅ maxFastAttempts fastDelay slowDelay.
Definition NewMaxOfRateLimiter (limiters : list limiter) : limiter := MaxOfRateLimiter limiters.

Definition Millisecond : Z := 1000000.
Definition Second : Z := 1000000000.

Definition DefaultControllerRateLimiter (bucket : B) : limiter :=
  NewMaxOfRateLimiter [NewItemExponentialFailureRateLimiter (5 * Millisecond) (1000 * Second); BucketRateLimiter bucket].

Definition DefaultItemBasedRateLimiter : limiter := NewItemExponentialFailureRateLimiter Millisecond (1000 * Second).

Definition failures_of (failures : gmap string Z) (item : string) : Z := default 0 (failures !! item).

(** The delay of [ItemExponentialFailureRateLimiter.When]. *)
Definition backoff_delay (baseDelay maxDelay exp : Z) : Z :=
  let backoff := times_pow2 baseDelay exp in
  if above_MaxInt64 backoff then maxDelay
  else
    let calculated := to_duration backoff in
    if maxDelay <? calculated then maxDelay else calculated.

(** [When] of the limiters that count: the delay and the failures afterwards. *)
Definition exponential_When (item : string) (failures : gmap string Z) (baseDelay maxDelay : Z) : Z * gmap string Z :=
  let exp := failures_of failures item in
  (backoff_delay baseDelay maxDelay exp, <[item := exp + 1]> failures).

Definition fast_slow_When (item : string) (failures : gmap string Z) (maxFastAttempts fastDelay slowDelay : Z) : Z * gmap string Z :=
  let failures := <[item := failures_of failures item + 1]> failures in
  (if failures_of failures item <=? maxFastAttempts then fastDelay else slowDelay, failures).

(** The loops of [MaxOfRateLimiter] over its limiters. *)
Definition max_when (when : limiter → Z * limiter) : Z → list limiter → Z * list limiter :=
  fix max_of ret limiters :=
    match limiters with
    | [] => (ret, [])
    | l :: limiters =>
        let (curr, l) := when l in
        let (ret, limiters) := max_of (if ret <? curr then curr else ret) limiters in
        (ret, l :: limiters)
    end.

Definition max_count (num : limiter → Z) : Z → list limiter → Z :=
  fix max_of ret limiters :=
    match limiters with
    | [] => ret
    | l :: limiters => let curr := num l in max_of (if ret <? curr then curr else ret) limiters
    end.

Fixpoint When (item : string) (l : limiter) {struct l} : Z * limiter :=
  match l with
  | BucketRateLimiter bucket => let (d, bucket) := reserve bucket in (d, BucketRateLimiter bucket)
  | ItemExponentialFailureRateLimiter failures baseDelay maxDelay =>
      let (d, failures) := exponential_When item failures baseDelay maxDelay in (d, ItemExponentialFailureRateLimiter failures baseDelay maxDelay)
  | ItemFastSlowRateLimiter failures maxFastAttempts fastDelay slowDelay =>
      let (d, failures) := fast_slow_When item failures maxFastAttempts fastDelay slowDelay in
      (d, ItemFastSlowRateLimiter failures maxFastAttempts fastDelay slowDelay)
  | MaxOfRateLimiter limiters => let (ret, limiters) := max_when (When item) 0 limiters in (ret, MaxOfRateLimiter limiters)
  end.

Fixpoint NumRequeues (item : string) (l : limiter) {struct l} : Z :=
  match l with
  | BucketRateLimiter _ => 0
  | ItemExponentialFailureRateLimiter failures _ _ => failures_of failures item
  | ItemFastSlowRateLimiter failures _ _ _ => failures_of failures item
  | MaxOfRateLimiter limiters => max_count (NumRequeues item) 0 limiters
  end.

Fixpoint Forget (item : string) (l : limiter) {struct l} : limiter :=
  match l with
  | BucketRateLimiter bucket => BucketRateLimiter bucket
  | ItemExponentialFailureRateLimiter failures baseDelay maxDelay => ItemExponentialFailureRateLimiter (delete item failures) baseDelay maxDelay
  | ItemFastSlowRateLimiter failures maxFastAttempts fastDelay slowDelay =>
      ItemFastSlowRateLimiter (delete item failures) maxFastAttempts fastDelay slowDelay
  | MaxOfRateLimiter limiters => MaxOfRateLimiter (map (Forget item) limiters)
  end.

(** ** The queue *)

Record rateLimitingType : Type := mkRateLimiting {
  delaying : delayingType;
  rateLimiter : limiter;
}.

Definition NewRateLimitingQueue (l : limiter) : rateLimitingType := mkRateLimiting newDelayingQueue l.

(** [AddRateLimited]: the call of [AddAfter] that it makes, and the limiter afterwards. *)
Definition AddRateLimited (now : Z) (item : string) (q : rateLimitingType) : (list event * delayingType + waitFor) * limiter :=
  let (d, l) := When item (rateLimiter q) in (AddAfter now item d (delaying q), l).

Definition q_NumRequeues (item : string) (q : rateLimitingType) : Z := NumRequeues item (rateLimiter q).
Definition q_Forget (item : string) (q : rateLimitingType) : rateLimitingType := mkRateLimiting (delaying q) (Forget item (rateLimiter q)).

(** ** Exponential delays *)

Lemma round53_small n : 0 ≤ n < 2 ^ 53 → round53 n = n.
Proof. intros Hn. unfold round53. rewrite Z.abs_eq by lia. destruct (Z.ltb_spec n (2 ^ 53)); [done|lia]. Qed.

(** The delay doubles until it reaches its bound. *)
Lemma backoff_delay_spec base max exp :
  0 < base < 2 ^ 53 → 0 ≤ max < 2 ^ 63 → 0 ≤ exp → base * 2 ^ exp ≠ 2 ^ 63 → backoff_delay base max exp = Z.min (base * 2 ^ exp) max.
Proof using.
  intros Hb Hm He Hne. unfold backoff_delay, times_pow2. rewrite round53_small by lia. destruct (Z.ltb_spec exp 1024) as [Hlt|Hge].
  - assert (2 ^ exp > 0) as Hpos by (pose proof (Z.pow_pos_nonneg 2 exp); lia). assert (0 < base * 2 ^ exp) as Hp by nia.
    assert (2 ^ 63 < 2 ^ 1024) by (apply Z.pow_lt_mono_r; lia). set (z := base * 2 ^ exp) in *.
    destruct (Z.leb_spec (2 ^ 1024) z); [simpl; rewrite Z.min_r by lia; done|].
    destruct (Z.leb_spec z (- 2 ^ 1024)); [lia|]. unfold above_MaxInt64, to_duration.
    destruct (Z.ltb_spec (2 ^ 63) z); [rewrite Z.min_r by lia; done|].
    destruct (Z.leb_spec (- 2 ^ 63) z); [|lia]. destruct (Z.ltb_spec z (2 ^ 63)); [|lia]. simpl. destruct (Z.ltb_spec max z); lia.
  - destruct (Z.eqb_spec base 0); [lia|]. destruct (Z.ltb_spec 0 base); [|lia]. simpl.
    assert (2 ^ 1024 ≤ 2 ^ exp) by (apply Z.pow_le_mono_r; lia). assert (2 ^ 63 < 2 ^ 1024) by (apply Z.pow_lt_mono_r; lia). rewrite Z.min_r; [done|]. nia.
Qed.

(** A base delay of a power of two nanoseconds passes the check with a number that does not
    fit. *)
Lemma backoff_delay_overflows k max : 0 ≤ k < 53 → out_of_range (Finite (2 ^ 63)) ≤ max → backoff_delay (2 ^ k) max (63 - k) = out_of_range (Finite (2 ^ 63)).
Proof using.
  intros Hk Hmax. unfold backoff_delay, times_pow2. rewrite round53_small by (split; [lia|apply Z.pow_lt_mono_r; lia]).
  destruct (Z.ltb_spec (63 - k) 1024); [|lia]. rewrite <- Z.pow_add_r by lia. replace (k + (63 - k)) with 63 by lia.
  assert (2 ^ 63 < 2 ^ 1024) by (apply Z.pow_lt_mono_r; lia). destruct (Z.leb_spec (2 ^ 1024) (2 ^ 63)); [lia|]. destruct (Z.leb_spec (2 ^ 63) (- 2 ^ 1024)); [lia|].
  unfold above_MaxInt64, to_duration. rewrite Z.ltb_irrefl, andb_false_r. by destruct (Z.ltb_spec max (out_of_range (Finite (2 ^ 63)))); [lia|].
Qed.

(** ** Calls *)

Inductive limiter_call : Type :=
  | CallWhen (item : string)
  | CallForget (item : string).

Definition do_call (l : limiter) (c : limiter_call) : limiter :=
  match c with CallWhen item => (When item l).2 | CallForget item => Forget item l end.

(** The failures of an item since it was forgotten. *)
Definition count_call (f : string → Z) (c : limiter_call) (x : string) : Z :=
  match c with
  | CallWhen item => if bool_decide (item = x) then f x + 1 else f x
  | CallForget item => if bool_decide (item = x) then 0 else f x
  end.

Definition failed (calls : list limiter_call) : string → Z := fold_left count_call calls (λ _, 0).

Definition all_of (P : limiter → Prop) : list limiter → Prop :=
  fix all ls := match ls with [] => True | l :: ls => P l ∧ all ls end.

(** Every limiter that counts has counted [f]. *)
Fixpoint agrees (f : string → Z) (l : limiter) {struct l} : Prop :=
  match l with
  | BucketRateLimiter _ => True
  | ItemExponentialFailureRateLimiter failures _ _ | ItemFastSlowRateLimiter failures _ _ _ => ∀ x, failures_of failures x = f x
  | MaxOfRateLimiter limiters => all_of (agrees f) limiters
  end.

(** Whether there is a limiter that counts. *)
Fixpoint counting (l : limiter) {struct l} : bool :=
  match l with
  | BucketRateLimiter _ => false
  | ItemExponentialFailureRateLimiter _ _ _ | ItemFastSlowRateLimiter _ _ _ _ => true
  | MaxOfRateLimiter limiters => existsb counting limiters
  end.

(** Limiters are limiters and lists of them. *)
Fixpoint limiter_nested (P : limiter → Prop) (Hb : ∀ b, P (BucketRateLimiter b)) (He : ∀ f b m, P (ItemExponentialFailureRateLimiter f b m))
    (Hf : ∀ f n d s, P (ItemFastSlowRateLimiter f n d s)) (Hm : ∀ ls, Forall P ls → P (MaxOfRateLimiter ls)) (l : limiter) : P l :=
  match l with
  | BucketRateLimiter b => Hb b
  | ItemExponentialFailureRateLimiter f b m => He f b m
  | ItemFastSlowRateLimiter f n d s => Hf f n d s
  | MaxOfRateLimiter ls =>
      Hm ls ((fix all (ls : list limiter) : Forall P ls :=
        match ls with [] => Forall_nil_2 P | l :: ls => Forall_cons_2 P l ls (limiter_nested P Hb He Hf Hm l) (all ls) end) ls)
  end.

Lemma failures_of_insert F x n y : failures_of (<[x := n]> F) y = if bool_decide (x = y) then n else failures_of F y.
Proof using. unfold failures_of. case_bool_decide; [subst; by rewrite lookup_insert_eq|by rewrite lookup_insert_ne]. Qed.

Lemma failures_of_delete F x y : failures_of (delete x F) y = if bool_decide (x = y) then 0 else failures_of F y.
Proof using. unfold failures_of. case_bool_decide; [subst; by rewrite lookup_delete_eq|by rewrite lookup_delete_ne]. Qed.

Lemma do_call_agrees f c l : agrees f l → agrees (count_call f c) (do_call l c).
Proof using.
  induction l as [b|F base max|F n d s|ls IH] using limiter_nested; intros Hl.
  - destruct c; simpl; [by destruct (reserve b)|done].
  - destruct c; simpl in *; intros x; rewrite ?failures_of_insert, ?failures_of_delete, ?Hl; case_bool_decide; subst; done.
  - destruct c; simpl in *; intros x; rewrite ?failures_of_insert, ?failures_of_delete, ?Hl; case_bool_decide; subst; done.
  - destruct c as [item|item]; simpl in *.
    + destruct (max_when (When item) 0 ls) as [ret' ls'] eqn:E. simpl. revert E. generalize 0 as ret. revert ls' Hl.
      induction IH as [|l ls Hl' _ IHls]; intros ls' Hl ret; simpl; [by intros [= _ <-]|]. destruct Hl as [Hl Hls]. specialize (Hl' Hl).
      destruct (When item l) as [curr l']. destruct (max_when (When item) _ ls) as [ret1 ls1] eqn:E1. intros [= -> <-].
      split; [done|by eapply IHls].
    + revert Hl. induction IH as [|l ls Hl' _ IHls]; intros Hl; [done|]. destruct Hl as [Hl Hls]. split; [by apply Hl'|by apply IHls].
Qed.

Lemma NumRequeues_agrees f l x : (∀ x, 0 ≤ f x) → agrees f l → NumRequeues x l = if counting l then f x else 0.
Proof using.
  intros Hf. induction l as [b|F base max|F n d s|ls IH] using limiter_nested; intros Hl; [done|by apply Hl|by apply Hl|].
  simpl in *. assert (∀ ret, 0 ≤ ret ≤ f x → max_count (NumRequeues x) ret ls = if existsb counting ls then f x else ret) as Hgen.
  { revert Hl. induction IH as [|l ls Hl' _ IHls]; intros Hl ret Hret; [done|]. destruct Hl as [Hl Hls]. specialize (Hl' Hl). simpl. rewrite Hl'.
    destruct (counting l); simpl.
    - rewrite IHls; [|done|destruct (Z.ltb_spec ret (f x)); lia]. destruct (existsb counting ls); [done|]. destruct (Z.ltb_spec ret (f x)); lia.
    - destruct (Z.ltb_spec ret 0); [lia|]. by apply IHls. }
  apply Hgen. specialize (Hf x). lia.
Qed.

Lemma count_call_nonneg f c : (∀ x, 0 ≤ f x) → ∀ x, 0 ≤ count_call f c x.
Proof using. intros Hf x. specialize (Hf x). destruct c; simpl; case_bool_decide; lia. Qed.

Lemma calls_agree calls f l :
  (∀ x, 0 ≤ f x) → agrees f l → (∀ x, 0 ≤ fold_left count_call calls f x) ∧ agrees (fold_left count_call calls f) (fold_left do_call calls l).
Proof using.
  revert f l. induction calls as [|c calls IH]; intros f l Hf Hl; [done|]. apply IH; [by apply count_call_nonneg|by apply do_call_agrees].
Qed.

Lemma do_call_counting c l : counting (do_call l c) = counting l.
Proof using.
  induction l as [b|F base max|F n d s|ls IH] using limiter_nested; [by destruct c; simpl; [destruct (reserve b)|]|by destruct c|by destruct c|].
  destruct c as [item|item]; simpl.
  - destruct (max_when (When item) 0 ls) as [ret' ls'] eqn:E. simpl. revert E. generalize 0 as ret. revert ls'.
    induction IH as [|l ls Hl' _ IHls]; intros ls' ret; simpl; [by intros [= _ <-]|]. simpl in Hl'.
    destruct (When item l) as [curr l']. destruct (max_when (When item) _ ls) as [ret1 ls1] eqn:E1. intros [= -> <-]. simpl in *.
    rewrite Hl'. f_equal. by eapply IHls.
  - induction IH as [|l ls Hl' _ IHls]; [done|]. simpl in *. by rewrite Hl', IHls.
Qed.

Lemma calls_counting calls l : counting (fold_left do_call calls l) = counting l.
Proof using. revert l. induction calls as [|c calls IH]; intros l; [done|]. simpl. by rewrite IH, do_call_counting. Qed.

(** The bucket after the calls. *)
Definition reserved (bucket : B) (calls : list limiter_call) : B :=
  fold_left (λ b c, match c with CallWhen _ => (reserve b).2 | CallForget _ => b end) calls bucket.

(** The default limiter keeps its parts. *)
Lemma default_calls calls F b :
  ∃ F', fold_left do_call calls (MaxOfRateLimiter [ItemExponentialFailureRateLimiter F (5 * Millisecond) (1000 * Second); BucketRateLimiter b]) =
    MaxOfRateLimiter [ItemExponentialFailureRateLimiter F' (5 * Millisecond) (1000 * Second); BucketRateLimiter (reserved b calls)].
Proof using.
  revert F b. induction calls as [|c calls IH]; intros F b; [by exists F|]. destruct c as [item|item]; simpl; [|apply IH].
  destruct (reserve b) as [d b'] eqn:E. simpl. destruct (IH (<[item:=failures_of F item + 1]> F) b') as [F' HF]. exists F'.
  exact HF.
Qed.

Lemma five_ms_no_overflow n : 5 * Millisecond * 2 ^ n ≠ 2 ^ 63.
Proof using.
  intros E. assert (2 ^ 63 mod 5 = 0) as Hm; [|by vm_compute in Hm].
  rewrite <- E. replace (5 * Millisecond * 2 ^ n) with (Millisecond * 2 ^ n * 5) by ring. apply Z.mod_mul. lia.
Qed.
End limiters.

(** C28: rate limiters count failures, and delays grow with them. After any calls of [When] and
    [Forget] for any items, every limiter that counts reports the number of failures of an
    item since it was last forgotten, and no other; and the default limiter of the
    controllers makes the next failure of an item wait five milliseconds doubled as often,
    at most a thousand seconds, or as long as its token bucket asks if that is longer. *)
Theorem rate_limiter_delays {B} (reserve : B → Z * B) out_of_range calls x :
  (∀ l, agrees (λ _, 0) l →
    NumRequeues x (fold_left (do_call reserve out_of_range) calls l) = if counting l then failed calls x else 0) ∧
  ∀ bucket,
    (When reserve out_of_range x (fold_left (do_call reserve out_of_range) calls (DefaultControllerRateLimiter bucket))).1 =
      Z.max (Z.min (5 * Millisecond * 2 ^ failed calls x) (1000 * Second)) (reserve (reserved reserve bucket calls)).1.
Proof.
  split.
  - intros l Hl. destruct (calls_agree reserve out_of_range calls (λ _, 0) l) as [Hpos Hag]; [done|done|].
    rewrite (NumRequeues_agrees (failed calls) _ x Hpos Hag). by rewrite calls_counting.
  - intros bucket. destruct (calls_agree reserve out_of_range calls (λ _, 0) (DefaultControllerRateLimiter bucket)) as [Hpos Hag]; [done|by repeat split|].
    unfold DefaultControllerRateLimiter, NewMaxOfRateLimiter, NewItemExponentialFailureRateLimiter in *.
    destruct (default_calls reserve out_of_range calls ∅ bucket) as [F HF]. rewrite HF in Hag |- *. destruct Hag as [HF' _]. simpl.
    rewrite HF'. fold (failed calls). rewrite backoff_delay_spec; [|by unfold Millisecond|by unfold Second|apply Hpos|apply five_ms_no_overflow].
    destruct (reserve (reserved reserve bucket calls)) as [d b']. simpl.
    assert (0 < 5 * Millisecond * 2 ^ failed calls x) by (unfold Millisecond; pose proof (Z.pow_pos_nonneg 2 (failed calls x) ltac:(lia) (Hpos x)); lia).
    assert (0 < 1000 * Second) by (unfold Second; lia). set (e := Z.min _ _). assert (0 < e) by (unfold e; lia).
    destruct (Z.ltb_spec 0 e); [|lia]. destruct (Z.ltb_spec e d); simpl; lia.
Qed.

Example ex_delays :
  let when x l := When (λ b : unit, (0, b)) (λ _, 0) x l in
  let l := DefaultControllerRateLimiter tt in
  (when "a" (when "b" (when "a" (when "a" l).2).2).2).1 = 20 * Millisecond ∧ (when "a" (Forget "a" (when "a" l).2)).1 = 5 * Millisecond.
Proof. vm_compute. done. Qed.

Lemma rate_limiter_delays_witness :
  NumRequeues "a" (fold_left (do_call (λ b : unit, (0, b)) (λ _, 0)) [CallWhen "a"; CallWhen "b"; CallWhen "a"]
    (MaxOfRateLimiter [ItemFastSlowRateLimiter ∅ 3 1 2; BucketRateLimiter tt])) = 2.
Proof.
  destruct (rate_limiter_delays (λ b : unit, (0, b)) (λ _, 0) [CallWhen "a"; CallWhen "b"; CallWhen "a"] "a") as [H _].
  rewrite H; [reflexivity|]. by repeat split.
Defined.
