(* ===== verification/ClientMonad.v ===== *)
(** * Calls to the API server

    Controllers call the API server through a client whose answers depend on what the
    server holds. The state of the server and of the caches is a type [W] that the code is
    parametric in, a call is a function on it, and a function of the controller that makes
    calls runs in the monad [M W]. It returns a value or an error, it panics, or, where the
    source has a loop without a bound, it is still running when its fuel is spent.

    [client-go/util/retry/util.go] is the one loop that all controllers share. *)

From S2P Require Import Prelude ControllerRef.

(** ** Errors *)

(** The answers that the code tells apart, and the errors that it makes itself. *)
Inductive ClientErr : Type :=
  | StatusNotFound
  | StatusAlreadyExists
  | StatusConflict
  | StatusInvalid
  | StatusOther (err : string)
  | Errorf (msg : string)
  | Aggregate (errs : list string)
  | ClaimErrors (errs : list ApiErr).

#[global] Instance ClientErr_eq_dec : EqDecision ClientErr.
Proof. solve_decision. Defined.

Definition IsNotFound (e : ClientErr) : bool := match e with StatusNotFound => true | _ => false end.
Definition IsAlreadyExists (e : ClientErr) : bool := match e with StatusAlreadyExists => true | _ => false end.
Definition IsConflict (e : ClientErr) : bool := match e with StatusConflict => true | _ => false end.
Definition IsInvalid (e : ClientErr) : bool := match e with StatusInvalid => true | _ => false end.

(** ** The monad *)

Inductive outcome (A : Type) : Type :=
  | Ret (a : A)
  | Throw (e : ClientErr)
  | Crash
  | Running.

Arguments Ret {A} a.
Arguments Throw {A} e.
Arguments Crash {A}.
Arguments Running {A}.

Definition M (W A : Type) : Type := W → outcome A * W.

#[global] Instance M_ret W : MRet (M W) := λ A a w, (Ret a, w).
#[global] Instance M_bind W : MBind (M W) := λ A B k m w,
  match m w with
  | (Ret a, w) => k a w
  | (Throw e, w) => (Throw e, w)
  | (Crash, w) => (Crash, w)
  | (Running, w) => (Running, w)
  end.

Definition throw {W A} (e : ClientErr) : M W A := λ w, (Throw e, w).
Definition crash {W A} : M W A := λ w, (Crash, w).
Definition running {W A} : M W A := λ w, (Running, w).

(** A call, as the client makes it: its answer is a value of the program. *)
Definition call {W A} (f : W → A * W) : M W A := λ w, let (a, w) := f w in (Ret a, w).

(** What a cache shows. *)
Definition look {W A} (f : W → A) : M W A := λ w, (Ret (f w), w).

(** [if err := m(); err != nil { return err }], for a function that returns an error. *)
Definition check {W} (m : M W (option ClientErr)) : M W () :=
  err ← m; match err with Some e => throw e | None => mret () end.

(** A result that the program looks at, and the same one returned. *)
Definition of_result {W A} (r : result ClientErr A) : M W A :=
  match r with Ok a => mret a | Err e => throw e end.

(** [range] over a list, with a body that may return from the function. *)
Fixpoint for_each {W A} (l : list A) (body : A → M W ()) : M W () :=
  match l with
  | [] => mret ()
  | x :: l => _ ← body x; for_each l body
  end.

(** ** Laws

    Two programs are the same when they do the same from every state. *)
Record M_eq {W A} (m1 m2 : M W A) : Prop := mk_M_eq { M_eq_at : ∀ w, m1 w = m2 w }.
Arguments mk_M_eq {W A m1 m2} _.
Arguments M_eq_at {W A m1 m2} _ w.

#[global] Instance M_equiv W A : Equiv (M W A) := M_eq.

#[global] Instance M_equivalence W A : Equivalence (≡@{M W A}).
Proof.
  split; [by intros m|by intros m1 m2 [Hm]|]. intros m1 m2 m3 [H1] [H2]. split. intros w. by rewrite H1, H2.
Qed.

#[global] Instance M_bind_proper W A B :
  Proper (pointwise_relation A (≡@{M W B}) ==> (≡@{M W A}) ==> (≡@{M W B})) mbind.
Proof.
  intros k1 k2 Hk m1 m2 [Hm]. split. intros w. unfold mbind, M_bind. rewrite Hm. destruct (m2 w) as [[] w']; [apply Hk|done..].
Qed.

Lemma M_bind_ret {W A B} (a : A) (k : A → M W B) : (mret a ≫= k) ≡ k a.
Proof. done. Qed.

Lemma M_bind_throw {W A B} e (k : A → M W B) : (throw e ≫= k) ≡ throw e.
Proof. done. Qed.

Lemma M_ret_bind {W A} (m : M W A) : (m ≫= mret) ≡ m.
Proof. split. intros w. unfold mbind, M_bind. by destruct (m w) as [[] ?]. Qed.

Lemma M_bind_assoc {W A B C} (m : M W A) (f : A → M W B) (g : B → M W C) :
  ((m ≫= f) ≫= g) ≡ (m ≫= (λ a, f a ≫= g)).
Proof. split. intros w. unfold mbind, M_bind. destruct (m w) as [[] ?]; done. Qed.

Lemma M_bind_inv {W A B} (m : M W A) (k : A → M W B) w b w' :
  (m ≫= k) w = (Ret b, w') → ∃ a w1, m w = (Ret a, w1) ∧ k a w1 = (Ret b, w').
Proof. unfold mbind, M_bind. destruct (m w) as [[a| | |] w1]; intros; simplify_eq/=; eauto. Qed.

Lemma for_each_app {W A} (l k : list A) (body : A → M W ()) :
  for_each (l ++ k) body ≡ (for_each l body ≫= (λ _, for_each k body)).
Proof.
  induction l as [|x l IH]; [done|]. cbn [app for_each]. rewrite M_bind_assoc. f_equiv. intros ?. apply IH.
Qed.

Lemma for_each_singleton {W A} (x : A) (body : A → M W ()) : for_each [x] body ≡ body x.
Proof. split. intros w. cbn. unfold mbind, M_bind. destruct (body x w) as [[[]| | |] ?]; done. Qed.

(** ** Retries

    [RetryOnConflict] over the variables that the function captures, a value of [S], with
    the number of steps of the backoff. *)
Fixpoint retry_loop {W S} (steps : nat) (fn : S → M W (option ClientErr * S)) (lastConflictErr : option ClientErr) (s : S) :
    M W (option ClientErr * S) :=
  match steps with
  | O => mret (lastConflictErr, s)
  | Datatypes.S steps =>
      '(err, s) ← fn s;
      match err with
      | None => mret (None, s)
      | Some e => if IsConflict e then retry_loop steps fn (Some e) s else mret (Some e, s)
      end
  end.

Definition RetryOnConflict {W S} (steps : nat) (fn : S → M W (option ClientErr * S)) (s : S) : M W (option ClientErr * S) :=
  retry_loop steps fn None s.

(** The steps of [DefaultRetry] and of [DefaultBackoff]. *)
Definition DefaultRetry : nat := 5.
Definition DefaultBackoff : nat := 4.

(** [attempts n fn s w] is the state after [n] attempts that all ended in a conflict. *)
Fixpoint conflicts {W S} (n : nat) (fn : S → M W (option ClientErr * S)) (s : S) (w : W) (s' : S) (w' : W) : Prop :=
  match n with
  | O => s = s' ∧ w = w'
  | Datatypes.S n => ∃ s1 w1, fn s w = (Ret (Some StatusConflict, s1), w1) ∧ conflicts n fn s1 w1 s' w'
  end.

Lemma IsConflict_spec e : IsConflict e = true ↔ e = StatusConflict.
Proof. destruct e; naive_solver. Qed.

(** The loop ends with the first attempt that is not a conflict, or with the last one. *)
Lemma retry_loop_spec {W S} steps (fn : S → M W (option ClientErr * S)) last s w err s' w' :
  retry_loop steps fn last s w = (Ret (err, s'), w') →
  (conflicts steps fn s w s' w' ∧ err = (if (steps =? 0)%nat then last else Some StatusConflict)) ∨
  ∃ n s1 w1, (n < steps)%nat ∧ conflicts n fn s w s1 w1 ∧ fn s1 w1 = (Ret (err, s'), w') ∧ err ≠ Some StatusConflict.
Proof.
  revert last s w. induction steps as [|steps IH]; intros last s w; cbn.
  { intros [= <- <- <-]. by left. }
  intros (p & w1 & Hfn & Hk)%M_bind_inv. destruct p as [[e|] s1]; cbn in Hk.
  - destruct (IsConflict e) eqn:He; cbn in Hk.
    + apply IsConflict_spec in He as ->. apply IH in Hk as [[Hc ->]|(n & s2 & w2 & Hn & Hc & Hr & He)].
      * left. split; [by eauto 10|]. destruct steps; done.
      * right. exists (Datatypes.S n), s2, w2. split_and!; [lia|by exists s1, w1|done..].
    + injection Hk as <- <- <-. right. exists 0%nat, s, w. split_and!; [lia|done..|]. intros [= ->]. done.
  - injection Hk as <- <- <-. right. exists 0%nat, s, w. split_and!; [lia|done..].
Qed.

(** A success is the success of an attempt that only conflicts preceded. *)
Lemma RetryOnConflict_success {W S} steps (fn : S → M W (option ClientErr * S)) s w s' w' :
  (0 < steps)%nat → RetryOnConflict steps fn s w = (Ret (None, s'), w') →
  ∃ n s1 w1, (n < steps)%nat ∧ conflicts n fn s w s1 w1 ∧ fn s1 w1 = (Ret (None, s'), w').
Proof.
  intros Hs [[_ He]|(n & s1 & w1 & Hn & Hc & Hr & _)]%retry_loop_spec; [|by eauto 10].
  destruct steps; [lia|done].
Qed.
