(* ===== verification/ControllerHistory.v ===== *)
(** * Controller history

    [pkg/controller/history/controller_history.go]: the revisions of a controller are
    objects named after a hash of what they hold; a name that is taken by other contents
    moves the hash on. The client of the API server and the cache of the informer are a
    class, what [sort.Sort] returns is a parameter with the laws of a sort. Contents are
    raw bytes: [Data.Object] is nil in every revision that the controllers build or read. *)

From S2P Require Import Prelude GoStrings GoStrconv GoInt LabelSelector ControllerRef ClientMonad.

(** ** Revisions *)

Record ControllerRevision : Type := mkRevision {
  crNamespace : string;
  crName : string;
  crUID : string;
  crDeleting : bool;
  crLabels : Labels;
  crAnnotations : Labels;
  crOwners : list OwnerReference;
  crData : string;
  crRevision : Z;
}.

#[global] Instance ControllerRevision_eq_dec : EqDecision ControllerRevision.
Proof. solve_decision. Defined.
#[global] Instance ControllerRevision_Object : Object ControllerRevision := {
  GetUID := crUID;
  GetDeleting := crDeleting;
  GetLabels := crLabels;
  GetOwnerReferences := crOwners;
}.

Definition set_name (r : ControllerRevision) (name : string) : ControllerRevision :=
  mkRevision (crNamespace r) name (crUID r) (crDeleting r) (crLabels r) (crAnnotations r) (crOwners r) (crData r) (crRevision r).
Definition set_revision (r : ControllerRevision) (revision : Z) : ControllerRevision :=
  mkRevision (crNamespace r) (crName r) (crUID r) (crDeleting r) (crLabels r) (crAnnotations r) (crOwners r) (crData r) revision.
Definition set_annotations (r : ControllerRevision) (annotations : Labels) : ControllerRevision :=
  mkRevision (crNamespace r) (crName r) (crUID r) (crDeleting r) (crLabels r) annotations (crOwners r) (crData r) (crRevision r).

(** What the code uses of the parent, a [metav1.Object], and of its kind. *)
Record Parent : Type := mkParent {
  paNamespace : string;
  paName : string;
  paUID : string;
  paAPIVersion : string;
  paKind : string;
}.

(** ** Names *)

Definition ControllerRevisionHashLabel : string := "controller.kubernetes.io/hash".

Definition ControllerRevisionName (prefix hash : string) : string :=
  let prefix := if 223 <? slen prefix then String.substring 0 223 prefix else prefix in
  prefix +:+ "-" +:+ hash.

Definition bytes_of (s : string) : list Z := (λ c, Z.of_nat (nat_of_ascii c)) <$> String.list_ascii_of_string s.

(** [fnv.New32]: 32-bit FNV-1. *)
Definition fnv32_write (h : Z) (bytes : list Z) : Z :=
  fold_left (λ h b, Z.lxor ((h * 16777619) mod 2 ^ 32) b) bytes h.
Definition fnv32_offset : Z := 2166136261.

Definition alphanums : list ascii := String.list_ascii_of_string "bcdfghjklmnpqrstvwxz2456789".

(** On strings of ASCII characters, where the runes are the bytes. *)
Definition SafeEncodeString (s : string) : string :=
  String.string_of_list_ascii ((λ c, nth (nat_of_ascii c mod length alphanums)%nat alphanums Ascii.zero) <$> String.list_ascii_of_string s).

Definition HashControllerRevision (revision : ControllerRevision) (probe : option Z) : string :=
  let hf := fnv32_offset in
  let hf := if 0 <? slen (crData revision) then fnv32_write hf (bytes_of (crData revision)) else hf in
  let hf := match probe with Some p => fnv32_write hf (bytes_of (Itoa p)) | None => hf end in
  SafeEncodeString (Itoa hf).

Definition NewControllerRevision (parent : Parent) (templateLabels : Labels) (data : string) (revision : Z) (collisionCount : option Z) : ControllerRevision :=
  let cr := mkRevision "" "" "" false templateLabels ∅
    [mkOwner (paAPIVersion parent) (paKind parent) (paName parent) (paUID parent) (Some true) (Some true)] data revision in
  let hash := HashControllerRevision cr collisionCount in
  mkRevision "" (ControllerRevisionName (paName parent) hash) "" false (<[ControllerRevisionHashLabel := hash]> templateLabels) ∅
    (crOwners cr) data revision.

(** ** Equality and order *)

(** [strconv.ParseInt(s, 10, 32)] *)
Definition ParseInt32 (s : string) : result NumError Z :=
  match Atoi s with
  | Ok z => if (- 2 ^ 31 <=? z) && (z <? 2 ^ 31) then Ok z else Err (ErrRange s)
  | Err e => Err e
  end.

(** The hash of the label as a [uint32], if it is one. *)
Definition hash_label (r : ControllerRevision) : option Z :=
  match crLabels r !! ControllerRevisionHashLabel with
  | Some hs => match ParseInt32 hs with Ok hash => Some (hash mod 2 ^ 32) | Err _ => None end
  | None => None
  end.

Definition EqualRevision (lhs rhs : option ControllerRevision) : bool :=
  match lhs, rhs with
  | Some lhs, Some rhs =>
      match hash_label lhs, hash_label rhs with
      | Some l, Some r => if negb (l =? r) then false else bool_decide (crData lhs = crData rhs)
      | _, _ => bool_decide (crData lhs = crData rhs)
      end
  | None, None => true
  | _, _ => false
  end.

Definition FindEqualRevisions (revisions : list ControllerRevision) (needle : ControllerRevision) : list ControllerRevision :=
  filter (λ r, EqualRevision (Some r) (Some needle) = true) revisions.

(** [byRevision.Less] *)
Definition byRevision_less (a b : ControllerRevision) : bool := crRevision a <? crRevision b.

Class SortRevisions := {
  SortControllerRevisions : list ControllerRevision → list ControllerRevision;
  SortControllerRevisions_perm l : SortControllerRevisions l ≡ₚ l;
  SortControllerRevisions_sorted l : Sorted (λ a b, byRevision_less b a = false) (SortControllerRevisions l);
}.

(** ** The client *)

(** A patch of the owner references of a revision. *)
Inductive RevisionPatch : Type :=
  | AddOwner (apiVersion kind name uid revisionUID : string)
  | DeleteOwner (uid revisionUID : string).

Class RevisionClient (W : Type) := {
  (** the cache: the revisions of a namespace in some order, and one of them *)
  revisions_cached : W → string → list ControllerRevision;
  (** the server; an update answers with an object even when there is an error *)
  revisions_Create : string → ControllerRevision → W → result ClientErr ControllerRevision * W;
  revisions_Get : string → string → W → result ClientErr ControllerRevision * W;
  revisions_Update : string → ControllerRevision → W → option ControllerRevision * option ClientErr * W;
  revisions_Delete : string → string → W → option ClientErr * W;
  revisions_Patch : string → string → RevisionPatch → W → result ClientErr ControllerRevision * W;
}.

Section history.
Context `{RevisionClient W}.

Definition ListControllerRevisions (parent : Parent) (selector : Selector) : M W (list ControllerRevision) :=
  history ← look (λ w, filter (λ r, Matches selector (crLabels r) = true) (revisions_cached w (paNamespace parent)));
  mret (filter (λ r, match GetControllerOf r with None => true | Some ref => bool_decide (OwnerUID ref = paUID parent) end = true) history).

(** The loop of [CreateControllerRevision]: the revision and the collision count. *)
Fixpoint create_loop (fuel : nat) (parent : Parent) (revision clone : ControllerRevision) (collisionCount : Z) : M W (ControllerRevision * Z) :=
  match fuel with
  | O => running
  | S fuel =>
      let hash := HashControllerRevision revision (Some collisionCount) in
      let clone := set_name clone (ControllerRevisionName (paName parent) hash) in
      let ns := paNamespace parent in
      answer ← call (revisions_Create ns clone);
      match answer with
      | Ok created => mret (created, collisionCount)
      | Err err =>
          if IsAlreadyExists err then
            exists_ ← call (revisions_Get ns (crName clone));
            match exists_ with
            | Err err => throw err
            | Ok exists_ =>
                if bool_decide (crData exists_ = crData clone) then mret (exists_, collisionCount)
                else create_loop fuel parent revision clone (wrap32 (collisionCount + 1))
            end
          else throw err
      end
  end.

Definition CreateControllerRevision (fuel : nat) (parent : Parent) (revision : ControllerRevision) (collisionCount : option Z) :
    M W (ControllerRevision * Z) :=
  match collisionCount with
  | None => throw (Errorf "collisionCount should not be nil")
  | Some collisionCount => create_loop fuel parent revision revision collisionCount
  end.

Definition revisions_Lister_Get (w : W) (ns name : string) : option ControllerRevision :=
  find (λ r, bool_decide (crName r = name)) (revisions_cached w ns).

(** One attempt of [UpdateControllerRevision]. *)
Definition update_attempt (newRevision : Z) (clone : ControllerRevision) : M W (option ClientErr * ControllerRevision) :=
  if crRevision clone =? newRevision then mret (None, clone)
  else
    let clone := set_revision clone newRevision in
    '(updated, updateErr) ← call (revisions_Update (crNamespace clone) clone);
    match updateErr with
    | None => mret (None, clone)
    | Some err =>
        let clone := match updated with Some updated => updated | None => clone end in
        cached ← look (λ w, revisions_Lister_Get w (crNamespace clone) (crName clone));
        mret (Some err, match cached with Some updated => updated | None => clone end)
    end.

Definition UpdateControllerRevision (revision : ControllerRevision) (newRevision : Z) : M W ControllerRevision :=
  '(err, clone) ← RetryOnConflict DefaultBackoff (update_attempt newRevision) revision;
  match err with Some e => throw e | None => mret clone end.

Definition DeleteControllerRevision (revision : ControllerRevision) : M W (option ClientErr) :=
  call (revisions_Delete (crNamespace revision) (crName revision)).

Definition AdoptControllerRevision (parent : Parent) (revision : ControllerRevision) : M W ControllerRevision :=
  match GetControllerOf revision with
  | Some _ => throw (Errorf "attempt to adopt revision owned by another controller")
  | None =>
      answer ← call (revisions_Patch (paNamespace parent) (crName revision)
        (AddOwner (paAPIVersion parent) (paKind parent) (paName parent) (paUID parent) (crUID revision)));
      of_result answer
  end.

(** [None] is the nil revision. *)
Definition ReleaseControllerRevision (parent : Parent) (revision : ControllerRevision) : M W (option ControllerRevision) :=
  answer ← call (revisions_Patch (crNamespace revision) (crName revision) (DeleteOwner (paUID parent) (crUID revision)));
  match answer with
  | Ok released => mret (Some released)
  | Err err => if IsNotFound err || IsInvalid err then mret None else throw err
  end.
End history.

(** ** Creation

    What a server does with revisions: a name is taken once, and a revision that is created
    keeps its name, contents and number. *)
Class RevisionStore (W : Type) `{RevisionClient W} := {
  stored : W → string → string → option ControllerRevision;
  create_taken ns r w x : stored w ns (crName r) = Some x → revisions_Create ns r w = (Err StatusAlreadyExists, w);
  create_free ns r w : stored w ns (crName r) = None →
    ∃ r' w', revisions_Create ns r w = (Ok r', w') ∧ crName r' = crName r ∧ crData r' = crData r ∧ crRevision r' = crRevision r ∧
      (∀ ns' name, stored w' ns' name = if decide (ns' = ns ∧ name = crName r) then Some r' else stored w ns' name);
  stored_name w ns name r : stored w ns name = Some r → crName r = name;
  get_stored ns name w : revisions_Get ns name w = (match stored w ns name with Some r => Ok r | None => Err StatusNotFound end, w);
}.

Section creation.
Context `{RevisionStore W} (parent : Parent) (revision : ControllerRevision) (collisionCount : Z).

(** The count after [k] collisions and the name that is tried with it. *)
Definition probe (k : nat) : Z := Nat.iter k (λ c, wrap32 (c + 1)) collisionCount.
Definition probed_name (k : nat) : string := ControllerRevisionName (paName parent) (HashControllerRevision revision (Some (probe k))).

(** The name is taken by other contents. *)
Definition collides (w : W) (k : nat) : Prop :=
  ∃ x, stored w (paNamespace parent) (probed_name k) = Some x ∧ crData x ≠ crData revision.

(** What is stored afterwards: what was, and the revision that is returned under its name. *)
Definition keeps (w w' : W) (r : ControllerRevision) : Prop :=
  (∀ ns name x, stored w ns name = Some x → stored w' ns name = Some x) ∧
  stored w' (paNamespace parent) (crName r) = Some r.

Lemma create_loop_spec (k : nat) w :
  ¬ collides w k → ∀ j clone fuel, crData clone = crData revision → (j ≤ k)%nat → (∀ i, (j ≤ i < k)%nat → collides w i) → (k - j < fuel)%nat →
  ∃ r w', create_loop fuel parent revision clone (probe j) w = (Ret (r, probe k), w') ∧
    crName r = probed_name k ∧ crData r = crData revision ∧ keeps w w' r.
Proof.
  intros Hfree j clone fuel. revert j clone. induction fuel as [|fuel IH]; intros j clone Hd Hj Hcol Hfuel; [lia|].
  cbn [create_loop]. set (c := set_name clone _). assert (Hc : crName c = probed_name j) by done.
  unfold mbind, M_bind, call. destruct (stored w (paNamespace parent) (crName c)) as [x|] eqn:Hx.
  - rewrite (create_taken _ _ _ x) by done. cbn [IsAlreadyExists]. rewrite get_stored, Hx. cbn beta iota. case_bool_decide as Hdx.
    + assert (j = k) as ->. { destruct (decide (j = k)); [done|]. destruct (Hcol j) as (y & Hy & Hne); [lia|].
        rewrite <- Hc, Hx in Hy. injection Hy as ->. cbn in Hdx. congruence. }
      pose proof (stored_name _ _ _ _ Hx) as Hn. eexists x, w. split_and!; [done|congruence|cbn in Hdx; congruence|]. split; [done|]. by rewrite Hn.
    + assert (j ≠ k). { intros ->. apply Hfree. exists x. rewrite <- Hc. split; [done|]. cbn in Hdx. congruence. }
      apply (IH (S j)); [done|lia| |lia]. intros i Hi. apply Hcol. lia.
  - assert (j = k) as ->. { destruct (decide (j = k)); [done|]. destruct (Hcol j) as (y & Hy & _); [lia|]. rewrite <- Hc in Hy. congruence. }
    destruct (create_free _ _ _ Hx) as (r & w' & -> & Hn & Hdr & _ & Hst). exists r, w'.
    split_and!; [done|by rewrite Hn|rewrite Hdr; done|]. split.
    + intros ns name y Hy. rewrite Hst. case_decide as Hdec; [|done]. destruct Hdec as [-> ->]. congruence.
    + rewrite Hst, Hn, decide_True by done. done.
Qed.

End creation.


(** A server that keeps revisions in a list. *)
Definition RevisionList : Type := list ControllerRevision.

Definition is_named (ns name : string) (r : ControllerRevision) : bool := bool_decide (crNamespace r = ns) && bool_decide (crName r = name).
Definition in_namespace (r : ControllerRevision) (ns : string) : ControllerRevision :=
  mkRevision ns (crName r) (crUID r) (crDeleting r) (crLabels r) (crAnnotations r) (crOwners r) (crData r) (crRevision r).
Definition empty_revision : ControllerRevision := mkRevision "" "" "" false ∅ ∅ [] "" 0.
Definition patch_owners (r : ControllerRevision) (p : RevisionPatch) : ControllerRevision :=
  mkRevision (crNamespace r) (crName r) (crUID r) (crDeleting r) (crLabels r) (crAnnotations r)
    (match p with
     | AddOwner apiVersion kind name uid _ => mkOwner apiVersion kind name uid (Some true) (Some true) :: crOwners r
     | DeleteOwner uid _ => filter (λ o, OwnerUID o ≠ uid) (crOwners r)
     end) (crData r) (crRevision r).

#[global] Instance RevisionList_client : RevisionClient RevisionList := {
  revisions_cached w ns := filter (λ r, crNamespace r = ns) w;
  revisions_Create ns r w :=
    match find (is_named ns (crName r)) w with
    | Some _ => (Err StatusAlreadyExists, w)
    | None => (Ok (in_namespace r ns), w ++ [in_namespace r ns])
    end;
  revisions_Get ns name w := (match find (is_named ns name) w with Some r => Ok r | None => Err StatusNotFound end, w);
  revisions_Update ns r w :=
    match find (is_named ns (crName r)) w with
    | Some _ => (Some r, None, (λ x, if is_named ns (crName r) x then in_namespace r ns else x) <$> w)
    | None => (Some empty_revision, Some StatusNotFound, w)
    end;
  revisions_Delete ns name w :=
    match find (is_named ns name) w with
    | Some _ => (None, filter (λ r, is_named ns name r = false) w)
    | None => (Some StatusNotFound, w)
    end;
  revisions_Patch ns name patch w :=
    match find (is_named ns name) w with
    | Some r => (Ok (patch_owners r patch), (λ x, if is_named ns name x then patch_owners x patch else x) <$> w)
    | None => (Err StatusNotFound, w)
    end;
}.

Lemma find_snoc {A} (f : A → bool) (l : list A) (x : A) :
  find f (l ++ [x]) = match find f l with Some y => Some y | None => if f x then Some x else None end.
Proof. induction l as [|y l IH]; cbn; [done|]. by destruct (f y). Qed.

Lemma is_named_true ns name r : is_named ns name r = true ↔ crNamespace r = ns ∧ crName r = name.
Proof. unfold is_named. rewrite andb_true_iff, !bool_decide_eq_true. done. Qed.

#[global] Program Instance RevisionList_store : RevisionStore RevisionList := {
  stored w ns name := find (is_named ns name) w;
}.
Next Obligation. intros ns r w x Hx. cbn. by rewrite Hx. Qed.
Next Obligation.
  intros ns r w Hx. cbn. rewrite Hx. eexists _, _. split_and!; [done..|]. intros ns' name. rewrite find_snoc.
  destruct (find (is_named ns' name) w) as [y|] eqn:Hy; case_decide as Hd.
  - destruct Hd as [-> ->]. congruence.
  - done.
  - destruct Hd as [-> ->]. by rewrite (proj2 (is_named_true _ _ _)).
  - destruct (is_named ns' name _) eqn:Hn; [|done]. apply is_named_true in Hn as [<- <-]. naive_solver.
Qed.
Next Obligation. intros w ns name r [_ Hn]%find_some. by apply is_named_true in Hn as [_ ?]. Qed.
Next Obligation. done. Qed.

(** Contents whose first name is taken by others. *)
Definition web : Parent := mkParent "default" "web" "u1" "apps/v1" "StatefulSet".
Definition web_revision (data : string) (revision : Z) : ControllerRevision := NewControllerRevision web ∅ data revision (Some 0).
Definition taken : ControllerRevision :=
  in_namespace (set_name (web_revision "other" 1) (crName (web_revision "data" 2))) "default".


(** ** Updates *)

Section updates.
Context `{RevisionClient W}.

(** A revision that an update returns has the number that was asked for. *)
Lemma UpdateControllerRevision_number (revision r : ControllerRevision) (n : Z) (w w' : W) :
  UpdateControllerRevision revision n w = (Ret r, w') → crRevision r = n.
Proof.
  intros ([err c] & w1 & Hr & Hk)%M_bind_inv. destruct err; [done|]. injection Hk as -> ->.
  apply RetryOnConflict_success in Hr as (k & s1 & w2 & _ & _ & Hu); [|unfold DefaultBackoff; lia].
  unfold update_attempt in Hu. destruct (crRevision s1 =? n) eqn:Hn.
  { injection Hu as <- <-. by apply Z.eqb_eq. }
  apply M_bind_inv in Hu as ([upd [e|]] & w3 & _ & Hu); [by apply M_bind_inv in Hu as (? & ? & ? & ?)|].
  by injection Hu as <- <-.
Qed.

(** The client that the code is given answers a conflict with an empty object, which the
    update then takes for the object to update. *)
Class EmptyOnError : Prop := {
  update_error_empty ns r w u e w' : revisions_Update ns r w = (u, Some e, w') → u = Some empty_revision;
  update_unnamed ns r w : crName r = "" → ∃ w', revisions_Update ns r w = (Some empty_revision, Some (StatusOther "resource name may not be empty"), w');
  cached_named w ns r : r ∈ revisions_cached w ns → crName r ≠ "";
}.

Lemma no_cached_unnamed `{EmptyOnError} (w : W) ns : revisions_Lister_Get w ns "" = None.
Proof.
  unfold revisions_Lister_Get. destruct (find _ _) as [r|] eqn:Hf; [|done].
  apply find_some in Hf as [Hin Hn]. apply bool_decide_eq_true in Hn. apply list_elem_of_In, cached_named in Hin. done.
Qed.

Lemma update_attempt_fails `{EmptyOnError} (r : ControllerRevision) (n : Z) u e (w w1 : W) :
  crRevision r ≠ n → revisions_Update (crNamespace r) (set_revision r n) w = (u, Some e, w1) →
  update_attempt n r w = (Ret (Some e, empty_revision), w1).
Proof.
  intros Hr Hu. pose proof (update_error_empty _ _ _ _ _ _ Hu) as ->. unfold update_attempt. rewrite (proj2 (Z.eqb_neq _ _) Hr).
  unfold mbind, M_bind, call, look, mret, M_ret. cbn [crNamespace set_revision] in *. rewrite Hu. cbn. by rewrite no_cached_unnamed.
Qed.

(** After a conflict the object is lost, and the update fails whatever the server holds. *)
Lemma UpdateControllerRevision_conflict `{EmptyOnError} (revision : ControllerRevision) (n : Z) u (w w1 : W) :
  crRevision revision ≠ n → n ≠ 0 →
  revisions_Update (crNamespace revision) (set_revision revision n) w = (u, Some StatusConflict, w1) →
  ∃ w', UpdateControllerRevision revision n w = (Throw (StatusOther "resource name may not be empty"), w').
Proof.
  intros Hr Hn Hu. destruct (update_unnamed (crNamespace empty_revision) (set_revision empty_revision n) w1 eq_refl) as (w2 & Hu2).
  apply update_attempt_fails in Hu; [|done]. apply update_attempt_fails in Hu2; [|cbn; lia].
  unfold UpdateControllerRevision, RetryOnConflict, DefaultBackoff. cbn [retry_loop].
  unfold mbind, M_bind. rewrite Hu. cbn [IsConflict]. rewrite Hu2. cbn. unfold throw. eauto.
Qed.
End updates.

(** A client that answers every update with a conflict. *)
Section conflicting.
Definition busy_update (r : ControllerRevision) : ClientErr :=
  if bool_decide (crName r = "") then StatusOther "resource name may not be empty" else StatusConflict.

#[local] Instance busy_client : RevisionClient () := {
  revisions_cached _ _ := [];
  revisions_Create _ _ w := (Err StatusAlreadyExists, w);
  revisions_Get _ _ w := (Err StatusNotFound, w);
  revisions_Update _ r w := (Some empty_revision, Some (busy_update r), w);
  revisions_Delete _ _ w := (Some StatusNotFound, w);
  revisions_Patch _ _ _ w := (Err StatusNotFound, w);
}.

#[local] Instance busy_empty : EmptyOnError (W := ()).
Proof.
  split; cbn.
  - intros. by simplify_eq.
  - intros ns r w Hr. exists w. unfold busy_update. by rewrite bool_decide_eq_true_2.
  - intros w ns r Hr. by apply not_elem_of_nil in Hr.
Qed.

Example update_conflict_example :
  ∃ w', UpdateControllerRevision (web_revision "data" 1) 2 () = (Throw (StatusOther "resource name may not be empty"), w').
Proof. eapply UpdateControllerRevision_conflict; [done|done|]. cbn. unfold busy_update. rewrite bool_decide_eq_false_2; [done|]. vm_compute. discriminate. Qed.
End conflicting.
