(* ===== verification/StatefulSet.v ===== *)
(** * Stateful sets: data, identity and storage

    [pkg/controller/statefulset/stateful_set_utils.go] and what it uses of
    [pkg/controller/controller_utils.go]: how a pod is named after the set and its ordinal,
    which volumes it gets, at which revision it is made. The patches that revisions hold
    are a parameter, a class with the law that applying the patch of a set restores its
    template; the order in which [range] visits a map is a parameter as well. Selectors,
    replica counts and partitions are present and history limits are not negative, as
    defaulting and validation see to, and names are not empty. *)

From S2P Require Import Prelude GoStrings GoStrconv GoInt Store LabelSelector Validation DeploymentScaling SchedulingQueue ControllerRef ClientMonad ControllerHistory.
From Stdlib Require Import DecimalString.

(** ** Objects *)

(** The [ClaimName] and [ReadOnly] of a claim, or another source. *)
Inductive VolumeSource : Type :=
  | ClaimVolume (claimName : string) (readOnly : bool)
  | OtherVolume (source : string).

Record Volume : Type := mkVolume {
  vName : string;
  vSource : VolumeSource;
}.

#[global] Instance VolumeSource_eq_dec : EqDecision VolumeSource.
Proof. solve_decision. Defined.
#[global] Instance Volume_eq_dec : EqDecision Volume.
Proof. solve_decision. Defined.

(** [psRest] is what the controller copies without looking at it. *)
Record PodSpec : Type := mkPodSpec {
  psVolumes : list Volume;
  psHostname : string;
  psSubdomain : string;
  psRest : string;
}.

Record PodTemplate : Type := mkTemplate {
  ptLabels : Labels;
  ptAnnotations : Labels;
  ptFinalizers : list string;
  ptSpec : PodSpec;
}.

(** A phase of [None] is the empty string: the pod has not been created. *)
Record SPod : Type := mkSPod {
  spNamespace : string;
  spName : string;
  spGenerateName : string;
  spUID : string;
  spVersion : string;
  spLabels : Labels;
  spAnnotations : Labels;
  spFinalizers : list string;
  spOwners : list OwnerReference;
  spDeleting : bool;
  spSpec : PodSpec;
  spPhase : option PodPhase;
  spConditions : list PodCondition;
}.

Record Claim : Type := mkClaim {
  cNamespace : string;
  cName : string;
  cLabels : Labels;
  cSpec : string;
}.

Record SSStatus : Type := mkSSStatus {
  stObservedGeneration : Z;
  stReplicas : Z;
  stReady : Z;
  stCurrent : Z;
  stUpdated : Z;
  stCurrentRevision : string;
  stUpdateRevision : string;
  stCollisionCount : option Z;
}.

(** [ssRollingUpdate] is the partition of the rolling update, if the strategy has one. *)
Record SSet : Type := mkSSet {
  ssNamespace : string;
  ssName : string;
  ssUID : string;
  ssGeneration : Z;
  ssDeleting : bool;
  ssAnnotations : Labels;
  ssReplicas : Z;
  ssSelector : LabelSelector;
  ssTemplate : PodTemplate;
  ssClaims : list Claim;
  ssServiceName : string;
  ssPolicy : string;
  ssStrategy : string;
  ssRollingUpdate : option Z;
  ssHistoryLimit : Z;
  ssStatus : SSStatus;
}.

#[global] Instance PodSpec_eq_dec : EqDecision PodSpec.
Proof. solve_decision. Defined.
#[global] Instance PodTemplate_eq_dec : EqDecision PodTemplate.
Proof. solve_decision. Defined.
#[global] Instance PodPhase_eqdec : EqDecision PodPhase.
Proof. solve_decision. Defined.
#[global] Instance PodCondition_eqdec : EqDecision PodCondition.
Proof. solve_decision. Defined.
#[global] Instance SPod_eq_dec : EqDecision SPod.
Proof. solve_decision. Defined.
#[global] Instance Claim_eq_dec : EqDecision Claim.
Proof. solve_decision. Defined.
#[global] Instance SSStatus_eq_dec : EqDecision SSStatus.
Proof. solve_decision. Defined.
#[global] Instance SPod_Object : Object SPod := {
  GetUID := spUID;
  GetDeleting := spDeleting;
  GetLabels := spLabels;
  GetOwnerReferences := spOwners;
}.

Definition StatefulSetPodNameLabel : string := "statefulset.kubernetes.io/pod-name".
Definition StatefulSetRevisionLabel : string := "controller-revision-hash".
Definition ParallelPodManagement : string := "Parallel".
Definition OrderedReadyPodManagement : string := "OrderedReady".
Definition RollingUpdateStatefulSetStrategyType : string := "RollingUpdate".
Definition OnDeleteStatefulSetStrategyType : string := "OnDelete".

Definition with_labels (p : SPod) (labels : Labels) : SPod :=
  mkSPod (spNamespace p) (spName p) (spGenerateName p) (spUID p) (spVersion p) labels (spAnnotations p) (spFinalizers p)
    (spOwners p) (spDeleting p) (spSpec p) (spPhase p) (spConditions p).
Definition with_name (p : SPod) (namespace name : string) : SPod :=
  mkSPod namespace name (spGenerateName p) (spUID p) (spVersion p) (spLabels p) (spAnnotations p) (spFinalizers p)
    (spOwners p) (spDeleting p) (spSpec p) (spPhase p) (spConditions p).
Definition with_spec (p : SPod) (spec : PodSpec) : SPod :=
  mkSPod (spNamespace p) (spName p) (spGenerateName p) (spUID p) (spVersion p) (spLabels p) (spAnnotations p) (spFinalizers p)
    (spOwners p) (spDeleting p) spec (spPhase p) (spConditions p).
Definition with_template (s : SSet) (t : PodTemplate) : SSet :=
  mkSSet (ssNamespace s) (ssName s) (ssUID s) (ssGeneration s) (ssDeleting s) (ssAnnotations s) (ssReplicas s) (ssSelector s) t
    (ssClaims s) (ssServiceName s) (ssPolicy s) (ssStrategy s) (ssRollingUpdate s) (ssHistoryLimit s) (ssStatus s).
Definition with_status (s : SSet) (status : SSStatus) : SSet :=
  mkSSet (ssNamespace s) (ssName s) (ssUID s) (ssGeneration s) (ssDeleting s) (ssAnnotations s) (ssReplicas s) (ssSelector s) (ssTemplate s)
    (ssClaims s) (ssServiceName s) (ssPolicy s) (ssStrategy s) (ssRollingUpdate s) (ssHistoryLimit s) status.

(** ** Names and ordinals *)

(** The last [-] of a string: what is before it and what is after it. *)
Fixpoint cut_last (s : string) : option (string * string) :=
  match s with
  | "" => None
  | String c s =>
      match cut_last s with
      | Some (a, b) => Some (String c a, b)
      | None => if bool_decide (c = "-"%char) then Some ("", s) else None
      end
  end.

(** [statefulPodRegex]: anything, a dash and digits up to the end; the two groups of a match,
    on names without line breaks. *)
Definition statefulPodRegex (name : string) : option (string * string) :=
  match cut_last name with
  | Some (parent, digits) => if negb (bool_decide (digits = "")) && all_chars digit digits then Some (parent, digits) else None
  | None => None
  end.

Definition getParentNameAndOrdinal (pod : SPod) : string * Z :=
  match statefulPodRegex (spName pod) with
  | None => ("", -1)
  | Some (parent, digits) => (parent, match ParseInt32 digits with Ok i => i | Err _ => -1 end)
  end.

Definition getParentName (pod : SPod) : string := (getParentNameAndOrdinal pod).1.
Definition getOrdinal (pod : SPod) : Z := (getParentNameAndOrdinal pod).2.
Definition getPodName (set : SSet) (ordinal : Z) : string := ssName set +:+ "-" +:+ Itoa ordinal.
Definition getPersistentVolumeClaimName (set : SSet) (claim : Claim) (ordinal : Z) : string :=
  cName claim +:+ "-" +:+ ssName set +:+ "-" +:+ Itoa ordinal.
Definition isMemberOf (set : SSet) (pod : SPod) : bool := bool_decide (getParentName pod = ssName set).

(** ** What the controller checks of a pod *)

Definition map_string (m : Labels) (k : string) : string := default "" (m !! k).

Definition identityMatches (set : SSet) (pod : SPod) : bool :=
  let (parent, ordinal) := getParentNameAndOrdinal pod in
  (0 <=? ordinal) && bool_decide (ssName set = parent) && bool_decide (spName pod = getPodName set ordinal) &&
  bool_decide (spNamespace pod = ssNamespace set) && bool_decide (map_string (spLabels pod) StatefulSetPodNameLabel = spName pod).

(** The map from names to volumes that [storageMatches] builds. *)
Definition volume_map (volumes : list Volume) : gmap string Volume :=
  fold_left (λ m v, <[vName v := v]> m) volumes ∅.

Definition claim_mounted (set : SSet) (volumes : gmap string Volume) (ordinal : Z) (claim : Claim) : bool :=
  match volumes !! cName claim with
  | Some v => match vSource v with
              | ClaimVolume claimName _ => bool_decide (claimName = getPersistentVolumeClaimName set claim ordinal)
              | OtherVolume _ => false
              end
  | None => false
  end.

Definition storageMatches (set : SSet) (pod : SPod) : bool :=
  let ordinal := getOrdinal pod in
  if ordinal <? 0 then false
  else forallb (claim_mounted set (volume_map (psVolumes (spSpec pod))) ordinal) (ssClaims set).

Definition GetPodReadyCondition (p : SPod) : option PodCondition :=
  find (λ c, bool_decide (CType c = "Ready")) (spConditions p).
Definition IsPodReady (p : SPod) : bool :=
  match GetPodReadyCondition p with Some c => bool_decide (CStatus c = "True") | None => false end.

Definition isRunningAndReady (p : SPod) : bool := bool_decide (spPhase p = Some PodRunning) && IsPodReady p.
Definition isCreated (p : SPod) : bool := negb (bool_decide (spPhase p = None)).
Definition isFailed (p : SPod) : bool := bool_decide (spPhase p = Some PodFailed).
Definition isTerminating (p : SPod) : bool := spDeleting p.
Definition isHealthy (p : SPod) : bool := isRunningAndReady p && negb (isTerminating p).
Definition allowsBurst (s : SSet) : bool := bool_decide (ssPolicy s = ParallelPodManagement).

Definition setPodRevision (p : SPod) (revision : string) : SPod := with_labels p (<[StatefulSetRevisionLabel := revision]> (spLabels p)).
Definition getPodRevision (p : SPod) : string := map_string (spLabels p) StatefulSetRevisionLabel.

(** ** Claims and volumes *)

(** The map from the names of the templates to the claims of the pod. *)
Definition getPersistentVolumeClaims (set : SSet) (pod : SPod) : gmap string Claim :=
  let ordinal := getOrdinal pod in
  fold_left (λ claims t,
    <[cName t := mkClaim (ssNamespace set) (getPersistentVolumeClaimName set t ordinal) (MatchLabels (ssSelector set)) (cSpec t)]> claims)
    (ssClaims set) ∅.

(** The order in which [range] visits the claims. *)
Class RangeClaims := {
  range_claims : gmap string Claim → list (string * Claim);
  range_claims_perm m : range_claims m ≡ₚ map_to_list m;
}.

Definition claim_volume (p : string * Claim) : Volume := mkVolume p.1 (ClaimVolume (cName p.2) false).

Definition updateStorage `{RangeClaims} (set : SSet) (pod : SPod) : SPod :=
  let spec := spSpec pod in
  let claims := getPersistentVolumeClaims set pod in
  let newVolumes := (claim_volume <$> range_claims claims) ++ filter (λ v, claims !! vName v = None) (psVolumes spec) in
  with_spec pod (mkPodSpec newVolumes (psHostname spec) (psSubdomain spec) (psRest spec)).

(** ** Identity *)

Definition updateIdentity (set : SSet) (pod : SPod) : SPod :=
  let name := getPodName set (getOrdinal pod) in
  let pod := with_name pod (ssNamespace set) name in
  with_labels pod (<[StatefulSetPodNameLabel := name]> (spLabels pod)).

Definition initIdentity (set : SSet) (pod : SPod) : SPod :=
  let pod := updateIdentity set pod in
  let spec := spSpec pod in
  with_spec pod (mkPodSpec (psVolumes spec) (spName pod) (ssServiceName set) (psRest spec)).

(** ** New pods *)

(** [maskTrailingDash], on strings of at least two characters. *)
Definition maskTrailingDash (name : string) : string :=
  if HasSuffix name "-" then String.substring 0 (String.length name - 2) name +:+ "a" else name.

Definition NameIsDNSSubdomain (name : string) (prefix : bool) : list Msg :=
  IsDNS1123Subdomain (if prefix then maskTrailingDash name else name).

Definition getPodsPrefix (controllerName : string) : string :=
  let prefix := controllerName +:+ "-" in
  if negb (bool_decide (length (NameIsDNSSubdomain prefix true) = 0%nat)) then controllerName else prefix.

(** [parentName] is what the accessor of the parent returns. *)
Definition GetPodFromTemplate (template : PodTemplate) (parentName : string) (controllerRef : option OwnerReference) : SPod :=
  mkSPod "" "" (getPodsPrefix parentName) "" "" (ptLabels template) (ptAnnotations template) (ptFinalizers template)
    (option_list controllerRef) false (ptSpec template) None [].

Definition controllerKind : string := "StatefulSet".
Definition controllerAPIVersion : string := "apps/v1".

Definition newStatefulSetPod `{RangeClaims} (set : SSet) (ordinal : Z) : SPod :=
  let pod := GetPodFromTemplate (ssTemplate set) (ssName set)
    (Some (NewControllerRef controllerAPIVersion controllerKind (ssName set) (ssUID set))) in
  let pod := with_name pod (spNamespace pod) (getPodName set ordinal) in
  let pod := initIdentity set pod in
  updateStorage set pod.

Definition newVersionedStatefulSetPod `{RangeClaims} (currentSet updateSet : SSet) (currentRevision updateRevision : string) (ordinal : Z) : SPod :=
  if (bool_decide (ssStrategy currentSet = RollingUpdateStatefulSetStrategyType) &&
      (bool_decide (ssRollingUpdate currentSet = None) && (ordinal <? stCurrent (ssStatus currentSet)))) ||
     match ssRollingUpdate currentSet with Some partition => ordinal <? partition | None => false end
  then setPodRevision (newStatefulSetPod currentSet ordinal) currentRevision
  else setPodRevision (newStatefulSetPod updateSet ordinal) updateRevision.

(** ** Revisions *)

(** The text of the patch that [getPatch] writes for a template, and the template that a set
    with another template gets when the text is applied to it as a strategic merge patch and
    the result is read back over a copy of the set. Nothing is assumed of the two. *)
Class PatchCodec := {
  encode_patch : PodTemplate → string;
  apply_patch : string → PodTemplate → result string PodTemplate;
}.

Section revisions.
Context `{PatchCodec}.

Definition getPatch (set : SSet) : string := encode_patch (ssTemplate set).

Definition Match (ss : SSet) (history : ControllerRevision) : bool := bool_decide (getPatch ss = crData history).

Definition set_parent (set : SSet) : Parent := mkParent (ssNamespace set) (ssName set) (ssUID set) controllerAPIVersion controllerKind.

Definition newRevision (set : SSet) (revision : Z) (collisionCount : option Z) : ControllerRevision :=
  let cr := NewControllerRevision (set_parent set) (ptLabels (ssTemplate set)) (getPatch set) revision collisionCount in
  set_annotations cr (ssAnnotations set ∪ crAnnotations cr).

Definition ApplyRevision (set : SSet) (revision : ControllerRevision) : result ClientErr SSet :=
  match apply_patch (crData revision) (ssTemplate set) with
  | Ok template => Ok (with_template set template)
  | Err e => Err (Errorf e)
  end.
End revisions.

Definition nextRevision (revisions : list ControllerRevision) : Z :=
  match last revisions with Some r => wrap64 (crRevision r + 1) | None => 1 end.

(** ** Status *)

Definition inconsistentStatus (set : SSet) (status : SSStatus) : bool :=
  let old := ssStatus set in
  (stObservedGeneration old <? stObservedGeneration status) || negb (stReplicas status =? stReplicas old) ||
  negb (stCurrent status =? stCurrent old) || negb (stReady status =? stReady old) || negb (stUpdated status =? stUpdated old) ||
  negb (bool_decide (stCurrentRevision status = stCurrentRevision old)) || negb (bool_decide (stUpdateRevision status = stUpdateRevision old)).

Definition completeRollingUpdate (set : SSet) (status : SSStatus) : SSStatus :=
  if bool_decide (ssStrategy set = RollingUpdateStatefulSetStrategyType) && (stUpdated status =? stReplicas status) &&
     (stReady status =? stReplicas status)
  then mkSSStatus (stObservedGeneration status) (stReplicas status) (stReady status) (stUpdated status) (stUpdated status)
         (stUpdateRevision status) (stUpdateRevision status) (stCollisionCount status)
  else status.

(** [ascendingOrdinal.Less] and the sort by it *)
Definition ascendingOrdinal_less (a b : SPod) : bool := getOrdinal a <? getOrdinal b.

Class SortOrdinal := {
  sort_ordinal : list SPod → list SPod;
  sort_ordinal_perm l : sort_ordinal l ≡ₚ l;
  sort_ordinal_sorted l : Sorted (λ a b, ascendingOrdinal_less b a = false) (sort_ordinal l);
}.

(** ** Names and ordinals, proved *)

Lemma cut_last_none s : ContainsChar s "-"%char = false → cut_last s = None.
Proof.
  induction s as [|c s IH]; cbn; [done|]. intros [Hc Hs]%orb_false_iff. rewrite IH by done.
  destruct (bool_decide (c = "-"%char)) eqn:Hd; [|done]. apply bool_decide_eq_true in Hd as ->. done.
Qed.

Lemma cut_last_app a b : ContainsChar b "-"%char = false → cut_last (a +:+ "-" +:+ b) = Some (a, b).
Proof.
  intros Hb. induction a as [|c a IH]; cbn.
  - by rewrite cut_last_none.
  - cbn in IH. by rewrite IH.
Qed.

Lemma uint_digits d : all_chars digit (NilEmpty.string_of_uint d) = true.
Proof. induction d; cbn; [done|..]; rewrite IHd; done. Qed.

Lemma Itoa_digits z : 0 ≤ z → all_chars digit (Itoa z) = true.
Proof.
  intros Hz. unfold Itoa. assert (∀ d, all_chars digit (NilZero.string_of_uint d) = true) as Hd.
  { intros d. destruct d; try apply (uint_digits (_ d)). done. }
  destruct z; [apply Hd|apply Hd|lia].
Qed.

Lemma ParseInt32_Itoa z : 0 ≤ z < 2 ^ 31 → ParseInt32 (Itoa z) = Ok z.
Proof.
  intros Hz. unfold ParseInt32. rewrite Atoi_Itoa by (unfold MaxInt64; lia).
  rewrite (proj2 (Z.leb_le _ _)), (proj2 (Z.ltb_lt _ _)) by lia. done.
Qed.

Lemma statefulPodRegex_pod_name set n : 0 ≤ n → statefulPodRegex (getPodName set n) = Some (ssName set, Itoa n).
Proof.
  intros Hn. unfold statefulPodRegex, getPodName. rewrite cut_last_app by (apply Itoa_no_char; [done|set_solver]).
  rewrite bool_decide_eq_false_2 by (by apply Itoa_nonempty). by rewrite Itoa_digits.
Qed.

Lemma getParentNameAndOrdinal_pod_name set pod n :
  0 ≤ n < 2 ^ 31 → spName pod = getPodName set n → getParentNameAndOrdinal pod = (ssName set, n).
Proof.
  intros Hn Hp. unfold getParentNameAndOrdinal. rewrite Hp, statefulPodRegex_pod_name by lia. by rewrite ParseInt32_Itoa.
Qed.

Lemma getOrdinal_pod_name set pod n : 0 ≤ n < 2 ^ 31 → spName pod = getPodName set n → getOrdinal pod = n.
Proof. intros Hn Hp. unfold getOrdinal. by rewrite (getParentNameAndOrdinal_pod_name set pod n). Qed.

Lemma ParseInt32_range s z : ParseInt32 s = Ok z → - 2 ^ 31 ≤ z < 2 ^ 31.
Proof.
  unfold ParseInt32. destruct (Atoi s); [|done]. destruct (_ && _) eqn:Hb; [|done]. intros [= <-]. to_prop. lia.
Qed.

Lemma getOrdinal_range pod : - 2 ^ 31 ≤ getOrdinal pod < 2 ^ 31.
Proof.
  unfold getOrdinal, getParentNameAndOrdinal. destruct (statefulPodRegex _) as [[a b]|]; cbn; [|lia].
  destruct (ParseInt32 b) eqn:Hp; [by apply ParseInt32_range in Hp|lia].
Qed.

Lemma getPodName_inj set m n : 0 ≤ m < 2 ^ 31 → 0 ≤ n < 2 ^ 31 → getPodName set m = getPodName set n → m = n.
Proof.
  intros Hm Hn Hp. pose proof (statefulPodRegex_pod_name set m ltac:(lia)) as H1.
  rewrite Hp, statefulPodRegex_pod_name in H1 by lia. injection H1 as H1.
  pose proof (ParseInt32_Itoa m Hm) as H2. rewrite <- H1, ParseInt32_Itoa in H2 by done. by injection H2.
Qed.

(** A pod has the identity of a member of the set when it is, for some ordinal, the pod that
    the set would make. *)
Lemma identityMatches_iff set pod :
  identityMatches set pod = true ↔
  ∃ n, 0 ≤ n < 2 ^ 31 ∧ spName pod = getPodName set n ∧ spNamespace pod = ssNamespace set ∧
    map_string (spLabels pod) StatefulSetPodNameLabel = getPodName set n.
Proof.
  unfold identityMatches. split.
  - pose proof (getOrdinal_range pod) as Hr. unfold getOrdinal in Hr. destruct (getParentNameAndOrdinal pod) as [parent n] eqn:Hp.
    intros ?. to_prop. exists n. cbn in Hr. split_and!; [lia|lia|congruence..].
  - intros (n & Hn & Hp & Hns & Hl). rewrite (getParentNameAndOrdinal_pod_name set pod n) by done.
    rewrite !bool_decide_eq_true_2, (proj2 (Z.leb_le _ _)) by (congruence || lia). done.
Qed.

(** ** Volumes *)

(** A map that is filled from a list holds the last entry for each key. *)
Lemma fold_insert_lookup {A B} (key : A → string) (val : A → B) (l : list A) (m : gmap string B) name :
  fold_left (λ m x, <[key x := val x]> m) l m !! name =
  match last (filter (λ x, key x = name) l) with Some x => Some (val x) | None => m !! name end.
Proof.
  induction l as [|x l IH] using rev_ind; [done|]. rewrite fold_left_app, filter_app, filter_cons, filter_nil. cbn [fold_left].
  case_decide as Hx.
  - rewrite last_app. cbn. by rewrite <- Hx, lookup_insert_eq.
  - rewrite lookup_insert_ne by done. rewrite IH. cbn. by rewrite app_nil_r.
Qed.

(** The claim of a template is named after the template, the set and the ordinal. *)
Lemma getPersistentVolumeClaims_spec set pod t :
  t ∈ ssClaims set →
  ∃ c, getPersistentVolumeClaims set pod !! cName t = Some c ∧ cName c = getPersistentVolumeClaimName set t (getOrdinal pod).
Proof.
  intros Ht. unfold getPersistentVolumeClaims. rewrite (fold_insert_lookup cName).
  destruct (last _) as [t'|] eqn:Hl.
  - eexists. split; [done|]. cbn. apply last_Some_elem_of, list_elem_of_filter in Hl as [Hn _].
    unfold getPersistentVolumeClaimName. by rewrite Hn.
  - apply last_None in Hl. exfalso. by eapply (not_elem_of_nil t); rewrite <- Hl; apply list_elem_of_filter.
Qed.

Section pods.
Context `{RangeClaims}.

Lemma range_claims_lookup (claims : gmap string Claim) name c :
  claims !! name = Some c → filter (λ v, vName v = name) (claim_volume <$> range_claims claims) = [claim_volume (name, c)].
Proof.
  intros Hc. assert (Hp : filter (λ v, vName v = name) (claim_volume <$> range_claims claims) ≡ₚ
                          filter (λ v, vName v = name) (claim_volume <$> map_to_list claims)) by by rewrite range_claims_perm.
  rewrite <- (insert_delete_id _ _ _ Hc) in Hp at 2. rewrite map_to_list_insert in Hp by apply lookup_delete_eq.
  rewrite fmap_cons, filter_cons_True in Hp by done.
  assert (filter (λ v, vName v = name) (claim_volume <$> map_to_list (delete name claims)) = []) as Hn.
  { apply list_nil_iff. intros v [Hv ([k x] & -> & Hin)%list_elem_of_fmap]%list_elem_of_filter.
    apply elem_of_map_to_list in Hin. cbn in Hv. subst k. by rewrite lookup_delete_eq in Hin. }
  rewrite Hn in Hp. by apply Permutation_singleton_r in Hp.
Qed.

(** After the update of its storage a pod mounts the claims of the set. *)
Lemma updateStorage_matches set pod : 0 ≤ getOrdinal pod → storageMatches set (updateStorage set pod) = true.
Proof.
  intros Hn. unfold storageMatches. change (getOrdinal (updateStorage set pod)) with (getOrdinal pod).
  rewrite (proj2 (Z.ltb_ge _ _)) by done. apply forallb_elem. intros t Ht. unfold claim_mounted, volume_map.
  rewrite fold_insert_lookup. destruct (getPersistentVolumeClaims_spec set pod t Ht) as (c & Hc & Hcn).
  cbn [updateStorage spSpec with_spec psVolumes]. rewrite filter_app, (range_claims_lookup _ _ _ Hc).
  assert (filter (λ v, vName v = cName t) (filter (λ v, getPersistentVolumeClaims set pod !! vName v = None) (psVolumes (spSpec pod))) = []) as ->.
  { apply list_nil_iff. intros v [Hv [Hnone _]%list_elem_of_filter]%list_elem_of_filter. congruence. }
  cbn. rewrite Hcn. by apply bool_decide_eq_true_2.
Qed.

Lemma updateIdentity_matches set pod : 0 ≤ getOrdinal pod → identityMatches set (updateIdentity set pod) = true.
Proof.
  intros Hn. apply identityMatches_iff. exists (getOrdinal pod). pose proof (getOrdinal_range pod).
  split_and!; [lia|lia|done|done|]. unfold map_string. cbn. by rewrite lookup_insert_eq.
Qed.

Lemma identity_labels set pod labels :
  identityMatches set pod = true → map_string labels StatefulSetPodNameLabel = map_string (spLabels pod) StatefulSetPodNameLabel →
  identityMatches set (with_labels pod labels) = true.
Proof.
  intros (n & Hn & H1 & H2 & H3)%identityMatches_iff Hl. apply identityMatches_iff. exists n. cbn. by rewrite Hl.
Qed.

Lemma newStatefulSetPod_identity set n : 0 ≤ n < 2 ^ 31 →
  getOrdinal (newStatefulSetPod set n) = n ∧ identityMatches set (newStatefulSetPod set n) = true ∧ storageMatches set (newStatefulSetPod set n) = true.
Proof.
  intros Hn. set (pod0 := with_name (GetPodFromTemplate (ssTemplate set) (ssName set)
    (Some (NewControllerRef controllerAPIVersion controllerKind (ssName set) (ssUID set)))) "" (getPodName set n)).
  assert (Ho : getOrdinal pod0 = n) by by apply (getOrdinal_pod_name set).
  assert (Ho' : getOrdinal (initIdentity set pod0) = n).
  { apply (getOrdinal_pod_name set); [done|]. cbn -[getOrdinal]. by rewrite Ho. }
  split_and!.
  - apply Ho'.
  - pose proof (updateIdentity_matches set pod0 ltac:(lia)) as Hi. apply Hi.
  - apply (updateStorage_matches set (initIdentity set pod0)). rewrite Ho'. lia.
Qed.
End pods.

(** Whether a pod with the ordinal is made at the current revision of the set. *)
Definition at_current (set : SSet) (n : Z) : bool :=
  match ssRollingUpdate set with
  | Some partition => n <? partition
  | None => bool_decide (ssStrategy set = RollingUpdateStatefulSetStrategyType) && (n <? stCurrent (ssStatus set))
  end.

Lemma newVersionedStatefulSetPod_eq `{RangeClaims} currentSet updateSet cur upd n :
  newVersionedStatefulSetPod currentSet updateSet cur upd n =
  if at_current currentSet n then setPodRevision (newStatefulSetPod currentSet n) cur else setPodRevision (newStatefulSetPod updateSet n) upd.
Proof.
  unfold newVersionedStatefulSetPod, at_current. destruct (ssRollingUpdate currentSet) as [p|].
  - rewrite (bool_decide_eq_false_2 (Some p = None)), andb_false_l, andb_false_r by done. done.
  - rewrite (bool_decide_eq_true_2 (None = None)), andb_true_l, orb_false_r by done. done.
Qed.

Lemma setPodRevision_revision pod rev : getPodRevision (setPodRevision pod rev) = rev.
Proof. unfold getPodRevision, map_string. cbn. by rewrite lookup_insert_eq. Qed.

Lemma identityMatches_template set t pod : identityMatches (with_template set t) pod = identityMatches set pod.
Proof. done. Qed.

Lemma storageMatches_template set t pod : storageMatches (with_template set t) pod = storageMatches set pod.
Proof. done. Qed.

Lemma setPodRevision_matches set pod rev :
  identityMatches set pod = true → storageMatches set pod = true →
  identityMatches set (setPodRevision pod rev) = true ∧ storageMatches set (setPodRevision pod rev) = true.
Proof. intros Hi Hs. split; [|exact Hs]. apply identity_labels; [exact Hi|]. unfold map_string. by rewrite lookup_insert_ne. Qed.

(** What is known of a pod that is made for an ordinal. *)
Lemma new_pod_member `{RangeClaims} (set : SSet) (current update : PodTemplate) (cur upd : string) (n : Z) :
  0 ≤ n < 2 ^ 31 →
  let pod := newVersionedStatefulSetPod (with_template set current) (with_template set update) cur upd n in
  getParentNameAndOrdinal pod = (ssName set, n) ∧ identityMatches set pod = true ∧ storageMatches set pod = true ∧
  OwnerUID <$> GetControllerOf pod = Some (ssUID set) ∧ isCreated pod = false ∧ isTerminating pod = false ∧
  getPodRevision pod = (if at_current set n then cur else upd) ∧
  psRest (spSpec pod) = psRest (ptSpec (if at_current set n then current else update)).
Proof.
  intros Hn. cbn zeta. rewrite newVersionedStatefulSetPod_eq. change (at_current (with_template set current) n) with (at_current set n).
  assert (Hpod : ∀ t rev, let pod := setPodRevision (newStatefulSetPod (with_template set t) n) rev in
    getParentNameAndOrdinal pod = (ssName set, n) ∧ identityMatches set pod = true ∧ storageMatches set pod = true).
  { intros t rev pod. destruct (newStatefulSetPod_identity (with_template set t) n Hn) as (Ho & Hi & Hs).
    rewrite identityMatches_template in Hi. rewrite storageMatches_template in Hs.
    destruct (setPodRevision_matches set _ rev Hi Hs) as [Hi' Hs']. split_and!; [|exact Hi'|exact Hs'].
    apply identityMatches_iff in Hi as (m & Hm & Hname & _).
    rewrite (getParentNameAndOrdinal_pod_name set pod m) by done.
    f_equal. rewrite <- Ho. symmetry. by apply (getOrdinal_pod_name set). }
  destruct (at_current set n); destruct (Hpod current cur) as (? & ? & ?); destruct (Hpod update upd) as (? & ? & ?);
    rewrite setPodRevision_revision; done.
Qed.

(** C40: the pod that is made for an ordinal is a member of the set with that ordinal: its
    name can be parsed back, its identity and its volumes are those that the controller
    checks for, the set controls it, it has not been created yet, and it carries the name of
    the revision whose template it was made from. *)
Theorem newVersionedStatefulSetPod_member `{RangeClaims} (set : SSet) (current update : PodTemplate) (cur upd : string) (n : Z) :
  0 ≤ n < 2 ^ 31 →
  let pod := newVersionedStatefulSetPod (with_template set current) (with_template set update) cur upd n in
  getParentNameAndOrdinal pod = (ssName set, n) ∧ identityMatches set pod = true ∧ storageMatches set pod = true ∧
  OwnerUID <$> GetControllerOf pod = Some (ssUID set) ∧ isCreated pod = false ∧ isTerminating pod = false ∧
  getPodRevision pod = (if at_current set n then cur else upd) ∧
  psRest (spSpec pod) = psRest (ptSpec (if at_current set n then current else update)).
Proof. apply new_pod_member. Qed.

(** ** Instances of the parameters *)

Definition range_in_order : RangeClaims := {| range_claims := map_to_list; range_claims_perm m := Permutation_refl _ |}.

#[local] Instance VolumeSource_countable : Countable VolumeSource.
Proof.
  refine (inj_countable' (λ v, match v with ClaimVolume c r => inl (c, r) | OtherVolume s => inr s end)
    (λ p, match p with inl (c, r) => ClaimVolume c r | inr s => OtherVolume s end) _). by intros [].
Defined.
#[local] Instance Volume_countable : Countable Volume.
Proof. refine (inj_countable' (λ v, (vName v, vSource v)) (λ p, mkVolume p.1 p.2) _). by intros []. Defined.
#[local] Instance PodSpec_countable : Countable PodSpec.
Proof.
  refine (inj_countable' (λ s, (psVolumes s, psHostname s, psSubdomain s, psRest s)) (λ '(v, h, d, r), mkPodSpec v h d r) _). by intros [].
Defined.
#[local] Instance PodTemplate_countable : Countable PodTemplate.
Proof.
  refine (inj_countable' (λ t, (ptLabels t, ptAnnotations t, ptFinalizers t, ptSpec t)) (λ '(l, a, f, s), mkTemplate l a f s) _). by intros [].
Defined.

Fixpoint bits_of (p : positive) : string :=
  match p with xH => "" | xO p => String "0" (bits_of p) | xI p => String "1" (bits_of p) end.
Fixpoint of_bits (s : string) : positive :=
  match s with "" => xH | String "0" s => xO (of_bits s) | String _ s => xI (of_bits s) end.

(** A patch that writes the template down in binary. *)
Definition binary_patches : PatchCodec :=
  {| encode_patch t := bits_of (encode t);
     apply_patch s _ := match decode (of_bits s) with Some t => Ok t | None => Err "cannot decode the patch" end |}.

Definition ordinal_le (a b : SPod) : Prop := getOrdinal a ≤ getOrdinal b.
#[local] Instance ordinal_le_dec : RelDecision ordinal_le.
Proof. intros a b. unfold ordinal_le. apply _. Defined.
#[local] Instance ordinal_le_total : Total ordinal_le.
Proof. intros a b. unfold ordinal_le. lia. Qed.

Definition sort_by_ordinal : SortOrdinal.
Proof.
  refine {| sort_ordinal := merge_sort ordinal_le |}.
  - intros l. apply merge_sort_Permutation.
  - intros l. pose proof (Sorted_merge_sort ordinal_le l) as Hs.
    induction Hs as [|a l' Hl IH Ha]; constructor; [done|]. inversion Ha; subst; constructor.
    unfold ascendingOrdinal_less. by apply Z.ltb_ge.
Defined.

(** ** An example *)

Definition data_claim : Claim := mkClaim "" "data" ∅ "10Gi".
Definition web_template (image : string) : PodTemplate :=
  mkTemplate {["app" := "web"]} ∅ [] (mkPodSpec [mkVolume "data" (OtherVolume "emptyDir"); mkVolume "tmp" (OtherVolume "emptyDir")] "" "" image).
Definition web_status : SSStatus := mkSSStatus 1 0 0 0 0 "" "" None.
Definition web_set (replicas : Z) (policy : string) (rolling : option Z) : SSet :=
  mkSSet "default" "web" "u1" 2 false ∅ replicas (mkLabelSelector {["app" := "web"]} []) (web_template "nginx:2") [data_claim] "nginx"
    policy RollingUpdateStatefulSetStrategyType rolling 10 web_status.

Lemma newVersionedStatefulSetPod_member_witness :
  let set := web_set 3 OrderedReadyPodManagement (Some 1) in
  let pod := newVersionedStatefulSetPod (H := range_in_order) (with_template set (web_template "nginx:1")) (with_template set (web_template "nginx:2")) "web-a" "web-b" 2 in
  spName pod = "web-2" ∧ psVolumes (spSpec pod) = [mkVolume "data" (ClaimVolume "data-web-2" false); mkVolume "tmp" (OtherVolume "emptyDir")] ∧
  getParentNameAndOrdinal pod = ("web", 2) ∧ identityMatches set pod = true ∧ storageMatches set pod = true ∧
  OwnerUID <$> GetControllerOf pod = Some "u1" ∧ isCreated pod = false ∧ isTerminating pod = false ∧ getPodRevision pod = "web-b" ∧
  psRest (spSpec pod) = "nginx:2".
Proof.
  split; [vm_compute; reflexivity|]. split; [vm_compute; reflexivity|].
  apply (newVersionedStatefulSetPod_member (H := range_in_order) (web_set 3 OrderedReadyPodManagement (Some 1)) (web_template "nginx:1") (web_template "nginx:2") "web-a" "web-b" 2).
  lia.
Defined.

(** A pod whose name has a leading zero has the ordinal of another pod of the set. *)
Example leading_zero :
  let pod name := with_name (newStatefulSetPod (H := range_in_order) (web_set 3 OrderedReadyPodManagement None) 1) "default" name in
  getOrdinal (pod "web-01") = getOrdinal (pod "web-1") ∧ isMemberOf (web_set 3 OrderedReadyPodManagement None) (pod "web-01") = true ∧
  identityMatches (web_set 3 OrderedReadyPodManagement None) (pod "web-01") = false.
Proof. vm_compute. done. Qed.

(** The mask of a trailing dash takes the character before it as well, so that a prefix is
    accepted although what precedes the dash is not a name. *)
Example maskTrailingDash_drops :
  maskTrailingDash "web-" = "wea" ∧ NameIsDNSSubdomain "web_-" true = [] ∧ NameIsDNSSubdomain "web_a" true ≠ [].
Proof. vm_compute. done. Qed.
