(* ===== verification/StatefulSetControl.v ===== *)
(** * Stateful sets: the control loop

    [pkg/controller/statefulset/stateful_set_control.go], [stateful_pod_control.go],
    [stateful_set_status_updater.go] and [stateful_set.go]: the pass over the pods of a set
    that creates, updates and deletes them, against the interface that controls pods; the
    revisions of the set; its status; and the sync that puts them together. The API server
    and the caches are the class [Client]. A pointer to a pod is the place where the pass
    keeps it. *)

From S2P Require Import Prelude GoStrings GoStrconv GoInt Store LabelSelector Validation DeploymentScaling SchedulingQueue ControllerRef ClientMonad ControllerHistory StatefulSet.

(** ** The interface that controls pods *)

(** [StatefulPodControlInterface] *)
Class PodControl (W : Type) := {
  CreateStatefulPod : SSet → SPod → M W (option ClientErr);
  UpdateStatefulPod : SSet → SPod → M W (option ClientErr);
  DeleteStatefulPod : SSet → SPod → M W (option ClientErr);
}.

(** ** The status that the pass computes *)

(** [int32] counters *)
Definition add_replicas (d : Z) (s : SSStatus) : SSStatus :=
  mkSSStatus (stObservedGeneration s) (wrap32 (stReplicas s + d)) (stReady s) (stCurrent s) (stUpdated s)
    (stCurrentRevision s) (stUpdateRevision s) (stCollisionCount s).
Definition add_ready (d : Z) (s : SSStatus) : SSStatus :=
  mkSSStatus (stObservedGeneration s) (stReplicas s) (wrap32 (stReady s + d)) (stCurrent s) (stUpdated s)
    (stCurrentRevision s) (stUpdateRevision s) (stCollisionCount s).
Definition add_current (d : Z) (s : SSStatus) : SSStatus :=
  mkSSStatus (stObservedGeneration s) (stReplicas s) (stReady s) (wrap32 (stCurrent s + d)) (stUpdated s)
    (stCurrentRevision s) (stUpdateRevision s) (stCollisionCount s).
Definition add_updated (d : Z) (s : SSStatus) : SSStatus :=
  mkSSStatus (stObservedGeneration s) (stReplicas s) (stReady s) (stCurrent s) (wrap32 (stUpdated s + d))
    (stCurrentRevision s) (stUpdateRevision s) (stCollisionCount s).

(** The counts of the revisions, which the pass changes by the revision of a pod. *)
Definition count_revision (pod : SPod) (d : Z) (s : SSStatus) : SSStatus :=
  let s := if bool_decide (getPodRevision pod = stCurrentRevision s) then add_current d s else s in
  if bool_decide (getPodRevision pod = stUpdateRevision s) then add_updated d s else s.

(** ** The first loop: replicas and condemned pods *)

Record sorted_pods : Type := mkSorted {
  soStatus : SSStatus;
  soReplicas : list (option SPod);
  soCondemned : list SPod;
}.

Definition observe_pod (replicaCount : Z) (s : sorted_pods) (pod : SPod) : sorted_pods :=
  let status := add_replicas 1 (soStatus s) in
  let status := if isRunningAndReady pod then add_ready 1 status else status in
  let status := if isCreated pod && negb (isTerminating pod) then count_revision pod 1 status else status in
  let ord := getOrdinal pod in
  if (0 <=? ord) && (ord <? replicaCount) then mkSorted status (<[Z.to_nat ord := Some pod]> (soReplicas s)) (soCondemned s)
  else if replicaCount <=? ord then mkSorted status (soReplicas s) (soCondemned s ++ [pod])
  else mkSorted status (soReplicas s) (soCondemned s).

(** ** The first unhealthy pod *)

(** A pointer to a pod: its place in one of the two slices. *)
Inductive slot : Type :=
  | InReplicas (i : nat)
  | InCondemned (i : nat).

#[global] Instance slot_eq_dec : EqDecision slot.
Proof. solve_decision. Defined.

Record unhealthy_pods : Type := mkUnhealthy {
  uhCount : Z;
  uhOrdinal : Z;
  uhFirst : option slot;
}.

Definition MaxInt32 : Z := 2 ^ 31 - 1.

Fixpoint find_unhealthy (place : nat → slot) (i : nat) (pods : list SPod) (u : unhealthy_pods) : unhealthy_pods :=
  match pods with
  | [] => u
  | pod :: pods =>
      let u := if isHealthy pod then u
               else if getOrdinal pod <? uhOrdinal u then mkUnhealthy (uhCount u + 1) (getOrdinal pod) (Some (place i))
               else mkUnhealthy (uhCount u + 1) (uhOrdinal u) (uhFirst u) in
      find_unhealthy place (S i) pods u
  end.

(** ** The loops that act *)

(** A loop returns from the function or goes on. *)
Inductive flow (A : Type) : Type :=
  | Return (status : SSStatus)
  | Continue (a : A).

Arguments Return {A} status.
Arguments Continue {A} a.

Section control.
Context `{PodControl W} `{RangeClaims} `{PatchCodec} `{SortOrdinal}.
Context (set currentSet updateSet : SSet) (currentRevision updateRevision : string).

Definition new_pod (ord : Z) : SPod := newVersionedStatefulSetPod currentSet updateSet currentRevision updateRevision ord.

Definition monotonic : bool := negb (allowsBurst set).

(** What happens to a replica that exists or has just been made anew: it is created, waited
    for, or updated. *)
Definition process_pod (pod : SPod) (status : SSStatus) : M W (flow SSStatus) :=
  if negb (isCreated pod) then
    _ ← check (CreateStatefulPod set pod);
    let status := count_revision pod 1 (add_replicas 1 status) in
    mret (if monotonic then Return status else Continue status)
  else if isTerminating pod && monotonic then mret (Return status)
  else if negb (isRunningAndReady pod) && monotonic then mret (Return status)
  else if identityMatches set pod && storageMatches set pod then mret (Continue status)
  else
    _ ← check (UpdateStatefulPod updateSet pod);
    mret (Continue status).

(** The loop over the replicas; it returns them as it leaves them. *)
Fixpoint replica_loop (i : nat) (replicas : list SPod) (status : SSStatus) : M W (flow (SSStatus * list SPod)) :=
  match replicas with
  | [] => mret (Continue (status, []))
  | pod :: replicas =>
      '(pod, status) ←
        (if isFailed pod then
           _ ← check (DeleteStatefulPod set pod);
           mret (new_pod (Z.of_nat i), add_replicas (-1) (count_revision pod (-1) status))
         else mret (pod, status));
      f ← process_pod pod status;
      match f with
      | Return status => mret (Return status)
      | Continue status =>
          f ← replica_loop (S i) replicas status;
          mret (match f with Return status => Return status | Continue (status, replicas) => Continue (status, pod :: replicas) end)
      end
  end.

(** The loop over the condemned pods, from the last one; [target] is one more than the index
    of the first pod of the list. *)
Fixpoint condemned_loop (target : nat) (condemned : list SPod) (firstUnhealthyPod : option slot) (status : SSStatus) : M W (flow SSStatus) :=
  match condemned with
  | [] => mret (Continue status)
  | pod :: condemned =>
      let target := pred target in
      if isTerminating pod then
        if monotonic then mret (Return status) else condemned_loop target condemned firstUnhealthyPod status
      else if negb (isRunningAndReady pod) && monotonic && negb (bool_decide (Some (InCondemned target) = firstUnhealthyPod)) then
        match firstUnhealthyPod with Some _ => mret (Return status) | None => crash end
      else
        _ ← check (DeleteStatefulPod set pod);
        let status := count_revision pod (-1) status in
        if monotonic then mret (Return status) else condemned_loop target condemned firstUnhealthyPod status
  end.

(** The loop over the replicas from the last one down to [updateMin]; [target] is one more
    than the index of the first pod of the list. *)
Fixpoint update_loop (updateMin : Z) (target : nat) (replicas : list SPod) (status : SSStatus) : M W SSStatus :=
  match replicas with
  | [] => if updateMin <? 0 then crash else mret status
  | pod :: replicas =>
      let target := pred target in
      if Z.of_nat target <? updateMin then mret status
      else if negb (bool_decide (getPodRevision pod = updateRevision)) && negb (isTerminating pod) then
        err ← DeleteStatefulPod set pod;
        match err with Some e => throw e | None => mret (add_current (-1) status) end
      else if negb (isHealthy pod) then mret status
      else update_loop updateMin target replicas status
  end.
End control.

Section pass.
Context `{PodControl W} `{RangeClaims} `{PatchCodec} `{SortOrdinal}.

(** [updateStatefulSet]; a negative count of replicas is the length of a slice that cannot be
    made. *)
Definition updateStatefulSet (set : SSet) (currentRevision updateRevision : ControllerRevision) (collisionCount : Z) (pods : list SPod) : M W SSStatus :=
  currentSet ← of_result (ApplyRevision set currentRevision);
  updateSet ← of_result (ApplyRevision set updateRevision);
  let current := crName currentRevision in
  let update := crName updateRevision in
  let status := mkSSStatus (ssGeneration set) 0 0 0 0 current update (Some collisionCount) in
  let replicaCount := ssReplicas set in
  if replicaCount <? 0 then crash
  else
    let s := fold_left (observe_pod replicaCount) pods (mkSorted status (replicate (Z.to_nat replicaCount) None) []) in
    let replicas := imap (λ ord p, match p with Some pod => pod | None => new_pod currentSet updateSet current update (Z.of_nat ord) end) (soReplicas s) in
    let condemned := sort_ordinal (soCondemned s) in
    let u := find_unhealthy InCondemned 0 condemned (find_unhealthy InReplicas 0 replicas (mkUnhealthy 0 MaxInt32 None)) in
    if (0 <? uhCount u) && bool_decide (uhFirst u = None) then crash
    else if ssDeleting set then mret (soStatus s)
    else
      f ← replica_loop set currentSet updateSet current update 0 replicas (soStatus s);
      match f with
      | Return status => mret status
      | Continue (status, replicas) =>
          f ← condemned_loop set (length condemned) (reverse condemned) (uhFirst u) status;
          match f with
          | Return status => mret status
          | Continue status =>
              if bool_decide (ssStrategy set = OnDeleteStatefulSetStrategyType) then mret status
              else
                let updateMin := default 0 (ssRollingUpdate set) in
                update_loop set update updateMin (length replicas) (reverse replicas) status
          end
      end.
End pass.

(** ** The client *)

Class Client (W : Type) := {
  client_revisions :: RevisionClient W;
  (** the caches: the pods and the sets of a namespace, and a claim with a name *)
  pods_cached : W → string → list SPod;
  sets_cached : W → string → list SSet;
  claims_Lister_Get : string → string → W → result ClientErr Claim;
  (** the server *)
  pods_Create : string → SPod → W → result ClientErr SPod * W;
  pods_Update : string → SPod → W → result ClientErr SPod * W;
  pods_Delete : string → string → W → option ClientErr * W;
  claims_Create : string → Claim → W → result ClientErr Claim * W;
  sets_UpdateStatus : string → SSet → W → result ClientErr SSet * W;
  sets_Get : string → string → W → result ClientErr SSet;
  (** the answers to the patches of the claim of pods, and their effect *)
  pods_Patch : W → Patch → option ApiErr;
  pods_patched : list Patch → W → W;
  (** the text of an error *)
  message : ClientErr → string;
}.

(** ** The control of pods, for real *)

Section real.
Context `{Client W} `{RangeClaims}.

(** The error that one claim adds. *)
Definition create_claim (claim : Claim) : M W (list string) :=
  got ← look (claims_Lister_Get (cNamespace claim) (cName claim));
  match got with
  | Ok _ => mret []
  | Err err =>
      if IsNotFound err then
        answer ← call (claims_Create (cNamespace claim) claim);
        mret (match answer with Ok _ => [] | Err err => ["Failed to create PVC " +:+ cName claim +:+ ": " +:+ message err] end)
      else mret ["Failed to retrieve PVC " +:+ cName claim +:+ ": " +:+ message err]
  end.

Fixpoint create_claims (claims : list Claim) : M W (list string) :=
  match claims with
  | [] => mret []
  | claim :: claims => errs ← create_claim claim; rest ← create_claims claims; mret (errs ++ rest)
  end.

Definition createPersistentVolumeClaims (set : SSet) (pod : SPod) : M W (option ClientErr) :=
  errs ← create_claims (snd <$> range_claims (getPersistentVolumeClaims set pod));
  mret (match errs with [] => None | _ => Some (Aggregate errs) end).

Definition real_CreateStatefulPod (set : SSet) (pod : SPod) : M W (option ClientErr) :=
  err ← createPersistentVolumeClaims set pod;
  match err with
  | Some err => mret (Some err)
  | None =>
      answer ← call (pods_Create (ssNamespace set) pod);
      mret (match answer with Ok _ => None | Err err => Some err end)
  end.

Definition pods_Lister_Get (w : W) (ns name : string) : option SPod := find (λ p, bool_decide (spName p = name)) (pods_cached w ns).

(** The part of an attempt that repairs the storage: the pod, whether it is consistent, and
    the error. *)
Definition repair_storage (set : SSet) (pod : SPod) (consistent : bool) : M W (SPod * bool * option ClientErr) :=
  if negb (storageMatches set pod) then
    let pod := updateStorage set pod in
    err ← createPersistentVolumeClaims set pod;
    mret (pod, false, err)
  else mret (pod, consistent, None).

(** One attempt of [UpdateStatefulPod]: the error and the pod that the next attempt has. *)
Definition update_pod_attempt (set : SSet) (pod : SPod) : M W (option ClientErr * SPod) :=
  let consistent := true in
  let '(pod, consistent) := if negb (identityMatches set pod) then (updateIdentity set pod, false) else (pod, consistent) in
  '(pod, consistent, err) ← repair_storage set pod consistent;
  match err with
  | Some err => mret (Some err, pod)
  | None =>
      if (consistent : bool) then mret (None, pod)
      else
        answer ← call (pods_Update (ssNamespace set) pod);
        match answer with
        | Ok _ => mret (None, pod)
        | Err updateErr =>
            cached ← look (λ w, pods_Lister_Get w (ssNamespace set) (spName pod));
            mret (Some updateErr, match cached with Some updated => updated | None => pod end)
        end
  end.

Definition real_UpdateStatefulPod (set : SSet) (pod : SPod) : M W (option ClientErr) :=
  '(err, _) ← RetryOnConflict DefaultBackoff (update_pod_attempt set) pod; mret err.

Definition real_DeleteStatefulPod (set : SSet) (pod : SPod) : M W (option ClientErr) := call (pods_Delete (ssNamespace set) (spName pod)).

#[global] Instance realStatefulPodControl : PodControl W := {
  CreateStatefulPod := real_CreateStatefulPod;
  UpdateStatefulPod := real_UpdateStatefulPod;
  DeleteStatefulPod := real_DeleteStatefulPod;
}.

(** ** The status *)

Definition sets_Lister_Get (w : W) (ns name : string) : option SSet := find (λ s, bool_decide (ssName s = name)) (sets_cached w ns).

Definition status_attempt (status : SSStatus) (set : SSet) : M W (option ClientErr * SSet) :=
  let set := with_status set status in
  answer ← call (sets_UpdateStatus (ssNamespace set) set);
  match answer with
  | Ok _ => mret (None, set)
  | Err updateErr =>
      cached ← look (λ w, sets_Lister_Get w (ssNamespace set) (ssName set));
      mret (Some updateErr, match cached with Some updated => updated | None => set end)
  end.

Definition UpdateStatefulSetStatus (set : SSet) (status : SSStatus) : M W (option ClientErr) :=
  '(err, _) ← RetryOnConflict DefaultRetry (status_attempt status) set; mret err.

Definition updateStatefulSetStatus (set : SSet) (status : SSStatus) : M W () :=
  let status := completeRollingUpdate set status in
  if negb (inconsistentStatus set status) then mret () else check (UpdateStatefulSetStatus set status).
End real.

(** ** Revisions *)

Section revisions.
Context `{RevisionClient W} `{PatchCodec} `{SortByKey} `{SortRevisions}.

(** The error of a selector that cannot be converted. *)
Definition selector_of (set : SSet) : result ClientErr Selector :=
  match LabelSelectorAsSelector (Some (ssSelector set)) with Ok s => Ok s | Err _ => Err (Errorf "invalid selector") end.

Definition ListRevisions (set : SSet) : M W (list ControllerRevision) :=
  selector ← of_result (selector_of set); ListControllerRevisions (set_parent set) selector.

Definition AdoptOrphanRevisions (set : SSet) (revisions : list ControllerRevision) : M W () :=
  for_each revisions (λ r, _ ← AdoptControllerRevision (set_parent set) r; mret ()).

(** The revisions are sorted in place, so that the caller sees them sorted again. *)
Record set_revisions : Type := mkSetRevisions {
  srCurrent : ControllerRevision;
  srUpdate : ControllerRevision;
  srCollisionCount : Z;
  srRevisions : list ControllerRevision;
}.

Definition getStatefulSetRevisions (fuel : nat) (set : SSet) (revisions : list ControllerRevision) : M W set_revisions :=
  let revisions := SortControllerRevisions revisions in
  let collisionCount := default 0 (stCollisionCount (ssStatus set)) in
  let updateRevision := newRevision set (nextRevision revisions) (Some collisionCount) in
  let equalRevisions := FindEqualRevisions revisions updateRevision in
  '(updateRevision, collisionCount) ←
    match last equalRevisions with
    | Some equal =>
        if EqualRevision (last revisions) (Some equal) then mret (default equal (last revisions), collisionCount)
        else
          updated ← UpdateControllerRevision equal (crRevision updateRevision);
          mret (updated, collisionCount)
    | None => CreateControllerRevision fuel (set_parent set) updateRevision (Some collisionCount)
    end;
  let currentRevision := last (filter (λ r, crName r = stCurrentRevision (ssStatus set)) revisions) in
  mret (mkSetRevisions (default updateRevision currentRevision) updateRevision collisionCount revisions).

(** The revisions that are not live, in their order. *)
Definition non_live (pods : list SPod) (revisions : list ControllerRevision) (current update : ControllerRevision) : list ControllerRevision :=
  let live := crName current :: crName update :: (getPodRevision <$> pods) in
  filter (λ r, crName r ∉ live) revisions.

Definition truncateHistory (set : SSet) (pods : list SPod) (revisions : list ControllerRevision) (current update : ControllerRevision) : M W () :=
  let history := non_live pods revisions current update in
  let historyLen := Z.of_nat (length history) in
  let historyLimit := ssHistoryLimit set in
  if historyLen <=? historyLimit then mret ()
  else for_each (take (Z.to_nat (historyLen - historyLimit)) history) (λ r, check (DeleteControllerRevision r)).
End revisions.

(** ** A sync *)

Section sync.
Context `{Client W} `{RangeClaims} `{PatchCodec} `{SortOrdinal} `{SortByKey} `{SortRevisions} (fuel : nat).

Definition UpdateStatefulSet (set : SSet) (pods : list SPod) : M W () :=
  revisions ← ListRevisions set;
  let revisions := SortControllerRevisions revisions in
  r ← getStatefulSetRevisions fuel set revisions;
  status ← updateStatefulSet set (srCurrent r) (srUpdate r) (srCollisionCount r) pods;
  _ ← updateStatefulSetStatus set status;
  truncateHistory set pods (srRevisions r) (srCurrent r) (srUpdate r).

Definition adoptOrphanRevisions (set : SSet) : M W () :=
  revisions ← ListRevisions set;
  if existsb (λ r, bool_decide (GetControllerOf r = None)) revisions then
    fresh ← look (sets_Get (ssNamespace set) (ssName set));
    fresh ← of_result fresh;
    if negb (bool_decide (ssUID fresh = ssUID set)) then throw (Errorf "original StatefulSet is gone")
    else AdoptOrphanRevisions set revisions
  else mret ().

(** What the check before the first adoption of a pod returns. *)
Definition can_adopt (w : W) (set : SSet) : option string :=
  RecheckDeletionTimestamp
    (match sets_Get (ssNamespace set) (ssName set) w with
     | Err err => Err (message err)
     | Ok fresh => if negb (bool_decide (ssUID fresh = ssUID set)) then Err "original StatefulSet is gone" else Ok (mkFresh (ssUID fresh) (ssDeleting fresh))
     end).

Definition getPodsForStatefulSet (set : SSet) (selector : Selector) : M W (list SPod) :=
  λ w,
    let pods := pods_cached w (ssNamespace set) in
    let '(claimed, errlist, m) :=
      ClaimPods (ssUID set) (ssDeleting set) (Some (can_adopt w set)) (pods_Patch w) selector [isMemberOf set] pods NewRefManager in
    (match errlist with [] => Ret claimed | _ => Throw (ClaimErrors errlist) end, pods_patched (sent m) w).

Definition syncStatefulSet (set : SSet) (pods : list SPod) : M W () := UpdateStatefulSet set pods.

Definition sync (key : string) : M W () :=
  match SplitMetaNamespaceKey key with
  | Err err => throw (Errorf "unexpected key format")
  | Ok (namespace, name) =>
      cached ← look (λ w, sets_Lister_Get w namespace name);
      match cached with
      | None => mret ()
      | Some set =>
          match selector_of set with
          | Err _ => mret ()
          | Ok selector =>
              _ ← adoptOrphanRevisions set;
              pods ← getPodsForStatefulSet set selector;
              syncStatefulSet set pods
          end
      end
  end.
End sync.

(** The calls on the queue while one key is processed; [got] is the key that the queue gives,
    and none when it is shut down. *)
Inductive queue_call : Type :=
  | QueueForget (key : string)
  | QueueAddRateLimited (key : string)
  | QueueDone (key : string).

Definition processNextWorkItem `{Client W} `{RangeClaims} `{PatchCodec} `{SortOrdinal} `{SortByKey} `{SortRevisions} (fuel : nat) (got : option string) :
    M W (bool * list queue_call) :=
  match got with
  | None => mret (false, [])
  | Some key => λ w,
      match sync fuel key w with
      | (Ret _, w) => (Ret (true, [QueueForget key; QueueDone key]), w)
      | (Throw _, w) => (Ret (true, [QueueAddRateLimited key; QueueDone key]), w)
      | (Crash, w) => (Crash, w)
      | (Running, w) => (Running, w)
      end
  end.

(** ** The handlers of the informers: the keys that they queue *)

Definition set_key (s : SSet) : string := if 0 <? slen (ssNamespace s) then ssNamespace s +:+ "/" +:+ ssName s else ssName s.

Section handlers.
Context `{SortByKey} (sets : string → list SSet).

(** The loop of [GetPodStatefulSets]. *)
Fixpoint matching_sets (list_ : list SSet) (pod : SPod) : result string (list SSet) :=
  match list_ with
  | [] => Ok []
  | ps :: list_ =>
      if negb (bool_decide (ssNamespace ps = spNamespace pod)) then matching_sets list_ pod
      else
        match LabelSelectorAsSelector (Some (ssSelector ps)) with
        | Err _ => Err "invalid selector"
        | Ok selector =>
            if Empty selector || negb (Matches selector (spLabels pod)) then matching_sets list_ pod
            else match matching_sets list_ pod with Ok psList => Ok (ps :: psList) | Err e => Err e end
        end
  end.

Definition GetPodStatefulSets (pod : SPod) : result string (list SSet) :=
  if bool_decide (spLabels pod = ∅) then Err "no StatefulSets found for pod because it has no labels"
  else
    match matching_sets (sets (spNamespace pod)) pod with
    | Err e => Err e
    | Ok [] => Err "could not find StatefulSet for pod"
    | Ok psList => Ok psList
    end.

Definition getStatefulSetsForPod (pod : SPod) : list SSet := match GetPodStatefulSets pod with Ok l => l | Err _ => [] end.

Definition resolveControllerRef (namespace : string) (controllerRef : OwnerReference) : option SSet :=
  if negb (bool_decide (OwnerKind controllerRef = controllerKind)) then None
  else
    match find (λ s, bool_decide (ssName s = OwnerName controllerRef)) (sets namespace) with
    | None => None
    | Some set => if negb (bool_decide (ssUID set = OwnerUID controllerRef)) then None else Some set
    end.

Definition deletePod (pod : SPod) : list string :=
  match GetControllerOf pod with
  | None => []
  | Some ref => option_list (set_key <$> resolveControllerRef (spNamespace pod) ref)
  end.

Definition addPod (pod : SPod) : list string :=
  if spDeleting pod then deletePod pod
  else
    match GetControllerOf pod with
    | Some ref => option_list (set_key <$> resolveControllerRef (spNamespace pod) ref)
    | None => set_key <$> getStatefulSetsForPod pod
    end.

Definition updatePod (oldPod curPod : SPod) : list string :=
  if bool_decide (spVersion curPod = spVersion oldPod) then []
  else
    let labelChanged := negb (bool_decide (spLabels curPod = spLabels oldPod)) in
    let controllerRefChanged := negb (bool_decide (GetControllerOf curPod = GetControllerOf oldPod)) in
    let before := match GetControllerOf oldPod with
      | Some ref => if controllerRefChanged then option_list (set_key <$> resolveControllerRef (spNamespace oldPod) ref) else []
      | None => []
      end in
    match GetControllerOf curPod with
    | Some ref => before ++ option_list (set_key <$> resolveControllerRef (spNamespace curPod) ref)
    | None => if labelChanged || controllerRefChanged then before ++ (set_key <$> getStatefulSetsForPod curPod) else before
    end.
End handlers.
