(* ===== verification/StatefulSetSpec.v ===== *)
(** * Stateful sets: what a pass does

    The abstract account of a pass over the pods of a stateful set, as a list of operations
    on pods, and the proof that the loops of [StatefulSetControl.v] carry it out, against
    any implementation of the interface that controls pods. *)

From S2P Require Import Prelude GoStrings GoStrconv GoInt Store LabelSelector Validation DeploymentScaling SchedulingQueue ControllerRef ClientMonad ControllerHistory StatefulSet StatefulSetControl.

(** ** Operations *)

Inductive pod_op : Type :=
  | OpCreate (pod : SPod)
  | OpUpdate (pod : SPod)
  | OpDelete (pod : SPod).

#[global] Instance pod_op_eq_dec : EqDecision pod_op.
Proof. solve_decision. Defined.

Section spec.
Context `{PodControl W} `{RangeClaims} `{PatchCodec} `{SortOrdinal}.
Context (set currentSet updateSet : SSet) (cur upd : string).

Definition perform (op : pod_op) : M W (option ClientErr) :=
  match op with
  | OpCreate pod => CreateStatefulPod set pod
  | OpUpdate pod => UpdateStatefulPod updateSet pod
  | OpDelete pod => DeleteStatefulPod set pod
  end.

(** The operations in their order, up to the first that fails. *)
Definition perform_all (ops : list pod_op) : M W () := for_each ops (λ op, check (perform op)).

(** ** The pods of a set, by their ordinals *)

Definition fresh_pod (n : nat) : SPod := new_pod currentSet updateSet cur upd (Z.of_nat n).

Context (pods : list SPod).

Definition pod_at (n : nat) : option SPod := last (filter (λ p, getOrdinal p = Z.of_nat n) pods).
Definition replica_at (n : nat) : SPod := default (fresh_pod n) (pod_at n).
Definition replica_count : nat := Z.to_nat (ssReplicas set).
Definition replicas_of : list SPod := replica_at <$> seq 0 replica_count.
Definition condemned_of : list SPod := sort_ordinal (filter (λ p, ssReplicas set ≤ getOrdinal p) pods).

(** The pods whose identity or storage is not that of the set. *)
Definition is_repaired (pod : SPod) : bool := negb (identityMatches set pod && storageMatches set pod).
Definition repairs (l : list SPod) : list pod_op := OpUpdate <$> filter (λ p, is_repaired p = true) l.

(** ** What the first loop collects *)

Definition counted (f : SPod → bool) : Z := Z.of_nat (length (filter (λ p, f p = true) pods)).

Definition live_at (revision : string) (p : SPod) : bool :=
  isCreated p && negb (isTerminating p) && bool_decide (getPodRevision p = revision).

Definition initial_status (collisionCount : Z) : SSStatus := mkSSStatus (ssGeneration set) 0 0 0 0 cur upd (Some collisionCount).

Definition observed (collisionCount : Z) : SSStatus :=
  mkSSStatus (ssGeneration set) (wrap32 (Z.of_nat (length pods))) (wrap32 (counted isRunningAndReady)) (wrap32 (counted (live_at cur)))
    (wrap32 (counted (live_at upd))) cur upd (Some collisionCount).
End spec.

(** ** The first loop *)

Lemma wrap32_succ a : wrap32 (wrap32 a + 1) = wrap32 (a + 1).
Proof.
  unfold wrap32. f_equal. replace ((a + 2 ^ 31) mod 2 ^ 32 - 2 ^ 31 + 1 + 2 ^ 31) with ((a + 2 ^ 31) mod 2 ^ 32 + 1) by lia.
  rewrite Zplus_mod_idemp_l. f_equal. lia.
Qed.

Lemma counted_snoc pods p f : counted (pods ++ [p]) f = counted pods f + (if f p then 1 else 0).
Proof.
  unfold counted. rewrite filter_app, length_app, filter_cons, filter_nil. destruct (f p) eqn:Hf.
  - rewrite decide_True by done. cbn. lia.
  - rewrite decide_False by done. cbn. lia.
Qed.

Section loops.
Context `{PodControl W} `{RangeClaims} `{PatchCodec} `{SortOrdinal}.
Context (set currentSet updateSet : SSet) (cur upd : string) (collisionCount : Z).

Definition first_loop (pods : list SPod) : sorted_pods :=
  fold_left (observe_pod (ssReplicas set)) pods
    (mkSorted (initial_status set cur upd collisionCount) (replicate (replica_count set) None) []).

Lemma first_loop_status pods : soStatus (first_loop pods) = observed set cur upd pods collisionCount.
Proof.
  induction pods as [|p pods IH] using rev_ind; [done|]. unfold first_loop in *. rewrite fold_left_app. cbn [fold_left].
  set (s := fold_left _ _ _) in *.
  assert (Hst : soStatus (observe_pod (ssReplicas set) s p) =
    let status := add_replicas 1 (soStatus s) in
    let status := if isRunningAndReady p then add_ready 1 status else status in
    if isCreated p && negb (isTerminating p) then count_revision p 1 status else status).
  { unfold observe_pod. repeat (case_match; cbn [soStatus]; try done). }
  rewrite Hst, IH. unfold observed. rewrite !counted_snoc, length_app. cbn [length]. rewrite Nat2Z.inj_add. cbn zeta.
  unfold live_at. destruct (isRunningAndReady p), (isCreated p && negb (isTerminating p)); cbn;
    unfold count_revision; cbn; repeat (case_bool_decide; cbn); unfold add_replicas, add_ready, add_current, add_updated; cbn;
    rewrite ?wrap32_succ, ?Z.add_0_r; done.
Qed.
Lemma first_loop_replicas pods : soReplicas (first_loop pods) = pod_at pods <$> seq 0 (replica_count set).
Proof.
  induction pods as [|p pods IH] using rev_ind.
  { unfold first_loop. cbn. apply list_eq. intros i. rewrite list_lookup_fmap. destruct (decide (i < replica_count set)%nat).
    - rewrite lookup_replicate_2, lookup_seq_lt by done. done.
    - rewrite !lookup_ge_None_2; [done|..]; rewrite ?length_replicate, ?length_seq; lia. }
  unfold first_loop in *. rewrite fold_left_app. cbn [fold_left]. set (s := fold_left _ _ _) in *.
  assert (Hp : ∀ i, pod_at (pods ++ [p]) i = if decide (getOrdinal p = Z.of_nat i) then Some p else pod_at pods i).
  { intros i. unfold pod_at. rewrite filter_app, filter_cons, filter_nil. case_decide; [by rewrite last_snoc|by rewrite app_nil_r]. }
  unfold observe_pod. destruct ((0 <=? getOrdinal p) && (getOrdinal p <? ssReplicas set)) eqn:Hr; cbn [soReplicas].
  - to_prop. rewrite IH. apply list_eq. intros i. unfold replica_count in *.
    destruct (decide (i < Z.to_nat (ssReplicas set))%nat) as [Hi|Hi].
    + rewrite list_lookup_fmap, lookup_seq_lt by done. cbn. rewrite Hp. case_decide as Hd.
      * rewrite Hd, Nat2Z.id, list_lookup_insert_eq; [done|]. by rewrite length_fmap, length_seq.
      * rewrite list_lookup_insert_ne by lia. rewrite list_lookup_fmap, lookup_seq_lt by done. done.
    + rewrite !lookup_ge_None_2; [done|..]; rewrite ?length_insert, length_fmap, length_seq; lia.
  - transitivity (soReplicas s); [by case_match|]. rewrite IH. apply list_fmap_ext. intros i j Hj.
    apply lookup_seq in Hj as [-> Hj]. rewrite Hp, decide_False; [done|]. unfold replica_count in *.
    apply andb_false_iff in Hr as [Hr|Hr]; to_prop; lia.
Qed.

Lemma first_loop_condemned pods : soCondemned (first_loop pods) = filter (λ p, ssReplicas set ≤ getOrdinal p) pods.
Proof.
  induction pods as [|p pods IH] using rev_ind; [done|]. unfold first_loop in *. rewrite fold_left_app. cbn [fold_left].
  rewrite filter_app, filter_cons, filter_nil. set (s := fold_left _ _ _) in *.
  unfold observe_pod. destruct ((0 <=? getOrdinal p) && (getOrdinal p <? ssReplicas set)) eqn:Hr; cbn [soCondemned].
  - to_prop. by rewrite decide_False, IH, app_nil_r by lia.
  - destruct (ssReplicas set <=? getOrdinal p) eqn:Hc; cbn [soCondemned]; to_prop.
    + by rewrite decide_True, IH by lia.
    + by rewrite decide_False, IH, app_nil_r by lia.
Qed.

(** ** The first unhealthy pod *)

Lemma find_unhealthy_app place i l1 l2 u :
  find_unhealthy place i (l1 ++ l2) u = find_unhealthy place (i + length l1) l2 (find_unhealthy place i l1 u).
Proof.
  revert i u. induction l1 as [|p l1 IH]; intros i u; cbn [app find_unhealthy length]; [by rewrite Nat.add_0_r|].
  rewrite IH. f_equal. lia.
Qed.

Lemma find_unhealthy_healthy place i l u : Forall (λ p, isHealthy p = true) l → find_unhealthy place i l u = u.
Proof. revert i. induction l as [|p l IH]; intros i Hl; [done|]. inversion_clear Hl as [|? ? Hp Hl']. cbn. rewrite Hp. by apply IH. Qed.

(** Once a pod is found it is only replaced by one with a smaller ordinal. *)
Lemma find_unhealthy_keeps place i l u :
  Forall (λ p, uhOrdinal u ≤ getOrdinal p) l → uhFirst (find_unhealthy place i l u) = uhFirst u.
Proof.
  revert i u. induction l as [|p l IH]; intros i u Hl; [done|]. inversion_clear Hl as [|? ? Hp Hl']. cbn.
  destruct (isHealthy p); [by apply IH|]. rewrite (proj2 (Z.ltb_ge _ _)) by done.
  rewrite IH; [done|]. cbn. done.
Qed.

Lemma find_unhealthy_count place i l u :
  0 ≤ uhCount u → (uhCount u = 0 ∨ uhFirst u ≠ None) → uhOrdinal u ≤ MaxInt32 → (uhFirst u = None → uhOrdinal u = MaxInt32) →
  Forall (λ p, getOrdinal p < MaxInt32) l →
  let u' := find_unhealthy place i l u in
  0 ≤ uhCount u' ∧ (uhCount u' = 0 ∨ uhFirst u' ≠ None) ∧ uhOrdinal u' ≤ MaxInt32 ∧ (uhFirst u' = None → uhOrdinal u' = MaxInt32).
Proof.
  revert i u. induction l as [|p l IH]; intros i u Hn Hf Ho Hm Hl; [done|]. inversion_clear Hl as [|? ? Hp Hl']. cbn [find_unhealthy].
  apply IH; [..|done]; destruct (isHealthy p); try done; destruct (getOrdinal p <? uhOrdinal u) eqn:Hlt; cbn; to_prop;
    try lia; try done; try (by right); auto.
  right. destruct (uhFirst u); [done|]. specialize (Hm eq_refl). lia.
Qed.
Lemma find_unhealthy_counts place i l u :
  uhCount (find_unhealthy place i l u) = uhCount u + Z.of_nat (length (filter (λ p, isHealthy p = false) l)).
Proof.
  revert i u. induction l as [|p l IH]; intros i u; cbn [find_unhealthy]; [cbn; lia|]. rewrite IH, filter_cons.
  destruct (isHealthy p); [rewrite decide_False by done|rewrite decide_True by done]; [done|].
  case_match; cbn [uhCount length]; lia.
Qed.

(** ** The replicas *)

Lemma healthy_facts pod : isHealthy pod = true → isFailed pod = false ∧ isCreated pod = true ∧ isTerminating pod = false ∧ isRunningAndReady pod = true.
Proof.
  unfold isHealthy, isRunningAndReady, isFailed, isCreated. intros ?. to_prop. split_and!; try done.
  - apply bool_decide_eq_false. congruence.
  - apply negb_true_iff, bool_decide_eq_false. congruence.
  - rewrite bool_decide_eq_true_2 by done. done.
Qed.

Lemma perform_all_app ops1 ops2 :
  perform_all set updateSet (ops1 ++ ops2) ≡ (perform_all set updateSet ops1 ≫= λ _, perform_all set updateSet ops2).
Proof. apply for_each_app. Qed.

Lemma perform_all_singleton op : perform_all set updateSet [op] ≡ check (perform set updateSet op).
Proof. unfold perform_all. by rewrite for_each_singleton. Qed.

Lemma repairs_app l1 l2 : repairs set (l1 ++ l2) = repairs set l1 ++ repairs set l2.
Proof. unfold repairs. by rewrite filter_app, fmap_app. Qed.

Lemma process_healthy pod st : isHealthy pod = true →
  process_pod set updateSet pod st ≡ (perform_all set updateSet (repairs set [pod]) ≫= λ _, mret (Continue st)).
Proof.
  intros (_ & Hc & Ht & Hr)%healthy_facts. unfold process_pod. rewrite Hc, Ht, Hr. cbn [negb andb].
  unfold repairs. rewrite filter_cons, filter_nil. unfold is_repaired.
  destruct (identityMatches set pod && storageMatches set pod); cbn [negb].
  - by rewrite decide_False.
  - rewrite decide_True by done. cbn [fmap list_fmap]. by rewrite perform_all_singleton.
Qed.

Definition prepend (l : list SPod) (f : flow (SSStatus * list SPod)) : flow (SSStatus * list SPod) :=
  match f with Return s => Return s | Continue (s, l') => Continue (s, l ++ l') end.

Lemma replica_loop_healthy i l1 l2 st : Forall (λ p, isHealthy p = true) l1 →
  replica_loop set currentSet updateSet cur upd i (l1 ++ l2) st ≡
  (perform_all set updateSet (repairs set l1) ≫= λ _,
     replica_loop set currentSet updateSet cur upd (i + length l1) l2 st ≫= λ f, mret (prepend l1 f)).
Proof.
  revert i. induction l1 as [|p l1 IH]; intros i Hl.
  - cbn [app length]. rewrite Nat.add_0_r. split. intros w. unfold mbind, M_bind. cbn.
    destruct (replica_loop _ _ _ _ _ i l2 st w) as [[[s|[s l]]| | |] ?]; done.
  - inversion_clear Hl as [|? ? Hp Hl']. cbn [app replica_loop]. destruct (healthy_facts p Hp) as (Hf & _). rewrite Hf, M_bind_ret.
    rewrite (process_healthy p st Hp), (repairs_app [p] l1 : repairs set (p :: l1) = _), perform_all_app, !M_bind_assoc.
    f_equiv. intros _. rewrite M_bind_ret, (IH (S i) Hl'), !M_bind_assoc. f_equiv. intros _. rewrite !M_bind_assoc.
    cbn [length]. rewrite Nat.add_succ_r. f_equiv; [|done]. intros [s|[s l]]; done.
Qed.
(** A pod that is not healthy stops the loop of an ordered set. *)
Lemma replica_loop_stops i pod l st : isHealthy pod = false → monotonic set = true →
  isCreated (fresh_pod currentSet updateSet cur upd i) = false →
  replica_loop set currentSet updateSet cur upd i (pod :: l) st ≡
  let fresh := fresh_pod currentSet updateSet cur upd i in
  if isFailed pod then
    perform_all set updateSet [OpDelete pod; OpCreate fresh] ≫= λ _,
      mret (Return (count_revision fresh 1 (add_replicas 1 (add_replicas (-1) (count_revision pod (-1) st)))))
  else if negb (isCreated pod) then perform_all set updateSet [OpCreate pod] ≫= λ _, mret (Return (count_revision pod 1 (add_replicas 1 st)))
  else mret (Return st).
Proof.
  intros Hh Hm Hf. cbn [replica_loop]. fold (fresh_pod currentSet updateSet cur upd i).
  assert (Hcreate : ∀ p s, isCreated p = false →
    process_pod set updateSet p s ≡ (perform_all set updateSet [OpCreate p] ≫= λ _, mret (Return (count_revision p 1 (add_replicas 1 s))))).
  { intros p s Hp. unfold process_pod. rewrite Hp, Hm. cbn [negb]. by rewrite perform_all_singleton. }
  destruct (isFailed pod) eqn:Hfail; cbn zeta.
  - rewrite (perform_all_app [OpDelete pod] [OpCreate _] : perform_all _ _ [OpDelete pod; OpCreate _] ≡ _).
    rewrite (M_bind_assoc (check _)), M_bind_assoc, (perform_all_singleton (OpDelete pod)).
    f_equiv; [|done]. intros []. rewrite M_bind_ret, (Hcreate _ _ Hf), M_bind_assoc. done.
  - rewrite M_bind_ret. destruct (isCreated pod) eqn:Hc; cbn [negb].
    + unfold process_pod. rewrite Hc, Hm, !andb_true_r. cbn [negb]. unfold isHealthy in Hh.
      destruct (isTerminating pod); [done|]. rewrite andb_true_r in Hh. by rewrite Hh.
    + rewrite (Hcreate _ _ Hc), M_bind_assoc. done.
Qed.

(** ** Condemned pods and updates *)

Lemma split_first_unhealthy (l : list SPod) : ¬ Forall (λ p, isHealthy p = true) l →
  ∃ l1 p l2, l = l1 ++ p :: l2 ∧ Forall (λ p, isHealthy p = true) l1 ∧ isHealthy p = false.
Proof.
  induction l as [|p l IH]; intros Hl; [by destruct Hl|]. destruct (isHealthy p) eqn:Hp.
  - destruct IH as (l1 & q & l2 & -> & Hl1 & Hq); [naive_solver|]. exists (p :: l1), q, l2. naive_solver.
  - by exists [], p, l.
Qed.

(** The last pod of a list is the first unhealthy one when all the others are healthy. *)
Lemma first_unhealthy_last rest c :
  Sorted (λ a b, ascendingOrdinal_less b a = false) (rest ++ [c]) → Forall (λ p, getOrdinal p < MaxInt32) (rest ++ [c]) →
  uhFirst (find_unhealthy InCondemned 0 (rest ++ [c]) (mkUnhealthy 0 MaxInt32 None)) = Some (InCondemned (length rest)) ↔
  isHealthy c = false ∧ Forall (λ p, isHealthy p = true) rest.
Proof.
  intros Hs Hb. destruct (decide (Forall (λ p, isHealthy p = true) rest)) as [Hr|Hr].
  - rewrite find_unhealthy_app, (find_unhealthy_healthy _ 0 rest) by done. cbn. destruct (isHealthy c) eqn:Hc; cbn; [naive_solver|].
    apply Forall_app in Hb as [_ Hb]. inversion_clear Hb. rewrite (proj2 (Z.ltb_lt _ _)) by done. cbn. naive_solver.
  - split; [|naive_solver]. intros Hf. exfalso.
    destruct (split_first_unhealthy rest Hr) as (l1 & p & l2 & -> & Hl1 & Hp).
    rewrite <- !app_assoc in *. rewrite find_unhealthy_app, (find_unhealthy_healthy _ 0 l1) in Hf by done. cbn in Hf. rewrite Hp in Hf.
    apply Forall_app in Hb as [_ Hb]. inversion_clear Hb as [|? ? Hpb _]. rewrite (proj2 (Z.ltb_lt _ _)) in Hf by done.
    assert (Hge : Forall (λ q, getOrdinal p ≤ getOrdinal q) (l2 ++ [c])).
    { apply Sorted_StronglySorted in Hs; [|intros a b d; unfold ascendingOrdinal_less; rewrite !Z.ltb_ge; lia].
      apply StronglySorted_app in Hs as (_ & _ & Hs). inversion_clear Hs as [|? ? _ Hge].
      eapply Forall_impl; [exact Hge|]. intros q. unfold ascendingOrdinal_less. by rewrite Z.ltb_ge. }
    rewrite find_unhealthy_keeps in Hf by done. cbn in Hf. rewrite length_app in Hf. cbn in Hf. injection Hf. lia.
Qed.
Lemma condemned_loop_last rest c first st : monotonic set = true →
  condemned_loop set (length (rest ++ [c])) (reverse (rest ++ [c])) first st ≡
  if isTerminating c then mret (Return st)
  else if negb (isRunningAndReady c) && negb (bool_decide (first = Some (InCondemned (length rest)))) then
    match first with Some _ => mret (Return st) | None => crash end
  else perform_all set updateSet [OpDelete c] ≫= λ _, mret (Return (count_revision c (-1) st)).
Proof.
  intros Hm. rewrite reverse_snoc, length_app. cbn [length condemned_loop]. rewrite Nat.add_1_r, Hm, andb_true_r. cbn [pred].
  destruct (isTerminating c); [done|].
  replace (bool_decide (Some (InCondemned (length rest)) = first)) with (bool_decide (first = Some (InCondemned (length rest))))
    by (apply bool_decide_ext; naive_solver).
  destruct (negb (isRunningAndReady c) && _); [done|]. by rewrite (perform_all_singleton (OpDelete c)).
Qed.

(** The replicas from [min] on that are at the update revision. *)
Definition updated_from (min : Z) (l : list SPod) : Prop :=
  ∀ j q, min ≤ Z.of_nat j → l !! j = Some q → getPodRevision q = upd.

Lemma updated_from_snoc min l p : updated_from min l → getPodRevision p = upd → updated_from min (l ++ [p]).
Proof.
  intros Hl Hp j q Hj [Hq|[_ Hq]]%lookup_app_Some; [by eapply Hl|]. apply list_lookup_singleton_Some in Hq as [_ <-]. done.
Qed.

Lemma update_loop_healthy min l st : Forall (λ p, isHealthy p = true) l → 0 ≤ min →
  (updated_from min l ∧ update_loop set upd min (length l) (reverse l) st ≡ mret st) ∨
  ∃ k pod, l !! k = Some pod ∧ min ≤ Z.of_nat k ∧ getPodRevision pod ≠ upd ∧ updated_from (Z.of_nat k + 1) l ∧
    update_loop set upd min (length l) (reverse l) st ≡ (perform_all set updateSet [OpDelete pod] ≫= λ _, mret (add_current (-1) st)).
Proof.
  intros Hl Hm. induction l as [|p l IH] using rev_ind.
  { left. split; [by intros j q _ ?|]. cbn. by rewrite (proj2 (Z.ltb_ge _ _)). }
  apply Forall_app in Hl as [Hl Hp]. inversion_clear Hp as [|? ? Hph _]. rewrite reverse_snoc, length_app. cbn [length update_loop].
  rewrite Nat.add_1_r. cbn [pred]. destruct (Z.of_nat (length l) <? min) eqn:Hlt; to_prop.
  { left. split; [|done]. intros j q Hj [Hq%lookup_lt_Some|[Hj' Hq]]%lookup_app_Some; [lia|].
    apply list_lookup_singleton_Some in Hq as [? _]. lia. }
  destruct (healthy_facts p Hph) as (_ & _ & Ht & _). rewrite Ht, Hph, andb_true_r. cbn [negb].
  case_bool_decide as Hr; cbn [negb].
  - destruct (IH Hl) as [[Hu He]|(k & pod & Hk & Hmk & Hne & Hu & He)].
    + left. split; [by apply updated_from_snoc|done].
    + right. exists k, pod. split_and!; [by apply lookup_app_l_Some|done..|by apply updated_from_snoc|done].
  - right. exists (length l), p. split_and!; [by rewrite list_lookup_middle|lia|done| |].
    + intros j q Hj Hq%lookup_lt_Some. rewrite length_app in Hq. cbn in Hq. lia.
    + rewrite (perform_all_singleton (OpDelete p)). unfold check. rewrite M_bind_assoc. f_equiv; [|done]. intros [e|]; done.
Qed.
End loops.

(** ** A pass over an ordered set *)

Section ordered.
Context `{PodControl W} `{RangeClaims} `{PatchCodec} `{SortOrdinal}.
Context (set currentSet updateSet : SSet) (cur upd : string) (pods : list SPod) (collisionCount : Z).

Let replica := replica_at currentSet updateSet cur upd pods.
Let replicas := replicas_of set currentSet updateSet cur upd pods.
Let condemned := condemned_of set pods.
Let st := observed set cur upd pods collisionCount.

Definition all_healthy (l : list SPod) : Prop := Forall (λ p, isHealthy p = true) l.
Definition partition_of : Z := default 0 (ssRollingUpdate set).

(** What a pass does, in the order of the ordinals: the operations and the status. *)
Inductive ordered_pass : list pod_op → SSStatus → Prop :=
  (** a set that is being deleted is left alone *)
  | pass_deleting :
      ssDeleting set = true → ordered_pass [] st
  (** the first replica that is not healthy has failed, and is deleted and made anew *)
  | pass_recreate k : ssDeleting set = false →
      (k < replica_count set)%nat → all_healthy (replica <$> seq 0 k) → isFailed (replica k) = true →
      let fresh := fresh_pod currentSet updateSet cur upd k in
      ordered_pass (repairs set (replica <$> seq 0 k) ++ [OpDelete (replica k); OpCreate fresh])
        (count_revision fresh 1 (add_replicas 1 (add_replicas (-1) (count_revision (replica k) (-1) st))))
  (** or it does not exist, and is created *)
  | pass_create k : ssDeleting set = false →
      (k < replica_count set)%nat → all_healthy (replica <$> seq 0 k) → isCreated (replica k) = false →
      ordered_pass (repairs set (replica <$> seq 0 k) ++ [OpCreate (replica k)]) (count_revision (replica k) 1 (add_replicas 1 st))
  (** or it is waited for *)
  | pass_wait k : ssDeleting set = false →
      (k < replica_count set)%nat → all_healthy (replica <$> seq 0 k) → isHealthy (replica k) = false →
      isCreated (replica k) = true → isFailed (replica k) = false →
      ordered_pass (repairs set (replica <$> seq 0 k)) st
  (** all replicas are healthy, and the last pod beyond them is deleted if it is ready, or
      if it is the only pod that is not *)
  | pass_scale_down rest c : ssDeleting set = false →
      all_healthy replicas → condemned = rest ++ [c] → isTerminating c = false → (isRunningAndReady c = true ∨ all_healthy rest) →
      ordered_pass (repairs set replicas ++ [OpDelete c]) (count_revision c (-1) st)
  | pass_scale_wait rest c : ssDeleting set = false →
      all_healthy replicas → condemned = rest ++ [c] → (isTerminating c = true ∨ isRunningAndReady c = false ∧ ¬ all_healthy rest) →
      ordered_pass (repairs set replicas) st
  (** there is no pod beyond them, and the last replica that is not at the update revision
      is deleted, not below the partition *)
  | pass_update k : ssDeleting set = false →
      all_healthy replicas → condemned = [] → ssStrategy set ≠ OnDeleteStatefulSetStrategyType →
      (k < replica_count set)%nat → partition_of ≤ Z.of_nat k → getPodRevision (replica k) ≠ upd →
      updated_from upd (Z.of_nat k + 1) replicas →
      ordered_pass (repairs set replicas ++ [OpDelete (replica k)]) (add_current (-1) st)
  | pass_done : ssDeleting set = false →
      all_healthy replicas → condemned = [] →
      (ssStrategy set = OnDeleteStatefulSetStrategyType ∨ updated_from upd partition_of replicas) →
      ordered_pass (repairs set replicas) st.
End ordered.

Lemma fmap_seq_split {A} (f : nat → A) n l1 p l2 :
  f <$> seq 0 n = l1 ++ p :: l2 → l1 = f <$> seq 0 (length l1) ∧ p = f (length l1) ∧ (length l1 < n)%nat.
Proof.
  intros Hs. assert (Hn : (length l1 < n)%nat).
  { apply (f_equal length) in Hs. rewrite length_fmap, length_seq, length_app in Hs. cbn in Hs. lia. }
  assert (Hat : ∀ i, (i < n)%nat → (l1 ++ p :: l2) !! i = Some (f i)).
  { intros i Hi. rewrite <- Hs, list_lookup_fmap, lookup_seq_lt by done. done. }
  split_and!; [|by pose proof (Hat _ Hn) as He; rewrite list_lookup_middle in He by done; injection He|done].
  apply list_eq. intros i. destruct (decide (i < length l1)%nat) as [Hi|Hi].
  - rewrite list_lookup_fmap, lookup_seq_lt, <- (lookup_app_l l1 (p :: l2)), Hat by lia. done.
  - rewrite !lookup_ge_None_2; [done|..]; rewrite ?length_fmap, ?length_seq; lia.
Qed.

Lemma imap_fmap_seq {A B} (g : nat → A → B) (f : nat → A) n : imap g (f <$> seq 0 n) = (λ i, g i (f i)) <$> seq 0 n.
Proof.
  apply list_eq. intros i. rewrite list_lookup_imap, !list_lookup_fmap. destruct (decide (i < n)%nat).
  - by rewrite !lookup_seq_lt.
  - by rewrite !lookup_seq_ge by lia.
Qed.

Lemma ApplyRevision_inv `{PatchCodec} set r s : ApplyRevision set r = Ok s → ∃ t, s = with_template set t.
Proof. unfold ApplyRevision. destruct (apply_patch _ _); intros; simplify_eq; eauto. Qed.

Section ordered.
Context `{PodControl W} `{RangeClaims} `{PatchCodec} `{SortOrdinal}.
Context (set currentSet updateSet : SSet) (current update : ControllerRevision) (pods : list SPod) (collisionCount : Z).
Context (Hcurrent : ApplyRevision set current = Ok currentSet) (Hupdate : ApplyRevision set update = Ok updateSet).
Context (Hreplicas : 0 ≤ ssReplicas set ≤ MaxInt32) (Hordinals : Forall (λ p, getOrdinal p < MaxInt32) pods).

Let cur := crName current.
Let upd := crName update.
Let replicas := replicas_of set currentSet updateSet cur upd pods.
Let condemned := condemned_of set pods.
Let st := observed set cur upd pods collisionCount.

Lemma fresh_pod_facts n : (n < replica_count set)%nat →
  getOrdinal (fresh_pod currentSet updateSet cur upd n) = Z.of_nat n ∧ isCreated (fresh_pod currentSet updateSet cur upd n) = false.
Proof.
  intros Hn. destruct (ApplyRevision_inv _ _ _ Hcurrent) as (t1 & ->). destruct (ApplyRevision_inv _ _ _ Hupdate) as (t2 & ->).
  unfold replica_count, MaxInt32 in *.
  destruct (new_pod_member set t1 t2 cur upd (Z.of_nat n) ltac:(lia)) as (Hp & _ & _ & _ & Hc & _).
  split; [|exact Hc]. unfold getOrdinal, fresh_pod, new_pod. by rewrite Hp.
Qed.

Lemma replica_ordinals : Forall (λ p, getOrdinal p < MaxInt32) replicas.
Proof.
  apply Forall_forall. intros p (n & -> & Hn)%list_elem_of_fmap. apply elem_of_seq in Hn.
  unfold replica_at, pod_at. destruct (last _) as [q|] eqn:Hl; cbn.
  - apply last_Some_elem_of, list_elem_of_filter in Hl as [-> _]. unfold replica_count in *. lia.
  - destruct (fresh_pod_facts n) as [-> _]; [lia|]. unfold replica_count in *. lia.
Qed.

Lemma condemned_ordinals : Forall (λ p, getOrdinal p < MaxInt32) condemned.
Proof.
  apply Forall_forall. intros p Hp. unfold condemned, condemned_of in Hp. rewrite sort_ordinal_perm in Hp.
  apply list_elem_of_filter in Hp as [_ Hp]. by eapply Forall_forall in Hordinals.
Qed.

Definition unhealthy : unhealthy_pods :=
  find_unhealthy InCondemned 0 condemned (find_unhealthy InReplicas 0 replicas (mkUnhealthy 0 MaxInt32 None)).

Lemma unhealthy_found : uhCount unhealthy = 0 ∨ uhFirst unhealthy ≠ None.
Proof.
  destruct (find_unhealthy_count InReplicas 0 replicas (mkUnhealthy 0 MaxInt32 None)) as (? & ? & ? & ?); cbn; [lia|by left|lia|done|apply replica_ordinals|].
  by apply (find_unhealthy_count InCondemned 0 condemned); [..|apply condemned_ordinals].
Qed.

(** The body of the pass, once its loops have been named. *)
Lemma updateStatefulSet_eq :
  updateStatefulSet set current update collisionCount pods ≡
  if ssDeleting set then mret st
  else
    replica_loop set currentSet updateSet cur upd 0 replicas st ≫= λ f,
      match f with
      | Return status => mret status
      | Continue (status, replicas) =>
          condemned_loop set (length condemned) (reverse condemned) (uhFirst unhealthy) status ≫= λ f,
            match f with
            | Return status => mret status
            | Continue status =>
                if bool_decide (ssStrategy set = OnDeleteStatefulSetStrategyType) then mret status
                else update_loop set upd (partition_of set) (length replicas) (reverse replicas) status
            end
      end.
Proof.
  unfold updateStatefulSet. rewrite Hcurrent, Hupdate. cbn [of_result]. rewrite !M_bind_ret. cbn zeta.
  rewrite (proj2 (Z.ltb_ge _ _)) by lia.
  pose proof (first_loop_replicas set (crName current) (crName update) collisionCount pods) as Hr. pose proof (first_loop_condemned set (crName current) (crName update) collisionCount pods) as Hc.
  pose proof (first_loop_status set (crName current) (crName update) collisionCount pods) as Hs. unfold first_loop, initial_status, replica_count in Hr, Hc, Hs.
  rewrite Hr, Hc, Hs, imap_fmap_seq.
  change ((λ i, match pod_at pods i with Some pod => pod | None => _ end) <$> _) with replicas.
  change (sort_ordinal (filter _ pods)) with condemned. fold unhealthy.
  destruct ((0 <? uhCount unhealthy) && bool_decide (uhFirst unhealthy = None)) eqn:Hu; [|done].
  to_prop. destruct unhealthy_found; [lia|done].
Qed.
Context (Hmonotonic : monotonic set = true) (Hpartition : 0 ≤ partition_of set).

Let runs (ops : list pod_op) (status : SSStatus) : Prop :=
  updateStatefulSet set current update collisionCount pods ≡ (perform_all set updateSet ops ≫= λ _, mret status).
Let passes := ordered_pass set currentSet updateSet cur upd pods collisionCount.

Lemma run_return ops1 ops2 l s (K : flow (SSStatus * list SPod) → M W SSStatus) : K (Return s) ≡ mret s →
  ((perform_all set updateSet ops1 ≫= λ _, (perform_all set updateSet ops2 ≫= λ _, mret (Return s)) ≫= λ f, mret (prepend l f)) ≫= K) ≡
  (perform_all set updateSet (ops1 ++ ops2) ≫= λ _, mret s).
Proof.
  intros HK. rewrite perform_all_app. split. intros w. unfold mbind, M_bind.
  destruct (perform_all set updateSet ops1 w) as [[[]| | |] w1]; [|done..].
  destruct (perform_all set updateSet ops2 w1) as [[[]| | |] w2]; [apply HK|done..].
Qed.

Lemma pass_unhealthy l1 p l2 : ssDeleting set = false → replicas = l1 ++ p :: l2 → all_healthy l1 → isHealthy p = false →
  ∃ ops status, passes ops status ∧ runs ops status.
Proof.
  intros Hd Hr Hl1 Hp. destruct (fmap_seq_split _ _ _ _ _ Hr) as (Hl & Hpk & Hk).
  destruct (fresh_pod_facts (length l1) Hk) as [_ Hf].
  pose proof updateStatefulSet_eq as He. rewrite Hd, Hr, (replica_loop_healthy _ _ _ _ _ 0 l1 (p :: l2) st Hl1) in He. cbn [Nat.add] in He.
  setoid_rewrite (replica_loop_stops _ _ _ _ _ (length l1) p l2 st Hp Hmonotonic Hf) in He. cbn zeta in He.
  unfold runs. setoid_rewrite He. clear He. set (k := length l1) in *. clearbody k. subst l1 p.
  destruct (isFailed (replica_at _ _ _ _ _ k)) eqn:Hfail; [|destruct (isCreated (replica_at _ _ _ _ _ k)) eqn:Hcr; cbn [negb]].
  - eexists _, _. split; [by apply pass_recreate|]. by apply run_return.
  - eexists _, _. split; [by eapply (pass_wait _ _ _ _ _ _ _ k)|]. etrans; [by apply (run_return _ [])|by rewrite app_nil_r].
  - eexists _, _. split; [by apply pass_create|]. by apply run_return.
Qed.
Definition rest_of_pass : M W SSStatus :=
  condemned_loop set (length condemned) (reverse condemned) (uhFirst unhealthy) st ≫= λ f,
    match f with
    | Return status => mret status
    | Continue status =>
        if bool_decide (ssStrategy set = OnDeleteStatefulSetStrategyType) then mret status
        else update_loop set upd (partition_of set) (length replicas) (reverse replicas) status
    end.

Lemma healthy_eq : ssDeleting set = false → all_healthy replicas →
  updateStatefulSet set current update collisionCount pods ≡ (perform_all set updateSet (repairs set replicas) ≫= λ _, rest_of_pass).
Proof.
  intros Hd Hh. pose proof updateStatefulSet_eq as He. rewrite Hd in He. rewrite <- (app_nil_r replicas) in He at 1.
  rewrite (replica_loop_healthy _ _ _ _ _ 0 replicas [] st Hh), M_bind_assoc in He. cbn [replica_loop] in He.
  rewrite He. f_equiv. intros []. rewrite !M_bind_ret. cbn [prepend]. rewrite app_nil_r. done.
Qed.

Lemma run_rest ops status : ssDeleting set = false → all_healthy replicas →
  rest_of_pass ≡ (perform_all set updateSet ops ≫= λ _, mret status) → runs (repairs set replicas ++ ops) status.
Proof.
  intros Hd Hh Hr. unfold runs. rewrite (healthy_eq Hd Hh), perform_all_app, M_bind_assoc. f_equiv. intros []. apply Hr.
Qed.

Lemma first_unhealthy_condemned rest c : all_healthy replicas → condemned = rest ++ [c] →
  uhFirst unhealthy = Some (InCondemned (length rest)) ↔ isHealthy c = false ∧ all_healthy rest.
Proof.
  intros Hh Hc. unfold unhealthy. rewrite (find_unhealthy_healthy InReplicas 0 replicas), Hc by done. apply first_unhealthy_last.
  - rewrite <- Hc. apply sort_ordinal_sorted.
  - rewrite <- Hc. apply condemned_ordinals.
Qed.

Lemma unhealthy_some c : c ∈ condemned → isHealthy c = false → uhFirst unhealthy ≠ None.
Proof.
  intros Hc Hu. destruct unhealthy_found as [Hn|]; [|done]. exfalso. unfold unhealthy in Hn. rewrite !find_unhealthy_counts in Hn.
  cbn in Hn. assert (Hf : c ∈ filter (λ p, isHealthy p = false) condemned) by by apply list_elem_of_filter.
  destruct (filter _ condemned); [by apply not_elem_of_nil in Hf|]. cbn in Hn. lia.
Qed.

Lemma pass_healthy : ssDeleting set = false → all_healthy replicas → ∃ ops status, passes ops status ∧ runs ops status.
Proof.
  intros Hd Hh. destruct (last condemned) as [c|] eqn:Hc; [apply last_Some in Hc as [rest Hc]|apply last_None in Hc].
  - assert (Hrest : rest_of_pass ≡
      if isTerminating c then mret st
      else if negb (isRunningAndReady c) && negb (bool_decide (uhFirst unhealthy = Some (InCondemned (length rest)))) then
        match uhFirst unhealthy with Some _ => mret st | None => crash end
      else perform_all set updateSet [OpDelete c] ≫= λ _, mret (count_revision c (-1) st)).
    { unfold rest_of_pass. rewrite Hc. setoid_rewrite (condemned_loop_last set updateSet rest c _ st Hmonotonic).
      destruct (isTerminating c); [done|]. destruct (negb _ && _); [by destruct (uhFirst unhealthy)|]. by rewrite M_bind_assoc. }
    assert (Hfirst := first_unhealthy_condemned rest c Hh Hc).
    destruct (isTerminating c) eqn:Ht.
    { exists (repairs set replicas ++ []), st. split; [rewrite app_nil_r; eapply pass_scale_wait; by eauto|by apply run_rest]. }
    destruct (isRunningAndReady c) eqn:Hr; cbn [negb andb] in Hrest.
    { eexists _, _. split; [eapply pass_scale_down; by eauto|]. by apply run_rest. }
    assert (isHealthy c = false) as Hcu by (unfold isHealthy; by rewrite Hr).
    case_bool_decide as Hf; cbn [negb] in Hrest.
    + eexists _, _. split; [eapply pass_scale_down; [done|done|done|done|right; by apply Hfirst]|]. by apply run_rest.
    + exists (repairs set replicas ++ []), st. split.
      * rewrite app_nil_r. eapply pass_scale_wait; [done|done|done|]. right. split; [done|]. naive_solver.
      * apply run_rest; [done..|]. rewrite Hrest. destruct (uhFirst unhealthy) eqn:Hu; [done|]. exfalso. apply (unhealthy_some c); [rewrite Hc; set_solver|done|done].
  - assert (Hrest : rest_of_pass ≡ if bool_decide (ssStrategy set = OnDeleteStatefulSetStrategyType) then mret st
        else update_loop set upd (partition_of set) (length replicas) (reverse replicas) st) by (unfold rest_of_pass; rewrite Hc; done).
    case_bool_decide as Hs.
    + exists (repairs set replicas ++ []), st. split; [rewrite app_nil_r; apply pass_done; auto|by apply run_rest].
    + destruct (update_loop_healthy set updateSet upd (partition_of set) replicas st Hh Hpartition) as [[Hu He]|(k & p & Hk & Hmk & Hne & Hu & He)].
      * exists (repairs set replicas ++ []), st. split; [rewrite app_nil_r; apply pass_done; auto|].
        apply run_rest; [done..|]. rewrite Hrest. exact He.
      * unfold replicas, replicas_of in Hk. apply list_lookup_fmap_Some in Hk as (k' & -> & [-> Hk']%lookup_seq).
        eexists _, _. split; [by eapply (pass_update _ _ _ _ _ _ _ k)|]. apply run_rest; [done..|]. rewrite Hrest. exact He.
Qed.
End ordered.

Lemma ordered_pass_exists `{PodControl W} `{RangeClaims} `{PatchCodec} `{SortOrdinal} (set currentSet updateSet : SSet)
    (current update : ControllerRevision) (collisionCount : Z) (pods : list SPod) :
  ApplyRevision set current = Ok currentSet → ApplyRevision set update = Ok updateSet →
  allowsBurst set = false → 0 ≤ ssReplicas set ≤ MaxInt32 → 0 ≤ partition_of set → Forall (λ p, getOrdinal p < MaxInt32) pods →
  ∃ ops status, ordered_pass set currentSet updateSet (crName current) (crName update) pods collisionCount ops status ∧
    ∀ w, updateStatefulSet set current update collisionCount pods w = (perform_all set updateSet ops ≫= λ _, mret status) w.
Proof.
  intros Hc Hu Hb Hr Hp Ho. assert (Hm : monotonic set = true) by (unfold monotonic; by rewrite Hb).
  destruct (ssDeleting set) eqn:Hd.
  { eexists [], _. split; [by apply pass_deleting|]. intros w.
    pose proof (updateStatefulSet_eq set currentSet updateSet current update pods collisionCount Hc Hu Hr Ho) as He. rewrite Hd in He. apply He. }
  destruct (decide (all_healthy (replicas_of set currentSet updateSet (crName current) (crName update) pods))) as [Hh|Hh].
  - destruct (pass_healthy set currentSet updateSet current update pods collisionCount Hc Hu Hr Ho Hm Hp Hd Hh) as (ops & st & ? & He).
    exists ops, st. split; [done|apply He].
  - destruct (split_first_unhealthy _ Hh) as (l1 & p & l2 & Hs & Hl1 & Hp1).
    destruct (pass_unhealthy set currentSet updateSet current update pods collisionCount Hc Hu Hr Ho Hm l1 p l2 Hd Hs Hl1 Hp1) as (ops & st & ? & He).
    exists ops, st. split; [done|apply He].
Qed.

(** C15: a pass over a set whose policy is ordered does one of eight things, whatever the
    interface that controls pods answers: it goes through the replicas in the order of their
    ordinals, repairing identities, as far as they are running and ready and not
    terminating; the first that is not is created, or deleted and created if it failed, or
    waited for; only when all are healthy is a pod beyond the count deleted, the one with the
    largest ordinal, unless it has to be waited for; and only when there is none is the
    largest ordinal, not below the partition, that is not at the update revision deleted.
    The operations are carried out in this order up to the first error, and without an error
    the status that is returned counts the pods that were seen and what was done. *)
Theorem updateStatefulSet_ordered `{PodControl W} `{RangeClaims} `{PatchCodec} `{SortOrdinal} (set currentSet updateSet : SSet)
    (current update : ControllerRevision) (collisionCount : Z) (pods : list SPod) :
  ApplyRevision set current = Ok currentSet → ApplyRevision set update = Ok updateSet →
  allowsBurst set = false → 0 ≤ ssReplicas set ≤ MaxInt32 → 0 ≤ partition_of set → Forall (λ p, getOrdinal p < MaxInt32) pods →
  ∃ ops status, ordered_pass set currentSet updateSet (crName current) (crName update) pods collisionCount ops status ∧
    ∀ w, updateStatefulSet set current update collisionCount pods w = (perform_all set updateSet ops ≫= λ _, mret status) w.
Proof. apply ordered_pass_exists. Qed.

(** ** A pass over a set that is managed in parallel *)

Section burst.
Context `{PodControl W} `{RangeClaims} `{PatchCodec} `{SortOrdinal}.
Context (set currentSet updateSet : SSet) (cur upd : string).

(** What is done for one replica, and the pod that takes its place. *)
Definition burst_ops (n : nat) (pod : SPod) : list pod_op :=
  if isFailed pod then [OpDelete pod; OpCreate (fresh_pod currentSet updateSet cur upd n)]
  else if negb (isCreated pod) then [OpCreate pod]
  else repairs set [pod].
Definition burst_pod (n : nat) (pod : SPod) : SPod := if isFailed pod then fresh_pod currentSet updateSet cur upd n else pod.

(** The replicas from [min] on are at the update revision and healthy. *)
Definition rolled_out (min : Z) (l : list SPod) : Prop :=
  ∀ j q, min ≤ Z.of_nat j → l !! j = Some q → getPodRevision q = upd ∧ isHealthy q = true.

(** At most one replica is deleted for the update: the last that is not at the update
    revision, when all after it are, and are healthy. *)
Definition update_step (min : Z) (l : list SPod) (ops : list pod_op) : Prop :=
  ops = [] ∨ ∃ k pod, ops = [OpDelete pod] ∧ l !! k = Some pod ∧ min ≤ Z.of_nat k ∧ getPodRevision pod ≠ upd ∧
    isTerminating pod = false ∧ rolled_out (Z.of_nat k + 1) l.

Lemma process_burst pod st : monotonic set = false →
  ∃ st', process_pod set updateSet pod st ≡
    (perform_all set updateSet (if negb (isCreated pod) then [OpCreate pod] else repairs set [pod]) ≫= λ _, mret (Continue st')).
Proof.
  intros Hm. unfold process_pod. rewrite Hm, !andb_false_r. destruct (isCreated pod); cbn [negb].
  - unfold repairs. rewrite filter_cons, filter_nil. unfold is_repaired. exists st.
    destruct (identityMatches set pod && storageMatches set pod); cbn [negb].
    + by rewrite decide_False.
    + rewrite decide_True by done. cbn [fmap list_fmap]. by rewrite (perform_all_singleton set updateSet (OpUpdate pod)).
  - eexists. by rewrite (perform_all_singleton set updateSet (OpCreate pod)).
Qed.

Lemma replica_loop_burst i l st : monotonic set = false →
  (∀ j, (i ≤ j < i + length l)%nat → isCreated (fresh_pod currentSet updateSet cur upd j) = false) →
  ∃ st', replica_loop set currentSet updateSet cur upd i l st ≡
    (perform_all set updateSet (concat (imap (λ j, burst_ops (i + j)) l)) ≫= λ _, mret (Continue (st', imap (λ j, burst_pod (i + j)) l))).
Proof.
  intros Hm. revert i st. induction l as [|p l IH]; intros i st Hf; [by exists st|].
  set (st0 := if isFailed p then add_replicas (-1) (count_revision p (-1) st) else st).
  destruct (process_burst (burst_pod i p) st0 Hm) as (st1 & Hp).
  destruct (IH (S i) st1) as (st2 & Hl). { intros j Hj. apply Hf. cbn. lia. }
  exists st2. cbn [imap concat]. rewrite Nat.add_0_r.
  assert (He : ∀ {A} (g : nat → SPod → A), imap (λ j, g (S i + j)%nat) l = imap ((λ j, g (i + j)%nat) ∘ S) l).
  { intros A g. apply imap_ext. intros j q _. cbn. by rewrite Nat.add_succ_r. }
  rewrite (He _ burst_ops), (He _ burst_pod) in Hl. rewrite perform_all_app.
  assert (Hfirst : burst_ops i p = (if isFailed p then [OpDelete p] else []) ++
    (if negb (isCreated (burst_pod i p)) then [OpCreate (burst_pod i p)] else repairs set [burst_pod i p])).
  { unfold burst_ops, burst_pod. destruct (isFailed p); [|done]. rewrite Hf by (cbn; lia). done. }
  rewrite Hfirst, perform_all_app. cbn [replica_loop].
  split. intros w. destruct Hp as [Hp], Hl as [Hl]. unfold st0, burst_pod in *.
  unfold mbind, M_bind in *. destruct (isFailed p).
  - rewrite (M_eq_at (perform_all_singleton set updateSet (OpDelete p))). cbn [perform].
    unfold check, mbind, M_bind. destruct (DeleteStatefulPod set p w) as [[[e|]| | |] w1]; cbn; try done.
    fold (fresh_pod currentSet updateSet cur upd i). rewrite Hp. destruct (perform_all _ _ _ w1) as [[[]| | |] w2]; cbn; try done.
    rewrite Hl. destruct (perform_all _ _ _ w2) as [[[]| | |] w3]; done.
  - cbn. rewrite Hp. destruct (perform_all _ _ _ w) as [[[]| | |] w2]; cbn; try done.
    rewrite Hl. destruct (perform_all _ _ _ w2) as [[[]| | |] w3]; done.
Qed.

Lemma condemned_loop_burst target l first st : monotonic set = false →
  ∃ st', condemned_loop set target l first st ≡
    (perform_all set updateSet (OpDelete <$> filter (λ p, isTerminating p = false) l) ≫= λ _, mret (Continue st')).
Proof.
  intros Hm. revert target st. induction l as [|p l IH]; intros target st; [by exists st|]. cbn [condemned_loop].
  rewrite Hm, andb_false_r, filter_cons. cbn [andb]. destruct (isTerminating p).
  - rewrite decide_False by done. apply IH.
  - rewrite decide_True by done. destruct (IH (pred target) (count_revision p (-1) st)) as (st' & Hl). exists st'.
    rewrite fmap_cons, (perform_all_app set updateSet [OpDelete p] _ : perform_all _ _ (OpDelete p :: _) ≡ _), M_bind_assoc.
    rewrite (perform_all_singleton set updateSet (OpDelete p)). f_equiv; [|done]. intros []. apply Hl.
Qed.

Lemma rolled_out_snoc min l p : rolled_out min l → getPodRevision p = upd → isHealthy p = true → rolled_out min (l ++ [p]).
Proof.
  intros Hl Hp Hh j q Hj [Hq|[_ Hq]]%lookup_app_Some; [by eapply Hl|]. apply list_lookup_singleton_Some in Hq as [_ <-]. done.
Qed.

Lemma update_loop_step min l st : 0 ≤ min →
  ∃ ops st', update_step min l ops ∧
    update_loop set upd min (length l) (reverse l) st ≡ (perform_all set updateSet ops ≫= λ _, mret st').
Proof.
  intros Hm. induction l as [|p l IH] using rev_ind.
  { exists [], st. split; [by left|]. cbn. by rewrite (proj2 (Z.ltb_ge _ _)). }
  rewrite reverse_snoc, length_app. cbn [length update_loop]. rewrite Nat.add_1_r. cbn [pred].
  destruct (Z.of_nat (length l) <? min) eqn:Hlt; [by exists [], st; split; [left|]|]. to_prop.
  destruct (negb (bool_decide (getPodRevision p = upd)) && negb (isTerminating p)) eqn:Hd; to_prop.
  { exists [OpDelete p], (add_current (-1) st). split.
    - right. exists (length l), p. split_and!; [done|by rewrite list_lookup_middle|lia|done|done|].
      intros j q Hj Hq%lookup_lt_Some. rewrite length_app in Hq. cbn in Hq. lia.
    - rewrite (perform_all_singleton set updateSet (OpDelete p)). unfold check. rewrite M_bind_assoc. f_equiv; [|done]. intros [e|]; done. }
  destruct (isHealthy p) eqn:Hh; [|by exists [], st; split; [left|]]. cbn [negb].
  assert (Hr : getPodRevision p = upd).
  { destruct (healthy_facts p Hh) as (_ & _ & Ht & _). rewrite Ht in Hd. cbn in Hd. destruct Hd as [Hd|]; [by to_prop|done]. }
  destruct IH as (ops & st' & Hs & He). exists ops, st'. split; [|done].
  destruct Hs as [->|(k & pod & -> & Hk & ? & ? & ? & ?)]; [by left|]. right. exists k, pod.
  split_and!; [done|by apply lookup_app_l_Some|done..|by apply rolled_out_snoc].
Qed.
End burst.

(** A pass over a set that is managed in parallel does not wait: whatever the interface
    that controls pods answers, it goes through all replicas and creates every one that is
    missing, deletes and creates every one that failed, and repairs the others; then it
    deletes every pod beyond the count that is not terminating yet; then it deletes at most
    one replica for the update, with all larger ordinals updated and healthy. *)
Theorem updateStatefulSet_parallel `{PodControl W} `{RangeClaims} `{PatchCodec} `{SortOrdinal} (set currentSet updateSet : SSet)
    (current update : ControllerRevision) (collisionCount : Z) (pods : list SPod) :
  ApplyRevision set current = Ok currentSet → ApplyRevision set update = Ok updateSet → ssDeleting set = false →
  allowsBurst set = true → 0 ≤ ssReplicas set ≤ MaxInt32 → 0 ≤ partition_of set → Forall (λ p, getOrdinal p < MaxInt32) pods →
  let cur := crName current in
  let upd := crName update in
  let replicas := replicas_of set currentSet updateSet cur upd pods in
  ∃ ops status,
    (if decide (ssStrategy set = OnDeleteStatefulSetStrategyType) then ops = []
     else update_step upd (partition_of set) (imap (burst_pod currentSet updateSet cur upd) replicas) ops) ∧
    ∀ w, updateStatefulSet set current update collisionCount pods w =
      (perform_all set updateSet (concat (imap (burst_ops set currentSet updateSet cur upd) replicas) ++
         (OpDelete <$> filter (λ p, isTerminating p = false) (reverse (condemned_of set pods))) ++ ops) ≫= λ _, mret status) w.
Proof.
  intros Hc Hu Hd Hb Hr Hp Ho cur upd replicas. assert (Hm : monotonic set = false) by (unfold monotonic; by rewrite Hb).
  pose proof (updateStatefulSet_eq set currentSet updateSet current update pods collisionCount Hc Hu Hr Ho) as He. rewrite Hd in He.
  fold cur upd replicas in He.
  destruct (replica_loop_burst set currentSet updateSet cur upd 0 replicas (observed set cur upd pods collisionCount) Hm) as (st1 & H1l).
  { intros j Hj. eapply (fresh_pod_facts set currentSet updateSet current update); [done..|].
    unfold replicas, replicas_of in Hj. rewrite length_fmap, length_seq in Hj. lia. }
  destruct (condemned_loop_burst set updateSet (length (condemned_of set pods)) (reverse (condemned_of set pods))
    (uhFirst (unhealthy set currentSet updateSet current update pods)) st1 Hm) as (st2 & H2l).
  destruct (update_loop_step set updateSet upd (partition_of set) (imap (burst_pod currentSet updateSet cur upd) replicas) st2 Hp)
    as (ops & st3 & Hops & H3l).
  cbn [Nat.add] in H1l. destruct H1l as [H1l], H2l as [H2l], H3l as [H3l], He as [He].
  exists (if decide (ssStrategy set = OnDeleteStatefulSetStrategyType) then [] else ops),
    (if decide (ssStrategy set = OnDeleteStatefulSetStrategyType) then st2 else st3).
  split; [by case_decide|]. intros w. rewrite He. unfold mbind, M_bind in *. rewrite H1l.
  rewrite (M_eq_at (perform_all_app _ _ _ _)). unfold mbind, M_bind in *.
  destruct (perform_all _ _ (concat _) w) as [[[]| | |] w1]; cbn; [|done..]. rewrite H2l.
  rewrite (M_eq_at (perform_all_app _ _ _ _)). unfold mbind, M_bind in *.
  destruct (perform_all _ _ (OpDelete <$> _) w1) as [[[]| | |] w2]; cbn; [|done..].
  destruct (decide (ssStrategy set = OnDeleteStatefulSetStrategyType)) as [Hs|Hs]; [by rewrite bool_decide_eq_true_2|].
  rewrite bool_decide_eq_false_2, H3l by done. by destruct (perform_all _ _ ops w2) as [[[]| | |] w3].
Qed.

(** ** An example *)

(** A control that only keeps the log of what it is asked to do. *)
Definition log_op (op : pod_op) : M (list pod_op) (option ClientErr) := λ log, (Ret None, log ++ [op]).

Definition log_control : PodControl (list pod_op) := {|
  CreateStatefulPod _ pod := log_op (OpCreate pod);
  UpdateStatefulPod _ pod := log_op (OpUpdate pod);
  DeleteStatefulPod _ pod := log_op (OpDelete pod);
|}.

Definition ready : PodCondition := mkCondition "Ready" "True" "" 0 0.

(** A pod of the set that has been created. *)
Definition in_phase (p : SPod) (phase : PodPhase) (conditions : list PodCondition) (deleting : bool) : SPod :=
  mkSPod (spNamespace p) (spName p) (spGenerateName p) (spUID p) (spVersion p) (spLabels p) (spAnnotations p) (spFinalizers p)
    (spOwners p) deleting (spSpec p) (Some phase) conditions.
Definition web_pod (n : Z) (revision : string) (phase : PodPhase) (conditions : list PodCondition) : SPod :=
  in_phase (setPodRevision (newStatefulSetPod (H := range_in_order) (web_set 2 OrderedReadyPodManagement (Some 0)) n) revision) phase conditions false.

Definition web_revisions (image : string) (name : string) : ControllerRevision :=
  mkRevision "default" name "" false ∅ ∅ [] (encode_patch (PatchCodec := binary_patches) (web_template image)) 1.

Definition ops_of (p : outcome SSStatus * list pod_op) : list (string * string) :=
  (λ op, match op with OpCreate p => ("create", spName p) | OpUpdate p => ("update", spName p) | OpDelete p => ("delete", spName p) end) <$> p.2.

Definition web_pass (set : SSet) (pods : list SPod) : outcome SSStatus * list pod_op :=
  updateStatefulSet (H := log_control) (H0 := range_in_order) (H1 := binary_patches) (H2 := sort_by_ordinal)
    set (web_revisions "nginx:1" "web-a") (web_revisions "nginx:2" "web-b") 0 pods [].

Definition ordered_web (replicas : Z) : SSet := web_set replicas OrderedReadyPodManagement (Some 0).
Definition parallel_web (replicas : Z) : SSet := web_set replicas ParallelPodManagement (Some 0).

(** Two replicas at the old revision: the second is deleted for the update. *)
Definition two_pods : list SPod := [web_pod 0 "web-a" PodRunning [ready]; web_pod 1 "web-a" PodRunning [ready]].

Lemma updateStatefulSet_ordered_witness :
  let set := ordered_web 2 in
  let old := with_template set (web_template "nginx:1") in
  let new := with_template set (web_template "nginx:2") in
  ops_of (web_pass set two_pods) = [("delete", "web-1")] ∧
  ∃ ops status,
    ordered_pass (H0 := range_in_order) (H2 := sort_by_ordinal) set old new "web-a" "web-b" two_pods 0 ops status ∧
    ∀ w, updateStatefulSet (H := log_control) (H0 := range_in_order) (H1 := binary_patches) (H2 := sort_by_ordinal)
           set (web_revisions "nginx:1" "web-a") (web_revisions "nginx:2" "web-b") 0 two_pods w =
         (perform_all (H := log_control) set new ops ≫= λ _, mret status) w.
Proof.
  split; [vm_compute; reflexivity|].
  apply (updateStatefulSet_ordered (H := log_control) (H0 := range_in_order) (H1 := binary_patches) (H2 := sort_by_ordinal)
    (ordered_web 2) _ _ (web_revisions "nginx:1" "web-a") (web_revisions "nginx:2" "web-b"));
    [vm_compute; reflexivity|vm_compute; reflexivity|reflexivity|vm_compute; split; discriminate|vm_compute; discriminate|].
  repeat constructor.
Defined.

Lemma updateStatefulSet_parallel_witness :
  let set := parallel_web 2 in
  let old := with_template set (web_template "nginx:1") in
  let new := with_template set (web_template "nginx:2") in
  let pods := [web_pod 3 "web-a" PodFailed []; web_pod 2 "web-a" PodPending []] in
  ops_of (web_pass set pods) = [("create", "web-0"); ("create", "web-1"); ("delete", "web-3"); ("delete", "web-2")] ∧
  ∃ ops status,
    update_step "web-b" 0 (imap (burst_pod (H0 := range_in_order) old new "web-a" "web-b") (replicas_of (H0 := range_in_order) set old new "web-a" "web-b" pods)) ops ∧
    ∀ w, updateStatefulSet (H := log_control) (H0 := range_in_order) (H1 := binary_patches) (H2 := sort_by_ordinal)
           set (web_revisions "nginx:1" "web-a") (web_revisions "nginx:2" "web-b") 0 pods w =
         (perform_all (H := log_control) set new
            (concat (imap (burst_ops (H0 := range_in_order) set old new "web-a" "web-b") (replicas_of (H0 := range_in_order) set old new "web-a" "web-b" pods)) ++
             (OpDelete <$> filter (λ p, isTerminating p = false) (reverse (condemned_of (H2 := sort_by_ordinal) set pods))) ++ ops) ≫= λ _, mret status) w.
Proof.
  split; [vm_compute; reflexivity|].
  apply (updateStatefulSet_parallel (H := log_control) (H0 := range_in_order) (H1 := binary_patches) (H2 := sort_by_ordinal)
    (parallel_web 2) _ _ (web_revisions "nginx:1" "web-a") (web_revisions "nginx:2" "web-b"));
    [vm_compute; reflexivity|vm_compute; reflexivity|reflexivity|reflexivity|vm_compute; split; discriminate|vm_compute; discriminate|].
  repeat constructor.
Defined.

(** ** Where the pass does not do what it means to *)

(** The largest ordinal is not below the bound that the search for the first unhealthy pod
    starts from; when no other pod is unhealthy the pass dereferences a nil pointer. *)
Example largest_ordinal_crashes :
  (web_pass (ordered_web 2) (web_pod 2147483647 "web-a" PodPending [] :: two_pods)).1 = Crash.
Proof. vm_compute. reflexivity. Qed.

(** Two pods beyond the count that have failed: the pass waits for the second to become
    ready, which a failed pod does not, and never deletes either. *)
Example failed_condemned_block :
  let pods := two_pods ++ [web_pod 2 "web-a" PodFailed []; web_pod 3 "web-a" PodFailed []] in
  ops_of (web_pass (ordered_web 2) pods) = [].
Proof. vm_compute. reflexivity. Qed.

(** The deletion for an update takes one from the pods at the current revision even when
    the pod was at another one. *)
Example current_replicas_negative :
  let pods := [web_pod 0 "web-c" PodRunning [ready]; web_pod 1 "web-c" PodRunning [ready]] in
  ∃ status log, web_pass (ordered_web 2) pods = (Ret status, log) ∧ stCurrent status = -1.
Proof. vm_compute. eauto. Qed.
