(* ===== verification/StatefulSetProgress.v ===== *)
(** * Stateful sets: rollouts

    A cluster in memory that does with pods and claims what the API server does: a pod that is
    created is pending, and a pod that is deleted terminates first, unless it has already
    failed. On it the ordered pass of [StatefulSetControl.v], with the real control of pods,
    runs between the steps of the kubelets, which start and remove pods one at a time and in
    any order. The environment is an assumption: the server refuses nothing, the informers are
    up to date when a pass starts, and no pod fails by itself. Whatever the order of passes
    and kubelets, the steps that change a pod come to an end, and then the pods are those that
    the set asks for. *)

From S2P Require Import Prelude GoStrings GoStrconv GoInt Store LabelSelector Validation DeploymentScaling SchedulingQueue ControllerRef ClientMonad ControllerHistory StatefulSet StatefulSetControl StatefulSetSpec.

(** ** The cluster *)

Record Cluster : Type := mkCluster {
  clPods : list SPod;
  clClaims : list Claim;
  clSets : list SSet;
  clRevisions : RevisionList;
}.

Definition on_pods (f : list SPod → list SPod) (w : Cluster) : Cluster := mkCluster (f (clPods w)) (clClaims w) (clSets w) (clRevisions w).
Definition on_claims (f : list Claim → list Claim) (w : Cluster) : Cluster := mkCluster (clPods w) (f (clClaims w)) (clSets w) (clRevisions w).
Definition on_sets (f : list SSet → list SSet) (w : Cluster) : Cluster := mkCluster (clPods w) (clClaims w) (f (clSets w)) (clRevisions w).
Definition on_revisions {A} (f : RevisionList → A * RevisionList) (w : Cluster) : A * Cluster :=
  let (a, l) := f (clRevisions w) in (a, mkCluster (clPods w) (clClaims w) (clSets w) l).

Definition is_pod (ns name : string) (p : SPod) : bool := bool_decide (spNamespace p = ns) && bool_decide (spName p = name).
Definition is_claim (ns name : string) (c : Claim) : bool := bool_decide (cNamespace c = ns) && bool_decide (cName c = name).
Definition is_set (ns name : string) (s : SSet) : bool := bool_decide (ssNamespace s = ns) && bool_decide (ssName s = name).

Definition terminated (p : SPod) : bool := bool_decide (spPhase p = Some PodFailed) || bool_decide (spPhase p = Some PodSucceeded).
Definition mark_deleted (p : SPod) : SPod :=
  mkSPod (spNamespace p) (spName p) (spGenerateName p) (spUID p) (spVersion p) (spLabels p) (spAnnotations p) (spFinalizers p)
    (spOwners p) true (spSpec p) (spPhase p) (spConditions p).

#[global] Instance Cluster_revisions : RevisionClient Cluster := {
  revisions_cached w ns := revisions_cached (clRevisions w) ns;
  revisions_Create ns r := on_revisions (revisions_Create ns r);
  revisions_Get ns name := on_revisions (revisions_Get ns name);
  revisions_Update ns r := on_revisions (revisions_Update ns r);
  revisions_Delete ns name := on_revisions (revisions_Delete ns name);
  revisions_Patch ns name p := on_revisions (revisions_Patch ns name p);
}.

#[global] Instance Cluster_client : Client Cluster := {
  pods_cached w ns := filter (λ p, spNamespace p = ns) (clPods w);
  sets_cached w ns := filter (λ s, ssNamespace s = ns) (clSets w);
  claims_Lister_Get ns name w := match find (is_claim ns name) (clClaims w) with Some c => Ok c | None => Err StatusNotFound end;
  pods_Create ns p w :=
    match find (is_pod ns (spName p)) (clPods w) with
    | Some _ => (Err StatusAlreadyExists, w)
    | None => let p := in_phase p PodPending [] false in (Ok p, on_pods (λ l, l ++ [p]) w)
    end;
  pods_Update ns p w :=
    match find (is_pod ns (spName p)) (clPods w) with
    | Some _ => (Ok p, on_pods (fmap (λ q, if is_pod ns (spName p) q then p else q)) w)
    | None => (Err StatusNotFound, w)
    end;
  pods_Delete ns name w :=
    match find (is_pod ns name) (clPods w) with
    | None => (Some StatusNotFound, w)
    | Some p =>
        (None, if terminated p then on_pods (filter (λ q, is_pod ns name q = false)) w
               else on_pods (fmap (λ q, if is_pod ns name q then mark_deleted q else q)) w)
    end;
  claims_Create ns c w :=
    match find (is_claim ns (cName c)) (clClaims w) with
    | Some _ => (Err StatusAlreadyExists, w)
    | None => (Ok c, on_claims (λ l, l ++ [c]) w)
    end;
  sets_UpdateStatus ns s w :=
    match find (is_set ns (ssName s)) (clSets w) with
    | Some _ => (Ok s, on_sets (fmap (λ x, if is_set ns (ssName s) x then with_status x (ssStatus s) else x)) w)
    | None => (Err StatusNotFound, w)
    end;
  sets_Get ns name w := match find (is_set ns name) (clSets w) with Some s => Ok s | None => Err StatusNotFound end;
  pods_Patch w p := None;
  pods_patched ps w := w;
  message e := "error";
}.

(** What the kubelets do: one starts a pod that has not ended, or removes one that
    terminates. *)
Inductive kubelet : list SPod → list SPod → Prop :=
  | kubelet_starts l1 p l2 : isTerminating p = false → terminated p = false → isHealthy p = false →
      kubelet (l1 ++ p :: l2) (l1 ++ in_phase p PodRunning [ready] false :: l2)
  | kubelet_removes l1 p l2 : isTerminating p = true → kubelet (l1 ++ p :: l2) (l1 ++ l2).

(** The first step that a kubelet can take. *)
Fixpoint kubelet_once (pods : list SPod) : option (list SPod) :=
  match pods with
  | [] => None
  | p :: pods =>
      if isTerminating p then Some pods
      else if terminated p || isHealthy p then cons p <$> kubelet_once pods
      else Some (in_phase p PodRunning [ready] false :: pods)
  end.

Section steps.
Context `{RangeClaims} `{PatchCodec} `{SortOrdinal}.
Context (set : SSet) (current update : ControllerRevision) (collisionCount : Z).

(** A pass over the pods of the namespace. *)
Definition pass (w : Cluster) : outcome SSStatus * Cluster :=
  updateStatefulSet set current update collisionCount (pods_cached w (ssNamespace set)) w.

(** Passes and kubelets in any order, with the number of steps that changed a pod. *)
Inductive steps (w : Cluster) : nat → Cluster → Prop :=
  | steps_none : steps w 0 w
  | steps_idle n w' : steps w n w' → clPods (pass w').2 = clPods w' → steps w n (pass w').2
  | steps_pass n w' : steps w n w' → clPods (pass w').2 ≠ clPods w' → steps w (S n) (pass w').2
  | steps_kubelet n w' pods' : steps w n w' → kubelet (clPods w') pods' → steps w (S n) (on_pods (λ _, pods') w').

(** No kubelet has anything to do, and a pass changes nothing. *)
Definition at_rest (w : Cluster) : Prop := (∀ pods', ¬ kubelet (clPods w) pods') ∧ clPods (pass w).2 = clPods w.
End steps.

(** ** Lists *)

Lemma NoDup_fmap_elem {A B} (f : A → B) (l : list A) x y : NoDup (f <$> l) → x ∈ l → y ∈ l → f x = f y → x = y.
Proof.
  induction l as [|z l IH]; intros Hnd Hx Hy Hf; [by apply not_elem_of_nil in Hx|].
  rewrite fmap_cons in Hnd. apply NoDup_cons in Hnd as [Hz Hnd]. apply elem_of_cons in Hx, Hy.
  destruct Hx as [->|Hx], Hy as [->|Hy]; [done|destruct Hz; rewrite Hf; by apply list_elem_of_fmap_2|destruct Hz; rewrite <- Hf; by apply list_elem_of_fmap_2|].
  by apply IH.
Qed.

Lemma list_filter_all {A} (P : A → Prop) `{∀ x, Decision (P x)} (l : list A) : (∀ x, x ∈ l → P x) → filter P l = l.
Proof.
  induction l as [|x l IH]; intros Hl; [done|]. rewrite filter_cons_True by (apply Hl; set_solver). f_equal. apply IH. set_solver.
Qed.

Lemma list_filter_iff_strong {A} (P Q : A → Prop) `{∀ x, Decision (P x), ∀ x, Decision (Q x)} (l : list A) :
  (∀ x, x ∈ l → P x ↔ Q x) → filter P l = filter Q l.
Proof.
  induction l as [|x l IH]; intros Hl; [done|]. rewrite !filter_cons.
  assert (P x ↔ Q x) as Hx by (apply Hl; set_solver). rewrite IH by (intros y Hy; apply Hl; set_solver).
  do 2 case_decide; tauto.
Qed.

Lemma NoDup_fmap_filter {A B} (f : A → B) (P : A → Prop) `{∀ x, Decision (P x)} (l : list A) : NoDup (f <$> l) → NoDup (f <$> filter P l).
Proof.
  intros Hnd. induction l as [|x l IH]; [done|]. rewrite fmap_cons in Hnd. apply NoDup_cons in Hnd as [Hx Hnd]. rewrite filter_cons. case_decide; [|by apply IH].
  rewrite fmap_cons. apply NoDup_cons. split; [|by apply IH]. intros (y & Hy & Hin)%list_elem_of_fmap. apply Hx.
  rewrite Hy. apply list_elem_of_fmap_2. by apply list_elem_of_filter in Hin as [_ ?].
Qed.

(** ** Operations on the cluster *)

Section operations.
Context `{RangeClaims} (set : SSet).

Lemma create_claims_ok (claims : list Claim) (w : Cluster) : ∃ w', create_claims claims w = (Ret [], w') ∧ clPods w' = clPods w.
Proof.
  revert w. induction claims as [|c claims IH]; intros w; [by exists w|]. cbn [create_claims]. unfold create_claim.
  unfold mbind, M_bind, look, call. cbn. destruct (find (is_claim _ _) (clClaims w)) as [x|] eqn:Hf; cbn.
  - destruct (IH w) as (w' & -> & Hw). by exists w'.
  - rewrite Hf. cbn. destruct (IH (on_claims (λ l, l ++ [c]) w)) as (w' & -> & Hw). by exists w'.
Qed.

Lemma create_pod_ok (pod : SPod) (w : Cluster) : find (is_pod (ssNamespace set) (spName pod)) (clPods w) = None →
  ∃ w', real_CreateStatefulPod set pod w = (Ret None, w') ∧ clPods w' = clPods w ++ [in_phase pod PodPending [] false].
Proof.
  intros Hf. unfold real_CreateStatefulPod, createPersistentVolumeClaims, mbind, M_bind.
  destruct (create_claims_ok (snd <$> range_claims (getPersistentVolumeClaims set pod)) w) as (w1 & -> & Hw1).
  cbn. unfold call. cbn. rewrite Hw1, Hf. eexists. split; [done|]. cbn. by rewrite Hw1.
Qed.

Lemma delete_pod_ok (pod : SPod) (w : Cluster) : find (is_pod (ssNamespace set) (spName pod)) (clPods w) = Some pod →
  ∃ w', real_DeleteStatefulPod set pod w = (Ret None, w') ∧
    clPods w' = if terminated pod then filter (λ q, is_pod (ssNamespace set) (spName pod) q = false) (clPods w)
                else (λ q, if is_pod (ssNamespace set) (spName pod) q then mark_deleted q else q) <$> clPods w.
Proof.
  intros Hf. unfold real_DeleteStatefulPod, call. cbn. rewrite Hf. eexists. split; [done|]. by destruct (terminated pod).
Qed.
End operations.

(** ** The pods of a set *)

Section formed.
Context `{RangeClaims} `{PatchCodec} `{SortOrdinal}.
Context (set : SSet).

Definition member (p : SPod) : Prop := identityMatches set p = true ∧ storageMatches set p = true ∧ getOrdinal p < MaxInt32.

(** The server gives every pod a phase, and a pod of a stateful set does not succeed. *)
Definition viable (p : SPod) : Prop := isCreated p = true ∧ spPhase p ≠ Some PodSucceeded.

Definition formed (pods : list SPod) : Prop := Forall (λ p, member p ∧ viable p) pods ∧ NoDup (getOrdinal <$> pods).

Lemma member_ordinal p : member p → 0 ≤ getOrdinal p < MaxInt32 ∧ spName p = getPodName set (getOrdinal p) ∧ spNamespace p = ssNamespace set.
Proof.
  intros [(n & Hn & Hp & Hns & _)%identityMatches_iff [_ Hm]]. rewrite (getOrdinal_pod_name set p n) in * by done. split_and!; [lia|lia|done..].
Qed.

Lemma is_pod_member p q : member p → member q → is_pod (ssNamespace set) (spName p) q = bool_decide (getOrdinal q = getOrdinal p).
Proof.
  intros (Hp & Hpn & Hpns)%member_ordinal (Hq & Hqn & Hqns)%member_ordinal. unfold is_pod. rewrite Hqns, bool_decide_eq_true_2 by done. cbn.
  apply bool_decide_ext. rewrite Hpn, Hqn. split; [|by intros ->]. unfold MaxInt32 in *. apply getPodName_inj; lia.
Qed.

Lemma formed_member pods p : formed pods → p ∈ pods → member p.
Proof. intros [Hf _] Hp. by apply (proj1 (Forall_forall _ _) Hf) in Hp as []. Qed.

Lemma formed_cached w : formed (clPods w) → pods_cached w (ssNamespace set) = clPods w.
Proof.
  intros Hs. cbn. apply list_filter_all. intros p Hp. by apply (formed_member _ _ Hs), member_ordinal in Hp as (_ & _ & ?).
Qed.

(** The pod with an ordinal. *)
Lemma pod_at_Some pods k p : NoDup (getOrdinal <$> pods) → pod_at pods k = Some p ↔ p ∈ pods ∧ getOrdinal p = Z.of_nat k.
Proof.
  intros Hnd. split.
  - intros Hl%last_Some_elem_of. by apply list_elem_of_filter in Hl as [? ?].
  - intros [Hp Hk]. unfold pod_at. destruct (last _) as [q|] eqn:Hl.
    + apply last_Some_elem_of, list_elem_of_filter in Hl as [Hq Hin]. f_equal. by eapply (NoDup_fmap_elem getOrdinal pods); [| | |congruence].
    + apply last_None in Hl. exfalso. by eapply (not_elem_of_nil p); rewrite <- Hl; apply list_elem_of_filter.
Qed.

Lemma pod_at_None pods k : pod_at pods k = None ↔ ∀ p, p ∈ pods → getOrdinal p ≠ Z.of_nat k.
Proof.
  unfold pod_at. rewrite last_None, list_nil_iff. setoid_rewrite list_elem_of_filter. naive_solver.
Qed.
Lemma find_pod pods p : formed pods → p ∈ pods → find (is_pod (ssNamespace set) (spName p)) pods = Some p.
Proof.
  intros Hs Hp. destruct (find _ pods) as [q|] eqn:Hf.
  - apply find_some in Hf as [Hq Hi]. apply list_elem_of_In in Hq. rewrite is_pod_member in Hi by (by eapply formed_member).
    apply bool_decide_eq_true in Hi. f_equal. by eapply (NoDup_fmap_elem getOrdinal pods); [apply Hs|..].
  - eapply find_none in Hf; [|by apply list_elem_of_In]. rewrite is_pod_member, bool_decide_eq_true_2 in Hf by (done || by eapply formed_member). done.
Qed.

Lemma find_no_pod pods p : formed pods → member p → (∀ q, q ∈ pods → getOrdinal q ≠ getOrdinal p) →
  find (is_pod (ssNamespace set) (spName p)) pods = None.
Proof.
  intros Hs Hp Hno. destruct (find _ pods) as [q|] eqn:Hf; [|done].
  apply find_some in Hf as [Hq Hi]. apply list_elem_of_In in Hq. rewrite is_pod_member in Hi by (done || by eapply formed_member).
  apply bool_decide_eq_true in Hi. by destruct (Hno q Hq).
Qed.

Definition without (k : Z) (pods : list SPod) : list SPod := filter (λ q, getOrdinal q ≠ k) pods.

Lemma without_filter pods p : formed pods → p ∈ pods →
  filter (λ q, is_pod (ssNamespace set) (spName p) q = false) pods = without (getOrdinal p) pods.
Proof.
  intros Hs Hp. apply list_filter_iff_strong. intros q Hq. rewrite is_pod_member, bool_decide_eq_false by (by eapply formed_member). done.
Qed.

Lemma formed_without k pods : formed pods → formed (without k pods).
Proof.
  intros [Hf Hnd]. split; [|by apply NoDup_fmap_filter].
  apply Forall_forall. intros p [_ Hp]%list_elem_of_filter. by apply (proj1 (Forall_forall _ _) Hf).
Qed.

Lemma formed_snoc pods q : formed pods → member q → viable q → (∀ p, p ∈ pods → getOrdinal p ≠ getOrdinal q) → formed (pods ++ [q]).
Proof.
  intros [Hf Hnd] Hm Hq Hno. split; [apply Forall_app; by split; [|constructor]|].
  rewrite fmap_app. apply NoDup_app. split_and!; [done| |apply NoDup_singleton].
  intros x (p & -> & Hp)%list_elem_of_fmap Hx%list_elem_of_singleton. by destruct (Hno p Hp).
Qed.
End formed.

(** ** What a pass does *)

Section rollout.
Context `{RangeClaims} `{PatchCodec} `{SortOrdinal}.
Context (set currentSet updateSet : SSet) (current update : ControllerRevision) (collisionCount partition : Z).
Context (Hcurrent : ApplyRevision set current = Ok currentSet) (Hupdate : ApplyRevision set update = Ok updateSet).
Context (Hdeleting : ssDeleting set = false) (Hordered : allowsBurst set = false) (Hreplicas : 0 ≤ ssReplicas set ≤ MaxInt32).
Context (Hstrategy : ssStrategy set ≠ OnDeleteStatefulSetStrategyType) (Hrolling : ssRollingUpdate set = Some partition) (Hpartition : 0 ≤ partition).

#[local] Notation cur := (crName current).
#[local] Notation upd := (crName update).
#[local] Notation count := (replica_count set).
#[local] Notation fresh := (fresh_pod currentSet updateSet cur upd).
#[local] Notation replica := (replica_at currentSet updateSet cur upd).

(** The ordinals below the count that have no pod, and those whose pod is not healthy. *)
Definition missing (pods : list SPod) (k : nat) : Prop := (k < count)%nat ∧ pod_at pods k = None.
Definition unavailable (pods : list SPod) (k : nat) : Prop := match pod_at pods k with Some p => isHealthy p = false | None => True end.
Definition all_available (pods : list SPod) : Prop := ∀ k, (k < count)%nat → ¬ unavailable pods k.

(** The pod as it is created, and the pods with one of them terminating. *)
Definition pending (k : nat) : SPod := in_phase (fresh k) PodPending [] false.
Definition terminate (k : Z) (pods : list SPod) : list SPod := (λ q, if bool_decide (getOrdinal q = k) then mark_deleted q else q) <$> pods.

(** A pod that a rolling update replaces. *)
Definition outdated (p : SPod) : Prop := partition ≤ getOrdinal p ∧ getPodRevision p ≠ upd.

(** What the set asks for: a healthy pod for every ordinal below the count and no other, at
    the update revision from the partition on. *)
Definition complete (pods : list SPod) : Prop :=
  (∀ p, p ∈ pods → isHealthy p = true ∧ 0 ≤ getOrdinal p < ssReplicas set ∧ (partition ≤ getOrdinal p → getPodRevision p = upd)) ∧
  ∀ k, (k < count)%nat → ∃ p, p ∈ pods ∧ getOrdinal p = Z.of_nat k.

(** A pod that a kubelet will start or remove. *)
Definition awaited (p : SPod) : Prop := isTerminating p = true ∨ isHealthy p = false ∧ isFailed p = false.

Inductive pass_step (pods : list SPod) : list SPod → Prop :=
  | pass_creates k : missing pods k → pass_step pods (pods ++ [pending k])
  | pass_recreates k p : p ∈ pods → getOrdinal p = Z.of_nat k → (k < count)%nat → isFailed p = true →
      pass_step pods (without (Z.of_nat k) pods ++ [pending k])
  | pass_scales c : all_available pods → c ∈ pods → ssReplicas set ≤ getOrdinal c → isTerminating c = false → isFailed c = false →
      pass_step pods (terminate (getOrdinal c) pods)
  | pass_removes c : all_available pods → c ∈ pods → ssReplicas set ≤ getOrdinal c → isTerminating c = false → isFailed c = true →
      pass_step pods (without (getOrdinal c) pods)
  | pass_updates p : all_available pods → p ∈ pods → getOrdinal p < ssReplicas set → isHealthy p = true → outdated p →
      pass_step pods (terminate (getOrdinal p) pods)
  | pass_waits p : p ∈ pods → awaited p → pass_step pods pods
  | pass_blocked p q : p ∈ pods → q ∈ pods → getOrdinal p ≠ getOrdinal q → isFailed p = true → isFailed q = true →
      ssReplicas set ≤ getOrdinal p → ssReplicas set ≤ getOrdinal q → pass_step pods pods
  | pass_completes : complete pods → pass_step pods pods.

Lemma fresh_facts k : (k < count)%nat →
  member set (pending k) ∧ getOrdinal (pending k) = Z.of_nat k ∧ ¬ outdated (pending k) ∧
  getOrdinal (fresh k) = Z.of_nat k ∧ member set (fresh k) ∧ isCreated (fresh k) = false.
Proof.
  intros Hk. destruct (ApplyRevision_inv _ _ _ Hcurrent) as (t1 & Ht1). destruct (ApplyRevision_inv _ _ _ Hupdate) as (t2 & Ht2).
  unfold replica_count in Hk. assert (Hk' : 0 ≤ Z.of_nat k < 2 ^ 31) by (unfold MaxInt32 in *; lia).
  destruct (new_pod_member set t1 t2 cur upd (Z.of_nat k) Hk') as (Ho & Hi & Hs & _ & Hc & _ & Hr & _).
  rewrite <- Ht1, <- Ht2 in *. assert (Hord : getOrdinal (fresh k) = Z.of_nat k) by (unfold getOrdinal, fresh_pod, new_pod; by rewrite Ho).
  assert (Hm : member set (fresh k)) by (split_and!; [exact Hi|exact Hs|rewrite Hord; lia]).
  split_and!; [exact Hm|exact Hord| |exact Hord|exact Hm|exact Hc]. intros [Hp Hne]. apply Hne.
  change (getPodRevision (pending k)) with (getPodRevision (fresh k)). change (getOrdinal (pending k)) with (getOrdinal (fresh k)) in Hp. rewrite Hord in Hp.
  assert (getPodRevision (fresh k) = if at_current set (Z.of_nat k) then cur else upd) as -> by exact Hr. unfold at_current. by rewrite Hrolling, (proj2 (Z.ltb_ge _ _)) by done.
Qed.

Section one_pass.
Context (w : Cluster) (Hformed : formed set (clPods w)).
#[local] Notation pods := (clPods w).

Lemma formed_facts p : p ∈ pods → member set p ∧ isCreated p = true ∧ spPhase p ≠ Some PodSucceeded.
Proof. intros Hp. destruct Hformed as [Hf _]. by destruct (proj1 (Forall_forall _ _) Hf p Hp) as (? & ? & ?). Qed.

(** A replica is a pod of the cluster, or one that does not exist yet. *)
Lemma replica_cases k :
  (pod_at pods k = None ∧ replica pods k = fresh k) ∨
  ∃ p, pod_at pods k = Some p ∧ replica pods k = p ∧ p ∈ pods ∧ getOrdinal p = Z.of_nat k.
Proof.
  unfold replica_at. destruct (pod_at pods k) as [p|] eqn:Hp; [right|by left]. exists p.
  apply pod_at_Some in Hp as [Hin Hk]; [|apply Hformed]. by split_and!.
Qed.

Lemma healthy_replica k : (k < count)%nat → isHealthy (replica pods k) = true →
  ∃ p, pod_at pods k = Some p ∧ replica pods k = p ∧ p ∈ pods ∧ getOrdinal p = Z.of_nat k.
Proof.
  intros Hk Hh. destruct (replica_cases k) as [[_ Hr]|?]; [|done].
  rewrite Hr in Hh. destruct (healthy_facts _ Hh) as (_ & Hc & _). destruct (fresh_facts k Hk) as (_ & _ & _ & _ & _ & Hf). congruence.
Qed.

(** Pods of the cluster need no repair. *)
Lemma no_repairs n : (n ≤ count)%nat → all_healthy (replica pods <$> seq 0 n) → repairs set (replica pods <$> seq 0 n) = [].
Proof.
  intros Hn Hh. unfold repairs. assert (filter (λ p, is_repaired set p = true) (replica pods <$> seq 0 n) = []) as ->; [|done].
  apply list_nil_iff. intros p [Hr Hp]%list_elem_of_filter. pose proof (proj1 (Forall_forall _ _) Hh p Hp) as Hph. cbn in Hph.
  apply list_elem_of_fmap in Hp as (k & -> & Hk%elem_of_seq).
  destruct (healthy_replica k ltac:(lia) Hph) as (p & _ & Hrp & Hin & _). destruct (formed_facts p Hin) as ((Hi & Hs & _) & _). rewrite Hrp in Hr.
  unfold is_repaired in Hr. rewrite Hi, Hs in Hr. done.
Qed.

Lemma run_op op w1 w2 : perform set updateSet op w1 = (Ret None, w2) → check (perform set updateSet op) w1 = (Ret (), w2).
Proof. intros Hop. unfold check, mbind, M_bind. by rewrite Hop. Qed.

(** The pods after the operations. *)
Definition results (ops : list pod_op) (pods' : list SPod) : Prop := clPods (perform_all set updateSet ops w).2 = pods'.

Lemma run_create k : missing pods k → results [OpCreate (fresh k)] (pods ++ [pending k]).
Proof.
  intros [Hk Hnone]. destruct (fresh_facts k Hk) as (_ & _ & _ & Hord & Hm & _).
  destruct (create_pod_ok set (fresh k) w) as (w1 & Hc & Hw1).
  { apply find_no_pod; [done..|]. intros q Hq. rewrite Hord. by apply (proj1 (pod_at_None _ _) Hnone). }
  unfold results. by rewrite (M_eq_at (perform_all_singleton set updateSet (OpCreate (fresh k)))), (run_op (OpCreate (fresh k)) w w1 Hc).
Qed.

(** A failed pod goes at once. *)
Lemma delete_failed p : p ∈ pods → isFailed p = true → ∃ w1, real_DeleteStatefulPod set p w = (Ret None, w1) ∧ clPods w1 = without (getOrdinal p) pods.
Proof.
  intros Hp Hf. destruct (delete_pod_ok set p w) as (w1 & Hd & Hw1); [by apply find_pod|]. exists w1. split; [done|].
  assert (Ht : terminated p = true) by (unfold terminated, isFailed in *; by rewrite Hf). by rewrite Ht, (without_filter set) in Hw1.
Qed.

Lemma run_recreate k p : p ∈ pods → getOrdinal p = Z.of_nat k → (k < count)%nat → isFailed p = true →
  results [OpDelete p; OpCreate (fresh k)] (without (Z.of_nat k) pods ++ [pending k]).
Proof.
  intros Hp Hk Hkn Hf. destruct (fresh_facts k Hkn) as (_ & _ & _ & Hord & Hm & _). destruct (delete_failed p Hp Hf) as (w1 & Hd & Hw1). rewrite Hk in Hw1.
  destruct (create_pod_ok set (fresh k) w1) as (w2 & Hc & Hw2).
  { rewrite Hw1. apply find_no_pod; [by apply formed_without|done|]. intros q [Hq _]%list_elem_of_filter. by rewrite Hord. }
  assert (Hops : perform_all set updateSet [OpDelete p; OpCreate (fresh k)] w = (Ret (), w2)).
  { unfold perform_all. cbn [for_each]. unfold mbind, M_bind. by rewrite (run_op (OpDelete p) w w1 Hd), (run_op (OpCreate (fresh k)) w1 w2 Hc). }
  unfold results. rewrite Hops. cbn [snd]. by rewrite Hw2, Hw1.
Qed.

Lemma run_remove p : p ∈ pods → isFailed p = true → results [OpDelete p] (without (getOrdinal p) pods).
Proof.
  intros Hp Hf. destruct (delete_failed p Hp Hf) as (w1 & Hd & Hw1).
  unfold results. by rewrite (M_eq_at (perform_all_singleton set updateSet (OpDelete p))), (run_op (OpDelete p) w w1 Hd).
Qed.

Lemma run_delete p : p ∈ pods → isFailed p = false → results [OpDelete p] (terminate (getOrdinal p) pods).
Proof.
  intros Hp Hh. destruct (delete_pod_ok set p w) as (w1 & Hd & Hw1); [by apply find_pod|].
  assert (terminated p = false) as Ht.
  { destruct (formed_facts p Hp) as (_ & _ & Hs). unfold terminated, isFailed in *. by rewrite Hh, bool_decide_eq_false_2. }
  rewrite Ht in Hw1. unfold results. rewrite (M_eq_at (perform_all_singleton set updateSet (OpDelete p))), (run_op (OpDelete p) w w1 Hd).
  cbn [snd]. rewrite Hw1. unfold terminate.
  apply list_fmap_ext. intros i q Hq. apply list_elem_of_lookup_2 in Hq. by rewrite (is_pod_member set) by (by eapply formed_member).
Qed.

Lemma pod_ordinal p : p ∈ pods → 0 ≤ getOrdinal p < MaxInt32.
Proof. intros Hp. by apply (formed_member set _ _ Hformed), member_ordinal in Hp as (? & _). Qed.

Lemma all_replicas_healthy : all_healthy (replicas_of set currentSet updateSet cur upd pods) →
  all_available pods ∧ ∀ p, p ∈ pods → getOrdinal p < ssReplicas set → isHealthy p = true.
Proof.
  intros Hh. assert (Hk : ∀ k, (k < count)%nat → isHealthy (replica pods k) = true).
  { intros k Hk. apply (proj1 (Forall_forall _ _) Hh). apply list_elem_of_fmap_2, elem_of_seq. lia. }
  split.
  - intros k Hkn. destruct (healthy_replica k Hkn (Hk k Hkn)) as (p & Hp & Hr & _). unfold unavailable. rewrite Hp. specialize (Hk k Hkn). congruence.
  - intros p Hp Hlt. pose proof (pod_ordinal p Hp). specialize (Hk (Z.to_nat (getOrdinal p))). unfold replica_at in Hk.
    rewrite (proj2 (pod_at_Some pods _ p (proj2 Hformed))) in Hk by (split; [done|lia]). apply Hk. unfold replica_count. lia.
Qed.

Lemma condemned_elem p : p ∈ condemned_of set pods ↔ p ∈ pods ∧ ssReplicas set ≤ getOrdinal p.
Proof. unfold condemned_of. rewrite sort_ordinal_perm, list_elem_of_filter. tauto. Qed.

Lemma condemned_distinct rest c q : condemned_of set pods = rest ++ [c] → q ∈ rest → getOrdinal c ≠ getOrdinal q.
Proof.
  intros Hc Hq Heq. assert (NoDup (getOrdinal <$> condemned_of set pods)) as Hnd.
  { unfold condemned_of. rewrite sort_ordinal_perm. apply (NoDup_fmap_filter getOrdinal), Hformed. }
  rewrite Hc, fmap_app, NoDup_app in Hnd. destruct Hnd as (_ & Hnd & _). apply (Hnd (getOrdinal q)); [by apply list_elem_of_fmap_2|].
  rewrite <- Heq. by apply list_elem_of_singleton.
Qed.

Lemma no_condemned : condemned_of set pods = [] → ∀ p, p ∈ pods → getOrdinal p < ssReplicas set.
Proof.
  intros Hc p Hp. destruct (decide (getOrdinal p < ssReplicas set)); [done|]. assert (Hpc : p ∈ condemned_of set pods) by (apply condemned_elem; split; [done|lia]).
  rewrite Hc in Hpc. by apply not_elem_of_nil in Hpc.
Qed.

(** The last pod beyond the count is waited for. *)
Lemma scale_waits rest c : condemned_of set pods = rest ++ [c] → isTerminating c = true ∨ isRunningAndReady c = false ∧ ¬ all_healthy rest → pass_step pods pods.
Proof.
  intros Hc Hw. assert (∀ p, p ∈ rest ++ [c] → p ∈ pods ∧ ssReplicas set ≤ getOrdinal p) as Hin by (intros p; rewrite <- Hc; apply condemned_elem).
  destruct (Hin c) as [Hcin Hcn]; [set_solver|]. destruct Hw as [Ht|[Hr Hrest]]; [apply (pass_waits _ c); [done|by left]|].
  assert (isHealthy c = false) as Hch by (unfold isHealthy; by rewrite Hr).
  destruct (isFailed c) eqn:Hcf; [|apply (pass_waits _ c); [done|by right]].
  apply not_Forall_Exists in Hrest; [|intros ?; apply _]. apply Exists_exists in Hrest as (q & Hq & Hqh). apply not_true_is_false in Hqh.
  destruct (Hin q) as [Hqin Hqn]; [set_solver|]. destruct (isFailed q) eqn:Hqf; [|apply (pass_waits _ q); [done|by right]].
  apply (pass_blocked _ c q); try done. by eapply condemned_distinct.
Qed.

Lemma ops_step ops status : ordered_pass set currentSet updateSet cur upd pods collisionCount ops status →
  ∃ pods', results ops pods' ∧ pass_step pods pods'.
Proof.
  assert (Hpart : partition_of set = partition) by (unfold partition_of; by rewrite Hrolling).
  destruct 1 as [|k _ Hk Hh Hf|k _ Hk Hh Hc|k _ Hk Hh Hu Hc Hf|rest c _ Hh Hc Ht Hr|rest c _ Hh Hc Hw|k _ Hh Hc _ Hk Hp Hr Hu|_ Hh Hc Hs].
  - congruence.
  - rewrite no_repairs by (done || lia). cbn [app]. destruct (replica_cases k) as [[Hn Hrep]|(p & _ & Hrep & Hin & Hord)].
    + rewrite Hrep in Hf. destruct (fresh_facts k Hk) as (_ & _ & _ & _ & _ & Hcr). unfold isFailed, isCreated in *. to_prop. congruence.
    + subst fresh. rewrite Hrep in *. eexists. split; [by apply run_recreate|]. by apply (pass_recreates _ k p).
  - rewrite no_repairs by (done || lia). cbn [app]. destruct (replica_cases k) as [[Hn Hrep]|(p & _ & Hrep & Hin & Hord)].
    + rewrite Hrep. eexists. split; [by apply run_create|]. by apply pass_creates.
    + destruct (formed_facts p Hin) as (_ & Hcr & _). rewrite Hrep, Hcr in Hc. done.
  - rewrite no_repairs by (done || lia). destruct (replica_cases k) as [[Hn Hrep]|(p & _ & Hrep & Hin & Hord)]; rewrite Hrep in *.
    + destruct (fresh_facts k Hk) as (_ & _ & _ & _ & _ & Hcr). congruence.
    + exists pods. split; [done|]. apply (pass_waits _ p); [done|by right].
  - unfold replicas_of in *. rewrite no_repairs by done. cbn [app]. destruct (all_replicas_healthy Hh) as [Hall _].
    assert (c ∈ condemned_of set pods) as [Hin Hn]%condemned_elem by (rewrite Hc; set_solver). destruct (isFailed c) eqn:Hcf.
    + eexists. split; [by apply run_remove|]. by apply pass_removes.
    + eexists. split; [by apply run_delete|]. by apply pass_scales.
  - unfold replicas_of in *. rewrite no_repairs by done. exists pods. split; [done|]. by eapply scale_waits.
  - unfold replicas_of in *. rewrite no_repairs by done. cbn [app]. destruct (all_replicas_healthy Hh) as [Hall Hhealthy].
    assert (Hkh : isHealthy (replica pods k) = true) by (apply (proj1 (Forall_forall _ _) Hh), list_elem_of_fmap_2, elem_of_seq; lia).
    destruct (healthy_replica k Hk Hkh) as (p & _ & Hrep & Hin & Hord). rewrite Hrep in *.
    eexists. split; [apply run_delete; [done|by destruct (healthy_facts p Hkh)]|]. apply pass_updates; [done|done|by apply no_condemned|done|]. split; [lia|done].
  - unfold replicas_of in *. rewrite no_repairs by done. cbn [app]. destruct (all_replicas_healthy Hh) as [Hall Hhealthy].
    exists pods. split; [done|]. apply pass_completes. pose proof (no_condemned Hc) as Hlt. split.
    + intros q Hq. pose proof (pod_ordinal q Hq). specialize (Hlt q Hq). split; [by apply Hhealthy|]. split; [lia|]. intros Hqp. destruct Hs as [?|Hs]; [done|].
      apply (Hs (Z.to_nat (getOrdinal q)) q); [rewrite Hpart; lia|]. unfold replicas_of.
      rewrite list_lookup_fmap, lookup_seq_lt by (unfold replica_count; lia). cbn. f_equal. unfold replica_at.
      by rewrite (proj2 (pod_at_Some pods _ q (proj2 Hformed))) by (split; [done|lia]).
    + intros k Hk. specialize (Hall k Hk). unfold unavailable in Hall. destruct (pod_at pods k) as [p|] eqn:Hp; [|by destruct Hall].
      exists p. apply pod_at_Some in Hp; [done|apply Hformed].
Qed.

Lemma pass_is_step : pass_step pods (clPods (pass set current update collisionCount w).2).
Proof.
  unfold pass. rewrite (formed_cached set) by done.
  destruct (ordered_pass_exists set currentSet updateSet current update collisionCount pods) as (ops & st & Hpass & He); try done.
  - unfold partition_of. by rewrite Hrolling.
  - apply Forall_forall. intros p Hp. by apply pod_ordinal in Hp as [_ ?].
  - rewrite He. destruct (ops_step ops st Hpass) as (pods' & <- & Hs). unfold mbind, M_bind.
    by destruct (perform_all set updateSet ops w) as [[[]| | |] w1].
Qed.
End one_pass.

(** ** Steps keep the pods of the set *)

Lemma pod_at_snoc l q j : pod_at (l ++ [q]) j = if decide (getOrdinal q = Z.of_nat j) then Some q else pod_at l j.
Proof. unfold pod_at. rewrite filter_app, filter_cons, filter_nil. case_decide; [by rewrite last_snoc|by rewrite app_nil_r]. Qed.

Lemma pod_at_without k l j : pod_at (without k l) j = if decide (k = Z.of_nat j) then None else pod_at l j.
Proof.
  unfold pod_at, without. rewrite list_filter_filter. case_decide as Hk.
  - assert (filter (λ x, getOrdinal x = Z.of_nat j ∧ getOrdinal x ≠ k) l = []) as ->; [|done].
    apply list_nil_iff. intros x [[? ?] _]%list_elem_of_filter. congruence.
  - f_equal. apply list_filter_iff. intros x. split; [naive_solver|]. intros ?. split; [done|congruence].
Qed.

Lemma pod_at_terminate c l j : pod_at (terminate c l) j = (λ p, if bool_decide (getOrdinal p = c) then mark_deleted p else p) <$> pod_at l j.
Proof.
  induction l as [|p l IH] using rev_ind; [done|]. unfold terminate. rewrite fmap_app. cbn [fmap list_fmap]. rewrite !pod_at_snoc.
  assert (getOrdinal (if bool_decide (getOrdinal p = c) then mark_deleted p else p) = getOrdinal p) as -> by by case_bool_decide.
  case_decide; [done|apply IH].
Qed.

Lemma terminate_ordinals k pods : getOrdinal <$> terminate k pods = getOrdinal <$> pods.
Proof.
  unfold terminate. rewrite <- list_fmap_compose. apply list_fmap_ext. intros i p _. cbn. by case_bool_decide.
Qed.

Lemma pass_step_formed pods pods' : formed set pods → pass_step pods pods' → formed set pods'.
Proof.
  assert (∀ k, (k < count)%nat → viable (pending k)) as Hv by (intros; by split).
  assert (∀ k, formed set pods → formed set (terminate k pods)) as Hterm.
  { intros k [Hf Hnd]. split; [|by rewrite terminate_ordinals]. apply Forall_fmap. eapply Forall_impl; [exact Hf|]. intros p [Hm Hp]. cbn. by case_bool_decide. }
  intros Hs [k [Hk Hm]|k p Hp Ho Hk _|c _ _ _ _ _|c _ _ _ _ _|p _ _ _ _ _|p _ _|p q _ _ _ _ _ _ _|_]; try done; try by apply Hterm.
  - destruct (fresh_facts k Hk) as (Hmem & Hord & _). apply formed_snoc; [done|done|by apply Hv|]. rewrite Hord. by apply pod_at_None.
  - destruct (fresh_facts k Hk) as (Hmem & Hord & _). apply formed_snoc; [by apply formed_without|done|by apply Hv|]. rewrite Hord. by intros q [Hq _]%list_elem_of_filter.
  - by apply formed_without.
Qed.

Lemma without_middle l1 p l2 : NoDup (getOrdinal <$> (l1 ++ p :: l2)) → without (getOrdinal p) (l1 ++ p :: l2) = l1 ++ l2.
Proof.
  intros Hnd. rewrite fmap_app, fmap_cons in Hnd. apply NoDup_app in Hnd as (_ & Hleft & Hnd). apply NoDup_cons in Hnd as [Hright _].
  unfold without. rewrite filter_app, filter_cons, decide_False by (by intros []). f_equal; apply list_filter_all; intros q Hq Heq.
  - apply (Hleft (getOrdinal q)); [by apply list_elem_of_fmap_2|]. rewrite Heq. left.
  - apply Hright. rewrite <- Heq. by apply list_elem_of_fmap_2.
Qed.

Lemma kubelet_formed pods pods' : formed set pods → kubelet pods pods' → formed set pods'.
Proof.
  intros Hs Hk. revert Hs. destruct Hk as [l1 p l2 Ht Hn Hh|l1 p l2 Ht]; intros Hs; [|rewrite <- (without_middle l1 p l2) by apply Hs; by apply formed_without].
  destruct Hs as [Hf Hnd]. split; [|by rewrite fmap_app in *]. apply Forall_app in Hf as [Hf1 Hf2]. inversion_clear Hf2 as [|? ? [Hm _] Hf3].
  apply Forall_app. split; [done|]. constructor; [|done]. by split.
Qed.

(** ** Progress *)

(** The steps that a pod still needs, those of the kubelets included, and two for a pod that
    is missing. *)
Definition weight (p : SPod) : nat :=
  if decide (ssReplicas set ≤ getOrdinal p) then (if isTerminating p || isFailed p then 1 else if isHealthy p then 2 else 3)
  else if isTerminating p then 3
  else if isFailed p then 2
  else (if decide (outdated p) then 4 else 0) + (if isHealthy p then 0 else 1).

Definition missing_count (pods : list SPod) : nat := length (filter (λ k, pod_at pods k = None) (seq 0 count)).
Definition work (pods : list SPod) : nat := 2 * missing_count pods + sum_list (weight <$> pods).

Lemma weight_condemned p : ssReplicas set ≤ getOrdinal p →
  weight p = if isTerminating p || isFailed p then 1%nat else if isHealthy p then 2%nat else 3%nat.
Proof. intros Hn. unfold weight. by rewrite decide_True. Qed.

Lemma weight_replica p : getOrdinal p < ssReplicas set →
  weight p = if isTerminating p then 3%nat else if isFailed p then 2%nat else ((if decide (outdated p) then 4 else 0) + (if isHealthy p then 0 else 1))%nat.
Proof. intros Hn. unfold weight. by rewrite decide_False by lia. Qed.

Lemma length_filter_except {A} `{EqDecision A} (P Q : A → Prop) `{∀ x, Decision (P x), ∀ x, Decision (Q x)} (l : list A) k :
  NoDup l → k ∈ l → P k → ¬ Q k → (∀ j, j ≠ k → P j ↔ Q j) → length (filter P l) = S (length (filter Q l)).
Proof.
  intros Hnd Hk HP HQ Hj. induction l as [|x l IH]; [by apply not_elem_of_nil in Hk|]. apply NoDup_cons in Hnd as [Hx Hnd].
  rewrite !filter_cons. destruct (decide (x = k)) as [->|Hne].
  - rewrite decide_True, decide_False by done. cbn. f_equal. rewrite (list_filter_iff_strong P Q); [done|].
    intros y Hy. apply Hj. intros ->. done.
  - apply elem_of_cons in Hk as [->|Hk]; [done|]. specialize (IH Hnd Hk). destruct (decide (P x)) as [Hp|Hp].
    + rewrite decide_True by by apply Hj. cbn. by rewrite IH.
    + rewrite decide_False; [done|]. by rewrite <- Hj.
Qed.

Lemma sum_without pods p : NoDup (getOrdinal <$> pods) → p ∈ pods →
  sum_list (weight <$> pods) = (weight p + sum_list (weight <$> without (getOrdinal p) pods))%nat.
Proof.
  induction pods as [|q pods IH]; intros Hnd Hp; [by apply not_elem_of_nil in Hp|].
  rewrite fmap_cons in Hnd. apply NoDup_cons in Hnd as [Hq Hnd]. unfold without. rewrite filter_cons.
  apply elem_of_cons in Hp as [->|Hp].
  - rewrite decide_False by naive_solver. cbn. f_equal. fold (without (getOrdinal q) pods).
    assert (without (getOrdinal q) pods = pods) as ->; [|done]. apply list_filter_all. intros x Hx Heq. apply Hq. rewrite <- Heq.
    by apply list_elem_of_fmap_2.
  - rewrite decide_True by (intros Heq; apply Hq; rewrite Heq; by apply list_elem_of_fmap_2). cbn. rewrite (IH Hnd Hp). unfold without. lia.
Qed.

Lemma pending_weight k : (k < count)%nat → weight (pending k) = 1%nat.
Proof.
  intros Hk. destruct (fresh_facts k Hk) as (_ & Hord & Hout & _). rewrite weight_replica by (rewrite Hord; unfold replica_count in Hk; lia).
  by rewrite (decide_False (P := outdated _)) by done.
Qed.

Lemma missing_count_create pods k : missing pods k → missing_count pods = S (missing_count (pods ++ [pending k])).
Proof.
  intros [Hk Hm]. destruct (fresh_facts k Hk) as (_ & Hord & _). unfold missing_count.
  apply (length_filter_except _ _ _ k); [apply NoDup_seq|apply elem_of_seq; lia|done|..].
  - rewrite pod_at_snoc, decide_True by done. done.
  - intros j Hj. rewrite pod_at_snoc, decide_False by (rewrite Hord; lia). done.
Qed.

(** The ordinals decide which pods are missing. *)
Lemma missing_count_ext pods pods' : getOrdinal <$> pods = getOrdinal <$> pods' → missing_count pods = missing_count pods'.
Proof.
  assert (∀ l j, pod_at l j = None ↔ Z.of_nat j ∉ getOrdinal <$> l) as Hat.
  { intros l j. rewrite pod_at_None. split.
    - intros Hn (p & Hp & Hin)%list_elem_of_fmap. by apply (Hn p Hin).
    - intros Hn p Hp Ho. apply Hn. rewrite <- Ho. by apply list_elem_of_fmap_2. }
  intros Heq. unfold missing_count. f_equal. apply list_filter_iff. intros j. by rewrite !Hat, Heq.
Qed.

Lemma missing_count_recreate pods p k : p ∈ pods → getOrdinal p = Z.of_nat k → (k < count)%nat →
  missing_count (without (Z.of_nat k) pods ++ [pending k]) = missing_count pods.
Proof.
  intros Hp Ho Hk. destruct (fresh_facts k Hk) as (_ & Hord & _). unfold missing_count. f_equal. apply list_filter_iff. intros j.
  rewrite pod_at_snoc, pod_at_without, Hord. destruct (decide (Z.of_nat k = Z.of_nat j)) as [Hj|Hj]; [|done].
  split; [done|]. intros Hn. destruct (proj1 (pod_at_None _ _) Hn p Hp). lia.
Qed.

Lemma missing_count_without pods p k : p ∈ pods → getOrdinal p = Z.of_nat k → (k < count)%nat →
  missing_count (without (Z.of_nat k) pods) = S (missing_count pods).
Proof.
  intros Hp Ho Hk. unfold missing_count. apply (length_filter_except _ _ _ k); [apply NoDup_seq|apply elem_of_seq; lia|..].
  - rewrite pod_at_without, decide_True by done. done.
  - rewrite pod_at_None. naive_solver.
  - intros j Hj. rewrite pod_at_without, decide_False by lia. done.
Qed.

Lemma missing_count_condemned pods c : ssReplicas set ≤ c → missing_count (without c pods) = missing_count pods.
Proof.
  intros Hc. unfold missing_count. f_equal. apply list_filter_iff_strong. intros j [_ Hj]%elem_of_seq.
  rewrite pod_at_without, decide_False; [done|]. unfold replica_count in Hj. lia.
Qed.

Lemma sum_terminate pods p : NoDup (getOrdinal <$> pods) → p ∈ pods →
  sum_list (weight <$> terminate (getOrdinal p) pods) = (weight (mark_deleted p) + sum_list (weight <$> without (getOrdinal p) pods))%nat.
Proof.
  intros Hnd Hp. rewrite <- (terminate_ordinals (getOrdinal p) pods) in Hnd.
  assert (mark_deleted p ∈ terminate (getOrdinal p) pods) as Hin.
  { apply list_elem_of_fmap. exists p. split; [by rewrite bool_decide_eq_true_2|done]. }
  rewrite (sum_without _ (mark_deleted p) Hnd Hin). f_equal. f_equal. f_equal. change (getOrdinal (mark_deleted p)) with (getOrdinal p).
  clear. unfold without, terminate. induction pods as [|q pods IH]; [done|]. cbn. case_bool_decide as Hq.
  - change (getOrdinal (mark_deleted q)) with (getOrdinal q). destruct (decide (getOrdinal q ≠ getOrdinal p)); [done|]. exact IH.
  - destruct (decide (getOrdinal q ≠ getOrdinal p)); [|done]. f_equal. exact IH.
Qed.

(** Why a pass changes no pod. *)
Definition blocked (pods : list SPod) : Prop :=
  ∃ p q, p ∈ pods ∧ q ∈ pods ∧ getOrdinal p ≠ getOrdinal q ∧ isFailed p = true ∧ isFailed q = true ∧
    ssReplicas set ≤ getOrdinal p ∧ ssReplicas set ≤ getOrdinal q.

(** A pass takes some of the work away, or there is a reason to wait. *)
Lemma pass_progress pods pods' : formed set pods → pass_step pods pods' →
  (work pods' < work pods)%nat ∨ pods' = pods ∧ ((∃ p, p ∈ pods ∧ awaited p) ∨ blocked pods ∨ complete pods).
Proof.
  intros Hs Hstep. destruct Hstep as [k Hk|k p Hp Ho Hk Hf|c _ Hc Hn Ht Hf|c _ Hc Hn Ht Hf|p _ Hp Hn Hh Hout|p Hp Ha|p q Hp Hq Hne Hpf Hqf Hpn Hqn|Hc]; [left..|right|right|right].
  - unfold work. rewrite (missing_count_create pods k Hk), fmap_app, sum_list_with_app. cbn. destruct Hk. rewrite pending_weight by done. lia.
  - unfold work. rewrite (missing_count_recreate pods p k), fmap_app, sum_list_with_app by done. cbn. rewrite pending_weight by done.
    rewrite (sum_without pods p (proj2 Hs) Hp), Ho. assert (2 ≤ weight p)%nat; [|lia].
    rewrite weight_replica, Hf by (unfold replica_count in Hk; lia). destruct (isTerminating p); lia.
  - unfold work. rewrite (missing_count_ext _ pods (terminate_ordinals _ _)), (sum_terminate pods c (proj2 Hs) Hc), (sum_without pods c (proj2 Hs) Hc).
    assert (weight (mark_deleted c) < weight c)%nat; [|lia]. rewrite !weight_condemned, Ht, Hf by done. cbn. destruct (isHealthy c); lia.
  - unfold work. rewrite missing_count_condemned, (sum_without pods c (proj2 Hs) Hc) by done.
    assert (1 ≤ weight c)%nat; [|lia]. rewrite weight_condemned, Ht, Hf by done. done.
  - unfold work. rewrite (missing_count_ext _ pods (terminate_ordinals _ _)), (sum_terminate pods p (proj2 Hs) Hp), (sum_without pods p (proj2 Hs) Hp).
    assert (weight (mark_deleted p) < weight p)%nat; [|lia]. destruct (healthy_facts p Hh) as (Hf & _ & Ht & _).
    rewrite !weight_replica, Ht, Hf, Hh by done. cbn. destruct (decide (outdated p)); [lia|done].
  - split; [done|]. left. by exists p.
  - split; [done|]. right. left. exists p, q. by split_and!.
  - split; [done|]. by right; right.
Qed.

Lemma kubelet_progress pods pods' : formed set pods → kubelet pods pods' → (work pods' < work pods)%nat.
Proof.
  intros Hs Hk. revert Hs. destruct Hk as [l1 p l2 Ht Hn Hh|l1 p l2 Ht]; intros Hs.
  - unfold work. rewrite (missing_count_ext (l1 ++ p :: l2) (l1 ++ in_phase p PodRunning [ready] false :: l2)) by (by rewrite !fmap_app).
    rewrite !fmap_app, !sum_list_with_app. cbn. assert (weight (in_phase p PodRunning [ready] false) < weight p)%nat; [|lia].
    unfold terminated in Hn. assert (isFailed p = false) as Hf by (unfold isFailed; by destruct (bool_decide (spPhase p = Some PodFailed))).
    assert (isTerminating (in_phase p PodRunning [ready] false) = false ∧ isFailed (in_phase p PodRunning [ready] false) = false ∧
      isHealthy (in_phase p PodRunning [ready] false) = true) as (Ht' & Hf' & Hh') by done.
    destruct (decide (ssReplicas set ≤ getOrdinal p)) as [Hge|Hlt].
    + rewrite !weight_condemned, Ht, Hf, Hh, Ht', Hf', Hh' by done. cbn. lia.
    + rewrite !weight_replica, Ht, Hf, Hh, Ht', Hf', Hh' by (change (getOrdinal (in_phase p PodRunning [ready] false)) with (getOrdinal p); lia). change (outdated (in_phase p PodRunning [ready] false)) with (outdated p). cbn. destruct (decide (outdated p)); lia.
  - rewrite <- (without_middle l1 p l2) by apply Hs. assert (p ∈ l1 ++ p :: l2) as Hp by set_solver. set (pods := l1 ++ p :: l2) in *.
    unfold work. rewrite (sum_without pods p (proj2 Hs) Hp). pose proof (formed_member set _ _ Hs Hp) as ([Hp0 _] & _)%member_ordinal.
    destruct (decide (ssReplicas set ≤ getOrdinal p)) as [Hge|Hlt].
    + rewrite missing_count_condemned by done. rewrite (weight_condemned p), Ht by done. cbn. lia.
    + rewrite <- (Z2Nat.id (getOrdinal p)) at 1 by done. rewrite (missing_count_without pods p) by (done || unfold replica_count; lia).
      rewrite (weight_replica p), Ht by lia. lia.
Qed.

(** A pod that is waited for is one that a kubelet starts or removes. *)
Lemma awaited_kubelet pods p : formed set pods → p ∈ pods → awaited p → ∃ pods', kubelet pods pods'.
Proof.
  intros [Hf _] Hp Ha. destruct (proj1 (Forall_forall _ _) Hf p Hp) as (_ & _ & Hs). apply list_elem_of_split in Hp as (l1 & l2 & ->).
  destruct (isTerminating p) eqn:Ht; [eexists; by apply kubelet_removes|]. destruct Ha as [?|[Hh Hfp]]; [congruence|].
  eexists. apply kubelet_starts; try done. unfold terminated, isFailed in *. by rewrite Hfp, bool_decide_eq_false_2.
Qed.

(** Failures are old ones. *)
Definition one_failed (pods : list SPod) : Prop :=
  ∀ p q, p ∈ pods → q ∈ pods → isFailed p = true → isFailed q = true → ssReplicas set ≤ getOrdinal p → ssReplicas set ≤ getOrdinal q → getOrdinal p = getOrdinal q.

Definition old_failures (pods pods' : list SPod) : Prop := ∀ q, q ∈ pods' → isFailed q = true → ∃ p, p ∈ pods ∧ isFailed p = true ∧ getOrdinal p = getOrdinal q.

Lemma old_failures_one pods pods' : old_failures pods pods' → one_failed pods → one_failed pods'.
Proof.
  intros Hold Hone p q Hp Hq Hpf Hqf Hpn Hqn. destruct (Hold p Hp Hpf) as (p' & Hp' & Hpf' & Ep). destruct (Hold q Hq Hqf) as (q' & Hq' & Hqf' & Eq).
  rewrite <- Ep, <- Eq in *. by apply Hone.
Qed.

Lemma terminate_failures k pods : old_failures pods (terminate k pods).
Proof.
  intros q (p & -> & Hp)%list_elem_of_fmap Hf. exists p. split; [done|]. by case_bool_decide.
Qed.

Lemma without_failures k pods : old_failures pods (without k pods).
Proof. intros q [_ Hq]%list_elem_of_filter Hf. by exists q. Qed.

Lemma pass_step_failures pods pods' : pass_step pods pods' → old_failures pods pods'.
Proof.
  intros [k Hk|k p Hp Ho Hk Hf|c _ Hc Hn Ht Hf|c _ Hc Hn Ht Hf|p _ Hp Hn Hh Hout|p Hp Ha|p q Hp Hq Hne Hpf Hqf Hpn Hqn|Hc];
    try apply terminate_failures; try apply without_failures; try (intros x Hx Hxf; by exists x).
  - intros q [Hq| ->%list_elem_of_singleton]%elem_of_app Hqf; [by exists q|done].
  - intros q [[_ Hq]%list_elem_of_filter| ->%list_elem_of_singleton]%elem_of_app Hqf; [by exists q|done].
Qed.

Lemma kubelet_failures pods pods' : kubelet pods pods' → old_failures pods pods'.
Proof.
  intros [l1 p l2 Ht Hn Hh|l1 p l2 Ht] q Hq Hf; exists q; split_and!; try done; apply elem_of_app in Hq as [Hq|Hq]; apply elem_of_app; [by left| |by left|right; by right].
  apply elem_of_cons in Hq as [->|Hq]; [done|]. right. by right.
Qed.

#[local] Notation runs := (steps set current update collisionCount).

(** Every step that changes a pod takes some of the work away. *)
Lemma runs_progress w n w' : formed set (clPods w) → runs w n w' →
  formed set (clPods w') ∧ (n + work (clPods w') ≤ work (clPods w))%nat ∧ (one_failed (clPods w) → one_failed (clPods w')).
Proof.
  intros Hs Hrun. induction Hrun as [|n w' _ IH Hidle|n w' _ IH Hne|n w' pods' _ IH Hk]; [done|destruct (IH) as (Hf & Hw & Ho)..].
  - by rewrite Hidle.
  - pose proof (pass_is_step w' Hf) as Hstep. split; [by eapply pass_step_formed|]. split; [|intros; by eapply old_failures_one; [eapply pass_step_failures|auto]].
    destruct (pass_progress _ _ Hf Hstep) as [?|[? _]]; [lia|done].
  - cbn [clPods on_pods]. split; [by eapply kubelet_formed|]. split; [|intros; by eapply old_failures_one; [eapply kubelet_failures|auto]].
    pose proof (kubelet_progress _ _ Hf Hk). lia.
Qed.

(** When nothing changes any more, the rollout is complete. *)
Lemma rest_complete w : formed set (clPods w) → one_failed (clPods w) → at_rest set current update collisionCount w → complete (clPods w).
Proof.
  intros Hs Hone [Hk Hpass]. pose proof (pass_is_step w Hs) as Hstep. rewrite Hpass in Hstep.
  destruct (pass_progress _ _ Hs Hstep) as [?|[_ [(p & Hp & Ha)|[(p & q & Hp & Hq & Hne & Hpf & Hqf & Hpn & Hqn)|Hc]]]]; [lia| | |done].
  - destruct (awaited_kubelet _ _ Hs Hp Ha) as [pods' Hkub]. by destruct (Hk pods').
  - destruct Hne. by apply Hone.
Qed.

Lemma complete_work pods : formed set pods → complete pods → work pods = 0%nat.
Proof.
  intros Hs [Hall Hex]. unfold work. assert (missing_count pods = 0%nat) as ->.
  { unfold missing_count. assert (filter (λ k, pod_at pods k = None) (seq 0 count) = []) as ->; [|done].
    apply list_nil_iff. intros k [Hk [_ Hkc]%elem_of_seq]%list_elem_of_filter. destruct (Hex k) as (p & Hp & Ho); [lia|].
    by apply (proj1 (pod_at_None _ _) Hk p). }
  cbn. clear Hs Hex. induction pods as [|p pods IH]; [done|]. cbn. rewrite IH by (intros q Hq; apply Hall; by right).
  destruct (Hall p) as (Hh & [Hp0 Hlt] & Hr); [by left|]. destruct (healthy_facts p Hh) as (Hf & _ & Ht & _).
  rewrite weight_replica, Ht, Hf, Hh by lia. rewrite (decide_False (P := outdated p)); [done|]. intros [? []]. auto.
Qed.

Lemma complete_rests w : formed set (clPods w) → complete (clPods w) → at_rest set current update collisionCount w.
Proof.
  intros Hs Hc. apply complete_work in Hc as Hwork; [|done]. split.
  - intros pods' Hk. pose proof (kubelet_progress _ _ Hs Hk). lia.
  - destruct (pass_progress _ _ Hs (pass_is_step w Hs)) as [?|[? _]]; [lia|done].
Qed.

(** From everywhere the end can be reached. *)
Lemma kubelet_cons p l l' : kubelet l l' → kubelet (p :: l) (p :: l').
Proof. intros [l1 q l2 Ht Hn Hh|l1 q l2 Ht]; [by apply (kubelet_starts (p :: l1))|by apply (kubelet_removes (p :: l1))]. Qed.

Lemma kubelet_once_step l l' : kubelet_once l = Some l' → kubelet l l'.
Proof.
  revert l'. induction l as [|p l IH]; intros l'; cbn; [done|]. destruct (isTerminating p) eqn:Ht; [intros [= <-]; by apply (kubelet_removes [])|].
  destruct (terminated p || isHealthy p) eqn:Hn; [|apply orb_false_iff in Hn as [Hn Hh]; intros [= <-]; by apply (kubelet_starts [])].
  intros (l1 & Hl & ->)%fmap_Some. by apply kubelet_cons, IH.
Qed.

Lemma kubelet_once_none l l' : kubelet_once l = None → ¬ kubelet l l'.
Proof.
  intros Hnone Hk. assert (∀ l1 p l2, isTerminating p = true ∨ terminated p = false ∧ isHealthy p = false → kubelet_once (l1 ++ p :: l2) ≠ None) as Hsome.
  { intros l1 p l2 Hp. induction l1 as [|q l1 IH]; cbn.
    - destruct (isTerminating p); [done|]. destruct Hp as [?|[-> ->]]; done.
    - destruct (isTerminating q); [done|]. destruct (terminated q || isHealthy q); [|done]. by intros ?%fmap_None. }
  revert Hnone. destruct Hk as [l1 p l2 Ht Hn Hh|l1 p l2 Ht]; apply Hsome; [by right|by left].
Qed.

Lemma steps_trans w n w1 m w2 : runs w n w1 → runs w1 m w2 → runs w (m + n) w2.
Proof.
  intros Hn Hm. induction Hm as [|m w' _ IH Hidle|m w' _ IH Hne|m w' pods' _ IH Hk]; [done|..]; [by apply steps_idle|by apply steps_pass|by apply steps_kubelet].
Qed.

Lemma completion_reached w : formed set (clPods w) → one_failed (clPods w) → ∃ n w', runs w n w' ∧ complete (clPods w').
Proof.
  remember (work (clPods w)) as m eqn:Hm. revert w Hm. induction (lt_wf m) as [m _ IH]. intros w -> Hs Hone.
  assert (∀ w1, runs w 1 w1 → ∃ n w', runs w n w' ∧ complete (clPods w')) as Hgo.
  { intros w1 Hrun. destruct (runs_progress _ _ _ Hs Hrun) as (Hf & Hw & Ho). destruct (IH (work (clPods w1)) ltac:(lia) w1 eq_refl Hf (Ho Hone)) as (n & w' & Hn & Hc).
    exists (n + 1)%nat, w'. split; [by eapply steps_trans|done]. }
  destruct (kubelet_once (clPods w)) as [l|] eqn:Hk.
  - apply (Hgo (on_pods (λ _, l) w)). apply steps_kubelet; [apply steps_none|by apply kubelet_once_step].
  - destruct (decide (clPods (pass set current update collisionCount w).2 = clPods w)) as [Hidle|Hne].
    + exists 0%nat, w. split; [apply steps_none|]. apply rest_complete; [done..|]. split; [|done]. intros l. by apply kubelet_once_none.
    + apply (Hgo (pass set current update collisionCount w).2). apply steps_pass; [apply steps_none|done].
Qed.

(** ** Availability *)

(** A pass makes no available replica unavailable, or it makes one so when all are
    available. *)
Definition one_at_a_time (pods pods' : list SPod) : Prop :=
  (∀ k, (k < count)%nat → unavailable pods' k → unavailable pods k) ∨
  (all_available pods ∧ ∃ k0, ∀ k, (k < count)%nat → unavailable pods' k → k = k0).

Lemma pass_available pods pods' : formed set pods → pass_step pods pods' → one_at_a_time pods pods'.
Proof.
  intros Hs [k [Hk Hm]|k p Hp Ho Hk Hf|c _ Hc Hn Ht Hf|c _ Hc Hn Ht Hf|p Hall Hp Hn Hh Hout|p _ _|p q _ _ _ _ _ _ _|_]; try (by left).
  - left. destruct (fresh_facts k Hk) as (_ & Hord & _). intros j Hj. unfold unavailable. rewrite pod_at_snoc.
    case_decide as Hd; [|done]. rewrite Hord in Hd. assert (j = k) as -> by lia. by rewrite Hm.
  - left. destruct (fresh_facts k Hk) as (_ & Hord & _).
    assert (Hpk : unavailable pods k).
    { unfold unavailable. rewrite (proj2 (pod_at_Some pods k p (proj2 Hs))) by done. unfold isHealthy, isRunningAndReady, isFailed in *. to_prop. rewrite Hf. done. }
    intros j Hj. unfold unavailable. rewrite pod_at_snoc, pod_at_without.
    case_decide as Hd; [rewrite Hord in Hd; assert (j = k) as -> by lia; done|]. case_decide as Hkj; [|done]. assert (j = k) as -> by lia. done.
  - left. intros j Hj. unfold unavailable. rewrite pod_at_terminate. destruct (pod_at pods j) as [q|] eqn:Hq; [|done]. cbn.
    apply pod_at_Some in Hq as [_ Hq]; [|apply Hs]. rewrite bool_decide_eq_false_2; [done|]. unfold replica_count in Hj. lia.
  - left. intros j Hj. unfold unavailable. rewrite pod_at_without, decide_False; [done|]. unfold replica_count in Hj. lia.
  - right. split; [done|]. exists (Z.to_nat (getOrdinal p)). intros j Hj. specialize (Hall j Hj). unfold unavailable in *. rewrite pod_at_terminate.
    destruct (pod_at pods j) as [q|] eqn:Hq; cbn; [|by destruct Hall].
    case_bool_decide as Hqp; [apply pod_at_Some in Hq as [_ Hq]; [lia|apply Hs]|done].
Qed.

(** What the kubelets do makes nothing unavailable. *)
Lemma kubelet_available pods pods' k : formed set pods → kubelet pods pods' → unavailable pods' k → unavailable pods k.
Proof.
  intros Hs Hkub Hu. assert (Hs' : formed set pods') by by eapply kubelet_formed. unfold unavailable in *.
  destruct (pod_at pods k) as [q|] eqn:Hq; [|done]. destruct (isHealthy q) eqn:Hqh; [|done]. apply pod_at_Some in Hq as [Hin Ho]; [|apply Hs].
  assert (q ∈ pods') as Hin'; [|by rewrite (proj2 (pod_at_Some pods' k q (proj2 Hs'))) in Hu; [congruence|]].
  destruct (healthy_facts q Hqh) as (_ & _ & Htq & _). clear Hs Hs' Hu. destruct Hkub as [l1 p l2 Ht Hn Hh|l1 p l2 Ht];
    (apply elem_of_app in Hin as [Hin|[->|Hin]%elem_of_cons]; [apply elem_of_app; by left|congruence|apply elem_of_app; right; by (right || idtac)]).
Qed.

Definition at_most_one (pods : list SPod) : Prop :=
  ∀ j k, (j < count)%nat → (k < count)%nat → unavailable pods j → unavailable pods k → j = k.

Lemma one_at_a_time_most pods pods' : one_at_a_time pods pods' → at_most_one pods → at_most_one pods'.
Proof.
  intros [Hmono|[_ [k0 Hk0]]] Hone j k Hj Hk Hj' Hk'; [apply Hone; auto|]. rewrite (Hk0 j), (Hk0 k) by done. done.
Qed.

Lemma runs_available w n w' : formed set (clPods w) → runs w n w' → at_most_one (clPods w) → at_most_one (clPods w').
Proof.
  intros Hs Hrun Hone. induction Hrun as [|n w' Hrun IH Hidle|n w' Hrun IH Hne|n w' pods' Hrun IH Hk]; [done|by rewrite Hidle|..];
    destruct (runs_progress _ _ _ Hs Hrun) as (Hf & _).
  - eapply one_at_a_time_most; [apply pass_available; [done|by apply pass_is_step]|done].
  - eapply one_at_a_time_most; [left|exact IH]. intros k _. by apply kubelet_available.
Qed.
End rollout.

(** ** Rollouts *)

(** C16: an ordered rolling update ends, and ends with what the set asks for. Passes of the
    controller and steps of the kubelets follow each other in any order; the server refuses
    nothing, passes see the pods as they are, the kubelets start every pod that has not ended
    and remove every pod that terminates, and no pod fails by itself. At the start the pods are
    members of the set with ordinals of their own, each in any phase but succeeded, of which at
    most one beyond the count has failed. Then the steps that change a pod are at most as many
    as the work there was; and whenever nothing changes any more, there is exactly one healthy
    pod for every ordinal below the count and no other pod, and from the partition on all are
    at the update revision. That state is kept, and it can be reached from every other. *)
Theorem stateful_rollout_completes `{RangeClaims} `{PatchCodec} `{SortOrdinal} (set currentSet updateSet : SSet) (current update : ControllerRevision)
    (collisionCount partition : Z) (w w' : Cluster) (n : nat) :
  ApplyRevision set current = Ok currentSet → ApplyRevision set update = Ok updateSet → ssDeleting set = false → allowsBurst set = false →
  0 ≤ ssReplicas set ≤ MaxInt32 → ssStrategy set ≠ OnDeleteStatefulSetStrategyType → ssRollingUpdate set = Some partition → 0 ≤ partition →
  formed set (clPods w) → one_failed set (clPods w) → steps set current update collisionCount w n w' →
  (n ≤ work set update partition (clPods w))%nat ∧ NoDup (getOrdinal <$> clPods w') ∧
  (at_rest set current update collisionCount w' ↔ complete set update partition (clPods w')) ∧
  ∃ m w'', steps set current update collisionCount w' m w'' ∧ complete set update partition (clPods w'').
Proof.
  intros Hc Hu Hd Hb Hr Hs Hroll Hp Hw Hone Hrun.
  destruct (runs_progress set currentSet updateSet current update collisionCount partition Hc Hu Hd Hb Hr Hs Hroll Hp w n w' Hw Hrun) as (Hf & Hn & Ho).
  split; [lia|]. split; [apply Hf|]. split; [split; intros Hx|].
  - apply (rest_complete set currentSet updateSet current update collisionCount partition Hc Hu Hd Hb Hr Hs Hroll Hp w' Hf (Ho Hone) Hx).
  - apply (complete_rests set currentSet updateSet current update collisionCount partition Hc Hu Hd Hb Hr Hs Hroll Hp w' Hf Hx).
  - apply (completion_reached set currentSet updateSet current update collisionCount partition Hc Hu Hd Hb Hr Hs Hroll Hp w' Hf (Ho Hone)).
Qed.

(** C17: during an ordered rolling update replicas are taken away one at a time. Whatever the
    phases of the pods, which are members of the set with ordinals of their own and none of
    which has succeeded, and whatever happened before, a pass either makes no replica
    unavailable that was available, or all were available and it makes one of them
    unavailable; the server refuses nothing and the pass sees the pods as they are. So at most
    one replica is unavailable throughout any sequence of passes and steps of the kubelets
    that starts with at most one and in which no pod fails by itself. *)
Theorem stateful_rollout_available `{RangeClaims} `{PatchCodec} `{SortOrdinal} (set currentSet updateSet : SSet) (current update : ControllerRevision)
    (collisionCount partition : Z) (w : Cluster) :
  ApplyRevision set current = Ok currentSet → ApplyRevision set update = Ok updateSet → ssDeleting set = false → allowsBurst set = false →
  0 ≤ ssReplicas set ≤ MaxInt32 → ssStrategy set ≠ OnDeleteStatefulSetStrategyType → ssRollingUpdate set = Some partition → 0 ≤ partition →
  formed set (clPods w) →
  one_at_a_time set (clPods w) (clPods (pass set current update collisionCount w).2) ∧
  (at_most_one set (clPods w) → ∀ n w', steps set current update collisionCount w n w' → at_most_one set (clPods w')).
Proof.
  intros Hc Hu Hd Hb Hr Hs Hroll Hp Hw. split.
  - eapply (pass_available set currentSet updateSet current update partition); try done. by apply pass_is_step.
  - intros Hone n w' Hrun. by apply (runs_available set currentSet updateSet current update collisionCount partition Hc Hu Hd Hb Hr Hs Hroll Hp w n w' Hw Hrun).
Qed.

(** ** An example *)

(** Two replicas at the old revision, one of them failed, and a pod beyond the count. *)
Definition web_cluster : Cluster :=
  mkCluster [web_pod 0 "web-a" PodRunning [ready]; web_pod 1 "web-a" PodFailed []; web_pod 2 "web-a" PodPending []] [] [] [].

#[local] Notation web_pass_on w := (pass (H := range_in_order) (H0 := binary_patches) (H1 := sort_by_ordinal)
  (ordered_web 2) (web_revisions "nginx:1" "web-a") (web_revisions "nginx:2" "web-b") 0 w).
#[local] Notation web_steps := (steps (H := range_in_order) (H0 := binary_patches) (H1 := sort_by_ordinal)
  (ordered_web 2) (web_revisions "nginx:1" "web-a") (web_revisions "nginx:2" "web-b") 0).

(** The kubelets go first, and a pass runs when they have nothing to do. *)
Definition web_drive (w : Cluster) : Cluster :=
  match kubelet_once (clPods w) with Some l => on_pods (λ _, l) w | None => (web_pass_on w).2 end.

Example web_driven : (λ p, (spName p, getPodRevision p, isHealthy p)) <$> clPods (Nat.iter 12 web_drive web_cluster) =
  [("web-1", "web-b", true); ("web-0", "web-b", true)].
Proof. vm_compute. reflexivity. Qed.

Lemma web_formed : formed (ordered_web 2) (clPods web_cluster).
Proof.
  split; [|apply (bool_decide_unpack _); vm_compute; exact I].
  repeat (constructor; [split; [by vm_compute|split; [reflexivity|by vm_compute]]|]). constructor.
Qed.

Lemma stateful_rollout_completes_witness :
  work (ordered_web 2) (web_revisions "nginx:2" "web-b") 0 (clPods web_cluster) = 9%nat ∧
  ∃ m w', web_steps web_cluster m w' ∧ complete (ordered_web 2) (web_revisions "nginx:2" "web-b") 0 (clPods w').
Proof.
  split; [vm_compute; reflexivity|].
  apply (stateful_rollout_completes (H := range_in_order) (H0 := binary_patches) (H1 := sort_by_ordinal) (ordered_web 2)
    (with_template (ordered_web 2) (web_template "nginx:1")) (with_template (ordered_web 2) (web_template "nginx:2"))
    (web_revisions "nginx:1" "web-a") (web_revisions "nginx:2" "web-b") 0 0 web_cluster web_cluster 0);
    [vm_compute; reflexivity|vm_compute; reflexivity|reflexivity|reflexivity|vm_compute; split; discriminate|discriminate|reflexivity|lia
    |apply web_formed| |apply steps_none].
  intros p q Hp _ Hpf _ Hn _. exfalso. assert (Forall (λ p, isFailed p = true → getOrdinal p < 2) (clPods web_cluster)) as Hf.
  { repeat (constructor; [by vm_compute|]). constructor. }
  pose proof (proj1 (Forall_forall _ _) Hf p Hp Hpf). cbn in Hn. lia.
Defined.

Definition steady_cluster : Cluster := mkCluster two_pods [] [] [].

Lemma stateful_rollout_available_witness :
  isHealthy <$> clPods (web_pass_on steady_cluster).2 = [true; false] ∧
  one_at_a_time (ordered_web 2) (clPods steady_cluster) (clPods (web_pass_on steady_cluster).2) ∧
  ∀ n w', web_steps steady_cluster n w' → at_most_one (ordered_web 2) (clPods w').
Proof.
  split; [vm_compute; reflexivity|].
  destruct (stateful_rollout_available (H := range_in_order) (H0 := binary_patches) (H1 := sort_by_ordinal) (ordered_web 2)
    (with_template (ordered_web 2) (web_template "nginx:1")) (with_template (ordered_web 2) (web_template "nginx:2"))
    (web_revisions "nginx:1" "web-a") (web_revisions "nginx:2" "web-b") 0 0 steady_cluster) as [Hpass Hrun];
    [vm_compute; reflexivity|vm_compute; reflexivity|reflexivity|reflexivity|vm_compute; split; discriminate|discriminate|reflexivity|lia|..].
  - split; [|apply (bool_decide_unpack _); vm_compute; exact I].
    repeat (constructor; [split; [by vm_compute|split; [reflexivity|by vm_compute]]|]). constructor.
  - split; [exact Hpass|]. apply Hrun. intros j k Hj Hk. assert (∀ i, (i < 2)%nat → ¬ unavailable two_pods i) as Hn.
    { intros [|[|i]] Hi; [vm_compute; discriminate..|lia]. }
    intros Hu. by destruct (Hn j Hj).
Defined.
