(* ===== verification/StatefulSetHistory.v ===== *)
(** * Stateful sets: revisions

    What the revisions of a stateful set are for: the update revision always holds the patch
    of the template that the set has now, and truncating the history deletes the oldest revisions
    that nothing uses. *)

From S2P Require Import Prelude GoStrings GoStrconv GoInt Store LabelSelector Validation DeploymentScaling SchedulingQueue ControllerRef ClientMonad ControllerHistory StatefulSet StatefulSetControl StatefulSetSpec StatefulSetProgress.

(** ** The update revision *)

(** A server that takes updates of what it stores. *)
Class RevisionUpdates (W : Type) `{RevisionStore W} : Prop :=
  update_stored ns r w x : stored w ns (crName r) = Some x → ∃ w', revisions_Update ns r w = (Some r, None, w').

Lemma EqualRevision_data a b : EqualRevision (Some a) (Some b) = true → crData a = crData b.
Proof. unfold EqualRevision. intros He. repeat case_match; try done; by apply bool_decide_eq_true in He. Qed.

Section revisions.
Context `{RevisionUpdates W} `{PatchCodec} `{SortRevisions}.

Lemma UpdateControllerRevision_stored r n (w : W) x : stored w (crNamespace r) (crName r) = Some x →
  ∃ r' w', UpdateControllerRevision r n w = (Ret r', w') ∧ crName r' = crName r ∧ crData r' = crData r ∧ crRevision r' = n.
Proof.
  intros Hs. unfold UpdateControllerRevision, RetryOnConflict, DefaultBackoff. cbn [retry_loop]. unfold mbind at 1 2, M_bind at 1 2.
  unfold update_attempt at 1. destruct (crRevision r =? n) eqn:Hn; to_prop; [by eexists _, _|].
  destruct (update_stored (crNamespace r) (set_revision r n) w x Hs) as (w' & Hu).
  unfold mbind, M_bind, call. cbn [crNamespace set_revision]. rewrite Hu. by eexists _, _.
Qed.
End revisions.

(** C38: when the server creates revisions under names that are free and takes every update
    without refusing it and without a conflict, and the names that the collision count gives
    are free from some count on, computing the revisions of a stateful set succeeds: the
    update revision holds the patch of the template that the set has now, whether it was the
    newest revision already, an older one that is moved to the front, or is created; the
    current revision is the one that the status names if it exists, and else the update
    revision; and the revisions are those that were listed. *)
Theorem getStatefulSetRevisions_update `{RevisionUpdates W} `{PatchCodec} `{SortRevisions} (set : SSet) (revisions : list ControllerRevision)
    (k fuel : nat) (w : W) :
  (∀ r, r ∈ revisions → stored w (crNamespace r) (crName r) = Some r) →
  let count := default 0 (stCollisionCount (ssStatus set)) in
  let revision := newRevision set (nextRevision (SortControllerRevisions revisions)) (Some count) in
  (∀ i, (i < k)%nat → collides (set_parent set) revision count w i) → ¬ collides (set_parent set) revision count w k → (k < fuel)%nat →
  ∃ sr w', getStatefulSetRevisions fuel set revisions w = (Ret sr, w') ∧
    crData (srUpdate sr) = getPatch set ∧
    (srCurrent sr ∈ revisions ∧ crName (srCurrent sr) = stCurrentRevision (ssStatus set) ∨
     srCurrent sr = srUpdate sr ∧ ∀ r, r ∈ revisions → crName r ≠ stCurrentRevision (ssStatus set)) ∧
    srRevisions sr ≡ₚ revisions.
Proof.
  intros Hst count revision Hcol Hfree Hf. unfold getStatefulSetRevisions. cbn zeta. fold count. fold revision.
  set (sorted := SortControllerRevisions revisions). assert (Hperm : sorted ≡ₚ revisions) by apply SortControllerRevisions_perm.
  assert (Hfinish : ∀ upd cc, crData upd = getPatch set →
    let sr := mkSetRevisions (default upd (last (filter (λ r, crName r = stCurrentRevision (ssStatus set)) sorted))) upd cc sorted in
    crData (srUpdate sr) = getPatch set ∧
    (srCurrent sr ∈ revisions ∧ crName (srCurrent sr) = stCurrentRevision (ssStatus set) ∨
     srCurrent sr = srUpdate sr ∧ ∀ r, r ∈ revisions → crName r ≠ stCurrentRevision (ssStatus set)) ∧ srRevisions sr ≡ₚ revisions).
  { intros upd cc Hd. cbn. split_and!; [done| |done]. destruct (last _) as [c|] eqn:Hl; cbn.
    - left. apply last_Some_elem_of, list_elem_of_filter in Hl as [Hn Hin]. by rewrite Hperm in Hin.
    - right. split; [done|]. apply last_None in Hl. intros r Hr Hn. rewrite <- Hperm in Hr.
      eapply (not_elem_of_nil r). rewrite <- Hl. by apply list_elem_of_filter. }
  unfold mbind, M_bind. destruct (last (FindEqualRevisions sorted revision)) as [equal|] eqn:He.
  - apply last_Some_elem_of, list_elem_of_filter in He as [Hq Hin]. apply EqualRevision_data in Hq. change (crData revision) with (getPatch set) in Hq.
    destruct (EqualRevision (last sorted) (Some equal)) eqn:Hlast.
    + destruct (last sorted) as [newest|]; [|done]. apply EqualRevision_data in Hlast. eexists _, _. split; [done|]. apply Hfinish. cbn. congruence.
    + rewrite Hperm in Hin. destruct (UpdateControllerRevision_stored equal (crRevision revision) w equal (Hst _ Hin)) as (r' & w' & -> & _ & Hd & _).
      eexists _, _. split; [done|]. apply Hfinish. congruence.
  - destruct (create_loop_spec (set_parent set) revision count k w Hfree 0 revision fuel) as (r & w' & Hc & _ & Hd & _); [done|lia| |lia|].
    { intros i Hi. apply Hcol. lia. }
    cbn [CreateControllerRevision]. unfold probe in Hc at 1. cbn in Hc. rewrite Hc. eexists _, _. split; [done|]. apply Hfinish. by rewrite Hd.
Qed.

(** ** Truncation *)

Lemma StronglySorted_filter {A} (R : A → A → Prop) (P : A → Prop) `{∀ x, Decision (P x)} (l : list A) :
  StronglySorted R l → StronglySorted R (filter P l).
Proof.
  induction 1 as [|x l Hl IH Hx]; [constructor|]. rewrite filter_cons. case_decide; [|done]. constructor; [done|].
  apply Forall_forall. intros y [_ Hy]%list_elem_of_filter. by apply (proj1 (Forall_forall _ _) Hx).
Qed.

(** Truncating the history deletes revisions that are neither current nor the update nor
    the revision of a pod, the oldest of these and no more than it takes to leave as many as
    the limit allows, one after the other up to the first error. *)
Theorem truncateHistory_oldest `{RevisionClient W} (set : SSet) (pods : list SPod) (revisions : list ControllerRevision) (current update : ControllerRevision) :
  0 ≤ ssHistoryLimit set → Sorted (λ a b, byRevision_less b a = false) revisions →
  ∃ deleted kept,
    non_live pods revisions current update = deleted ++ kept ∧
    Z.of_nat (length kept) = Z.min (ssHistoryLimit set) (Z.of_nat (length (deleted ++ kept))) ∧
    (∀ d, d ∈ deleted → crName d ≠ crName current ∧ crName d ≠ crName update ∧ ∀ p, p ∈ pods → getPodRevision p ≠ crName d) ∧
    (∀ d r, d ∈ deleted → r ∈ kept → crRevision d ≤ crRevision r) ∧
    ∀ w : W, truncateHistory set pods revisions current update w = for_each deleted (λ r, check (DeleteControllerRevision r)) w.
Proof.
  intros Hl Hs. set (history := non_live pods revisions current update). set (n := Z.to_nat (Z.of_nat (length history) - ssHistoryLimit set)).
  assert (Hlive : ∀ d, d ∈ history → crName d ≠ crName current ∧ crName d ≠ crName update ∧ ∀ p, p ∈ pods → getPodRevision p ≠ crName d).
  { intros d [Hd _]%list_elem_of_filter. rewrite !elem_of_cons in Hd. split_and!; [tauto..|]. intros p Hp Heq. apply Hd. right. right.
    rewrite <- Heq. by apply list_elem_of_fmap_2. }
  assert (Hsort : StronglySorted (λ a b, byRevision_less b a = false) history).
  { apply StronglySorted_filter, Sorted_StronglySorted; [|done]. intros a b c. unfold byRevision_less. rewrite !Z.ltb_ge. lia. }
  exists (take n history), (drop n history). rewrite take_drop. split_and!; [done| | | |].
  - rewrite length_drop. lia.
  - intros d Hd. apply Hlive. rewrite <- (take_drop n history). set_solver.
  - intros d r Hd Hr. rewrite <- (take_drop n history) in Hsort. apply StronglySorted_app in Hsort as (Hsort & _ & _).
    specialize (Hsort d r Hd Hr). unfold byRevision_less in Hsort. by apply Z.ltb_ge in Hsort.
  - intros w. unfold truncateHistory. fold history. destruct (Z.of_nat (length history) <=? ssHistoryLimit set) eqn:Hle; to_prop.
    + assert (n = 0%nat) as -> by lia. done.
    + done.
Qed.

(** ** Examples *)

Definition revision_le (a b : ControllerRevision) : Prop := crRevision a ≤ crRevision b.
#[local] Instance revision_le_dec : RelDecision revision_le.
Proof. intros a b. unfold revision_le. apply _. Defined.
#[local] Instance revision_le_total : Total revision_le.
Proof. intros a b. unfold revision_le. lia. Qed.

Definition sort_by_revision : SortRevisions.
Proof.
  refine {| SortControllerRevisions := merge_sort revision_le |}.
  - intros l. apply merge_sort_Permutation.
  - intros l. pose proof (Sorted_merge_sort revision_le l) as Hs.
    induction Hs as [|a l' Hl IH Ha]; constructor; [done|]. inversion Ha; subst; constructor.
    unfold byRevision_less. by apply Z.ltb_ge.
Defined.

#[local] Instance RevisionList_updates : RevisionUpdates RevisionList.
Proof. intros ns r w x Hx. cbn in *. rewrite Hx. eauto. Qed.

(** The set was changed back: the older of the two revisions is the one that it needs. *)
Definition small_web (image : string) : SSet := with_template (ordered_web 2) (mkTemplate ∅ ∅ [] (mkPodSpec [] "" "" image)).
Definition small_revision (image : string) (n : Z) : ControllerRevision :=
  in_namespace (newRevision (H := binary_patches) (small_web image) n (Some 0)) "default".
Definition two_revisions : RevisionList := [small_revision "b" 1; small_revision "a" 2].

Lemma two_revisions_stored r : r ∈ two_revisions → stored two_revisions (crNamespace r) (crName r) = Some r.
Proof. intros [->|[->|Hr%not_elem_of_nil]%elem_of_cons]%elem_of_cons; [vm_compute; reflexivity..|done]. Qed.

Lemma small_revision_free : ¬ collides (set_parent (small_web "b")) (newRevision (H := binary_patches) (small_web "b") 3 (Some 0)) 0 two_revisions 0.
Proof.
  intros (x & Hx & Hd). apply Hd. assert (Hs : stored two_revisions "default" (crName (small_revision "b" 1)) = Some (small_revision "b" 1)) by (vm_compute; reflexivity).
  unfold probed_name in Hx. change (paNamespace _) with "default" in Hx.
  assert (Hn : ControllerRevisionName (paName (set_parent (small_web "b")))
    (HashControllerRevision (newRevision (H := binary_patches) (small_web "b") 3 (Some 0)) (Some (probe 0 0))) = crName (small_revision "b" 1)) by (vm_compute; reflexivity).
  rewrite Hn, Hs in Hx. by injection Hx as <-.
Qed.

Lemma getStatefulSetRevisions_update_witness :
  ∃ sr w', getStatefulSetRevisions (H0 := binary_patches) (H2 := sort_by_revision) 1 (small_web "b") two_revisions (two_revisions : RevisionList) = (Ret sr, w') ∧
    crData (srUpdate sr) = getPatch (H := binary_patches) (small_web "b") ∧
    (srCurrent sr ∈ two_revisions ∧ crName (srCurrent sr) = "" ∨
     srCurrent sr = srUpdate sr ∧ ∀ r, r ∈ two_revisions → crName r ≠ "") ∧
    srRevisions sr ≡ₚ two_revisions.
Proof.
  apply (getStatefulSetRevisions_update (H2 := binary_patches) (H3 := sort_by_revision) (small_web "b") two_revisions 0 1 two_revisions).
  - exact two_revisions_stored.
  - intros i Hi. lia.
  - exact small_revision_free.
  - lia.
Defined.

Definition old_revision (name : string) (n : Z) : ControllerRevision := mkRevision "default" name "" false ∅ ∅ [] "" n.
Definition five_revisions : list ControllerRevision :=
  [old_revision "a" 1; old_revision "web-a" 2; old_revision "c" 3; old_revision "d" 4; old_revision "web-b" 5].
Definition limited_web : SSet :=
  mkSSet "default" "web" "u1" 2 false ∅ 2 (mkLabelSelector ∅ []) (web_template "nginx:2") [] "nginx"
    OrderedReadyPodManagement RollingUpdateStatefulSetStrategyType (Some 0) 1 web_status.

Lemma truncateHistory_oldest_witness :
  (crName <$> (truncateHistory limited_web two_pods five_revisions (old_revision "web-b" 5) (old_revision "web-b" 5) (five_revisions : RevisionList)).2) =
    ["web-a"; "d"; "web-b"] ∧
  ∃ deleted kept,
    non_live two_pods five_revisions (old_revision "web-b" 5) (old_revision "web-b" 5) = deleted ++ kept ∧
    Z.of_nat (length kept) = Z.min 1 (Z.of_nat (length (deleted ++ kept))) ∧
    (∀ d, d ∈ deleted → crName d ≠ "web-b" ∧ crName d ≠ "web-b" ∧ ∀ p, p ∈ two_pods → getPodRevision p ≠ crName d) ∧
    (∀ d r, d ∈ deleted → r ∈ kept → crRevision d ≤ crRevision r) ∧
    ∀ w : RevisionList, truncateHistory limited_web two_pods five_revisions (old_revision "web-b" 5) (old_revision "web-b" 5) w =
      for_each deleted (λ r, check (DeleteControllerRevision r)) w.
Proof.
  split; [vm_compute; reflexivity|]. apply (truncateHistory_oldest limited_web); [vm_compute; discriminate|].
  repeat (constructor; [|try by constructor; vm_compute]). constructor.
Defined.

(** The whole sync of a set without pods: its revision is created, then the claim and the pod
    with the ordinal 0, and the status is written. *)
Definition empty_cluster : Cluster := mkCluster [] [] [ordered_web 2] [].
Definition web_sync (key : string) (w : Cluster) : outcome () * Cluster :=
  sync (H0 := range_in_order) (H1 := binary_patches) (H2 := sort_by_ordinal) (H3 := merge_sort_by_key) (H4 := sort_by_revision) 3 key w.

Example sync_creates_first_pod :
  let (r, w) := web_sync "default/web" empty_cluster in
  r = Ret () ∧ (spName <$> clPods w) = ["web-0"] ∧ (cName <$> clClaims w) = ["data-web-0"] ∧ length (clRevisions w) = 1%nat ∧
  (λ s, stReplicas (ssStatus s)) <$> clSets w = [1] ∧
  getPodRevision <$> clPods w = crName <$> clRevisions w.
Proof. vm_compute. done. Qed.

(** ** Where the code and its comments differ *)

(** A collision count that has changed is not written back on its own. *)
Example collision_count_ignored :
  let set := ordered_web 2 in
  let status := mkSSStatus 1 0 0 0 0 "" "" (Some 3) in
  stCollisionCount status ≠ stCollisionCount (ssStatus set) ∧ inconsistentStatus set status = false.
Proof. vm_compute. done. Qed.

(** A completed update keeps the update revision and the count of updated pods. *)
Example complete_keeps_update_revision :
  let status := completeRollingUpdate (ordered_web 2) (mkSSStatus 1 2 2 0 2 "web-a" "web-b" None) in
  stUpdateRevision status = "web-b" ∧ stUpdated status = 2 ∧ stCurrentRevision status = "web-b" ∧ stCurrent status = 2.
Proof. vm_compute. done. Qed.

(** Revisions with the same contents count as different when their hash labels are numbers
    that differ. *)
Example equal_contents_differ :
  let r label := mkRevision "default" "web" "" false {[ControllerRevisionHashLabel := label]} ∅ [] "data" 1 in
  EqualRevision (Some (r "447")) (Some (r "448")) = false.
Proof. vm_compute. done. Qed.
