(* ===== verification/InfDec.v ===== *)
(** * Decimals of any size

    [vendor/gopkg.in/inf.v0]: the part of [inf.Dec] that resource quantities use, which
    is comparison, sums, rounding up and reading a decimal. The unscaled part is a
    [big.Int], an integer; the scale is an [int32], and the value is
    [unscaled * 10 ^ (- scale)]. The functions return the decimal that the methods
    leave in their receiver. *)

From S2P Require Import Prelude GoStrings GoStrconv GoInt Int64Amount Validation.
From Stdlib Require Import DecimalString DecimalPos DecimalFacts.

Record Dec : Type := mkDec {
  unscaled : Z;
  dec_scale : Z;
}.

#[global] Instance Dec_eq_dec : EqDecision Dec.
Proof. solve_decision. Defined.

(** Powers of ten, for shifts that are not negative (the code panics on the one shift
    whose negation is negative, [-2 ^ 31]). *)
Definition exp10 (x : Z) : Z := 10 ^ x.

Definition rescale (x : Dec) (newScale : Z) : Dec :=
  let shift := wrap32 (newScale - dec_scale x) in
  if shift <? 0 then mkDec (Z.quot (unscaled x) (exp10 (wrap32 (- shift)))) newScale
  else if 0 <? shift then mkDec (unscaled x * exp10 shift) newScale
  else x.

Definition upscale (a b : Dec) : Dec * Dec :=
  if dec_scale a =? dec_scale b then (a, b)
  else if dec_scale b <? dec_scale a then (a, rescale b (dec_scale a))
  else (rescale a (dec_scale b), b).

Definition Dec_cmp (x y : Dec) : Z :=
  let '(xx, yy) := upscale x y in cmp_values (unscaled xx) (unscaled yy).

Definition Dec_add (x y : Dec) : Dec :=
  let '(xx, yy) := upscale x y in mkDec (unscaled xx + unscaled yy) (dec_scale xx).

Definition Dec_sub (x y : Dec) : Dec :=
  let '(xx, yy) := upscale x y in mkDec (unscaled xx - unscaled yy) (dec_scale xx).

Definition Dec_sign (x : Dec) : Z := Z.sgn (unscaled x).

Definition Dec_neg (x : Dec) : Dec := mkDec (- unscaled x) (dec_scale x).

(** [Unscaled]: the low 64 bits, and whether they are the number. *)
Definition Unscaled (x : Dec) : Z * bool :=
  let u := wrap64 (unscaled x) in (u, u =? unscaled x).

(** [quoRem] with the remainder: the quotient and the numerator and denominator of what
    is left. *)
Definition quoRem (x y : Dec) (s : Z) : Dec * Z * Z :=
  let shift := wrap32 (s - wrap32 (dec_scale x - dec_scale y)) in
  let '(ix, iy) :=
    if 0 <? shift then (unscaled x * exp10 shift, unscaled y)
    else if shift <? 0 then (unscaled x, unscaled y * exp10 (wrap32 (- shift)))
    else (unscaled x, unscaled y) in
  (mkDec (Z.quot ix iy) s, Z.rem ix iy, iy).

(** The rounder [RoundUp]: away from zero when anything is left. *)
Definition RoundUp_round (q : Dec) (rA rB : Z) : Dec :=
  if negb (Z.sgn rA =? 0) then mkDec (unscaled q + Z.sgn rA * Z.sgn rB) (dec_scale q) else q.

(** [Round] with the rounder [RoundUp]. *)
Definition Dec_round (x : Dec) (s : Z) : Dec :=
  let '(zz, rA, rB) := quoRem x (mkDec 1 0) s in RoundUp_round zz rA rB.

(** ** Reading a decimal *)

Definition is_digit (c : ascii) : bool :=
  (48 <=? Z.of_nat (nat_of_ascii c)) && (Z.of_nat (nat_of_ascii c) <=? 57).

(** [big.Int.SetString] in base ten: an optional sign and at least one digit. *)
Definition big_SetString (s : string) : option Z :=
  Z.of_int <$>
    match s with
    | String "+" s' => Decimal.Pos <$> NilZero.uint_of_string s'
    | _ => NilZero.int_of_string s
    end.

(** The loop of [scan]: the characters collected, where the point is, the first digit,
    and what is left to read. *)
Fixpoint scan_loop (s unscaled : string) (dp dg : Z) : string * Z * Z * string :=
  match s with
  | "" => (unscaled, dp, dg, "")
  | String ch s' =>
      if bool_decide (ch = "+"%char) || bool_decide (ch = "-"%char) then
        if (0 <? slen unscaled) || (0 <=? dp) then (unscaled, dp, dg, s)
        else scan_loop s' (unscaled +:+ String ch "") dp dg
      else if bool_decide (ch = "."%char) then
        if 0 <=? dp then (unscaled, dp, dg, s) else scan_loop s' unscaled (slen unscaled) dg
      else if is_digit ch then
        scan_loop s' (unscaled +:+ String ch "") dp (if dg =? -1 then slen unscaled else dg)
      else (unscaled, dp, dg, s)
  end.

(** [scan], with what is left to read. *)
Definition scan (s : string) : option (Dec * string) :=
  let '(chars, dp, dg, rest) := scan_loop s "" (-1) (-1) in
  if dg =? -1 then None
  else
    let scale := if 0 <=? dp then wrap32 (slen chars - dp) else 0 in
    match big_SetString chars with
    | None => None
    | Some z => Some (mkDec z scale, rest)
    end.

Definition SetString (s : string) : option Dec :=
  match scan s with
  | Some (z, "") => Some z
  | _ => None
  end.

(** ** What the operations compute *)

(** A decimal as a number and an exponent. *)
Definition dec_amount (d : Dec) : int64Amount := mkAmount (unscaled d) (- dec_scale d).

(** Scales whose differences fit an [int32]. *)
Definition scale_ok (s : Z) : Prop := - 2 ^ 30 < s < 2 ^ 30.

Lemma wrap32_scales a b : scale_ok a → scale_ok b → wrap32 (a - b) = a - b.
Proof. unfold scale_ok. intros. apply wrap32_in. small_scale. lia. Qed.

Lemma wrap32_opp a b : scale_ok a → scale_ok b → wrap32 (- wrap32 (a - b)) = b - a.
Proof.
  intros Ha Hb. rewrite wrap32_scales by done. unfold scale_ok in *. rewrite wrap32_in; small_scale; lia.
Qed.

(** At a larger scale a decimal is the same number, and both operands meet at the larger
    of their scales. *)
Lemma upscale_spec a b :
  scale_ok (dec_scale a) → scale_ok (dec_scale b) →
  let m := Z.max (dec_scale a) (dec_scale b) in
  upscale a b = (mkDec (at_scale (dec_amount a) (- m)) m, mkDec (at_scale (dec_amount b) (- m)) m).
Proof.
  intros Ha Hb m. unfold upscale, at_scale, dec_amount. simpl. destruct a as [x s], b as [y t]; simpl in *.
  destruct (Z.eqb_spec s t) as [->|Hne].
  { assert (m = t) as -> by lia. rewrite Z.sub_diag. simpl. by rewrite !Z.mul_1_r. }
  destruct (Z.ltb_spec t s).
  - assert (m = s) as -> by lia. rewrite Z.sub_diag. simpl. rewrite Z.mul_1_r. f_equal. unfold rescale. simpl.
    rewrite wrap32_scales by done. destruct (Z.ltb_spec (s - t) 0), (Z.ltb_spec 0 (s - t)); try lia.
    unfold exp10. do 3 f_equal. lia.
  - assert (m = t) as -> by lia. rewrite Z.sub_diag. simpl. rewrite Z.mul_1_r. f_equal. unfold rescale. simpl.
    rewrite wrap32_scales by done. destruct (Z.ltb_spec (t - s) 0), (Z.ltb_spec 0 (t - s)); try lia.
    unfold exp10. do 3 f_equal. lia.
Qed.

Lemma Dec_cmp_exact a b :
  scale_ok (dec_scale a) → scale_ok (dec_scale b) → Dec_cmp a b = Dec_Cmp (dec_amount a) (dec_amount b).
Proof.
  intros Ha Hb. unfold Dec_cmp. rewrite upscale_spec by done. unfold Dec_Cmp. simpl.
  rewrite <- Z.opp_max_distr. unfold at_scale, cmp_values, dec_amount. simpl.
  set (x := unscaled a * _). set (y := unscaled b * _).
  destruct (Z.compare_spec x y), (Z.eqb_spec x y), (Z.ltb_spec x y); lia.
Qed.

Lemma Dec_add_exact a b :
  scale_ok (dec_scale a) → scale_ok (dec_scale b) →
  let m := - Z.max (dec_scale a) (dec_scale b) in
  scale (dec_amount (Dec_add a b)) = m ∧
  at_scale (dec_amount (Dec_add a b)) m = at_scale (dec_amount a) m + at_scale (dec_amount b) m.
Proof.
  intros Ha Hb m. unfold Dec_add. rewrite upscale_spec by done. simpl. split; [done|].
  fold m. unfold at_scale at 1. simpl. fold m. rewrite Z.sub_diag. lia.
Qed.

Lemma Dec_sub_exact a b :
  scale_ok (dec_scale a) → scale_ok (dec_scale b) →
  let m := - Z.max (dec_scale a) (dec_scale b) in
  scale (dec_amount (Dec_sub a b)) = m ∧
  at_scale (dec_amount (Dec_sub a b)) m = at_scale (dec_amount a) m - at_scale (dec_amount b) m.
Proof.
  intros Ha Hb m. unfold Dec_sub. rewrite upscale_spec by done. simpl. split; [done|].
  fold m. unfold at_scale at 1. simpl. fold m. rewrite Z.sub_diag. lia.
Qed.

(** A number in units of [10 ^ k], away from zero when [k] is positive. *)
Definition rounded_to (x k : Z) : Z := if 0 <=? k then x * 10 ^ k else round_away x (10 ^ - k).

Lemma Dec_round_exact x s :
  scale_ok (dec_scale x) → scale_ok s →
  Dec_round x s = mkDec (rounded_to (unscaled x) (s - dec_scale x)) s.
Proof.
  intros Hx Hs. unfold Dec_round, quoRem. simpl. rewrite Z.sub_0_r.
  assert (wrap32 (dec_scale x) = dec_scale x) as -> by (apply wrap32_in; unfold scale_ok in *; small_scale; lia).
  rewrite wrap32_opp, wrap32_scales by done. unfold rounded_to, exp10.
  destruct (Z.ltb_spec 0 (s - dec_scale x)); [|destruct (Z.ltb_spec (s - dec_scale x) 0)].
  - destruct (Z.leb_spec 0 (s - dec_scale x)); [|lia]. unfold RoundUp_round. simpl.
    by rewrite Z.rem_1_r, Z.quot_1_r.
  - destruct (Z.leb_spec 0 (s - dec_scale x)); [lia|]. unfold RoundUp_round.
    replace (- (s - dec_scale x)) with (dec_scale x - s) by lia.
    rewrite Z.mul_1_l. set (p := 10 ^ (dec_scale x - s)).
    assert (0 < p) by (apply Z.pow_pos_nonneg; lia). unfold round_away.
    pose proof (Z.rem_sign_mul (unscaled x) p ltac:(lia)). rewrite (Z.sgn_pos p) by done.
    destruct (Z.eqb_spec (Z.rem (unscaled x) p) 0) as [E|E]; [rewrite E; simpl; f_equal; lia|].
    replace (Z.sgn (Z.rem (unscaled x) p) =? 0) with false
      by (symmetry; apply Z.eqb_neq; by rewrite Z.sgn_null_iff).
    assert (unscaled x ≠ 0) by (intros E0; by rewrite E0, Z.rem_0_l in E by lia).
    simpl. f_equal. f_equal. rewrite Z.mul_1_r. set (r := Z.rem (unscaled x) p) in *.
    destruct (Z.sgn_spec (unscaled x)) as [[? ->]|[[? ->]|[? ->]]],
      (Z.sgn_spec r) as [[? ->]|[[? ->]|[? ->]]]; (done || nia).
  - destruct (Z.leb_spec 0 (s - dec_scale x)); [|lia]. replace (s - dec_scale x) with 0 by lia.
    unfold RoundUp_round. simpl. rewrite Z.rem_1_r, Z.quot_1_r. simpl. f_equal. lia.
Qed.

(** ** Digits *)

Definition digit_value (c : ascii) : Z := Z.of_nat (nat_of_ascii c) - 48.

Fixpoint digits_from (s : string) (a : Z) : Z :=
  match s with
  | "" => a
  | String c s => digits_from s (10 * a + digit_value c)
  end.

(** The number that a string of digits stands for. *)
Definition digits_value (s : string) : Z := digits_from s 0.

Notation all_digits := (all_chars is_digit).

Fixpoint uint_from (d : Decimal.uint) (a : Z) : Z :=
  match d with
  | Decimal.Nil => a
  | Decimal.D0 d => uint_from d (10 * a)
  | Decimal.D1 d => uint_from d (10 * a + 1)
  | Decimal.D2 d => uint_from d (10 * a + 2)
  | Decimal.D3 d => uint_from d (10 * a + 3)
  | Decimal.D4 d => uint_from d (10 * a + 4)
  | Decimal.D5 d => uint_from d (10 * a + 5)
  | Decimal.D6 d => uint_from d (10 * a + 6)
  | Decimal.D7 d => uint_from d (10 * a + 7)
  | Decimal.D8 d => uint_from d (10 * a + 8)
  | Decimal.D9 d => uint_from d (10 * a + 9)
  end.

Lemma of_uint_acc_from d p : Z.pos (Pos.of_uint_acc d p) = uint_from d (Z.pos p).
Proof. revert p. induction d; intros p; cbn -[Pos.add Pos.mul]; [done|..]; rewrite IHd; f_equal; lia. Qed.

Lemma of_uint_from d : Z.of_uint d = uint_from d 0.
Proof.
  unfold Z.of_uint. induction d; cbn [Pos.of_uint uint_from]; [done|exact IHd|..];
    simpl; rewrite of_uint_acc_from; done.
Qed.

Lemma is_digit_cases c :
  is_digit c = true → c ∈ ["0"; "1"; "2"; "3"; "4"; "5"; "6"; "7"; "8"; "9"]%char.
Proof.
  destruct c as [[] [] [] [] [] [] [] []]; intros H; try discriminate H; clear H; set_solver.
Qed.

Ltac eval_digit :=
  match goal with
  | |- context [digit_value ?c] => let v := eval vm_compute in (digit_value c) in change (digit_value c) with v
  end.

Lemma uint_of_digits s a :
  all_digits s = true → ∃ d, NilEmpty.uint_of_string s = Some d ∧ uint_from d a = digits_from s a.
Proof.
  revert a. induction s as [|c s IH]; intros a; simpl; [by eexists|].
  intros [Hc Hs]%andb_prop. destruct (IH (10 * a + digit_value c) Hs) as (d & E & <-). rewrite E.
  apply is_digit_cases in Hc. repeat (apply elem_of_cons in Hc as [->|Hc]); [..|by apply elem_of_nil in Hc];
    (eexists; split; [reflexivity|cbn [uint_from]; f_equal; eval_digit; lia]).
Qed.

Lemma slen_app s t : slen (s +:+ t) = slen s + slen t.
Proof. unfold slen. rewrite string_length_app. lia. Qed.

Lemma slen_nonneg s : 0 ≤ slen s.
Proof. unfold slen. lia. Qed.

Lemma digits_from_app s t a : digits_from (s +:+ t) a = digits_from t (digits_from s a).
Proof. revert a. by induction s as [|c s IH]; intros a; simpl. Qed.

Lemma digit_range c : is_digit c = true → 0 ≤ digit_value c ≤ 9.
Proof. unfold is_digit, digit_value. intros [? ?]%andb_prop. lia. Qed.

Lemma digits_from_split s a : digits_from s a = a * 10 ^ slen s + digits_value s.
Proof.
  unfold digits_value, slen. revert a. induction s as [|c s IH]; intros a; cbn [digits_from String.length].
  - simpl. lia.
  - rewrite IH, (IH (10 * 0 + _)), Nat2Z.inj_succ, Z.pow_succ_r by lia. lia.
Qed.

Lemma digits_value_app s t : digits_value (s +:+ t) = digits_value s * 10 ^ slen t + digits_value t.
Proof. unfold digits_value at 1. rewrite digits_from_app. apply digits_from_split. Qed.

Lemma digits_value_range s : all_digits s = true → 0 ≤ digits_value s < 10 ^ slen s.
Proof.
  induction s as [|c s IH]; simpl; [done|]. intros [Hc Hs]%andb_prop. apply digit_range in Hc.
  change (String c s) with (String c "" +:+ s). rewrite digits_value_app.
  unfold slen in *. simpl String.length. rewrite Nat2Z.inj_succ, Z.pow_succ_r by lia.
  assert (digits_value (String c "") = digit_value c) as -> by (unfold digits_value; cbn; lia).
  specialize (IH Hs). nia.
Qed.

Lemma uint_of_digits_ne s :
  all_digits s = true → s ≠ "" → ∃ d, NilZero.uint_of_string s = Some d ∧ Z.of_uint d = digits_value s.
Proof.
  intros Hs Hne. destruct (uint_of_digits s 0 Hs) as (d & E & Hd). exists d.
  split; [by destruct s|]. by rewrite of_uint_from.
Qed.

(** Signs. *)
Definition is_sign (sgn : string) : bool := bool_decide (sgn ∈ [""; "+"; "-"]).
Definition sign_of (sgn : string) : Z := if bool_decide (sgn = "-") then -1 else 1.

Lemma is_sign_cases sgn : is_sign sgn = true → sgn = "" ∨ sgn = "+" ∨ sgn = "-".
Proof. unfold is_sign. rewrite bool_decide_eq_true. set_solver. Qed.

(** An optional sign and digits are read as a number, by [SetString] of a [big.Int] and,
    when it fits, by [ParseInt]. *)
Lemma int_of_digits s :
  all_digits s = true → s ≠ "" →
  match s with
  | String "+" s' => Decimal.Pos <$> NilZero.uint_of_string s'
  | _ => NilZero.int_of_string s
  end = Decimal.Pos <$> NilZero.uint_of_string s.
Proof.
  intros Hs Hne. destruct s as [|c s]; [done|]. simpl in Hs. apply andb_prop in Hs as [Hc _].
  apply is_digit_cases in Hc.
  repeat (apply elem_of_cons in Hc as [->|Hc]); [..|by apply elem_of_nil in Hc];
    unfold NilZero.int_of_string; simpl; destruct (NilEmpty.uint_of_string s); done.
Qed.

Lemma big_SetString_digits sgn s :
  is_sign sgn = true → all_digits s = true → s ≠ "" →
  big_SetString (sgn +:+ s) = Some (sign_of sgn * digits_value s).
Proof.
  intros Hsgn Hs Hne. destruct (uint_of_digits_ne s Hs Hne) as (d & E & Hd). unfold big_SetString.
  apply is_sign_cases in Hsgn as [-> | [-> | ->]]; simpl.
  - rewrite int_of_digits, E by done. simpl. by rewrite Hd, Z.mul_1_l.
  - rewrite E. simpl. by rewrite Hd, Z.mul_1_l.
  - rewrite E. simpl. rewrite Hd. f_equal.
Qed.

Lemma Atoi_digits s :
  all_digits s = true → s ≠ "" → digits_value s ≤ MaxInt64 → Atoi s = Ok (digits_value s).
Proof.
  intros Hs Hne Hmax. destruct (uint_of_digits_ne s Hs Hne) as (d & E & Hd). unfold Atoi.
  rewrite int_of_digits, E by done. simpl. rewrite Hd.
  pose proof (digits_value_range s Hs). unfold MinInt64 in *.
  rewrite !(proj2 (Z.leb_le _ _)) by (change (2 ^ 63) with 9223372036854775808 in *; lia). done.
Qed.

(** A printed number is a minus sign, for a negative one, and digits. *)
Lemma string_of_uint_digits d : all_digits (NilEmpty.string_of_uint d) = true.
Proof. by induction d. Qed.

(** A printed number has no leading zero, and so as few digits as its size allows. *)
Lemma to_uint_head p d : Pos.to_uint p ≠ Decimal.D0 d.
Proof.
  intros E. pose proof (DecimalPos.Unsigned.to_of (Pos.to_uint p)) as H.
  rewrite DecimalPos.Unsigned.of_to in H. simpl in H. rewrite E, unorm_D0 in H. 
  assert (d ≠ Decimal.Nil) as Hd.
  { intros ->. pose proof (DecimalPos.Unsigned.of_to p) as Hp. by rewrite E in Hp. }
  pose proof (nb_digits_unorm d Hd) as Hn. rewrite <- H in Hn. simpl in Hn. lia.
Qed.

Lemma digits_length c s :
  all_digits (String c s) = true → c ≠ "0"%char →
  slen (String c s) ≤ Z.log2 (digits_value (String c s)) + 1.
Proof.
  simpl. intros [Hc Hs]%andb_prop Hne. pose proof (digits_value_range s Hs) as [Hv _].
  change (String c s) with (String c "" +:+ s). rewrite slen_app, digits_value_app.
  assert (digits_value (String c "") = digit_value c) as -> by (unfold digits_value; cbn; lia).
  assert (1 ≤ digit_value c) as Hd.
  { apply is_digit_cases in Hc. repeat (apply elem_of_cons in Hc as [->|Hc]); [done|by vm_compute..|by apply elem_of_nil in Hc]. }
  change (slen (String c "")) with 1. pose proof (slen_nonneg s).
  assert (slen s ≤ Z.log2 (digit_value c * 10 ^ slen s + digits_value s)); [|lia].
  pose proof (Z.pow_le_mono_l 2 10 (slen s) ltac:(lia)). pose proof (Z.pow_pos_nonneg 2 (slen s) ltac:(lia) ltac:(lia)).
  apply Z.log2_le_pow2; nia.
Qed.

Lemma to_uint_digits p :
  let s := NilZero.string_of_uint (Pos.to_uint p) in
  all_digits s = true ∧ s ≠ "" ∧ digits_value s = Z.pos p ∧ slen s ≤ Z.log2 (Z.pos p) + 1.
Proof.
  intros s. pose proof (DecimalPos.Unsigned.to_uint_nonnil p) as Hnn.
  assert (s = NilEmpty.string_of_uint (Pos.to_uint p)) as Es by (unfold s; by destruct (Pos.to_uint p)).
  pose proof (string_of_uint_digits (Pos.to_uint p)) as Hd. rewrite <- Es in Hd.
  assert (s ≠ "") as Hne by (rewrite Es; by destruct (Pos.to_uint p)).
  assert (digits_value s = Z.pos p) as Hv.
  { destruct (uint_of_digits_ne s Hd Hne) as (d & E & <-).
    unfold s in E. rewrite NilZero.usu in E by done. injection E as <-.
    unfold Z.of_uint. by rewrite DecimalPos.Unsigned.of_to. }
  split_and!; [done..|]. rewrite <- Hv. destruct s as [|c s']; [done|]. apply digits_length; [done|]. intros ->.
  pose proof (to_uint_head p). destruct (Pos.to_uint p) as [|d|d|d|d|d|d|d|d|d|d]; try discriminate Es. by destruct (H d).
Qed.

Lemma Itoa_signed_digits z :
  ∃ sgn ds, Itoa z = sgn +:+ ds ∧ is_sign sgn = true ∧ sgn ≠ "+" ∧ all_digits ds = true ∧ ds ≠ "" ∧
            sign_of sgn * digits_value ds = z ∧ slen ds ≤ Z.log2 (Z.abs z) + 1.
Proof.
  destruct z as [|p|p].
  - by exists "", "0".
  - destruct (to_uint_digits p) as (H1 & H2 & H3 & H4). exists "", (NilZero.string_of_uint (Pos.to_uint p)).
    split_and!; try done. by rewrite H3.
  - destruct (to_uint_digits p) as (H1 & H2 & H3 & H4). exists "-", (NilZero.string_of_uint (Pos.to_uint p)).
    split_and!; try done. by rewrite H3.
Qed.

(** ** Reading back a decimal *)

Lemma digit_not_mark c :
  is_digit c = true → c ≠ "+"%char ∧ c ≠ "-"%char ∧ c ≠ "."%char.
Proof. intros Hc. split_and!; intros ->; discriminate Hc. Qed.

(** The loop collects digits. *)
Lemma scan_loop_digits ds rest acc dp dg :
  all_digits ds = true → ds ≠ "" →
  scan_loop (ds +:+ rest) acc dp dg =
  scan_loop rest (acc +:+ ds) dp (if dg =? -1 then slen acc else dg).
Proof.
  revert acc dg. induction ds as [|c ds IH]; intros acc dg; [done|]. simpl.
  intros [Hc Hds]%andb_prop _. destruct (digit_not_mark c Hc) as (H1 & H2 & H3).
  rewrite !bool_decide_false, Hc by done. simpl.
  destruct ds as [|c' ds]; [done|]. rewrite IH by done.
  change (String c (String c' ds)) with (String c "" +:+ String c' ds). rewrite <- string_app_assoc.
  f_equal. pose proof (slen_nonneg acc). destruct (Z.eqb_spec dg (-1)); [|by destruct (Z.eqb_spec dg (-1))].
  destruct (Z.eqb_spec (slen acc) (-1)); lia.
Qed.

(** The fraction of a decimal: a point and digits, or nothing. *)
Definition is_fraction (frac fs : string) : Prop :=
  all_digits fs = true ∧ (frac = "" ∧ fs = "" ∨ frac = "." +:+ fs).

Lemma scan_loop_fraction frac fs acc dg :
  is_fraction frac fs →
  scan_loop frac acc (-1) dg =
  (acc +:+ fs, if bool_decide (frac = "") then -1 else slen acc,
   if bool_decide (fs = "") then dg else if dg =? -1 then slen acc else dg, "").
Proof.
  intros [Hfs [[-> ->]| ->]]; [by rewrite string_app_nil_r|]. simpl.
  destruct (decide (fs = "")) as [->|Hne]; [by rewrite string_app_nil_r|].
  rewrite <- (string_app_nil_r fs) at 1. rewrite scan_loop_digits by done. simpl.
  by rewrite bool_decide_false.
Qed.

(** A sign, digits and a fraction are read as the decimal they stand for. *)
Lemma SetString_decimal sgn ds frac fs :
  is_sign sgn = true → all_digits ds = true → is_fraction frac fs → ds +:+ fs ≠ "" → slen fs < 2 ^ 31 →
  SetString (sgn +:+ ds +:+ frac) = Some (mkDec (sign_of sgn * digits_value (ds +:+ fs)) (slen fs)).
Proof.
  intros Hsgn Hds Hfrac Hne Hlen. pose proof Hfrac as [Hfs _]. unfold SetString, scan.
  assert (scan_loop (sgn +:+ ds +:+ frac) "" (-1) (-1) = scan_loop (ds +:+ frac) sgn (-1) (-1)) as ->.
  { apply is_sign_cases in Hsgn as [-> | [-> | ->]]; done. }
  assert (∃ dg, dg ≠ -1 ∧ scan_loop (ds +:+ frac) sgn (-1) (-1) =
    ((sgn +:+ ds) +:+ fs, if bool_decide (frac = "") then -1 else slen (sgn +:+ ds), dg, "")) as (dg & Hdg & ->).
  { pose proof (slen_nonneg sgn). destruct (decide (ds = "")) as [->|Hds'].
    - simpl. rewrite string_app_nil_r. simpl in Hne. rewrite (scan_loop_fraction frac fs) by done.
      rewrite (bool_decide_false (fs = "")) by done. simpl. eexists. split; [|done]. lia.
    - rewrite scan_loop_digits by done. rewrite (scan_loop_fraction frac fs) by done. simpl.
      pose proof (slen_nonneg (sgn +:+ ds)).
      eexists. split; [|done]. destruct (Z.eqb_spec (slen sgn) (-1)); case_bool_decide; lia. }
  destruct (Z.eqb_spec dg (-1)); [done|]. rewrite string_app_assoc.
  rewrite big_SetString_digits by (done || by rewrite all_chars_app, Hds, Hfs). f_equal. f_equal.
  pose proof (slen_nonneg (sgn +:+ ds)). pose proof (slen_nonneg fs). case_bool_decide as Ef.
  - destruct Hfrac as [_ [[_ ->]| ->]]; [done|]. discriminate Ef.
  - destruct (Z.leb_spec 0 (slen (sgn +:+ ds))); [|lia]. rewrite <- string_app_assoc, !slen_app.
    rewrite slen_app in *. rewrite wrap32_in; [lia|]. small_scale. lia.
Qed.
