(* ===== verification/ResourceQuantity.v ===== *)
(** * Resource quantities

    [quantity.go], [suffix.go], [scale_int.go] and the big decimals of [amount.go], in
    [staging/src/k8s.io/apimachinery/pkg/api/resource]: what a quantity is, how it is
    parsed, printed and computed with. A quantity is passed by value: the decimal that
    copies of a Go quantity share through a pointer belongs to one quantity here, as it
    does after [Copy] and [DeepCopy]. *)

From S2P Require Import Prelude GoStrings GoSpace GoStrconv GoInt Int64Amount Validation InfDec.

(** ** Suffixes *)

(** [Format] is a string type in Go. *)
Notation Format := string.
Definition DecimalExponent : Format := "DecimalExponent".
Definition BinarySI : Format := "BinarySI".
Definition DecimalSI : Format := "DecimalSI".

Notation bePair := (Z * Z)%type.

(** The two maps of bytes and of strings hold the same suffixes. *)
Record listSuffixer : Type := mkListSuffixer {
  suffixToBE : gmap string bePair;
  beToSuffix : gmap bePair string;
}.

Definition addSuffix (ls : listSuffixer) (s : string) (be : bePair) : listSuffixer :=
  mkListSuffixer (<[s := be]> (suffixToBE ls)) (<[be := s]> (beToSuffix ls)).

Definition lookup_suffix (ls : listSuffixer) (s : string) : option bePair := suffixToBE ls !! s.

Definition ls_construct (ls : listSuffixer) (base exponent : Z) : option string :=
  beToSuffix ls !! (base, exponent).

Record suffixHandler : Type := mkSuffixHandler {
  decSuffixes : listSuffixer;
  binSuffixes : listSuffixer;
}.

Definition newSuffixer : suffixHandler :=
  let none := mkListSuffixer ∅ ∅ in
  let bin :=
    foldl (λ ls '(s, be), addSuffix ls s be) none
      [("Ki", (2, 10)); ("Mi", (2, 20)); ("Gi", (2, 30)); ("Ti", (2, 40)); ("Pi", (2, 50)); ("Ei", (2, 60))] in
  let dec :=
    foldl (λ ls '(s, be), addSuffix ls s be) none
      [("", (2, 0)); ("n", (10, -9)); ("u", (10, -6)); ("m", (10, -3)); ("", (10, 0)); ("k", (10, 3));
       ("M", (10, 6)); ("G", (10, 9)); ("T", (10, 12)); ("P", (10, 15)); ("E", (10, 18))] in
  mkSuffixHandler dec bin.

(** [suffixHandler.interpret]; [None] for the false of Go. *)
Definition sh_interpret (sh : suffixHandler) (suffix : string) : option (Z * Z * Format) :=
  match lookup_suffix (decSuffixes sh) suffix with
  | Some (b, e) => Some (b, e, DecimalSI)
  | None =>
      match lookup_suffix (binSuffixes sh) suffix with
      | Some (b, e) => Some (b, e, BinarySI)
      | None =>
          match suffix with
          | String c rest =>
              if (1 <? slen suffix) && (bool_decide (c = "E"%char) || bool_decide (c = "e"%char)) then
                match Atoi rest with
                | Err _ => None
                | Ok parsed => Some (10, wrap32 parsed, DecimalExponent)
                end
              else None
          | "" => None
          end
      end
  end.

(** [fastLookup.interpret] *)
Definition interpret (s : string) : option (Z * Z * Format) :=
  if bool_decide (s = "") then Some (10, 0, DecimalSI)
  else if bool_decide (s = "n") then Some (10, -9, DecimalSI)
  else if bool_decide (s = "u") then Some (10, -6, DecimalSI)
  else if bool_decide (s = "m") then Some (10, -3, DecimalSI)
  else if bool_decide (s = "k") then Some (10, 3, DecimalSI)
  else if bool_decide (s = "M") then Some (10, 6, DecimalSI)
  else if bool_decide (s = "G") then Some (10, 9, DecimalSI)
  else sh_interpret newSuffixer s.

(** [construct] and [constructBytes], which differ in the type of the result. *)
Definition construct (base exponent : Z) (fmt : Format) : option string :=
  if bool_decide (fmt = DecimalSI) then ls_construct (decSuffixes newSuffixer) base exponent
  else if bool_decide (fmt = BinarySI) then ls_construct (binSuffixes newSuffixer) base exponent
  else if bool_decide (fmt = DecimalExponent) then
    if negb (base =? 10) then None
    else if exponent =? 0 then Some ""
    else Some ("e" +:+ Itoa exponent)
  else None.

(** ** Quantities *)

Definition Nano : Z := -9.
Definition Milli : Z := -3.

Definition infScale (s : Z) : Z := wrap32 (- s).

(** The amount is [q_i] unless [q_d] is set; [q_s] is the printed form when it has been
    computed or was parsed, and empty otherwise. *)
Record Quantity : Type := mkQuantity {
  q_i : int64Amount;
  q_d : option Dec;
  q_s : string;
  q_format : Format;
}.

#[global] Instance Quantity_eq_dec : EqDecision Quantity.
Proof. solve_decision. Defined.

Definition Zero : int64Amount := mkAmount 0 0.

Inductive QuantityError : Type :=
  | ErrFormatWrong
  | ErrNumeric
  | ErrSuffix.

#[global] Instance QuantityError_eq_dec : EqDecision QuantityError.
Proof. solve_decision. Defined.

(** ** Parsing *)

(** A loop over the characters of a class: what it passes and what is left. *)
Fixpoint span (f : ascii → bool) (s : string) : string * string :=
  match s with
  | "" => ("", "")
  | String c s' => if f c then let '(a, b) := span f s' in (String c a, b) else ("", s)
  end.

Record Parsed : Type := mkParsed {
  positive : bool;
  p_value : string;
  p_num : string;
  p_denom : string;
  p_suffix : string;
}.

Definition suffix_char (c : ascii) : bool := ContainsChar "eEinumkKMGTP" c.

(** [str[0:pos]], when [rest] is [str[pos:]]. *)
Definition before (str rest : string) : string :=
  String.substring 0 (String.length str - String.length rest) str.

Definition parse_sign (str : string) : bool * string :=
  match str with
  | String c rest =>
      if bool_decide (c = "-"%char) then (false, rest)
      else if bool_decide (c = "+"%char) then (true, rest)
      else (true, str)
  | "" => (true, "")
  end.

(** The end of [parseQuantityString], from the suffix on. *)
Definition parse_suffix (positive : bool) (str num denom suffix : string) : result QuantityError Parsed :=
  let parsed := mkParsed positive (before str suffix) num denom suffix in
  match (span suffix_char suffix).2 with
  | "" => Ok parsed
  | String c rest as all =>
      let rest := if bool_decide (c = "-"%char) || bool_decide (c = "+"%char) then rest else all in
      match (span is_digit rest).2 with
      | "" => Ok parsed
      | _ => Err ErrFormatWrong
      end
  end.

Definition parseQuantityString (str : string) : result QuantityError Parsed :=
  let '(positive, rest) := parse_sign str in
  match (span (λ c, bool_decide (c = "0"%char)) rest).2 with
  | "" => Ok (mkParsed positive "0" "0" "" "")
  | rest =>
      let '(num, rest) := span is_digit rest in
      match rest with
      | "" => Ok (mkParsed positive str num "" "")
      | String c rest' =>
          let num := if bool_decide (num = "") then "0" else num in
          if bool_decide (c = "."%char) then
            let '(denom, rest) := span is_digit rest' in
            match rest with
            | "" => Ok (mkParsed positive str num denom "")
            | _ => parse_suffix positive str num denom rest
            end
          else parse_suffix positive str num "" rest
      end
  end.

Definition maxInt64Factors : Z := 18.

(** Precision, scale and mantissa, as the format of the suffix has them. The product with
    a [float32] is exact for the exponents of binary suffixes. *)
Definition parse_scale (num denom : string) (exponent : Z) (format : Format) : Z * Z * Z :=
  if bool_decide (format = BinarySI) then
    if (0 <=? exponent) && (slen denom =? 0) then
      (wrap32 (15 - wrap32 (slen num) - exponent * 3 / 10 - 1), 0, wrap64 (Z.shiftl 1 exponent))
    else (-1, 0, 1)
  else (wrap32 (maxInt64Factors - wrap32 (slen num + slen denom)), exponent, 1).

(** The fast path; [None] when it does not apply. *)
Definition parse_fast (str : string) (p : Parsed) (exponent : Z) (format : Format)
    : option (result QuantityError Quantity) :=
  let '(precision, scale, mantissa) := parse_scale (p_num p) (p_denom p) exponent format in
  if negb (0 <=? precision) then None
  else
    let scale := wrap32 (scale - wrap32 (slen (p_denom p))) in
    if negb (Nano <=? scale) then None
    else
      let shifted := p_num p +:+ p_denom p in
      match Atoi shifted with
      | Err _ => Some (Err ErrNumeric)
      | Ok value =>
          match int64Multiply value mantissa with
          | None => None
          | Some result =>
              let result := if positive p then result else wrap64 (- result) in
              let reuse :=
                if bool_decide (format = BinarySI) then
                  (Z.rem exponent 10 =? 0) && negb (Z.land value 7 =? 0)
                else
                  (Z.rem scale 3 =? 0) && negb (HasSuffix shifted "000") && negb (HasPrefix shifted "0") in
              Some (Ok (mkQuantity (mkAmount result scale) None (if reuse then str else "") format))
          end
      end.

Definition maxAllowed : Dec := mkDec (2 ^ 63 - 1) 0.
Definition decZero : Dec := mkDec 0 0.
Definition decOne : Dec := mkDec 1 0.

(** The slow path, from the decimal before the suffix. *)
Definition parse_slow (p : Parsed) (base exponent : Z) (format : Format) : result QuantityError Quantity :=
  match SetString (p_value p) with
  | None => Err ErrNumeric
  | Some amount =>
      let amount :=
        if base =? 10 then mkDec (unscaled amount) (wrap32 (dec_scale amount + infScale exponent))
        else if base =? 2 then mkDec (unscaled amount * Z.shiftl 1 exponent) (dec_scale amount)
        else amount in
      let sign := Dec_sign amount in
      let amount := if sign =? -1 then Dec_neg amount else amount in
      let '(v, ok) := Unscaled amount in
      let amount := if negb (v =? 0) || negb ok then Dec_round amount (infScale Nano) else amount in
      let binary := bool_decide (format = BinarySI) in
      let amount := if binary && (0 <? Dec_cmp amount maxAllowed) then maxAllowed else amount in
      let format :=
        if binary && (Dec_cmp amount decOne <? 0) && (0 <? Dec_cmp amount decZero) then DecimalSI else format in
      let amount := if sign =? -1 then Dec_neg amount else amount in
      Ok (mkQuantity Zero (Some amount) "" format)
  end.

Definition ParseQuantity (str : string) : result QuantityError Quantity :=
  if slen str =? 0 then Err ErrFormatWrong
  else if bool_decide (str = "0") then Ok (mkQuantity Zero None str DecimalSI)
  else
    match parseQuantityString str with
    | Err e => Err e
    | Ok p =>
        match interpret (p_suffix p) with
        | None => Err ErrSuffix
        | Some (base, exponent, format) =>
            match parse_fast str p exponent format with
            | Some r => r
            | None => parse_slow p base exponent format
            end
        end
    end.

(** ** Amounts of either kind *)

(** [int64Amount.AsDec] *)
Definition AsDec (a : int64Amount) : Dec := mkDec (value a) (wrap32 (- scale a)).

(** [infDecAmount.AsScale] *)
Definition Dec_AsScale (a : Dec) (s : Z) : Dec * bool :=
  let tmp := Dec_round a (infScale s) in (tmp, Dec_cmp tmp a =? 0).

(** [infDecAmount.AsCanonicalBytes], before the number is printed. *)
Definition Dec_AsCanonical (a : Dec) : Z * Z :=
  Dec_canonical (mkAmount (unscaled a) (wrap32 (- dec_scale a))).

(** The methods [AsCanonicalBase1024Bytes], before the number is printed. *)
Definition Dec_AsCanonicalBase1024 (a : Dec) : Z * Z :=
  removeBigIntFactors (unscaled (Dec_round a 0)) 1024.

Definition AsCanonicalBase1024 (a : int64Amount) : Z * Z :=
  match AsScaledInt64 a 0 with
  | None => Dec_AsCanonicalBase1024 (AsDec a)
  | Some value => removeInt64Factors value 1024
  end.

(** The amount of a quantity, as the interface [CanonicalValue] has it. *)
Definition CanonicalValue : Type := int64Amount + Dec.

Definition canonical_base1024 (v : CanonicalValue) : Z * Z :=
  match v with inl a => AsCanonicalBase1024 a | inr d => Dec_AsCanonicalBase1024 d end.

(** ** The methods of a quantity

    A method that changes its receiver returns it. *)

Definition Quantity_AsCanonical (q : Quantity) : Z * Z :=
  match q_d q with Some d => Dec_AsCanonical d | None => canonical (q_i q) end.

Definition IsZero (q : Quantity) : bool :=
  match q_d q with Some d => Dec_sign d =? 0 | None => value (q_i q) =? 0 end.

Definition Quantity_Sign (q : Quantity) : Z :=
  match q_d q with Some d => Dec_sign d | None => Sign (q_i q) end.

Definition Quantity_AsInt64 (q : Quantity) : option Z :=
  match q_d q with Some _ => None | None => AsInt64 (q_i q) end.

Definition Quantity_AsScale (q : Quantity) (s : Z) : CanonicalValue * bool :=
  match q_d q with
  | Some d => let '(tmp, exact) := Dec_AsScale d s in (inr tmp, exact)
  | None => let '(a, exact) := AsScale (q_i q) s in (inl a, exact)
  end.

Definition CmpInt64 (q : Quantity) (y : Z) : Z :=
  match q_d q with
  | Some d => Dec_cmp d (mkDec y 0)
  | None => Cmp (q_i q) (mkAmount y 0)
  end.

(** [CanonicalizeBytes] up to the printing: the format that is used, the number and the
    exponent; [None] for zero. *)
Definition canonical_parts (q : Quantity) : option (Format * Z * Z) :=
  if IsZero q then None
  else
    let format := q_format q in
    let '(format, rounded) :=
      if bool_decide (format = DecimalExponent) || bool_decide (format = DecimalSI) then (format, None)
      else if bool_decide (format = BinarySI) then
        if (0 <? CmpInt64 q (-1024)) && (CmpInt64 q 1024 <? 0) then (DecimalSI, None)
        else
          let '(rounded, exact) := Quantity_AsScale q 0 in
          (if exact then format else DecimalSI, Some rounded)
      else (DecimalExponent, None) in
    if bool_decide (format = BinarySI) then
      let '(number, exponent) := default (0, 0) (canonical_base1024 <$> rounded) in
      Some (format, number, exponent)
    else
      let '(number, exponent) := Quantity_AsCanonical q in
      Some (format, number, exponent).

Definition CanonicalizeBytes (q : Quantity) : string * string :=
  match canonical_parts q with
  | None => ("0", "")
  | Some (format, number, exponent) =>
      let suffix :=
        if bool_decide (format = BinarySI) then construct 2 (wrap32 (exponent * 10)) format
        else construct 10 exponent format in
      (Itoa number, default "" suffix)
  end.

Definition set_s (q : Quantity) (s : string) : Quantity := mkQuantity (q_i q) (q_d q) s (q_format q).
Definition set_format (q : Quantity) (f : Format) : Quantity := mkQuantity (q_i q) (q_d q) (q_s q) f.
Definition set_i (q : Quantity) (a : int64Amount) : Quantity := mkQuantity a (q_d q) (q_s q) (q_format q).
Definition set_d (q : Quantity) (d : option Dec) : Quantity := mkQuantity (q_i q) d (q_s q) (q_format q).

Definition Quantity_String (q : Quantity) : string * Quantity :=
  if slen (q_s q) =? 0 then
    let '(number, suffix) := CanonicalizeBytes q in
    let s := number +:+ suffix in (s, set_s q s)
  else (q_s q, q).

Definition ToDec (q : Quantity) : Quantity :=
  match q_d q with
  | Some _ => q
  | None => set_i (set_d q (Some (AsDec (q_i q)))) Zero
  end.

(** [Quantity.AsDec], with the decimal that it returns. *)
Definition Quantity_AsDec (q : Quantity) : Dec * Quantity :=
  match q_d q with
  | Some d => (d, q)
  | None => let d := AsDec (q_i q) in (d, set_i (set_d q (Some d)) Zero)
  end.

(** Replaces the decimal of a quantity that has one. *)
Definition update_dec (q : Quantity) (f : Dec → Dec) : Quantity := set_d q (f <$> q_d q).

Definition RoundUp (q : Quantity) (s : Z) : bool * Quantity :=
  match q_d q with
  | Some d => let '(d, exact) := Dec_AsScale d s in (exact, set_d (set_s q "") (Some d))
  | None =>
      if s <=? scale (q_i q) then (true, q)
      else let '(i, exact) := AsScale (q_i q) s in (exact, set_i (set_s q "") i)
  end.

Definition Quantity_Add (q y : Quantity) : Quantity :=
  let q := set_s q "" in
  let slow q := update_dec (ToDec q) (λ d, Dec_add d (Quantity_AsDec y).1) in
  match q_d q, q_d y with
  | None, None =>
      let q := if value (q_i q) =? 0 then set_format q (q_format y) else q in
      let '(ok, i) := Add (q_i q) (q_i y) in
      if ok then set_i q i else slow (set_i q i)
  | _, _ => slow (if IsZero q then set_format q (q_format y) else q)
  end.

Definition Quantity_Sub (q y : Quantity) : Quantity :=
  let q := set_s q "" in
  let q := if IsZero q then set_format q (q_format y) else q in
  let slow q := update_dec (ToDec q) (λ d, Dec_sub d (Quantity_AsDec y).1) in
  match q_d q, q_d y with
  | None, None =>
      let '(ok, i) := Sub (q_i q) (q_i y) in
      if ok then set_i q i else slow (set_i q i)
  | _, _ => slow q
  end.

(** [Cmp], with the receiver, which a comparison of decimals promotes. *)
Definition Quantity_Cmp (q y : Quantity) : Z * Quantity :=
  match q_d q, q_d y with
  | None, None => (Cmp (q_i q) (q_i y), q)
  | _, _ => let '(d, q') := Quantity_AsDec q in (Dec_cmp d (Quantity_AsDec y).1, q')
  end.

Definition Neg (q : Quantity) : Quantity :=
  let q := set_s q "" in
  match q_d q with
  | None => set_i q (mkAmount (wrap64 (- value (q_i q))) (scale (q_i q)))
  | Some d => set_d q (Some (Dec_neg d))
  end.

(** [Copy] leaves out the integer amount that a decimal replaces. *)
Definition Copy (q : Quantity) : Quantity :=
  match q_d q with
  | None => mkQuantity (q_i q) None (q_s q) (q_format q)
  | Some d => mkQuantity Zero (Some d) (q_s q) (q_format q)
  end.

Definition DeepCopy (q : Quantity) : Quantity := set_d q (q_d q).

(** [MustParse]; [None] is the panic. *)
Definition MustParse (str : string) : option Quantity :=
  match ParseQuantity str with Ok q => Some q | Err _ => None end.

Definition NewQuantity (value : Z) (format : Format) : Quantity :=
  mkQuantity (mkAmount value 0) None "" format.

Definition NewMilliQuantity (value : Z) (format : Format) : Quantity :=
  mkQuantity (mkAmount value (-3)) None "" format.

Definition NewScaledQuantity (value scale : Z) : Quantity :=
  mkQuantity (mkAmount value scale) None "" DecimalSI.

Definition SetScaled (q : Quantity) (value scale : Z) : Quantity :=
  set_i (set_d (set_s q "") None) (mkAmount value scale).

Definition Quantity_Set (q : Quantity) (value : Z) : Quantity := SetScaled q value 0.
Definition SetMilli (q : Quantity) (value : Z) : Quantity := SetScaled q value Milli.

(** ** Integers from quantities *)

(** What a multiplication by ten leaves when it overflows, and the value of
    [positiveScaleInt64], whose second result [ScaledValue] does not look at. *)
Definition scaled_product (a b : Z) : Z :=
  if (a =? 0) || (a =? 1) then wrap64 (a * b)
  else if (a =? mostNegative) && negb (b =? 1) then 0
  else wrap64 (a * b).

Definition positiveScale_value (base scale : Z) : Z :=
  if scale =? 0 then base
  else if scale =? 1 then scaled_product base 10
  else if scale =? 2 then scaled_product base 100
  else if scale =? 3 then scaled_product base 1000
  else if scale =? 6 then scaled_product base 1000000
  else if scale =? 9 then scaled_product base 1000000000
  else default 0 (scale_loop (Z.to_nat scale) base).

Definition AsScaledInt64_value (a : int64Amount) (s : Z) : Z :=
  if scale a <? s then (negativeScaleInt64 (value a) (wrap32 (s - scale a))).1
  else positiveScale_value (value a) (wrap32 (scale a - s)).

Section Values.

(** What the conversion of [10 ^ n] from a float to an [int64] gives when it does not
    fit, which the language leaves open. *)
Context (out_of_range : Z → Z).

Definition int64_Pow10 (n : Z) : Z := if n <=? 18 then 10 ^ n else out_of_range n.

Definition scaledValue (unscaled scale newScale : Z) : Z :=
  let dif := scale - newScale in
  if dif =? 0 then wrap64 unscaled
  else if dif <? 0 then wrap64 (wrap64 unscaled * int64_Pow10 (- dif))
  else if (unscaled <? 2 ^ 63 - 1) && (dif <? 19) then
    let divide := int64_Pow10 dif in
    let result := div64 (wrap64 unscaled) divide in
    if negb (Z.rem (wrap64 unscaled) divide =? 0) then wrap64 (result + 1) else result
  else
    let divisor := 10 ^ dif in
    let result := wrap64 (unscaled / divisor) in
    if negb (unscaled mod divisor =? 0) then wrap64 (result + 1) else result.

Definition ScaledValue (q : Quantity) (s : Z) : Z :=
  match q_d q with
  | None => AsScaledInt64_value (q_i q) s
  | Some d => scaledValue (unscaled d) (dec_scale d) (infScale s)
  end.

Definition Quantity_Value (q : Quantity) : Z := ScaledValue q 0.
Definition Quantity_MilliValue (q : Quantity) : Z := ScaledValue q Milli.

End Values.

(** ** JSON *)

Definition quote : string := bytes [34]%nat.

Definition MarshalJSON (q : Quantity) : string :=
  if 0 <? slen (q_s q) then quote +:+ q_s q +:+ quote
  else let '(number, suffix) := CanonicalizeBytes q in quote +:+ number +:+ suffix +:+ quote.

(** [UnmarshalJSON] of a receiver. *)
Definition UnmarshalJSON (q : Quantity) (data : string) : result QuantityError Quantity :=
  if bool_decide (data = "null") then Ok (set_i (set_d q None) Zero)
  else
    let data :=
      if (2 <=? slen data) && HasPrefix data quote && HasSuffix data quote
      then String.substring 1 (String.length data - 2) data else data in
    ParseQuantity (TrimSpace data).
