(* ===== verification/QuantityParse.v ===== *)
(** * What parsing a quantity yields

    [ParseQuantity] of [ResourceQuantity.v] has a fast path in machine integers and a
    slow path in decimals of any size. Both implement one account: a sign, digits, a
    fraction and a suffix stand for a number, which is rounded up to nano units and,
    with a binary suffix, capped. *)

From S2P Require Import Prelude GoStrings GoStrconv GoInt Int64Amount Validation InfDec ResourceQuantity.
From Stdlib Require Import DecimalString.

(** ** Suffixes *)

Lemma uint_of_string_digits s d : NilEmpty.uint_of_string s = Some d → all_digits s = true.
Proof.
  revert d. induction s as [|c s IH]; intros d; [done|]. simpl.
  destruct (NilEmpty.uint_of_string s) as [d'|]; [|done].
  intros H. rewrite (IH d') by done. rewrite andb_true_r.
  destruct c as [[] [] [] [] [] [] [] []]; (reflexivity || discriminate H).
Qed.

Lemma NilZero_digits s d : NilZero.uint_of_string s = Some d → all_digits s = true ∧ s ≠ "".
Proof. destruct s as [|c s]; [done|]. intros H. split; [by eapply uint_of_string_digits|done]. Qed.

(** What [ParseInt] accepts is an optional sign and digits. *)
Lemma Atoi_inv s z :
  Atoi s = Ok z → ∃ sgn ds, s = sgn +:+ ds ∧ is_sign sgn = true ∧ all_digits ds = true ∧ ds ≠ "".
Proof.
  intros H. unfold Atoi in H.
  assert (∃ d, match s with
               | String "+" s' => Decimal.Pos <$> NilZero.uint_of_string s'
               | _ => NilZero.int_of_string s
               end = Some d) as [d Hd] by (destruct (match s with String "+" _ => _ | _ => _ end); [by eexists|done]).
  clear H. destruct s as [|c s]; [done|]. destruct (decide (c = "+"%char)) as [->|H1].
  { apply fmap_Some in Hd as (u & Hu%NilZero_digits & _). by exists "+", s. }
  destruct (decide (c = "-"%char)) as [->|H2].
  { simpl in Hd. unfold NilZero.int_of_string in Hd. simpl in Hd.
    destruct (NilZero.uint_of_string s) as [u|] eqn:E; [|done].
    apply NilZero_digits in E. by exists "-", s. }
  exists "", (String c s). cut (all_digits (String c s) = true); [done|].
  assert (NilZero.int_of_string (String c s) = Some d) as Hd'.
  { destruct c as [[] [] [] [] [] [] [] []]; first [exact Hd|by destruct H1]. }
  unfold NilZero.int_of_string in Hd'. rewrite (proj2 (Ascii.eqb_neq _ _) H2) in Hd'.
  destruct (NilZero.uint_of_string (String c s)) as [u|] eqn:E; [by apply NilZero_digits in E as [E _]|done].
Qed.

(** A loop stops in front of a character that is not in its class. *)
Definition stops (f : ascii → bool) (s : string) : Prop :=
  match s with "" => True | String c _ => f c = false end.

Lemma span_app f a b : all_chars f a = true → stops f b → span f (a +:+ b) = (a, b).
Proof.
  intros Ha Hb. induction a as [|c a IH]; simpl in *.
  - destruct b as [|c b]; simpl in *; [done|]. by rewrite Hb.
  - apply andb_prop in Ha as [-> Ha]. by rewrite IH.
Qed.

Lemma span_spec f s : s = (span f s).1 +:+ (span f s).2 ∧ all_chars f (span f s).1 = true ∧ stops f (span f s).2.
Proof.
  induction s as [|c s IH]; simpl; [done|]. destruct (f c) eqn:E; [|by simpl].
  destruct (span f s) as [a b]; simpl in *. destruct IH as (-> & Ha & Hb). by rewrite E.
Qed.

(** The suffixes that are interpreted are scanned as suffixes, and none continues a
    number. *)
Definition scans_as_suffix (suf : string) : Prop :=
  (∀ pos str num denom, parse_suffix pos str num denom suf = Ok (mkParsed pos (before str suf) num denom suf)) ∧
  stops is_digit suf ∧ stops (λ c, bool_decide (c = "."%char)) suf.

Definition suffix_meaning (base e : Z) (f : Format) : Prop :=
  base = 10 ∧ f ≠ BinarySI ∨ base = 2 ∧ f = BinarySI ∧ e ∈ [10; 20; 30; 40; 50; 60].

Lemma exponent_suffix c rest z :
  c = "E"%char ∨ c = "e"%char → Atoi rest = Ok z → scans_as_suffix (String c rest).
Proof.
  intros Hc (sgn & ds & -> & Hsgn & Hds & Hne)%Atoi_inv.
  assert (suffix_char c = true) as Hsc by (destruct Hc; by subst).
  split; [|by destruct Hc; subst]. intros pos str num denom. unfold parse_suffix. set (b := before _ _).
  destruct ds as [|d ds]; [done|]. pose proof Hds as [Hd _]%andb_prop.
  assert (stops suffix_char (sgn +:+ String d ds)) as Hstop.
  { apply is_sign_cases in Hsgn as [-> | [-> | ->]]; [|done..]. simpl.
    apply is_digit_cases in Hd. repeat (apply elem_of_cons in Hd as [->|Hd]); [done..|by apply elem_of_nil in Hd]. }
  change (String c (sgn +:+ String d ds)) with (String c "" +:+ (sgn +:+ String d ds)).
  rewrite (span_app suffix_char (String c "")) by (done || (simpl; by rewrite Hsc)). simpl.
  assert (span is_digit (String d ds) = (String d ds, "")) as E.
  { rewrite <- (string_app_nil_r (String d ds)) at 1. by apply span_app. }
  destruct (digit_not_mark d Hd) as (H1 & H2 & _).
  destruct (is_sign_cases _ Hsgn) as [-> | [-> | ->]]; cbn -[span bool_decide is_digit].
  - rewrite !bool_decide_false by done. cbn -[span is_digit]. by rewrite E.
  - rewrite (bool_decide_true ("+"%char = "+"%char)), orb_true_r by done. by rewrite E.
  - rewrite (bool_decide_true ("-"%char = "-"%char)) by done. cbn -[span is_digit]. by rewrite E.
Qed.

Lemma table_suffix suf :
  suf ∈ [""; "n"; "u"; "m"; "k"; "M"; "G"; "T"; "P"; "E"; "Ki"; "Mi"; "Gi"; "Ti"; "Pi"; "Ei"] →
  scans_as_suffix suf.
Proof.
  intros H. repeat (apply elem_of_cons in H as [->|H]); [by split..|by apply elem_of_nil in H].
Qed.

Lemma lookup_in {K A} `{Countable K} (m : gmap K A) k x :
  m !! k = Some x → (k, x) ∈ map_to_list m.
Proof. apply elem_of_map_to_list. Qed.

Lemma interpret_scans suf base e f :
  interpret suf = Some (base, e, f) → scans_as_suffix suf ∧ suffix_meaning base e f.
Proof.
  unfold interpret. repeat case_bool_decide; try (intros [= <- <- <-]; subst; split; [by apply table_suffix; set_solver|by left]).
  unfold sh_interpret, lookup_suffix. destruct (suffixToBE (decSuffixes newSuffixer) !! suf) as [[b x]|] eqn:E1.
  { apply lookup_in in E1. intros [= <- <- <-].
    set (l := map_to_list _) in E1. vm_compute in l. subst l.
    repeat (apply elem_of_cons in E1 as [[= -> -> ->]|E1]); [..|by apply elem_of_nil in E1];
      (split; [by apply table_suffix; set_solver|by left]). }
  destruct (suffixToBE (binSuffixes newSuffixer) !! suf) as [[b x]|] eqn:E2.
  { apply lookup_in in E2. intros [= <- <- <-].
    set (l := map_to_list _) in E2. vm_compute in l. subst l.
    repeat (apply elem_of_cons in E2 as [[= -> -> ->]|E2]); [..|by apply elem_of_nil in E2];
      (split; [by apply table_suffix; set_solver|right; split_and!; [done|done|set_solver]]). }
  destruct suf as [|c rest]; [done|].
  destruct ((1 <? _) && _) eqn:Ec; [|done]. apply andb_prop in Ec as [_ Ec].
  rewrite orb_true_iff, !bool_decide_eq_true in Ec.
  destruct (Atoi rest) as [z|] eqn:Ez; [|done]. intros [= <- <- <-].
  split; [by eapply exponent_suffix|by left].
Qed.

(** ** Scanning *)

Lemma substring_app a b : String.substring 0 (String.length a) (a +:+ b) = a.
Proof. induction a as [|c a IH]; simpl; [by destruct b|]. by rewrite IH. Qed.

Lemma before_app a b : before (a +:+ b) b = a.
Proof.
  unfold before. rewrite string_length_app.
  replace (String.length a + String.length b - String.length b)%nat with (String.length a) by lia.
  apply substring_app.
Qed.

Lemma parse_sign_spec sgn rest :
  is_sign sgn = true → stops (λ c, bool_decide (c = "+"%char) || bool_decide (c = "-"%char)) rest →
  parse_sign (sgn +:+ rest) = (bool_decide (sgn ≠ "-"), rest).
Proof.
  intros Hsgn Hrest. apply is_sign_cases in Hsgn as [-> | [-> | ->]]; [|done..]. simpl. unfold parse_sign.
  destruct rest as [|c rest]; [done|]. simpl in Hrest. apply orb_false_elim in Hrest as [H1 H2]. by rewrite H1, H2.
Qed.

(** What the scanner finds in a sign, digits, a fraction and a suffix. *)
Definition scanned (sgn ds frac fs suf : string) (p : Parsed) : Prop :=
  positive p = bool_decide (sgn ≠ "-") ∧ p_denom p = fs ∧ p_suffix p = suf ∧
  all_digits (p_num p) = true ∧ p_num p ≠ "" ∧ slen (p_num p) ≤ slen ds + 1 ∧
  digits_value (p_num p +:+ fs) = digits_value (ds +:+ fs) ∧
  (p_value p = sgn +:+ ds +:+ frac ∨ p_value p = "0" ∧ fs = "" ∧ digits_value ds = 0).

Lemma zeros_value z : all_chars (λ c, bool_decide (c = "0"%char)) z = true → digits_value z = 0.
Proof.
  induction z as [|c z IH]; simpl; [done|]. intros [Hc%bool_decide_eq_true Hz]%andb_prop. subst c. by apply IH.
Qed.

Lemma zeros_prefix z s :
  all_chars (λ c, bool_decide (c = "0"%char)) z = true → digits_value (z +:+ s) = digits_value s.
Proof. intros Hz. by rewrite digits_value_app, zeros_value. Qed.

Lemma zero_num n fs : digits_value ((if bool_decide (n = "") then "0" else n) +:+ fs) = digits_value (n +:+ fs).
Proof. case_bool_decide as E; [|done]. by subst n. Qed.

Lemma stops_digit_fraction frac fs suf :
  is_fraction frac fs → stops is_digit suf → stops is_digit (frac +:+ suf).
Proof. intros [_ [[-> _]| ->]]; done. Qed.

Lemma stops_weaken f g s : (∀ c, g c = true → f c = true) → stops f s → stops g s.
Proof.
  intros Hfg. destruct s as [|c s]; simpl; [done|]. intros Hf. destruct (g c) eqn:E; [|done].
  apply Hfg in E. congruence.
Qed.

Lemma zero_is_digit c : bool_decide (c = "0"%char) = true → is_digit c = true.
Proof. intros Hc%bool_decide_eq_true. by subst c. Qed.

(** The rest of the scanner, after the sign and the leading zeros. *)
Lemma scan_rest pos sgn z ds frac fs suf str :
  str = sgn +:+ (z +:+ ds) +:+ frac +:+ suf → all_digits ds = true → is_fraction frac fs → scans_as_suffix suf →
  ds +:+ frac +:+ suf ≠ "" →
  ∃ num, (num = ds ∧ ds ≠ "" ∨ num = "0" ∧ ds = "") ∧
  (let '(num, rest) := span is_digit (ds +:+ frac +:+ suf) in
   match rest with
   | "" => Ok (mkParsed pos str num "" "")
   | String c rest' =>
       let num := if bool_decide (num = "") then "0" else num in
       if bool_decide (c = "."%char) then
         let '(denom, rest) := span is_digit rest' in
         match rest with
         | "" => Ok (mkParsed pos str num denom "")
         | _ => parse_suffix pos str num denom rest
         end
       else parse_suffix pos str num "" rest
   end) = Ok (mkParsed pos (sgn +:+ (z +:+ ds) +:+ frac) num fs suf).
Proof.
  intros Hstr Hds Hfrac (Hscan & Hsd & Hsp) Hne.
  rewrite span_app by (done || by eapply stops_digit_fraction).
  set (num := if bool_decide (ds = "") then "0" else ds).
  assert (num = ds ∧ ds ≠ "" ∨ num = "0" ∧ ds = "") as Hnum by (unfold num; case_bool_decide; auto).
  destruct Hfrac as [Hfs [[-> ->]| ->]].
  - change ("" +:+ suf) with suf in *. change (?a +:+ "" +:+ suf) with (a +:+ suf) in *.
    rewrite string_app_nil_r. destruct suf as [|c suf].
    + rewrite string_app_nil_r in Hne. exists ds. split; [by left|]. do 2 f_equal. rewrite Hstr. by rewrite string_app_nil_r.
    + exists num. split; [done|]. simpl in Hsp. rewrite Hsp. fold num. rewrite Hscan. do 2 f_equal.
      rewrite Hstr, <- string_app_assoc. apply before_app.
  - exists num. split; [done|]. rewrite string_app_assoc. cbn -[span is_digit bool_decide parse_suffix].
    rewrite bool_decide_true by done. fold num. rewrite span_app by done. destruct suf as [|c suf].
    + do 2 f_equal. rewrite Hstr. by rewrite string_app_nil_r.
    + rewrite Hscan. do 2 f_equal. rewrite Hstr, <- !string_app_assoc, (string_app_assoc _ "." fs). apply before_app.
Qed.

Lemma number_stops_sign ds frac fs suf :
  all_digits ds = true → is_fraction frac fs → ds +:+ fs ≠ "" →
  stops (λ c, bool_decide (c = "+"%char) || bool_decide (c = "-"%char)) (ds +:+ frac +:+ suf).
Proof.
  intros Hds [_ Hfrac] Hne. destruct ds as [|c ds]; simpl.
  - destruct Hfrac as [[_ ->]| ->]; done.
  - apply andb_prop in Hds as [Hc _]. destruct (digit_not_mark c Hc) as (H1 & H2 & _).
    by rewrite !bool_decide_false.
Qed.

Lemma parseQuantityString_scans sgn ds frac fs suf :
  is_sign sgn = true → all_digits ds = true → is_fraction frac fs → scans_as_suffix suf → ds +:+ fs ≠ "" →
  ∃ p, parseQuantityString (sgn +:+ ds +:+ frac +:+ suf) = Ok p ∧ scanned sgn ds frac fs suf p.
Proof.
  intros Hsgn Hds Hfrac Hsuf Hne. unfold parseQuantityString.
  rewrite parse_sign_spec by (done || by eapply number_stops_sign).
  set (zero := λ c, bool_decide (c = "0"%char)).
  destruct (span_spec zero ds) as (E & Hz & Hstop). set (z := (span zero ds).1) in *.
  set (ds' := (span zero ds).2) in *. clearbody z ds'. subst ds.
  rewrite all_chars_app in Hds. apply andb_prop in Hds as [Hzd Hds'].
  assert (span zero ((z +:+ ds') +:+ frac +:+ suf) = (z, ds' +:+ frac +:+ suf)) as ->.
  { rewrite string_app_assoc. apply span_app; [done|]. destruct ds'; [|done].
    apply (stops_weaken is_digit); [apply zero_is_digit|]. destruct Hsuf as (_ & Hsd & _).
    exact (stops_digit_fraction frac fs suf Hfrac Hsd). }
  simpl snd. destruct (ds' +:+ frac +:+ suf) as [|c r] eqn:Er.
  - destruct ds'; [|done]. destruct frac; [|done]. destruct suf; [|done].
    assert (fs = "") as -> by (destruct Hfrac as [_ [[_ ->]|[=]]]; done).
    eexists. split; [done|]. unfold scanned; simpl. rewrite !string_app_nil_r in *.
    split_and!; [done..| | |]; [unfold slen; simpl; lia|by rewrite (zeros_value z)|right; split_and!; [done..|by apply zeros_value]].
  - destruct (scan_rest (bool_decide (sgn ≠ "-")) sgn z ds' frac fs suf _ eq_refl Hds' Hfrac Hsuf ltac:(by rewrite Er))
      as (num & Hnum & Ep).
    rewrite Er in Ep. eexists. split; [exact Ep|].
    unfold scanned. simpl. pose proof (slen_nonneg z).
    rewrite string_app_assoc, (zeros_prefix z) by done. rewrite slen_app.
    destruct Hnum as [[-> ?]|[-> ->]]; split_and!; try done; try by left.
    + lia.
    + unfold slen; simpl; lia.
Qed.

(** ** The number *)

(** The amount of a quantity, whichever way it is kept. *)
Definition amount_of (q : Quantity) : int64Amount :=
  match q_d q with Some d => dec_amount d | None => q_i q end.

Lemma Dec_Cmp_zero a b m :
  m ≤ scale a → m ≤ scale b → (Dec_Cmp a b = 0 ↔ at_scale a m = at_scale b m).
Proof.
  intros Ha Hb. unfold Dec_Cmp. set (k := Z.min (scale a) (scale b)).
  rewrite (at_scale_le a k), (at_scale_le b k) by lia. unfold at_scale.
  assert (0 < 10 ^ (k - m)) by (apply Z.pow_pos_nonneg; lia).
  set (x := value a * _). set (y := value b * _). destruct (Z.compare_spec x y); nia.
Qed.

Lemma Dec_Cmp_same_scale x y s : Dec_Cmp (mkAmount x s) (mkAmount y s) = 0 ↔ x = y.
Proof.
  rewrite (Dec_Cmp_zero _ _ s) by (simpl; lia). unfold at_scale. simpl. rewrite Z.sub_diag. lia.
Qed.

(** What a number before a suffix stands for, in units of nano: [n] without the point,
    [fl] digits after it. It is rounded up, and with a binary suffix it is capped. *)
Definition magnitude (n fl base e : Z) : Z :=
  if base =? 10 then rounded_to n (9 + e - fl)
  else Z.min ((2 ^ 63 - 1) * 10 ^ 9) (rounded_to (n * 2 ^ e) (9 - fl)).

(** A binary suffix on a number below one is read as a decimal one. *)
Definition expected_format (f : Format) (mag : Z) : Format :=
  if bool_decide (f = BinarySI) && (0 <? mag) && (mag <? 10 ^ 9) then DecimalSI else f.

Definition sizes_ok (ds fs : string) (e : Z) : Prop :=
  slen ds < 2 ^ 28 ∧ slen fs < 2 ^ 28 ∧ - 2 ^ 28 < e < 2 ^ 28.

Ltac sizes := unfold sizes_ok in *; change (2 ^ 28) with 268435456 in *; small_scale.

Lemma sign_of_positive sgn : sign_of sgn = if bool_decide (sgn ≠ "-") then 1 else -1.
Proof. unfold sign_of. repeat case_bool_decide; naive_solver. Qed.

(** A signed result of the fast path. *)
Lemma signed_result sgn r :
  in64 r → 0 ≤ r → (if bool_decide (sgn ≠ "-") then r else wrap64 (- r)) = sign_of sgn * r.
Proof.
  intros Hr H0. rewrite sign_of_positive. case_bool_decide; [lia|]. rewrite wrap64_in; [lia|]. width. lia.
Qed.

(** The fast path, when it applies, yields the number exactly. *)
Lemma parse_fast_decimal str sgn ds frac fs suf p e f :
  scanned sgn ds frac fs suf p → all_digits (ds +:+ fs) = true → all_digits fs = true → sizes_ok ds fs e → f ≠ BinarySI →
  parse_fast str p e f = None ∨
  ∃ q, parse_fast str p e f = Some (Ok q) ∧ q_format q = f ∧ (q_s q = "" ∨ q_s q = str) ∧
       Dec_Cmp (amount_of q) (mkAmount (sign_of sgn * magnitude (digits_value (ds +:+ fs)) (slen fs) 10 e) Nano) = 0.
Proof.
  intros (Hpos & Hden & _ & Hnd & Hne & Hlen & Hval & _) Hall Hfs Hsz Hf. unfold parse_fast, parse_scale.
  rewrite !Hden.
  rewrite bool_decide_false by done. set (n := digits_value (ds +:+ fs)) in *.
  pose proof (slen_nonneg fs). pose proof (slen_nonneg (p_num p)).
  rewrite !wrap32_in by (unfold maxInt64Factors; rewrite ?wrap32_in by (sizes; lia); sizes; lia).
  unfold maxInt64Factors. destruct (Z.leb_spec 0 (18 - (slen (p_num p) + slen fs))) as [Hp|]; [|by left]. simpl negb. cbv iota.
  destruct (Z.leb_spec Nano (e - slen fs)) as [Hs|]; [|by left]. simpl negb. cbv iota. right. unfold Nano in *.
  pose proof (digits_value_range (p_num p +:+ fs) ltac:(by rewrite all_chars_app, Hnd, Hfs)) as Hr.
  rewrite slen_app in Hr. pose proof (Z.pow_le_mono_r 10 (slen (p_num p) + slen fs) 18 ltac:(lia) ltac:(lia)) as Hb.
  change (10 ^ 18) with 1000000000000000000 in Hb. rewrite Hval in Hr.
  rewrite Atoi_digits; cycle 1.
  { by rewrite all_chars_app, Hnd, Hfs. } { by destruct (p_num p). } { rewrite Hval. unfold MaxInt64. width. lia. }
  rewrite Hval. assert (in64 n) as Hn by (width; lia).
  rewrite int64Multiply_checked by (done || (width; lia)). rewrite Z.mul_1_r, checked_in by done.
  rewrite Hpos, signed_result by (done || lia). eexists. split; [done|]. simpl.
  split_and!; [done|case_match; auto|]. unfold amount_of. simpl.
  rewrite (Dec_Cmp_zero _ _ (-9)) by (simpl; lia). unfold at_scale, magnitude, rounded_to. simpl.
  destruct (Z.leb_spec 0 (9 + e - slen fs)); [|lia]. rewrite Z.mul_1_r, <- Z.mul_assoc. do 3 f_equal. lia.
Qed.

Lemma parse_fast_binary str sgn ds frac fs suf p e :
  scanned sgn ds frac fs suf p → all_digits (ds +:+ fs) = true → sizes_ok ds fs e → 10 ≤ e ≤ 60 →
  let mag := magnitude (digits_value (ds +:+ fs)) (slen fs) 2 e in
  parse_fast str p e BinarySI = None ∨
  ∃ q, parse_fast str p e BinarySI = Some (Ok q) ∧ q_format q = expected_format BinarySI mag ∧ (q_s q = "" ∨ q_s q = str) ∧
       Dec_Cmp (amount_of q) (mkAmount (sign_of sgn * mag) Nano) = 0.
Proof.
  intros (Hpos & Hden & _ & Hnd & Hne & Hlen & Hval & _) Hall Hsz He mag. unfold parse_fast, parse_scale. rewrite !Hden.
  rewrite bool_decide_true by done. destruct (Z.leb_spec 0 e); [|lia].
  destruct (Z.eqb_spec (slen fs) 0) as [Ef|]; simpl andb; cbv iota; [|by left].
  apply slen_zero in Ef as ->. rewrite !string_app_nil_r in *. pose proof (slen_nonneg (p_num p)).
  assert (0 ≤ e * 3 / 10 ≤ 18) as Hdiv by (split; [apply Z.div_pos; lia|apply Z.div_le_upper_bound; lia]).
  rewrite !wrap32_in by (rewrite ?wrap32_in by (sizes; lia); sizes; lia).
  set (e' := e * 3 / 10) in *.
  destruct (Z.leb_spec 0 (15 - slen (p_num p) - e' - 1)) as [Hp|]; [|by left]. simpl negb. cbv iota.
  change (Nano <=? 0 - slen "") with true. simpl negb. cbv iota.
  set (n := digits_value ds) in *. pose proof (digits_value_range (p_num p) Hnd) as Hr.
  pose proof (Z.pow_le_mono_r 10 (slen (p_num p)) 18 ltac:(lia) ltac:(lia)) as Hb.
  change (10 ^ 18) with 1000000000000000000 in Hb. rewrite Hval in Hr.
  rewrite Atoi_digits by (done || (rewrite Hval; unfold MaxInt64; width; lia)). rewrite Hval.
  pose proof (Z.pow_le_mono_r 2 e 60 ltac:(lia) ltac:(lia)) as He2. pose proof (Z.pow_pos_nonneg 2 e ltac:(lia) ltac:(lia)).
  change (2 ^ 60) with 1152921504606846976 in He2.
  rewrite Z.shiftl_1_l, wrap64_in by (width; lia). rewrite int64Multiply_checked by (width; lia).
  destruct (decide (in64 (n * 2 ^ e))) as [Hin|]; [rewrite checked_in by done|left; by rewrite checked_out].
  right. rewrite Hpos, signed_result by (done || nia). eexists. split; [done|]. simpl.
  assert (mag = n * 2 ^ e * 10 ^ 9) as Hmag.
  { unfold mag, magnitude. rewrite string_app_nil_r. fold n.
    change (rounded_to (n * 2 ^ e) (9 - slen "")) with (n * 2 ^ e * 10 ^ 9). cbn [Z.eqb].
    apply Z.min_r, Z.mul_le_mono_nonneg_r; [done|]. apply Hin. }
  split_and!.
  - unfold expected_format. rewrite bool_decide_true by done. simpl.
    destruct (Z.ltb_spec 0 mag), (Z.ltb_spec mag (10 ^ 9)); try done. exfalso. rewrite Hmag in *. nia.
  - case_match; auto.
  - unfold amount_of. simpl. change (wrap32 (0 - wrap32 (slen ""))) with 0. unfold Nano.
    rewrite (Dec_Cmp_zero _ _ (-9)) by (simpl; lia). unfold at_scale. cbn [value scale].
    rewrite Hmag. change (0 - -9) with 9. change (-9 - -9) with 0. ring.
Qed.

(** The slow path, from the decimal it reads: the number, rounded and capped. *)
Lemma slow_magnitude u s :
  scale_ok s → 0 ≤ u →
  let '(v, ok) := Unscaled (mkDec u s) in
  let amount := if negb (v =? 0) || negb ok then Dec_round (mkDec u s) (infScale Nano) else mkDec u s in
  amount = (if u =? 0 then mkDec 0 s else mkDec (rounded_to u (9 - s)) 9).
Proof.
  intros Hs Hu. unfold Unscaled. simpl. destruct (Z.eqb_spec u 0) as [->|Hne]; [done|].
  destruct (Z.eqb_spec (wrap64 u) 0) as [E|E]; simpl;
    [rewrite E; destruct (Z.eqb_spec 0 u); [lia|]; simpl|];
    (rewrite Dec_round_exact; [done|done|unfold scale_ok; vm_compute; split; done]).
Qed.

Lemma rounded_to_nonneg u k : 0 ≤ u → 0 ≤ rounded_to u k ∧ (u = 0 → rounded_to u k = 0) ∧ (0 < u → 0 < rounded_to u k).
Proof.
  intros Hu. unfold rounded_to. destruct (Z.leb_spec 0 k).
  - pose proof (Z.pow_pos_nonneg 10 k ltac:(lia) ltac:(lia)). split_and!; nia.
  - pose proof (Z.pow_pos_nonneg 10 (- k) ltac:(lia) ltac:(lia)) as Hp. set (p := 10 ^ - k) in *. unfold round_away.
    pose proof (Z.quot_rem' u p). pose proof (Z.rem_bound_pos u p Hu Hp). pose proof (Z.quot_pos u p Hu Hp).
    destruct (Z.eqb_spec (Z.rem u p) 0) as [E|E].
    + split_and!; [lia|intros ->; by rewrite Z.quot_0_l by lia|nia].
    + assert (0 < u) by (destruct (decide (u = 0)) as [->|]; [by rewrite Z.rem_0_l in E by lia|lia]).
      rewrite (Z.sgn_pos u) by done. lia.
Qed.

(** The sign is taken off a decimal and put back. *)
Lemma sign_off sgn u s :
  0 ≤ u →
  (if Dec_sign (mkDec (sign_of sgn * u) s) =? -1 then Dec_neg (mkDec (sign_of sgn * u) s) else mkDec (sign_of sgn * u) s)
  = mkDec u s.
Proof.
  intros Hu. unfold Dec_sign, Dec_neg, sign_of. cbn [unscaled dec_scale]. case_bool_decide.
  - destruct (Z.sgn_spec (-1 * u)) as [[? ->]|[[? ->]|[? ->]]]; cbn [Z.eqb Pos.eqb unscaled dec_scale]; f_equal; lia.
  - destruct (Z.sgn_spec (1 * u)) as [[? ->]|[[? ->]|[? ->]]]; cbn [Z.eqb Pos.eqb unscaled dec_scale]; f_equal; lia.
Qed.

Lemma sign_on sgn u s d :
  0 ≤ u → (u = 0 → unscaled d = 0) →
  (if Dec_sign (mkDec (sign_of sgn * u) s) =? -1 then Dec_neg d else d) = mkDec (sign_of sgn * unscaled d) (dec_scale d).
Proof.
  intros Hu Hd. destruct d as [x t]. simpl in *. unfold Dec_sign, Dec_neg, sign_of. cbn [unscaled dec_scale]. case_bool_decide.
  - destruct (Z.sgn_spec (-1 * u)) as [[? ->]|[[? ->]|[? ->]]]; cbn [Z.eqb Pos.eqb unscaled dec_scale]; f_equal; lia.
  - destruct (Z.sgn_spec (1 * u)) as [[? ->]|[[? ->]|[? ->]]]; cbn [Z.eqb Pos.eqb unscaled dec_scale]; f_equal; lia.
Qed.

Lemma Dec_cmp_nano r k : Dec_cmp (mkDec r 9) (mkDec k 0) = cmp_values r (k * 10 ^ 9).
Proof. reflexivity. Qed.

Lemma Dec_cmp_zero_unit s k : scale_ok s → 0 ≤ k → Dec_cmp (mkDec 0 s) (mkDec k 0) = (if k =? 0 then 0 else -1).
Proof.
  intros Hs Hk. rewrite Dec_cmp_exact by (done || (unfold scale_ok; vm_compute; done)).
  unfold Dec_Cmp, dec_amount. cbn [value scale unscaled dec_scale]. rewrite Z.mul_0_l.
  assert (0 < 10 ^ (- 0 - Z.min (- s) (- 0))) as Hp by (apply Z.pow_pos_nonneg; lia).
  set (p := 10 ^ _) in *. destruct (Z.eqb_spec k 0) as [->|]; [done|].
  by destruct (Z.compare_spec 0 (k * p)); [nia| |nia].
Qed.

Lemma zero_amount x s : Dec_Cmp (mkAmount 0 s) (mkAmount (x * 0) Nano) = 0.
Proof. rewrite Z.mul_0_r. reflexivity. Qed.

Lemma scanned_decimal sgn ds frac fs suf p e :
  scanned sgn ds frac fs suf p → is_sign sgn = true → all_digits ds = true → is_fraction frac fs → ds +:+ fs ≠ "" →
  sizes_ok ds fs e →
  SetString (p_value p) = Some (mkDec (sign_of sgn * digits_value (ds +:+ fs)) (slen fs)).
Proof.
  intros (_ & _ & _ & _ & _ & _ & _ & Hv) Hsgn Hds Hfrac Hne Hsz. destruct Hv as [->|(-> & -> & Hz)].
  - apply SetString_decimal; try done. sizes. lia.
  - by rewrite string_app_nil_r, Hz, Z.mul_0_r.
Qed.

Lemma parse_slow_decimal sgn ds frac fs suf p e f :
  scanned sgn ds frac fs suf p → is_sign sgn = true → all_digits ds = true → is_fraction frac fs → ds +:+ fs ≠ "" →
  sizes_ok ds fs e → f ≠ BinarySI →
  ∃ q, parse_slow p 10 e f = Ok q ∧ q_format q = f ∧ q_s q = "" ∧
       Dec_Cmp (amount_of q) (mkAmount (sign_of sgn * magnitude (digits_value (ds +:+ fs)) (slen fs) 10 e) Nano) = 0.
Proof.
  intros Hp Hsgn Hds Hfrac Hne Hsz Hf. unfold parse_slow. pose proof Hfrac as [Hfs _].
  rewrite (scanned_decimal sgn ds frac fs suf p e) by done. set (n := digits_value (ds +:+ fs)).
  pose proof (digits_value_range (ds +:+ fs) ltac:(by rewrite all_chars_app, Hds, Hfs)) as [Hn _]. fold n in Hn.
  pose proof (slen_nonneg fs). cbn [Z.eqb Pos.eqb unscaled dec_scale].
  assert (infScale e = - e) as -> by (apply wrap32_in; sizes; lia).
  rewrite !(wrap32_in (slen fs + - e)) by (sizes; lia). set (s := slen fs + - e).
  rewrite sign_off by done. rewrite (bool_decide_false (f = BinarySI)) by done. simpl andb. cbv iota.
  pose proof (slow_magnitude n s ltac:(unfold scale_ok, s; sizes; lia) Hn) as Hm.
  destruct (Unscaled (mkDec n s)) as [v ok]. cbv zeta in Hm. rewrite Hm.
  rewrite sign_on; [|done|intros ->; done]. eexists. split; [done|]. split_and!; [done..|].
  unfold amount_of. simpl. destruct (Z.eqb_spec n 0) as [E|E]; simpl; unfold dec_amount; simpl.
  - rewrite Z.mul_0_r. unfold magnitude. rewrite E. simpl.
    destruct (rounded_to_nonneg 0 (9 + e - slen fs) ltac:(lia)) as (_ & -> & _); [|done]. apply zero_amount.
  - unfold Nano. rewrite Dec_Cmp_same_scale. unfold magnitude. simpl. do 2 f_equal. unfold s. lia.
Qed.

Lemma parse_slow_binary sgn ds frac fs suf p e :
  scanned sgn ds frac fs suf p → is_sign sgn = true → all_digits ds = true → is_fraction frac fs → ds +:+ fs ≠ "" →
  sizes_ok ds fs e → 0 ≤ e →
  let mag := magnitude (digits_value (ds +:+ fs)) (slen fs) 2 e in
  ∃ q, parse_slow p 2 e BinarySI = Ok q ∧ q_format q = expected_format BinarySI mag ∧ q_s q = "" ∧
       Dec_Cmp (amount_of q) (mkAmount (sign_of sgn * mag) Nano) = 0.
Proof.
  intros Hp Hsgn Hds Hfrac Hne Hsz He mag. unfold parse_slow. pose proof Hfrac as [Hfs _].
  rewrite (scanned_decimal sgn ds frac fs suf p e) by done. set (n := digits_value (ds +:+ fs)) in *.
  pose proof (digits_value_range (ds +:+ fs) ltac:(by rewrite all_chars_app, Hds, Hfs)) as [Hn _]. fold n in Hn.
  pose proof (slen_nonneg fs). cbn [Z.eqb Pos.eqb unscaled dec_scale]. rewrite Z.shiftl_1_l, <- Z.mul_assoc.
  pose proof (Z.pow_pos_nonneg 2 e ltac:(lia) He). set (u := n * 2 ^ e) in *. set (s := slen fs) in *.
  assert (0 ≤ u) as Hu by (unfold u; nia). rewrite sign_off by done.
  assert (scale_ok s) as Hs by (unfold scale_ok, s; sizes; lia).
  pose proof (slow_magnitude u s Hs Hu) as Hm. destruct (Unscaled (mkDec u s)) as [v ok]. cbv zeta in Hm. rewrite Hm. clear Hm.
  rewrite bool_decide_true by done. cbn [andb]. set (r := rounded_to u (9 - s)) in *.
  destruct (rounded_to_nonneg u (9 - s) Hu) as (Hr & Hr0 & Hr1). fold r in Hr, Hr0, Hr1.
  assert (mag = Z.min ((2 ^ 63 - 1) * 10 ^ 9) r) as Hmag by done. clearbody mag r.
  unfold expected_format. rewrite bool_decide_true by done. cbn [andb].
  destruct (Z.eqb_spec u 0) as [E|E].
  - unfold maxAllowed, decOne, decZero. rewrite (Dec_cmp_zero_unit s (2 ^ 63 - 1)) by (done || lia).
    change (0 <? (if 2 ^ 63 - 1 =? 0 then 0 else -1)) with false. cbv iota.
    rewrite !Dec_cmp_zero_unit by (done || lia). cbn -[Dec_sign]. assert (mag = 0) as -> by (rewrite Hmag, Hr0 by done; done). cbn -[Dec_sign].
    eexists. split; [done|]. split_and!; [done..|]. unfold amount_of. cbn [q_d].
    rewrite (sign_on sgn u s (mkDec 0 s)) by done. unfold dec_amount. simpl. by rewrite Z.mul_0_r.
  - unfold maxAllowed, decOne, decZero. rewrite !(Dec_cmp_nano r (2 ^ 63 - 1)).
    assert (0 < r) by (apply Hr1; lia). set (cap := (2 ^ 63 - 1) * 10 ^ 9) in *.
    destruct (Z.lt_ge_cases cap r) as [Hc|Hc].
    + assert (0 <? cmp_values r cap = true) as ->.
      { unfold cmp_values. destruct (Z.eqb_spec r cap), (Z.ltb_spec r cap); try lia; done. }
      assert (mag = cap) as -> by lia. eexists. split; [done|]. split_and!; [done..|].
      unfold amount_of. cbn [q_d]. rewrite (sign_on sgn u s (mkDec _ 0)) by done. unfold dec_amount, Nano. cbn [unscaled dec_scale].
      rewrite (Dec_Cmp_zero _ _ (-9)) by (simpl; lia). unfold at_scale, cap. cbn [value scale].
      change (- 0 - -9) with 9. change (-9 - -9) with 0. ring.
    + assert (mag = r) as -> by lia.
      assert (0 <? cmp_values r cap = false) as ->.
      { unfold cmp_values. destruct (Z.eqb_spec r cap), (Z.ltb_spec r cap); try lia; done. }
      rewrite !Dec_cmp_nano. eexists. split; [done|]. cbn [q_format q_s]. split_and!; [|done|].
      * unfold cmp_values. change (1 * 10 ^ 9) with (10 ^ 9). change (0 * 10 ^ 9) with 0.
        destruct (Z.eqb_spec r (10 ^ 9)), (Z.ltb_spec r (10 ^ 9)), (Z.eqb_spec r 0), (Z.ltb_spec r 0), (Z.ltb_spec 0 r);
          try lia; done.
      * unfold amount_of. cbn [q_d]. rewrite (sign_on sgn u s (mkDec r 9)) by (done || (cbn; lia)).
        unfold dec_amount, Nano. cbn [unscaled dec_scale]. by rewrite Dec_Cmp_same_scale.
Qed.

(** ** Parsing is correct *)

Lemma zero_string sgn ds frac fs suf :
  is_sign sgn = true → is_fraction frac fs → ds +:+ fs ≠ "" → sgn +:+ ds +:+ frac +:+ suf = "0" →
  sgn = "" ∧ ds = "0" ∧ frac = "" ∧ fs = "" ∧ suf = "".
Proof.
  intros Hsgn [_ Hfrac] Hne E. apply is_sign_cases in Hsgn as [-> | [-> | ->]]; [|discriminate E..].
  destruct ds as [|c ds]; simpl in *.
  - destruct Hfrac as [[_ ->]| ->]; [done|discriminate E].
  - injection E as -> E. destruct ds; [|discriminate E]. destruct frac; [|discriminate E]. simpl in E. subst suf.
    destruct Hfrac as [[_ ->]|[=]]. done.
Qed.

Lemma nonempty_string sgn ds frac fs suf :
  is_fraction frac fs → ds +:+ fs ≠ "" → sgn +:+ ds +:+ frac +:+ suf ≠ "".
Proof.
  intros [_ Hfrac] Hne E. destruct sgn, ds; try discriminate E. simpl in *.
  destruct Hfrac as [[_ ->]| ->]; [done|discriminate E].
Qed.

Lemma ParseQuantity_value sgn ds frac fs suf base e f :
  is_sign sgn = true → all_digits ds = true → is_fraction frac fs → ds +:+ fs ≠ "" →
  interpret suf = Some (base, e, f) → sizes_ok ds fs e →
  let str := sgn +:+ ds +:+ frac +:+ suf in
  let mag := magnitude (digits_value (ds +:+ fs)) (slen fs) base e in
  ∃ q, ParseQuantity str = Ok q ∧ q_format q = expected_format f mag ∧ (q_s q = "" ∨ q_s q = str) ∧
       Dec_Cmp (amount_of q) (mkAmount (sign_of sgn * mag) Nano) = 0.
Proof.
  intros Hsgn Hds Hfrac Hne Hint Hsz str mag. unfold ParseQuantity. pose proof Hfrac as [Hfs _].
  destruct (Z.eqb_spec (slen str) 0) as [E|_]; [apply slen_zero in E; by destruct (nonempty_string sgn ds frac fs suf Hfrac Hne)|].
  case_bool_decide as E.
  { apply (zero_string sgn ds frac fs suf) in E as (-> & -> & -> & -> & ->); [|done..].
    injection Hint as <- <- <-. eexists. split; [done|]. by split_and!; [| right|]. }
  destruct (interpret_scans suf base e f Hint) as [Hscan Hmean].
  destruct (parseQuantityString_scans sgn ds frac fs suf Hsgn Hds Hfrac Hscan Hne) as (p & Ep & Hp).
  fold str in Ep. rewrite Ep. clear Ep.
  pose proof Hp as (_ & _ & -> & _). rewrite Hint.
  assert (all_digits (ds +:+ fs) = true) as Hall by (by rewrite all_chars_app, Hds, Hfs).
  destruct Hmean as [[-> Hf]|(-> & -> & He)].
  - assert (expected_format f mag = f) as -> by (unfold expected_format; by rewrite bool_decide_false).
    destruct (parse_fast_decimal str sgn ds frac fs suf p e f) as [->|(q & -> & Hq)]; [done..| |by exists q].
    destruct (parse_slow_decimal sgn ds frac fs suf p e f) as (q & -> & H1 & H2 & H3); [done..|].
    exists q. auto.
  - assert (10 ≤ e ≤ 60) as He' by (repeat (apply elem_of_cons in He as [->|He]; [lia|]); by apply elem_of_nil in He).
    destruct (parse_fast_binary str sgn ds frac fs suf p e) as [->|(q & -> & Hq)]; [done..| |by exists q].
    destruct (parse_slow_binary sgn ds frac fs suf p e) as (q & -> & H1 & H2 & H3); [done..|lia|].
    exists q. auto.
Qed.



(** ** What is refused *)

(** The shape of a quantity: the digits may be missing. *)
Definition shaped (str suf : string) : Prop :=
  ∃ sgn ds frac fs, str = sgn +:+ ds +:+ frac +:+ suf ∧ is_sign sgn = true ∧ all_digits ds = true ∧ is_fraction frac fs.

Lemma parse_sign_inv str pos rest : parse_sign str = (pos, rest) → ∃ sgn, str = sgn +:+ rest ∧ is_sign sgn = true.
Proof.
  unfold parse_sign. destruct str as [|c s]; [intros [= <- <-]; by exists ""|].
  repeat case_bool_decide; intros [= <- <-]; subst; [by exists "-"|by exists "+"|by exists ""].
Qed.

Lemma parse_suffix_suffix pos str num denom suf p : parse_suffix pos str num denom suf = Ok p → p_suffix p = suf.
Proof.
  unfold parse_suffix. destruct (span suffix_char suf).2 as [|c r]; [by intros [= <-]|].
  destruct (span is_digit _).2; [by intros [= <-]|done].
Qed.

Lemma parseQuantityString_shape str p : parseQuantityString str = Ok p → shaped str (p_suffix p).
Proof.
  unfold parseQuantityString. destruct (parse_sign str) as [pos rest] eqn:E.
  apply parse_sign_inv in E as (sgn & Estr & Hsgn). set (zero := λ c, bool_decide (c = "0"%char)).
  destruct (span_spec zero rest) as (Er & Hz & _). destruct (span zero rest) as [z r1]. cbn [fst snd] in *. subst rest.
  assert (all_digits z = true) as Hzd by (by eapply all_chars_impl; [apply zero_is_digit|]).
  destruct (span_spec is_digit r1) as (Er1 & Hd & _). destruct (span is_digit r1) as [d r2] eqn:Ed. cbn [fst snd] in *.
  destruct r1 as [|a r1].
  { intros [= <-]. exists sgn, z, "", "". split_and!; [done..|]. split; [done|by left]. }
  rewrite Ed. rewrite Er1 in Estr. assert (all_digits (z +:+ d) = true) as Hzd' by (by rewrite all_chars_app, Hzd, Hd).
  assert (is_fraction "" "") as Hno by (split; [done|by left]).
  destruct r2 as [|c r2].
  { intros [= <-]. exists sgn, (z +:+ d), "", "". split_and!; try done. subst str. by rewrite !string_app_nil_r. }
  assert (str = sgn +:+ (z +:+ d) +:+ String c r2) as Es by (by rewrite (string_app_assoc z)).
  case_bool_decide as Ec.
  - subst c. destruct (span_spec is_digit r2) as (Er2 & Hfs & _). destruct (span is_digit r2) as [fs r3]. cbn [fst snd] in *. subst r2.
    assert (is_fraction ("." +:+ fs) fs) as Hf by (split; [done|by right]).
    destruct r3 as [|c3 r3]; [intros [= <-]|intros Hp; apply parse_suffix_suffix in Hp as ->];
      exists sgn, (z +:+ d), ("." +:+ fs), fs; by split_and!.
  - intros Hp. apply parse_suffix_suffix in Hp as ->. by exists sgn, (z +:+ d), "", "".
Qed.

(** Every string that is accepted has that shape and a known suffix; one that has it and
    a digit is accepted. *)
Theorem ParseQuantity_accepts (str : string) :
  (∀ q, ParseQuantity str = Ok q → ∃ suf, shaped str suf ∧ interpret suf ≠ None) ∧
  (∀ sgn ds frac fs suf base e f,
     str = sgn +:+ ds +:+ frac +:+ suf → is_sign sgn = true → all_digits ds = true → is_fraction frac fs →
     ds +:+ fs ≠ "" → interpret suf = Some (base, e, f) → sizes_ok ds fs e → is_ok (ParseQuantity str) = true).
Proof.
  split.
  - intros q Hq. unfold ParseQuantity in Hq. destruct (slen str =? 0); [done|]. case_bool_decide as E.
    { subst str. exists "". split; [|done]. exists "", "0", "", "". split_and!; [done..|]. split; [done|by left]. }
    destruct (parseQuantityString str) as [p|] eqn:Ep; [|done]. exists (p_suffix p).
    split; [by apply parseQuantityString_shape|]. by destruct (interpret (p_suffix p)).
  - intros sgn ds frac fs suf base e f -> H1 H2 H3 H4 H5 H6.
    by destruct (ParseQuantity_value sgn ds frac fs suf base e f) as (q & -> & _).
Qed.
