(* ===== verification/QuantityPrint.v ===== *)
(** * Printing quantities, and reading them back

    What [CanonicalizeBytes] of [ResourceQuantity.v] prints, that it is parsed to the same
    number, where it is not, and the cached string that a quantity keeps. *)

From S2P Require Import Prelude GoStrings GoSpace GoStrconv GoInt Int64Amount Validation InfDec ResourceQuantity QuantityParse.

(** ** Amounts that are the same number *)

Definition same_amount (a b : int64Amount) : Prop := Dec_Cmp a b = 0.

#[global] Instance same_amount_equiv : Equivalence same_amount.
Proof.
  split.
  - intros a. unfold same_amount. by rewrite (Dec_Cmp_zero _ _ (scale a)).
  - intros a b. unfold same_amount. set (m := Z.min (scale a) (scale b)).
    rewrite !(Dec_Cmp_zero _ _ m) by lia. done.
  - intros a b c. unfold same_amount. set (m := Z.min (scale a) (Z.min (scale b) (scale c))).
    rewrite !(Dec_Cmp_zero _ _ m) by lia. congruence.
Qed.

Lemma same_amount_iff a b m : m ≤ scale a → m ≤ scale b → (same_amount a b ↔ at_scale a m = at_scale b m).
Proof. apply Dec_Cmp_zero. Qed.

(** Powers of ten move between the number and the exponent. *)
Lemma same_amount_shift x e k : 0 ≤ k → same_amount (mkAmount (x * 10 ^ k) e) (mkAmount x (e + k)).
Proof.
  intros Hk. rewrite (same_amount_iff _ _ e) by (simpl; lia). unfold at_scale. simpl.
  rewrite Z.sub_diag, Z.mul_1_r. do 2 f_equal. lia.
Qed.

(** ** Suffixes that are printed *)

Lemma Atoi_signed sgn ds :
  is_sign sgn = true → all_digits ds = true → ds ≠ "" → in64 (sign_of sgn * digits_value ds) →
  Atoi (sgn +:+ ds) = Ok (sign_of sgn * digits_value ds).
Proof.
  intros Hsgn Hds Hne Hin. pose proof (big_SetString_digits sgn ds Hsgn Hds Hne) as H.
  unfold big_SetString in H. unfold Atoi. destruct (match sgn +:+ ds with String "+" _ => _ | _ => _ end) as [d|]; [|done].
  simpl in H. injection H as ->. unfold MinInt64, MaxInt64. width.
  by rewrite !(proj2 (Z.leb_le _ _)) by lia.
Qed.

Lemma Atoi_Itoa_signed z : in64 z → Atoi (Itoa z) = Ok z.
Proof.
  intros Hz. destruct (Itoa_signed_digits z) as (sgn & ds & -> & Hsgn & _ & Hds & Hne & <- & _). by apply Atoi_signed.
Qed.

(** A suffix that was constructed is interpreted as what it was constructed from; the
    empty one as decimal. *)
Lemma construct_decimal e suf : construct 10 e DecimalSI = Some suf → interpret suf = Some (10, e, DecimalSI).
Proof.
  unfold construct. simpl. unfold ls_construct. intros H%lookup_in.
  set (l := map_to_list _) in H. vm_compute in l. subst l.
  repeat (apply elem_of_cons in H as [[= -> ->]|H]); [by vm_compute..|by apply elem_of_nil in H].
Qed.

Lemma construct_decimal_total e : -9 ≤ e ≤ 18 → e mod 3 = 0 → construct 10 e DecimalSI ≠ None.
Proof.
  intros He Hm. assert (e ∈ [-9; -6; -3; 0; 3; 6; 9; 12; 15; 18]) as Hin.
  { apply Z.mod_divide in Hm as [k ->]; [|lia].
    assert (k ∈ [-3; -2; -1; 0; 1; 2; 3; 4; 5; 6]); [|set_solver].
    assert (k = -3 ∨ k = -2 ∨ k = -1 ∨ k = 0 ∨ k = 1 ∨ k = 2 ∨ k = 3 ∨ k = 4 ∨ k = 5 ∨ k = 6) by lia. set_solver. }
  repeat (apply elem_of_cons in Hin as [->|Hin]); [by vm_compute..|by apply elem_of_nil in Hin].
Qed.

Lemma construct_binary t : 1 ≤ t ≤ 6 → ∃ suf, construct 2 (t * 10) BinarySI = Some suf ∧ suf ≠ "" ∧
  interpret suf = Some (2, t * 10, BinarySI).
Proof.
  intros Ht. assert (t = 1 ∨ t = 2 ∨ t = 3 ∨ t = 4 ∨ t = 5 ∨ t = 6) as H by lia.
  destruct_or! H; subst; [exists "Ki"|exists "Mi"|exists "Gi"|exists "Ti"|exists "Pi"|exists "Ei"]; by vm_compute.
Qed.

Lemma lookup_not_head (m : gmap string bePair) s c rest :
  (∀ k x, (k, x) ∈ map_to_list m → HasPrefix k (String c "") = false) → s = String c rest → m !! s = None.
Proof.
  intros Hm ->. destruct (m !! String c rest) as [x|] eqn:E; [|done]. apply lookup_in, Hm in E.
  apply not_true_iff_false in E. destruct E. apply HasPrefix_spec. by exists rest.
Qed.

Lemma construct_exponent e : - 2 ^ 31 ≤ e < 2 ^ 31 → e ≠ 0 →
  construct 10 e DecimalExponent = Some ("e" +:+ Itoa e) ∧ interpret ("e" +:+ Itoa e) = Some (10, e, DecimalExponent).
Proof.
  intros He Hne. split.
  { unfold construct. simpl. by destruct (Z.eqb_spec e 0). }
  assert (in64 e) as Hin by (width; small_scale; lia).
  destruct (Itoa_signed_digits e) as (sgn & ds & E & _ & _ & _ & Hds & _ & _).
  assert (Itoa e ≠ "") as Hn by (rewrite E; by destruct sgn, ds).
  unfold interpret. rewrite !bool_decide_false by (intros [=]; done). unfold sh_interpret, lookup_suffix.
  rewrite !(lookup_not_head _ _ "e" (Itoa e)); try done.
  - destruct (Itoa e) as [|c r] eqn:Ei; [done|]. rewrite <- Ei. change ("e" +:+ Itoa e) with (String "e" (Itoa e)).
    replace (1 <? slen (String "e" (Itoa e))) with true.
    2:{ rewrite Ei. unfold slen. simpl String.length. symmetry. apply Z.ltb_lt. lia. }
    rewrite (bool_decide_true ("e"%char = "e"%char)), orb_true_r by done. simpl andb. cbv iota.
    rewrite Atoi_Itoa_signed, wrap32_in by done. done.
  - intros k x H. set (l := map_to_list _) in H. vm_compute in l. subst l.
    repeat (apply elem_of_cons in H as [[= -> ->]|H]); [by vm_compute..|by apply elem_of_nil in H].
  - intros k x H. set (l := map_to_list _) in H. vm_compute in l. subst l.
    repeat (apply elem_of_cons in H as [[= -> ->]|H]); [by vm_compute..|by apply elem_of_nil in H].
Qed.

(** ** Canonical forms *)

(** Quantities within the bounds of the arithmetic of scales: exponents that are added
    and multiplied below stay within an [int32]. *)
Definition quantity_ok (q : Quantity) : Prop :=
  match q_d q with
  | None => in64 (value (q_i q)) ∧ - 2 ^ 27 < scale (q_i q) < 2 ^ 27
  | Some d => - 2 ^ 27 < dec_scale d < 2 ^ 27 ∧ Z.log2 (Z.abs (unscaled d)) < 2 ^ 27
  end.

#[global] Instance quantity_ok_dec q : Decision (quantity_ok q).
Proof. unfold quantity_ok, in64. destruct (q_d q); apply _. Defined.

Ltac bounds := change (2 ^ 27) with 134217728 in *; change (2 ^ 28) with 268435456 in *; small_scale.

Lemma removeBigIntFactors_times d base :
  2 ≤ base → d ≠ 0 →
  let '(r, t) := removeBigIntFactors d base in d = r * base ^ t ∧ 0 ≤ t ≤ Z.log2 (Z.abs d) ∧ r mod base ≠ 0 ∧ r ≠ 0.
Proof.
  intros Hb Hd. pose proof (removeBigIntFactors_spec d base Hb) as H.
  destruct (removeBigIntFactors d base) as [r t]. destruct H as (E & Ht & Hr).
  assert (r ≠ 0) as Hr0 by (intros ->; lia). split_and!; [done|done| |by destruct Hr|done].
  apply Z.log2_le_pow2; [lia|]. pose proof (Z.pow_le_mono_l 2 base t ltac:(lia)).
  pose proof (Z.pow_pos_nonneg base t ltac:(lia) Ht). nia.
Qed.

(** The canonical decimal form of a quantity is the quantity, with an exponent that is a
    multiple of three. *)
Lemma canonical_of_same a p :
  canonical_of a p → same_amount a (mkAmount p.1 p.2) ∧ p.2 mod 3 = 0 ∧ Z.log2 (Z.abs p.1) ≤ Z.log2 (Z.abs (value a)) + 7.
Proof.
  intros (Hm & Hle & Hv & _). split; [|split; [done|]].
  2:{ pose proof (Z.pow_pos_nonneg 10 (p.2 - (scale a - 2)) ltac:(lia) ltac:(lia)) as Hp. set (k := 10 ^ _) in *.
      change (10 ^ 2) with 100 in Hv. assert (Z.abs p.1 ≤ Z.abs (value a) * 2 ^ 7) as H by (change (2 ^ 7) with 128; nia).
      destruct (Z.eq_dec (value a) 0) as [E|E].
      { rewrite E in H |- *. simpl in H. replace (Z.abs p.1) with 0 by lia. simpl. lia. }
      rewrite Z.add_comm, <- Z.log2_mul_pow2 by lia. by apply Z.log2_le_mono. }
  rewrite (same_amount_iff _ _ (scale a - 2)) by (simpl; lia). unfold at_scale. cbn [value scale]. rewrite Hv.
  do 2 f_equal. lia.
Qed.

Lemma Quantity_AsCanonical_spec q :
  quantity_ok q → IsZero q = false →
  let '(x, e) := Quantity_AsCanonical q in
  same_amount (amount_of q) (mkAmount x e) ∧ e mod 3 = 0 ∧ x ≠ 0 ∧ - 2 ^ 28 < e < 2 ^ 28 ∧ Z.log2 (Z.abs x) < 2 ^ 27 + 7.
Proof.
  unfold quantity_ok, IsZero, Quantity_AsCanonical, amount_of. destruct (q_d q) as [d|].
  - unfold Dec_sign. intros [Hs Hlog] Hz. apply Z.eqb_neq in Hz. rewrite Z.sgn_null_iff in Hz.
    unfold Dec_AsCanonical, Dec_canonical. cbn [value scale].
    rewrite (wrap32_in (- dec_scale d)) by (bounds; lia).
    pose proof (removeBigIntFactors_times (unscaled d) 10 ltac:(lia) Hz) as H.
    destruct (removeBigIntFactors (unscaled d) 10) as [r t]. destruct H as (E & Ht & Hr & Hr0).
    rewrite wrap32_in by (bounds; lia). rewrite (exponent_loop_spec _ _ 0) by (bounds; lia).
    set (k := (- dec_scale d + t) mod 3). pose proof (Z.mod_pos_bound (- dec_scale d + t) 3 ltac:(lia)). fold k in H.
    destruct (canonical_of_same (dec_amount d) (r * 10 ^ k, - dec_scale d + t - k)) as (H1 & H2 & H3).
    { apply canonical_of_factors; [exact E|lia|done|done]. }
    split_and!; [exact H1|exact H2| |bounds; lia..|cbn [fst value dec_amount] in H3; bounds; lia].
    pose proof (Z.pow_pos_nonneg 10 k ltac:(lia) ltac:(lia)). nia.
  - intros [Hv Hs] Hz. apply Z.eqb_neq in Hz.
    assert (valid (q_i q)) as Hval by (split; [done|bounds; lia]).
    pose proof (canonical_spec _ Hval) as Hc. pose proof (canonical_of_same _ _ Hc) as (H1 & H2 & H3).
    destruct Hc as (_ & Hle & Hval' & _). destruct (canonical (q_i q)) as [x e]. cbn [fst snd] in *.
    assert (x ≠ 0) as Hx by (intros ->; lia).
    assert (Z.log2 (Z.abs (value (q_i q))) ≤ 63) by (change 63 with (Z.log2 (2 ^ 63)); apply Z.log2_le_mono; width; lia).
    split_and!; [done..|bounds; lia| |bounds; lia].
    destruct (Z.lt_ge_cases e (2 ^ 28)) as [|Hge]; [done|exfalso].
    assert (10 ^ 64 ≤ 10 ^ (e - (scale (q_i q) - 2))) as Hp by (apply Z.pow_le_mono_r; bounds; lia).
    assert (10 ^ 64 * 1 ≤ 10 ^ (e - (scale (q_i q) - 2)) * Z.abs x) by (apply Z.mul_le_mono_nonneg; lia).
    assert (Z.abs (x * 10 ^ (e - (scale (q_i q) - 2))) = Z.abs (value (q_i q)) * 10 ^ 2) as Ha
      by (rewrite Hval', Z.abs_mul; done).
    rewrite Z.abs_mul, (Z.abs_eq (10 ^ _)) in Ha by lia. set (p := 10 ^ (e - _)) in *.
    change (10 ^ 64) with (18446744073709551616 * 542101086242752217003726400434970855712890625) in *.
    change (10 ^ 2) with 100 in *. width. lia.
Qed.

(** The binary form: what is rounded to an integer without a remainder is that integer,
    and factors of 1024 are taken out of it. *)
Lemma Dec_base1024 x s :
  scale_ok s → rounded_to x (- s) ≠ 0 →
  let '(r, t) := Dec_AsCanonicalBase1024 (mkDec x s) in
  r * 1024 ^ t = rounded_to x (- s) ∧ 0 ≤ t.
Proof.
  intros Hs Hne. unfold Dec_AsCanonicalBase1024. rewrite Dec_round_exact by (done || (unfold scale_ok; vm_compute; done)).
  cbn [unscaled dec_scale]. change (0 - s) with (- s).
  pose proof (removeBigIntFactors_times _ 1024 ltac:(lia) Hne) as H.
  destruct (removeBigIntFactors _ 1024) as [r t]. destruct H as (E & Ht & _). split; [by rewrite <- E|lia].
Qed.

Lemma base1024_int a :
  in64 (value a) → 0 ≤ scale a < 2 ^ 27 → value a ≠ 0 →
  let '(r, t) := AsCanonicalBase1024 a in r * 1024 ^ t = value a * 10 ^ scale a ∧ 0 ≤ t.
Proof.
  intros Hv Hs Hne. unfold AsCanonicalBase1024, AsScaledInt64. destruct (Z.ltb_spec (scale a) 0); [lia|].
  rewrite Z.sub_0_r, wrap32_in by (bounds; lia). rewrite positiveScaleInt64_checked by (done || lia).
  destruct (decide (in64 (value a * 10 ^ scale a))) as [Hin|Hout].
  - rewrite checked_in by done. pose proof (removeInt64Factors_spec _ 1024 Hin ltac:(lia)) as Hf.
    destruct (removeInt64Factors _ 1024) as [r t]. destruct Hf as (E & Ht & _). split; [by rewrite E|done].
  - rewrite checked_out by done. unfold AsDec. rewrite wrap32_in by (bounds; lia).
    assert (rounded_to (value a) (- - scale a) = value a * 10 ^ scale a) as E.
    { rewrite Z.opp_involutive. unfold rounded_to. by destruct (Z.leb_spec 0 (scale a)); [|lia]. }
    rewrite <- E. apply Dec_base1024; [unfold scale_ok; bounds; lia|]. rewrite E.
    pose proof (Z.pow_pos_nonneg 10 (scale a) ltac:(lia) ltac:(lia)). nia.
Qed.

Lemma Quantity_base1024_spec q rounded :
  quantity_ok q → IsZero q = false → Quantity_AsScale q 0 = (rounded, true) →
  let '(r, t) := canonical_base1024 rounded in
  same_amount (amount_of q) (mkAmount (r * 1024 ^ t) 0) ∧ 0 ≤ t.
Proof.
  unfold quantity_ok, IsZero, Quantity_AsScale, amount_of, Dec_sign. destruct (q_d q) as [d|].
  - intros [Hs _] Hz. apply Z.eqb_neq in Hz. rewrite Z.sgn_null_iff in Hz. unfold Dec_AsScale.
    assert (scale_ok (dec_scale d)) as Hok by (unfold scale_ok; bounds; lia).
    assert (scale_ok 0) as Hok0 by (unfold scale_ok; vm_compute; done).
    change (infScale 0) with 0. rewrite Dec_round_exact by done. intros [= <- Hex]. apply Z.eqb_eq in Hex.
    rewrite Dec_cmp_exact in Hex by done. set (w := rounded_to _ _) in *. unfold canonical_base1024.
    assert (same_amount (dec_amount d) (mkAmount w 0)) as Hsame by (by symmetry).
    assert (w ≠ 0) as Hw.
    { intros ->. rewrite (same_amount_iff _ _ (Z.min 0 (- dec_scale d))) in Hsame by (simpl; lia).
      unfold at_scale in Hsame. simpl in Hsame.
      pose proof (Z.pow_pos_nonneg 10 (- dec_scale d - Z.min 0 (- dec_scale d)) ltac:(lia) ltac:(lia)). nia. }
    assert (rounded_to w (- 0) = w) as E0 by (unfold rounded_to; simpl; lia).
    pose proof (Dec_base1024 w 0 Hok0 ltac:(by rewrite E0)) as H. destruct (Dec_AsCanonicalBase1024 _) as [r t].
    destruct H as [H Ht]. split; [|done]. by rewrite H, E0.
  - intros [Hv Hs] Hz. apply Z.eqb_neq in Hz. unfold AsScale.
    destruct (Z.leb_spec 0 (scale (q_i q))) as [Hle|Hlt].
    + intros [= <-]. unfold canonical_base1024. pose proof (base1024_int (q_i q) Hv ltac:(lia) Hz) as H.
      destruct (AsCanonicalBase1024 (q_i q)) as [r t]. destruct H as [-> Ht]. split; [|done].
      rewrite (same_amount_shift _ 0) by done. by destruct (q_i q).
    + rewrite wrap32_in by (bounds; lia). rewrite negativeScaleInt64_spec by (done || lia).
      intros [= <- Hex]. apply Z.eqb_eq in Hex. unfold canonical_base1024.
      set (p := 10 ^ (0 - scale (q_i q))) in *. assert (1 < p) as Hp by (apply Z.pow_gt_1; lia).
      assert (value (q_i q) = round_away (value (q_i q)) p * p) as E.
      { unfold round_away. rewrite Hex. simpl. pose proof (Z.quot_rem' (value (q_i q)) p). lia. }
      set (w := round_away _ p) in *. assert (w ≠ 0) as Hw by (intros Ew; rewrite Ew in E; lia).
      assert (in64 w) as Hwin by (width; nia).
      pose proof (base1024_int (mkAmount w 0) Hwin ltac:(simpl; bounds; lia) Hw) as H.
      destruct (AsCanonicalBase1024 _) as [r t]. destruct H as [-> Ht]. split; [|done]. cbn [value scale].
      rewrite Z.mul_1_r. rewrite (same_amount_iff _ _ (scale (q_i q))) by (simpl; lia).
      rewrite at_scale_own. unfold at_scale. simpl. done.
Qed.

(** ** Printed and read back *)

Lemma same_amount_zero a k : same_amount a (mkAmount 0 k) → value a = 0.
Proof.
  set (m := Z.min (scale a) k). rewrite (same_amount_iff _ _ m) by (simpl; lia). unfold at_scale. simpl.
  pose proof (Z.pow_pos_nonneg 10 (scale a - m) ltac:(lia) ltac:(lia)). nia.
Qed.

Lemma IsZero_amount q : IsZero q = false → value (amount_of q) ≠ 0.
Proof.
  unfold IsZero, amount_of, Dec_sign. destruct (q_d q); intros H%Z.eqb_neq; simpl; [by rewrite Z.sgn_null_iff in H|done].
Qed.

(** The form in which a quantity is printed is that quantity. *)
Lemma canonical_parts_spec q f x e :
  quantity_ok q → canonical_parts q = Some (f, x, e) →
  x ≠ 0 ∧
  (f = BinarySI ∧ same_amount (amount_of q) (mkAmount (x * 1024 ^ e) 0) ∧ 0 ≤ e ∨
   (f = DecimalSI ∨ f = DecimalExponent) ∧ same_amount (amount_of q) (mkAmount x e) ∧ e mod 3 = 0 ∧
   - 2 ^ 28 < e < 2 ^ 28 ∧ Z.log2 (Z.abs x) < 2 ^ 27 + 7).
Proof.
  intros Hok. unfold canonical_parts. destruct (IsZero q) eqn:Hz; [done|].
  pose proof (Quantity_AsCanonical_spec q Hok Hz) as Hdec. pose proof (Quantity_base1024_spec q) as Hbin.
  destruct (Quantity_AsCanonical q) as [x' e']. destruct Hdec as (H1 & H2 & H3 & H4 & H5).
  assert (∀ g, (g = DecimalSI ∨ g = DecimalExponent) → Some (g, x', e') = Some (f, x, e) → x ≠ 0 ∧
     (f = BinarySI ∧ same_amount (amount_of q) (mkAmount (x * 1024 ^ e) 0) ∧ 0 ≤ e ∨
      (f = DecimalSI ∨ f = DecimalExponent) ∧ same_amount (amount_of q) (mkAmount x e) ∧ e mod 3 = 0 ∧
      - 2 ^ 28 < e < 2 ^ 28 ∧ Z.log2 (Z.abs x) < 2 ^ 27 + 7)) as Hdone by (intros g Hg [= <- <- <-]; auto 10).
  destruct (bool_decide (q_format q = DecimalExponent)) eqn:E1; [|destruct (bool_decide (q_format q = DecimalSI)) eqn:E2].
  - apply bool_decide_eq_true in E1 as ->. simpl orb. cbv iota. apply Hdone. by right.
  - apply bool_decide_eq_true in E2 as ->. simpl orb. cbv iota. apply Hdone. by left.
  - simpl orb. cbv iota. clear E1 E2. destruct (decide (q_format q = BinarySI)) as [->|E3];
      [|rewrite (bool_decide_false (q_format q = BinarySI)) by done; apply Hdone; by right].
    rewrite (bool_decide_true (BinarySI = BinarySI)) by done.
    destruct ((0 <? CmpInt64 q (-1024)) && (CmpInt64 q 1024 <? 0)); [apply Hdone; by left|].
    destruct (Quantity_AsScale q 0) as [rounded [|]]; [|apply Hdone; by left].
    specialize (Hbin rounded Hok Hz eq_refl). simpl default.
    destruct (canonical_base1024 rounded) as [r t]. intros [= <- <- <-]. split; [|by left].
    intros ->. destruct Hbin as [Hs _]. by apply same_amount_zero, IsZero_amount in Hs.
Qed.

(** Where printing keeps the number: a decimal exponent that has a suffix and no digits
    below nano, or a binary form within the cap. *)
Definition printable (q : Quantity) : Prop :=
  match canonical_parts q with
  | None => True
  | Some (f, x, e) =>
      if bool_decide (f = BinarySI) then Z.abs x * 1024 ^ e ≤ 2 ^ 63 - 1
      else Nano ≤ e ∧ (f = DecimalSI → e ≤ 18)
  end.

(** A number and a suffix are parsed to that number. *)
Lemma parse_printed x suf base e f :
  interpret suf = Some (base, e, f) → - 2 ^ 28 < e < 2 ^ 28 → Z.log2 (Z.abs x) < 2 ^ 27 + 7 →
  let mag := magnitude (Z.abs x) 0 base e in
  ∃ q, ParseQuantity (Itoa x +:+ suf) = Ok q ∧ q_format q = expected_format f mag ∧
       same_amount (amount_of q) (mkAmount (Z.sgn x * mag) Nano).
Proof.
  intros Hint He Hlog mag. destruct (Itoa_signed_digits x) as (sgn & ds & -> & Hsgn & Hplus & Hds & Hne & Hx & Hlen).
  assert (digits_value ds = Z.abs x) as Hv.
  { pose proof (digits_value_range ds Hds). unfold sign_of in Hx. case_bool_decide; lia. }
  destruct (ParseQuantity_value sgn ds "" "" suf base e f) as (q & Hq & Hf & _ & Hs); [done|done|by split; [|left]| |done| |].
  - by rewrite string_app_nil_r.
  - unfold sizes_ok. change (slen "") with 0. bounds. lia.
  - rewrite string_app_nil_r, Hv in *. change (slen "") with 0 in *. fold mag in Hf, Hs.
    exists q. rewrite string_app_assoc. split_and!; [exact Hq|done|]. unfold same_amount.
    replace (Z.sgn x * mag) with (sign_of sgn * mag); [done|].
    destruct (Z.eq_dec x 0) as [E0|E0].
    + assert (mag = 0) as ->; [|lia]. assert (∀ k, rounded_to 0 k = 0) as Hr0 by (intros k; by apply (rounded_to_nonneg 0 k)).
      unfold mag, magnitude. rewrite E0. simpl. rewrite !Hr0. by destruct (base =? 10).
    + f_equal. unfold sign_of in *. case_bool_decide; destruct (Z.sgn_spec x) as [[? ->]|[[? ->]|[? ->]]]; lia.
Qed.

Lemma sgn_abs x : Z.sgn x * Z.abs x = x.
Proof. destruct x; simpl; lia. Qed.

Lemma decimal_magnitude x e : -9 ≤ e → same_amount (mkAmount (Z.sgn x * magnitude (Z.abs x) 0 10 e) Nano) (mkAmount x e).
Proof.
  intros He. unfold magnitude, rounded_to. simpl. destruct (Z.leb_spec 0 (9 + e - 0)); [|lia].
  rewrite Z.mul_assoc, sgn_abs. unfold Nano. rewrite same_amount_shift by lia. f_equiv. f_equal. lia.
Qed.

Lemma binary_magnitude x t :
  0 ≤ t → Z.abs x * 1024 ^ t ≤ 2 ^ 63 - 1 →
  magnitude (Z.abs x) 0 2 (t * 10) = Z.abs x * 1024 ^ t * 10 ^ 9.
Proof.
  intros Ht Hle. unfold magnitude. cbn [Z.eqb Pos.eqb].
  change (rounded_to (Z.abs x * 2 ^ (t * 10)) (9 - 0)) with (Z.abs x * 2 ^ (t * 10) * 10 ^ 9).
  replace (2 ^ (t * 10)) with (1024 ^ t) by (rewrite Z.mul_comm, Z.pow_mul_r by lia; done).
  apply Z.min_r, Z.mul_le_mono_nonneg_r; done.
Qed.

Lemma print_parse_decimal q f x e :
  quantity_ok q → f = DecimalSI ∨ f = DecimalExponent → same_amount (amount_of q) (mkAmount x e) → e mod 3 = 0 →
  - 2 ^ 28 < e < 2 ^ 28 → Z.log2 (Z.abs x) < 2 ^ 27 + 7 → Nano ≤ e → (f = DecimalSI → e ≤ 18) →
  let suf := default "" (construct 10 e f) in
  ∃ q', ParseQuantity (Itoa x +:+ suf) = Ok q' ∧ same_amount (amount_of q) (amount_of q') ∧
        q_format q' = if bool_decide (suf = "") then DecimalSI else f.
Proof.
  intros Hok Hf Hs Hm He Hlog Hn Hmax suf.
  assert (∃ g, interpret suf = Some (10, e, g) ∧ g ≠ BinarySI ∧ g = (if bool_decide (suf = "") then DecimalSI else f))
    as (g & Hint & Hg & Eg).
  { destruct Hf as [->| ->].
    - destruct (construct 10 e DecimalSI) as [s|] eqn:E;
        [|by destruct (construct_decimal_total e (conj Hn (Hmax eq_refl)) Hm)].
      exists DecimalSI. unfold suf. simpl. split_and!; [by apply construct_decimal|done|by case_bool_decide].
    - destruct (Z.eq_dec e 0) as [->|Hne]; [by exists DecimalSI|].
      destruct (construct_exponent e ltac:(bounds; lia) Hne) as [E Hi]. exists DecimalExponent.
      unfold suf. rewrite E. by split_and!. }
  destruct (parse_printed x suf 10 e g Hint He Hlog) as (q' & Hq & Hfmt & Hs'). exists q'. split_and!; [done| |].
  - rewrite Hs', Hs. symmetry. by apply decimal_magnitude.
  - rewrite Hfmt, <- Eg. unfold expected_format. by rewrite bool_decide_false.
Qed.

Lemma print_parse_binary q x t :
  quantity_ok q → x ≠ 0 → same_amount (amount_of q) (mkAmount (x * 1024 ^ t) 0) → 0 ≤ t →
  Z.abs x * 1024 ^ t ≤ 2 ^ 63 - 1 →
  let suf := default "" (construct 2 (wrap32 (t * 10)) BinarySI) in
  ∃ q', ParseQuantity (Itoa x +:+ suf) = Ok q' ∧ same_amount (amount_of q) (amount_of q') ∧
        q_format q' = if bool_decide (suf = "") then DecimalSI else BinarySI.
Proof.
  intros Hok Hx Hs Ht Hmax suf.
  assert (t ≤ 6) as Ht6.
  { destruct (Z.le_gt_cases t 6) as [|Hgt]; [done|exfalso].
    pose proof (Z.pow_le_mono_r 1024 7 t ltac:(lia) ltac:(lia)) as Hp. change (1024 ^ 7) with 1180591620717411303424 in Hp.
    change (2 ^ 63) with 9223372036854775808 in *. nia. }
  pose proof (Z.pow_pos_nonneg 1024 t ltac:(lia) Ht) as Hp.
  assert (Z.log2 (Z.abs x) < 2 ^ 27 + 7) as Hlog.
  { assert (Z.log2 (Z.abs x) ≤ Z.log2 (2 ^ 63)) by (apply Z.log2_le_mono; nia). rewrite Z.log2_pow2 in * by lia. bounds. lia. }
  unfold suf. rewrite wrap32_in by (bounds; lia). destruct (Z.eq_dec t 0) as [->|Hne].
  - destruct (parse_printed x "" 10 0 DecimalSI eq_refl ltac:(bounds; lia) Hlog) as (q' & Hq & Hfmt & Hs').
    exists q'. split_and!; [done| |done]. rewrite Hs', Hs, decimal_magnitude by lia. f_equiv. f_equal. lia.
  - destruct (construct_binary t ltac:(lia)) as (s & E & Hsne & Hint). rewrite E. simpl default.
    destruct (parse_printed x s 2 (t * 10) BinarySI Hint ltac:(bounds; lia) Hlog) as (q' & Hq & Hfmt & Hs').
    rewrite binary_magnitude in * by done. exists q'. split_and!; [done| |].
    + rewrite Hs', Hs, Z.mul_assoc, Z.mul_assoc, sgn_abs. unfold Nano. rewrite same_amount_shift by lia. done.
    + rewrite Hfmt, bool_decide_false by done. unfold expected_format. rewrite bool_decide_true by done. simpl andb.
      destruct (Z.ltb_spec (Z.abs x * 1024 ^ t * 10 ^ 9) (10 ^ 9)); [nia|]. by rewrite andb_false_r.
Qed.

Definition printed_format (q : Quantity) : Format :=
  match canonical_parts q with Some (f, _, _) => f | None => DecimalSI end.

Lemma print_parse q :
  quantity_ok q → printable q →
  let '(number, suffix) := CanonicalizeBytes q in
  ∃ q', ParseQuantity (number +:+ suffix) = Ok q' ∧ same_amount (amount_of q) (amount_of q') ∧
        q_format q' = if bool_decide (suffix = "") then DecimalSI else printed_format q.
Proof.
  intros Hok. unfold printable, CanonicalizeBytes, printed_format. destruct (canonical_parts q) as [[[f x] e]|] eqn:E.
  - destruct (canonical_parts_spec q f x e Hok E) as (Hx & [(-> & Hs & He)|(Hf & Hs & Hm & He & Hlog)]).
    + rewrite bool_decide_true by done. intros Hp. by apply print_parse_binary.
    + rewrite bool_decide_false by (destruct Hf; by subst). intros [H1 H2]. by apply print_parse_decimal.
  - intros _. eexists. split; [done|]. split; [|done]. unfold canonical_parts in E. destruct (IsZero q) eqn:Hz.
    + unfold amount_of at 2. simpl. unfold IsZero, Dec_sign in Hz.
      assert (value (amount_of q) = 0) as Hv.
      { unfold amount_of. destruct (q_d q); apply Z.eqb_eq in Hz; [simpl; by rewrite Z.sgn_null_iff in Hz|done]. }
      unfold same_amount, Dec_Cmp. by rewrite Hv.
    + repeat case_match; discriminate E.
Qed.

(** C21: What is printed is parsed to the same number, where the suffixes and the cap of
    the parser leave room: for every quantity that is [printable], that is whose canonical
    form has a binary value of at most 2^63-1, or a decimal exponent of at least -9 and, in
    the decimal SI format, at most 18, and whose scale and number of bits are below 2^27,
    whether it is kept in a machine integer or in a decimal, the printed string is accepted,
    and the quantity it is parsed to is equal and has the printed format. Beyond these bounds
    the number is lost, see [beyond_printable]. *)
Theorem quantity_roundtrip (q : Quantity) :
  quantity_ok q → printable q →
  let '(number, suffix) := CanonicalizeBytes q in
  ∃ q', ParseQuantity (number +:+ suffix) = Ok q' ∧ same_amount (amount_of q) (amount_of q') ∧
        q_format q' = if bool_decide (suffix = "") then DecimalSI else printed_format q.
Proof. apply print_parse. Qed.

Lemma quantity_roundtrip_witness :
  let q := mkQuantity (mkAmount 1536 0) None "" BinarySI in
  let p := mkQuantity Zero (Some (mkDec 12345678901234567890500 3)) "" DecimalSI in
  (∃ q', ParseQuantity "1536" = Ok q' ∧ same_amount (amount_of q) (amount_of q')) ∧
  (∃ p', ParseQuantity "12345678901234567890500m" = Ok p' ∧ same_amount (amount_of p) (amount_of p')).
Proof.
  intros q p. split.
  - pose proof (quantity_roundtrip q ltac:(vm_compute; repeat split; discriminate) ltac:(by vm_compute)) as H.
    destruct (CanonicalizeBytes q) as [n s] eqn:E. vm_compute in E. injection E as <- <-.
    destruct H as (q' & H1 & H2 & _). exists q'. split; [exact H1|exact H2].
  - pose proof (quantity_roundtrip p ltac:(vm_compute; repeat split; discriminate) ltac:(by vm_compute)) as H.
    destruct (CanonicalizeBytes p) as [n s] eqn:E. vm_compute in E. injection E as <- <-.
    destruct H as (q' & H1 & H2 & _). exists q'. split; [exact H1|exact H2].
Defined.

(** ** Where the number is lost *)

(** Beyond the bounds of [printable]: a binary value above the cap is printed in full and
    parsed to the cap, and digits below nano are rounded up when they are parsed. *)
Example beyond_printable :
  let q := mkQuantity (mkAmount 1 0) (Some (mkDec (2 ^ 63) 0)) "" BinarySI in
  let p := mkQuantity (mkAmount 5 (-12)) None "" DecimalExponent in
  let read s := match ParseQuantity s with Ok q => Some (amount_of q) | Err _ => None end in
  CanonicalizeBytes q = ("8", "Ei") ∧ read "8Ei" = Some (mkAmount (2 ^ 63 - 1) 0) ∧
  CanonicalizeBytes p = ("5", "e-12") ∧ read "5e-12" = Some (mkAmount 1 Nano).
Proof. by vm_compute. Qed.

(** A decimal quantity of [10 ^ 21] and more has no suffix, and is printed without one:
    a thousand exa units are written as one unit. The same holds for binary quantities
    that a sum makes larger than the cap of the parser. *)
Example thousand_exa_printed :
  (q ← MustParse "1000E"; Some (Quantity_String q).1) = Some "1" ∧
  (let q := Quantity_Add (NewQuantity (2 ^ 62) BinarySI) (NewQuantity (2 ^ 62) BinarySI) in
   let q := Nat.iter 9 (λ q, Quantity_Add q q) q in
   (Quantity_String q).1 = "4") ∧
  MarshalJSON (NewScaledQuantity 5 (-12)) = quote +:+ "5" +:+ quote.
Proof. by vm_compute. Qed.

(** An exponent is cut to 32 bits: [2 ^ 32 + 3] is three. *)
Example exponent_truncated :
  ParseQuantity "1e4294967299" = Ok (mkQuantity (mkAmount 1 3) None "1e4294967299" DecimalExponent).
Proof. by vm_compute. Qed.

(** Strings without a digit are quantities of zero, unless the suffix is a large binary
    one; the documented grammar and the pattern of the error message ask for a digit. *)
Example no_digits_accepted :
  map (λ s, is_ok (ParseQuantity s)) ["-"; "+"; "."; "-.k"; "m"; "Ki"; "Ti"; "e5"] = repeat true 8 ∧
  map ParseQuantity ["Pi"; "Ei"] = [Err ErrNumeric; Err ErrNumeric].
Proof. by vm_compute. Qed.

(** The string that was parsed is printed again when it counts as canonical, which a
    plus sign, leading zeros, a fraction or a capital exponent do not prevent. *)
Definition printed_twice (s : string) : option (string * string) :=
  match ParseQuantity s with
  | Ok q => let '(number, suffix) := CanonicalizeBytes q in Some ((Quantity_String q).1, number +:+ suffix)
  | Err _ => None
  end.

Example reused_not_canonical :
  map printed_twice ["1.500"; "+1"; "001"; "+01Ki"; "1E3"] =
  [Some ("1.500", "1500m"); Some ("+1", "1"); Some ("001", "1"); Some ("+01Ki", "1Ki"); Some ("1E3", "1e3")].
Proof. by vm_compute. Qed.
