(* ===== verification/QuantityArith.v ===== *)
(** * Computing with quantities

    Sums, comparisons and integer values of the quantities of [ResourceQuantity.v], which
    agree with the exact numbers although a quantity changes from machine integers to
    decimals on the way; and the printed string that a quantity keeps. *)

From S2P Require Import Prelude GoStrings GoSpace GoStrconv GoInt PodQos Int64Amount Validation InfDec ResourceQuantity QuantityParse QuantityPrint.

(** ** From integers to decimals *)

Lemma AsDec_amount a : - 2 ^ 27 < scale a < 2 ^ 27 → dec_amount (AsDec a) = a.
Proof.
  intros Ha. unfold AsDec, dec_amount. simpl. rewrite wrap32_in by (bounds; lia). rewrite Z.opp_involutive. by destruct a.
Qed.

(** The decimal that an operation uses stands for the same amount. *)
Lemma Quantity_AsDec_amount q :
  quantity_ok q → dec_amount (Quantity_AsDec q).1 = amount_of q ∧ scale_ok (dec_scale (Quantity_AsDec q).1).
Proof.
  unfold quantity_ok, Quantity_AsDec, amount_of. destruct (q_d q) as [d|].
  - intros [Hs _]. split; [done|]. unfold scale_ok. simpl. bounds. lia.
  - intros [_ Hs]. split; [by apply AsDec_amount|]. unfold scale_ok, AsDec. simpl. rewrite wrap32_in; bounds; lia.
Qed.

Lemma ToDec_eq q : ToDec q = mkQuantity (if q_d q then q_i q else Zero) (Some (Quantity_AsDec q).1) (q_s q) (q_format q).
Proof. unfold ToDec, Quantity_AsDec. destruct q as [i [d|] s f]; done. Qed.

Lemma ToDec_amount q : quantity_ok q → amount_of (ToDec q) = amount_of q.
Proof. intros Hq. rewrite ToDec_eq. unfold amount_of at 1. simpl. by apply Quantity_AsDec_amount. Qed.

Lemma ToDec_s q : q_s (ToDec q) = q_s q.
Proof. by rewrite ToDec_eq. Qed.

Lemma Quantity_AsDec_ToDec q : (Quantity_AsDec q).2 = ToDec q.
Proof. unfold Quantity_AsDec, ToDec. by destruct (q_d q). Qed.

(** ** Comparison *)

(** Comparing two quantities compares their numbers, however each is kept, and changes
    no number. *)
Theorem Quantity_Cmp_exact (q y : Quantity) :
  quantity_ok q → quantity_ok y →
  (Quantity_Cmp q y).1 = Dec_Cmp (amount_of q) (amount_of y) ∧
  amount_of (Quantity_Cmp q y).2 = amount_of q.
Proof.
  intros Hq Hy. destruct (Quantity_AsDec_amount q Hq) as [Eq Sq], (Quantity_AsDec_amount y Hy) as [Ey Sy].
  assert (let '(d, q') := Quantity_AsDec q in
    Dec_cmp d (Quantity_AsDec y).1 = Dec_Cmp (amount_of q) (amount_of y) ∧ amount_of q' = amount_of q) as Hslow.
  { pose proof (Quantity_AsDec_ToDec q). destruct (Quantity_AsDec q) as [d q']. simpl in *. subst q'.
    rewrite Dec_cmp_exact, Eq, Ey, ToDec_amount by done. done. }
  unfold Quantity_Cmp. destruct (q_d q) as [d|] eqn:Ed; [by destruct (Quantity_AsDec q)|].
  destruct (q_d y) as [d'|] eqn:Ed'; [by destruct (Quantity_AsDec q)|]. clear Hslow.
  unfold amount_of. rewrite Ed, Ed'. simpl. unfold quantity_ok in *. rewrite Ed, Ed' in *.
  split; [|done]. apply Cmp_exact; (split; [tauto|bounds; lia]).
Qed.

(** ** Sums *)

(** The amount [c] is the sum, or with [sg = -1] the difference, of two others. *)
Definition sum_of (sg : Z) (a b c : int64Amount) : Prop :=
  let m := Z.min (scale a) (scale b) in m ≤ scale c ∧ at_scale c m = at_scale a m + sg * at_scale b m.

Lemma ToDec_add q y :
  quantity_ok q → quantity_ok y →
  sum_of 1 (amount_of q) (amount_of y) (amount_of (update_dec (ToDec q) (λ d, Dec_add d (Quantity_AsDec y).1))) ∧
  sum_of (-1) (amount_of q) (amount_of y) (amount_of (update_dec (ToDec q) (λ d, Dec_sub d (Quantity_AsDec y).1))).
Proof.
  intros Hq Hy. destruct (Quantity_AsDec_amount q Hq) as [Eq Sq], (Quantity_AsDec_amount y Hy) as [Ey Sy].
  rewrite ToDec_eq. unfold update_dec, set_d. simpl. unfold amount_of at 3 6. simpl. rewrite <- Eq, <- Ey.
  destruct (Dec_add_exact (Quantity_AsDec q).1 (Quantity_AsDec y).1 Sq Sy) as [S1 E1].
  destruct (Dec_sub_exact (Quantity_AsDec q).1 (Quantity_AsDec y).1 Sq Sy) as [S2 E2].
  rewrite Z.opp_max_distr in *. split; (split; [simpl in *; lia|]).
  - rewrite Z.mul_1_l. exact E1.
  - etransitivity; [exact E2|]. cbn [scale dec_amount]. lia.
Qed.

(** [Add] and [Sub] on quantities that differ only in their cached string and format. *)
Lemma amount_of_set_s q s : amount_of (set_s q s) = amount_of q. Proof. done. Qed.
Lemma amount_of_set_format q f : amount_of (set_format q f) = amount_of q. Proof. done. Qed.
Lemma quantity_ok_set_s q s : quantity_ok q → quantity_ok (set_s q s). Proof. done. Qed.
Lemma quantity_ok_set_format q f : quantity_ok q → quantity_ok (set_format q f). Proof. done. Qed.

Lemma set_i_same q : set_i q (q_i q) = q.
Proof. by destruct q. Qed.

Lemma fast_sum q y :
  quantity_ok q → quantity_ok y → q_d q = None → q_d y = None →
  let '(ok, i) := Add (q_i q) (q_i y) in
  if ok then sum_of 1 (amount_of q) (amount_of y) (amount_of (set_i q i)) else i = q_i q.
Proof.
  intros Hq Hy Ed Ed'. unfold quantity_ok, amount_of in *. rewrite Ed, Ed' in *. simpl. rewrite Ed.
  pose proof (Add_spec (q_i q) (q_i y) ltac:(split; [tauto|bounds; lia]) ltac:(split; [tauto|bounds; lia])) as H.
  destruct (Add (q_i q) (q_i y)) as [[|] i]; [|by destruct H]. destruct H as (H1 & _ & H2).
  split; [done|]. by rewrite Z.mul_1_l.
Qed.

Lemma fast_difference q y :
  quantity_ok q → quantity_ok y → q_d q = None → q_d y = None → value (q_i y) ≠ mostNegative →
  let '(ok, i) := Sub (q_i q) (q_i y) in
  if ok then sum_of (-1) (amount_of q) (amount_of y) (amount_of (set_i q i)) else i = q_i q.
Proof.
  intros Hq Hy Ed Ed' Hmin. unfold quantity_ok, amount_of, Sub in *. rewrite Ed, Ed' in *. simpl. rewrite Ed.
  rewrite wrap64_in by (width; lia).
  pose proof (Add_spec (q_i q) (mkAmount (- value (q_i y)) (scale (q_i y))) ltac:(split; [tauto|bounds; lia])
    ltac:(split; simpl; [width; lia|bounds; lia])) as H.
  destruct (Add (q_i q) _) as [[|] i]; [|by destruct H]. destruct H as (H1 & _ & H2).
  split; [done|]. simpl in *. rewrite H2. unfold at_scale. simpl. lia.
Qed.

(** Sums and differences forget the string that was printed. *)
Lemma update_dec_cache q f : q_s (update_dec (ToDec q) f) = q_s q.
Proof. unfold update_dec, ToDec. by destruct (q_d q). Qed.

Lemma Add_cache q y : q_s (Quantity_Add q y) = "".
Proof.
  unfold Quantity_Add. cbn [q_d set_s]. destruct (q_d q), (q_d y); rewrite ?update_dec_cache; try (by case_match).
  destruct (Add _ _) as [[|] i]; rewrite ?update_dec_cache; by case_match.
Qed.

Lemma Sub_cache q y : q_s (Quantity_Sub q y) = "".
Proof.
  unfold Quantity_Sub. set (r := if IsZero (set_s q "") then set_format (set_s q "") (q_format y) else set_s q "").
  assert (q_s r = "") as <- by (unfold r; by case_match).
  destruct (q_d r), (q_d y); rewrite ?update_dec_cache; try done.
  destruct (Sub _ _) as [[|] i]; by rewrite ?update_dec_cache.
Qed.

Lemma Add_exact_amount q y :
  quantity_ok q → quantity_ok y → sum_of 1 (amount_of q) (amount_of y) (amount_of (Quantity_Add q y)).
Proof.
  intros Hq Hy. unfold Quantity_Add. cbn [q_d set_s].
  assert (∀ r, quantity_ok r → amount_of r = amount_of q →
    sum_of 1 (amount_of q) (amount_of y) (amount_of (update_dec (ToDec r) (λ d, Dec_add d (Quantity_AsDec y).1)))) as Hslow.
  { intros r Hr <-. by apply ToDec_add. }
  assert (∀ b : bool, quantity_ok (if b then set_format (set_s q "") (q_format y) else set_s q "") ∧
    amount_of (if b then set_format (set_s q "") (q_format y) else set_s q "") = amount_of q ∧
    q_d (if b then set_format (set_s q "") (q_format y) else set_s q "") = q_d q) as Hr by (by intros []).
  destruct (q_d q) as [d|] eqn:Ed; [apply Hslow; apply Hr|]. destruct (q_d y) as [d'|] eqn:Ed'; [apply Hslow; apply Hr|].
  destruct (Hr (value (q_i (set_s q "")) =? 0)) as (H1 & H2 & H3). set (r := if value (q_i (set_s q "")) =? 0 then _ else _) in *. clearbody r.
  pose proof (fast_sum r y H1 Hy H3 Ed') as H. destruct (Add (q_i r) (q_i y)) as [[|] i]; [by rewrite H2 in H|].
  subst i. rewrite set_i_same. by apply Hslow.
Qed.

Lemma Sub_exact_amount q y :
  quantity_ok q → quantity_ok y → (q_d q = None → q_d y = None → value (q_i y) ≠ mostNegative) →
  sum_of (-1) (amount_of q) (amount_of y) (amount_of (Quantity_Sub q y)).
Proof.
  intros Hq Hy Hmin. unfold Quantity_Sub.
  assert (∀ b : bool, quantity_ok (if b then set_format (set_s q "") (q_format y) else set_s q "") ∧
    amount_of (if b then set_format (set_s q "") (q_format y) else set_s q "") = amount_of q ∧
    q_d (if b then set_format (set_s q "") (q_format y) else set_s q "") = q_d q) as Hr by (by intros []).
  destruct (Hr (IsZero (set_s q ""))) as (H1 & H2 & H3). set (r := if IsZero (set_s q "") then _ else _) in *. clearbody r.
  assert (sum_of (-1) (amount_of q) (amount_of y) (amount_of (update_dec (ToDec r) (λ d, Dec_sub d (Quantity_AsDec y).1)))) as Hslow.
  { rewrite <- H2. by apply ToDec_add. }
  destruct (q_d r) as [d|] eqn:Ed; [done|]. destruct (q_d y) as [d'|] eqn:Ed'; [done|].
  pose proof (fast_difference r y H1 Hy Ed Ed' (Hmin (eq_sym H3) eq_refl)) as H.
  destruct (Sub (q_i r) (q_i y)) as [[|] i]; [by rewrite H2 in H|]. subst i. by rewrite set_i_same.
Qed.



(** ** Integer values *)

(** An amount in units of [10 ^ s], rounded up. *)
Definition ceil_at (a : int64Amount) (s : Z) : Z :=
  if s <=? scale a then at_scale a s else - ((- value a) / 10 ^ (s - scale a)).

Lemma round_away_ceil x d : 0 ≤ x → 0 < d → round_away x d = - ((- x) / d).
Proof.
  intros Hx Hd. unfold round_away. rewrite Z.quot_div_nonneg, Z.rem_mod_nonneg by lia.
  destruct (Z.eqb_spec (x mod d) 0) as [E|E].
  - rewrite Z.div_opp_l_z by lia. lia.
  - rewrite Z.div_opp_l_nz by lia. assert (x ≠ 0) by (intros ->; by rewrite Z.mod_0_l in E by lia).
    rewrite Z.sgn_pos by lia. lia.
Qed.

(** Rounding up does not depend on how an amount is written. *)
Lemma ceil_same a x s k : same_amount a (mkAmount x s) → 0 ≤ k → ceil_at a (s + k) = - ((- x) / 10 ^ k).
Proof.
  intros Hs Hk. set (m := Z.min (scale a) s). rewrite (same_amount_iff _ _ m) in Hs by (simpl; lia).
  unfold at_scale in Hs. cbn [value scale] in Hs. unfold ceil_at, at_scale.
  assert (∀ j, 0 ≤ j → 10 ^ j ≠ 0) as Hp by (intros j Hj; apply Z.pow_nonzero; lia).
  destruct (Z.leb_spec (s + k) (scale a)) as [Hle|Hlt].
  - assert (m = s) as Em by lia. rewrite Em, Z.sub_diag, Z.mul_1_r in Hs. subst x.
    replace (scale a - s) with (scale a - (s + k) + k) by lia. rewrite Z.pow_add_r, Z.mul_assoc, <- Z.mul_opp_l by lia.
    rewrite Z.div_mul by (apply Hp; lia). lia.
  - f_equal. rewrite <- (Z.div_mul_cancel_r (- value a) _ (10 ^ (scale a - m))) by (apply Hp; lia).
    rewrite <- (Z.div_mul_cancel_r (- x) _ (10 ^ (s - m))) by (apply Hp; lia).
    rewrite !Z.mul_opp_l, Hs. f_equal. rewrite <- !Z.pow_add_r by lia. f_equal. lia.
Qed.

Lemma scaled_product_in a b : in64 a → in64 b → 1 < b → in64 (a * b) → scaled_product a b = a * b.
Proof.
  intros Ha Hb Hb1 Hab. unfold scaled_product. rewrite wrap64_in by done. destruct ((a =? 0) || (a =? 1)); [done|].
  destruct ((a =? mostNegative) && negb (b =? 1)) eqn:E; [|done]. apply andb_prop in E as [E _].
  apply Z.eqb_eq in E. subst a. width. nia.
Qed.

Lemma positiveScale_value_in base s :
  in64 base → 0 ≤ s → in64 (base * 10 ^ s) → positiveScale_value base s = base * 10 ^ s.
Proof.
  intros Hb Hs Hin. unfold positiveScale_value.
  destruct (Z.eqb_spec s 0) as [->|]; [lia|].
  repeat (match goal with |- context [s =? ?k] => destruct (Z.eqb_spec s k) as [E|] end;
    [subst s; rewrite scaled_product_in by (done || (width; lia)); done|]).
  rewrite scale_loop_checked, Z2Nat.id, checked_in by done. done.
Qed.

Section Values.
Context (out_of_range : Z → Z).

Lemma scaledValue_down u old new :
  let s := old - new in
  0 ≤ u → 0 < s → in64 (- ((- u) / 10 ^ s)) → scaledValue out_of_range u old new = - ((- u) / 10 ^ s).
Proof.
  intros s Hu Hs Hin. unfold scaledValue. fold s. clearbody s.
  destruct (Z.eqb_spec s 0); [lia|]. destruct (Z.ltb_spec s 0); [lia|].
  assert (0 < 10 ^ s) as Hp by (apply Z.pow_pos_nonneg; lia).
  pose proof (Z.div_mod u (10 ^ s) ltac:(lia)) as Hd. pose proof (Z.mod_pos_bound u (10 ^ s) Hp).
  pose proof (Z.div_pos u (10 ^ s) Hu Hp).
  destruct ((u <? 2 ^ 63 - 1) && (s <? 19)) eqn:E.
  - apply andb_prop in E as [E1%Z.ltb_lt E2%Z.ltb_lt]. assert (in64 u) by (width; lia).
    unfold int64_Pow10. rewrite (proj2 (Z.leb_le s 18)) by lia. rewrite (wrap64_in u) by done.
    unfold div64. rewrite Z.quot_div_nonneg, Z.rem_mod_nonneg by lia.
    rewrite (wrap64_in (u / 10 ^ s)) by (width; nia).
    destruct (Z.eqb_spec (u mod 10 ^ s) 0) as [Em|Em]; simpl.
    + rewrite Z.div_opp_l_z by lia. lia.
    + rewrite Z.div_opp_l_nz in * by lia. rewrite wrap64_in; [lia|]. replace (u / 10 ^ s + 1) with (- (- (u / 10 ^ s) - 1)) by lia. done.
  - destruct (Z.eqb_spec (u mod 10 ^ s) 0) as [Em|Em]; simpl.
    + rewrite Z.div_opp_l_z in * by lia. rewrite wrap64_in; [lia|]. by rewrite Z.opp_involutive in Hin.
    + rewrite Z.div_opp_l_nz in * by lia. rewrite (wrap64_in (u / 10 ^ s)) by (width; lia).
      rewrite wrap64_in; [lia|]. replace (u / 10 ^ s + 1) with (- (- (u / 10 ^ s) - 1)) by lia. done.
Qed.

Lemma scaledValue_up u old new :
  let k := new - old in
  0 ≤ u → 0 ≤ k → in64 (u * 10 ^ k) → scaledValue out_of_range u old new = u * 10 ^ k.
Proof.
  intros k Hu Hk Hin. unfold scaledValue. replace (old - new) with (- k) by lia. clearbody k.
  assert (0 < 10 ^ k) as Hp by (apply Z.pow_pos_nonneg; lia). assert (in64 u) as Hu64 by (width; nia).
  rewrite (wrap64_in u) by done. destruct (Z.eqb_spec (- k) 0) as [E|E].
  { assert (k = 0) as -> by lia. lia. }
  destruct (Z.ltb_spec (- k) 0); [|lia]. rewrite Z.opp_involutive. unfold int64_Pow10.
  destruct (Z.leb_spec k 18); [by rewrite wrap64_in|].
  assert (u = 0) as ->; [|done]. pose proof (Z.pow_le_mono_r 10 19 k ltac:(lia) ltac:(lia)) as H19.
  change (10 ^ 19) with 10000000000000000000 in H19. width. nia.
Qed.

(** The integer value of a quantity that is not negative is its number in the unit that
    is asked for, rounded up, whenever that fits. *)
Lemma ScaledValue_ceil q s :
  quantity_ok q → - 2 ^ 27 < s < 2 ^ 27 → 0 ≤ value (amount_of q) → in64 (ceil_at (amount_of q) s) →
  ScaledValue out_of_range q s = ceil_at (amount_of q) s.
Proof.
  unfold quantity_ok, amount_of, ScaledValue, ceil_at, at_scale. destruct (q_d q) as [d|].
  - intros [Hd _] Hs Hv Hin. cbn [dec_amount value scale] in *. unfold infScale. rewrite wrap32_in by (bounds; lia).
    destruct (Z.leb_spec s (- dec_scale d)).
    + rewrite scaledValue_up by (lia || (by replace (- s - dec_scale d) with (- dec_scale d - s) by lia)).
      do 2 f_equal. lia.
    + rewrite scaledValue_down by (lia || (by replace (dec_scale d - - s) with (s - - dec_scale d) by lia)).
      do 3 f_equal. lia.
  - intros [Hv64 Hd] Hs Hv Hin. unfold AsScaledInt64_value. destruct (Z.leb_spec s (scale (q_i q))).
    + destruct (Z.ltb_spec (scale (q_i q)) s); [lia|]. rewrite wrap32_in by (bounds; lia).
      by apply positiveScale_value_in; [|lia|].
    + destruct (Z.ltb_spec (scale (q_i q)) s); [|lia]. rewrite wrap32_in by (bounds; lia).
      rewrite negativeScaleInt64_spec by (done || lia). simpl. apply round_away_ceil; [done|].
      apply Z.pow_pos_nonneg; lia.
Qed.

End Values.



(** Below zero the two representations disagree with each other and with the documented
    ceiling: minus one and a half units are minus two, or zero. *)
Example negative_values_disagree :
  let q := NewMilliQuantity (-1500) DecimalSI in
  Quantity_Value (λ _, 0) q = -2 ∧ Quantity_Value (λ _, 0) (ToDec q) = 0 ∧ ceil_at (amount_of q) 0 = -1.
Proof. by vm_compute. Qed.

(** ** The cached string *)

(** A string that is kept is parsed to the quantity that keeps it. *)
Definition cache_ok (q : Quantity) : Prop :=
  q_s q = "" ∨ ∃ q', ParseQuantity (q_s q) = Ok q' ∧ same_amount (amount_of q) (amount_of q').

Lemma parse_fast_cache str p e f q : parse_fast str p e f = Some (Ok q) → q_s q = "" ∨ q_s q = str.
Proof.
  unfold parse_fast. destruct (parse_scale _ _ e f) as [[precision sc] mantissa].
  destruct (0 <=? precision); [|done]. simpl. destruct (Nano <=? _); [|done]. simpl.
  destruct (Atoi _) as [v|]; [|done]. destruct (int64Multiply v mantissa) as [r|]; [|done].
  intros [= <-]. simpl. case_match; auto.
Qed.

Lemma parse_cache str q : ParseQuantity str = Ok q → q_s q = "" ∨ q_s q = str.
Proof.
  unfold ParseQuantity. destruct (slen str =? 0); [done|]. case_bool_decide; [intros [= <-]; by right|].
  destruct (parseQuantityString str) as [p|]; [|done]. destruct (interpret (p_suffix p)) as [[[b e] f]|]; [|done].
  destruct (parse_fast str p e f) as [[r|]|] eqn:E; [intros [= <-]; by eapply parse_fast_cache|done|].
  unfold parse_slow. destruct (SetString _); [|done]. destruct (Unscaled _). intros [= <-]. by left.
Qed.

Lemma ParseQuantity_cache_ok str q : ParseQuantity str = Ok q → cache_ok q.
Proof. intros Hq. destruct (parse_cache str q Hq) as [H|H]; [by left|right]. rewrite H. by exists q. Qed.

(** The operations on a quantity. Reading the JSON value null is not among them. *)
Inductive quantity_step : Quantity → Quantity → Prop :=
  | step_String q : quantity_ok q → printable q → quantity_step q (Quantity_String q).2
  | step_ToDec q : quantity_ok q → quantity_step q (ToDec q)
  | step_Cmp q y : quantity_ok q → quantity_ok y → quantity_step q (Quantity_Cmp q y).2
  | step_RoundUp q s : quantity_step q (RoundUp q s).2
  | step_Add q y : quantity_step q (Quantity_Add q y)
  | step_Sub q y : quantity_step q (Quantity_Sub q y)
  | step_Neg q : quantity_step q (Neg q)
  | step_SetScaled q value scale : quantity_step q (SetScaled q value scale)
  | step_UnmarshalJSON q data q' : data ≠ "null" → UnmarshalJSON q data = Ok q' → quantity_step q q'.

Lemma cache_ok_same q q' : q_s q' = q_s q → amount_of q' = amount_of q → cache_ok q → cache_ok q'.
Proof. intros Hs Ha [H|H]; [left|right]; by rewrite ?Hs, ?Ha. Qed.

Lemma String_parses q :
  quantity_ok q → printable q → cache_ok q →
  ∃ q', ParseQuantity (Quantity_String q).1 = Ok q' ∧ same_amount (amount_of q) (amount_of q').
Proof.
  intros Hok Hp Hc. unfold Quantity_String. destruct (Z.eqb_spec (slen (q_s q)) 0) as [E|E].
  - pose proof (print_parse q Hok Hp) as H. destruct (CanonicalizeBytes q) as [n s]. destruct H as (q' & H1 & H2 & _).
    by exists q'.
  - destruct Hc as [Hc|Hc]; [by rewrite Hc in E|done].
Qed.

Lemma cache_step q q' : quantity_step q q' → cache_ok q → cache_ok q'.
Proof.
  intros [q0 Hok Hp|q0 Hok|q0 y Hok Hy|q0 s|q0 y|q0 y|q0|q0 v s|q0 data q1 Hd Hj] Hc.
  - pose proof (String_parses q0 Hok Hp Hc) as H. right. revert H. unfold Quantity_String.
    destruct (slen (q_s q0) =? 0); [by destruct (CanonicalizeBytes q0)|done].
  - apply (cache_ok_same q0); [apply ToDec_s|by apply ToDec_amount|done].
  - apply (cache_ok_same q0); [|by apply Quantity_Cmp_exact|done]. unfold Quantity_Cmp.
    pose proof (Quantity_AsDec_ToDec q0) as E. pose proof (ToDec_s q0) as E'.
    destruct (Quantity_AsDec q0) as [d q2]. cbn [snd] in E. subst q2. by destruct (q_d q0), (q_d y).
  - unfold RoundUp. destruct (q_d q0); [by destruct (Dec_AsScale _ _); left|].
    destruct (s <=? _); [done|]. by destruct (AsScale _ _); left.
  - left. apply Add_cache.
  - left. apply Sub_cache.
  - left. unfold Neg. simpl. by destruct (q_d q0).
  - by left.
  - unfold UnmarshalJSON in Hj. rewrite bool_decide_false in Hj by done. by eapply ParseQuantity_cache_ok.
Qed.

(** C22: The string that a quantity keeps never goes stale: after any sequence of sums,
    differences, negations, roundings, comparisons, promotions, settings, printing and
    reading of JSON values other than null, from a parsed quantity, what [String] returns is
    parsed to the number the quantity holds. The quantity at the end, and each one that is
    printed on the way, is [printable], and these, the promoted and the compared ones are
    within the bounds of [quantity_ok]; what fails otherwise is in [thousand_exa_printed]
    and [null_keeps_string]. *)
Theorem String_never_stale (q0 q : Quantity) (str : string) :
  ParseQuantity str = Ok q0 → rtc quantity_step q0 q → quantity_ok q → printable q →
  ∃ q', ParseQuantity (Quantity_String q).1 = Ok q' ∧ same_amount (amount_of q) (amount_of q').
Proof.
  intros Hp Hsteps Hok Hpr. apply String_parses; [done..|].
  apply ParseQuantity_cache_ok in Hp. induction Hsteps as [|? ? ? Hstep _ IH]; [done|].
  apply IH; [by eapply cache_step|done..].
Qed.

Lemma String_never_stale_witness :
  let q0 := mkQuantity (mkAmount 1073741824 0) None "1Gi" BinarySI in
  let q := Quantity_Add q0 (NewQuantity 1024 BinarySI) in
  ∃ q', ParseQuantity (Quantity_String q).1 = Ok q' ∧ same_amount (amount_of q) (amount_of q').
Proof.
  intros q0 q. apply (String_never_stale q0 q "1Gi"); [by vm_compute| | |].
  - eapply rtc_l; [|apply rtc_refl]. apply (step_Add _ (NewQuantity 1024 BinarySI)).
  - by vm_compute; repeat split; discriminate.
  - by vm_compute.
Defined.

(** The JSON value null resets the number and not the string: the quantity is zero and
    still printed as it was. *)
Example null_keeps_string :
  (q ← MustParse "1Gi";
   q ← match UnmarshalJSON q "null" with Ok q => Some q | Err _ => None end;
   Some (IsZero q, (Quantity_String q).1)) = Some (true, "1Gi").
Proof. by vm_compute. Qed.

(** ** JSON *)

Lemma all_chars_contains f s c : all_chars f s = true → ContainsChar s c = true → f c = true.
Proof.
  induction s as [|a s IH]; simpl; [done|]. intros [Ha Hs]%andb_prop [->%bool_decide_eq_true|Hc]%orb_prop; auto.
Qed.

Lemma digit_visible c : is_digit c = true → visible c = true.
Proof. unfold is_digit, visible. intros [H1 H2]%andb_prop. apply andb_true_iff. lia. Qed.

Lemma suffix_visible suf : interpret suf ≠ None → all_chars visible suf = true.
Proof.
  unfold interpret. repeat case_bool_decide; subst; try (by intros _; vm_compute).
  unfold sh_interpret, lookup_suffix. destruct (suffixToBE (decSuffixes newSuffixer) !! suf) as [x|] eqn:E1.
  { apply lookup_in in E1. set (l := map_to_list _) in E1. vm_compute in l. subst l.
    repeat (apply elem_of_cons in E1 as [[= -> ->]|E1]); [by vm_compute..|by apply elem_of_nil in E1]. }
  destruct (suffixToBE (binSuffixes newSuffixer) !! suf) as [x|] eqn:E2.
  { apply lookup_in in E2. set (l := map_to_list _) in E2. vm_compute in l. subst l.
    repeat (apply elem_of_cons in E2 as [[= -> ->]|E2]); [by vm_compute..|by apply elem_of_nil in E2]. }
  destruct suf as [|c rest]; [done|]. destruct ((1 <? _) && _) eqn:Ec; [|done]. apply andb_prop in Ec as [_ Ec].
  rewrite orb_true_iff, !bool_decide_eq_true in Ec. destruct (Atoi rest) as [z|] eqn:Ez; [|done]. intros _.
  apply Atoi_inv in Ez as (sgn & ds & -> & Hsgn & Hds & _).
  change (String c (sgn +:+ ds)) with (String c "" +:+ (sgn +:+ ds)). rewrite !all_chars_app.
  rewrite (all_chars_impl is_digit visible ds digit_visible) by done.
  apply is_sign_cases in Hsgn as [-> | [-> | ->]]; destruct Ec; subst; by vm_compute.
Qed.

Lemma accepted_visible str q : ParseQuantity str = Ok q → all_chars visible str = true.
Proof.
  intros Hq. destruct (ParseQuantity_accepts str) as [H _].
  destruct (H q Hq) as (suf & (sgn & ds & frac & fs & -> & Hsgn & Hds & Hfs & Hfrac) & Hint).
  rewrite !all_chars_app, (suffix_visible suf Hint), (all_chars_impl is_digit visible ds digit_visible) by done.
  assert (all_chars visible sgn = true) as ->
    by (apply is_sign_cases in Hsgn as [-> | [-> | ->]]; by vm_compute).
  destruct Hfrac as [[-> _]| ->]; [done|]. rewrite all_chars_app.
  by rewrite (all_chars_impl is_digit visible fs digit_visible).
Qed.

Lemma unquote r s : all_chars visible s = true → UnmarshalJSON r (quote +:+ s +:+ quote) = ParseQuantity s.
Proof.
  intros Hs. unfold UnmarshalJSON. rewrite bool_decide_false by done.
  assert (slen (quote +:+ s +:+ quote) = slen s + 2) as El by (rewrite !slen_app; change (slen quote) with 1; lia).
  rewrite El. pose proof (slen_nonneg s). destruct (Z.leb_spec 2 (slen s + 2)); [|lia].
  rewrite (proj2 (HasPrefix_spec _ quote)) by (by eexists).
  rewrite (proj2 (HasSuffix_spec _ quote)) by (exists (quote +:+ s); by rewrite string_app_assoc).
  simpl andb. cbv iota. rewrite !string_length_app.
  replace (String.length quote + (String.length s + String.length quote) - 2)%nat with (String.length s)
    by (change (String.length quote) with 1%nat; lia).
  change (String.substring 1 (String.length s) (quote +:+ s +:+ quote)) with (String.substring 0 (String.length s) (s +:+ quote)).
  rewrite substring_app, TrimSpace_visible; [done|]. intros c Hc. by eapply all_chars_contains.
Qed.

(** A quantity that is marshalled is unmarshalled to an equal one, into any receiver. *)
Theorem json_roundtrip (q r : Quantity) :
  quantity_ok q → printable q → cache_ok q →
  ∃ q', UnmarshalJSON r (MarshalJSON q) = Ok q' ∧ same_amount (amount_of q) (amount_of q').
Proof.
  intros Hok Hp Hc. destruct (String_parses q Hok Hp Hc) as (q' & H1 & H2). exists q'. split; [|done].
  pose proof (accepted_visible _ _ H1) as Hvis. rewrite <- H1, <- (unquote r) by done. f_equal.
  unfold MarshalJSON, Quantity_String. pose proof (slen_nonneg (q_s q)).
  destruct (Z.eqb_spec (slen (q_s q)) 0), (Z.ltb_spec 0 (slen (q_s q))); try lia; [|done].
  destruct (CanonicalizeBytes q) as [n s]. cbv zeta. cbn [fst]. by rewrite (string_app_assoc n).
Qed.

(** Copies hold the same number, string and format. *)
Lemma copies_same q :
  amount_of (Copy q) = amount_of q ∧ q_s (Copy q) = q_s q ∧ q_format (Copy q) = q_format q ∧ DeepCopy q = q.
Proof. destruct q as [i [d|] s f]; done. Qed.

(** The comments promise that a fraction is lost, that no quantity is larger than an
    [int64] or has more than three decimal places. A fraction is rounded up, and decimal
    quantities are neither capped nor rounded to thousandths. *)
Example documented_limits :
  Quantity_Value (λ _, 0) (NewMilliQuantity 1500 DecimalSI) = 2 ∧
  (q ← MustParse "10E"; Some (amount_of q)) = Some (mkAmount 10 18) ∧
  (q ← MustParse "0.1m"; Some (Quantity_String q).1) = Some "100u".
Proof. by vm_compute. Qed.
